(* ===== verification/_CoqProject ===== *)
-Q . S2P
Prelude.v
Threads.v
PyStr.v
Common.v
Files.v
PyFloat.v
Json.v
Base64.v
Heapq.v
Hrw.v
Cluster.v
Protection.v
Catalog.v
ProtectionTable.v
Snapshots.v
Scope.v
ReplicationPlan.v
ReplicationPush.v
ReplicationVerify.v
NodeIdentity.v
MembershipModel.v
Membership.v
RemoteContext.v
Replication.v
Erasure.v
ErasurePlacement.v
Cas.v
StorageNode.v
Custody.v
LocalGc.v
FastCdc.v
Chunker.v
BackupWorker.v
Backup.v
BackupRun.v
BackupSafe.v
RestoreFetch.v
RestoreFs.v
Restore.v
RestoreRun.v
ErasureTables.v
ErasureScope.v
ShardStore.v
EcRemote.v
EcPush.v
EcPusher.v
EcVerify.v
EcRestore.v
MetaModels.v
MetaCodec.v
MetaWalk.v
MetaStore.v
MetaValidate.v
MetaGc.v
