(* ===== verification/Prelude.v ===== *)
(** * Stopan: a verification development

    Stopan is a peer-to-peer backup program in Python ([src/src/stopan]). A backup cuts
    files into chunks named by their BLAKE3 digest, stores them in a content-addressed
    store and records them in a SQLite catalogue as snapshots, items and recipes. A push
    sends copies of the chunks, or the shards of erasure-coded packs, to other nodes chosen
    by rendezvous hashing on the view of the cluster; the catalogue keeps the evidence of
    protection and the placement epoch it was obtained in. A verification asks the nodes
    again. A restore reads chunks from the local store, from the nodes and from packs, and
    rebuilds the tree. The nodes find each other with a SWIM protocol whose incarnations are
    stored in an identity file. Garbage collection removes what no snapshot refers to. After
    a command the catalogue is exported as a graph of immutable objects, kept encrypted.

    This library models that core as executable definitions and proves it correct. Files
    under [src/src/stopan/] are named below without that prefix.

    ** Parts and files

    Shared ground:
    - [Prelude]: this file. Exceptions and results ([res]), state passing with exceptions
      ([SM S A]; Python keeps what was mutated before a raise), an invariant calculus for
      [SM] ([sm_respects] and its composition lemmas), big-endian bytes, stable insertion
      sort as the meaning of [sorted], prefix and filter lemmas, shared tactics.
    - [Threads]: threads that share a state ([thread S A], programs of atomic steps), their
      interleavings ([interleave]), one thread alone ([run]) and a rely-guarantee judgement
      ([safe], [interleavings_ok]).
    - [PyStr]: Python strings as lists of code points; [strip], [isdecimal], [rsplit],
      ordering, decimal numerals, UTF-8.
    - [Common]: [common/sequences.py], [batching.py], [hashes.py], [validators.py].
    - [Json]: [common/json.py], canonical JSON and the parser of [json.loads]; reading what was
      printed gives the value back ([loads_canonical]).
    - [Heapq]: the array heap of Python's [heapq]; the class [MinHeap] states what a client
      may rely on and [heapq_min_heap] proves the array heap satisfies it.

    Placement, catalogue and replication:
    - [Hrw]: [placement/hrw.py], proved against [MinHeap] only. [Cluster]:
      [placement/epoch.py] and [cluster/view.py]. [Protection]: [protection/policy.py],
      [replication/states.py], [ec/states.py].
    - [Catalog], [ProtectionTable], [Snapshots]: [metadata/database.py]. [Catalog] has the
      tables (one field per table, primary keys as map keys) and the operations on
      snapshots, items, recipes and chunks; [ProtectionTable] the readers and writers of
      [chunk_protection]; [Snapshots] the step relation [cstep], one constructor per
      writing operation, and the invariant [catalog_wf].
    - [Scope]: [protection/scope.py], what a push or a verification works on.
    - [ReplicationPlan], [ReplicationPush], [ReplicationVerify]: [protection/replication/]
      [placement.py]; [remote_client.py], [push_execution.py] and the update loop of
      [pusher.py]; [verifier.py] and [verify_models.py]. [RemoteContext]:
      [cluster/membership_client.py], [cluster/resolver.py], [protection/remote_context.py].
      [Replication]: the commands [push_to_network] and [verify_remote_protection].
    - [NodeIdentity]: [node/identity.py]. [MembershipModel], [Membership]:
      [node/membership/models.py], [validation.py], [gossip.py], [manager.py] and
      [node/services/membership_rpc.py]; [Manager] is the state of a MembershipManager with
      its identity file. Each operation is a thread whose steps are what the code does
      under one lock and each other attribute it reads or assigns; [mthread] lists the
      threads of a node, any number of which interleave.

    Stores:
    - [Cas]: [cas/repository.py]; other processes act between the steps of a write.
    - [StorageNode]: [node/storage/commit_engine.py], the chunk handlers of
      [node/services/storage_rpc.py], [rpc/auth.py]. [ShardStore]:
      [node/storage/ec_shard_store.py] and [node/services/ec_storage_rpc.py].
    - [Custody]: the client of a push against the storage services of its targets.
    - [LocalGc]: [gc/local_files.py], [gc/path_safety.py], [cas/gc.py],
      [node/storage/ec_gc.py], [metadata/packs/gc.py] on a file system with links; every
      system call is a step of its own, before which other processes change the tree.

    Backup:
    - [FastCdc]: [chunking/fastcdc.c] on 64-bit words. [Chunker]: [chunking/chunker.py] and
      [recipes.py]. [BackupWorker]: [chunking/chunk_index.py], [planner.py] and
      [backup/worker.py]. [Backup]: [backup/policy.py], [identity.py], [models.py],
      [scanning/scanner.py] and the coordinator of [backup/service.py]. [BackupRun] and
      [BackupSafe] hold what a run achieves and what all runs together keep.

    Restore:
    - [RestoreFetch]: [restore/fetch.py], [remote_client.py], [prefetcher.py] and the
      batches of [rpc/p2p_storage_client.py]; the class [EcRecovery] is what it asks of the
      erasure side. [RestoreFs]: a file system with links, failing calls and other
      processes, and [restore/paths.py]. [Restore], [RestoreRun]: [restore/restorer.py] and
      [service.py].

    Erasure coding:
    - [Erasure], [ErasurePlacement]: [protection/ec/models.py], [codec.py], [packer.py],
      [manifest.py], [placement.py]. [ErasureTables], [ErasureScope]: the tables of packs in
      [metadata/database.py] and the erasure side of [protection/scope.py]. [EcRemote]:
      [remote_client.py] and [shard_targets.py]. [EcPush], [EcPusher]: [push_execution.py],
      [pusher.py], [metadata_adapter.py]. [EcVerify]: [verifier.py]. [EcRestore]:
      [restore/ec_fetch.py], an instance of [EcRecovery].

    Metadata objects:
    - [PyFloat]: Python floats named by the decimal that [repr] prints, correctly rounded
      reading of decimals. [Base64]: [common/encoding.py]. [Files]: [atomic_write_bytes] of
      [common/fs.py] and paths.
    - [MetaModels], [MetaCodec]: [metadata/objects/models.py] and [codec.py]: the thirteen
      classes of objects with the checks of their constructors ([check_*]; [valid_object]
      says that they passed), their payloads and canonical bytes, and the decoder.
    - [MetaWalk]: [metadata/objects/graph/walk.py], the envelopes, the references and the
      collection of what a catalogue needs. [MetaStore]: [metadata/objects/store/] and
      [graph/runtime.py], the encrypted files, the pointer [latest.json] and [put_graph].
    - [MetaValidate]: [graph/validation.py], the checks across the objects of a graph before
      it is imported. [MetaGc]: [metadata/objects/gc.py] without the packs: the mark reads the
      store of [MetaStore], the sweep works on the tree of [LocalGc].

    ** What the theorems show

    - No data is forgotten: [Scope.no_chunk_forgotten], [ErasureScope.no_erasure_chunk_forgotten]
      (a chunk of a snapshot is protected or will be pushed),
      [Replication.push_settles_pending], [Custody.placed_is_stored] and
      [EcPusher.placed_packs_are_in_custody] (PLACED means real copies and real shards, for
      every order of completion), [ReplicationVerify.verify_stores_the_truth],
      [EcVerify.verified_packs_are_held], [StorageNode.acks_are_stored],
      [ShardStore.acknowledged_shard_is_served].
    - Backup: a run ends COMPLETE with exactly the tree or FAILED
      ([BackupRun.backup_complete_or_failed]); a worker secures the chunks of its file;
      [BackupSafe.backup_keeps_durable] composes both over all runs; the chunks are the file,
      the cut points terminate and partition it.
    - Restore: a completed restore is the snapshot, no restore touches anything else, a chunk
      that is used is genuine, one reachable copy or [data_shards] reachable custodians are
      enough ([EcRestore.any_k_custodians_restore]).
    - The catalogue: [Snapshots.catalog_reachable_wf] and
      [ErasureTables.erasure_tables_are_well_formed] are the invariants by rule induction;
      finished snapshots are frozen; pushed packs are read back as written.
    - Garbage collection removes only what has the name of garbage and spares what snapshots
      need, whatever others do; when they change no symbolic links meanwhile ([steady]) it
      removes only old regular files inside its root. [LocalGc.validation_races_with_unlink]
      shows that the condition is needed.
    - Placement and membership: the bounded heap computes the ranking; what a node knows of
      the others only advances, and what it says of itself is covered by its identity file,
      in every interleaving of its threads ([Membership.views_only_advance]); gossip may be
      reordered and repeated; refutation works when no other thread interferes; announced
      incarnations strictly increase, also when a write of the identity file raises after it
      replaced the file.
    - Erasure coding: any [data_shards] shards recover every chunk; bad shards never give bad
      data; the bound on messages is exact.
    - Metadata objects: an object is what its bytes say and its hash names it
      ([MetaWalk.objects_round_trip]); the walk ends and collects exactly what is needed or
      raises ([MetaWalk.walk_collects_reachable]); what was stored is read back and an
      exported graph is recovered whole ([MetaStore.stored_objects_are_read_back],
      [MetaStore.exported_graph_is_recovered]); validation accepts exactly the coherent graphs
      ([MetaValidate.validation_accepts_coherent_graphs]) and a collection deletes only what
      the newest catalogue does not need ([MetaGc.metadata_gc_deletes_only_unreferenced]).
    - Defects shown by theorems: [StorageNode.unsized_frame_acked_but_lost],
      [ReplicationVerify.shared_address_counts_twice] (members behind one address count twice
      in a push, once in a verification), [Membership.largest_incarnation_poisons],
      [Membership.own_incarnation_can_go_back] and [Membership.left_can_be_overwritten] (two
      schedules without a common lock), [FastCdc.large_max_size_overflows],
      [Cas.removed_directory_never_recovers].

    ** Parameters of the model

    Code that is not part of the repository is an argument: [blake3 : bytes → bytes] (what
    depends on collisions says so, mostly by exhibiting one), Zstandard (decompression
    undoes compression), zfec's encoder and decoder ([zfec_mds] is its documented law:
    systematic, any k blocks decode), the answers of remote calls, the order in which
    concurrent tasks complete (any permutation), clocks, random choices, what other processes
    do to files between two system calls, and which system calls fail. Texts of exceptions of
    libraries and of the operating system are arguments where the code stores them.

    ** Conventions, bounds and fuel

    - Integers are Z; the uint64 and int64 fields of the messages raise ValueError out of
      range, as protobuf does; FastCDC hashes modulo 2^64 and computes positions in Py_ssize_t: its parser
      refuses larger sizes and a sum beyond it wraps around. Integers stored by SQLite are
      within its 64 bits.
    - A dict is a [gmap] where the order of iteration is irrelevant to the claim, and an
      association list or the explicit order where it matters. Membership tables iterate
      in map order instead of insertion order: the theorems do not depend on it.
    - A transaction that raises leaves the catalogue as it was. Timestamps are rationals.
    - Fuel: the sifting loops of the heap get the length of the array ([heapq_min_heap] shows
      it suffices); the decimal printer the size of the number in bits ([digits_of_fuel]); the
      varint loop of message sizes the bits of the number; path resolution 40 links, as the
      operating system; [drain_iterator] the length of the data; the walks of directories the
      number of directories; [makedirs] the length of the path; adaptive batches the length of
      the batch. The walk over the object graph gets one step
      for each reference of each object that can be read ([walk_fuel]); the JSON parser twice
      the length of the text, at most two calls per character ([loads_print]).
      The recursion of the validation over trees is bounded by the stack of the interpreter,
      an argument; one deeper than the number of objects is never exhausted. Every other loop is structural on the list it consumes.
    - [isinstance] checks are types, except where the code distinguishes bool from int
      ([pyval]) and in the JSON values,
      which keep Python's types. Messages of exceptions are kept only where the code reads them.
    - One reading of the clock serves one operation of the membership manager; how a write of
      the identity file ends may differ for each content it replaces. The lock of the
      identity store makes raising the stored incarnation one step, and no other process
      uses that file.
    - A restore works below an absolute, normal base directory; a UUID holds no separator;
      hard links are counted names; other processes leave the two working trees of a restore
      alone and may do anything elsewhere. The chunk store, which a restore also fills, is a
      state of its own, next to the tree.

    ** Not modelled

    - The command line, configuration files, jobs, progress output and the process life
      cycle: argument parsing, TOML reading and printing around the modelled operations.
    - Executors and the bounded queues: any order of completion covers them; the threads of
      a node are interleaved only on the membership manager. The
      cache of the placement epoch is a memo.
    - Of the metadata objects: the conversion between the rows of the catalogue and the
      objects ([metadata/objects/exchange/]), which reads columns that [Catalog] leaves out
      (times of creation); the collection of local packs; the file lock of the store.
    - The signed metadata packs and their store ([metadata/packs/]) and the identity keys
      ([metadata/identity/]): calls to cryptographic libraries and transfers of whole files.
    - The life cycle of the node server ([node/server.py], [node/lifecycle.py]): signals,
      ports and threads around the handlers.
*)

From stdpp Require Export prelude gmap sorting.
From Stdlib Require Export ZArith QArith.
From Stdlib Require Export Lqa.
From Stdlib Require Import Strings.Byte.
From Stdlib Require Import Permutation.

#[global] Open Scope Z_scope.
#[global] Open Scope nat_scope.

(** ** Hint database and shared tactics *)

Create HintDb stopan.
Create Rewrite HintDb stopan.

(** Splits boolean conjunctions, disjunctions, negations and comparisons found
    in the hypotheses into propositions. *)
Ltac bool_hyps :=
  repeat match goal with
  | H : (_ && _) = true |- _ => apply andb_true_iff in H; destruct H
  | H : (_ || _) = false |- _ => apply orb_false_iff in H; destruct H
  | H : negb _ = true |- _ => apply negb_true_iff in H
  | H : negb _ = false |- _ => apply negb_false_iff in H
  | H : bool_decide _ = true |- _ => apply bool_decide_eq_true in H
  | H : bool_decide _ = false |- _ => apply bool_decide_eq_false in H
  | H : (_ =? _)%Z = true |- _ => apply Z.eqb_eq in H
  | H : (_ =? _)%Z = false |- _ => apply Z.eqb_neq in H
  | H : (_ <=? _)%Z = true |- _ => apply Z.leb_le in H
  | H : (_ <=? _)%Z = false |- _ => apply Z.leb_gt in H
  | H : (_ <? _)%Z = true |- _ => apply Z.ltb_lt in H
  | H : (_ <? _)%Z = false |- _ => apply Z.ltb_ge in H
  | H : (_ =? _)%nat = true |- _ => apply Nat.eqb_eq in H
  | H : (_ =? _)%nat = false |- _ => apply Nat.eqb_neq in H
  | H : (_ <=? _)%nat = true |- _ => apply Nat.leb_le in H
  | H : (_ <=? _)%nat = false |- _ => apply Nat.leb_gt in H
  | H : (_ <? _)%nat = true |- _ => apply Nat.ltb_lt in H
  | H : (_ <? _)%nat = false |- _ => apply Nat.ltb_ge in H
  end.

(** Case analysis on every [match]/[if] scrutinee of the goal, then clean up. *)
Ltac split_matches := repeat (case_match; simplify_eq/=); bool_hyps.

(** Filtering after a map. *)
Lemma filter_map {A B} (f : A → B) (P : B → Prop) `{!∀ x, Decision (P x)} (l : list A) :
  filter P (f <$> l) = f <$> filter (λ x, P (f x)) l.
Proof. induction l as [|x l IH]; [done|]. rewrite fmap_cons, !filter_cons, IH. by destruct (decide (P (f x))). Qed.

(** ** Exceptions and results

    One constructor per exception class the modelled code raises or catches.
    Messages are kept only where the code itself reads them. *)
Inductive exn : Type :=
  | ValueError
  | RuntimeError
  | KeyError
  | OSError
  | FileNotFoundError
  | RpcError (details : list N)
  | StopanUsageError
  | StopanNetworkError
  | StopanConfigValueError
  | StopanConfigRuntimeError
  | StopanStorageOSError
  | MembershipConfigError
  | NodeIdentityError
  | NodeIdentityValueError
  | ErasureCodingError
  | ErasureCodingConfigError
  | ErasureCodingNetworkError
  | CASMissingChunkError
  | CASCorruptionError
  | CASRepositoryError
  | ZstdError
  | RestorePathError
  | RestoreDataError
  | ChunkUnavailableError
  | GarbageCollectionPathError
  | MetadataDatabaseError
  | MetadataDatabaseValueError
  | IntegrityError
  | OverflowError
  | TypeError
  | KeyboardInterrupt
  | StopanConfigError
  | StopanStorageError
  | FileExistsError
  | DataPackShardStoreError
  | DataPackShardHashMismatchError
  | DataPackShardTooLargeError
  | UnicodeEncodeError
  | UnicodeDecodeError
  | JSONDecodeError
  | RecursionError
  | EncodingError
  | InvalidTag
  | MetadataPassphraseError
  | JsonFileError
  | MetadataObjectError
  | MetadataObjectGraphWalkError
  | MetadataObjectImportError
  | MetadataObjectStoreError
  | MetadataObjectStoreAuthenticationError
  | MetadataObjectStoreMissingError
  | MetadataObjectGarbageCollectionError
  | RpcAbort (code : N).

#[export] Instance exn_eq_dec : EqDecision exn.
Proof. solve_decision. Defined.

(** The outcome of code that may raise. *)
Inductive res (A : Type) : Type :=
  | Ok (a : A)
  | Err (e : exn).
Arguments Ok {A} a.
Arguments Err {A} e.

#[export] Instance res_eq_dec {A} `{EqDecision A} : EqDecision (res A).
Proof. solve_decision. Defined.

#[export] Instance res_ret : MRet res := λ A a, Ok a.
#[export] Instance res_bind : MBind res := λ A B f m,
  match m with Ok a => f a | Err e => Err e end.
#[export] Instance res_fmap : FMap res := λ A B f m,
  match m with Ok a => Ok (f a) | Err e => Err e end.

Definition is_ok {A} (r : res A) : bool :=
  match r with Ok _ => true | Err _ => false end.

(** [raise_if c e] is [if c: raise e]. *)
Definition raise_if (c : bool) (e : exn) : res unit := if c then Err e else Ok ().

Lemma raise_if_Ok c e u : raise_if c e = Ok u ↔ c = false.
Proof. destruct c, u; cbn; split; congruence. Qed.

Lemma bind_Ok {A B} (m : res A) (f : A → res B) b :
  m ≫= f = Ok b ↔ ∃ a, m = Ok a ∧ f a = Ok b.
Proof.
  destruct m as [a|e]; cbn; split.
  - intros; exists a; done.
  - intros (? & ? & ?); simplify_eq; done.
  - done.
  - intros (? & ? & ?); simplify_eq.
Qed.

(** Turns [m ≫= f = Ok b] hypotheses into their components. *)
Ltac invert_ok :=
  repeat match goal with
  | H : mret _ = Ok _ |- _ => injection H as H
  | H : (raise_if _ _ = Ok _) |- _ => apply raise_if_Ok in H
  | H : (_ ≫= _) = Ok _ |- _ =>
      let a := fresh "a" in let H1 := fresh "Hok" in
      apply bind_Ok in H; destruct H as (a & H1 & H)
  | H : Err _ = Ok _ |- _ => discriminate H
  | H : Ok _ = Err _ |- _ => discriminate H
  | H : Ok _ = Ok _ |- _ => injection H as H
  end.

(** List comprehension whose body may raise: evaluated left to right. *)
Fixpoint mapM_res {A B} (f : A → res B) (l : list A) : res (list B) :=
  match l with
  | [] => Ok []
  | x :: l' => y ← f x; ys ← mapM_res f l'; Ok (y :: ys)
  end.

Lemma mapM_res_Ok {A B} (f : A → res B) l k :
  mapM_res f l = Ok k ↔ Forall2 (λ x y, f x = Ok y) l k.
Proof.
  split.
  - revert k; induction l as [|x l IH]; intros k H; cbn in H.
    + by simplify_eq.
    + invert_ok; subst. constructor; auto.
  - induction 1 as [|x y l k Hxy _ IH]; cbn; [done|]. by rewrite Hxy, IH.
Qed.

(** ** State passing with exceptions

    Python keeps the mutations made before an exception is raised, so the state
    is returned in both outcomes. *)
Definition SM (S A : Type) : Type := S → res A * S.

#[export] Instance sm_ret {S} : MRet (SM S) := λ A a s, (Ok a, s).
#[export] Instance sm_bind {S} : MBind (SM S) := λ A B f m s,
  match m s with
  | (Ok a, s') => f a s'
  | (Err e, s') => (Err e, s')
  end.

Definition sget {S} : SM S S := λ s, (Ok s, s).
Definition sgets {S A} (f : S → A) : SM S A := λ s, (Ok (f s), s).
Definition sput {S} (s' : S) : SM S unit := λ _, (Ok (), s').
Definition smodify {S} (f : S → S) : SM S unit := λ s, (Ok (), f s).
Definition sraise {S A} (e : exn) : SM S A := λ s, (Err e, s).
Definition slift {S A} (r : res A) : SM S A := λ s, (r, s).

(** [try: m; except <the exceptions accepted by h>: ...]; [h e = None] lets the
    exception through. *)
Definition scatch {S A} (m : SM S A) (h : exn → option (SM S A)) : SM S A := λ s,
  match m s with
  | (Ok a, s') => (Ok a, s')
  | (Err e, s') => match h e with Some k => k s' | None => (Err e, s') end
  end.

(** [for x in l: f x] *)
Fixpoint sfor {S A} (f : A → SM S unit) (l : list A) : SM S unit :=
  match l with
  | [] => mret ()
  | x :: l' => f x ;; sfor f l'
  end.

(** The same with an accumulator. *)
(** The outcome of [m] as a value: [try] with an [except] for everything. *)
Definition attempt {S A} (m : SM S A) : SM S (res A) := λ s, let '(r, s') := m s in (Ok r, s').

Fixpoint sfold {S A B} (f : A → B → SM S A) (l : list B) (a : A) : SM S A :=
  match l with
  | [] => mret a
  | x :: l' => a' ← f a x; sfold f l' a'
  end.

Lemma sm_bind_spec {S A B} (m : SM S A) (f : A → SM S B) s :
  (m ≫= f) s = match m s with
               | (Ok a, s') => f a s'
               | (Err e, s') => (Err e, s')
               end.
Proof. done. Qed.

(** A fold whose steps never raise and respect [R], a relation on accumulator and state. *)
Lemma sfold_total {S A B} (R : A * S → A * S → Prop) `{!PreOrder R} (f : A → B → SM S A) l a s :
  (∀ x a s, x ∈ l → ∃ a' s', f a x s = (Ok a', s') ∧ R (a, s) (a', s')) →
  ∃ a' s', sfold f l a s = (Ok a', s') ∧ R (a, s) (a', s').
Proof.
  revert a s. induction l as [|x l IH]; intros a s Hf; cbn [sfold]; [by exists a, s|].
  destruct (Hf x a s ltac:(by left)) as (a1 & s1 & E & R1). rewrite sm_bind_spec, E.
  destruct (IH a1 s1) as (a2 & s2 & E2 & R2); [intros; apply Hf; by right|].
  exists a2, s2. split; [done|]. by etransitivity.
Qed.

(** ... and one of its elements makes [D] hold for good. *)
Lemma sfold_reaches {S A B} (R : A * S → A * S → Prop) `{!PreOrder R} (I D : A → Prop)
    (f : A → B → SM S A) l x0 a s :
  (∀ x a s, x ∈ l → ∃ a' s', f a x s = (Ok a', s') ∧ R (a, s) (a', s')) →
  (∀ p q, R p q → I p.1 → I q.1) → (∀ p q, R p q → I p.1 → D p.1 → D q.1) →
  (∀ a s a' s', I a → f a x0 s = (Ok a', s') → D a') → I a → x0 ∈ l →
  ∃ a' s', sfold f l a s = (Ok a', s') ∧ R (a, s) (a', s') ∧ D a'.
Proof.
  intros Hf HI HD Hx0. revert a s. induction l as [|x l IH]; intros a s Ha Hin; [by inversion Hin|]. cbn [sfold].
  destruct (Hf x a s ltac:(by left)) as (a1 & s1 & E & R1). rewrite sm_bind_spec, E.
  pose proof (HI _ _ R1 Ha) as Ha1. apply elem_of_cons in Hin as [->|Hin].
  - destruct (sfold_total R f l a1 s1) as (a2 & s2 & E2 & R2); [intros; apply Hf; by right|].
    exists a2, s2. split_and!; [done|by etransitivity|]. apply (HD _ _ R2 Ha1). exact (Hx0 _ _ _ _ Ha E).
  - destruct (IH (λ y b t Hy, Hf y b t (proj2 (elem_of_cons _ _ _) (or_intror Hy))) a1 s1 Ha1 Hin)
      as (a2 & s2 & E2 & R2 & Hd).
    exists a2, s2. split_and!; [done|by etransitivity|done].
Qed.

(** A relation between the initial and the final state that every outcome of
    [m] respects. *)
Definition sm_respects {S A} (R : S → S → Prop) (m : SM S A) : Prop :=
  ∀ s, R s (m s).2.

(** What holds when [m] returns. *)
Definition sm_post {S A} (m : SM S A) (s : S) (Q : A → S → Prop) : Prop :=
  match m s with (Ok a, s') => Q a s' | (Err _, _) => True end.

Section post.
Context {S : Type}.

Lemma post_ret {A} (a : A) (s : S) (Q : A → S → Prop) : Q a s → sm_post (mret a) s Q.
Proof. done. Qed.

Lemma post_raise {A} e (s : S) (Q : A → S → Prop) : sm_post (sraise e) s Q.
Proof. done. Qed.

Lemma post_bind {A B} (m : SM S A) (k : A → SM S B) s Q :
  sm_post m s (λ a s', sm_post (k a) s' Q) → sm_post (m ≫= k) s Q.
Proof. unfold sm_post. rewrite sm_bind_spec. by destruct (m s) as [[a|e] s']. Qed.

Lemma post_mono {A} (m : SM S A) s (P Q : A → S → Prop) :
  sm_post m s P → (∀ a s', m s = (Ok a, s') → P a s' → Q a s') → sm_post m s Q.
Proof. unfold sm_post. destruct (m s) as [[a|e] s']; auto. Qed.

Lemma post_true {A} (m : SM S A) s : sm_post m s (λ _ _, True).
Proof. unfold sm_post. by destruct (m s) as [[a|e] s']. Qed.

(** What every outcome respects may be used. *)
Lemma post_respects {A} (R : S → S → Prop) (m : SM S A) s Q :
  sm_respects R m → sm_post m s (λ a s', R s s' → Q a s') → sm_post m s Q.
Proof. unfold sm_post. intros HR. specialize (HR s). destruct (m s) as [[a|e] s']; auto. Qed.

Lemma post_catch {A} (m : SM S A) h s Q :
  sm_post m s Q → (∀ e k s', m s = (Err e, s') → h e = Some k → sm_post k s' Q) → sm_post (scatch m h) s Q.
Proof.
  unfold sm_post, scatch. intros Hm Hh. destruct (m s) as [[a|e] s'] eqn:E; [done|].
  destruct (h e) as [k|] eqn:Ek; [by eapply Hh|done].
Qed.

Lemma post_fold {A B} (I : A → S → Prop) (f : A → B → SM S A) l a s :
  I a s → (∀ x a s, x ∈ l → I a s → sm_post (f a x) s I) → sm_post (sfold f l a) s I.
Proof.
  revert a s. induction l as [|x l IH]; intros a s Ha Hf; [done|]. apply post_bind. eapply post_mono.
  - apply Hf; [by left|done].
  - intros a' s' _ H. apply IH; [done|]. intros y b t Hy. apply Hf. by right.
Qed.
End post.

Section respects.
Context {S : Type} (R : S → S → Prop) `{!PreOrder R}.

Lemma respects_ret {A} (a : A) : sm_respects R (mret a).
Proof. intros s; cbn. reflexivity. Qed.

Lemma respects_gets {A} (f : S → A) : sm_respects R (sgets f).
Proof. intros s; cbn. reflexivity. Qed.

Lemma respects_raise {A} e : sm_respects R (sraise (A:=A) e).
Proof. intros s; cbn. reflexivity. Qed.

Lemma respects_lift {A} (r : res A) : sm_respects R (slift r).
Proof. intros s; cbn. reflexivity. Qed.

Lemma respects_modify (f : S → S) : (∀ s, R s (f s)) → sm_respects R (smodify f).
Proof. intros H s; cbn. apply H. Qed.

Lemma respects_bind {A B} (m : SM S A) (f : A → SM S B) :
  sm_respects R m → (∀ a, sm_respects R (f a)) → sm_respects R (m ≫= f).
Proof.
  intros Hm Hf s. rewrite sm_bind_spec. specialize (Hm s).
  destruct (m s) as [[a|e] s']; cbn in *; [|done].
  etransitivity; [exact Hm|apply Hf].
Qed.

Lemma respects_get {A} (k : S → SM S A) : (∀ s, R s (k s s).2) → sm_respects R (sget ≫= k).
Proof. intros H s. apply H. Qed.

(** At one state, with what the first part returned there. *)
Lemma respects_bind_at {A B} (m : SM S A) (f : A → SM S B) s :
  R s (m s).2 → (∀ a s', m s = (Ok a, s') → R s' (f a s').2) → R s ((m ≫= f) s).2.
Proof.
  intros Hm Hf. rewrite sm_bind_spec. destruct (m s) as [[a|e] s'] eqn:E; cbn in *; [|done].
  etransitivity; [exact Hm|]. by apply Hf.
Qed.

Lemma respects_attempt {A} (m : SM S A) : sm_respects R m → sm_respects R (attempt m).
Proof. intros H s. unfold attempt. specialize (H s). by destruct (m s). Qed.

Lemma respects_catch {A} (m : SM S A) h :
  sm_respects R m → (∀ e k, h e = Some k → sm_respects R k) →
  sm_respects R (scatch m h).
Proof.
  intros Hm Hh s. unfold scatch. specialize (Hm s).
  destruct (m s) as [[a|e] s']; cbn in *; [done|].
  destruct (h e) as [k|] eqn:E; [|done].
  etransitivity; [exact Hm|]. by apply (Hh e k).
Qed.

Lemma respects_for {A} (f : A → SM S unit) l :
  (∀ x, sm_respects R (f x)) → sm_respects R (sfor f l).
Proof.
  intros Hf. induction l as [|x l IH]; cbn; [apply respects_ret|].
  apply respects_bind; auto.
Qed.

Lemma respects_for' {A} (f : A → SM S unit) l :
  (∀ x, x ∈ l → sm_respects R (f x)) → sm_respects R (sfor f l).
Proof.
  intros Hf. induction l as [|x l IH]; cbn; [apply respects_ret|].
  apply respects_bind; [apply Hf; by left|]. intros _. apply IH. intros y Hy. apply Hf. by right.
Qed.

Lemma respects_fold {A B} (f : A → B → SM S A) l a :
  (∀ a x, sm_respects R (f a x)) → sm_respects R (sfold f l a).
Proof.
  intros Hf. revert a. induction l as [|x l IH]; intros a; [apply respects_ret|].
  cbn [sfold]. apply respects_bind; [apply Hf|]. intros a'. apply IH.
Qed.

Lemma respects_if {A} (b : bool) (m k : SM S A) :
  sm_respects R m → sm_respects R k → sm_respects R (if b then m else k).
Proof. by destruct b. Qed.
End respects.

(** Walks through a computation whose primitive steps [tac] proves to respect a preorder. *)
Ltac respects_walk tac :=
  repeat first
    [ progress intros
    | apply respects_ret; apply _
    | apply respects_raise; apply _
    | apply respects_gets; apply _
    | apply respects_lift; apply _
    | solve [tac]
    | apply respects_bind; [apply _| |]
    | case_match ].

#[export] Hint Resolve respects_ret respects_gets respects_raise respects_lift
  respects_bind respects_for respects_if : stopan.

(** ** Bytes *)

Definition bytes := list byte.

#[export] Instance byte_eq_dec' : EqDecision byte := byte_eq_dec.

(** [int.to_bytes(n, "big")] for a value known to fit in [n] bytes. *)
Fixpoint be_split (n : nat) (v : N) : bytes :=
  match n with
  | O => []
  | S n' => be_split n' (v / 256) ++
            [match Byte.of_N (v mod 256) with Some b => b | None => x00 end]
  end.

(** [int.from_bytes(bs, "big")] *)
Definition be_combine (bs : bytes) : N :=
  fold_left (λ acc b, acc * 256 + Byte.to_N b)%N bs 0%N.

Lemma be_combine_snoc bs b :
  be_combine (bs ++ [b]) = (be_combine bs * 256 + Byte.to_N b)%N.
Proof. unfold be_combine. by rewrite fold_left_app. Qed.

Lemma length_be_split n v : length (be_split n v) = n.
Proof.
  revert v; induction n as [|n IH]; intros v; cbn; [done|].
  rewrite length_app, IH; cbn; lia.
Qed.

Lemma byte_of_mod256 v :
  ∃ b, Byte.of_N (v mod 256) = Some b ∧ Byte.to_N b = (v mod 256)%N.
Proof.
  destruct (Byte.of_N (v mod 256)) as [b|] eqn:E.
  - exists b. split; [done|]. by apply Byte.to_of_N.
  - apply Byte.of_N_None_iff in E.
    pose proof (N.mod_lt v 256 ltac:(lia)). lia.
Qed.

Lemma be_combine_split n v :
  (v < 256 ^ N.of_nat n)%N → be_combine (be_split n v) = v.
Proof.
  revert v; induction n as [|n IH]; intros v Hv.
  - cbn in *. lia.
  - cbn [be_split]. destruct (byte_of_mod256 v) as (b & Hb & Hv').
    rewrite Hb, be_combine_snoc, Hv', IH.
    + rewrite N.mul_comm. symmetry. apply N.div_mod. lia.
    + apply N.Div0.div_lt_upper_bound.
      rewrite Nat2N.inj_succ, N.pow_succ_r' in Hv. lia.
Qed.

Lemma be_split_inj n v w :
  (v < 256 ^ N.of_nat n)%N → (w < 256 ^ N.of_nat n)%N →
  be_split n v = be_split n w → v = w.
Proof. intros Hv Hw H. rewrite <-(be_combine_split n v), <-(be_combine_split n w); congruence. Qed.

(** ** Insertion sort as the reference for [sorted] / [list.sort]

    Python's sort is stable; for a comparison [le] it returns the list this
    stable insertion sort returns. *)
Section sorting.
Context {A : Type} (leb : A → A → bool).

Fixpoint sort_insert (x : A) (l : list A) : list A :=
  match l with
  | [] => [x]
  | y :: l' => if leb x y then x :: y :: l' else y :: sort_insert x l'
  end.

Fixpoint py_sorted (l : list A) : list A :=
  match l with
  | [] => []
  | x :: l' => sort_insert x (py_sorted l')
  end.

Lemma sort_insert_perm x l : sort_insert x l ≡ₚ x :: l.
Proof.
  induction l as [|y l IH]; cbn; [done|]. destruct (leb x y); [done|].
  rewrite IH. by rewrite Permutation_swap.
Qed.

Lemma py_sorted_perm l : py_sorted l ≡ₚ l.
Proof. induction l as [|x l IH]; cbn; [done|]. by rewrite sort_insert_perm, IH. Qed.

Lemma length_py_sorted l : length (py_sorted l) = length l.
Proof. apply Permutation_length, py_sorted_perm. Qed.

Lemma elem_of_py_sorted x l : x ∈ py_sorted l ↔ x ∈ l.
Proof. by rewrite py_sorted_perm. Qed.

Context (leb_total : ∀ x y, leb x y = true ∨ leb y x = true)
        (leb_trans : ∀ x y z, leb x y = true → leb y z = true → leb x z = true).

Lemma sort_insert_sorted x l :
  StronglySorted (λ a b, leb a b = true) l →
  StronglySorted (λ a b, leb a b = true) (sort_insert x l).
Proof.
  induction 1 as [|y l Hl IH Hy]; cbn.
  - repeat constructor.
  - destruct (leb x y) eqn:E.
    + constructor; [by constructor|]. constructor; [done|].
      eapply Forall_impl; [exact Hy|]. intros z Hz. by eapply leb_trans.
    + constructor; [done|]. rewrite sort_insert_perm. constructor; [|done].
      destruct (leb_total x y); congruence.
Qed.

Lemma py_sorted_sorted l : StronglySorted (λ a b, leb a b = true) (py_sorted l).
Proof. induction l; cbn; [constructor|]. by apply sort_insert_sorted. Qed.

Context (leb_antisym : ∀ x y, leb x y = true → leb y x = true → x = y).

(** A sorted list is determined by its elements. *)
Lemma sorted_unique l k :
  StronglySorted (λ a b, leb a b = true) l →
  StronglySorted (λ a b, leb a b = true) k →
  l ≡ₚ k → l = k.
Proof.
  intros Hl. revert k. induction Hl as [|x l Hl IH Hx]; intros k Hk HP.
  - by apply Permutation_nil_l in HP.
  - destruct Hk as [|y k Hk Hy]; [by apply Permutation_nil_r in HP|].
    assert (x = y) as ->.
    { assert (x ∈ y :: k) as Hin by (rewrite <-HP; left).
      assert (y ∈ x :: l) as Hin' by (rewrite HP; left).
      apply elem_of_cons in Hin as [|Hin]; [done|].
      apply elem_of_cons in Hin' as [|Hin']; [done|].
      rewrite Forall_forall in Hx, Hy. apply leb_antisym; auto. }
    f_equal. apply IH; [done|]. by apply (inj (cons y)).
Qed.

Lemma py_sorted_Permutation l k : l ≡ₚ k → py_sorted l = py_sorted k.
Proof.
  intros HP. apply sorted_unique; auto using py_sorted_sorted.
  by rewrite !py_sorted_perm.
Qed.
End sorting.

(** ** Prefixes and filtering *)
Section take_filter.
Context {A : Type} (P : A → Prop) `{!∀ x, Decision (P x)}.

Lemma elem_of_take_filter k (l : list A) x :
  x ∈ take k l → P x → x ∈ take k (filter P l).
Proof.
  revert k; induction l as [|y l IH]; intros [|k] Hx Hp; cbn in Hx; try by inversion Hx.
  rewrite filter_cons. case_decide as Hy; cbn.
  - apply elem_of_cons in Hx as [->|Hx]; [left|right; auto].
  - apply elem_of_cons in Hx as [->|Hx]; [done|].
    specialize (IH k Hx Hp). rewrite elem_of_take in *. destruct IH as (i & ? & ?).
    exists i. split; [done|lia].
Qed.

Lemma take_filter_all k (l : list A) :
  Forall P (take k l) → take k (filter P l) = take k l.
Proof.
  revert k; induction l as [|y l IH]; intros [|k] Hk; try done.
  cbn in Hk. inversion Hk; subst. rewrite filter_cons_True by done. cbn. f_equal; auto.
Qed.
End take_filter.

Lemma StronglySorted_filter {A} (R : A → A → Prop) (P : A → Prop)
    `{!∀ x, Decision (P x)} (l : list A) :
  StronglySorted R l → StronglySorted R (filter P l).
Proof.
  induction 1 as [|x l Hl IH Hx]; [constructor|].
  rewrite filter_cons. case_decide; [|done]. constructor; [done|].
  rewrite Forall_forall in *. intros y [_ Hy]%list_elem_of_filter. auto.
Qed.

Lemma StronglySorted_fmap_inv {A B} (R : B → B → Prop) (f : A → B) (l : list A) :
  StronglySorted R (f <$> l) → StronglySorted (λ a b, R (f a) (f b)) l.
Proof.
  induction l as [|x l IH]; cbn; intros H; [constructor|].
  inversion_clear H as [|?? Hl Hx]. constructor; [auto|]. by rewrite Forall_fmap in Hx.
Qed.

(** Decides a closed decidable proposition by evaluation. *)
Ltac by_compute := refine (bool_decide_unpack _ _); vm_compute; exact I.

Lemma sublist_fmap {A B} (f : A → B) (l k : list A) :
  l `sublist_of` k → f <$> l `sublist_of` f <$> k.
Proof. induction 1; cbn; by constructor. Qed.

Lemma filter_all {A} (P : A → Prop) `{!∀ x, Decision (P x)} (l : list A) :
  Forall P l → filter P l = l.
Proof. induction 1; [done|]. rewrite filter_cons_True by done. by f_equal. Qed.

Lemma filter_single_False {A} (P : A → Prop) `{!∀ x, Decision (P x)} x : ¬ P x → filter P [x] = [].
Proof. intros. by rewrite filter_cons_False. Qed.
