(* ===== verification/Threads.v ===== *)
(** * Threads that share a state

    A thread is a program of atomic actions on the state; between two actions of one thread
    the others may act. A thread that runs alone is a state computation; any number of them
    interleave. [safe] is a rely-guarantee judgement: every action keeps an invariant and a
    preorder, whatever the others do within the same two. *)

From S2P Require Import Prelude.

(** ** Programs *)

Inductive thread (S A : Type) : Type :=
  | Stop (r : res A)
  | Act (f : S → S * thread S A).
#[global] Arguments Stop {_ _} r.
#[global] Arguments Act {_ _} f.

#[export] Instance thread_ret {S} : MRet (thread S) := λ A a, Stop (Ok a).

#[export] Instance thread_bind {S} : MBind (thread S) := λ A B k,
  fix go (p : thread S A) : thread S B :=
    match p with
    | Stop (Ok a) => k a
    | Stop (Err e) => Stop (Err e)
    | Act f => Act (λ s, let '(s', p') := f s in (s', go p'))
    end.

(** One indivisible action. *)
Definition atomic {S A} (m : SM S A) : thread S A := Act (λ s, let '(r, s') := m s in (s', Stop r)).
Definition tread {S A} (f : S → A) : thread S A := atomic (sgets f).
Definition tmodify {S} (f : S → S) : thread S unit := atomic (smodify f).
Definition tlift {S A} (r : res A) : thread S A := Stop r.
Definition traise {S A} (e : exn) : thread S A := Stop (Err e).

Fixpoint tcatch {S A} (p : thread S A) (h : exn → option (thread S A)) : thread S A :=
  match p with
  | Stop (Ok a) => Stop (Ok a)
  | Stop (Err e) => match h e with Some k => k | None => Stop (Err e) end
  | Act f => Act (λ s, let '(s', p') := f s in (s', tcatch p' h))
  end.

Fixpoint tfor {S A} (f : A → thread S unit) (l : list A) : thread S unit :=
  match l with
  | [] => mret ()
  | x :: l' => f x;; tfor f l'
  end.

(** ** One thread alone *)

Fixpoint run {S A} (p : thread S A) : SM S A := λ s,
  match p with
  | Stop r => (r, s)
  | Act f => let '(s', p') := f s in run p' s'
  end.

Lemma run_atomic {S A} (m : SM S A) s : run (atomic m) s = m s.
Proof. cbn. by destruct (m s). Qed.

Lemma run_bind {S A B} (p : thread S A) (k : A → thread S B) s :
  run (p ≫= k) s = match run p s with (Ok a, s') => run (k a) s' | (Err e, s') => (Err e, s') end.
Proof.
  revert p s. fix IH 1. intros p s. destruct p as [[a|e]|f]; [done..|].
  cbn. destruct (f s) as [s' p']. exact (IH p' s').
Qed.

Lemma run_read_bind {S A B} (f : S → A) (k : A → thread S B) s : run (tread f ≫= k) s = run (k (f s)) s.
Proof. done. Qed.
Lemma run_modify_bind {S B} (f : S → S) (k : unit → thread S B) s : run (tmodify f ≫= k) s = run (k ()) (f s).
Proof. done. Qed.
Lemma run_lift_bind {S A B} (r : res A) (k : A → thread S B) s :
  run (tlift r ≫= k) s = match r with Ok a => run (k a) s | Err e => (Err e, s) end.
Proof. by destruct r. Qed.

Lemma run_catch {S A} (p : thread S A) h s :
  run (tcatch p h) s = match run p s with
                       | (Err e, s') => match h e with Some k => run k s' | None => (Err e, s') end
                       | r => r
                       end.
Proof.
  revert p s. fix IH 1. intros p s. destruct p as [[a|e]|f]; cbn; [done|by destruct (h e)|].
  destruct (f s) as [s' p']. exact (IH p' s').
Qed.

Lemma run_for {S A} (f : A → thread S unit) l s : run (tfor f l) s = sfor (λ x, run (f x)) l s.
Proof.
  revert s. induction l as [|x l IH]; intros s; [done|]. cbn [tfor sfor]. rewrite run_bind, sm_bind_spec.
  destruct (run (f x) s) as [[u|e] s']; [apply IH|done].
Qed.

(** ** Many threads *)

Notation config S := (S * list (thread S unit))%type.

(** Any thread of the kind [T] may start, and any thread may take its next action. *)
Inductive interleave {S} (T : thread S unit → Prop) : config S → config S → Prop :=
  | il_spawn s ts t : T t → interleave T (s, ts) (s, ts ++ [t])
  | il_act s ts1 f ts2 : interleave T (s, ts1 ++ Act f :: ts2) ((f s).1, ts1 ++ (f s).2 :: ts2).

(** The thread with the given number acts, if it is there and has not ended. *)
Definition act {S} (c : config S) (i : nat) : config S :=
  match c.2 !! i with
  | Some (Act f) => let '(s', p') := f c.1 in (s', <[i := p']> c.2)
  | _ => c
  end.

Lemma act_steps {S} (T : thread S unit → Prop) c i : rtc (interleave T) c (act c i).
Proof.
  destruct c as [s ts]. unfold act. cbn [fst snd]. destruct (ts !! i) as [[r|f]|] eqn:E; try reflexivity.
  apply rtc_once. pose proof (take_drop_middle _ _ _ E) as Ets. pose proof (insert_take_drop ts i (f s).2) as Ei.
  pose proof (lookup_lt_Some _ _ _ E) as Hlt. specialize (Ei Hlt). destruct (f s) as [s' p'] eqn:Ef. cbn [snd] in Ei. rewrite Ei.
  rewrite <-Ets at 1. pose proof (il_act T s (take i ts) f (drop (Datatypes.S i) ts)) as H. by rewrite Ef in H.
Qed.

Lemma play_steps {S} (T : thread S unit → Prop) c l : rtc (interleave T) c (foldl act c l).
Proof. revert c. induction l as [|i l IH]; intros c; [done|]. cbn. etransitivity; [apply act_steps|apply IH]. Qed.

Lemma spawn_all {S} (T : thread S unit → Prop) (s : S) ts l :
  Forall T l → rtc (interleave T) (s, ts) (s, ts ++ l).
Proof.
  intros H. revert ts. induction H as [|t l Ht _ IH]; intros ts; [by rewrite app_nil_r|].
  eapply rtc_l; [by apply il_spawn|]. specialize (IH (ts ++ [t])). by rewrite <-app_assoc in IH.
Qed.

(** A thread that runs alone is one of the interleavings. *)
Lemma run_steps {S} (T : thread S unit → Prop) (p : thread S unit) s ts1 ts2 :
  ∃ r, rtc (interleave T) (s, ts1 ++ p :: ts2) ((run p s).2, ts1 ++ Stop r :: ts2).
Proof.
  revert p s. fix IH 1. intros p s. destruct p as [r|f]; [by exists r|]. cbn.
  pose proof (il_act T s ts1 f ts2) as H. destruct (f s) as [s' p'] eqn:E. cbn in *.
  destruct (IH p' s') as [r Hr]. exists r. by eapply rtc_l.
Qed.

(** ** Rely and guarantee *)

Section safe.
Context {S : Type} (I : S → Prop) (R : S → S → Prop) `{!PreOrder R}.

(** The state was left at [s], the others move it within [I] and [R]; the actions of [p]
    do so too, and [Q] holds when [p] returns. *)
Fixpoint safe {A} (p : thread S A) (s : S) (Q : A → S → Prop) : Prop :=
  match p with
  | Stop (Ok a) => ∀ s', R s s' → I s' → Q a s'
  | Stop (Err _) => True
  | Act f => ∀ s', R s s' → I s' → R s' (f s').1 ∧ I (f s').1 ∧ safe (f s').2 (f s').1 Q
  end.

Lemma safe_later {A} (p : thread S A) s s' Q : R s s' → safe p s Q → safe p s' Q.
Proof.
  intros Hr. destruct p as [[a|e]|f]; cbn; [intros H s2 H1 H2; apply H; [by etransitivity|done]|done|].
  intros H s2 H1 H2. apply H; [by etransitivity|done].
Qed.

Lemma safe_now {A} (p : thread S A) s Q : (∀ s', R s s' → I s' → safe p s' Q) → safe p s Q.
Proof.
  destruct p as [[a|e]|f]; cbn; [|done|]; intros H s' H1 H2; by apply (H s').
Qed.

Lemma safe_mono {A} (p : thread S A) s (Q Q' : A → S → Prop) :
  (∀ a s', I s' → Q a s' → Q' a s') → safe p s Q → safe p s Q'.
Proof.
  intros HQ. revert p s. fix IH 1. intros p s. destruct p as [[a|e]|f]; cbn; [auto|done|].
  intros H s' H1 H2. destruct (H s' H1 H2) as (K1 & K2 & K3). split; [done|]. split; [done|].
  destruct (f s') as [s2 p2]. exact (IH p2 _ K3).
Qed.

Lemma safe_bind {A B} (p : thread S A) (k : A → thread S B) s Q :
  safe p s (λ a s', safe (k a) s' Q) → safe (p ≫= k) s Q.
Proof.
  revert p s. fix IH 1. intros p s. destruct p as [[a|e]|f]; [cbn; apply safe_now|done|]. cbn.
  intros H s' H1 H2. destruct (H s' H1 H2) as (K1 & K2 & K3). destruct (f s') as [s2 p2]. split; [done|]. split; [done|].
  exact (IH p2 s2 K3).
Qed.

Lemma safe_ret {A} (a : A) s (Q : A → S → Prop) : (∀ s', R s s' → I s' → Q a s') → safe (mret a) s Q.
Proof. done. Qed.

Lemma safe_atomic {A} (m : SM S A) s (Q : A → S → Prop) :
  (∀ s', R s s' → I s' → R s' (m s').2 ∧ I (m s').2
     ∧ ∀ a, (m s').1 = Ok a → ∀ s2, R (m s').2 s2 → I s2 → Q a s2) →
  safe (atomic m) s Q.
Proof.
  intros H s' H1 H2. destruct (H s' H1 H2) as (K1 & K2 & K3). cbn. destruct (m s') as [[a|e] s2]; cbn in *; auto.
Qed.

Lemma safe_read {A} (f : S → A) s (Q : A → S → Prop) :
  (∀ s1, R s s1 → I s1 → ∀ s2, R s1 s2 → I s2 → Q (f s1) s2) → safe (tread f) s Q.
Proof.
  intros H. apply safe_atomic. intros s1 H1 H2. cbn. split_and!; [reflexivity|done|].
  intros a [= <-]. by apply H.
Qed.

Lemma safe_catch {A} (p : thread S A) h s Q :
  safe p s Q → (∀ e k, h e = Some k → ∀ s', safe k s' Q) → safe (tcatch p h) s Q.
Proof.
  intros Hp Hh. revert p s Hp. fix IH 1. intros p s. destruct p as [[a|e]|f]; cbn; [done| |].
  - intros _. destruct (h e) eqn:E; [by eapply Hh|done].
  - intros H s' H1 H2. destruct (H s' H1 H2) as (K1 & K2 & K3). destruct (f s') as [s2 p2]. split; [done|]. split; [done|].
    exact (IH p2 s2 K3).
Qed.

(** What an action may do to the state. *)
Definition guarantee (s s' : S) : Prop := I s → I s' ∧ R s s'.

#[export] Instance guarantee_preorder : PreOrder guarantee.
Proof.
  split; [by intros s H|]. intros s1 s2 s3 H K I1. destruct (H I1) as [I2 R2]. destruct (K I2) as [I3 R3].
  split; [done|]. by etransitivity.
Qed.

(** Safe from any state, whatever it returns. *)
Definition always_safe {A} (p : thread S A) : Prop := ∀ s, safe p s (λ _ _, True).

Lemma always_ret {A} (a : A) : always_safe (mret a).
Proof. by intros s. Qed.
Lemma always_lift {A} (r : res A) : always_safe (tlift r).
Proof. intros s. by destruct r. Qed.
Lemma always_raise {A} e : always_safe (traise (A:=A) e).
Proof. by intros s. Qed.
Lemma always_atomic {A} (m : SM S A) : sm_respects guarantee m → always_safe (atomic m).
Proof. intros H s. apply safe_atomic. intros s' _ H2. destruct (H s' H2). by split_and!. Qed.
Lemma always_read {A} (f : S → A) : always_safe (tread f).
Proof. apply always_atomic, respects_gets, _. Qed.
Lemma always_modify (f : S → S) : (∀ s, guarantee s (f s)) → always_safe (tmodify f).
Proof. intros H. by apply always_atomic, respects_modify. Qed.

Lemma always_bind {A B} (p : thread S A) (k : A → thread S B) :
  always_safe p → (∀ a, always_safe (k a)) → always_safe (p ≫= k).
Proof. intros Hp Hk s. apply safe_bind. eapply safe_mono; [|apply Hp]. intros a s' _ _. apply Hk. Qed.

Lemma always_catch {A} (p : thread S A) h :
  always_safe p → (∀ e k, h e = Some k → always_safe k) → always_safe (tcatch p h).
Proof. intros Hp Hh s. apply safe_catch; [apply Hp|]. intros e k E s'. by apply (Hh e k). Qed.

Lemma always_for {A} (f : A → thread S unit) l : (∀ x, always_safe (f x)) → always_safe (tfor f l).
Proof.
  intros Hf. induction l as [|x l IH]; [apply always_ret|]. cbn [tfor]. by apply always_bind.
Qed.

(** Alone, a safe thread respects the guarantee. *)
Lemma run_guarantee {A} (p : thread S A) : always_safe p → sm_respects guarantee (run p).
Proof.
  intros Hp s Hi. specialize (Hp s). cut (R s (run p s).2 ∧ I (run p s).2); [tauto|].
  revert p s Hi Hp. fix IH 1. intros p s Hi. destruct p as [r|f]; [done|]. intros H.
  destruct (H s (reflexivity s) Hi) as (K1 & K2 & K3). cbn. destruct (f s) as [s' p'].
  destruct (IH p' s' K2 K3) as [K4 K5]. split; [by etransitivity|done].
Qed.

Definition config_ok (c : config S) : Prop := I c.1 ∧ Forall (λ p, safe p c.1 (λ _ _, True)) c.2.

Lemma interleave_ok (T : thread S unit → Prop) c c' :
  (∀ p, T p → always_safe p) → interleave T c c' → config_ok c → config_ok c' ∧ R c.1 c'.1.
Proof.
  intros HT [s ts t Ht|s ts1 f ts2]; unfold config_ok; cbn [fst snd]; intros [Hi Hts].
  - split; [|done]. split; [done|]. apply Forall_app. split; [done|]. constructor; [by apply HT|done].
  - apply Forall_app in Hts as [H1 H2]. apply Forall_cons in H2 as [Hf H2].
    destruct (Hf s (reflexivity s) Hi) as (K1 & K2 & K3). split; [split; [done|]|done].
    apply Forall_app. split; [|constructor; [done|]].
    + eapply Forall_impl; [exact H1|]. intros p. by apply safe_later.
    + eapply Forall_impl; [exact H2|]. intros p. by apply safe_later.
Qed.

(** Every interleaving of safe threads keeps the invariant and the order. *)
Lemma interleavings_ok (T : thread S unit → Prop) c c' :
  (∀ p, T p → always_safe p) → rtc (interleave T) c c' → config_ok c → config_ok c' ∧ R c.1 c'.1.
Proof.
  intros HT. induction 1 as [c|c c1 c2 H1 _ IH]; intros Hok; [done|].
  destruct (interleave_ok T c c1 HT H1 Hok) as [Hok1 R1]. destruct (IH Hok1) as [Hok2 R2].
  split; [done|]. by etransitivity.
Qed.
End safe.
