(* ===== verification/PyStr.v ===== *)
(** * Python strings

    [str] values are sequences of code points, surrogates included; this file models the
    string operations the code uses ([strip], [isspace], [isdecimal], [find],
    [rsplit], slicing, [<], UTF-8 encoding and decoding, decimal formatting, [int]). *)

From S2P Require Import Prelude.
From Stdlib Require Import Strings.Byte Ascii String.

Export String.StringSyntax.

Definition pystr := list N.

(** A literal of the source. *)
Definition u (s : String.string) : pystr :=
  List.map N_of_ascii (String.list_ascii_of_string s).
Arguments u s%_string.

(** The accented letters of the program's messages. *)
Definition a_acute : pystr := [225%N].
Definition i_acute : pystr := [237%N].
Definition o_acute : pystr := [243%N].

(** ** Character classes *)

(** Code points for which [str.isspace] holds; also what [str.strip] removes. *)
Definition is_space (c : N) : bool :=
  (((9 <=? c) && (c <=? 13)) || ((28 <=? c) && (c <=? 32)) || (c =? 133) || (c =? 160)
   || (c =? 5760) || ((8192 <=? c) && (c <=? 8202)) || (c =? 8232) || (c =? 8233)
   || (c =? 8239) || (c =? 8287) || (c =? 12288))%N.

(** The zero of each run of ten decimal digits (Unicode category Nd). *)
Definition decimal_zeros : list N :=
  [48; 1632; 1776; 1984; 2406; 2534; 2662; 2790; 2918; 3046; 3174; 3302; 3430; 3558;
   3664; 3792; 3872; 4160; 4240; 6112; 6160; 6470; 6608; 6784; 6800; 6992; 7088; 7232;
   7248; 42528; 43216; 43264; 43472; 43504; 43600; 44016; 65296; 66720; 68912; 69734;
   69872; 69942; 70096; 70384; 70736; 70864; 71248; 71360; 71472; 71904; 72016; 72784;
   73040; 73120; 92768; 92864; 93008; 120782; 120792; 120802; 120812; 120822; 123200;
   123632; 125264; 130032]%N.

(** The decimal value of a code point, as [unicodedata.decimal] gives it. *)
Definition decimal_value (c : N) : option N :=
  match List.find (λ z, (z <=? c) && (c <? z + 10))%N decimal_zeros with
  | Some z => Some (c - z)%N
  | None => None
  end.

Definition is_decimal_char (c : N) : bool :=
  match decimal_value c with Some _ => true | None => false end.

(** [str.isdecimal]: at least one character, all of them decimal. *)
Definition isdecimal (s : pystr) : bool :=
  match s with [] => false | _ => forallb is_decimal_char s end.

(** [int(s)] on a string that is all decimal digits. *)
Definition int_of_decimal (s : pystr) : Z :=
  fold_left (λ acc c, acc * 10 + Z.of_N (default 0%N (decimal_value c)))%Z s 0%Z.

(** Lowercase hexadecimal digits: [0-9a-f]. *)
Definition is_hex_lower (c : N) : bool :=
  (((48 <=? c) && (c <=? 57)) || ((97 <=? c) && (c <=? 102)))%N.

(** ** Operations *)

Fixpoint lstrip (s : pystr) : pystr :=
  match s with
  | c :: s' => if is_space c then lstrip s' else s
  | [] => []
  end.
Definition rstrip (s : pystr) : pystr := rev (lstrip (rev s)).
(** [str.strip()] *)
Definition strip (s : pystr) : pystr := rstrip (lstrip s).

(** [int(text)]: surrounding white space, a sign, and digits that single underscores may
    separate. *)
Fixpoint int_digits (after_digit : bool) (acc : Z) (s : pystr) : option Z :=
  match s with
  | [] => if after_digit then Some acc else None
  | c :: s' =>
      if (c =? 95)%N then if after_digit then int_digits false acc s' else None
      else match decimal_value c with
           | Some d => int_digits true (acc * 10 + Z.of_N d) s'
           | None => None
           end
  end.

Definition py_int (text : pystr) : option Z :=
  match strip text with
  | c :: r =>
      if (c =? 45)%N then Z.opp <$> int_digits false 0 r
      else if (c =? 43)%N then int_digits false 0 r
      else int_digits false 0 (c :: r)
  | [] => None
  end.

(** [s.lower()], as far as ASCII letters go. *)
Definition ascii_lower (s : pystr) : pystr :=
  map (λ c, if ((65 <=? c) && (c <=? 90))%N then (c + 32)%N else c) s.

(** [s.find(c)] for a single character; [None] stands for -1. *)
Fixpoint str_find (c : N) (s : pystr) : option nat :=
  match s with
  | [] => None
  | d :: s' => if (c =? d)%N then Some O else S <$> str_find c s'
  end.

(** [s.rsplit(c, 1)] on a string that contains [c]: the parts around its last
    occurrence; [None] when [c] does not occur. *)
Fixpoint rsplit1 (c : N) (s : pystr) : option (pystr * pystr) :=
  match s with
  | [] => None
  | d :: s' =>
      match rsplit1 c s' with
      | Some (a, b) => Some (d :: a, b)
      | None => if (c =? d)%N then Some ([], s') else None
      end
  end.

(** [s1 < s2]: lexicographic on code points. *)
Fixpoint str_leb (s t : pystr) : bool :=
  match s, t with
  | [], _ => true
  | _ :: _, [] => false
  | c :: s', d :: t' => (c <? d)%N || ((c =? d)%N && str_leb s' t')
  end.
Definition str_ltb (s t : pystr) : bool := negb (str_leb t s).

(** ASCII decimal representation of a natural number ([str(n)]). *)
Fixpoint digits_of (fuel : nat) (n : N) : pystr :=
  match fuel with
  | O => []
  | S f => if (n <? 10)%N then [(48 + n)%N]
           else digits_of f (n / 10) ++ [(48 + n mod 10)%N]
  end.
Definition str_of_N (n : N) : pystr := digits_of (S (N.to_nat (N.log2 n))) n.
Definition str_of_Z (z : Z) : pystr :=
  match z with
  | Zneg p => 45%N :: str_of_N (Npos p)
  | _ => str_of_N (Z.to_N z)
  end.

(** [s.encode("utf-8")] *)
Definition utf8_char (c : N) : bytes :=
  let b v := match Byte.of_N (v mod 256) with Some b => b | None => x00 end in
  if (c <? 128)%N then [b c]
  else if (c <? 2048)%N then [b (192 + c / 64); b (128 + c mod 64)]%N
  else if (c <? 65536)%N then
    [b (224 + c / 4096); b (128 + (c / 64) mod 64); b (128 + c mod 64)]%N
  else
    [b (240 + c / 262144); b (128 + (c / 4096) mod 64); b (128 + (c / 64) mod 64);
     b (128 + c mod 64)]%N.
Definition encode_utf8 (s : pystr) : bytes := List.concat (List.map utf8_char s).

(** Surrogates have no encoding: [encode] raises for them. *)
Definition surrogate (c : N) : bool := ((55296 <=? c) && (c <=? 57343))%N.

(** [b.decode("utf-8")]: [None] when the bytes are not well-formed UTF-8 (a stray or missing
    continuation byte, an overlong form, a surrogate, or more than 10FFFF). *)
Definition continuation (b : Byte.byte) : option N :=
  let v := Byte.to_N b in if ((128 <=? v) && (v <? 192))%N then Some (v - 128)%N else None.

Fixpoint decode_utf8 (s : bytes) : option pystr :=
  match s with
  | [] => Some []
  | b :: r =>
      let a := Byte.to_N b in
      if (a <? 128)%N then cons a <$> decode_utf8 r
      else if ((194 <=? a) && (a <? 224))%N then
        match r with
        | b1 :: r' =>
            x ← continuation b1; cons ((a - 192) * 64 + x)%N <$> decode_utf8 r'
        | _ => None
        end
      else if ((224 <=? a) && (a <? 240))%N then
        match r with
        | b1 :: b2 :: r' =>
            x ← continuation b1; y ← continuation b2;
            let c := ((a - 224) * 4096 + x * 64 + y)%N in
            if (c <? 2048)%N || surrogate c then None else cons c <$> decode_utf8 r'
        | _ => None
        end
      else if ((240 <=? a) && (a <? 245))%N then
        match r with
        | b1 :: b2 :: b3 :: r' =>
            x ← continuation b1; y ← continuation b2; z ← continuation b3;
            let c := ((a - 240) * 262144 + x * 4096 + y * 64 + z)%N in
            if (c <? 65536)%N || (1114111 <? c)%N then None else cons c <$> decode_utf8 r'
        | _ => None
        end
      else None
  end.

(** ** The order on strings *)

Lemma str_leb_refl s : str_leb s s = true.
Proof. induction s as [|c s IH]; cbn; [done|]. by rewrite N.eqb_refl, IH, orb_true_r. Qed.

Lemma str_leb_total s t : str_leb s t = true ∨ str_leb t s = true.
Proof.
  revert t; induction s as [|c s IH]; intros [|d t]; cbn; auto.
  rewrite !orb_true_iff, !andb_true_iff, !N.ltb_lt, !N.eqb_eq.
  destruct (IH t), (N.lt_trichotomy c d) as [|[]]; auto 6.
Qed.

Lemma str_leb_trans s t v : str_leb s t = true → str_leb t v = true → str_leb s v = true.
Proof.
  revert t v; induction s as [|c s IH]; intros [|d t] [|e v]; cbn; try done.
  rewrite !orb_true_iff, !andb_true_iff, !N.ltb_lt, !N.eqb_eq.
  intros [?|[-> ?]] [?|[-> ?]]; [left; lia|auto|auto|right; eauto].
Qed.

Lemma str_leb_antisym s t : str_leb s t = true → str_leb t s = true → s = t.
Proof.
  revert t; induction s as [|c s IH]; intros [|d t]; cbn; try done.
  rewrite !orb_true_iff, !andb_true_iff, !N.ltb_lt, !N.eqb_eq.
  intros [?|[-> ?]] [?|[? ?]]; try lia. f_equal; auto.
Qed.

#[export] Hint Resolve str_leb_refl str_leb_total str_leb_trans str_leb_antisym : stopan.

(** ** Stripping *)

Lemma lstrip_idem s : lstrip (lstrip s) = lstrip s.
Proof.
  induction s as [|c s IH]; cbn; [done|].
  destruct (is_space c) eqn:E; [done|]. cbn. by rewrite E.
Qed.

Lemma lstrip_suffix s : ∃ p, s = p ++ lstrip s ∧ forallb is_space p = true.
Proof.
  induction s as [|c s (p & Hp & Hs)]; cbn; [by exists []|].
  destruct (is_space c) eqn:E.
  - exists (c :: p). cbn. rewrite E, Hs. by rewrite Hp at 1.
  - by exists [].
Qed.

Lemma lstrip_nospace s : forallb (λ c, negb (is_space c)) s = true → lstrip s = s.
Proof. destruct s as [|c s]; cbn; [done|]. destruct (is_space c); done. Qed.

Lemma forallb_rev {A} (f : A → bool) l : forallb f (rev l) = forallb f l.
Proof.
  induction l as [|x l IH]; cbn; [done|].
  rewrite forallb_app, IH; cbn. by rewrite andb_true_r, andb_comm.
Qed.

Lemma strip_nospace s : forallb (λ c, negb (is_space c)) s = true → strip s = s.
Proof.
  intros H. unfold strip, rstrip. rewrite (lstrip_nospace s) by done.
  rewrite lstrip_nospace; [apply rev_involutive|]. by rewrite forallb_rev.
Qed.

Lemma lstrip_snoc s c : is_space c = false → lstrip (s ++ [c]) = lstrip s ++ [c].
Proof. intros H. induction s as [|d s IH]; cbn; [by rewrite H|]. by destruct (is_space d). Qed.

Lemma lstrip_head s : lstrip s = [] ∨ ∃ c s', lstrip s = c :: s' ∧ is_space c = false.
Proof. induction s as [|c s IH]; cbn; [by left|]. destruct (is_space c) eqn:E; [done|]. right. eauto. Qed.

(** Stripping again changes nothing. *)
Lemma strip_idem s : strip (strip s) = strip s.
Proof.
  assert (lstrip (strip s) = strip s) as E.
  { unfold strip, rstrip. destruct (lstrip_head s) as [->|(c & s' & -> & Hc)]; [done|]. cbn.
    rewrite lstrip_snoc by done. rewrite rev_app_distr. cbn. by rewrite Hc. }
  unfold strip at 1. rewrite E. unfold strip, rstrip. by rewrite rev_involutive, lstrip_idem.
Qed.

Lemma hex_not_space c : is_hex_lower c = true → is_space c = false.
Proof.
  unfold is_hex_lower, is_space. intros H.
  apply orb_true_iff in H. rewrite !andb_true_iff, !N.leb_le in H.
  rewrite !orb_false_iff, !andb_false_iff, !N.leb_gt, !N.eqb_neq. lia.
Qed.

Lemma strip_hex s : forallb is_hex_lower s = true → strip s = s.
Proof.
  intros H. apply strip_nospace. rewrite forallb_forall in *.
  intros c Hc. rewrite hex_not_space; auto.
Qed.

(** ** Decimal representation round trip *)

Lemma decimal_value_ascii n : (n < 10)%N → decimal_value (48 + n) = Some n.
Proof.
  intros H. unfold decimal_value, decimal_zeros. cbn [List.find].
  replace ((48 <=? 48 + n) && (48 + n <? 48 + 10))%N with true.
  - f_equal. lia.
  - symmetry. rewrite andb_true_iff, N.leb_le, N.ltb_lt. lia.
Qed.

Lemma int_of_decimal_snoc s c :
  int_of_decimal (s ++ [c])
  = (int_of_decimal s * 10 + Z.of_N (default 0%N (decimal_value c)))%Z.
Proof. unfold int_of_decimal. by rewrite fold_left_app. Qed.

Lemma digits_of_fuel n f : (n < 2 ^ N.of_nat f)%N → (0 < f)%nat →
  int_of_decimal (digits_of f n) = Z.of_N n ∧ isdecimal (digits_of f n) = true
  ∧ Forall (λ c, (48 <= c <= 57)%N) (digits_of f n).
Proof.
  revert n; induction f as [|f IH]; intros n Hn Hf; [lia|]. cbn [digits_of].
  destruct (n <? 10)%N eqn:E.
  - apply N.ltb_lt in E. split_and!.
    + unfold int_of_decimal; cbn [fold_left]. rewrite decimal_value_ascii by done. cbn. lia.
    + cbn. unfold is_decimal_char. by rewrite decimal_value_ascii.
    + repeat constructor; lia.
  - apply N.ltb_ge in E. rewrite Nat2N.inj_succ, N.pow_succ_r' in Hn.
    pose proof (N.mod_lt n 10 ltac:(lia)) as Hm.
    assert (n / 10 < 2 ^ N.of_nat f)%N.
    { apply N.Div0.div_lt_upper_bound. lia. }
    pose proof (N.div_mod n 10 ltac:(lia)) as Hdm.
    destruct f as [|f].
    { cbn in Hn. lia. }
    destruct (IH (n / 10)%N) as (H1 & H2 & H3); [done|lia|]. split_and!.
    + rewrite int_of_decimal_snoc, H1, decimal_value_ascii by done.
      change (default 0%N (Some (n mod 10)%N)) with (n mod 10)%N. lia.
    + unfold isdecimal in *. destruct (digits_of (S f) (n / 10)) as [|d l] eqn:El; [done|].
      rewrite <-El in *. destruct (digits_of (S f) (n / 10) ++ _) eqn:Ea.
      { by destruct (digits_of (S f) (n / 10)). }
      rewrite <-Ea, forallb_app, H2. cbn. unfold is_decimal_char.
      by rewrite decimal_value_ascii.
    + rewrite Forall_app. split; [done|]. apply Forall_singleton. clear -Hm. generalize dependent (n mod 10)%N. lia.
Qed.

Lemma str_of_N_spec n :
  int_of_decimal (str_of_N n) = Z.of_N n ∧ isdecimal (str_of_N n) = true
  ∧ Forall (λ c, (48 <= c <= 57)%N) (str_of_N n).
Proof.
  apply digits_of_fuel; [|lia]. rewrite Nat2N.inj_succ, N2Nat.id.
  destruct (decide (n = 0)%N) as [->|]; [cbn; lia|].
  apply N.log2_spec. lia.
Qed.

Lemma str_of_N_nonempty n : str_of_N n ≠ [].
Proof. destruct (str_of_N_spec n) as (_ & H & _). by destruct (str_of_N n). Qed.

Lemma str_of_N_inj n m : str_of_N n = str_of_N m → n = m.
Proof.
  intros H. destruct (str_of_N_spec n) as [Hn _], (str_of_N_spec m) as [Hm _].
  rewrite H in Hn. lia.
Qed.

(** ** UTF-8 is injective on Unicode code points *)

Definition scalar (c : N) : Prop := (c < 1114112)%N.
#[export] Instance scalar_dec c : Decision (scalar c) := decide (c < 1114112)%N.

(** Length of a sequence from its first byte. *)
Lemma to_N_b v : (v < 256)%N →
  Byte.to_N (match Byte.of_N (v mod 256) with Some b => b | None => x00 end) = v.
Proof.
  intros. destruct (byte_of_mod256 v) as (b & -> & ->). by apply N.mod_small.
Qed.

Lemma utf8_char_decode c : scalar c →
  match utf8_char c with
  | [] => False
  | a :: tl =>
      let a := Byte.to_N a in
      let tl := List.map (λ b, Byte.to_N b - 128)%N tl in
      (a < 128 ∧ tl = [] ∧ c = a)%N
      ∨ (192 <= a < 224 ∧ ∃ x, tl = [x] ∧ c = (a - 192) * 64 + x)%N
      ∨ (224 <= a < 240 ∧ ∃ x y, tl = [x; y] ∧ c = (a - 224) * 4096 + x * 64 + y)%N
      ∨ (240 <= a ∧ ∃ x y z, tl = [x; y; z]
           ∧ c = (a - 240) * 262144 + x * 4096 + y * 64 + z)%N
  end.
Proof.
  unfold scalar, utf8_char. intros Hc.
  assert (∀ v, v mod 64 < 64)%N as Hm by (intros; apply N.mod_lt; lia).
  pose proof (N.div_mod c 64 ltac:(lia)) as D1.
  pose proof (N.div_mod (c / 64) 64 ltac:(lia)) as D2.
  pose proof (N.div_mod (c / 64 / 64) 64 ltac:(lia)) as D3.
  pose proof (Hm c) as M1. pose proof (Hm (c / 64)%N) as M2. pose proof (Hm (c / 64 / 64)%N) as M3.
  replace (c / 4096)%N with (c / 64 / 64)%N by (rewrite N.Div0.div_div; done).
  replace (c / 262144)%N with (c / 64 / 64 / 64)%N by (rewrite !N.Div0.div_div; done).
  remember (c mod 64)%N as m0 eqn:Z0. remember (c / 64)%N as q1 eqn:Z1.
  remember (q1 mod 64)%N as m1 eqn:Z2. remember (q1 / 64)%N as q2 eqn:Z3.
  remember (q2 mod 64)%N as m2 eqn:Z4. remember (q2 / 64)%N as q3 eqn:Z5.
  clear Z0 Z1 Z2 Z3 Z4 Z5 Hm.
  destruct (c <? 128)%N eqn:E1; [apply N.ltb_lt in E1|apply N.ltb_ge in E1].
  { cbn. rewrite to_N_b by lia. left. done. }
  destruct (c <? 2048)%N eqn:E2; [apply N.ltb_lt in E2|apply N.ltb_ge in E2].
  { cbn. rewrite !to_N_b by lia. right; left. split; [lia|].
    eexists; split; [reflexivity|lia]. }
  destruct (c <? 65536)%N eqn:E3; [apply N.ltb_lt in E3|apply N.ltb_ge in E3].
  { cbn. rewrite !to_N_b by lia. right; right; left. split; [lia|].
    do 2 eexists; split; [reflexivity|lia]. }
  cbn. rewrite !to_N_b by lia. right; right; right. split; [lia|].
  do 3 eexists; split; [reflexivity|lia].
Qed.

Lemma utf8_char_prefix c d r s : scalar c → scalar d →
  utf8_char c ++ r = utf8_char d ++ s → c = d ∧ r = s.
Proof.
  intros Hc Hd H. pose proof (utf8_char_decode c Hc) as Pc.
  pose proof (utf8_char_decode d Hd) as Pd.
  destruct (utf8_char c) as [|a tl]; [done|]. destruct (utf8_char d) as [|a' tl']; [done|].
  cbn in H. injection H as -> H. cbn zeta in *.
  destruct Pc as [(? & Et & ->)|[(? & x & Et & ->)|[(? & x & y & Et & ->)|(? & x & y & z & Et & ->)]]];
  destruct Pd as [(? & Et' & ->)|[(? & x' & Et' & ->)|[(? & x' & y' & Et' & ->)|(? & x' & y' & z' & Et' & ->)]]];
  try lia; (destruct tl as [|? [|? [|? [|? ?]]]]; try discriminate Et);
  (destruct tl' as [|? [|? [|? [|? ?]]]]; try discriminate Et');
  cbn in *; simplify_eq; done.
Qed.

Lemma encode_utf8_inj s t :
  Forall scalar s → Forall scalar t → encode_utf8 s = encode_utf8 t → s = t.
Proof.
  unfold encode_utf8. intros Hs. revert t. induction Hs as [|c s Hc Hs IH]; intros t Ht H.
  - destruct Ht as [|d t Hd Ht]; [done|]. cbn in H.
    pose proof (utf8_char_decode d Hd). by destruct (utf8_char d).
  - destruct Ht as [|d t Hd Ht]; cbn in H.
    { pose proof (utf8_char_decode c Hc). by destruct (utf8_char c). }
    apply utf8_char_prefix in H as [-> H]; [|done..]. f_equal. auto.
Qed.

(** ** Decoding undoes encoding *)

(** The code points that have an encoding. *)
Definition encodable (c : N) : Prop := (c < 1114112)%N ∧ surrogate c = false.
#[export] Instance encodable_dec c : Decision (encodable c) := and_dec _ _.

Lemma continuation_b v : (v < 64)%N →
  continuation (match Byte.of_N ((128 + v) mod 256) with Some b => b | None => x00 end) = Some v.
Proof.
  intros Hv. unfold continuation. rewrite to_N_b by lia.
  rewrite (proj2 (N.leb_le 128 (128 + v))), (proj2 (N.ltb_lt (128 + v) 192)) by lia. cbn. f_equal. lia.
Qed.

Lemma decode_utf8_char c r : encodable c → decode_utf8 (utf8_char c ++ r) = cons c <$> decode_utf8 r.
Proof.
  unfold encodable, surrogate, utf8_char. intros [Hc Hs].
  assert (∀ v, v mod 64 < 64)%N as Hm by (intros; apply N.mod_lt; lia).
  pose proof (N.div_mod c 64 ltac:(lia)) as D1.
  pose proof (N.div_mod (c / 64) 64 ltac:(lia)) as D2.
  pose proof (N.div_mod (c / 64 / 64) 64 ltac:(lia)) as D3.
  pose proof (Hm c) as M1. pose proof (Hm (c / 64)%N) as M2. pose proof (Hm (c / 64 / 64)%N) as M3.
  replace (c / 4096)%N with (c / 64 / 64)%N by (rewrite N.Div0.div_div; done).
  replace (c / 262144)%N with (c / 64 / 64 / 64)%N by (rewrite !N.Div0.div_div; done).
  remember (c mod 64)%N as m0 eqn:Z0. remember (c / 64)%N as q1 eqn:Z1.
  remember (q1 mod 64)%N as m1 eqn:Z2. remember (q1 / 64)%N as q2 eqn:Z3.
  remember (q2 mod 64)%N as m2 eqn:Z4. remember (q2 / 64)%N as q3 eqn:Z5.
  clear Z0 Z1 Z2 Z3 Z4 Z5 Hm.
  destruct (N.ltb_spec c 128) as [E1|E1].
  { cbn [app decode_utf8]. rewrite to_N_b by lia. by rewrite (proj2 (N.ltb_lt c 128)). }
  destruct (N.ltb_spec c 2048) as [E2|E2].
  { cbn [app decode_utf8]. rewrite to_N_b by lia.
    rewrite (proj2 (N.ltb_ge (192 + q1) 128)), (proj2 (N.leb_le 194 (192 + q1))),
      (proj2 (N.ltb_lt (192 + q1) 224)) by lia. cbn [andb].
    rewrite continuation_b by lia. cbn. do 2 f_equal. lia. }
  destruct (N.ltb_spec c 65536) as [E3|E3].
  { cbn [app decode_utf8]. rewrite to_N_b by lia.
    rewrite (proj2 (N.ltb_ge (224 + q2) 128)), (proj2 (N.ltb_ge (224 + q2) 224)), andb_false_r,
      (proj2 (N.leb_le 224 (224 + q2))), (proj2 (N.ltb_lt (224 + q2) 240)) by lia. cbn [andb].
    rewrite !continuation_b by lia. cbn [mbind option_bind].
    replace ((224 + q2 - 224) * 4096 + m1 * 64 + m0)%N with c by lia. unfold surrogate.
    by rewrite (proj2 (N.ltb_ge c 2048)), Hs by lia. }
  cbn [app decode_utf8]. rewrite to_N_b by lia.
  rewrite (proj2 (N.ltb_ge (240 + q3) 128)), (proj2 (N.ltb_ge (240 + q3) 224)), andb_false_r,
    (proj2 (N.ltb_ge (240 + q3) 240)), andb_false_r,
    (proj2 (N.leb_le 240 (240 + q3))), (proj2 (N.ltb_lt (240 + q3) 245)) by lia. cbn [andb].
  rewrite !continuation_b by lia. cbn [mbind option_bind].
  replace ((240 + q3 - 240) * 262144 + m2 * 4096 + m1 * 64 + m0)%N with c by lia.
  by rewrite (proj2 (N.ltb_ge c 65536)), (proj2 (N.ltb_ge 1114111 c)) by lia.
Qed.

Lemma decode_encode_utf8 s : Forall encodable s → decode_utf8 (encode_utf8 s) = Some s.
Proof.
  unfold encode_utf8. induction 1 as [|c s Hc Hs IH]; [done|]. cbn [List.map List.concat].
  by rewrite decode_utf8_char, IH.
Qed.
