(* ===== verification/Common.v ===== *)
(** * Shared helpers of [stopan.common]

    Ordered deduplication ([sequences.py]), batching ([batching.py]), BLAKE3 hex
    identifiers ([hashes.py]) and strict integer validators ([validators.py]). *)

From S2P Require Import Prelude PyStr.

(** ** sequences.py *)

Section sequences.
Context {A : Type} `{EqDecision A}.

(** [dict.fromkeys(items)]: a key keeps the position of its first insertion. *)
Definition dict_fromkeys (items : list A) : list A :=
  fold_left (λ seen x, if bool_decide (x ∈ seen) then seen else seen ++ [x]) items [].

Definition ordered_unique (items : list A) : list A := dict_fromkeys items.

(** The loop of [ordered_unique_by]: [seen] maps keys to the first item. *)
Definition ordered_unique_by {T} (key : T → A) (items : list T) : list T :=
  (fold_left (λ seen item,
     if bool_decide (key item ∈ seen.*1) then seen else seen ++ [(key item, item)])
     items []).*2.

(** Reference: the first occurrence of every element, in order. *)
Fixpoint first_occurrences (seen : list A) (l : list A) : list A :=
  match l with
  | [] => []
  | x :: l' => if bool_decide (x ∈ seen) then first_occurrences seen l'
               else x :: first_occurrences (seen ++ [x]) l'
  end.

Lemma fromkeys_fold seen items :
  fold_left (λ seen x, if bool_decide (x ∈ seen) then seen else seen ++ [x]) items seen
  = seen ++ first_occurrences seen items.
Proof.
  revert seen; induction items as [|x l IH]; intros seen; cbn.
  - by rewrite app_nil_r.
  - case_bool_decide; rewrite IH; [done|]. by rewrite <-app_assoc.
Qed.

Lemma ordered_unique_first l : ordered_unique l = first_occurrences [] l.
Proof. apply fromkeys_fold. Qed.

Lemma elem_of_first_occurrences seen l x :
  x ∈ first_occurrences seen l ↔ x ∈ l ∧ x ∉ seen.
Proof.
  revert seen; induction l as [|y l IH]; intros seen; cbn; [set_solver|].
  case_bool_decide as Hy.
  - rewrite IH. set_solver.
  - rewrite elem_of_cons, IH, elem_of_cons, elem_of_app, list_elem_of_singleton.
    destruct (decide (x = y)) as [->|]; set_solver.
Qed.

Lemma NoDup_first_occurrences seen l : NoDup (first_occurrences seen l).
Proof.
  revert seen; induction l as [|y l IH]; intros seen; cbn; [constructor|].
  case_bool_decide; [done|]. constructor; [|done].
  rewrite elem_of_first_occurrences. set_solver.
Qed.

Lemma elem_of_ordered_unique l x : x ∈ ordered_unique l ↔ x ∈ l.
Proof. rewrite ordered_unique_first, elem_of_first_occurrences. set_solver. Qed.

Lemma NoDup_ordered_unique l : NoDup (ordered_unique l).
Proof. rewrite ordered_unique_first. apply NoDup_first_occurrences. Qed.

Lemma first_occurrences_nodup seen l :
  NoDup l → (∀ x, x ∈ l → x ∉ seen) → first_occurrences seen l = l.
Proof.
  intros Hl; revert seen; induction Hl as [|x l Hx Hl IH]; intros seen Hs; cbn; [done|].
  rewrite bool_decide_false by (apply Hs; left). f_equal. apply IH. set_solver.
Qed.

Lemma ordered_unique_nodup l : NoDup l → ordered_unique l = l.
Proof. intros. rewrite ordered_unique_first. apply first_occurrences_nodup; set_solver. Qed.
End sequences.

#[export] Hint Resolve NoDup_ordered_unique : stopan.
#[export] Hint Rewrite @elem_of_ordered_unique : stopan.

(** ** batching.py *)

Section batching.
Context {T : Type}.

(** The body of the [for item in items] loop: [current] is the open batch and
    [out] the batches already yielded. *)
Definition iter_batches_step (batch_size : nat) (st : list (list T) * list T) (item : T)
  : list (list T) * list T :=
  let current := st.2 ++ [item] in
  if (batch_size <=? length current)%nat then (st.1 ++ [current], []) else (st.1, current).

Definition iter_batches (items : list T) (batch_size : Z) : list (list T) :=
  let bs := Z.to_nat (Z.max 1 batch_size) in
  let st := fold_left (iter_batches_step bs) items ([], []) in
  match st.2 with [] => st.1 | current => st.1 ++ [current] end.

(** While iterating, yielded batches are full and the open one is not. *)
Definition batches_inv (bs : nat) (done : list T) (st : list (list T) * list T) : Prop :=
  concat st.1 ++ st.2 = done ∧ Forall (λ b, length b = bs) st.1 ∧ (length st.2 < bs)%nat.

Lemma iter_batches_loop bs items done st :
  (0 < bs)%nat → batches_inv bs done st →
  batches_inv bs (done ++ items) (fold_left (iter_batches_step bs) items st).
Proof.
  intros Hbs. revert done st. induction items as [|x l IH]; intros d [out cur] Hinv; cbn.
  - by rewrite app_nil_r.
  - rewrite (assoc _ d [x] l : d ++ x :: l = (d ++ [x]) ++ l).
    apply IH. destruct Hinv as (Hc & Hf & Hl); cbn in *. unfold iter_batches_step; cbn.
    rewrite length_app; cbn. destruct (_ <=? _)%nat eqn:E; bool_hyps; repeat split; cbn.
    + rewrite concat_app; cbn. rewrite <-Hc, !app_nil_r. by rewrite !app_assoc.
    + rewrite Forall_app. split; [done|]. repeat constructor. rewrite length_app; cbn. lia.
    + lia.
    + by rewrite <-Hc, !app_assoc.
    + done.
    + rewrite length_app; cbn. lia.
Qed.

Lemma iter_batches_final items n :
  let bs := Z.to_nat (Z.max 1 n) in
  ∃ out cur, iter_batches items n = out ++ (match cur with [] => [] | _ => [cur] end)
    ∧ batches_inv bs items (out, cur).
Proof.
  intros bs. unfold iter_batches. fold bs.
  pose proof (iter_batches_loop bs items [] ([], []) ltac:(lia)) as H.
  destruct (fold_left _ items _) as [out cur]. exists out, cur. split.
  - destruct cur; cbn; [by rewrite app_nil_r|done].
  - apply H. repeat split; cbn; [constructor|lia].
Qed.

Lemma concat_iter_batches items n : concat (iter_batches items n) = items.
Proof.
  destruct (iter_batches_final items n) as (out & cur & -> & Hc & _). cbn in Hc. rewrite concat_app.
  destruct cur; cbn; [by rewrite app_nil_r in *|by rewrite app_nil_r].
Qed.
End batching.

(** ** hashes.py *)

Definition BLAKE3_HEX_LENGTH : nat := 64.

Definition is_valid_blake3_hex (value : pystr) : bool :=
  (length value =? BLAKE3_HEX_LENGTH)%nat && forallb is_hex_lower value.

(** Lowercase hexadecimal rendering of a digest ([hexdigest()]). *)
Definition hex_digit (n : N) : N := if (n <? 10)%N then (48 + n)%N else (87 + n)%N.
Definition hexdigest (digest : bytes) : pystr :=
  concat (map (λ b, [hex_digit (Byte.to_N b / 16); hex_digit (Byte.to_N b mod 16)]%N) digest).

(** [blake3_hex_digest]; BLAKE3 itself is a parameter. *)
Definition blake3_hex_digest (blake3 : bytes → bytes) (data : bytes) : pystr :=
  hexdigest (blake3 data).

Lemma hex_digit_lower n : (n < 16)%N → is_hex_lower (hex_digit n) = true.
Proof.
  intros. unfold hex_digit, is_hex_lower. destruct (n <? 10)%N eqn:E.
  - apply N.ltb_lt in E. apply orb_true_iff; left. rewrite andb_true_iff, !N.leb_le. lia.
  - apply N.ltb_ge in E. apply orb_true_iff; right. rewrite andb_true_iff, !N.leb_le. lia.
Qed.

Lemma byte_lt_256 b : (Byte.to_N b < 256)%N.
Proof. by destruct b. Qed.

Lemma hexdigest_hex d : forallb is_hex_lower (hexdigest d) = true.
Proof.
  unfold hexdigest. induction d as [|b d IH]; cbn; [done|].
  pose proof (byte_lt_256 b).
  rewrite !hex_digit_lower, IH; [done| |].
  - apply N.mod_lt; lia.
  - apply N.Div0.div_lt_upper_bound; lia.
Qed.

Lemma length_hexdigest d : length (hexdigest d) = 2 * length d.
Proof. unfold hexdigest. induction d as [|b d IH]; cbn in *; lia. Qed.

(** A 32-byte digest renders as a valid identifier. *)
Lemma hexdigest_valid d : length d = 32 → is_valid_blake3_hex (hexdigest d) = true.
Proof.
  intros H. unfold is_valid_blake3_hex. rewrite length_hexdigest, H, hexdigest_hex. done.
Qed.

Lemma valid_hex_strip s : is_valid_blake3_hex s = true → strip s = s.
Proof. unfold is_valid_blake3_hex. intros; bool_hyps. by apply strip_hex. Qed.

(** ** validators.py *)

(** The dynamic values the validators distinguish. *)
Inductive pyval : Type :=
  | VInt (z : Z)
  | VBool (b : bool)
  | VStr (s : pystr)
  | VBytes (b : bytes)
  | VNone
  | VOther.

Definition require_strict_int (value : pyval) (min_value : Z) (error : exn) : res Z :=
  match value with
  | VInt z => if (z <? min_value)%Z then Err error else Ok z
  | _ => Err error
  end.

Definition require_strict_non_negative_int (value : pyval) (error : exn) : res Z :=
  require_strict_int value 0 error.

Definition require_strict_positive_int (value : pyval) (error : exn) : res Z :=
  number ← require_strict_non_negative_int value error;
  if (number <=? 0)%Z then Err error else Ok number.

Lemma require_non_negative_Ok v e z :
  require_strict_non_negative_int v e = Ok z ↔ v = VInt z ∧ (0 <= z)%Z.
Proof.
  unfold require_strict_non_negative_int, require_strict_int.
  split; [intros; split_matches; done|]. intros [-> H].
  case_match; bool_hyps; [lia|done].
Qed.

Lemma require_positive_Ok v e z :
  require_strict_positive_int v e = Ok z ↔ v = VInt z ∧ (0 < z)%Z.
Proof.
  unfold require_strict_positive_int. rewrite bind_Ok.
  setoid_rewrite require_non_negative_Ok. split.
  - intros (n & [-> ?] & ?). split_matches. done.
  - intros [-> ?]. exists z. split; [split; [done|lia]|]. case_match; bool_hyps; [lia|done].
Qed.

(** Hexadecimal rendering loses nothing. *)
Lemma hex_digit_inj a b : (a < 16)%N → (b < 16)%N → hex_digit a = hex_digit b → a = b.
Proof.
  unfold hex_digit. intros. destruct (N.ltb_spec a 10), (N.ltb_spec b 10); lia.
Qed.

Lemma hexdigest_inj d e : hexdigest d = hexdigest e → d = e.
Proof.
  unfold hexdigest. revert e. induction d as [|a d IH]; intros [|b e] H; cbn in H; try done.
  assert (∀ b, Byte.to_N b / 16 < 16)%N as Hq.
  { intros x. pose proof (byte_lt_256 x). apply N.Div0.div_lt_upper_bound. lia. }
  assert (∀ b, Byte.to_N b mod 16 < 16)%N as Hm by (intros; apply N.mod_lt; lia).
  injection H as H1 H2 H3. apply hex_digit_inj in H1, H2; auto.
  apply IH in H3 as ->. f_equal.
  assert (Byte.to_N a = Byte.to_N b) as Hab.
  { pose proof (N.div_mod (Byte.to_N a) 16 ltac:(lia)).
    pose proof (N.div_mod (Byte.to_N b) 16 ltac:(lia)). congruence. }
  pose proof (Byte.of_to_N a). pose proof (Byte.of_to_N b). congruence.
Qed.

(** ** Status codes of gRPC *)

Definition INVALID_ARGUMENT : N := 3.
Definition INTERNAL : N := 13.
Definition UNAVAILABLE : N := 14.
Definition UNAUTHENTICATED : N := 16.
