(* ===== verification/Files.v ===== *)
(** * Files by their path

    [common/fs.py] and the parts of os.path that the stores use. The files of a store are a
    map from their paths to their content; directories are left out. *)

From S2P Require Import Prelude PyStr Common.

(** [os.path.join] of a directory and a component without a leading separator. *)
Definition path_join (dir name : pystr) : pystr :=
  match last dir with
  | Some c => if (c =? 47)%N then dir ++ name else dir ++ [47%N] ++ name
  | None => name
  end.

Lemma path_join_suffix dir name : ∃ pre, path_join dir name = pre ++ name.
Proof.
  unfold path_join. destruct (last dir) as [c|]; [|by exists []].
  destruct (c =? 47)%N; [by exists dir|]. exists (dir ++ [47%N]). by rewrite <-app_assoc.
Qed.

Lemma valid_hash_length h : is_valid_blake3_hex h = true → length h = 64.
Proof. unfold is_valid_blake3_hex. intros H. by bool_hyps. Qed.

(** The last separator of a path is where it is. *)
Lemma last_component_inj (a b : pystr) x y :
  47%N ∉ x → 47%N ∉ y → a ++ [47%N] ++ x = b ++ [47%N] ++ y → a = b ∧ x = y.
Proof.
  revert b y. induction x as [|c x IH] using rev_ind; intros b y Hx Hy.
  - destruct y as [|d y _] using rev_ind; [intros E; by apply app_inj_2 in E as [-> _]|].
    cbn [app]. rewrite app_comm_cons, app_assoc. intros E. apply app_inj_2 in E as [_ [= <-]]; [|done]. set_solver.
  - destruct y as [|d y _] using rev_ind.
    + cbn [app]. rewrite (app_comm_cons x), (app_assoc a). intros E. apply app_inj_2 in E as [_ [= ->]]; [|done]. set_solver.
    + rewrite !app_assoc. intros E. apply app_inj_2 in E as [E [= ->]]; [|done]. rewrite <-!app_assoc in E.
      destruct (IH b y) as [-> ->]; [set_solver..|done|done].
Qed.

Lemma path_join_valid dir name : is_valid_blake3_hex dir = true → ∀ pre, path_join (pre ++ dir) name = (pre ++ dir) ++ [47%N] ++ name.
Proof.
  unfold is_valid_blake3_hex. intros H pre. bool_hyps. destruct dir as [|c d _] using rev_ind; [done|].
  unfold path_join. rewrite app_assoc, last_snoc. destruct (c =? 47)%N eqn:E; [|done]. apply N.eqb_eq in E as ->.
  match goal with H : forallb _ _ = true |- _ => rewrite forallb_app in H; cbn in H end. by bool_hyps.
Qed.

(** ** atomic_write_bytes *)

Notation files := (gmap pystr bytes) (only parsing).

(** How [atomic_write_bytes] ends: it can raise after the file took its name, when its
    permissions or its directory cannot be settled. *)
Inductive WriteOutcome := Written | WriteRaises (published : bool) (e : exn).

Definition atomic_write_bytes (others : files → files) (outcome : WriteOutcome) (path : pystr) (data : bytes)
    : SM files unit :=
  smodify others;;
  match outcome with
  | Written => smodify (<[path := data]>)
  | WriteRaises published e => (if published : bool then smodify (<[path := data]>) else mret ());; sraise e
  end.
