(* ===== verification/PyFloat.v ===== *)
(** * Python floats

    A float is named by the decimal that [repr] prints for it: reading that decimal gives
    the float back. [round_float] is what [float(text)] does to any other decimal: the
    nearest binary64 number, ties to even, named by the shortest decimal that reads back as
    it. The doubles are the fixed points of [round_float]. *)

From S2P Require Import Prelude PyStr.

Inductive digit := D1 | D2 | D3 | D4 | D5 | D6 | D7 | D8 | D9.

Definition digit_value (d : digit) : N :=
  match d with D1 => 1 | D2 => 2 | D3 => 3 | D4 => 4 | D5 => 5 | D6 => 6 | D7 => 7 | D8 => 8 | D9 => 9 end.

Definition digit_of (n : N) : digit :=
  if (n =? 1)%N then D1 else if (n =? 2)%N then D2 else if (n =? 3)%N then D3
  else if (n =? 4)%N then D4 else if (n =? 5)%N then D5 else if (n =? 6)%N then D6
  else if (n =? 7)%N then D7 else if (n =? 8)%N then D8 else D9.

(** [FDec neg q d e] is the decimal (10 q + d) 10^e with its sign: the last digit is not
    zero, so a number has one name. *)
Inductive pyfloat :=
  | FNan
  | FInf (neg : bool)
  | FZero (neg : bool)
  | FDec (neg : bool) (q : N) (d : digit) (e : Z).

#[export] Instance digit_eq_dec : EqDecision digit.
Proof. solve_decision. Defined.
#[export] Instance pyfloat_eq_dec : EqDecision pyfloat.
Proof. solve_decision. Defined.

Definition mantissa (q : N) (d : digit) : N := (10 * q + digit_value d)%N.

(** The decimal [m * 10^e], its trailing zeros moved to the exponent. *)
Fixpoint strip_zeros (fuel : nat) (neg : bool) (m : N) (e : Z) : pyfloat :=
  match fuel with
  | O => FZero neg
  | S f => if (m mod 10 =? 0)%N then strip_zeros f neg (m / 10) (e + 1)
           else FDec neg (m / 10) (digit_of (m mod 10)) e
  end.
Definition decimal (neg : bool) (m : N) (e : Z) : pyfloat :=
  if (m =? 0)%N then FZero neg else strip_zeros (S (N.to_nat (N.log2 m))) neg m e.

(** ** Rounding to binary64 *)

(** [num / den] scaled by a power of a base, as a fraction. *)
Definition scale (base : N) (k : Z) (num den : N) : N * N :=
  if (0 <=? k)%Z then (num, den * base ^ Z.to_N k)%N else (num * base ^ Z.to_N (- k), den)%N.

(** The nearest integer to [num / den], ties to even. *)
Definition round_half_even (num den : N) : N :=
  let q := (num / den)%N in
  let r := (num mod den)%N in
  if (den <? 2 * r)%N || ((2 * r =? den)%N && N.odd q) then (q + 1)%N else q.

(** The double nearest to a positive [num / den], as [M * 2^k]; [None] when it overflows. *)
Definition nearest_double (num den : N) : option (N * Z) :=
  let e0 := (Z.of_N (N.log2 num) - Z.of_N (N.log2 den) - 52)%Z in
  let '(n, d) := scale 2 e0 num den in
  let k := Z.max (-1074) (if (n <? 2 ^ 52 * d)%N then e0 - 1 else e0) in
  let '(n, d) := scale 2 k num den in
  let M := round_half_even n d in
  if (1024 <=? Z.of_N (N.log2 M) + k)%Z then None else Some (M, k).

(** The fraction [c * 10^t]. *)
Definition fraction10 (c : N) (t : Z) : N * N := scale 10 (- t) c 1.

(** The place of the leading decimal digit of [num / den]. *)
Definition leading_place (num den : N) : Z :=
  let est := ((Z.of_N (N.log2 num) - Z.of_N (N.log2 den)) * 30103 / 100000)%Z in
  let below t := let '(n, d) := scale 10 t num den in (n <? d)%N in
  if below est then (est - 1)%Z else if below (est + 1)%Z then est else (est + 1)%Z.

(** A decimal with [p] digits that reads back as the double, the nearest one first. *)
Definition candidate (num den : N) (value : N * Z) (p : nat) : option (N * Z) :=
  let t := (leading_place num den - Z.of_nat p + 1)%Z in
  let '(n, d) := scale 10 t num den in
  let c := round_half_even n d in
  let other := if (c =? n / d)%N then (c + 1)%N else (n / d)%N in
  let reads_back c := let '(n, d) := fraction10 c t in bool_decide (nearest_double n d = Some value) in
  if reads_back c then Some (c, t) else if reads_back other then Some (other, t) else None.

Fixpoint shortest (num den : N) (value : N * Z) (p more : nat) : N * Z :=
  match more with
  | O => default (0%N, 0%Z) (candidate num den value p)
  | S more => match candidate num den value p with Some r => r | None => shortest num den value (S p) more end
  end.

(** The float nearest to a positive fraction. *)
Definition float_of_fraction (neg : bool) (num den : N) : pyfloat :=
  match nearest_double num den with
  | None => FInf neg
  | Some (M, k) =>
      if (M =? 0)%N then FZero neg
      else let '(n, d) := scale 2 (- k) M 1 in
           let '(c, t) := shortest n d (M, k) 1 16 in decimal neg c t
  end.

Definition round_float (f : pyfloat) : pyfloat :=
  match f with
  | FDec neg q d e => let '(num, den) := fraction10 (mantissa q d) e in float_of_fraction neg num den
  | _ => f
  end.

(** The floats of the program: what rounding leaves alone. *)
Definition is_double (f : pyfloat) : Prop := round_float f = f.
#[export] Instance is_double_dec f : Decision (is_double f) := decide (round_float f = f).

(** ** [repr] *)

Definition zeros (n : nat) : pystr := replicate n 48%N.

(** The exponent has at least two digits. *)
Definition exp_digits (n : N) : pystr := if (n <? 10)%N then 48%N :: str_of_N n else str_of_N n.

Definition repr_positive (digs : pystr) (e : Z) : pystr :=
  let n := Z.of_nat (length digs) in
  let decpt := (n + e)%Z in
  if (decpt <=? -4)%Z || (16 <? decpt)%Z then
    take 1 digs ++ (if (n =? 1)%Z then [] else 46%N :: drop 1 digs)
    ++ 101%N :: (if (decpt - 1 <? 0)%Z then 45%N else 43%N) :: exp_digits (Z.abs_N (decpt - 1))
  else if (decpt <=? 0)%Z then u "0." ++ zeros (Z.to_nat (- decpt)) ++ digs
  else if (0 <=? e)%Z then digs ++ zeros (Z.to_nat e) ++ u ".0"
  else take (Z.to_nat decpt) digs ++ 46%N :: drop (Z.to_nat decpt) digs.

Definition sign (neg : bool) : pystr := if neg then [45%N] else [].

(** [json.dumps] writes [float.__repr__] for finite floats and these names for the others. *)
Definition float_text (f : pyfloat) : pystr :=
  match f with
  | FNan => u "NaN"
  | FInf neg => sign neg ++ u "Infinity"
  | FZero neg => sign neg ++ u "0.0"
  | FDec neg q d e => sign neg ++ repr_positive (str_of_N (mantissa q d)) e
  end.

(** ** Values *)

(** [math.isfinite] *)
Definition isfinite (f : pyfloat) : bool := match f with FNan | FInf _ => false | _ => true end.

(** [f < 0.0] *)
Definition float_negative (f : pyfloat) : bool :=
  match f with FNan | FZero _ => false | FInf neg => neg | FDec neg _ _ _ => neg end.

(** The value of a finite float as a reduced fraction. *)
Definition float_to_Q (f : pyfloat) : Q :=
  match f with
  | FDec neg q d e =>
      let '(num, den) := fraction10 (mantissa q d) e in
      Qred ((if neg then - Z.of_N num else Z.of_N num) # (N.succ_pos (N.pred den)))
  | _ => 0
  end.

(** The float nearest to a rational. *)
Definition float_of_Q (x : Q) : pyfloat :=
  match Qnum x with
  | Z0 => FZero false
  | Zpos p => float_of_fraction false (Npos p) (Npos (Qden x))
  | Zneg p => float_of_fraction true (Npos p) (Npos (Qden x))
  end.

(** ** One name per number *)

Lemma digit_of_value d : digit_of (digit_value d) = d.
Proof. by destruct d. Qed.

Lemma digit_value_bounds d : (1 <= digit_value d <= 9)%N.
Proof. destruct d; cbn; lia. Qed.

Lemma strip_zeros_spec f neg q d j e : j < f →
  strip_zeros f neg (mantissa q d * 10 ^ N.of_nat j) (e - Z.of_nat j) = FDec neg q d e.
Proof.
  revert f e. induction j as [|j IH]; intros [|f] e Hf; try lia; cbn [strip_zeros].
  - rewrite N.mul_1_r, Z.sub_0_r. unfold mantissa. pose proof (digit_value_bounds d).
    replace (10 * q + digit_value d)%N with (digit_value d + q * 10)%N by lia.
    rewrite N.Div0.mod_add, N.mod_small, N.div_add, N.div_small, digit_of_value by lia.
    by rewrite (proj2 (N.eqb_neq _ _)) by lia.
  - rewrite Nat2N.inj_succ, N.pow_succ_r', N.mul_assoc, (N.mul_comm _ 10), <-N.mul_assoc.
    rewrite (N.mul_comm 10), N.Div0.mod_mul. cbn [N.eqb]. rewrite N.div_mul by done.
    replace (e - Z.of_nat (S j) + 1)%Z with (e - Z.of_nat j)%Z by lia. apply IH. lia.
Qed.

Lemma decimal_spec neg q d j e :
  decimal neg (mantissa q d * 10 ^ N.of_nat j) (e - Z.of_nat j) = FDec neg q d e.
Proof.
  pose proof (digit_value_bounds d) as Hd. assert (1 <= mantissa q d)%N as Hm by (unfold mantissa; lia).
  assert (N.of_nat j <= N.log2 (mantissa q d * 10 ^ N.of_nat j))%N as Hj.
  { transitivity (N.log2 (2 ^ N.of_nat j)); [by rewrite N.log2_pow2 by lia|]. apply N.log2_le_mono.
    transitivity (1 * 10 ^ N.of_nat j)%N; [rewrite N.mul_1_l; apply N.pow_le_mono_l; lia|].
    by apply N.mul_le_mono_r. }
  unfold decimal. rewrite (proj2 (N.eqb_neq _ _)).
  - apply strip_zeros_spec. lia.
  - apply N.neq_mul_0. split; [lia|]. by apply N.pow_nonzero.
Qed.

Lemma decimal_mantissa neg q d e : decimal neg (mantissa q d) e = FDec neg q d e.
Proof. pose proof (decimal_spec neg q d 0 e) as H. by rewrite N.mul_1_r, Z.sub_0_r in H. Qed.
