(* ===== verification/Json.v ===== *)
(** * JSON ([stopan.common.json])

    [canonical_json_bytes] is [json.dumps] with sorted keys, compact separators and
    [ensure_ascii=False], encoded as UTF-8; [loads] is [json.loads]. Reading the canonical
    text of a value gives the value back ([loads_canonical]), so equal canonical bytes come
    from equal values. The limits of the interpreter on the nesting of documents and on the
    digits of an integer are left out. *)

From S2P Require Import Prelude PyStr PyFloat.

Inductive json : Type :=
  | JNull
  | JBool (b : bool)
  | JInt (z : Z)
  | JFloat (f : pyfloat)
  | JStr (s : pystr)
  | JArr (l : list json)
  | JObj (kvs : list (pystr * json)).

(** Induction over the nested lists. *)
Section json_ind.
Context (P : json → Prop).
Context (Hnull : P JNull) (Hbool : ∀ b, P (JBool b)) (Hint : ∀ z, P (JInt z))
  (Hfloat : ∀ f, P (JFloat f)) (Hstr : ∀ s, P (JStr s)) (Harr : ∀ l, Forall P l → P (JArr l))
  (Hobj : ∀ kvs, Forall (λ kv, P kv.2) kvs → P (JObj kvs)).

Fixpoint json_nested_ind (v : json) : P v :=
  match v with
  | JNull => Hnull
  | JBool b => Hbool b
  | JInt z => Hint z
  | JFloat f => Hfloat f
  | JStr s => Hstr s
  | JArr l => Harr l ((fix go l : Forall P l :=
      match l with
      | [] => Forall_nil_2 _
      | x :: l' => Forall_cons_2 _ _ _ (json_nested_ind x) (go l')
      end) l)
  | JObj kvs => Hobj kvs ((fix go l : Forall (λ kv, P kv.2) l :=
      match l with
      | [] => Forall_nil_2 _
      | kv :: l' => Forall_cons_2 _ kv _ (json_nested_ind kv.2) (go l')
      end) kvs)
  end.
End json_ind.

#[export] Instance json_eq_dec : EqDecision json.
Proof.
  unfold EqDecision. fix go 1. intros v w.
  destruct v as [|b|z|f|s|l|kvs], w as [|b'|z'|f'|s'|l'|kvs']; try (right; congruence).
  - by left.
  - destruct (decide (b = b')) as [->|]; [by left|right; congruence].
  - destruct (decide (z = z')) as [->|]; [by left|right; congruence].
  - destruct (decide (f = f')) as [->|]; [by left|right; congruence].
  - destruct (decide (s = s')) as [->|]; [by left|right; congruence].
  - assert (Decision (l = l')) as [->|H].
    { revert l'. induction l as [|x l IH]; intros [|y l']; try (right; congruence); [by left|].
      destruct (go x y) as [->|]; [|right; congruence].
      destruct (IH l') as [->|]; [by left|right; congruence]. }
    + by left.
    + right; congruence.
  - assert (Decision (kvs = kvs')) as [->|H].
    { revert kvs'. induction kvs as [|[k x] l IH]; intros [|[k' y] l']; try (right; congruence); [by left|].
      destruct (decide (k = k')) as [->|]; [|right; congruence].
      destruct (go x y) as [->|]; [|right; congruence].
      destruct (IH l') as [->|]; [by left|right; congruence]. }
    + by left.
    + right; congruence.
Defined.

(** ** [json.dumps] *)

Definition hex4 (c : N) : pystr :=
  let d n := if (n <? 10)%N then (48 + n)%N else (87 + n)%N in
  [48; 48; d (c / 16); d (c mod 16)]%N.

(** The escape of one character with [ensure_ascii=False]. *)
Definition esc (c : N) : pystr :=
  (if c =? 34 then [92; 34] else if c =? 92 then [92; 92]
   else if c =? 10 then [92; 110] else if c =? 13 then [92; 114]
   else if c =? 9 then [92; 116] else if c =? 12 then [92; 102]
   else if c =? 8 then [92; 98]
   else if c <? 32 then [92; 117] ++ hex4 c
   else [c])%N.

Definition dump_str (s : pystr) : pystr := 34%N :: concat (map esc s) ++ [34%N].

(** Joins the printed items of an array or object body with commas. *)
Fixpoint join_comma (l : list pystr) : pystr :=
  match l with
  | [] => []
  | [x] => x
  | x :: l' => x ++ 44%N :: join_comma l'
  end.

Fixpoint print_json (v : json) : pystr :=
  match v with
  | JNull => u "null"
  | JBool b => if b then u "true" else u "false"
  | JInt z => str_of_Z z
  | JFloat f => float_text f
  | JStr s => dump_str s
  | JArr l => 91%N :: join_comma (map print_json l) ++ [93%N]
  | JObj kvs =>
      123%N :: join_comma (map (λ kv, dump_str kv.1 ++ 58%N :: print_json kv.2) kvs) ++ [125%N]
  end.

(** [sort_keys=True]: keys of every object in increasing order. *)
Fixpoint sort_keys (v : json) : json :=
  match v with
  | JArr l => JArr (map sort_keys l)
  | JObj kvs =>
      JObj (py_sorted (λ a b, str_leb a.1 b.1) (map (λ kv, (kv.1, sort_keys kv.2)) kvs))
  | _ => v
  end.

Definition dumps (v : json) : pystr := print_json (sort_keys v).
Definition canonical_json_bytes (v : json) : bytes := encode_utf8 (dumps v).

(** ** [json.loads] *)

(** The white space of JSON. *)
Definition is_ws (c : N) : bool := ((c =? 32) || (c =? 9) || (c =? 10) || (c =? 13))%N.
Fixpoint skip_ws (s : pystr) : pystr :=
  match s with c :: r => if is_ws c then skip_ws r else s | [] => [] end.

Definition is_ascii_digit (c : N) : bool := ((48 <=? c) && (c <=? 57))%N.

Fixpoint span_digits (s : pystr) : pystr * pystr :=
  match s with
  | c :: r => if is_ascii_digit c then let '(d, t) := span_digits r in (c :: d, t) else ([], s)
  | [] => ([], [])
  end.

(** The rest of [s] after the literal [p]. *)
Fixpoint strip_prefix (p s : pystr) : option pystr :=
  match p, s with
  | [], _ => Some s
  | c :: p', d :: s' => if (c =? d)%N then strip_prefix p' s' else None
  | _ :: _, [] => None
  end.

(** The four hexadecimal digits of an escape, of either case. *)
Definition hex_digit_value (c : N) : option N :=
  (if (48 <=? c) && (c <=? 57) then Some (c - 48)
   else if (97 <=? c) && (c <=? 102) then Some (c - 87)
   else if (65 <=? c) && (c <=? 70) then Some (c - 55) else None)%N.
Definition hex4_value (a b c d : N) : option N :=
  w ← hex_digit_value a; x ← hex_digit_value b; y ← hex_digit_value c; z ← hex_digit_value d;
  Some (w * 4096 + x * 256 + y * 16 + z)%N.

Definition simple_escape (c : N) : option N :=
  (if c =? 34 then Some 34 else if c =? 92 then Some 92 else if c =? 47 then Some 47
   else if c =? 98 then Some 8 else if c =? 102 then Some 12 else if c =? 110 then Some 10
   else if c =? 114 then Some 13 else if c =? 116 then Some 9 else None)%N.

Definition high_surrogate (c : N) : bool := ((55296 <=? c) && (c <=? 56319))%N.
Definition low_surrogate (c : N) : bool := ((56320 <=? c) && (c <=? 57343))%N.

(** The code point a second escape adds to a high surrogate, and the text after it. *)
Definition second_escape (s : pystr) : option N :=
  match s with
  | b :: v :: g1 :: g2 :: g3 :: g4 :: _ =>
      if (b =? 92)%N && (v =? 117)%N then
        w ← hex4_value g1 g2 g3 g4; if low_surrogate w then Some w else None
      else None
  | _ => None
  end.

(** The characters of a string after its opening quote. *)
Fixpoint scan_string (fuel : nat) (s : pystr) : option (pystr * pystr) :=
  match fuel, s with
  | S f, c :: r =>
      let add x t := '(y, t) ← scan_string f t; Some (x :: y, t) in
      if (c =? 34)%N then Some ([], r)
      else if (c =? 92)%N then
        match r with
        | e :: r1 =>
            if (e =? 117)%N then
              match r1 with
              | h1 :: h2 :: h3 :: h4 :: r2 =>
                  v ← hex4_value h1 h2 h3 h4;
                  if high_surrogate v then
                    match second_escape r2 with
                    | Some w => add (65536 + (v - 55296) * 1024 + (w - 56320))%N (drop 6 r2)
                    | None => add v r2
                    end
                  else add v r2
              | _ => None
              end
            else x ← simple_escape e; add x r1
        | [] => None
        end
      else if (c <? 32)%N then None
      else add c r
  | _, _ => None
  end.

(** The fraction and the exponent of a number, when there are any. *)
Definition scan_fraction (s : pystr) : option pystr * pystr :=
  match s with
  | c :: r => if (c =? 46)%N then
                match span_digits r with ([], _) => (None, s) | (d, t) => (Some d, t) end
              else (None, s)
  | [] => (None, s)
  end.
Definition scan_exponent (s : pystr) : option Z * pystr :=
  match s with
  | c :: r =>
      if (c =? 101)%N || (c =? 69)%N then
        let '(neg, t) := match r with
          | d :: r' => if (d =? 45)%N then (true, r') else if (d =? 43)%N then (false, r') else (false, r)
          | [] => (false, r)
          end in
        match span_digits t with
        | ([], _) => (None, s)
        | (ds, t) => (Some (if neg then - int_of_decimal ds else int_of_decimal ds)%Z, t)
        end
      else (None, s)
  | [] => (None, s)
  end.

Section loads.
(** What [float(text)] does to the decimal it read. *)
Context (rnd : pyfloat → pyfloat).

Definition number_value (neg : bool) (ip : pystr) (frac : option pystr) (exp : option Z) : json :=
  match frac, exp with
  | None, None => JInt (if neg then - int_of_decimal ip else int_of_decimal ip)
  | _, _ =>
      let fp := default [] frac in
      JFloat (rnd (decimal neg (Z.to_N (int_of_decimal (ip ++ fp)))
                           (default 0%Z exp - Z.of_nat (length fp))))
  end.

(** [-?(0|[1-9][0-9]* )(\.[0-9]+)?([eE][-+]?[0-9]+)?] after its sign. *)
Definition scan_unsigned (neg : bool) (s : pystr) : option (json * pystr) :=
  match s with
  | c :: r =>
      if is_ascii_digit c then
        let '(ip, t) := if (c =? 48)%N then ([c], r) else span_digits s in
        let '(frac, t) := scan_fraction t in
        let '(exp, t) := scan_exponent t in
        Some (number_value neg ip frac exp, t)
      else None
  | [] => None
  end.

Definition scan_number (s : pystr) : option (json * pystr) :=
  match s with
  | c :: r =>
      if (c =? 45)%N then
        match strip_prefix (u "Infinity") r with
        | Some t => Some (JFloat (FInf true), t)
        | None => scan_unsigned true r
        end
      else scan_unsigned false s
  | [] => None
  end.

(** [dict(pairs)]: a repeated key keeps its place and takes the last value. *)
Fixpoint dict_set (k : pystr) (v : json) (kvs : list (pystr * json)) : list (pystr * json) :=
  match kvs with
  | [] => [(k, v)]
  | kv :: kvs' => if bool_decide (kv.1 = k) then (k, v) :: kvs' else kv :: dict_set k v kvs'
  end.
Definition dict_of (pairs : list (pystr * json)) : list (pystr * json) :=
  fold_left (λ d kv, dict_set kv.1 kv.2 d) pairs [].

(** Literals that are no number, string, array or object. *)
Definition scan_constant (s : pystr) : option (json * pystr) :=
  match strip_prefix (u "null") s with
  | Some t => Some (JNull, t)
  | None =>
  match strip_prefix (u "true") s with
  | Some t => Some (JBool true, t)
  | None =>
  match strip_prefix (u "false") s with
  | Some t => Some (JBool false, t)
  | None =>
  match strip_prefix (u "NaN") s with
  | Some t => Some (JFloat FNan, t)
  | None =>
  match strip_prefix (u "Infinity") s with
  | Some t => Some (JFloat (FInf false), t)
  | None => None
  end end end end end.

(** One value at the start of the text. Two calls consume a character, so twice the length of
    the text is enough fuel. *)
Fixpoint scan_value (fuel : nat) (s : pystr) : option (json * pystr) :=
  match fuel with
  | O => None
  | S f =>
      match s with
      | [] => None
      | c :: r =>
          if (c =? 34)%N then '(t, r) ← scan_string (length r) r; Some (JStr t, r)
          else if (c =? 123)%N then
            match skip_ws r with
            | d :: r' =>
                if (d =? 125)%N then Some (JObj [], r')
                else '(kvs, t) ← scan_members f (d :: r'); Some (JObj (dict_of kvs), t)
            | [] => None
            end
          else if (c =? 91)%N then
            match skip_ws r with
            | d :: r' =>
                if (d =? 93)%N then Some (JArr [], r')
                else '(l, t) ← scan_items f (d :: r'); Some (JArr l, t)
            | [] => None
            end
          else match scan_constant s with Some p => Some p | None => scan_number s end
      end
  end
with scan_items (fuel : nat) (s : pystr) : option (list json * pystr) :=
  match fuel with
  | O => None
  | S f =>
      '(v, t) ← scan_value f s;
      match skip_ws t with
      | c :: r =>
          if (c =? 44)%N then '(l, r) ← scan_items f (skip_ws r); Some (v :: l, r)
          else if (c =? 93)%N then Some ([v], r) else None
      | [] => None
      end
  end
with scan_members (fuel : nat) (s : pystr) : option (list (pystr * json) * pystr) :=
  match fuel, s with
  | S f, q :: r =>
      if (q =? 34)%N then
        '(k, t) ← scan_string (length r) r;
        match skip_ws t with
        | c :: t =>
            if (c =? 58)%N then
              '(v, t) ← scan_value f (skip_ws t);
              match skip_ws t with
              | c :: r =>
                  if (c =? 44)%N then '(l, r) ← scan_members f (skip_ws r); Some ((k, v) :: l, r)
                  else if (c =? 125)%N then Some ([(k, v)], r) else None
              | [] => None
              end
            else None
        | [] => None
        end
      else None
  | _, _ => None
  end.

(** A whole document: the byte order mark and trailing text are refused. *)
Definition loads_with (s : pystr) : option json :=
  match strip_prefix [65279%N] s with
  | Some _ => None
  | None =>
      let t := skip_ws s in
      '(v, r) ← scan_value (S (2 * length t)) t;
      match skip_ws r with [] => Some v | _ => None end
  end.
End loads.

(** [json.loads(text)] *)
Definition loads (s : pystr) : option json := loads_with round_float s.

(** ** Reading back what was written *)

(** What may follow a value inside a document: nothing a number could absorb. *)
Definition delimited (r : pystr) : Prop :=
  match r with [] => True | c :: _ => is_ascii_digit c = false ∧ c ≠ 46%N ∧ c ≠ 101%N ∧ c ≠ 69%N end.

Lemma scan_string_esc f c s : scan_string (S f) (esc c ++ s) = '(y, t) ← scan_string f s; Some (c :: y, t).
Proof.
  unfold esc.
  destruct (N.eqb_spec c 34) as [->|N1]; [done|]. destruct (N.eqb_spec c 92) as [->|N2]; [done|].
  destruct (N.eqb_spec c 10) as [->|N3]; [done|]. destruct (N.eqb_spec c 13) as [->|N4]; [done|].
  destruct (N.eqb_spec c 9) as [->|N5]; [done|]. destruct (N.eqb_spec c 12) as [->|N6]; [done|].
  destruct (N.eqb_spec c 8) as [->|N7]; [done|]. destruct (N.ltb_spec c 32) as [Hc|Hc].
  - assert (∀ n, (n < 32)%N → hex4_value 48 48
        (if (n / 16 <? 10)%N then (48 + n / 16)%N else (87 + n / 16)%N)
        (if (n mod 16 <? 10)%N then (48 + n mod 16)%N else (87 + n mod 16)%N) = Some n) as Hx.
    { intros n Hn. apply (proj1 (Forall_forall (λ n, hex4_value 48 48
        (if (n / 16 <? 10)%N then (48 + n / 16)%N else (87 + n / 16)%N)
        (if (n mod 16 <? 10)%N then (48 + n mod 16)%N else (87 + n mod 16)%N) = Some n) (N.of_nat <$> seq 0 32))).
      - repeat (apply Forall_cons; split; [reflexivity|]). apply Forall_nil_2.
      - apply list_elem_of_fmap. exists (N.to_nat n). split; [lia|]. apply elem_of_seq. lia. }
    unfold hex4. cbn [app scan_string]. cbn [N.eqb Pos.eqb]. rewrite Hx by done. cbn [mbind option_bind].
    unfold high_surrogate. by rewrite (proj2 (N.leb_gt 55296 c)) by lia.
  - cbn [app scan_string]. by rewrite (proj2 (N.eqb_neq _ _) N1), (proj2 (N.eqb_neq _ _) N2), (proj2 (N.ltb_ge _ _) Hc).
Qed.

Lemma scan_string_dump s f r : length s < f → scan_string f (concat (map esc s) ++ 34%N :: r) = Some (s, r).
Proof.
  revert f. induction s as [|c s IH]; intros [|f] Hf; cbn in Hf; try lia; [done|].
  cbn [map concat]. rewrite <-app_assoc, scan_string_esc, IH by lia. done.
Qed.

Lemma length_esc c : 1 <= length (esc c).
Proof. unfold esc. repeat (case_match; [cbn; lia|]). cbn. lia. Qed.

Lemma length_dump_body s : length s <= length (concat (map esc s)).
Proof.
  induction s as [|c s IH]; cbn [map concat]; [cbn; lia|]. rewrite length_app. pose proof (length_esc c). cbn [length]. lia.
Qed.

Lemma scan_dump s r : scan_string (length (concat (map esc s) ++ 34%N :: r)) (concat (map esc s) ++ 34%N :: r) = Some (s, r).
Proof. apply scan_string_dump. rewrite length_app. pose proof (length_dump_body s). cbn [length]. lia. Qed.

(** *** Numbers *)

Definition is_digit (c : N) : Prop := (48 <= c <= 57)%N.

Lemma is_digit_true c : is_digit c → is_ascii_digit c = true.
Proof. unfold is_digit, is_ascii_digit. intros [? ?]. by rewrite (proj2 (N.leb_le 48 c)), (proj2 (N.leb_le c 57)). Qed.

Definition no_digit (r : pystr) : Prop := match r with [] => True | c :: _ => is_ascii_digit c = false end.

Lemma span_digits_app s r : Forall is_digit s → no_digit r → span_digits (s ++ r) = (s, r).
Proof.
  intros Hs Hr. induction Hs as [|c s Hc Hs IH]; cbn [app span_digits].
  - destruct r as [|c r]; [done|]. cbn in *. by rewrite Hr.
  - by rewrite is_digit_true, IH.
Qed.

Lemma str_of_N_digits n : Forall is_digit (str_of_N n).
Proof. apply str_of_N_spec. Qed.

Lemma int_of_decimal_app s t : int_of_decimal (s ++ t) = (int_of_decimal s * 10 ^ Z.of_nat (length t) + int_of_decimal t)%Z.
Proof.
  induction t as [|c t IH] using rev_ind; [rewrite app_nil_r; cbn; lia|].
  rewrite app_assoc, !int_of_decimal_snoc, IH, length_app, Nat2Z.inj_add, Z.pow_add_r by lia.
  cbn [length]. change (10 ^ Z.of_nat 1)%Z with 10%Z. ring.
Qed.

Lemma int_of_zeros n : int_of_decimal (zeros n) = 0%Z.
Proof.
  unfold zeros. induction n as [|n IH]; [done|]. rewrite replicate_S.
  change (48%N :: replicate n 48%N) with ([48%N] ++ replicate n 48%N). rewrite int_of_decimal_app, IH.
  change (int_of_decimal [48%N]) with 0%Z. lia.
Qed.

Lemma zeros_digits n : Forall is_digit (zeros n).
Proof. apply Forall_replicate. unfold is_digit. lia. Qed.

(** A positive number does not start with a zero. *)
Lemma digits_of_head f n : (0 < n)%N → (n < 2 ^ N.of_nat f)%N → ∃ c t, digits_of f n = c :: t ∧ (49 <= c <= 57)%N.
Proof.
  revert n. induction f as [|f IH]; intros n Hn Hf; [cbn in Hf; lia|]. cbn [digits_of].
  destruct (N.ltb_spec n 10) as [H|H]; [exists (48 + n)%N, []; split; [done|lia]|].
  rewrite Nat2N.inj_succ, N.pow_succ_r' in Hf.
  destruct (IH (n / 10)%N) as (c & t & -> & Hc).
  - apply N.div_str_pos. lia.
  - apply N.Div0.div_lt_upper_bound. lia.
  - exists c, (t ++ [48 + n mod 10]%N). done.
Qed.

Lemma str_of_N_head n : (0 < n)%N → ∃ c t, str_of_N n = c :: t ∧ (49 <= c <= 57)%N.
Proof.
  intros Hn. apply digits_of_head; [done|]. rewrite Nat2N.inj_succ, N2Nat.id. by apply N.log2_spec.
Qed.

Section numbers.
Context (rnd : pyfloat → pyfloat).

Lemma delimited_no_digit r : delimited r → no_digit r.
Proof. destruct r as [|c r]; [done|]. by intros [? _]. Qed.

Lemma delimited_fraction r : delimited r → scan_fraction r = (None, r).
Proof. destruct r as [|c r]; [done|]. intros (_ & H & _ & _). cbn. by rewrite (proj2 (N.eqb_neq _ _) H). Qed.

Lemma delimited_exponent r : delimited r → scan_exponent r = (None, r).
Proof.
  destruct r as [|c r]; [done|]. intros (_ & _ & H & H'). cbn.
  by rewrite (proj2 (N.eqb_neq _ _) H), (proj2 (N.eqb_neq _ _) H').
Qed.

(** The integer part of a number that does not start with a zero, or is one. *)
Lemma scan_unsigned_spec neg c t r frac exp r1 r2 :
  Forall is_digit (c :: t) → (c = 48%N → t = []) → no_digit r →
  scan_fraction r = (frac, r1) → scan_exponent r1 = (exp, r2) →
  scan_unsigned rnd neg ((c :: t) ++ r) = Some (number_value rnd neg (c :: t) frac exp, r2).
Proof.
  intros Hd Hz Hr Hf He. pose proof (proj1 (proj1 (Forall_cons _ _ _) Hd)) as Hc.
  cbn [app]. unfold scan_unsigned. rewrite (is_digit_true c Hc).
  destruct (N.eqb_spec c 48) as [E|E].
  - rewrite (Hz E). cbn [app]. by rewrite Hf, He.
  - change (c :: t ++ r) with ((c :: t) ++ r). rewrite span_digits_app, Hf, He by done. done.
Qed.

Lemma str_of_N_cases n : ∃ c t, str_of_N n = c :: t ∧ (c = 48%N → t = []).
Proof.
  destruct (decide (n = 0)%N) as [->|H]; [by exists 48%N, []|].
  destruct (str_of_N_head n) as (c & t & E & Hc); [lia|]. exists c, t. split; [done|]. lia.
Qed.

Lemma scan_unsigned_N neg n r : delimited r →
  scan_unsigned rnd neg (str_of_N n ++ r) = Some (JInt (if neg then - Z.of_N n else Z.of_N n), r).
Proof.
  intros Hr. destruct (str_of_N_cases n) as (c & t & E & Hz). pose proof (str_of_N_digits n) as Hd.
  pose proof (proj1 (str_of_N_spec n)) as Hv. rewrite E in Hd, Hv |- *.
  erewrite scan_unsigned_spec; [|done|done|by apply delimited_no_digit|by apply delimited_fraction|by apply delimited_exponent].
  unfold number_value. by rewrite Hv.
Qed.

Lemma scan_unsigned_head neg s : (∀ c r, s = c :: r → ¬ is_digit c) → scan_unsigned rnd neg s = None.
Proof.
  destruct s as [|c s]; [done|]. intros H. unfold scan_unsigned. destruct (is_ascii_digit c) eqn:E; [|done].
  exfalso. apply (H c s eq_refl). unfold is_digit, is_ascii_digit in *. bool_hyps. apply N.leb_le in H0, H1. lia.
Qed.

Lemma strip_prefix_head a p c s : (a =? c)%N = false → strip_prefix (a :: p) (c :: s) = None.
Proof. cbn. by intros ->. Qed.

(** A sign or a digit starts no constant. *)
Lemma scan_constant_number c s : c = 45%N ∨ is_digit c → scan_constant (c :: s) = None.
Proof.
  unfold is_digit, scan_constant. intros Hc.
  assert (∀ a, (57 < a)%N → (a =? c)%N = false) as H by (intros; apply N.eqb_neq; lia).
  unfold u. cbn [List.map String.list_ascii_of_string].
  repeat (rewrite strip_prefix_head; [|apply H; by compute]). done.
Qed.

Lemma scan_signed (neg : bool) v s r :
  (∃ c t, s = c :: t ∧ is_digit c) → (∀ neg, scan_unsigned rnd neg (s ++ r) = Some (v neg, r)) →
  scan_number rnd (sign neg ++ s ++ r) = Some (v neg, r) ∧ scan_constant (sign neg ++ s ++ r) = None.
Proof.
  intros (c & t & -> & Hc) H. split.
  - assert ((c =? 45)%N = false) as N1 by (apply N.eqb_neq; unfold is_digit in Hc; lia).
    destruct neg; cbn [sign app scan_number].
    + cbn [N.eqb Pos.eqb]. unfold u. cbn [List.map String.list_ascii_of_string].
      rewrite strip_prefix_head; [apply (H true)|]. apply N.eqb_neq. unfold is_digit in Hc. cbn. lia.
    + rewrite N1. apply (H false).
  - destruct neg; cbn [sign app]; apply scan_constant_number; auto.
Qed.

Lemma scan_int z r : delimited r →
  scan_number rnd (str_of_Z z ++ r) = Some (JInt z, r) ∧ scan_constant (str_of_Z z ++ r) = None.
Proof.
  intros Hr.
  assert (∀ n, ∃ c t, str_of_N n = c :: t ∧ is_digit c) as Hh.
  { intros n. pose proof (str_of_N_digits n) as Hd. pose proof (str_of_N_nonempty n).
    destruct Hd as [|c t Hc _]; [done|]. eauto. }
  assert (str_of_Z z = sign (z <? 0)%Z ++ str_of_N (Z.abs_N z)) as -> by (by destruct z).
  rewrite <-app_assoc.
  pose proof (scan_signed (z <? 0)%Z (λ neg : bool, JInt (if neg then - Z.of_N (Z.abs_N z) else Z.of_N (Z.abs_N z)))
    (str_of_N (Z.abs_N z)) r (Hh _) (λ neg, scan_unsigned_N neg _ r Hr)) as [-> ->].
  split; [|done]. do 3 f_equal. destruct (z <? 0)%Z eqn:E; bool_hyps; lia.
Qed.

Definition dec_value (neg : bool) (digs : pystr) (e : Z) : json := JFloat (rnd (decimal neg (Z.to_N (int_of_decimal digs)) e)).

Lemma number_value_frac neg ip fp exp :
  number_value rnd neg ip (Some fp) exp = dec_value neg (ip ++ fp) (default 0%Z exp - Z.of_nat (length fp)).
Proof. by destruct exp. Qed.

Lemma number_value_exp neg ip x : number_value rnd neg ip None (Some x) = dec_value neg ip x.
Proof. unfold number_value, dec_value. cbn [default length]. by rewrite app_nil_r, Z.sub_0_r. Qed.

Lemma scan_exp_digits (neg : bool) n r : delimited r →
  scan_exponent (101%N :: (if neg then 45%N else 43%N) :: exp_digits n ++ r)
  = (Some (if neg then - Z.of_N n else Z.of_N n)%Z, r).
Proof.
  intros Hr. assert (Forall is_digit (exp_digits n) ∧ exp_digits n ≠ [] ∧ int_of_decimal (exp_digits n) = Z.of_N n) as (Hd & Hne & Hv).
  { unfold exp_digits. destruct (n <? 10)%N.
    - split_and!; [apply Forall_cons; split; [unfold is_digit; lia|apply str_of_N_digits]|done|].
      change (48%N :: str_of_N n) with ([48%N] ++ str_of_N n). rewrite int_of_decimal_app, (proj1 (str_of_N_spec n)).
      change (int_of_decimal [48%N]) with 0%Z. lia.
    - split_and!; [apply str_of_N_digits|apply str_of_N_nonempty|apply str_of_N_spec]. }
  assert (scan_exponent (101%N :: (if neg then 45%N else 43%N) :: exp_digits n ++ r)
    = match span_digits (exp_digits n ++ r) with
      | ([], _) => (None, 101%N :: (if neg then 45%N else 43%N) :: exp_digits n ++ r)
      | (ds, t) => (Some (if neg then - int_of_decimal ds else int_of_decimal ds)%Z, t) end) as -> by (by destruct neg).
  rewrite span_digits_app by (done || by apply delimited_no_digit).
  destruct (exp_digits n) eqn:E; [done|]. rewrite <-E in *. by rewrite Hv.
Qed.

Lemma scan_frac_digits fp r : Forall is_digit fp → fp ≠ [] → no_digit r → scan_fraction (46%N :: fp ++ r) = (Some fp, r).
Proof.
  intros Hd Hne Hr. cbn [scan_fraction]. cbn [N.eqb Pos.eqb]. rewrite span_digits_app by done. by destruct fp.
Qed.

(** The four layouts of [repr], for the digits [c :: t] of a mantissa. *)
Section layouts.
Context (neg : bool) (q : N) (d : digit) (e : Z) (r : pystr) (c : N) (t : pystr).
Context (Hr : delimited r) (Hc : (49 <= c <= 57)%N) (Hd : Forall is_digit (c :: t)).
Context (Hv : int_of_decimal (c :: t) = Z.of_N (mantissa q d)).
Notation n := (Z.of_nat (length (c :: t))).

Lemma dec_value_exact digs k : int_of_decimal digs = Z.of_N (mantissa q d) → k = e →
  dec_value neg digs k = JFloat (rnd (FDec neg q d e)).
Proof. intros H ->. unfold dec_value. by rewrite H, N2Z.id, decimal_mantissa. Qed.

Lemma head_digit : Forall is_digit [c].
Proof. apply Forall_singleton. unfold is_digit. lia. Qed.

Lemma tail_digits : Forall is_digit t.
Proof. by inversion Hd. Qed.

Lemma scan_scientific :
  scan_unsigned rnd neg ([c] ++ (if (n =? 1)%Z then [] else 46%N :: t)
     ++ 101%N :: (if (n + e - 1 <? 0)%Z then 45%N else 43%N) :: exp_digits (Z.abs_N (n + e - 1)) ++ r)
  = Some (JFloat (rnd (FDec neg q d e)), r).
Proof.
  pose proof (scan_exp_digits (n + e - 1 <? 0)%Z (Z.abs_N (n + e - 1)) r Hr) as Hx.
  assert ((if (n + e - 1 <? 0)%Z then - Z.of_N (Z.abs_N (n + e - 1)) else Z.of_N (Z.abs_N (n + e - 1)))%Z = (n + e - 1)%Z) as Hz
    by (destruct (Z.ltb_spec (n + e - 1) 0); lia).
  rewrite Hz in Hx. destruct (Z.eqb_spec n 1) as [N1|N1].
  - assert (t = []) as Et by (destruct t; [done|cbn [length] in N1; lia]).
    erewrite scan_unsigned_spec; [|exact head_digit|done|done|reflexivity|exact Hx].
    rewrite number_value_exp, (dec_value_exact [c]); [done|by rewrite <-Et|lia].
  - cbn [app]. change (c :: 46%N :: ?k) with ([c] ++ 46%N :: k).
    erewrite scan_unsigned_spec; [|exact head_digit|done|done| |exact Hx].
    2: { apply scan_frac_digits; [exact tail_digits| |done]. intros Et. rewrite Et in N1. cbn [length] in N1. lia. }
    rewrite number_value_frac. cbn [default app]; unfold id. rewrite (dec_value_exact (c :: t)); [done..|]. cbn [length]. lia.
Qed.

Lemma scan_small : (n + e <= 0)%Z →
  scan_unsigned rnd neg (u "0." ++ (zeros (Z.to_nat (- (n + e))) ++ c :: t) ++ r) = Some (JFloat (rnd (FDec neg q d e)), r).
Proof.
  intros H. change (u "0." ++ ?k) with ([48%N] ++ 46%N :: k).
  erewrite scan_unsigned_spec; [| |done|done| |by apply delimited_exponent].
  2: { apply Forall_singleton. unfold is_digit; lia. }
  2: { apply scan_frac_digits; [|by destruct (zeros _)|by apply delimited_no_digit].
       apply Forall_app; split; [apply zeros_digits|done]. }
  rewrite number_value_frac. cbn [default]; unfold id. rewrite dec_value_exact; [done| |].
  - rewrite !int_of_decimal_app, int_of_zeros, Hv. change (int_of_decimal [48%N]) with 0%Z. lia.
  - unfold zeros. rewrite length_app, length_replicate. lia.
Qed.

Lemma scan_large : (0 <= e)%Z →
  scan_unsigned rnd neg (((c :: t) ++ zeros (Z.to_nat e)) ++ u ".0" ++ r) = Some (JFloat (rnd (FDec neg q d e)), r).
Proof.
  intros H. change (u ".0" ++ r) with (46%N :: [48%N] ++ r).
  change ((c :: t) ++ zeros (Z.to_nat e)) with (c :: t ++ zeros (Z.to_nat e)).
  erewrite scan_unsigned_spec; [| |lia|done| |by apply delimited_exponent].
  2: { change (Forall is_digit ((c :: t) ++ zeros (Z.to_nat e))). apply Forall_app; split; [done|apply zeros_digits]. }
  2: { apply (scan_frac_digits [48%N]); [|done|by apply delimited_no_digit]. apply Forall_singleton. unfold is_digit; lia. }
  rewrite number_value_frac. cbn [default]; unfold id. unfold dec_value.
  change ((c :: t ++ zeros (Z.to_nat e)) ++ [48%N]) with (((c :: t) ++ zeros (Z.to_nat e)) ++ [48%N]).
  rewrite !int_of_decimal_app, int_of_zeros, Hv. change (int_of_decimal [48%N]) with 0%Z.
  rewrite !Z.add_0_r. unfold zeros. rewrite length_replicate. cbn [length].
  pose proof (decimal_spec neg q d (S (Z.to_nat e)) e) as Hs.
  replace (e - Z.of_nat (S (Z.to_nat e)))%Z with (0 - Z.of_nat 1)%Z in Hs by lia. rewrite <-Hs.
  do 5 f_equal. apply N2Z.inj. rewrite Z2N.id by nia. rewrite N2Z.inj_mul, N2Z.inj_pow, nat_N_Z.
  replace (Z.of_nat (S (Z.to_nat e))) with (e + 1)%Z by lia. rewrite Z.pow_add_r by lia.
  replace (Z.of_nat (Z.to_nat e)) with e by lia. cbn [Z.of_N]. change (10 ^ Z.of_nat 1)%Z with 10%Z.
  change (10 ^ 1)%Z with 10%Z. ring.
Qed.

Lemma scan_mixed : (0 < n + e)%Z → (e < 0)%Z →
  scan_unsigned rnd neg (take (Z.to_nat (n + e)) (c :: t) ++ 46%N :: drop (Z.to_nat (n + e)) (c :: t) ++ r)
  = Some (JFloat (rnd (FDec neg q d e)), r).
Proof.
  intros H1 H2. assert (∃ k, Z.to_nat (n + e) = S k ∧ k < length t) as (k & Ek & Hk).
  { exists (Z.to_nat (n + e - 1)). cbn [length] in *. lia. }
  rewrite Ek. cbn [take drop firstn skipn].
  erewrite scan_unsigned_spec; [| |lia|done| |by apply delimited_exponent].
  2: { apply Forall_cons; split; [unfold is_digit; lia|apply Forall_take, tail_digits]. }
  2: { apply scan_frac_digits; [apply Forall_drop, tail_digits| |by apply delimited_no_digit].
       intros H. apply (f_equal length) in H. rewrite length_drop in H. cbn [length] in H. lia. }
  rewrite number_value_frac. cbn [default]; unfold id.
  change ((c :: take k t) ++ drop k t) with (c :: take k t ++ drop k t). rewrite take_drop.
  rewrite dec_value_exact; [done..|]. rewrite length_drop. cbn [length] in *. lia.
Qed.
End layouts.

Lemma scan_repr neg q d e r : delimited r →
  scan_unsigned rnd neg (repr_positive (str_of_N (mantissa q d)) e ++ r) = Some (JFloat (rnd (FDec neg q d e)), r).
Proof.
  intros Hr. pose proof (digit_value_bounds d) as Hdv.
  destruct (str_of_N_head (mantissa q d)) as (c & t & E & Hc); [unfold mantissa; lia|].
  pose proof (str_of_N_digits (mantissa q d)) as Hd. pose proof (proj1 (str_of_N_spec (mantissa q d))) as Hv.
  rewrite E in *. unfold repr_positive. destruct (_ || _) eqn:E1.
  - pose proof (scan_scientific neg q d e r c t Hr Hc Hd Hv) as H. change (take 1 (c :: t)) with [c].
    change (drop 1 (c :: t)) with t. rewrite <-!app_assoc. exact H.
  - destruct (Z.leb_spec (Z.of_nat (length (c :: t)) + e) 0); [|destruct (Z.leb_spec 0 e)].
    + rewrite <-app_assoc. by apply scan_small.
    + rewrite app_assoc, <-app_assoc. by apply scan_large.
    + rewrite <-app_assoc. by apply scan_mixed.
Qed.

(** A float is read as what rounding makes of it. *)
Lemma scan_float f r : delimited r →
  match scan_constant (float_text f ++ r) with Some p => Some p | None => scan_number rnd (float_text f ++ r) end
  = Some (JFloat (match f with FDec _ _ _ _ => rnd f | FZero neg => rnd (FZero neg) | _ => f end), r).
Proof.
  intros Hr. destruct f as [|neg|neg|neg q d e]; cbn [float_text].
  - done.
  - by destruct neg.
  - rewrite <-app_assoc.
    pose proof (scan_signed neg (λ neg, JFloat (rnd (FZero neg))) (u "0.0") r) as H.
    destruct H as [-> ->]; [..|done].
    + exists 48%N, (u ".0"). split; [done|]. unfold is_digit; lia.
    + intros b. change (u "0.0" ++ r) with ([48%N] ++ 46%N :: [48%N] ++ r).
      erewrite scan_unsigned_spec; [| |done|done| |by apply delimited_exponent]; cycle 1.
      * apply Forall_singleton. unfold is_digit; lia.
      * apply (scan_frac_digits [48%N]); [|done|by apply delimited_no_digit]. apply Forall_singleton. unfold is_digit; lia.
      * done.
  - rewrite <-app_assoc.
    pose proof (scan_signed neg (λ neg, JFloat (rnd (FDec neg q d e))) (repr_positive (str_of_N (mantissa q d)) e) r) as H.
    destruct H as [-> ->]; [..|done].
    + unfold repr_positive. pose proof (digit_value_bounds d).
      destruct (str_of_N_head (mantissa q d)) as (c & t & -> & Hc); [unfold mantissa; lia|].
      assert (is_digit c ∧ is_digit 48) as [? ?] by (unfold is_digit; lia).
      destruct (_ || _); [by eauto|]. destruct (_ <=? 0)%Z eqn:E; [by eauto|]. destruct (0 <=? e)%Z; [by eauto|].
      apply Z.leb_gt in E. destruct (Z.to_nat (Z.of_nat (length (c :: t)) + e)) eqn:E2; [lia|]. by eauto.
    + intros b. by apply scan_repr.
Qed.
End numbers.

(** ** Documents *)

(** What Python can hold and write: strings without surrogates, keys once, and floats that
    are doubles. *)
Fixpoint json_ok (v : json) : Prop :=
  match v with
  | JFloat f => is_double f
  | JStr s => Forall encodable s
  | JArr l => fold_right (λ x P, json_ok x ∧ P) True l
  | JObj kvs => NoDup kvs.*1 ∧ fold_right (λ kv P, Forall encodable kv.1 ∧ json_ok kv.2 ∧ P) True kvs
  | _ => True
  end.

Lemma json_ok_arr l : json_ok (JArr l) ↔ Forall json_ok l.
Proof. cbn. induction l as [|x l IH]; cbn; [done|]. by rewrite Forall_cons, IH. Qed.

Lemma json_ok_obj kvs :
  json_ok (JObj kvs) ↔ NoDup kvs.*1 ∧ Forall (λ kv, Forall encodable kv.1 ∧ json_ok kv.2) kvs.
Proof.
  cbn. apply and_iff_compat_l. induction kvs as [|kv l IH]; cbn; [done|]. rewrite Forall_cons, IH. tauto.
Qed.

Lemma dict_set_snoc k v kvs : k ∉ kvs.*1 → dict_set k v kvs = kvs ++ [(k, v)].
Proof.
  induction kvs as [|kv l IH]; cbn; [done|]. intros H. rewrite not_elem_of_cons in H.
  rewrite bool_decide_eq_false_2 by naive_solver. by rewrite IH by naive_solver.
Qed.

Lemma dict_of_nodup kvs : NoDup kvs.*1 → dict_of kvs = kvs.
Proof.
  unfold dict_of. change kvs with ([] ++ kvs) at 1 3. generalize (@nil (pystr * json)) as acc.
  induction kvs as [|[k v] l IH]; intros acc; cbn [fold_left]; [by rewrite app_nil_r|]. intros H.
  assert (k ∉ acc.*1) as Hk.
  { rewrite fmap_app in H. apply NoDup_app in H as (_ & H & _). intros Hin. apply (H _ Hin). by left. }
  cbn [fst snd]. rewrite dict_set_snoc by done. rewrite IH; rewrite <-app_assoc; done.
Qed.

Lemma skip_ws_head c r : is_ws c = false → skip_ws (c :: r) = c :: r.
Proof. cbn. by intros ->. Qed.

(** The head of a printed value is no white space and closes nothing. *)
Lemma print_head v : ∃ c r, print_json v = c :: r ∧ is_ws c = false ∧ c ≠ 93%N ∧ c ≠ 125%N ∧ c ≠ 65279%N.
Proof.
  assert (∀ c r, is_digit c → ∃ c' r', c :: r = c' :: r' ∧ is_ws c' = false ∧ c' ≠ 93%N ∧ c' ≠ 125%N ∧ c' ≠ 65279%N) as Hd.
  { unfold is_digit, is_ws. intros c r Hc. exists c, r. split; [done|].
    repeat match goal with |- context [(c =? ?n)%N] => rewrite (proj2 (N.eqb_neq c n)) by lia end. lia. }
  destruct v as [|[]|z|f|s|l|kvs]; try (do 2 eexists; split; [reflexivity|done]).
  - assert (∀ n, ∃ c r, str_of_N n = c :: r ∧ is_digit c) as Hn.
    { intros n. pose proof (str_of_N_digits n) as H. pose proof (str_of_N_nonempty n). destruct H; [done|eauto]. }
    destruct z as [|p|p]; cbn [print_json str_of_Z]; [..|do 2 eexists; split; [reflexivity|done]];
      match goal with |- context [str_of_N ?n] => destruct (Hn n) as (c & r & -> & Hc) end; by apply Hd.
  - destruct f as [|[]|[]|[] q d e]; try (do 2 eexists; split; [reflexivity|done]).
    cbn [print_json float_text sign app]. unfold repr_positive. pose proof (digit_value_bounds d).
    destruct (str_of_N_head (mantissa q d)) as (c & t & -> & Hc); [unfold mantissa; lia|].
    assert (is_digit c ∧ is_digit 48) as [? ?] by (unfold is_digit; lia).
    destruct (_ || _); [by apply Hd|]. destruct (_ <=? 0)%Z eqn:E; [by apply Hd|]. destruct (0 <=? e)%Z; [by apply Hd|].
    apply Z.leb_gt in E. destruct (Z.to_nat (Z.of_nat (length (c :: t)) + e)) eqn:E2; [lia|]. by apply Hd.
Qed.

Section documents.
Context (rnd : pyfloat → pyfloat) (Hrnd : ∀ f, is_double f → rnd f = f).

Definition scans (v : json) : Prop := ∀ f r, length (print_json v) < f → delimited r →
  scan_value rnd f (print_json v ++ r) = Some (v, r).

Lemma delimited_char c r : c = 44%N ∨ c = 93%N ∨ c = 125%N → delimited (c :: r).
Proof. by intros [->|[->| ->]]. Qed.

Lemma join_cons x y l : join_comma (x :: y :: l) = x ++ 44%N :: join_comma (y :: l).
Proof. done. Qed.

Lemma join_head (l : list pystr) : ∀ x, ∃ s, join_comma (x :: l) = x ++ s.
Proof. intros x. destruct l as [|y l]; [exists []; by rewrite app_nil_r|]. rewrite join_cons. eauto. Qed.

Lemma join_print_head v l : ∃ c t, join_comma (map print_json (v :: l)) = c :: t ∧ is_ws c = false ∧ c ≠ 93%N.
Proof.
  destruct (print_head v) as (c & t & E & ? & ? & _). cbn [map].
  destruct (join_head (map print_json l) (print_json v)) as (s & ->). rewrite E. cbn [app]. eauto.
Qed.

Lemma scan_items_join l f r : Forall scans l → l ≠ [] → length (join_comma (map print_json l)) + 1 < f →
  scan_items rnd f (join_comma (map print_json l) ++ 93%N :: r) = Some (l, r).
Proof.
  intros Hl. revert f. induction Hl as [|v l Hv Hl IH]; intros f Hne Hf; [done|].
  destruct f as [|f]; [lia|]. cbn [scan_items]. destruct l as [|w l].
  - cbn [map join_comma] in *. rewrite Hv by (lia || (apply delimited_char; auto)). done.
  - change (map print_json (v :: w :: l)) with (print_json v :: print_json w :: map print_json l) in *.
    rewrite join_cons in *. change (print_json w :: map print_json l) with (map print_json (w :: l)) in *.
    rewrite length_app in Hf. cbn [length] in Hf. rewrite <-app_assoc. cbn [app]. rewrite Hv by (lia || (apply delimited_char; auto)). cbn [mbind option_bind].
    rewrite skip_ws_head by done. cbn [N.eqb Pos.eqb].
    destruct (join_print_head w l) as (c & t & Ec & Hc & _).
    assert (skip_ws (join_comma (map print_json (w :: l)) ++ 93%N :: r) = join_comma (map print_json (w :: l)) ++ 93%N :: r) as ->
      by (rewrite Ec; by apply skip_ws_head).
    rewrite IH by (done || lia). done.
Qed.

Definition print_member (kv : pystr * json) : pystr := dump_str kv.1 ++ 58%N :: print_json kv.2.

Lemma join_member_head kv l : ∃ t, join_comma (map print_member (kv :: l)) = 34%N :: t.
Proof. cbn [map]. destruct (join_head (map print_member l) (print_member kv)) as (s & ->). eexists. reflexivity. Qed.

Lemma scan_member f k v r c r' :
  scans v → length (print_json v) < f → skip_ws (c :: r) = c :: r' → (c = 44%N ∨ c = 125%N) →
  scan_members rnd (S f) (print_member (k, v) ++ c :: r)
  = if (c =? 44)%N then '(l, r) ← scan_members rnd f (skip_ws r'); Some ((k, v) :: l, r) else Some ([(k, v)], r').
Proof.
  intros Hv Hf Hws Hc. unfold print_member, dump_str. cbn [fst snd]. cbn [app scan_members]. cbn [N.eqb Pos.eqb].
  rewrite <-!app_assoc. cbn [app]. rewrite scan_dump. cbn [mbind option_bind].
  rewrite skip_ws_head by done. cbn [N.eqb Pos.eqb].
  destruct (print_head v) as (a & t & E & Ha & _).
  assert (skip_ws (print_json v ++ c :: r) = print_json v ++ c :: r) as -> by (rewrite E; by apply skip_ws_head).
  rewrite Hv by (done || (apply delimited_char; tauto)). cbn [mbind option_bind]. rewrite Hws.
  by destruct Hc as [-> | ->].
Qed.

Lemma scan_members_join kvs f r : Forall (λ kv, scans kv.2) kvs → kvs ≠ [] →
  length (join_comma (map print_member kvs)) + 1 < f →
  scan_members rnd f (join_comma (map print_member kvs) ++ 125%N :: r) = Some (kvs, r).
Proof.
  intros Hl. revert f. induction Hl as [|[k v] l Hv Hl IH]; intros f Hne Hf; [done|].
  assert (length (print_json v) < length (print_member (k, v))) as Hlen.
  { unfold print_member. rewrite length_app. cbn [length snd fst]. lia. }
  destruct f as [|f]; [lia|]. destruct l as [|w l].
  - cbn [map join_comma] in *. rewrite (scan_member f k v r 125 r) by (done || lia || auto). done.
  - change (map print_member ((k, v) :: w :: l)) with (print_member (k, v) :: print_member w :: map print_member l) in *.
    rewrite join_cons in *. change (print_member w :: map print_member l) with (map print_member (w :: l)) in *.
    rewrite length_app in Hf. cbn [length] in Hf. rewrite <-app_assoc. cbn [app].
    destruct (join_member_head w l) as (t & Et).
    rewrite (scan_member f k v _ 44 (join_comma (map print_member (w :: l)) ++ 125%N :: r)) by (done || lia || auto).
    cbn [N.eqb Pos.eqb].
    assert (skip_ws (join_comma (map print_member (w :: l)) ++ 125%N :: r) = join_comma (map print_member (w :: l)) ++ 125%N :: r) as ->
      by (rewrite Et; by apply skip_ws_head).
    rewrite IH by (done || lia). done.
Qed.

Lemma scan_atom f c r p : c ≠ 34%N → c ≠ 123%N → c ≠ 91%N →
  match scan_constant (c :: r) with Some p => Some p | None => scan_number rnd (c :: r) end = p →
  scan_value rnd (S f) (c :: r) = p.
Proof. intros H1 H2 H3 H. cbn [scan_value]. by rewrite !(proj2 (N.eqb_neq _ _)) by done. Qed.

Lemma scan_print v : json_ok v → scans v.
Proof.
  induction v as [|b|z|fl|s|l IH|kvs IH] using json_nested_ind; intros Hok [|f] r Hf Hr; try lia.
  - done.
  - by destruct b.
  - destruct (scan_int rnd z r Hr) as [H1 H2]. cbn [print_json] in *. revert H1 H2.
    assert (∃ c t, str_of_Z z = c :: t ∧ c ≠ 34%N ∧ c ≠ 123%N ∧ c ≠ 91%N) as (c & t & -> & ? & ? & ?).
    { pose proof (str_of_N_digits (Z.abs_N z)) as H. pose proof (str_of_N_nonempty (Z.abs_N z)).
      destruct z as [|p|p]; cbn [Z.abs_N str_of_Z Z.to_N] in *; [destruct H as [|c t Hc _]; [done|]..|by exists 45%N, (str_of_N (Npos p))];
        exists c, t; unfold is_digit in Hc; split_and!; try done; lia. }
    intros E1 E2. cbn [app] in *. apply scan_atom; [done..|]. by rewrite E2, E1.
  - pose proof (scan_float rnd fl r Hr) as H. cbn [print_json] in *. revert H.
    assert (∃ c t, float_text fl = c :: t ∧ c ≠ 34%N ∧ c ≠ 123%N ∧ c ≠ 91%N) as (c & t & -> & ? & ? & ?).
    { destruct fl as [|[]|[]|neg q d e]; try (do 2 eexists; split; [reflexivity|done]).
      cbn [float_text]. destruct neg; [do 2 eexists; split; [reflexivity|done]|]. cbn [sign app].
      unfold repr_positive. pose proof (digit_value_bounds d).
      destruct (str_of_N_head (mantissa q d)) as (c & t & -> & Hc); [unfold mantissa; lia|].
      destruct (_ || _); [do 2 eexists; split; [reflexivity|lia]|].
      destruct (_ <=? 0)%Z eqn:E; [do 2 eexists; split; [reflexivity|done]|].
      destruct (0 <=? e)%Z; [do 2 eexists; split; [reflexivity|lia]|].
      apply Z.leb_gt in E. destruct (Z.to_nat (Z.of_nat (length (c :: t)) + e)) eqn:E2; [lia|].
      do 2 eexists; split; [reflexivity|lia]. }
    intros E1. cbn [app] in *. apply scan_atom; [done..|]. rewrite E1. do 3 f_equal.
    destruct fl; cbn in Hok; auto.
  - cbn [print_json] in *. unfold dump_str in *. cbn [app scan_value]. cbn [N.eqb Pos.eqb].
    rewrite <-app_assoc. cbn [app]. by rewrite scan_dump.
  - apply json_ok_arr in Hok. assert (Forall scans l) as Hl.
    { rewrite Forall_forall in *. intros x Hx. by apply IH, Hok. }
    cbn [print_json] in *. cbn [app scan_value]. cbn [N.eqb Pos.eqb]. cbn [length] in Hf. rewrite length_app in Hf. cbn [length] in Hf.
    destruct l as [|v l]; [done|]. rewrite <-app_assoc. cbn [app].
    destruct (join_print_head v l) as (c & t & Ec & Hc & Hc').
    assert (skip_ws (join_comma (map print_json (v :: l)) ++ 93%N :: r) = join_comma (map print_json (v :: l)) ++ 93%N :: r) as E1
      by (rewrite Ec; by apply skip_ws_head).
    pose proof (scan_items_join (v :: l) f r Hl ltac:(done) ltac:(lia)) as E2.
    rewrite Ec in E1, E2 |- *. cbn [app] in *. rewrite E1, (proj2 (N.eqb_neq _ _) Hc'), E2. done.
  - apply json_ok_obj in Hok as [Hnd Hok].
    assert (Forall (λ kv, scans kv.2) kvs) as Hl.
    { rewrite Forall_forall in *. intros x Hx. by apply IH, Hok. }
    cbn [print_json] in *. fold print_member in *. cbn [app scan_value]. cbn [N.eqb Pos.eqb]. cbn [length] in Hf. rewrite length_app in Hf. cbn [length] in Hf.
    destruct kvs as [|kv l]; [done|]. rewrite <-app_assoc. cbn [app].
    change (λ kv : pystr * json, dump_str kv.1 ++ 58%N :: print_json kv.2) with print_member in *.
    destruct (join_member_head kv l) as (t & Ec).
    pose proof (scan_members_join (kv :: l) f r Hl ltac:(done) (proj2 (Nat.succ_lt_mono _ _) Hf)) as E2.
    match goal with |- context [join_comma ?x] => change x with (map print_member (kv :: l)) end.
    rewrite Ec in E2 |- *. cbn [app] in *. rewrite skip_ws_head by done. cbn [N.eqb Pos.eqb]. rewrite E2. cbn [mbind option_bind].
    by rewrite dict_of_nodup.
Qed.

Lemma loads_print v : json_ok v → loads_with rnd (print_json v) = Some v.
Proof.
  intros Hv. destruct (print_head v) as (c & t & E & Hc & _ & _ & Hbom). unfold loads_with.
  assert (strip_prefix [65279%N] (print_json v) = None) as ->.
  { rewrite E. apply strip_prefix_head. apply N.eqb_neq. congruence. }
  assert (skip_ws (print_json v) = print_json v) as -> by (rewrite E; by apply skip_ws_head).
  pose proof (scan_print v Hv (S (2 * length (print_json v))) [] ltac:(lia) I) as H. rewrite app_nil_r in H.
  rewrite H. done.
Qed.
End documents.

(** ** The canonical form *)

(** The value stored under a key. *)
Definition jget (k : pystr) (kvs : list (pystr * json)) : option json :=
  snd <$> List.find (λ kv, bool_decide (kv.1 = k)) kvs.

Lemma jget_Some k v kvs : NoDup kvs.*1 → jget k kvs = Some v ↔ (k, v) ∈ kvs.
Proof.
  unfold jget. intros Hnd. induction kvs as [|[k' v'] l IH]; cbn; [split; [done|by intros ?%elem_of_nil]|].
  cbn in Hnd. apply NoDup_cons in Hnd as [Hk Hnd]. rewrite elem_of_cons. case_bool_decide as E; cbn.
  - subst k'. split; [intros [= ->]; by left|]. intros [[= ->]|Hin]; [done|].
    exfalso. apply Hk. apply list_elem_of_fmap. by exists (k, v).
  - rewrite IH by done. split; [by right|]. intros [[= -> _]|?]; done.
Qed.

Lemma jget_None k kvs : jget k kvs = None ↔ k ∉ kvs.*1.
Proof.
  unfold jget. induction kvs as [|[k' v'] l IH]; cbn; [split; [intros _ ?%elem_of_nil|]; done|].
  rewrite not_elem_of_cons. case_bool_decide as E; cbn; [split; [done|naive_solver]|]. rewrite IH. naive_solver.
Qed.

Lemma jget_perm k kvs kvs' : NoDup kvs.*1 → kvs ≡ₚ kvs' → jget k kvs = jget k kvs'.
Proof.
  intros Hnd HP. assert (NoDup kvs'.*1) as Hnd' by (by rewrite <-HP).
  apply option_eq. intros v. rewrite !jget_Some by done. by rewrite HP.
Qed.

Lemma jget_fmap (f : json → json) k kvs : jget k (map (λ kv, (kv.1, f kv.2)) kvs) = f <$> jget k kvs.
Proof.
  unfold jget. induction kvs as [|[k' v'] l IH]; cbn; [done|]. by case_bool_decide.
Qed.

Definition sorted_keys (kvs : list (pystr * json)) : list (pystr * json) :=
  py_sorted (λ a b, str_leb a.1 b.1) (map (λ kv, (kv.1, sort_keys kv.2)) kvs).

Lemma sort_keys_obj kvs : sort_keys (JObj kvs) = JObj (sorted_keys kvs).
Proof. done. Qed.

Lemma map_keys (f : json → json) (kvs : list (pystr * json)) : (map (λ kv, (kv.1, f kv.2)) kvs).*1 = kvs.*1.
Proof. induction kvs as [|kv l IH]; cbn; [done|]. by f_equal. Qed.

Lemma sorted_keys_keys kvs : (sorted_keys kvs).*1 ≡ₚ kvs.*1.
Proof. unfold sorted_keys. by rewrite py_sorted_perm, map_keys. Qed.

Lemma jget_sorted k kvs : NoDup kvs.*1 → jget k (sorted_keys kvs) = sort_keys <$> jget k kvs.
Proof.
  intros Hnd. rewrite <-jget_fmap. symmetry. apply jget_perm; [by rewrite map_keys|].
  unfold sorted_keys. by rewrite py_sorted_perm.
Qed.

Lemma sort_keys_ok v : json_ok v → json_ok (sort_keys v).
Proof.
  induction v as [|b|z|fl|s|l IH|kvs IH] using json_nested_ind; intros Hok; try done.
  - cbn [sort_keys]. apply json_ok_arr. apply json_ok_arr in Hok. apply Forall_fmap.
    rewrite Forall_forall in *. intros x Hx. by apply IH, Hok.
  - rewrite sort_keys_obj. apply json_ok_obj. apply json_ok_obj in Hok as [Hnd Hok]. split; [by rewrite sorted_keys_keys|].
    unfold sorted_keys. rewrite py_sorted_perm. apply Forall_fmap. rewrite Forall_forall in *.
    intros x Hx. destruct (Hok x Hx). cbn. split; [done|]. by apply IH.
Qed.

(** *** Printed text can be encoded *)

Lemma ascii_encodable c : (c < 55296)%N → encodable c.
Proof. unfold encodable, surrogate. intros H. split; [lia|]. by rewrite (proj2 (N.leb_gt 55296 c)). Qed.

Lemma Forall_ascii (s : pystr) : forallb (λ c, (c <? 55296)%N) s = true → Forall encodable s.
Proof.
  rewrite forallb_forall. intros H. apply Forall_forall. intros c Hc. apply ascii_encodable, N.ltb_lt, H.
  by apply list_elem_of_In.
Qed.

Lemma digits_encodable s : Forall is_digit s → Forall encodable s.
Proof. intros H. eapply Forall_impl; [exact H|]. unfold is_digit. intros c Hc. apply ascii_encodable. lia. Qed.

Lemma esc_encodable c : encodable c → Forall encodable (esc c).
Proof.
  unfold esc. intros Hc. repeat (case_match; [try (by apply Forall_ascii)|]); [|by apply Forall_singleton].
  unfold hex4. apply N.ltb_lt in H6. pose proof (N.mod_lt c 16 ltac:(lia)). assert (c / 16 < 2)%N by (apply N.Div0.div_lt_upper_bound; lia).
  repeat (apply Forall_cons; split); try apply Forall_nil_2; apply ascii_encodable; try lia; case_match; lia.
Qed.

Lemma dump_encodable s : Forall encodable s → Forall encodable (dump_str s).
Proof.
  intros Hs. unfold dump_str. apply Forall_cons; split; [by apply ascii_encodable|].
  apply Forall_app; split; [|by apply Forall_ascii].
  induction Hs as [|c s Hc Hs IH]; cbn; [done|]. apply Forall_app; split; [by apply esc_encodable|done].
Qed.

Lemma join_encodable l : Forall (Forall encodable) l → Forall encodable (join_comma l).
Proof.
  induction 1 as [|x l Hx Hl IH]; cbn; [done|]. destruct l; [done|].
  apply Forall_app; split; [done|]. apply Forall_cons; split; [by apply ascii_encodable|done].
Qed.

Lemma float_text_encodable f : Forall encodable (float_text f).
Proof.
  assert (∀ neg, Forall encodable (sign neg)) as Hs by (intros []; by apply Forall_ascii).
  destruct f as [|neg|neg|neg q d e]; cbn [float_text]; try (by apply Forall_ascii);
    (apply Forall_app; split; [done|]); try (by apply Forall_ascii).
  pose proof (digits_encodable _ (str_of_N_digits (mantissa q d))) as Hd. unfold repr_positive, exp_digits, zeros.
  repeat first [done | by apply Forall_ascii | apply Forall_take | apply Forall_drop | apply Forall_replicate | apply Forall_app; split
    | apply Forall_cons; split | apply digits_encodable, str_of_N_digits | by apply ascii_encodable | case_match].
Qed.

Lemma print_encodable v : json_ok v → Forall encodable (print_json v).
Proof.
  induction v as [|[]|z|fl|s|l IH|kvs IH] using json_nested_ind; intros Hok; cbn [print_json]; try (by apply Forall_ascii).
  - destruct z; cbn [str_of_Z]; [..|apply Forall_cons; split; [by apply ascii_encodable|]]; apply digits_encodable, str_of_N_digits.
  - apply float_text_encodable.
  - by apply dump_encodable.
  - apply json_ok_arr in Hok. apply Forall_cons; split; [by apply ascii_encodable|]. apply Forall_app; split; [|by apply Forall_ascii].
    apply join_encodable, Forall_fmap. rewrite Forall_forall in *. intros x Hx. by apply IH, Hok.
  - apply json_ok_obj in Hok as [_ Hok]. apply Forall_cons; split; [by apply ascii_encodable|]. apply Forall_app; split; [|by apply Forall_ascii].
    apply join_encodable, Forall_fmap. rewrite Forall_forall in *. intros x Hx. destruct (Hok x Hx).
    apply Forall_app; split; [by apply dump_encodable|]. apply Forall_cons; split; [by apply ascii_encodable|]. by apply IH.
Qed.

(** [json.loads(b.decode("utf-8"))] *)
Definition loads_bytes (b : bytes) : option json := s ← decode_utf8 b; loads s.

(** Reading canonical bytes gives the value back, its keys sorted. *)
Lemma loads_canonical v : json_ok v → loads_bytes (canonical_json_bytes v) = Some (sort_keys v).
Proof.
  intros Hv%sort_keys_ok. unfold loads_bytes, canonical_json_bytes, dumps.
  rewrite decode_encode_utf8 by (by apply print_encodable). cbn. by apply loads_print.
Qed.

(** Equal canonical bytes come from equal values (up to the order of keys). *)
Lemma canonical_json_inj v w : json_ok v → json_ok w →
  canonical_json_bytes v = canonical_json_bytes w → sort_keys v = sort_keys w.
Proof.
  intros Hv%loads_canonical Hw%loads_canonical H. rewrite H in Hv. congruence.
Qed.

(** Sorting what is sorted changes nothing. *)
Lemma py_sorted_id {A} (leb : A → A → bool) l : StronglySorted (λ a b, leb a b = true) l → py_sorted leb l = l.
Proof.
  induction 1 as [|x l Hl IH Hx]; cbn; [done|]. rewrite IH. destruct Hx as [|y l Hy _]; [done|]. cbn. by rewrite Hy.
Qed.

Lemma sort_keys_idem v : sort_keys (sort_keys v) = sort_keys v.
Proof.
  induction v as [|b|z|fl|s|l IH|kvs IH] using json_nested_ind; try done.
  - cbn [sort_keys]. f_equal. induction IH as [|x l Hx Hl IHl]; cbn; [done|]. by rewrite Hx, IHl.
  - rewrite !sort_keys_obj. f_equal. unfold sorted_keys at 1.
    assert (map (λ kv, (kv.1, sort_keys kv.2)) (sorted_keys kvs) = sorted_keys kvs) as ->.
    { assert (Forall (λ kv : pystr * json, sort_keys kv.2 = kv.2) (sorted_keys kvs)) as H.
      { unfold sorted_keys. rewrite py_sorted_perm. apply Forall_fmap. exact IH. }
      induction H as [|[k v] l Hv Hl IHl]; cbn [map fst snd] in *; [done|]. by rewrite Hv, IHl. }
    apply py_sorted_id, py_sorted_sorted; [intros; apply str_leb_total|intros x y z; apply str_leb_trans].
Qed.
