(* ===== verification/Base64.v ===== *)
(** * Base64

    [common/encoding.py] on top of the base64 module: the encoder and the strict decoder
    ([binascii.a2b_base64] of CPython 3.11 with [strict_mode]). *)

From S2P Require Import Prelude PyStr Common PyFloat Json.

Definition byte_of_N (v : N) : Byte.byte := match Byte.of_N (v mod 256) with Some b => b | None => Byte.x00 end.

(** The alphabet. *)
Definition b64_char (v : N) : N :=
  (if v <? 26 then 65 + v else if v <? 52 then 71 + v else if v <? 62 then v - 4 else if v =? 62 then 43 else 47)%N.
Definition b64_value (c : N) : option N :=
  (if (65 <=? c) && (c <=? 90) then Some (c - 65)
   else if (97 <=? c) && (c <=? 122) then Some (c - 71)
   else if (48 <=? c) && (c <=? 57) then Some (c + 4)
   else if c =? 43 then Some 62 else if c =? 47 then Some 63 else None)%N.
Definition b64_pad : N := 61.

(** [b64encode] *)
Fixpoint b64encode (data : bytes) : pystr :=
  match data with
  | [] => []
  | [a] =>
      let a := Byte.to_N a in [b64_char (a / 4); b64_char (a mod 4 * 16); b64_pad; b64_pad]%N
  | [a; b] =>
      let a := Byte.to_N a in let b := Byte.to_N b in
      [b64_char (a / 4); b64_char (a mod 4 * 16 + b / 16); b64_char (b mod 16 * 4); b64_pad]%N
  | a :: b :: c :: data' =>
      let a := Byte.to_N a in let b := Byte.to_N b in let c := Byte.to_N c in
      [b64_char (a / 4); b64_char (a mod 4 * 16 + b / 16); b64_char (b mod 16 * 4 + c / 64); b64_char (c mod 64)]%N
      ++ b64encode data'
  end.

(** The loop of the decoder: the position in the quad, the bits left over, the padding
    characters that count, and whether padding was seen. *)
Fixpoint a2b (quad_pos : nat) (leftchar : N) (pads : nat) (padding_started : bool) (s : pystr) : option bytes :=
  match s with
  | [] => if quad_pos =? 0 then Some [] else None
  | c :: s' =>
      if (c =? b64_pad)%N then
        if 2 <=? quad_pos then
          if 4 <=? quad_pos + S pads then (match s' with [] => Some [] | _ => None end)
          else a2b quad_pos leftchar (S pads) true s'
        else a2b quad_pos leftchar pads true s'
      else
        match b64_value c with
        | None => None
        | Some v =>
            if padding_started then None
            else match quad_pos with
            | 0 => a2b 1 v 0 false s'
            | 1 => cons (byte_of_N (leftchar * 4 + v / 16)%N) <$> a2b 2 (v mod 16)%N 0 false s'
            | 2 => cons (byte_of_N (leftchar * 16 + v / 4)%N) <$> a2b 3 (v mod 4)%N 0 false s'
            | _ => cons (byte_of_N (leftchar * 64 + v)%N) <$> a2b 0 0%N 0 false s'
            end
        end
  end.

(** [b64decode] of a member of a JSON object. *)
Definition b64decode (value : option json) : res bytes :=
  match value with
  | Some (JStr s) =>
      if bool_decide (head s = Some b64_pad) then Err EncodingError
      else match a2b 0 0 0 false s with Some b => Ok b | None => Err EncodingError end
  | _ => Err EncodingError
  end.

(** ** Decoding what was encoded *)

Lemma b64_char_value v : (v < 64)%N → b64_value (b64_char v) = Some v ∧ (b64_char v =? b64_pad)%N = false.
Proof.
  intros H. assert (forallb (λ n, bool_decide (b64_value (b64_char (N.of_nat n)) = Some (N.of_nat n))
    && negb (b64_char (N.of_nat n) =? b64_pad)%N) (seq 0 64) = true) as Hall by (vm_compute; reflexivity).
  rewrite forallb_forall in Hall. specialize (Hall (N.to_nat v)). rewrite N2Nat.id in Hall.
  assert (In (N.to_nat v) (seq 0 64)) as Hin by (apply in_seq; lia). apply Hall, andb_prop in Hin as [Hv Hp].
  apply bool_decide_eq_true in Hv. apply negb_true_iff in Hp. done.
Qed.

Lemma byte_of_to b : byte_of_N (Byte.to_N b) = b.
Proof. by destruct b. Qed.

Lemma byte_is v b : v = Byte.to_N b → byte_of_N v = b.
Proof. intros ->. apply byte_of_to. Qed.

Lemma a2b_char q l v s : (v < 64)%N → a2b q l 0 false (b64_char v :: s) =
  match q with
  | 0 => a2b 1 v 0 false s
  | 1 => cons (byte_of_N (l * 4 + v / 16)%N) <$> a2b 2 (v mod 16)%N 0 false s
  | 2 => cons (byte_of_N (l * 16 + v / 4)%N) <$> a2b 3 (v mod 4)%N 0 false s
  | _ => cons (byte_of_N (l * 64 + v)%N) <$> a2b 0 0%N 0 false s
  end.
Proof. intros H. destruct (b64_char_value v H) as [Hv Hp]. cbn [a2b]. by rewrite Hp, Hv. Qed.


(** Arithmetic with quotients and remainders. *)
Ltac euclid := zify; Z.to_euclidean_division_equations; lia.

Lemma a2b_encode data : a2b 0 0 0 false (b64encode data) = Some data.
Proof.
  induction data as [data IH] using (induction_ltof1 _ length). unfold ltof in IH.
  destruct data as [|a [|b [|c data]]]; [done|..]; cbn [b64encode app]; cbv zeta;
    pose proof (byte_lt_256 a) as Ha; try pose proof (byte_lt_256 b) as Hb; try pose proof (byte_lt_256 c) as Hc;
    rewrite a2b_char by euclid; cbv iota; rewrite a2b_char by euclid; cbv iota.
  - cbn. by rewrite (byte_is _ a) by euclid.
  - rewrite a2b_char by euclid. cbn. by rewrite (byte_is _ a), (byte_is _ b) by euclid.
  - rewrite !a2b_char by euclid. cbv iota. rewrite IH by (cbn; lia). cbn.
    by rewrite (byte_is _ a), (byte_is _ b), (byte_is _ c) by euclid.
Qed.

Lemma b64_roundtrip data : b64decode (Some (JStr (b64encode data))) = Ok data.
Proof.
  unfold b64decode. rewrite a2b_encode. rewrite bool_decide_eq_false_2; [done|].
  destruct data as [|a data]; [done|].
  assert (head (b64encode (a :: data)) = Some (b64_char (Byte.to_N a / 4))) as -> by (by destruct data as [|? [|? ?]]).
  intros [= E]. pose proof (byte_lt_256 a) as Ha.
  destruct (b64_char_value (Byte.to_N a / 4)) as [_ Hp]; [euclid|]. rewrite E in Hp. by apply N.eqb_neq in Hp.
Qed.

Lemma b64encode_ascii data : forallb (λ c, (c <? 128)%N) (b64encode data) = true.
Proof.
  assert (∀ v, (v < 64)%N → (b64_char v <? 128)%N = true) as Hc.
  { intros v Hv. unfold b64_char. apply N.ltb_lt. repeat (case_match; rewrite ?N.ltb_lt, ?N.ltb_ge in * ); lia. }
  induction data as [data IH] using (induction_ltof1 _ length). unfold ltof in IH.
  destruct data as [|a [|b [|c data]]]; [done|..]; cbn [b64encode app]; cbv zeta;
    pose proof (byte_lt_256 a) as Ha; try pose proof (byte_lt_256 b) as Hb; try pose proof (byte_lt_256 c) as Hd;
    cbn [forallb]; rewrite ?andb_true_iff; repeat split; try (apply Hc; euclid); try done.
  apply IH. cbn. lia.
Qed.
