(* ===== verification/Heapq.v ===== *)
(** * The [heapq] module

    The binary heap of Python's standard library on an array ([heappush],
    [heapreplace] and their two sifting loops), the interface [MinHeap] that its
    clients rely on, and the instance that proves the array implementation
    satisfies it. *)

From S2P Require Import Prelude.

(** A total order given by its strict boolean comparison, as Python's [<]. *)
Class StrictOrderB (A : Type) (ltb : A → A → bool) : Prop := {
  ltb_irrefl x : ltb x x = false;
  ltb_trans x y z : ltb x y = true → ltb y z = true → ltb x z = true;
  ltb_total x y : ltb x y = false → ltb y x = false → x = y;
}.

Section order.
Context {A : Type} (ltb : A → A → bool) `{!StrictOrderB A ltb}.

Definition geb (x y : A) : bool := negb (ltb x y).

Lemma ltb_asym x y : ltb x y = true → ltb y x = false.
Proof.
  intros H. destruct (ltb y x) eqn:E; [|done].
  pose proof (ltb_trans _ _ _ H E). pose proof (ltb_irrefl x). congruence.
Qed.

(** [nlt y x] is [x <= y]. *)
Lemma le_trans_b x y z : ltb y x = false → ltb z y = false → ltb z x = false.
Proof.
  intros H1 H2. destruct (ltb z x) eqn:E; [|done].
  destruct (ltb x y) eqn:E1.
  - pose proof (ltb_trans _ _ _ E E1). congruence.
  - rewrite (ltb_total _ _ H1 E1) in *. congruence.
Qed.

Lemma geb_total x y : geb x y = true ∨ geb y x = true.
Proof.
  unfold geb. destruct (ltb x y) eqn:E; [|by left].
  right. by rewrite (ltb_asym _ _ E).
Qed.
Lemma geb_trans x y z : geb x y = true → geb y z = true → geb x z = true.
Proof. unfold geb. rewrite !negb_true_iff. eauto using le_trans_b. Qed.
Lemma geb_antisym x y : geb x y = true → geb y x = true → x = y.
Proof. unfold geb. rewrite !negb_true_iff. apply ltb_total. Qed.
End order.

(** ** The interface: what a client of the heap may rely on *)
Class MinHeap {A : Type} (ltb : A → A → bool)
    (push : list A → A → list A) (replace : list A → A → list A) := {
  is_heap : list A → Prop;
  heap_empty : is_heap [];
  heap_push_ok h x : is_heap h → is_heap (push h x);
  heap_push_perm h x : is_heap h → push h x ≡ₚ x :: h;
  heap_replace_ok y h x : is_heap (y :: h) → is_heap (replace (y :: h) x);
  heap_replace_perm y h x : is_heap (y :: h) → replace (y :: h) x ≡ₚ x :: h;
  heap_min y h z : is_heap (y :: h) → z ∈ h → ltb z y = false;
}.

(** ** The implementation *)
Section heapq.
Context {A : Type} (ltb : A → A → bool).

(** Loop of [_siftdown]: [newitem] travels from the hole at [pos] towards the
    root (startpos is 0 in every use). *)
Fixpoint siftdown_loop (fuel : nat) (heap : list A) (newitem : A) (pos : nat) : list A :=
  match fuel with
  | O => <[pos := newitem]> heap
  | S f =>
      if (0 <? pos)%nat then
        let parentpos := Nat.div2 (pos - 1) in
        match heap !! parentpos with
        | Some parent =>
            if ltb newitem parent
            then siftdown_loop f (<[pos := parent]> heap) newitem parentpos
            else <[pos := newitem]> heap
        | None => heap
        end
      else <[pos := newitem]> heap
  end.

Definition siftdown (heap : list A) (pos : nat) : list A :=
  match heap !! pos with
  | Some newitem => siftdown_loop pos heap newitem pos
  | None => heap
  end.

(** Loop of [_siftup]: the smaller child moves into the hole until a leaf. *)
Fixpoint siftup_loop (fuel : nat) (heap : list A) (pos : nat) : list A * nat :=
  match fuel with
  | O => (heap, pos)
  | S f =>
      let childpos := 2 * pos + 1 in
      match heap !! childpos with
      | None => (heap, pos)
      | Some child =>
          match heap !! (childpos + 1) with
          | Some rchild =>
              if negb (ltb child rchild)
              then siftup_loop f (<[pos := rchild]> heap) (childpos + 1)
              else siftup_loop f (<[pos := child]> heap) childpos
          | None => siftup_loop f (<[pos := child]> heap) childpos
          end
      end
  end.

Definition siftup (heap : list A) (pos : nat) : list A :=
  match heap !! pos with
  | Some newitem =>
      let '(heap', pos') := siftup_loop (length heap) heap pos in
      siftdown (<[pos' := newitem]> heap') pos'
  | None => heap
  end.

Definition heappush (heap : list A) (item : A) : list A :=
  siftdown (heap ++ [item]) (length heap).

Definition heapreplace (heap : list A) (item : A) : list A :=
  siftup (<[0 := item]> heap) 0.

(** ** Heap order, whole and with a hole *)

Notation parent i := (Nat.div2 (i - 1)).

Definition heap_ordered (h : list A) : Prop :=
  ∀ i x p, 0 < i → h !! i = Some x → h !! parent i = Some p → ltb x p = false.

(** Every edge that does not touch [pos] is ordered, and the children of [pos]
    are ordered with respect to its parent. *)
Definition hole_ordered (h : list A) (pos : nat) : Prop :=
  (∀ i x p, 0 < i → i ≠ pos → parent i ≠ pos →
     h !! i = Some x → h !! parent i = Some p → ltb x p = false) ∧
  (∀ c x p, 0 < c → 0 < pos → parent c = pos →
     h !! c = Some x → h !! parent pos = Some p → ltb x p = false).

Definition children_ge (h : list A) (pos : nat) (v : A) : Prop :=
  ∀ c x, 0 < c → parent c = pos → h !! c = Some x → ltb x v = false.

Lemma parent_lt i : 0 < i → parent i < i.
Proof. intros. pose proof (Nat.div2_decr (i - 1) (i - 1)). lia. Qed.

Lemma parent_child i p : 0 < i → parent i = p ↔ i = 2 * p + 1 ∨ i = 2 * p + 2.
Proof.
  intros Hi. destruct i as [|i]; [lia|]. replace (S i - 1) with i by lia.
  pose proof (Nat.div2_odd i) as H. destruct (Nat.odd i); cbn in H; lia.
Qed.

Context `{!StrictOrderB A ltb}.

Ltac lookups := repeat match goal with
  | H : <[?i:=_]> _ !! ?i = Some _ |- _ => rewrite list_lookup_insert_eq in H by lia; simplify_eq
  | H : <[?i:=_]> _ !! ?j = Some _ |- _ => rewrite list_lookup_insert_ne in H by lia
  end.

Lemma heap_ordered_hole h pos : heap_ordered h → hole_ordered h pos.
Proof.
  intros H. split; [eauto|]. intros c x p Hc Hp <- Hx Hpp.
  pose proof (parent_lt c Hc).
  destruct (lookup_lt_is_Some_2 h (parent c)) as [m Hm].
  { apply lookup_lt_Some in Hx. lia. }
  apply (le_trans_b ltb p m x); [by eapply (H (parent c))|by eapply (H c)].
Qed.

(** Filling the hole with a value that fits both its parent and its children. *)
Lemma fill_ordered h pos v :
  pos < length h → hole_ordered h pos → children_ge h pos v →
  (∀ p, 0 < pos → h !! parent pos = Some p → ltb v p = false) →
  heap_ordered (<[pos := v]> h).
Proof.
  intros Hlen [H1 H2] Hc Hp i x p Hi Hx Hpp.
  pose proof (parent_lt i Hi).
  destruct (decide (i = pos)) as [->|Hne]; lookups; [eauto|].
  destruct (decide (parent i = pos)) as [He|Hne']; [rewrite He in *|]; lookups; eauto.
Qed.

Lemma siftdown_loop_ordered fuel h v pos :
  pos ≤ fuel → pos < length h → hole_ordered h pos → children_ge h pos v →
  heap_ordered (siftdown_loop fuel h v pos).
Proof.
  revert h pos. induction fuel as [|f IH]; intros h pos Hf Hlen Hh Hc; cbn [siftdown_loop].
  - apply fill_ordered; auto. lia.
  - destruct (0 <? pos)%nat eqn:E; bool_hyps; [|apply fill_ordered; auto; lia].
    pose proof (parent_lt pos E) as Hlt.
    destruct (lookup_lt_is_Some_2 h (parent pos)) as [p Hp]; [lia|]. rewrite Hp.
    destruct (ltb v p) eqn:Ev; [|apply fill_ordered; auto; intros; by simplify_eq].
    destruct Hh as [H1 H2].
    apply IH; [lia|by rewrite length_insert; lia| |].
    + split.
      * intros i x q Hi Hne Hne' Hx Hq. pose proof (parent_lt i Hi).
        destruct (decide (i = pos)) as [->|]; [done|].
        destruct (decide (parent i = pos)) as [He|].
        { rewrite He in *. lookups. eauto. }
        lookups. eauto.
      * intros c x q Hc0 Hp0 He Hx Hq. pose proof (parent_lt (parent pos) Hp0).
        pose proof (parent_lt c Hc0).
        destruct (decide (c = pos)) as [->|]; lookups.
        -- eapply (H1 (parent pos)); eauto; lia.
        -- apply (le_trans_b ltb q p x); [by eapply (H1 (parent pos)); eauto; lia|].
           rewrite <-He in Hp. by eapply (H1 c); eauto; lia.
    + intros c x Hc0 He Hx. pose proof (parent_lt c Hc0).
      destruct (decide (c = pos)) as [->|]; lookups.
      * by apply (ltb_asym ltb).
      * eapply (le_trans_b ltb); [apply (ltb_asym ltb); exact Ev|].
        rewrite <-He in Hp. eapply (H1 c); eauto; lia.
Qed.

(** Moving the element at [j] into the hole at [i] moves the hole to [j]. *)
Lemma move_hole_perm (h : list A) i j x v :
  i < length h → i ≠ j → h !! j = Some x → <[j := v]> (<[i := x]> h) ≡ₚ <[i := v]> h.
Proof.
  intros Hi Hne Hj. rewrite <-(list_insert_insert_eq h i x v).
  apply Permutation_insert_swap; [by apply list_lookup_insert_eq|].
  by rewrite list_lookup_insert_ne.
Qed.

Lemma siftdown_loop_perm fuel h v pos :
  pos < length h → siftdown_loop fuel h v pos ≡ₚ <[pos := v]> h.
Proof.
  revert h pos. induction fuel as [|f IH]; intros h pos Hlen; cbn [siftdown_loop]; [done|].
  destruct (0 <? pos)%nat eqn:E; bool_hyps; [|done].
  pose proof (parent_lt pos E) as Hlt.
  destruct (lookup_lt_is_Some_2 h (parent pos)) as [p Hp]; [lia|]. rewrite Hp.
  destruct (ltb v p); [|done].
  rewrite IH by (rewrite length_insert; lia). apply move_hole_perm; [lia..|done].
Qed.

Lemma siftdown_spec h pos v :
  h !! pos = Some v → hole_ordered h pos → children_ge h pos v →
  heap_ordered (siftdown h pos) ∧ siftdown h pos ≡ₚ h.
Proof.
  intros Hv Hh Hc. unfold siftdown. rewrite Hv.
  pose proof (lookup_lt_Some _ _ _ Hv). split.
  - by apply siftdown_loop_ordered.
  - rewrite siftdown_loop_perm by done. by rewrite list_insert_id.
Qed.

(** One step of the second sifting loop keeps every edge outside the hole. *)
Lemma hole_move h pos c x :
  hole_ordered h pos → 0 < c → parent c = pos → h !! c = Some x →
  children_ge h pos x → hole_ordered (<[pos := x]> h) c.
Proof.
  intros [H1 H2] Hc He Hx Hmin.
  pose proof (lookup_lt_Some _ _ _ Hx). pose proof (parent_lt c Hc). split.
  - intros i y p Hi Hne Hne' Hy Hp. pose proof (parent_lt i Hi).
    destruct (decide (i = pos)) as [->|].
    { lookups. eapply H2; [exact Hc|..]; eauto. }
    destruct (decide (parent i = pos)) as [He'|].
    { rewrite He' in *. lookups. eauto. }
    lookups. eauto.
  - intros i y p Hi Hc0 He' Hy Hp. pose proof (parent_lt i Hi).
    rewrite He in Hp. lookups. eapply (H1 i); eauto; lia.
Qed.

Lemma siftup_loop_spec fuel h pos v :
  length h ≤ pos + fuel → pos < length h → hole_ordered h pos →
  let '(h', pos') := siftup_loop fuel h pos in
  pos' < length h' ∧ hole_ordered h' pos' ∧ children_ge h' pos' v ∧
  <[pos' := v]> h' ≡ₚ <[pos := v]> h.
Proof.
  revert h pos. induction fuel as [|f IH]; intros h pos Hf Hlen Hh.
  { lia. }
  cbn [siftup_loop]. replace (2 * pos + 1 + 1) with (2 * pos + 2) by lia.
  assert (∀ c x, 0 < c → parent c = pos → h !! c = Some x → children_ge h pos x →
    let '(h', pos') := siftup_loop f (<[pos := x]> h) c in
    pos' < length h' ∧ hole_ordered h' pos' ∧ children_ge h' pos' v ∧
    <[pos' := v]> h' ≡ₚ <[pos := v]> h) as Hgo.
  { intros c x Hc He Hx Hmin. pose proof (lookup_lt_Some _ _ _ Hx).
    pose proof (parent_lt c Hc).
    pose proof (IH (<[pos := x]> h) c) as Hspec. destruct (siftup_loop _ _ _) as [h' pos'].
    destruct Hspec as (? & ? & ? & HP); [rewrite length_insert; lia..|by apply hole_move|].
    split_and!; auto. rewrite HP. apply move_hole_perm; [lia..|done]. }
  destruct (h !! (2 * pos + 1)) as [l|] eqn:El.
  2:{ split_and!; auto. intros c x Hc He Hx. apply lookup_ge_None in El.
      apply lookup_lt_Some in Hx. apply parent_child in He; lia. }
  destruct (h !! (2 * pos + 2)) as [r|] eqn:Er.
  - destruct (ltb l r) eqn:Elr; cbn [negb]; apply Hgo; auto; try lia;
      try (apply parent_child; lia).
    + intros c x Hc [->| ->]%parent_child Hx; [|..|done]; simplify_eq.
      * apply (ltb_irrefl).
      * by apply (ltb_asym ltb).
    + intros c x Hc [->| ->]%parent_child Hx; [|..|done]; simplify_eq; [done|apply ltb_irrefl].
  - apply Hgo; auto; try lia; try (apply parent_child; lia).
    intros c x Hc [->| ->]%parent_child Hx; [|..|done]; simplify_eq. apply ltb_irrefl.
Qed.

Lemma siftup_spec h v :
  h !! 0 = Some v → hole_ordered h 0 → heap_ordered (siftup h 0) ∧ siftup h 0 ≡ₚ h.
Proof.
  intros Hv Hh. unfold siftup. rewrite Hv. pose proof (lookup_lt_Some _ _ _ Hv).
  pose proof (siftup_loop_spec (length h) h 0 v) as Hs.
  destruct (siftup_loop _ _ _) as [h' pos'].
  destruct Hs as (Hl & Hh' & Hc & HP); [lia..|done|].
  destruct (siftdown_spec (<[pos' := v]> h') pos' v) as [Ho HP'].
  - by apply list_lookup_insert_eq.
  - destruct Hh' as [H1 H2]. split.
    + intros i x p Hi Hne Hne' Hx Hp. lookups. by eapply (H1 i).
    + intros c x p Hc0 Hp0 He Hx Hp. pose proof (parent_lt c Hc0).
      pose proof (parent_lt pos' Hp0). lookups. by eapply (H2 c).
  - intros c x Hc0 He Hx. pose proof (parent_lt c Hc0). lookups. eauto.
  - split; [done|]. rewrite HP', HP. by rewrite list_insert_id.
Qed.

Lemma heap_root_min h i y z :
  heap_ordered h → h !! 0 = Some y → h !! i = Some z → ltb z y = false.
Proof.
  intros Hh H0. revert z. induction (lt_wf i) as [i _ IH]; intros z Hz.
  destruct (decide (i = 0)) as [->|]; [simplify_eq; apply ltb_irrefl|].
  pose proof (parent_lt i ltac:(lia)). pose proof (lookup_lt_Some _ _ _ Hz).
  destruct (lookup_lt_is_Some_2 h (parent i)) as [p Hp]; [lia|].
  eapply (le_trans_b ltb); [by eapply IH|]. eapply (Hh i); eauto. lia.
Qed.

Lemma heappush_spec h x :
  heap_ordered h → heap_ordered (heappush h x) ∧ heappush h x ≡ₚ x :: h.
Proof.
  intros Hh. unfold heappush.
  assert ((h ++ [x]) !! length h = Some x) as Hx by (rewrite lookup_app_r, Nat.sub_diag; done).
  assert (∀ c y, 0 < c → parent c = length h → (h ++ [x]) !! c = Some y → False) as Hleaf.
  { intros c y Hc He Hy. apply lookup_lt_Some in Hy. rewrite length_app in Hy; cbn in Hy.
    pose proof (parent_lt c Hc). lia. }
  destruct (siftdown_spec (h ++ [x]) (length h) x Hx) as [Ho HP].
  - split; [|intros; exfalso; eauto].
    intros i y p Hi Hne Hne' Hy Hp. pose proof (lookup_lt_Some _ _ _ Hy) as Hl.
    rewrite length_app in Hl; cbn in Hl. pose proof (parent_lt i Hi).
    rewrite lookup_app_l in Hy, Hp by lia. eauto.
  - intros c y Hc He Hy. exfalso; eauto.
  - split; [done|]. rewrite HP. by rewrite Permutation_app_comm.
Qed.

Lemma heapreplace_spec y h x :
  heap_ordered (y :: h) →
  heap_ordered (heapreplace (y :: h) x) ∧ heapreplace (y :: h) x ≡ₚ x :: h.
Proof.
  intros Hh. unfold heapreplace. apply (siftup_spec _ x); [done|].
  split; [|lia]. intros i z p Hi Hne Hne' Hz Hp. pose proof (parent_lt i Hi).
  destruct i as [|i]; [lia|]. cbn [insert list_insert] in Hz, Hp.
  destruct (parent (S i)) as [|k] eqn:E; [lia|]. eapply (Hh (S i)); eauto. by rewrite E.
Qed.

#[export] Instance heapq_min_heap : MinHeap ltb heappush heapreplace.
Proof.
  refine {| is_heap := heap_ordered |}.
  - intros i x p Hi Hx. done.
  - intros h x Hh. by apply heappush_spec.
  - intros h x Hh. by apply heappush_spec.
  - intros y h x Hh. by apply heapreplace_spec.
  - intros y h x Hh. by apply heapreplace_spec.
  - intros y h z Hh [i Hi]%list_elem_of_lookup.
    apply (heap_root_min (y :: h) (S i) y z); done.
Qed.
End heapq.
