(* ===== verification/Hrw.v ===== *)
(** * Placement: HRW / rendezvous hashing

    [placement/hrw.py]: scores, the bounded-heap selection of the [k] best nodes,
    its equivalence with "rank everything and keep a prefix", and the rendezvous
    properties the protection layer relies on. BLAKE3 is a parameter. *)

From S2P Require Import Prelude PyStr Common Heapq.

Definition HRW_PLACEMENT_SCHEME : pystr := u "hrw-blake3-v1".

(** [(int, str)] tuples are compared lexicographically. *)
Definition hrw_item : Type := N * pystr.
Definition item_ltb (a b : hrw_item) : bool :=
  (a.1 <? b.1)%N || ((a.1 =? b.1)%N && str_ltb a.2 b.2).

#[export] Instance item_order : StrictOrderB hrw_item item_ltb.
Proof.
  unfold item_ltb, str_ltb. split.
  - intros [s n]; cbn. by rewrite N.ltb_irrefl, N.eqb_refl, str_leb_refl.
  - intros [s1 n1] [s2 n2] [s3 n3]; cbn.
    rewrite !orb_true_iff, !andb_true_iff, !N.ltb_lt, !N.eqb_eq, !negb_true_iff.
    intros [H|[-> H]] [H'|[-> H']]; try (left; lia). right; split; [done|].
    destruct (str_leb n3 n1) eqn:E; [|done].
    destruct (str_leb_total n1 n2) as [E'|E']; [|congruence].
    pose proof (str_leb_trans _ _ _ E E'). congruence.
  - intros [s1 n1] [s2 n2]; cbn.
    rewrite !orb_false_iff, !andb_false_iff, !N.ltb_ge, !N.eqb_neq, !negb_false_iff.
    intros [? [?|?]] [? [?|?]]; try lia. f_equal; [lia|]. by apply str_leb_antisym.
Qed.

Section hrw.
(** The [blake3] package: the digest of a message. *)
Context (blake3 : bytes → bytes).

(** [_hrw_score]: the digest of ["{salt}|{node_id}|{chunk_hash}"] read big endian. *)
Definition hrw_score (chunk_hash node_id salt : pystr) : N :=
  be_combine (blake3 (encode_utf8 (salt ++ u "|" ++ node_id ++ u "|" ++ chunk_hash))).

Definition hrw_item_of (chunk_hash salt node_id : pystr) : hrw_item :=
  (hrw_score chunk_hash node_id salt, node_id).

(** The body of the selection loop. *)
Definition hrw_step (chunk_hash salt : pystr) (k : nat) (heap : list hrw_item)
    (node_id : pystr) : list hrw_item :=
  match node_id with
  | [] => heap
  | _ =>
      let item := hrw_item_of chunk_hash salt node_id in
      if (length heap <? k)%nat then heappush item_ltb heap item
      else match heap with
           | root :: _ => if item_ltb root item then heapreplace item_ltb heap item else heap
           | [] => heap
           end
  end.

Definition hrw_top_k_node_ids (chunk_hash : pystr) (node_ids : list pystr) (k : Z)
    (salt : pystr) : list pystr :=
  if (k <=? 0)%Z then []
  else
    let heap := fold_left (hrw_step chunk_hash salt (Z.to_nat k)) node_ids [] in
    (py_sorted (geb item_ltb) heap).*2.

(** Reference: all non-empty nodes, best score first. *)
Definition hrw_ranking (chunk_hash : pystr) (node_ids : list pystr) (salt : pystr)
  : list hrw_item :=
  py_sorted (geb item_ltb)
    (hrw_item_of chunk_hash salt <$> filter (λ n, n ≠ []) node_ids).

(** ** Keeping the [k] greatest items of a growing list *)

Notation sorted_desc := (StronglySorted (λ a b, geb item_ltb a b = true)).
Notation insert_desc := (sort_insert (geb item_ltb)).

Lemma sort_insert_below z l x :
  sorted_desc (z :: l) → geb item_ltb z x = true →
  insert_desc x (z :: l) = z :: insert_desc x l.
Proof.
  intros Hs Hz. cbn. destruct (geb item_ltb x z) eqn:E; [|done].
  rewrite (geb_antisym item_ltb x z E Hz) in *.
  destruct l as [|w l]; cbn; [done|]. inversion_clear Hs as [|?? _ Hf].
  inversion_clear Hf as [|?? Hw]. by rewrite Hw.
Qed.

Lemma take_insert_small init y rest x :
  sorted_desc (init ++ y :: rest) → item_ltb y x = false →
  take (S (length init)) (insert_desc x (init ++ y :: rest)) = init ++ [y].
Proof.
  intros Hs Hyx. induction init as [|z init IH].
  - cbn [app]. rewrite sort_insert_below; [done|done|]. unfold geb. by rewrite Hyx.
  - cbn [app] in *. rewrite sort_insert_below; [|done|].
    + cbn [length take]. f_equal. apply IH. by inversion Hs.
    + inversion_clear Hs as [|?? _ Hf]. rewrite Forall_app in Hf.
      destruct Hf as [_ Hf]. inversion_clear Hf as [|?? Hzy].
      eapply (geb_trans item_ltb); [exact Hzy|]. unfold geb. by rewrite Hyx.
Qed.

Lemma insert_above init y rest x :
  item_ltb y x = true →
  insert_desc x (init ++ y :: rest) = insert_desc x init ++ y :: rest.
Proof.
  intros Hyx. induction init as [|z init IH]; cbn.
  - unfold geb. by rewrite (ltb_asym item_ltb _ _ Hyx).
  - destruct (geb item_ltb x z); [done|]. cbn. by rewrite IH.
Qed.

(** The heap holds the [k] greatest items seen so far. *)
Definition top_k_inv (k : nat) (seen : list hrw_item) (heap : list hrw_item) : Prop :=
  is_heap (MinHeap:=heapq_min_heap item_ltb) heap ∧
  heap ≡ₚ take k (py_sorted (geb item_ltb) seen).

Lemma sorted_seen seen : sorted_desc (py_sorted (geb item_ltb) seen).
Proof. apply py_sorted_sorted; [apply geb_total|apply geb_trans]; apply _. Qed.

(** Replacing the root by a greater item keeps the invariant. *)
Lemma top_k_full k seen root h x :
  top_k_inv k seen (root :: h) → k ≤ length (root :: h) →
  top_k_inv k (x :: seen)
    (if item_ltb root x then heapreplace item_ltb (root :: h) x else root :: h).
Proof.
  intros [Hheap HP] Hk. unfold top_k_inv. cbn [py_sorted].
  pose proof (sorted_seen seen) as Hs.
  set (s := py_sorted (geb item_ltb) seen) in *.
  assert (∃ init y rest, s = init ++ y :: rest ∧ k = S (length init)) as (init & y & rest & Es & ->).
  { pose proof (Permutation_length HP) as Hl. rewrite length_take in Hl. cbn [length] in *.
    destruct (lookup_lt_is_Some_2 s (k - 1)) as [y Hy]; [lia|].
    destruct (list_elem_of_split_length s (k - 1) y Hy) as (l1 & l2 & E & El).
    exists l1, y, l2. split; [done|lia]. }
  assert (take (S (length init)) s = init ++ [y]) as Et.
  { rewrite Es, (assoc (++) init [y] rest : init ++ y :: rest = (init ++ [y]) ++ rest).
    apply take_app_length'. rewrite length_app; cbn; lia. }
  rewrite Et in HP. rewrite Es in *. clear Es s.
  assert (root = y) as ->.
  { assert (root ∈ init ++ [y]) as Hr by (rewrite <-HP; left).
    assert (y ∈ root :: h) as Hy by (rewrite HP; set_solver).
    apply elem_of_cons in Hy as [|Hy]; [done|].
    apply elem_of_app in Hr as [Hr|Hr]; [|set_solver].
    apply (geb_antisym item_ltb).
    - assert (sorted_desc (init ++ [y])) as Hs' by
        (eapply (StronglySorted_app_1_l _ _ rest); by rewrite <-app_assoc).
      eapply (StronglySorted_app_1_elem_of (λ a b, geb item_ltb a b = true)); set_solver.
    - unfold geb. by rewrite (heap_min root h y Hheap Hy). }
  destruct (item_ltb y x) eqn:E.
  - split; [by apply heap_replace_ok|]. rewrite heap_replace_perm by done.
    rewrite insert_above by done. rewrite take_app_length'.
    + rewrite sort_insert_perm. constructor.
      apply (inj (cons y)). rewrite HP. by rewrite Permutation_app_comm.
    + by rewrite (Permutation_length (sort_insert_perm _ x init)).
  - split; [done|]. by rewrite take_insert_small.
Qed.
Lemma top_k_push k seen heap x :
  top_k_inv k seen heap → length heap < k →
  top_k_inv k (x :: seen) (heappush item_ltb heap x).
Proof.
  intros [Hheap HP] Hk. split; [by apply heap_push_ok|].
  rewrite heap_push_perm by done. pose proof (Permutation_length HP) as Hl.
  rewrite length_take in Hl.
  rewrite take_ge in HP by lia. rewrite take_ge.
  - cbn. by rewrite sort_insert_perm, HP.
  - rewrite length_py_sorted in *. cbn. lia.
Qed.

Lemma hrw_step_inv c salt k seen heap n :
  (0 < k)%nat → top_k_inv k seen heap →
  top_k_inv k (match n with [] => seen | _ => hrw_item_of c salt n :: seen end)
    (hrw_step c salt k heap n).
Proof.
  intros Hk Hinv. unfold hrw_step. destruct n as [|d n]; [done|].
  destruct (length heap <? k)%nat eqn:E; bool_hyps; [by apply top_k_push|].
  destruct heap as [|root h]; [cbn in *; lia|]. by apply top_k_full.
Qed.

Lemma hrw_loop_inv c salt k ids seen heap :
  (0 < k)%nat → top_k_inv k seen heap →
  ∃ seen', seen' ≡ₚ (hrw_item_of c salt <$> filter (λ n, n ≠ []) ids) ++ seen ∧
    top_k_inv k seen' (fold_left (hrw_step c salt k) ids heap).
Proof.
  intros Hk. revert seen heap. induction ids as [|n ids IH]; intros seen heap Hinv; cbn [fold_left].
  - by exists seen.
  - destruct (IH _ _ (hrw_step_inv c salt k seen heap n Hk Hinv)) as (s' & HP & Hi).
    exists s'. split; [|done]. rewrite HP, filter_cons. destruct n as [|d n].
    + rewrite decide_False by tauto. done.
    + rewrite decide_True by done. cbn. by rewrite Permutation_middle.
Qed.

Lemma ranking_perm (l k : list hrw_item) :
  l ≡ₚ k → py_sorted (geb item_ltb) l = py_sorted (geb item_ltb) k.
Proof.
  apply py_sorted_Permutation.
  - apply geb_total, _.
  - apply geb_trans, _.
  - apply geb_antisym, _.
Qed.

Lemma hrw_top_k_ranking c ids k salt :
  hrw_top_k_node_ids c ids k salt = (take (Z.to_nat k) (hrw_ranking c ids salt)).*2.
Proof.
  unfold hrw_top_k_node_ids. destruct (k <=? 0)%Z eqn:E; bool_hyps.
  { by replace (Z.to_nat k) with 0 by lia. }
  f_equal. destruct (hrw_loop_inv c salt (Z.to_nat k) ids [] []) as (s' & HP & _ & Hh); [lia| |].
  { split; [apply heap_empty|]. by destruct (Z.to_nat k). }
  rewrite app_nil_r in HP.
  apply (sorted_unique (geb item_ltb)); [apply geb_antisym, _|apply sorted_seen| |].
  - eapply StronglySorted_app_1_l. rewrite take_drop. apply sorted_seen.
  - rewrite py_sorted_perm, Hh. unfold hrw_ranking. f_equiv.
    by rewrite (ranking_perm s' _ HP).
Qed.

Lemma ranking_filter c ids salt n :
  hrw_ranking c (filter (λ m, m ≠ n) ids) salt
  = filter (λ i, i.2 ≠ n) (hrw_ranking c ids salt).
Proof.
  unfold hrw_ranking.
  apply (sorted_unique (geb item_ltb)); [apply geb_antisym, _|apply sorted_seen| |].
  - apply StronglySorted_filter, sorted_seen.
  - rewrite !py_sorted_perm. clear.
    induction ids as [|m ids IH]; [done|]. rewrite !filter_cons.
    repeat case_decide; rewrite ?filter_cons; cbn; rewrite ?filter_cons; cbn;
      repeat case_decide; simplify_eq/=; try done; try (by f_equiv).
Qed.

Lemma elem_of_ranking c ids salt i :
  i ∈ hrw_ranking c ids salt ↔ ∃ n, n ∈ ids ∧ n ≠ [] ∧ i = hrw_item_of c salt n.
Proof.
  unfold hrw_ranking. rewrite elem_of_py_sorted, list_elem_of_fmap.
  setoid_rewrite list_elem_of_filter. naive_solver.
Qed.

Lemma ranking_snd_NoDup c ids salt : NoDup ids → NoDup (hrw_ranking c ids salt).*2.
Proof.
  intros H. unfold hrw_ranking. rewrite py_sorted_perm.
  assert ((hrw_item_of c salt <$> filter (λ n, n ≠ []) ids).*2 = filter (λ n, n ≠ []) ids) as ->.
  { rewrite <-list_fmap_compose. by apply list_fmap_id. }
  by apply NoDup_filter.
Qed.
End hrw.

Lemma take_sorted_prefix k l :
  StronglySorted (λ a b, geb item_ltb a b = true) (take k (py_sorted (geb item_ltb) l))
  ∧ ∀ a b, a ∈ take k (py_sorted (geb item_ltb) l) →
      b ∈ drop k (py_sorted (geb item_ltb) l) → geb item_ltb a b = true.
Proof.
  pose proof (sorted_seen l) as Hs. rewrite <-(take_drop k (py_sorted _ l)) in Hs.
  apply StronglySorted_app in Hs as (Hc & Ht & _). split; [done|]. eauto.
Qed.

(** ** Properties *)

(** C31: the bounded-heap selection of [hrw_top_k_node_ids] is the ranking of all
    non-empty candidates cut at [k]: it returns min(k, candidates) of them, best
    (score, node_id) first, and no candidate it leaves out beats one it keeps. *)
Theorem hrw_top_k_correct (blake3 : bytes → bytes) c ids k salt :
  let item := hrw_item_of blake3 c salt in
  let selected := hrw_top_k_node_ids blake3 c ids k salt in
  let candidates := filter (λ n, n ≠ []) ids in
  ∃ rest,
    selected ++ rest ≡ₚ candidates
    ∧ length selected = Nat.min (Z.to_nat k) (length candidates)
    ∧ StronglySorted (λ a b, geb item_ltb (item a) (item b) = true) selected
    ∧ ∀ a b, a ∈ selected → b ∈ rest → geb item_ltb (item a) (item b) = true.
Proof.
  cbn zeta. rewrite hrw_top_k_ranking. unfold hrw_ranking.
  set (cs := filter _ ids). set (f := hrw_item_of blake3 c salt).
  assert (∀ l : list hrw_item, l ⊆ f <$> cs → f <$> l.*2 = l) as Hid.
  { intros l Hl. rewrite <-list_fmap_compose. rewrite <-(list_fmap_id l) at 2.
    apply list_fmap_ext. intros i x Hx. apply list_elem_of_lookup_2, Hl in Hx.
    by apply list_elem_of_fmap in Hx as (n & -> & _). }
  destruct (take_sorted_prefix (Z.to_nat k) (f <$> cs)) as [Hsort Hbest].
  set (s := py_sorted _ (f <$> cs)) in *.
  assert (s ≡ₚ f <$> cs) as HP by apply py_sorted_perm.
  exists (drop (Z.to_nat k) s).*2. split_and!.
  - rewrite <-fmap_app, take_drop, HP, <-list_fmap_compose. by rewrite list_fmap_id.
  - pose proof (Permutation_length HP) as Hl. rewrite length_fmap in Hl.
    rewrite length_fmap, length_take. unfold hrw_item in *. lia.
  - apply (StronglySorted_fmap_inv (λ a b, geb item_ltb a b = true) f).
    by rewrite Hid; [|rewrite <-HP; apply subseteq_take].
  - intros a b (i & -> & Hi)%list_elem_of_fmap (j & -> & Hj)%list_elem_of_fmap.
    assert (∀ x, x ∈ s → f x.2 = x) as Hx.
    { intros x. rewrite HP. by intros (n & -> & _)%list_elem_of_fmap. }
    rewrite !Hx; [by apply Hbest|by eapply subseteq_drop|by eapply subseteq_take].
Qed.

(** rendezvous hashing moves as little as possible: when node [n] disappears,
    every other node that was selected stays selected, and if [n] was not
    selected the selection does not change at all. *)
Theorem hrw_minimal_disruption (blake3 : bytes → bytes) c ids k salt n :
  let remaining := filter (λ m, m ≠ n) ids in
  (∀ m, m ∈ hrw_top_k_node_ids blake3 c ids k salt → m ≠ n →
     m ∈ hrw_top_k_node_ids blake3 c remaining k salt)
  ∧ (n ∉ hrw_top_k_node_ids blake3 c ids k salt →
     hrw_top_k_node_ids blake3 c remaining k salt = hrw_top_k_node_ids blake3 c ids k salt).
Proof.
  cbn zeta. rewrite !hrw_top_k_ranking, ranking_filter. split.
  - intros m (i & -> & Hi)%list_elem_of_fmap Hne. apply list_elem_of_fmap_2.
    by apply elem_of_take_filter.
  - intros Hn. f_equal. apply take_filter_all. apply Forall_forall. intros i Hi <-.
    by apply Hn, list_elem_of_fmap_2.
Qed.

Lemma hrw_minimal_disruption_witness :
  let f (b : bytes) := b in
  let ids := [u "a"; u "b"; u "c"] in
  hrw_top_k_node_ids f (u "h") (filter (λ m, m ≠ u "a") ids) 2 []
  = hrw_top_k_node_ids f (u "h") ids 2 [].
Proof. apply hrw_minimal_disruption. by_compute. Defined.
