(* ===== verification/Cluster.v ===== *)
(** * The cluster view and the placement epoch

    [cluster/view.py] (ClusterView: candidates, HRW targets, epochs) and
    [placement/epoch.py] (canonical identifier of the placement context). *)

From S2P Require Import Prelude PyStr Common Json Heapq Hrw.

(** ** placement/epoch.py *)

Definition PLACEMENT_EPOCH_FORMAT : pystr := u "stopan.placement-epoch.v1".

(** [sorted({str(n) for n in ids if n})]: iteration order of the set is erased by
    the sort. *)
Definition normalized_node_ids (eligible_node_ids : list pystr) : list pystr :=
  py_sorted str_leb (ordered_unique (filter (λ n, n ≠ []) eligible_node_ids)).

Definition epoch_material (cluster_token : pystr) (desired_rf : Z)
    (eligible_node_ids : list pystr) : json :=
  JObj [(u "format", JStr PLACEMENT_EPOCH_FORMAT);
        (u "placement_scheme", JStr HRW_PLACEMENT_SCHEME);
        (u "cluster_token", JStr cluster_token);
        (u "desired_rf", JInt desired_rf);
        (u "eligible_node_ids", JArr (JStr <$> normalized_node_ids eligible_node_ids))].

Definition compute_placement_epoch (blake3 : bytes → bytes) (cluster_token : pystr)
    (desired_rf : Z) (eligible_node_ids : list pystr) : pystr :=
  blake3_hex_digest blake3
    (canonical_json_bytes (epoch_material cluster_token desired_rf eligible_node_ids)).

(** ** cluster/view.py *)

Record ClusterMember := { cm_node_id : pystr; cm_address : pystr }.

#[export] Instance cluster_member_eq_dec : EqDecision ClusterMember.
Proof. solve_decision. Defined.

Record ClusterView := { self_node_id : option pystr; members : list ClusterMember }.

Definition node_ids (v : ClusterView) : list pystr := cm_node_id <$> members v.

(** [{m.node_id: m.address for m in members}]: the last entry of a key wins. *)
Definition addresses_of (ms : list ClusterMember) : gmap pystr pystr :=
  fold_left (λ d m, <[cm_node_id m := cm_address m]> d) ms ∅.
Definition node_addresses (v : ClusterView) : gmap pystr pystr := addresses_of (members v).

Definition candidate_members_excluding (v : ClusterView) (excluded_node_ids : list pystr)
  : list ClusterMember :=
  let excluded := filter (λ n, n ≠ []) excluded_node_ids in
  filter (λ m, cm_node_id m ≠ [] ∧ cm_node_id m ∉ excluded) (members v).

Definition candidate_node_ids_excluding (v : ClusterView) (excluded_node_ids : list pystr)
  : list pystr := cm_node_id <$> candidate_members_excluding v excluded_node_ids.

Section view.
Context (blake3 : bytes → bytes).

Definition hrw_targets_excluding (v : ClusterView) (chunk_hash : pystr) (rf : Z)
    (salt : pystr) (excluded_node_ids : list pystr) : list ClusterMember :=
  let candidates := candidate_members_excluding v excluded_node_ids in
  match candidates with
  | [] => []
  | _ =>
      let k := Z.min (Z.max rf 0) (Z.of_nat (length candidates)) in
      if (k <=? 0)%Z then []
      else
        let ranked_node_ids :=
          hrw_top_k_node_ids blake3 chunk_hash (cm_node_id <$> candidates) k salt in
        omap (λ node_id, (λ a, {| cm_node_id := node_id; cm_address := a |})
                           <$> node_addresses v !! node_id) ranked_node_ids
  end.

Definition hrw_targets (v : ClusterView) (chunk_hash : pystr) (rf : Z) (salt : pystr)
  : list ClusterMember := hrw_targets_excluding v chunk_hash rf salt [].

Definition placement_epoch (v : ClusterView) (desired_rf : Z) (cluster_token : pystr) : pystr :=
  compute_placement_epoch blake3 cluster_token desired_rf (node_ids v).

Definition placement_epoch_excluding (v : ClusterView) (desired_rf : Z)
    (cluster_token : pystr) (excluded_node_ids : list pystr) : pystr :=
  compute_placement_epoch blake3 cluster_token desired_rf
    (candidate_node_ids_excluding v excluded_node_ids).
End view.

(** ** Address lookups *)

Lemma addresses_fold (ms : list ClusterMember) (d : gmap pystr pystr) (n : pystr) :
  fold_left (λ d m, <[cm_node_id m := cm_address m]> d) ms d !! n
  = match addresses_of ms !! n with
    | Some a => Some a
    | None => d !! n
    end.
Proof.
  unfold addresses_of.
  revert d. induction ms as [|m ms IH] using rev_ind; intros d; cbn; [by rewrite lookup_empty|].
  rewrite !fold_left_app; cbn. rewrite !lookup_insert. case_decide; [done|]. apply IH.
Qed.

Lemma addresses_cons m ms n :
  addresses_of (m :: ms) !! n
  = match addresses_of ms !! n with
    | Some a => Some a
    | None => if decide (cm_node_id m = n) then Some (cm_address m) else None
    end.
Proof.
  unfold addresses_of. cbn. rewrite addresses_fold. destruct (_ !! n); [done|].
  rewrite lookup_insert. by case_decide; rewrite ?lookup_empty.
Qed.

Lemma addresses_is_Some ms n : is_Some (addresses_of ms !! n) ↔ n ∈ cm_node_id <$> ms.
Proof.
  induction ms as [|m ms IH].
  - unfold addresses_of; cbn. rewrite lookup_empty. split; [by intros []|set_solver].
  - rewrite addresses_cons, fmap_cons, elem_of_cons.
    destruct (addresses_of ms !! n) eqn:E; [naive_solver|].
    rewrite <-IH. case_decide; split; try naive_solver; intros [?|[]]; congruence.
Qed.

Lemma addresses_sound ms n a :
  addresses_of ms !! n = Some a → {| cm_node_id := n; cm_address := a |} ∈ ms.
Proof.
  induction ms as [|m ms IH]; [by unfold addresses_of; cbn; rewrite lookup_empty|].
  rewrite addresses_cons. destruct (addresses_of ms !! n); intros; simplify_eq.
  - right. auto.
  - case_decide; simplify_eq. destruct m; left.
Qed.

(** Filtering by node id does not change the address of the ids that remain. *)
Lemma addresses_filter (P : pystr → Prop) `{!∀ n, Decision (P n)} ms n :
  P n → addresses_of (filter (λ m, P (cm_node_id m)) ms) !! n = addresses_of ms !! n.
Proof.
  intros Hn. induction ms as [|m ms IH]; [done|].
  rewrite filter_cons, addresses_cons. destruct (decide (P (cm_node_id m))) as [Hm|Hm].
  - by rewrite addresses_cons, IH.
  - rewrite IH. destruct (addresses_of ms !! n); [done|].
    rewrite decide_False; [done|]. by intros <-.
Qed.

Lemma elem_of_candidates v ex m :
  m ∈ candidate_members_excluding v ex
  ↔ m ∈ members v ∧ cm_node_id m ≠ [] ∧ cm_node_id m ∉ ex.
Proof.
  unfold candidate_members_excluding. rewrite !list_elem_of_filter. tauto.
Qed.

Lemma omap_addresses_ids (d : gmap pystr pystr) (l : list pystr) :
  Forall (λ n, is_Some (d !! n)) l →
  cm_node_id <$> omap (λ n, (λ a, {| cm_node_id := n; cm_address := a |}) <$> d !! n) l = l.
Proof. induction 1 as [|n l [a Ha] _ IH]; cbn; [done|]. rewrite Ha. cbn. by rewrite IH. Qed.

(** Every ranked candidate has an address, so none is dropped. *)
Lemma targets_node_ids b v c rf salt ex :
  cm_node_id <$> hrw_targets_excluding b v c rf salt ex
  = hrw_top_k_node_ids b c (candidate_node_ids_excluding v ex)
      (Z.min (Z.max rf 0) (Z.of_nat (length (candidate_members_excluding v ex)))) salt.
Proof.
  unfold hrw_targets_excluding, candidate_node_ids_excluding.
  destruct (candidate_members_excluding v ex) as [|m0 ms] eqn:E.
  { rewrite hrw_top_k_ranking. cbn. by replace (Z.to_nat _) with 0%nat by lia. }
  rewrite <-E. clear E m0 ms.
  set (k := Z.min _ _). destruct (k <=? 0)%Z eqn:Ek; bool_hyps.
  { rewrite hrw_top_k_ranking. by replace (Z.to_nat k) with 0%nat by lia. }
  assert (Forall (λ n, is_Some (node_addresses v !! n))
    (hrw_top_k_node_ids b c (cm_node_id <$> candidate_members_excluding v ex) k salt)) as HF.
  { rewrite hrw_top_k_ranking. apply Forall_forall. intros n (i & -> & Hi)%list_elem_of_fmap.
    apply elem_of_take in Hi as (j & Hj%list_elem_of_lookup_2 & _).
    apply elem_of_ranking in Hj as (n' & Hn' & _ & ->). cbn.
    apply addresses_is_Some. apply list_elem_of_fmap in Hn' as (m & -> & Hm).
    apply elem_of_candidates in Hm as [? _]. by apply list_elem_of_fmap_2. }
  by apply omap_addresses_ids.
Qed.

Lemma targets_sound b v c rf salt ex m :
  m ∈ hrw_targets_excluding b v c rf salt ex →
  m ∈ members v ∧ cm_node_id m ≠ [] ∧ cm_node_id m ∉ ex.
Proof.
  intros Hm. assert (m ∈ members v) as Hmem.
  { unfold hrw_targets_excluding in Hm.
    destruct (candidate_members_excluding v ex); [by inversion Hm|].
    destruct (_ <=? _)%Z; [by inversion Hm|].
    apply list_elem_of_omap in Hm as (n & _ & (a & Ha & ->)%fmap_Some).
    by apply addresses_sound. }
  split; [done|]. apply (list_elem_of_fmap_2 cm_node_id) in Hm.
  rewrite targets_node_ids, hrw_top_k_ranking in Hm.
  apply list_elem_of_fmap in Hm as (i & Ei & Hi). rewrite Ei.
  apply elem_of_take in Hi as (j & Hj%list_elem_of_lookup_2 & _).
  apply elem_of_ranking in Hj as (n & Hn & _ & ->). cbn.
  unfold candidate_node_ids_excluding in Hn.
  apply list_elem_of_fmap in Hn as (m' & -> & Hm'). by apply elem_of_candidates in Hm' as [_ ?].
Qed.

(** ** Facts on epochs *)

#[export] Instance JStr_inj : Inj (=) (=) JStr.
Proof. by intros ?? [= ->]. Qed.

Lemma normalized_elem ids n : n ∈ normalized_node_ids ids ↔ n ∈ ids ∧ n ≠ [].
Proof.
  unfold normalized_node_ids.
  rewrite elem_of_py_sorted, elem_of_ordered_unique, list_elem_of_filter. tauto.
Qed.

Lemma normalized_perm ids ids' :
  (∀ n, n ≠ [] → n ∈ ids ↔ n ∈ ids') → normalized_node_ids ids = normalized_node_ids ids'.
Proof.
  intros H. apply py_sorted_Permutation.
  - apply str_leb_total.
  - apply str_leb_trans.
  - apply str_leb_antisym.
  - apply NoDup_Permutation; [apply NoDup_ordered_unique..|]. intros n.
    rewrite !elem_of_ordered_unique, !list_elem_of_filter. specialize (H n). tauto.
Qed.

Lemma sort_keys_material token rf ids :
  sort_keys (epoch_material token rf ids)
  = JObj [(u "cluster_token", JStr token); (u "desired_rf", JInt rf);
          (u "eligible_node_ids", JArr (JStr <$> normalized_node_ids ids));
          (u "format", JStr PLACEMENT_EPOCH_FORMAT);
          (u "placement_scheme", JStr HRW_PLACEMENT_SCHEME)].
Proof.
  unfold epoch_material. set (l := normalized_node_ids ids).
  assert (map sort_keys (JStr <$> l) = JStr <$> l) as E by (induction l; cbn; congruence).
  rewrite <-E at 2. reflexivity.
Qed.

Lemma material_ok token rf ids :
  Forall encodable token → Forall (Forall encodable) ids → json_ok (epoch_material token rf ids).
Proof.
  intros Ht Hids. apply json_ok_obj. split; [by_compute|].
  assert (Forall json_ok (JStr <$> normalized_node_ids ids)) as H.
  { apply Forall_fmap. rewrite Forall_forall in *. intros n [? _]%normalized_elem. by apply Hids. }
  repeat (apply Forall_cons; split; [split; [by_compute|]|]); try apply Forall_nil_2; try done; try by_compute.
  by apply json_ok_arr.
Qed.

(** ** Properties *)

(** the placement epoch depends only on the token, the copies required and the
    set of non-empty node ids: order and repetitions of the ids are irrelevant. *)
Theorem epoch_canonical blake3 token rf ids ids' :
  (∀ n, n ≠ [] → n ∈ ids ↔ n ∈ ids') →
  compute_placement_epoch blake3 token rf ids = compute_placement_epoch blake3 token rf ids'.
Proof.
  intros H. unfold compute_placement_epoch, epoch_material. by rewrite (normalized_perm ids ids').
Qed.

Lemma epoch_canonical_witness :
  let f (b : bytes) := b in
  compute_placement_epoch f (u "t") 2 [u "b"; u "a"; u "b"; []]
  = compute_placement_epoch f (u "t") 2 [u "a"; u "b"].
Proof. apply epoch_canonical. intros n. set_solver. Defined.

(** when BLAKE3 does not collide, the epoch changes whenever the cluster token,
    the number of remote copies or the set of eligible nodes changes. *)
Theorem epoch_distinguishes blake3 token token' rf rf' ids ids' :
  (∀ a b, blake3 a = blake3 b → a = b) →
  Forall encodable token → Forall encodable token' →
  Forall (Forall encodable) ids → Forall (Forall encodable) ids' →
  compute_placement_epoch blake3 token rf ids = compute_placement_epoch blake3 token' rf' ids' →
  token = token' ∧ rf = rf' ∧ ∀ n, n ≠ [] → n ∈ ids ↔ n ∈ ids'.
Proof.
  intros Hinj Ht Ht' Hi Hi' H.
  apply hexdigest_inj, Hinj, canonical_json_inj in H; [|by apply material_ok..].
  rewrite !sort_keys_material in H. injection H as -> -> H. split_and!; [done..|].
  apply (inj (fmap JStr)) in H. intros n Hn.
  pose proof (normalized_elem ids n). pose proof (normalized_elem ids' n).
  rewrite H in *. tauto.
Qed.

Lemma epoch_distinguishes_witness :
  let f (b : bytes) := b in
  compute_placement_epoch f (u "t") 2 [u "a"] ≠ compute_placement_epoch f (u "t") 3 [u "a"].
Proof.
  cbn zeta. intros H. apply epoch_distinguishes in H; [|done|by_compute..].
  destruct H as (_ & H & _). discriminate H.
Defined.

(** HRW targets are distinct eligible members outside the excluded set, and as
    many as requested unless there are fewer candidates. *)
Theorem targets_excluding_correct blake3 v c rf salt ex :
  NoDup (node_ids v) →
  let ts := hrw_targets_excluding blake3 v c rf salt ex in
  NoDup (cm_node_id <$> ts)
  ∧ length ts = Z.to_nat (Z.min (Z.max rf 0) (Z.of_nat (length (candidate_members_excluding v ex))))
  ∧ ∀ m, m ∈ ts → m ∈ members v ∧ cm_node_id m ≠ [] ∧ cm_node_id m ∉ ex.
Proof.
  intros Hnd. cbn zeta. split_and!; [| |by apply targets_sound].
  - rewrite targets_node_ids, hrw_top_k_ranking.
    eapply sublist_NoDup; [apply ranking_snd_NoDup|apply sublist_fmap, sublist_take].
    unfold candidate_node_ids_excluding, candidate_members_excluding.
    eapply sublist_NoDup; [exact Hnd|]. apply sublist_fmap, sublist_filter.
  - rewrite <-(length_fmap cm_node_id), targets_node_ids, hrw_top_k_ranking.
    rewrite length_fmap, length_take. unfold hrw_ranking.
    rewrite length_py_sorted, length_fmap, filter_all; [|].
    + unfold candidate_node_ids_excluding. rewrite length_fmap. lia.
    + apply Forall_forall. intros n (m & -> & [_ [? _]]%elem_of_candidates)%list_elem_of_fmap.
      done.
Qed.

Lemma targets_excluding_correct_witness :
  let v := {| self_node_id := None;
              members := [{| cm_node_id := u "a"; cm_address := u "x:1" |};
                          {| cm_node_id := u "b"; cm_address := u "y:1" |}] |} in
  length (hrw_targets_excluding (λ b, b) v (u "h") 2 [] [u "a"]) = 1.
Proof.
  cbn zeta. apply targets_excluding_correct. by_compute.
Defined.
