(* ===== verification/Protection.v ===== *)
(** * Remote protection policy

    [protection/policy.py]: protection states, the record stored per chunk and the
    rule that decides whether it is sufficient evidence; the state decisions of
    replication ([replication/states.py]) and erasure coding ([ec/states.py]). *)

From S2P Require Import Prelude PyStr.

Inductive ProtectionState := PENDING | PLACED | DEGRADED | VERIFIED | FAILED.

#[export] Instance protection_state_eq_dec : EqDecision ProtectionState.
Proof. solve_decision. Defined.

Definition counts_as_protected (s : ProtectionState) : bool :=
  match s with PLACED | VERIFIED => true | _ => false end.

Record ProtectionRecord := {
  pr_chunk_hash : pystr;
  pr_desired_rf : Z;
  pr_protection_state : ProtectionState;
  pr_protected_remote_copies : Z;
  pr_placement_epoch : option pystr;
  pr_last_push_at : option Q;
  pr_last_verify_at : option Q;
  pr_last_error : option pystr
}.

Definition is_protected (r : ProtectionRecord) : bool :=
  counts_as_protected (pr_protection_state r).

Definition normalize_remote_rf (value : Z) : res Z :=
  if (value <? 0)%Z then Err StopanConfigValueError else Ok value.

Definition is_record_sufficient (record : option ProtectionRecord) (required_rf : Z)
    (current_epoch : option pystr) : res bool :=
  required_remote_copies ← normalize_remote_rf required_rf;
  if (required_remote_copies =? 0)%Z then Ok true
  else match record with
  | None => Ok false
  | Some r =>
      if negb (is_protected r) then Ok false
      else if (pr_desired_rf r <? required_remote_copies)%Z then Ok false
      else if match current_epoch with
              | None => false
              | Some e => bool_decide (pr_placement_epoch r ≠ Some e)
              end then Ok false
      else if (pr_protected_remote_copies r <? required_remote_copies)%Z then Ok false
      else Ok true
  end.

Definition protection_state_from_thresholds (confirmed success_threshold degraded_threshold : Z)
    (success_state degraded_state failed_state : ProtectionState) : ProtectionState :=
  if (success_threshold <=? confirmed)%Z then success_state
  else if (degraded_threshold <=? confirmed)%Z then degraded_state
  else failed_state.

(** ** replication/states.py and ec/states.py *)

Definition replication_push_state (protected_remote_copies required_remote_copies : Z)
  : ProtectionState :=
  protection_state_from_thresholds protected_remote_copies required_remote_copies 1
    PLACED DEGRADED FAILED.

Definition replication_verify_state (verified_remote_copies required_remote_copies : Z)
  : ProtectionState :=
  protection_state_from_thresholds verified_remote_copies required_remote_copies 0
    VERIFIED DEGRADED DEGRADED.

Definition data_pack_state (protected_shards data_shards total_shards : Z) : ProtectionState :=
  protection_state_from_thresholds protected_shards total_shards data_shards
    PLACED DEGRADED FAILED.

(** The conditions a record has to meet, as a proposition. *)
Definition sufficient (r : ProtectionRecord) (rf : Z) (epoch : option pystr) : Prop :=
  (pr_protection_state r = PLACED ∨ pr_protection_state r = VERIFIED)
  ∧ (rf <= pr_desired_rf r)%Z ∧ (rf <= pr_protected_remote_copies r)%Z
  ∧ (epoch = None ∨ pr_placement_epoch r = epoch).

Lemma sufficient_spec record rf epoch :
  is_record_sufficient record rf epoch = Ok true
  ↔ (0 <= rf)%Z ∧ (rf = 0%Z ∨ ∃ r, record = Some r ∧ sufficient r rf epoch).
Proof.
  unfold is_record_sufficient, normalize_remote_rf, sufficient.
  destruct (rf <? 0)%Z eqn:E; cbn; bool_hyps; [split; [done|intros; lia]|].
  destruct (rf =? 0)%Z eqn:E0; bool_hyps; [split; [auto|done]|].
  destruct record as [r|]; [|split; [done|naive_solver]].
  unfold is_protected.
  destruct (pr_protection_state r) eqn:Es; cbn;
    try (split; [done|intros (_ & [?|(? & [= <-] & [] & _)]); congruence]).
  all: destruct (_ <? _)%Z eqn:E1; bool_hyps;
    [split; [done|intros (_ & [?|(? & [= <-] & _ & ? & _)]); lia]|].
  all: destruct epoch as [e|]; [case_bool_decide as He|];
    [split; [done|intros (_ & [?|(? & [= <-] & _ & _ & _ & [?|?])]); congruence]| |].
  all: destruct (pr_protected_remote_copies r <? rf)%Z eqn:E2; bool_hyps;
    [split; [done|intros (_ & [?|(? & [= <-] & _ & _ & ? & _)]); lia]|].
  all: split; [intros _; split; [done|]; right; exists r; split_and!; auto|done].
  all: right; by apply dec_stable.
Qed.

(** ** Properties *)

(** Evidence accepted for a number of copies is accepted for every smaller
    number of copies in the same placement context. *)
Theorem sufficient_monotone record rf rf' epoch :
  is_record_sufficient record rf epoch = Ok true → (0 <= rf' <= rf)%Z →
  is_record_sufficient record rf' epoch = Ok true.
Proof.
  rewrite !sufficient_spec. intros [? [->|(r & -> & ? & ? & ? & ?)]] ?; split; [lia|left; lia|lia|].
  right. exists r. unfold sufficient. split_and!; auto; lia.
Qed.

Definition example_record : ProtectionRecord := {|
  pr_chunk_hash := u "aa"; pr_desired_rf := 3; pr_protection_state := PLACED;
  pr_protected_remote_copies := 3; pr_placement_epoch := Some (u "e1");
  pr_last_push_at := None; pr_last_verify_at := None; pr_last_error := None |}.

Lemma sufficient_monotone_witness :
  is_record_sufficient (Some example_record) 2 (Some (u "e1")) = Ok true.
Proof. apply (sufficient_monotone _ 3); [by vm_compute|lia]. Defined.

(** The row a push writes for a chunk ([ChunkProtectionPushUpdate] applied). *)
Definition pushed_record (chunk_hash : pystr) (rf copies : Z) (epoch : option pystr)
    (error : option pystr) (at_time : Q) : ProtectionRecord := {|
  pr_chunk_hash := chunk_hash; pr_desired_rf := rf;
  pr_protection_state := replication_push_state copies rf;
  pr_protected_remote_copies := copies; pr_placement_epoch := epoch;
  pr_last_push_at := Some at_time; pr_last_verify_at := None; pr_last_error := error |}.

(** The state a push stores and the test a later backup or push applies agree:
    the row counts as protection in the same epoch exactly when as many copies
    were confirmed as were required. *)
Theorem push_state_sufficient chunk rf copies epoch err t :
  (0 < rf)%Z →
  is_record_sufficient (Some (pushed_record chunk rf copies epoch err t)) rf epoch = Ok true
  ↔ (rf <= copies)%Z.
Proof.
  intros Hrf. rewrite sufficient_spec. unfold sufficient, pushed_record; cbn.
  unfold replication_push_state, protection_state_from_thresholds. split.
  - intros (_ & [?|(r & [= <-] & H & _ & ? & _)]); [lia|]. cbn in *. done.
  - intros Hc. split; [lia|]. right. eexists; split; [reflexivity|]. cbn.
    rewrite (proj2 (Z.leb_le _ _) Hc). split_and!; auto; lia.
Qed.

Lemma push_state_sufficient_witness :
  is_record_sufficient (Some (pushed_record (u "c") 2 2 (Some (u "e")) None 0)) 2 (Some (u "e"))
  = Ok true.
Proof. apply push_state_sufficient; [lia|]. lia. Defined.

(** The state of an erasure-coded pack tells what can be done with it: FAILED
    means fewer shards than needed to rebuild the payload, DEGRADED means it can be
    rebuilt but some shard is missing, PLACED means every shard is in place. *)
Theorem data_pack_state_meaning p k n :
  (0 < k <= n)%Z →
  (data_pack_state p k n = FAILED ↔ (p < k)%Z)
  ∧ (data_pack_state p k n = DEGRADED ↔ (k <= p < n)%Z)
  ∧ (data_pack_state p k n = PLACED ↔ (n <= p)%Z).
Proof.
  intros. unfold data_pack_state, protection_state_from_thresholds.
  destruct (Z.leb_spec n p), (Z.leb_spec k p); split_and!; split; intros; try done; lia.
Qed.

Lemma data_pack_state_meaning_witness : data_pack_state 4 4 6 = DEGRADED.
Proof. apply (data_pack_state_meaning 4 4 6); lia. Defined.
