(* ===== verification/Catalog.v ===== *)
(** * The metadata catalogue: snapshots, items, recipes and chunks

    The tables of [metadata/database.py] that describe backups, with their primary
    keys, uniqueness and foreign-key constraints, and the operations the backup
    pipeline performs on them. An operation that raises leaves the tables as they
    were: every writer runs inside a transaction that rolls back. *)

From S2P Require Import Prelude PyStr Common Protection.

(** ** Tables *)

Inductive snapshot_status := CREATING | COMPLETE | SNAP_FAILED.
Inductive item_kind := ItemFile | ItemDir.

#[export] Instance snapshot_status_eq_dec : EqDecision snapshot_status.
Proof. solve_decision. Defined.
#[export] Instance item_kind_eq_dec : EqDecision item_kind.
Proof. solve_decision. Defined.

Record snapshot_row := {
  sn_uuid : pystr; sn_root_path : pystr; sn_origin_node_id : pystr;
  sn_status : snapshot_status; sn_error : option pystr;
  sn_total_size : Z; sn_total_files : Z }.

Record stat_info := {
  st_size : Z; st_mode : Z; st_mtime : Q; st_mtime_ns : Z; st_ctime_ns : Z;
  st_uid : option Z; st_gid : option Z }.

Record item_row := {
  it_snapshot_id : Z; it_path : pystr; it_type : item_kind;
  it_stat : stat_info; it_recipe_id : option Z }.

Record recipe_row := { rc_hash : pystr; rc_chunk_count : Z; rc_total_size : Z }.

(** [(chunk_order, chunk_hash, chunk_size)] *)
Definition recipe_chunk : Type := Z * pystr * Z.

Record Catalog := {
  snapshots : gmap Z snapshot_row;
  snapshot_items : gmap Z item_row;
  recipes : gmap Z recipe_row;
  chunks : gmap pystr Z;
  recipe_chunks : gmap Z (list recipe_chunk);  (** rows of a recipe by chunk_order *)
  chunk_protection : gmap pystr ProtectionRecord;
  next_snapshot_id : Z; next_item_id : Z; next_recipe_id : Z }.

Definition empty_catalog : Catalog := {|
  snapshots := ∅; snapshot_items := ∅; recipes := ∅; chunks := ∅;
  recipe_chunks := ∅; chunk_protection := ∅;
  next_snapshot_id := 1; next_item_id := 1; next_recipe_id := 1 |}.

Definition with_snapshots f (c : Catalog) : Catalog := {|
  snapshots := f (snapshots c); snapshot_items := snapshot_items c; recipes := recipes c;
  chunks := chunks c; recipe_chunks := recipe_chunks c; chunk_protection := chunk_protection c;
  next_snapshot_id := next_snapshot_id c; next_item_id := next_item_id c;
  next_recipe_id := next_recipe_id c |}.
Definition with_items f (c : Catalog) : Catalog := {|
  snapshots := snapshots c; snapshot_items := f (snapshot_items c); recipes := recipes c;
  chunks := chunks c; recipe_chunks := recipe_chunks c; chunk_protection := chunk_protection c;
  next_snapshot_id := next_snapshot_id c; next_item_id := next_item_id c;
  next_recipe_id := next_recipe_id c |}.
Definition with_chunks f (c : Catalog) : Catalog := {|
  snapshots := snapshots c; snapshot_items := snapshot_items c; recipes := recipes c;
  chunks := f (chunks c); recipe_chunks := recipe_chunks c; chunk_protection := chunk_protection c;
  next_snapshot_id := next_snapshot_id c; next_item_id := next_item_id c;
  next_recipe_id := next_recipe_id c |}.
Definition with_recipe_chunks f (c : Catalog) : Catalog := {|
  snapshots := snapshots c; snapshot_items := snapshot_items c; recipes := recipes c;
  chunks := chunks c; recipe_chunks := f (recipe_chunks c); chunk_protection := chunk_protection c;
  next_snapshot_id := next_snapshot_id c; next_item_id := next_item_id c;
  next_recipe_id := next_recipe_id c |}.
Definition with_protection f (c : Catalog) : Catalog := {|
  snapshots := snapshots c; snapshot_items := snapshot_items c; recipes := recipes c;
  chunks := chunks c; recipe_chunks := recipe_chunks c; chunk_protection := f (chunk_protection c);
  next_snapshot_id := next_snapshot_id c; next_item_id := next_item_id c;
  next_recipe_id := next_recipe_id c |}.

(** ** Snapshots *)

Definition create_snapshot (c : Catalog) (uuid root_path origin_node_id : pystr)
  : res (Z * Catalog) :=
  let origin := strip origin_node_id in
  if bool_decide (origin = []) then Err ValueError
  else if existsb (λ kv, bool_decide (sn_uuid kv.2 = uuid)) (map_to_list (snapshots c))
  then Err IntegrityError
  else
    let id := next_snapshot_id c in
    let row := {| sn_uuid := uuid; sn_root_path := root_path; sn_origin_node_id := origin;
                  sn_status := CREATING; sn_error := None; sn_total_size := 0;
                  sn_total_files := 0 |} in
    Ok (id, {| snapshots := <[id := row]> (snapshots c); snapshot_items := snapshot_items c;
               recipes := recipes c; chunks := chunks c; recipe_chunks := recipe_chunks c;
               chunk_protection := chunk_protection c; next_snapshot_id := id + 1;
               next_item_id := next_item_id c; next_recipe_id := next_recipe_id c |}).

(** The file items of a snapshot that still lack a recipe. *)
Definition incomplete_files (c : Catalog) (snapshot_id : Z) : list (Z * item_row) :=
  filter (λ kv, it_snapshot_id kv.2 = snapshot_id ∧ it_type kv.2 = ItemFile
                ∧ it_recipe_id kv.2 = None) (map_to_list (snapshot_items c)).

Definition finish_snapshot (c : Catalog) (snapshot_id total_size total_files : Z)
  : res Catalog :=
  match snapshots c !! snapshot_id with
  | None => Err MetadataDatabaseError
  | Some row =>
      if bool_decide (sn_status row ≠ CREATING) then Err MetadataDatabaseError
      else match incomplete_files c snapshot_id with
      | _ :: _ => Err MetadataDatabaseError
      | [] =>
          Ok (with_snapshots (<[snapshot_id :=
            {| sn_uuid := sn_uuid row; sn_root_path := sn_root_path row;
               sn_origin_node_id := sn_origin_node_id row; sn_status := COMPLETE;
               sn_error := None; sn_total_size := total_size;
               sn_total_files := total_files |}]>) c)
      end
  end.

Definition fail_snapshot (c : Catalog) (snapshot_id : Z) (error : pystr) : res Catalog :=
  match snapshots c !! snapshot_id with
  | None => Err MetadataDatabaseError
  | Some row =>
      match sn_status row with
      | CREATING =>
          Ok (with_snapshots (<[snapshot_id :=
            {| sn_uuid := sn_uuid row; sn_root_path := sn_root_path row;
               sn_origin_node_id := sn_origin_node_id row; sn_status := SNAP_FAILED;
               sn_error := Some error; sn_total_size := sn_total_size row;
               sn_total_files := sn_total_files row |}]>) c)
      | SNAP_FAILED => Ok c
      | COMPLETE => Err MetadataDatabaseError
      end
  end.

Definition get_snapshot_status (c : Catalog) (snapshot_id : Z)
  : option snapshot_status * option pystr :=
  match snapshots c !! snapshot_id with
  | None => (None, None)
  | Some row => (Some (sn_status row), sn_error row)
  end.

(** ** Items *)

Definition add_item (c : Catalog) (snapshot_id : Z) (rel_path : pystr) (st : stat_info)
    (item_type : item_kind) : res (Z * Catalog) :=
  match snapshots c !! snapshot_id with
  | None => Err IntegrityError
  | Some _ =>
      if existsb (λ kv, bool_decide (it_snapshot_id kv.2 = snapshot_id ∧ it_path kv.2 = rel_path))
           (map_to_list (snapshot_items c))
      then Err IntegrityError
      else
        let id := next_item_id c in
        let row := {| it_snapshot_id := snapshot_id; it_path := rel_path; it_type := item_type;
                      it_stat := st; it_recipe_id := None |} in
        Ok (id, {| snapshots := snapshots c; snapshot_items := <[id := row]> (snapshot_items c);
                   recipes := recipes c; chunks := chunks c; recipe_chunks := recipe_chunks c;
                   chunk_protection := chunk_protection c;
                   next_snapshot_id := next_snapshot_id c; next_item_id := id + 1;
                   next_recipe_id := next_recipe_id c |})
  end.

Fixpoint add_items (c : Catalog) (snapshot_id : Z) (batch : list (pystr * stat_info * item_kind))
  : res (list Z * Catalog) :=
  match batch with
  | [] => Ok ([], c)
  | (rel_path, st, kind) :: batch' =>
      '(id, c1) ← add_item c snapshot_id rel_path st kind;
      '(ids, c2) ← add_items c1 snapshot_id batch';
      Ok (id :: ids, c2)
  end.

(** ** Recipes and chunks *)

Definition valid_recipe_hash (h : pystr) : res pystr :=
  let text := strip h in
  if is_valid_blake3_hex text then Ok text else Err MetadataDatabaseError.

(** The validation loop over [enumerate(chunks)]. *)
Fixpoint check_recipe_chunks (expected_order : Z) (cs : list recipe_chunk) : res unit :=
  match cs with
  | [] => Ok ()
  | (order, chunk_hash, size) :: cs' =>
      if negb (order =? expected_order)%Z then Err MetadataDatabaseError
      else if negb (is_valid_blake3_hex chunk_hash) then Err MetadataDatabaseError
      else if (size <? 1)%Z then Err MetadataDatabaseError
      else check_recipe_chunks (expected_order + 1) cs'
  end.

(** First loop of [_register_chunks]: one size per hash (insertion order kept). *)
Fixpoint chunk_sizes_of (sizes : list (pystr * Z)) (cs : list recipe_chunk)
  : res (list (pystr * Z)) :=
  match cs with
  | [] => Ok sizes
  | (_, h, size) :: cs' =>
      match List.find (λ kv, bool_decide (kv.1 = h)) sizes with
      | None => chunk_sizes_of (sizes ++ [(h, size)]) cs'
      | Some (_, current) =>
          if (current =? size)%Z then chunk_sizes_of sizes cs' else Err MetadataDatabaseError
      end
  end.

Definition insert_or_ignore (m : gmap pystr Z) (kv : pystr * Z) : gmap pystr Z :=
  match m !! kv.1 with Some _ => m | None => <[kv.1 := kv.2]> m end.

Definition register_chunks (c : Catalog) (cs : list recipe_chunk) : res Catalog :=
  sizes ← chunk_sizes_of [] cs;
  let persisted := fold_left insert_or_ignore sizes (chunks c) in
  if forallb (forallb (λ kv : pystr * Z, bool_decide (persisted !! kv.1 = Some kv.2)))
       (iter_batches sizes 500)
  then Ok (with_chunks (λ _, persisted) c)
  else Err MetadataDatabaseError.

(** The row [INSERT ... ON CONFLICT DO UPDATE] leaves for one chunk when a recipe
    that uses it asks for [desired_rf] copies. *)
Definition ensure_row (desired_rf : Z) (h : pystr) (old : option ProtectionRecord)
  : ProtectionRecord :=
  match old with
  | None => {| pr_chunk_hash := h; pr_desired_rf := desired_rf; pr_protection_state := PENDING;
               pr_protected_remote_copies := 0; pr_placement_epoch := None;
               pr_last_push_at := None; pr_last_verify_at := None; pr_last_error := None |}
  | Some r =>
      if (pr_desired_rf r <? desired_rf)%Z then
        let stale := counts_as_protected (pr_protection_state r) in
        {| pr_chunk_hash := pr_chunk_hash r; pr_desired_rf := Z.max (pr_desired_rf r) desired_rf;
           pr_protection_state := if stale then DEGRADED else pr_protection_state r;
           pr_protected_remote_copies := pr_protected_remote_copies r;
           pr_placement_epoch := pr_placement_epoch r;
           pr_last_push_at := pr_last_push_at r; pr_last_verify_at := pr_last_verify_at r;
           pr_last_error := if stale then Some (u "desired_rf increased") else pr_last_error r |}
      else r
  end.

Definition ensure_protection (desired_rf : Z) (p : gmap pystr ProtectionRecord) (h : pystr)
  : gmap pystr ProtectionRecord := <[h := ensure_row desired_rf h (p !! h)]> p.

(** [_ensure_recipe_protection]: over the distinct chunks of the recipe. *)
Definition ensure_recipe_protection (c : Catalog) (recipe_id desired_rf : Z) : Catalog :=
  let hashes := ordered_unique ((λ rc : recipe_chunk, rc.1.2) <$> default [] (recipe_chunks c !! recipe_id)) in
  with_protection (λ p, fold_left (ensure_protection desired_rf) hashes p) c.

Definition find_recipe (c : Catalog) (recipe_hash : pystr) : option (Z * recipe_row) :=
  List.find (λ kv, bool_decide (rc_hash kv.2 = recipe_hash)) (map_to_list (recipes c)).

Definition recipe_totals (cs : list recipe_chunk) : Z * Z :=
  (Z.of_nat (length cs), fold_right Z.add 0%Z ((λ rc : recipe_chunk, rc.2) <$> cs)).

(** [INSERT OR IGNORE INTO recipes] followed by the SELECT of the row. *)
Definition resolve_recipe (c : Catalog) (recipe_hash : pystr) (chunk_count total_size : Z)
  : Z * recipe_row * Catalog :=
  match find_recipe c recipe_hash with
  | Some (id, row) => (id, row, c)
  | None =>
      let id := next_recipe_id c in
      let row := {| rc_hash := recipe_hash; rc_chunk_count := chunk_count;
                    rc_total_size := total_size |} in
      (id, row, {| snapshots := snapshots c; snapshot_items := snapshot_items c;
                   recipes := <[id := row]> (recipes c); chunks := chunks c;
                   recipe_chunks := recipe_chunks c; chunk_protection := chunk_protection c;
                   next_snapshot_id := next_snapshot_id c; next_item_id := next_item_id c;
                   next_recipe_id := id + 1 |})
  end.

Definition get_or_create_recipe (c : Catalog) (recipe_hash : pystr) (cs : list recipe_chunk)
    (desired_rf : Z) : res (Z * Catalog) :=
  recipe_hash ← valid_recipe_hash recipe_hash;
  let '(chunk_count, total_size) := recipe_totals cs in
  _ ← check_recipe_chunks 0 cs;
  let '(recipe_id, row, c1) := resolve_recipe c recipe_hash chunk_count total_size in
  if negb ((rc_chunk_count row =? chunk_count) && (rc_total_size row =? total_size))%Z
  then Err MetadataDatabaseError
  else
    let existing_chunks := default [] (recipe_chunks c1 !! recipe_id) in
    if bool_decide (existing_chunks ≠ [] ∧ existing_chunks ≠ cs) then Err MetadataDatabaseError
    else match existing_chunks with
    | _ :: _ =>
        if forallb (λ rc : recipe_chunk, bool_decide (chunks c1 !! rc.1.2 = Some rc.2)) existing_chunks
        then Ok (recipe_id, ensure_recipe_protection c1 recipe_id desired_rf)
        else Err MetadataDatabaseError
    | [] =>
        c2 ← register_chunks c1 cs;
        let c3 := match cs with
                  | [] => c2
                  | _ => with_recipe_chunks (<[recipe_id := cs]>) c2
                  end in
        Ok (recipe_id, ensure_recipe_protection c3 recipe_id desired_rf)
    end.

Definition set_item_recipe (c : Catalog) (item_id recipe_id : Z) : res Catalog :=
  match snapshot_items c !! item_id, recipes c !! recipe_id with
  | Some it, Some _ =>
      Ok (with_items (<[item_id := {| it_snapshot_id := it_snapshot_id it; it_path := it_path it;
           it_type := it_type it; it_stat := it_stat it; it_recipe_id := Some recipe_id |}]>) c)
  | Some _, None => Err IntegrityError
  | None, _ => Err MetadataDatabaseError
  end.

(** [consolidate_item_recipe]: recipe, protection intent and item in one transaction. *)
Definition consolidate_item_recipe (c : Catalog) (item_id : Z) (recipe_hash : pystr)
    (cs : list recipe_chunk) (desired_rf : Z) : res (Z * Catalog) :=
  '(recipe_id, c1) ← get_or_create_recipe c recipe_hash cs desired_rf;
  c2 ← set_item_recipe c1 item_id recipe_id;
  Ok (recipe_id, c2).

(** ** Readers *)

Definition order_by_hash (hs : list pystr) : list pystr := py_sorted str_leb (ordered_unique hs).

(** The chunk hashes joined from the file items selected by [live]. *)
Definition joined_chunk_hashes (c : Catalog) (live : item_row → bool) : list pystr :=
  kv ← map_to_list (snapshot_items c);
  if live kv.2 && bool_decide (it_type kv.2 = ItemFile)
  then match it_recipe_id kv.2 with
       | Some rid => (λ rc : recipe_chunk, rc.1.2) <$> default [] (recipe_chunks c !! rid)
       | None => []
       end
  else [].

Definition snapshot_in (c : Catalog) (states : list snapshot_status) (it : item_row) : bool :=
  match snapshots c !! it_snapshot_id it with
  | Some s => bool_decide (sn_status s ∈ states)
  | None => false
  end.

Definition snapshot_chunk_hashes (c : Catalog) (snapshot_id : Z) : list pystr :=
  order_by_hash (joined_chunk_hashes c (λ it, bool_decide (it_snapshot_id it = snapshot_id))).
Definition all_reachable_chunk_hashes (c : Catalog) : list pystr :=
  order_by_hash (joined_chunk_hashes c (snapshot_in c [COMPLETE])).
Definition gc_protected_chunk_hashes (c : Catalog) : list pystr :=
  order_by_hash (joined_chunk_hashes c (snapshot_in c [CREATING; COMPLETE])).
Definition all_known_chunk_hashes (c : Catalog) : list pystr :=
  order_by_hash (map_to_list (chunks c)).*1.

(** [iter_recipe_chunk_entries]: the entries yielded and the exception that ends
    the iteration early, if any. *)
Fixpoint iter_entries (expected_order : Z) (rows : list recipe_chunk)
  : list recipe_chunk * option exn :=
  match rows with
  | [] => ([], None)
  | (order, h, size) :: rows' =>
      if negb (order =? expected_order)%Z then ([], Some MetadataDatabaseError)
      else if (size <? 1)%Z then ([], Some MetadataDatabaseError)
      else let '(ys, e) := iter_entries (expected_order + 1) rows' in ((order, h, size) :: ys, e)
  end.

Definition iter_recipe_chunk_entries (c : Catalog) (recipe_id start_order : Z)
  : list recipe_chunk * option exn :=
  if (start_order <? 0)%Z then ([], Some ValueError)
  else iter_entries start_order
         (filter (λ rc : recipe_chunk, (start_order <= rc.1.1)%Z)
            (default [] (recipe_chunks c !! recipe_id))).

Definition get_recipe_restore_summary (c : Catalog) (recipe_id : Z) : res (Z * Z) :=
  match recipes c !! recipe_id with
  | None => Err MetadataDatabaseValueError
  | Some row =>
      let '(n, total) := (rc_chunk_count row, rc_total_size row) in
      if ((n <? 0) || (total <? 0))%Z then Err MetadataDatabaseError
      else if negb (Bool.eqb (n =? 0)%Z (total =? 0)%Z) then Err MetadataDatabaseError
      else Ok (n, total)
  end.

(** ** Integrity of the recipe tables *)

Definition recipe_consistent (c : Catalog) (id : Z) (rows : list recipe_chunk) : Prop :=
  check_recipe_chunks 0 rows = Ok () ∧
  (∀ rc, rc ∈ rows → chunks c !! rc.1.2 = Some rc.2) ∧
  (∃ row, recipes c !! id = Some row ∧ (rc_chunk_count row, rc_total_size row) = recipe_totals rows).

Record recipes_wf (c : Catalog) : Prop := {
  rwf_ids id row : recipes c !! id = Some row → (id < next_recipe_id c)%Z;
  rwf_unique i j r s :
    recipes c !! i = Some r → recipes c !! j = Some s → rc_hash r = rc_hash s → i = j;
  rwf_rows id rows : recipe_chunks c !! id = Some rows → rows ≠ [] ∧ recipe_consistent c id rows;
  rwf_empty id row : recipes c !! id = Some row →
    recipe_chunks c !! id = None → recipe_totals [] = (rc_chunk_count row, rc_total_size row)
}.

Record protection_wf (c : Catalog) : Prop := {
  pwf_key h r : chunk_protection c !! h = Some r → pr_chunk_hash r = h;
  pwf_fk h r : chunk_protection c !! h = Some r → is_Some (chunks c !! h);
  pwf_valid h r : chunk_protection c !! h = Some r → is_valid_blake3_hex h = true;
  pwf_recipes id rows rc : recipe_chunks c !! id = Some rows → rc ∈ rows →
    is_Some (chunk_protection c !! rc.1.2)
}.

Lemma find_recipe_Some c h id row :
  find_recipe c h = Some (id, row) → recipes c !! id = Some row ∧ rc_hash row = h.
Proof.
  unfold find_recipe. intros H. apply find_some in H as [Hin Hh]. bool_hyps.
  split; [|done]. apply elem_of_map_to_list. by apply list_elem_of_In.
Qed.

Lemma find_recipe_None c h id row :
  find_recipe c h = None → recipes c !! id = Some row → rc_hash row ≠ h.
Proof.
  unfold find_recipe. intros H Hrow Hh.
  apply elem_of_map_to_list, list_elem_of_In in Hrow.
  pose proof (find_none _ _ H _ Hrow) as Hn. cbn in Hn. bool_hyps. done.
Qed.

Lemma find_recipe_complete c id row :
  recipes_wf c → recipes c !! id = Some row → find_recipe c (rc_hash row) = Some (id, row).
Proof.
  intros Hwf Hrow. destruct (find_recipe c (rc_hash row)) as [[j s]|] eqn:E.
  - apply find_recipe_Some in E as [Hj Hs].
    assert (j = id) as -> by (by eapply rwf_unique). congruence.
  - by eapply find_recipe_None in E.
Qed.

Lemma insert_or_ignore_mono m kv k v :
  m !! k = Some v → insert_or_ignore m kv !! k = Some v.
Proof.
  intros H. unfold insert_or_ignore. destruct (m !! kv.1) eqn:E; [done|].
  rewrite lookup_insert_ne; [done|congruence].
Qed.

Lemma insert_all_mono l m k v :
  m !! k = Some v → fold_left insert_or_ignore l m !! k = Some v.
Proof.
  revert m. induction l as [|kv l IH]; intros m H; cbn; [done|].
  apply IH. by apply insert_or_ignore_mono.
Qed.

Lemma chunk_sizes_of_keeps cs sizes out k v :
  chunk_sizes_of sizes cs = Ok out → (k, v) ∈ sizes → (k, v) ∈ out.
Proof.
  revert sizes. induction cs as [|[[o h] s] cs IH]; intros sizes H Hin; cbn in H; [by simplify_eq|].
  destruct (List.find _ sizes) as [[]|]; [destruct (_ =? _)%Z; [|done]|]; eauto.
  apply (IH _ H). set_solver.
Qed.

Lemma chunk_sizes_of_covers cs sizes out rc :
  chunk_sizes_of sizes cs = Ok out → rc ∈ cs → (rc.1.2, rc.2) ∈ out.
Proof.
  revert sizes. induction cs as [|[[o h] s] cs IH]; intros sizes H Hin; [by inversion Hin|].
  cbn in H. destruct (List.find _ sizes) as [[h' s']|] eqn:E.
  - destruct (s' =? s)%Z eqn:Es; [|done]. bool_hyps. subst s'.
    apply elem_of_cons in Hin as [->|Hin]; [|eauto].
    apply (chunk_sizes_of_keeps _ _ _ _ _ H). apply find_some in E as [Hin' Hh]. bool_hyps.
    cbn in Hh. subst h'. by apply list_elem_of_In.
  - apply elem_of_cons in Hin as [->|Hin]; [|eauto].
    apply (chunk_sizes_of_keeps _ _ _ _ _ H). set_solver.
Qed.

Lemma forallb_batches {T} (f : T → bool) l n :
  forallb (forallb f) (iter_batches l n) = forallb f l.
Proof.
  rewrite <-(concat_iter_batches l n) at 2. induction (iter_batches l n) as [|b bs IH]; cbn; [done|].
  by rewrite forallb_app, IH.
Qed.

(** What [_register_chunks] guarantees when it returns. *)
Lemma register_chunks_spec c cs c' :
  register_chunks c cs = Ok c' →
  c' = with_chunks (λ _, chunks c') c ∧
  (∀ h s, chunks c !! h = Some s → chunks c' !! h = Some s) ∧
  (∀ rc, rc ∈ cs → chunks c' !! rc.1.2 = Some rc.2).
Proof.
  unfold register_chunks. intros H. invert_ok. rename a into sizes.
  rewrite forallb_batches in H. destruct (forallb _ _) eqn:E; [|done]. simplify_eq. cbn.
  split_and!; [done|intros; by apply insert_all_mono|].
  intros rc Hrc. apply (chunk_sizes_of_covers _ _ _ _ Hok) in Hrc.
  rewrite forallb_forall in E. specialize (E (rc.1.2, rc.2)).
  rewrite <-list_elem_of_In in E. specialize (E Hrc). by bool_hyps.
Qed.

Lemma ensure_fold_lookup rf hs p h :
  NoDup hs →
  fold_left (ensure_protection rf) hs p !! h
  = if decide (h ∈ hs) then Some (ensure_row rf h (p !! h)) else p !! h.
Proof.
  intros Hnd. revert p. induction Hnd as [|x hs Hx Hnd IH]; intros p; cbn [fold_left].
  - by rewrite decide_False by set_solver.
  - rewrite IH. unfold ensure_protection. destruct (decide (h = x)) as [->|Hne].
    + rewrite decide_False by done. rewrite decide_True by set_solver. by rewrite lookup_insert_eq.
    + rewrite lookup_insert_ne by done. repeat case_decide; set_solver.
Qed.

(** [_ensure_recipe_protection] touches exactly the chunks of the recipe. *)
Lemma ensure_recipe_lookup c id rf h :
  chunk_protection (ensure_recipe_protection c id rf) !! h
  = if decide (h ∈ (λ rc : recipe_chunk, rc.1.2) <$> default [] (recipe_chunks c !! id))
    then Some (ensure_row rf h (chunk_protection c !! h)) else chunk_protection c !! h.
Proof.
  unfold ensure_recipe_protection; cbn. rewrite ensure_fold_lookup by apply NoDup_ordered_unique.
  repeat case_decide; rewrite ?elem_of_ordered_unique in *; done.
Qed.

Lemma ensure_row_key rf h o :
  (∀ r, o = Some r → pr_chunk_hash r = h) → pr_chunk_hash (ensure_row rf h o) = h.
Proof. intros H. unfold ensure_row. destruct o as [r|]; [|done]. case_match; cbn; auto. Qed.

Lemma ensure_row_rf rf h o : (rf <= pr_desired_rf (ensure_row rf h o))%Z.
Proof. unfold ensure_row. destruct o as [r|]; [|done]. case_match; bool_hyps; cbn; lia. Qed.

Lemma ensure_row_idem rf h o : ensure_row rf h (Some (ensure_row rf h o)) = ensure_row rf h o.
Proof.
  pose proof (ensure_row_rf rf h o). unfold ensure_row at 1.
  rewrite (proj2 (Z.ltb_ge _ _)); done.
Qed.

Lemma recipes_wf_ensure c id rf : recipes_wf c → recipes_wf (ensure_recipe_protection c id rf).
Proof. intros []. split; done. Qed.

Lemma check_chunks_cons o rc cs :
  check_recipe_chunks o (rc :: cs) = Ok () ↔
  rc.1.1 = o ∧ is_valid_blake3_hex rc.1.2 = true ∧ (1 <= rc.2)%Z
  ∧ check_recipe_chunks (o + 1) cs = Ok ().
Proof.
  destruct rc as [[order h] size]; cbn [fst snd check_recipe_chunks].
  destruct (order =? o)%Z eqn:E1; cbn [negb]; bool_hyps; [|split; [done|tauto]].
  destruct (is_valid_blake3_hex h); cbn [negb]; [|split; [done|intros (_ & ? & _); done]].
  destruct (size <? 1)%Z eqn:E2; bool_hyps; [split; [done|intros (_ & _ & ? & _); lia]|].
  split; [intros; split_and!; auto|tauto].
Qed.

Lemma checked_valid o cs rc :
  check_recipe_chunks o cs = Ok () → rc ∈ cs → is_valid_blake3_hex rc.1.2 = true.
Proof.
  revert o. induction cs as [|x cs IH]; intros o H Hin; [by inversion Hin|].
  apply check_chunks_cons in H as (_ & Hv & _ & H). apply elem_of_cons in Hin as [->|]; eauto.
Qed.

Lemma protection_wf_ensure c id rf :
  recipes_wf c →
  (∀ h r, chunk_protection c !! h = Some r → pr_chunk_hash r = h) →
  (∀ h r, chunk_protection c !! h = Some r → is_Some (chunks c !! h)) →
  (∀ h r, chunk_protection c !! h = Some r → is_valid_blake3_hex h = true) →
  (∀ j rows rc, j ≠ id → recipe_chunks c !! j = Some rows → rc ∈ rows →
     is_Some (chunk_protection c !! rc.1.2)) →
  protection_wf (ensure_recipe_protection c id rf).
Proof.
  intros Hr Hk Hfk Hval Hrec. split.
  - intros h r. rewrite ensure_recipe_lookup. case_decide; intros; simplify_eq; [|eauto].
    apply ensure_row_key. eauto.
  - intros h r. rewrite ensure_recipe_lookup. cbn. case_decide as Hin; intros; simplify_eq; [|eauto].
    apply list_elem_of_fmap in Hin as (rc & -> & Hin).
    destruct (recipe_chunks c !! id) as [rows|] eqn:E; [|by inversion Hin].
    destruct (rwf_rows c Hr _ _ E) as (_ & _ & Hsz & _). rewrite (Hsz rc); eauto.
  - intros h r. rewrite ensure_recipe_lookup. case_decide as Hin; intros; simplify_eq; [|eauto].
    apply list_elem_of_fmap in Hin as (rc & -> & Hin).
    destruct (recipe_chunks c !! id) as [rows|] eqn:E; [|by inversion Hin].
    destruct (rwf_rows c Hr _ _ E) as (_ & Hck & _). by eapply checked_valid.
  - intros j rows rc Hj Hin. cbn in Hj. rewrite ensure_recipe_lookup. case_decide as Hn; [eauto|].
    destruct (decide (j = id)) as [->|Hne]; [|by eapply Hrec].
    exfalso. apply Hn. rewrite Hj. apply list_elem_of_fmap. eauto.
Qed.

Lemma resolve_recipe_spec c h n t id row c1 :
  recipes_wf c → resolve_recipe c h n t = (id, row, c1) →
  recipes c1 !! id = Some row ∧ rc_hash row = h ∧
  chunks c1 = chunks c ∧ recipe_chunks c1 = recipe_chunks c ∧
  chunk_protection c1 = chunk_protection c ∧
  snapshots c1 = snapshots c ∧ snapshot_items c1 = snapshot_items c ∧
  (c1 = c ∨ (recipes c !! id = None ∧ recipes c1 = <[id := row]> (recipes c) ∧
             next_recipe_id c1 = (id + 1)%Z ∧ id = next_recipe_id c ∧ find_recipe c h = None)).
Proof.
  intros Hwf. unfold resolve_recipe. destruct (find_recipe c h) as [[j s]|] eqn:E; intros; simplify_eq.
  - apply find_recipe_Some in E as [? ?]. auto 10.
  - cbn. rewrite lookup_insert_eq. split_and!; auto. right. split_and!; auto.
    destruct (recipes c !! next_recipe_id c) eqn:E'; [|done].
    apply (rwf_ids c Hwf) in E'. lia.
Qed.

(** The state between resolving the recipe row and writing its chunks. *)
Lemma resolve_keeps_wf c h n t id row c1 :
  recipes_wf c → resolve_recipe c h n t = (id, row, c1) →
  (∀ j r s, recipes c1 !! j = Some r → recipes c1 !! id = Some s → rc_hash r = rc_hash s → j = id)
  ∧ (∀ j r, recipes c1 !! j = Some r → (j < next_recipe_id c1)%Z)
  ∧ (∀ i j r s, recipes c1 !! i = Some r → recipes c1 !! j = Some s → rc_hash r = rc_hash s → i = j)
  ∧ (∀ j rows, recipe_chunks c1 !! j = Some rows → rows ≠ [] ∧ recipe_consistent c1 j rows)
  ∧ (∀ j r, j ≠ id → recipes c1 !! j = Some r → recipe_chunks c1 !! j = None →
       recipe_totals [] = (rc_chunk_count r, rc_total_size r)).
Proof.
  intros Hwf H. destruct (resolve_recipe_spec _ _ _ _ _ _ _ Hwf H)
    as (Hrow & Hh & Hc & Hrc & _ & _ & _ & [->|(Hnone & Hr & Hnext & Hid & Hfind)]).
  - destruct Hwf as [w1 w2 w3 w4]. split_and!; eauto.
  - assert (∀ j r, recipes c !! j = Some r → j ≠ id) as Hne by (intros j r Hj ->; congruence).
    assert (∀ i j r s, recipes c1 !! i = Some r → recipes c1 !! j = Some s →
      rc_hash r = rc_hash s → i = j) as Huniq.
    { rewrite Hr. intros i j r s. rewrite !lookup_insert.
      destruct (decide (id = i)) as [Ei|], (decide (id = j)) as [Ej|]; intros Hi Hj He; try congruence.
      - exfalso. eapply find_recipe_None; [exact Hfind|exact Hj|]. congruence.
      - exfalso. eapply find_recipe_None; [exact Hfind|exact Hi|]. congruence.
      - by eapply rwf_unique. }
    split_and!; [intros; by eapply Huniq| |done| |].
    + rewrite Hr, Hnext. intros j r. rewrite lookup_insert. case_decide as Ej; [lia|].
      intros Hj. apply (rwf_ids c Hwf) in Hj. lia.
    + rewrite Hrc. intros j rows Hj. destruct (rwf_rows c Hwf j rows Hj) as (? & ? & ? & r & Hjr & ?).
      split; [done|]. unfold recipe_consistent. rewrite Hc, Hr. split_and!; auto.
      exists r. split; [|done]. rewrite lookup_insert_ne; [done|]. apply not_eq_sym. eauto.
    + rewrite Hr, Hrc. intros j r Hj. rewrite lookup_insert_ne by done. by apply rwf_empty.
Qed.

(** The recipe tables right before the protection rows are ensured. *)
Record recipe_stored (c c3 : Catalog) (h : pystr) (cs : list recipe_chunk) (id : Z) : Prop := {
  rs_wf : recipes_wf c3;
  rs_rows : default [] (recipe_chunks c3 !! id) = cs;
  rs_row : ∃ row, recipes c3 !! id = Some row ∧ rc_hash row = h ∧
             (rc_chunk_count row, rc_total_size row) = recipe_totals cs;
  rs_checked : check_recipe_chunks 0 cs = Ok ();
  rs_sizes rc : rc ∈ cs → chunks c3 !! rc.1.2 = Some rc.2;
  rs_chunks k v : chunks c !! k = Some v → chunks c3 !! k = Some v;
  rs_recipes j r : recipes c !! j = Some r → recipes c3 !! j = Some r;
  rs_others j : j ≠ id → recipe_chunks c3 !! j = recipe_chunks c !! j;
  rs_old rows : recipe_chunks c !! id = Some rows → rows = cs;
  rs_protection : chunk_protection c3 = chunk_protection c;
  rs_snapshots : snapshots c3 = snapshots c;
  rs_items : snapshot_items c3 = snapshot_items c
}.

Lemma totals_nonempty cs row :
  (rc_chunk_count row, rc_total_size row) = recipe_totals cs →
  recipe_totals [] = (rc_chunk_count row, rc_total_size row) → cs = [].
Proof. intros H1 H2. rewrite H1 in H2. unfold recipe_totals in H2. destruct cs; [done|]. simplify_eq/=. Qed.

Section resolved.
Context (c c1 : Catalog) (h : pystr) (cs : list recipe_chunk) (n t rid : Z) (row : recipe_row).
Context (Hwf : recipes_wf c) (Hres : resolve_recipe c h n t = (rid, row, c1)).
Context (Hck : check_recipe_chunks 0 cs = Ok ()).
Context (Htot : (rc_chunk_count row, rc_total_size row) = recipe_totals cs).

Lemma resolved_mono j r : recipes c !! j = Some r → recipes c1 !! j = Some r.
Proof.
  destruct (resolve_recipe_spec _ _ _ _ _ _ _ Hwf Hres)
    as (_ & _ & _ & _ & _ & _ & _ & [->|(Hn & -> & _)]); [done|].
  intros Hj. rewrite lookup_insert_ne; [done|congruence].
Qed.

(** The recipe already has its rows. *)
Lemma stored_existing : recipe_chunks c1 !! rid = Some cs → recipe_stored c c1 h cs rid.
Proof.
  intros Erows. destruct (resolve_recipe_spec _ _ _ _ _ _ _ Hwf Hres)
    as (Hrow & Hh & Hch & Hrc & Hpr & Hsn & Hit & _).
  destruct (resolve_keeps_wf _ _ _ _ _ _ _ Hwf Hres) as (_ & K1 & K2 & K3 & K4).
  destruct (K3 _ _ Erows) as (_ & _ & Hsz & _).
  split; rewrite ?Erows; eauto using resolved_mono.
  - split; [done..|]. intros j r Hr Hjn. destruct (decide (j = rid)) as [->|]; [congruence|eauto].
  - by rewrite Hch.
  - by rewrite Hrc.
  - rewrite <-Hrc, Erows. by intros ? [= ->].
Qed.

(** The rows the first writer of a recipe inserts. *)
Definition insert_recipe_rows (c2 : Catalog) : Catalog :=
  match cs with [] => c2 | _ => with_recipe_chunks (<[rid := cs]>) c2 end.

Lemma insert_recipe_rows_same c2 :
  let c3 := insert_recipe_rows c2 in
  recipes c3 = recipes c2 ∧ chunks c3 = chunks c2 ∧ chunk_protection c3 = chunk_protection c2
  ∧ snapshots c3 = snapshots c2 ∧ snapshot_items c3 = snapshot_items c2
  ∧ next_recipe_id c3 = next_recipe_id c2
  ∧ recipe_chunks c3 = match cs with [] => recipe_chunks c2 | _ => <[rid := cs]> (recipe_chunks c2) end.
Proof. unfold insert_recipe_rows. by destruct cs. Qed.

(** First time: the chunks are registered and the rows inserted. *)
Lemma stored_fresh c2 :
  recipe_chunks c1 !! rid = None → register_chunks c1 cs = Ok c2 →
  recipe_stored c (insert_recipe_rows c2) h cs rid.
Proof.
  intros Erows Hreg. destruct (resolve_recipe_spec _ _ _ _ _ _ _ Hwf Hres)
    as (Hrow & Hh & Hch & Hrc & Hpr & Hsn & Hit & _).
  destruct (resolve_keeps_wf _ _ _ _ _ _ _ Hwf Hres) as (_ & K1 & K2 & K3 & K4).
  destruct (register_chunks_spec _ _ _ Hreg) as (Ec2 & Hkeep & Hsz).
  assert (recipes c2 = recipes c1 ∧ recipe_chunks c2 = recipe_chunks c1 ∧
    chunk_protection c2 = chunk_protection c1 ∧ snapshots c2 = snapshots c1 ∧
    snapshot_items c2 = snapshot_items c1 ∧ next_recipe_id c2 = next_recipe_id c1)
    as (R1 & R2 & R3 & R4 & R5 & R6) by (rewrite Ec2; done).
  destruct (insert_recipe_rows_same c2) as (Q1 & Q2 & Q3 & Q4 & Q5 & Q6 & Q7).
  assert (∀ j, j ≠ rid → recipe_chunks (insert_recipe_rows c2) !! j = recipe_chunks c1 !! j) as Hoth.
  { intros j Hj. rewrite Q7, R2. destruct cs; [done|]. by rewrite lookup_insert_ne. }
  assert (recipe_chunks (insert_recipe_rows c2) !! rid = match cs with [] => None | _ => Some cs end)
    as Hown by (rewrite Q7, R2; destruct cs; rewrite ?lookup_insert_eq; done).
  split; rewrite ?Q1, ?Q2, ?Q3, ?Q4, ?Q5, ?R1, ?R3, ?R4, ?R5; eauto using resolved_mono.
  - split; rewrite ?Q1, ?Q6, ?R1, ?R6; eauto.
    + intros j rows. destruct (decide (j = rid)) as [->|Hj].
      * rewrite Hown. intros E. assert (rows = cs ∧ cs ≠ []) as [-> ?] by (destruct cs; by simplify_eq).
        split; [done|]. split_and!; [done|by rewrite Q2|rewrite Q1, R1; eauto].
      * rewrite Hoth by done. intros E. destruct (K3 _ _ E) as (? & ? & Hs & ?).
        split; [done|]. split_and!; [done|rewrite Q2; auto|by rewrite Q1, R1].
    + intros j r Hr. destruct (decide (j = rid)) as [->|Hj]; [|rewrite Hoth by done; eauto].
      rewrite Hown. destruct cs; [|done]. intros _. rewrite Hrow in Hr. by simplify_eq.
  - rewrite Hown. by destruct cs.
  - intros k v Hk. apply Hkeep. by rewrite Hch.
  - intros j Hj. by rewrite Hoth, Hrc.
  - intros rows. by rewrite <-Hrc, Erows.
Qed.
End resolved.

Lemma get_or_create_stored c h cs rf ri c' :
  recipes_wf c → get_or_create_recipe c h cs rf = Ok (ri, c') →
  ∃ c3, c' = ensure_recipe_protection c3 ri rf ∧ recipe_stored c c3 (strip h) cs ri.
Proof.
  intros Hwf. unfold get_or_create_recipe, valid_recipe_hash.
  destruct (is_valid_blake3_hex (strip h)); [|done]. cbn [mbind res_bind].
  destruct (recipe_totals cs) as [n t] eqn:Etot.
  destruct (check_recipe_chunks 0 cs) as [[]|] eqn:Echk; [|done]. cbn [mbind res_bind].
  destruct (resolve_recipe c (strip h) n t) as [[rid row] c1] eqn:Eres.
  destruct (negb _) eqn:Econs; [done|]. bool_hyps.
  assert ((rc_chunk_count row, rc_total_size row) = recipe_totals cs) as Htot by congruence.
  destruct (resolve_keeps_wf _ _ _ _ _ _ _ Hwf Eres) as (_ & _ & _ & K3 & _).
  case_bool_decide as Hex; [done|].
  destruct (recipe_chunks c1 !! rid) as [rows|] eqn:Erows; cbn [default from_option id] in *.
  - destruct (K3 _ _ Erows) as (Hne & _). destruct rows as [|r0 rows]; [done|].
    assert (r0 :: rows = cs) as <- by (apply dec_stable; intros ?; by apply Hex).
    destruct (forallb _ _); [|done]. intros [= <- <-]. exists c1. split; [done|].
    by eapply stored_existing.
  - intros Hreg. apply bind_Ok in Hreg as (c2 & Hok & Hreg). injection Hreg as <- <-.
    exists (insert_recipe_rows cs rid c2). split; [done|]. by eapply stored_fresh.
Qed.

(** ** Reading back what was stored *)

Lemma iter_entries_checked o cs :
  check_recipe_chunks o cs = Ok () → iter_entries o cs = (cs, None).
Proof.
  revert o. induction cs as [|[[order h] size] cs IH]; intros o Hck; [done|].
  apply check_chunks_cons in Hck as (Ho & _ & Hs & Hck). cbn [fst snd] in Ho, Hs. subst order.
  cbn [iter_entries]. rewrite Z.eqb_refl, (proj2 (Z.ltb_ge _ _)) by done. cbn [negb].
  by rewrite IH.
Qed.

Lemma check_drop o cs k :
  check_recipe_chunks o cs = Ok () →
  check_recipe_chunks (o + Z.of_nat k) (drop k cs) = Ok ()
  ∧ filter (λ rc : recipe_chunk, (o + Z.of_nat k <= rc.1.1)%Z) cs = drop k cs.
Proof.
  revert o k. induction cs as [|rc cs IH]; intros o k Hck.
  { by destruct k. }
  destruct (proj1 (check_chunks_cons _ _ _) Hck) as (Ho & _ & _ & Hck').
  destruct k as [|k].
  - rewrite Z.add_0_r. split; [done|]. apply filter_all. clear IH Ho Hck'.
    revert o Hck. induction (rc :: cs) as [|x l IHl]; intros o Hck; [done|].
    apply check_chunks_cons in Hck as (Ho & _ & _ & Hck). apply Forall_cons; split; [lia|].
    eapply Forall_impl; [by apply IHl|]. cbn. intros; lia.
  - destruct (IH (o + 1)%Z k Hck') as [H1 H2].
    replace (o + Z.of_nat (S k))%Z with (o + 1 + Z.of_nat k)%Z by lia.
    split; [done|]. rewrite filter_cons_False by (rewrite Ho; lia). done.
Qed.

Lemma totals_checked cs :
  check_recipe_chunks 0 cs = Ok () →
  let '(n, t) := recipe_totals cs in (0 <= n ∧ 0 <= t ∧ (n = 0 ↔ t = 0))%Z.
Proof.
  assert (∀ o, check_recipe_chunks o cs = Ok () →
    Z.of_nat (length cs) <= fold_right Z.add 0 ((λ rc : recipe_chunk, rc.2) <$> cs))%Z as H.
  { induction cs as [|rc cs IH]; intros o Hck; [done|].
    apply check_chunks_cons in Hck as (_ & _ & ? & Hck). apply IH in Hck. cbn in *. lia. }
  intros Hck. specialize (H _ Hck). unfold recipe_totals. split_and!; try lia.
  destruct cs; cbn in *; [done|lia].
Qed.

Lemma catalog_ext c : with_chunks (λ _, chunks c) c = c.
Proof. by destruct c. Qed.

Lemma ensure_recipe_twice c id rf :
  ensure_recipe_protection (ensure_recipe_protection c id rf) id rf = ensure_recipe_protection c id rf.
Proof.
  assert (chunk_protection (ensure_recipe_protection (ensure_recipe_protection c id rf) id rf)
          = chunk_protection (ensure_recipe_protection c id rf)) as H.
  { apply map_eq. intros h. rewrite !ensure_recipe_lookup. cbn [recipe_chunks ensure_recipe_protection with_protection].
    case_decide; [by rewrite ensure_row_idem|done]. }
  unfold ensure_recipe_protection, with_protection in *. cbn in *. by rewrite H.
Qed.

(** Storing a stored recipe again finds it. *)
Lemma get_or_create_again c c3 h cs id rf :
  is_valid_blake3_hex (strip h) = true → recipe_stored c c3 (strip h) cs id →
  get_or_create_recipe (ensure_recipe_protection c3 id rf) h cs rf
  = Ok (id, ensure_recipe_protection c3 id rf).
Proof.
  intros Hv [Hwf Hrows (row & Hrow & Hh & Htot) Hck Hsz _ _ _ _ _ _ _].
  set (c' := ensure_recipe_protection c3 id rf).
  unfold get_or_create_recipe, valid_recipe_hash. rewrite Hv. cbn [mbind res_bind].
  rewrite <-Htot, Hck. cbn [mbind res_bind].
  assert (find_recipe c' (strip h) = Some (id, row)) as Hfind.
  { rewrite <-Hh. change (find_recipe c' (rc_hash row)) with (find_recipe c3 (rc_hash row)).
    by apply find_recipe_complete. }
  unfold resolve_recipe. rewrite Hfind, !Z.eqb_refl. cbn [andb negb].
  change (recipe_chunks c') with (recipe_chunks c3). rewrite Hrows.
  rewrite bool_decide_false by tauto. destruct cs as [|rc cs].
  - unfold register_chunks. cbn -[ensure_recipe_protection]. rewrite catalog_ext.
    unfold c'. by rewrite ensure_recipe_twice.
  - rewrite (proj2 (forallb_forall _ _)); [unfold c'; by rewrite ensure_recipe_twice|].
    intros x Hx. apply bool_decide_eq_true. apply Hsz. by apply list_elem_of_In.
Qed.

Lemma protection_wf_stored c c3 h cs id rf :
  recipes_wf c → protection_wf c → recipe_stored c c3 h cs id →
  protection_wf (ensure_recipe_protection c3 id rf).
Proof.
  intros Hwf [p1 p2 pv p3] [Hwf3 Hrows _ Hck Hsz Hchk _ Hoth _ Hpr _ _].
  apply protection_wf_ensure; rewrite ?Hpr; auto.
  - intros k r Hk. destruct (p2 _ _ Hk) as [v Hv]. rewrite (Hchk _ _ Hv). done.
  - intros j rows rc Hne Hj Hin. rewrite Hoth in Hj by done. by eapply p3.
Qed.

(** ** Properties *)

(** a recipe that was stored is read back exactly, from the start or resumed at
    any order; its summary is the number and the total size of its chunks; every
    chunk is registered with its size and has a protection row asking for at least
    [desired_rf] copies; storing it again changes nothing and returns the same id. *)
Theorem recipe_roundtrip c h cs rf id c' :
  recipes_wf c → get_or_create_recipe c h cs rf = Ok (id, c') →
  (∀ k, iter_recipe_chunk_entries c' id (Z.of_nat k) = (drop k cs, None))
  ∧ get_recipe_restore_summary c' id = Ok (recipe_totals cs)
  ∧ (∀ rc, rc ∈ cs → chunks c' !! rc.1.2 = Some rc.2
       ∧ ∃ r, chunk_protection c' !! rc.1.2 = Some r ∧ (rf <= pr_desired_rf r)%Z)
  ∧ get_or_create_recipe c' h cs rf = Ok (id, c').
Proof.
  intros Hwf Hget. destruct (get_or_create_stored _ _ _ _ _ _ Hwf Hget) as (c3 & -> & Hst).
  assert (is_valid_blake3_hex (strip h) = true) as Hv.
  { unfold get_or_create_recipe, valid_recipe_hash in Hget.
    by destruct (is_valid_blake3_hex (strip h)). }
  pose proof (get_or_create_again _ _ _ _ _ rf Hv Hst) as Hagain.
  destruct Hst as [Hwf3 Hrows (row & Hrow & Hh & Htot) Hck Hsz _ _ _ _ _ _ _].
  split_and!; [| | |done].
  - intros k. unfold iter_recipe_chunk_entries. rewrite (proj2 (Z.ltb_ge _ _)) by lia.
    cbn [recipe_chunks ensure_recipe_protection with_protection]. rewrite Hrows.
    destruct (check_drop 0 cs k Hck) as [H1 H2].
    change (0 + Z.of_nat k)%Z with (Z.of_nat k) in *. rewrite H2. by apply iter_entries_checked.
  - unfold get_recipe_restore_summary. cbn [recipes ensure_recipe_protection with_protection].
    rewrite Hrow. pose proof (totals_checked cs Hck) as Ht. rewrite <-Htot in *.
    destruct Ht as (? & ? & Hz). rewrite !(proj2 (Z.ltb_ge _ _)) by done. cbn [orb].
    destruct (Z.eqb_spec (rc_chunk_count row) 0), (Z.eqb_spec (rc_total_size row) 0);
      cbn [Bool.eqb negb]; tauto.
  - intros rc Hin. split; [by apply Hsz|]. rewrite ensure_recipe_lookup, Hrows.
    rewrite decide_True by (apply list_elem_of_fmap; eauto).
    eexists; split; [reflexivity|apply ensure_row_rf].
Qed.

Definition example_hash (c : N) : pystr := repeat c 64.
Definition example_recipe : list recipe_chunk :=
  [(0%Z, example_hash 97, 10%Z); (1%Z, example_hash 98, 5%Z); (2%Z, example_hash 97, 10%Z)].

Lemma empty_recipes_wf : recipes_wf empty_catalog.
Proof. split; cbn; intros *; by rewrite lookup_empty. Qed.

Lemma example_stores :
  fst <$> get_or_create_recipe empty_catalog (example_hash 99) example_recipe 3 = Ok 1%Z.
Proof. vm_compute. reflexivity. Qed.

Lemma example_stored :
  ∃ c', get_or_create_recipe empty_catalog (example_hash 99) example_recipe 3 = Ok (1%Z, c').
Proof.
  pose proof example_stores as H. destruct (get_or_create_recipe _ _ _ _) as [[id c']|e]; [|done].
  exists c'. cbn in H. congruence.
Qed.

Lemma recipe_roundtrip_witness :
  ∃ c', get_or_create_recipe empty_catalog (example_hash 99) example_recipe 3 = Ok (1%Z, c')
  ∧ get_recipe_restore_summary c' 1 = Ok (3%Z, 25%Z).
Proof.
  destruct example_stored as [c' E]. exists c'.
  split; [exact E|]. apply (recipe_roundtrip _ _ _ _ _ _ empty_recipes_wf E).
Defined.

(** Storing a recipe keeps the catalogue consistent: recipe hashes stay unique,
    every recipe's rows match its summary and the registered chunk sizes, and every
    chunk of every recipe has a protection row. *)
Theorem get_or_create_recipe_wf c h cs rf id c' :
  recipes_wf c → protection_wf c → get_or_create_recipe c h cs rf = Ok (id, c') →
  recipes_wf c' ∧ protection_wf c'.
Proof.
  intros Hwf Hp Hget. destruct (get_or_create_stored _ _ _ _ _ _ Hwf Hget) as (c3 & -> & Hst).
  split; [by apply recipes_wf_ensure, (rs_wf _ _ _ _ _ Hst)|by apply (protection_wf_stored c _ (strip h) cs)].
Qed.

Lemma empty_protection_wf : protection_wf empty_catalog.
Proof. split; cbn; intros *; by rewrite lookup_empty. Qed.

Lemma get_or_create_recipe_wf_witness :
  ∃ c', get_or_create_recipe empty_catalog (example_hash 99) example_recipe 3 = Ok (1%Z, c')
  ∧ recipes_wf c' ∧ protection_wf c'.
Proof.
  destruct example_stored as [c' E]. exists c'. split; [exact E|].
  exact (get_or_create_recipe_wf _ _ _ _ _ _ empty_recipes_wf empty_protection_wf E).
Defined.
