(* ===== verification/ProtectionTable.v ===== *)
(** * The chunk_protection table

    The operations of [metadata/database.py] that read and write protection rows: the
    updates a push and a verification store, staleness marking and the queries that
    decide what still has to be pushed or verified. *)

From S2P Require Import Prelude PyStr Common Protection Catalog.

(** ** Reading rows *)

(** The rows in the order of [ORDER BY chunk_hash ASC]. *)
Definition ordered_rows (c : Catalog) : list (pystr * ProtectionRecord) :=
  omap (λ h, (h,.) <$> chunk_protection c !! h)
    (py_sorted str_leb (map_to_list (chunk_protection c)).*1).

(** [LIMIT n]: a negative bound means no bound in SQLite. *)
Definition sql_limit {A} (limit : option Z) (l : list A) : list A :=
  match limit with
  | None => l
  | Some n => if (n <? 0)%Z then l else take (Z.to_nat n) l
  end.

Definition select_rows (c : Catalog) (where_ : pystr → ProtectionRecord → bool)
    (limit : option Z) : list (pystr * ProtectionRecord) :=
  sql_limit limit (filter (λ hr, where_ hr.1 hr.2 = true) (ordered_rows c)).

Definition get_chunk_protection (c : Catalog) (chunk_hash : pystr) : option ProtectionRecord :=
  chunk_protection c !! chunk_hash.

Definition is_chunk_remotely_protected (c : Catalog) (chunk_hash : pystr) (required_rf : Z)
    (current_epoch : option pystr) : res bool :=
  is_record_sufficient (get_chunk_protection c chunk_hash) required_rf current_epoch.

(** [placement_epoch IS NULL OR placement_epoch <> ?] *)
Definition epoch_differs (r : ProtectionRecord) (epoch : pystr) : bool :=
  match pr_placement_epoch r with None => true | Some e => bool_decide (e ≠ epoch) end.

(** The WHERE clause shared by the two pending queries. *)
Definition pending_row (desired_rf : Z) (current_epoch : option pystr) (r : ProtectionRecord) : bool :=
  bool_decide (pr_protection_state r ∈ [PENDING; DEGRADED; FAILED])
  || (pr_desired_rf r <? desired_rf)%Z
  || match current_epoch with
     | None => false
     | Some e => bool_decide (pr_protection_state r ∈ [PLACED; VERIFIED]) && epoch_differs r e
     end.

Definition get_pending_protection_chunks (c : Catalog) (desired_rf : Z)
    (current_epoch : option pystr) (limit : option Z) : list pystr :=
  (select_rows c (λ _ r, pending_row desired_rf current_epoch r) limit).*1.

(** [_unique_hashes] *)
Definition unique_hashes (values : list pystr) : res (list pystr) :=
  hs ← mapM_res valid_recipe_hash values;
  Ok (ordered_unique hs).

Definition pending_protection_chunks_for_hashes (c : Catalog) (chunk_hashes : list pystr)
    (desired_rf : Z) (current_epoch : option pystr) (limit : option Z) : res (list pystr) :=
  hashes ← unique_hashes chunk_hashes;
  match hashes with
  | [] => Ok []
  | _ => Ok (select_rows c (λ h r, bool_decide (h ∈ hashes) && pending_row desired_rf current_epoch r)
               limit).*1
  end.

Record VerificationCandidate := {
  vc_chunk_hash : pystr; vc_desired_rf : Z; vc_protection_state : ProtectionState }.

Definition candidate_of (hr : pystr * ProtectionRecord) : VerificationCandidate := {|
  vc_chunk_hash := hr.1; vc_desired_rf := pr_desired_rf hr.2;
  vc_protection_state := pr_protection_state hr.2 |}.

Definition get_verification_candidates (c : Catalog) (include_verified : bool)
    (limit : option Z) : list VerificationCandidate :=
  let states := [PLACED; DEGRADED] ++ (if include_verified then [VERIFIED] else []) in
  candidate_of <$> select_rows c (λ _ r, bool_decide (pr_protection_state r ∈ states)) limit.

Definition chunk_protection_verification_candidates_for_hashes (c : Catalog)
    (chunk_hashes : list pystr) (include_verified : bool) (limit : option Z)
  : res (list VerificationCandidate) :=
  hashes ← unique_hashes chunk_hashes;
  match hashes with
  | [] => Ok []
  | _ =>
      let states := [PENDING; PLACED; DEGRADED; FAILED]
                    ++ (if include_verified then [VERIFIED] else []) in
      Ok (candidate_of <$> select_rows c
            (λ h r, bool_decide (h ∈ hashes) && bool_decide (pr_protection_state r ∈ states)) limit)
  end.

(** ** Writing rows *)

Definition with_row_state (s : ProtectionState) (err : option pystr) (r : ProtectionRecord)
  : ProtectionRecord := {|
  pr_chunk_hash := pr_chunk_hash r; pr_desired_rf := pr_desired_rf r; pr_protection_state := s;
  pr_protected_remote_copies := pr_protected_remote_copies r;
  pr_placement_epoch := pr_placement_epoch r; pr_last_push_at := pr_last_push_at r;
  pr_last_verify_at := pr_last_verify_at r; pr_last_error := err |}.

(** The two UPDATE statements of [mark_stale_protection], per row. *)
Definition stale_rf (desired_rf : Z) (r : ProtectionRecord) : ProtectionRecord :=
  if (pr_desired_rf r <? desired_rf)%Z && bool_decide (pr_protection_state r ∈ [PLACED; VERIFIED])
  then with_row_state DEGRADED
         (if (pr_desired_rf r <? desired_rf)%Z then Some (u "desired_rf increased") else pr_last_error r) r
  else r.

Definition stale_epoch (epoch : pystr) (r : ProtectionRecord) : ProtectionRecord :=
  if bool_decide (pr_protection_state r ∈ [PLACED; VERIFIED]) && epoch_differs r epoch
  then with_row_state DEGRADED (Some (u "placement_epoch changed")) r
  else r.

Definition mark_stale_row (desired_rf : Z) (current_epoch : option pystr) (r : ProtectionRecord)
  : ProtectionRecord :=
  let r1 := stale_rf desired_rf r in
  match current_epoch with None => r1 | Some e => stale_epoch e r1 end.

Definition mark_stale_protection (c : Catalog) (desired_rf : Z) (current_epoch : option pystr)
  : Catalog := with_protection (fmap (mark_stale_row desired_rf current_epoch)) c.

(** [ChunkProtectionPushUpdate] and [ChunkProtectionVerificationUpdate] *)
Record ChunkProtectionUpdate := {
  up_chunk_hash : pystr; up_desired_rf : Z; up_protection_state : ProtectionState;
  up_protected_remote_copies : Z; up_placement_epoch : option pystr; up_error : option pystr }.

Definition require_hash64 : pystr → res pystr := valid_recipe_hash.
Definition require_non_negative_int (value : Z) : res Z :=
  if (value <? 0)%Z then Err MetadataDatabaseError else Ok value.

Definition update_row (allowed : list ProtectionState) (up : ChunkProtectionUpdate)
  : res ChunkProtectionUpdate :=
  if bool_decide (up_protection_state up ∈ allowed) then
    h ← require_hash64 (up_chunk_hash up);
    rf ← require_non_negative_int (up_desired_rf up);
    copies ← require_non_negative_int (up_protected_remote_copies up);
    Ok {| up_chunk_hash := h; up_desired_rf := rf; up_protection_state := up_protection_state up;
          up_protected_remote_copies := copies; up_placement_epoch := up_placement_epoch up;
          up_error := up_error up |}
  else Err MetadataDatabaseValueError.

(** [_CHUNK_PROTECTION_PUSH_UPSERT_SQL] *)
Definition push_upsert (now : Q) (row : ChunkProtectionUpdate) (old : option ProtectionRecord)
  : ProtectionRecord := {|
  pr_chunk_hash := up_chunk_hash row; pr_desired_rf := up_desired_rf row;
  pr_protection_state := up_protection_state row;
  pr_protected_remote_copies := up_protected_remote_copies row;
  pr_placement_epoch := up_placement_epoch row; pr_last_push_at := Some now;
  pr_last_verify_at := None; pr_last_error := up_error row |}.

(** [_CHUNK_PROTECTION_VERIFY_UPSERT_SQL]: keeps the time of the last push. *)
Definition verify_upsert (now : Q) (row : ChunkProtectionUpdate) (old : option ProtectionRecord)
  : ProtectionRecord := {|
  pr_chunk_hash := up_chunk_hash row; pr_desired_rf := up_desired_rf row;
  pr_protection_state := up_protection_state row;
  pr_protected_remote_copies := up_protected_remote_copies row;
  pr_placement_epoch := up_placement_epoch row;
  pr_last_push_at := match old with Some r => pr_last_push_at r | None => None end;
  pr_last_verify_at := Some now; pr_last_error := up_error row |}.

(** [executemany] under the foreign key [chunk_hash REFERENCES chunks(hash)]. *)
Fixpoint upsert_rows (upsert : ChunkProtectionUpdate → option ProtectionRecord → ProtectionRecord)
    (known : gmap pystr Z) (p : gmap pystr ProtectionRecord) (rows : list ChunkProtectionUpdate)
  : res (gmap pystr ProtectionRecord) :=
  match rows with
  | [] => Ok p
  | row :: rows' =>
      let h := up_chunk_hash row in
      match known !! h with
      | None => Err IntegrityError
      | Some _ => upsert_rows upsert known (<[h := upsert row (p !! h)]> p) rows'
      end
  end.

Definition apply_updates (allowed : list ProtectionState)
    (upsert : ChunkProtectionUpdate → option ProtectionRecord → ProtectionRecord)
    (c : Catalog) (updates : list ChunkProtectionUpdate) : res (Z * Catalog) :=
  match updates with
  | [] => Ok (0%Z, c)
  | _ =>
      rows ← mapM_res (update_row allowed) updates;
      p ← upsert_rows upsert (chunks c) (chunk_protection c) rows;
      Ok (Z.of_nat (length updates), with_protection (λ _, p) c)
  end.

Definition apply_chunk_push_updates (c : Catalog) (updates : list ChunkProtectionUpdate) (now : Q)
  : res (Z * Catalog) := apply_updates [PLACED; DEGRADED; FAILED] (push_upsert now) c updates.

Definition apply_chunk_verification_updates (c : Catalog) (updates : list ChunkProtectionUpdate)
    (now : Q) : res (Z * Catalog) :=
  apply_updates [VERIFIED; DEGRADED] (verify_upsert now) c updates.

Definition one_update (h : pystr) (rf : Z) (s : ProtectionState) (copies : Z)
    (epoch : option pystr) (err : option pystr) : list ChunkProtectionUpdate :=
  [{| up_chunk_hash := h; up_desired_rf := rf; up_protection_state := s;
      up_protected_remote_copies := copies; up_placement_epoch := epoch; up_error := err |}].

Definition mark_chunk_placed c h rf copies epoch now : res Catalog :=
  snd <$> apply_chunk_push_updates c (one_update h rf PLACED copies epoch None) now.
Definition mark_chunk_failed c h rf copies epoch err now : res Catalog :=
  snd <$> apply_chunk_push_updates c (one_update h rf FAILED copies epoch (Some err)) now.
Definition mark_chunk_push_degraded c h rf copies epoch err now : res Catalog :=
  snd <$> apply_chunk_push_updates c (one_update h rf DEGRADED copies epoch (Some err)) now.
Definition mark_chunk_verified c h rf copies epoch now : res Catalog :=
  snd <$> apply_chunk_verification_updates c (one_update h rf VERIFIED copies epoch None) now.
Definition mark_chunk_degraded c h rf copies epoch err now : res Catalog :=
  snd <$> apply_chunk_verification_updates c (one_update h rf DEGRADED copies epoch (Some err)) now.

(** ** What the rows say *)

(** A row that counts as protected has as many copies as it asks for. *)
Definition evidence_wf (c : Catalog) : Prop :=
  ∀ h r, chunk_protection c !! h = Some r → is_protected r = true →
    (pr_desired_rf r <= pr_protected_remote_copies r)%Z.

(** Updates that claim protection only with enough copies. *)
Definition honest (up : ChunkProtectionUpdate) : Prop :=
  counts_as_protected (up_protection_state up) = true →
  (up_desired_rf up <= up_protected_remote_copies up)%Z.

Lemma counts_as_protected_elem s : s ∈ [PLACED; VERIFIED] ↔ counts_as_protected s = true.
Proof. destruct s; cbn; set_solver. Qed.

Lemma pending_states_elem s : s ∈ [PENDING; DEGRADED; FAILED] ↔ counts_as_protected s = false.
Proof. destruct s; cbn; set_solver. Qed.

Lemma epoch_differs_false r e : epoch_differs r e = false ↔ pr_placement_epoch r = Some e.
Proof.
  unfold epoch_differs. destruct (pr_placement_epoch r) as [e'|]; [|done].
  rewrite bool_decide_eq_false. split; [intros H; f_equal; by apply dec_stable|naive_solver].
Qed.

Lemma pending_row_false rf epoch r :
  pending_row rf epoch r = false ↔
  is_protected r = true ∧ (rf <= pr_desired_rf r)%Z ∧ (epoch = None ∨ pr_placement_epoch r = epoch).
Proof.
  unfold pending_row, is_protected. rewrite !orb_false_iff, bool_decide_eq_false, pending_states_elem,
    not_false_iff_true, Z.ltb_ge. split.
  - intros [[H1 H2] H3]. split_and!; [done..|]. destruct epoch as [e|]; [|auto]. right.
    rewrite (bool_decide_true _ (proj2 (counts_as_protected_elem _) H1)) in H3. cbn in H3.
    by apply epoch_differs_false.
  - intros (H1 & H2 & H3). split_and!; [done..|]. destruct epoch as [e|]; [|done].
    destruct H3 as [|H3]; [done|]. apply andb_false_iff; right. by apply epoch_differs_false.
Qed.

(** A row is pending exactly when it is not sufficient evidence. *)
Lemma pending_row_insufficient rf epoch r :
  (0 < rf)%Z → (is_protected r = true → (pr_desired_rf r <= pr_protected_remote_copies r)%Z) →
  is_record_sufficient (Some r) rf epoch = Ok (negb (pending_row rf epoch r)).
Proof.
  intros Hrf Hev. destruct (pending_row rf epoch r) eqn:E; cbn [negb].
  - unfold is_record_sufficient, normalize_remote_rf.
    rewrite (proj2 (Z.ltb_ge _ _)) by lia. cbn [mbind res_bind].
    rewrite (proj2 (Z.eqb_neq _ _)) by lia.
    destruct (is_protected r) eqn:Ep; [|done]. cbn [negb].
    destruct (pr_desired_rf r <? rf)%Z eqn:Er; [done|]. bool_hyps.
    destruct epoch as [e|]; [case_bool_decide as He; [done|]|].
    all: apply not_false_iff_true in E; exfalso; apply E, pending_row_false; split_and!; auto.
  - apply pending_row_false in E as (Hp & Hd & He). apply sufficient_spec. split; [lia|].
    right. exists r. specialize (Hev Hp). unfold sufficient. split; [done|].
    split_and!; [|lia|lia|done]. unfold is_protected in Hp. destruct (pr_protection_state r); auto; done.
Qed.

(** ** Selecting rows *)

Lemma omap_keys_fst (p : gmap pystr ProtectionRecord) ks :
  (∀ k, k ∈ ks → is_Some (p !! k)) → (omap (λ h, (h,.) <$> p !! h) ks).*1 = ks.
Proof.
  induction ks as [|k ks IH]; intros H; [done|]. cbn.
  destruct (H k) as [r Hr]; [left|]. rewrite Hr. cbn. f_equal. apply IH. intros; apply H; by right.
Qed.

Lemma elem_of_ordered_rows c h r : (h, r) ∈ ordered_rows c ↔ chunk_protection c !! h = Some r.
Proof.
  unfold ordered_rows. rewrite list_elem_of_omap. split.
  - intros (k & Hk & Hr). destruct (chunk_protection c !! k) eqn:E; simplify_eq/=. done.
  - intros Hr. exists h. rewrite elem_of_py_sorted. rewrite Hr. split; [|done].
    apply list_elem_of_fmap. exists (h, r). split; [done|]. by apply elem_of_map_to_list.
Qed.

Lemma ordered_rows_fst c :
  (ordered_rows c).*1 = py_sorted str_leb (map_to_list (chunk_protection c)).*1.
Proof.
  apply omap_keys_fst. intros k. rewrite elem_of_py_sorted, list_elem_of_fmap.
  intros ([k' r] & -> & Hin). apply elem_of_map_to_list in Hin. by exists r.
Qed.

Lemma ordered_rows_sorted c : StronglySorted (λ a b, str_leb a b = true) (ordered_rows c).*1.
Proof.
  rewrite ordered_rows_fst. apply py_sorted_sorted.
  - intros; apply str_leb_total.
  - intros ???; apply str_leb_trans.
Qed.

Lemma ordered_rows_NoDup c : NoDup (ordered_rows c).*1.
Proof. rewrite ordered_rows_fst, py_sorted_perm. apply NoDup_fst_map_to_list. Qed.

Lemma elem_of_select c w h :
  h ∈ (select_rows c w None).*1 ↔ ∃ r, chunk_protection c !! h = Some r ∧ w h r = true.
Proof.
  unfold select_rows, sql_limit. rewrite list_elem_of_fmap. split.
  - intros ([k r] & -> & Hin). apply list_elem_of_filter in Hin as [Hw Hin].
    exists r. by rewrite <-elem_of_ordered_rows.
  - intros (r & Hr & Hw). exists (h, r). split; [done|]. apply list_elem_of_filter.
    by rewrite elem_of_ordered_rows.
Qed.

Lemma select_sorted c w :
  StronglySorted (λ a b, str_leb a b = true) (select_rows c w None).*1 ∧ NoDup (select_rows c w None).*1.
Proof.
  unfold select_rows, sql_limit. split.
  - assert (StronglySorted (λ a b, str_leb a.1 b.1 = true) (ordered_rows c)) as H.
    { apply (StronglySorted_fmap_inv (λ a b, str_leb a b = true)), ordered_rows_sorted. }
    apply (StronglySorted_filter _ (λ hr, w hr.1 hr.2 = true)) in H.
    induction H as [|x l _ IH Hx]; cbn; constructor; [done|]. by apply Forall_fmap.
  - eapply sublist_NoDup; [apply (ordered_rows_NoDup c)|]. apply sublist_fmap. apply sublist_filter.
Qed.

(** [LIMIT n] returns the first [n] rows of the unlimited query. *)
Lemma select_limit c w n :
  (0 <= n)%Z → select_rows c w (Some n) = take (Z.to_nat n) (select_rows c w None).
Proof. intros. unfold select_rows, sql_limit. by rewrite (proj2 (Z.ltb_ge _ _)). Qed.

(** ** What the writers preserve *)

(** Only protection rows change, and the rows of known chunks stay well formed. *)
Record protection_step (c c' : Catalog) : Prop := {
  ps_rest : with_protection (λ _, chunk_protection c) c' = c;
  ps_rows : protection_wf c → protection_wf c';
  ps_evidence : evidence_wf c → evidence_wf c'
}.

Lemma protection_step_same c p :
  (∀ h r, p !! h = Some r → (∀ k s, chunk_protection c !! k = Some s → pr_chunk_hash s = k) →
     pr_chunk_hash r = h) →
  (∀ h r, p !! h = Some r → is_Some (chunk_protection c !! h)
     ∨ is_Some (chunks c !! h) ∧ is_valid_blake3_hex h = true) →
  (∀ h, is_Some (chunk_protection c !! h) → is_Some (p !! h)) →
  (evidence_wf c → evidence_wf (with_protection (λ _, p) c)) →
  protection_step c (with_protection (λ _, p) c).
Proof.
  intros Hk Hfk Hold Hev. split; [by destruct c| |done]. intros [w1 w2 wv w3]. split; cbn.
  - intros h r Hr. by apply (Hk h r Hr).
  - intros h r Hr. destruct (Hfk _ _ Hr) as [[r' Hr']|[? _]]; [by eapply w2|done].
  - intros h r Hr. destruct (Hfk _ _ Hr) as [[r' Hr']|[_ ?]]; [by eapply wv|done].
  - intros id rows rc Hrows Hin. apply Hold. by eapply w3.
Qed.

Lemma stale_row_cases rf epoch r :
  mark_stale_row rf epoch r = r ∨ ∃ err, mark_stale_row rf epoch r = with_row_state DEGRADED err r.
Proof.
  unfold mark_stale_row, stale_rf, stale_epoch.
  destruct (_ && bool_decide _); destruct epoch as [e|]; [|by eauto| |by auto].
  all: match goal with |- context [if ?b then _ else _] => destruct b end; eauto.
  all: match goal with |- context [if ?b then _ else _] => destruct b end; eauto.
Qed.

Lemma mark_stale_lookup c rf epoch h :
  chunk_protection (mark_stale_protection c rf epoch) !! h
  = mark_stale_row rf epoch <$> chunk_protection c !! h.
Proof. cbn. apply lookup_fmap. Qed.

Lemma mark_stale_step c rf epoch : protection_step c (mark_stale_protection c rf epoch).
Proof.
  apply (protection_step_same c (mark_stale_row rf epoch <$> chunk_protection c)).
  - intros h r. rewrite lookup_fmap. destruct (chunk_protection c !! h) as [s|] eqn:E; [|done].
    intros [= <-] Hk. destruct (stale_row_cases rf epoch s) as [->|[err ->]]; cbn; eauto.
  - intros h r. rewrite lookup_fmap. destruct (chunk_protection c !! h); [eauto|done].
  - intros h. by rewrite lookup_fmap, fmap_is_Some.
  - intros Hev h r. cbn. rewrite lookup_fmap. destruct (chunk_protection c !! h) as [s|] eqn:E; [|done].
    intros [= <-]. destruct (stale_row_cases rf epoch s) as [->|[err ->]]; eauto. done.
Qed.

(** [executemany] either fails or writes, for every chunk, its last update. *)
Fixpoint last_update (h : pystr) (rows : list ChunkProtectionUpdate)
    (acc : option ChunkProtectionUpdate) : option ChunkProtectionUpdate :=
  match rows with
  | [] => acc
  | row :: rows' =>
      last_update h rows' (if bool_decide (up_chunk_hash row = h) then Some row else acc)
  end.

Section upserts.
Context (upsert : ChunkProtectionUpdate → option ProtectionRecord → ProtectionRecord).
Context (known : gmap pystr Z).

Lemma upsert_rows_ok p rows :
  is_ok (upsert_rows upsert known p rows) = true
  ↔ Forall (λ row, is_Some (known !! up_chunk_hash row)) rows.
Proof.
  revert p. induction rows as [|row rows IH]; intros p; cbn; [split; [constructor|done]|].
  rewrite Forall_cons. destruct (known !! up_chunk_hash row); [rewrite IH; split; [split; eauto|tauto]|].
  split; [done|]. intros [[? ?] _]. done.
Qed.

Lemma upsert_rows_inv (Q : pystr → ProtectionRecord → Prop) p rows p' :
  upsert_rows upsert known p rows = Ok p' →
  (∀ h r, p !! h = Some r → Q h r) →
  (∀ row old, row ∈ rows → (∀ r, old = Some r → Q (up_chunk_hash row) r) →
     is_Some (known !! up_chunk_hash row) → Q (up_chunk_hash row) (upsert row old)) →
  (∀ h r, p' !! h = Some r → Q h r) ∧ (∀ h, is_Some (p !! h) → is_Some (p' !! h)).
Proof.
  revert p. induction rows as [|row rows IH]; intros p H Hp Hrow; cbn in H; [by simplify_eq|].
  destruct (known !! up_chunk_hash row) as [v|] eqn:Ek; [|done].
  apply IH in H as [H1 H2].
  - split; [done|]. intros h Hh. apply H2. rewrite lookup_insert. case_decide; [done|eauto].
  - intros h r. rewrite lookup_insert. case_decide; [|apply Hp].
    intros; simplify_eq. apply Hrow; [left|eauto|eauto].
  - intros row' old Hin. apply Hrow. by right.
Qed.
End upserts.

Lemma update_row_Ok allowed up row :
  update_row allowed up = Ok row ↔
  up_protection_state up ∈ allowed ∧ is_valid_blake3_hex (strip (up_chunk_hash up)) = true
  ∧ (0 <= up_desired_rf up)%Z ∧ (0 <= up_protected_remote_copies up)%Z
  ∧ row = {| up_chunk_hash := strip (up_chunk_hash up); up_desired_rf := up_desired_rf up;
             up_protection_state := up_protection_state up;
             up_protected_remote_copies := up_protected_remote_copies up;
             up_placement_epoch := up_placement_epoch up; up_error := up_error up |}.
Proof.
  unfold update_row, require_hash64, valid_recipe_hash, require_non_negative_int.
  case_bool_decide; [|naive_solver].
  destruct (is_valid_blake3_hex _); cbn [mbind res_bind]; [|naive_solver].
  destruct (up_desired_rf up <? 0)%Z eqn:E1; bool_hyps; cbn [mbind res_bind]; [naive_solver lia|].
  destruct (up_protected_remote_copies up <? 0)%Z eqn:E2; bool_hyps; cbn [mbind res_bind]; naive_solver lia.
Qed.

Lemma apply_updates_step allowed upsert c updates n c' :
  (∀ row old, pr_chunk_hash (upsert row old) = up_chunk_hash row
     ∧ pr_desired_rf (upsert row old) = up_desired_rf row
     ∧ pr_protection_state (upsert row old) = up_protection_state row
     ∧ pr_protected_remote_copies (upsert row old) = up_protected_remote_copies row) →
  apply_updates allowed upsert c updates = Ok (n, c') → Forall honest updates →
  protection_step c c'.
Proof.
  intros Hup H Hhon. destruct updates as [|u0 us]; unfold apply_updates in H.
  { simplify_eq. split; [by destruct c'|done|done]. }
  apply bind_Ok in H as (rows & Hrows & H). apply bind_Ok in H as (p & Hp & H). injection H as <- <-.
  apply mapM_res_Ok in Hrows.
  assert (Forall (λ row, is_valid_blake3_hex (up_chunk_hash row) = true) rows) as Hval.
  { clear -Hrows. induction Hrows as [|x y l k Hxy _ IH]; [constructor|]. constructor; [|done].
    by apply update_row_Ok in Hxy as (_ & ? & _ & _ & ->). }
  assert (Forall honest rows) as Hhon'.
  { clear Hp Hval. revert Hhon. generalize dependent (u0 :: us). intros l Hl. induction Hl as [|x y l k Hxy _ IH].
    - constructor.
    - intros [Hx Hl']%Forall_cons. constructor; [|auto].
      apply update_row_Ok in Hxy as (_ & _ & _ & _ & ->). done. }
  apply protection_step_same.
  - intros h r Hr Hk. destruct (upsert_rows_inv upsert (chunks c) (λ h r, pr_chunk_hash r = h) _ _ _ Hp)
      as [Hq _]; [done| |by apply Hq]. intros row old _ _ _. apply Hup.
  - intros h r Hr. destruct (upsert_rows_inv upsert (chunks c)
      (λ h _, is_Some (chunk_protection c !! h)
         ∨ is_Some (chunks c !! h) ∧ is_valid_blake3_hex h = true) _ _ _ Hp) as [Hq _];
      [eauto| |by eapply Hq].
    intros row old Hin _ Hk'. right. split; [done|]. rewrite Forall_forall in Hval. by apply Hval.
  - intros h. by apply (upsert_rows_inv upsert (chunks c) (λ _ _, True) _ _ _ Hp).
  - intros Hev h r Hr. destruct (upsert_rows_inv upsert (chunks c)
      (λ _ r, is_protected r = true → (pr_desired_rf r <= pr_protected_remote_copies r)%Z) _ _ _ Hp)
      as [Hq _]; [done| |by eapply Hq].
    intros row old Hin _ _. destruct (Hup row old) as (_ & E1 & E2 & E3). unfold is_protected.
    rewrite E1, E2, E3. rewrite Forall_forall in Hhon'. by apply Hhon'.
Qed.

Lemma push_updates_step c updates now n c' :
  apply_chunk_push_updates c updates now = Ok (n, c') → Forall honest updates → protection_step c c'.
Proof. apply apply_updates_step. done. Qed.

Lemma verification_updates_step c updates now n c' :
  apply_chunk_verification_updates c updates now = Ok (n, c') → Forall honest updates →
  protection_step c c'.
Proof. apply apply_updates_step. done. Qed.

Section upsert_lookup.
Context (upsert : ChunkProtectionUpdate → option ProtectionRecord → ProtectionRecord).
Context (upsert_again : ∀ row row' old, upsert row (Some (upsert row' old)) = upsert row old).

Definition updated (h : pystr) (last : option ChunkProtectionUpdate) (old : option ProtectionRecord)
  : option ProtectionRecord :=
  match last with Some row => Some (upsert row old) | None => old end.

Lemma updated_last h rows last old :
  updated h (last_update h rows None) (updated h last old) = updated h (last_update h rows last) old.
Proof.
  destruct last as [row|]; [|done]. cbn. revert row.
  assert (∀ acc row, updated h (last_update h rows acc) (Some (upsert row old))
    = updated h (last_update h rows (Some (default row acc))) old) as H; [|intros; apply (H None)].
  induction rows as [|r rows IH]; intros acc row; cbn.
  - destruct acc; cbn; [by rewrite upsert_again|done].
  - case_bool_decide; cbn; [|apply IH]. rewrite IH. done.
Qed.

Lemma upsert_rows_lookup known p rows p' h :
  upsert_rows upsert known p rows = Ok p' → p' !! h = updated h (last_update h rows None) (p !! h).
Proof.
  revert p. induction rows as [|row rows IH]; intros p H; cbn in H; [by simplify_eq|].
  destruct (known !! up_chunk_hash row); [|done]. rewrite (IH _ H). cbn [last_update].
  rewrite <-(updated_last h rows _ (p !! h)). f_equal. rewrite lookup_insert.
  case_decide; [subst|]; [by rewrite bool_decide_true|by rewrite bool_decide_false].
Qed.
End upsert_lookup.

(** A normalised update: the text of its hash stripped. *)
Definition normalized (up : ChunkProtectionUpdate) : ChunkProtectionUpdate := {|
  up_chunk_hash := strip (up_chunk_hash up); up_desired_rf := up_desired_rf up;
  up_protection_state := up_protection_state up;
  up_protected_remote_copies := up_protected_remote_copies up;
  up_placement_epoch := up_placement_epoch up; up_error := up_error up |}.

Definition valid_update (c : Catalog) (allowed : list ProtectionState) (up : ChunkProtectionUpdate)
  : Prop :=
  up_protection_state up ∈ allowed ∧ is_valid_blake3_hex (strip (up_chunk_hash up)) = true
  ∧ (0 <= up_desired_rf up)%Z ∧ (0 <= up_protected_remote_copies up)%Z
  ∧ is_Some (chunks c !! strip (up_chunk_hash up)).

Lemma update_rows_Ok allowed updates rows :
  mapM_res (update_row allowed) updates = Ok rows → rows = normalized <$> updates.
Proof.
  rewrite mapM_res_Ok. induction 1 as [|up row ups rows Hup _ IH]; [done|].
  apply update_row_Ok in Hup as (_ & _ & _ & _ & ->). cbn. by f_equal.
Qed.

Lemma mapM_res_is_ok {A B} (f : A → res B) l :
  is_ok (mapM_res f l) = true ↔ Forall (λ x, is_ok (f x) = true) l.
Proof.
  induction l as [|x l IH]; cbn; [split; [constructor|done]|]. rewrite Forall_cons, <-IH.
  destruct (f x); cbn; [|split; [done|tauto]]. destruct (mapM_res f l); cbn; tauto.
Qed.

Lemma apply_updates_is_ok allowed upsert c updates :
  is_ok (apply_updates allowed upsert c updates) = true ↔ Forall (valid_update c allowed) updates.
Proof.
  destruct updates as [|u0 us]; [split; [constructor|done]|]. unfold apply_updates.
  generalize (u0 :: us) as ups. intros ups.
  assert (is_ok (mapM_res (update_row allowed) ups) = true ↔
    Forall (λ up, up_protection_state up ∈ allowed ∧ is_valid_blake3_hex (strip (up_chunk_hash up)) = true
      ∧ (0 <= up_desired_rf up)%Z ∧ (0 <= up_protected_remote_copies up)%Z) ups) as Hm.
  { rewrite mapM_res_is_ok. apply Forall_iff. intros up. pose proof (update_row_Ok allowed up) as H.
    destruct (update_row allowed up) as [row|e]; cbn.
    - destruct (proj1 (H row) eq_refl) as (? & ? & ? & ? & _). tauto.
    - split; [done|]. intros (H1 & H2 & H3 & H4). specialize (H (normalized up)).
      destruct H as [_ H]. discriminate H. split_and!; done. }
  destruct (mapM_res _ ups) as [rows|e] eqn:E; cbn in Hm |- *.
  - pose proof (update_rows_Ok _ _ _ E) as ->.
    destruct (upsert_rows _ _ _ _) as [p|] eqn:Eu; cbn.
    + assert (is_ok (upsert_rows upsert (chunks c) (chunk_protection c) (normalized <$> ups)) = true)
        as Hok by by rewrite Eu.
      apply upsert_rows_ok in Hok. rewrite Forall_fmap in Hok. split; [|done]. intros _.
      pose proof (proj1 Hm eq_refl) as Hv. rewrite !Forall_forall in *. intros up Hin.
      specialize (Hok up Hin). destruct (Hv up Hin) as (? & ? & ? & ?). split_and!; done.
    + split; [done|]. intros Hv. exfalso.
      assert (is_ok (upsert_rows upsert (chunks c) (chunk_protection c) (normalized <$> ups)) = true) as Hok;
        [|by rewrite Eu in Hok].
      apply upsert_rows_ok. rewrite Forall_fmap. eapply Forall_impl; [exact Hv|]. by intros up (_ & _ & _ & _ & ?).
  - split; [done|]. intros Hv. apply Hm. eapply Forall_impl; [exact Hv|]. by intros up (? & ? & ? & ? & _).
Qed.

Lemma apply_updates_result allowed upsert c updates n c' :
  (∀ row row' old, upsert row (Some (upsert row' old)) = upsert row old) →
  apply_updates allowed upsert c updates = Ok (n, c') →
  n = Z.of_nat (length updates) ∧ with_protection (λ _, chunk_protection c) c' = c
  ∧ ∀ h, chunk_protection c' !! h
         = updated upsert h (last_update h (normalized <$> updates) None) (chunk_protection c !! h).
Proof.
  intros Hup H. destruct updates as [|u0 us]; unfold apply_updates in H.
  { simplify_eq. by destruct c'. }
  apply bind_Ok in H as (rows & Hrows & H). apply bind_Ok in H as (p & Hp & H). injection H as <- <-.
  apply update_rows_Ok in Hrows. subst rows. split_and!; [done|by destruct c|].
  intros h. by apply (upsert_rows_lookup upsert Hup (chunks c)).
Qed.

(** Marking rows stale never makes a row pending or not pending. *)
Lemma mark_stale_pending rf epoch r :
  pending_row rf epoch (mark_stale_row rf epoch r) = pending_row rf epoch r.
Proof.
  destruct (stale_row_cases rf epoch r) as [->|[err E]]; [done|]. rewrite E.
  destruct (pending_row rf epoch r) eqn:Ep; [done|]. exfalso.
  apply pending_row_false in Ep as (Hp & Hd & He). apply (f_equal pr_protection_state) in E.
  unfold is_protected in Hp.
  assert (mark_stale_row rf epoch r = r) as Hs; [|rewrite Hs in E; cbn in E; by rewrite E in Hp].
  unfold mark_stale_row, stale_rf. rewrite (proj2 (Z.ltb_ge _ _)) by done. cbn [andb].
  destruct epoch as [e|]; [|done]. unfold stale_epoch. destruct He as [|He]; [done|].
  rewrite (proj2 (epoch_differs_false _ _) He). by rewrite andb_false_r.
Qed.

Lemma mark_stale_protected rf epoch r :
  is_protected (mark_stale_row rf epoch r) = true → pending_row rf epoch r = false.
Proof.
  intros Hp. rewrite <-mark_stale_pending. apply pending_row_false. split; [done|].
  destruct (stale_row_cases rf epoch r) as [E|[err E]]; [|by rewrite E in Hp]. rewrite E in *.
  unfold mark_stale_row, stale_rf in E. apply counts_as_protected_elem in Hp as Hs.
  destruct (pr_desired_rf r <? rf)%Z eqn:Er; bool_hyps.
  - rewrite (bool_decide_true _ Hs) in E. cbn in E. exfalso.
    apply (f_equal is_protected) in E. rewrite Hp in E.
    destruct epoch; cbn in E; [|done]. unfold stale_epoch in E. by destruct (_ && _).
  - split; [done|]. cbn [andb] in E. destruct epoch as [e|]; [|by left]. right.
    unfold stale_epoch in E. rewrite (bool_decide_true _ Hs) in E. cbn in E.
    apply epoch_differs_false. destruct (epoch_differs r e); [|done].
    apply (f_equal is_protected) in E. by rewrite Hp in E.
Qed.

Lemma ordered_rows_fmap c f :
  (∀ r, pr_chunk_hash (f r) = pr_chunk_hash r) →
  ordered_rows (with_protection (fmap f) c) = prod_map id f <$> ordered_rows c.
Proof.
  intros _. unfold ordered_rows. cbn [with_protection chunk_protection].
  assert ((map_to_list (f <$> chunk_protection c)).*1 ≡ₚ (map_to_list (chunk_protection c)).*1) as HP.
  { rewrite map_to_list_fmap, <-list_fmap_compose.
    rewrite (list_fmap_ext (fst ∘ prod_map id f) fst) by done. done. }
  rewrite (py_sorted_Permutation str_leb) with (k := (map_to_list (chunk_protection c)).*1); [|..|exact HP].
  - induction (py_sorted _ _) as [|h hs IH]; [done|]. cbn. rewrite lookup_fmap.
    destruct (chunk_protection c !! h); cbn; [f_equal|]; exact IH.
  - intros; apply str_leb_total.
  - intros ???; apply str_leb_trans.
  - intros ??; apply str_leb_antisym.
Qed.

Lemma select_mark_stale c rf epoch limit :
  get_pending_protection_chunks (mark_stale_protection c rf epoch) rf epoch limit
  = get_pending_protection_chunks c rf epoch limit.
Proof.
  unfold get_pending_protection_chunks, select_rows, mark_stale_protection.
  rewrite ordered_rows_fmap
    by (intros r; destruct (stale_row_cases rf epoch r) as [->|[? ->]]; done).
  assert (∀ l : list (pystr * ProtectionRecord),
    (filter (λ hr, pending_row rf epoch hr.2 = true) (prod_map id (mark_stale_row rf epoch) <$> l)).*1
    = (filter (λ hr, pending_row rf epoch hr.2 = true) l).*1) as H.
  { induction l as [|[h r] l IH]; [done|]. rewrite fmap_cons, !filter_cons. cbn [prod_map snd].
    rewrite mark_stale_pending. case_decide; cbn; [f_equal|]; exact IH. }
  destruct limit as [n|]; cbn [sql_limit]; [|apply H].
  destruct (n <? 0)%Z; [apply H|]. by rewrite !fmap_take, H.
Qed.

(** ** Properties *)

(** the query for pending chunks and the in-memory rule agree: in a table whose
    evidence is honest, the pending chunks for [rf > 0] copies in a placement epoch are
    exactly the chunks whose row does not count as protection there; they come without
    repetition in hash order, and a limit keeps a prefix. *)
Theorem pending_iff_insufficient c rf epoch :
  (0 < rf)%Z → evidence_wf c →
  (∀ h, h ∈ get_pending_protection_chunks c rf epoch None ↔
     is_Some (get_chunk_protection c h) ∧ is_chunk_remotely_protected c h rf epoch = Ok false)
  ∧ StronglySorted (λ a b, str_leb a b = true) (get_pending_protection_chunks c rf epoch None)
  ∧ NoDup (get_pending_protection_chunks c rf epoch None)
  ∧ ∀ n, (0 <= n)%Z → get_pending_protection_chunks c rf epoch (Some n)
         = take (Z.to_nat n) (get_pending_protection_chunks c rf epoch None).
Proof.
  intros Hrf Hev. unfold get_pending_protection_chunks. split; [|split_and!; try apply select_sorted].
  - intros h. rewrite elem_of_select. unfold is_chunk_remotely_protected, get_chunk_protection. split.
    + intros (r & Hr & Hp). rewrite Hr. split; [by eexists|].
      rewrite pending_row_insufficient by eauto. by rewrite Hp.
    + intros [[r Hr] Hp]. exists r. split; [done|]. rewrite Hr, pending_row_insufficient in Hp by eauto.
      by destruct (pending_row rf epoch r).
  - intros n Hn. by rewrite select_limit, fmap_take.
Qed.

Definition example_row (h : pystr) (s : ProtectionState) (copies : Z) : ProtectionRecord := {|
  pr_chunk_hash := h; pr_desired_rf := 2; pr_protection_state := s;
  pr_protected_remote_copies := copies; pr_placement_epoch := Some (u "e1");
  pr_last_push_at := None; pr_last_verify_at := None; pr_last_error := None |}.

Definition example_table : Catalog :=
  with_chunks (λ _, <[example_hash 97 := 10%Z]> (<[example_hash 98 := 5%Z]> ∅))
  (with_protection (λ _, <[example_hash 97 := example_row (example_hash 97) PLACED 2]>
                           (<[example_hash 98 := example_row (example_hash 98) DEGRADED 1]> ∅))
   empty_catalog).

Lemma example_evidence : evidence_wf example_table.
Proof.
  intros h r. unfold example_table. cbn [with_chunks with_protection chunk_protection].
  rewrite !lookup_insert. repeat case_decide; intros; simplify_eq; done.
Qed.

Lemma pending_iff_insufficient_witness :
  example_hash 98 ∈ get_pending_protection_chunks example_table 2 (Some (u "e1")) None.
Proof.
  apply (pending_iff_insufficient example_table 2 (Some (u "e1"))); [lia|apply example_evidence|].
  split; [eexists|]; by vm_compute.
Defined.

(** marking stale rows before a push changes no pending chunk, and afterwards every
    row that still counts as protected is sufficient for the copies and the placement
    epoch asked for. *)
Theorem mark_stale_correct c rf epoch :
  (0 < rf)%Z → evidence_wf c →
  (∀ limit, get_pending_protection_chunks (mark_stale_protection c rf epoch) rf epoch limit
            = get_pending_protection_chunks c rf epoch limit)
  ∧ ∀ h r, get_chunk_protection (mark_stale_protection c rf epoch) h = Some r →
      is_protected r = true → is_record_sufficient (Some r) rf epoch = Ok true.
Proof.
  intros Hrf Hev. split; [apply select_mark_stale|].
  intros h r Hr Hp. unfold get_chunk_protection in Hr.
  assert (evidence_wf (mark_stale_protection c rf epoch)) as Hev' by by apply (ps_evidence _ _ (mark_stale_step c rf epoch)).
  rewrite pending_row_insufficient by eauto. rewrite mark_stale_lookup in Hr.
  destruct (chunk_protection c !! h) as [s|]; [|done]. injection Hr as <-.
  apply mark_stale_protected in Hp. by rewrite mark_stale_pending, Hp.
Qed.

Lemma mark_stale_correct_witness :
  get_pending_protection_chunks (mark_stale_protection example_table 2 (Some (u "e2"))) 2 (Some (u "e2")) None
  = [example_hash 97; example_hash 98].
Proof.
  rewrite (proj1 (mark_stale_correct example_table 2 (Some (u "e2")) ltac:(lia) example_evidence)).
  by vm_compute.
Defined.

(** a batch of push results is stored completely or not at all: it is accepted
    exactly when every update has an allowed state, a valid hash, non-negative numbers
    and a registered chunk; then each chunk carries its last update, with the time of
    the push and without the previous verification time, and nothing else changes. *)
Theorem push_updates_all_or_nothing c updates now :
  (is_ok (apply_chunk_push_updates c updates now) = true ↔
     Forall (valid_update c [PLACED; DEGRADED; FAILED]) updates)
  ∧ ∀ n c', apply_chunk_push_updates c updates now = Ok (n, c') →
      n = Z.of_nat (length updates) ∧ with_protection (λ _, chunk_protection c) c' = c
      ∧ ∀ h, get_chunk_protection c' h
             = match last_update h (normalized <$> updates) None with
               | Some row => Some (push_upsert now row None)
               | None => get_chunk_protection c h
               end.
Proof.
  split; [apply apply_updates_is_ok|]. intros n c' H.
  destruct (apply_updates_result _ (push_upsert now) _ _ _ _ ltac:(done) H) as (Hn & Hc & Hl).
  split_and!; [done..|]. intros h. apply Hl.
Qed.

(** A batch of verification results behaves the same way, and keeps the time of the
    last push of every chunk it updates. *)
Theorem verification_updates_all_or_nothing c updates now :
  (is_ok (apply_chunk_verification_updates c updates now) = true ↔
     Forall (valid_update c [VERIFIED; DEGRADED]) updates)
  ∧ ∀ n c', apply_chunk_verification_updates c updates now = Ok (n, c') →
      n = Z.of_nat (length updates) ∧ with_protection (λ _, chunk_protection c) c' = c
      ∧ ∀ h r, get_chunk_protection c h = Some r →
          ∃ r', get_chunk_protection c' h = Some r' ∧ pr_last_push_at r' = pr_last_push_at r
          ∧ (last_update h (normalized <$> updates) None = None → r' = r).
Proof.
  split; [apply apply_updates_is_ok|]. intros n c' H.
  destruct (apply_updates_result _ (verify_upsert now) _ _ _ _ ltac:(done) H) as (Hn & Hc & Hl).
  split_and!; [done..|]. intros h r Hr. unfold get_chunk_protection in *. rewrite Hl, Hr.
  destruct (last_update _ _ _) as [row|]; cbn; eexists; split_and!; done.
Qed.
