(* ===== verification/Snapshots.v ===== *)
(** * The life of a snapshot in the catalogue

    Reachable catalogues: the step relation [cstep] has one constructor per operation
    of [metadata/database.py] that writes the backup tables, called the way the
    backup service calls it (items and recipes only of snapshots in CREATING). The
    invariant [catalog_wf] holds in every reachable catalogue, finished snapshots are
    frozen, and the hash sets the garbage collectors use are nested. *)

From S2P Require Import Prelude PyStr Common Protection Catalog ProtectionTable.

(** ** Reusing the recipes of a previous snapshot *)

(** [executemany("UPDATE snapshot_items SET recipe_id = ? WHERE id = ?")]: the number
    of updated rows and the new tables. *)
Fixpoint update_item_recipes (c : Catalog) (assignments : list (Z * Z)) : res (Z * Catalog) :=
  match assignments with
  | [] => Ok (0%Z, c)
  | (item_id, recipe_id) :: rest =>
      match snapshot_items c !! item_id, recipes c !! recipe_id with
      | None, _ => update_item_recipes c rest
      | Some _, None => Err IntegrityError
      | Some _, Some _ =>
          c1 ← set_item_recipe c item_id recipe_id;
          '(n, c2) ← update_item_recipes c1 rest;
          Ok ((n + 1)%Z, c2)
      end
  end.

Definition reuse_item_recipes (c : Catalog) (assignments : list (Z * Z)) (desired_rf : Z)
  : res Catalog :=
  match assignments with
  | [] => Ok c
  | _ =>
      '(n, c1) ← update_item_recipes c assignments;
      if (n =? Z.of_nat (length assignments))%Z
      then Ok (fold_left (λ c recipe_id, ensure_recipe_protection c recipe_id desired_rf)
                 (ordered_unique assignments.*2) c1)
      else Err MetadataDatabaseError
  end.

Definition reuse_item_recipe (c : Catalog) (item_id recipe_id desired_rf : Z) : res Catalog :=
  reuse_item_recipes c [(item_id, recipe_id)] desired_rf.

(** ** Invariant *)

Record snapshots_wf (c : Catalog) : Prop := {
  swf_snapshot_ids id row : snapshots c !! id = Some row → (id < next_snapshot_id c)%Z;
  swf_item_ids id it : snapshot_items c !! id = Some it → (id < next_item_id c)%Z;
  swf_item_snapshot id it :
    snapshot_items c !! id = Some it → is_Some (snapshots c !! it_snapshot_id it);
  swf_item_recipe id it r :
    snapshot_items c !! id = Some it → it_recipe_id it = Some r → is_Some (recipes c !! r);
  swf_item_unique i j a b :
    snapshot_items c !! i = Some a → snapshot_items c !! j = Some b →
    it_snapshot_id a = it_snapshot_id b → it_path a = it_path b → i = j;
  swf_complete sid row id it :
    snapshots c !! sid = Some row → sn_status row = COMPLETE →
    snapshot_items c !! id = Some it → it_snapshot_id it = sid → it_type it = ItemFile →
    is_Some (it_recipe_id it)
}.

Record catalog_wf (c : Catalog) : Prop := {
  cwf_recipes : recipes_wf c;
  cwf_protection : protection_wf c;
  cwf_evidence : evidence_wf c;
  cwf_snapshots : snapshots_wf c
}.

(** What every step leaves in place: finished snapshots with their items, recipes with
    their chunks, and registered chunks. *)
Record keeps (c c' : Catalog) : Prop := {
  keeps_snapshots sid row :
    snapshots c !! sid = Some row → sn_status row ≠ CREATING → snapshots c' !! sid = Some row;
  keeps_items sid row id it :
    snapshots c !! sid = Some row → sn_status row ≠ CREATING → it_snapshot_id it = sid →
    snapshot_items c' !! id = Some it ↔ snapshot_items c !! id = Some it;
  keeps_recipes rid row :
    recipes c !! rid = Some row →
    recipes c' !! rid = Some row
    ∧ default [] (recipe_chunks c' !! rid) = default [] (recipe_chunks c !! rid);
  keeps_chunks h s : chunks c !! h = Some s → chunks c' !! h = Some s
}.

#[export] Instance keeps_preorder : PreOrder keeps.
Proof.
  split.
  - intros c. by split.
  - intros a b c Hab Hbc. split.
    + intros. eapply keeps_snapshots; [done| |done]. by eapply keeps_snapshots.
    + intros sid row id it Hs Hc Hit.
      rewrite (keeps_items b c Hbc sid row); [|by eapply keeps_snapshots|done|done].
      by eapply keeps_items.
    + intros rid row H. destruct (keeps_recipes a b Hab rid row H) as [H1 H2].
      destruct (keeps_recipes b c Hbc rid row H1) as [H3 H4]. split; congruence.
    + intros. eapply keeps_chunks; [done|]. by eapply keeps_chunks.
Qed.

(** Tables that only describe recipes and protection are untouched. *)
Definition same_recipes (c c' : Catalog) : Prop :=
  recipes c' = recipes c ∧ chunks c' = chunks c ∧ recipe_chunks c' = recipe_chunks c
  ∧ chunk_protection c' = chunk_protection c ∧ next_recipe_id c' = next_recipe_id c.

Lemma same_recipes_wf c c' :
  same_recipes c c' → recipes_wf c → protection_wf c → recipes_wf c' ∧ protection_wf c'.
Proof.
  intros (E1 & E2 & E3 & E4 & E5) [a1 a2 a3 a4] [b1 b2 bv b3].
  split; split; rewrite ?E1, ?E2, ?E3, ?E4, ?E5; eauto.
  intros id rows Hr. destruct (a3 _ _ Hr) as (? & ? & ? & ?). split; [done|].
  unfold recipe_consistent. rewrite E1, E2. eauto.
Qed.

(** Steps that only write snapshot and item rows. *)
Lemma items_step_wf c c' :
  same_recipes c c' → catalog_wf c → snapshots_wf c' →
  (∀ sid row, snapshots c !! sid = Some row → sn_status row ≠ CREATING →
     snapshots c' !! sid = Some row) →
  (∀ sid row id it, snapshots c !! sid = Some row → sn_status row ≠ CREATING →
     it_snapshot_id it = sid →
     snapshot_items c' !! id = Some it ↔ snapshot_items c !! id = Some it) →
  catalog_wf c' ∧ keeps c c'.
Proof.
  intros Hs [Hr Hp He _] Hsw K1 K2. destruct (same_recipes_wf _ _ Hs Hr Hp).
  destruct Hs as (E1 & E2 & E3 & E4 & E5).
  split; split; rewrite ?E1, ?E2, ?E3; auto. unfold evidence_wf. by rewrite E4.
Qed.

Lemma conj_pair (A B C : Prop) : A ∧ B → C → A ∧ B ∧ C.
Proof. tauto. Qed.

(** ** Every operation preserves the invariant and keeps what is finished *)

Lemma create_snapshot_ok c uuid root origin id c' :
  catalog_wf c → create_snapshot c uuid root origin = Ok (id, c') →
  catalog_wf c' ∧ keeps c c'.
Proof.
  intros Hwf. unfold create_snapshot. case_bool_decide; [done|].
  destruct (existsb _ _); [done|]. intros [= <- <-]. destruct (cwf_snapshots c Hwf) as [w1 w2 w3 w4 w5 w6].
  assert (∀ sid row, snapshots c !! sid = Some row → sid ≠ next_snapshot_id c) as Hne.
  { intros sid row Hs ->. apply w1 in Hs. lia. }
  apply items_step_wf; [done|done| |cbn|done].
  - split; cbn; eauto.
    + intros i row. rewrite lookup_insert. case_decide; [lia|]. intros Hi. apply w1 in Hi. lia.
    + intros i it Hi. rewrite lookup_insert. case_decide; [done|]. eauto.
    + intros sid row i it. rewrite lookup_insert. case_decide; [by intros [= <-]|]. eauto.
  - intros sid row Hs _. rewrite lookup_insert_ne; [done|]. apply not_eq_sym. eauto.
Qed.

(** Replacing a CREATING row by another one of the same snapshot. *)
Lemma update_snapshot_ok c sid row row' :
  catalog_wf c → snapshots c !! sid = Some row → sn_status row = CREATING →
  (sn_status row' = COMPLETE → incomplete_files c sid = []) →
  let c' := with_snapshots (<[sid := row']>) c in catalog_wf c' ∧ keeps c c'.
Proof.
  intros Hwf Hrow Hcr Hinc. destruct (cwf_snapshots c Hwf) as [w1 w2 w3 w4 w5 w6].
  apply items_step_wf; [done|done| |cbn|done].
  - split; cbn; eauto.
    + intros i r. rewrite lookup_insert. case_decide; subst; eauto.
    + intros i it Hi. rewrite lookup_insert. case_decide; [done|]. eauto.
    + intros s r i it. rewrite lookup_insert. case_decide; [|eauto]. intros [= <-] Hst Hi Hs Hf.
      destruct (it_recipe_id it) eqn:E; [done|]. exfalso.
      assert ((i, it) ∈ incomplete_files c sid) as Hin; [|rewrite (Hinc Hst) in Hin; by inversion Hin].
      apply list_elem_of_filter. cbn. split; [split_and!; congruence|]. by apply elem_of_map_to_list.
  - intros s r Hs Hst. rewrite lookup_insert_ne; [done|]. intros <-. congruence.
Qed.

Lemma finish_snapshot_ok c sid size files c' :
  catalog_wf c → finish_snapshot c sid size files = Ok c' → catalog_wf c' ∧ keeps c c'.
Proof.
  intros Hwf. unfold finish_snapshot. destruct (snapshots c !! sid) as [row|] eqn:E; [|done].
  case_bool_decide as Hst; [done|]. destruct (incomplete_files c sid) eqn:Ei; [|done].
  intros [= <-]. eapply update_snapshot_ok; eauto.
Qed.

Lemma fail_snapshot_ok c sid err c' :
  catalog_wf c → fail_snapshot c sid err = Ok c' → catalog_wf c' ∧ keeps c c'.
Proof.
  intros Hwf. unfold fail_snapshot. destruct (snapshots c !! sid) as [row|] eqn:E; [|done].
  destruct (sn_status row) eqn:Es; [|done|].
  - intros [= <-]. by eapply update_snapshot_ok.
  - intros [= <-]. split; [done|]. reflexivity.
Qed.

Definition creating (c : Catalog) (sid : Z) : Prop :=
  ∃ row, snapshots c !! sid = Some row ∧ sn_status row = CREATING.

Lemma add_item_ok c sid path st kind id c' :
  catalog_wf c → creating c sid → add_item c sid path st kind = Ok (id, c') →
  catalog_wf c' ∧ keeps c c' ∧ snapshots c' = snapshots c.
Proof.
  intros Hwf (row & Hrow & Hcr). unfold add_item. rewrite Hrow.
  destruct (existsb _ _) eqn:Ex; [done|]. intros [= <- <-].
  destruct (cwf_snapshots c Hwf) as [w1 w2 w3 w4 w5 w6].
  assert (∀ j b, snapshot_items c !! j = Some b → ¬ (it_snapshot_id b = sid ∧ it_path b = path)) as Hfresh.
  { intros j b Hj Hb. rewrite <-not_true_iff_false, existsb_exists in Ex. apply Ex.
    exists (j, b). split; [by apply list_elem_of_In, elem_of_map_to_list|]. by apply bool_decide_eq_true. }
  assert (∀ j b, snapshot_items c !! j = Some b → next_item_id c ≠ j) as Hne.
  { intros j b Hj <-. apply w2 in Hj. lia. }
  apply conj_pair; [|done]. apply items_step_wf; [done|done| |done|cbn].
  - split; cbn; eauto.
    + intros i it. rewrite lookup_insert. case_decide; [lia|]. intros Hi. apply w2 in Hi. lia.
    + intros i it. rewrite lookup_insert. case_decide; [|eauto]. intros [= <-]. by cbn; eexists.
    + intros i it r. rewrite lookup_insert. case_decide; [|eauto]. by intros [= <-].
    + intros i j a b. rewrite !lookup_insert. repeat case_decide; intros; simplify_eq/=; eauto.
      all: exfalso; eapply Hfresh; eauto.
    + intros s r i it Hs Hst. rewrite lookup_insert. case_decide; [|eauto].
      intros [= <-]; cbn. intros; simplify_eq/=; congruence.
  - intros s r i it Hs Hst Hit. rewrite lookup_insert. case_decide as Ei; [|done].
    split; [|intros; exfalso; by eapply Hne]. intros [= <-]. cbn in Hit. congruence.
Qed.

Lemma add_items_ok c sid batch ids c' :
  catalog_wf c → creating c sid → add_items c sid batch = Ok (ids, c') →
  catalog_wf c' ∧ keeps c c'.
Proof.
  revert c ids. induction batch as [|[[path st] kind] batch IH]; intros c ids Hwf Hcr H; cbn in H.
  - simplify_eq. split; [done|reflexivity].
  - apply bind_Ok in H as ([id c1] & H1 & H). apply bind_Ok in H as ([ids' c2] & H2 & H).
    simplify_eq. destruct (add_item_ok _ _ _ _ _ _ _ Hwf Hcr H1) as (Hwf1 & Hk & Hs).
    destruct (IH c1 ids') as [Hwf2 Hk2]; [done|by unfold creating; rewrite Hs|done|].
    split; [done|]. by etransitivity.
Qed.

Definition item_creating (c : Catalog) (item_id : Z) : Prop :=
  ∀ it, snapshot_items c !! item_id = Some it → creating c (it_snapshot_id it).

Lemma set_item_recipe_ok c item_id recipe_id c' :
  catalog_wf c → item_creating c item_id → set_item_recipe c item_id recipe_id = Ok c' →
  catalog_wf c' ∧ keeps c c' ∧ ∀ i, item_creating c i → item_creating c' i.
Proof.
  intros Hwf Hcr. unfold set_item_recipe.
  destruct (snapshot_items c !! item_id) as [it|] eqn:Ei; [|done].
  destruct (recipes c !! recipe_id) as [r|] eqn:Er; [|done]. intros [= <-].
  destruct (Hcr _ Ei) as (row & Hrow & Hst). destruct (cwf_snapshots c Hwf) as [w1 w2 w3 w4 w5 w6].
  apply conj_pair; [apply items_step_wf; [done|done| |done|cbn]|].
  - split; cbn; eauto; intros *; rewrite ?lookup_insert; repeat case_decide; eauto;
      intros; simplify_eq/=; eauto.
  - intros s r' j a Hs Hst' Ha. rewrite lookup_insert. case_decide as Ej; [|done].
    subst j. rewrite Ei. split; intros [= <-]; cbn in Ha; congruence.
  - intros i Hi a. cbn. rewrite lookup_insert. case_decide; [|by apply Hi]. subst i.
    intros [= <-]. cbn. by apply Hcr.
Qed.

(** Tables that describe snapshots and their items are untouched. *)
Lemma recipe_step_ok c c' :
  catalog_wf c → recipes_wf c' → protection_wf c' → evidence_wf c' →
  snapshots c' = snapshots c → snapshot_items c' = snapshot_items c →
  next_snapshot_id c' = next_snapshot_id c → next_item_id c' = next_item_id c →
  (∀ rid row, recipes c !! rid = Some row → recipes c' !! rid = Some row
     ∧ default [] (recipe_chunks c' !! rid) = default [] (recipe_chunks c !! rid)) →
  (∀ h s, chunks c !! h = Some s → chunks c' !! h = Some s) →
  catalog_wf c' ∧ keeps c c'.
Proof.
  intros [_ _ _ [w1 w2 w3 w4 w5 w6]] Hr Hp He E1 E2 E3 E4 K3 K4. split; split; auto.
  - split; rewrite ?E1, ?E2, ?E3, ?E4; eauto.
    intros id it r Hi Hrid. destruct (w4 _ _ _ Hi Hrid) as [row Hrow]. eexists. by apply K3.
  - by rewrite E1.
  - by rewrite E2.
Qed.

Lemma ensure_recipe_evidence c rid rf :
  evidence_wf c → evidence_wf (ensure_recipe_protection c rid rf).
Proof.
  intros Hev h r. rewrite ensure_recipe_lookup. case_decide; [|apply Hev]. intros [= <-].
  unfold ensure_row. destruct (chunk_protection c !! h) as [s|] eqn:E; [|done].
  destruct (_ <? _)%Z; [|by eapply Hev]. unfold is_protected; cbn.
  by destruct (pr_protection_state s).
Qed.

Lemma ensure_recipe_ok c rid rf :
  catalog_wf c → catalog_wf (ensure_recipe_protection c rid rf)
                 ∧ keeps c (ensure_recipe_protection c rid rf).
Proof.
  intros Hwf. apply recipe_step_ok; auto; [by apply recipes_wf_ensure, cwf_recipes| |by apply ensure_recipe_evidence, cwf_evidence].
  destruct (cwf_protection c Hwf). apply protection_wf_ensure; eauto. by apply cwf_recipes.
Qed.

(** Ids are only ever advanced by the operation that allocates them. *)
Lemma get_or_create_next c h cs rf rid c' :
  get_or_create_recipe c h cs rf = Ok (rid, c') →
  next_snapshot_id c' = next_snapshot_id c ∧ next_item_id c' = next_item_id c.
Proof.
  unfold get_or_create_recipe. intros H. apply bind_Ok in H as (h' & _ & H).
  destruct (recipe_totals cs) as [n t]. apply bind_Ok in H as (? & _ & H).
  destruct (resolve_recipe c h' n t) as [[id row] c1] eqn:E.
  assert (next_snapshot_id c1 = next_snapshot_id c ∧ next_item_id c1 = next_item_id c) as [N1 N2].
  { unfold resolve_recipe in E. destruct (find_recipe _ _) as [[]|]; simplify_eq; done. }
  destruct (negb _); [done|]. case_bool_decide; [done|].
  destruct (default [] _).
  - apply bind_Ok in H as (c2 & H2 & H). apply register_chunks_spec in H2 as (E2 & _).
    injection H as <- <-. rewrite E2. by destruct cs.
  - destruct (forallb _ _); [|done]. by simplify_eq.
Qed.

Lemma get_or_create_ok c h cs rf rid c' :
  catalog_wf c → get_or_create_recipe c h cs rf = Ok (rid, c') →
  catalog_wf c' ∧ keeps c c' ∧ is_Some (recipes c' !! rid)
  ∧ snapshots c' = snapshots c ∧ snapshot_items c' = snapshot_items c.
Proof.
  intros Hwf H. destruct (get_or_create_next _ _ _ _ _ _ H).
  destruct (get_or_create_stored _ _ _ _ _ _ (cwf_recipes c Hwf) H) as (c3 & -> & Hst).
  apply conj_pair.
  - apply recipe_step_ok; auto.
    + by apply recipes_wf_ensure, (rs_wf _ _ _ _ _ Hst).
    + eapply protection_wf_stored; [by apply cwf_recipes|by apply cwf_protection|exact Hst].
    + apply ensure_recipe_evidence. unfold evidence_wf. rewrite (rs_protection _ _ _ _ _ Hst).
      by apply cwf_evidence.
    + by apply rs_snapshots in Hst.
    + by apply rs_items in Hst.
    + intros j row Hj. split; [apply (rs_recipes _ _ _ _ _ Hst _ _ Hj)|].
      cbn. destruct (decide (j = rid)) as [->|Hne]; [|by rewrite (rs_others _ _ _ _ _ Hst)].
      rewrite (rs_rows _ _ _ _ _ Hst).
      destruct (recipe_chunks c !! rid) as [rows|] eqn:E; cbn; [by rewrite (rs_old _ _ _ _ _ Hst _ E)|].
      destruct (rs_row _ _ _ _ _ Hst) as (row' & Hrow' & _ & Htot).
      rewrite (rs_recipes _ _ _ _ _ Hst _ _ Hj) in Hrow'. simplify_eq.
      eapply totals_nonempty; [exact Htot|]. by apply (rwf_empty c (cwf_recipes c Hwf) rid).
    + apply (rs_chunks _ _ _ _ _ Hst).
  - destruct (rs_row _ _ _ _ _ Hst) as (row & Hrow & _). split_and!; [by exists row| |].
    + by apply rs_snapshots in Hst.
    + by apply rs_items in Hst.
Qed.

Lemma consolidate_ok c item_id h cs rf rid c' :
  catalog_wf c → item_creating c item_id →
  consolidate_item_recipe c item_id h cs rf = Ok (rid, c') → catalog_wf c' ∧ keeps c c'.
Proof.
  intros Hwf Hcr H. unfold consolidate_item_recipe in H.
  apply bind_Ok in H as ([r c1] & H1 & H). apply bind_Ok in H as (c2 & H2 & H). simplify_eq.
  destruct (get_or_create_ok _ _ _ _ _ _ Hwf H1) as (Hwf1 & Hk1 & _ & E1 & E2).
  destruct (set_item_recipe_ok c1 item_id rid c') as (Hwf2 & Hk2 & _); [done| |done|].
  - intros it. rewrite E2. intros Hi. unfold creating. rewrite E1. by apply Hcr.
  - split; [done|]. by etransitivity.
Qed.

Lemma update_item_recipes_ok c l n c' :
  catalog_wf c → Forall (λ p, item_creating c p.1) l → update_item_recipes c l = Ok (n, c') →
  catalog_wf c' ∧ keeps c c'.
Proof.
  revert c n. induction l as [|[i r] l IH]; intros c n Hwf Hcr H; cbn [update_item_recipes] in H.
  { simplify_eq. split; [done|reflexivity]. }
  apply Forall_cons in Hcr as [Hi Hcr].
  destruct (snapshot_items c !! i) as [it|]; [|by eauto].
  destruct (recipes c !! r); [|done].
  apply bind_Ok in H as (c1 & H1 & H). apply bind_Ok in H as ([m c2] & H2 & H). simplify_eq.
  destruct (set_item_recipe_ok _ _ _ _ Hwf Hi H1) as (Hwf1 & Hk1 & Hkc).
  destruct (IH c1 m) as [Hwf2 Hk2]; [done| |done|].
  - eapply Forall_impl; [exact Hcr|]. intros [] ?. by apply Hkc.
  - split; [done|]. by etransitivity.
Qed.

Lemma ensure_all_ok c rids rf :
  catalog_wf c →
  let c' := fold_left (λ c rid, ensure_recipe_protection c rid rf) rids c in
  catalog_wf c' ∧ keeps c c'.
Proof.
  revert c. induction rids as [|r rids IH]; intros c Hwf; cbn [fold_left]; [split; [done|reflexivity]|].
  destruct (ensure_recipe_ok c r rf Hwf) as [Hwf1 Hk1]. destruct (IH _ Hwf1). split; [done|].
  by etransitivity.
Qed.

Lemma reuse_ok c l rf c' :
  catalog_wf c → Forall (λ p, item_creating c p.1) l → reuse_item_recipes c l rf = Ok c' →
  catalog_wf c' ∧ keeps c c'.
Proof.
  intros Hwf Hcr. destruct l as [|p l]; unfold reuse_item_recipes.
  { intros [= <-]. split; [done|reflexivity]. }
  intros H. apply bind_Ok in H as ([n c1] & H1 & H). destruct (_ =? _)%Z; [|done]. injection H as <-.
  destruct (update_item_recipes_ok _ _ _ _ Hwf Hcr H1) as [Hwf1 Hk1].
  destruct (ensure_all_ok c1 (ordered_unique (p :: l).*2) rf Hwf1). split; [done|]. by etransitivity.
Qed.

Lemma protection_step_ok c c' :
  catalog_wf c → protection_step c c' → catalog_wf c' ∧ keeps c c'.
Proof.
  intros Hwf [Hrest Hrows Hev].
  assert (c' = with_protection (λ _, chunk_protection c') c) as E
    by (rewrite <-Hrest; by destruct c').
  apply recipe_step_ok; [done| |by apply Hrows, cwf_protection|by apply Hev, cwf_evidence|..];
    rewrite E; try done.
  destruct (cwf_recipes c Hwf). by split.
Qed.

(** ** Reachable catalogues *)

Inductive cstep (c : Catalog) : Catalog → Prop :=
  | cs_create uuid root origin id c' :
      create_snapshot c uuid root origin = Ok (id, c') → cstep c c'
  | cs_add_items sid batch ids c' :
      creating c sid → add_items c sid batch = Ok (ids, c') → cstep c c'
  | cs_store h cs rf rid c' :
      get_or_create_recipe c h cs rf = Ok (rid, c') → cstep c c'
  | cs_consolidate item_id h cs rf rid c' :
      item_creating c item_id → consolidate_item_recipe c item_id h cs rf = Ok (rid, c') →
      cstep c c'
  | cs_reuse assignments rf c' :
      Forall (λ p, item_creating c p.1) assignments →
      reuse_item_recipes c assignments rf = Ok c' → cstep c c'
  | cs_mark_stale rf epoch : cstep c (mark_stale_protection c rf epoch)
  | cs_push updates now n c' :
      Forall honest updates → apply_chunk_push_updates c updates now = Ok (n, c') → cstep c c'
  | cs_verify updates now n c' :
      Forall honest updates → apply_chunk_verification_updates c updates now = Ok (n, c') →
      cstep c c'
  | cs_finish sid size files c' : finish_snapshot c sid size files = Ok c' → cstep c c'
  | cs_fail sid err c' : fail_snapshot c sid err = Ok c' → cstep c c'.

Lemma cstep_ok c c' : catalog_wf c → cstep c c' → catalog_wf c' ∧ keeps c c'.
Proof.
  intros Hwf []; eauto using create_snapshot_ok, add_items_ok, consolidate_ok, reuse_ok,
    finish_snapshot_ok, fail_snapshot_ok, protection_step_ok, mark_stale_step, push_updates_step,
    verification_updates_step.
  destruct (get_or_create_ok _ _ _ _ _ _ Hwf H) as (? & ? & _). auto.
Qed.

Lemma csteps_ok c c' : catalog_wf c → rtc cstep c c' → catalog_wf c' ∧ keeps c c'.
Proof.
  intros Hwf H. induction H as [c|c c1 c2 H1 _ IH]; [split; [done|reflexivity]|].
  destruct (cstep_ok _ _ Hwf H1) as [Hwf1 Hk]. destruct (IH Hwf1). split; [done|]. by etransitivity.
Qed.

Lemma empty_catalog_wf : catalog_wf empty_catalog.
Proof.
  split; [apply empty_recipes_wf|apply empty_protection_wf|by intros h r; cbn; rewrite lookup_empty|].
  split; cbn; intros *; by rewrite lookup_empty.
Qed.

(** ** The sets of hashes *)

Lemma elem_of_joined c live h :
  h ∈ joined_chunk_hashes c live ↔
  ∃ id it rid (rc : recipe_chunk), snapshot_items c !! id = Some it ∧ live it = true ∧ it_type it = ItemFile
    ∧ it_recipe_id it = Some rid ∧ rc ∈ default [] (recipe_chunks c !! rid) ∧ h = rc.1.2.
Proof.
  unfold joined_chunk_hashes. rewrite list_elem_of_bind. split.
  - intros ([id it] & H & Hin). apply elem_of_map_to_list in Hin. cbn [snd] in H.
    destruct (live it) eqn:El; [|by inversion H]. cbn [andb] in H.
    case_bool_decide as Ht; [|by inversion H].
    destruct (it_recipe_id it) as [rid|] eqn:Er; [|by inversion H].
    apply list_elem_of_fmap in H as (rc & -> & Hrc). exists id, it, rid, rc. auto 10.
  - intros (id & it & rid & rc & Hi & Hl & Ht & Hr & Hrc & ->).
    exists (id, it). split; [|by apply elem_of_map_to_list]. cbn [snd]. rewrite Hl, Ht, Hr.
    cbn [andb]. rewrite bool_decide_true by done. apply list_elem_of_fmap. eauto.
Qed.

Lemma elem_of_order_by_hash h hs : h ∈ order_by_hash hs ↔ h ∈ hs.
Proof. unfold order_by_hash. by rewrite elem_of_py_sorted, elem_of_ordered_unique. Qed.

(** Two queries with the same hashes return the same list. *)
Lemma order_by_hash_ext hs ks : (∀ h, h ∈ hs ↔ h ∈ ks) → order_by_hash hs = order_by_hash ks.
Proof.
  intros H. unfold order_by_hash. apply py_sorted_Permutation.
  - intros; apply str_leb_total.
  - intros ???; apply str_leb_trans.
  - intros ??; apply str_leb_antisym.
  - apply NoDup_Permutation; [apply NoDup_ordered_unique..|].
    intros h. by rewrite !elem_of_ordered_unique.
Qed.

Lemma snapshot_in_true c states it :
  snapshot_in c states it = true ↔
  ∃ s, snapshots c !! it_snapshot_id it = Some s ∧ sn_status s ∈ states.
Proof.
  unfold snapshot_in. destruct (snapshots c !! _) as [s|].
  - rewrite bool_decide_eq_true. naive_solver.
  - naive_solver.
Qed.

Lemma joined_keeps c c' sid row live live' :
  catalog_wf c → keeps c c' → snapshots c !! sid = Some row → sn_status row ≠ CREATING →
  (∀ it, live it = bool_decide (it_snapshot_id it = sid)) →
  (∀ it, live' it = bool_decide (it_snapshot_id it = sid)) →
  ∀ h, h ∈ joined_chunk_hashes c' live' ↔ h ∈ joined_chunk_hashes c live.
Proof.
  intros Hwf Hk Hrow Hst Hl Hl' h. rewrite !elem_of_joined. split.
  - intros (id & it & rid & rc & Hi & Hlive & Ht & Hr & Hrc & ->).
    rewrite Hl' in Hlive. apply bool_decide_eq_true in Hlive.
    apply (keeps_items c c' Hk sid row) in Hi; [|done..].
    destruct (swf_item_recipe c (cwf_snapshots c Hwf) _ _ _ Hi Hr) as [rrow Hrrow].
    rewrite (proj2 (keeps_recipes c c' Hk _ _ Hrrow)) in Hrc.
    exists id, it, rid, rc. rewrite Hl, bool_decide_true by done. auto 10.
  - intros (id & it & rid & rc & Hi & Hlive & Ht & Hr & Hrc & ->).
    rewrite Hl in Hlive. apply bool_decide_eq_true in Hlive.
    destruct (swf_item_recipe c (cwf_snapshots c Hwf) _ _ _ Hi Hr) as [rrow Hrrow].
    rewrite <-(proj2 (keeps_recipes c c' Hk _ _ Hrrow)) in Hrc.
    apply (keeps_items c c' Hk sid row) in Hi; [|done..].
    exists id, it, rid, rc. rewrite Hl', bool_decide_true by done. auto 10.
Qed.

Lemma joined_known c live h :
  catalog_wf c → h ∈ joined_chunk_hashes c live → is_Some (chunks c !! h).
Proof.
  intros Hwf. rewrite elem_of_joined. intros (id & it & rid & rc & _ & _ & _ & _ & Hrc & ->).
  destruct (recipe_chunks c !! rid) as [rows|] eqn:E; [|by inversion Hrc].
  destruct (rwf_rows c (cwf_recipes c Hwf) _ _ E) as (_ & _ & Hsz & _). rewrite (Hsz rc); eauto.
Qed.

Lemma elem_of_known c h : h ∈ all_known_chunk_hashes c ↔ is_Some (chunks c !! h).
Proof.
  unfold all_known_chunk_hashes. rewrite elem_of_order_by_hash, list_elem_of_fmap. split.
  - intros ([k v] & -> & Hin). apply elem_of_map_to_list in Hin. by exists v.
  - intros [v Hv]. exists (h, v). split; [done|]. by apply elem_of_map_to_list.
Qed.

(** ** Properties *)



(** the garbage collector never sees a restorable chunk as garbage: the hashes of
    COMPLETE snapshots are among the protected ones and are registered chunks, and a
    hash that is reachable stays reachable and protected after any further steps. *)
Theorem gc_keeps_reachable c c' h :
  rtc cstep empty_catalog c → rtc cstep c c' →
  h ∈ all_reachable_chunk_hashes c →
  h ∈ all_reachable_chunk_hashes c' ∧ h ∈ gc_protected_chunk_hashes c'
  ∧ h ∈ all_known_chunk_hashes c'.
Proof.
  intros Hr Hs. unfold all_reachable_chunk_hashes, gc_protected_chunk_hashes.
  destruct (csteps_ok _ _ empty_catalog_wf Hr) as [Hwf _].
  destruct (csteps_ok _ _ Hwf Hs) as [Hwf' Hk].
  rewrite elem_of_known, !elem_of_order_by_hash. intros Hin.
  assert (h ∈ joined_chunk_hashes c' (snapshot_in c' [COMPLETE])) as Hin'.
  { rewrite elem_of_joined in Hin |- *.
    destruct Hin as (id & it & rid & rc & Hi & Hlive & Ht & Hrid & Hrc & ->).
    apply snapshot_in_true in Hlive as (row & Hrow & Hst). apply list_elem_of_singleton in Hst.
    destruct (swf_item_recipe c (cwf_snapshots c Hwf) _ _ _ Hi Hrid) as [rrow Hrrow].
    exists id, it, rid, rc. rewrite (proj2 (keeps_recipes c c' Hk _ _ Hrrow)).
    split_and!; auto; [by eapply keeps_items; rewrite ?Hst|].
    apply snapshot_in_true. exists row. split; [|set_solver]. by eapply keeps_snapshots; rewrite ?Hst. }
  split_and!; [done| |by eapply joined_known].
  rewrite elem_of_joined in Hin' |- *.
  destruct Hin' as (id & it & rid & rc & Hi & Hlive & Hrest). exists id, it, rid, rc.
  split_and!; [done| |by apply Hrest..].
  apply snapshot_in_true in Hlive as (row & Hrow & Hst). apply snapshot_in_true. set_solver.
Qed.

(** [finish_snapshot] succeeds exactly on a CREATING snapshot all of whose files
    have a recipe; every chunk of the snapshot was protected from garbage collection
    before and is reachable afterwards. *)
Theorem finish_snapshot_correct c sid size files :
  (is_ok (finish_snapshot c sid size files) = true ↔
     creating c sid
     ∧ ∀ id it, snapshot_items c !! id = Some it → it_snapshot_id it = sid →
         it_type it = ItemFile → is_Some (it_recipe_id it))
  ∧ ∀ c', finish_snapshot c sid size files = Ok c' →
      get_snapshot_status c' sid = (Some COMPLETE, None)
      ∧ ∀ h, h ∈ snapshot_chunk_hashes c sid →
          h ∈ gc_protected_chunk_hashes c ∧ h ∈ all_reachable_chunk_hashes c'.
Proof.
  unfold finish_snapshot, creating. destruct (snapshots c !! sid) as [row|] eqn:E;
    [|split; [split; [done|naive_solver]|done]].
  case_bool_decide as Hst; [split; [split; [done|naive_solver]|done]|].
  split.
  - destruct (incomplete_files c sid) as [|[i it] l] eqn:Ei; cbn; split; try done.
    + intros _. split; [eauto|]. intros id it Hi Hs Ht.
      destruct (it_recipe_id it) eqn:Er; [done|]. exfalso.
      assert ((id, it) ∈ incomplete_files c sid) as Hin; [|rewrite Ei in Hin; by inversion Hin].
      apply list_elem_of_filter. split; [done|]. by apply elem_of_map_to_list.
    + intros [_ H]. assert ((i, it) ∈ incomplete_files c sid) as Hin by (rewrite Ei; left).
      apply list_elem_of_filter in Hin as [(Hs & Ht & Hn) Hin]. apply elem_of_map_to_list in Hin.
      destruct (H i it Hin Hs Ht) as [r Hr]. cbn in Hn; congruence.
  - intros c'. destruct (incomplete_files c sid); [|done]. intros [= <-].
    unfold get_snapshot_status. cbn. rewrite lookup_insert_eq. split; [done|]. intros h.
    unfold snapshot_chunk_hashes, gc_protected_chunk_hashes, all_reachable_chunk_hashes.
    rewrite !elem_of_order_by_hash, !elem_of_joined.
    intros (id & it & rid & rc & Hi & Hlive & Hrest). apply bool_decide_eq_true in Hlive.
    split; exists id, it, rid, rc; (split; [done|]); (split; [|done]); apply snapshot_in_true; cbn;
      rewrite Hlive, ?lookup_insert_eq; eexists; (split; [eassumption || reflexivity|]); cbn;
      rewrite ?Hst; set_solver.
Qed.

(** ** A concrete backup: one file, one recipe, finished *)

#[export] Instance creating_dec c sid : Decision (creating c sid).
Proof.
  refine (cast_if (decide (sn_status <$> snapshots c !! sid = Some CREATING))); unfold creating.
  - destruct (snapshots c !! sid) as [row|]; cbn in *; [|done]. exists row. naive_solver.
  - intros (row & E & Hst). rewrite E in n. cbn in n. congruence.
Defined.

Definition example_stat : stat_info := {|
  st_size := 25; st_mode := 33188; st_mtime := 0; st_mtime_ns := 0; st_ctime_ns := 0;
  st_uid := Some 0%Z; st_gid := Some 0%Z |}.

Definition example_backup : res (Catalog * Catalog * Catalog * Catalog) :=
  '(sid, c1) ← create_snapshot empty_catalog (u "uuid") (u "/data") (u "node-1");
  '(_, c2) ← add_items c1 sid [(u "a.txt", example_stat, ItemFile)];
  '(_, c3) ← consolidate_item_recipe c2 1 (example_hash 99) example_recipe 3;
  c4 ← finish_snapshot c3 sid 25 1;
  Ok (c1, c2, c3, c4).

Definition example_checks (r : res (Catalog * Catalog * Catalog * Catalog)) : Prop :=
  match r with
  | Ok (c1, c2, c3, c4) =>
      creating c1 1 ∧ (it_snapshot_id <$> snapshot_items c2 !! 1%Z) = Some 1%Z ∧ creating c2 1
      ∧ sn_status <$> snapshots c4 !! 1%Z = Some COMPLETE
      ∧ example_hash 97 ∈ all_reachable_chunk_hashes c4 ∧ example_hash 97 ∈ snapshot_chunk_hashes c4 1
  | Err _ => False
  end.

#[export] Instance example_checks_dec r : Decision (example_checks r).
Proof. destruct r as [[[[c1 c2] c3] c4]|]; cbn; apply _. Defined.

Lemma example_backup_checks : example_checks example_backup.
Proof. by_compute. Qed.

Lemma example_backup_reachable :
  ∃ c row, rtc cstep empty_catalog c ∧ snapshots c !! 1%Z = Some row ∧ sn_status row = COMPLETE
    ∧ example_hash 97 ∈ all_reachable_chunk_hashes c ∧ example_hash 97 ∈ snapshot_chunk_hashes c 1.
Proof.
  pose proof example_backup_checks as H. unfold example_backup in H.
  destruct (create_snapshot _ _ _ _) as [[sid c1]|] eqn:E1; [|done]. cbn [mbind res_bind] in H.
  assert (sid = 1%Z) as -> by (unfold create_snapshot in E1; vm_compute in E1; congruence).
  destruct (add_items _ _ _) as [[ids c2]|] eqn:E2; [|done]. cbn [mbind res_bind] in H.
  destruct (consolidate_item_recipe _ _ _ _ _) as [[rid c3]|] eqn:E3; [|done]. cbn [mbind res_bind] in H.
  destruct (finish_snapshot _ _ _ _) as [c4|] eqn:E4; [|done].
  destruct H as (H1 & H2 & H3 & H4 & H5 & H6).
  destruct (snapshots c4 !! 1%Z) as [row|] eqn:Erow; [|done]. exists c4, row.
  split_and!; [|done|by simplify_eq/=|done|done].
  eapply rtc_l; [by eapply cs_create|]. eapply rtc_l; [by eapply cs_add_items|].
  eapply rtc_l; [eapply cs_consolidate; [|done]|apply rtc_once; by eapply cs_finish].
  intros it Hi. rewrite Hi in H2. cbn in H2. injection H2 as E. by rewrite E.
Qed.



Lemma gc_keeps_reachable_witness :
  ∃ c, rtc cstep empty_catalog c ∧ example_hash 97 ∈ gc_protected_chunk_hashes c.
Proof.
  destruct example_backup_reachable as (c & row & Hr & _ & _ & Hin & _). exists c.
  split; [done|]. apply (gc_keeps_reachable c c _ Hr (rtc_refl _ _) Hin).
Defined.
