(* ===== verification/Scope.v ===== *)
(** * What a push or a verification works on

    [protection/scope.py]: the scope argument of the push and verify commands and the
    chunks it selects from the catalogue (replication side). *)

From S2P Require Import Prelude PyStr Common Protection Catalog ProtectionTable Snapshots.

Definition DEFAULT_PROTECTION_SCOPE : pystr := u "pending".
Definition PROTECTION_SCOPE_CHOICES : list pystr :=
  [u "pending"; u "snapshot"; u "all-reachable"; u "all-known-chunks"].

(** [str(scope or DEFAULT_PROTECTION_SCOPE).strip()] *)
Definition scope_text (scope : option pystr) : pystr :=
  strip (match scope with
         | None => DEFAULT_PROTECTION_SCOPE
         | Some s => if bool_decide (s = []) then DEFAULT_PROTECTION_SCOPE else s
         end).

Definition check_scope (value : pystr) (snapshot_id : option Z) : res pystr :=
  if bool_decide (value ∉ PROTECTION_SCOPE_CHOICES) then Err MetadataDatabaseValueError
  else if bool_decide (value = u "snapshot" ∧ snapshot_id = None) then Err MetadataDatabaseValueError
  else Ok value.

Definition normalize_protection_scope (scope : option pystr) (snapshot_id : option Z) : res pystr :=
  let value := scope_text scope in
  match snapshot_id with
  | None => check_scope value snapshot_id
  | Some _ =>
      if bool_decide (value ∉ [DEFAULT_PROTECTION_SCOPE; u "snapshot"])
      then Err MetadataDatabaseValueError
      else check_scope (u "snapshot") snapshot_id
  end.

Definition chunk_hashes_for_scope (c : Catalog) (scope : pystr) (snapshot_id : option Z)
  : res (list pystr) :=
  if bool_decide (scope = u "snapshot") then
    match snapshot_id with
    | None => Err MetadataDatabaseValueError
    | Some sid =>
        match (get_snapshot_status c sid).1 with
        | None => Err MetadataDatabaseValueError
        | Some COMPLETE => Ok (snapshot_chunk_hashes c sid)
        | Some _ => Err MetadataDatabaseValueError
        end
    end
  else if bool_decide (scope = u "all-reachable") then Ok (all_reachable_chunk_hashes c)
  else if bool_decide (scope = u "all-known-chunks") then Ok (all_known_chunk_hashes c)
  else Err MetadataDatabaseValueError.

Definition replication_push_chunks_for_scope (c : Catalog) (scope : pystr) (snapshot_id : option Z)
    (desired_rf : Z) (current_epoch : option pystr) (limit : option Z) : res (list pystr) :=
  chunk_hashes ← chunk_hashes_for_scope c scope snapshot_id;
  pending_protection_chunks_for_hashes c chunk_hashes desired_rf current_epoch limit.

Definition scoped_replication_push_chunks (c : Catalog) (scope : option pystr)
    (snapshot_id : option Z) (desired_rf : Z) (current_epoch : option pystr) (limit : option Z)
  : res (list pystr) :=
  scope_value ← normalize_protection_scope scope snapshot_id;
  if bool_decide (scope_value = DEFAULT_PROTECTION_SCOPE)
  then Ok (get_pending_protection_chunks c desired_rf current_epoch limit)
  else replication_push_chunks_for_scope c scope_value snapshot_id desired_rf current_epoch limit.

Definition replication_verification_candidates_for_scope (c : Catalog) (scope : pystr)
    (snapshot_id : option Z) (include_verified : bool) (limit : option Z)
  : res (list VerificationCandidate) :=
  chunk_hashes ← chunk_hashes_for_scope c scope snapshot_id;
  chunk_protection_verification_candidates_for_hashes c chunk_hashes include_verified limit.

Definition scoped_replication_verification_candidates (c : Catalog) (scope : option pystr)
    (snapshot_id : option Z) (include_verified : bool) (limit : option Z)
  : res (list VerificationCandidate) :=
  scope_value ← normalize_protection_scope scope snapshot_id;
  if bool_decide (scope_value = DEFAULT_PROTECTION_SCOPE)
  then Ok (get_verification_candidates c include_verified limit)
  else replication_verification_candidates_for_scope c scope_value snapshot_id include_verified limit.

(** ** Chunks of stored recipes *)

Lemma joined_has_row c live h :
  catalog_wf c → h ∈ joined_chunk_hashes c live →
  is_valid_blake3_hex h = true ∧ is_Some (chunk_protection c !! h).
Proof.
  intros Hwf. rewrite elem_of_joined. intros (id & it & rid & rc & _ & _ & _ & _ & Hrc & ->).
  destruct (recipe_chunks c !! rid) as [rows|] eqn:E; [|by inversion Hrc]. cbn in Hrc.
  destruct (rwf_rows c (cwf_recipes c Hwf) _ _ E) as (_ & Hck & _).
  split; [by eapply checked_valid|]. by eapply (pwf_recipes c (cwf_protection c Hwf)).
Qed.

Lemma valid_hash_stripped h : is_valid_blake3_hex h = true → valid_recipe_hash h = Ok h.
Proof.
  intros H. unfold valid_recipe_hash. assert (strip h = h) as ->; [|by rewrite H].
  apply strip_hex. unfold is_valid_blake3_hex in H. by bool_hyps.
Qed.

Lemma unique_hashes_valid hs :
  Forall (λ h, is_valid_blake3_hex h = true) hs → unique_hashes hs = Ok (ordered_unique hs).
Proof.
  intros H. unfold unique_hashes. assert (mapM_res valid_recipe_hash hs = Ok hs) as ->; [|done].
  apply mapM_res_Ok. induction H; constructor; auto using valid_hash_stripped.
Qed.

Lemma elem_of_push_chunks c rf epoch h :
  (0 < rf)%Z → evidence_wf c → is_Some (chunk_protection c !! h) →
  (∃ r, chunk_protection c !! h = Some r ∧ pending_row rf epoch r = true) ↔
  is_chunk_remotely_protected c h rf epoch = Ok false.
Proof.
  intros Hrf Hev [r Hr]. unfold is_chunk_remotely_protected, get_chunk_protection.
  rewrite Hr, pending_row_insufficient by eauto. destruct (pending_row rf epoch r) eqn:E; cbn.
  - split; [done|eauto].
  - split; [|done]. intros (r' & ? & ?). simplify_eq. congruence.
Qed.

(** ** Properties *)

(** C1: no chunk of a snapshot is forgotten: in every reachable catalogue each of its
    chunks is protected by enough copies in the placement epoch or is returned by the
    query the next push works on. *)
Theorem no_chunk_forgotten c sid rf epoch h :
  rtc cstep empty_catalog c → (0 < rf)%Z → h ∈ snapshot_chunk_hashes c sid →
  is_chunk_remotely_protected c h rf epoch = Ok true
  ∨ h ∈ get_pending_protection_chunks c rf epoch None.
Proof.
  intros Hr Hrf Hin. destruct (csteps_ok _ _ empty_catalog_wf Hr) as [Hwf _].
  unfold snapshot_chunk_hashes in Hin. rewrite elem_of_order_by_hash in Hin.
  destruct (joined_has_row _ _ _ Hwf Hin) as [_ [r Hrow]].
  unfold get_pending_protection_chunks. rewrite elem_of_select.
  unfold is_chunk_remotely_protected, get_chunk_protection. rewrite Hrow.
  rewrite pending_row_insufficient by (auto; intros; by eapply (cwf_evidence c Hwf)).
  destruct (pending_row rf epoch r) eqn:E; [right; eauto|by left].
Qed.

Lemma no_chunk_forgotten_witness :
  ∃ c, is_chunk_remotely_protected c (example_hash 97) 3 None = Ok true
    ∨ example_hash 97 ∈ get_pending_protection_chunks c 3 None None.
Proof.
  destruct example_backup_reachable as (c & row & Hr & Hrow & Hst & _ & Hin). exists c.
  exact (no_chunk_forgotten c 1 3 None (example_hash 97) Hr ltac:(lia) Hin).
Defined.

(** a push scoped to a finished snapshot works on exactly the chunks of that
    snapshot that are not protected in the placement epoch, and is refused for a
    snapshot that is not COMPLETE. *)
Theorem scoped_push_correct c scope sid rf epoch :
  rtc cstep empty_catalog c → (0 < rf)%Z → scope_text scope ∈ [u "pending"; u "snapshot"] →
  match scoped_replication_push_chunks c scope (Some sid) rf epoch None with
  | Ok hs => (get_snapshot_status c sid).1 = Some COMPLETE
      ∧ ∀ h, h ∈ hs ↔ h ∈ snapshot_chunk_hashes c sid
                      ∧ is_chunk_remotely_protected c h rf epoch = Ok false
  | Err e => e = MetadataDatabaseValueError ∧ (get_snapshot_status c sid).1 ≠ Some COMPLETE
  end.
Proof.
  intros Hr Hrf Hs. destruct (csteps_ok _ _ empty_catalog_wf Hr) as [Hwf _].
  unfold scoped_replication_push_chunks, normalize_protection_scope.
  rewrite bool_decide_false by (intros H; apply H; exact Hs).
  change (check_scope (u "snapshot") (Some sid)) with (Ok (u "snapshot")). cbn [mbind res_bind].
  rewrite bool_decide_false by done. unfold replication_push_chunks_for_scope, chunk_hashes_for_scope.
  rewrite bool_decide_true by done.
  destruct (get_snapshot_status c sid).1 as [[]|] eqn:Est; cbn [mbind res_bind]; [done| |done..].
  assert (∀ h, h ∈ snapshot_chunk_hashes c sid →
    is_valid_blake3_hex h = true ∧ is_Some (chunk_protection c !! h)) as Hrows.
  { intros h Hin. unfold snapshot_chunk_hashes in Hin. rewrite elem_of_order_by_hash in Hin.
    by eapply joined_has_row. }
  unfold pending_protection_chunks_for_hashes.
  rewrite unique_hashes_valid by (apply Forall_forall; intros; by apply Hrows). cbn [mbind res_bind].
  pose proof (elem_of_ordered_unique (snapshot_chunk_hashes c sid)) as Hou.
  destruct (ordered_unique (snapshot_chunk_hashes c sid)) as [|h0 hs] eqn:Eh.
  - split; [done|]. intros h. rewrite <-Hou. split; [|intros [? _]]; set_solver.
  - split; [done|]. intros h. rewrite elem_of_select, <-Hou. split.
    + intros (r & Hrow & Hw). bool_hyps. split; [done|].
      apply elem_of_push_chunks; eauto using cwf_evidence.
    + intros [Hin Hp]. destruct (Hrows h) as [_ Hrow]; [by apply Hou|].
      apply elem_of_push_chunks in Hp as (r & Hr' & Hpr); [|done|by apply cwf_evidence|done].
      exists r. split; [done|]. by rewrite bool_decide_true, Hpr.
Qed.

Lemma scoped_push_correct_witness :
  ∃ c, match scoped_replication_push_chunks c None (Some 1%Z) 3 None None with
       | Ok hs => (get_snapshot_status c 1).1 = Some COMPLETE
           ∧ ∀ h, h ∈ hs ↔ h ∈ snapshot_chunk_hashes c 1
                           ∧ is_chunk_remotely_protected c h 3 None = Ok false
       | Err e => e = MetadataDatabaseValueError ∧ (get_snapshot_status c 1).1 ≠ Some COMPLETE
       end.
Proof.
  destruct example_backup_reachable as (c & row & Hr & _). exists c.
  apply (scoped_push_correct c None 1 3 None Hr); [lia|by left].
Defined.
