(* ===== verification/ReplicationPlan.v ===== *)
(** * Where the copies of a chunk go

    [protection/replication/placement.py]: the targets of one chunk and the plan of a
    whole push, grouped by the address of the target. *)

From S2P Require Import Prelude PyStr Common Heapq Hrw Cluster Protection.

(** [_excluded_origin] *)
Definition excluded_origin (origin_node_id : pystr) : res (list pystr) :=
  let origin := strip origin_node_id in
  if bool_decide (origin = []) then Err StopanConfigValueError else Ok [origin].

Record ReplicationTargetPlan := {
  chunk_targets : gmap pystr (list ClusterMember);
  target_chunks : gmap pystr (list pystr);
  target_members : gmap pystr ClusterMember }.

Definition empty_plan : ReplicationTargetPlan :=
  {| chunk_targets := ∅; target_chunks := ∅; target_members := ∅ |}.

(** [{member.node_id: member for member in candidates}] *)
Definition member_by_id (candidates : list ClusterMember) : gmap pystr ClusterMember :=
  fold_left (λ d m, <[cm_node_id m := m]> d) candidates ∅.

Definition getitem (d : gmap pystr ClusterMember) (node_id : pystr) : res ClusterMember :=
  match d !! node_id with Some m => Ok m | None => Err KeyError end.

(** [target_chunks[member.address].append(h); target_members[member.address] = member] *)
Definition plan_member (chunk_hash : pystr) (p : ReplicationTargetPlan) (m : ClusterMember)
  : ReplicationTargetPlan := {|
  chunk_targets := chunk_targets p;
  target_chunks := <[cm_address m := default [] (target_chunks p !! cm_address m) ++ [chunk_hash]]>
                     (target_chunks p);
  target_members := <[cm_address m := m]> (target_members p) |}.

Definition plan_chunk (p : ReplicationTargetPlan) (chunk_hash : pystr) (ts : list ClusterMember)
  : ReplicationTargetPlan :=
  fold_left (plan_member chunk_hash) ts
    {| chunk_targets := <[chunk_hash := ts]> (chunk_targets p);
       target_chunks := target_chunks p; target_members := target_members p |}.

Fixpoint plan_loop (targets_of : pystr → res (list ClusterMember)) (p : ReplicationTargetPlan)
    (hashes : list pystr) : res ReplicationTargetPlan :=
  match hashes with
  | [] => Ok p
  | h :: hashes' => ts ← targets_of h; plan_loop targets_of (plan_chunk p h ts) hashes'
  end.

Section plan.
Context (blake3 : bytes → bytes).

Definition select_remote_chunk_targets (cluster : ClusterView) (chunk_hash : pystr)
    (required_remote_copies : Z) (cluster_token origin_node_id : pystr) : res (list ClusterMember) :=
  required ← normalize_remote_rf required_remote_copies;
  if (required =? 0)%Z then Ok []
  else
    excluded ← excluded_origin origin_node_id;
    Ok (hrw_targets_excluding blake3 cluster chunk_hash required cluster_token excluded).

Definition planned_targets (candidates : list ClusterMember) (k : Z) (salt chunk_hash : pystr)
  : res (list ClusterMember) :=
  if (k <=? 0)%Z then Ok []
  else mapM_res (getitem (member_by_id candidates))
         (hrw_top_k_node_ids blake3 chunk_hash (cm_node_id <$> candidates) k salt).

Definition plan_chunk_replication_targets (cluster : ClusterView) (chunk_hashes : list pystr)
    (required_remote_copies : Z) (cluster_token origin_node_id : pystr)
  : res ReplicationTargetPlan :=
  let ordered_hashes := ordered_unique chunk_hashes in
  required ← normalize_remote_rf required_remote_copies;
  excluded ← excluded_origin origin_node_id;
  let candidates := filter (λ m, cm_node_id m ≠ [] ∧ cm_node_id m ∉ excluded) (members cluster) in
  let k := Z.min required (Z.of_nat (length candidates)) in
  plan_loop (planned_targets candidates k cluster_token) empty_plan ordered_hashes.
End plan.

(** ** The planner agrees with the selection of one chunk *)

Lemma member_by_id_lookup ms n :
  member_by_id ms !! n = (λ a, {| cm_node_id := n; cm_address := a |}) <$> addresses_of ms !! n.
Proof.
  unfold member_by_id, addresses_of. induction ms as [|m ms IH] using rev_ind; [done|].
  rewrite !fold_left_app; cbn. rewrite !lookup_insert. case_decide; [|done].
  subst. cbn. by destruct m.
Qed.

Lemma excluded_origin_Ok o ex : excluded_origin o = Ok ex ↔ strip o ≠ [] ∧ ex = [strip o].
Proof. unfold excluded_origin. case_bool_decide; naive_solver. Qed.

Lemma candidates_excluding v o :
  o ≠ [] →
  candidate_members_excluding v [o]
  = filter (λ m, cm_node_id m ≠ [] ∧ cm_node_id m ∉ [o]) (members v).
Proof.
  intros Ho. unfold candidate_members_excluding. apply list_filter_iff. intros m.
  rewrite filter_cons_True by done. done.
Qed.

Lemma getitem_all (d : gmap pystr pystr) (dm : gmap pystr ClusterMember) ids :
  Forall (λ n, ∃ a, d !! n = Some a ∧ dm !! n = Some {| cm_node_id := n; cm_address := a |}) ids →
  mapM_res (getitem dm) ids
  = Ok (omap (λ n, (λ a, {| cm_node_id := n; cm_address := a |}) <$> d !! n) ids).
Proof.
  induction 1 as [|n ids (a & Ha & Hm) _ IH]; [done|]. cbn [mapM_res].
  assert (getitem dm n = Ok {| cm_node_id := n; cm_address := a |}) as -> by (unfold getitem; by rewrite Hm).
  cbn [mbind res_bind]. rewrite IH. cbn. by rewrite Ha.
Qed.

Section agreement.
Context (blake3 : bytes → bytes) (cluster : ClusterView) (token origin : pystr) (required : Z).
Context (Horigin : strip origin ≠ []) (Hreq : (0 <= required)%Z).

(** The targets of one chunk, as a total function. *)
Definition targets (h : pystr) : list ClusterMember :=
  hrw_targets_excluding blake3 cluster h required token [strip origin].

Lemma top_k_in_candidates (ms : list ClusterMember) h k n :
  n ∈ hrw_top_k_node_ids blake3 h (cm_node_id <$> ms) k token → n ∈ cm_node_id <$> ms.
Proof.
  rewrite hrw_top_k_ranking. intros (i & -> & Hi)%list_elem_of_fmap.
  apply elem_of_take in Hi as (j & Hj%list_elem_of_lookup_2 & _).
  apply elem_of_ranking in Hj as (n' & Hn' & _ & ->). done.
Qed.

Lemma planned_targets_eq h :
  let candidates := candidate_members_excluding cluster [strip origin] in
  planned_targets blake3 candidates (Z.min required (Z.of_nat (length candidates))) token h
  = Ok (targets h).
Proof.
  cbn zeta. unfold planned_targets, targets, hrw_targets_excluding.
  replace (Z.max required 0) with required by lia.
  destruct (candidate_members_excluding cluster [strip origin]) as [|m0 ms] eqn:E.
  { rewrite (proj2 (Z.leb_le _ _)); [done|cbn [length]; lia]. }
  rewrite <-E. clear m0 ms E. set (k := Z.min _ _). destruct (k <=? 0)%Z; [done|].
  rewrite (getitem_all (node_addresses cluster)); [done|].
  apply Forall_forall. intros n Hn%top_k_in_candidates.
  assert (n ≠ [] ∧ n ∉ [strip origin]) as Hok
    by (by apply list_elem_of_fmap in Hn as (m & -> & [_ ?]%elem_of_candidates)).
  apply addresses_is_Some in Hn as [a Ha]. exists a. rewrite member_by_id_lookup, Ha.
  split; [|done]. unfold node_addresses. rewrite <-Ha, candidates_excluding by done. symmetry.
  rewrite <-(addresses_filter (λ n, n ≠ [] ∧ n ∉ [strip origin]) (members cluster) n Hok).
  f_equal.
Qed.

Lemma select_targets_eq h :
  select_remote_chunk_targets blake3 cluster h required token origin = Ok (targets h).
Proof.
  unfold select_remote_chunk_targets, normalize_remote_rf.
  rewrite (proj2 (Z.ltb_ge _ _)) by done. cbn [mbind res_bind].
  destruct (Z.eqb_spec required 0) as [->|].
  - unfold targets, hrw_targets_excluding. destruct (candidate_members_excluding _ _); [done|].
    rewrite (proj2 (Z.leb_le _ _)); [done|cbn [length]; lia].
  - unfold excluded_origin. by rewrite bool_decide_false.
Qed.

(** The plan built so far for the chunks in [done]. *)
Record plan_inv (done : list pystr) (p : ReplicationTargetPlan) : Prop := {
  pi_targets h : chunk_targets p !! h = if decide (h ∈ done) then Some (targets h) else None;
  pi_chunks a : default [] (target_chunks p !! a)
    = h ← done; omap (λ m, if decide (cm_address m = a) then Some h else None) (targets h);
  pi_nonempty a : target_chunks p !! a ≠ Some [];
  pi_members a : is_Some (target_members p !! a) ↔ is_Some (target_chunks p !! a);
  pi_member a m : target_members p !! a = Some m → cm_address m = a
    ∧ ∃ h, h ∈ done ∧ m ∈ targets h
}.

Lemma plan_member_fold h ts p :
  let p' := fold_left (plan_member h) ts p in
  chunk_targets p' = chunk_targets p
  ∧ (∀ a, default [] (target_chunks p' !! a) = default [] (target_chunks p !! a)
       ++ omap (λ m, if decide (cm_address m = a) then Some h else None) ts)
  ∧ ((∀ a, target_chunks p !! a ≠ Some []) → ∀ a, target_chunks p' !! a ≠ Some [])
  ∧ ((∀ a, is_Some (target_members p !! a) ↔ is_Some (target_chunks p !! a)) →
       ∀ a, is_Some (target_members p' !! a) ↔ is_Some (target_chunks p' !! a))
  ∧ (∀ a m, target_members p' !! a = Some m →
       (cm_address m = a ∧ m ∈ ts) ∨ target_members p !! a = Some m).
Proof.
  revert p. induction ts as [|m ts IH]; intros p; cbn [fold_left].
  { split_and!; auto. intros. by rewrite app_nil_r. }
  destruct (IH (plan_member h p m)) as (E1 & E2 & E3 & E4 & E5). split_and!.
  - done.
  - intros a. rewrite E2. cbn. rewrite lookup_insert. case_decide as Ha; cbn; [|done].
    subst a. by rewrite <-app_assoc.
  - intros H. apply E3. intros a. cbn. rewrite lookup_insert. case_decide; [|done].
    intros [= Happ]. by destruct (default [] _).
  - intros H. apply E4. intros a. cbn. rewrite !lookup_insert. case_decide; [|done].
    split; intros _; by eexists.
  - intros a m' Hm'. apply E5 in Hm' as [[? ?]|Hm']; [left; split; [done|by right]|].
    cbn in Hm'. rewrite lookup_insert in Hm'. case_decide; [|auto].
    simplify_eq. left. split; [done|left].
Qed.

Lemma plan_chunk_inv done p h :
  h ∉ done → plan_inv done p → plan_inv (done ++ [h]) (plan_chunk p h (targets h)).
Proof.
  intros Hh [i1 i2 i3 i4 i5]. unfold plan_chunk.
  destruct (plan_member_fold h (targets h)
    {| chunk_targets := <[h := targets h]> (chunk_targets p);
       target_chunks := target_chunks p; target_members := target_members p |})
    as (E1 & E2 & E3 & E4 & E5). split; [..|apply E3; exact i3|apply E4; exact i4|].
  - intros k. rewrite E1. cbn. rewrite lookup_insert, i1. repeat case_decide; subst; set_solver.
  - intros a. rewrite E2. cbn [target_chunks]. rewrite i2, bind_app. f_equal. cbn. by rewrite app_nil_r.
  - intros a m Hm. apply E5 in Hm as [[Ha Hm]|Hm].
    + split; [done|]. exists h. split; [set_solver|done].
    + destruct (i5 _ _ Hm) as (Ha & k & Hk & ?). split; [done|]. exists k. split; [set_solver|done].
Qed.

Lemma plan_loop_inv done hashes p :
  NoDup (done ++ hashes) → plan_inv done p →
  ∃ p', plan_loop (λ h, Ok (targets h)) p hashes = Ok p' ∧ plan_inv (done ++ hashes) p'.
Proof.
  revert done p. induction hashes as [|h hashes IH]; intros done p Hnd Hp; cbn.
  { exists p. by rewrite app_nil_r. }
  rewrite cons_middle, app_assoc in Hnd |- *. apply IH; [done|]. apply plan_chunk_inv; [|done].
  apply NoDup_app in Hnd as (Hnd & _ & _). apply NoDup_app in Hnd as (_ & Hd & _). set_solver.
Qed.

Lemma plan_loop_ext f g p hashes :
  (∀ h, f h = g h) → plan_loop f p hashes = plan_loop g p hashes.
Proof. intros H. revert p. induction hashes as [|h hs IH]; intros p; cbn; [done|]. rewrite H. by destruct (g h); cbn. Qed.

(** The plan exists and is described by the targets of each chunk. *)
Lemma plan_exists hashes :
  ∃ p, plan_chunk_replication_targets blake3 cluster hashes required token origin = Ok p
       ∧ plan_inv (ordered_unique hashes) p.
Proof.
  unfold plan_chunk_replication_targets, normalize_remote_rf, excluded_origin.
  rewrite (proj2 (Z.ltb_ge _ _)) by done. cbn [mbind res_bind].
  rewrite bool_decide_false by done. cbn [mbind res_bind].
  rewrite <-candidates_excluding by done.
  rewrite (plan_loop_ext _ (λ h, Ok (targets h))) by (intros; apply planned_targets_eq).
  apply (plan_loop_inv [] (ordered_unique hashes)); [apply NoDup_ordered_unique|].
  split; cbn; intros *; rewrite ?lookup_empty; try done.
Qed.
End agreement.

Lemma elem_of_planned_hashes (ts_of : pystr → list ClusterMember) hashes a h :
  h ∈ (k ← hashes; omap (λ m, if decide (cm_address m = a) then Some k else None) (ts_of k))
  ↔ h ∈ hashes ∧ ∃ m, m ∈ ts_of h ∧ cm_address m = a.
Proof.
  rewrite list_elem_of_bind. setoid_rewrite list_elem_of_omap. split.
  - intros (k & (m & Hm & E) & Hk). case_decide; simplify_eq. eauto.
  - intros (Hh & m & Hm & Ha). exists h. split; [|done]. exists m. by rewrite decide_True.
Qed.

(** ** Properties *)

(** the plan of a push is the selection of every chunk regrouped: planning fails only
    for a negative number of copies or a blank origin; otherwise the targets of each
    chunk are the ones the single-chunk selection returns, a chunk is sent to an address
    exactly when one of its targets has it, and every address has its member. *)
Theorem plan_correct blake3 cluster hashes rf token origin :
  match plan_chunk_replication_targets blake3 cluster hashes rf token origin with
  | Err e => e = StopanConfigValueError ∧ ((rf < 0)%Z ∨ strip origin = [])
  | Ok p =>
      (0 <= rf)%Z ∧ strip origin ≠ []
      ∧ (∀ h ts, chunk_targets p !! h = Some ts ↔
           h ∈ hashes ∧ select_remote_chunk_targets blake3 cluster h rf token origin = Ok ts)
      ∧ (∀ a h, h ∈ default [] (target_chunks p !! a) ↔
           ∃ ts m, chunk_targets p !! h = Some ts ∧ m ∈ ts ∧ cm_address m = a)
      ∧ (∀ a, is_Some (target_chunks p !! a) ↔
           ∃ m, target_members p !! a = Some m ∧ cm_address m = a)
  end.
Proof.
  destruct (decide (rf < 0)%Z) as [Hrf|Hrf].
  { unfold plan_chunk_replication_targets, normalize_remote_rf.
    rewrite (proj2 (Z.ltb_lt _ _)) by done. cbn. auto. }
  destruct (decide (strip origin = [])) as [Ho|Ho].
  { unfold plan_chunk_replication_targets, normalize_remote_rf, excluded_origin.
    rewrite (proj2 (Z.ltb_ge _ _)) by lia. cbn [mbind res_bind]. rewrite bool_decide_true by done. cbn. auto. }
  assert (0 <= rf)%Z as Hrf' by lia.
  destruct (plan_exists blake3 cluster token origin rf Ho Hrf' hashes) as (p & -> & [i1 i2 i3 i4 i5]).
  split_and!; [done..| | |].
  - intros h ts. rewrite i1, (select_targets_eq _ _ _ _ _ Ho Hrf').
    case_decide as Hh; rewrite elem_of_ordered_unique in Hh; naive_solver.
  - intros a h. rewrite i2, elem_of_planned_hashes, elem_of_ordered_unique. split.
    + intros (Hh & m & Hm & Ha). exists (targets blake3 cluster token origin rf h), m. split; [|done].
      rewrite i1. apply decide_True. by apply elem_of_ordered_unique.
    + intros (ts & m & Hts & Hm & Ha). rewrite i1 in Hts. case_decide as Hh; simplify_eq.
      rewrite elem_of_ordered_unique in Hh. eauto.
  - intros a. rewrite <-i4. split; [|naive_solver]. intros [m Hm]. exists m. split; [done|]. by apply i5 in Hm as [? _].
Qed.
