(* ===== verification/ReplicationPush.v ===== *)
(** * Pushing copies of chunks

    [protection/replication/remote_client.py] (probes and acknowledgements),
    [push_execution.py] (one task per target, aggregation per chunk) and the update loop
    of [pusher.py]. The network is the environment: the answers of the calls and the
    order in which the tasks complete are arguments. *)

From S2P Require Import Prelude PyStr Common Heapq Hrw Cluster Protection Catalog.
From S2P Require Import ProtectionTable ReplicationPlan.

(** A remote call: its answer, or the text of the exception it raised. *)
Inductive rpc (A : Type) : Type := RpcOk (a : A) | RpcFail (message : pystr).
Arguments RpcOk {A} a.
Arguments RpcFail {A} message.

(** ** Acknowledgements *)

Definition STORE_STATUS_STORED : Z := 1.
Definition STORE_STATUS_ALREADY_PRESENT : Z := 2.
Definition STORE_STATUS_ERROR : Z := 5.

Record TargetAck := {
  ack_chunk_hash : pystr; ack_node_id : pystr; ack_address : pystr;
  ack_status : Z; ack_detail : pystr }.

Definition is_success (a : TargetAck) : bool :=
  (ack_status a =? STORE_STATUS_STORED)%Z || (ack_status a =? STORE_STATUS_ALREADY_PRESENT)%Z.
Definition is_already_present (a : TargetAck) : bool :=
  (ack_status a =? STORE_STATUS_ALREADY_PRESENT)%Z.
Definition is_stored (a : TargetAck) : bool := (ack_status a =? STORE_STATUS_STORED)%Z.

(** ** Probes *)

(** The loop over batches; [probe i batch] is the answer to the [i]-th call. *)
Fixpoint probe_loop (probe : nat → list pystr → rpc (list pystr)) (i : nat)
    (batches : list (list pystr)) (missing : gset pystr) : rpc (gset pystr) :=
  match batches with
  | [] => RpcOk missing
  | batch :: batches' =>
      match probe i batch with
      | RpcFail e => RpcFail e
      | RpcOk hs => probe_loop probe (S i) batches' (missing ∪ list_to_set (filter (λ h, h ≠ []) hs))
      end
  end.

Definition probe_missing_hashes (probe : nat → list pystr → rpc (list pystr))
    (probe_batch_hashes : Z) (chunk_hashes : list pystr) : rpc (gset pystr) :=
  probe_loop probe 0 (iter_batches (ordered_unique chunk_hashes) (Z.max 1 probe_batch_hashes)) ∅.

(** ** Streaming the missing chunks *)

(** What one run of the stream did: how many hashes the producer thread reached, the
    responses received, and how the stream and the producer ended. *)
Record StreamRun := {
  sr_progress : nat;
  sr_responses : list (pystr * Z * pystr);
  sr_stream_error : option pystr;
  sr_sender_error : option pystr;
  sr_sender_alive : bool }.

Notation acks_map := (gmap pystr TargetAck).

(** [acks.update(other)] *)
Definition acks_update (acks other : acks_map) : acks_map := other ∪ acks.

Inductive stream_result :=
  | StreamAcks (acks : acks_map)
  | StreamingReplicationError (message : pystr) (acks : acks_map)
  | StreamOtherError (message : pystr).

Definition make_ack (node_id address h : pystr) (status : Z) (detail : pystr) : TargetAck := {|
  ack_chunk_hash := h; ack_node_id := node_id; ack_address := address;
  ack_status := status; ack_detail := detail |}.

Definition add_response (node_id address : pystr) (acks : acks_map) (r : pystr * Z * pystr) : acks_map :=
  let '(h, status, detail) := r in
  if bool_decide (h = []) then acks else <[h := make_ack node_id address h status detail]> acks.

Definition add_local_failure (read : pystr → rpc bytes) (node_id address : pystr)
    (acks : acks_map) (h : pystr) : acks_map :=
  match read h with
  | RpcOk _ => acks
  | RpcFail e => <[h := make_ack node_id address h STORE_STATUS_ERROR
                     (u "lectura local fall" ++ o_acute ++ u ": " ++ e)]> acks
  end.

Definition add_missing_ack (node_id address : pystr) (acks : acks_map) (h : pystr) : acks_map :=
  match acks !! h with
  | Some _ => acks
  | None => <[h := make_ack node_id address h STORE_STATUS_ERROR
                (u "el stream termin" ++ o_acute ++ u " sin ACK para el chunk")]> acks
  end.

Definition replicate_missing_hashes (read : pystr → rpc bytes) (opened : rpc unit) (run : StreamRun)
    (node_id address : pystr) (chunk_hashes : list pystr) : stream_result :=
  match opened with
  | RpcFail e => StreamOtherError e
  | RpcOk _ =>
      let ordered_hashes := ordered_unique chunk_hashes in
      match ordered_hashes with
      | [] => StreamAcks ∅
      | _ =>
          let received := fold_left (add_response node_id address) (sr_responses run) ∅ in
          let local_failures :=
            fold_left (add_local_failure read node_id address) (take (sr_progress run) ordered_hashes) ∅ in
          let acks := acks_update received local_failures in
          if sr_sender_alive run then
            StreamingReplicationError
              (u "el productor de requests no se detuvo tras completar/cancelar el stream") acks
          else match sr_sender_error run, sr_stream_error run with
          | Some e, _ =>
              StreamingReplicationError
                (u "el productor de requests fall" ++ o_acute ++ u ": " ++ e) acks
          | None, Some e =>
              StreamingReplicationError
                (u "replicaci" ++ o_acute ++ u "n por stream fall" ++ o_acute ++ u ": " ++ e) acks
          | None, None =>
              StreamAcks (fold_left (add_missing_ack node_id address) ordered_hashes acks)
          end
      end
  end.

(** ** One target *)

Record TargetExecutionResult := {
  tr_node_id : pystr; tr_address : pystr; tr_acks : acks_map; tr_transport_error : option pystr }.

(** The environment of one target: its probe answers, its stream and the local store. *)
Record TargetEnv := {
  te_probe : nat → list pystr → rpc (list pystr);
  te_probe_batch : Z;
  te_read : pystr → rpc bytes;
  te_opened : rpc unit;
  te_stream : StreamRun }.

Definition execute_target_plan (env : TargetEnv) (member : ClusterMember) (chunk_hashes : list pystr)
  : TargetExecutionResult :=
  let result acks err := {| tr_node_id := cm_node_id member; tr_address := cm_address member;
                            tr_acks := acks; tr_transport_error := err |} in
  let ordered_hashes := ordered_unique chunk_hashes in
  match probe_missing_hashes (te_probe env) (te_probe_batch env) ordered_hashes with
  | RpcFail e => result ∅ (Some (u "probe fall" ++ o_acute ++ u ": " ++ e))
  | RpcOk missing =>
      let to_send := filter (λ h, h ∈ missing) ordered_hashes in
      let acks : acks_map := list_to_map ((λ h, (h, make_ack (cm_node_id member) (cm_address member) h
                         STORE_STATUS_ALREADY_PRESENT (u "ya presente en target remoto")))
                       <$> filter (λ h, h ∉ missing) ordered_hashes) in
      match to_send with
      | [] => result acks None
      | _ =>
          match replicate_missing_hashes (te_read env) (te_opened env) (te_stream env)
                  (cm_node_id member) (cm_address member) to_send with
          | StreamAcks sent => result (acks_update acks sent) None
          | StreamingReplicationError e partial => result (acks_update acks partial) (Some e)
          | StreamOtherError e =>
              result acks (Some (u "replicaci" ++ o_acute ++ u "n por stream fall" ++ o_acute ++ u ": " ++ e))
          end
      end
  end.

(** ** Aggregation per chunk *)

Record ChunkAccumulator := {
  ca_required : Z; ca_stored : Z; ca_already_present : Z; ca_errors : list pystr }.

Definition ca_protected (a : ChunkAccumulator) : Z := (ca_stored a + ca_already_present a)%Z.

Definition add_error (e : pystr) (a : ChunkAccumulator) : ChunkAccumulator := {|
  ca_required := ca_required a; ca_stored := ca_stored a;
  ca_already_present := ca_already_present a; ca_errors := ca_errors a ++ [e] |}.

Definition short_target (node_id address : pystr) : pystr := take 8 node_id ++ u "@" ++ address ++ u ": ".

(** What one planned hash of a target contributes. *)
Definition apply_ack (r : TargetExecutionResult) (h : pystr) (a : ChunkAccumulator) : ChunkAccumulator :=
  match tr_acks r !! h with
  | None =>
      add_error (short_target (tr_node_id r) (tr_address r) ++
        match tr_transport_error r with
        | Some ((_ :: _) as e) => e
        | _ => u "falta ACK"
        end) a
  | Some ack =>
      if is_success ack then
        if is_already_present ack
        then {| ca_required := ca_required a; ca_stored := ca_stored a;
                ca_already_present := ca_already_present a + 1; ca_errors := ca_errors a |}
        else if is_stored ack
        then {| ca_required := ca_required a; ca_stored := ca_stored a + 1;
                ca_already_present := ca_already_present a; ca_errors := ca_errors a |}
        else a
      else add_error (short_target (ack_node_id ack) (ack_address ack) ++ ack_detail ack) a
  end.

Notation accumulators := (gmap pystr ChunkAccumulator).

Fixpoint apply_target_result (accs : accumulators) (planned_hashes : list pystr)
    (r : TargetExecutionResult) : res accumulators :=
  match planned_hashes with
  | [] => Ok accs
  | h :: hs =>
      match accs !! h with
      | None => Err KeyError
      | Some a => apply_target_result (<[h := apply_ack r h a]> accs) hs r
      end
  end.

Record ChunkReplicationOutcome := {
  oc_chunk_hash : pystr; oc_required : Z; oc_protected : Z; oc_stored : Z;
  oc_already_present : Z; oc_error : option pystr }.

(** ["; ".join(errors)] *)
Definition join_errors (errors : list pystr) : option pystr :=
  match errors with
  | [] => None
  | e :: es => Some (fold_left (λ s x, s ++ u "; " ++ x) es e)
  end.

(** The result used for a completed task: its own, or one for a task that raised. *)
Definition target_result (run : ClusterMember → list pystr → rpc TargetExecutionResult)
    (member : ClusterMember) (hashes : list pystr) : TargetExecutionResult :=
  match run member hashes with
  | RpcOk r => r
  | RpcFail e =>
      {| tr_node_id := cm_node_id member; tr_address := cm_address member; tr_acks := ∅;
         tr_transport_error :=
           Some (u "ejecuci" ++ o_acute ++ u "n del target fall" ++ o_acute ++ u ": " ++ e) |}
  end.

(** [iter_completed_keyed_tasks]: [order] is the order in which the tasks complete and
    [run] the outcome of each. *)
Fixpoint drain (p : ReplicationTargetPlan)
    (run : ClusterMember → list pystr → rpc TargetExecutionResult)
    (order : list pystr) (accs : accumulators) : res accumulators :=
  match order with
  | [] => Ok accs
  | address :: order' =>
      match target_members p !! address, target_chunks p !! address with
      | Some member, Some hashes =>
          accs' ← apply_target_result accs hashes (target_result run member hashes);
          drain p run order' accs'
      | _, _ => Err KeyError
      end
  end.

Definition outcome_of (p : ReplicationTargetPlan) (required_remote_copies : Z) (accs : accumulators)
    (h : pystr) : res ChunkReplicationOutcome :=
  match accs !! h with
  | None => Err KeyError
  | Some a =>
      if bool_decide (chunk_targets p !! h = Some [])
      then Ok {| oc_chunk_hash := h; oc_required := required_remote_copies; oc_protected := 0;
                 oc_stored := 0; oc_already_present := 0;
                 oc_error := Some (u "no se planificaron targets remotos para el chunk") |}
      else Ok {| oc_chunk_hash := h; oc_required := ca_required a; oc_protected := ca_protected a;
                 oc_stored := ca_stored a; oc_already_present := ca_already_present a;
                 oc_error := join_errors (ca_errors a) |}
  end.

Definition initial_accumulator (p : ReplicationTargetPlan) (h : pystr) : res (pystr * ChunkAccumulator) :=
  match chunk_targets p !! h with
  | None => Err KeyError
  | Some ts => Ok (h, {| ca_required := Z.of_nat (length ts); ca_stored := 0;
                         ca_already_present := 0; ca_errors := [] |})
  end.

Definition push_chunk_replicas (blake3 : bytes → bytes) (cluster : ClusterView)
    (chunk_hashes : list pystr) (required_remote_copies : Z) (cluster_token origin_node_id : pystr)
    (run : ClusterMember → list pystr → rpc TargetExecutionResult) (order : list pystr)
  : res (list ChunkReplicationOutcome) :=
  let ordered_hashes := ordered_unique chunk_hashes in
  p ← plan_chunk_replication_targets blake3 cluster ordered_hashes required_remote_copies
        cluster_token origin_node_id;
  accs0 ← mapM_res (initial_accumulator p) ordered_hashes;
  accs ← drain p run order (list_to_map accs0);
  mapM_res (outcome_of p required_remote_copies accs) ordered_hashes.

(** ** The update loop of [push_to_network] *)

Definition outcome_update (desired_rf : Z) (current_epoch : pystr) (o : ChunkReplicationOutcome)
  : ChunkProtectionUpdate :=
  let state := replication_push_state (oc_protected o) desired_rf in
  let error :=
    match state with
    | PLACED => None
    | DEGRADED =>
        let text := u "placement parcial: protected_remote_copies=" ++ str_of_Z (oc_protected o)
                    ++ u "/" ++ str_of_Z desired_rf ++ u " (planned_targets="
                    ++ str_of_Z (oc_required o) ++ u ")" in
        Some (match oc_error o with Some ((_ :: _) as e) => text ++ u "; " ++ e | _ => text end)
    | _ =>
        Some (match oc_error o with
              | Some ((_ :: _) as e) => e
              | _ => u "replicaci" ++ o_acute ++ u "n fallida sin copias remotas protegidas"
              end)
    end in
  {| up_chunk_hash := oc_chunk_hash o; up_desired_rf := desired_rf; up_protection_state := state;
     up_protected_remote_copies := oc_protected o; up_placement_epoch := Some current_epoch;
     up_error := error |}.

Record PushCounters := {
  attempted : Z; protected : Z; degraded : Z; failed : Z; stored_remote : Z;
  already_present_remote : Z }.

Definition count_outcome (desired_rf : Z) (s : PushCounters) (o : ChunkReplicationOutcome) : PushCounters :=
  let state := replication_push_state (oc_protected o) desired_rf in
  {| attempted := attempted s + 1;
     protected := protected s + (if bool_decide (state = PLACED) then 1 else 0);
     degraded := degraded s + (if bool_decide (state = DEGRADED) then 1 else 0);
     failed := failed s + (if bool_decide (state ∉ [PLACED; DEGRADED]) then 1 else 0);
     stored_remote := stored_remote s + oc_stored o;
     already_present_remote := already_present_remote s + oc_already_present o |}.

(** [flush_updates]: the batch is one transaction, so a refused batch changes nothing and
    stays pending; the handler of [push_to_network] flushes it once more and raises the
    same error again. *)
Definition flush_updates (now : Q) (pending : list ChunkProtectionUpdate) : SM Catalog unit := λ c,
  match pending with
  | [] => (Ok (), c)
  | _ =>
      match apply_chunk_push_updates c pending now with
      | Ok (_, c') => (Ok (), c')
      | Err e => (Err e, c)
      end
  end.

(** The loop over the outcomes; [clock n] is the time of the flush after [n] outcomes. *)
Fixpoint push_loop (desired_rf : Z) (current_epoch : pystr) (commit_every : Z) (clock : Z → Q)
    (pending : list ChunkProtectionUpdate) (stats : PushCounters)
    (outcomes : list ChunkReplicationOutcome) : SM Catalog PushCounters :=
  match outcomes with
  | [] => flush_updates (clock (attempted stats)) pending ;; mret stats
  | o :: outcomes' =>
      let stats' := count_outcome desired_rf stats o in
      let pending' := pending ++ [outcome_update desired_rf current_epoch o] in
      if (Z.max 1 commit_every <=? Z.of_nat (length pending'))%Z
      then flush_updates (clock (attempted stats')) pending' ;;
           push_loop desired_rf current_epoch commit_every clock [] stats' outcomes'
      else push_loop desired_rf current_epoch commit_every clock pending' stats' outcomes'
  end.

Definition empty_counters : PushCounters := {|
  attempted := 0; protected := 0; degraded := 0; failed := 0; stored_remote := 0;
  already_present_remote := 0 |}.

Definition push_outcomes (desired_rf : Z) (current_epoch : pystr) (commit_every : Z) (clock : Z → Q)
    (outcomes : list ChunkReplicationOutcome) : SM Catalog PushCounters :=
  push_loop desired_rf current_epoch commit_every clock [] empty_counters outcomes.

(** ** Counting acknowledgements *)

Definition acked (P : TargetAck → bool) (r : TargetExecutionResult) (h : pystr) : bool :=
  match tr_acks r !! h with Some a => P a | None => false end.

Definition occ (h : pystr) (hs : list pystr) : Z := Z.of_nat (length (filter (λ x, x = h) hs)).

(** [acc'] is [acc] after [n] planned copies of [h] handled with the result [r]. *)
Definition advanced (r : TargetExecutionResult) (h : pystr) (n : Z) (a a' : ChunkAccumulator) : Prop :=
  ca_required a' = ca_required a
  ∧ ca_stored a' = (ca_stored a + n * Z.b2z (acked is_stored r h))%Z
  ∧ ca_already_present a' = (ca_already_present a + n * Z.b2z (acked is_already_present r h))%Z.

Lemma apply_ack_advanced r h a : advanced r h 1 a (apply_ack r h a).
Proof.
  unfold advanced, apply_ack, acked. destruct (tr_acks r !! h) as [ack|]; [|cbn; lia].
  unfold is_success, is_already_present, is_stored, STORE_STATUS_STORED, STORE_STATUS_ALREADY_PRESENT.
  destruct (Z.eqb_spec (ack_status ack) 1), (Z.eqb_spec (ack_status ack) 2); cbn; lia.
Qed.

Lemma occ_cons h x hs : occ h (x :: hs) = ((if decide (x = h) then 1 else 0) + occ h hs)%Z.
Proof. unfold occ. rewrite filter_cons. case_decide; cbn [length]; lia. Qed.

Lemma apply_target_result_spec accs hs r :
  Forall (λ h, is_Some (accs !! h)) hs →
  ∃ accs', apply_target_result accs hs r = Ok accs'
    ∧ ∀ h, match accs !! h with
           | None => accs' !! h = None
           | Some a => ∃ a', accs' !! h = Some a' ∧ advanced r h (occ h hs) a a'
           end.
Proof.
  revert accs. induction hs as [|x hs IH]; intros accs Hdom; cbn [apply_target_result].
  { exists accs. split; [done|]. intros h. destruct (accs !! h) as [a|]; [|done].
    exists a. split; [done|]. unfold advanced, occ; cbn. lia. }
  apply Forall_cons in Hdom as [[ax Hx] Hdom]. rewrite Hx.
  destruct (IH (<[x := apply_ack r x ax]> accs)) as (accs' & E & Hspec).
  { eapply Forall_impl; [exact Hdom|]. intros h ?; cbn beta. rewrite lookup_insert. by case_decide. }
  exists accs'. split; [done|]. intros h. specialize (Hspec h). rewrite lookup_insert in Hspec.
  case_decide as Eh.
  - subst h. rewrite Hx. destruct Hspec as (a' & Ha' & Hadv). exists a'. split; [done|].
    rewrite occ_cons, decide_True by done. pose proof (apply_ack_advanced r x ax).
    unfold advanced in *. lia.
  - destruct (accs !! h); [|done]. destruct Hspec as (a' & Ha' & Hadv). exists a'. split; [done|].
    by rewrite occ_cons, decide_False.
Qed.

Section drain.
Context (p : ReplicationTargetPlan) (run : ClusterMember → list pystr → rpc TargetExecutionResult).

(** The acknowledgement the target at [address] gave for [h]. *)
Definition acked_at (P : TargetAck → bool) (address h : pystr) : bool :=
  match target_members p !! address, target_chunks p !! address with
  | Some member, Some hashes => acked P (target_result run member hashes) h
  | _, _ => false
  end.

Definition sumZ {A} (f : A → Z) (l : list A) : Z := fold_right Z.add 0%Z (f <$> l).

Lemma drain_spec order accs :
  Forall (λ a, is_Some (target_members p !! a) ∧ is_Some (target_chunks p !! a)) order →
  (∀ a h, h ∈ default [] (target_chunks p !! a) → is_Some (accs !! h)) →
  ∃ accs', drain p run order accs = Ok accs'
    ∧ ∀ h, match accs !! h with
           | None => accs' !! h = None
           | Some a => ∃ a', accs' !! h = Some a' ∧ ca_required a' = ca_required a
               ∧ ca_stored a' = (ca_stored a + sumZ (λ ad,
                   occ h (default [] (target_chunks p !! ad)) * Z.b2z (acked_at is_stored ad h)) order)%Z
               ∧ ca_already_present a' = (ca_already_present a + sumZ (λ ad,
                   occ h (default [] (target_chunks p !! ad))
                   * Z.b2z (acked_at is_already_present ad h)) order)%Z
           end.
Proof.
  revert accs. induction order as [|ad order IH]; intros accs Hord Hdom; cbn [drain].
  { exists accs. split; [done|]. intros h. destruct (accs !! h) as [a|]; [|done].
    exists a. unfold sumZ; cbn. split_and!; auto; lia. }
  apply Forall_cons in Hord as [[[m Hm] [hs Hhs]] Hord]. rewrite Hm, Hhs.
  destruct (apply_target_result_spec accs hs (target_result run m hs)) as (accs1 & E1 & H1).
  { apply Forall_forall. intros h Hh. apply (Hdom ad). by rewrite Hhs. }
  rewrite E1. cbn [mbind res_bind].
  destruct (IH accs1) as (accs' & E & Hspec); [done| |].
  { intros a h Hh. destruct (Hdom a h Hh) as [x Hx]. specialize (H1 h). rewrite Hx in H1.
    destruct H1 as (a' & Ha' & _). by exists a'. }
  exists accs'. split; [done|]. intros h. specialize (Hspec h). specialize (H1 h).
  destruct (accs !! h) as [a|]; [|by rewrite H1 in Hspec].
  destruct H1 as (a1 & Ha1 & (R1 & R2 & R3)). rewrite Ha1 in Hspec.
  destruct Hspec as (a' & Ha' & S1 & S2 & S3). exists a'. split; [done|].
  unfold sumZ in *. cbn [fmap list_fmap fold_right]. unfold acked_at at 1 3. rewrite Hm, Hhs. cbn [default from_option].
  change (id hs) with hs. split_and!; lia.
Qed.
End drain.

(** ** The sum over addresses is a count over targets *)

Lemma sumZ_add {A} (f g : A → Z) l : sumZ (λ x, f x + g x)%Z l = (sumZ f l + sumZ g l)%Z.
Proof. unfold sumZ. induction l; cbn in *; lia. Qed.

Lemma sumZ_ext {A} (f g : A → Z) l : (∀ x, x ∈ l → f x = g x) → sumZ f l = sumZ g l.
Proof.
  unfold sumZ. induction l as [|x l IH]; intros H; cbn; [done|].
  rewrite H by left. rewrite IH; [done|]. intros; apply H; by right.
Qed.

Lemma sumZ_indicator (f : pystr → Z) a order :
  NoDup order → a ∈ order → sumZ (λ x, if decide (a = x) then f x else 0)%Z order = f a.
Proof.
  unfold sumZ. induction 1 as [|x l Hx _ IH]; intros Hin; [by inversion Hin|]. cbn.
  apply elem_of_cons in Hin as [->|Hin].
  - rewrite decide_True by done.
    enough (sumZ (λ y, if decide (x = y) then f y else 0)%Z l = 0%Z) as E by (unfold sumZ in E; lia).
    rewrite (sumZ_ext _ (λ _, 0%Z)).
    + unfold sumZ. clear. induction l; cbn; lia.
    + intros y Hy. rewrite decide_False; [done|]. by intros ->.
  - rewrite decide_False by (intros ->; done). by rewrite IH.
Qed.

Lemma sum_by_address (f : pystr → bool) ts order :
  NoDup order → (∀ m, m ∈ ts → cm_address m ∈ order) →
  sumZ (λ a, Z.of_nat (length (filter (λ m, cm_address m = a) ts)) * Z.b2z (f a))%Z order
  = Z.of_nat (length (filter (λ m, f (cm_address m) = true) ts)).
Proof.
  intros Hnd. induction ts as [|m ts IH]; intros Hin.
  - cbn. unfold sumZ. clear. induction order; cbn; lia.
  - rewrite (sumZ_ext _ (λ a, (if decide (cm_address m = a) then Z.b2z (f a) else 0)
      + Z.of_nat (length (filter (λ m, cm_address m = a) ts)) * Z.b2z (f a))%Z).
    + rewrite sumZ_add, sumZ_indicator, IH; [|intros; apply Hin; by right|done|apply Hin; left].
      rewrite filter_cons. destruct (f (cm_address m)); case_decide; try done; cbn [length Z.b2z]; lia.
    + intros a _. rewrite filter_cons. case_decide; cbn [length]; lia.
Qed.

Lemma occ_omap (h k a : pystr) (ts : list ClusterMember) :
  occ h (omap (λ m, if decide (cm_address m = a) then Some k else None) ts)
  = if decide (k = h) then Z.of_nat (length (filter (λ m, cm_address m = a) ts)) else 0%Z.
Proof.
  induction ts as [|m ts IH]; [cbn; by case_decide|]. rewrite filter_cons. cbn.
  destruct (decide (cm_address m = a)); [|done]. rewrite occ_cons, IH.
  repeat case_decide; cbn [length]; lia.
Qed.

Lemma occ_planned (ts_of : pystr → list ClusterMember) hashes h a :
  NoDup hashes → h ∈ hashes →
  occ h (k ← hashes; omap (λ m, if decide (cm_address m = a) then Some k else None) (ts_of k))
  = Z.of_nat (length (filter (λ m, cm_address m = a) (ts_of h))).
Proof.
  assert (∀ l k, occ h (l ++ k) = (occ h l + occ h k)%Z) as Happ
    by (intros; unfold occ; rewrite filter_app, length_app; lia).
  induction 1 as [|k hashes Hk _ IH]; intros Hin; [by inversion Hin|]. cbn.
  rewrite Happ, occ_omap. apply elem_of_cons in Hin as [->|Hin].
  - rewrite decide_True by done.
    enough (occ k (hashes ≫= (λ k, omap (λ m, if decide (cm_address m = a) then Some k else None) (ts_of k))) = 0%Z) by lia.
    clear IH. induction hashes as [|j js IHj]; [done|]. cbn. rewrite Happ, occ_omap, decide_False by set_solver.
    rewrite IHj; [done|set_solver].
  - rewrite decide_False by (intros ->; done). by rewrite IH.
Qed.

(** ** Outcomes of a push *)

Section outcomes.
Context (blake3 : bytes → bytes) (cluster : ClusterView) (token origin : pystr) (rf : Z).
Context (Horigin : strip origin ≠ []) (Hrf : (0 <= rf)%Z).
Context (run : ClusterMember → list pystr → rpc TargetExecutionResult).

Definition targets_of (h : pystr) : list ClusterMember := targets blake3 cluster token origin rf h.

(** How many targets of [h] gave an acknowledgement accepted by [P]. *)
Definition acked_targets (p : ReplicationTargetPlan) (P : TargetAck → bool) (h : pystr) : Z :=
  Z.of_nat (length (filter (λ m, acked_at p run P (cm_address m) h = true) (targets_of h))).

Definition outcome_spec (p : ReplicationTargetPlan) (h : pystr) (o : ChunkReplicationOutcome) : Prop :=
  oc_chunk_hash o = h
  ∧ oc_stored o = acked_targets p is_stored h
  ∧ oc_already_present o = acked_targets p is_already_present h
  ∧ oc_protected o = (oc_stored o + oc_already_present o)%Z
  ∧ oc_required o = (if bool_decide (targets_of h = []) then rf else Z.of_nat (length (targets_of h))).

Lemma initial_accumulators hashes p :
  plan_inv blake3 cluster token origin rf hashes p →
  mapM_res (initial_accumulator p) hashes
  = Ok ((λ h, (h, {| ca_required := Z.of_nat (length (targets_of h)); ca_stored := 0;
                     ca_already_present := 0; ca_errors := [] |})) <$> hashes).
Proof.
  intros [i1 _ _ _ _]. apply mapM_res_Ok. apply Forall2_fmap_r, Forall_Forall2_diag.
  apply Forall_forall. intros h Hh. unfold initial_accumulator. by rewrite i1, decide_True.
Qed.

Lemma lookup_initial (f : pystr → ChunkAccumulator) hashes h :
  NoDup hashes → h ∈ hashes →
  (list_to_map ((λ h, (h, f h)) <$> hashes) : accumulators) !! h = Some (f h).
Proof.
  intros Hnd Hh. apply elem_of_list_to_map_1.
  - rewrite <-list_fmap_compose. by rewrite list_fmap_id.
  - apply list_elem_of_fmap. eauto.
Qed.

Lemma planned_occ hashes p a h :
  NoDup hashes → plan_inv blake3 cluster token origin rf hashes p → h ∈ hashes →
  occ h (default [] (target_chunks p !! a))
  = Z.of_nat (length (filter (λ m, cm_address m = a) (targets_of h))).
Proof. intros Hnd [_ i2 _ _ _] Hh. rewrite i2. by apply occ_planned. Qed.

Lemma target_planned hashes p h m :
  plan_inv blake3 cluster token origin rf hashes p → h ∈ hashes → m ∈ targets_of h →
  is_Some (target_chunks p !! cm_address m).
Proof.
  intros [_ i2 _ _ _] Hh Hm. specialize (i2 (cm_address m)).
  assert (h ∈ default [] (target_chunks p !! cm_address m)) as Hin
    by (rewrite i2; apply elem_of_planned_hashes; eauto).
  destruct (target_chunks p !! cm_address m); [by eexists|by inversion Hin].
Qed.

(** The accumulators once every target has completed, in any order. *)
Lemma drain_counts hashes p order :
  NoDup hashes → plan_inv blake3 cluster token origin rf hashes p →
  order ≡ₚ (map_to_list (target_chunks p)).*1 →
  ∃ accs0 accs, mapM_res (initial_accumulator p) hashes = Ok accs0
    ∧ drain p run order (list_to_map accs0) = Ok accs
    ∧ ∀ h, h ∈ hashes → ∃ a, accs !! h = Some a ∧ ca_required a = Z.of_nat (length (targets_of h))
        ∧ ca_stored a = acked_targets p is_stored h
        ∧ ca_already_present a = acked_targets p is_already_present h.
Proof.
  intros Hnd Hinv Hord. pose proof Hinv as [i1 i2 i3 i4 i5].
  rewrite (initial_accumulators hashes p) by done.
  set (init := λ h, {| ca_required := Z.of_nat (length (targets_of h)); ca_stored := 0;
                       ca_already_present := 0; ca_errors := [] |}). eexists.
  assert (NoDup order) as Hndo by (rewrite Hord; apply NoDup_fst_map_to_list).
  assert (∀ a, a ∈ order ↔ is_Some (target_chunks p !! a)) as Hkeys.
  { intros a. rewrite Hord, list_elem_of_fmap. split.
    - intros ([k v] & -> & Hin). apply elem_of_map_to_list in Hin. by exists v.
    - intros [v Hv]. exists (a, v). by rewrite elem_of_map_to_list. }
  destruct (drain_spec p run order (list_to_map ((λ h, (h, init h)) <$> hashes))) as (accs & E & Hspec).
  - apply Forall_forall. intros a Ha. apply Hkeys in Ha. split; [by apply i4|done].
  - intros a h Hh. rewrite i2 in Hh. apply elem_of_planned_hashes in Hh as [Hh _].
    by rewrite lookup_initial.
  - exists accs. split; [done|]. split; [exact E|]. intros h Hh. specialize (Hspec h).
    rewrite lookup_initial in Hspec by done. destruct Hspec as (a & Ha & S1 & S2 & S3).
    exists a. split; [done|]. split; [done|]. rewrite S2, S3. unfold acked_targets.
    assert (∀ P, sumZ (λ ad, occ h (default [] (target_chunks p !! ad)) * Z.b2z (acked_at p run P ad h))%Z order
      = Z.of_nat (length (filter (λ m, acked_at p run P (cm_address m) h = true) (targets_of h)))) as Hs.
    { intros P. rewrite <-(sum_by_address (λ a, acked_at p run P a h) _ order) by
        (try done; intros m Hm; apply Hkeys; by eapply target_planned).
      apply sumZ_ext. intros ad _. by rewrite (planned_occ hashes). }
    rewrite !Hs. cbn. split; lia.
Qed.

Lemma push_outcomes_spec hashes order p :
  plan_chunk_replication_targets blake3 cluster (ordered_unique hashes) rf token origin = Ok p →
  order ≡ₚ (map_to_list (target_chunks p)).*1 →
  plan_inv blake3 cluster token origin rf (ordered_unique hashes) p
  ∧ ∃ outs, push_chunk_replicas blake3 cluster hashes rf token origin run order = Ok outs
      ∧ Forall2 (outcome_spec p) (ordered_unique hashes) outs.
Proof.
  intros Hp Hord. unfold push_chunk_replicas. rewrite Hp. cbn [mbind res_bind].
  destruct (plan_exists blake3 cluster token origin rf Horigin Hrf (ordered_unique hashes)) as (p' & Hp' & Hinv).
  rewrite Hp in Hp'. injection Hp' as <-.
  rewrite ordered_unique_nodup in Hinv by apply NoDup_ordered_unique. split; [done|].
  destruct (drain_counts (ordered_unique hashes) p order) as (accs0 & accs & -> & E & Hspec);
    [apply NoDup_ordered_unique|done|done|].
  cbn [mbind res_bind]. rewrite E. cbn [mbind res_bind].
  assert (∀ l, (∀ h, h ∈ l → h ∈ ordered_unique hashes) →
    ∃ outs, mapM_res (outcome_of p rf accs) l = Ok outs ∧ Forall2 (outcome_spec p) l outs) as H;
    [|by apply H].
  induction l as [|h l IH]; intros Hl; cbn [mapM_res]; [eexists; split; [done|constructor]|].
  destruct IH as (outs & -> & Houts); [intros; apply Hl; by right|].
  destruct (Hspec h) as (a & Ha & S1 & S2 & S3); [apply Hl; left|].
  unfold outcome_of. rewrite Ha. destruct Hinv as [i1 _ _ _ _]. rewrite i1, decide_True by (apply Hl; left).
  case_bool_decide as Hts; cbn [mbind res_bind]; eexists; (split; [done|]); constructor; try done.
  - injection Hts as Hts. unfold outcome_spec, acked_targets; cbn. fold (targets_of h) in Hts.
    rewrite Hts. rewrite bool_decide_true by done. done.
  - unfold outcome_spec; cbn. rewrite S1, S2, S3. split_and!; try done.
    + unfold ca_protected. lia.
    + rewrite bool_decide_false; [done|]. fold (targets_of h) in Hts. congruence.
Qed.

(** Stored and already present are exclusive, so no target counts twice. *)
Lemma acked_targets_bound p h :
  (0 <= acked_targets p is_stored h)%Z ∧ (0 <= acked_targets p is_already_present h)%Z
  ∧ (acked_targets p is_stored h + acked_targets p is_already_present h
     = acked_targets p is_success h)%Z
  ∧ (acked_targets p is_success h <= Z.of_nat (length (targets_of h)))%Z.
Proof.
  unfold acked_targets. split_and!; try lia; induction (targets_of h) as [|m ts IH]; try (cbn; lia).
  - rewrite !filter_cons. unfold acked_at, acked in *.
    destruct (target_members p !! cm_address m) as [mm|], (target_chunks p !! cm_address m) as [hs|];
      repeat case_decide; cbn [length]; try lia; try done.
    all: destruct (tr_acks _ !! h) as [ack|]; try done.
    all: unfold is_success, is_stored, is_already_present, STORE_STATUS_STORED,
      STORE_STATUS_ALREADY_PRESENT in *.
    all: destruct (Z.eqb_spec (ack_status ack) 1), (Z.eqb_spec (ack_status ack) 2); cbn in *; try done; lia.
  - rewrite filter_cons. case_decide; cbn [length] in *; lia.
Qed.
End outcomes.

(** ** Storing the outcomes *)

Lemma catalog_eq q c c1 c2 :
  with_protection (λ _, q) c1 = c → with_protection (λ _, q) c2 = c →
  chunk_protection c1 = chunk_protection c2 → c1 = c2.
Proof. destruct c1, c2; unfold with_protection; cbn. intros <- H ->. by injection H as -> -> -> -> -> -> -> ->. Qed.

Lemma last_update_app h l1 l2 acc :
  last_update h (l1 ++ l2) acc = last_update h l2 (last_update h l1 acc).
Proof. revert acc. induction l1; intros acc; cbn; auto. Qed.

Lemma push_upsert_again now row row' old :
  push_upsert now row (Some (push_upsert now row' old)) = push_upsert now row old.
Proof. done. Qed.

Lemma valid_update_chunks c c' allowed up :
  chunks c' = chunks c → valid_update c allowed up → valid_update c' allowed up.
Proof. unfold valid_update. by intros ->. Qed.

Notation push_states := [PLACED; DEGRADED; FAILED].

Lemma apply_push_Ok c ups now :
  Forall (valid_update c push_states) ups →
  ∃ c', apply_chunk_push_updates c ups now = Ok (Z.of_nat (length ups), c')
        ∧ chunks c' = chunks c ∧ with_protection (λ _, chunk_protection c) c' = c
        ∧ ∀ h, chunk_protection c' !! h
               = updated (push_upsert now) h (last_update h (normalized <$> ups) None) (chunk_protection c !! h).
Proof.
  intros Hv. apply (apply_updates_is_ok push_states (push_upsert now)) in Hv.
  unfold apply_chunk_push_updates.
  destruct (apply_updates push_states (push_upsert now) c ups) as [[n c']|] eqn:E; [|done].
  destruct (apply_updates_result _ _ _ _ _ _ (push_upsert_again now) E) as (-> & Hc & Hl).
  exists c'. split_and!; auto. by rewrite <-Hc.
Qed.

Lemma apply_push_app c l1 l2 now c1 :
  Forall (valid_update c push_states) (l1 ++ l2) →
  snd <$> apply_chunk_push_updates c l1 now = Ok c1 →
  snd <$> apply_chunk_push_updates c (l1 ++ l2) now = snd <$> apply_chunk_push_updates c1 l2 now.
Proof.
  intros Hv H1. pose proof Hv as [Hv1 Hv2]%Forall_app.
  destruct (apply_push_Ok c l1 now Hv1) as (c1' & E1 & Hch1 & Hc1 & Hl1). rewrite E1 in H1.
  injection H1 as <-. assert (Forall (valid_update c1' push_states) l2) as Hv2'.
  { eapply Forall_impl; [exact Hv2|]. intros. by eapply valid_update_chunks. }
  destruct (apply_push_Ok c1' l2 now Hv2') as (c2 & E2 & Hch2 & Hc2 & Hl2).
  destruct (apply_push_Ok c (l1 ++ l2) now Hv) as (c3 & E3 & _ & Hc3 & Hl3).
  rewrite E2, E3. cbn. f_equal. apply (catalog_eq (chunk_protection c) c); [done| |].
  - transitivity (with_protection (λ _, chunk_protection c) c1'); [|done].
    rewrite <-Hc2. by destruct c2.
  - apply map_eq. intros h. rewrite Hl3, Hl2, Hl1, fmap_app, last_update_app.
    destruct (last_update h (normalized <$> l1) None) as [row|] eqn:El; [|done].
    rewrite <-(updated_last (push_upsert now) (push_upsert_again now) h _ (Some row)). done.
Qed.

Lemma flush_is_apply now c ups n c' :
  apply_chunk_push_updates c ups now = Ok (n, c') → flush_updates now ups c = (Ok (), c').
Proof. destruct ups; cbn [flush_updates]; [by intros [= _ <-]|]. by intros ->. Qed.

(** Committing in batches stores what committing everything at once would store. *)
Lemma push_loop_spec rf epoch ce now outs c pending stats :
  Forall (valid_update c push_states) (pending ++ (outcome_update rf epoch <$> outs)) →
  ∃ n c', apply_chunk_push_updates c (pending ++ (outcome_update rf epoch <$> outs)) now = Ok (n, c')
    ∧ push_loop rf epoch ce (λ _, now) pending stats outs c
      = (Ok (fold_left (count_outcome rf) outs stats), c').
Proof.
  revert c pending stats. induction outs as [|o outs IH]; intros c pending stats Hv; cbn [push_loop].
  { cbn [fmap list_fmap] in *. rewrite app_nil_r in *.
    destruct (apply_push_Ok c pending now Hv) as (c1 & E1 & _). do 2 eexists. split; [exact E1|].
    by rewrite sm_bind_spec, (flush_is_apply _ _ _ _ _ E1). }
  cbn [fmap list_fmap] in Hv |- *. rewrite cons_middle, app_assoc in Hv |- *.
  set (pending' := pending ++ [outcome_update rf epoch o]) in *.
  destruct (_ <=? _)%Z; [|by apply IH].
  pose proof Hv as [Hv1 Hv2]%Forall_app.
  destruct (apply_push_Ok c pending' now Hv1) as (c1 & E1 & Hch & _).
  rewrite sm_bind_spec, (flush_is_apply _ _ _ _ _ E1).
  destruct (IH c1 [] (count_outcome rf stats o)) as (n & c' & E & EL).
  { cbn [app]. eapply Forall_impl; [exact Hv2|]. intros. by eapply valid_update_chunks. }
  destruct (apply_push_Ok c _ now Hv) as (c2 & E2 & _). do 2 eexists. split; [exact E2|].
  rewrite EL. cbn [fold_left]. do 2 f_equal.
  pose proof (apply_push_app c pending' _ now c1 Hv ltac:(by rewrite E1)) as Happ.
  cbn [app] in E. rewrite E2, E in Happ. cbn in Happ. congruence.
Qed.

Lemma last_update_notin h rows acc : h ∉ up_chunk_hash <$> rows → last_update h rows acc = acc.
Proof.
  revert acc. induction rows as [|r rows IH]; intros acc Hh; cbn; [done|].
  rewrite bool_decide_false by (intros <-; apply Hh; left). apply IH. intros ?. apply Hh. by right.
Qed.

Lemma last_update_unique h row rows acc :
  up_chunk_hash row = h → NoDup (up_chunk_hash <$> rows) → row ∈ rows →
  last_update h rows acc = Some row.
Proof.
  intros <-. revert acc. induction rows as [|r rows IH]; intros acc Hnd Hin; [by inversion Hin|].
  cbn in Hnd |- *. apply NoDup_cons in Hnd as [Hr Hnd]. apply elem_of_cons in Hin as [<-|Hin]; [|by apply IH].
  rewrite bool_decide_true by done. by apply last_update_notin.
Qed.

(** Updates never claim protection without the copies. *)
Lemma outcome_update_honest rf epoch o : honest (outcome_update rf epoch o).
Proof.
  unfold honest, outcome_update. cbn. unfold replication_push_state, protection_state_from_thresholds.
  destruct (Z.leb_spec rf (oc_protected o)); [done|]. by destruct (_ <=? _)%Z.
Qed.

(** The row a push writes is sufficient exactly when the copies were confirmed. *)
Lemma push_state_decides h rf epoch now o old :
  (0 < rf)%Z → oc_chunk_hash o = h →
  is_record_sufficient (Some (push_upsert now (outcome_update rf epoch o) old)) rf (Some epoch) = Ok true
  ↔ (rf <= oc_protected o)%Z.
Proof.
  intros Hrf _. rewrite sufficient_spec. unfold sufficient, push_upsert, outcome_update; cbn.
  unfold replication_push_state, protection_state_from_thresholds. split.
  - intros (_ & [?|(r & [= <-] & _ & _ & Hc & _)]); [lia|done].
  - intros Hc. split; [lia|]. right. eexists; split; [reflexivity|]. cbn.
    rewrite (proj2 (Z.leb_le _ _) Hc). split_and!; auto; lia.
Qed.

Lemma normalized_outcomes rf epoch outs :
  Forall (λ o, is_valid_blake3_hex (oc_chunk_hash o) = true) outs →
  normalized <$> (outcome_update rf epoch <$> outs) = outcome_update rf epoch <$> outs.
Proof.
  induction 1 as [|x l Hx _ IH]; [done|]. cbn. rewrite IH. f_equal.
  unfold normalized, outcome_update; cbn. f_equal. by apply valid_hex_strip.
Qed.

(** The rows after a push of outcomes with distinct hashes. *)
Lemma pushed_rows rf epoch ce now c outs :
  Forall (valid_update c push_states) (outcome_update rf epoch <$> outs) →
  NoDup (oc_chunk_hash <$> outs) → Forall (λ o, is_valid_blake3_hex (oc_chunk_hash o) = true) outs →
  ∃ n c', push_outcomes rf epoch ce (λ _, now) outs c
          = (Ok (fold_left (count_outcome rf) outs empty_counters), c')
    ∧ apply_chunk_push_updates c (outcome_update rf epoch <$> outs) now = Ok (n, c')
    ∧ (∀ h, h ∉ oc_chunk_hash <$> outs → chunk_protection c' !! h = chunk_protection c !! h)
    ∧ ∀ o, o ∈ outs → chunk_protection c' !! oc_chunk_hash o
        = Some (push_upsert now (outcome_update rf epoch o) (chunk_protection c !! oc_chunk_hash o)).
Proof.
  intros Hv Hnd Hhash.
  destruct (push_loop_spec rf epoch ce now outs c [] empty_counters Hv) as (n & c' & E & EL).
  destruct (apply_push_Ok c _ now Hv) as (c2 & E2 & _ & _ & Hl).
  cbn [app] in E. rewrite E2 in E. injection E as <- <-. rewrite normalized_outcomes in Hl by done.
  assert (up_chunk_hash <$> (outcome_update rf epoch <$> outs) = oc_chunk_hash <$> outs) as Hh
    by (by rewrite <-list_fmap_compose).
  do 2 eexists. split_and!; [exact EL|exact E2| |].
  - intros h Hn. rewrite Hl, last_update_notin by (by rewrite Hh). done.
  - intros o Ho. rewrite Hl, (last_update_unique _ (outcome_update rf epoch o));
      [done|done|by rewrite Hh|by apply list_elem_of_fmap_2].
Qed.

(** A pushed row is pending again exactly when copies are missing. *)
Lemma pushed_row_pending rf epoch now o old :
  (0 < rf)%Z →
  pending_row rf (Some epoch) (push_upsert now (outcome_update rf epoch o) old) = true
  ↔ (oc_protected o < rf)%Z.
Proof.
  intros Hrf. pose proof (push_state_decides (oc_chunk_hash o) rf epoch now o old Hrf eq_refl) as H.
  rewrite (pending_row_insufficient rf (Some epoch)) in H
    by (try done; apply (outcome_update_honest rf epoch o)).
  destruct (pending_row _ _ _); cbn [negb] in H.
  - split; [|done]. intros _. destruct (Z.lt_ge_cases (oc_protected o) rf); [done|]. naive_solver.
  - split; [done|]. intros Hlt. assert (rf <= oc_protected o)%Z by (by apply H). lia.
Qed.

(** ** Properties *)

(** whatever the order in which the targets complete and whatever they answer, a push
    yields one outcome per distinct chunk, in order; a chunk's stored and already present
    counts are the numbers of its planned targets that acknowledged it that way, so no
    outcome reports more copies than targets, and no more targets than copies asked for. *)
Theorem push_outcomes_correct blake3 cluster hashes rf token origin run order p :
  (0 <= rf)%Z → strip origin ≠ [] →
  plan_chunk_replication_targets blake3 cluster (ordered_unique hashes) rf token origin = Ok p →
  order ≡ₚ (map_to_list (target_chunks p)).*1 →
  ∃ outs, push_chunk_replicas blake3 cluster hashes rf token origin run order = Ok outs
    ∧ oc_chunk_hash <$> outs = ordered_unique hashes
    ∧ ∀ o, o ∈ outs →
        let ts := default [] (chunk_targets p !! oc_chunk_hash o) in
        let count P := Z.of_nat (length (filter (λ m,
          acked_at p run P (cm_address m) (oc_chunk_hash o) = true) ts)) in
        oc_stored o = count is_stored ∧ oc_already_present o = count is_already_present
        ∧ oc_protected o = count is_success
        ∧ (0 <= oc_protected o <= Z.of_nat (length ts))%Z ∧ (Z.of_nat (length ts) <= rf)%Z.
Proof.
  intros Hrf Ho Hp Hord.
  destruct (push_outcomes_spec blake3 cluster token origin rf Ho Hrf run hashes order p Hp Hord)
    as (Hinv & outs & E & Hspec). exists outs. split_and!; [done| |].
  - clear -Hspec. induction Hspec as [|h o hs outs Hh _ IH]; [done|]. cbn. rewrite IH. f_equal. apply Hh.
  - intros o Hin. apply list_elem_of_lookup in Hin as [i Hi].
    destruct (Forall2_lookup_r _ _ _ _ _ Hspec Hi) as (h & Hh & S1 & S2 & S3 & S4 & S5).
    apply list_elem_of_lookup_2 in Hh. rewrite S1. rewrite (pi_targets _ _ _ _ _ _ _ Hinv).
    rewrite decide_True by done. cbn zeta. cbn [default from_option].
    pose proof (acked_targets_bound blake3 cluster token origin rf run p h) as (B1 & B2 & B3 & B4).
    unfold acked_targets, targets_of in *. change (id ?x) with x. split_and!; try done; try lia.
    unfold targets. rewrite <-(length_fmap cm_node_id), targets_node_ids, hrw_top_k_ranking.
    rewrite length_fmap, length_take. lia.
Qed.

Definition example_member (n : N) : ClusterMember :=
  {| cm_node_id := [n]; cm_address := [n; 58%N; 49%N] |}.
Definition example_cluster : ClusterView :=
  {| self_node_id := Some [97%N]; members := example_member <$> [97; 98; 99]%N |}.

(** Every target stores what it is sent. *)
Definition all_stored (m : ClusterMember) (hashes : list pystr) : rpc TargetExecutionResult :=
  RpcOk {| tr_node_id := cm_node_id m; tr_address := cm_address m;
           tr_acks := list_to_map ((λ h, (h, make_ack (cm_node_id m) (cm_address m) h
                                                STORE_STATUS_STORED [])) <$> hashes);
           tr_transport_error := None |}.

Definition plan_order (r : res ReplicationTargetPlan) : list pystr :=
  match r with Ok p => (map_to_list (target_chunks p)).*1 | Err _ => [] end.

Lemma push_outcomes_correct_witness :
  ∃ p outs,
    plan_chunk_replication_targets (λ b, b) example_cluster [example_hash 97] 2 (u "t") [97%N] = Ok p
    ∧ push_chunk_replicas (λ b, b) example_cluster [example_hash 97] 2 (u "t") [97%N] all_stored
        (map_to_list (target_chunks p)).*1 = Ok outs
    ∧ oc_chunk_hash <$> outs = [example_hash 97].
Proof.
  destruct (plan_exists (λ b, b) example_cluster (u "t") [97%N] 2 ltac:(by compute) ltac:(lia)
    (ordered_unique [example_hash 97])) as (p & Hp & _).
  destruct (push_outcomes_correct (λ b, b) example_cluster [example_hash 97] 2 (u "t") [97%N] all_stored
    _ p ltac:(lia) ltac:(by compute) Hp (Permutation_refl _)) as (outs & E & Hh & _).
  exists p, outs. split_and!; [exact Hp|exact E|by rewrite Hh].
Defined.

(** PLACED means real copies: when no two members share an address, a chunk is stored
    as PLACED only if at least [rf] distinct members, none of them the origin, at distinct
    addresses, acknowledged having it. *)
Theorem placed_means_copies blake3 cluster hashes rf token origin run order p outs epoch o :
  (0 < rf)%Z → strip origin ≠ [] → NoDup (node_ids cluster) →
  NoDup (cm_address <$> members cluster) →
  plan_chunk_replication_targets blake3 cluster (ordered_unique hashes) rf token origin = Ok p →
  order ≡ₚ (map_to_list (target_chunks p)).*1 →
  push_chunk_replicas blake3 cluster hashes rf token origin run order = Ok outs → o ∈ outs →
  up_protection_state (outcome_update rf epoch o) = PLACED →
  ∃ ms, (rf <= Z.of_nat (length ms))%Z ∧ NoDup (cm_node_id <$> ms) ∧ NoDup (cm_address <$> ms)
    ∧ ∀ m, m ∈ ms → m ∈ members cluster ∧ cm_node_id m ≠ strip origin
        ∧ acked_at p run is_success (cm_address m) (oc_chunk_hash o) = true.
Proof.
  intros Hrf Ho Hids Haddr Hp Hord Hpush Hin Hst. assert (0 <= rf)%Z as Hrf' by lia.
  destruct (push_outcomes_spec blake3 cluster token origin rf Ho Hrf' run hashes order p Hp Hord)
    as (Hinv & outs' & E & Hspec). rewrite E in Hpush. injection Hpush as ->.
  apply list_elem_of_lookup in Hin as [i Hi].
  destruct (Forall2_lookup_r _ _ _ _ _ Hspec Hi) as (h & Hh & S1 & S2 & S3 & S4 & S5).
  pose proof (acked_targets_bound blake3 cluster token origin rf run p h) as (B1 & B2 & B3 & B4).
  set (ts := targets blake3 cluster token origin rf h) in *.
  assert (rf <= oc_protected o)%Z as Hc.
  { unfold outcome_update in Hst; cbn in Hst.
    unfold replication_push_state, protection_state_from_thresholds in Hst.
    destruct (Z.leb_spec rf (oc_protected o)); [done|]. by destruct (_ <=? _)%Z. }
  assert (∀ m, m ∈ ts → m ∈ members cluster ∧ cm_node_id m ≠ [] ∧ cm_node_id m ∉ [strip origin]) as Hsound
    by apply targets_sound.
  assert (NoDup (cm_node_id <$> ts)) as Hnd.
  { unfold ts, targets. rewrite targets_node_ids, hrw_top_k_ranking.
    eapply sublist_NoDup; [apply ranking_snd_NoDup|apply sublist_fmap, sublist_take].
    unfold candidate_node_ids_excluding, candidate_members_excluding.
    eapply sublist_NoDup; [exact Hids|apply sublist_fmap, sublist_filter]. }
  exists (filter (λ m, acked_at p run is_success (cm_address m) h = true) ts).
  split_and!.
  - change (Z.of_nat _) with (acked_targets blake3 cluster token origin rf run p is_success h). lia.
  - eapply sublist_NoDup; [exact Hnd|apply sublist_fmap, sublist_filter].
  - eapply sublist_NoDup; [|apply sublist_fmap, sublist_filter].
    apply NoDup_fmap_1 in Hnd. clear -Hnd Hsound Haddr.
    assert (∀ m m', m ∈ members cluster → m' ∈ members cluster → cm_address m = cm_address m' → m = m') as Hinj.
    { intros m m' [i Hi]%list_elem_of_lookup [j Hj]%list_elem_of_lookup Ea.
      assert (i = j) as ->; [|congruence].
      apply (NoDup_lookup _ i j (cm_address m) Haddr); rewrite list_lookup_fmap, ?Hi, ?Hj; cbn; congruence. }
    induction Hnd as [|m ms Hm _ IH]; cbn; [constructor|]. constructor.
    + intros (m' & Ea & Hm')%list_elem_of_fmap. apply Hm.
      assert (m = m') as -> by (apply Hinj; [apply Hsound; left|apply Hsound; by right|done]). done.
    + apply IH. intros; apply Hsound; by right.
  - intros m [Hack Hm]%list_elem_of_filter. destruct (Hsound m Hm) as (? & ? & ?). rewrite S1.
    split_and!; [done|set_solver|done].
Qed.

Definition example_push : res (list ChunkReplicationOutcome) :=
  push_chunk_replicas (λ b, b) example_cluster [example_hash 97] 2 (u "t") [97%N] all_stored
    (plan_order (plan_chunk_replication_targets (λ b, b) example_cluster [example_hash 97] 2 (u "t") [97%N])).

Definition example_outcome : ChunkReplicationOutcome := {|
  oc_chunk_hash := example_hash 97; oc_required := 2; oc_protected := 2; oc_stored := 2;
  oc_already_present := 0; oc_error := None |}.

Lemma example_push_outcome : example_push = Ok [example_outcome].
Proof. vm_compute. reflexivity. Qed.

Lemma placed_means_copies_witness :
  ∃ ms, (2 <= Z.of_nat (length ms))%Z ∧ NoDup (cm_node_id <$> ms) ∧ NoDup (cm_address <$> ms)
    ∧ ∀ m, m ∈ ms → m ∈ members example_cluster ∧ cm_node_id m ≠ [97%N].
Proof.
  destruct (plan_exists (λ b, b) example_cluster (u "t") [97%N] 2 ltac:(by compute) ltac:(lia)
    (ordered_unique [example_hash 97])) as (p & Hp & _).
  pose proof example_push_outcome as E. unfold example_push in E.
  change (plan_chunk_replication_targets (λ b, b) example_cluster [example_hash 97] 2 (u "t") [97%N])
    with (plan_chunk_replication_targets (λ b, b) example_cluster (ordered_unique [example_hash 97]) 2
            (u "t") [97%N]) in E.
  rewrite Hp in E.
  destruct (placed_means_copies (λ b, b) example_cluster [example_hash 97] 2 (u "t") [97%N] all_stored
    _ p _ (u "e") example_outcome ltac:(lia) ltac:(by compute) ltac:(by_compute) ltac:(by_compute)
    Hp (Permutation_refl _) E ltac:(left) ltac:(by compute)) as (ms & H1 & H2 & H3 & H4).
  exists ms. split_and!; [done..|]. intros m Hm. destruct (H4 m Hm) as (? & ? & _). by split.
Defined.

(** How often a push commits does not matter: if every update is acceptable, the
    final catalogue is the one a single batch would leave, for any [commit_every]. *)
Theorem commit_every_irrelevant rf epoch ce now c outs :
  Forall (valid_update c [PLACED; DEGRADED; FAILED]) (outcome_update rf epoch <$> outs) →
  ∃ c', push_outcomes rf epoch ce (λ _, now) outs c
        = (Ok (fold_left (count_outcome rf) outs empty_counters), c')
    ∧ apply_chunk_push_updates c (outcome_update rf epoch <$> outs) now = Ok (Z.of_nat (length outs), c').
Proof.
  intros Hv. unfold push_outcomes.
  destruct (push_loop_spec rf epoch ce now outs c [] empty_counters Hv) as (n & c' & E & EL).
  exists c'. split; [exact EL|]. destruct (apply_push_Ok c _ now Hv) as (c2 & E2 & _).
  cbn [app] in E. rewrite E2 in E. injection E as _ <-. by rewrite E2, length_fmap.
Qed.

Lemma example_update_valid :
  Forall (valid_update example_table [PLACED; DEGRADED; FAILED])
    (outcome_update 2 (u "e2") <$> [example_outcome]).
Proof.
  cbn [fmap list_fmap]. apply Forall_singleton. unfold valid_update, example_table.
  split_and!; [by_compute|done..|]. cbn [with_chunks with_protection chunks outcome_update up_chunk_hash].
  change (oc_chunk_hash example_outcome) with (example_hash 97).
  rewrite strip_hex by done. by rewrite lookup_insert_eq.
Qed.

Lemma commit_every_irrelevant_witness :
  ∃ c', push_outcomes 2 (u "e2") 500 (λ _, 0%Q) [example_outcome] example_table
        = (Ok (fold_left (count_outcome 2) [example_outcome] empty_counters), c').
Proof.
  destruct (commit_every_irrelevant 2 (u "e2") 500 0 example_table [example_outcome]
    example_update_valid) as (c' & E & _).
  exists c'. exact E.
Defined.

(** After a push a chunk counts as protected in the placement epoch exactly when as
    many copies as required were confirmed; otherwise the next push will select it. *)
Theorem push_then_protected rf epoch ce now c outs stats c' o :
  (0 < rf)%Z →
  Forall (valid_update c [PLACED; DEGRADED; FAILED]) (outcome_update rf epoch <$> outs) →
  NoDup (oc_chunk_hash <$> outs) → Forall (λ o, is_valid_blake3_hex (oc_chunk_hash o) = true) outs →
  push_outcomes rf epoch ce (λ _, now) outs c = (Ok stats, c') → o ∈ outs →
  (is_chunk_remotely_protected c' (oc_chunk_hash o) rf (Some epoch) = Ok true ↔ (rf <= oc_protected o)%Z)
  ∧ (oc_chunk_hash o ∈ get_pending_protection_chunks c' rf (Some epoch) None ↔ (oc_protected o < rf)%Z).
Proof.
  intros Hrf Hv Hnd Hhash Hpush Hin.
  destruct (pushed_rows rf epoch ce now c outs Hv Hnd Hhash) as (n & c2 & E & _ & _ & Hrows).
  rewrite Hpush in E. injection E as -> ->. specialize (Hrows o Hin). split.
  - unfold is_chunk_remotely_protected, get_chunk_protection. rewrite Hrows.
    by apply (push_state_decides (oc_chunk_hash o)).
  - unfold get_pending_protection_chunks. rewrite elem_of_select, Hrows. split.
    + intros (r & [= <-] & Hp). by apply pushed_row_pending in Hp.
    + intros Hlt. eexists. split; [done|]. by apply pushed_row_pending.
Qed.

Lemma push_then_protected_witness :
  ∃ c' stats, push_outcomes 2 (u "e2") 500 (λ _, 0%Q) [example_outcome] example_table = (Ok stats, c')
    ∧ is_chunk_remotely_protected c' (example_hash 97) 2 (Some (u "e2")) = Ok true.
Proof.
  destruct (push_loop_spec 2 (u "e2") 500 0 [example_outcome] example_table [] empty_counters
    example_update_valid) as (n & c' & _ & E).
  exists c'. eexists. split; [exact E|].
  apply (push_then_protected 2 (u "e2") 500 0 example_table [example_outcome] _ c' example_outcome
    ltac:(lia) example_update_valid ltac:(by_compute) ltac:(by_compute) E ltac:(left)). by cbn.
Defined.
