(* ===== verification/ReplicationVerify.v ===== *)
(** * Verifying remote copies

    [protection/replication/verifier.py] and [verify_models.py], with [probe_target] of
    [remote_client.py]: every candidate is planned again with the current members, each
    address is asked once which of its chunks it misses, and the answers become VERIFIED
    or DEGRADED rows. The answers and the order of completion are arguments. *)

From S2P Require Import Prelude PyStr Common Heapq Hrw Cluster Protection Catalog.
From S2P Require Import ProtectionTable ReplicationPlan ReplicationPush.

(** ** Probing one target *)

Record ProbeExecutionResult := {
  pr_node_id : pystr; pr_address : pystr; pr_requested_hashes : list pystr;
  pr_completed_hashes : gset pystr; pr_present_hashes : gset pystr;
  pr_transport_error : option pystr; pr_rpc_failed_calls : Z }.

(** The batches that were answered, the hashes reported missing and the first failure. *)
Fixpoint probe_target_loop (probe : nat → list pystr → rpc (list pystr)) (i : nat)
    (batches : list (list pystr)) (completed missing : gset pystr)
  : gset pystr * gset pystr * option pystr :=
  match batches with
  | [] => (completed, missing, None)
  | batch :: batches' =>
      match probe i batch with
      | RpcFail e => (completed, missing, Some e)
      | RpcOk hs =>
          probe_target_loop probe (S i) batches' (completed ∪ list_to_set batch)
            (missing ∪ list_to_set (filter (λ h, h ≠ []) hs))
      end
  end.

(** [opened] is the outcome of opening the client and the channel; the texts are those
    of [format_remote_error]. *)
Definition probe_target (opened : rpc unit) (probe : nat → list pystr → rpc (list pystr))
    (probe_batch_hashes : Z) (node_id address : pystr) (chunk_hashes : list pystr)
  : ProbeExecutionResult :=
  let result requested completed present error calls :=
    {| pr_node_id := node_id; pr_address := address; pr_requested_hashes := requested;
       pr_completed_hashes := completed; pr_present_hashes := present;
       pr_transport_error := error; pr_rpc_failed_calls := calls |} in
  let ordered_hashes := ordered_unique chunk_hashes in
  match ordered_hashes with
  | [] => result [] ∅ ∅ None 0%Z
  | _ =>
      match opened with
      | RpcFail e => result ordered_hashes ∅ ∅ (Some e) 1%Z
      | RpcOk _ =>
          let '(completed, missing, error) :=
            probe_target_loop probe 0 (iter_batches ordered_hashes (Z.max 1 probe_batch_hashes)) ∅ ∅ in
          result ordered_hashes completed (completed ∖ missing) error
            (match error with Some _ => 1 | None => 0 end)%Z
      end
  end.

(** [_execute_target_probe] *)
Definition execute_target_probe (opened : ClusterMember → rpc unit)
    (probe : ClusterMember → nat → list pystr → rpc (list pystr)) (probe_batch_hashes : Z)
    (member : ClusterMember) (chunk_hashes : list pystr) : ProbeExecutionResult :=
  probe_target (opened member) (probe member) probe_batch_hashes (cm_node_id member)
    (cm_address member) chunk_hashes.

(** ** Accumulators *)

Record VerificationAccumulator := {
  va_desired_rf : Z; va_placement_epoch : pystr; va_required_remote_copies : Z;
  va_verified_remote_copies : Z; va_errors : list pystr }.

Definition success (a : VerificationAccumulator) : bool :=
  (va_required_remote_copies a <=? va_verified_remote_copies a)%Z.

Definition error_summary (a : VerificationAccumulator) : option pystr :=
  if success a then None
  else
    let prefix := u "verified_remote_copies=" ++ str_of_Z (va_verified_remote_copies a) ++ u "/"
                  ++ str_of_Z (va_required_remote_copies a) in
    Some (match join_errors (va_errors a) with
          | None => prefix
          | Some errors => prefix ++ u "; " ++ take 1800 errors
          end).

Definition va_add_error (e : pystr) (a : VerificationAccumulator) : VerificationAccumulator := {|
  va_desired_rf := va_desired_rf a; va_placement_epoch := va_placement_epoch a;
  va_required_remote_copies := va_required_remote_copies a;
  va_verified_remote_copies := va_verified_remote_copies a; va_errors := va_errors a ++ [e] |}.

Definition va_confirm (a : VerificationAccumulator) : VerificationAccumulator := {|
  va_desired_rf := va_desired_rf a; va_placement_epoch := va_placement_epoch a;
  va_required_remote_copies := va_required_remote_copies a;
  va_verified_remote_copies := va_verified_remote_copies a + 1; va_errors := va_errors a |}.

Notation verify_accumulators := (gmap pystr VerificationAccumulator).

(** ** Planning the probes *)

(** [candidates_by_rf.setdefault(desired_rf, []).append(candidate)], in insertion order. *)
Fixpoint group_add (rf : Z) (candidate : VerificationCandidate)
    (groups : list (Z * list VerificationCandidate)) : list (Z * list VerificationCandidate) :=
  match groups with
  | [] => [(rf, [candidate])]
  | (k, g) :: groups' =>
      if bool_decide (k = rf) then (k, g ++ [candidate]) :: groups'
      else (k, g) :: group_add rf candidate groups'
  end.

Fixpoint candidates_by_rf (groups : list (Z * list VerificationCandidate))
    (candidates : list VerificationCandidate) : res (list (Z * list VerificationCandidate)) :=
  match candidates with
  | [] => Ok groups
  | candidate :: candidates' =>
      desired_rf ← normalize_remote_rf (vc_desired_rf candidate);
      candidates_by_rf (group_add desired_rf candidate groups) candidates'
  end.

Record ProbePlan := {
  pp_accumulators : verify_accumulators;
  pp_target_chunks : gmap pystr (list pystr);
  pp_target_members : gmap pystr ClusterMember }.

Definition planned_accumulator (desired_rf : Z) (placement_epoch : pystr)
    (remote_targets : list ClusterMember) : VerificationAccumulator :=
  let a := {| va_desired_rf := desired_rf; va_placement_epoch := placement_epoch;
              va_required_remote_copies := desired_rf; va_verified_remote_copies := 0;
              va_errors := [] |} in
  if (Z.of_nat (length remote_targets) <? desired_rf)%Z
  then va_add_error (u "targets remotos elegibles insuficientes: planned="
         ++ str_of_Z (Z.of_nat (length remote_targets)) ++ u " required_remote_copies="
         ++ str_of_Z desired_rf ++ u " desired_rf=" ++ str_of_Z desired_rf) a
  else a.

Fixpoint plan_accumulators (p : ReplicationTargetPlan) (desired_rf : Z) (placement_epoch : pystr)
    (accs : verify_accumulators) (group : list VerificationCandidate) : res verify_accumulators :=
  match group with
  | [] => Ok accs
  | candidate :: group' =>
      match chunk_targets p !! vc_chunk_hash candidate with
      | None => Err KeyError
      | Some ts =>
          plan_accumulators p desired_rf placement_epoch
            (<[vc_chunk_hash candidate := planned_accumulator desired_rf placement_epoch ts]> accs) group'
      end
  end.

(** [target_chunks.setdefault(address, []).extend(hashes)] for every address of the plan,
    and the member of every address of the plan (they are the same addresses). *)
Definition merge_plan (accs : verify_accumulators) (p : ReplicationTargetPlan) (q : ProbePlan)
  : ProbePlan := {|
  pp_accumulators := accs;
  pp_target_chunks := union_with (λ old new, Some (old ++ new)) (pp_target_chunks q) (target_chunks p);
  pp_target_members := target_members p ∪ pp_target_members q |}.

Section verify.
Context (blake3 : bytes → bytes).

(** The cluster, the token and the origin of the [RemoteProtectionContext]. *)
Context (cluster : ClusterView) (cluster_token origin_node_id : pystr).

(** [_placement_epoch]: its cache only saves work, the epoch is a function of the copies. *)
Definition verify_placement_epoch (required_remote_copies : Z) : res pystr :=
  required ← normalize_remote_rf required_remote_copies;
  if (required =? 0)%Z then Ok []
  else Ok (placement_epoch_excluding blake3 cluster required cluster_token [origin_node_id]).

Definition plan_group (q : ProbePlan) (group : Z * list VerificationCandidate) : res ProbePlan :=
  let '(desired_rf, candidates) := group in
  epoch ← verify_placement_epoch desired_rf;
  p ← plan_chunk_replication_targets blake3 cluster (vc_chunk_hash <$> candidates) desired_rf
        cluster_token origin_node_id;
  accs ← plan_accumulators p desired_rf epoch (pp_accumulators q) candidates;
  Ok (merge_plan accs p q).

Fixpoint plan_groups (q : ProbePlan) (groups : list (Z * list VerificationCandidate)) : res ProbePlan :=
  match groups with
  | [] => Ok q
  | g :: groups' => q' ← plan_group q g; plan_groups q' groups'
  end.

(** [_plan] *)
Definition verify_plan (candidates : list VerificationCandidate) : res ProbePlan :=
  groups ← candidates_by_rf [] candidates;
  plan_groups {| pp_accumulators := ∅; pp_target_chunks := ∅; pp_target_members := ∅ |} groups.

(** ** Collecting the answers *)

(** [accumulators[h].verified_remote_copies += 1] for the completed and present hashes;
    the order of the set does not matter. *)
Fixpoint confirm_hashes (accs : verify_accumulators) (hashes : list pystr) : res verify_accumulators :=
  match hashes with
  | [] => Ok accs
  | h :: hs =>
      match accs !! h with
      | None => Err KeyError
      | Some a => confirm_hashes (<[h := va_confirm a]> accs) hs
      end
  end.

Fixpoint report_hashes (message : pystr) (accs : verify_accumulators) (hashes : list pystr)
  : res verify_accumulators :=
  match hashes with
  | [] => Ok accs
  | h :: hs =>
      match accs !! h with
      | None => Err KeyError
      | Some a => report_hashes message (<[h := va_add_error message a]> accs) hs
      end
  end.

Record RpcCounters := {
  rpc_failed_calls : Z; rpc_failed_targets : Z; rpc_unverified_assignments : Z }.

Definition apply_probe (accs : verify_accumulators) (k : RpcCounters) (r : ProbeExecutionResult)
  : res (verify_accumulators * RpcCounters) :=
  accs1 ← confirm_hashes accs
            (filter (λ h, h ∈ pr_present_hashes r) (elements (pr_completed_hashes r)));
  match pr_transport_error r with
  | Some ((_ :: _) as e) =>
      let unverified := filter (λ h, h ∉ pr_completed_hashes r) (pr_requested_hashes r) in
      accs2 ← report_hashes (u "RPC " ++ short_target (pr_node_id r) (pr_address r) ++ e) accs1 unverified;
      Ok (accs2, {| rpc_failed_calls := rpc_failed_calls k + Z.max 1 (pr_rpc_failed_calls r);
                    rpc_failed_targets := rpc_failed_targets k + 1;
                    rpc_unverified_assignments :=
                      rpc_unverified_assignments k + Z.of_nat (length unverified) |})
  | _ => Ok (accs1, k)
  end.

(** The result of a completed task: its own, or one for a task that raised. *)
Definition probe_result (run : ClusterMember → list pystr → rpc ProbeExecutionResult)
    (member : ClusterMember) (planned_hashes : list pystr) : ProbeExecutionResult :=
  match run member planned_hashes with
  | RpcOk r => r
  | RpcFail e =>
      {| pr_node_id := cm_node_id member; pr_address := cm_address member;
         pr_requested_hashes := planned_hashes; pr_completed_hashes := ∅; pr_present_hashes := ∅;
         pr_transport_error := Some (u "probe del target fall" ++ o_acute ++ u ": " ++ e);
         pr_rpc_failed_calls := 1 |}
  end.

Fixpoint drain_probes (q : ProbePlan) (run : ClusterMember → list pystr → rpc ProbeExecutionResult)
    (order : list pystr) (accs : verify_accumulators) (k : RpcCounters)
  : res (verify_accumulators * RpcCounters) :=
  match order with
  | [] => Ok (accs, k)
  | address :: order' =>
      match pp_target_chunks q !! address, pp_target_members q !! address with
      | Some planned_hashes, Some member =>
          '(accs', k') ← apply_probe accs k (probe_result run member planned_hashes);
          drain_probes q run order' accs' k'
      | _, _ => Err KeyError
      end
  end.

Record VerificationOutcome := {
  vo_chunk_hash : pystr; vo_desired_rf : Z; vo_placement_epoch : pystr;
  vo_required_remote_copies : Z; vo_verified_remote_copies : Z; vo_error : option pystr }.

Definition verification_outcome (accs : verify_accumulators) (candidate : VerificationCandidate)
  : res VerificationOutcome :=
  match accs !! vc_chunk_hash candidate with
  | None => Err KeyError
  | Some a =>
      Ok {| vo_chunk_hash := vc_chunk_hash candidate; vo_desired_rf := va_desired_rf a;
            vo_placement_epoch := va_placement_epoch a;
            vo_required_remote_copies := va_required_remote_copies a;
            vo_verified_remote_copies := va_verified_remote_copies a; vo_error := error_summary a |}
  end.

(** [_verify_candidates] *)
Definition verify_candidates (run : ClusterMember → list pystr → rpc ProbeExecutionResult)
    (order : list pystr) (candidates : list VerificationCandidate)
  : res (list VerificationOutcome * RpcCounters) :=
  q ← verify_plan candidates;
  '(accs, k) ← drain_probes q run order (pp_accumulators q)
                 {| rpc_failed_calls := 0; rpc_failed_targets := 0; rpc_unverified_assignments := 0 |};
  outcomes ← mapM_res (verification_outcome accs) candidates;
  Ok (outcomes, k).

(** ** Storing the results *)

Definition verification_update (o : VerificationOutcome) : ChunkProtectionUpdate :=
  let state := replication_verify_state (vo_verified_remote_copies o) (vo_required_remote_copies o) in
  {| up_chunk_hash := vo_chunk_hash o; up_desired_rf := vo_desired_rf o; up_protection_state := state;
     up_protected_remote_copies := vo_verified_remote_copies o;
     up_placement_epoch := Some (vo_placement_epoch o);
     up_error := if bool_decide (state = VERIFIED) then None
                 else Some (match vo_error o with
                            | Some ((_ :: _) as e) => e
                            | _ => u "verificaci" ++ o_acute ++ u "n fallida"
                            end) |}.

Record VerificationStats := {
  vs_candidates : Z; vs_verified : Z; vs_degraded : Z; vs_rpc_failed_calls : Z;
  vs_rpc_failed_targets : Z; vs_rpc_unverified_assignments : Z }.

Definition empty_verification_stats : VerificationStats := {|
  vs_candidates := 0; vs_verified := 0; vs_degraded := 0; vs_rpc_failed_calls := 0;
  vs_rpc_failed_targets := 0; vs_rpc_unverified_assignments := 0 |}.

(** [candidates with normalize_remote_rf(candidate.desired_rf) > 0] *)
Fixpoint protected_candidates (candidates : list VerificationCandidate)
  : res (list VerificationCandidate) :=
  match candidates with
  | [] => Ok []
  | candidate :: candidates' =>
      rf ← normalize_remote_rf (vc_desired_rf candidate);
      rest ← protected_candidates candidates';
      Ok (if (0 <? rf)%Z then candidate :: rest else rest)
  end.

Definition is_verified (o : VerificationOutcome) : bool :=
  bool_decide (replication_verify_state (vo_verified_remote_copies o) (vo_required_remote_copies o)
               = VERIFIED).

Definition verify (run : ClusterMember → list pystr → rpc ProbeExecutionResult) (order : list pystr)
    (now : Q) (candidates : list VerificationCandidate) : SM Catalog VerificationStats := λ c,
  match protected_candidates candidates with
  | Err e => (Err e, c)
  | Ok [] => (Ok empty_verification_stats, c)
  | Ok candidates =>
      match verify_candidates run order candidates with
      | Err e => (Err e, c)
      | Ok (outcomes, k) =>
          match apply_chunk_verification_updates c (verification_update <$> outcomes) now with
          | Err e => (Err e, c)
          | Ok (_, c') =>
              let n p := Z.of_nat (length (filter (λ o, is_verified o = p) outcomes)) in
              (Ok {| vs_candidates := Z.of_nat (length candidates); vs_verified := n true;
                     vs_degraded := n false; vs_rpc_failed_calls := rpc_failed_calls k;
                     vs_rpc_failed_targets := rpc_failed_targets k;
                     vs_rpc_unverified_assignments := rpc_unverified_assignments k |}, c')
          end
      end
  end.
End verify.

(** ** The answers of one target *)

(** The batches answered before the first failure, with their answers. *)
Fixpoint answered (probe : nat → list pystr → rpc (list pystr)) (i : nat)
    (batches : list (list pystr)) : list (list pystr * list pystr) :=
  match batches with
  | [] => []
  | b :: bs => match probe i b with RpcOk hs => (b, hs) :: answered probe (S i) bs | RpcFail _ => [] end
  end.

Lemma probe_target_loop_spec probe i batches completed missing :
  let '(completed', missing', error) := probe_target_loop probe i batches completed missing in
  (∀ h, h ∈ completed' ↔ h ∈ completed ∨ ∃ b hs, (b, hs) ∈ answered probe i batches ∧ h ∈ b)
  ∧ (∀ h, h ∈ missing' ↔ h ∈ missing ∨ ∃ b hs, (b, hs) ∈ answered probe i batches ∧ h ∈ hs ∧ h ≠ [])
  ∧ (error = None → (answered probe i batches).*1 = batches).
Proof.
  revert i completed missing. induction batches as [|b bs IH]; intros i completed missing; cbn; [set_solver|].
  destruct (probe i b) as [hs|e]; [|set_solver].
  specialize (IH (S i) (completed ∪ list_to_set b) (missing ∪ list_to_set (filter (λ h, h ≠ []) hs))).
  destruct (probe_target_loop _ _ _ _ _) as [[c' m'] err]. destruct IH as (IHc & IHm & IHe).
  split_and!; [intros h; rewrite IHc; set_solver| |intros He; cbn; f_equal; by apply IHe].
  intros h. rewrite IHm, elem_of_union, elem_of_list_to_set, list_elem_of_filter. set_solver.
Qed.

Lemma answered_in_batches probe i batches b hs : (b, hs) ∈ answered probe i batches → b ∈ batches.
Proof.
  revert i. induction batches as [|x bs IH]; intros i; cbn; [by intros ?%elem_of_nil|].
  destruct (probe i x); [|by intros ?%elem_of_nil].
  intros [[= <- <-]|H]%elem_of_cons; [left|right; by eapply IH].
Qed.

(** A hash is confirmed by a target when its batch was answered and no answered batch
    reports it missing. *)
Definition confirmed_by (opened : ClusterMember → rpc unit)
    (probe : ClusterMember → nat → list pystr → rpc (list pystr)) (batch_size : Z)
    (m : ClusterMember) (hashes : list pystr) (h : pystr) : Prop :=
  let calls := answered (probe m) 0 (iter_batches (ordered_unique hashes) (Z.max 1 batch_size)) in
  opened m = RpcOk () ∧ (∃ b hs, (b, hs) ∈ calls ∧ h ∈ b)
  ∧ ∀ b hs, (b, hs) ∈ calls → h ∈ hs → h = [].

Lemma execute_target_probe_spec opened probe n m hashes :
  let r := execute_target_probe opened probe n m hashes in
  (∀ h, h ∈ pr_completed_hashes r ∩ pr_present_hashes r ↔ confirmed_by opened probe n m hashes h)
  ∧ (∀ h, h ∈ pr_completed_hashes r → h ∈ hashes)
  ∧ (∀ h, h ∈ pr_requested_hashes r → h ∈ hashes).
Proof.
  unfold execute_target_probe, probe_target, confirmed_by.
  destruct (ordered_unique hashes) as [|x l] eqn:E; cbn zeta; [set_solver|].
  rewrite <-E. destruct (opened m) as [[]|e]; cbn;
    [|split_and!; [set_solver|set_solver|intros h; by rewrite elem_of_ordered_unique]].
  pose proof (probe_target_loop_spec (probe m) 0
    (iter_batches (ordered_unique hashes) (Z.max 1 n)) ∅ ∅) as H.
  destruct (probe_target_loop _ _ _ _ _) as [[c mi] err]. destruct H as (Hc & Hm & _). cbn. split_and!.
  - intros h. rewrite elem_of_intersection, elem_of_difference, Hc, Hm. split.
    + intros (H1 & _ & H2). split_and!; [done|set_solver|]. intros b hs Hb Hh.
      destruct (decide (h = [])); [done|]. exfalso. apply H2. right. eauto.
    + intros (_ & H1 & H2). split_and!; auto. intros [?|(b & hs & Hb & Hh & Hn)]; [set_solver|].
      by apply Hn, (H2 b hs).
  - intros h [?|(b & hs & Hb & Hh)]%Hc; [set_solver|]. apply answered_in_batches in Hb.
    rewrite <-elem_of_ordered_unique, <-(concat_iter_batches (ordered_unique hashes) (Z.max 1 n)).
    apply list_elem_of_In, in_concat. exists b. by rewrite <-!list_elem_of_In.
  - intros h. by rewrite elem_of_ordered_unique.
Qed.

(** ** The plan *)

Section plan.
Context (blake3 : bytes → bytes) (cluster : ClusterView) (token origin : pystr).
Context (Horigin : strip origin ≠ []).

Notation chunk_targets_of rf h := (targets blake3 cluster token origin rf h).
Notation epoch_of rf := (placement_epoch_excluding blake3 cluster rf token [origin]).

(** The accumulator of a candidate before any answer. *)
Definition fresh_accumulator (c : VerificationCandidate) : VerificationAccumulator :=
  planned_accumulator (vc_desired_rf c) (epoch_of (vc_desired_rf c))
    (chunk_targets_of (vc_desired_rf c) (vc_chunk_hash c)).

Record probe_plan_inv (cs : list VerificationCandidate) (q : ProbePlan) : Prop := {
  ppi_acc c : c ∈ cs → pp_accumulators q !! vc_chunk_hash c = Some (fresh_accumulator c);
  ppi_chunks a h : h ∈ default [] (pp_target_chunks q !! a) ↔
    ∃ c m, c ∈ cs ∧ vc_chunk_hash c = h ∧ m ∈ chunk_targets_of (vc_desired_rf c) h ∧ cm_address m = a;
  ppi_members a : is_Some (pp_target_members q !! a) ↔ is_Some (pp_target_chunks q !! a);
  ppi_address a m : pp_target_members q !! a = Some m → cm_address m = a }.

Lemma group_add_perm rf c gs :
  concat (snd <$> group_add rf c gs) ≡ₚ c :: concat (snd <$> gs).
Proof.
  induction gs as [|[k g] gs IH]; cbn; [done|]. case_bool_decide; cbn.
  - rewrite <-app_assoc. cbn. by rewrite <-Permutation_middle.
  - rewrite IH. by rewrite <-Permutation_middle.
Qed.

Notation group_ok := (λ g : Z * list VerificationCandidate, (0 < g.1)%Z ∧ Forall (λ c, vc_desired_rf c = g.1) g.2).

Lemma group_add_ok c gs :
  (0 < vc_desired_rf c)%Z → Forall group_ok gs → Forall group_ok (group_add (vc_desired_rf c) c gs).
Proof.
  intros Hc. induction 1 as [|[k g] gs [Hk Hg] Hgs IH]; cbn; [by repeat constructor|].
  case_bool_decide as E; constructor; cbn in *; auto. split; [done|].
  rewrite Forall_app. subst. by repeat constructor.
Qed.

Lemma candidates_by_rf_spec gs cs :
  Forall group_ok gs → Forall (λ c, (0 < vc_desired_rf c)%Z) cs →
  ∃ gs', candidates_by_rf gs cs = Ok gs' ∧ Forall group_ok gs'
    ∧ concat (snd <$> gs') ≡ₚ cs ++ concat (snd <$> gs).
Proof.
  revert gs. induction cs as [|c cs IH]; intros gs Hgs Hcs; cbn; [by exists gs|].
  apply Forall_cons in Hcs as [Hc Hcs]. unfold normalize_remote_rf.
  rewrite (proj2 (Z.ltb_ge _ _)) by lia. cbn [mbind res_bind].
  destruct (IH (group_add (vc_desired_rf c) c gs)) as (gs' & E & Hok & HP); [by apply group_add_ok|done|].
  exists gs'. split_and!; [done..|]. rewrite HP, group_add_perm. by rewrite <-Permutation_middle.
Qed.

Lemma plan_accumulators_spec p rf epoch accs g :
  (∀ c, c ∈ g → chunk_targets p !! vc_chunk_hash c = Some (chunk_targets_of rf (vc_chunk_hash c))) →
  ∃ accs', plan_accumulators p rf epoch accs g = Ok accs'
    ∧ ∀ h, accs' !! h = if decide (h ∈ vc_chunk_hash <$> g)
                        then Some (planned_accumulator rf epoch (chunk_targets_of rf h)) else accs !! h.
Proof.
  revert accs. induction g as [|c g IH]; intros accs Hp; cbn [plan_accumulators].
  { exists accs. split; [done|]. intros h. by rewrite decide_False by (cbn; set_solver). }
  rewrite Hp by left. destruct (IH (<[vc_chunk_hash c
    := planned_accumulator rf epoch (chunk_targets_of rf (vc_chunk_hash c))]> accs)) as (accs' & E & Hl).
  { intros; apply Hp; by right. }
  exists accs'. split; [done|]. intros h. rewrite Hl, lookup_insert. cbn [fmap list_fmap].
  repeat case_decide; subst; try done; set_solver.
Qed.

Lemma merged_chunks (m1 m2 : gmap pystr (list pystr)) (a h : pystr) :
  h ∈ default [] (union_with (λ old new, Some (old ++ new)) m1 m2 !! a)
  ↔ h ∈ default [] (m1 !! a) ∨ h ∈ default [] (m2 !! a).
Proof. rewrite lookup_union_with. destruct (m1 !! a), (m2 !! a); cbn; set_solver. Qed.

Lemma plan_group_spec cs q rf g :
  (0 < rf)%Z → Forall (λ c, vc_desired_rf c = rf) g → NoDup (vc_chunk_hash <$> (cs ++ g)) →
  probe_plan_inv cs q →
  ∃ q', plan_group blake3 cluster token origin q (rf, g) = Ok q' ∧ probe_plan_inv (cs ++ g) q'.
Proof.
  intros Hrf Hg Hnd [q1 q2 q3 q4]. unfold plan_group, verify_placement_epoch, normalize_remote_rf.
  rewrite (proj2 (Z.ltb_ge _ _)) by lia. cbn [mbind res_bind]. rewrite (proj2 (Z.eqb_neq _ _)) by lia.
  cbn [mbind res_bind].
  destruct (plan_exists blake3 cluster token origin rf Horigin ltac:(lia) (vc_chunk_hash <$> g))
    as (p & -> & Hp). cbn [mbind res_bind]. pose proof Hp as [p1 p2 p3 p4 p5].
  destruct (plan_accumulators_spec p rf (epoch_of rf) (pp_accumulators q) g) as (accs & -> & Hacc).
  { intros c Hc. rewrite p1, decide_True; [done|].
    apply elem_of_ordered_unique. by apply list_elem_of_fmap_2. }
  cbn [mbind res_bind]. eexists. split; [done|]. rewrite Forall_forall in Hg.
  assert (∀ a, is_Some ((target_members p ∪ pp_target_members q) !! a)
    ↔ is_Some (union_with (λ old new, Some (old ++ new)) (pp_target_chunks q) (target_chunks p) !! a)) as Hm.
  { intros a. rewrite lookup_union_with, lookup_union_is_Some, q3, p4.
    destruct (pp_target_chunks q !! a), (target_chunks p !! a); cbn; split;
      try (intros _; by eexists); try (intros _; by left; eexists); try (intros _; by right; eexists).
    - by intros [[? ?]|[? ?]].
    - by intros [? ?]. }
  split; [..|exact Hm|]; cbn [merge_plan pp_accumulators pp_target_chunks pp_target_members].
  - intros c. rewrite Hacc. intros [Hc|Hc]%elem_of_app.
    + rewrite decide_False; [by apply q1|]. rewrite fmap_app in Hnd.
      apply NoDup_app in Hnd as (_ & Hd & _). apply Hd. by apply list_elem_of_fmap_2.
    + rewrite decide_True by by apply list_elem_of_fmap_2. unfold fresh_accumulator. by rewrite (Hg c Hc).
  - intros a h. rewrite merged_chunks, q2, p2, elem_of_planned_hashes, elem_of_ordered_unique. split.
    + intros [(c & m & Hc & H)|(Hh & m & Hm1 & Ha)]; [exists c, m; set_solver|].
      apply list_elem_of_fmap in Hh as (c & -> & Hc). exists c, m. rewrite (Hg c Hc). set_solver.
    + intros (c & m & [Hc|Hc]%elem_of_app & <- & Hm1 & Ha); [left; by exists c, m|right].
      split; [apply list_elem_of_fmap; by exists c|]. exists m. by rewrite <-(Hg c Hc).
  - intros a m [Ha|[_ Ha]]%lookup_union_Some_raw; [by apply p5 in Ha as [? _]|by apply q4].
Qed.

Lemma plan_groups_spec cs q gs :
  Forall group_ok gs → NoDup (vc_chunk_hash <$> (cs ++ concat (snd <$> gs))) → probe_plan_inv cs q →
  ∃ q', plan_groups blake3 cluster token origin q gs = Ok q'
    ∧ probe_plan_inv (cs ++ concat (snd <$> gs)) q'.
Proof.
  revert cs q. induction gs as [|[rf g] gs IH]; intros cs q Hgs Hnd Hq; cbn [plan_groups].
  { exists q. cbn. by rewrite app_nil_r. }
  apply Forall_cons in Hgs as [[Hrf Hg] Hgs]. cbn [fmap list_fmap concat snd] in *.
  rewrite app_assoc in *. destruct (plan_group_spec cs q rf g) as (q' & -> & Hq'); [done|done| |done|].
  { rewrite fmap_app in Hnd. by apply NoDup_app in Hnd as (? & _ & _). }
  cbn [mbind res_bind]. by apply IH.
Qed.

Lemma verify_plan_spec cs :
  Forall (λ c, (0 < vc_desired_rf c)%Z) cs → NoDup (vc_chunk_hash <$> cs) →
  ∃ q, verify_plan blake3 cluster token origin cs = Ok q ∧ probe_plan_inv cs q.
Proof.
  intros Hrf Hnd. unfold verify_plan.
  destruct (candidates_by_rf_spec [] cs) as (gs & -> & Hok & HP); [done|done|]. cbn [mbind res_bind].
  cbn in HP. rewrite app_nil_r in HP.
  destruct (plan_groups_spec [] {| pp_accumulators := ∅; pp_target_chunks := ∅; pp_target_members := ∅ |} gs)
    as (q & E & [q1 q2 q3 q4]); [done|cbn; by rewrite HP|split; cbn; try set_solver; intros a;
      rewrite !lookup_empty; by split; intros [? ?]|].
  exists q. split; [done|]. cbn in *. split; [intros c Hc; apply q1; by rewrite HP| |done|done].
  intros a h. rewrite q2. by setoid_rewrite HP.
Qed.
End plan.

(** ** Counting confirmations *)

(** [a'] is [a] with [n] more verified copies. *)
Definition verified_more (n : Z) (a a' : VerificationAccumulator) : Prop :=
  va_desired_rf a' = va_desired_rf a ∧ va_placement_epoch a' = va_placement_epoch a
  ∧ va_required_remote_copies a' = va_required_remote_copies a
  ∧ va_verified_remote_copies a' = (va_verified_remote_copies a + n)%Z.

Definition moved (f : pystr → Z) (accs accs' : verify_accumulators) : Prop :=
  ∀ h, match accs !! h with
       | None => accs' !! h = None
       | Some a => ∃ a', accs' !! h = Some a' ∧ verified_more (f h) a a'
       end.

Lemma moved_refl accs : moved (λ _, 0%Z) accs accs.
Proof.
  intros h. destruct (accs !! h) as [a|]; [|done]. exists a. unfold verified_more. split_and!; try done. lia.
Qed.

Lemma moved_trans f g h a b c :
  moved f a b → moved g b c → (∀ x, h x = (f x + g x)%Z) → moved h a c.
Proof.
  intros H1 H2 E x. specialize (H1 x). specialize (H2 x). destruct (a !! x) as [v|].
  - destruct H1 as (v1 & Hv1 & (? & ? & ? & ?)). rewrite Hv1 in H2.
    destruct H2 as (v2 & Hv2 & (? & ? & ? & ?)). exists v2. rewrite E.
    unfold verified_more. split_and!; try congruence. lia.
  - by rewrite H1 in H2.
Qed.

Lemma moved_insert n accs h a b :
  accs !! h = Some a → verified_more n a b →
  moved (λ x, if decide (x = h) then n else 0%Z) accs (<[h := b]> accs).
Proof.
  intros Ha Hb x. rewrite lookup_insert. case_decide as E.
  - subst x. rewrite Ha. exists b. by rewrite decide_True.
  - rewrite decide_False by done. apply (moved_refl accs x).
Qed.

Lemma moved_dom f accs accs' h : moved f accs accs' → is_Some (accs !! h) → is_Some (accs' !! h).
Proof. intros H [a Ha]. specialize (H h). rewrite Ha in H. destruct H as (? & ? & _). by eexists. Qed.

Lemma confirm_hashes_spec accs hs :
  NoDup hs → (∀ h, h ∈ hs → is_Some (accs !! h)) →
  ∃ accs', confirm_hashes accs hs = Ok accs' ∧ moved (λ h, if decide (h ∈ hs) then 1 else 0)%Z accs accs'.
Proof.
  intros Hnd. revert accs. induction Hnd as [|h hs Hh _ IH]; intros accs Hdom; cbn [confirm_hashes].
  { exists accs. split; [done|]. apply (moved_trans (λ _, 0%Z) (λ _, 0%Z) _ _ _ _ (moved_refl _) (moved_refl _)).
    intros x. rewrite decide_False; [done|set_solver]. }
  destruct (Hdom h) as [a Ha]; [left|]. rewrite Ha.
  assert (moved (λ x, if decide (x = h) then 1%Z else 0%Z) accs (<[h := va_confirm a]> accs)) as H1
    by (apply (moved_insert 1 accs h a); [done|split_and!; done]).
  destruct (IH (<[h := va_confirm a]> accs)) as (accs' & E & H2).
  { intros x Hx. eapply moved_dom; [exact H1|]. apply Hdom. by right. }
  exists accs'. split; [done|]. apply (moved_trans _ _ _ _ _ _ H1 H2). intros x.
  repeat case_decide; subst; try done; set_solver.
Qed.

Lemma report_hashes_spec message accs hs :
  (∀ h, h ∈ hs → is_Some (accs !! h)) →
  ∃ accs', report_hashes message accs hs = Ok accs' ∧ moved (λ _, 0%Z) accs accs'.
Proof.
  revert accs. induction hs as [|h hs IH]; intros accs Hdom; cbn [report_hashes].
  { exists accs. split; [done|apply moved_refl]. }
  destruct (Hdom h) as [a Ha]; [left|]. rewrite Ha.
  assert (moved (λ x, if decide (x = h) then 0%Z else 0%Z) accs (<[h := va_add_error message a]> accs)) as H1
    by (apply (moved_insert 0 accs h a); [done|split_and!; cbn; try done; lia]).
  destruct (IH (<[h := va_add_error message a]> accs)) as (accs' & E & H2).
  { intros x Hx. eapply moved_dom; [exact H1|]. apply Hdom. by right. }
  exists accs'. split; [done|]. apply (moved_trans _ _ _ _ _ _ H1 H2). intros x. by case_decide.
Qed.

Lemma apply_probe_spec accs k r :
  (∀ h, h ∈ pr_completed_hashes r → is_Some (accs !! h)) →
  (∀ h, h ∈ pr_requested_hashes r → is_Some (accs !! h)) →
  ∃ accs' k', apply_probe accs k r = Ok (accs', k')
    ∧ moved (λ h, if decide (h ∈ pr_completed_hashes r ∩ pr_present_hashes r) then 1 else 0)%Z accs accs'.
Proof.
  intros Hc Hr. unfold apply_probe.
  destruct (confirm_hashes_spec accs (filter (λ h, h ∈ pr_present_hashes r) (elements (pr_completed_hashes r))))
    as (accs1 & -> & H1); [apply NoDup_filter, NoDup_elements| |].
  { intros h [_ Hh%elem_of_elements]%list_elem_of_filter. by apply Hc. }
  cbn [mbind res_bind].
  assert (moved (λ h, if decide (h ∈ pr_completed_hashes r ∩ pr_present_hashes r) then 1 else 0)%Z accs accs1) as H1'.
  { eapply (moved_trans _ (λ _, 0%Z)); [exact H1|apply moved_refl|]. intros h.
    rewrite Z.add_0_r. apply decide_ext. rewrite list_elem_of_filter, elem_of_elements. set_solver. }
  destruct (pr_transport_error r) as [[|x e]|]; [by eauto| |by eauto].
  destruct (report_hashes_spec (u "RPC " ++ short_target (pr_node_id r) (pr_address r) ++ x :: e) accs1
    (filter (λ h, h ∉ pr_completed_hashes r) (pr_requested_hashes r))) as (accs2 & -> & H2).
  { intros h [_ Hh]%list_elem_of_filter. eapply moved_dom; [exact H1'|]. by apply Hr. }
  cbn [mbind res_bind]. do 2 eexists. split; [done|].
  eapply moved_trans; [exact H1'|exact H2|]. intros h. by rewrite Z.add_0_r.
Qed.

Section collect.
Context (q : ProbePlan) (opened : ClusterMember → rpc unit).
Context (probe : ClusterMember → nat → list pystr → rpc (list pystr)) (batch_size : Z).
Context (run : ClusterMember → list pystr → rpc ProbeExecutionResult).

(** A task either raises or returns what [execute_target_probe] returns. *)
Context (Hrun : ∀ m hs r, run m hs = RpcOk r → r = execute_target_probe opened probe batch_size m hs).

(** The address [a] confirms the chunk [h]. *)
Definition confirms (a h : pystr) : bool :=
  match pp_target_chunks q !! a, pp_target_members q !! a with
  | Some hs, Some m =>
      let r := probe_result run m hs in
      bool_decide (h ∈ pr_completed_hashes r ∩ pr_present_hashes r)
  | _, _ => false
  end.

Lemma probe_result_within m hs h :
  (h ∈ pr_completed_hashes (probe_result run m hs) → h ∈ hs)
  ∧ (h ∈ pr_requested_hashes (probe_result run m hs) → h ∈ hs).
Proof.
  unfold probe_result. destruct (run m hs) as [r|e] eqn:E; [|cbn; set_solver].
  apply Hrun in E as ->. destruct (execute_target_probe_spec opened probe batch_size m hs) as (_ & H1 & H2).
  by split; auto.
Qed.

(** A confirmation is an answer of the target, never an omission. *)
Lemma confirms_spec a h :
  confirms a h = true ↔ ∃ hs m r, pp_target_chunks q !! a = Some hs ∧ pp_target_members q !! a = Some m
    ∧ run m hs = RpcOk r ∧ confirmed_by opened probe batch_size m hs h.
Proof.
  unfold confirms. split.
  - destruct (pp_target_chunks q !! a) as [hs|] eqn:E1; [|done].
    destruct (pp_target_members q !! a) as [m|] eqn:E2; [|done]. unfold probe_result.
    destruct (run m hs) as [r|e] eqn:E; [|cbn; intros ?; bool_hyps; set_solver].
    pose proof E as ->%Hrun. intros Hh. bool_hyps. exists hs, m. eexists. split_and!; [done..|].
    by apply (proj1 (execute_target_probe_spec opened probe batch_size m hs)).
  - intros (hs & m & r & -> & -> & Hr & Hc). unfold probe_result. rewrite Hr. apply Hrun in Hr as ->.
    apply bool_decide_eq_true. by apply (proj1 (execute_target_probe_spec opened probe batch_size m hs)).
Qed.

Lemma confirms_planned a h : confirms a h = true → h ∈ default [] (pp_target_chunks q !! a).
Proof.
  unfold confirms. destruct (pp_target_chunks q !! a) as [hs|]; [|done].
  destruct (pp_target_members q !! a) as [m|]; [|done]. intros H. bool_hyps. cbn.
  apply elem_of_intersection in H as [H _]. by apply (proj1 (probe_result_within m hs h)).
Qed.

Lemma drain_probes_spec order accs k :
  (∀ a, a ∈ order → is_Some (pp_target_chunks q !! a) ∧ is_Some (pp_target_members q !! a)) →
  (∀ a h, h ∈ default [] (pp_target_chunks q !! a) → is_Some (accs !! h)) →
  ∃ accs' k', drain_probes q run order accs k = Ok (accs', k')
    ∧ moved (λ h, Z.of_nat (length (filter (λ a, confirms a h = true) order))) accs accs'.
Proof.
  revert accs k. induction order as [|a order IH]; intros accs k Hord Hdom; cbn [drain_probes].
  { do 2 eexists. split; [done|apply moved_refl]. }
  destruct (Hord a) as [[hs Hhs] [m Hm]]; [left|]. rewrite Hhs, Hm.
  assert (∀ h, h ∈ hs → is_Some (accs !! h)) as Hd by (intros h Hh; apply (Hdom a); by rewrite Hhs).
  destruct (apply_probe_spec accs k (probe_result run m hs)) as (accs1 & k1 & -> & H1);
    [intros h Hh; by apply Hd, (proj1 (probe_result_within m hs h))
    |intros h Hh; by apply Hd, (proj2 (probe_result_within m hs h))|]. cbn [mbind res_bind].
  destruct (IH accs1 k1) as (accs' & k' & E & H2); [intros; apply Hord; by right| |].
  { intros b h Hh. eapply moved_dom; [exact H1|]. by apply (Hdom b). }
  do 2 eexists. split; [exact E|]. eapply moved_trans; [exact H1|exact H2|]. intros h.
  assert (confirms a h = bool_decide (h ∈ pr_completed_hashes (probe_result run m hs)
    ∩ pr_present_hashes (probe_result run m hs))) as Ec by (unfold confirms; by rewrite Hhs, Hm).
  rewrite filter_cons. destruct (decide (confirms a h = true)) as [E1|E1]; rewrite Ec in E1; bool_hyps.
  - rewrite decide_True by done. cbn [length]. lia.
  - rewrite bool_decide_eq_true in E1. rewrite decide_False by done. lia.
Qed.
End collect.

(** The distinct addresses of the targets of a chunk. *)
Definition target_addresses (blake3 : bytes → bytes) (cluster : ClusterView) (token origin : pystr)
    (rf : Z) (h : pystr) : list pystr :=
  ordered_unique (cm_address <$> targets blake3 cluster token origin rf h).

Section outcomes.
Context (blake3 : bytes → bytes) (cluster : ClusterView) (token origin : pystr).
Context (Horigin : strip origin ≠ []).
Context (opened : ClusterMember → rpc unit).
Context (probe : ClusterMember → nat → list pystr → rpc (list pystr)) (batch_size : Z).
Context (run : ClusterMember → list pystr → rpc ProbeExecutionResult).
Context (Hrun : ∀ m hs r, run m hs = RpcOk r → r = execute_target_probe opened probe batch_size m hs).

(** The outcome of a candidate: the number of addresses that confirm it. *)
Definition verified_copies (q : ProbePlan) (rf : Z) (h : pystr) : Z :=
  Z.of_nat (length (filter (λ a, confirms q run a h = true)
    (target_addresses blake3 cluster token origin rf h))).

Definition outcome_for (q : ProbePlan) (c : VerificationCandidate) (o : VerificationOutcome) : Prop :=
  let rf := vc_desired_rf c in
  vo_chunk_hash o = vc_chunk_hash c ∧ vo_desired_rf o = rf ∧ vo_required_remote_copies o = rf
  ∧ vo_placement_epoch o = placement_epoch_excluding blake3 cluster rf token [origin]
  ∧ vo_verified_remote_copies o = verified_copies q rf (vc_chunk_hash c).

(** Only the addresses of its targets can confirm a chunk. *)
Lemma confirming_addresses q cs c order :
  NoDup (vc_chunk_hash <$> cs) → probe_plan_inv blake3 cluster token origin cs q → c ∈ cs →
  order ≡ₚ (map_to_list (pp_target_chunks q)).*1 →
  Z.of_nat (length (filter (λ a, confirms q run a (vc_chunk_hash c) = true) order))
  = verified_copies q (vc_desired_rf c) (vc_chunk_hash c).
Proof.
  intros Hnd [q1 q2 q3 q4] Hc Hord. unfold verified_copies. f_equal. apply Permutation_length.
  apply NoDup_Permutation.
  - apply NoDup_filter. rewrite Hord. apply NoDup_fst_map_to_list.
  - apply NoDup_filter, NoDup_ordered_unique.
  - intros a. rewrite !list_elem_of_filter. (split; intros [Ha Hin]; (split; [done|])); revert Hin.
    all: unfold target_addresses; rewrite elem_of_ordered_unique, list_elem_of_fmap, Hord, list_elem_of_fmap.
    all: pose proof (confirms_planned q opened probe batch_size run Hrun a _ Ha) as Hp.
    + intros _. apply q2 in Hp as (c' & m & Hc' & Eh & Hm & <-). exists m. split; [done|].
      assert (c' = c) as ->; [|done]. apply list_elem_of_lookup in Hc as [i Hi].
      apply list_elem_of_lookup in Hc' as [j Hj]. assert (i = j) as ->; [|congruence].
      apply (NoDup_lookup _ i j (vc_chunk_hash c) Hnd); rewrite list_lookup_fmap, ?Hi, ?Hj; cbn; congruence.
    + intros _. destruct (pp_target_chunks q !! a) as [hs|] eqn:E; [|by apply elem_of_nil in Hp].
      exists (a, hs). split; [done|]. by apply elem_of_map_to_list.
Qed.

Lemma verify_candidates_spec order cs q :
  Forall (λ c, (0 < vc_desired_rf c)%Z) cs → NoDup (vc_chunk_hash <$> cs) →
  verify_plan blake3 cluster token origin cs = Ok q →
  order ≡ₚ (map_to_list (pp_target_chunks q)).*1 →
  ∃ outs k, verify_candidates blake3 cluster token origin run order cs = Ok (outs, k)
    ∧ Forall2 (outcome_for q) cs outs.
Proof.
  intros Hrf Hnd Hq Hord. unfold verify_candidates. rewrite Hq. cbn [mbind res_bind].
  destruct (verify_plan_spec blake3 cluster token origin Horigin cs Hrf Hnd) as (q' & Hq' & Hinv).
  rewrite Hq in Hq'. injection Hq' as <-. pose proof Hinv as [q1 q2 q3 q4].
  destruct (drain_probes_spec q opened probe batch_size run Hrun order (pp_accumulators q)
    {| rpc_failed_calls := 0; rpc_failed_targets := 0; rpc_unverified_assignments := 0 |})
    as (accs & k & -> & Hmoved).
  - intros a Ha. rewrite q3. rewrite Hord in Ha. apply list_elem_of_fmap in Ha as ([a' hs] & -> & Ha).
    apply elem_of_map_to_list in Ha. by split; exists hs.
  - intros a h Hh. apply q2 in Hh as (c & m & Hc & <- & _). rewrite (q1 c Hc). by eexists.
  - cbn [mbind res_bind].
    assert (∀ l, (∀ c, c ∈ l → c ∈ cs) →
      ∃ outs, mapM_res (verification_outcome accs) l = Ok outs ∧ Forall2 (outcome_for q) l outs) as H.
    { induction l as [|c l IH]; intros Hl; cbn [mapM_res]; [by eexists|].
      destruct IH as (outs & -> & Hos); [intros; apply Hl; by right|].
      assert (c ∈ cs) as Hc by (apply Hl; left). specialize (Hmoved (vc_chunk_hash c)).
      rewrite (q1 c Hc) in Hmoved. destruct Hmoved as (a & Ha & E1 & E2 & E3 & E4).
      unfold verification_outcome. rewrite Ha. cbn [mbind res_bind]. eexists. split; [done|].
      constructor; [|done].
      assert (va_desired_rf (fresh_accumulator blake3 cluster token origin c) = vc_desired_rf c
        ∧ va_required_remote_copies (fresh_accumulator blake3 cluster token origin c) = vc_desired_rf c
        ∧ va_verified_remote_copies (fresh_accumulator blake3 cluster token origin c) = 0%Z
        ∧ va_placement_epoch (fresh_accumulator blake3 cluster token origin c)
          = placement_epoch_excluding blake3 cluster (vc_desired_rf c) token [origin]) as (F1 & F2 & F3 & F4)
        by (unfold fresh_accumulator, planned_accumulator; by destruct (_ <? _)%Z).
      unfold outcome_for; cbn. split_and!; try congruence.
      rewrite E4, F3. by apply confirming_addresses with (cs := cs) (order := order). }
    destruct (H cs) as (outs & -> & Hos); [done|]. cbn. eauto.
Qed.
End outcomes.

Lemma target_addresses_length blake3 cluster token origin rf h :
  (0 <= rf)%Z → (Z.of_nat (length (target_addresses blake3 cluster token origin rf h)) <= rf)%Z.
Proof.
  intros Hrf. set (ts := targets blake3 cluster token origin rf h).
  assert (length (target_addresses blake3 cluster token origin rf h) <= length ts) as Hle.
  { rewrite <-(length_fmap cm_address ts). apply submseteq_length, NoDup_submseteq.
    - apply NoDup_ordered_unique.
    - intros a. unfold target_addresses. by rewrite elem_of_ordered_unique. }
  enough (Z.of_nat (length ts) <= rf)%Z by lia. unfold ts, targets.
  rewrite <-(length_fmap cm_node_id), targets_node_ids, hrw_top_k_ranking, length_fmap, length_take. lia.
Qed.

Lemma filter_full {A} (P : A → Prop) `{!∀ x, Decision (P x)} l :
  length l <= length (filter P l) ↔ ∀ x, x ∈ l → P x.
Proof.
  induction l as [|x l IH]; [set_solver|]. rewrite filter_cons.
  pose proof (length_filter P l). case_decide as E; cbn [length]; split.
  - intros Hl y [->|Hy]%elem_of_cons; [done|]. apply IH; [lia|done].
  - intros Hl. enough (length l <= length (filter P l)) by lia. apply IH. intros; apply Hl; by right.
  - intros Hl. lia.
  - intros Hl. exfalso. apply E, Hl. left.
Qed.

Lemma Forall2_with_l {A B} (P : A → Prop) (R : A → B → Prop) l k :
  Forall P l → Forall2 R l k → Forall2 (λ x y, P x ∧ R x y) l k.
Proof. intros HP H. induction H; inversion HP; subst; constructor; auto. Qed.

(** The state written for an outcome. *)
Lemma verification_state o :
  up_protection_state (verification_update o) = VERIFIED ↔
  (vo_required_remote_copies o <= vo_verified_remote_copies o)%Z.
Proof.
  cbn. unfold replication_verify_state, protection_state_from_thresholds.
  destruct (Z.leb_spec (vo_required_remote_copies o) (vo_verified_remote_copies o)); [done|].
  destruct (_ <=? _)%Z; split; intros; done || lia.
Qed.

Lemma verified_copies_full blake3 cluster token origin run q rf h :
  (0 <= rf)%Z →
  (rf <= verified_copies blake3 cluster token origin run q rf h)%Z ↔
  Z.of_nat (length (target_addresses blake3 cluster token origin rf h)) = rf
  ∧ ∀ a, a ∈ target_addresses blake3 cluster token origin rf h → confirms q run a h = true.
Proof.
  intros Hrf. unfold verified_copies. pose proof (target_addresses_length blake3 cluster token origin rf h Hrf).
  set (ts := target_addresses blake3 cluster token origin rf h) in *.
  pose proof (length_filter (λ a, confirms q run a h = true) ts).
  rewrite <-(filter_full (λ a, confirms q run a h = true)). lia.
Qed.

(** ** Properties *)

(** a verification counts places, not answers: whatever the targets answer and in
    whatever order, each candidate gets the number of distinct addresses among its
    current targets that confirmed it, in the current placement epoch, and becomes
    VERIFIED exactly when it has as many distinct target addresses as copies asked for
    and each of them answered the batch with the chunk without reporting it missing. *)
Theorem verification_counts_addresses blake3 cluster token origin opened probe batch_size run order cs q :
  strip origin ≠ [] →
  (∀ m hs r, run m hs = RpcOk r → r = execute_target_probe opened probe batch_size m hs) →
  Forall (λ c, (0 < vc_desired_rf c)%Z) cs → NoDup (vc_chunk_hash <$> cs) →
  verify_plan blake3 cluster token origin cs = Ok q →
  order ≡ₚ (map_to_list (pp_target_chunks q)).*1 →
  ∃ outs k, verify_candidates blake3 cluster token origin run order cs = Ok (outs, k)
    ∧ Forall2 (λ c o,
        let rf := vc_desired_rf c in
        let h := vc_chunk_hash c in
        let addresses := target_addresses blake3 cluster token origin rf h in
        vo_chunk_hash o = h
        ∧ vo_placement_epoch o = placement_epoch_excluding blake3 cluster rf token [origin]
        ∧ vo_verified_remote_copies o
          = Z.of_nat (length (filter (λ a, confirms q run a h = true) addresses))
        ∧ (0 <= vo_verified_remote_copies o <= rf)%Z
        ∧ (up_protection_state (verification_update o) = VERIFIED ↔
             Z.of_nat (length addresses) = rf
             ∧ ∀ a, a ∈ addresses → ∃ hs m r, pp_target_chunks q !! a = Some hs
                 ∧ pp_target_members q !! a = Some m ∧ cm_address m = a
                 ∧ run m hs = RpcOk r ∧ confirmed_by opened probe batch_size m hs h)) cs outs.
Proof.
  intros Ho Hrun Hrf Hnd Hq Hord.
  destruct (verify_candidates_spec blake3 cluster token origin Ho opened probe batch_size run Hrun
    order cs q Hrf Hnd Hq Hord) as (outs & k & E & Hos). exists outs, k. split; [exact E|].
  destruct (verify_plan_spec blake3 cluster token origin Ho cs Hrf Hnd) as (q' & Hq' & [_ _ _ q4]).
  rewrite Hq in Hq'. injection Hq' as <-.
  eapply Forall2_impl; [exact (Forall2_with_l _ _ _ _ Hrf Hos)|].
  intros c o (Hc & E1 & E2 & E3 & E4 & E5). cbn zeta. rewrite verification_state, E3, E5. split_and!; [done|done|done|unfold verified_copies; lia| |].
  - unfold verified_copies. pose proof (length_filter (λ a, confirms q run a (vc_chunk_hash c) = true)
      (target_addresses blake3 cluster token origin (vc_desired_rf c) (vc_chunk_hash c))).
    pose proof (target_addresses_length blake3 cluster token origin (vc_desired_rf c) (vc_chunk_hash c)
      ltac:(lia)). lia.
  - rewrite verified_copies_full by lia. apply and_iff_compat_l.
    setoid_rewrite (confirms_spec q opened probe batch_size run Hrun).
    split; intros H a Ha; destruct (H a Ha) as (hs & m & r & H1 & H2 & H3); exists hs, m, r; naive_solver.
Qed.

Definition example_candidate (h : pystr) : VerificationCandidate :=
  {| vc_chunk_hash := h; vc_desired_rf := 2; vc_protection_state := PLACED |}.

(** Every target answers that it misses nothing. *)
Definition nothing_missing (m : ClusterMember) (hashes : list pystr) : rpc ProbeExecutionResult :=
  RpcOk (execute_target_probe (λ _, RpcOk ()) (λ _ _ _, RpcOk []) 100 m hashes).

Lemma nothing_missing_run m hs r :
  nothing_missing m hs = RpcOk r → r = execute_target_probe (λ _, RpcOk ()) (λ _ _ _, RpcOk []) 100 m hs.
Proof. by intros [= <-]. Qed.

Lemma verification_counts_addresses_witness :
  ∃ q outs k, verify_plan (λ b, b) example_cluster (u "t") [97%N] [example_candidate (example_hash 97)] = Ok q
    ∧ verify_candidates (λ b, b) example_cluster (u "t") [97%N] nothing_missing
        (map_to_list (pp_target_chunks q)).*1 [example_candidate (example_hash 97)] = Ok (outs, k)
    ∧ length outs = 1.
Proof.
  destruct (verify_plan_spec (λ b, b) example_cluster (u "t") [97%N] ltac:(by compute)
    [example_candidate (example_hash 97)] ltac:(by_compute) ltac:(by_compute)) as (q & Hq & _).
  destruct (verification_counts_addresses (λ b, b) example_cluster (u "t") [97%N] (λ _, RpcOk ())
    (λ _ _ _, RpcOk []) 100 nothing_missing _ [example_candidate (example_hash 97)] q ltac:(by compute)
    nothing_missing_run ltac:(by_compute) ltac:(by_compute) Hq (Permutation_refl _)) as (outs & k & E & H).
  exists q, outs, k. split_and!; [exact Hq|exact E|by rewrite <-(Forall2_length _ _ _ H)].
Defined.

(** ** Storing the outcomes *)

Notation verify_states := [VERIFIED; DEGRADED].

Lemma verify_upsert_again now row row' old :
  verify_upsert now row (Some (verify_upsert now row' old)) = verify_upsert now row old.
Proof. done. Qed.

Lemma apply_verification_Ok c ups now :
  Forall (valid_update c verify_states) ups →
  ∃ c', apply_chunk_verification_updates c ups now = Ok (Z.of_nat (length ups), c')
        ∧ with_protection (λ _, chunk_protection c) c' = c
        ∧ ∀ h, chunk_protection c' !! h
               = updated (verify_upsert now) h (last_update h (normalized <$> ups) None) (chunk_protection c !! h).
Proof.
  intros Hv. apply (apply_updates_is_ok verify_states (verify_upsert now)) in Hv.
  unfold apply_chunk_verification_updates.
  destruct (apply_updates verify_states (verify_upsert now) c ups) as [[n c']|] eqn:E; [|done].
  destruct (apply_updates_result _ _ _ _ _ _ (verify_upsert_again now) E) as (-> & Hc & Hl). eauto.
Qed.

Lemma verification_update_state o :
  (0 <= vo_verified_remote_copies o)%Z → up_protection_state (verification_update o) ∈ verify_states.
Proof.
  intros H. cbn. unfold replication_verify_state, protection_state_from_thresholds.
  by repeat destruct (_ <=? _)%Z; by_compute.
Qed.

Lemma verification_update_valid c o :
  is_valid_blake3_hex (vo_chunk_hash o) = true → is_Some (chunks c !! vo_chunk_hash o) →
  (0 <= vo_desired_rf o)%Z → (0 <= vo_verified_remote_copies o)%Z →
  valid_update c verify_states (verification_update o).
Proof.
  intros Hh Hc Hrf Hv. unfold valid_update. split_and!; [by apply verification_update_state|..];
    cbn [verification_update up_chunk_hash up_desired_rf up_protected_remote_copies].
  all: rewrite ?(valid_hex_strip _ Hh); done.
Qed.

(** The row a verification writes is sufficient exactly when every copy was confirmed. *)
Lemma verification_state_decides now o old :
  (0 < vo_required_remote_copies o)%Z → vo_desired_rf o = vo_required_remote_copies o →
  is_record_sufficient (Some (verify_upsert now (verification_update o) old))
    (vo_required_remote_copies o) (Some (vo_placement_epoch o)) = Ok true
  ↔ (vo_required_remote_copies o <= vo_verified_remote_copies o)%Z.
Proof.
  intros Hrf Hd. rewrite sufficient_spec. unfold sufficient, verify_upsert. split.
  - intros (_ & [?|(r & [= <-] & _ & _ & Hc & _)]); cbn in *; lia.
  - intros Hv. split; [lia|]. right. eexists; split; [reflexivity|].
    pose proof (proj2 (verification_state o) Hv) as Hs. cbn in *. rewrite Hs. split_and!; auto; lia.
Qed.

Lemma protected_candidates_all cs :
  Forall (λ c, (0 < vc_desired_rf c)%Z) cs → protected_candidates cs = Ok cs.
Proof.
  induction 1 as [|c cs Hc _ IH]; [done|]. cbn. unfold normalize_remote_rf.
  rewrite (proj2 (Z.ltb_ge _ _)) by lia. cbn [mbind res_bind]. rewrite IH. cbn.
  by rewrite (proj2 (Z.ltb_lt _ _)).
Qed.

Lemma filter_partition {A} (f : A → bool) l :
  (Z.of_nat (length (filter (λ x, f x = true) l)) + Z.of_nat (length (filter (λ x, f x = false) l))
   = Z.of_nat (length l))%Z.
Proof.
  induction l as [|x l IH]; [done|]. rewrite !filter_cons.
  destruct (f x) eqn:E; repeat case_decide; try congruence; cbn [length]; lia.
Qed.

Lemma normalized_updates outs :
  Forall (λ o, is_valid_blake3_hex (vo_chunk_hash o) = true) outs →
  normalized <$> (verification_update <$> outs) = verification_update <$> outs.
Proof.
  induction 1 as [|o outs Ho _ IH]; [done|]. cbn. rewrite IH. f_equal.
  unfold normalized, verification_update; cbn [up_chunk_hash up_desired_rf up_protection_state
    up_protected_remote_copies up_placement_epoch up_error]. by rewrite valid_hex_strip.
Qed.

(** The rows after a batch of outcomes with distinct hashes. *)
Lemma verified_rows c outs now :
  Forall (λ o, is_valid_blake3_hex (vo_chunk_hash o) = true ∧ is_Some (chunks c !! vo_chunk_hash o)
    ∧ (0 <= vo_desired_rf o)%Z ∧ (0 <= vo_verified_remote_copies o)%Z) outs →
  NoDup (vo_chunk_hash <$> outs) →
  ∃ n c', apply_chunk_verification_updates c (verification_update <$> outs) now = Ok (n, c')
    ∧ with_protection (λ _, chunk_protection c) c' = c
    ∧ (∀ h, h ∉ vo_chunk_hash <$> outs → chunk_protection c' !! h = chunk_protection c !! h)
    ∧ ∀ o, o ∈ outs → chunk_protection c' !! vo_chunk_hash o
        = Some (verify_upsert now (verification_update o) (chunk_protection c !! vo_chunk_hash o)).
Proof.
  intros Hv Hnd. destruct (apply_verification_Ok c (verification_update <$> outs) now) as (c' & E & Hc & Hl).
  { apply Forall_fmap. eapply Forall_impl; [exact Hv|]. intros o (? & ? & ? & ?).
    by apply verification_update_valid. }
  assert (up_chunk_hash <$> (verification_update <$> outs) = vo_chunk_hash <$> outs) as Hh
    by (by rewrite <-list_fmap_compose).
  rewrite normalized_updates in Hl by (eapply Forall_impl; [exact Hv|]; naive_solver).
  do 2 eexists. split_and!; [exact E|done| |].
  - intros h Hn. rewrite Hl, last_update_notin by (by rewrite Hh). done.
  - intros o Ho. rewrite Hl.
    rewrite (last_update_unique _ (verification_update o)); [done|done|by rewrite Hh|by apply list_elem_of_fmap_2].
Qed.

(** C23: a verification leaves the truth in the catalogue: for valid candidates it stores
    one row per candidate and no other, and afterwards a candidate counts as protected
    for its copies in the current epoch exactly when as many distinct addresses as
    required confirmed it; its statistics partition the candidates. *)
Theorem verify_stores_the_truth blake3 cluster token origin opened probe batch_size run order now cs c q :
  strip origin ≠ [] →
  (∀ m hs r, run m hs = RpcOk r → r = execute_target_probe opened probe batch_size m hs) →
  cs ≠ [] → Forall (λ c, (0 < vc_desired_rf c)%Z) cs → NoDup (vc_chunk_hash <$> cs) →
  Forall (λ v, is_valid_blake3_hex (vc_chunk_hash v) = true ∧ is_Some (chunks c !! vc_chunk_hash v)) cs →
  verify_plan blake3 cluster token origin cs = Ok q →
  order ≡ₚ (map_to_list (pp_target_chunks q)).*1 →
  ∃ stats c', verify blake3 cluster token origin run order now cs c = (Ok stats, c')
    ∧ (vs_verified stats + vs_degraded stats)%Z = vs_candidates stats
    ∧ vs_candidates stats = Z.of_nat (length cs)
    ∧ with_protection (λ _, chunk_protection c) c' = c
    ∧ (∀ h, h ∉ vc_chunk_hash <$> cs → get_chunk_protection c' h = get_chunk_protection c h)
    ∧ ∀ v, v ∈ cs →
        let rf := vc_desired_rf v in
        let h := vc_chunk_hash v in
        is_chunk_remotely_protected c' h rf
          (Some (placement_epoch_excluding blake3 cluster rf token [origin])) = Ok true
        ↔ (rf <= Z.of_nat (length (filter (λ a, confirms q run a h = true)
                             (target_addresses blake3 cluster token origin rf h))))%Z.
Proof.
  intros Ho Hrun Hne Hrf Hnd Hvalid Hq Hord.
  destruct (verify_candidates_spec blake3 cluster token origin Ho opened probe batch_size run Hrun
    order cs q Hrf Hnd Hq Hord) as (outs & k & E & Hos).
  assert (vo_chunk_hash <$> outs = vc_chunk_hash <$> cs) as Hh.
  { clear -Hos. induction Hos as [|v o vs os H _ IH]; [done|]. cbn. rewrite IH. f_equal. apply H. }
  destruct (verified_rows c outs now) as (n & c' & E' & Hc & Hout & Hin); [|by rewrite Hh|].
  { pose proof (Forall2_with_l _ _ _ _ Hrf (Forall2_with_l _ _ _ _ Hvalid Hos)) as H. clear -H.
    induction H as [|v o vs os (H1 & (H2 & H3) & (E1 & E2 & _ & _ & E5)) _ IH]; constructor; [|done].
    rewrite E1, E2, E5. unfold verified_copies. split_and!; try done; lia. }
  unfold verify. rewrite (protected_candidates_all cs Hrf). destruct cs as [|c0 cs0] eqn:Ecs; [done|].
  rewrite <-Ecs in *. rewrite E, E'. do 2 eexists. split_and!; [reflexivity|..].
  - cbn [vs_verified vs_degraded vs_candidates]. by rewrite filter_partition, (Forall2_length _ _ _ Hos).
  - done.
  - done.
  - rewrite <-Hh. apply Hout.
  - intros v Hv. apply list_elem_of_lookup in Hv as [i Hi].
    destruct (Forall2_lookup_l _ _ _ _ _ Hos Hi) as (o & Hoi & E1 & E2 & E3 & E4 & E5).
    apply list_elem_of_lookup_2 in Hoi, Hi. rewrite Forall_forall in Hrf. specialize (Hrf v Hi).
    unfold is_chunk_remotely_protected, get_chunk_protection. rewrite <-E1, (Hin o Hoi), <-E4, <-E3.
    rewrite verification_state_decides by congruence || lia. by rewrite E5, E3, E1.
Qed.

Lemma verify_stores_the_truth_witness :
  ∃ q stats c', verify (λ b, b) example_cluster (u "t") [97%N] nothing_missing
        (map_to_list (pp_target_chunks q)).*1 0 [example_candidate (example_hash 97)] example_table
      = (Ok stats, c') ∧ vs_candidates stats = 1%Z.
Proof.
  destruct (verify_plan_spec (λ b, b) example_cluster (u "t") [97%N] ltac:(by compute)
    [example_candidate (example_hash 97)] ltac:(by_compute) ltac:(by_compute)) as (q & Hq & _).
  destruct (verify_stores_the_truth (λ b, b) example_cluster (u "t") [97%N] (λ _, RpcOk ())
    (λ _ _ _, RpcOk []) 100 nothing_missing (map_to_list (pp_target_chunks q)).*1 0
    [example_candidate (example_hash 97)] example_table q ltac:(by compute)
    nothing_missing_run ltac:(done) ltac:(by_compute) ltac:(by_compute) ltac:(by_compute) Hq
    (Permutation_refl _)) as (stats & c' & E & _ & Hn & _).
  exists q, stats, c'. split; [exact E|exact Hn].
Defined.

(** ** Members that share an address *)

Definition shared_cluster : ClusterView :=
  {| self_node_id := Some [97%N];
     members := [example_member 97; example_member 98;
                 {| cm_node_id := [99%N]; cm_address := cm_address (example_member 98) |}] |}.

(** a push and a verification disagree on members that share an address: two members
    behind one address are one target that stores the chunk once, the push reports two
    copies and PLACED, and a verification of the same chunk that finds the copy where it
    was stored reports one of two copies and DEGRADED. *)
Theorem shared_address_counts_twice :
  ∃ o v k,
    push_chunk_replicas (λ b, b) shared_cluster [example_hash 97] 2 (u "t") [97%N] all_stored
      [cm_address (example_member 98)] = Ok [o]
    ∧ oc_stored o = 2%Z ∧ up_protection_state (outcome_update 2 (u "e") o) = PLACED
    ∧ verify_candidates (λ b, b) shared_cluster (u "t") [97%N] nothing_missing
        [cm_address (example_member 98)] [example_candidate (example_hash 97)] = Ok ([v], k)
    ∧ vo_verified_remote_copies v = 1%Z ∧ up_protection_state (verification_update v) = DEGRADED.
Proof.
  do 3 eexists. split; [vm_compute; reflexivity|]. split; [by vm_compute|]. split; [by vm_compute|].
  split; [vm_compute; reflexivity|]. by vm_compute.
Qed.
