(* ===== verification/NodeIdentity.v ===== *)
(** * The persistent identity of a node

    [node/identity.py]: the two-line identity file, its parser and writer, and the two
    operations that raise the incarnation. The file is the state: absent or its text.
    Writing it ([atomic_write_bytes] of [common/fs.py]) replaces the text at once or leaves
    it, but it can also raise, or the process can die, after the text was replaced. The lock
    of the store keeps the operations of the process apart, and no other process uses the
    file. *)

From S2P Require Import Prelude PyStr Common Files.

(** ** Reading text *)

(** [handle.readlines()] in text mode: the line ends LF, CR and CRLF are the same. *)
Fixpoint read_lines (cur s : pystr) : list pystr :=
  match s with
  | [] => match cur with [] => [] | _ => [cur] end
  | c :: s' =>
      if (c =? 10)%N then cur :: read_lines [] s'
      else if (c =? 13)%N then
        match s' with
        | d :: s'' => if (d =? 10)%N then cur :: read_lines [] s'' else cur :: read_lines [] s'
        | [] => [cur]
        end
      else read_lines (cur ++ [c]) s'
  end.

(** ** The file *)

Definition require_node_id (value : pystr) : res pystr :=
  let node_id := strip value in
  if negb (length node_id =? 32)%nat || negb (forallb is_hex_lower node_id)
  then Err NodeIdentityError else Ok node_id.

Definition require_incarnation (value : option Z) : res Z :=
  match value with
  | None => Err NodeIdentityError
  | Some incarnation => if (incarnation <? 1)%Z then Err NodeIdentityError else Ok incarnation
  end.

Record NodeIdentity := { ni_node_id : pystr; ni_incarnation : Z }.

Definition identity_file : Type := option pystr.

Definition read_unlocked : SM identity_file (pystr * Z) := λ file,
  match file with
  | None => (Err NodeIdentityError, file)
  | Some text =>
      match strip <$> read_lines [] text with
      | [l1; l2] =>
          (node_id ← require_node_id l1;
           incarnation ← require_incarnation (py_int l2);
           Ok (node_id, incarnation), file)
      | _ => (Err NodeIdentityError, file)
      end
  end.

Definition identity_text (node_id : pystr) (incarnation : Z) : pystr :=
  node_id ++ [10%N] ++ str_of_Z incarnation ++ [10%N].

(** [atomic_write_bytes] on this file: [out] says how it ends. *)
Definition write_text (out : WriteOutcome) (text : pystr) : SM identity_file unit := λ file,
  match out with
  | Written => (Ok (), Some text)
  | WriteRaises published e => (Err e, if published then Some text else file)
  end.

Definition write_unlocked (out : WriteOutcome) (node_id : pystr) (incarnation : Z)
  : SM identity_file unit :=
  match (n ← require_node_id node_id; i ← require_incarnation (Some incarnation); Ok (n, i)) with
  | Err _ => sraise NodeIdentityValueError
  | Ok (n, i) => write_text out (identity_text n i)
  end.

(** [fresh] is the identifier drawn for a new node. *)
Definition load_for_startup (fresh : pystr) (out : WriteOutcome) : SM identity_file NodeIdentity :=
  file ← sget;
  '(node_id, incarnation) ← match file with
                            | Some _ => read_unlocked
                            | None => mret (fresh, 0%Z)
                            end;
  let next_incarnation := (incarnation + 1)%Z in
  write_unlocked out node_id next_incarnation;;
  mret {| ni_node_id := node_id; ni_incarnation := next_incarnation |}.

Definition bump_above (out : WriteOutcome) (node_id : pystr) (observed_incarnation : Z)
  : SM identity_file Z :=
  let node_id := strip node_id in
  if bool_decide (node_id = []) then sraise NodeIdentityValueError
  else if (observed_incarnation <? 0)%Z then sraise NodeIdentityValueError
  else
    '(stored_node_id, stored_incarnation) ← read_unlocked;
    if bool_decide (stored_node_id ≠ node_id) then sraise NodeIdentityError
    else
      let next_incarnation := (Z.max stored_incarnation observed_incarnation + 1)%Z in
      write_unlocked out node_id next_incarnation;;
      mret next_incarnation.

(** ** The file format *)

Definition plain (c : N) : Prop := c ≠ 10%N ∧ c ≠ 13%N.

Lemma read_lines_line cur s r :
  Forall plain s → read_lines cur (s ++ 10%N :: r) = (cur ++ s) :: read_lines [] r.
Proof.
  intros H. revert cur. induction H as [|c s [H1 H2] _ IH]; intros cur; cbn [app read_lines].
  - by rewrite app_nil_r.
  - rewrite (proj2 (N.eqb_neq _ _) H1), (proj2 (N.eqb_neq _ _) H2), IH. by rewrite <-app_assoc.
Qed.

Lemma hex_plain s : forallb is_hex_lower s = true → Forall plain s.
Proof.
  induction s as [|c s IH]; cbn [forallb]; intros H; constructor; bool_hyps; auto.
  unfold is_hex_lower in H. unfold plain. apply orb_true_iff in H as [H|H]; bool_hyps;
    repeat match goal with H : (_ <=? _)%N = true |- _ => apply N.leb_le in H end; lia.
Qed.

Lemma digits_plain s : Forall (λ c, (48 <= c <= 57)%N) s → Forall plain s.
Proof. intros H. eapply Forall_impl; [exact H|]. unfold plain. intros; cbn in *; lia. Qed.

Lemma digits_no_space s : Forall (λ c, (48 <= c <= 57)%N) s → strip s = s.
Proof.
  intros H. apply strip_hex. induction H as [|c s Hc _ IH]; cbn; [done|]. rewrite IH, andb_true_r.
  unfold is_hex_lower. apply orb_true_iff; left. rewrite andb_true_iff, !N.leb_le. lia.
Qed.

Lemma int_digits_ascii s acc b :
  Forall (λ c, (48 <= c <= 57)%N) s → s ≠ [] →
  int_digits b acc s
  = Some (fold_left (λ acc c, acc * 10 + Z.of_N (default 0%N (decimal_value c)))%Z s acc).
Proof.
  intros H. revert acc b. induction H as [|c s Hc H IH]; intros acc b Hne; [done|].
  cbn [int_digits fold_left]. replace (c =? 95)%N with false by (symmetry; apply N.eqb_neq; lia).
  assert (decimal_value c = Some (c - 48)%N) as ->.
  { replace c with (48 + (c - 48))%N at 1 by lia. apply decimal_value_ascii. lia. }
  cbn [default from_option]. destruct s as [|d s]; [done|]. by apply IH.
Qed.

Lemma py_int_of_N n : py_int (str_of_N n) = Some (Z.of_N n).
Proof.
  destruct (str_of_N_spec n) as (Hi & _ & Hd). unfold py_int. rewrite digits_no_space by done.
  pose proof (str_of_N_nonempty n) as Hne. pose proof (int_digits_ascii _ 0 false Hd Hne) as Hp.
  unfold int_of_decimal in Hi. rewrite Hi in Hp. destruct (str_of_N n) as [|c r]; [done|].
  apply Forall_cons in Hd as [Hc _].
  replace (c =? 45)%N with false by (symmetry; apply N.eqb_neq; lia).
  by replace (c =? 43)%N with false by (symmetry; apply N.eqb_neq; lia).
Qed.

(** What a file written by the program holds. *)
Definition holds (file : identity_file) (node_id : pystr) (incarnation : Z) : Prop :=
  file = Some (identity_text node_id incarnation)
  ∧ length node_id = 32 ∧ forallb is_hex_lower node_id = true ∧ (1 <= incarnation)%Z.

Lemma require_node_id_Ok v n :
  require_node_id v = Ok n ↔ n = strip v ∧ length n = 32 ∧ forallb is_hex_lower n = true.
Proof.
  unfold require_node_id. destruct (Nat.eqb_spec (length (strip v)) 32), (forallb is_hex_lower (strip v)) eqn:E;
    cbn [negb orb]; (split; [intros [= <-]; auto|intros (-> & ? & ?); try congruence]).
Qed.

Lemma require_node_id_hex n :
  length n = 32 → forallb is_hex_lower n = true → require_node_id n = Ok n.
Proof. intros. apply require_node_id_Ok. rewrite strip_hex by done. done. Qed.

Lemma read_holds file n i : holds file n i → read_unlocked file = (Ok (n, i), file).
Proof.
  intros (-> & Hl & Hh & Hi). unfold read_unlocked, identity_text.
  assert (str_of_Z i = str_of_N (Z.to_N i)) as Hs by (destruct i; [lia|done|lia]). rewrite Hs.
  destruct (str_of_N_spec (Z.to_N i)) as (_ & _ & Hd).
  cbn [app]. rewrite (read_lines_line [] n) by by apply hex_plain.
  rewrite read_lines_line by by apply digits_plain. cbn [app read_lines fmap list_fmap].
  rewrite (strip_hex n), (digits_no_space (str_of_N _)), require_node_id_hex by done. cbn [mbind res_bind].
  rewrite py_int_of_N, Z2N.id by lia. cbn [require_incarnation].
  by rewrite (proj2 (Z.ltb_ge _ _)) by lia.
Qed.

(** A write leaves the file as it was or with the new text; it returns in the second case only. *)
Lemma write_spec out n i file r file' :
  write_unlocked out n i file = (r, file') → (r ≠ Ok () ∧ file' = file) ∨ (holds file' (strip n) i ∧ (r = Ok () ↔ out = Written)).
Proof.
  unfold write_unlocked. destruct (require_node_id n) as [m|] eqn:E; cbn [mbind res_bind]; [|intros [= <- <-]; by left].
  apply require_node_id_Ok in E as (-> & Hl & Hh).
  cbn [require_incarnation]. destruct (i <? 1)%Z eqn:Ei; bool_hyps; cbn [mbind res_bind]; [intros [= <- <-]; by left|].
  unfold write_text. destruct out as [|[] e]; intros [= <- <-]; [right|right|by left]; by split_and!.
Qed.

Lemma read_file file : (read_unlocked file).2 = file.
Proof. unfold read_unlocked. destruct file as [t|]; [|done]. by repeat case_match. Qed.

Lemma read_Ok file n i f' :
  read_unlocked file = (Ok (n, i), f') →
  f' = file ∧ length n = 32 ∧ forallb is_hex_lower n = true ∧ (1 <= i)%Z.
Proof.
  intros H. pose proof (read_file file) as Hf. rewrite H in Hf. split; [done|]. clear Hf. revert H.
  unfold read_unlocked. destruct file as [t|]; [|done].
  destruct (strip <$> read_lines [] t) as [|l1 [|l2 [|]]]; try done.
  intros [= H _]. apply bind_Ok in H as (m & Hm & H). apply bind_Ok in H as (j & Hj & H).
  simplify_eq. apply require_node_id_Ok in Hm as (_ & ? & ?). split_and!; [done..|].
  unfold require_incarnation in Hj. destruct (py_int l2) as [z|]; [|done].
  destruct (z <? 1)%Z eqn:E; bool_hyps; [done|]. by simplify_eq.
Qed.

(** ** The two operations *)

Definition is_err {A} (r : res A) : Prop := match r with Ok _ => False | Err _ => True end.

(** A start raises the incarnation by exactly one over the stored one (from zero for a new
    node) and keeps the stored node identifier. It returns what it persisted; when it fails
    the file is as it was or already holds that next incarnation. *)
Lemma startup_spec fresh out file r file' :
  load_for_startup fresh out file = (r, file') →
  (is_err r ∧ file' = file)
  ∨ ∃ n i, holds file' (strip n) (i + 1) ∧ match r with Ok idn => idn = {| ni_node_id := n; ni_incarnation := (i + 1)%Z |} | Err _ => True end
      ∧ match file with None => n = fresh ∧ i = 0%Z | Some _ => (read_unlocked file).1 = Ok (n, i) end.
Proof.
  unfold load_for_startup. rewrite sm_bind_spec. cbn [sget]. rewrite sm_bind_spec.
  assert (∀ n i, (let '(r, f) := write_unlocked out n (i + 1) file in
      match r with
      | Ok _ => (mret {| ni_node_id := n; ni_incarnation := (i + 1)%Z |} : SM identity_file NodeIdentity) f
      | Err e => (Err e, f)
      end) = (r, file') →
    (is_err r ∧ file' = file) ∨ holds file' (strip n) (i + 1)
      ∧ match r with Ok idn => idn = {| ni_node_id := n; ni_incarnation := (i + 1)%Z |} | Err _ => True end) as Hw.
  { intros n i. destruct (write_unlocked out n (i + 1) file) as [r0 f] eqn:Ew.
    apply write_spec in Ew as [[Hr ->]|[Hh _]]; destruct r0 as [[]|e]; cbn; intros [= <- <-]; [done|by left|by right|by right]. }
  destruct file as [t|].
  - pose proof (read_file (Some t)) as Hf.
    destruct (read_unlocked (Some t)) as [[[n i]|e] f1]; cbn in Hf; subst f1; [|intros [= <- <-]; by left].
    rewrite sm_bind_spec. intros [H|[H1 H2]]%Hw; [by left|right]. by exists n, i.
  - cbn [mret sm_ret]. rewrite sm_bind_spec. intros [H|[H1 H2]]%(Hw fresh 0%Z); [by left|right]. by exists fresh, 0%Z.
Qed.

(** Raising the incarnation above an observed one returns and persists an incarnation above
    both the observed and the stored one, for the same node identifier; when it fails the
    file is as it was or already holds that incarnation. *)
Lemma bump_spec out n observed file r file' :
  bump_above out n observed file = (r, file') →
  (is_err r ∧ file' = file)
  ∨ ∃ stored next, (read_unlocked file).1 = Ok (strip n, stored)
        ∧ (observed < next)%Z ∧ (stored < next)%Z ∧ holds file' (strip n) next
        ∧ match r with Ok i => i = next | Err _ => True end.
Proof.
  unfold bump_above. case_bool_decide; [intros [= <- <-]; by left|].
  destruct (observed <? 0)%Z eqn:Eo; [intros [= <- <-]; by left|].
  rewrite sm_bind_spec. pose proof (read_file file) as Hf.
  destruct (read_unlocked file) as [[[m i]|e] f1] eqn:Er; cbn in Hf; subst f1; [|intros [= <- <-]; by left].
  case_bool_decide as Hm; [intros [= <- <-]; by left|]. subst m.
  rewrite sm_bind_spec. destruct (write_unlocked out _ _ file) as [r0 f2] eqn:Ew.
  apply read_Ok in Er as (_ & Hl & Hh & _).
  apply write_spec in Ew as [[Hr ->]|[Ew _]]; [destruct r0 as [[]|e]; [done|]; intros [= <- <-]; by left|].
  rewrite (strip_hex (strip n)) in Ew by done. intros Hend. right. exists i, (Z.max i observed + 1)%Z.
  destruct r0 as [[]|e]; cbn in Hend; injection Hend as <- <-; (split_and!; [done|lia|lia|done|done]).
Qed.

(** ** Any history of one node *)

(** The operations a node performs on its file, with the identity it then uses. A failed
    operation, or one that the process does not survive, announces nothing: the file is as
    the last system call left it. A new identifier is [uuid4().hex]. *)
Inductive istep (file : identity_file) : option NodeIdentity → identity_file → Prop :=
  | is_startup fresh out idn file' :
      require_node_id fresh = Ok fresh → load_for_startup fresh out file = (Ok idn, file') → istep file (Some idn) file'
  | is_bump out n observed next file' :
      bump_above out n observed file = (Ok next, file') →
      istep file (Some {| ni_node_id := strip n; ni_incarnation := next |}) file'
  | is_startup_failed fresh out e file' :
      require_node_id fresh = Ok fresh → load_for_startup fresh out file = (Err e, file') → istep file None file'
  | is_bump_failed out n observed e file' :
      bump_above out n observed file = (Err e, file') → istep file None file'.

Inductive isteps : identity_file → list NodeIdentity → identity_file → Prop :=
  | is_nil file : isteps file [] file
  | is_silent file file1 file2 l : istep file None file1 → isteps file1 l file2 → isteps file l file2
  | is_announce file file1 file2 i l :
      istep file (Some i) file1 → isteps file1 l file2 → isteps file (i :: l) file2.

(** The incarnation that the file holds for the node; none when there is no file yet. *)
Definition at_least (file : identity_file) (n : pystr) (low : Z) : Prop := ∃ j, holds file n j ∧ (low <= j)%Z.

(** A step from a file that holds the identity keeps the identifier; it raises the stored
    incarnation to what it announces, or does not lower it. *)
Lemma istep_from file a file' :
  istep file a file' → ∀ n j, holds file n j →
  match a with
  | Some idn => ni_node_id idn = n ∧ (j < ni_incarnation idn)%Z ∧ holds file' n (ni_incarnation idn)
  | None => at_least file' n j
  end.
Proof.
  intros Hs n j Hh. pose proof (read_holds _ _ _ Hh) as Hr. pose proof Hh as (Ef & Hl & Hx & _).
  inversion Hs as [fresh out idn f _ E|out m observed next f E|fresh out e f _ E|out m observed e f E]; subst a file'.
  - apply startup_spec in E as [[[] _]|(m & i & H1 & -> & H2)]. rewrite Ef, <-Ef, Hr in H2. injection H2 as -> ->.
    rewrite strip_hex in H1 by done. cbn. split_and!; [done|lia|done].
  - apply bump_spec in E as [[[] _]|(stored & next' & H1 & H2 & H3 & H4 & ->)]. rewrite Hr in H1. cbn in H1.
    injection H1 as -> ->. done.
  - apply startup_spec in E as [[_ ->]|(m & i & H1 & _ & H2)]; [by exists j|]. rewrite Ef, <-Ef, Hr in H2. injection H2 as -> ->.
    rewrite strip_hex in H1 by done. exists (i + 1)%Z. split; [done|lia].
  - apply bump_spec in E as [[_ ->]|(stored & next' & H1 & H2 & H3 & H4 & _)]; [by exists j|]. rewrite Hr in H1. cbn in H1.
    injection H1 as -> ->. exists next'. split; [done|lia].
Qed.

(** The first step that writes the file fixes the identifier. *)
Lemma istep_first a file' :
  istep None a file' →
  match a with
  | Some idn => holds file' (ni_node_id idn) (ni_incarnation idn)
  | None => file' = None ∨ ∃ n j, holds file' n j
  end.
Proof.
  intros Hs.
  inversion Hs as [fresh out idn f Hf E|out m observed next f E|fresh out e f Hf E|out m observed e f E]; subst a file'.
  - apply startup_spec in E as [[[] _]|(m & i & H1 & -> & [-> ->])]. apply require_node_id_Ok in Hf as (Hf & _). cbn. by rewrite Hf.
  - apply bump_spec in E as [[[] _]|(? & ? & [=] & _)].
  - apply startup_spec in E as [[_ ->]|(m & i & H1 & _ & _)]; [by left|right]. eauto.
  - apply bump_spec in E as [[_ ->]|(? & ? & [=] & _)]. by left.
Qed.

Notation incarnations l := (ni_incarnation <$> l).

Lemma isteps_from file n j l file' :
  holds file n j → isteps file l file' →
  Forall (λ a, ni_node_id a = n ∧ (j < ni_incarnation a)%Z) l ∧ StronglySorted Z.lt (incarnations l)
  ∧ at_least file' n (default j (last (incarnations l))).
Proof.
  intros Hh Hs. revert j Hh.
  induction Hs as [file|file f1 f2 l Hs _ IH|file f1 f2 a l Hs _ IH]; intros j Hh.
  - split_and!; [constructor|constructor|by exists j].
  - destruct (istep_from _ _ _ Hs _ _ Hh) as (j1 & Hh1 & Hle). destruct (IH j1 Hh1) as (H1 & H2 & j2 & H3 & H4). split_and!; [|done|].
    + eapply Forall_impl; [exact H1|]. cbn. intros ? [? ?]. split; [done|lia].
    + exists j2. split; [done|]. destruct (last (incarnations l)); cbn in *; lia.
  - destruct (istep_from _ _ _ Hs _ _ Hh) as (Hn & Hlt & Hh1). destruct (IH _ Hh1) as (H1 & H2 & H3). split_and!.
    + constructor; [done|]. eapply Forall_impl; [exact H1|]. cbn. intros ? [? ?]. split; [done|lia].
    + rewrite fmap_cons. constructor; [done|]. apply Forall_fmap. eapply Forall_impl; [exact H1|]. by intros ? [_ ?].
    + rewrite fmap_cons, last_cons. by destruct (last (incarnations l)).
Qed.

(** ** Properties *)

(** the identity file is read back exactly as written: after a successful write the
    reader returns the same identifier and incarnation, and leaves the file alone. *)
Theorem identity_roundtrip out n i file file' :
  write_unlocked out n i file = (Ok (), file') →
  read_unlocked file' = (Ok (strip n, i), file').
Proof. intros H. apply write_spec in H as [[H _]|[H _]]; [done|]. by apply read_holds. Qed.

Definition example_id : pystr := repeat 97%N 32.

Lemma identity_roundtrip_witness :
  read_unlocked (Some (identity_text example_id 41)) = (Ok (example_id, 41%Z), Some (identity_text example_id 41)).
Proof. apply (identity_roundtrip Written example_id 41 None). by vm_compute. Defined.



