(* ===== verification/MembershipModel.v ===== *)
(** * Membership: messages, validation and the gossip buffer

    [node/membership/models.py], [validation.py] and [gossip.py]; the messages of
    [protos/membership.proto] with the range checks of protobuf's integer fields. *)

From S2P Require Import Prelude PyStr.

(** ** States *)

(** Protobuf enums are open: a received state may be any integer. *)
Inductive MemberState := UNKNOWN | ALIVE | SUSPECT | DEAD | LEFT | Unrecognized (n : Z).

#[export] Instance member_state_eq_dec : EqDecision MemberState.
Proof. solve_decision. Defined.

(** [STATE_ORDER.get(state, 0)] *)
Definition STATE_ORDER (s : MemberState) : nat :=
  match s with UNKNOWN => 0 | ALIVE => 1 | SUSPECT => 2 | DEAD => 3 | LEFT => 4 | Unrecognized _ => 0 end.

Definition ELIGIBLE_STATES : list MemberState := [ALIVE].
Definition VALID_EVENT_STATES : list MemberState := [ALIVE; SUSPECT; DEAD; LEFT].

(** ** Messages *)

Record NodeInfo := { nf_node_id : pystr; nf_address : pystr; nf_incarnation : Z }.

Record MemberEvent := {
  ev_node_id : pystr; ev_address : pystr; ev_incarnation : Z; ev_state : MemberState;
  ev_ts_ms : Z }.

#[export] Instance node_info_eq_dec : EqDecision NodeInfo.
Proof. solve_decision. Defined.
#[export] Instance member_event_eq_dec : EqDecision MemberEvent.
Proof. solve_decision. Defined.

(** A [uint64] field refuses other integers with ValueError. *)
Definition uint64 (n : Z) : bool := (0 <=? n)%Z && (n <? 2 ^ 64)%Z.

Definition node_info (node_id address : pystr) (incarnation : Z) : res NodeInfo :=
  if uint64 incarnation
  then Ok {| nf_node_id := node_id; nf_address := address; nf_incarnation := incarnation |}
  else Err ValueError.

Definition member_event (node_id address : pystr) (incarnation : Z) (state : MemberState) (ts_ms : Z)
  : res MemberEvent :=
  if uint64 incarnation
  then Ok {| ev_node_id := node_id; ev_address := address; ev_incarnation := incarnation;
             ev_state := state; ev_ts_ms := ts_ms |}
  else Err ValueError.

Record MemberRecord := {
  mr_node_id : pystr; mr_address : pystr; mr_incarnation : Z; mr_state : MemberState;
  mr_last_seen : Q; mr_suspect_since : option Q }.

(** ** Settings *)

Record MembershipSettings := {
  cluster_token : pystr; protocol_period_s : Q; bootstrap_retry_interval_s : Q;
  ping_timeout_s : Q; rpc_timeout_s : Q; suspect_timeout_s : Q; indirect_ping_fanout : Z;
  max_gossip_events : Z; gossip_ttl_s : Q; grpc_max_message_bytes : Z;
  grpc_keepalive_time_ms : Z; grpc_keepalive_timeout_ms : Z }.

Definition MEMBERSHIP_BOOTSTRAP_RETRY_MAX_INTERVAL_S : Q := 30.

Definition Qpos (q : Q) : bool := negb (Qle_bool q 0).

(** [MembershipSettings.__post_init__]; the keep-alive flag is a boolean by type. *)
Definition check_settings (s : MembershipSettings) : res MembershipSettings :=
  if Qpos (protocol_period_s s) && Qpos (bootstrap_retry_interval_s s)
     && Qle_bool (bootstrap_retry_interval_s s) MEMBERSHIP_BOOTSTRAP_RETRY_MAX_INTERVAL_S
     && Qpos (ping_timeout_s s) && Qpos (rpc_timeout_s s) && Qpos (suspect_timeout_s s)
     && (0 <=? indirect_ping_fanout s)%Z && (0 <=? max_gossip_events s)%Z && Qpos (gossip_ttl_s s)
     && (0 <? grpc_max_message_bytes s)%Z && (0 <? grpc_keepalive_time_ms s)%Z
     && (0 <? grpc_keepalive_timeout_ms s)%Z
  then Ok s else Err MembershipConfigError.

(** ** validation.py *)

Definition MAX_ADDRESS_LENGTH : nat := 255.

Definition is_valid_node_id (node_id : pystr) : bool :=
  let text := strip node_id in (length text =? 32)%nat && forallb is_hex_lower text.

Definition is_valid_port (port_text : pystr) : bool :=
  let port := int_of_decimal port_text in (0 <? port)%Z && (port <=? 65535)%Z.

Definition host_port_ok (host port_text : pystr) : bool :=
  match host with
  | [] => false
  | _ => if isdecimal port_text then is_valid_port port_text else false
  end.

Definition is_valid_address (address : pystr) : bool :=
  let text := strip address in
  if bool_decide (text = []) || (MAX_ADDRESS_LENGTH <? length text)%nat then false
  else if existsb (λ c, is_space c || (c <? 32)%N) text then false
  else match text with
  | 91%N :: _ =>
      match str_find 93 text with
      | None => false
      | Some closing =>
          if (closing <=? 1)%nat || (length text <? closing + 2)%nat
             || negb (bool_decide (text !! (closing + 1)%nat = Some 58%N)) then false
          else host_port_ok (take (closing - 1) (drop 1 text)) (drop (closing + 2) text)
      end
  | _ =>
      match rsplit1 58 text with
      | None => false
      | Some (host, port_text) => host_port_ok host port_text
      end
  end.

Definition is_valid_incarnation (value : Z) : bool := (1 <=? value)%Z.
Definition is_valid_state (state : MemberState) : bool := bool_decide (state ∈ VALID_EVENT_STATES).

Definition is_valid_nodeinfo (node : NodeInfo) : bool :=
  is_valid_node_id (nf_node_id node) && is_valid_address (nf_address node)
  && is_valid_incarnation (nf_incarnation node).

Definition is_valid_member_event (event : MemberEvent) : bool :=
  is_valid_node_id (ev_node_id event) && is_valid_address (ev_address event)
  && is_valid_incarnation (ev_incarnation event) && is_valid_state (ev_state event).

Definition limited_gossip (events : list MemberEvent) (limit : Z) : list MemberEvent :=
  take (Z.to_nat (Z.max 0 limit)) events.

Definition is_authorized_cluster_token (expected_token provided_token : pystr) : bool :=
  if bool_decide (strip expected_token = []) then false
  else bool_decide (provided_token = expected_token).

(** ** gossip.py *)

Notation gossip_buffer := (list (Q * MemberEvent)).

(** [_gc_locked] at time [now]. *)
Definition gossip_gc (ttl now : Q) (events : gossip_buffer) : gossip_buffer :=
  filter (λ te, Qle_bool (now - ttl) te.1 = true) events.

Definition gossip_add (ttl now : Q) (events : gossip_buffer) (event : MemberEvent) : gossip_buffer :=
  if is_valid_member_event event then gossip_gc ttl now (events ++ [(now, event)]) else events.

(** [events[-n:]] for [n > 0] is the last [n] elements. *)
Definition last_n {A} (n : nat) (l : list A) : list A := drop (length l - n) l.

(** The buffer after collection, and the events returned. *)
Definition gossip_sample (ttl now : Q) (events : gossip_buffer) (limit : Z)
  : list MemberEvent * gossip_buffer :=
  let events := gossip_gc ttl now events in
  let max_events := Z.to_nat (Z.max 0 limit) in
  (if (max_events =? 0)%nat then [] else (last_n max_events events).*2, events).

(** ** Properties of the buffer *)

Definition gossip_wf (events : gossip_buffer) : Prop :=
  Forall (λ te, is_valid_member_event te.2 = true) events.

Lemma gossip_gc_wf ttl now events : gossip_wf events → gossip_wf (gossip_gc ttl now events).
Proof. unfold gossip_wf, gossip_gc. rewrite !Forall_forall. intros H x [_ Hx]%list_elem_of_filter. auto. Qed.

Lemma gossip_add_wf ttl now events event : gossip_wf events → gossip_wf (gossip_add ttl now events event).
Proof.
  intros H. unfold gossip_add. destruct (is_valid_member_event event) eqn:E; [|done].
  apply gossip_gc_wf. apply Forall_app. split; [done|]. by apply Forall_singleton.
Qed.

(** Events added in order of time. *)
Fixpoint add_all (ttl : Q) (events : gossip_buffer) (l : list (Q * MemberEvent)) : gossip_buffer :=
  match l with
  | [] => events
  | (now, event) :: l' => add_all ttl (gossip_add ttl now events event) l'
  end.

Lemma gossip_gc_twice ttl t1 t2 events :
  (t1 <= t2)%Q → gossip_gc ttl t2 (gossip_gc ttl t1 events) = gossip_gc ttl t2 events.
Proof.
  intros Hle. unfold gossip_gc. rewrite list_filter_filter. apply list_filter_iff.
  intros [t e]; cbn. rewrite !Qle_bool_iff. split; [tauto|]. intros; split; lra.
Qed.

Lemma gossip_gc_app ttl now l k : gossip_gc ttl now (l ++ k) = gossip_gc ttl now l ++ gossip_gc ttl now k.
Proof. apply filter_app. Qed.

Lemma add_all_collected ttl now l events :
  Forall (λ te, is_valid_member_event te.2 = true) l → StronglySorted Qle l.*1 →
  Forall (λ te, (te.1 <= now)%Q) l →
  gossip_gc ttl now (add_all ttl events l) = gossip_gc ttl now (events ++ l).
Proof.
  revert events. induction l as [|[t e] l IH]; intros events Hv Hs Hle; cbn [add_all].
  { by rewrite app_nil_r. }
  apply Forall_cons in Hv as [Hv Hvl]. apply Forall_cons in Hle as [Ht Hle]. cbn [snd fst] in *.
  cbn in Hs. inversion_clear Hs as [|?? Hsl _]. rewrite IH by done. unfold gossip_add. rewrite Hv.
  rewrite !gossip_gc_app, !gossip_gc_twice by done.
  change ((t, e) :: l) with ([(t, e)] ++ l). by rewrite !gossip_gc_app, <-app_assoc.
Qed.

(** after any valid events added in order of time, a sample holds at most [limit]
    events: the most recent of those added within the time to live, in order. *)
Theorem gossip_sample_correct ttl now l limit :
  Forall (λ te, is_valid_member_event te.2 = true) l → StronglySorted Qle l.*1 →
  Forall (λ te, (te.1 <= now)%Q) l →
  let fresh := filter (λ te : Q * MemberEvent, Qle_bool (now - ttl) te.1 = true) l in
  (gossip_sample ttl now (add_all ttl [] l) limit).1
    = (last_n (Z.to_nat (Z.max 0 limit)) fresh).*2
  ∧ (length (gossip_sample ttl now (add_all ttl [] l) limit).1 <= Z.to_nat (Z.max 0 limit))%nat.
Proof.
  intros Hv Hs Hle fresh. unfold gossip_sample. rewrite add_all_collected by done. cbn [app fst].
  change (gossip_gc ttl now l) with fresh.
  destruct (Nat.eqb_spec (Z.to_nat (Z.max 0 limit)) 0) as [E|E].
  - rewrite E. unfold last_n. rewrite Nat.sub_0_r, drop_all. done.
  - split; [done|]. rewrite length_fmap. unfold last_n. rewrite length_drop. lia.
Qed.

Definition example_event (n : N) (inc : Z) (s : MemberState) : MemberEvent := {|
  ev_node_id := repeat n 32; ev_address := u "10.0.0.1:7000"; ev_incarnation := inc;
  ev_state := s; ev_ts_ms := 0 |}.

Lemma gossip_sample_correct_witness :
  (gossip_sample 60 100 (add_all 60 [] [(10%Q, example_event 97 1 ALIVE); (50%Q, example_event 98 1 ALIVE);
      (90%Q, example_event 99 2 SUSPECT)]) 1).1 = [example_event 99 2 SUSPECT].
Proof.
  rewrite (proj1 (gossip_sample_correct 60 100 [(10%Q, example_event 97 1 ALIVE);
    (50%Q, example_event 98 1 ALIVE); (90%Q, example_event 99 2 SUSPECT)] 1
    ltac:(repeat constructor) ltac:(repeat constructor; by vm_compute) ltac:(repeat constructor; by vm_compute))).
  by vm_compute.
Defined.
