(* ===== verification/Membership.v ===== *)
(** * The membership manager

    [node/membership/manager.py] as threads on its state, and the handlers of
    [node/services/membership_rpc.py]. Time, the outcome of a write of the identity file and
    the answers of other nodes are arguments; one clock value serves one operation, and the
    outcome of a write depends on what the file held. Any number of operations of a node run at the same time: what one of them does
    under a lock, and each other attribute it reads or assigns, is one step. *)

From S2P Require Import Prelude Threads PyStr Common Files NodeIdentity MembershipModel.

(** ** State *)

Record Manager := {
  mg_settings : MembershipSettings;
  mg_identity : identity_file;
  mg_node_id : pystr;
  mg_address : pystr;
  mg_incarnation : Z;
  mg_members : gmap pystr MemberRecord;
  mg_gossip : gossip_buffer;
  mg_leaving : bool;
  mg_seq : Z;
  mg_seeds : list pystr;
  mg_retry_index : nat;
  mg_bootstrap_complete : bool;
  mg_next_retry_at : option Q;
  mg_retry_nominal : Q;
  mg_seed_failures : gmap pystr pystr }.

Definition set_identity v m := {|
  mg_settings := mg_settings m; mg_identity := v; mg_node_id := mg_node_id m;
  mg_address := mg_address m; mg_incarnation := mg_incarnation m; mg_members := mg_members m;
  mg_gossip := mg_gossip m; mg_leaving := mg_leaving m; mg_seq := mg_seq m; mg_seeds := mg_seeds m;
  mg_retry_index := mg_retry_index m; mg_bootstrap_complete := mg_bootstrap_complete m;
  mg_next_retry_at := mg_next_retry_at m; mg_retry_nominal := mg_retry_nominal m;
  mg_seed_failures := mg_seed_failures m |}.
Definition set_incarnation v m := {|
  mg_settings := mg_settings m; mg_identity := mg_identity m; mg_node_id := mg_node_id m;
  mg_address := mg_address m; mg_incarnation := v; mg_members := mg_members m;
  mg_gossip := mg_gossip m; mg_leaving := mg_leaving m; mg_seq := mg_seq m; mg_seeds := mg_seeds m;
  mg_retry_index := mg_retry_index m; mg_bootstrap_complete := mg_bootstrap_complete m;
  mg_next_retry_at := mg_next_retry_at m; mg_retry_nominal := mg_retry_nominal m;
  mg_seed_failures := mg_seed_failures m |}.
Definition set_members f m := {|
  mg_settings := mg_settings m; mg_identity := mg_identity m; mg_node_id := mg_node_id m;
  mg_address := mg_address m; mg_incarnation := mg_incarnation m; mg_members := f (mg_members m);
  mg_gossip := mg_gossip m; mg_leaving := mg_leaving m; mg_seq := mg_seq m; mg_seeds := mg_seeds m;
  mg_retry_index := mg_retry_index m; mg_bootstrap_complete := mg_bootstrap_complete m;
  mg_next_retry_at := mg_next_retry_at m; mg_retry_nominal := mg_retry_nominal m;
  mg_seed_failures := mg_seed_failures m |}.
Definition set_gossip v m := {|
  mg_settings := mg_settings m; mg_identity := mg_identity m; mg_node_id := mg_node_id m;
  mg_address := mg_address m; mg_incarnation := mg_incarnation m; mg_members := mg_members m;
  mg_gossip := v; mg_leaving := mg_leaving m; mg_seq := mg_seq m; mg_seeds := mg_seeds m;
  mg_retry_index := mg_retry_index m; mg_bootstrap_complete := mg_bootstrap_complete m;
  mg_next_retry_at := mg_next_retry_at m; mg_retry_nominal := mg_retry_nominal m;
  mg_seed_failures := mg_seed_failures m |}.
Definition set_leaving v m := {|
  mg_settings := mg_settings m; mg_identity := mg_identity m; mg_node_id := mg_node_id m;
  mg_address := mg_address m; mg_incarnation := mg_incarnation m; mg_members := mg_members m;
  mg_gossip := mg_gossip m; mg_leaving := v; mg_seq := mg_seq m; mg_seeds := mg_seeds m;
  mg_retry_index := mg_retry_index m; mg_bootstrap_complete := mg_bootstrap_complete m;
  mg_next_retry_at := mg_next_retry_at m; mg_retry_nominal := mg_retry_nominal m;
  mg_seed_failures := mg_seed_failures m |}.
Definition set_seq v m := {|
  mg_settings := mg_settings m; mg_identity := mg_identity m; mg_node_id := mg_node_id m;
  mg_address := mg_address m; mg_incarnation := mg_incarnation m; mg_members := mg_members m;
  mg_gossip := mg_gossip m; mg_leaving := mg_leaving m; mg_seq := v; mg_seeds := mg_seeds m;
  mg_retry_index := mg_retry_index m; mg_bootstrap_complete := mg_bootstrap_complete m;
  mg_next_retry_at := mg_next_retry_at m; mg_retry_nominal := mg_retry_nominal m;
  mg_seed_failures := mg_seed_failures m |}.
Definition set_bootstrap seeds index complete next nominal failures m := {|
  mg_settings := mg_settings m; mg_identity := mg_identity m; mg_node_id := mg_node_id m;
  mg_address := mg_address m; mg_incarnation := mg_incarnation m; mg_members := mg_members m;
  mg_gossip := mg_gossip m; mg_leaving := mg_leaving m; mg_seq := mg_seq m; mg_seeds := seeds;
  mg_retry_index := index; mg_bootstrap_complete := complete;
  mg_next_retry_at := next; mg_retry_nominal := nominal; mg_seed_failures := failures |}.

Definition set_complete v m := set_bootstrap (mg_seeds m) (mg_retry_index m) v (mg_next_retry_at m)
  (mg_retry_nominal m) (mg_seed_failures m) m.
Definition set_next_retry v m := set_bootstrap (mg_seeds m) (mg_retry_index m) (mg_bootstrap_complete m) v
  (mg_retry_nominal m) (mg_seed_failures m) m.
Definition set_retry_index v m := set_bootstrap (mg_seeds m) v (mg_bootstrap_complete m) (mg_next_retry_at m)
  (mg_retry_nominal m) (mg_seed_failures m) m.
Definition set_nominal v m := set_bootstrap (mg_seeds m) (mg_retry_index m) (mg_bootstrap_complete m)
  (mg_next_retry_at m) v (mg_seed_failures m) m.
Definition set_seeds v m := set_bootstrap v (mg_retry_index m) (mg_bootstrap_complete m) (mg_next_retry_at m)
  (mg_retry_nominal m) (mg_seed_failures m) m.
Definition set_failures f m := set_bootstrap (mg_seeds m) (mg_retry_index m) (mg_bootstrap_complete m)
  (mg_next_retry_at m) (mg_retry_nominal m) (f (mg_seed_failures m)) m.

(** What the surroundings supply to one operation: the clocks, how a write of the identity
    file ends, given what it held, and the text of an exception. *)
Record Env := { mono : Q; wall_ms : Z; io_write : identity_file → WriteOutcome; exc_text : exn → pystr }.

Definition own_record (m : Manager) (state : MemberState) (seen : Q) : MemberRecord := {|
  mr_node_id := mg_node_id m; mr_address := mg_address m; mr_incarnation := mg_incarnation m;
  mr_state := state; mr_last_seen := seen; mr_suspect_since := None |}.

(** [MembershipManager.__init__] *)
Definition new_manager (settings : MembershipSettings) (identity : identity_file)
    (node_id address : pystr) (incarnation : Z) (now : Q) : res Manager :=
  let node_id := strip node_id in
  let address := strip address in
  if negb (is_valid_node_id node_id) then Err MembershipConfigError
  else if negb (is_valid_address address) then Err MembershipConfigError
  else
    let m := {| mg_settings := settings; mg_identity := identity; mg_node_id := node_id;
                mg_address := address; mg_incarnation := Z.max incarnation 1; mg_members := ∅;
                mg_gossip := []; mg_leaving := false; mg_seq := 0; mg_seeds := [];
                mg_retry_index := 0; mg_bootstrap_complete := false; mg_next_retry_at := None;
                mg_retry_nominal := bootstrap_retry_interval_s settings; mg_seed_failures := ∅ |} in
    Ok (set_members (λ _, {[node_id := own_record m ALIVE now]}) m).

(** ** Records and events *)

Definition new_record_from_event (event : MemberEvent) (observed_at : Q) : MemberRecord := {|
  mr_node_id := ev_node_id event; mr_address := ev_address event;
  mr_incarnation := ev_incarnation event; mr_state := ev_state event; mr_last_seen := observed_at;
  mr_suspect_since := if bool_decide (ev_state event = SUSPECT) then Some observed_at else None |}.

Definition apply_event_to_record (record : MemberRecord) (event : MemberEvent) (observed_at : Q)
    (replace_incarnation : bool) : MemberRecord := {|
  mr_node_id := mr_node_id record;
  mr_address := if replace_incarnation then ev_address event else mr_address record;
  mr_incarnation := if replace_incarnation then ev_incarnation event else mr_incarnation record;
  mr_state := ev_state event;
  mr_last_seen := if bool_decide (ev_state event = ALIVE) then observed_at else mr_last_seen record;
  mr_suspect_since :=
    if bool_decide (ev_state event = ALIVE) then None
    else if bool_decide (ev_state event = SUSPECT) then Some observed_at
    else mr_suspect_since record |}.

(** ** Operations

    Each is a thread of the node: what it reads and writes under one lock is one action, and
    so is each other attribute it reads or assigns. The lock of the manager guards the table,
    the buffer and the identity file have locks of their own, and the incarnation, the flag
    of leaving and the bootstrap variables have none. *)

Notation Op := (thread Manager).

Definition gossip_push (env : Env) (event : MemberEvent) : Op unit :=
  tmodify (λ m, set_gossip (gossip_add (gossip_ttl_s (mg_settings m)) (mono env) (mg_gossip m) event) m).

Definition sample_gossip (env : Env) : Op (list MemberEvent) := atomic (λ m,
  let '(events, buffer) := gossip_sample (gossip_ttl_s (mg_settings m)) (mono env) (mg_gossip m)
                             (max_gossip_events (mg_settings m)) in
  (Ok events, set_gossip buffer m)).

Definition complete_bootstrap : Op unit :=
  tmodify (set_complete true);;
  tmodify (set_next_retry None).

Definition alive_completes (event : MemberEvent) : Op unit :=
  if bool_decide (ev_state event = ALIVE) then complete_bootstrap else mret ().

(** The own record, with the incarnation the manager has when the lock is taken. *)
Definition publish_own_record (env : Env) (state : MemberState) : Op unit :=
  tmodify (λ m, set_members (<[mg_node_id m := own_record m state (mono env)]>) m).

Definition own_event (env : Env) (state : MemberState) : Op MemberEvent :=
  '(node_id, address, incarnation) ← tread (λ m, (mg_node_id m, mg_address m, mg_incarnation m));
  tlift (member_event node_id address incarnation state (wall_ms env)).

(** [_announce_alive] *)
Definition announce_alive (env : Env) : Op unit :=
  leaving ← tread mg_leaving;
  if leaving : bool then mret ()
  else
    event ← own_event env ALIVE;
    publish_own_record env ALIVE;;
    gossip_push env event.

(** [_announce_left] *)
Definition announce_left (env : Env) : Op unit :=
  event ← own_event env LEFT;
  publish_own_record env LEFT;;
  gossip_push env event.

(** [identity_store.bump_above] on the file inside the state; the lock of the store makes it
    one action. *)
Definition bump_identity (env : Env) (node_id : pystr) (observed : Z) : SM Manager Z := λ m,
  let '(r, file) := bump_above (io_write env (mg_identity m)) node_id observed (mg_identity m) in
  (r, set_identity file m).

(** [_handle_self_event]: no lock is held from the comparison to the announcement. *)
Definition handle_self_event (env : Env) (event : MemberEvent) : Op unit :=
  leaving ← tread mg_leaving;
  if leaving : bool then mret ()
  else
    address ← tread mg_address;
    if bool_decide (ev_address event ≠ [] ∧ ev_address event ≠ address) then mret ()
    else if bool_decide (ev_state event ∈ [SUSPECT; DEAD]) then
      current ← tread mg_incarnation;
      if (current <=? ev_incarnation event)%Z then
        node_id ← tread mg_node_id;
        incarnation ← atomic (bump_identity env node_id (ev_incarnation event));
        tmodify (set_incarnation incarnation);;
        announce_alive env
      else mret ()
    else mret ().

(** What [apply_event] does to the table under the lock: the record that the event leaves,
    when it improves the view. *)
Definition improved_record (env : Env) (event : MemberEvent) (members : gmap pystr MemberRecord)
  : option MemberRecord :=
  match members !! ev_node_id event with
  | None => Some (new_record_from_event event (mono env))
  | Some current =>
      if (mr_incarnation current <? ev_incarnation event)%Z then
        Some (apply_event_to_record current event (mono env) true)
      else if (ev_incarnation event <? mr_incarnation current)%Z then None
      else if (STATE_ORDER (mr_state current) <? STATE_ORDER (ev_state event))%nat then
        Some (apply_event_to_record current event (mono env) false)
      else None
  end.

Definition improve_table (env : Env) (event : MemberEvent) : SM Manager bool := λ m,
  match improved_record env event (mg_members m) with
  | Some record => (Ok true, set_members (<[ev_node_id event := record]>) m)
  | None => (Ok false, m)
  end.

(** [apply_event] *)
Definition apply_event (env : Env) (event : MemberEvent) : Op unit :=
  if negb (is_valid_member_event event) then mret ()
  else
    node_id ← tread mg_node_id;
    if bool_decide (ev_node_id event = node_id) then handle_self_event env event
    else
      improved ← atomic (improve_table env event);
      if improved : bool then gossip_push env event;; alive_completes event
      else mret ().

(** [apply_gossip] *)
Definition apply_gossip (env : Env) (events : list MemberEvent) : Op unit :=
  settings ← tread mg_settings;
  tfor (apply_event env) (limited_gossip events (max_gossip_events settings)).

(** [apply_nodeinfo] *)
Definition apply_nodeinfo (env : Env) (node : NodeInfo) (state : MemberState) : Op unit :=
  if negb (is_valid_nodeinfo node) then mret ()
  else
    event ← tlift (member_event (nf_node_id node) (nf_address node) (nf_incarnation node) state
                     (wall_ms env));
    apply_event env event.

Definition mark (env : Env) (state : MemberState) (node_id address : pystr) (incarnation : Z)
  : Op unit :=
  event ← tlift (member_event node_id address incarnation state (wall_ms env));
  apply_event env event.
Definition mark_suspect (env : Env) := mark env SUSPECT.
Definition mark_dead (env : Env) := mark env DEAD.

Definition is_expired (now timeout : Q) (record : MemberRecord) : bool :=
  bool_decide (mr_state record = SUSPECT)
  && match mr_suspect_since record with
     | Some since => Qle_bool timeout (now - since)
     | None => false
     end.

Definition member_values (m : Manager) : list MemberRecord := (map_to_list (mg_members m)).*2.

(** [_expire_suspects] *)
Definition expire_suspects (env : Env) : Op unit :=
  expired ← tread (λ m, filter (λ r, is_expired (mono env) (suspect_timeout_s (mg_settings m)) r = true)
                         (member_values m));
  tfor (λ r, mark_dead env (mr_node_id r) (mr_address r) (mr_incarnation r)) expired.

(** [get_alive_peers] and [get_members_snapshot]: Python yields the records in the order
    in which they were first inserted; here in the order of the map. *)
Definition get_alive_peers (m : Manager) : list MemberRecord :=
  filter (λ r, mr_node_id r ≠ mg_node_id m ∧ mr_state r = ALIVE) (member_values m).

Definition eligible (m : Manager) (r : MemberRecord) : bool :=
  bool_decide (mr_state r ∈ ELIGIBLE_STATES)
  && negb (bool_decide (mr_node_id r = mg_node_id m) && mg_leaving m).

Definition get_members_snapshot (m : Manager) (eligible_only : bool) : res (list NodeInfo) :=
  mapM_res (λ r, node_info (mr_node_id r) (mr_address r) (mr_incarnation r))
    (filter (λ r, eligible_only = true → eligible m r = true) (member_values m)).

(** ** Probing other nodes *)

(** [except (grpc.RpcError, ValueError)], with the subclasses of ValueError. *)
Definition rpc_or_value_error (e : exn) : bool :=
  match e with
  | RpcError _ | ValueError | NodeIdentityValueError | MembershipConfigError
  | StopanConfigValueError | MetadataDatabaseValueError => true
  | _ => false
  end.

Definition false_on_error (e : exn) : option (Op bool) :=
  if rpc_or_value_error e then Some (mret false) else None.

(** The answer to a Ping or PingReq, or the exception of the call. *)
Definition ping_reply : Type := res (bool * list MemberEvent).

Definition own_node_info : Op NodeInfo :=
  info ← tread (λ m, node_info (mg_node_id m) (mg_address m) (mg_incarnation m));
  tlift info.

Definition touch_alive (env : Env) (node_id : pystr) (members : gmap pystr MemberRecord)
  : gmap pystr MemberRecord :=
  match members !! node_id with
  | Some r =>
      if bool_decide (mr_state r = ALIVE)
      then <[node_id := {| mr_node_id := mr_node_id r; mr_address := mr_address r;
                           mr_incarnation := mr_incarnation r; mr_state := mr_state r;
                           mr_last_seen := mono env; mr_suspect_since := mr_suspect_since r |}]> members
      else members
  | None => members
  end.

(** [_ping]: building the own NodeInfo and sampling come before the [try]. *)
Definition ping (env : Env) (target : pystr) (reply : ping_reply) : Op bool :=
  me ← own_node_info;
  gossip ← sample_gossip env;
  tcatch
    ('(ok, events) ← tlift reply;
     apply_gossip env events;;
     tmodify (set_members (touch_alive env target));;
     mret ok)
    false_on_error.

(** An attribute of a record the caller keeps a reference to: the value it has now. *)
Definition read_record {A} (node_id : pystr) (field : MemberRecord → A) : Op A :=
  r ← tread (λ m, mg_members m !! node_id);
  match r with
  | Some r => mret (field r)
  | None => traise KeyError
  end.

(** [_ping_req] *)
Definition ping_req (env : Env) (target : pystr) (reply : ping_reply) : Op bool :=
  requester ← own_node_info;
  gossip ← sample_gossip env;
  tcatch
    (address ← read_record target mr_address;
     incarnation ← read_record target mr_incarnation;
     info ← tlift (node_info target address incarnation);
     '(ok, events) ← tlift reply;
     apply_gossip env events;;
     mret ok)
    false_on_error.

(** The loop over the helpers: true as soon as one reaches the target. *)
Fixpoint ask_helpers (env : Env) (target : pystr) (reply : MemberRecord → ping_reply)
    (helpers : list MemberRecord) : Op bool :=
  match helpers with
  | [] => mret false
  | helper :: helpers' =>
      ok ← ping_req env target (reply helper);
      if ok : bool then mret true else ask_helpers env target reply helpers'
  end.

(** What [random] and the network supply to a round: the index [random.choice] draws, the
    permutation of [random.shuffle], the answers to a Ping and to a PingReq. *)
Record Round := {
  rd_choice : nat; rd_shuffle : list MemberRecord → list MemberRecord;
  rd_ping : MemberRecord → ping_reply; rd_ping_req : MemberRecord → ping_reply }.

(** [random.choice(peers)] *)
Definition choose_peer (rd : Round) (peers : list MemberRecord) : option MemberRecord :=
  peers !! (rd_choice rd mod length peers)%nat.

(** The shuffled peers other than the target, cut at the fan-out. *)
Definition round_helpers (rd : Round) (fanout : Z) (peers : list MemberRecord) (target : pystr)
  : list MemberRecord :=
  take (Z.to_nat fanout) (rd_shuffle rd (filter (λ p, mr_node_id p ≠ target) peers)).

(** [_run_swim_round]. The attributes of the target are read when it is suspected: Python
    keeps a reference to the live record. *)
Definition run_swim_round (env : Env) (rd : Round) : Op unit :=
  expire_suspects env;;
  peers ← tread get_alive_peers;
  match choose_peer rd peers with
  | None => mret ()
  | Some target =>
      tmodify (λ m, set_seq (mg_seq m + 1) m);;
      ok ← ping env (mr_node_id target) (rd_ping rd target);
      if ok : bool then expire_suspects env
      else
        settings ← tread mg_settings;
        reached ← ask_helpers env (mr_node_id target) (rd_ping_req rd)
                    (round_helpers rd (indirect_ping_fanout settings) peers (mr_node_id target));
        if reached : bool then expire_suspects env
        else
          address ← read_record (mr_node_id target) mr_address;
          incarnation ← read_record (mr_node_id target) mr_incarnation;
          mark_suspect env (mr_node_id target) address incarnation;;
          expire_suspects env
  end.

(** ** Bootstrap *)

Definition join_failure (env : Env) (seed : pystr) (e : exn) : option (Op unit) :=
  let report detail := Some (tmodify (set_failures (<[seed := detail]>))) in
  match e with
  | RpcError details => report (u "fall" ++ o_acute ++ u ": " ++ details)
  | _ => if rpc_or_value_error e then report (u "omitido: " ++ exc_text env e) else None
  end.

(** [_join_seed]; the reply holds the members and the gossip of the seed. *)
Definition join_seed (env : Env) (seed : pystr) (reply : res (list NodeInfo * list MemberEvent))
  : Op unit :=
  me ← own_node_info;
  tcatch
    ('(nodes, events) ← tlift reply;
     tfor (λ node, apply_nodeinfo env node ALIVE) nodes;;
     apply_gossip env events;;
     tmodify (set_failures (delete seed)))
    (join_failure env seed).

(** [_refresh_bootstrap_completion] *)
Definition refresh_bootstrap_completion : Op bool :=
  complete ← tread mg_bootstrap_complete;
  if complete : bool then mret true
  else
    peers ← tread get_alive_peers;
    match peers with
    | [] => mret false
    | _ => complete_bootstrap;; mret true
    end.

Definition BACKOFF_FACTOR : Q := 2.
Definition JITTER_RATIO : Q := 2 # 10.
Definition Qmin' (a b : Q) : Q := if Qle_bool a b then a else b.
Definition Qmax' (a b : Q) : Q := if Qle_bool a b then b else a.

(** [_schedule_next_bootstrap_retry]; [uniform lo hi] is the value drawn. *)
Definition schedule_next_bootstrap_retry (env : Env) (uniform : Q → Q → Q) : Op unit :=
  current ← tread mg_retry_nominal;
  let nominal := Qmin' current MEMBERSHIP_BOOTSTRAP_RETRY_MAX_INTERVAL_S in
  let jitter := (nominal * JITTER_RATIO)%Q in
  let min_delay := Qmax' 0 (nominal - jitter) in
  let max_delay := Qmin' MEMBERSHIP_BOOTSTRAP_RETRY_MAX_INTERVAL_S (nominal + jitter) in
  let delay := uniform min_delay max_delay in
  tmodify (set_next_retry (Some (mono env + delay)%Q));;
  tmodify (set_nominal (Qmin' MEMBERSHIP_BOOTSTRAP_RETRY_MAX_INTERVAL_S (nominal * BACKOFF_FACTOR))).

(** [_retry_bootstrap_if_due]; [reply] is what joining a given seed answers. *)
Definition retry_bootstrap_if_due (env : Env) (uniform : Q → Q → Q)
    (reply : pystr → res (list NodeInfo * list MemberEvent)) : Op unit :=
  complete ← tread mg_bootstrap_complete;
  seeds ← tread mg_seeds;
  if complete || bool_decide (seeds = []) then mret ()
  else
    complete ← refresh_bootstrap_completion;
    if complete : bool then mret ()
    else
      next_retry_at ← tread mg_next_retry_at;
      let due := match next_retry_at with
                 | Some at_ => Qle_bool at_ (mono env)
                 | None => true
                 end in
      if negb due then mret ()
      else
        '(seeds, index) ← tread (λ m, (mg_seeds m, mg_retry_index m));
        match seeds !! index with
        | None => traise KeyError
        | Some seed =>
            tmodify (set_retry_index ((index + 1) mod length seeds)%nat);;
            join_seed env seed (reply seed);;
            complete ← refresh_bootstrap_completion;
            if complete : bool then mret () else schedule_next_bootstrap_retry env uniform
        end.

(** When the loop wakes up. *)
Definition wake_at (m : Manager) (next_protocol_at : Q) : Q :=
  if negb (mg_bootstrap_complete m) && bool_decide (mg_seeds m ≠ []) then
    match mg_next_retry_at m with
    | Some retry_at => Qmin' next_protocol_at retry_at
    | None => next_protocol_at
    end
  else next_protocol_at.

(** The body of [_swim_loop] after the wait: a bootstrap retry and, when it is due, a round
    of the protocol. The result is the time of the next round. *)
Definition swim_iteration (env : Env) (uniform : Q → Q → Q)
    (reply : pystr → res (list NodeInfo * list MemberEvent)) (rd : Round) (next_protocol_at : Q)
  : Op Q :=
  retry_bootstrap_if_due env uniform reply;;
  if negb (Qle_bool next_protocol_at (mono env)) then mret next_protocol_at
  else
    settings ← tread mg_settings;
    run_swim_round env rd;;
    mret (mono env + protocol_period_s settings)%Q.

(** [_normalize_bootstrap_seeds] *)
Fixpoint normalize_seeds (own : pystr) (seen : list pystr) (raw : list pystr) : list pystr :=
  match raw with
  | [] => []
  | r :: raw' =>
      let seed := strip r in
      if bool_decide (seed = [] ∨ seed = own ∨ seed ∈ seen) then normalize_seeds own seen raw'
      else if is_valid_address seed then seed :: normalize_seeds own (seed :: seen) raw'
      else normalize_seeds own (seed :: seen) raw'
  end.

(** The immediate attempts of [bootstrap_join]: true when the loop was cancelled.
    [cancelled seed] tells whether a stop was requested before that seed. *)
Fixpoint bootstrap_attempts (env : Env) (cancelled : pystr → bool)
    (reply : pystr → res (list NodeInfo * list MemberEvent)) (seeds : list pystr) : Op bool :=
  match seeds with
  | [] => mret false
  | seed :: seeds' =>
      if cancelled seed then mret true
      else
        complete ← refresh_bootstrap_completion;
        if complete : bool then mret false
        else join_seed env seed (reply seed);; bootstrap_attempts env cancelled reply seeds'
  end.

(** [bootstrap_join] *)
Definition bootstrap_join (env : Env) (seeds : list pystr) (cancelled : pystr → bool)
    (cancelled_at_end : bool) (reply : pystr → res (list NodeInfo * list MemberEvent))
    (uniform : Q → Q → Q) : Op unit :=
  address ← tread mg_address;
  let normalized := normalize_seeds address [] seeds in
  tmodify (set_seeds normalized);;
  tmodify (set_retry_index 0);;
  tmodify (λ m, set_nominal (bootstrap_retry_interval_s (mg_settings m)) m);;
  match normalized with
  | [] => complete_bootstrap
  | _ =>
      tmodify (set_complete false);;
      stopped ← bootstrap_attempts env cancelled reply normalized;
      if (stopped : bool) || cancelled_at_end then mret ()
      else
        complete ← refresh_bootstrap_completion;
        if complete : bool then mret () else schedule_next_bootstrap_retry env uniform
  end.

(** ** Leaving *)

(** The state changes of [leave] and the addresses that are told about it; the flag is tested
    and set under the lifecycle lock. *)
Definition leave (env : Env) : Op (list pystr) :=
  first_leave ← atomic (λ m, (Ok (negb (mg_leaving m)), set_leaving true m));
  if negb first_leave then mret []
  else
    announce_left env;;
    peers ← tread get_alive_peers;
    seeds ← tread mg_seeds;
    address ← tread mg_address;
    mret (filter (λ a, a ≠ address) (ordered_unique ((mr_address <$> peers) ++ seeds))).

(** ** membership_rpc.py *)

Definition require_authorized (token : pystr) : Op unit :=
  settings ← tread mg_settings;
  if is_authorized_cluster_token (cluster_token settings) token then mret ()
  else traise (RpcAbort UNAUTHENTICATED).

Definition abort_if (c : bool) (code : N) : Op unit :=
  if c then traise (RpcAbort code) else mret ().

(** The snapshot is taken under the lock. *)
Definition eligible_snapshot : Op (list NodeInfo) :=
  nodes ← tread (λ m, get_members_snapshot m true);
  tlift nodes.

Definition rpc_join (env : Env) (token : pystr) (node : NodeInfo)
  : Op (list NodeInfo * list MemberEvent) :=
  require_authorized token;;
  abort_if (negb (is_valid_nodeinfo node)) INVALID_ARGUMENT;;
  leaving ← tread mg_leaving;
  abort_if leaving UNAVAILABLE;;
  apply_nodeinfo env node ALIVE;;
  nodes ← eligible_snapshot;
  gossip ← sample_gossip env;
  mret (nodes, gossip).

Definition rpc_ping (env : Env) (token : pystr) (from : NodeInfo) (events : list MemberEvent)
  : Op (bool * list MemberEvent) :=
  require_authorized token;;
  abort_if (negb (is_valid_nodeinfo from)) INVALID_ARGUMENT;;
  apply_nodeinfo env from ALIVE;;
  apply_gossip env events;;
  gossip ← sample_gossip env;
  leaving ← tread mg_leaving;
  mret (negb leaving, gossip).

Definition rpc_ping_req (env : Env) (token : pystr) (requester target : NodeInfo)
    (events : list MemberEvent) (reply : ping_reply) : Op (bool * list MemberEvent) :=
  require_authorized token;;
  abort_if (negb (is_valid_nodeinfo requester)) INVALID_ARGUMENT;;
  abort_if (negb (is_valid_nodeinfo target)) INVALID_ARGUMENT;;
  apply_nodeinfo env requester ALIVE;;
  apply_gossip env events;;
  leaving ← tread mg_leaving;
  if leaving : bool then gossip ← sample_gossip env; mret (false, gossip)
  else
    ok ← tcatch
      (me ← own_node_info;
       _ ← sample_gossip env;
       '(ok, answer) ← tlift reply;
       apply_gossip env answer;;
       mret ok)
      false_on_error;
    gossip ← sample_gossip env;
    mret (ok, gossip).

Definition rpc_leave (env : Env) (token : pystr) (node : NodeInfo) : Op bool :=
  require_authorized token;;
  abort_if (negb (is_valid_nodeinfo node)) INVALID_ARGUMENT;;
  node_id ← tread mg_node_id;
  abort_if (bool_decide (nf_node_id node = node_id)) INVALID_ARGUMENT;;
  apply_nodeinfo env node LEFT;;
  mret true.

Definition rpc_get_members (token : pystr) : Op (list NodeInfo) :=
  require_authorized token;;
  eligible_snapshot.

(** ** Order of views *)

(** What membership compares: the incarnation first, then the state. *)
Definition key (r : MemberRecord) : Z * nat := (mr_incarnation r, STATE_ORDER (mr_state r)).
Definition key_le (a b : Z * nat) : Prop := (a.1 < b.1)%Z ∨ (a.1 = b.1 ∧ (a.2 <= b.2)%nat).

#[export] Instance key_le_preorder : PreOrder key_le.
Proof.
  split.
  - intros k. right. done.
  - intros a b c [?|[? ?]] [?|[? ?]]; unfold key_le; [left; lia|left; lia|left; lia|right; lia].
Qed.

(** The identity file of the node holds this incarnation or a higher one. *)
Definition covered (m : Manager) (i : Z) : Prop := at_least (mg_identity m) (mg_node_id m) i.

(** What no step of a thread undoes. *)
Record view_le (m m' : Manager) : Prop := {
  vl_node_id : mg_node_id m' = mg_node_id m;
  vl_address : mg_address m' = mg_address m;
  vl_settings : mg_settings m' = mg_settings m;
  vl_leaving : mg_leaving m = true → mg_leaving m' = true;
  vl_covered i : covered m i → covered m' i;
  vl_members id r : mg_members m !! id = Some r → id ≠ mg_node_id m →
    ∃ r', mg_members m' !! id = Some r' ∧ key_le (key r) (key r')
}.

(** What a node says of itself (its incarnation, its record, its gossip) never exceeds what
    its identity file holds. *)
Record manager_wf (m : Manager) : Prop := {
  mw_own : ∃ r, mg_members m !! mg_node_id m = Some r ∧ covered m (mr_incarnation r)
             ∧ (mr_state r = ALIVE ∨ (mr_state r = LEFT ∧ mg_leaving m = true));
  mw_records id r : mg_members m !! id = Some r →
    mr_node_id r = id ∧ is_valid_node_id id = true ∧ is_valid_address (mr_address r) = true
    ∧ mr_state r ∈ VALID_EVENT_STATES ∧ (1 <= mr_incarnation r)%Z;
  mw_incarnation : (1 <= mg_incarnation m)%Z ∧ covered m (mg_incarnation m);
  mw_ids : is_valid_node_id (mg_node_id m) = true ∧ is_valid_address (mg_address m) = true
           ∧ strip (mg_node_id m) = mg_node_id m;
  mw_gossip : gossip_wf (mg_gossip m)
    ∧ ∀ te, te ∈ mg_gossip m → ev_node_id te.2 = mg_node_id m → covered m (ev_incarnation te.2)
}.

#[export] Instance view_le_preorder : PreOrder view_le.
Proof.
  split.
  - intros m. split; auto. intros id r H _. exists r. split; [done|reflexivity].
  - intros a b c [a1 a2 a3 a4 a5 a6] [b1 b2 b3 b4 b5 b6]. split; try congruence; auto.
    intros id r H Hid. destruct (a6 _ _ H Hid) as (r1 & H1 & K1).
    destruct (b6 _ _ H1) as (r2 & H2 & K2); [congruence|].
    exists r2. split; [done|]. by etransitivity.
Qed.

(** An action that keeps the invariant and only advances the view. *)
Notation advances := (guarantee manager_wf view_le).
Notation safe_op := (always_safe manager_wf view_le).

(** Changes that leave the members, the identity, the incarnation and the gossip alone. *)
Lemma advances_same m m' :
  mg_members m' = mg_members m → mg_node_id m' = mg_node_id m → mg_address m' = mg_address m →
  mg_settings m' = mg_settings m → mg_identity m' = mg_identity m →
  mg_incarnation m' = mg_incarnation m → mg_gossip m' = mg_gossip m →
  (mg_leaving m = true → mg_leaving m' = true) → advances m m'.
Proof.
  intros E1 E2 E3 E4 E5 E6 E7 Hl [w1 w2 w3 w4 w5].
  split; split; unfold covered in *; rewrite ?E1, ?E2, ?E3, ?E5, ?E6, ?E7; auto.
  - destruct w1 as (r & Hr & Hi & [Hs|[Hs ?]]); exists r; auto 6.
  - intros id r H _. exists r. split; [done|reflexivity].
Qed.

(** Replacing the record of another member by a later one. *)
Lemma advances_insert m id r :
  id ≠ mg_node_id m →
  (∀ r0, mg_members m !! id = Some r0 → key_le (key r0) (key r)) →
  (manager_wf m → mr_node_id r = id ∧ is_valid_node_id id = true ∧ is_valid_address (mr_address r) = true
     ∧ mr_state r ∈ VALID_EVENT_STATES ∧ (1 <= mr_incarnation r)%Z) →
  advances m (set_members (<[id := r]>) m).
Proof.
  intros Hid Hkey Hrec Hwf. specialize (Hrec Hwf). destruct Hwf as [w1 w2 w3 w4 w5]. split; split; cbn; auto.
  - by rewrite lookup_insert_ne by done.
  - intros j s. rewrite lookup_insert. case_decide; [|apply w2]. intros [= <-]. by subst.
  - intros j s Hj _. rewrite lookup_insert. case_decide as Ej; [|exists s; split; [done|reflexivity]].
    subst j. exists r. split; [done|]. by apply Hkey.
Qed.

(** Publishing the own record: ALIVE always, LEFT once the node is leaving. *)
Lemma own_insert_advances m state now :
  state = ALIVE ∨ state = LEFT ∧ mg_leaving m = true →
  advances m (set_members (<[mg_node_id m := own_record m state now]>) m).
Proof.
  intros Hst [w1 w2 [w3 w3'] w4 w5]. split; split; cbn; auto.
  - eexists. rewrite lookup_insert_eq. split; [done|]. cbn. split; [done|]. destruct Hst as [->|[-> ?]]; auto.
  - intros j s. rewrite lookup_insert. case_decide; [|apply w2]. intros [= <-]. subst. cbn.
    destruct w4 as (? & ? & _). split_and!; try done. destruct Hst as [->|[-> ?]]; by_compute.
  - intros j s Hj Hne. rewrite lookup_insert_ne by done. exists s. split; [done|reflexivity].
Qed.

Lemma gossip_push_advances env ev m :
  (ev_node_id ev = mg_node_id m → covered m (ev_incarnation ev)) →
  advances m (set_gossip (gossip_add (gossip_ttl_s (mg_settings m)) (mono env) (mg_gossip m) ev) m).
Proof.
  intros Hev [w1 w2 w3 w4 [w5 w6]]. split; split; cbn; auto.
  - split; [by apply gossip_add_wf|]. intros te Hte. unfold gossip_add in Hte.
    destruct (is_valid_member_event ev); [|by apply w6]. apply list_elem_of_filter in Hte as [_ Hte].
    apply elem_of_app in Hte as [Hte| ->%list_elem_of_singleton]; [by apply w6|done].
  - intros id r H _. exists r. split; [done|reflexivity].
Qed.

Lemma sample_gossip_safe env : safe_op (sample_gossip env).
Proof.
  apply (always_atomic manager_wf view_le). intros m [w1 w2 w3 w4 [w5 w6]]. unfold gossip_sample. cbn [snd]. split; split; cbn; auto.
  - split; [by apply gossip_gc_wf|]. intros te [_ Hte]%list_elem_of_filter. by apply w6.
  - intros id r H _. exists r. split; [done|reflexivity].
Qed.

(** ** Every operation advances the view *)

Lemma tmodify_safe f : (∀ m, advances m (f m)) → safe_op (tmodify f).
Proof. apply (always_modify manager_wf view_le). Qed.

Lemma set_same_safe f :
  (∀ m, mg_members (f m) = mg_members m ∧ mg_node_id (f m) = mg_node_id m ∧ mg_address (f m) = mg_address m
     ∧ mg_settings (f m) = mg_settings m ∧ mg_identity (f m) = mg_identity m
     ∧ mg_incarnation (f m) = mg_incarnation m ∧ mg_gossip (f m) = mg_gossip m
     ∧ mg_leaving (f m) = mg_leaving m) → safe_op (tmodify f).
Proof.
  intros H. apply tmodify_safe. intros m. destruct (H m) as (? & ? & ? & ? & ? & ? & ? & E).
  apply advances_same; auto; congruence.
Qed.

Lemma tcatch_safe (p : Op bool) : safe_op p → safe_op (tcatch p false_on_error).
Proof.
  intros H. apply (always_catch manager_wf view_le); [done|]. intros e k. unfold false_on_error.
  destruct (rpc_or_value_error e); [|done]. intros [= <-]. apply (always_ret manager_wf view_le).
Qed.

Create HintDb membership.
#[export] Hint Resolve sample_gossip_safe : membership.

(** Decomposes a composed operation into the operations it is made of. *)
Ltac advancing_step :=
  lazymatch goal with
  | |- always_safe _ _ (mret _) => apply (always_ret manager_wf view_le)
  | |- always_safe _ _ (tread _) => apply (always_read manager_wf view_le)
  | |- always_safe _ _ (tlift _) => apply (always_lift manager_wf view_le)
  | |- always_safe _ _ (traise _) => apply (always_raise manager_wf view_le)
  | |- always_safe _ _ (_ ≫= _) => apply (always_bind manager_wf view_le); [|intros ?]
  | |- always_safe _ _ (tfor _ _) => apply (always_for manager_wf view_le); intros ?
  | |- always_safe _ _ (tcatch _ false_on_error) => apply tcatch_safe
  | |- always_safe _ _ (if ?b then _ else _) => destruct b
  | |- always_safe _ _ (match ?x with _ => _ end) => destruct x
  | |- always_safe _ _ (tmodify _) =>
      first [ solve [auto with membership nocore] | apply set_same_safe; intros ?; split_and!; reflexivity ]
  | |- _ => solve [auto with membership nocore]
  end.
Ltac advancing := repeat advancing_step.

Lemma alive_completes_safe ev : safe_op (alive_completes ev).
Proof. unfold alive_completes, complete_bootstrap. advancing. Qed.

(** An event of the own node, made now, is covered from now on. *)
Lemma own_event_safe env state m Q :
  (∀ ev m', manager_wf m' → view_le m m' → ev_node_id ev = mg_node_id m' → covered m' (ev_incarnation ev) → Q ev m') →
  safe manager_wf view_le (own_event env state) m Q.
Proof.
  intros HQ. unfold own_event. apply (safe_bind manager_wf view_le), (safe_read manager_wf view_le). intros m1 H1 W1 m2 H2 W2.
  unfold tlift. destruct (member_event _ _ _ _ _) as [ev|] eqn:E; [|done]. intros m3 H3 W3.
  unfold member_event in E. destruct (uint64 _); [|done]. injection E as <-. cbn.
  apply HQ; cbn; [done|by etransitivity; [|etransitivity]| |].
  - by rewrite (vl_node_id _ _ H3), (vl_node_id _ _ H2).
  - apply (vl_covered _ _ H3), (vl_covered _ _ H2), (mw_incarnation _ W1).
Qed.

Lemma push_own_safe env ev m :
  ev_node_id ev = mg_node_id m → covered m (ev_incarnation ev) →
  safe manager_wf view_le (gossip_push env ev) m (λ _ _, True).
Proof.
  intros Hid Hc. apply safe_atomic. intros m1 H1 W1.
  destruct (gossip_push_advances env ev m1) as [? ?]; [|done|done].
  intros _. by apply (vl_covered _ _ H1).
Qed.

Lemma announce_safe env state m :
  state = ALIVE ∨ state = LEFT ∧ mg_leaving m = true →
  safe manager_wf view_le
    (event ← own_event env state; publish_own_record env state;; gossip_push env event) m (λ _ _, True).
Proof.
  intros Hst. apply (safe_bind manager_wf view_le), own_event_safe. intros ev m1 W1 H1 Hid Hc.
  assert (state = ALIVE ∨ state = LEFT ∧ mg_leaving m1 = true) as Hst1.
  { destruct Hst as [?|[? ?]]; [by left|right]. split; [done|]. by apply (vl_leaving _ _ H1). }
  apply (safe_bind manager_wf view_le), safe_atomic. intros m2 H2 W2.
  destruct (own_insert_advances m2 state (mono env)) as [W3 H3]; [|done|].
  { destruct Hst1 as [?|[? ?]]; [by left|right]. split; [done|]. by apply (vl_leaving _ _ H2). }
  split_and!; [done..|]. intros [] _ m4 H4 W4. apply push_own_safe.
  - rewrite (vl_node_id _ _ H4). cbn. by rewrite (vl_node_id _ _ H2).
  - by apply (vl_covered _ _ H4), (vl_covered _ _ H3), (vl_covered _ _ H2).
Qed.

Lemma announce_alive_safe env : safe_op (announce_alive env).
Proof.
  unfold announce_alive. advancing_step; [advancing|]. destruct a; [advancing|]. intros m. apply announce_safe. by left.
Qed.
#[export] Hint Resolve alive_completes_safe announce_alive_safe : membership.

(** Writing the identity file: whatever the write does, what it held stays covered, and so
    is the incarnation it returns. *)
Lemma bump_advances env n observed m :
  n = mg_node_id m →
  let (r, m') := bump_identity env n observed m in
  advances m m' ∧ ∀ i, r = Ok i → manager_wf m → (1 <= i)%Z ∧ covered m' i.
Proof.
  intros ->. unfold bump_identity. destruct (bump_above _ _ _ _) as [r file] eqn:Eb. apply bump_spec in Eb as [[Hr ->]|H].
  { split; [by apply advances_same|]. by destruct r. }
  destruct H as (stored & next & H1 & H2 & H3 & H4 & H5). split.
  - intros [w1 w2 w3 (w4 & w5 & w6) w7]. rewrite w6 in H4, H1.
    assert (∀ i, covered m i → covered (set_identity file m) i) as Hc.
    { intros i (j & Hj & Hle). apply read_holds in Hj. rewrite Hj in H1. injection H1 as ->. exists next. cbn. split; [done|lia]. }
    split; split; cbn; auto.
    + destruct w1 as (r0 & Hr & Hi & Hs). exists r0. auto.
    + destruct w3. auto.
    + destruct w7 as [? w7]. split; [done|]. intros te Hte E. apply Hc. by apply w7.
    + intros id r0 Hr _. exists r0. split; [done|reflexivity].
  - intros i ->. subst next. intros W. destruct (mw_ids m W) as (_ & _ & w6). rewrite w6 in H4.
    split; [by destruct H4 as (_ & _ & _ & ?)|]. by exists i.
Qed.

Lemma set_incarnation_advances m i :
  (1 <= i)%Z → covered m i → advances m (set_incarnation i m).
Proof.
  intros Hi Hc [w1 w2 w3 w4 w5]. split; split; cbn; auto. intros id r Hr _. exists r. split; [done|reflexivity].
Qed.

Lemma handle_self_event_safe env ev : safe_op (handle_self_event env ev).
Proof.
  unfold handle_self_event. advancing_step; [advancing|]. destruct a; [advancing|].
  advancing_step; [advancing|]. case_bool_decide; [advancing|]. case_bool_decide; [|advancing].
  advancing_step; [advancing|]. destruct (_ <=? _)%Z; [|advancing].
  intros m. apply (safe_bind manager_wf view_le), (safe_read manager_wf view_le). intros m1 H1 W1 m2 H2 W2.
  apply (safe_bind manager_wf view_le), safe_atomic. intros m3 H3 W3.
  pose proof (bump_advances env (mg_node_id m1) (ev_incarnation ev) m3) as Hb.
  destruct (bump_identity env (mg_node_id m1) (ev_incarnation ev) m3) as [r m4].
  destruct Hb as [Hadv Hi]; [by rewrite (vl_node_id _ _ H3), (vl_node_id _ _ H2)|]. destruct (Hadv W3) as [W4 H4].
  split_and!; [done..|]. cbn [fst]. intros i -> m5 H5 W5. destruct (Hi i eq_refl W3) as [Hi1 Hic].
  apply (safe_bind manager_wf view_le), safe_atomic. intros m6 H6 W6.
  destruct (set_incarnation_advances m6 i Hi1) as [W7 H7]; [by apply (vl_covered _ _ H6), (vl_covered _ _ H5)|done|].
  split_and!; [done..|]. intros [] _ m8 _ _. apply announce_alive_safe.
Qed.

Lemma valid_event ev :
  is_valid_member_event ev = true →
  is_valid_node_id (ev_node_id ev) = true ∧ is_valid_address (ev_address ev) = true
  ∧ (1 <= ev_incarnation ev)%Z ∧ ev_state ev ∈ VALID_EVENT_STATES.
Proof.
  unfold is_valid_member_event, is_valid_incarnation, is_valid_state. intros. bool_hyps. auto.
Qed.

Definition ev_key (ev : MemberEvent) : Z * nat := (ev_incarnation ev, STATE_ORDER (ev_state ev)).

(** The table is improved exactly when the event is newer than the record, and then says
    what the event says. *)
Lemma improved_record_spec env ev members :
  match improved_record env ev members with
  | Some r =>
      key r = ev_key ev ∧ mr_state r = ev_state ev
      ∧ (mr_node_id r = ev_node_id ev ∧ mr_address r = ev_address ev
         ∨ ∃ cur, members !! ev_node_id ev = Some cur ∧ mr_node_id r = mr_node_id cur
             ∧ (mr_address r = ev_address ev ∨ mr_address r = mr_address cur))
      ∧ ∀ cur, members !! ev_node_id ev = Some cur → key_le (key cur) (key r)
  | None => ∃ cur, members !! ev_node_id ev = Some cur ∧ key_le (ev_key ev) (key cur)
  end.
Proof.
  unfold improved_record. destruct (members !! ev_node_id ev) as [cur|]; [|split_and!; [done|done|by left|done]].
  unfold key, ev_key. destruct (Z.ltb_spec (mr_incarnation cur) (ev_incarnation ev)).
  { split_and!; [done|done|right; eauto|]. intros ? [= <-]. by left. }
  destruct (Z.ltb_spec (ev_incarnation ev) (mr_incarnation cur)); [exists cur; split; [done|by left]|].
  assert (ev_incarnation ev = mr_incarnation cur) as Ei by lia. rewrite Ei.
  destruct (Nat.ltb_spec (STATE_ORDER (mr_state cur)) (STATE_ORDER (ev_state ev))); cbn.
  - cbn. split_and!; [done|done|right; eauto|]. intros ? [= <-]. right. cbn. split; [done|lia].
  - exists cur. split; [done|by right].
Qed.

Lemma improve_table_advances env ev m :
  is_valid_member_event ev = true → ev_node_id ev ≠ mg_node_id m → advances m (improve_table env ev m).2.
Proof.
  intros (V1 & V2 & V3 & V4)%valid_event Hid. unfold improve_table.
  pose proof (improved_record_spec env ev (mg_members m)) as Hs.
  destruct (improved_record env ev (mg_members m)) as [r|]; [|reflexivity]. destruct Hs as (Hk & Hst & Hr & Hle).
  apply advances_insert; [done..|]. intros Hwf. rewrite Hst. injection Hk as -> _.
  destruct Hr as [[-> ->]|(cur & Hcur & -> & Ha)]; [done|].
  destruct (mw_records m Hwf _ _ Hcur) as (? & _ & ? & _). destruct Ha as [-> | ->]; done.
Qed.

Lemma apply_event_safe env ev : safe_op (apply_event env ev).
Proof.
  unfold apply_event. destruct (is_valid_member_event ev) eqn:Ev; cbn [negb]; [|advancing].
  intros m. apply (safe_bind manager_wf view_le), (safe_read manager_wf view_le). intros m1 _ _ m2 H2 W2.
  case_bool_decide as Hself; [apply handle_self_event_safe|]. apply (safe_bind manager_wf view_le), safe_atomic. intros m3 H3 W3.
  assert (mg_node_id m3 = mg_node_id m1) as E3 by (by rewrite (vl_node_id _ _ H3), (vl_node_id _ _ H2)).
  destruct (improve_table_advances env ev m3) as [W4 H4]; [done|congruence|done|]. split_and!; [done..|].
  intros [|] _ m5 H5 W5; [|exact (always_ret manager_wf view_le () m5)].
  apply (safe_bind manager_wf view_le), safe_atomic. intros m6 H6 W6. destruct (gossip_push_advances env ev m6) as [W7 H7]; [|done|].
  { intros E. rewrite (vl_node_id _ _ H6), (vl_node_id _ _ H5), (vl_node_id _ _ H4) in E. congruence. }
  split_and!; [done..|]. intros [] _ m8 _ _. apply alive_completes_safe.
Qed.
#[export] Hint Resolve apply_event_safe : membership.

Lemma apply_gossip_safe env evs : safe_op (apply_gossip env evs).
Proof. unfold apply_gossip. advancing. Qed.

Lemma apply_nodeinfo_safe env node st : safe_op (apply_nodeinfo env node st).
Proof. unfold apply_nodeinfo. advancing. Qed.

Lemma mark_safe env st id a i : safe_op (mark env st id a i).
Proof. unfold mark. advancing. Qed.
#[export] Hint Resolve apply_gossip_safe apply_nodeinfo_safe mark_safe : membership.

Lemma expire_suspects_safe env : safe_op (expire_suspects env).
Proof. unfold expire_suspects, mark_dead. advancing. Qed.
#[export] Hint Resolve expire_suspects_safe : membership.

(** Only the time a member was last seen changes, of another member or of the own record. *)
Lemma touch_safe env target : safe_op (tmodify (λ m, set_members (touch_alive env target) m)).
Proof.
  apply tmodify_safe. intros m. unfold set_members, touch_alive.
  destruct (mg_members m !! target) as [r|] eqn:E; [|by apply advances_same].
  case_bool_decide as Hst; [|by apply advances_same].
  destruct (decide (target = mg_node_id m)) as [->|Hne].
  - intros [w1 w2 w3 w4 w5]. split; split; cbn; auto.
    + destruct w1 as (r' & Hr' & Hi & Hs). rewrite E in Hr'. injection Hr' as <-.
      eexists. rewrite lookup_insert_eq. split; [done|]. auto.
    + intros j s. rewrite lookup_insert. case_decide; [|apply w2]. intros [= <-]. subst. exact (w2 _ _ E).
    + intros j s Hj Hne. rewrite lookup_insert_ne by done. exists s. split; [done|reflexivity].
  - apply (advances_insert m target); [done| |].
    + intros r0 Hr0. rewrite E in Hr0. injection Hr0 as <-. right. done.
    + intros Hwf. destruct (mw_records m Hwf _ _ E) as (? & ? & ? & ? & ?). done.
Qed.
#[export] Hint Resolve touch_safe : membership.

Lemma own_node_info_safe : safe_op own_node_info.
Proof. unfold own_node_info. advancing. Qed.
Lemma read_record_safe {A} id (f : MemberRecord → A) : safe_op (read_record id f).
Proof. unfold read_record. advancing. Qed.
#[export] Hint Resolve own_node_info_safe read_record_safe : membership.

Lemma ping_safe env target reply : safe_op (ping env target reply).
Proof. unfold ping. advancing. Qed.

Lemma ping_req_safe env target reply : safe_op (ping_req env target reply).
Proof. unfold ping_req. advancing. Qed.
#[export] Hint Resolve ping_safe ping_req_safe : membership.

Lemma ask_helpers_safe env target reply helpers : safe_op (ask_helpers env target reply helpers).
Proof. induction helpers; cbn [ask_helpers]; advancing. Qed.
#[export] Hint Resolve ask_helpers_safe : membership.

Lemma run_swim_round_safe env rd : safe_op (run_swim_round env rd).
Proof. unfold run_swim_round, mark_suspect. advancing. Qed.

Lemma join_seed_safe env seed reply : safe_op (join_seed env seed reply).
Proof.
  unfold join_seed. advancing_step; [advancing|]. apply (always_catch manager_wf view_le); [advancing|].
  intros e k. unfold join_failure. destruct e; cbn; intros; simplify_eq; advancing.
Qed.

Lemma refresh_safe : safe_op refresh_bootstrap_completion.
Proof. unfold refresh_bootstrap_completion, complete_bootstrap. advancing. Qed.

Lemma schedule_safe env uniform : safe_op (schedule_next_bootstrap_retry env uniform).
Proof. unfold schedule_next_bootstrap_retry. cbv zeta. advancing. Qed.
#[export] Hint Resolve run_swim_round_safe join_seed_safe refresh_safe schedule_safe : membership.

Lemma retry_safe env uniform reply : safe_op (retry_bootstrap_if_due env uniform reply).
Proof. unfold retry_bootstrap_if_due. cbv zeta. advancing. Qed.

Lemma bootstrap_attempts_safe env cancelled reply seeds : safe_op (bootstrap_attempts env cancelled reply seeds).
Proof. induction seeds; cbn [bootstrap_attempts]; advancing. Qed.
#[export] Hint Resolve retry_safe bootstrap_attempts_safe : membership.

Lemma swim_iteration_safe env uniform reply rd next : safe_op (swim_iteration env uniform reply rd next).
Proof. unfold swim_iteration. advancing. Qed.

Lemma bootstrap_join_safe env seeds c ce reply uniform : safe_op (bootstrap_join env seeds c ce reply uniform).
Proof. unfold bootstrap_join, complete_bootstrap. cbv zeta. advancing. Qed.

Lemma leave_safe env : safe_op (leave env).
Proof.
  intros m. apply (safe_bind manager_wf view_le), safe_atomic. intros m1 _ W1. cbn [fst snd].
  assert (advances m1 (set_leaving true m1)) as [W2 H2] by (by apply advances_same); [done|].
  split_and!; [done..|]. intros first _ m3 H3 W3. destruct first; [|exact (always_ret manager_wf view_le _ m3)].
  apply (safe_bind manager_wf view_le), (safe_mono manager_wf view_le _ _ (λ _ _, True)).
  - intros [] m4 _ _.
    refine ((_ : safe_op (peers ← tread get_alive_peers; seeds ← tread mg_seeds; address ← tread mg_address;
      mret (filter (λ a, a ≠ address) (ordered_unique ((mr_address <$> peers) ++ seeds))))) m4). advancing.
  - apply (announce_safe env LEFT). right. split; [done|]. by apply (vl_leaving _ _ H3).
Qed.

Lemma require_authorized_safe token : safe_op (require_authorized token).
Proof. unfold require_authorized. advancing. Qed.
Lemma abort_if_safe c code : safe_op (abort_if c code).
Proof. unfold abort_if. advancing. Qed.
Lemma eligible_snapshot_safe : safe_op eligible_snapshot.
Proof. unfold eligible_snapshot. advancing. Qed.
#[export] Hint Resolve swim_iteration_safe bootstrap_join_safe leave_safe require_authorized_safe abort_if_safe
  eligible_snapshot_safe : membership.

(** ** The threads of a node *)

(** Everything that runs on a manager: the loop of the protocol, the start and the end of
    the node, and the calls it receives, with any answers, clocks and write outcomes. *)
Inductive mthread : Op unit → Prop :=
  | mt_event env ev : mthread (apply_event env ev)
  | mt_swim env uniform reply rd next : mthread (swim_iteration env uniform reply rd next;; mret ())
  | mt_bootstrap env seeds c ce reply uniform : mthread (bootstrap_join env seeds c ce reply uniform)
  | mt_leave env : mthread (leave env;; mret ())
  | mt_rpc_join env token node : mthread (rpc_join env token node;; mret ())
  | mt_rpc_ping env token from evs : mthread (rpc_ping env token from evs;; mret ())
  | mt_rpc_ping_req env token req target evs reply :
      mthread (rpc_ping_req env token req target evs reply;; mret ())
  | mt_rpc_leave env token node : mthread (rpc_leave env token node;; mret ())
  | mt_rpc_get_members token : mthread (rpc_get_members token;; mret ()).

Lemma mthread_safe p : mthread p → safe_op p.
Proof.
  destruct 1; unfold rpc_join, rpc_ping, rpc_ping_req, rpc_leave, rpc_get_members; advancing.
Qed.

(** The manager and its threads after any history that starts with [m] alone. *)
Notation history m := (rtc (interleave mthread) (m, [])).

Lemma history_ok m c1 c2 :
  manager_wf m → history m c1 → rtc (interleave mthread) c1 c2 → manager_wf c2.1 ∧ view_le c1.1 c2.1.
Proof.
  intros W H1 H2.
  destruct (interleavings_ok manager_wf view_le mthread _ _ mthread_safe H1) as [Hok _]; [by split|].
  by destruct (interleavings_ok manager_wf view_le mthread _ _ mthread_safe H2 Hok) as [[? _] ?].
Qed.

(** A new manager whose identity file holds the incarnation it announces. *)
Lemma new_manager_wf settings identity id address i now m :
  new_manager settings identity id address i now = Ok m → holds identity (strip id) i → manager_wf m.
Proof.
  unfold new_manager. destruct (is_valid_node_id (strip id)) eqn:V1; [|done].
  destruct (is_valid_address (strip address)) eqn:V2; [|done]. cbn [negb]. intros [= <-] Hh.
  pose proof Hh as (_ & Hl & Hx & Hi).
  assert (at_least identity (strip id) (Z.max i 1)) as Hc by (exists i; split; [done|lia]). split; cbn.
  - eexists. rewrite lookup_singleton_eq. split; [done|]. cbn. split; [done|by left].
  - intros j r. rewrite lookup_singleton. case_decide; [|done]. intros [= <-]. subst. cbn.
    split_and!; try done; [by_compute|lia].
  - split; [lia|done].
  - split_and!; try done. by apply strip_hex.
  - split; [constructor|]. intros te Hte. by inversion Hte.
Qed.

(** ** Merging gossip *)

(** What a view says about a node, for comparison. *)
Definition view (m : Manager) (id : pystr) : option (Z * nat) := key <$> mg_members m !! id.

Lemma key_le_antisym a b : key_le a b → key_le b a → a = b.
Proof. destruct a, b. intros [?|[? ?]] [?|[? ?]]; cbn in *; f_equal; lia. Qed.

Lemma key_le_total a b : key_le a b ∨ key_le b a.
Proof.
  unfold key_le. destruct (Z.lt_total a.1 b.1) as [?|[?|?]]; [left; by left| |right; by left].
  destruct (Nat.le_ge_cases a.2 b.2); [left|right]; right; auto.
Qed.

(** The greatest of the keys a view holds and the events bring. *)
Definition is_top (old : option (Z * nat)) (keys : list (Z * nat)) (new : option (Z * nat)) : Prop :=
  match new with
  | None => old = None ∧ keys = []
  | Some k => (old = Some k ∨ k ∈ keys) ∧ (∀ k', old = Some k' ∨ k' ∈ keys → key_le k' k)
  end.

Lemma is_top_unique old keys keys' new new' :
  (∀ k, k ∈ keys ↔ k ∈ keys') → is_top old keys new → is_top old keys' new' → new = new'.
Proof.
  intros Hk H H'. destruct new as [k|], new' as [k'|]; cbn in H, H'.
  - f_equal. destruct H as [H1 H2], H' as [H1' H2']. apply key_le_antisym.
    + apply H2'. rewrite <-Hk. done.
    + apply H2. rewrite Hk. done.
  - destruct H' as [-> ->]. destruct H as [[?|H] _]; [done|]. apply Hk in H. by inversion H.
  - destruct H as [-> ->]. destruct H' as [[?|H'] _]; [done|]. apply Hk in H'. by inversion H'.
  - done.
Qed.

Lemma is_top_app old k1 mid k2 new :
  is_top old k1 mid → is_top mid k2 new → is_top old (k1 ++ k2) new.
Proof.
  intros H1 H2. destruct new as [n|]; cbn in H2.
  - destruct H2 as [Hn Hmax]. destruct mid as [x|]; cbn in H1.
    + destruct H1 as [Hx Hmaxx]. assert (key_le x n) as Hxn by (apply Hmax; by left). split.
      * destruct Hn as [[= <-]|Hn]; [destruct Hx; set_solver|set_solver].
      * intros k' Hk'. destruct Hk' as [Hk'|[Hk'|Hk']%elem_of_app]; [| |apply Hmax; by right].
        -- etransitivity; [apply Hmaxx; by left|done].
        -- etransitivity; [apply Hmaxx; by right|done].
    + destruct H1 as [-> ->]. cbn. split; [set_solver|]. intros k' [?|?]; [done|]. apply Hmax. by right.
  - destruct H2 as [-> ->]. by rewrite app_nil_r.
Qed.

Lemma after_improving env ev m :
  ∃ m', run (gossip_push env ev;; alive_completes ev) m = (Ok (), m') ∧ mg_node_id m' = mg_node_id m
    ∧ mg_members m' = mg_members m.
Proof.
  rewrite run_bind. unfold gossip_push, tmodify. rewrite run_atomic. cbn [smodify].
  unfold alive_completes, complete_bootstrap. case_bool_decide; eexists; split_and!; reflexivity.
Qed.

(** An improved record and the gossip about it, run alone. *)
Lemma apply_event_view env ev m :
  ev_node_id ev ≠ mg_node_id m →
  ∃ m', run (apply_event env ev) m = (Ok (), m') ∧ mg_node_id m' = mg_node_id m
    ∧ ∀ id, is_top (view m id)
        (if is_valid_member_event ev && bool_decide (ev_node_id ev = id) then [ev_key ev] else [])
        (view m' id).
Proof.
  intros Hother.
  assert (∀ (o : option (Z * nat)), is_top o [] o) as Hrefl.
  { intros [k|]; cbn; [|done]. split; [by left|]. intros k' [[= ->]|Hk']; [reflexivity|by inversion Hk']. }
  unfold apply_event. destruct (is_valid_member_event ev) eqn:Ev; cbn [negb]; [|by exists m].
  rewrite run_bind. unfold tread. rewrite run_atomic. cbn [sgets]. rewrite bool_decide_false by done.
  rewrite run_bind, run_atomic. unfold improve_table.
  pose proof (improved_record_spec env ev (mg_members m)) as Hs.
  destruct (improved_record env ev (mg_members m)) as [r|].
  - destruct Hs as (Hk & _ & _ & Hle).
    destruct (after_improving env ev (set_members (<[ev_node_id ev := r]>) m)) as (m' & E & Hid & Hmem).
    exists m'. split; [exact E|]. split; [exact Hid|]. intros id. cbn [andb]. unfold view at 2. rewrite Hmem. cbn [set_members mg_members].
    rewrite lookup_insert. case_bool_decide; [subst id; rewrite decide_True by done|rewrite decide_False by done; apply Hrefl].
    cbn. rewrite Hk. split; [right; left|]. intros k' [Hk'|Hk'].
    + unfold view in Hk'. apply fmap_Some in Hk' as (cur & Hcur & ->). rewrite <-Hk. by apply Hle.
    + apply list_elem_of_singleton in Hk' as ->. reflexivity.
  - destruct Hs as (cur & Hcur & Hle). exists m. split_and!; [done..|]. intros id. cbn [andb].
    case_bool_decide; [|apply Hrefl]. subst id. unfold view. rewrite Hcur. cbn. split; [by left|].
    intros k' [[= <-]|Hk']; [reflexivity|]. apply list_elem_of_singleton in Hk' as ->. done.
Qed.

(** The keys a batch of events brings about one node. *)
Definition keys_about (id : pystr) (evs : list MemberEvent) : list (Z * nat) :=
  ev ← evs; if is_valid_member_event ev && bool_decide (ev_node_id ev = id) then [ev_key ev] else [].

Lemma gossip_view env evs m :
  Forall (λ ev, ev_node_id ev ≠ mg_node_id m) evs →
  ∃ m', run (tfor (apply_event env) evs) m = (Ok (), m') ∧ mg_node_id m' = mg_node_id m
    ∧ ∀ id, is_top (view m id) (keys_about id evs) (view m' id).
Proof.
  revert m. induction evs as [|ev evs IH]; intros m Hall.
  { exists m. split_and!; [done..|]. intros id. unfold keys_about. cbn. destruct (view m id); cbn; [|done].
    split; [by left|]. intros k' [[= ->]|Hk']; [reflexivity|by inversion Hk']. }
  apply Forall_cons in Hall as [Hev Hall]. cbn [tfor].
  destruct (apply_event_view env ev m Hev) as (m1 & E1 & N1 & V1). rewrite run_bind, E1.
  destruct (IH m1) as (m2 & E2 & N2 & V2); [by rewrite N1|].
  exists m2. split; [done|]. split; [congruence|]. intros id.
  unfold keys_about. cbn. eapply is_top_app; [apply V1|apply V2].
Qed.

(** ** Authorisation and eligibility *)

Lemma require_unauthorized token m :
  is_authorized_cluster_token (cluster_token (mg_settings m)) token = false →
  run (require_authorized token) m = (Err (RpcAbort UNAUTHENTICATED), m).
Proof. intros H. unfold require_authorized. rewrite run_bind. unfold tread. rewrite run_atomic. cbn [sgets]. by rewrite H. Qed.

Lemma member_values_elem m r : r ∈ member_values m ↔ ∃ id, mg_members m !! id = Some r.
Proof.
  unfold member_values. rewrite list_elem_of_fmap. split.
  - intros ([id r'] & -> & H). apply elem_of_map_to_list in H. by exists id.
  - intros [id H]. exists (id, r). by rewrite elem_of_map_to_list.
Qed.

Lemma eligible_snapshot_elem m nodes :
  get_members_snapshot m true = Ok nodes →
  ∀ n, n ∈ nodes ↔ ∃ r, r ∈ member_values m ∧ eligible m r = true ∧ uint64 (mr_incarnation r) = true
    ∧ n = {| nf_node_id := mr_node_id r; nf_address := mr_address r; nf_incarnation := mr_incarnation r |}.
Proof.
  unfold get_members_snapshot. intros H n. apply mapM_res_Ok in H. split.
  - intros Hn. apply list_elem_of_lookup in Hn as [i Hi].
    destruct (Forall2_lookup_r _ _ _ _ _ H Hi) as (r & Hr & E). apply list_elem_of_lookup_2 in Hr.
    apply list_elem_of_filter in Hr as [He Hr]. unfold node_info in E.
    destruct (uint64 _) eqn:Eu; [|done]. injection E as <-. exists r. auto.
  - intros (r & Hr & He & Hu & ->).
    assert (r ∈ filter (λ r, true = true → eligible m r = true) (member_values m)) as Hin
      by by apply list_elem_of_filter.
    apply list_elem_of_lookup in Hin as [i Hi].
    destruct (Forall2_lookup_l _ _ _ _ _ H Hi) as (n & Hn & E). unfold node_info in E. rewrite Hu in E.
    injection E as <-. by apply list_elem_of_lookup_2 in Hn.
Qed.

(** ** Properties *)

(** C28: however the operations of a node interleave, step by step, and whatever messages,
    clocks, write outcomes and failures they meet, its table stays well formed: no member is
    forgotten, what it knows of every other member never goes back to an older incarnation or
    to a weaker state of the same incarnation, and a node that started to leave stays leaving.
    What it says of itself (its incarnation, its own record and every event about itself in
    its gossip) never exceeds the incarnation in its identity file, which never goes back;
    its own record is ALIVE, or LEFT once it is leaving. *)
Theorem views_only_advance settings identity id address i now m c1 c2 :
  new_manager settings identity id address i now = Ok m → holds identity (strip id) i →
  history m c1 → rtc (interleave mthread) c1 c2 → manager_wf c2.1 ∧ view_le c1.1 c2.1.
Proof.
  intros Hnew Hh H1 H2. apply (history_ok m); [|done..]. by eapply new_manager_wf.
Qed.

Definition example_settings : MembershipSettings := {|
  cluster_token := u "secret"; protocol_period_s := 1; bootstrap_retry_interval_s := 5;
  ping_timeout_s := 1 # 4; rpc_timeout_s := 2; suspect_timeout_s := 6; indirect_ping_fanout := 3;
  max_gossip_events := 20; gossip_ttl_s := 60; grpc_max_message_bytes := 1024;
  grpc_keepalive_time_ms := 1000; grpc_keepalive_timeout_ms := 1000 |}.

Definition example_env : Env :=
  {| mono := 100; wall_ms := 0; io_write := λ _, Written; exc_text := λ _, [] |}.

Definition example_manager (inc : Z) : Manager :=
  set_members (λ _, {[example_id := {| mr_node_id := example_id; mr_address := u "10.0.0.1:7000";
    mr_incarnation := inc; mr_state := ALIVE; mr_last_seen := 0; mr_suspect_since := None |}]})
  {| mg_settings := example_settings; mg_identity := Some (identity_text example_id inc);
     mg_node_id := example_id; mg_address := u "10.0.0.1:7000"; mg_incarnation := inc; mg_members := ∅;
     mg_gossip := []; mg_leaving := false; mg_seq := 0; mg_seeds := []; mg_retry_index := 0;
     mg_bootstrap_complete := false; mg_next_retry_at := None; mg_retry_nominal := 5;
     mg_seed_failures := ∅ |}.

Lemma example_holds inc : (1 <= inc)%Z → holds (Some (identity_text example_id inc)) example_id inc.
Proof. intros. split_and!; done. Qed.

Lemma example_new :
  new_manager example_settings (Some (identity_text example_id 7)) example_id (u "10.0.0.1:7000") 7 0
  = Ok (example_manager 7).
Proof. vm_compute. reflexivity. Qed.

Definition example_suspicion (inc : Z) : MemberEvent := {|
  ev_node_id := example_id; ev_address := u "10.0.0.1:7000"; ev_incarnation := inc;
  ev_state := SUSPECT; ev_ts_ms := 0 |}.

(** A node at incarnation 7 is told by two calls that it is suspected, at 7 and at 9. *)
Definition two_suspicions : config Manager :=
  (example_manager 7, [apply_event example_env (example_suspicion 7); apply_event example_env (example_suspicion 9)]).

Lemma two_suspicions_start : history (example_manager 7) two_suspicions.
Proof. apply (spawn_all mthread _ [] [_; _]). repeat constructor. Qed.

(** The second call runs while the first has raised the stored incarnation and not yet
    assigned it. *)
Definition second_announced : config Manager := foldl act two_suspicions (repeat 0 6 ++ repeat 1 11).
Definition both_announced : config Manager := foldl act second_announced (repeat 0 5).

Lemma views_only_advance_witness :
  manager_wf both_announced.1 ∧ view_le second_announced.1 both_announced.1.
Proof.
  apply (views_only_advance example_settings (Some (identity_text example_id 7)) example_id
    (u "10.0.0.1:7000") 7 0 (example_manager 7)).
  - exact example_new.
  - exact (example_holds 7 ltac:(lia)).
  - etransitivity; [exact two_suspicions_start|exact (play_steps mthread two_suspicions (repeat 0 6 ++ repeat 1 11))].
  - exact (play_steps mthread second_announced (repeat 0 5)).
Defined.

(** Of itself a node can say less again: the incarnation is compared, raised in the file and
    assigned without a common lock, so that the first call puts the older value back and
    announces it. *)
Example own_incarnation_can_go_back :
  history (example_manager 7) second_announced ∧ rtc (interleave mthread) second_announced both_announced
  ∧ mg_incarnation second_announced.1 = 10%Z ∧ view second_announced.1 example_id = Some (10%Z, STATE_ORDER ALIVE)
  ∧ mg_incarnation both_announced.1 = 8%Z ∧ view both_announced.1 example_id = Some (8%Z, STATE_ORDER ALIVE).
Proof.
  split; [etransitivity; [exact two_suspicions_start|apply play_steps]|].
  split; [apply play_steps|]. split_and!; by vm_compute.
Qed.

(** A refutation that looked at the flag before the node started to leave publishes ALIVE
    over the LEFT of the own record. *)
Definition suspected_and_leaving : config Manager :=
  (example_manager 7, [apply_event example_env (example_suspicion 7); leave example_env;; mret ()]).
Definition left_published : config Manager := foldl act suspected_and_leaving (repeat 0 8 ++ repeat 1 4).
Definition alive_published : config Manager := foldl act left_published (repeat 0 3).

Example left_can_be_overwritten :
  history (example_manager 7) left_published ∧ rtc (interleave mthread) left_published alive_published
  ∧ mg_leaving left_published.1 = true ∧ view left_published.1 example_id = Some (8%Z, STATE_ORDER LEFT)
  ∧ view alive_published.1 example_id = Some (8%Z, STATE_ORDER ALIVE).
Proof.
  split; [|split; [apply play_steps|split_and!; by vm_compute]].
  etransitivity; [|apply (play_steps mthread suspected_and_leaving)].
  apply (spawn_all mthread _ [] [_; _]). constructor; [constructor|]. constructor; [apply mt_leave|constructor].
Qed.

(** C32: gossip can be reordered, repeated and delivered at different times: two batches
    with the same events about other nodes leave every node with the same incarnation and
    state in the view. *)
Theorem gossip_order_irrelevant env env' evs evs' m :
  (∀ ev, ev ∈ evs ↔ ev ∈ evs') → Forall (λ ev, ev_node_id ev ≠ mg_node_id m) evs →
  ∀ id, view (run (tfor (apply_event env) evs) m).2 id = view (run (tfor (apply_event env') evs') m).2 id.
Proof.
  intros Hsame Hall id. assert (Forall (λ ev, ev_node_id ev ≠ mg_node_id m) evs') as Hall'.
  { rewrite Forall_forall in *. intros ev Hev. apply Hall. by apply Hsame. }
  destruct (gossip_view env evs m Hall) as (m1 & -> & _ & V1).
  destruct (gossip_view env' evs' m Hall') as (m2 & -> & _ & V2). cbn [snd].
  eapply is_top_unique; [|apply V1|apply V2]. intros k. unfold keys_about. rewrite !list_elem_of_bind.
  setoid_rewrite Hsame. done.
Qed.

Lemma gossip_order_irrelevant_witness :
  let evs := [example_event 98 3 ALIVE; example_event 98 3 SUSPECT; example_event 98 2 DEAD] in
  view (run (tfor (apply_event example_env) (rev evs)) (example_manager 7)).2 (repeat 98%N 32) = Some (3%Z, 2).
Proof.
  cbn zeta. rewrite (gossip_order_irrelevant example_env example_env _
    [example_event 98 3 ALIVE; example_event 98 3 SUSPECT; example_event 98 2 DEAD]).
  - by vm_compute.
  - intros ev. rewrite !list_elem_of_In, <-in_rev. done.
  - repeat constructor; by_compute.
Defined.

(** A suspicion that is not stale, run alone up to the announcement. *)
Lemma self_event_runs env ev m inc file :
  mg_leaving m = false → is_valid_member_event ev = true →
  ev_node_id ev = mg_node_id m → ev_address ev = mg_address m → ev_state ev ∈ [SUSPECT; DEAD] →
  (mg_incarnation m <= ev_incarnation ev)%Z →
  bump_above (io_write env (mg_identity m)) (mg_node_id m) (ev_incarnation ev) (mg_identity m) = (Ok inc, file) →
  run (apply_event env ev) m = run (announce_alive env) (set_incarnation inc (set_identity file m)).
Proof.
  intros Hl Hv Hid Ha Hst Hinc Hb. unfold apply_event. rewrite Hv. cbn [negb]. rewrite run_read_bind.
  rewrite bool_decide_true by done. unfold handle_self_event. rewrite run_read_bind, Hl, run_read_bind.
  rewrite bool_decide_false by naive_solver. rewrite bool_decide_true by done. rewrite run_read_bind.
  rewrite (proj2 (Z.leb_le _ _)) by done. rewrite run_read_bind, run_bind, run_atomic. unfold bump_identity. by rewrite Hb.
Qed.

(** C29: a node refutes a false suspicion. It is not leaving, is told at its own address
    that it is SUSPECT or DEAD in an incarnation it has not passed, no other thread of the node
    acts meanwhile, the write of the identity file succeeds and the counter stays below 2^64:
    then it raises and stores an incarnation above the suspicion, is ALIVE in its own view, and
    has in its gossip an event that makes every other node whose view of it is at most that
    suspicion see it ALIVE in the new incarnation. *)
Theorem refutation_works env m ev stored :
  manager_wf m → mg_leaving m = false → is_valid_member_event ev = true →
  ev_node_id ev = mg_node_id m → ev_address ev = mg_address m → ev_state ev ∈ [SUSPECT; DEAD] →
  (mg_incarnation m <= ev_incarnation ev)%Z → io_write env (mg_identity m) = Written →
  holds (mg_identity m) (mg_node_id m) stored →
  (Z.max stored (ev_incarnation ev) + 1 < 2 ^ 64)%Z → (0 <= gossip_ttl_s (mg_settings m))%Q →
  ∃ m' alive, run (apply_event env ev) m = (Ok (), m')
    ∧ (ev_incarnation ev < mg_incarnation m')%Z
    ∧ holds (mg_identity m') (mg_node_id m') (mg_incarnation m')
    ∧ mg_members m' !! mg_node_id m' = Some (own_record m' ALIVE (mono env))
    ∧ alive ∈ (mg_gossip m').*2 ∧ is_valid_member_event alive = true
    ∧ ∀ env' p, mg_node_id p ≠ mg_node_id m →
        (∀ k, view p (mg_node_id m) = Some k → key_le k (ev_key ev)) →
        view (run (apply_event env' alive) p).2 (mg_node_id m) = Some (mg_incarnation m', STATE_ORDER ALIVE).
Proof.
  intros Hwf Hl Hv Hid Ha Hst Hinc Hio Hh Hmax Httl.
  destruct Hwf as [w1 w2 [w3 _] (w4 & w5 & w6) w7].
  set (inc := (Z.max stored (ev_incarnation ev) + 1)%Z).
  set (alive := {| ev_node_id := mg_node_id m; ev_address := mg_address m; ev_incarnation := inc;
                   ev_state := ALIVE; ev_ts_ms := wall_ms env |}).
  assert (is_valid_member_event alive = true) as Hvalive.
  { unfold is_valid_member_event, is_valid_incarnation; cbn. rewrite w4, w5. cbn.
    rewrite (proj2 (Z.leb_le _ _)) by lia. by_compute. }
  assert (bump_above (io_write env (mg_identity m)) (mg_node_id m) (ev_incarnation ev) (mg_identity m)
          = (Ok inc, Some (identity_text (mg_node_id m) inc))) as Hb.
  { unfold bump_above. rewrite w6. pose proof Hh as (_ & Hlen & Hhex & _).
    rewrite bool_decide_false by (intros E; rewrite E in Hlen; done).
    rewrite (proj2 (Z.ltb_ge _ _)) by lia. rewrite sm_bind_spec, (read_holds _ _ _ Hh).
    rewrite bool_decide_false by (intros E; by apply E). rewrite sm_bind_spec. unfold write_unlocked.
    rewrite require_node_id_hex by done. cbn [mbind res_bind require_incarnation]. fold inc.
    rewrite (proj2 (Z.ltb_ge _ _)) by lia. cbn [mbind res_bind]. unfold write_text. by rewrite Hio. }
  set (m1 := set_incarnation inc (set_identity (Some (identity_text (mg_node_id m) inc)) m)).
  set (m2 := set_members (<[mg_node_id m := own_record m1 ALIVE (mono env)]>) m1).
  exists (set_gossip (gossip_add (gossip_ttl_s (mg_settings m)) (mono env) (mg_gossip m) alive) m2), alive.
  split.
  { rewrite (self_event_runs env ev m inc (Some (identity_text (mg_node_id m) inc))) by done. fold m1.
    unfold announce_alive. rewrite run_read_bind. cbn [m1 set_incarnation set_identity mg_leaving]. rewrite Hl.
    assert (member_event (mg_node_id m1) (mg_address m1) (mg_incarnation m1) ALIVE (wall_ms env) = Ok alive) as Hev.
    { unfold member_event, uint64. cbn. by rewrite (proj2 (Z.leb_le _ _)), (proj2 (Z.ltb_lt _ _)) by lia. }
    unfold own_event. rewrite run_bind, run_read_bind, Hev. reflexivity. }
  split_and!; cbn [set_gossip set_members m2 m1 set_incarnation set_identity mg_incarnation mg_identity
    mg_node_id mg_members mg_gossip].
  - lia.
  - pose proof Hh as (_ & ? & ? & ?). split_and!; try done. lia.
  - by rewrite lookup_insert_eq.
  - unfold gossip_add. rewrite Hvalive. apply list_elem_of_fmap. exists (mono env, alive).
    split; [done|]. apply list_elem_of_filter. split; [|set_solver]. cbn. apply Qle_bool_iff. lra.
  - done.
  - intros env' p Hp Hle. destruct (apply_event_view env' alive p) as (p' & E & _ & V).
    { cbn. congruence. }
    rewrite E. cbn [snd]. specialize (V (mg_node_id m)). rewrite Hvalive in V.
    cbn [andb ev_node_id alive] in V. rewrite bool_decide_true in V by done.
    destruct (view p' (mg_node_id m)) as [k|]; cbn in V; [|by destruct V].
    destruct V as [Hk Hmx]. assert (key_le (ev_key alive) k) as Hlek by (apply Hmx; right; left).
    destruct Hk as [Hk|Hk%list_elem_of_singleton]; [|by rewrite Hk].
    apply Hle in Hk. exfalso. unfold key_le, ev_key in *; cbn in *. lia.
Qed.

Lemma example_wf inc : (1 <= inc)%Z → manager_wf (example_manager inc).
Proof.
  intros. assert (covered (example_manager inc) inc) as Hc by (exists inc; split; [by apply example_holds|lia]).
  split; cbn [example_manager set_members mg_members mg_node_id mg_address mg_incarnation
    mg_identity mg_leaving mg_settings mg_gossip].
  - eexists. rewrite lookup_singleton_eq. split; [done|]. split; [exact Hc|by left].
  - intros j r. rewrite lookup_singleton. case_decide; [|done]. intros [= <-]. subst. cbn.
    split_and!; try done; by_compute.
  - by split.
  - split_and!; by_compute.
  - split; [constructor|]. intros te Hte. by inversion Hte.
Qed.

Lemma refutation_works_witness :
  ∃ m', run (apply_event example_env (example_suspicion 9)) (example_manager 7) = (Ok (), m')
    ∧ (9 < mg_incarnation m')%Z.
Proof.
  destruct (refutation_works example_env (example_manager 7) (example_suspicion 9) 7
    (example_wf 7 ltac:(lia)) eq_refl ltac:(by vm_compute) eq_refl eq_refl ltac:(by left)
    ltac:(by vm_compute) eq_refl (example_holds 7 ltac:(lia)) ltac:(by vm_compute) ltac:(by vm_compute))
    as (m' & alive & E & Hlt & _).
  exists m'. split; [exact E|exact Hlt].
Defined.

(** the members offered for placement are exactly the members known to be ALIVE, with
    valid identifiers and addresses, and never the node itself once it is leaving. *)
Theorem eligible_members_correct m nodes :
  manager_wf m → get_members_snapshot m true = Ok nodes →
  ∀ n, n ∈ nodes ↔
    ∃ r, mg_members m !! nf_node_id n = Some r ∧ mr_state r = ALIVE
      ∧ nf_address n = mr_address r ∧ nf_incarnation n = mr_incarnation r
      ∧ uint64 (mr_incarnation r) = true
      ∧ is_valid_nodeinfo n = true ∧ ¬ (nf_node_id n = mg_node_id m ∧ mg_leaving m = true).
Proof.
  intros Hwf Hsnap n. rewrite (eligible_snapshot_elem m nodes Hsnap). unfold eligible. split.
  - intros (r & Hr & He & Hu & ->). apply member_values_elem in Hr as [id Hid].
    destruct (mw_records m Hwf _ _ Hid) as (<- & V1 & V2 & V3 & V4). bool_hyps.
    cbn [nf_node_id nf_address nf_incarnation]. exists r. split_and!; try done.
    + match goal with H : mr_state r ∈ ELIGIBLE_STATES |- _ => by apply list_elem_of_singleton in H end.
    + unfold is_valid_nodeinfo, is_valid_incarnation; cbn. rewrite V1, V2. by apply Z.leb_le.
    + intros [E1 E2]. rewrite E2, bool_decide_true in * by done. done.
  - intros (r & Hid & Hst & Ea & Ei & Hu & _ & Hn). destruct (mw_records m Hwf _ _ Hid) as (En & _).
    exists r. split_and!; [apply member_values_elem; eauto| |done|].
    + rewrite Hst. cbn. rewrite bool_decide_true by by left. cbn. apply negb_true_iff.
      apply andb_false_iff. destruct (mg_leaving m); [left|by right].
      apply bool_decide_eq_false. rewrite En. tauto.
    + destruct n; cbn in *. congruence.
Qed.

Lemma eligible_members_correct_witness :
  ∃ nodes, get_members_snapshot (example_manager 7) true = Ok nodes
    ∧ {| nf_node_id := example_id; nf_address := u "10.0.0.1:7000"; nf_incarnation := 7 |} ∈ nodes.
Proof.
  eexists. split; [vm_compute; reflexivity|].
  apply (eligible_members_correct (example_manager 7) _ (example_wf 7 ltac:(lia)) ltac:(vm_compute; reflexivity)).
  eexists. cbn [nf_node_id example_manager set_members mg_members].
  split; [apply lookup_singleton_eq|]. split_and!; try by vm_compute.
  intros [_ H]. discriminate H.
Defined.

(** once a node has started to leave it never offers itself for placement again, in
    any later history, even when a refutation publishes its record as ALIVE again. *)
Theorem left_stays_hidden m c1 c2 nodes n :
  manager_wf m → history m c1 → mg_leaving c1.1 = true → rtc (interleave mthread) c1 c2 →
  get_members_snapshot c2.1 true = Ok nodes → n ∈ nodes → nf_node_id n ≠ mg_node_id c2.1.
Proof.
  intros Hwf H1 Hl H2 Hsnap Hn. destruct (history_ok _ _ _ Hwf H1 H2) as [_ Hle].
  apply (eligible_snapshot_elem _ nodes Hsnap) in Hn as (r & _ & He & _ & ->). cbn [nf_node_id].
  unfold eligible in He. bool_hyps. rewrite (vl_leaving _ _ Hle Hl), andb_true_r in *. by bool_hyps.
Qed.

Definition example_pair : Manager := (run (apply_event example_env (example_event 98 3 ALIVE)) (example_manager 7)).2.

Lemma example_pair_wf : manager_wf example_pair.
Proof.
  apply (run_guarantee manager_wf view_le (apply_event example_env (example_event 98 3 ALIVE)) (apply_event_safe _ _)).
  by apply example_wf.
Qed.

Lemma left_stays_hidden_witness :
  ∃ n, get_members_snapshot (foldl act (example_pair, [leave example_env;; mret ()]) (repeat 0 5)).1 true = Ok [n]
    ∧ nf_node_id n ≠ mg_node_id example_pair.
Proof.
  eexists {| nf_node_id := repeat 98%N 32; nf_address := _; nf_incarnation := 3 |}.
  assert (get_members_snapshot (foldl act (example_pair, [leave example_env;; mret ()]) (repeat 0 5)).1 true
    = Ok [{| nf_node_id := repeat 98%N 32; nf_address := ev_address (example_event 98 3 ALIVE);
             nf_incarnation := 3 |}]) as E by (vm_compute; reflexivity).
  split; [exact E|].
  assert (history example_pair (foldl act (example_pair, [leave example_env;; mret ()]) [0])) as H1.
  { etransitivity; [|apply (play_steps mthread)]. apply (spawn_all mthread _ [] [_]). constructor; [apply mt_leave|constructor]. }
  refine (left_stays_hidden example_pair _ _ _ _ example_pair_wf H1 _
    (play_steps mthread (foldl act (example_pair, [leave example_env;; mret ()]) [0]) (repeat 0 4)) E _).
  - vm_compute; reflexivity.
  - by left.
Defined.

(** a call with a wrong cluster token is refused as unauthenticated and changes
    nothing; an empty token of the node refuses every call. *)
Theorem unauthorized_changes_nothing m token :
  token ≠ cluster_token (mg_settings m) ∨ strip (cluster_token (mg_settings m)) = [] →
  ∀ env node target evs reply,
    run (rpc_join env token node) m = (Err (RpcAbort UNAUTHENTICATED), m)
    ∧ run (rpc_ping env token node evs) m = (Err (RpcAbort UNAUTHENTICATED), m)
    ∧ run (rpc_ping_req env token node target evs reply) m = (Err (RpcAbort UNAUTHENTICATED), m)
    ∧ run (rpc_leave env token node) m = (Err (RpcAbort UNAUTHENTICATED), m)
    ∧ run (rpc_get_members token) m = (Err (RpcAbort UNAUTHENTICATED), m).
Proof.
  intros H env node target evs reply.
  assert (run (require_authorized token) m = (Err (RpcAbort UNAUTHENTICATED), m)) as E.
  { apply require_unauthorized. unfold is_authorized_cluster_token. case_bool_decide; [done|].
    apply bool_decide_eq_false. naive_solver. }
  unfold rpc_join, rpc_ping, rpc_ping_req, rpc_leave, rpc_get_members.
  split_and!; by rewrite run_bind, E.
Qed.

Lemma unauthorized_changes_nothing_witness :
  run (rpc_leave example_env (u "guess") {| nf_node_id := example_id; nf_address := []; nf_incarnation := 1 |})
    (example_manager 7) = (Err (RpcAbort UNAUTHENTICATED), example_manager 7).
Proof.
  apply (unauthorized_changes_nothing (example_manager 7) (u "guess")
    ltac:(left; by vm_compute) example_env {| nf_node_id := example_id; nf_address := []; nf_incarnation := 1 |}
    {| nf_node_id := example_id; nf_address := []; nf_incarnation := 1 |} [] (Err ValueError)).
Defined.

Lemma Qmin'_spec a b : (Qmin' a b <= a)%Q ∧ (Qmin' a b <= b)%Q ∧ (Qmin' a b = a ∨ Qmin' a b = b).
Proof.
  unfold Qmin'. destruct (Qle_bool a b) eqn:E; [apply Qle_bool_iff in E; split_and!; auto; lra|].
  assert (¬ (a <= b)%Q) by (rewrite <-Qle_bool_iff; congruence). split_and!; auto; lra.
Qed.

Lemma Qmax'_spec a b : (a <= Qmax' a b)%Q ∧ (b <= Qmax' a b)%Q ∧ (Qmax' a b = a ∨ Qmax' a b = b).
Proof.
  unfold Qmax'. destruct (Qle_bool a b) eqn:E; [apply Qle_bool_iff in E; split_and!; auto; lra|].
  assert (¬ (a <= b)%Q) by (rewrite <-Qle_bool_iff; congruence). split_and!; auto; lra.
Qed.

(** the waits between bootstrap attempts back off within bounds: each is within 20 %
    of the current interval and never above the maximum, and the next interval is double,
    up to the maximum. *)
Theorem backoff_bounded env uniform m :
  (0 < mg_retry_nominal m <= MEMBERSHIP_BOOTSTRAP_RETRY_MAX_INTERVAL_S)%Q →
  (∀ lo hi, (lo <= hi)%Q → (lo <= uniform lo hi <= hi)%Q) →
  let m' := (run (schedule_next_bootstrap_retry env uniform) m).2 in
  ∃ delay, mg_next_retry_at m' = Some (mono env + delay)%Q
    ∧ (mg_retry_nominal m * (8 # 10) <= delay)%Q ∧ (delay <= mg_retry_nominal m * (12 # 10))%Q
    ∧ (delay <= MEMBERSHIP_BOOTSTRAP_RETRY_MAX_INTERVAL_S)%Q
    ∧ (mg_retry_nominal m <= mg_retry_nominal m' <= MEMBERSHIP_BOOTSTRAP_RETRY_MAX_INTERVAL_S)%Q
    ∧ (mg_retry_nominal m' == mg_retry_nominal m * 2
       ∨ mg_retry_nominal m' == MEMBERSHIP_BOOTSTRAP_RETRY_MAX_INTERVAL_S)%Q.
Proof.
  intros Hn Hu m'. unfold m', schedule_next_bootstrap_retry.
  rewrite run_read_bind, run_modify_bind. unfold tmodify. rewrite run_atomic. unfold smodify.
  cbn [snd set_next_retry set_nominal set_bootstrap mg_next_retry_at mg_retry_nominal].
  set (n := Qmin' (mg_retry_nominal m) _).
  assert (n == mg_retry_nominal m)%Q as En.
  { unfold n. destruct (Qmin'_spec (mg_retry_nominal m) MEMBERSHIP_BOOTSTRAP_RETRY_MAX_INTERVAL_S)
      as (H1 & H2 & [H3|H3]); rewrite H3 in *; lra. }
  set (lo := Qmax' 0 _). set (hi := Qmin' MEMBERSHIP_BOOTSTRAP_RETRY_MAX_INTERVAL_S (n + _)).
  destruct (Qmax'_spec 0 (n - n * JITTER_RATIO)) as (L1 & L2 & L3). fold lo in L1, L2, L3.
  destruct (Qmin'_spec MEMBERSHIP_BOOTSTRAP_RETRY_MAX_INTERVAL_S (n + n * JITTER_RATIO)) as (H1 & H2 & H3).
  fold hi in H1, H2, H3.
  destruct (Qmin'_spec MEMBERSHIP_BOOTSTRAP_RETRY_MAX_INTERVAL_S (n * BACKOFF_FACTOR)) as (K1 & K2 & K3).
  unfold JITTER_RATIO, BACKOFF_FACTOR, MEMBERSHIP_BOOTSTRAP_RETRY_MAX_INTERVAL_S in *.
  assert (lo <= hi)%Q as Hlh by (destruct L3 as [->| ->], H3 as [->| ->]; lra).
  specialize (Hu lo hi Hlh). exists (uniform lo hi). split; [done|].
  do 3 (split; [lra|]).
  destruct K3 as [K3|K3]; rewrite K3 in K1 |- *; (split; [split; lra|]); [by right|left; lra].
Qed.

Lemma backoff_bounded_witness :
  ∃ delay, mg_next_retry_at (run (schedule_next_bootstrap_retry example_env (λ lo _, lo)) (example_manager 7)).2
           = Some (100 + delay)%Q ∧ (delay <= 30)%Q.
Proof.
  destruct (backoff_bounded example_env (λ lo _, lo) (example_manager 7)
    ltac:(split; by vm_compute) ltac:(intros; split; [apply Qle_refl|assumption]))
    as (d & E & _ & _ & H & _).
  exists d. split; [exact E|exact H].
Defined.

(** the refutation has no room at the top of the counter: an authenticated event that
    claims the largest incarnation of the message format makes the node store one that no
    message can carry; the event fails half way, and every later ping or join of the node
    raises before anything is sent. *)
Theorem largest_incarnation_poisons env m ev stored :
  manager_wf m → mg_leaving m = false → is_valid_member_event ev = true →
  ev_node_id ev = mg_node_id m → ev_address ev = mg_address m → ev_state ev ∈ [SUSPECT; DEAD] →
  ev_incarnation ev = (2 ^ 64 - 1)%Z → (mg_incarnation m < 2 ^ 64)%Z → io_write env (mg_identity m) = Written →
  holds (mg_identity m) (mg_node_id m) stored → (stored < 2 ^ 64)%Z →
  ∃ m', run (apply_event env ev) m = (Err ValueError, m')
    ∧ mg_incarnation m' = (2 ^ 64)%Z ∧ holds (mg_identity m') (mg_node_id m') (2 ^ 64)
    ∧ (∀ env' target reply, (run (ping env' target reply) m').1 = Err ValueError)
    ∧ (∀ env' seed reply, (run (join_seed env' seed reply) m').1 = Err ValueError).
Proof.
  intros Hwf Hl Hv Hid Ha Hst Hinc Hmi Hio Hh Hstored.
  destruct Hwf as [w1 w2 [w3 _] (w4 & w5 & w6) w7].
  assert (bump_above (io_write env (mg_identity m)) (mg_node_id m) (ev_incarnation ev) (mg_identity m)
          = (Ok (2 ^ 64)%Z, Some (identity_text (mg_node_id m) (2 ^ 64)))) as Hb.
  { unfold bump_above. rewrite w6. pose proof Hh as (_ & Hlen & Hhex & _).
    rewrite bool_decide_false by (intros E; rewrite E in Hlen; done).
    rewrite (proj2 (Z.ltb_ge _ _)) by lia. rewrite sm_bind_spec, (read_holds _ _ _ Hh).
    rewrite bool_decide_false by (intros E; by apply E). rewrite sm_bind_spec. unfold write_unlocked.
    rewrite require_node_id_hex by done. cbn [mbind res_bind require_incarnation].
    replace (Z.max stored (ev_incarnation ev) + 1)%Z with (2 ^ 64)%Z by lia. cbn. unfold write_text. by rewrite Hio. }
  set (m1 := set_incarnation (2 ^ 64) (set_identity (Some (identity_text (mg_node_id m) (2 ^ 64))) m)).
  assert (run own_node_info m1 = (Err ValueError, m1)) as Hown by done.
  exists m1. split_and!; [|done|pose proof Hh as (_ & ? & ? & _); by split_and!| |].
  - rewrite (self_event_runs env ev m (2 ^ 64) (Some (identity_text (mg_node_id m) (2 ^ 64)))) by (done || lia). fold m1.
    unfold announce_alive. rewrite run_read_bind. cbn [m1 set_incarnation set_identity mg_leaving]. by rewrite Hl.
  - intros env' target reply. unfold ping. by rewrite run_bind, Hown.
  - intros env' seed reply. unfold join_seed. by rewrite run_bind, Hown.
Qed.

Lemma largest_incarnation_poisons_witness :
  ∃ m', run (apply_event example_env (example_suspicion (2 ^ 64 - 1))) (example_manager 7) = (Err ValueError, m').
Proof.
  destruct (largest_incarnation_poisons example_env (example_manager 7) (example_suspicion (2 ^ 64 - 1)) 7
    (example_wf 7 ltac:(lia)) eq_refl ltac:(by vm_compute) eq_refl eq_refl ltac:(by left)
    eq_refl ltac:(by vm_compute) eq_refl (example_holds 7 ltac:(lia)) ltac:(by vm_compute))
    as (m' & E & _).
  exists m'. exact E.
Defined.
