(* ===== verification/RemoteContext.v ===== *)
(** * The view of the cluster a command works with

    [cluster/membership_client.py], [cluster/resolver.py] and
    [protection/remote_context.py]: the members a seed returns become the view used for
    placement, and the view and the local lease give the identity of the origin. The
    answer of the seed and the lease are arguments. *)

From S2P Require Import Prelude PyStr Common Heapq Hrw Cluster Protection ReplicationPush.
From S2P Require Import Threads MembershipModel Membership.

(** ** membership_client.py *)

(** [members_by_node_id[member.node_id] = member]: a known key keeps its place. *)
Fixpoint set_member (ms : list ClusterMember) (m : ClusterMember) : list ClusterMember :=
  match ms with
  | [] => [m]
  | x :: ms' => if bool_decide (cm_node_id x = cm_node_id m) then m :: ms' else x :: set_member ms' m
  end.

Definition add_response_member (ms : list ClusterMember) (n : NodeInfo) : list ClusterMember :=
  if bool_decide (nf_node_id n = []) || bool_decide (nf_address n = []) then ms
  else set_member ms {| cm_node_id := nf_node_id n; cm_address := nf_address n |}.

Definition view_members (nodes : list NodeInfo) : list ClusterMember :=
  fold_left add_response_member nodes [].

Definition get_cluster_view (response : rpc (list NodeInfo)) (self_addr : pystr) : res ClusterView :=
  match response with
  | RpcFail _ => Err StopanNetworkError
  | RpcOk nodes =>
      let members := view_members nodes in
      Ok {| self_node_id :=
              cm_node_id <$> List.find (λ m, bool_decide (cm_address m = strip self_addr)) members;
            members := members |}
  end.

(** ** resolver.py *)

Definition or_empty (s : option pystr) : pystr := default [] s.

(** [get_members seed] is the answer of the node at [seed]. *)
Definition require_cluster_view (get_members : pystr → rpc (list NodeInfo))
    (membership_seed : option pystr) (self_addr : pystr) (allow_empty_members : bool)
  : res (pystr * ClusterView) :=
  let seed := strip (or_empty membership_seed) in
  if bool_decide (seed = []) then Err StopanUsageError
  else
    cluster ← get_cluster_view (get_members seed) self_addr;
    if bool_decide (members cluster = []) && negb allow_empty_members then Err StopanNetworkError
    else Ok (seed, cluster).

Definition try_cluster_view (get_members : pystr → rpc (list NodeInfo))
    (membership_seed : option pystr) (self_addr : pystr) : option (pystr * ClusterView) :=
  let seed := strip (or_empty membership_seed) in
  if bool_decide (seed = []) then None
  else
    match get_cluster_view (get_members seed) self_addr with
    | Err _ => None
    | Ok cluster => if bool_decide (members cluster = []) then None else Some (seed, cluster)
    end.

(** ** remote_context.py *)

Record RemoteProtectionContext := {
  rp_seed : pystr; rp_cluster : ClusterView; rp_origin_node_id : pystr; rp_self_addr : pystr;
  rp_cluster_token : pystr; rp_remote_candidate_node_ids : list pystr }.

Definition remote_candidate_count (x : RemoteProtectionContext) : Z :=
  Z.of_nat (length (rp_remote_candidate_node_ids x)).

Definition excluded_node_ids (x : RemoteProtectionContext) : list pystr := [rp_origin_node_id x].

Definition context_placement_epoch (blake3 : bytes → bytes) (x : RemoteProtectionContext)
    (remote_targets : Z) : pystr :=
  placement_epoch_excluding blake3 (rp_cluster x) remote_targets (rp_cluster_token x) (excluded_node_ids x).

(** [current_local_operation_matches]; the lease names the node and its address. *)
Definition lease_matches (lease : option (pystr * pystr)) (self_addr : pystr) : bool :=
  match lease with
  | None => false
  | Some (_, address) => bool_decide (strip self_addr ≠ []) && bool_decide (strip self_addr = address)
  end.

Definition resolve_remote_protection_context (lease : option (pystr * pystr))
    (get_members : pystr → rpc (list NodeInfo)) (membership_seed self_addr : option pystr)
    (cluster_token : pystr) : res RemoteProtectionContext :=
  let self_addr := strip (or_empty self_addr) in
  if bool_decide (self_addr = []) then Err StopanConfigRuntimeError
  else
    let leased := lease_matches lease self_addr in
    '(seed, cluster) ← require_cluster_view get_members membership_seed self_addr leased;
    let origin := strip (or_empty (self_node_id cluster)) in
    '(origin, cluster) ←
      (if leased then
         let leased_node_id := strip (or_empty (fst <$> lease)) in
         if bool_decide (leased_node_id = []) then Err StopanConfigRuntimeError
         else if bool_decide (origin ≠ []) && bool_decide (origin ≠ leased_node_id)
         then Err StopanConfigRuntimeError
         else Ok (leased_node_id,
                  if bool_decide (self_node_id cluster ≠ Some leased_node_id)
                  then {| self_node_id := Some leased_node_id; members := members cluster |}
                  else cluster)
       else Ok (origin, cluster));
    if bool_decide (origin = []) then Err StopanConfigRuntimeError
    else Ok {| rp_seed := seed; rp_cluster := cluster; rp_origin_node_id := origin;
               rp_self_addr := self_addr; rp_cluster_token := cluster_token;
               rp_remote_candidate_node_ids := candidate_node_ids_excluding cluster [origin] |}.

(** ** The members of a view *)

Lemma set_member_ids ms m n :
  n ∈ cm_node_id <$> set_member ms m ↔ n = cm_node_id m ∨ n ∈ cm_node_id <$> ms.
Proof.
  induction ms as [|x ms IH]; cbn; [set_solver|]. case_bool_decide as E; cbn; [|set_solver].
  rewrite !elem_of_cons, E. tauto.
Qed.

Lemma set_member_NoDup ms m : NoDup (cm_node_id <$> ms) → NoDup (cm_node_id <$> set_member ms m).
Proof.
  induction ms as [|x ms IH]; cbn; [by repeat constructor; set_solver|].
  intros [Hx Hnd]%NoDup_cons. case_bool_decide as E; cbn; constructor; auto; [by rewrite <-E|].
  rewrite set_member_ids. by intros [?|?].
Qed.

Lemma elem_of_set_member ms m x :
  NoDup (cm_node_id <$> ms) →
  x ∈ set_member ms m ↔ x = m ∨ x ∈ ms ∧ cm_node_id x ≠ cm_node_id m.
Proof.
  induction ms as [|y ms IH]; cbn; [set_solver|]. intros [Hy Hnd]%NoDup_cons.
  assert (∀ z, z ∈ ms → cm_node_id z ≠ cm_node_id y) as Hne
    by (intros z Hz E; apply Hy; rewrite <-E; by apply list_elem_of_fmap_2).
  case_bool_decide as E; rewrite !elem_of_cons; [|rewrite IH by done; naive_solver].
  rewrite <-E. specialize (Hne x). naive_solver.
Qed.

(** A node of the answer that the view takes: the last one with its id. *)
Definition listed (nodes : list NodeInfo) (m : ClusterMember) : Prop :=
  ∃ l1 n l2, nodes = l1 ++ n :: l2 ∧ nf_node_id n = cm_node_id m ∧ nf_address n = cm_address m
    ∧ cm_node_id m ≠ [] ∧ cm_address m ≠ []
    ∧ ∀ n', n' ∈ l2 → nf_address n' ≠ [] → nf_node_id n' ≠ cm_node_id m.

Lemma view_members_spec nodes :
  NoDup (cm_node_id <$> view_members nodes) ∧ ∀ m, m ∈ view_members nodes ↔ listed nodes m.
Proof.
  unfold view_members. induction nodes as [|n nodes [IHn IH]] using rev_ind.
  { split; [constructor|]. intros m. unfold listed. split; [set_solver|].
    intros ([|] & ? & ? & ? & _); done. }
  rewrite fold_left_app; cbn [fold_left].
  assert (∀ m, listed (nodes ++ [n]) m ↔
    (m = {| cm_node_id := nf_node_id n; cm_address := nf_address n |} ∧ nf_node_id n ≠ [] ∧ nf_address n ≠ [])
    ∨ listed nodes m ∧ (nf_address n ≠ [] → nf_node_id n ≠ cm_node_id m)) as Hl.
  { intros m. split.
    - intros (l1 & k & l2 & E & E1 & E2 & Hi & Ha & Hlast). destruct l2 as [|y l2 _] using rev_ind.
      + apply app_inj_tail in E as [<- <-]. left. rewrite E1, E2. by destruct m.
      + rewrite app_comm_cons, app_assoc in E. apply app_inj_tail in E as [-> <-]. right.
        split; [|apply Hlast; set_solver]. exists l1, k, l2. split_and!; try done.
        intros n' Hn'. apply Hlast. set_solver.
    - intros [(-> & Hi & Ha)|[(l1 & k & l2 & -> & E1 & E2 & Hi & Ha & Hlast) Hn]].
      + exists nodes, n, []. split_and!; try done. by intros n' ?%elem_of_nil.
      + exists l1, k, (l2 ++ [n]). split_and!; try done; [by rewrite <-app_assoc|].
        intros n' [?| ->%list_elem_of_singleton]%elem_of_app; auto. }
  unfold add_response_member.
  destruct (bool_decide (nf_node_id n = [])) eqn:E1; [|destruct (bool_decide (nf_address n = [])) eqn:E2];
    bool_hyps; cbn [orb].
  - split; [done|]. intros m. rewrite IH, Hl. split; [|tauto]. intros Hm. right. split; [done|].
    destruct Hm as (? & ? & ? & _ & _ & _ & Hi & _). congruence.
  - split; [done|]. intros m. rewrite IH, Hl. tauto.
  - split; [by apply set_member_NoDup|]. intros m. rewrite elem_of_set_member by done. rewrite IH, Hl.
    cbn. split; [intros [->|[? ?]]; [by left|right; by split]|intros [[-> _]|[? Hm]]; [by left|right]].
    split; [done|]. apply not_eq_sym. by apply Hm.
Qed.

Lemma get_cluster_view_Ok response self_addr v :
  get_cluster_view response self_addr = Ok v →
  ∃ nodes, response = RpcOk nodes ∧ members v = view_members nodes
    ∧ self_node_id v = cm_node_id <$> List.find (λ m, bool_decide (cm_address m = strip self_addr)) (members v).
Proof. destruct response as [nodes|]; cbn; [|done]. intros [= <-]. by exists nodes. Qed.

Lemma get_cluster_view_NoDup response self_addr v :
  get_cluster_view response self_addr = Ok v → NoDup (node_ids v).
Proof. intros (nodes & _ & E & _)%get_cluster_view_Ok. unfold node_ids. rewrite E. apply view_members_spec. Qed.

(** ** Properties *)

(** placement only uses living members: every target chosen from the view a seed
    serves, whatever the chunk and the exclusions, is a member the seed believes ALIVE at
    that address; and the view never repeats an identifier. *)
Theorem placement_uses_alive_members blake3 mgr mgr' token nodes self_addr v h rf salt ex :
  manager_wf mgr → run (rpc_get_members token) mgr = (Ok nodes, mgr') →
  get_cluster_view (RpcOk nodes) self_addr = Ok v →
  NoDup (node_ids v) ∧ ∀ m, m ∈ hrw_targets_excluding blake3 v h rf salt ex →
    cm_node_id m ∉ ex ∧ ∃ r, mg_members mgr !! cm_node_id m = Some r ∧ mr_state r = ALIVE
      ∧ mr_address r = cm_address m ∧ ¬ (cm_node_id m = mg_node_id mgr ∧ mg_leaving mgr = true).
Proof.
  intros Hwf Hget Hview. split; [by eapply get_cluster_view_NoDup|].
  intros m (Hm & _ & Hex)%targets_sound. split; [done|].
  apply get_cluster_view_Ok in Hview as (nodes' & [= <-] & E & _). rewrite E in Hm.
  apply (proj2 (view_members_spec nodes)) in Hm as (l1 & n & l2 & -> & En & Ea & _).
  assert (get_members_snapshot mgr true = Ok (l1 ++ n :: l2)) as Hsnap.
  { unfold rpc_get_members, require_authorized in Hget. rewrite run_bind, run_read_bind in Hget.
    destruct (is_authorized_cluster_token _ _); [|done]. cbn [run mret thread_ret] in Hget.
    unfold eligible_snapshot in Hget. rewrite run_read_bind in Hget.
    change ((get_members_snapshot mgr true, mgr) = (Ok (l1 ++ n :: l2), mgr')) in Hget. congruence. }
  destruct (proj1 (eligible_snapshot_elem mgr _ Hsnap n)) as (r & Hr & He & _ & ->); [set_solver|].
  apply member_values_elem in Hr as [id Hid]. destruct (mw_records mgr Hwf _ _ Hid) as (<- & _).
  cbn [nf_node_id nf_address] in *. rewrite <-En, <-Ea. exists r. unfold eligible in He. bool_hyps.
  split_and!; [done| |done|].
  - match goal with H : mr_state r ∈ ELIGIBLE_STATES |- _ => by apply list_elem_of_singleton in H end.
  - intros [E1 E2]. rewrite E2, bool_decide_true in * by done. done.
Qed.

Lemma placement_uses_alive_members_witness :
  ∃ nodes v, run (rpc_get_members (u "secret")) (example_manager 7) = (Ok nodes, example_manager 7)
    ∧ get_cluster_view (RpcOk nodes) (u "10.0.0.1:7000") = Ok v
    ∧ NoDup (node_ids v).
Proof.
  do 2 eexists. split; [vm_compute; reflexivity|]. split; [vm_compute; reflexivity|].
  apply (placement_uses_alive_members (λ b, b) (example_manager 7) (example_manager 7) (u "secret") _
    (u "10.0.0.1:7000") _ [] 0 [] [] (example_wf 7 ltac:(lia)) ltac:(vm_compute; reflexivity)
    ltac:(vm_compute; reflexivity)).
Defined.

Lemma require_view_Ok get_members seed self_addr allow s v :
  require_cluster_view get_members seed self_addr allow = Ok (s, v) →
  s = strip (or_empty seed) ∧ s ≠ [] ∧ get_cluster_view (get_members s) self_addr = Ok v
  ∧ (allow = false → members v ≠ []).
Proof.
  unfold require_cluster_view. case_bool_decide as Es; [done|]. intros H.
  apply bind_Ok in H as (cluster & Hc & H).
  destruct (bool_decide (members cluster = [])) eqn:Em; cbn [andb] in H; bool_hyps.
  - destruct allow; cbn in H; [|done]. by injection H as <- <-.
  - injection H as <- <-. by split_and!.
Qed.

Lemma candidates_are_others v o n :
  o ≠ [] → n ∈ candidate_node_ids_excluding v [o] ↔ n ∈ node_ids v ∧ n ≠ [] ∧ n ≠ o.
Proof.
  intros Ho. unfold candidate_node_ids_excluding, node_ids. rewrite !list_elem_of_fmap. split.
  - intros (m & -> & (Hm & Hn & Hex)%elem_of_candidates). split_and!; [eauto|done|].
    intros E. apply Hex. rewrite E. left.
  - intros ((m & -> & Hm) & Hn & Hne). exists m. split; [done|]. apply elem_of_candidates.
    split_and!; [done..|]. by intros ?%list_elem_of_singleton.
Qed.

(** a remote command knows who it is and never places on itself: the context has a
    non-blank origin, taken from the matching lease or else from the member of the view
    at the command's own address; its candidates are exactly the other members of the
    view; and without a lease an empty view is refused. *)
Theorem remote_context_correct lease get_members seed self_addr token x :
  resolve_remote_protection_context lease get_members seed self_addr token = Ok x →
  let own := strip (or_empty self_addr) in
  rp_origin_node_id x ≠ [] ∧ strip (rp_origin_node_id x) = rp_origin_node_id x
  ∧ NoDup (node_ids (rp_cluster x))
  ∧ (∀ n, n ∈ rp_remote_candidate_node_ids x ↔
       n ∈ node_ids (rp_cluster x) ∧ n ≠ [] ∧ n ≠ rp_origin_node_id x)
  ∧ (∃ nodes, get_members (rp_seed x) = RpcOk nodes ∧ members (rp_cluster x) = view_members nodes)
  ∧ (if lease_matches lease own
     then ∃ id, lease = Some (id, own) ∧ rp_origin_node_id x = strip id
     else ∃ m, m ∈ members (rp_cluster x) ∧ cm_address m = own
            ∧ rp_origin_node_id x = strip (cm_node_id m)).
Proof.
  unfold resolve_remote_protection_context. case_bool_decide as Hown; [done|]. intros H.
  apply bind_Ok in H as ([s v] & Hv & H). apply require_view_Ok in Hv as (_ & _ & Hv & Hne).
  pose proof (get_cluster_view_NoDup _ _ _ Hv) as Hnd.
  apply get_cluster_view_Ok in Hv as (nodes & Hnodes & Hm & Hself). rewrite strip_idem in Hself.
  apply bind_Ok in H as ([o w] & Ho & H). case_bool_decide as Hoe; [done|]. injection H as <-.
  cbn [rp_origin_node_id rp_cluster rp_remote_candidate_node_ids rp_seed].
  set (own := strip (or_empty self_addr)) in *.
  assert (members w = members v ∧ strip o = o
    ∧ (if lease_matches lease own then ∃ id, lease = Some (id, own) ∧ o = strip id
       else ∃ m, m ∈ members v ∧ cm_address m = own ∧ o = strip (cm_node_id m))) as (Ew & Es & Hor).
  { destruct (lease_matches lease own) eqn:El.
    - unfold lease_matches in El. destruct lease as [[id a]|]; [|done]. cbn [fst fmap option_fmap option_map] in Ho.
      destruct (bool_decide (strip _ = [])); [done|].
      match type of Ho with (if ?b then _ else _) = _ => destruct b; [done|] end. injection Ho as <- <-.
      unfold own in El. rewrite strip_idem in El. bool_hyps. subst a.
      split_and!; [by case_bool_decide|apply strip_idem|]. by exists id.
    - injection Ho as <- <-. split_and!; [done|apply strip_idem|]. rewrite Hself in Hoe |- *.
      destruct (List.find _ (members v)) as [m|] eqn:Ef; cbn in *; [|done].
      apply find_some in Ef as [Hin Ha]. bool_hyps. exists m. split_and!; [|done|done].
      by apply list_elem_of_In. }
  cbn zeta. unfold node_ids in *. rewrite Ew. split_and!; try done; [|by exists nodes].
  intros n. rewrite candidates_are_others by done. unfold node_ids. by rewrite Ew.
Qed.

Definition example_nodes : list NodeInfo :=
  [{| nf_node_id := [97%N]; nf_address := u "a:1"; nf_incarnation := 1 |};
   {| nf_node_id := [98%N]; nf_address := u "b:1"; nf_incarnation := 1 |}].

Lemma remote_context_correct_witness :
  ∃ x, resolve_remote_protection_context None (λ _, RpcOk example_nodes) (Some (u "b:1")) (Some (u "a:1"))
         (u "t") = Ok x ∧ [98%N] ∈ rp_remote_candidate_node_ids x.
Proof.
  eexists. split; [vm_compute; reflexivity|].
  apply (remote_context_correct None (λ _, RpcOk example_nodes) (Some (u "b:1")) (Some (u "a:1")) (u "t") _
    ltac:(vm_compute; reflexivity)).
  split_and!; [by_compute|done|done].
Defined.
