(* ===== verification/Replication.v ===== *)
(** * The push and verify commands

    [push_to_network] of [protection/replication/pusher.py] and
    [verify_remote_protection] of [verifier.py]: resolve the context, select the chunks,
    do the work and store the results. *)

From S2P Require Import Prelude PyStr Common Heapq Hrw Cluster Protection Catalog.
From S2P Require Import ProtectionTable Snapshots Scope ReplicationPlan ReplicationPush.
From S2P Require Import ReplicationVerify MembershipModel Membership RemoteContext.

(** [MetadataDB.sum_chunk_sizes] *)
Definition batch_sizes (c : Catalog) (batch : list pystr) : Z :=
  sumZ (λ h, default 0%Z (chunks c !! h)) batch.

Definition sum_chunk_sizes (c : Catalog) (chunk_hashes : list pystr) : res Z :=
  hashes ← unique_hashes chunk_hashes;
  Ok (fold_left (λ total batch, (total + batch_sizes c batch)%Z) (iter_batches hashes 500) 0%Z).

Record PushStats := {
  ps_attempted : Z; ps_protected : Z; ps_degraded : Z; ps_failed : Z; ps_stored_remote : Z;
  ps_already_present_remote : Z; ps_processed_bytes : Z; ps_insufficient_remote_targets : bool;
  ps_desired_rf : Z; ps_remote_candidates : Z; ps_interrupted : bool }.

Definition push_stats (k : PushCounters) (processed : Z) (insufficient : bool) (rf candidates : Z)
    (interrupted : bool) : PushStats := {|
  ps_attempted := attempted k; ps_protected := protected k; ps_degraded := degraded k;
  ps_failed := failed k; ps_stored_remote := stored_remote k;
  ps_already_present_remote := already_present_remote k; ps_processed_bytes := processed;
  ps_insufficient_remote_targets := insufficient; ps_desired_rf := rf;
  ps_remote_candidates := candidates; ps_interrupted := interrupted |}.

(** [(scope or DEFAULT_PROTECTION_SCOPE) == DEFAULT_PROTECTION_SCOPE and snapshot_id is None] *)
Definition is_default_scope (scope : option pystr) (snapshot_id : option Z) : bool :=
  match scope with
  | None | Some [] => true
  | Some s => bool_decide (s = DEFAULT_PROTECTION_SCOPE)
  end && bool_decide (snapshot_id = None).

Section commands.
Context (blake3 : bytes → bytes).

(** [interrupt] is the number of outcomes handled when the user interrupts the push: the
    code then flushes what is pending and returns. Outcomes are only yielded once every
    target has completed, so an interruption before that handles none. *)
Definition handled_outcomes (interrupt : option nat)
    (outcomes : res (list ChunkReplicationOutcome)) : res (list ChunkReplicationOutcome) :=
  match interrupt with
  | Some 0 => Ok []
  | Some n => outs ← outcomes; Ok (take n outs)
  | None => outcomes
  end.

Definition push_to_network (context : res RemoteProtectionContext) (rf : Z) (limit : option Z)
    (commit_every : Z) (strict_rf : bool) (scope : option pystr) (snapshot_id : option Z)
    (run : ClusterMember → list pystr → rpc TargetExecutionResult) (order : list pystr)
    (clock : Z → Q) (interrupt : option nat) : SM Catalog PushStats :=
  if (rf <? 1)%Z then sraise StopanConfigValueError
  else
    x ← slift context;
    let current_epoch := context_placement_epoch blake3 x rf in
    let candidates := remote_candidate_count x in
    if strict_rf && (candidates <? rf)%Z
    then mret (push_stats empty_counters 0 true rf candidates false)
    else
      (if is_default_scope scope snapshot_id
       then smodify (λ c, mark_stale_protection c rf (Some current_epoch)) else mret ()) ;;
      c ← sget;
      pending_chunks ←
        slift (scoped_replication_push_chunks c scope snapshot_id rf (Some current_epoch) limit);
      match pending_chunks with
      | [] => mret (push_stats empty_counters 0 false rf candidates false)
      | _ =>
          processed ← slift (sum_chunk_sizes c pending_chunks);
          outcomes ← slift (handled_outcomes interrupt
            (push_chunk_replicas blake3 (rp_cluster x) pending_chunks rf (rp_cluster_token x)
               (rp_origin_node_id x) run order));
          k ← push_outcomes rf current_epoch commit_every clock outcomes;
          mret (push_stats k processed false rf candidates (bool_decide (is_Some interrupt)))
      end.

Definition verify_remote_protection (context : res RemoteProtectionContext) (include_verified : bool)
    (limit : option Z) (scope : option pystr) (snapshot_id : option Z)
    (run : ClusterMember → list pystr → rpc ProbeExecutionResult) (order : list pystr) (now : Q)
  : SM Catalog VerificationStats :=
  x ← slift context;
  c ← sget;
  candidates ← slift (scoped_replication_verification_candidates c scope snapshot_id include_verified limit);
  verify blake3 (rp_cluster x) (rp_cluster_token x) (rp_origin_node_id x) run order now candidates.
End commands.

(** ** Facts on the commands *)

Lemma count_outcome_total rf k o :
  let k' := count_outcome rf k o in
  (attempted k' = attempted k + 1)%Z
  ∧ (protected k' + degraded k' + failed k' = protected k + degraded k + failed k + 1)%Z.
Proof.
  assert (∀ s, (if bool_decide (s = PLACED) then 1 else 0) + (if bool_decide (s = DEGRADED) then 1 else 0)
    + (if bool_decide (s ∉ [PLACED; DEGRADED]) then 1 else 0) = 1)%Z as E
    by (intros []; vm_compute; reflexivity).
  specialize (E (replication_push_state (oc_protected o) rf)). unfold count_outcome.
  cbn [attempted protected degraded failed]. split; [done|]. lia.
Qed.

Lemma counters_total rf outs k :
  let k' := fold_left (count_outcome rf) outs k in
  (attempted k' = attempted k + Z.of_nat (length outs))%Z
  ∧ (attempted k' - attempted k = (protected k' - protected k) + (degraded k' - degraded k)
                                  + (failed k' - failed k))%Z.
Proof.
  revert k. induction outs as [|o outs IH]; intros k; cbn zeta; [cbn; lia|].
  destruct (IH (count_outcome rf k o)) as [H1 H2]. destruct (count_outcome_total rf k o) as [K1 K2].
  cbn [fold_left length]. lia.
Qed.

Lemma pending_hashes_valid c rf epoch limit :
  protection_wf c →
  Forall (λ h, is_valid_blake3_hex h = true ∧ is_Some (chunks c !! h))
    (get_pending_protection_chunks c rf epoch limit).
Proof.
  intros [_ Hfk Hval _]. apply Forall_forall. intros h Hh.
  assert (h ∈ get_pending_protection_chunks c rf epoch None) as Hin.
  { unfold get_pending_protection_chunks, select_rows, sql_limit in *.
    destruct limit as [n|]; [|done]. destruct (n <? 0)%Z; [done|].
    apply list_elem_of_fmap in Hh as (x & -> & Hx). apply list_elem_of_fmap_2.
    by apply elem_of_take in Hx as (i & Hx%list_elem_of_lookup_2 & _). }
  apply elem_of_select in Hin as (r & Hr & _). eauto.
Qed.

Lemma sum_sizes_Ok c hs :
  Forall (λ h, is_valid_blake3_hex h = true) hs → ∃ n, sum_chunk_sizes c hs = Ok n.
Proof. intros H. unfold sum_chunk_sizes. rewrite unique_hashes_valid by done. cbn. eauto. Qed.

(** The stored updates of a push whose outcomes meet [outcome_spec]. *)
Lemma outcomes_valid blake3 cluster token origin rf run p hs outs c epoch :
  (0 <= rf)%Z → Forall2 (outcome_spec blake3 cluster token origin rf run p) hs outs →
  Forall (λ h, is_valid_blake3_hex h = true ∧ is_Some (chunks c !! h)) hs →
  oc_chunk_hash <$> outs = hs
  ∧ Forall (λ o, is_valid_blake3_hex (oc_chunk_hash o) = true) outs
  ∧ Forall (valid_update c [PLACED; DEGRADED; FAILED]) (outcome_update rf epoch <$> outs)
  ∧ Forall honest (outcome_update rf epoch <$> outs).
Proof.
  intros Hrf H. induction H as [|h o hs outs (E1 & E2 & E3 & E4 & _) _ IH].
  { intros _. split_and!; constructor. }
  intros [[Hv Hc] Hhs]%Forall_cons. destruct (IH Hhs) as (<- & I2 & I3 & I4). cbn [fmap list_fmap].
  rewrite E1. split_and!; [done|constructor; [by rewrite E1|done]| |].
  - constructor; [|done]. pose proof (acked_targets_bound blake3 cluster token origin rf run p h) as (? & ? & _).
    unfold valid_update; cbn [outcome_update up_chunk_hash up_desired_rf up_protected_remote_copies up_protection_state].
    rewrite E1, (valid_hex_strip _ Hv). split_and!; [|done|done|lia|done].
    unfold replication_push_state, protection_state_from_thresholds.
    by repeat destruct (_ <=? _)%Z; by_compute.
  - constructor; [apply outcome_update_honest|done].
Qed.

(** The default push, once its context is known. *)
Lemma default_push blake3 x rf ce strict run order now c :
  (1 <= rf)%Z → strict && (remote_candidate_count x <? rf)%Z = false →
  let epoch := context_placement_epoch blake3 x rf in
  let c1 := mark_stale_protection c rf (Some epoch) in
  let hs := get_pending_protection_chunks c rf (Some epoch) None in
  push_to_network blake3 (Ok x) rf None ce strict None None run order (λ _, now) None c
  = (match hs with
     | [] => mret (push_stats empty_counters 0 false rf (remote_candidate_count x) false)
     | _ =>
         processed ← slift (sum_chunk_sizes c1 hs);
         outcomes ← slift (push_chunk_replicas blake3 (rp_cluster x) hs rf (rp_cluster_token x)
           (rp_origin_node_id x) run order);
         k ← push_outcomes rf epoch ce (λ _, now) outcomes;
         mret (push_stats k processed false rf (remote_candidate_count x) false)
     end) c1.
Proof.
  intros Hrf Hs. cbn zeta. unfold push_to_network. rewrite (proj2 (Z.ltb_ge _ _)) by done.
  rewrite sm_bind_spec. cbn [slift]. rewrite Hs.
  rewrite sm_bind_spec. change (is_default_scope None None) with true. cbn [smodify].
  rewrite sm_bind_spec. cbn [sget]. rewrite sm_bind_spec.
  unfold scoped_replication_push_chunks. change (normalize_protection_scope None None) with (Ok DEFAULT_PROTECTION_SCOPE).
  cbn [mbind res_bind]. rewrite bool_decide_true by done. rewrite select_mark_stale. cbn [slift].
  by destruct (get_pending_protection_chunks _ _ _ _).
Qed.

Lemma run_push blake3 x rf ce run order now c hs outs k c' epoch :
  push_chunk_replicas blake3 (rp_cluster x) hs rf (rp_cluster_token x) (rp_origin_node_id x) run order
    = Ok outs →
  oc_chunk_hash <$> outs = hs → Forall (λ h, is_valid_blake3_hex h = true) hs →
  push_outcomes rf epoch ce (λ _, now) outs c = (Ok k, c') →
  ∃ n, (match hs with
     | [] => mret (push_stats empty_counters 0 false rf (remote_candidate_count x) false)
     | _ =>
         processed ← slift (sum_chunk_sizes c hs);
         outcomes ← slift (push_chunk_replicas blake3 (rp_cluster x) hs rf (rp_cluster_token x)
           (rp_origin_node_id x) run order);
         k ← push_outcomes rf epoch ce (λ _, now) outcomes;
         mret (push_stats k processed false rf (remote_candidate_count x) false)
     end) c = (Ok (push_stats k n false rf (remote_candidate_count x) false), c').
Proof.
  intros Eouts Eh Hval Epush. destruct hs as [|h0 hs].
  { apply fmap_nil_inv in Eh as ->. injection Epush as <- <-. by exists 0%Z. }
  destruct (sum_sizes_Ok c _ Hval) as [n En]. exists n. rewrite sm_bind_spec. unfold slift at 1.
  rewrite En, sm_bind_spec. unfold slift at 1. rewrite Eouts, sm_bind_spec, Epush. done.
Qed.

(** Which rows a push leaves pending. *)
Lemma pending_after_push blake3 cluster token origin rf run p hs outs epoch now c c' :
  (0 < rf)%Z → hs = get_pending_protection_chunks c rf (Some epoch) None →
  Forall2 (outcome_spec blake3 cluster token origin rf run p) hs outs → oc_chunk_hash <$> outs = hs →
  (∀ h, h ∉ oc_chunk_hash <$> outs → chunk_protection c' !! h = chunk_protection c !! h) →
  (∀ o, o ∈ outs → chunk_protection c' !! oc_chunk_hash o
     = Some (push_upsert now (outcome_update rf epoch o) (chunk_protection c !! oc_chunk_hash o))) →
  ∀ h, h ∈ get_pending_protection_chunks c' rf (Some epoch) None ↔
    h ∈ hs ∧ (acked_targets blake3 cluster token origin rf run p is_success h < rf)%Z.
Proof.
  intros Hrf Ehs Hspec Eh Hout Hin h. unfold get_pending_protection_chunks at 1. rewrite elem_of_select.
  destruct (decide (h ∈ hs)) as [Hh|Hh].
  - apply list_elem_of_lookup in Hh as [i Hi].
    destruct (Forall2_lookup_l _ _ _ _ _ Hspec Hi) as (o & Ho & E1 & E2 & E3 & E4 & _).
    apply list_elem_of_lookup_2 in Ho, Hi. specialize (Hin o Ho). rewrite E1 in Hin. rewrite Hin.
    pose proof (acked_targets_bound blake3 cluster token origin rf run p h) as (_ & _ & Hsum & _).
    pose proof (pushed_row_pending rf epoch now o (chunk_protection c !! h) Hrf) as Hp.
    split; [intros (r & [= <-] & Hr)|intros [_ Hlt]].
    + apply Hp in Hr. split; [done|lia].
    + eexists. split; [done|]. apply Hp. lia.
  - rewrite Hout by (by rewrite Eh). split; [|tauto]. intros H. exfalso. apply Hh. rewrite Ehs.
    by apply elem_of_select.
Qed.

(** ** Properties *)

(** C2: a push settles every pending chunk: on a well-formed catalogue the default push
    considers each pending chunk once, its counters add up, the catalogue stays well
    formed, and the chunks pending afterwards are exactly those that had been pending and
    for which fewer targets than copies asked for acknowledged the chunk. *)
Theorem push_settles_pending blake3 x rf ce strict run order now c :
  catalog_wf c → (1 <= rf)%Z → strip (rp_origin_node_id x) ≠ [] →
  strict && (remote_candidate_count x <? rf)%Z = false →
  let epoch := context_placement_epoch blake3 x rf in
  let hs := get_pending_protection_chunks c rf (Some epoch) None in
  ∀ p, plan_chunk_replication_targets blake3 (rp_cluster x) hs rf (rp_cluster_token x)
         (rp_origin_node_id x) = Ok p →
  order ≡ₚ (map_to_list (target_chunks p)).*1 →
  ∃ stats c', push_to_network blake3 (Ok x) rf None ce strict None None run order (λ _, now) None c
              = (Ok stats, c')
    ∧ ps_attempted stats = Z.of_nat (length hs)
    ∧ (ps_protected stats + ps_degraded stats + ps_failed stats = ps_attempted stats)%Z
    ∧ catalog_wf c'
    ∧ ∀ h, h ∈ get_pending_protection_chunks c' rf (Some epoch) None ↔
        h ∈ hs ∧ (acked_targets blake3 (rp_cluster x) (rp_cluster_token x) (rp_origin_node_id x) rf run p
                    is_success h < rf)%Z.
Proof.
  intros Hwf Hrf Ho Hs. cbn zeta. intros p Hp Hord. rewrite default_push by done.
  set (epoch := context_placement_epoch blake3 x rf) in *.
  set (c1 := mark_stale_protection c rf (Some epoch)).
  set (hs := get_pending_protection_chunks c rf (Some epoch) None) in *.
  destruct (cstep_ok c c1 Hwf (cs_mark_stale c rf (Some epoch))) as [Hwf1 _].
  assert (get_pending_protection_chunks c1 rf (Some epoch) None = hs) as Ehs by apply select_mark_stale.
  pose proof (pending_hashes_valid c1 rf (Some epoch) None (cwf_protection c1 Hwf1)) as Hval.
  rewrite Ehs in Hval.
  assert (NoDup hs) as Hnd by (unfold hs, get_pending_protection_chunks; apply select_sorted).
  pose proof Hp as Hp'. rewrite <-(ordered_unique_nodup hs Hnd) in Hp.
  destruct (push_outcomes_spec blake3 (rp_cluster x) (rp_cluster_token x) (rp_origin_node_id x) rf Ho
    ltac:(lia) run hs order p Hp Hord) as (_ & outs & Eouts & Hspec).
  rewrite (ordered_unique_nodup hs Hnd) in Hspec.
  destruct (outcomes_valid blake3 (rp_cluster x) (rp_cluster_token x) (rp_origin_node_id x) rf run p hs outs
    c1 epoch ltac:(lia) Hspec Hval) as (Eh & V1 & V2 & V3).
  destruct (pushed_rows rf epoch ce now c1 outs V2 ltac:(by rewrite Eh) V1)
    as (n & c' & Epush & Eapply & Hout & Hin).
  destruct (run_push blake3 x rf ce run order now c1 hs outs _ c' epoch Eouts Eh
    ltac:(eapply Forall_impl; [exact Hval|naive_solver]) Epush) as [sz ->].
  destruct (counters_total rf outs empty_counters) as [K1 K2].
  eexists _, c'. split; [done|]. cbn [push_stats ps_attempted ps_protected ps_degraded ps_failed].
  rewrite <-Eh, length_fmap. cbn in K1, K2. split_and!; [lia|lia| |].
  - exact (proj1 (cstep_ok c1 c' Hwf1 (cs_push c1 _ now n c' V3 Eapply))).
  - rewrite Eh. exact (pending_after_push blake3 _ _ _ rf run p hs outs epoch now c1 c' ltac:(lia)
      (eq_sym Ehs) Hspec Eh Hout Hin).
Qed.

(** A catalogue with one file of two chunks, nothing pushed yet. *)
Definition example_context : RemoteProtectionContext := {|
  rp_seed := u "s"; rp_cluster := example_cluster; rp_origin_node_id := [97%N];
  rp_self_addr := u "a:1"; rp_cluster_token := u "t"; rp_remote_candidate_node_ids := [[98%N]; [99%N]] |}.

Lemma push_settles_pending_witness :
  ∃ c p stats c', rtc cstep empty_catalog c
    ∧ push_to_network (λ b, b) (Ok example_context) 2 None 500 true None None all_stored
        (map_to_list (target_chunks p)).*1 (λ _, 0%Q) None c = (Ok stats, c') ∧ catalog_wf c'.
Proof.
  destruct example_backup_reachable as (c & row & Hr & _).
  destruct (csteps_ok _ _ empty_catalog_wf Hr) as [Hwf _].
  destruct (plan_exists (λ b, b) example_cluster (u "t") [97%N] 2 ltac:(by compute) ltac:(lia)
    (get_pending_protection_chunks c 2 (Some (context_placement_epoch (λ b, b) example_context 2)) None))
    as (p & Hp & _).
  destruct (push_settles_pending (λ b, b) example_context 2 500 true all_stored
    (map_to_list (target_chunks p)).*1 0 c Hwf ltac:(lia) ltac:(by compute) ltac:(reflexivity)
    p Hp (Permutation_refl _)) as (stats & c' & E & _ & _ & Hwf' & _).
  exists c, p, stats, c'. split; [exact Hr|]. split; [exact E|exact Hwf'].
Defined.

(** A strict push that lacks remote candidates, and a push that asks for no copies or
    has no context, leave the catalogue as it was. *)
Theorem refused_push_changes_nothing blake3 context rf limit ce strict scope sid run order clock i c :
  ((rf < 1)%Z ∨ (∃ e, context = Err e)
   ∨ ∃ x, context = Ok x ∧ strict = true ∧ (remote_candidate_count x < rf)%Z) →
  (push_to_network blake3 context rf limit ce strict scope sid run order clock i c).2 = c
  ∧ ∀ stats, (push_to_network blake3 context rf limit ce strict scope sid run order clock i c).1 = Ok stats →
      ps_insufficient_remote_targets stats = true ∧ ps_attempted stats = 0%Z.
Proof.
  unfold push_to_network. destruct (Z.ltb_spec rf 1) as [Hlt|Hge]; [by intros _; split|].
  intros [?|[[e ->]|(x & -> & -> & Hn)]]; [lia|by split|].
  rewrite sm_bind_spec. cbn [slift]. rewrite (proj2 (Z.ltb_lt _ _) Hn). cbn [andb].
  split; [done|]. by intros stats [= <-].
Qed.

Lemma refused_push_changes_nothing_witness :
  (push_to_network (λ b, b) (Ok example_context) 3 None 500 true None None all_stored [] (λ _, 0%Q) None
     example_table).2 = example_table.
Proof.
  apply (refused_push_changes_nothing (λ b, b) (Ok example_context) 3 None 500 true None None all_stored []
    (λ _, 0%Q) None example_table).
  right; right. exists example_context. by split_and!.
Defined.
