(* ===== verification/Erasure.v ===== *)
(** * Erasure-coded data packs

    [protection/ec/models.py], [codec.py], [packer.py] and [manifest.py]: chunks are
    joined into a pack, the pack is split into [data_shards] blocks, and zfec adds
    [parity_shards] more. zfec and BLAKE3 are parameters; the isinstance checks of the
    code are the types of the model. *)

From S2P Require Import Prelude PyStr Common Json.

Notation coding_error := ErasureCodingError.

(** ** models.py *)

Definition ec_require_hash64 (value : pystr) : res pystr :=
  let text := strip value in
  if is_valid_blake3_hex text then Ok text else Err coding_error.

Definition ec_non_negative (value : Z) : res Z := require_strict_non_negative_int (VInt value) coding_error.
Definition ec_positive (value : Z) : res Z := require_strict_positive_int (VInt value) coding_error.

Record ErasureSpec := { data_shards : Z; parity_shards : Z; es_codec : pystr }.

Definition total_shards (s : ErasureSpec) : Z := (data_shards s + parity_shards s)%Z.

Definition make_spec (data_shards parity_shards : pyval) (codec : pystr) : res ErasureSpec :=
  data ← require_strict_positive_int data_shards ErasureCodingConfigError;
  parity ← require_strict_non_negative_int parity_shards ErasureCodingConfigError;
  if (256 <? data + parity)%Z then Err ErasureCodingConfigError
  else if bool_decide (codec ≠ u "zfec") then Err ErasureCodingConfigError
  else Ok {| data_shards := data; parity_shards := parity; es_codec := codec |}.

Record DataPackEntry := {
  en_chunk_hash : pystr; en_offset : Z; en_length : Z; en_ordinal : Z }.

Definition make_entry (chunk_hash : pystr) (offset length ordinal : Z) : res DataPackEntry :=
  h ← ec_require_hash64 chunk_hash;
  o ← ec_non_negative offset;
  l ← ec_positive length;
  n ← ec_non_negative ordinal;
  Ok {| en_chunk_hash := h; en_offset := o; en_length := l; en_ordinal := n |}.

Record DataPackShard := {
  sh_pack_hash : pystr; sh_index : Z; sh_data : bytes; sh_hash : pystr }.

Record EncodedDataPack := {
  ep_pack_hash : pystr; ep_payload_size : Z; ep_padded_size : Z; ep_shard_size : Z;
  ep_spec : ErasureSpec; ep_entries : list DataPackEntry; ep_shards : list DataPackShard }.

(** The loop over the entries: the end of the last one, or an error. *)
Fixpoint check_entries (ordinal previous_end : Z) (entries : list DataPackEntry) : res Z :=
  match entries with
  | [] => Ok previous_end
  | e :: entries' =>
      if negb (en_ordinal e =? ordinal)%Z then Err coding_error
      else if negb (en_offset e =? previous_end)%Z then Err coding_error
      else check_entries (ordinal + 1) (en_offset e + en_length e) entries'
  end.

Fixpoint check_shards (pack_hash : pystr) (total shard_size : Z) (seen : list Z)
    (shards : list DataPackShard) : res unit :=
  match shards with
  | [] => Ok ()
  | s :: shards' =>
      if bool_decide (sh_pack_hash s ≠ pack_hash) then Err coding_error
      else if (total <=? sh_index s)%Z then Err coding_error
      else if bool_decide (sh_index s ∈ seen) then Err coding_error
      else if negb (Z.of_nat (length (sh_data s)) =? shard_size)%Z then Err coding_error
      else check_shards pack_hash total shard_size (seen ++ [sh_index s]) shards'
  end.

(** [sorted(shards, key=lambda item: item.shard_index)] *)
Definition sort_shards (shards : list DataPackShard) : list DataPackShard :=
  py_sorted (λ a b, (sh_index a <=? sh_index b)%Z) shards.

Definition make_pack (pack_hash : pystr) (payload_size padded_size shard_size : Z) (spec : ErasureSpec)
    (entries : list DataPackEntry) (shards : list DataPackShard) : res EncodedDataPack :=
  h ← ec_require_hash64 pack_hash;
  payload_size ← ec_non_negative payload_size;
  padded_size ← ec_non_negative padded_size;
  shard_size ← ec_non_negative shard_size;
  if negb (padded_size =? shard_size * data_shards spec)%Z then Err coding_error
  else if (padded_size <? payload_size)%Z then Err coding_error
  else if negb (Z.of_nat (length shards) =? total_shards spec)%Z then Err coding_error
  else
    previous_end ← check_entries 0 0 entries;
    if negb (previous_end =? payload_size)%Z then Err coding_error
    else
      _ ← check_shards h (total_shards spec) shard_size [] shards;
      Ok {| ep_pack_hash := h; ep_payload_size := payload_size; ep_padded_size := padded_size;
            ep_shard_size := shard_size; ep_spec := spec; ep_entries := entries;
            ep_shards := sort_shards shards |}.

(** ** codec.py *)

(** The literal [b"\\x00"] of the source: a backslash, an x and two zero digits. *)
Definition padding : bytes := [Byte.x5c; Byte.x78; Byte.x30; Byte.x30].

Definition spec_data_shards (value : Z) : res Z := ec_positive value.

(** [shard_size], at least one byte. *)
Definition block_size (payload_length k : Z) : Z :=
  let size := ((payload_length + k - 1) / k)%Z in
  if (size =? 0)%Z then 1%Z else size.

Definition split_primary_blocks (payload : bytes) (k : Z) : res (list bytes * Z) :=
  k ← spec_data_shards k;
  let shard_size := block_size (Z.of_nat (length payload)) k in
  let padded_size := (shard_size * k)%Z in
  let padded := payload ++ concat (repeat padding (Z.to_nat (padded_size - Z.of_nat (length payload)))) in
  let size := Z.to_nat shard_size in
  Ok ((λ i, take size (drop (i * size) padded)) <$> seq 0 (Z.to_nat k), shard_size).

(** [payload[:size]] *)
Definition py_prefix (size : Z) (data : bytes) : bytes :=
  if (size <? 0)%Z then take (Z.to_nat (Z.of_nat (length data) + size)) data else take (Z.to_nat size) data.

Section coding.
Context (blake3 : bytes → bytes).

(** [zfec.Encoder(k, n).encode(blocks, indexes)] and [zfec.Decoder(k, n).decode(shards, indexes)]. *)
Context (zencode : Z → Z → list bytes → list nat → list bytes).
Context (zdecode : Z → Z → list bytes → list Z → res (list bytes)).

Definition hash_bytes (data : bytes) : pystr := blake3_hex_digest blake3 data.

(** [DataPackShard._from_prehashed] *)
Definition shard_from_prehashed (pack_hash : pystr) (shard_index : Z) (data : bytes) (shard_hash : pystr)
  : res DataPackShard :=
  h ← ec_require_hash64 pack_hash;
  i ← ec_non_negative shard_index;
  s ← ec_require_hash64 shard_hash;
  Ok {| sh_pack_hash := h; sh_index := i; sh_data := data; sh_hash := s |}.

(** [DataPackShard(...)]: also checks the hash of the data. *)
Definition make_shard (pack_hash : pystr) (shard_index : Z) (data : bytes) (shard_hash : pystr)
  : res DataPackShard :=
  h ← ec_require_hash64 pack_hash;
  i ← ec_non_negative shard_index;
  s ← ec_require_hash64 shard_hash;
  if bool_decide (hash_bytes data ≠ s) then Err coding_error
  else Ok {| sh_pack_hash := h; sh_index := i; sh_data := data; sh_hash := shard_hash |}.

(** The loop [zip(wanted_indexes, raw_shards, strict=True)]. *)
Fixpoint encode_shards (pack_hash : pystr) (shard_size : Z) (indexes : list nat) (raw : list bytes)
  : res (list DataPackShard) :=
  match indexes, raw with
  | [], [] => Ok []
  | i :: indexes', data :: raw' =>
      if negb (Z.of_nat (length data) =? shard_size)%Z then Err coding_error
      else
        shard ← shard_from_prehashed pack_hash (Z.of_nat i) data (hash_bytes data);
        rest ← encode_shards pack_hash shard_size indexes' raw';
        Ok (shard :: rest)
  | _, _ => Err ValueError
  end.

(** [ZfecErasureCodec.encode] *)
Definition encode (pack_hash : pystr) (payload : bytes) (spec : ErasureSpec) : res (list DataPackShard) :=
  '(primary_blocks, shard_size) ← split_primary_blocks payload (data_shards spec);
  let wanted_indexes := seq 0 (Z.to_nat (total_shards spec)) in
  encode_shards pack_hash shard_size wanted_indexes
    (zencode (data_shards spec) (total_shards spec) primary_blocks wanted_indexes).

Fixpoint check_selected (expected_pack_hash : pystr) (total : Z) (seen : list Z)
    (selected : list DataPackShard) : res unit :=
  match selected with
  | [] => Ok ()
  | s :: selected' =>
      if bool_decide (sh_pack_hash s ≠ expected_pack_hash) then Err coding_error
      else if (total <=? sh_index s)%Z then Err coding_error
      else if bool_decide (sh_index s ∈ seen) then Err coding_error
      else check_selected expected_pack_hash total (seen ++ [sh_index s]) selected'
  end.

(** [ZfecErasureCodec.decode] *)
Definition decode (shards : list DataPackShard) (spec : ErasureSpec) (payload_size : Z)
    (expected_pack_hash : pystr) : res bytes :=
  let selected := take (Z.to_nat (data_shards spec)) (sort_shards shards) in
  if (Z.of_nat (length selected) <? data_shards spec)%Z then Err coding_error
  else
    _ ← check_selected expected_pack_hash (total_shards spec) [] selected;
    primary_blocks ← zdecode (data_shards spec) (total_shards spec) (sh_data <$> selected)
                       (sh_index <$> selected);
    let payload := py_prefix payload_size (concat primary_blocks) in
    if bool_decide (hash_bytes payload ≠ expected_pack_hash) then Err coding_error else Ok payload.

(** ** packer.py *)

Definition validated_chunk_payload (chunk : pystr * bytes) : res (pystr * bytes) :=
  h ← ec_require_hash64 chunk.1;
  if bool_decide (hash_bytes chunk.2 ≠ h) then Err coding_error else Ok (h, chunk.2).

(** The entries of the chunks, from [offset] and [ordinal] on. *)
Fixpoint pack_entries (offset ordinal : Z) (chunks : list (pystr * bytes)) : res (list DataPackEntry) :=
  match chunks with
  | [] => Ok []
  | (h, data) :: chunks' =>
      e ← make_entry h offset (Z.of_nat (length data)) ordinal;
      rest ← pack_entries (offset + Z.of_nat (length data)) (ordinal + 1) chunks';
      Ok (e :: rest)
  end.

Definition pack_payload (chunks : list (pystr * bytes)) : bytes := concat (snd <$> chunks).

(** [_build_data_pack_from_validated_chunks] *)
Definition build_from_validated (chunks : list (pystr * bytes)) (spec : ErasureSpec)
  : res EncodedDataPack :=
  match chunks with
  | [] => Err coding_error
  | _ =>
      entries ← pack_entries 0 0 chunks;
      let payload := pack_payload chunks in
      let pack_hash := hash_bytes payload in
      let shard_size :=
        Z.max ((Z.of_nat (length payload) + data_shards spec - 1) / data_shards spec) 1 in
      let padded_size := (shard_size * data_shards spec)%Z in
      shards ← encode pack_hash payload spec;
      make_pack pack_hash (Z.of_nat (length payload)) padded_size shard_size spec entries shards
  end.

Definition build_data_pack (chunks : list (pystr * bytes)) (spec : ErasureSpec) : res EncodedDataPack :=
  materialized ← mapM_res validated_chunk_payload chunks;
  build_from_validated materialized spec.

(** [DataPackBuilder] *)
Record DataPackBuilder := {
  pb_spec : ErasureSpec; pb_target_size_bytes : Z; pb_chunks : list (pystr * bytes);
  pb_current_size : Z }.

Definition new_builder (spec : ErasureSpec) (target_size_bytes : pyval) : res DataPackBuilder :=
  target ← require_strict_positive_int target_size_bytes coding_error;
  Ok {| pb_spec := spec; pb_target_size_bytes := target; pb_chunks := []; pb_current_size := 0 |}.

Definition is_empty (b : DataPackBuilder) : bool := bool_decide (pb_chunks b = []).

Definition would_exceed_target (data_size : Z) (b : DataPackBuilder) : res bool :=
  if (data_size <? 0)%Z then Err coding_error
  else Ok (negb (is_empty b) && (pb_target_size_bytes b <? pb_current_size b + data_size)%Z).

Definition append_validated_chunk (chunk : pystr * bytes) : SM DataPackBuilder bool :=
  b ← sget;
  exceeds ← slift (would_exceed_target (Z.of_nat (length chunk.2)) b);
  if exceeds : bool then sraise coding_error
  else
    let b' := {| pb_spec := pb_spec b; pb_target_size_bytes := pb_target_size_bytes b;
                 pb_chunks := pb_chunks b ++ [chunk];
                 pb_current_size := pb_current_size b + Z.of_nat (length chunk.2) |} in
    sput b' ;;
    mret (pb_target_size_bytes b' <=? pb_current_size b')%Z.

Definition add_chunk (chunk : pystr * bytes) : SM DataPackBuilder bool :=
  c ← slift (validated_chunk_payload chunk);
  append_validated_chunk c.

Definition flush : SM DataPackBuilder (option EncodedDataPack) :=
  b ← sget;
  if is_empty b then mret None
  else
    encoded ← slift (build_from_validated (pb_chunks b) (pb_spec b));
    sput {| pb_spec := pb_spec b; pb_target_size_bytes := pb_target_size_bytes b; pb_chunks := [];
            pb_current_size := 0 |} ;;
    mret (Some encoded).

(** ** manifest.py *)

Record DataPackManifest := {
  mf_pack_hash : pystr; mf_payload_size : Z; mf_padded_size : Z; mf_shard_size : Z;
  mf_spec : ErasureSpec; mf_entries : list DataPackEntry }.

Definition make_manifest (pack_hash : pystr) (payload_size padded_size shard_size : Z)
    (spec : ErasureSpec) (entries : list DataPackEntry) : res DataPackManifest :=
  _ ← ec_require_hash64 pack_hash;
  if ((payload_size <? 0) || (padded_size <? 0) || (shard_size <? 0))%Z then Err coding_error
  else if negb (padded_size =? shard_size * data_shards spec)%Z then Err coding_error
  else Ok {| mf_pack_hash := pack_hash; mf_payload_size := payload_size; mf_padded_size := padded_size;
             mf_shard_size := shard_size; mf_spec := spec; mf_entries := entries |}.

Definition reconstruct_payload (manifest : DataPackManifest) (shards : list DataPackShard) : res bytes :=
  decode shards (mf_spec manifest) (mf_payload_size manifest) (mf_pack_hash manifest).

(** [payload[offset : offset + length]] *)
Definition entry_data (payload : bytes) (e : DataPackEntry) : bytes :=
  take (Z.to_nat (en_length e)) (drop (Z.to_nat (en_offset e)) payload).

Fixpoint extract_entries (payload : bytes) (wanted : option (list pystr)) (entries : list DataPackEntry)
    (chunks : gmap pystr bytes) : res (gmap pystr bytes) :=
  match entries with
  | [] => Ok chunks
  | e :: entries' =>
      if match wanted with Some w => bool_decide (en_chunk_hash e ∉ w) | None => false end
      then extract_entries payload wanted entries' chunks
      else
        let data := entry_data payload e in
        if bool_decide (hash_bytes data ≠ en_chunk_hash e) then Err coding_error
        else extract_entries payload wanted entries' (<[en_chunk_hash e := data]> chunks)
  end.

(** [wanted_hashes]: no set and an empty set both ask for everything. *)
Definition extract_pack_chunks (payload : bytes) (manifest : DataPackManifest)
    (wanted_hashes : list pystr) : res (gmap pystr bytes) :=
  wanted ← match wanted_hashes with
           | [] => Ok None
           | _ => w ← mapM_res ec_require_hash64 wanted_hashes; Ok (Some w)
           end;
  extract_entries payload wanted (mf_entries manifest) ∅.
End coding.

(** ** Facts on blocks *)

Lemma concat_slices {A} (l : list A) s k :
  concat ((λ i, take s (drop (i * s) l)) <$> seq 0 k) = take (k * s) l.
Proof.
  induction k as [|k IH]; [by rewrite take_0|].
  rewrite seq_S, fmap_app, concat_app, IH. cbn [fmap list_fmap concat]. rewrite app_nil_r, Nat.add_0_l.
  rewrite take_take_drop. f_equal. lia.
Qed.

Lemma block_size_bounds n k : (0 <= n)%Z → (0 < k)%Z → (0 < block_size n k)%Z ∧ (n <= block_size n k * k)%Z.
Proof.
  intros Hn Hk. unfold block_size. pose proof (Z.div_mod (n + k - 1) k ltac:(lia)).
  pose proof (Z.mod_pos_bound (n + k - 1) k Hk). assert (0 <= (n + k - 1) / k)%Z by (apply Z.div_pos; lia).
  destruct (Z.eqb_spec ((n + k - 1) / k) 0); nia.
Qed.

(** [max(x, 1)] and "one when zero" agree on sizes. *)
Lemma block_size_max n k :
  (0 <= n)%Z → (0 < k)%Z → Z.max ((n + k - 1) / k) 1 = block_size n k.
Proof.
  intros Hn Hk. unfold block_size. assert (0 <= (n + k - 1) / k)%Z by (apply Z.div_pos; lia).
  destruct (Z.eqb_spec ((n + k - 1) / k) 0); lia.
Qed.

Lemma length_padding n : length (concat (repeat padding n)) = 4 * n.
Proof. induction n; cbn in *; lia. Qed.

Lemma split_blocks_spec payload k :
  (0 < k)%Z →
  ∃ blocks, split_primary_blocks payload k = Ok (blocks, block_size (Z.of_nat (length payload)) k)
    ∧ length blocks = Z.to_nat k
    ∧ Forall (λ b, length b = Z.to_nat (block_size (Z.of_nat (length payload)) k)) blocks
    ∧ take (length payload) (concat blocks) = payload.
Proof.
  intros Hk. unfold split_primary_blocks, spec_data_shards, ec_positive.
  rewrite (proj2 (require_positive_Ok (VInt k) coding_error k)) by done. cbn [mbind res_bind].
  destruct (block_size_bounds (Z.of_nat (length payload)) k ltac:(lia) Hk) as [Hs Hle].
  set (size := block_size _ _) in *. eexists. split; [done|].
  set (padded := payload ++ _).
  assert (Z.to_nat k * Z.to_nat size <= length padded) as Hlen.
  { unfold padded. rewrite length_app, length_padding. nia. }
  split_and!.
  - by rewrite length_fmap, length_seq.
  - apply Forall_fmap, Forall_forall. intros i Hi%elem_of_seq. cbn. rewrite length_take, length_drop. nia.
  - rewrite concat_slices, take_take, Nat.min_l by nia. unfold padded. by rewrite take_app_length.
Qed.

(** ** Facts on records *)

Lemma ec_hash64_Ok h : is_valid_blake3_hex h = true → ec_require_hash64 h = Ok h.
Proof. intros H. unfold ec_require_hash64. by rewrite valid_hex_strip, H. Qed.

Lemma ec_non_negative_Ok z : (0 <= z)%Z → ec_non_negative z = Ok z.
Proof. intros. by apply require_non_negative_Ok. Qed.

Lemma ec_positive_Ok z : (0 < z)%Z → ec_positive z = Ok z.
Proof. intros. by apply require_positive_Ok. Qed.

Definition chunk_map (chunks : list (pystr * bytes)) (m : gmap pystr bytes) : gmap pystr bytes :=
  fold_left (λ m c, <[c.1 := c.2]> m) chunks m.

Lemma chunk_map_other chunks m h : h ∉ chunks.*1 → chunk_map chunks m !! h = m !! h.
Proof.
  revert m. induction chunks as [|[h' d] chunks IH]; intros m Hh; [done|]. cbn in *.
  rewrite IH by set_solver. apply lookup_insert_ne. set_solver.
Qed.

Lemma chunk_map_lookup chunks m h d :
  NoDup chunks.*1 → (h, d) ∈ chunks → chunk_map chunks m !! h = Some d.
Proof.
  revert m. induction chunks as [|[h' d'] chunks IH]; intros m Hnd Hin; [by apply elem_of_nil in Hin|].
  cbn in Hnd. apply NoDup_cons in Hnd as [Hn Hnd]. apply elem_of_cons in Hin as [[= <- <-]|Hin]; cbn.
  - rewrite chunk_map_other by done. apply lookup_insert_eq.
  - by apply IH.
Qed.

Lemma sort_shards_perm l : sort_shards l ≡ₚ l.
Proof. apply py_sorted_perm. Qed.

Section facts.
Context (blake3 : bytes → bytes).
Context (zencode : Z → Z → list bytes → list nat → list bytes).
Context (zdecode : Z → Z → list bytes → list Z → res (list bytes)).

Notation hash_bytes := (hash_bytes blake3).
Notation encode := (encode blake3 zencode).
Notation decode := (decode blake3 zdecode).

(** BLAKE3 digests have 32 bytes. *)
Context (Hblake3 : ∀ data, length (blake3 data) = 32).

(** What zfec promises for [k] out of [n] shards: encoding gives [n] shards of the size of
    the blocks, and any [k] of them with distinct indexes decode to the blocks. *)
Definition zfec_mds (k n : Z) : Prop :=
  ∀ blocks size, length blocks = Z.to_nat k → Forall (λ b, length b = size) blocks →
    let raw := zencode k n blocks (seq 0 (Z.to_nat n)) in
    length raw = Z.to_nat n ∧ Forall (λ b, length b = size) raw
    ∧ ∀ indexes : list Z, NoDup indexes → length indexes = Z.to_nat k →
        Forall (λ i, 0 <= i < n)%Z indexes →
        zdecode k n ((λ i, nth (Z.to_nat i) raw []) <$> indexes) indexes = Ok blocks.

Lemma hash_bytes_valid data : is_valid_blake3_hex (hash_bytes data) = true.
Proof. unfold Erasure.hash_bytes, blake3_hex_digest. apply hexdigest_valid, Hblake3. Qed.

Definition shard_of (pack_hash : pystr) (i : nat) (data : bytes) : DataPackShard := {|
  sh_pack_hash := pack_hash; sh_index := Z.of_nat i; sh_data := data; sh_hash := hash_bytes data |}.

Lemma encode_shards_Ok pack_hash size indexes raw :
  is_valid_blake3_hex pack_hash = true → length indexes = length raw →
  Forall (λ b, length b = Z.to_nat size) raw → (0 <= size)%Z →
  encode_shards blake3 pack_hash size indexes raw = Ok (zip_with (shard_of pack_hash) indexes raw).
Proof.
  intros Hp Hlen Hraw Hs. revert raw Hlen Hraw.
  induction indexes as [|i indexes IH]; intros [|d raw] Hlen Hraw; try done. cbn [encode_shards].
  apply Forall_cons in Hraw as [Hd Hraw]. rewrite Hd, Z2Nat.id, Z.eqb_refl by done. cbn [negb].
  unfold shard_from_prehashed. rewrite (ec_hash64_Ok pack_hash Hp), (ec_hash64_Ok _ (hash_bytes_valid d)).
  rewrite ec_non_negative_Ok by lia. cbn [mbind res_bind]. rewrite IH by (cbn in *; auto; lia). done.
Qed.

(** Shards with distinct indexes of one pack pass the checks of the decoder. *)
Lemma check_selected_Ok h n seen selected :
  Forall (λ s, sh_pack_hash s = h ∧ (sh_index s < n)%Z) selected →
  NoDup (seen ++ (sh_index <$> selected)) → check_selected h n seen selected = Ok ().
Proof.
  revert seen. induction selected as [|s l IH]; intros seen Hl Hnd; [done|].
  apply Forall_cons in Hl as [[Hh Hi] Hl]. cbn [check_selected fmap list_fmap] in *.
  rewrite bool_decide_false by tauto. rewrite (proj2 (Z.leb_gt _ _)) by done.
  rewrite bool_decide_false.
  - apply IH; [done|]. by rewrite <-app_assoc.
  - apply NoDup_app in Hnd as (_ & Hd & _). intros Hin. apply (Hd _ Hin). left.
Qed.

Lemma check_shards_Ok h n size seen shards :
  Forall (λ s, sh_pack_hash s = h ∧ (sh_index s < n)%Z ∧ Z.of_nat (length (sh_data s)) = size) shards →
  NoDup (seen ++ (sh_index <$> shards)) → check_shards h n size seen shards = Ok ().
Proof.
  revert seen. induction shards as [|s l IH]; intros seen Hl Hnd; [done|].
  apply Forall_cons in Hl as [(Hh & Hi & Hs) Hl]. cbn [check_shards fmap list_fmap] in *.
  rewrite bool_decide_false by tauto. rewrite (proj2 (Z.leb_gt _ _)) by done.
  rewrite Hs, Z.eqb_refl. rewrite bool_decide_false.
  - apply IH; [done|]. by rewrite <-app_assoc.
  - apply NoDup_app in Hnd as (_ & Hd & _). intros Hin. apply (Hd _ Hin). left.
Qed.

(** The chunks a pack may hold. *)
Definition chunk_ok (chunk : pystr * bytes) : Prop :=
  chunk.1 = hash_bytes chunk.2 ∧ chunk.2 ≠ [].

Definition entry_of (offset ordinal : Z) (chunk : pystr * bytes) : DataPackEntry := {|
  en_chunk_hash := chunk.1; en_offset := offset; en_length := Z.of_nat (length chunk.2);
  en_ordinal := ordinal |}.

Fixpoint entries_from (offset ordinal : Z) (chunks : list (pystr * bytes)) : list DataPackEntry :=
  match chunks with
  | [] => []
  | c :: chunks' =>
      entry_of offset ordinal c
      :: entries_from (offset + Z.of_nat (length c.2)) (ordinal + 1) chunks'
  end.

Lemma pack_entries_Ok offset ordinal chunks :
  (0 <= offset)%Z → (0 <= ordinal)%Z → Forall chunk_ok chunks →
  pack_entries offset ordinal chunks = Ok (entries_from offset ordinal chunks).
Proof.
  revert offset ordinal. induction chunks as [|[h d] chunks IH]; intros offset ordinal Ho Hn Hc; [done|].
  apply Forall_cons in Hc as [[Hh Hd] Hc]. cbn [fst snd] in *. cbn [pack_entries entries_from].
  assert (0 < Z.of_nat (length d))%Z by (destruct d; [done|cbn; lia]).
  unfold make_entry. rewrite ec_hash64_Ok by (rewrite Hh; apply hash_bytes_valid).
  rewrite !ec_non_negative_Ok, ec_positive_Ok by done. cbn [mbind res_bind].
  by rewrite IH by (auto; lia).
Qed.

Lemma check_entries_Ok offset ordinal chunks :
  check_entries ordinal offset (entries_from offset ordinal chunks)
  = Ok (offset + Z.of_nat (length (pack_payload chunks)))%Z.
Proof.
  revert offset ordinal. induction chunks as [|[h d] chunks IH]; intros offset ordinal; cbn.
  { by rewrite Z.add_0_r. }
  rewrite !Z.eqb_refl. cbn [negb]. rewrite IH. unfold pack_payload. cbn. rewrite length_app. f_equal. lia.
Qed.

Section pack.
Context (spec : ErasureSpec) (Hdata : (0 < data_shards spec)%Z) (Hparity : (0 <= parity_shards spec)%Z).
Context (Hmds : zfec_mds (data_shards spec) (total_shards spec)).

Notation k := (data_shards spec).
Notation n := (total_shards spec).
Notation size_of payload := (block_size (Z.of_nat (length payload)) k).

(** The blocks of a payload and the shards zfec makes of them. *)
Record coded (payload : bytes) (blocks raw : list bytes) : Prop := {
  cd_blocks : length blocks = Z.to_nat k;
  cd_payload : take (length payload) (concat blocks) = payload;
  cd_raw : length raw = Z.to_nat n;
  cd_size : Forall (λ b, length b = Z.to_nat (size_of payload)) raw;
  cd_decode indexes : NoDup indexes → length indexes = Z.to_nat k →
    Forall (λ i, 0 <= i < n)%Z indexes →
    zdecode k n ((λ i, nth (Z.to_nat i) raw []) <$> indexes) indexes = Ok blocks }.

Definition pack_shards (h : pystr) (raw : list bytes) : list DataPackShard :=
  zip_with (shard_of h) (seq 0 (Z.to_nat n)) raw.

Lemma encode_Ok h payload :
  is_valid_blake3_hex h = true →
  ∃ blocks raw, encode h payload spec = Ok (pack_shards h raw) ∧ coded payload blocks raw.
Proof.
  intros Hh. unfold Erasure.encode. destruct (split_blocks_spec payload k Hdata) as (blocks & -> & Hb & Hs & Hp).
  cbn [mbind res_bind]. destruct (Hmds blocks _ Hb Hs) as (Hr & Hrs & Hdec).
  destruct (block_size_bounds (Z.of_nat (length payload)) k ltac:(lia) Hdata) as [? _].
  exists blocks, (zencode k n blocks (seq 0 (Z.to_nat n))). split; [|by split].
  apply encode_shards_Ok; [done|rewrite length_seq; symmetry; exact Hr|exact Hrs|lia].
Qed.

Lemma elem_of_pack_shards h raw s :
  length raw = Z.to_nat n →
  s ∈ pack_shards h raw ↔ ∃ i, i < Z.to_nat n ∧ s = shard_of h i (nth i raw []).
Proof.
  intros Hr. unfold pack_shards. rewrite list_elem_of_lookup. setoid_rewrite lookup_zip_with_Some. split.
  - intros (j & i & d & -> & [-> Hi]%lookup_seq & Hd). exists j. split; [done|].
    by rewrite (nth_lookup_Some _ _ _ _ Hd).
  - intros (i & Hi & ->). destruct (lookup_lt_is_Some_2 raw i) as [d Hd]; [lia|].
    exists i, i, d. rewrite (nth_lookup_Some _ _ _ _ Hd). split_and!; [done| |done].
    apply lookup_seq. lia.
Qed.

Lemma pack_shards_indexes h raw :
  length raw = Z.to_nat n → sh_index <$> pack_shards h raw = Z.of_nat <$> seq 0 (Z.to_nat n).
Proof.
  intros Hr. unfold pack_shards. assert (length (seq 0 (Z.to_nat n)) = length raw) as Hl by (rewrite length_seq; lia).
  revert Hl. clear. generalize (seq 0 (Z.to_nat n)). intros l. revert raw.
  induction l as [|i l IH]; intros [|d raw] Hl; try done. cbn. f_equal. apply IH. by injection Hl.
Qed.

(** Any [k] distinct shards of a pack decode to its payload. *)
Lemma decode_Ok payload blocks raw chosen :
  let h := hash_bytes payload in
  coded payload blocks raw → (∀ s, s ∈ chosen → s ∈ pack_shards h raw) →
  NoDup (sh_index <$> chosen) → (k <= Z.of_nat (length chosen))%Z →
  decode chosen spec (Z.of_nat (length payload)) h = Ok payload.
Proof.
  intros h [Hb Hp Hr Hs Hdec] Hin Hnd Hlen. unfold Erasure.decode.
  set (selected := take (Z.to_nat k) (sort_shards chosen)).
  assert (length selected = Z.to_nat k) as Hsel.
  { unfold selected. rewrite length_take, sort_shards_perm. lia. }
  assert (∀ s, s ∈ selected → ∃ i, i < Z.to_nat n ∧ s = shard_of h i (nth i raw [])) as Hshape.
  { intros s Hs'. apply elem_of_pack_shards; [done|]. apply Hin. rewrite <-(sort_shards_perm chosen).
    by apply elem_of_take in Hs' as (j & Hj%list_elem_of_lookup_2 & _). }
  assert (NoDup (sh_index <$> selected)) as Hnds.
  { unfold selected. eapply sublist_NoDup; [|apply sublist_fmap, sublist_take].
    by rewrite (sort_shards_perm chosen). }
  rewrite (proj2 (Z.ltb_ge _ _)) by lia. rewrite check_selected_Ok; [|apply Forall_forall|done].
  2: { intros s Hs'. destruct (Hshape s Hs') as (i & Hi & ->). cbn. split; [done|lia]. }
  cbn [mbind res_bind].
  assert (sh_data <$> selected = (λ i, nth (Z.to_nat i) raw []) <$> (sh_index <$> selected)) as ->.
  { rewrite <-list_fmap_compose. apply list_fmap_ext. intros j s Hj%list_elem_of_lookup_2.
    destruct (Hshape s Hj) as (i & Hi & ->). cbn. by rewrite Nat2Z.id. }
  rewrite Hdec; [|done|by rewrite length_fmap|].
  - cbn [mbind res_bind]. unfold py_prefix. rewrite (proj2 (Z.ltb_ge _ _)) by lia.
    rewrite Nat2Z.id, Hp. by rewrite bool_decide_false by tauto.
  - apply Forall_fmap, Forall_forall. intros s Hs'. destruct (Hshape s Hs') as (i & Hi & ->). cbn. lia.
Qed.

(** What building a pack returns. *)
Lemma build_Ok chunks :
  chunks ≠ [] → Forall chunk_ok chunks →
  let payload := pack_payload chunks in
  let h := hash_bytes payload in
  ∃ blocks raw, coded payload blocks raw ∧
    build_from_validated blake3 zencode chunks spec
    = Ok {| ep_pack_hash := h; ep_payload_size := Z.of_nat (length payload);
            ep_padded_size := (size_of payload * k)%Z; ep_shard_size := size_of payload; ep_spec := spec;
            ep_entries := entries_from 0 0 chunks; ep_shards := sort_shards (pack_shards h raw) |}.
Proof.
  intros Hne Hc payload h. pose proof (hash_bytes_valid payload) as Hh.
  destruct (encode_Ok h payload Hh) as (blocks & raw & E & Hcoded). exists blocks, raw. split; [done|].
  destruct Hcoded as [Hb Hp Hr Hs _].
  destruct (block_size_bounds (Z.of_nat (length payload)) k ltac:(lia) Hdata) as [Hpos Hle].
  unfold build_from_validated. destruct chunks as [|c0 cs]; [done|]. set (chunks := c0 :: cs) in *.
  rewrite pack_entries_Ok by (done || lia). cbn [mbind res_bind].
  fold payload. fold h. rewrite E. cbn [mbind res_bind]. rewrite block_size_max by lia.
  unfold make_pack. rewrite (ec_hash64_Ok h Hh), !ec_non_negative_Ok by nia. cbn [mbind res_bind].
  rewrite Z.eqb_refl. rewrite (proj2 (Z.ltb_ge _ _)) by lia. cbn [negb].
  assert (length (pack_shards h raw) = Z.to_nat n) as Hlen.
  { unfold pack_shards. rewrite length_zip_with, length_seq. lia. }
  rewrite Hlen, Z2Nat.id, Z.eqb_refl by (unfold total_shards; lia). cbn [negb].
  rewrite check_entries_Ok. cbn [mbind res_bind]. rewrite Z.add_0_l. fold payload. rewrite Z.eqb_refl. cbn [negb].
  rewrite check_shards_Ok; [done| |].
  - apply Forall_forall. intros s (i & Hi & ->)%elem_of_pack_shards; [|done]. cbn. split_and!; [done|lia|].
    change (Z.of_nat (length (nth i raw [])) = size_of payload).
    rewrite Forall_forall in Hs. rewrite Hs; [lia|]. apply list_elem_of_In, nth_In. lia.
  - cbn [app]. rewrite pack_shards_indexes by done. apply NoDup_fmap_2; [apply _|apply NoDup_seq].
Qed.
End pack.

(** ** Getting the chunks back *)

Lemma extract_Ok payload off ord chunks rest m :
  (0 <= off)%Z → drop (Z.to_nat off) payload = pack_payload chunks ++ rest → Forall chunk_ok chunks →
  extract_entries blake3 payload None (entries_from off ord chunks) m = Ok (chunk_map chunks m).
Proof.
  revert off ord m. induction chunks as [|[h d] chunks IH]; intros off ord m Hoff Hp Hc; [done|].
  apply Forall_cons in Hc as [[Hh Hd] Hc]. cbn [fst snd] in *.
  unfold pack_payload in Hp. cbn in Hp. rewrite <-app_assoc in Hp.
  cbn [entries_from extract_entries entry_of en_chunk_hash].
  assert (entry_data payload (entry_of off ord (h, d)) = d) as ->.
  { unfold entry_data; cbn. rewrite Nat2Z.id, Hp. by rewrite take_app_length. }
  rewrite bool_decide_false by (cbn; intros Hn; by apply Hn). cbn [chunk_map fold_left]. apply IH; [cbn; lia| |done].
  cbn. rewrite Z2Nat.inj_add, Nat2Z.id by lia. rewrite <-drop_drop, Hp. by rewrite drop_app_length.
Qed.

Lemma validated_Ok chunks :
  Forall chunk_ok chunks → mapM_res (validated_chunk_payload blake3) chunks = Ok chunks.
Proof.
  intros H. apply mapM_res_Ok. induction H as [|[h d] chunks [Hh _] _ IH]; constructor; [|done].
  cbn in Hh. unfold validated_chunk_payload; cbn. rewrite ec_hash64_Ok by (rewrite Hh; apply hash_bytes_valid).
  cbn. by rewrite bool_decide_false by (rewrite Hh; tauto).
Qed.
End facts.

(** The manifest of a pack, as the catalogue keeps it. *)
Definition pack_manifest (pack : EncodedDataPack) : res DataPackManifest :=
  make_manifest (ep_pack_hash pack) (ep_payload_size pack) (ep_padded_size pack) (ep_shard_size pack)
    (ep_spec pack) (ep_entries pack).

(** The padding of the last block is the text of the escape, not zero bytes: a one-byte
    payload in two blocks leaves a backslash in the second. *)
Lemma padding_is_text : split_primary_blocks [Byte.x41] 2 = Ok ([[Byte.x41]; [Byte.x5c]], 1%Z).
Proof. vm_compute. reflexivity. Qed.

(** ** Properties *)

(** Recovery from any [data_shards] shards of a pack. *)
Lemma any_k_recover blake3 zencode zdecode spec chunks :
  (∀ data, length (blake3 data) = 32) →
  (0 < data_shards spec)%Z → (0 <= parity_shards spec)%Z →
  zfec_mds zencode zdecode (data_shards spec) (total_shards spec) →
  chunks ≠ [] → Forall (chunk_ok blake3) chunks → NoDup chunks.*1 →
  ∃ pack manifest, build_data_pack blake3 zencode chunks spec = Ok pack ∧ pack_manifest pack = Ok manifest
    ∧ Z.of_nat (length (ep_shards pack)) = total_shards spec
    ∧ NoDup (sh_index <$> ep_shards pack)
    ∧ ∀ chosen, (∀ s, s ∈ chosen → s ∈ ep_shards pack) → NoDup (sh_index <$> chosen) →
        (data_shards spec <= Z.of_nat (length chosen))%Z →
        ∃ payload m, reconstruct_payload blake3 zdecode manifest chosen = Ok payload
          ∧ extract_pack_chunks blake3 payload manifest [] = Ok m
          ∧ ∀ h d, (h, d) ∈ chunks → m !! h = Some d.
Proof.
  intros Hb Hk Hm Hmds Hne Hc Hnd.
  destruct (build_Ok blake3 zencode zdecode Hb spec Hk Hm Hmds chunks Hne Hc) as (blocks & raw & Hcoded & E).
  set (payload := pack_payload chunks) in *. pose proof Hcoded as [_ _ Hr _ _].
  destruct (block_size_bounds (Z.of_nat (length payload)) (data_shards spec) ltac:(lia) Hk) as [Hpos Hle].
  eexists. eexists. split; [unfold build_data_pack; rewrite validated_Ok by done; exact E|].
  split; [|cbn [ep_shards]; split; [|split]].
  - unfold pack_manifest, make_manifest. cbn [ep_pack_hash ep_payload_size ep_padded_size ep_shard_size
      ep_spec ep_entries]. rewrite ec_hash64_Ok by by apply hash_bytes_valid. cbn [mbind res_bind].
    rewrite !(proj2 (Z.ltb_ge _ _)) by nia. cbn [orb]. rewrite Z.eqb_refl. reflexivity.
  - rewrite sort_shards_perm. unfold pack_shards. rewrite length_zip_with, length_seq.
    unfold total_shards in *. lia.
  - rewrite (sort_shards_perm (pack_shards _ _ _ _)), pack_shards_indexes by done.
    apply NoDup_fmap_2; [apply _|apply NoDup_seq].
  - intros chosen Hch Hndc Hlen. exists payload, (chunk_map chunks ∅). split_and!.
    + unfold reconstruct_payload. cbn [mf_spec mf_payload_size mf_pack_hash].
      eapply decode_Ok; try done.
      intros s Hs%Hch. by rewrite sort_shards_perm in Hs.
    + unfold extract_pack_chunks. cbn [mbind res_bind mf_entries].
      apply (extract_Ok blake3 payload 0 0 chunks []); [lia|by rewrite drop_0, app_nil_r|done].
    + intros h d. by apply chunk_map_lookup.
Qed.

(** C24: any [data_shards] of the shards recover every chunk: for a valid specification, the
    pack of non-empty chunks is built, and from any choice of at least [data_shards] of its
    shards with different indexes the payload is reconstructed and every chunk comes back
    with its data, whichever shards are lost. *)
Theorem any_k_shards_recover blake3 zencode zdecode spec chunks :
  (∀ data, length (blake3 data) = 32) →
  (0 < data_shards spec)%Z → (0 <= parity_shards spec)%Z →
  zfec_mds zencode zdecode (data_shards spec) (total_shards spec) →
  chunks ≠ [] → Forall (chunk_ok blake3) chunks → NoDup chunks.*1 →
  ∃ pack manifest, build_data_pack blake3 zencode chunks spec = Ok pack ∧ pack_manifest pack = Ok manifest
    ∧ Z.of_nat (length (ep_shards pack)) = total_shards spec
    ∧ NoDup (sh_index <$> ep_shards pack)
    ∧ ∀ chosen, (∀ s, s ∈ chosen → s ∈ ep_shards pack) → NoDup (sh_index <$> chosen) →
        (data_shards spec <= Z.of_nat (length chosen))%Z →
        ∃ payload m, reconstruct_payload blake3 zdecode manifest chosen = Ok payload
          ∧ extract_pack_chunks blake3 payload manifest [] = Ok m
          ∧ ∀ h d, (h, d) ∈ chunks → m !! h = Some d.
Proof. apply any_k_recover. Qed.

(** Whole copies: the code with one data shard. *)
Definition copy_encode (k n : Z) (blocks : list bytes) (indexes : list nat) : list bytes :=
  (λ _, concat blocks) <$> indexes.
Definition copy_decode (k n : Z) (shards : list bytes) (indexes : list Z) : res (list bytes) := Ok (take 1 shards).

Lemma copy_mds n : (0 <= n)%Z → zfec_mds copy_encode copy_decode 1 n.
Proof.
  intros Hn [|b [|]] size Hlen Hb; try done. cbn zeta. rewrite Forall_singleton in Hb.
  unfold copy_encode. cbn [concat]. rewrite app_nil_r. split_and!.
  - by rewrite length_fmap, length_seq.
  - apply Forall_fmap, Forall_forall. intros i _. exact Hb.
  - intros [|i [|]] _ Hl Hi; try done. rewrite Forall_singleton in Hi. cbn. do 2 f_equal.
    rewrite (nth_lookup_Some _ _ _ b); [done|]. rewrite list_lookup_fmap, lookup_seq_lt; [done|lia].
Qed.

Definition example_spec : ErasureSpec := {| data_shards := 1; parity_shards := 2; es_codec := u "zfec" |}.
Definition const_digest (data : bytes) : bytes := repeat (default Byte.x00 (head data)) 32.
Definition example_chunks : list (pystr * bytes) :=
  [(hash_bytes const_digest [Byte.x01; Byte.x02], [Byte.x01; Byte.x02]);
   (hash_bytes const_digest [Byte.x03], [Byte.x03])].

Lemma any_k_shards_recover_witness :
  ∃ pack manifest, build_data_pack const_digest copy_encode example_chunks example_spec = Ok pack
    ∧ pack_manifest pack = Ok manifest ∧ Z.of_nat (length (ep_shards pack)) = 3%Z.
Proof.
  destruct (any_k_shards_recover const_digest copy_encode copy_decode example_spec example_chunks
    ltac:(intros; apply repeat_length) ltac:(done) ltac:(done) (copy_mds 3 ltac:(lia)) ltac:(done)
    ltac:(repeat constructor; done) ltac:(by_compute)) as (pack & manifest & E & Em & Hl & _).
  exists pack, manifest. split; [exact E|]. split; [exact Em|exact Hl].
Defined.

Lemma extract_sound blake3 payload wanted entries m m' :
  extract_entries blake3 payload wanted entries m = Ok m' →
  (∀ h d, m !! h = Some d → hash_bytes blake3 d = h) → ∀ h d, m' !! h = Some d → hash_bytes blake3 d = h.
Proof.
  revert m. induction entries as [|e entries IH]; intros m H Hm; cbn in H; [by simplify_eq|].
  destruct (match wanted with Some w => _ | None => false end); [by eapply IH|].
  case_bool_decide as E; [done|]. eapply IH; [exact H|]. intros h d. rewrite lookup_insert.
  case_decide; [|apply Hm]. congruence.
Qed.

Lemma make_pack_hash h ps pd ss spec entries shards pack :
  make_pack h ps pd ss spec entries shards = Ok pack → ep_pack_hash pack = strip h.
Proof.
  unfold make_pack. intros H. apply bind_Ok in H as (h' & Hh & H).
  do 3 (apply bind_Ok in H as (? & _ & H)). do 3 (destruct (_ : bool); [done|]).
  apply bind_Ok in H as (? & _ & H). destruct (negb _); [done|].
  apply bind_Ok in H as (? & _ & H). injection H as <-. cbn.
  unfold ec_require_hash64 in Hh. destruct (is_valid_blake3_hex _); [|done]. by injection Hh as <-.
Qed.

Lemma built_hash blake3 zencode cs spec pack :
  build_from_validated blake3 zencode cs spec = Ok pack →
  ep_pack_hash pack = hash_bytes blake3 (pack_payload cs).
Proof.
  unfold build_from_validated. destruct cs as [|c0 cs0]; [done|]. intros H.
  apply bind_Ok in H as (? & _ & H). apply bind_Ok in H as (? & _ & H).
  apply make_pack_hash in H as ->. apply strip_hex, hexdigest_hex.
Qed.

(** Two different byte strings with one digest. *)
Definition collision (blake3 : bytes → bytes) : Prop := ∃ a b, a ≠ b ∧ blake3 a = blake3 b.

Lemma same_hash blake3 a b : hash_bytes blake3 a = hash_bytes blake3 b → a = b ∨ collision blake3.
Proof.
  intros H%hexdigest_inj. destruct (decide (a = b)); [by left|]. right. by exists a, b.
Qed.

(** C25: bad shards never give bad data: whatever shards are offered (missing, corrupt,
    repeated or from another pack) and whatever zfec makes of them, reconstruction from
    the manifest of a pack either fails or gives the payload the pack was built from, and
    extraction gives each chunk its own data; anything else exhibits a BLAKE3 collision. *)
Theorem bad_shards_never_lie blake3 zencode zdecode spec chunks pack manifest shards payload wanted m :
  build_data_pack blake3 zencode chunks spec = Ok pack → pack_manifest pack = Ok manifest →
  reconstruct_payload blake3 zdecode manifest shards = Ok payload →
  extract_pack_chunks blake3 payload manifest wanted = Ok m →
  (payload = pack_payload chunks ∨ collision blake3)
  ∧ ∀ c d, c ∈ chunks → m !! strip c.1 = Some d → d = c.2 ∨ collision blake3.
Proof.
  intros Hbuild Hman Hrec Hext.
  unfold build_data_pack in Hbuild. apply bind_Ok in Hbuild as (cs & Hcs & Hbuild). apply mapM_res_Ok in Hcs.
  assert (pack_payload cs = pack_payload chunks ∧
    ∀ c, c ∈ chunks → hash_bytes blake3 c.2 = strip c.1) as [Epay Hvalid].
  { clear -Hcs. induction Hcs as [|c c' l l' Hc _ [IH1 IH2]]; [split; [done|by intros ? ?%elem_of_nil]|].
    unfold validated_chunk_payload, ec_require_hash64 in Hc.
    destruct (is_valid_blake3_hex _); [|done]. cbn in Hc. case_bool_decide as E; [done|]. injection Hc as <-.
    unfold pack_payload in *. cbn. rewrite IH1. split; [done|].
    intros x [->|Hx]%elem_of_cons; [done|by apply IH2]. }
  split.
  - rewrite <-Epay. apply same_hash.
    assert (mf_pack_hash manifest = hash_bytes blake3 (pack_payload cs)) as <-.
    { rewrite <-(built_hash _ _ _ _ _ Hbuild). unfold pack_manifest, make_manifest in Hman.
      apply bind_Ok in Hman as (? & _ & Hman). destruct (_ || _); [done|].
      destruct (negb _); [done|]. by injection Hman as <-. }
    unfold reconstruct_payload, decode in Hrec. destruct (_ <? _)%Z; [done|].
    apply bind_Ok in Hrec as (? & _ & Hrec). apply bind_Ok in Hrec as (bs & _ & Hrec).
    case_bool_decide as E; [done|]. injection Hrec as <-. done.
  - intros c d Hc Hm. apply same_hash. rewrite Hvalid by done.
    unfold extract_pack_chunks in Hext. apply bind_Ok in Hext as (w & _ & Hext).
    by apply (extract_sound _ _ _ _ _ _ Hext).
Qed.

(** Losing the first two shards of a pack and recovering its chunks. *)
Definition example_recovery : res (bytes * gmap pystr bytes) :=
  pack ← build_data_pack const_digest copy_encode example_chunks example_spec;
  manifest ← pack_manifest pack;
  payload ← reconstruct_payload const_digest copy_decode manifest (drop 2 (ep_shards pack));
  m ← extract_pack_chunks const_digest payload manifest [];
  Ok (payload, m).

Lemma example_recovery_ok : is_ok example_recovery = true.
Proof. vm_compute. reflexivity. Qed.

Lemma bad_shards_never_lie_witness :
  ∃ payload m, example_recovery = Ok (payload, m)
    ∧ (payload = pack_payload example_chunks ∨ collision const_digest).
Proof.
  pose proof example_recovery_ok as H. unfold example_recovery in *.
  destruct (build_data_pack _ _ _ _) as [pack|] eqn:E1; [|done]. cbn [mbind res_bind] in *.
  destruct (pack_manifest _) as [manifest|] eqn:E2; [|done]. cbn [mbind res_bind] in *.
  destruct (reconstruct_payload _ _ _ _) as [payload|] eqn:E3; [|done]. cbn [mbind res_bind] in *.
  destruct (extract_pack_chunks _ _ _ _) as [m|] eqn:E4; [|done]. cbn [mbind res_bind].
  exists payload, m. split; [reflexivity|].
  exact (proj1 (bad_shards_never_lie const_digest copy_encode copy_decode example_spec example_chunks
    pack manifest _ payload _ m E1 E2 E3 E4)).
Defined.

(** ** The open pack *)

(** What has been added is what is there, and only a single chunk may exceed the target. *)
Record builder_wf (b : DataPackBuilder) : Prop := {
  bw_size : pb_current_size b = Z.of_nat (length (pack_payload (pb_chunks b)));
  bw_bound : length (pb_chunks b) ≤ 1 ∨ (pb_current_size b <= pb_target_size_bytes b)%Z }.

(** One call on a builder that returned. *)
Inductive bstep blake3 zencode (b : DataPackBuilder) : DataPackBuilder → Prop :=
  | bs_add c full b' : append_validated_chunk c b = (Ok full, b') → bstep blake3 zencode b b'
  | bs_flush r b' : flush blake3 zencode b = (r, b') → bstep blake3 zencode b b'.

Lemma payload_app cs c : pack_payload (cs ++ [c]) = pack_payload cs ++ c.2.
Proof. unfold pack_payload. rewrite fmap_app, concat_app. cbn. by rewrite app_nil_r. Qed.

Lemma append_spec c b :
  append_validated_chunk c b
  = if negb (is_empty b) && (pb_target_size_bytes b <? pb_current_size b + Z.of_nat (length c.2))%Z
    then (Err coding_error, b)
    else let b' := {| pb_spec := pb_spec b; pb_target_size_bytes := pb_target_size_bytes b;
                      pb_chunks := pb_chunks b ++ [c];
                      pb_current_size := pb_current_size b + Z.of_nat (length c.2) |} in
         (Ok (pb_target_size_bytes b <=? pb_current_size b')%Z, b').
Proof.
  unfold append_validated_chunk. rewrite sm_bind_spec. cbn [sget]. rewrite sm_bind_spec. cbn [slift].
  unfold would_exceed_target. rewrite (proj2 (Z.ltb_ge _ _)) by lia. by destruct (_ && _).
Qed.

Lemma flush_spec blake3 zencode b :
  (pb_chunks b = [] ∧ flush blake3 zencode b = (Ok None, b))
  ∨ (∃ e, flush blake3 zencode b = (Err e, b))
  ∨ ∃ pack, build_from_validated blake3 zencode (pb_chunks b) (pb_spec b) = Ok pack
      ∧ flush blake3 zencode b = (Ok (Some pack),
          {| pb_spec := pb_spec b; pb_target_size_bytes := pb_target_size_bytes b; pb_chunks := [];
             pb_current_size := 0 |}).
Proof.
  unfold flush. rewrite sm_bind_spec. cbn [sget]. unfold is_empty. case_bool_decide; [by left|right].
  rewrite sm_bind_spec. cbn [slift]. destruct (build_from_validated _ _ _ _) as [pack|e] eqn:E; [right|left]; eauto.
Qed.

Lemma bstep_wf blake3 zencode b b' :
  bstep blake3 zencode b b' → builder_wf b →
  builder_wf b' ∧ pb_target_size_bytes b' = pb_target_size_bytes b ∧ pb_spec b' = pb_spec b.
Proof.
  intros [c full b1 H|r b1 H] [Hs Hb].
  - rewrite append_spec in H. destruct (_ && _) eqn:E; [done|]. injection H as _ <-. split_and!; [|done..].
    split; cbn [pb_current_size pb_chunks pb_target_size_bytes]; [rewrite payload_app, length_app; lia|].
    rewrite length_app. cbn [length].
    apply andb_false_iff in E as [E|E]; bool_hyps.
    + unfold is_empty in E. bool_hyps. left. replace (pb_chunks b) with ([] : list (pystr * bytes)) by done.
      cbn. lia.
    + by right.
  - destruct (flush_spec blake3 zencode b) as [[_ E]|[[e E]|(pack & _ & E)]]; rewrite E in H; injection H as _ <-;
      split_and!; try done; by split; cbn; [|left; lia].
Qed.

(** packs respect their target size: after any calls that returned, the recorded size
    is the size of the open pack, and a pack of several chunks never exceeds the target;
    the next flush either keeps the open pack as it was or returns the pack with the
    hash, the size and the chunks that were added, in order, and leaves nothing open. *)
Theorem builder_bounded blake3 zencode spec target b0 b :
  new_builder spec target = Ok b0 → rtc (bstep blake3 zencode) b0 b →
  builder_wf b ∧ target = VInt (pb_target_size_bytes b) ∧ pb_spec b = spec
  ∧ match flush blake3 zencode b with
    | (Ok (Some pack), b') =>
        pb_chunks b' = [] ∧ pb_current_size b' = 0%Z
        ∧ ep_pack_hash pack = hash_bytes blake3 (pack_payload (pb_chunks b))
        ∧ build_from_validated blake3 zencode (pb_chunks b) spec = Ok pack
    | (Ok None, b') => pb_chunks b = [] ∧ b' = b
    | (Err _, b') => b' = b
    end.
Proof.
  intros Hnew Hsteps. unfold new_builder in Hnew. apply bind_Ok in Hnew as (t & Ht & Hnew).
  apply require_positive_Ok in Ht as [-> Ht]. injection Hnew as <-.
  assert (builder_wf b ∧ pb_target_size_bytes b = t ∧ pb_spec b = spec) as (Hwf & <- & Hspec).
  { remember {| pb_spec := spec; pb_target_size_bytes := t; pb_chunks := []; pb_current_size := 0 |} as b0 eqn:E.
    assert (builder_wf b0 ∧ pb_target_size_bytes b0 = t ∧ pb_spec b0 = spec) as H
      by (subst b0; split_and!; [split; cbn; [done|left; lia]|done|done]).
    clear E. induction Hsteps as [|x y z Hxy _ IH]; [done|]. apply IH.
    destruct H as (H1 & <- & <-). by apply (bstep_wf blake3 zencode). }
  split_and!; [done..|].
  destruct (flush_spec blake3 zencode b) as [[E ->]|[[e ->]|(pack & E & ->)]]; [done..|].
  split_and!; [done|done| |by rewrite <-Hspec]. by apply built_hash in E.
Qed.

Lemma builder_bounded_witness :
  ∃ b0, new_builder example_spec (VInt 2) = Ok b0 ∧ builder_wf b0.
Proof.
  eexists. split; [vm_compute; reflexivity|].
  apply (builder_bounded const_digest copy_encode example_spec (VInt 2) _ _ ltac:(vm_compute; reflexivity)
    (rtc_refl _ _)).
Defined.
