(* ===== verification/ErasurePlacement.v ===== *)
(** * Where the shards of a pack go

    [protection/ec/placement.py]: one distinct remote node per shard, chosen by HRW on the
    hash of the pack. *)

From S2P Require Import Prelude PyStr Common Json Heapq Hrw Cluster Erasure.

Record DataPackShardPlacement := {
  pl_pack_hash : pystr; pl_shard_index : Z; pl_node_id : pystr; pl_address : pystr }.

(** [DataPackShardPlacement(...)] *)
Definition make_placement (pack_hash : pystr) (shard_index : Z) (node_id address : pystr)
  : res DataPackShardPlacement :=
  h ← ec_require_hash64 pack_hash;
  i ← ec_non_negative shard_index;
  let node_id := strip node_id in
  let address := strip address in
  if bool_decide (node_id = []) then Err ErasureCodingNetworkError
  else if bool_decide (address = []) then Err ErasureCodingNetworkError
  else Ok {| pl_pack_hash := h; pl_shard_index := i; pl_node_id := node_id; pl_address := address |}.

(** [enumerate(members)] *)
Fixpoint placements_for (pack_hash : pystr) (shard_index : Z) (members : list ClusterMember)
  : res (list DataPackShardPlacement) :=
  match members with
  | [] => Ok []
  | m :: ms =>
      p ← make_placement pack_hash shard_index (cm_node_id m) (cm_address m);
      ps ← placements_for pack_hash (shard_index + 1) ms;
      Ok (p :: ps)
  end.

(** [_require_distinct_nodes] *)
Definition require_distinct_nodes (ps : list DataPackShardPlacement) : res unit :=
  raise_if (negb (length (pl_node_id <$> ps) =? length (ordered_unique (pl_node_id <$> ps)))%nat)
    ErasureCodingError.

Definition plan_data_pack_shard_placement (blake3 : bytes → bytes) (pack_hash : pystr) (spec : ErasureSpec)
    (cluster : ClusterView) (origin_node_id cluster_token : pystr) : res (list DataPackShardPlacement) :=
  pack_hash ← ec_require_hash64 pack_hash;
  let origin_node_id := strip origin_node_id in
  if bool_decide (origin_node_id = []) then Err ErasureCodingConfigError
  else
    let cluster_self_node_id := strip (default [] (self_node_id cluster)) in
    if bool_decide (origin_node_id ∉ node_ids cluster) && bool_decide (origin_node_id ≠ cluster_self_node_id)
    then Err ErasureCodingConfigError
    else
      let members := hrw_targets_excluding blake3 cluster pack_hash (total_shards spec) cluster_token
                       [origin_node_id] in
      if (Z.of_nat (length members) <? total_shards spec)%Z then Err ErasureCodingNetworkError
      else
        placements ← placements_for pack_hash 0 members;
        _ ← require_distinct_nodes placements;
        Ok placements.

(** ** Facts *)

Lemma placements_for_Ok h i ms ps :
  placements_for h i ms = Ok ps →
  Forall2 (λ m p, pl_node_id p = strip (cm_node_id m) ∧ pl_address p = strip (cm_address m)
             ∧ pl_node_id p ≠ [] ∧ pl_address p ≠ [] ∧ pl_pack_hash p = strip h) ms ps
  ∧ pl_shard_index <$> ps = (λ n, (i + Z.of_nat n)%Z) <$> seq 0 (length ms).
Proof.
  revert i ps. induction ms as [|m ms IH]; intros i ps H; cbn in H; [by simplify_eq|].
  apply bind_Ok in H as (p & Hp & H). apply bind_Ok in H as (ps' & Hps & H). injection H as <-.
  unfold make_placement, ec_require_hash64 in Hp. destruct (is_valid_blake3_hex _); [|done]. cbn [mbind res_bind] in Hp.
  apply bind_Ok in Hp as (i' & Hi & Hp). apply (require_non_negative_Ok (VInt i)) in Hi as [[= <-] _].
  case_bool_decide; [done|]. case_bool_decide; [done|]. injection Hp as <-.
  destruct (IH _ _ Hps) as [H1 H2]. split; [constructor; [by split_and!|done]|].
  cbn [fmap list_fmap length seq]. cbn [pl_shard_index]. rewrite H2, Z.add_0_r. f_equal.
  rewrite <-seq_shift, <-list_fmap_compose. apply list_fmap_ext. intros. cbn. lia.
Qed.

Lemma distinct_Ok ps : require_distinct_nodes ps = Ok () → NoDup (pl_node_id <$> ps).
Proof.
  unfold require_distinct_nodes. intros H%raise_if_Ok. bool_hyps.
  set (l := pl_node_id <$> ps) in *. clearbody l.
  assert (ordered_unique l ⊆+ l) as Hs.
  { apply NoDup_submseteq; [apply NoDup_ordered_unique|]. intros x. by rewrite elem_of_ordered_unique. }
  apply submseteq_length_Permutation in Hs; [|lia]. rewrite <-Hs. apply NoDup_ordered_unique.
Qed.

Lemma plan_distinct blake3 h spec cluster origin token ps :
  plan_data_pack_shard_placement blake3 h spec cluster origin token = Ok ps →
  Forall (λ m, strip (cm_node_id m) = cm_node_id m) (members cluster) → (0 <= total_shards spec)%Z →
  pl_shard_index <$> ps = Z.of_nat <$> seq 0 (Z.to_nat (total_shards spec))
  ∧ NoDup (pl_node_id <$> ps)
  ∧ ∀ p, p ∈ ps → pl_node_id p ≠ strip origin ∧ pl_pack_hash p = strip h
      ∧ ∃ m, m ∈ members cluster ∧ cm_node_id m = pl_node_id p ∧ strip (cm_address m) = pl_address p.
Proof.
  unfold plan_data_pack_shard_placement. intros H Hids Hn.
  apply bind_Ok in H as (h' & Hh & H). case_bool_decide as Ho; [done|]. destruct (_ && _); [done|].
  destruct (Z.ltb_spec (Z.of_nat (length (hrw_targets_excluding blake3 cluster h' (total_shards spec) token
    [strip origin]))) (total_shards spec)) as [|Hge]; [done|].
  apply bind_Ok in H as (ps' & Hps & H). apply bind_Ok in H as ([] & Hd & H). injection H as ->.
  apply distinct_Ok in Hd. destruct (placements_for_Ok _ _ _ _ Hps) as [H1 H2].
  set (ms := hrw_targets_excluding _ _ _ _ _ _) in *.
  assert (length ms = Z.to_nat (total_shards spec)) as Hlen.
  { enough (Z.of_nat (length ms) <= total_shards spec)%Z by lia. unfold ms.
    rewrite <-(length_fmap cm_node_id), targets_node_ids, hrw_top_k_ranking, length_fmap, length_take. lia. }
  split_and!; [|done|].
  - rewrite H2, Hlen. by apply list_fmap_ext.
  - intros p [i Hi]%list_elem_of_lookup.
    destruct (Forall2_lookup_r _ _ _ _ _ H1 Hi) as (m & Hm & E1 & E2 & _ & _ & E3).
    apply list_elem_of_lookup_2 in Hm. apply targets_sound in Hm as (Hm & _ & Hex).
    rewrite Forall_forall in Hids. rewrite (Hids m Hm) in E1. split_and!.
    + rewrite E1. intros E. apply Hex. rewrite E. left.
    + rewrite E3. unfold ec_require_hash64 in Hh. destruct (is_valid_blake3_hex _); [|done].
      injection Hh as <-. apply strip_idem.
    + exists m. by split_and!.
Qed.

(** ** Properties *)

(** the shards of a pack survive the loss of any of their nodes one by one: a plan has
    exactly one placement per shard index, in order, for the hash of the pack, on pairwise
    distinct members of the view other than the origin. *)
Theorem shards_on_distinct_nodes blake3 h spec cluster origin token ps :
  plan_data_pack_shard_placement blake3 h spec cluster origin token = Ok ps →
  Forall (λ m, strip (cm_node_id m) = cm_node_id m) (members cluster) → (0 <= total_shards spec)%Z →
  pl_shard_index <$> ps = Z.of_nat <$> seq 0 (Z.to_nat (total_shards spec))
  ∧ NoDup (pl_node_id <$> ps)
  ∧ ∀ p, p ∈ ps → pl_node_id p ≠ strip origin ∧ pl_pack_hash p = strip h
      ∧ ∃ m, m ∈ members cluster ∧ cm_node_id m = pl_node_id p ∧ strip (cm_address m) = pl_address p.
Proof. apply plan_distinct. Qed.

Definition example_view : ClusterView :=
  {| self_node_id := Some [97%N];
     members := (λ n, {| cm_node_id := [n]; cm_address := [n; 58%N; 49%N] |}) <$> [97; 98; 99; 100]%N |}.

Lemma shards_on_distinct_nodes_witness :
  ∃ ps, plan_data_pack_shard_placement (λ b, b) (repeat 97%N 64) example_spec example_view [97%N] (u "t") = Ok ps
    ∧ NoDup (pl_node_id <$> ps) ∧ length ps = 3.
Proof.
  eexists. split; [vm_compute; reflexivity|]. split; [|reflexivity].
  apply (shards_on_distinct_nodes (λ b, b) (repeat 97%N 64) example_spec example_view [97%N] (u "t") _
    ltac:(vm_compute; reflexivity)); by_compute.
Defined.
