(* ===== verification/Cas.v ===== *)
(** * The content-addressed store of chunks

    [cas/repository.py]: chunk files named by the BLAKE3 digest of their uncompressed
    content, written once through a temporary file. Zstandard and BLAKE3 are parameters.
    What the operating system answers, and what other processes and threads do between the
    steps of a write, is an argument of each operation. *)

From S2P Require Import Prelude PyStr Common Files.

(** ** State *)

(** The chunk files by path, the directories that exist, and the directories the
    repository remembers as created ([_ensured_dirs]). *)
Record CasState := {
  cas_files : gmap pystr bytes;
  cas_dirs : gset pystr;
  cas_ensured : gset pystr }.

Definition with_files (f : gmap pystr bytes → gmap pystr bytes) (s : CasState) : CasState := {|
  cas_files := f (cas_files s); cas_dirs := cas_dirs s; cas_ensured := cas_ensured s |}.

Inductive ReplaceOutcome := Replaced | ReplaceNotFound | ReplaceFailed.

(** The surroundings of one write, by attempt: whether [makedirs] fails, whether writing the
    temporary file fails, what others do before it is published, and what [os.replace]
    answers when the directory is there. *)
Record CasEnv := {
  ce_mkdir_fails : nat → bool;
  ce_write_fails : nat → bool;
  ce_others : nat → CasState → CasState;
  ce_replace : nat → ReplaceOutcome }.

Section repository.
Context (data_folder : pystr).

(** ** Paths *)

Definition chunk_dir (chunk_hash : pystr) : pystr :=
  path_join (path_join data_folder (take 2 chunk_hash)) (take 2 (drop 2 chunk_hash)).

Definition chunk_path (chunk_hash : pystr) : pystr := path_join (chunk_dir chunk_hash) chunk_hash.

Definition exists_local (s : CasState) (chunk_hash : pystr) : bool :=
  bool_decide (is_Some (cas_files s !! chunk_path chunk_hash)).

(** ** Writing *)

(** [_ensure_parent_dir]; a path is given by the hash it belongs to. *)
Definition ensure_parent_dir (fails : bool) (chunk_hash : pystr) : SM CasState unit :=
  s ← sget;
  let parent := chunk_dir chunk_hash in
  if bool_decide (parent ∈ cas_ensured s) then mret ()
  else if fails then sraise CASRepositoryError
  else sput {| cas_files := cas_files s; cas_dirs := {[parent]} ∪ cas_dirs s;
               cas_ensured := {[parent]} ∪ cas_ensured s |}.

(** [_forget_parent_dir] *)
Definition forget_parent_dir (chunk_hash : pystr) : SM CasState unit :=
  smodify (λ s, {| cas_files := cas_files s; cas_dirs := cas_dirs s;
                   cas_ensured := cas_ensured s ∖ {[chunk_dir chunk_hash]} |}).

(** One turn of the loop of [_write_once]: [None] asks for another attempt. Opening the
    temporary file in a missing directory is an OSError like any other, and becomes a
    CASRepositoryError inside the turn. *)
Definition write_attempt (env : CasEnv) (attempt : nat) (chunk_hash : pystr) (data : bytes)
  : SM CasState (option bool) :=
  ensure_parent_dir (ce_mkdir_fails env attempt) chunk_hash;;
  s ← sget;
  if bool_decide (chunk_dir chunk_hash ∉ cas_dirs s) || ce_write_fails env attempt
  then sraise CASRepositoryError
  else
    smodify (ce_others env attempt);;
    s ← sget;
    let outcome := if bool_decide (chunk_dir chunk_hash ∈ cas_dirs s) then ce_replace env attempt
                   else ReplaceNotFound in
    match outcome with
    | Replaced =>
        smodify (with_files (<[chunk_path chunk_hash := data]>));;
        mret (Some true)
    | ReplaceNotFound =>
        if (attempt =? 0)%nat then forget_parent_dir chunk_hash;; mret None
        else sraise CASRepositoryError
    | ReplaceFailed =>
        if exists_local s chunk_hash then mret (Some false) else sraise CASRepositoryError
    end.

(** [_write_once]: true when this call published the data. *)
Definition write_once (env : CasEnv) (chunk_hash : pystr) (data : bytes) : SM CasState bool :=
  s ← sget;
  if exists_local s chunk_hash then mret false
  else
    first ← write_attempt env 0 chunk_hash data;
    match first with
    | Some written => mret written
    | None =>
        second ← write_attempt env 1 chunk_hash data;
        mret (default false second)
    end.

Section codec.
Context (blake3 : bytes → bytes) (compress : bytes → bytes) (decompress : bytes → res bytes).

Definition put (env : CasEnv) (chunk_hash : pystr) (raw_data : bytes) : SM CasState bool :=
  write_once env chunk_hash (compress raw_data).

Definition put_compressed (env : CasEnv) (chunk_hash : pystr) (compressed_data : bytes)
  : SM CasState bool :=
  write_once env chunk_hash compressed_data.

(** ** Reading *)

(** [read_fails]: the operating system refuses to read a file that is there. *)
Definition get_compressed (s : CasState) (read_fails : bool) (chunk_hash : pystr) : res bytes :=
  match cas_files s !! chunk_path chunk_hash with
  | None => Err CASMissingChunkError
  | Some data => if read_fails then Err CASRepositoryError else Ok data
  end.

Definition decompress_and_validate (chunk_hash : pystr) (compressed_data : bytes) : res bytes :=
  match decompress compressed_data with
  | Err ZstdError => Err CASCorruptionError
  | Err e => Err e
  | Ok raw_data =>
      if bool_decide (blake3_hex_digest blake3 raw_data ≠ chunk_hash) then Err CASCorruptionError
      else Ok raw_data
  end.

Definition get (s : CasState) (read_fails : bool) (chunk_hash : pystr) : res bytes :=
  compressed_data ← get_compressed s read_fails chunk_hash;
  decompress_and_validate chunk_hash compressed_data.

Definition get_validated_compressed (s : CasState) (read_fails : bool) (chunk_hash : pystr)
  : res bytes :=
  compressed_data ← get_compressed s read_fails chunk_hash;
  _ ← decompress_and_validate chunk_hash compressed_data;
  Ok compressed_data.

End codec.
End repository.

(** ** Paths identify hashes *)

Lemma chunk_path_inj data_folder h h' :
  length h = length h' → chunk_path data_folder h = chunk_path data_folder h' → h = h'.
Proof.
  intros Hl. unfold chunk_path.
  destruct (path_join_suffix (chunk_dir data_folder h) h) as [p ->].
  destruct (path_join_suffix (chunk_dir data_folder h') h') as [p' ->].
  intros E. by apply app_inj_2 in E as [_ ?].
Qed.

(** ** What a store promises *)

(** Every chunk file holds content that [good] accepts for its hash. *)
Definition store_ok (data_folder : pystr) (good : pystr → bytes → Prop) (s : CasState) : Prop :=
  ∀ h d, is_valid_blake3_hex h = true → cas_files s !! chunk_path data_folder h = Some d → good h d.

(** No chunk file disappears. *)
Definition grows (s s' : CasState) : Prop :=
  ∀ p, is_Some (cas_files s !! p) → is_Some (cas_files s' !! p).

#[export] Instance grows_preorder : PreOrder grows.
Proof. split; [by intros s p|]. intros s1 s2 s3 H1 H2 p Hp. by apply H2, H1. Qed.

(** The step keeps the chunks there and good content good. *)
Definition store_step (data_folder : pystr) (good : pystr → bytes → Prop) (s s' : CasState) : Prop :=
  grows s s' ∧ (store_ok data_folder good s → store_ok data_folder good s').

#[export] Instance store_step_preorder data_folder good : PreOrder (store_step data_folder good).
Proof.
  split; [by split|]. intros s1 s2 s3 [G1 K1] [G2 K2]. split; [by etransitivity|auto].
Qed.

(** What the others do to the store respects its contract too. *)
Definition good_neighbours (data_folder : pystr) (good : pystr → bytes → Prop) (env : CasEnv) : Prop :=
  ∀ n s, store_step data_folder good s (ce_others env n s).

Section writing.
Context (data_folder : pystr) (good : pystr → bytes → Prop) (env : CasEnv) (h : pystr) (data : bytes).
Context (Hnb : good_neighbours data_folder good env).
Context (Hh : is_valid_blake3_hex h = true) (Hgood : good h data).

Notation step := (store_step data_folder good).
Notation path := (chunk_path data_folder h).

Lemma same_files_step s s' : cas_files s' = cas_files s → step s s'.
Proof. intros E. split; [intros p|intros K h' d]; rewrite E; auto. Qed.

Lemma publish_step s : step s (with_files <[path := data]> s).
Proof.
  split.
  - intros p [x Hx]. cbn. destruct (decide (p = path)) as [->|]; rewrite ?lookup_insert_eq; [eauto|].
    rewrite lookup_insert_ne by done. eauto.
  - intros K h' d Hv. cbn. destruct (decide (path = chunk_path data_folder h')) as [E|E].
    + rewrite <-E, lookup_insert_eq. intros [= <-].
      assert (h' = h) as ->; [|done]. symmetry. eapply chunk_path_inj; [|exact E].
      by rewrite !valid_hash_length.
    + rewrite lookup_insert_ne by done. by apply K.
Qed.

Lemma ensure_parent_spec fails s :
  let '(r, s') := ensure_parent_dir data_folder fails h s in
  cas_files s' = cas_files s ∧ (r = Ok () ∨ r = Err CASRepositoryError).
Proof.
  unfold ensure_parent_dir. rewrite sm_bind_spec. cbn [sget].
  case_bool_decide; [by split; [|left]|]. destruct fails; cbn; auto.
Qed.

(** A turn of the loop: others' changes apart, only the complete data is ever published. *)
Lemma write_attempt_spec n s :
  let '(r, s') := write_attempt data_folder env n h data s in
  step s s'
  ∧ match r with
    | Ok (Some b) => is_Some (cas_files s' !! path) ∧ (b = true → cas_files s' !! path = Some data)
    | Ok None => n = 0
    | Err e => e = CASRepositoryError
    end.
Proof.
  unfold write_attempt. rewrite sm_bind_spec.
  pose proof (ensure_parent_spec (ce_mkdir_fails env n) s) as Hp.
  destruct (ensure_parent_dir _ _ _ s) as [[[]|e] s1]; destruct Hp as [Ef Hr];
    [|split; [by apply same_files_step|naive_solver]].
  apply same_files_step in Ef as Hs1. rewrite sm_bind_spec. cbn [sget].
  destruct (_ || _); [by split|]. rewrite sm_bind_spec. cbn [smodify]. rewrite sm_bind_spec. cbn [sget].
  set (s2 := ce_others env n s1). assert (step s s2) as Hs2 by (etransitivity; [exact Hs1|apply Hnb]).
  destruct (if bool_decide _ then _ else _).
  - rewrite sm_bind_spec. cbn [smodify]. cbn. split.
    + etransitivity; [exact Hs2|apply publish_step].
    + rewrite lookup_insert_eq. eauto.
  - destruct (n =? 0)%nat eqn:En; bool_hyps; [|by split]. split; [|done].
    etransitivity; [exact Hs2|by apply same_files_step].
  - unfold exists_local. case_bool_decide; by split.
Qed.

Lemma write_once_spec s :
  let '(r, s') := write_once data_folder env h data s in
  step s s'
  ∧ match r with
    | Ok b => is_Some (cas_files s' !! path) ∧ (b = true → cas_files s' !! path = Some data)
    | Err e => e = CASRepositoryError
    end.
Proof.
  unfold write_once. rewrite sm_bind_spec. cbn [sget]. unfold exists_local.
  case_bool_decide as He; [by split|]. rewrite sm_bind_spec.
  pose proof (write_attempt_spec 0 s) as H0.
  destruct (write_attempt _ _ 0 _ _ s) as [[[b|]|e] s1]; destruct H0 as [S1 H0]; [by split| |by split].
  rewrite sm_bind_spec. pose proof (write_attempt_spec 1 s1) as H1.
  destruct (write_attempt _ _ 1 _ _ s1) as [[[b|]|e] s2]; destruct H1 as [S2 H1];
    [|done|split; [by etransitivity|done]].
  split; [by etransitivity|done].
Qed.
End writing.

(** ** Properties *)

Section properties.
Context (blake3 : bytes → bytes) (compress : bytes → bytes) (decompress : bytes → res bytes).

(** The content of a chunk file: it decompresses to data with the hash of its name. *)
Definition content_ok (h : pystr) (d : bytes) : Prop :=
  ∃ raw, decompress d = Ok raw ∧ blake3_hex_digest blake3 raw = h.

Lemma get_content_ok folder s h d :
  cas_files s !! chunk_path folder h = Some d → content_ok h d →
  ∃ raw, get folder blake3 decompress s false h = Ok raw
    ∧ get_validated_compressed folder blake3 decompress s false h = Ok d
    ∧ decompress d = Ok raw ∧ blake3_hex_digest blake3 raw = h.
Proof.
  intros Hd (raw & Hr & Hh). exists raw. unfold get, get_validated_compressed, get_compressed.
  rewrite Hd. cbn [mbind res_bind]. unfold decompress_and_validate. rewrite Hr.
  rewrite bool_decide_false by (intros E; by apply E). done.
Qed.

(** what was put can be got back: whatever fails and whatever others do to a sound
    store, a put that returns leaves a sound store from which the chunk is read and has
    the content of its hash (the very data when this call published it); a put that raises
    leaves a sound store; no chunk disappears in either case. *)
Theorem put_then_get folder env h raw s :
  (∀ x, decompress (compress x) = Ok x) → is_valid_blake3_hex h = true →
  blake3_hex_digest blake3 raw = h → good_neighbours folder content_ok env →
  store_ok folder content_ok s →
  let '(r, s') := put folder compress env h raw s in
  store_ok folder content_ok s' ∧ grows s s'
  ∧ match r with
    | Ok b => ∃ raw', get folder blake3 decompress s' false h = Ok raw'
                ∧ blake3_hex_digest blake3 raw' = h ∧ (b = true → raw' = raw)
    | Err e => e = CASRepositoryError
    end.
Proof.
  intros Hz Hv Hh Hnb Hok. assert (content_ok h (compress raw)) as Hc by (exists raw; auto).
  unfold put. pose proof (write_once_spec folder content_ok env h (compress raw) Hnb Hv Hc s) as H.
  destruct (write_once _ _ _ _ _) as [[b|e] s']; destruct H as [[Hg Hk] H]; split_and!; auto.
  destruct H as [[d Hd] Hb].
  destruct (get_content_ok folder s' h d Hd) as (raw' & H1 & _ & H2 & H3); [by apply (Hk Hok)|].
  exists raw'. split_and!; [done..|]. intros ->. specialize (Hb eq_refl). rewrite Hd in Hb.
  injection Hb as ->. rewrite Hz in H2. by injection H2 as <-.
Qed.

End properties.

(** A machine on which nothing fails and nobody interferes. *)
Definition quiet_env : CasEnv := {|
  ce_mkdir_fails := λ _, false; ce_write_fails := λ _, false; ce_others := λ _ s, s;
  ce_replace := λ _, Replaced |}.

Definition empty_store : CasState := {| cas_files := ∅; cas_dirs := ∅; cas_ensured := ∅ |}.

Lemma quiet_neighbours folder good : good_neighbours folder good quiet_env.
Proof. intros n s. reflexivity. Qed.

(** On such a machine an absent chunk is published at the first attempt, when the directory
    remembered as made is still there. *)
Lemma write_once_quiet folder h data s :
  cas_files s !! chunk_path folder h = None → (chunk_dir folder h ∈ cas_ensured s → chunk_dir folder h ∈ cas_dirs s) →
  ∃ s', write_once folder quiet_env h data s = (Ok true, s') ∧ cas_files s' = <[chunk_path folder h := data]> (cas_files s).
Proof.
  intros Hn Hd. unfold write_once, write_attempt, ensure_parent_dir, exists_local. rewrite sm_bind_spec. cbn [sget].
  rewrite Hn, bool_decide_false by (by intros [? [=]]). rewrite sm_bind_spec, sm_bind_spec, sm_bind_spec. cbn [sget].
  case_bool_decide as He; cbn [quiet_env ce_mkdir_fails mret sm_ret sput]; rewrite sm_bind_spec; cbn [sget cas_dirs];
    rewrite (bool_decide_false (_ ∉ _)) by set_solver; cbn [quiet_env ce_write_fails orb];
    rewrite sm_bind_spec; cbn [smodify quiet_env ce_others]; rewrite sm_bind_spec; cbn [sget cas_dirs];
    rewrite bool_decide_true by set_solver; cbn [quiet_env ce_replace]; rewrite sm_bind_spec; cbn [smodify];
    (eexists; split; [reflexivity|done]).
Qed.

Lemma empty_store_ok folder good : store_ok folder good empty_store.
Proof. intros h d _. cbn. by rewrite lookup_empty. Qed.

Lemma put_then_get_witness :
  let f (b : bytes) : bytes := repeat Byte.x41 32 in
  let h := blake3_hex_digest f [Byte.x42] in
  let r := put (u "/cas") (λ b, b) quiet_env h [Byte.x42] empty_store in
  store_ok (u "/cas") (content_ok f Ok) r.2.
Proof.
  cbn zeta. set (f := λ _ : bytes, repeat Byte.x41 32).
  pose proof (put_then_get f (λ b, b) Ok (u "/cas") quiet_env (blake3_hex_digest f [Byte.x42])
    [Byte.x42] empty_store ltac:(done) ltac:(by vm_compute) eq_refl (quiet_neighbours _ _)
    (empty_store_ok _ _)) as H.
  destruct (put _ _ _ _ _) as [r s']. exact (proj1 H).
Defined.

(** A machine that may fail at any step but on which nobody else uses the store. *)
Definition alone (env : CasEnv) : Prop := ∀ n s, ce_others env n s = s.

Lemma write_attempt_alone folder env n h data s :
  alone env → cas_files s !! chunk_path folder h = None →
  let '(r, s') := write_attempt folder env n h data s in
  match r with
  | Ok (Some true) => cas_files s' = <[chunk_path folder h := data]> (cas_files s)
  | Ok (Some false) => False
  | Ok None | Err _ => cas_files s' = cas_files s
  end.
Proof.
  intros Ha Hn. unfold write_attempt. rewrite sm_bind_spec.
  pose proof (ensure_parent_spec folder h (ce_mkdir_fails env n) s) as Hp.
  destruct (ensure_parent_dir _ _ _ s) as [[[]|e] s1]; destruct Hp as [Ef _]; [|done].
  rewrite sm_bind_spec. cbn [sget]. destruct (_ || _); [done|].
  rewrite sm_bind_spec. cbn [smodify]. rewrite sm_bind_spec. cbn [sget]. rewrite Ha.
  destruct (if bool_decide _ then _ else _).
  - rewrite sm_bind_spec. cbn. by rewrite Ef.
  - by destruct (n =? 0)%nat.
  - unfold exists_local. rewrite bool_decide_false; [done|]. rewrite Ef, Hn. by intros [? [=]].
Qed.

Lemma write_attempt_second folder env h data s :
  (write_attempt folder env 1 h data s).1 ≠ Ok None.
Proof.
  unfold write_attempt. rewrite sm_bind_spec.
  destruct (ensure_parent_dir _ _ _ s) as [[[]|e] s1]; [|done].
  rewrite sm_bind_spec. cbn [sget]. destruct (_ || _); [done|].
  rewrite sm_bind_spec. cbn [smodify]. rewrite sm_bind_spec. cbn [sget].
  destruct (if bool_decide _ then _ else _); [done..|]. by destruct (exists_local _ _ _).
Qed.

(** a chunk is published whole or not at all: when nobody else writes, [write_once]
    leaves a file that exists alone and says so; otherwise it either publishes exactly the
    data at exactly its path, or raises and leaves every file as it was. *)
Theorem write_once_atomic folder env h data s :
  alone env →
  let '(r, s') := write_once folder env h data s in
  (r = Ok false ∧ s' = s ∧ is_Some (cas_files s !! chunk_path folder h))
  ∨ (r = Ok true ∧ cas_files s !! chunk_path folder h = None
     ∧ cas_files s' = <[chunk_path folder h := data]> (cas_files s))
  ∨ ((∃ e, r = Err e) ∧ cas_files s !! chunk_path folder h = None ∧ cas_files s' = cas_files s).
Proof.
  intros Ha. unfold write_once. rewrite sm_bind_spec. cbn [sget]. unfold exists_local.
  case_bool_decide as He; [by left|]. rewrite <-eq_None_not_Some in He. rewrite sm_bind_spec.
  pose proof (write_attempt_alone folder env 0 h data s Ha He) as H0.
  destruct (write_attempt _ _ 0 _ _ s) as [[[[]|]|e] s1]; cbn in *;
    [by right; left|done| |by right; right; eauto].
  pose proof (write_attempt_alone folder env 1 h data s1 Ha ltac:(by rewrite H0)) as H1.
  rewrite sm_bind_spec. rewrite H0 in H1.
  pose proof (write_attempt_second folder env h data s1) as H2.
  destruct (write_attempt _ _ 1 _ _ s1) as [[[[]|]|e] s2]; cbn in *;
    [by right; left|done|done|by right; right; eauto].
Qed.

Lemma write_once_atomic_witness :
  let r := write_once (u "/cas") quiet_env (repeat 97%N 64) [Byte.x42] empty_store in
  cas_files r.2 = {[chunk_path (u "/cas") (repeat 97%N 64) := [Byte.x42]]}.
Proof.
  cbn zeta.
  assert ((write_once (u "/cas") quiet_env (repeat 97%N 64) [Byte.x42] empty_store).1 = Ok true) as E
    by (vm_compute; reflexivity).
  pose proof (write_once_atomic (u "/cas") quiet_env (repeat 97%N 64) [Byte.x42] empty_store
    ltac:(intros n s; reflexivity)) as H.
  destruct (write_once _ _ _ _ _) as [r s']. cbn [fst snd] in *. subst r.
  destruct H as [[? _]|[(_ & _ & ->)|[[? ?] _]]]; [discriminate|reflexivity|discriminate].
Defined.

Lemma write_attempt_no_dir folder env n h data s s1 :
  ensure_parent_dir folder (ce_mkdir_fails env n) h s = (Ok (), s1) → chunk_dir folder h ∉ cas_dirs s1 →
  write_attempt folder env n h data s = (Err CASRepositoryError, s1).
Proof.
  intros Hp Hd. unfold write_attempt. rewrite sm_bind_spec, Hp, sm_bind_spec. cbn [sget].
  by rewrite bool_decide_true.
Qed.

Lemma write_attempt_quiet folder h data s s1 :
  ensure_parent_dir folder false h s = (Ok (), s1) → chunk_dir folder h ∈ cas_dirs s1 →
  (write_attempt folder quiet_env 0 h data s).1 = Ok (Some true).
Proof.
  intros Hp Hd. unfold write_attempt. cbn [quiet_env ce_mkdir_fails].
  rewrite sm_bind_spec, Hp, sm_bind_spec. cbn [sget]. rewrite bool_decide_false by tauto.
  cbn [orb quiet_env ce_write_fails]. rewrite sm_bind_spec. cbn [smodify quiet_env ce_others].
  rewrite sm_bind_spec. cbn [sget]. by rewrite bool_decide_true.
Qed.

Lemma write_once_absent folder env h data s :
  cas_files s !! chunk_path folder h = None →
  write_once folder env h data s
  = (first ← write_attempt folder env 0 h data;
     match first with
     | Some written => mret written
     | None => second ← write_attempt folder env 1 h data; mret (default false second)
     end) s.
Proof.
  intros Hf. unfold write_once. rewrite sm_bind_spec. cbn [sget]. unfold exists_local.
  by rewrite Hf, bool_decide_false by (by intros [? [=]]).
Qed.

(** the retry for a directory that was removed does not work: once the directory of a
    chunk has been created by this process and is then removed by somebody else, every put
    into it raises, nothing is forgotten, and so every later put raises as well; a fresh
    process writes the same chunk without trouble. *)
Theorem removed_directory_never_recovers folder h data s :
  cas_files s !! chunk_path folder h = None →
  chunk_dir folder h ∈ cas_ensured s → chunk_dir folder h ∉ cas_dirs s →
  (∀ env, write_once folder env h data s = (Err CASRepositoryError, s))
  ∧ let fresh := {| cas_files := cas_files s; cas_dirs := cas_dirs s; cas_ensured := ∅ |} in
    (write_once folder quiet_env h data fresh).1 = Ok true.
Proof.
  intros Hf He Hd. split.
  - intros env. rewrite write_once_absent, sm_bind_spec by done.
    rewrite (write_attempt_no_dir folder env 0 h data s s); [done| |done].
    unfold ensure_parent_dir. rewrite sm_bind_spec. cbn [sget]. by rewrite bool_decide_true.
  - cbn zeta. rewrite write_once_absent, sm_bind_spec by done.
    pose proof (write_attempt_quiet folder h data
      {| cas_files := cas_files s; cas_dirs := cas_dirs s; cas_ensured := ∅ |}
      {| cas_files := cas_files s; cas_dirs := {[chunk_dir folder h]} ∪ cas_dirs s;
         cas_ensured := {[chunk_dir folder h]} ∪ ∅ |}) as H.
    destruct (write_attempt _ _ _ _ _ _) as [r s']. cbn in H. rewrite H; [done| |set_solver].
    unfold ensure_parent_dir. rewrite sm_bind_spec. cbn [sget cas_ensured].
    by rewrite bool_decide_false by set_solver.
Qed.

Lemma removed_directory_never_recovers_witness :
  let d := chunk_dir (u "/cas") (repeat 97%N 64) in
  let s := {| cas_files := ∅; cas_dirs := ∅; cas_ensured := {[d]} |} in
  write_once (u "/cas") quiet_env (repeat 97%N 64) [Byte.x42] s = (Err CASRepositoryError, s).
Proof.
  cbn zeta. refine (proj1 (removed_directory_never_recovers _ _ _ _ _ _ _) quiet_env).
  - apply lookup_empty.
  - cbn [cas_ensured]. by apply elem_of_singleton_2.
  - cbn. apply not_elem_of_empty.
Defined.
