(* ===== verification/StorageNode.v ===== *)
(** * The storage service of a node

    [node/storage/commit_engine.py] and the chunk handlers of
    [node/services/storage_rpc.py], with the token check of [rpc/auth.py]: what a node does
    with chunks other nodes send it, ask it about and read back. Zstandard, BLAKE3, the
    answers of the operating system and the order in which the commit workers run are
    arguments. *)

From S2P Require Import Prelude PyStr Common Cas.
From S2P Require Import Heapq Hrw Cluster Protection Catalog ProtectionTable.
From S2P Require Import ReplicationPlan ReplicationPush.

(** ** Messages *)

Definition STORE_STATUS_REJECTED_CORRUPT : Z := 3.
Definition STORE_STATUS_REJECTED_HASH_MISMATCH : Z := 4.
Definition RETRIEVE_STATUS_FOUND : Z := 1.
Definition RETRIEVE_STATUS_NOT_FOUND : Z := 2.
Definition RETRIEVE_STATUS_ERROR : Z := 3.

Record StorageCommitResult := {
  scr_chunk_hash : pystr; scr_status : Z; scr_detail : pystr }.

(** [StorageCommitResult.is_success] *)
Definition commit_success (r : StorageCommitResult) : bool :=
  (scr_status r =? STORE_STATUS_STORED)%Z || (scr_status r =? STORE_STATUS_ALREADY_PRESENT)%Z.

Record RetrievedChunk := {
  rt_chunk_hash : pystr; rt_status : Z; rt_chunk_data : bytes; rt_detail : pystr }.

(** ** rpc/auth.py *)

Definition CLUSTER_TOKEN_METADATA_KEY : pystr := u "x-stopan-cluster-token-bin".

(** [_metadata_value]: the value of the key when it occurs exactly once. *)
Definition metadata_value (metadata : list (pystr * bytes)) (key : pystr) : option bytes :=
  match filter (λ kv, ascii_lower kv.1 = key) metadata with
  | [(_, value)] => Some value
  | _ => None
  end.

Definition require_cluster_token_metadata {S} (expected : pystr) (metadata : list (pystr * bytes))
  : SM S unit :=
  if bool_decide (strip expected = []) then sraise (RpcAbort UNAUTHENTICATED)
  else if bool_decide (metadata_value metadata CLUSTER_TOKEN_METADATA_KEY = Some (encode_utf8 expected))
  then mret ()
  else sraise (RpcAbort UNAUTHENTICATED).

(** [_admit_work]: [draining] is the state of the drain controller, if there is one. *)
Definition admit_work {S} (draining : bool) : SM S unit :=
  if draining then sraise (RpcAbort UNAVAILABLE) else mret ().

Section node.
Context (data_folder : pystr) (max_chunk_size : Z).
Context (blake3 : bytes → bytes).
(** [decompress(data, max_output_size=n)] and [decompress(data)]. *)
Context (decompress_max : Z → bytes → res bytes) (decompress : bytes → res bytes).
Context (exc_text : exn → pystr).

(** ** commit_engine.py *)

(** [process_one]: it never raises. *)
Definition process_one (env : CasEnv) (chunk_hash : pystr) (chunk_data : bytes)
  : SM CasState StorageCommitResult :=
  let result status detail :=
    {| scr_chunk_hash := chunk_hash; scr_status := status; scr_detail := detail |} in
  if negb (is_valid_blake3_hex chunk_hash) then
    mret (result STORE_STATUS_REJECTED_HASH_MISMATCH (u "chunk_hash inv" ++ a_acute ++
      u "lido: se esperaba BLAKE3 hex lowercase de 64 caracteres"))
  else
    s ← sget;
    if exists_local data_folder s chunk_hash
    then mret (result STORE_STATUS_ALREADY_PRESENT (u "Chunk ya presente"))
    else match decompress_max max_chunk_size chunk_data with
    | Err ZstdError => mret (result STORE_STATUS_REJECTED_CORRUPT (u "zstd corrupto"))
    | Err _ =>
        mret (result STORE_STATUS_REJECTED_CORRUPT (u "salida descomprimida demasiado grande"))
    | Ok raw =>
        if bool_decide (blake3_hex_digest blake3 raw ≠ chunk_hash)
        then mret (result STORE_STATUS_REJECTED_HASH_MISMATCH (u "hash no coincide"))
        else scatch
          (written ← put_compressed data_folder env chunk_hash chunk_data;
           mret (if written : bool then result STORE_STATUS_STORED (u "guardado")
                 else result STORE_STATUS_ALREADY_PRESENT (u "chunk ya presente")))
          (λ e, Some (mret (result STORE_STATUS_ERROR (exc_text e))))
    end.

(** ** storage_rpc.py *)

Context (cluster_token : pystr).

Definition check_call {S} (draining : bool) (metadata : list (pystr * bytes)) : SM S unit :=
  require_cluster_token_metadata cluster_token metadata;;
  admit_work draining.

(** [ProbeMissingChunks]; a response sent with an error code reaches the caller as that
    error. *)
Definition ProbeMissingChunks (draining : bool) (metadata : list (pystr * bytes))
    (chunk_hashes : list pystr) : SM CasState (list pystr) :=
  check_call draining metadata;;
  match filter (λ h, h ≠ [] ∧ is_valid_blake3_hex h = false) chunk_hashes with
  | _ :: _ => sraise (RpcAbort INVALID_ARGUMENT)
  | [] => sgets (λ s, filter (λ h, h ≠ [] ∧ exists_local data_folder s h = false) chunk_hashes)
  end.

(** One request of the stream with the surroundings of its commit. *)
Definition commit_request : Type := CasEnv * (pystr * bytes).

(** The commits the workers run, in the order they run them. *)
Fixpoint run_commits (commits : list commit_request) : SM CasState (list StorageCommitResult) :=
  match commits with
  | [] => mret []
  | (env, (chunk_hash, chunk_data)) :: commits' =>
      result ← process_one env chunk_hash chunk_data;
      results ← run_commits commits';
      mret (result :: results)
  end.

(** [ReplicateChunks]: [submitted] are the requests the reader submitted before the stream
    ended, in the order in which they are executed; [deliver] chooses the completed results
    the client receives, and their order. *)
Definition ReplicateChunks (draining : bool) (metadata : list (pystr * bytes))
    (submitted : list commit_request)
    (deliver : list StorageCommitResult → list StorageCommitResult)
  : SM CasState (list StorageCommitResult) :=
  check_call draining metadata;;
  results ← run_commits (filter (λ c, c.2.1 ≠ []) submitted);
  mret (deliver results).

Definition retrieve_one (read_fails : pystr → bool) (s : CasState) (chunk_hash : pystr)
  : RetrievedChunk :=
  let result status data detail :=
    {| rt_chunk_hash := chunk_hash; rt_status := status; rt_chunk_data := data;
       rt_detail := detail |} in
  if negb (is_valid_blake3_hex chunk_hash) then
    result RETRIEVE_STATUS_ERROR [] (u "chunk_hash inv" ++ a_acute ++ u "lido: '"
      ++ take 32 chunk_hash ++ u "'; se esperaba BLAKE3 hex lowercase de 64 caracteres")
  else match get_validated_compressed data_folder blake3 decompress s (read_fails chunk_hash)
               chunk_hash with
  | Ok chunk_data => result RETRIEVE_STATUS_FOUND chunk_data (u "ok")
  | Err CASMissingChunkError => result RETRIEVE_STATUS_NOT_FOUND [] (u "chunk no encontrado")
  | Err e => result RETRIEVE_STATUS_ERROR [] (exc_text e)
  end.

(** [RetrieveChunkBatch] *)
Definition RetrieveChunkBatch (draining : bool) (metadata : list (pystr * bytes))
    (read_fails : pystr → bool) (chunk_hashes : list pystr) : SM CasState (list RetrievedChunk) :=
  check_call draining metadata;;
  sgets (λ s, retrieve_one read_fails s <$> filter (λ h, h ≠ []) chunk_hashes).

End node.

(** ** What the node promises *)

Lemma check_call_spec {S} cluster_token draining md (s : S) :
  let '(r, s') := check_call cluster_token draining md s in
  s' = s ∧ (r = Ok () ∨ r = Err (RpcAbort UNAUTHENTICATED) ∨ r = Err (RpcAbort UNAVAILABLE))
  ∧ (strip cluster_token = [] ∨ metadata_value md CLUSTER_TOKEN_METADATA_KEY ≠ Some (encode_utf8 cluster_token) →
     r = Err (RpcAbort UNAUTHENTICATED)).
Proof.
  unfold check_call, require_cluster_token_metadata, admit_work. rewrite sm_bind_spec.
  case_bool_decide; [by split_and!; auto|]. case_bool_decide.
  - destruct draining; cbn; (split_and!; [done|auto|tauto]).
  - by split_and!; auto.
Qed.

Section promises.
Context (data_folder : pystr) (max_chunk_size : Z) (blake3 : bytes → bytes).
Context (decompress_max : Z → bytes → res bytes) (decompress : bytes → res bytes).
Context (exc_text : exn → pystr) (cluster_token : pystr).

Notation process := (process_one data_folder max_chunk_size blake3 decompress_max exc_text).
Notation commits := (run_commits data_folder max_chunk_size blake3 decompress_max exc_text).
Notation replicate :=
  (ReplicateChunks data_folder max_chunk_size blake3 decompress_max exc_text cluster_token).
Notation probe := (ProbeMissingChunks data_folder cluster_token).
Notation retrieve := (RetrieveChunkBatch data_folder blake3 decompress exc_text cluster_token).

(** What the commit engine lets into the store: within the size limit, and with the hash of
    its name. *)
Definition accepted (h : pystr) (d : bytes) : Prop :=
  ∃ raw, decompress_max max_chunk_size d = Ok raw ∧ blake3_hex_digest blake3 raw = h.

Notation sound := (store_ok data_folder accepted).
Notation step := (store_step data_folder accepted).

(** A commit returns one result for its hash, keeps the store sound, and reports success
    only for a chunk that is in the store; a chunk it rejects was not acceptable. *)
Lemma process_one_spec env h d s :
  good_neighbours data_folder accepted env →
  ∃ r s', process env h d s = (Ok r, s') ∧ scr_chunk_hash r = h ∧ step s s'
    ∧ (commit_success r = true →
         is_valid_blake3_hex h = true ∧ is_Some (cas_files s' !! chunk_path data_folder h))
    ∧ (commit_success r = false → scr_status r ≠ STORE_STATUS_ERROR →
         is_valid_blake3_hex h = false ∨ ¬ accepted h d).
Proof.
  intros Hnb. unfold process_one. destruct (is_valid_blake3_hex h) eqn:Hv; cbn [negb].
  2: { eexists _, s. split_and!; [done|done|reflexivity|done|by left]. }
  rewrite sm_bind_spec. cbn [sget]. unfold exists_local. case_bool_decide as He.
  { eexists _, s. split_and!; [done|done|reflexivity|auto|done]. }
  destruct (decompress_max max_chunk_size d) as [raw|e] eqn:Ed.
  2: { destruct e; (eexists _, s; split_and!; [done|done|reflexivity|done|]);
       intros _ _; right; intros (raw & E & _); congruence. }
  case_bool_decide as Eh.
  { eexists _, s; split_and!; [done|done|reflexivity|done|]. intros _ _; right.
    intros (raw' & E & E'). rewrite Ed in E. injection E as <-. done. }
  assert (accepted h d) as Hacc by (by exists raw).
  pose proof (write_once_spec data_folder accepted env h d Hnb Hv Hacc s) as H.
  unfold scatch, put_compressed. rewrite sm_bind_spec.
  destruct (write_once _ _ _ _ s) as [[b|e] s']; destruct H as [Hs H].
  - destruct b; eexists _, s'; (split_and!; [done|done|done| |done]); intros _; by split; [|apply H].
  - eexists _, s'. by split_and!.
Qed.

Lemma run_commits_spec cs s :
  Forall (λ c, good_neighbours data_folder accepted c.1) cs →
  ∃ rs s', commits cs s = (Ok rs, s') ∧ scr_chunk_hash <$> rs = (λ c : commit_request, c.2.1) <$> cs
    ∧ step s s'
    ∧ ∀ r, r ∈ rs → commit_success r = true →
        is_valid_blake3_hex (scr_chunk_hash r) = true
        ∧ is_Some (cas_files s' !! chunk_path data_folder (scr_chunk_hash r)).
Proof.
  intros Hnb. revert s. induction Hnb as [|[env [h d]] cs H1 _ IH]; intros s.
  { exists [], s. split_and!; [done|done|reflexivity|]. intros r Hr. by inversion Hr. }
  destruct (process_one_spec env h d s H1) as (r & s1 & E1 & Eh & S1 & Hok & _).
  destruct (IH s1) as (rs & s2 & E2 & Ehs & S2 & Hoks).
  exists (r :: rs), s2. cbn [run_commits]. rewrite sm_bind_spec, E1, sm_bind_spec, E2.
  split_and!; [done|by cbn; rewrite Eh, Ehs|by etransitivity|].
  intros x [->|Hx]%elem_of_cons Hsx; [|by apply Hoks]. rewrite Eh. specialize (Hok Hsx) as [Hv Hp].
  split; [done|]. by apply (proj1 S2).
Qed.

Lemma probe_spec draining md hs s missing s' :
  probe draining md hs s = (Ok missing, s') →
  s' = s ∧ ∀ h, h ∈ missing ↔ h ∈ hs ∧ h ≠ [] ∧ cas_files s !! chunk_path data_folder h = None.
Proof.
  unfold ProbeMissingChunks. rewrite sm_bind_spec.
  pose proof (check_call_spec cluster_token draining md s) as H.
  destruct (check_call _ _ _ s) as [[[]|e] s1]; [|done]. destruct H as [-> _].
  destruct (filter _ hs); [|done]. intros [= <- <-]. split; [done|]. intros h.
  rewrite list_elem_of_filter. unfold exists_local. rewrite bool_decide_eq_false, <-eq_None_not_Some. tauto.
Qed.

Lemma retrieve_one_found fails s h :
  rt_status (retrieve_one data_folder blake3 decompress exc_text fails s h) = RETRIEVE_STATUS_FOUND →
  let d := rt_chunk_data (retrieve_one data_folder blake3 decompress exc_text fails s h) in
  is_valid_blake3_hex h = true ∧ cas_files s !! chunk_path data_folder h = Some d
  ∧ content_ok blake3 decompress h d.
Proof.
  unfold retrieve_one. destruct (is_valid_blake3_hex h) eqn:Hv; cbn [negb]; [|done].
  unfold get_validated_compressed, get_compressed.
  destruct (cas_files s !! chunk_path data_folder h) as [d|] eqn:Ed; [|done].
  destruct (fails h); [done|]. cbn [mbind res_bind]. unfold decompress_and_validate, content_ok.
  destruct (decompress d) as [raw|e] eqn:Er; [|by destruct e].
  case_bool_decide as Eh; cbn; [done|]. intros _. split_and!; [done..|]. by exists raw.
Qed.

Lemma retrieve_one_present s h d :
  is_valid_blake3_hex h = true → cas_files s !! chunk_path data_folder h = Some d →
  content_ok blake3 decompress h d →
  retrieve_one data_folder blake3 decompress exc_text (λ _, false) s h
  = {| rt_chunk_hash := h; rt_status := RETRIEVE_STATUS_FOUND; rt_chunk_data := d;
       rt_detail := u "ok" |}.
Proof.
  intros Hv Hd Hc. unfold retrieve_one. rewrite Hv. cbn [negb].
  destruct (get_content_ok blake3 decompress data_folder s h d Hd Hc) as (raw & _ & -> & _). done.
Qed.

Lemma retrieve_one_absent fails s h :
  is_valid_blake3_hex h = true → cas_files s !! chunk_path data_folder h = None →
  rt_status (retrieve_one data_folder blake3 decompress exc_text fails s h) = RETRIEVE_STATUS_NOT_FOUND.
Proof.
  intros Hv Hd. unfold retrieve_one. rewrite Hv. cbn [negb].
  unfold get_validated_compressed, get_compressed. by rewrite Hd.
Qed.

Lemma retrieve_one_hash fails s h :
  rt_chunk_hash (retrieve_one data_folder blake3 decompress exc_text fails s h) = h.
Proof.
  unfold retrieve_one. destruct (negb _); [done|].
  destruct (get_validated_compressed _ _ _ _ _ _) as [|e]; [done|by destruct e].
Qed.

(** ** Properties *)

(** C17: acknowledgements are honest: whatever stream of requests arrives, valid or hostile,
    in whatever order the workers commit it and whichever writes fail, the store stays
    sound, no chunk disappears, and every success the client is told about is a chunk the
    store then holds, within the size limit and with the hash of its name; a refused call
    changes nothing. *)
Theorem acks_are_stored draining md submitted deliver s :
  Forall (λ c, good_neighbours data_folder accepted c.1) submitted →
  (∀ l, deliver l ⊆+ l) → sound s →
  let '(r, s') := replicate draining md submitted deliver s in
  sound s' ∧ grows s s'
  ∧ match r with
    | Ok results => ∀ x, x ∈ results → commit_success x = true →
        ∃ d, cas_files s' !! chunk_path data_folder (scr_chunk_hash x) = Some d
             ∧ accepted (scr_chunk_hash x) d
    | Err _ => s' = s
    end.
Proof.
  intros Hnb Hdel Hs. unfold ReplicateChunks. rewrite sm_bind_spec.
  pose proof (check_call_spec cluster_token draining md s) as H.
  destruct (check_call _ _ _ s) as [[[]|e] s1]; destruct H as [-> _]; [|by split_and!].
  rewrite sm_bind_spec.
  edestruct run_commits_spec as (rs & s' & -> & _ & [Hg Hk] & Hok).
  { apply Forall_forall. intros c [_ Hc]%list_elem_of_filter. rewrite Forall_forall in Hnb. auto. }
  cbn. split_and!; [auto|done|]. intros x Hx Hsx.
  destruct (Hok x) as [Hv [d Hd]]; [by eapply elem_of_submseteq|done|].
  exists d. split; [done|]. by apply (Hk Hs).
Qed.

(** C18: a node never serves wrong data: one answer per non-empty hash, in order; whatever
    the store holds, even after corruption on disk, data marked FOUND is the stored blob
    and decompresses to content with the requested hash; an absent chunk is NOT_FOUND; and
    in a store with readable content every chunk that is there is FOUND. *)
Theorem retrieve_serves_only_truth draining md fails hs s answers s' :
  retrieve draining md fails hs s = (Ok answers, s') →
  s' = s ∧ rt_chunk_hash <$> answers = filter (λ h, h ≠ []) hs
  ∧ ∀ a, a ∈ answers →
      let h := rt_chunk_hash a in
      (rt_status a = RETRIEVE_STATUS_FOUND →
         cas_files s !! chunk_path data_folder h = Some (rt_chunk_data a)
         ∧ ∃ raw, decompress (rt_chunk_data a) = Ok raw ∧ blake3_hex_digest blake3 raw = h)
      ∧ (is_valid_blake3_hex h = true → cas_files s !! chunk_path data_folder h = None →
         rt_status a = RETRIEVE_STATUS_NOT_FOUND)
      ∧ ((∀ g, fails g = false) → store_ok data_folder (content_ok blake3 decompress) s →
         is_valid_blake3_hex h = true → is_Some (cas_files s !! chunk_path data_folder h) →
         rt_status a = RETRIEVE_STATUS_FOUND).
Proof.
  unfold RetrieveChunkBatch. rewrite sm_bind_spec.
  pose proof (check_call_spec cluster_token draining md s) as H.
  destruct (check_call _ _ _ s) as [[[]|e] s1]; [|done]. destruct H as [-> _].
  intros [= <- <-]. split; [done|]. split.
  { rewrite <-list_fmap_compose. rewrite <-(list_fmap_id (filter _ hs)) at 2.
    apply list_fmap_ext. intros. apply retrieve_one_hash. }
  intros a (h & -> & Hh)%list_elem_of_fmap. cbn zeta. rewrite retrieve_one_hash. split_and!.
  - intros Hf. destruct (retrieve_one_found _ _ _ Hf) as (_ & Hd & Hc). split; [exact Hd|exact Hc].
  - intros Hv Hd. by apply retrieve_one_absent.
  - intros Hr Hok Hv [d Hd]. unfold retrieve_one. rewrite Hv, Hr. cbn [negb].
    destruct (get_content_ok blake3 decompress data_folder s h d Hd) as (raw & _ & -> & _); [by apply Hok|done].
Qed.

(** C33: a frame that does not declare its size is acknowledged and then lost: when the
    bounded decompression of the commit engine reads a blob that the unbounded one of the
    reader refuses, a node that does not hold the chunk yet, on a machine where the write
    works, stores it and answers STORED. In every later state that still has that file, a
    probe reports the chunk as present, every request for it is answered with ERROR and
    without data, and whoever sends the chunk again, in a readable frame too, is told that it
    is already present and changes nothing. *)
Theorem unsized_frame_acked_but_lost md h d raw s :
  is_valid_blake3_hex h = true → cas_files s !! chunk_path data_folder h = None →
  (chunk_dir data_folder h ∈ cas_ensured s → chunk_dir data_folder h ∈ cas_dirs s) →
  decompress_max max_chunk_size d = Ok raw → blake3_hex_digest blake3 raw = h →
  decompress d = Err ZstdError →
  metadata_value md CLUSTER_TOKEN_METADATA_KEY = Some (encode_utf8 cluster_token) → strip cluster_token ≠ [] →
  ∃ s', replicate false md [(quiet_env, (h, d))] (λ l, l) s
        = (Ok [{| scr_chunk_hash := h; scr_status := STORE_STATUS_STORED; scr_detail := u "guardado" |}], s')
    ∧ cas_files s' !! chunk_path data_folder h = Some d
    ∧ ∀ s2, cas_files s2 !! chunk_path data_folder h = Some d →
        probe false md [h] s2 = (Ok [], s2)
        ∧ (∀ fails, ∃ a, retrieve false md fails [h] s2 = (Ok [a], s2)
             ∧ rt_status a = RETRIEVE_STATUS_ERROR ∧ rt_chunk_data a = [])
        ∧ ∀ env d2, ∃ r, replicate false md [(env, (h, d2))] (λ l, l) s2 = (Ok [r], s2)
             ∧ scr_status r = STORE_STATUS_ALREADY_PRESENT.
Proof.
  intros Hv Hn Hdir Hm Hh Hd Hmd Htok. assert (h ≠ []) as Hne by (intros ->; done).
  assert (∀ s1 : CasState, check_call cluster_token false md s1 = (Ok (), s1)) as Hcall.
  { intros s1. unfold check_call, require_cluster_token_metadata. rewrite sm_bind_spec, bool_decide_false by done.
    by rewrite bool_decide_true. }
  assert (∀ (env : CasEnv) (d' : bytes), filter (λ c : commit_request, c.2.1 ≠ []) [(env, (h, d'))] = [(env, (h, d'))]) as Hsub
    by (intros; by rewrite filter_cons_True).
  destruct (write_once_quiet data_folder h d s Hn Hdir) as (s' & Hw & Hf). exists s'. split; [|split].
  - unfold ReplicateChunks. rewrite sm_bind_spec, Hcall, Hsub. cbn [run_commits]. rewrite sm_bind_spec, sm_bind_spec.
    unfold process_one. rewrite Hv. cbn [negb]. rewrite sm_bind_spec. cbn [sget].
    unfold exists_local. rewrite Hn, bool_decide_false by (by intros [? [=]]).
    rewrite Hm, bool_decide_false by (intros E; by apply E).
    unfold scatch, put_compressed. rewrite sm_bind_spec, Hw. done.
  - rewrite Hf. apply lookup_insert_eq.
  - intros s2 Hd'. split; [|split].
    + unfold ProbeMissingChunks. rewrite sm_bind_spec, Hcall. rewrite filter_cons_False by (rewrite Hv; naive_solver).
      change (sgets (λ s0, filter (λ g, g ≠ [] ∧ exists_local data_folder s0 g = false) [h]) s2 = (Ok [], s2)).
      unfold sgets. rewrite filter_single_False; [done|]. unfold exists_local.
      rewrite Hd', bool_decide_true by eauto. naive_solver.
    + intros fails. unfold RetrieveChunkBatch. rewrite sm_bind_spec, Hcall. rewrite filter_cons_True by done.
      eexists. split; [reflexivity|]. unfold retrieve_one. rewrite Hv. cbn [negb].
      unfold get_validated_compressed, get_compressed. rewrite Hd'. destruct (fails h); [done|].
      cbn [mbind res_bind]. unfold decompress_and_validate. by rewrite Hd.
    + intros env d2. eexists. unfold ReplicateChunks. rewrite sm_bind_spec, Hcall, Hsub. cbn [run_commits].
      rewrite sm_bind_spec, sm_bind_spec. unfold process_one. rewrite Hv. cbn [negb]. rewrite sm_bind_spec. cbn [sget].
      unfold exists_local. rewrite Hd', bool_decide_true by eauto. done.
Qed.

Lemma refused_call_changes_nothing draining md hs submitted deliver fails s :
  strip cluster_token = []
  ∨ metadata_value md CLUSTER_TOKEN_METADATA_KEY ≠ Some (encode_utf8 cluster_token) →
  probe draining md hs s = (Err (RpcAbort UNAUTHENTICATED), s)
  ∧ replicate draining md submitted deliver s = (Err (RpcAbort UNAUTHENTICATED), s)
  ∧ retrieve draining md fails hs s = (Err (RpcAbort UNAUTHENTICATED), s).
Proof.
  intros Hbad. unfold ProbeMissingChunks, ReplicateChunks, RetrieveChunkBatch. rewrite !sm_bind_spec.
  pose proof (check_call_spec cluster_token draining md s) as H.
  destruct (check_call _ _ _ s) as [r s1]. destruct H as (-> & _ & H). by rewrite (H Hbad).
Qed.
End promises.

(** ** Witnesses *)

(** A BLAKE3 that does not compress and a zstd that copies. *)
Definition toy_digest (b : bytes) : bytes := repeat Byte.x41 32.
Definition toy_hash : pystr := blake3_hex_digest toy_digest [Byte.x42].
Definition toy_token : pystr := u "secret".
Definition toy_metadata : list (pystr * bytes) := [(CLUSTER_TOKEN_METADATA_KEY, encode_utf8 toy_token)].

Lemma toy_call (s : CasState) : check_call toy_token false toy_metadata s = (Ok (), s).
Proof. reflexivity. Qed.

Definition toy_replicate : SM CasState (list StorageCommitResult) :=
  ReplicateChunks (u "/custody") 1000 toy_digest (λ _ b, Ok b) (λ _, []) toy_token false toy_metadata
    [(quiet_env, (toy_hash, [Byte.x42])); (quiet_env, (u "../evil", [Byte.x42]))] (λ l, l).

Definition toy_stored : StorageCommitResult :=
  {| scr_chunk_hash := toy_hash; scr_status := STORE_STATUS_STORED; scr_detail := u "guardado" |}.

Lemma toy_replicates :
  ∃ rejected, (toy_replicate empty_store).1 = Ok [toy_stored; rejected] ∧ commit_success rejected = false.
Proof. eexists. split; vm_compute; reflexivity. Qed.

Lemma acks_are_stored_witness :
  let s' := (toy_replicate empty_store).2 in
  store_ok (u "/custody") (accepted 1000 toy_digest (λ _ b, Ok b)) s'
  ∧ ∃ d, cas_files s' !! chunk_path (u "/custody") toy_hash = Some d.
Proof.
  cbn zeta. pose proof (acks_are_stored (u "/custody") 1000 toy_digest (λ _ b, Ok b) (λ _, []) toy_token
    false toy_metadata [(quiet_env, (toy_hash, [Byte.x42])); (quiet_env, (u "../evil", [Byte.x42]))]
    (λ l, l) empty_store) as H.
  match type of H with ?P → _ => assert P as Hn end.
  { apply Forall_cons. split; [intros n s; reflexivity|].
    apply Forall_cons. split; [intros n s; reflexivity|constructor]. }
  specialize (H Hn ltac:(done) (empty_store_ok _ _)).
  change (ReplicateChunks _ _ _ _ _ _ _ _ _ _) with toy_replicate in H.
  destruct toy_replicates as (rejected & E & _).
  destruct (toy_replicate empty_store) as [r s']. cbn in E. subst r. destruct H as (H1 & _ & H).
  split; [exact H1|]. destruct (H toy_stored) as (d & Hd & _); [by left|done|]. by exists d.
Defined.

Lemma retrieve_serves_only_truth_witness :
  ∃ a, RetrieveChunkBatch (u "/custody") toy_digest Ok (λ _, []) toy_token false toy_metadata (λ _, false)
         [toy_hash; []] empty_store = (Ok [a], empty_store)
    ∧ rt_status a = RETRIEVE_STATUS_NOT_FOUND.
Proof.
  eexists. assert (RetrieveChunkBatch (u "/custody") toy_digest Ok (λ _, []) toy_token false toy_metadata
    (λ _, false) [toy_hash; []] empty_store
    = (Ok [retrieve_one (u "/custody") toy_digest Ok (λ _, []) (λ _, false) empty_store toy_hash],
       empty_store)) as E by reflexivity.
  split; [exact E|].
  destruct (retrieve_serves_only_truth (u "/custody") toy_digest Ok (λ _, []) toy_token false toy_metadata
    (λ _, false) [toy_hash; []] empty_store _ _ E) as (_ & _ & H).
  destruct (H _ ltac:(by left)) as (_ & H2 & _). apply H2; rewrite retrieve_one_hash.
  - by vm_compute.
  - apply lookup_empty.
Defined.

Lemma unsized_frame_acked_but_lost_witness :
  ∃ s', ReplicateChunks (u "/custody") 1000 toy_digest (λ _ b, Ok b) (λ _, []) toy_token false toy_metadata
          [(quiet_env, (toy_hash, [Byte.x42]))] (λ l, l) empty_store
        = (Ok [{| scr_chunk_hash := toy_hash; scr_status := STORE_STATUS_STORED; scr_detail := u "guardado" |}], s')
    ∧ ProbeMissingChunks (u "/custody") toy_token false toy_metadata [toy_hash] s' = (Ok [], s').
Proof.
  destruct (unsized_frame_acked_but_lost (u "/custody") 1000 toy_digest (λ _ b, Ok b)
    (λ _, Err ZstdError) (λ _, []) toy_token toy_metadata toy_hash [Byte.x42] [Byte.x42] empty_store)
    as (s' & H1 & H2 & H3).
  - by vm_compute.
  - apply lookup_empty.
  - by intros H.
  - reflexivity.
  - reflexivity.
  - reflexivity.
  - by vm_compute.
  - by vm_compute.
  - exists s'. split; [exact H1|]. exact (proj1 (H3 s' H2)).
Defined.
