(* ===== verification/Custody.v ===== *)
(** * From an acknowledgement to a chunk on a disk

    The client of [protection/replication] and the storage service of the nodes together:
    when the answers a push works with are given by the storage services of the targets,
    the evidence it stores is about chunks that are there. *)

From S2P Require Import Prelude PyStr Common Heapq Hrw Cluster Protection Catalog ProtectionTable.
From S2P Require Import ReplicationPlan ReplicationPush Cas StorageNode.

(** ** What a client keeps of the answers *)

(** A hash that a complete probe does not report missing was asked for in some batch whose
    answer did not contain it. *)
Lemma probe_loop_present probe i batches missing0 missing h :
  probe_loop probe i batches missing0 = RpcOk missing → h ∈ concat batches → h ≠ [] → h ∉ missing →
  ∃ j batch hs, batch ∈ batches ∧ h ∈ batch ∧ probe j batch = RpcOk hs ∧ h ∉ hs.
Proof.
  revert i missing0. induction batches as [|b bs IH]; intros i missing0; cbn; [by intros _ H; inversion H|].
  destruct (probe i b) as [hs|] eqn:Ep; [|done]. intros Hl Hh Hne Hm.
  assert (∀ bs j m0, probe_loop probe j bs m0 = RpcOk missing → m0 ⊆ missing) as Hmono.
  { clear. induction bs as [|b bs IH]; intros j m0; cbn; [by intros [= ->]|].
    destruct (probe j b); [|done]. intros H%IH. set_solver. }
  apply elem_of_app in Hh as [Hh|Hh].
  - exists i, b, hs. split_and!; [by left|done|done|]. intros Hin. apply Hm, (Hmono _ _ _ Hl).
    apply elem_of_union_r, elem_of_list_to_set, list_elem_of_filter. done.
  - destruct (IH _ _ Hl Hh Hne Hm) as (j & batch & hs' & ? & ?). exists j, batch, hs'.
    split; [by right|done].
Qed.

(** The acknowledgement kept for a hash is one of the responses. *)
Lemma add_responses_lookup id addr rs acks h a :
  fold_left (add_response id addr) rs acks !! h = Some a →
  acks !! h = Some a ∨ ∃ status detail, (h, status, detail) ∈ rs ∧ a = make_ack id addr h status detail.
Proof.
  revert acks. induction rs as [|[[h' st] dt] rs IH]; intros acks; cbn; [by left|].
  intros [H|(s & d & ? & ?)]%IH; [|right; exists s, d; split; [by right|done]].
  case_bool_decide; [by left|]. destruct (decide (h' = h)) as [->|].
  - rewrite lookup_insert_eq in H. injection H as <-. right. exists st, dt. split; [by left|done].
  - rewrite lookup_insert_ne in H by done. by left.
Qed.

Lemma add_failures_lookup read id addr hs acks h a :
  fold_left (add_local_failure read id addr) hs acks !! h = Some a →
  acks !! h = Some a ∨ is_success a = false.
Proof.
  revert acks. induction hs as [|h' hs IH]; intros acks; cbn; [by left|].
  intros [H|?]%IH; [|by right]. unfold add_local_failure in H. destruct (read h'); [by left|].
  destruct (decide (h' = h)) as [->|].
  - rewrite lookup_insert_eq in H. injection H as <-. by right.
  - rewrite lookup_insert_ne in H by done. by left.
Qed.

Lemma add_missing_lookup id addr hs acks h a :
  fold_left (add_missing_ack id addr) hs acks !! h = Some a →
  acks !! h = Some a ∨ is_success a = false.
Proof.
  revert acks. induction hs as [|h' hs IH]; intros acks; cbn; [by left|].
  intros [H|?]%IH; [|by right]. unfold add_missing_ack in H. destruct (acks !! h') eqn:E; [by left|].
  destruct (decide (h' = h)) as [->|].
  - rewrite lookup_insert_eq in H. injection H as <-. by right.
  - rewrite lookup_insert_ne in H by done. by left.
Qed.

(** A successful acknowledgement of a stream comes from a response of the target. *)
Lemma stream_success read opened run id addr hs h a :
  match replicate_missing_hashes read opened run id addr hs with
  | StreamAcks acks | StreamingReplicationError _ acks => acks !! h = Some a
  | StreamOtherError _ => False
  end → is_success a = true →
  ∃ status detail, (h, status, detail) ∈ sr_responses run ∧ a = make_ack id addr h status detail.
Proof.
  unfold replicate_missing_hashes. intros H Hs. destruct opened; [|done].
  destruct (ordered_unique hs) as [|h0 hs0]; [by rewrite lookup_empty in H|].
  set (received := fold_left (add_response id addr) (sr_responses run) ∅) in H.
  assert (∀ fs, acks_update received (fold_left (add_local_failure read id addr) fs ∅) !! h = Some a →
    ∃ status detail, (h, status, detail) ∈ sr_responses run ∧ a = make_ack id addr h status detail) as Hboth.
  { intros fs [E|[_ E]]%lookup_union_Some_raw.
    - apply add_failures_lookup in E as [E|E]; [by rewrite lookup_empty in E|congruence].
    - by apply add_responses_lookup in E as [E|E]; [rewrite lookup_empty in E|]. }
  destruct (sr_sender_alive run); [by eapply Hboth|].
  destruct (sr_sender_error run); [by eapply Hboth|].
  destruct (sr_stream_error run); [by eapply Hboth|].
  apply add_missing_lookup in H as [H|H]; [by eapply Hboth|congruence].
Qed.

(** ** The answers of a storage node *)

Section custody.
Context (data_folder : pystr) (max_chunk_size : Z) (blake3 : bytes → bytes).
Context (decompress_max : Z → bytes → res bytes) (exc_text : exn → pystr) (cluster_token : pystr).

Notation good := (accepted max_chunk_size blake3 decompress_max).
Notation step := (store_step data_folder good).
Notation sound := (store_ok data_folder good).
Notation probe := (ProbeMissingChunks data_folder cluster_token).
Notation replicate :=
  (ReplicateChunks data_folder max_chunk_size blake3 decompress_max exc_text cluster_token).

(** The response is one that a call of [ReplicateChunks] sent while the store of the node
    went from [s0] to [s1]. *)
Definition replied (s0 s1 : CasState) (response : pystr * Z * pystr) : Prop :=
  ∃ draining md submitted deliver s results s' r,
    step s0 s ∧ replicate draining md submitted deliver s = (Ok results, s') ∧ step s' s1
    ∧ Forall (λ c, good_neighbours data_folder good c.1) submitted ∧ (∀ l, deliver l ⊆+ l)
    ∧ r ∈ results ∧ response = (scr_chunk_hash r, scr_status r, scr_detail r).

(** The network is honest: what the client receives from a target was sent by the storage
    service of that node, while its store went from [s0] to [s1]. Calls may fail and
    responses may be lost. *)
Definition answered_by (s0 s1 : CasState) (env : TargetEnv) : Prop :=
  (∀ j batch hs, te_probe env j batch = RpcOk hs →
     ∃ draining md s, step s0 s ∧ probe draining md batch s = (Ok hs, s) ∧ step s s1)
  ∧ Forall (replied s0 s1) (sr_responses (te_stream env)).

Lemma replied_stored s0 s1 h status detail id addr :
  replied s0 s1 (h, status, detail) → is_success (make_ack id addr h status detail) = true →
  is_Some (cas_files s1 !! chunk_path data_folder h).
Proof.
  intros (draining & md & submitted & deliver & s & results & s' & r & S1 & E & S2 & Hnb & Hdel & Hr & Heq) Hs.
  injection Heq as -> -> ->. apply (proj1 S2). revert E. unfold ReplicateChunks. rewrite sm_bind_spec.
  destruct (check_call _ _ _ s) as [[[]|e] s2]; [|done]. rewrite sm_bind_spec.
  edestruct run_commits_spec as (rs & s3 & -> & _ & _ & Hok).
  { apply Forall_forall. intros c [_ Hc]%list_elem_of_filter. rewrite Forall_forall in Hnb. auto. }
  intros [= <- <-]. apply Hok; [by eapply elem_of_submseteq|exact Hs].
Qed.

(** A successful acknowledgement of a target is about a chunk in its store. *)
Lemma target_acks_stored s0 s1 env m hashes h a :
  answered_by s0 s1 env → is_valid_blake3_hex h = true →
  tr_acks (execute_target_plan env m hashes) !! h = Some a → is_success a = true →
  is_Some (cas_files s1 !! chunk_path data_folder h).
Proof.
  intros [Hprobe Hrun] Hv. assert (h ≠ []) as Hne by (by intros ->). unfold execute_target_plan.
  destruct (probe_missing_hashes _ _ _) as [missing|] eqn:Ep; [|done].
  set (present := list_to_map _ : acks_map).
  assert (∀ a, present !! h = Some a → is_Some (cas_files s1 !! chunk_path data_folder h)) as Hpresent.
  { clear -Ep Hprobe Hne. intros a Ha. apply elem_of_list_to_map_2 in Ha.
    apply list_elem_of_fmap in Ha as (h' & [= <- _] & [Hm Hh]%list_elem_of_filter).
    unfold probe_missing_hashes in Ep. eapply probe_loop_present in Ep as (j & batch & hs & _ & Hb & Eq & Hn);
      [|rewrite concat_iter_batches; by apply elem_of_ordered_unique|done|done].
    destruct (Hprobe _ _ _ Eq) as (draining & md & s & _ & E & S).
    apply (probe_spec data_folder max_chunk_size decompress_max) in E as [_ E]. apply (proj1 S). specialize (E h).
    destruct (cas_files s !! chunk_path data_folder h); [by eexists|tauto]. }
  destruct (filter (λ g, g ∈ missing) _) as [|h0 hs0]; [intros H _; exact (Hpresent _ H)|].
  pose proof (stream_success (te_read env) (te_opened env) (te_stream env) (cm_node_id m) (cm_address m)
    (h0 :: hs0) h) as Hstream.
  assert (∀ sent, (∀ a, sent !! h = Some a → is_success a = true → ∃ status detail,
      (h, status, detail) ∈ sr_responses (te_stream env)
      ∧ a = make_ack (cm_node_id m) (cm_address m) h status detail) →
    acks_update present sent !! h = Some a → is_success a = true →
    is_Some (cas_files s1 !! chunk_path data_folder h)) as Hupd.
  { intros sent Hsent [Ha|[_ Ha]]%lookup_union_Some_raw Hs; [|by eapply Hpresent].
    destruct (Hsent _ Ha Hs) as (status & detail & Hin & ->).
    eapply replied_stored; [|exact Hs]. rewrite Forall_forall in Hrun. by apply Hrun. }
  destruct (replicate_missing_hashes _ _ _ _ _ _) as [sent|e sent|e]; cbn;
    [by apply Hupd|by apply Hupd|]. intros H _. exact (Hpresent _ H).
Qed.

(** C8: protection is custody: when the members of the view have distinct addresses and each
    target's answers come from the storage service of that node, whose sound store went
    from [before] to [after] meanwhile, a chunk the push stores as PLACED is held by at
    least [rf] distinct members other than the origin: each of their stores has, under the
    chunk's name, a blob that decompresses within the size limit to content with the
    chunk's hash. *)
Theorem placed_is_stored cluster hashes rf token origin run order p outs epoch o before after :
  (0 < rf)%Z → strip origin ≠ [] → NoDup (node_ids cluster) → NoDup (cm_address <$> members cluster) →
  plan_chunk_replication_targets blake3 cluster (ordered_unique hashes) rf token origin = Ok p →
  order ≡ₚ (map_to_list (target_chunks p)).*1 →
  push_chunk_replicas blake3 cluster hashes rf token origin run order = Ok outs → o ∈ outs →
  up_protection_state (outcome_update rf epoch o) = PLACED → is_valid_blake3_hex (oc_chunk_hash o) = true →
  (∀ a, sound (before a) ∧ step (before a) (after a)) →
  (∀ m hs r, run m hs = RpcOk r → ∃ env, r = execute_target_plan env m hs
     ∧ answered_by (before (cm_address m)) (after (cm_address m)) env) →
  ∃ ms, (rf <= Z.of_nat (length ms))%Z ∧ NoDup (cm_node_id <$> ms) ∧ NoDup (cm_address <$> ms)
    ∧ ∀ m, m ∈ ms → m ∈ members cluster ∧ cm_node_id m ≠ strip origin
        ∧ ∃ d raw, cas_files (after (cm_address m)) !! chunk_path data_folder (oc_chunk_hash o) = Some d
            ∧ decompress_max max_chunk_size d = Ok raw ∧ blake3_hex_digest blake3 raw = oc_chunk_hash o.
Proof.
  intros Hrf Ho Hids Haddr Hp Hord Hpush Hin Hst Hv Hstores Hrun.
  destruct (placed_means_copies blake3 cluster hashes rf token origin run order p outs epoch o
    Hrf Ho Hids Haddr Hp Hord Hpush Hin Hst) as (ms & H1 & H2 & H3 & H4).
  exists ms. split_and!; [done..|]. intros m Hm. destruct (H4 m Hm) as (Hmem & Hor & Hack).
  split_and!; [done|done|]. unfold acked_at in Hack.
  destruct (target_members p !! cm_address m) as [m'|] eqn:Em; [|done].
  destruct (target_chunks p !! cm_address m) as [hs|]; [|done].
  destruct (plan_exists blake3 cluster token origin rf Ho ltac:(lia) (ordered_unique hashes)) as (p' & Hp' & Hinv).
  rewrite Hp in Hp'. injection Hp' as <-. destruct (pi_member _ _ _ _ _ _ _ Hinv _ _ Em) as [Ea _].
  unfold acked, target_result in Hack. destruct (run m' hs) as [r|e] eqn:Er; [|cbn in Hack; by rewrite lookup_empty in Hack].
  destruct (Hrun _ _ _ Er) as (env & -> & Hans). rewrite Ea in Hans.
  destruct (tr_acks _ !! oc_chunk_hash o) as [a|] eqn:Ha; [|done].
  destruct (target_acks_stored _ _ _ _ _ _ _ Hans Hv Ha Hack) as [d Hd].
  destruct (Hstores (cm_address m)) as [Hs [_ Hk]].
  destruct (Hk Hs _ _ Hv Hd) as (raw & ? & ?). by exists d, raw.
Qed.
End custody.

(** ** Witness *)

(** Every target has the same empty store and answers through its storage service. *)
Definition custody_probe : SM CasState (list pystr) :=
  ProbeMissingChunks (u "/custody") toy_token false toy_metadata [toy_hash].

Definition custody_env : TargetEnv := {|
  te_probe _ batch :=
    match ProbeMissingChunks (u "/custody") toy_token false toy_metadata batch empty_store with
    | (Ok hs, _) => RpcOk hs
    | (Err _, _) => RpcFail []
    end;
  te_probe_batch := 100; te_read _ := RpcOk []; te_opened := RpcOk ();
  te_stream := {| sr_progress := 1;
    sr_responses := [(scr_chunk_hash toy_stored, scr_status toy_stored, scr_detail toy_stored)];
    sr_stream_error := None; sr_sender_error := None; sr_sender_alive := false |} |}.

Definition custody_run (m : ClusterMember) (hs : list pystr) : rpc TargetExecutionResult :=
  RpcOk (execute_target_plan custody_env m hs).

Definition custody_after : CasState := (toy_replicate empty_store).2.

Definition custody_plan : res ReplicationTargetPlan :=
  plan_chunk_replication_targets toy_digest example_cluster (ordered_unique [toy_hash]) 2 (u "t") [97%N].

Definition custody_outcome : ChunkReplicationOutcome := {|
  oc_chunk_hash := toy_hash; oc_required := 2; oc_protected := 2; oc_stored := 2;
  oc_already_present := 0; oc_error := None |}.

Lemma custody_pushes :
  push_chunk_replicas toy_digest example_cluster [toy_hash] 2 (u "t") [97%N] custody_run
    (plan_order custody_plan) = Ok [custody_outcome].
Proof. vm_compute. reflexivity. Qed.

Lemma custody_requests_ok :
  Forall (λ c, good_neighbours (u "/custody") (accepted 1000 toy_digest (λ _ b, Ok b)) c.1)
    [(quiet_env, (toy_hash, [Byte.x42])); (quiet_env, (u "../evil", [Byte.x42]))].
Proof. apply Forall_cons; split; [|apply Forall_cons; split; [|constructor]]; intros n s; reflexivity. Qed.

Lemma custody_step :
  store_step (u "/custody") (accepted 1000 toy_digest (λ _ b, Ok b)) empty_store custody_after.
Proof.
  unfold custody_after. destruct toy_replicates as (x & E & _). revert E.
  unfold toy_replicate, ReplicateChunks. rewrite sm_bind_spec, toy_call, sm_bind_spec.
  edestruct run_commits_spec as (rs & s' & -> & _ & S & _); [|intros _; exact S].
  apply Forall_forall. intros c [_ Hc]%list_elem_of_filter.
  pose proof custody_requests_ok as H. rewrite Forall_forall in H. by apply H.
Qed.

Lemma custody_answers :
  answered_by (u "/custody") 1000 toy_digest (λ _ b, Ok b) (λ _, []) toy_token empty_store custody_after
    custody_env.
Proof.
  split.
  - intros j batch hs E. exists false, toy_metadata, empty_store. split_and!; [reflexivity| |apply custody_step].
    revert E. cbn [te_probe custody_env].
    destruct (ProbeMissingChunks _ _ _ _ batch empty_store) as [[hs'|] s'] eqn:Ep; [|done].
    intros [= ->]. by pose proof (proj1 (probe_spec (u "/custody") 1000 (λ _ b, Ok b) _ _ _ _ _ _ _ Ep)) as ->.
  - apply Forall_singleton. destruct toy_replicates as (x & E & _).
    exists false, toy_metadata. do 2 eexists. exists empty_store, [toy_stored; x], custody_after, toy_stored.
    split_and!; [reflexivity| |reflexivity|exact custody_requests_ok|intros l; exact (reflexivity l)|by left|done].
    change (toy_replicate empty_store = (Ok [toy_stored; x], custody_after)).
    unfold custody_after. by rewrite <-E, <-surjective_pairing.
Qed.

Lemma placed_is_stored_witness :
  ∃ ms, (2 <= Z.of_nat (length ms))%Z ∧ NoDup (cm_node_id <$> ms)
    ∧ Forall (λ m, ∃ d, cas_files custody_after !! chunk_path (u "/custody") toy_hash = Some d) ms.
Proof.
  destruct (plan_exists toy_digest example_cluster (u "t") [97%N] 2 ltac:(by compute) ltac:(lia)
    (ordered_unique [toy_hash])) as (p & Hp & _).
  pose proof custody_pushes as E. unfold custody_plan in E. rewrite Hp in E.
  destruct (placed_is_stored (u "/custody") 1000 toy_digest (λ _ b, Ok b) (λ _, []) toy_token
    example_cluster [toy_hash] 2 (u "t") [97%N] custody_run _ p _ (u "e") custody_outcome
    (λ _, empty_store) (λ _, custody_after) ltac:(lia) ltac:(by compute) ltac:(by_compute) ltac:(by_compute)
    Hp (Permutation_refl _) E ltac:(left) ltac:(by compute) ltac:(by vm_compute)) as (ms & H1 & H2 & _ & H).
  - intros _. split; [apply empty_store_ok|apply custody_step].
  - intros m hs r [= <-]. exists custody_env. split; [done|apply custody_answers].
  - exists ms. split_and!; [done..|]. apply Forall_forall. intros m Hm.
    destruct (H m Hm) as (_ & _ & d & raw & Hd & _). by exists d.
Defined.
