(* ===== verification/LocalGc.v ===== *)
(** * Garbage collection of local files

    [gc/local_files.py], [gc/path_safety.py] and their users [cas/gc.py],
    [node/storage/ec_gc.py] and [metadata/packs/gc.py], on a model of the file system with
    directories, symbolic links and other processes that change the tree between any two
    system calls. *)

From S2P Require Import Prelude PyStr Common Catalog Snapshots.

(** ** The file system

    A path is the list of the components of an absolute path without [.] and [..]: the code
    makes every path from a resolved root and the names of directory entries, so
    [os.path.abspath] is the identity on them. *)

Notation path := (list pystr) (only parsing).

Record Stat := {
  st_mode : Z; st_dev : Z; st_ino : Z; st_size : Z;
  st_mtime : Q; st_mtime_ns : Z; st_ctime_ns : Z; st_reparse_tag : Z }.

(** The target of a link: absolute or not, and its components. *)
Record Entry := { en_stat : Stat; en_target : bool * path }.

Notation FS := (gmap path Entry).

(** [stat.S_ISLNK] and the like. *)
Definition S_IFMT (mode : Z) : Z := Z.land mode 61440.
Definition S_ISLNK (mode : Z) : bool := (S_IFMT mode =? 40960)%Z.
Definition S_ISDIR (mode : Z) : bool := (S_IFMT mode =? 16384)%Z.
Definition S_ISREG (mode : Z) : bool := (S_IFMT mode =? 32768)%Z.

(** [os.path.realpath]: follows links component by component; at most [fuel] of them, as
    the operating system does, the rest of the path being then left as it is. *)
Fixpoint realpath_at (fs : FS) (fuel : nat) : path → path → path :=
  fix go (here rest : path) : path :=
    match rest with
    | [] => here
    | c :: rest' =>
        if bool_decide (c = u "..") then go (removelast here) rest'
        else match fs !! (here ++ [c]) with
        | Some e =>
            if S_ISLNK (st_mode (en_stat e)) then
              match fuel with
              | O => here ++ rest
              | S fuel' =>
                  realpath_at fs fuel' (if (en_target e).1 then [] else here) ((en_target e).2 ++ rest')
              end
            else go (here ++ [c]) rest'
        | None => go (here ++ [c]) rest'
        end
    end.

Definition realpath (fs : FS) (p : path) : path := realpath_at fs 40 [] p.

(** Where a path leads if it is a link. *)
Definition link_at (fs : FS) (p : path) : option (bool * path) :=
  match fs !! p with
  | Some e => if S_ISLNK (st_mode (en_stat e)) then Some (en_target e) else None
  | None => None
  end.

(** The directory entry that the last component of a path names. *)
Definition locate (fs : FS) (p : path) : path :=
  realpath fs (removelast p) ++ match last p with Some n => [n] | None => [] end.

#[global] Arguments realpath : simpl never.
#[global] Arguments locate : simpl never.

Definition stat_of (fs : FS) (p : path) : option Stat := en_stat <$> fs !! realpath fs p.
Definition path_exists (fs : FS) (p : path) : bool := bool_decide (is_Some (stat_of fs p)).
Definition path_is_dir (fs : FS) (p : path) : bool :=
  match stat_of fs p with Some s => S_ISDIR (st_mode s) | None => false end.

Definition child_name (d p : path) : option pystr :=
  match last p with
  | Some n => if decide (p = d ++ [n]) then Some n else None
  | None => None
  end.
Definition children (fs : FS) (d : path) : list pystr := omap (child_name d) (map_to_list fs).*1.

(** ** The state of a collection

    What other processes do before the [n]-th system call, and which calls fail, those
    inside [os.path.realpath] apart. *)
Record GcEnv := {
  ge_others : nat → FS → FS;
  ge_lstat_fails : nat → path → bool;
  ge_realpath_fails : nat → path → bool;
  ge_listdir_fails : nat → path → bool;
  ge_unlink_fails : nat → path → bool;
  ge_fsync_fails : path → bool }.

Inductive GcError :=
  | RootNotDirectory | CandidateRejected (p : path) | CandidateChanged (p : path)
  | DeletionFailed (p : path) | FsyncFailed (d : path)
  | InspectionFailed (d : path).

(** The tree, the system calls made so far, the local variables of [collect_files_by_age]
    and the candidates reported. *)
Record GcState := {
  gs_fs : FS; gs_calls : nat;
  files_seen : Z; files_collectable : Z; files_deleted : Z; files_retained_by_policy : Z;
  files_skipped_by_age : Z; bytes_collectable : Z; bytes_deleted : Z;
  gs_errors : list GcError; touched_dirs : gset path; gs_reported : list path }.

Definition initial_state (fs : FS) : GcState := {|
  gs_fs := fs; gs_calls := 0; files_seen := 0; files_collectable := 0; files_deleted := 0;
  files_retained_by_policy := 0; files_skipped_by_age := 0; bytes_collectable := 0;
  bytes_deleted := 0; gs_errors := []; touched_dirs := ∅; gs_reported := [] |}.

Definition set_fs (fs : FS) (calls : nat) (s : GcState) : GcState := {|
  gs_fs := fs; gs_calls := calls; files_seen := files_seen s;
  files_collectable := files_collectable s; files_deleted := files_deleted s;
  files_retained_by_policy := files_retained_by_policy s;
  files_skipped_by_age := files_skipped_by_age s; bytes_collectable := bytes_collectable s;
  bytes_deleted := bytes_deleted s; gs_errors := gs_errors s; touched_dirs := touched_dirs s;
  gs_reported := gs_reported s |}.

(** Adds to the counters, in the order of the record. *)
Definition count (seen collectable deleted retained skipped bcollectable bdeleted : Z) (s : GcState)
  : GcState := {|
  gs_fs := gs_fs s; gs_calls := gs_calls s; files_seen := files_seen s + seen;
  files_collectable := files_collectable s + collectable; files_deleted := files_deleted s + deleted;
  files_retained_by_policy := files_retained_by_policy s + retained;
  files_skipped_by_age := files_skipped_by_age s + skipped;
  bytes_collectable := bytes_collectable s + bcollectable; bytes_deleted := bytes_deleted s + bdeleted;
  gs_errors := gs_errors s; touched_dirs := touched_dirs s; gs_reported := gs_reported s |}%Z.

Definition log (errors : list GcError) (touched : gset path) (reported : list path) (s : GcState)
  : GcState := {|
  gs_fs := gs_fs s; gs_calls := gs_calls s; files_seen := files_seen s;
  files_collectable := files_collectable s; files_deleted := files_deleted s;
  files_retained_by_policy := files_retained_by_policy s;
  files_skipped_by_age := files_skipped_by_age s; bytes_collectable := bytes_collectable s;
  bytes_deleted := bytes_deleted s; gs_errors := gs_errors s ++ errors;
  touched_dirs := touched ∪ touched_dirs s; gs_reported := gs_reported s ++ reported |}.

Section gc.
Context (env : GcEnv).
(** The reparse tags that redirect a path, on the platforms that have them. *)
Context (redirect_tags : list Z).

(** ** path_safety.py *)

Definition is_filesystem_redirection (s : Stat) : bool :=
  S_ISLNK (st_mode s)
  || (negb (st_reparse_tag s =? 0)%Z
      && bool_decide (st_reparse_tag s ∈ filter (λ t, t ≠ 0%Z) redirect_tags)).

Definition same_file_identity (first second : Stat) : bool :=
  if negb (st_ino first =? 0)%Z && negb (st_ino second =? 0)%Z
  then (st_dev first =? st_dev second)%Z && (st_ino first =? st_ino second)%Z
  else (st_mode first =? st_mode second)%Z && (st_size first =? st_size second)%Z
       && (st_mtime_ns first =? st_mtime_ns second)%Z && (st_ctime_ns first =? st_ctime_ns second)%Z.

(** [_is_within]: the common path of the two is the root. *)
Definition is_within (root candidate : path) : bool := bool_decide (root `prefix_of` candidate).

(** *** System calls

    Each is one step; other processes act before each of them. *)

Definition others : SM GcState nat := λ s,
  (Ok (gs_calls s), set_fs (ge_others env (gs_calls s) (gs_fs s)) (S (gs_calls s)) s).

Definition sys_lstat (p : path) : SM GcState (res Stat) :=
  n ← others;
  sgets (λ s, if ge_lstat_fails env n p then Err OSError
              else match gs_fs s !! locate (gs_fs s) p with
                   | Some e => Ok (en_stat e)
                   | None => Err FileNotFoundError
                   end).

(** The [lstat] and the [readlink] of [os.path.realpath]: [None] when it is no link, or when
    the call fails. *)
Definition sys_readlink (p : path) : SM GcState (option (bool * path)) :=
  n ← others;
  sgets (λ s, if ge_realpath_fails env n p then None else link_at (gs_fs s) (locate (gs_fs s) p)).

Definition sys_exists (p : path) : SM GcState bool := _ ← others; sgets (λ s, path_exists (gs_fs s) p).
Definition sys_is_dir (p : path) : SM GcState bool := _ ← others; sgets (λ s, path_is_dir (gs_fs s) p).

(** [Path.iterdir]: the names are read at once. *)
Definition sys_iterdir (d : path) : SM GcState (list pystr) :=
  n ← others;
  s ← sget;
  if ge_listdir_fails env n d || negb (path_is_dir (gs_fs s) d) then sraise OSError
  else mret (children (gs_fs s) (realpath (gs_fs s) d)).

(** [Path.unlink]: it does not remove directories. *)
Definition sys_unlink (p : path) : SM GcState unit :=
  n ← others;
  s ← sget;
  if ge_unlink_fails env n p then sraise OSError
  else match gs_fs s !! locate (gs_fs s) p with
  | None => sraise FileNotFoundError
  | Some e =>
      if S_ISDIR (st_mode (en_stat e)) then sraise OSError
      else smodify (λ s, set_fs (delete (locate (gs_fs s) p) (gs_fs s)) (gs_calls s) s)
  end.

(** [os.path.realpath], as the calls it makes: each component is looked at, and a link is
    then read, while others may change the tree in between. *)
Fixpoint sys_realpath_at (fuel : nat) : path → path → SM GcState path :=
  fix go (here rest : path) : SM GcState path :=
    match rest with
    | [] => mret here
    | c :: rest' =>
        if bool_decide (c = u "..") then go (removelast here) rest'
        else
          seen ← sys_readlink (here ++ [c]);
          match seen with
          | None => go (here ++ [c]) rest'
          | Some _ =>
              target ← sys_readlink (here ++ [c]);
              match target, fuel with
              | None, _ => go (here ++ [c]) rest'
              | Some _, O => mret (here ++ rest)
              | Some t, S fuel' => sys_realpath_at fuel' (if t.1 : bool then [] else here) (t.2 ++ rest')
              end
          end
    end.

Definition sys_realpath (p : path) : SM GcState path := sys_realpath_at 40 [] p.

(** *** Validation *)

(** The loop over the components below the root. *)
Fixpoint check_components (current parts : path) : SM GcState unit :=
  match parts with
  | [] => mret ()
  | component :: parts' =>
      let current := current ++ [component] in
      st ← sys_lstat current;
      match st with
      | Err _ => sraise GarbageCollectionPathError
      | Ok s =>
          if is_filesystem_redirection s then sraise GarbageCollectionPathError
          else if bool_decide (parts' ≠ []) && negb (S_ISDIR (st_mode s))
          then sraise GarbageCollectionPathError
          else check_components current parts'
      end
  end.

Definition validate_gc_regular_file (root_dir candidate : path) : SM GcState Stat :=
  root ← sys_realpath root_dir;
  if negb (is_within root candidate) then sraise GarbageCollectionPathError
  else
    check_components root (drop (length root) candidate);;
    root_real ← sys_realpath root;
    candidate_real ← sys_realpath candidate;
    if negb (is_within root_real candidate_real) then sraise GarbageCollectionPathError
    else
      st ← sys_lstat candidate;
      match st with
      | Err _ => sraise GarbageCollectionPathError
      | Ok final_stat =>
          if is_filesystem_redirection final_stat || negb (S_ISREG (st_mode final_stat))
          then sraise GarbageCollectionPathError
          else mret final_stat
      end.

(** The second look at a candidate and then its [unlink]. *)
Definition delete_if_same (root p : path) (first : Stat) : SM GcState unit :=
  second ← attempt (validate_gc_regular_file root p);
  match second with
  | Err _ => smodify (log [DeletionFailed p] ∅ [])
  | Ok current =>
      if negb (same_file_identity first current) then smodify (log [CandidateChanged p] ∅ [])
      else
        unlinked ← attempt (sys_unlink p);
        match unlinked with
        | Err _ => smodify (log [DeletionFailed p] ∅ [])
        | Ok _ =>
            smodify (count 0 0 1 0 0 0 (st_size current));;
            smodify (log [] {[removelast p]} [])
        end
  end.

(** ** local_files.py *)

(** A generator: what running its consumer on every item it yields gives. *)
Definition generator : Type := ∀ A : Type, (A → path → SM GcState A) → A → SM GcState A.

(** The order of [pathlib] paths: component by component. *)
Fixpoint path_leb (p q : path) : bool :=
  match p, q with
  | [], _ => true
  | _ :: _, [] => false
  | c :: p', d :: q' => str_ltb c d || (bool_decide (c = d) && path_leb p' q')
  end.

(** [sorted(files)] *)
Definition sorted_files (files : generator) : generator := λ A f a,
  l ← files (list path) (λ acc p, mret (acc ++ [p])) [];
  sfold f (py_sorted path_leb l) a.

Section collect.
Context (root : path) (cutoff : option Q) (dry_run : bool) (retain_file : option (path → bool)).

(** The body of the loop. *)
Definition collect_one (p : path) : SM GcState unit :=
  seen ← attempt (validate_gc_regular_file root p);
  match seen with
  | Err _ => smodify (log [CandidateRejected p] ∅ [])
  | Ok stat_result =>
      smodify (count 1 0 0 0 0 0 0);;
      match cutoff with
      | None => mret ()
      | Some cutoff =>
          if match retain_file with Some retain => retain p | None => false end
          then smodify (count 0 0 0 1 0 0 0)
          else if negb (Qle_bool (st_mtime stat_result) cutoff) then smodify (count 0 0 0 0 1 0 0)
          else
            smodify (count 0 1 0 0 0 (st_size stat_result) 0);;
            smodify (log [] ∅ [p]);;
            if dry_run then mret () else delete_if_same root p stat_result
      end
  end.
End collect.

(** [_fsync_touched_dirs] *)
Definition fsync_touched_dirs : SM GcState unit :=
  smodify (λ s, log (FsyncFailed <$> filter (λ d, ge_fsync_fails env d = true)
                       (py_sorted path_leb (elements (touched_dirs s)))) ∅ [] s).

(** [now] is [time.time()]; the result is the final state. *)
Definition collect_files_by_age (now : Q) (root_dir : path) (files : generator)
    (max_age_seconds : option Z) (dry_run : bool) (retain_file : option (path → bool))
    (sort_files : bool) : SM GcState unit :=
  root ← sys_realpath root_dir;
  let cutoff := (λ age, now - inject_Z (Z.max age 0))%Q <$> max_age_seconds in
  exists_ ← sys_exists root;
  if negb exists_ then mret ()
  else
    directory ← sys_is_dir root;
    if negb directory then smodify (log [RootNotDirectory] ∅ [])
    else
      (if sort_files then sorted_files files else files) unit
        (λ _ p, collect_one root cutoff dry_run retain_file p) ();;
      fsync_touched_dirs.

(** ** cas/gc.py *)

Definition path_name (p : path) : pystr := default [] (last p).

(** [except OSError: continue] around [lstat]; otherwise the directory is entered when
    [ok] accepts it. *)
Definition enter_dir {A} (p : path) (ok : bool) (inside : SM GcState A) (skip : A) : SM GcState A :=
  st ← sys_lstat p;
  match st with
  | Err _ => mret skip
  | Ok st =>
      if is_filesystem_redirection st || negb (S_ISDIR (st_mode st)) || negb ok then mret skip
      else inside
  end.

(** [root.exists() and root.is_dir()] *)
Definition is_there (root : path) : SM GcState bool :=
  exists_ ← sys_exists root;
  if exists_ : bool then sys_is_dir root else mret false.

Definition iter_cas_chunk_files (root : path) : generator := λ A f a,
  there ← is_there root;
  if negb there then mret a
  else
    names ← sys_iterdir root;
    sfold (λ a first_level, enter_dir (root ++ [first_level]) (length first_level =? 2)%nat (
      names ← sys_iterdir (root ++ [first_level]);
      sfold (λ a second_level, enter_dir (root ++ [first_level; second_level]) (length second_level =? 2)%nat (
        names ← sys_iterdir (root ++ [first_level; second_level]);
        sfold (λ a chunk_hash,
          if is_valid_blake3_hex chunk_hash && bool_decide (first_level = take 2 chunk_hash)
             && bool_decide (second_level = take 2 (drop 2 chunk_hash))
          then f a (root ++ [first_level; second_level; chunk_hash]) else mret a) names a) a) names a) a)
      names a.

Definition collect_cas_chunks (now : Q) (root_dir : path) (max_age_seconds : option Z) (dry_run : bool)
    (reachable_hashes : option (list pystr)) : SM GcState unit :=
  root ← sys_realpath root_dir;
  collect_files_by_age now root (iter_cas_chunk_files root) max_age_seconds dry_run
    ((λ reachable p, bool_decide (path_name p ∈ reachable)) <$> reachable_hashes) false.

(** ** node/storage/ec_gc.py *)

(** [_SHARD_FILE_RE.fullmatch]: the groups [index] and [shard_hash]. *)
Definition match_shard_file (name : pystr) : option (pystr * pystr) :=
  match str_find 45 name with
  | None => None
  | Some i =>
      let index := take i name in
      let shard_hash := take 64 (drop (S i) name) in
      if (1 <=? i)%nat && forallb (λ c, (48 <=? c) && (c <=? 57))%N index
         && (length shard_hash =? 64)%nat && forallb is_hex_lower shard_hash
         && bool_decide (drop (S i + 64) name = u ".stec")
      then Some (index, shard_hash) else None
  end.

(** [f"{n:03d}"] *)
Definition pad3 (n : Z) : pystr := let s := str_of_Z n in replicate (3 - length s) 48%N ++ s.

Definition is_shard_file (name : pystr) : bool :=
  match match_shard_file name with
  | None => false
  | Some (index, shard_hash) =>
      is_valid_blake3_hex shard_hash
      && bool_decide (name = pad3 (int_of_decimal index) ++ u "-" ++ shard_hash ++ u ".stec")
  end.

Definition iter_ec_shard_files (root : path) : generator := λ A f a,
  there ← is_there root;
  if negb there then mret a
  else
    names ← sys_iterdir root;
    sfold (λ a prefix, enter_dir (root ++ [prefix]) (length prefix =? 2)%nat (
      names ← sys_iterdir (root ++ [prefix]);
      sfold (λ a pack_hash,
        enter_dir (root ++ [prefix; pack_hash])
          (is_valid_blake3_hex pack_hash && bool_decide (prefix = take 2 pack_hash)) (
        names ← sys_iterdir (root ++ [prefix; pack_hash]);
        sfold (λ a name, if is_shard_file name then f a (root ++ [prefix; pack_hash; name]) else mret a)
          names a) a) names a) a)
      names a.

Definition collect_ec_shards (now : Q) (root_dir : path) (max_age_seconds : option Z) (dry_run : bool)
  : SM GcState unit :=
  root ← sys_realpath root_dir;
  collect_files_by_age now root (iter_ec_shard_files root) max_age_seconds dry_run None false.

(** ** metadata/packs/gc.py *)

(** [_RECOVERED_PACK_RE.fullmatch] *)
Definition is_recovered_pack_file (name : pystr) : bool :=
  bool_decide (take 10 name = u "recovered-")
  && (length (take 64 (drop 10 name)) =? 64)%nat && forallb is_hex_lower (take 64 (drop 10 name))
  && bool_decide (drop 74 name = u ".stopanmetapack").

Definition iter_recovered_pack_files (root : path) : generator := λ A f a,
  there ← is_there root;
  if negb there then mret a
  else
    names ← sys_iterdir root;
    sfold (λ a name, if is_recovered_pack_file name then f a (root ++ [name]) else mret a) names a.

(** The directory and the age limit come from the command line or the configuration. *)
Definition collect_recovered_metadata_packs (now : Q) (root_dir : path) (max_age_days : Z) (dry_run : bool)
  : SM GcState unit :=
  root ← sys_realpath root_dir;
  collect_files_by_age now root (iter_recovered_pack_files root)
    (if (max_age_days =? 0)%Z then None else Some (max_age_days * (24 * 60 * 60))%Z) dry_run None false.

(** ** cli/gc.py *)

(** [_cmd_generated_chunks] on the catalogue [c]; [grace_seconds] is
    [int(float(grace_hours) * 3600)]. *)
Definition cmd_generated_chunks (now : Q) (c : Catalog) (chunk_store : path) (grace_seconds : Z)
    (dry_run : bool) : SM GcState unit :=
  collect_cas_chunks now chunk_store (Some grace_seconds) dry_run (Some (gc_protected_chunk_hashes c)).

(** [_cmd_received_chunks] *)
Definition cmd_received_chunks (now : Q) (chunk_store : path) (max_age_days : Z) (dry_run : bool)
  : SM GcState unit :=
  collect_cas_chunks now chunk_store
    (if (max_age_days =? 0)%Z then None else Some (max_age_days * (24 * 3600))%Z) dry_run None.

(** [_cmd_received_ec] *)
Definition cmd_received_ec (now : Q) (ec_store : path) (max_age_days : Z) (dry_run : bool)
  : SM GcState unit :=
  collect_ec_shards now ec_store
    (if (max_age_days =? 0)%Z then None else Some (max_age_days * (24 * 3600))%Z) dry_run.
End gc.

(** ** What a step may do to one directory entry *)

Lemma realpath_snoc_here fs c fuel here rest :
  match fs !! (realpath_at fs fuel here rest ++ [c]) with
  | Some e => S_ISLNK (st_mode (en_stat e)) = false
  | None => True
  end → c ≠ u ".." →
  realpath_at fs fuel here (rest ++ [c]) = realpath_at fs fuel here rest ++ [c].
Proof.
  intros H Hc. revert here rest H. induction fuel as [|fuel IHf]; intros here rest; revert here.
  all: induction rest as [|d rest IHr]; intros here H; cbn [app realpath_at] in *.
  1, 3: rewrite bool_decide_false by done; destruct (fs !! (here ++ [c])) as [e|]; [by rewrite H|done].
  - case_bool_decide; [by apply IHr|]. destruct (fs !! (here ++ [d])) as [e|]; [|by apply IHr].
    destruct (S_ISLNK _); [|by apply IHr]. by rewrite <-app_assoc.
  - case_bool_decide; [by apply IHr|]. destruct (fs !! (here ++ [d])) as [e|]; [|by apply IHr].
    destruct (S_ISLNK _); [|by apply IHr]. rewrite app_assoc. by apply IHf.
Qed.

Lemma removelast_snoc {A} (p : list A) c : removelast (p ++ [c]) = p.
Proof. by rewrite removelast_app, app_nil_r. Qed.

(** *** Links

    What a path leads to depends on the links of the tree only. *)

Definition same_links (fs fs' : FS) : Prop := ∀ p, link_at fs p = link_at fs' p.

#[export] Instance same_links_equivalence : Equivalence same_links.
Proof. split; [by intros fs p|by intros fs fs' H p|]. intros f1 f2 f3 H K p. by rewrite H. Qed.

Lemma realpath_at_step fs fuel here c rest :
  realpath_at fs fuel here (c :: rest)
  = if bool_decide (c = u "..") then realpath_at fs fuel (removelast here) rest
    else match link_at fs (here ++ [c]), fuel with
    | None, _ => realpath_at fs fuel (here ++ [c]) rest
    | Some _, O => here ++ c :: rest
    | Some t, S fuel' => realpath_at fs fuel' (if t.1 then [] else here) (t.2 ++ rest)
    end.
Proof.
  unfold link_at. destruct fuel; cbn [realpath_at]; (case_bool_decide; [done|]);
    (destruct (fs !! (here ++ [c])) as [e|]; [|done]); by destruct (S_ISLNK _).
Qed.

Lemma realpath_at_links fs fs' fuel here rest :
  same_links fs fs' → realpath_at fs fuel here rest = realpath_at fs' fuel here rest.
Proof.
  intros Hl. revert here rest. induction fuel as [|fuel IHf]; intros here rest; revert here;
    (induction rest as [|c rest IHr]; intros here; [done|]); rewrite !realpath_at_step, Hl;
    (case_bool_decide; [apply IHr|]); (destruct (link_at fs' (here ++ [c])) as [t|]; [|apply IHr]); [done|apply IHf].
Qed.

Lemma realpath_links fs fs' p : same_links fs fs' → realpath fs p = realpath fs' p.
Proof. apply realpath_at_links. Qed.

Lemma locate_links fs fs' p : same_links fs fs' → locate fs p = locate fs' p.
Proof. intros H. unfold locate. by rewrite (realpath_links fs fs'). Qed.

(** A path without links in it. *)
Definition resolved (fs : FS) (p : path) : Prop :=
  ∀ a c b, p = a ++ c :: b → c ≠ u ".." ∧ link_at fs (a ++ [c]) = None.

Lemma resolved_nil fs : resolved fs [].
Proof. by intros [] c b. Qed.

Lemma resolved_snoc fs p c : resolved fs p → c ≠ u ".." → link_at fs (p ++ [c]) = None → resolved fs (p ++ [c]).
Proof.
  intros Hp Hc Hl a d b E. destruct b as [|x b _] using rev_ind.
  - apply app_inj_2 in E as [-> [= ->]]; done.
  - rewrite app_comm_cons, app_assoc in E. apply app_inj_2 in E as [E _]; [|done]. by eapply Hp.
Qed.

Lemma resolved_removelast fs p : resolved fs p → resolved fs (removelast p).
Proof.
  destruct p as [|x p _] using rev_ind; [done|]. rewrite removelast_snoc. intros H a c b ->. apply (H a c (b ++ [x])).
  by rewrite <-app_assoc.
Qed.

Lemma realpath_resolved fs p : resolved fs p → realpath fs p = p.
Proof.
  induction p as [|c p IH] using rev_ind; intros H; [done|]. destruct (H p c []) as [Hc Hl]; [done|].
  apply resolved_removelast in H. rewrite removelast_snoc in H. pose proof (IH H) as E.
  unfold realpath in *. rewrite realpath_snoc_here; rewrite ?E; [done| |done].
  unfold link_at in Hl. destruct (fs !! (p ++ [c])) as [e|]; [|done]. by destruct (S_ISLNK _).
Qed.

(** ** Walking the tree

    A relation on states that system calls by others respect is respected by the
    generators when their consumer respects it. *)

Definition chunk_named (p : path) : Prop := ∃ p' h, p = p' ++ [h] ∧ is_valid_blake3_hex h = true.

Section walking.
Context (env : GcEnv) (tags : list Z) (R : GcState → GcState → Prop) `{!PreOrder R}.
Context (Hothers : sm_respects R (others env)).

Lemma walk_lstat p : sm_respects R (sys_lstat env p).
Proof. apply respects_bind; [apply _|done|]. intros n. apply respects_gets, _. Qed.

Lemma walk_readlink p : sm_respects R (sys_readlink env p).
Proof. apply respects_bind; [apply _|done|]. intros n. apply respects_gets, _. Qed.

Lemma walk_exists p : sm_respects R (sys_exists env p).
Proof. apply respects_bind; [apply _|done|]. intros n. apply respects_gets, _. Qed.

Lemma walk_is_dir p : sm_respects R (sys_is_dir env p).
Proof. apply respects_bind; [apply _|done|]. intros n. apply respects_gets, _. Qed.

Lemma walk_is_there p : sm_respects R (is_there env p).
Proof.
  apply respects_bind; [apply _|apply walk_exists|]. intros []; [apply walk_is_dir|apply respects_ret, _].
Qed.

Lemma walk_realpath p : sm_respects R (sys_realpath env p).
Proof.
  unfold sys_realpath. generalize 40 (@nil pystr). intros fuel. revert p.
  induction fuel as [|fuel IHf]; intros rest; (induction rest as [|c rest IHr]; intros here; cbn [sys_realpath_at]; [apply respects_ret, _|]).
  all: case_bool_decide; [apply IHr|]; apply respects_bind; [apply _|apply walk_readlink|]; intros [t|]; [|apply IHr].
  all: apply respects_bind; [apply _|apply walk_readlink|]; intros [t'|]; [|apply IHr].
  - apply respects_ret, _.
  - apply IHf.
Qed.

Lemma walk_components current parts : sm_respects R (check_components env tags current parts).
Proof.
  revert current. induction parts as [|c parts IH]; intros current; cbn [check_components]; [apply respects_ret, _|].
  apply respects_bind; [apply _|apply walk_lstat|]. intros [st|]; [|apply respects_raise, _].
  destruct (is_filesystem_redirection _ _); [apply respects_raise, _|]. destruct (_ && _); [apply respects_raise, _|]. apply IH.
Qed.

Lemma walk_validate root p : sm_respects R (validate_gc_regular_file env tags root p).
Proof.
  apply respects_bind; [apply _|apply walk_realpath|]. intros r. destruct (negb _); [apply respects_raise, _|].
  apply respects_bind; [apply _|apply walk_components|]. intros _.
  apply respects_bind; [apply _|apply walk_realpath|]. intros rr.
  apply respects_bind; [apply _|apply walk_realpath|]. intros cr. destruct (negb _); [apply respects_raise, _|].
  apply respects_bind; [apply _|apply walk_lstat|]. intros [st|]; [|apply respects_raise, _].
  destruct (_ || _); [apply respects_raise, _|apply respects_ret, _].
Qed.

Lemma walk_iterdir d : sm_respects R (sys_iterdir env d).
Proof.
  apply respects_bind; [apply _|done|]. intros n.
  apply respects_bind; [apply _|apply respects_gets, _|]. intros s.
  destruct (_ || _); [apply respects_raise|apply respects_ret]; apply _.
Qed.

Lemma walk_sfold {A B} (f : A → B → SM GcState A) l a :
  (∀ a x, sm_respects R (f a x)) → sm_respects R (sfold f l a).
Proof.
  revert a. induction l as [|x l IH]; intros a Hf; cbn; [apply respects_ret, _|].
  apply respects_bind; [apply _|apply Hf|]. intros a'. by apply IH.
Qed.

Lemma walk_enter_dir {A} p ok (inside : SM GcState A) skip :
  sm_respects R inside → sm_respects R (enter_dir env tags p ok inside skip).
Proof.
  intros Hi. apply respects_bind; [apply _|apply walk_lstat|]. intros [st|]; [|apply respects_ret, _].
  by destruct (_ || _); [apply respects_ret, _|].
Qed.

(** The generator only yields paths that satisfy [C]. *)
Definition yields (G : generator) (C : path → Prop) : Prop :=
  ∀ A (f : A → path → SM GcState A) a,
    (∀ a p, C p → sm_respects R (f a p)) → sm_respects R (G A f a).

Ltac walk_level names :=
  apply respects_bind; [apply _|apply walk_iterdir|]; intros names; apply walk_sfold.

(** The candidates of the store of chunks are named like chunks. *)
Lemma cas_yields root : yields (iter_cas_chunk_files env tags root) chunk_named.
Proof.
  intros A f a Hf. apply respects_bind; [apply _|apply walk_is_there|]. intros there.
  destruct (negb there); [apply respects_ret, _|].
  walk_level n1. intros a1 d1. apply walk_enter_dir. walk_level n2. intros a2 d2. apply walk_enter_dir.
  walk_level n3. intros a3 h. destruct (_ && _) eqn:E; [|apply respects_ret, _]. bool_hyps. apply Hf.
  exists (root ++ [d1; d2]), h. by rewrite <-app_assoc.
Qed.

Lemma ec_yields root :
  yields (iter_ec_shard_files env tags root) (λ p, ∃ p' name, p = p' ++ [name] ∧ is_shard_file name = true).
Proof.
  intros A f a Hf. apply respects_bind; [apply _|apply walk_is_there|]. intros there.
  destruct (negb there); [apply respects_ret, _|].
  walk_level n1. intros a1 d1. apply walk_enter_dir. walk_level n2. intros a2 d2. apply walk_enter_dir.
  walk_level n3. intros a3 name. destruct (is_shard_file name) eqn:E; [|apply respects_ret, _]. apply Hf.
  exists (root ++ [d1; d2]), name. by rewrite <-app_assoc.
Qed.

Lemma recovered_yields root :
  yields (iter_recovered_pack_files env root)
    (λ p, ∃ p' name, p = p' ++ [name] ∧ is_recovered_pack_file name = true).
Proof.
  intros A f a Hf. apply respects_bind; [apply _|apply walk_is_there|]. intros there.
  destruct (negb there); [apply respects_ret, _|].
  walk_level n1. intros a1 name. destruct (is_recovered_pack_file name) eqn:E; [|apply respects_ret, _].
  apply Hf. by exists root, name.
Qed.

Section collecting.
Context (Hlog : ∀ e, sm_respects R (smodify (log e ∅ []))).

(** A collection respects what the handling of each candidate respects. *)
Lemma walk_collect now root_dir files age dry_run retain_file C s :
  let cutoff := (λ a, now - inject_Z (Z.max a 0))%Q <$> age in
  yields files C →
  (∀ root s1, sys_realpath env root_dir s = (Ok root, s1) →
     ∀ p, C p → sm_respects R (collect_one env tags root cutoff dry_run retain_file p)) →
  R s (collect_files_by_age env tags now root_dir files age dry_run retain_file false s).2.
Proof.
  intros cutoff Hy Hone. unfold collect_files_by_age. apply (respects_bind_at R); [apply walk_realpath|].
  intros root s1 E. specialize (Hone root s1 E). fold cutoff. generalize s1. clear s s1 E.
  refine (respects_bind R _ _ _ _); [apply walk_exists|]. intros []; cbn [negb]; [|apply respects_ret, _].
  apply respects_bind; [apply _|apply walk_is_dir|]. intros []; cbn [negb]; [|apply Hlog].
  apply respects_bind; [apply _| |].
  - apply Hy. intros _ p HC. by apply Hone.
  - intros _ s1. apply Hlog.
Qed.
End collecting.
End walking.

Section safety.
Context (env : GcEnv) (tags : list Z).

(** Other processes change no symbolic link, and the calls of [realpath] work. *)
Definition steady : Prop :=
  (∀ n fs, same_links (ge_others env n fs) fs) ∧ ∀ n p, ge_realpath_fails env n p = false.

Definition links_kept (s s' : GcState) : Prop := steady → same_links (gs_fs s) (gs_fs s').

#[export] Instance links_kept_preorder : PreOrder links_kept.
Proof. split; [by intros s _|]. intros s1 s2 s3 H K St. etransitivity; [by apply H|by apply K]. Qed.

Lemma links_others : sm_respects links_kept (others env).
Proof. intros s St. cbn. symmetry. apply St. Qed.

(** Then resolving a path, call by call, gives what it is in the tree. *)
Lemma readlink_steady fs p c s :
  steady → same_links fs (gs_fs s) → resolved fs p →
  ∃ s', sys_readlink env (p ++ [c]) s = (Ok (link_at fs (p ++ [c])), s') ∧ same_links fs (gs_fs s').
Proof.
  intros St Hl Hp. exists (others env s).2.
  assert (same_links fs (gs_fs (others env s).2)) as Hl' by (etransitivity; [exact Hl|symmetry; apply St]). split; [|done].
  unfold sys_readlink. rewrite sm_bind_spec. change (others env s) with (Ok (gs_calls s) : res nat, (others env s).2) at 1.
  generalize dependent (others env s).2. intros s1 Hl'. unfold sgets. rewrite (proj2 St).
  rewrite <-(locate_links fs (gs_fs s1)) by done. unfold locate. rewrite removelast_snoc, last_snoc, realpath_resolved by done.
  by rewrite (Hl' (p ++ [c])).
Qed.

Lemma realpath_at_steady fs fuel here rest s :
  steady → same_links fs (gs_fs s) → resolved fs here →
  ∃ s', sys_realpath_at env fuel here rest s = (Ok (realpath_at fs fuel here rest), s') ∧ same_links fs (gs_fs s').
Proof.
  intros St. revert here rest s. induction fuel as [|fuel IHf]; intros here rest; revert here;
    (induction rest as [|c rest IHr]; intros here s Hl Hh; [by exists s|]); rewrite realpath_at_step; cbn [sys_realpath_at].
  all: case_bool_decide; [apply IHr; [done|by apply resolved_removelast]|].
  all: destruct (readlink_steady fs here c s St Hl Hh) as (s1 & E1 & Hl1); rewrite sm_bind_spec, E1.
  all: destruct (link_at fs (here ++ [c])) as [t|] eqn:Et; [|by apply IHr; [done|apply resolved_snoc]].
  all: destruct (readlink_steady fs here c s1 St Hl1 Hh) as (s2 & E2 & Hl2); rewrite sm_bind_spec, E2, Et.
  - by exists s2.
  - apply IHf; [done|]. destruct t.1; [apply resolved_nil|done].
Qed.

Lemma realpath_steady fs p s :
  steady → same_links fs (gs_fs s) →
  ∃ s', sys_realpath env p s = (Ok (realpath fs p), s') ∧ same_links fs (gs_fs s').
Proof. intros St Hl. apply (realpath_at_steady fs 40 [] p s St Hl (resolved_nil fs)). Qed.

(** What validation establishes at the moment of its last call: the candidate names a regular
    file that is not a link and, when its name is ordinary, lies below what the root
    resolves to. *)
Lemma validate_steady fs root p s :
  steady → same_links fs (gs_fs s) →
  sm_post (validate_gc_regular_file env tags root p) s (λ st s',
    same_links fs (gs_fs s')
    ∧ ∃ e, gs_fs s' !! locate fs p = Some e ∧ en_stat e = st ∧ S_ISREG (st_mode st) = true
      ∧ is_filesystem_redirection tags st = false
      ∧ (last p ≠ Some (u "..") → realpath fs (realpath fs root) `prefix_of` locate fs p)).
Proof.
  intros St Hl. unfold validate_gc_regular_file. apply post_bind.
  destruct (realpath_steady fs root s St Hl) as (s1 & E1 & Hl1). unfold sm_post at 1. rewrite E1.
  destruct (is_within _ p); cbn [negb]; [|apply post_raise]. apply post_bind.
  eapply (post_respects links_kept); [apply walk_components; [apply _|apply links_others]|].
  eapply post_mono; [apply post_true|]. intros [] s2 _ _ K2. specialize (K2 St). assert (same_links fs (gs_fs s2)) as Hl2 by (by etransitivity). apply post_bind.
  destruct (realpath_steady fs (realpath fs root) s2 St Hl2) as (s3 & E3 & Hl3). unfold sm_post at 1. rewrite E3. apply post_bind.
  destruct (realpath_steady fs p s3 St Hl3) as (s4 & E4 & Hl4). unfold sm_post at 1. rewrite E4.
  destruct (is_within _ (realpath fs p)) eqn:Hw; cbn [negb]; [|apply post_raise].
  unfold is_within in Hw. apply bool_decide_eq_true in Hw.
  apply post_bind. unfold sys_lstat, sm_post, sgets. rewrite sm_bind_spec. unfold others. cbn.
  set (fs' := ge_others env _ _). assert (same_links fs fs') as Hl' by (etransitivity; [exact Hl4|symmetry; apply St]).
  rewrite <-(locate_links fs fs') by done. destruct (ge_lstat_fails _ _ _); [done|].
  destruct (fs' !! locate fs p) as [e|] eqn:E; [|done]. destruct (_ || _) eqn:Ek; [done|]. cbn. bool_hyps.
  split; [done|]. exists e. split_and!; try done. intros Hlast. revert E Hw. unfold locate. destruct (last p) as [c|] eqn:Ec.
  - apply last_Some in Ec as [p' ->]. rewrite removelast_snoc. intros E Hw.
    change (realpath fs (p' ++ [c])) with (realpath_at fs 40 [] (p' ++ [c])) in Hw.
    rewrite realpath_snoc_here in Hw; [done| |by intros ->]. change (realpath_at fs 40 [] p') with (realpath fs p').
    specialize (Hl' (realpath fs p' ++ [c])). unfold link_at in Hl'. rewrite E in Hl'.
    unfold is_filesystem_redirection in *. destruct (fs !! _) as [e0|]; [|done]. bool_hyps. destruct (S_ISLNK (st_mode (en_stat e0))); [|done].
    by destruct (S_ISLNK (st_mode (en_stat e))).
  - apply last_None in Ec as ->. intros _. by rewrite app_nil_r.
Qed.

(** Why the entry [e] at [q] may have been deleted, in a collection that started with the
    tree [fs0]; [C] holds of the candidates. When nobody changes links meanwhile, it is the
    very file that was examined. *)
Definition deletable (fs0 : FS) (root : path) (cutoff : option Q) (dry_run : bool)
    (retain_file : option (path → bool)) (C : path → Prop) (q : path) (e : Entry) : Prop :=
  dry_run = false ∧ S_ISDIR (st_mode (en_stat e)) = false
  ∧ ∃ limit p, cutoff = Some limit ∧ C p ∧ last p = last q
    ∧ match retain_file with Some retain => retain p = false | None => True end
    ∧ (steady →
        S_ISREG (st_mode (en_stat e)) = true ∧ is_filesystem_redirection tags (en_stat e) = false
        ∧ (last p ≠ Some (u "..") → realpath fs0 (realpath fs0 root) `prefix_of` q)
        ∧ ∃ first, (st_mtime first <= limit)%Q ∧ same_file_identity first (en_stat e) = true).

Lemma last_locate fs p : last (locate fs p) = last p.
Proof.
  unfold locate. destruct (last p) as [n|] eqn:E; [apply last_snoc|]. apply last_None in E as ->. done.
Qed.

Context (fs0 : FS) (q : path) (Hq : ∀ n fs, ge_others env n fs !! q = fs !! q).
Context (D : Entry → Prop).

(** The entry at [q] stays, or is deleted for the reason [D]. *)
Definition entry_fate (s s' : GcState) : Prop :=
  gs_fs s' !! q = gs_fs s !! q ∨ (gs_fs s' !! q = None ∧ ∃ e, gs_fs s !! q = Some e ∧ D e).

#[export] Instance entry_fate_preorder : PreOrder entry_fate.
Proof.
  split; [by intros s; left|]. intros s1 s2 s3 [H1|(H1 & e & He & Hd)] [H2|(H2 & e' & He' & Hd')].
  - left. congruence.
  - right. rewrite <-H1. eauto.
  - right. rewrite H2. eauto.
  - congruence.
Qed.

(** The links are those of [fs0], if they can be relied on. *)
Definition anchored (s : GcState) : Prop := steady → same_links fs0 (gs_fs s).
Definition fate (s s' : GcState) : Prop := anchored s → anchored s' ∧ entry_fate s s'.

#[export] Instance fate_preorder : PreOrder fate.
Proof.
  split; [by intros s H|]. intros s1 s2 s3 H K A1. destruct (H A1) as [A2 E1]. destruct (K A2) as [A3 E2].
  split; [done|]. by etransitivity.
Qed.

Lemma fate_same_fs f : (∀ s, gs_fs (f s) = gs_fs s) → sm_respects fate (smodify f).
Proof. intros H. apply respects_modify. intros s A. unfold anchored, entry_fate. rewrite !H. split; [done|by left]. Qed.

Lemma fate_others : sm_respects fate (others env).
Proof.
  intros s A. split; [|left; cbn; apply Hq]. intros St. etransitivity; [exact (A St)|]. symmetry. apply St.
Qed.

Section one.
Context (root : path) (cutoff : option Q) (dry_run : bool) (retain_file : option (path → bool)).
Context (C : path → Prop).
Context (HD : ∀ e, deletable fs0 root cutoff dry_run retain_file C q e → D e).

(** The call itself, when the candidate was examined in the state before it. *)
Lemma fate_unlink p first limit s :
  C p → dry_run = false → cutoff = Some limit → (st_mtime first <= limit)%Q →
  match retain_file with Some retain => retain p = false | None => True end →
  (steady → ∃ e, gs_fs s !! locate fs0 p = Some e ∧ same_file_identity first (en_stat e) = true
     ∧ S_ISREG (st_mode (en_stat e)) = true ∧ is_filesystem_redirection tags (en_stat e) = false
     ∧ (last p ≠ Some (u "..") → realpath fs0 (realpath fs0 root) `prefix_of` locate fs0 p)) →
  fate s (sys_unlink env p s).2.
Proof.
  intros HC Hdry Hcut Hage Hret Hseen A. destruct (fate_others s A) as [A1 F1].
  assert (gs_fs (others env s).2 !! q = gs_fs s !! q) as Hq1 by apply Hq. unfold sys_unlink. rewrite sm_bind_spec.
  set (s1 := (others env s).2) in *. change (others env s) with (Ok (gs_calls s) : res nat, s1). cbn iota beta. clearbody s1.
  rewrite sm_bind_spec. cbn [sget]. destruct (ge_unlink_fails _ _ _); [done|].
  destruct (gs_fs s1 !! locate (gs_fs s1) p) as [e|] eqn:E; [|done]. destruct (S_ISDIR _) eqn:Edir; [done|].
  assert (steady → gs_fs s1 !! locate fs0 p = Some e ∧ locate fs0 p = locate (gs_fs s1) p) as Hloc.
  { intros St. assert (locate fs0 p = locate (gs_fs s1) p) as El by (apply locate_links; exact (A1 St)). rewrite El. split; [exact E|reflexivity]. }
  unfold anchored, entry_fate. cbn [smodify snd set_fs gs_fs]. split.
  - intros St. destruct (Hloc St) as [_ El]. destruct (Hseen St) as (e0 & E0 & _ & Hreg & _).
    assert (link_at (gs_fs s1) (locate (gs_fs s1) p) = None) as Hnone.
    { rewrite <-El, <-(A1 St (locate fs0 p)), (A St (locate fs0 p)). unfold link_at. rewrite E0. unfold S_ISLNK, S_ISREG in *. apply Z.eqb_eq in Hreg. by rewrite Hreg. }
    etransitivity; [exact (A1 St)|]. intros x. destruct (decide (x = locate (gs_fs s1) p)) as [->|].
    + rewrite Hnone. unfold link_at. by rewrite lookup_delete_eq.
    + unfold link_at. by rewrite lookup_delete_ne.
  - destruct (decide (locate (gs_fs s1) p = q)) as [El|]; [|left; by rewrite lookup_delete_ne].
    right. rewrite El, lookup_delete_eq. split; [done|]. exists e. rewrite El, Hq1 in E. split; [done|]. apply HD.
    split; [done|]. split; [done|]. exists limit, p. split_and!; [done|done|by rewrite <-El, last_locate|done|].
    intros St. destruct (Hloc St) as [_ El']. destruct (Hseen St) as (e0 & E0 & Hid & Hreg & Hnl & Hin).
    rewrite El', El in E0, Hin. assert (e0 = e) as -> by congruence.
    split; [exact Hreg|]. split; [exact Hnl|]. split; [exact Hin|]. exists first. by split.
Qed.

Lemma fate_delete p first limit :
  C p → dry_run = false → cutoff = Some limit → (st_mtime first <= limit)%Q →
  match retain_file with Some retain => retain p = false | None => True end →
  sm_respects fate (delete_if_same env tags root p first).
Proof.
  intros HC Hdry Hcut Hage Hret s A. revert A. unfold delete_if_same. intros A.
  pose proof (walk_validate env tags fate fate_others root p s A) as [A1 F1].
  assert (steady → sm_post (validate_gc_regular_file env tags root p) s (λ st s',
    same_links fs0 (gs_fs s') ∧ ∃ e, gs_fs s' !! locate fs0 p = Some e ∧ en_stat e = st ∧ S_ISREG (st_mode st) = true
      ∧ is_filesystem_redirection tags st = false
      ∧ (last p ≠ Some (u "..") → realpath fs0 (realpath fs0 root) `prefix_of` locate fs0 p))) as Hpost
    by (intros St; apply validate_steady; [done|by apply A]).
  rewrite sm_bind_spec. unfold sm_post in Hpost.
  assert (attempt (validate_gc_regular_file env tags root p) s
    = (let '(r, s') := validate_gc_regular_file env tags root p s in (Ok r, s'))) as -> by done.
  destruct (validate_gc_regular_file _ _ _ _ s) as [r s1]; cbn [snd] in A1, F1.
  assert (∀ s2, fate s1 s2 → anchored s2 ∧ entry_fate s s2) as Hthen.
  { intros s2 Hk. destruct (Hk A1) as [A2 F2]. split; [exact A2|exact (transitivity F1 F2)]. }
  cbn iota beta. apply Hthen. destruct r as [current|e]; [|by apply fate_same_fs].
  destruct (same_file_identity first current) eqn:Eid; cbn [negb]; [|by apply fate_same_fs].
  apply (respects_bind_at fate).
  - unfold attempt. pose proof (fate_unlink p first limit s1 HC Hdry Hcut Hage Hret) as Hu.
    destruct (sys_unlink env p s1) as [r s2]. cbn [snd] in *. apply Hu. intros St.
    destruct (Hpost St) as (_ & e & He & <- & Hreg & Hnl & Hin). exists e. by split_and!.
  - intros [u|e] s2 _; [|by apply fate_same_fs]. apply respects_bind; [apply _|by apply fate_same_fs|intros _; by apply fate_same_fs].
Qed.

Lemma fate_collect_one p :
  C p → sm_respects fate (collect_one env tags root cutoff dry_run retain_file p).
Proof.
  intros HC. pose proof (λ st limit, fate_delete p st limit HC) as Hdelete.
  apply respects_bind; [apply _|apply respects_attempt, (walk_validate env tags fate), fate_others|]. intros [st|]; [|by apply fate_same_fs].
  apply respects_bind; [apply _|by apply fate_same_fs|]. intros _.
  destruct cutoff as [limit|] eqn:Ec; [|apply respects_ret, _].
  destruct (match retain_file with Some _ => _ | None => _ end) eqn:Er; [by apply fate_same_fs|].
  destruct (Qle_bool _ _) eqn:Ea; cbn [negb]; [|by apply fate_same_fs].
  apply respects_bind; [apply _|by apply fate_same_fs|]. intros _.
  apply respects_bind; [apply _|by apply fate_same_fs|]. intros _.
  destruct dry_run eqn:Ed; [apply respects_ret, _|].
  apply (Hdelete st limit); try done; [by apply Qle_bool_iff|by destruct retain_file].
Qed.
End one.

End safety.

(** ** Properties *)

(** Named like a chunk that is not among the retained hashes. *)
Definition garbage_name (reachable : option (list pystr)) (q : path) : Prop :=
  ∃ h, last q = Some h ∧ is_valid_blake3_hex h = true
    ∧ match reachable with Some hs => h ∉ hs | None => True end.

(** A regular file, no link, with the identity of a file that was old when it was looked at. *)
Definition garbage_file (tags : list Z) (limit : Q) (e : Entry) : Prop :=
  S_ISREG (st_mode (en_stat e)) = true ∧ is_filesystem_redirection tags (en_stat e) = false
  ∧ ∃ first, (st_mtime first <= limit)%Q ∧ same_file_identity first (en_stat e) = true.

Lemma valid_hash_not_dots h : is_valid_blake3_hex h = true → h ≠ u "..".
Proof. by intros Hv ->. Qed.

Lemma locate_snoc fs p h : locate fs (p ++ [h]) = realpath fs p ++ [h].
Proof. unfold locate. by rewrite removelast_snoc, last_snoc. Qed.

Lemma deletable_chunk env tags fs0 root now age dry_run reachable q e :
  deletable env tags fs0 root ((λ a, now - inject_Z (Z.max a 0))%Q <$> age) dry_run
    ((λ hs p, bool_decide (path_name p ∈ hs)) <$> reachable)
    chunk_named q e →
  dry_run = false ∧ garbage_name reachable q ∧ S_ISDIR (st_mode (en_stat e)) = false
  ∧ ∃ a, age = Some a
      ∧ (steady env → garbage_file tags (now - inject_Z (Z.max a 0)) e ∧ realpath fs0 (realpath fs0 root) `prefix_of` q).
Proof.
  intros (Hdry & Hdir & limit & p & Hcut & (p' & h & -> & Hv) & Hlast & Hret & Hst). rewrite last_snoc in Hlast, Hst.
  split; [done|]. split; [|split; [done|]].
  - exists h. split_and!; [done..|]. destruct reachable; [|done]. cbn in Hret. unfold path_name in Hret. rewrite last_snoc in Hret. by bool_hyps.
  - destruct age as [a|]; [|done]. injection Hcut as <-. exists a. split; [done|]. intros St.
    destruct (Hst St) as (Hreg & Hnl & Hin & Hfirst). split; [by split_and!|]. apply Hin. intros [= E]. by apply (valid_hash_not_dots h).
Qed.

Section theorems.
Context (env : GcEnv) (tags : list Z).

(** The collection of chunks, with what it knows of an entry that it deletes. *)
Lemma chunks_fate now root_dir age dry_run reachable s q :
  (∀ n fs, ge_others env n fs !! q = fs !! q) →
  entry_fate q (λ e, ∃ root, (steady env → root = Nat.iter 2 (realpath (gs_fs s)) root_dir)
      ∧ deletable env tags (gs_fs s) root ((λ a, now - inject_Z (Z.max a 0))%Q <$> age) dry_run
          ((λ hs p, bool_decide (path_name p ∈ hs)) <$> reachable) chunk_named q e)
    s (collect_cas_chunks env tags now root_dir age dry_run reachable s).2.
Proof.
  intros Hq. set (D := λ e, _). assert (anchored env (gs_fs s) s) as A by done.
  enough (fate env (gs_fs s) q D s (collect_cas_chunks env tags now root_dir age dry_run reachable s).2) as H by apply (H A).
  pose proof (fate_others env (gs_fs s) q Hq D) as Ho. unfold collect_cas_chunks.
  apply (respects_bind_at (fate env (gs_fs s) q D)); [exact (walk_realpath env (fate env (gs_fs s) q D) Ho root_dir s)|]. intros root1 s1 E1.
  apply (walk_collect env tags (fate env (gs_fs s) q D)) with (C := chunk_named).
  - exact Ho.
  - intros. by apply fate_same_fs.
  - by apply cas_yields; [apply _|].
  - intros root s2 E2 p HC. apply (fate_collect_one env tags (gs_fs s) q Hq D) with (C := chunk_named); [|done].
    intros e Hd. exists root. split; [|done]. intros St. destruct (realpath_steady env (gs_fs s) root_dir s St) as (s1' & E1' & Hl); [done|].
    rewrite E1 in E1'. injection E1' as -> <-. destruct (realpath_steady env (gs_fs s) (realpath (gs_fs s) root_dir) s1 St Hl) as (s2' & E2' & _).
    rewrite E2 in E2'. by injection E2' as ->.
Qed.

(** C19: a collection of chunks deletes only garbage: whatever other processes do to the
    tree before any system call and whichever calls fail, if an entry nobody else touches is
    gone or different afterwards, then it is gone, this was not a dry run, an age limit was
    given, and the entry was not a directory and was named like a chunk that is not among the
    retained hashes. If in addition nobody changes symbolic links meanwhile and the calls of
    [realpath] work, it was a regular file (not a link) below what the root resolves to, and
    had the identity of a file seen older than the limit. (Without that, a directory replaced
    by a link between the second validation and [unlink] makes the code delete another file
    of that name, see [validation_races_with_unlink].) *)
Theorem gc_deletes_only_garbage now root_dir age dry_run reachable s q :
  (∀ n fs, ge_others env n fs !! q = fs !! q) →
  let s' := (collect_cas_chunks env tags now root_dir age dry_run reachable s).2 in
  gs_fs s' !! q ≠ gs_fs s !! q →
  gs_fs s' !! q = None ∧ dry_run = false ∧ garbage_name reachable q
  ∧ ∃ a e, age = Some a ∧ gs_fs s !! q = Some e ∧ S_ISDIR (st_mode (en_stat e)) = false
      ∧ (steady env → garbage_file tags (now - inject_Z (Z.max a 0)) e
           ∧ Nat.iter 4 (realpath (gs_fs s)) root_dir `prefix_of` q).
Proof.
  intros Hq s' Hch. destruct (chunks_fate now root_dir age dry_run reachable s q Hq) as [H|(H & e & He & root & Hroot & Hd)]; [done|].
  apply deletable_chunk in Hd as (Hdry & Hname & Hdir & a & Hage & Hst). split; [done|]. split; [done|]. split; [done|].
  exists a, e. split; [done|]. split; [done|]. split; [done|]. intros St. destruct (Hst St) as [Hg Hin]. split; [done|].
  by rewrite (Hroot St) in Hin.
Qed.

(** C20: collecting the own chunks never takes one of a snapshot: whatever the catalogue
    does after it was read, a file named like a chunk of a snapshot that was CREATING or
    COMPLETE in the catalogue read, and that nobody else touches, stays, whatever its age. *)
Theorem gc_spares_snapshots now c chunk_store grace dry_run s sid row h q :
  snapshots c !! sid = Some row → sn_status row ∈ [CREATING; COMPLETE] → h ∈ snapshot_chunk_hashes c sid →
  (∀ n fs, ge_others env n fs !! q = fs !! q) → last q = Some h →
  gs_fs (cmd_generated_chunks env tags now c chunk_store grace dry_run s).2 !! q = gs_fs s !! q.
Proof.
  intros Hrow Hst Hh Hq Hlast.
  assert (h ∈ gc_protected_chunk_hashes c) as Hp.
  { unfold snapshot_chunk_hashes in Hh. unfold gc_protected_chunk_hashes.
    rewrite elem_of_order_by_hash, elem_of_joined in *.
    destruct Hh as (id & it & rid & rc & Hi & Hl & Hrest). exists id, it, rid, rc.
    split_and!; [done| |by apply Hrest..]. apply bool_decide_eq_true in Hl. apply snapshot_in_true.
    exists row. by rewrite Hl. }
  unfold cmd_generated_chunks.
  destruct (chunks_fate now chunk_store (Some grace) dry_run (Some (gc_protected_chunk_hashes c)) s q Hq)
    as [H|(_ & e & _ & root & _ & Hd)]; [done|].
  apply deletable_chunk in Hd as (_ & (h' & E & _ & Hn) & _). rewrite Hlast in E. by injection E as <-.
Qed.

(** ** Accounting *)

(** The counters of a collection: every file seen is retained, too young or collectable
    (when there is an age limit), every collectable file is reported, and only collectable
    files are deleted, none of them by a dry run. *)
Definition balanced (enabled dry_run : bool) (s : GcState) : Prop :=
  (0 <= files_retained_by_policy s ∧ 0 <= files_skipped_by_age s
   ∧ 0 <= files_deleted s <= files_collectable s
   ∧ (enabled = true → files_seen s = files_retained_by_policy s + files_skipped_by_age s + files_collectable s)
   ∧ (enabled = false → files_collectable s = 0)
   ∧ (dry_run = true → files_deleted s = 0)
   ∧ Z.of_nat (length (gs_reported s)) = files_collectable s)%Z.

Definition keeps_balance (enabled dry_run : bool) (s s' : GcState) : Prop :=
  balanced enabled dry_run s → balanced enabled dry_run s'.

#[export] Instance keeps_balance_preorder enabled dry_run : PreOrder (keeps_balance enabled dry_run).
Proof. split; unfold keeps_balance; [by intros s|]. intros s1 s2 s3 H1 H2 H. auto. Qed.

Lemma balance_others enabled dry_run : sm_respects (keeps_balance enabled dry_run) (others env).
Proof. intros s H. exact H. Qed.

Ltac solve_balance :=
  unfold balanced in *; cbn in *; rewrite ?length_app, ?app_nil_r in *; cbn;
  destruct_and!; split_and!; (done || lia || (intros; lia) || naive_solver lia).

Lemma balance_log enabled dry_run errors :
  sm_respects (keeps_balance enabled dry_run) (smodify (log errors ∅ [])).
Proof. intros s H. solve_balance. Qed.

(** What the calls leave alone. *)
Definition same_counts (s s' : GcState) : Prop :=
  files_seen s' = files_seen s ∧ files_collectable s' = files_collectable s ∧ files_deleted s' = files_deleted s
  ∧ files_retained_by_policy s' = files_retained_by_policy s ∧ files_skipped_by_age s' = files_skipped_by_age s
  ∧ gs_reported s' = gs_reported s.

#[export] Instance same_counts_preorder : PreOrder same_counts.
Proof. split; [by intros s|]. intros s1 s2 s3 H K. unfold same_counts in *. destruct_and!. by split_and!; congruence. Qed.

Lemma counts_others : sm_respects same_counts (others env).
Proof. by intros s. Qed.

Lemma counts_unlink p : sm_respects same_counts (sys_unlink env p).
Proof.
  apply respects_bind; [apply _|apply counts_others|]. intros n. apply respects_bind; [apply _|apply respects_gets, _|]. intros s.
  destruct (ge_unlink_fails _ _ _); [apply respects_raise, _|]. destruct (_ !! _); [|apply respects_raise, _].
  destruct (S_ISDIR _); [apply respects_raise, _|by apply respects_modify].
Qed.

Lemma balanced_counts enabled dry_run s s' : same_counts s s' → balanced enabled dry_run s → balanced enabled dry_run s'.
Proof. intros (E1 & E2 & E3 & E4 & E5 & E6). unfold balanced. by rewrite E1, E2, E3, E4, E5, E6. Qed.

(** A deletion counts a file that was counted as collectable before. *)
Lemma balance_delete root p first s :
  balanced true false s → (files_deleted s < files_collectable s)%Z →
  balanced true false (delete_if_same env tags root p first s).2.
Proof.
  intros H Hlt. unfold delete_if_same. rewrite sm_bind_spec.
  pose proof (respects_attempt same_counts _ (walk_validate env tags same_counts counts_others root p) s) as Hv.
  destruct (attempt _ s) as [[second|e] s1]; cbn [snd] in Hv; [|by eapply balanced_counts].
  assert (balanced true false s1 ∧ (files_deleted s1 < files_collectable s1)%Z) as [H1 Hlt1].
  { split; [by eapply balanced_counts|]. destruct Hv as (_ & -> & -> & _). done. }
  clear H Hlt Hv s. destruct second as [current|]; [|by apply balance_log]. destruct (negb _); [by apply balance_log|].
  rewrite sm_bind_spec. pose proof (respects_attempt same_counts _ (counts_unlink p) s1) as Hu.
  destruct (attempt _ s1) as [[unlinked|e] s2]; cbn [snd] in Hu; [|by eapply balanced_counts].
  assert (balanced true false s2 ∧ (files_deleted s2 < files_collectable s2)%Z) as [H2 Hlt2].
  { split; [by eapply balanced_counts|]. destruct Hu as (_ & -> & -> & _). done. }
  clear H1 Hlt1 Hu s1. destruct unlinked as [u|]; [|by apply balance_log].
  rewrite sm_bind_spec. cbn [smodify snd]. solve_balance.
Qed.

(** A candidate is counted once, as retained, young or collectable, or only logged. *)
Lemma balance_collect_one root cutoff dry_run retain_file p :
  sm_respects (keeps_balance (bool_decide (is_Some cutoff)) dry_run)
    (collect_one env tags root cutoff dry_run retain_file p).
Proof.
  set (en := bool_decide (is_Some cutoff)). intros s H. unfold collect_one. rewrite sm_bind_spec.
  pose proof (respects_attempt same_counts _ (walk_validate env tags same_counts counts_others root p) s) as Hv.
  destruct (attempt _ s) as [[seen|e] s1]; cbn [snd] in Hv; [|by eapply balanced_counts].
  assert (balanced en dry_run s1) as H1 by by eapply balanced_counts.
  destruct seen as [st|]; [|by apply balance_log].
  clear H. rewrite sm_bind_spec. cbn [smodify]. destruct cutoff as [limit|]; [|cbn in en; subst en; solve_balance].
  assert (en = true) as -> by done. destruct (match retain_file with Some _ => _ | None => _ end);
    [solve_balance|]. destruct (negb _); [solve_balance|].
  rewrite sm_bind_spec. cbn [smodify]. rewrite sm_bind_spec. cbn [smodify].
  set (s2 := log _ _ _ _). assert (balanced true dry_run s2 ∧ (files_deleted s2 < files_collectable s2)%Z) as [H2 H3].
  { split; [subst s2; solve_balance|]. subst s2. unfold balanced in H1. cbn. lia. }
  destruct dry_run; [done|]. by apply balance_delete.
Qed.

(** A collection from a fresh state: balanced, and a dry run deletes nothing. *)
Definition well_behaved (enabled dry_run : bool) (fs : FS) (m : SM GcState unit) : Prop :=
  balanced enabled dry_run (m (initial_state fs)).2
  ∧ (dry_run = true → ∀ q, (∀ n fs, ge_others env n fs !! q = fs !! q) →
       gs_fs (m (initial_state fs)).2 !! q = fs !! q).

Lemma collect_well_behaved now root_dir (files : path → generator) age dry_run retain_file C fs :
  (∀ R root, PreOrder R → sm_respects R (others env) → yields R (files root) C) →
  well_behaved (bool_decide (is_Some age)) dry_run fs
    (root ← sys_realpath env root_dir;
     collect_files_by_age env tags now root (files root) age dry_run retain_file false).
Proof.
  intros Hy. split.
  - set (en := bool_decide (is_Some age)).
    assert (balanced en dry_run (initial_state fs)) as H0 by (unfold balanced; cbn; lia).
    revert H0. refine (respects_bind (keeps_balance en dry_run) _ _ _ _ (initial_state fs)).
    { apply (walk_realpath env (keeps_balance en dry_run)), balance_others. }
    intros root1 s1. apply (walk_collect env tags (keeps_balance en dry_run)) with (C := C).
    + apply balance_others.
    + apply balance_log.
    + apply Hy; [apply _|apply balance_others].
    + intros root s2 _ p _. assert (en = bool_decide (is_Some ((λ a, now - inject_Z (Z.max a 0))%Q <$> age))) as ->
        by (unfold en; destruct age; reflexivity). apply balance_collect_one.
  - intros Hdry q Hq. pose proof (fate_others env fs q Hq (λ _, False)) as Ho.
    set (m := root ← sys_realpath env root_dir; _). enough (fate env fs q (λ _, False) (initial_state fs) (m (initial_state fs)).2) as H.
    { destruct (H (λ _, reflexivity _)) as [_ [H1|(_ & e & _ & [])]]. exact H1. }
    apply (respects_bind (fate env fs q (λ _, False))); [exact (walk_realpath env (fate env fs q (λ _, False)) Ho root_dir)|]. intros root1 s1.
    apply (walk_collect env tags (fate env fs q (λ _, False))) with (C := C).
    + exact Ho.
    + intros. by apply fate_same_fs.
    + by apply Hy; [apply _|].
    + intros root s2 _ p HC. apply (fate_collect_one env tags fs q Hq) with (C := C); [|done].
      intros e (E & _). congruence.
Qed.

(** every collection accounts for what it saw, and a dry run deletes nothing: for the
    chunks, the shards and the recovered packs, whatever happens meanwhile, each file seen
    is counted once as retained, too young or collectable (if an age limit is set),
    exactly the collectable ones are reported, no more than those are deleted, and a dry run
    leaves every entry nobody else touches as it was. *)
Theorem gc_accounts_and_dry_run_is_harmless now root_dir age days dry_run reachable fs :
  well_behaved (bool_decide (is_Some age)) dry_run fs
    (collect_cas_chunks env tags now root_dir age dry_run reachable)
  ∧ well_behaved (bool_decide (is_Some age)) dry_run fs (collect_ec_shards env tags now root_dir age dry_run)
  ∧ well_behaved (negb (days =? 0)%Z) dry_run fs
      (collect_recovered_metadata_packs env tags now root_dir days dry_run).
Proof.
  unfold collect_cas_chunks, collect_ec_shards, collect_recovered_metadata_packs.
  split_and!.
  - apply (collect_well_behaved now root_dir (iter_cas_chunk_files env tags)) with (C := chunk_named). intros R root HR Ho. by apply cas_yields.
  - eapply (collect_well_behaved now root_dir (iter_ec_shard_files env tags)). intros R root HR Ho. by apply ec_yields.
  - replace (negb (days =? 0)%Z) with
      (bool_decide (is_Some (if (days =? 0)%Z then None else Some (days * (24 * 60 * 60))%Z)))
      by (by destruct (days =? 0)%Z).
    eapply (collect_well_behaved now root_dir (iter_recovered_pack_files env)). intros R root HR Ho. by apply recovered_yields.
Qed.
End theorems.

(** ** Witnesses *)

Definition gc_entry (mode ino : Z) : Entry := {|
  en_stat := {| st_mode := mode; st_dev := 1; st_ino := ino; st_size := 10; st_mtime := 0;
                st_mtime_ns := 0; st_ctime_ns := 0; st_reparse_tag := 0 |};
  en_target := (false, []) |}.

Definition gc_hash (c : N) : pystr := repeat c 64.
Definition gc_chunk (c : N) : path := [u "cas"; [c; c]; [c; c]; gc_hash c].

(** A store with two old chunks. *)
Definition example_fs : FS :=
  <[[u "cas"] := gc_entry 16877 1]> (<[[u "cas"; u "aa"] := gc_entry 16877 2]>
  (<[[u "cas"; u "aa"; u "aa"] := gc_entry 16877 3]> (<[gc_chunk 97 := gc_entry 33188 4]>
  (<[[u "cas"; u "bb"] := gc_entry 16877 5]> (<[[u "cas"; u "bb"; u "bb"] := gc_entry 16877 6]>
  (<[gc_chunk 98 := gc_entry 33188 7]> ∅)))))).

Definition quiet_gc : GcEnv := {|
  ge_others := λ _ fs, fs; ge_lstat_fails := λ _ _, false; ge_realpath_fails := λ _ _, false; ge_listdir_fails := λ _ _, false;
  ge_unlink_fails := λ _ _, false; ge_fsync_fails := λ _, false |}.

Definition example_gc (dry_run : bool) : GcState :=
  (collect_cas_chunks quiet_gc [] 1000 [u "cas"] (Some 10%Z) dry_run (Some [gc_hash 98])
     (initial_state example_fs)).2.

Lemma example_gc_effect :
  gs_fs (example_gc false) !! gc_chunk 97 = None ∧ is_Some (example_fs !! gc_chunk 97)
  ∧ is_Some (gs_fs (example_gc false) !! gc_chunk 98) ∧ files_deleted (example_gc false) = 1%Z.
Proof. by_compute. Qed.

Lemma quiet_steady : steady quiet_gc.
Proof. done. Qed.

Lemma gc_deletes_only_garbage_witness :
  gs_fs (example_gc false) !! gc_chunk 97 = None ∧ gc_hash 97 ∉ [gc_hash 98]
  ∧ Nat.iter 4 (realpath example_fs) [u "cas"] `prefix_of` gc_chunk 97.
Proof.
  pose proof (gc_deletes_only_garbage quiet_gc [] 1000 [u "cas"] (Some 10%Z) false (Some [gc_hash 98])
    (initial_state example_fs) (gc_chunk 97) ltac:(reflexivity)) as H.
  cbv zeta in H. fold (example_gc false) in H. pose proof example_gc_effect as E.
  destruct E as (E1 & E2 & _). destruct H as (H1 & _ & (h & Hl & _ & Hn) & (a & e & _ & _ & _ & Hst)).
  - rewrite E1. destruct E2 as [x Hx]. change (None ≠ example_fs !! gc_chunk 97). by rewrite Hx.
  - split; [exact H1|]. split; [injection Hl as <-; exact Hn|]. exact (proj2 (Hst quiet_steady)).
Defined.

(** The validated directory [/cas/aa/aa] is replaced by a link to [/other], which holds a
    file of the same name, before the call that deletes. *)
Definition other_chunk : path := [u "other"; gc_hash 97].
Definition racing_fs : FS := <[[u "other"] := gc_entry 16877 8]> (<[other_chunk := gc_entry 33188 9]> example_fs).
Definition swapped (fs : FS) : FS :=
  <[[u "cas"; u "aa"; u "aa"] := {| en_stat := en_stat (gc_entry 41471 10); en_target := (true, [u "other"]) |}]> fs.
Definition racing_gc (n : nat) : GcEnv := {|
  ge_others := λ k fs, if (k =? n)%nat then swapped fs else fs; ge_lstat_fails := λ _ _, false;
  ge_realpath_fails := λ _ _, false; ge_listdir_fails := λ _ _, false;
  ge_unlink_fails := λ _ _, false; ge_fsync_fails := λ _, false |}.

(** Then a file outside the store is deleted, and counted as the chunk, without an error. *)
Example validation_races_with_unlink :
  let s := (collect_cas_chunks (racing_gc 45) [] 1000 [u "cas"] (Some 10%Z) false (Some [gc_hash 98])
              (initial_state racing_fs)).2 in
  gs_fs s !! other_chunk = None ∧ is_Some (gs_fs s !! gc_chunk 97)
  ∧ files_deleted s = 1%Z ∧ length (gs_errors s) = 0.
Proof. cbv zeta. by_compute. Qed.

Definition one_chunk : GcState := initial_state (<[gc_chunk 97 := gc_entry 33188 4]> ∅).

Lemma one_chunk_there : gs_fs one_chunk !! gc_chunk 97 = Some (gc_entry 33188 4).
Proof. apply lookup_insert_eq. Qed.

Lemma gc_spares_snapshots_witness :
  ∃ c, gs_fs (cmd_generated_chunks quiet_gc [] 1000 c [u "cas"] 0 false one_chunk).2 !! gc_chunk 97
       = Some (gc_entry 33188 4).
Proof.
  destruct example_backup_reachable as (c & row & _ & Hrow & Hst & _ & Hh). exists c.
  rewrite <-one_chunk_there.
  refine (gc_spares_snapshots quiet_gc [] 1000 c [u "cas"] 0 false one_chunk 1 row (example_hash 97)
    (gc_chunk 97) Hrow _ Hh (λ _ _, eq_refl) eq_refl).
  rewrite Hst. right. left.
Defined.

Lemma gc_accounts_and_dry_run_is_harmless_witness :
  (files_deleted (example_gc true) <= files_collectable (example_gc true))%Z
  ∧ gs_fs (example_gc true) !! gc_chunk 97 = example_fs !! gc_chunk 97.
Proof.
  destruct (gc_accounts_and_dry_run_is_harmless quiet_gc [] 1000 [u "cas"] (Some 10%Z) 0 true
    (Some [gc_hash 98]) example_fs) as [[Hb Hd] _].
  split; [apply Hb|]. apply (Hd eq_refl (gc_chunk 97)). reflexivity.
Defined.
