(* ===== verification/FastCdc.v ===== *)
(** * Content-defined chunk boundaries

    [chunking/fastcdc.c]: the Gear table, the masks and the iterator of cut points, on
    64-bit words with their wrap-around. The sizes and positions are [Py_ssize_t]: arguments
    outside its range are refused, and a sum of the iterator that leaves it, which is
    undefined in C, is taken to wrap around. *)

From S2P Require Import Prelude PyStr.
From Stdlib Require Import Strings.Byte.

(** ** 64-bit words *)

Definition w64 (x : Z) : Z := (x mod 2 ^ 64)%Z.

(** [Py_ssize_t] *)
Definition ssize_ok (x : Z) : bool := (- 2 ^ 63 <=? x)%Z && (x <? 2 ^ 63)%Z.
Definition ssize (x : Z) : Z := ((x + 2 ^ 63) mod 2 ^ 64 - 2 ^ 63)%Z.

Lemma ssize_id x : (- 2 ^ 63 <= x < 2 ^ 63)%Z → ssize x = x.
Proof. intros H. unfold ssize. rewrite Z.mod_small by lia. lia. Qed.

(** ** Tables and masks *)

(** One round of [init_tables]. *)
Definition xorshift (value : Z) : Z :=
  let value := Z.lxor value (w64 (Z.shiftl value 13)) in
  let value := Z.lxor value (Z.shiftr value 7) in
  Z.lxor value (w64 (Z.shiftl value 17)).

Fixpoint gear_values (n : nat) (value : Z) : list Z :=
  match n with
  | O => []
  | S n' => let value := xorshift value in value :: gear_values n' value
  end.

Definition gear_table : list Z := Eval vm_compute in gear_values 256 0x123456789abcdef0.

Definition FASTCDC_WINDOW_BITS : Z := 48.
Definition FASTCDC_NORMALIZATION_LEVEL : Z := 2.
Definition FASTCDC_MASK_S_8K : Z := 0x0000d9f003530000.
Definition FASTCDC_MASK_L_8K : Z := 0x0000d90003530000.

(** [None] stands for -1. *)
Definition power_of_two_log2 (value : Z) : option Z :=
  if (value <=? 0)%Z then None
  else if negb (Z.land value (value - 1) =? 0)%Z then None
  else Some (Z.log2 value).

Definition spread_mask (effective_bits : Z) : Z :=
  if (effective_bits <=? 0)%Z || (FASTCDC_WINDOW_BITS <? effective_bits)%Z then 0
  else if (effective_bits =? 1)%Z then Z.shiftl 1 (FASTCDC_WINDOW_BITS - 1)
  else fold_left (λ mask i,
         Z.lor mask (Z.shiftl 1 ((Z.of_nat i * (FASTCDC_WINDOW_BITS - 1)) / (effective_bits - 1))))
       (seq 0 (Z.to_nat effective_bits)) 0%Z.

Definition build_masks (avg_size : Z) : option (Z * Z) :=
  avg_bits ← power_of_two_log2 avg_size;
  let strong_bits := (avg_bits + FASTCDC_NORMALIZATION_LEVEL)%Z in
  let relaxed_bits := (avg_bits - FASTCDC_NORMALIZATION_LEVEL)%Z in
  if (relaxed_bits <=? 0)%Z || (FASTCDC_WINDOW_BITS <? strong_bits)%Z then None
  else if (avg_size =? 8192)%Z then Some (FASTCDC_MASK_S_8K, FASTCDC_MASK_L_8K)
  else
    let pre_avg_mask := spread_mask strong_bits in
    let post_avg_mask := spread_mask relaxed_bits in
    if negb (pre_avg_mask =? 0)%Z && negb (post_avg_mask =? 0)%Z
    then Some (pre_avg_mask, post_avg_mask) else None.

(** ** The iterator *)

Record BoundaryIterator := {
  bi_data : bytes; pre_avg_mask : Z; post_avg_mask : Z;
  min_size : Z; avg_size : Z; max_size : Z; last_split : Z }.

Definition data_len (it : BoundaryIterator) : Z := Z.of_nat (length (bi_data it)).

(** [(fingerprint << 1) + gear_table[data[candidate - 1]]] *)
Definition roll (data : bytes) (fingerprint candidate : Z) : Z :=
  let b := Byte.to_N (nth (Z.to_nat (candidate - 1)) data x00) in
  w64 (w64 (Z.shiftl fingerprint 1) + nth (N.to_nat b) gear_table 0%Z).

(** [for (; candidate < bound; candidate++)]: the cut point found, or where the loop
    stopped. *)
Fixpoint scan (data : bytes) (mask bound : Z) (fuel : nat) (candidate fingerprint : Z) : Z + Z * Z :=
  match fuel with
  | O => inr (candidate, fingerprint)
  | S fuel' =>
      if (candidate <? bound)%Z then
        let fingerprint := roll data fingerprint candidate in
        if (Z.land fingerprint mask =? 0)%Z then inl candidate
        else scan data mask bound fuel' (candidate + 1) fingerprint
      else inr (candidate, fingerprint)
  end.

Definition scan_to (data : bytes) (mask bound candidate fingerprint : Z) : Z + Z * Z :=
  scan data mask bound (Z.to_nat (bound - candidate)) candidate fingerprint.

Definition next_boundary (it : BoundaryIterator) : Z :=
  let start := last_split it in
  let max_split := Z.min (ssize (start + max_size it)) (data_len it) in
  let normal_split := Z.min (ssize (start + avg_size it)) max_split in
  match scan_to (bi_data it) (pre_avg_mask it) normal_split (ssize (start + min_size it)) 0 with
  | inl candidate => candidate
  | inr (candidate, fingerprint) =>
      match scan_to (bi_data it) (post_avg_mask it) max_split candidate fingerprint with
      | inl candidate => candidate
      | inr _ => max_split
      end
  end.

Definition at_split (it : BoundaryIterator) (split_point : Z) : BoundaryIterator := {|
  bi_data := bi_data it; pre_avg_mask := pre_avg_mask it; post_avg_mask := post_avg_mask it;
  min_size := min_size it; avg_size := avg_size it; max_size := max_size it;
  last_split := split_point |}.

(** [BoundaryIterator_iternext]; [None] is StopIteration. *)
Definition iternext (it : BoundaryIterator) : option (Z * BoundaryIterator) :=
  if (data_len it <=? last_split it)%Z then None
  else
    let split_point := if (ssize (data_len it - last_split it) <=? min_size it)%Z then data_len it
                       else next_boundary it in
    Some (split_point, at_split it split_point).

(** [list(iterator)], at most [fuel] items; the flag says that the iterator stopped. *)
Fixpoint drain_iterator (fuel : nat) (it : BoundaryIterator) : list Z * bool :=
  match iternext it with
  | None => ([], true)
  | Some (b, it') =>
      match fuel with
      | O => ([], false)
      | S fuel' => let '(bs, stopped) := drain_iterator fuel' it' in (b :: bs, stopped)
      end
  end.

(** The format unit [n] of PyArg_ParseTuple. *)
Definition parse_ssize (x : Z) : res Z := if ssize_ok x then Ok x else Err OverflowError.

Definition new_iterator (data : bytes) (min_size avg_size max_size : Z) : res BoundaryIterator :=
  min_size ← parse_ssize min_size;
  avg_size ← parse_ssize avg_size;
  max_size ← parse_ssize max_size;
  if (min_size <=? 0)%Z || (avg_size <? min_size)%Z || (max_size <? avg_size)%Z then Err ValueError
  else match build_masks avg_size with
  | None => Err ValueError
  | Some (pre, post) =>
      Ok {| bi_data := data; pre_avg_mask := pre; post_avg_mask := post; min_size := min_size;
            avg_size := avg_size; max_size := max_size; last_split := 0 |}
  end.

(** The items of [iter_boundaries(data, ...)], which are no more than one per byte unless
    a sum overflows. *)
Definition iter_boundaries (data : bytes) (min_size avg_size max_size : Z) : res (list Z) :=
  it ← new_iterator data min_size avg_size max_size;
  Ok (drain_iterator (length data) it).1.

(** [mask_values] *)
Definition mask_values (avg_size : Z) : res (Z * Z) :=
  avg_size ← parse_ssize avg_size;
  match build_masks avg_size with Some m => Ok m | None => Err ValueError end.

Example default_masks :
  mask_values 65536 = Ok (spread_mask 18, spread_mask 14).
Proof. reflexivity. Qed.

(** ** Cut points *)

Lemma w64_range x : (0 <= w64 x < 2 ^ 64)%Z.
Proof. unfold w64. apply Z.mod_pos_bound. lia. Qed.

Lemma scan_spec data mask bound fuel candidate fp :
  match scan data mask bound fuel candidate fp with
  | inl c => (candidate <= c < bound)%Z
  | inr (c, _) => (candidate <= c <= Z.max candidate bound)%Z
                  ∧ (bound - candidate <= Z.of_nat fuel → bound <= c)%Z
  end.
Proof.
  revert candidate fp. induction fuel as [|fuel IH]; intros candidate fp; cbn [scan]; [lia|].
  destruct (Z.ltb_spec candidate bound); [|lia]. destruct (_ =? 0)%Z; [lia|].
  specialize (IH (candidate + 1)%Z (roll data fp candidate)).
  destruct (scan _ _ _ _ _ _) as [c|[c fp']]; lia.
Qed.

Section iterator.
Context (it : BoundaryIterator).
Context (Hmin : (0 < min_size it)%Z) (Havg : (min_size it <= avg_size it)%Z).
Context (Hmax : (avg_size it <= max_size it)%Z).
Context (Hfits : (data_len it + max_size it < 2 ^ 63)%Z) (H0 : (0 <= last_split it)%Z).

(** A cut leaves a chunk between the minimal and the maximal size. *)
Lemma next_boundary_range :
  (min_size it < data_len it - last_split it)%Z →
  (last_split it + min_size it <= next_boundary it
   <= Z.min (last_split it + max_size it) (data_len it))%Z.
Proof.
  intros Hlen. unfold next_boundary. cbv zeta. rewrite !ssize_id by lia.
  set (m := Z.min (last_split it + max_size it) (data_len it)).
  set (n := Z.min (last_split it + avg_size it) m).
  pose proof (scan_spec (bi_data it) (pre_avg_mask it) n (Z.to_nat (n - (last_split it + min_size it)))
    (last_split it + min_size it) 0) as H1. unfold scan_to.
  destruct (scan _ _ n _ _ _) as [c|[c fp]]; [lia|].
  pose proof (scan_spec (bi_data it) (post_avg_mask it) m (Z.to_nat (m - c)) c fp) as H2.
  destruct (scan _ _ m _ _ _) as [c'|[c' fp']]; lia.
Qed.

Lemma iternext_spec b it' :
  iternext it = Some (b, it') →
  it' = at_split it b ∧ (last_split it < b <= data_len it)%Z ∧ (b - last_split it <= max_size it)%Z
  ∧ (b < data_len it → min_size it <= b - last_split it)%Z.
Proof.
  unfold iternext. destruct (Z.leb_spec (data_len it) (last_split it)); [done|].
  rewrite ssize_id by lia. destruct (Z.leb_spec (data_len it - last_split it) (min_size it)); intros [= <- <-]; split; try done; [lia|].
  pose proof (next_boundary_range ltac:(lia)). lia.
Qed.
End iterator.

(** The cut points of a piece of data, from [start] on. *)
Fixpoint valid_cuts (mn mx len start : Z) (bs : list Z) : Prop :=
  match bs with
  | [] => start = len
  | b :: bs' => (start < b <= len ∧ b - start <= mx ∧ (b < len → mn <= b - start))%Z ∧ valid_cuts mn mx len b bs'
  end.

Lemma drain_iterator_spec it fuel :
  (0 < min_size it)%Z → (min_size it <= avg_size it)%Z → (avg_size it <= max_size it)%Z →
  (data_len it + max_size it < 2 ^ 63)%Z → (0 <= last_split it <= data_len it)%Z → (data_len it - last_split it <= Z.of_nat fuel)%Z →
  (drain_iterator fuel it).2 = true
  ∧ valid_cuts (min_size it) (max_size it) (data_len it) (last_split it) (drain_iterator fuel it).1.
Proof.
  intros Hmin Havg Hmax. revert it Hmin Havg Hmax. induction fuel as [|fuel IH]; intros it Hmin Havg Hmax Hfits Hl Hf.
  - assert (iternext it = None) as E by (unfold iternext; by rewrite (proj2 (Z.leb_le _ _)) by lia).
    unfold drain_iterator. rewrite E. cbn. split; [done|lia].
  - cbn [drain_iterator]. destruct (iternext it) as [[b it']|] eqn:E.
    + apply iternext_spec in E as (-> & H1 & H2 & H3); [|done..|lia].
      specialize (IH (at_split it b) Hmin Havg Hmax). unfold data_len in *. cbn in IH.
      destruct IH as [H4 H5]; [done|lia..|]. destruct (drain_iterator fuel _) as [bs stopped]. cbn in *.
      split_and!; try done; lia.
    + cbn. split; [done|]. unfold iternext in E. destruct (Z.leb_spec (data_len it) (last_split it)); [lia|done].
Qed.

Lemma new_iterator_ok data mn av mx it :
  new_iterator data mn av mx = Ok it →
  (0 < mn <= av)%Z ∧ (av <= mx < 2 ^ 63)%Z ∧ min_size it = mn ∧ avg_size it = av ∧ max_size it = mx
  ∧ last_split it = 0%Z ∧ bi_data it = data ∧ build_masks av = Some (pre_avg_mask it, post_avg_mask it).
Proof.
  unfold new_iterator, parse_ssize. destruct (ssize_ok mn); [|done]. destruct (ssize_ok av); [|done].
  destruct (ssize_ok mx) eqn:Em; [|done]. unfold ssize_ok in Em. cbn [mbind res_bind].
  destruct (_ || _) eqn:E; [done|]. bool_hyps.
  destruct (build_masks av) as [[pre post]|]; [|done]. intros [= <-]. cbn [min_size avg_size max_size last_split bi_data
    pre_avg_mask post_avg_mask]. split_and!; auto; lia.
Qed.

(** Sizes in the range of [Py_ssize_t] are ordered and have masks. *)
Lemma new_iterator_accepts data mn av mx :
  (0 < mn <= av)%Z → (av <= mx < 2 ^ 63)%Z → is_Some (build_masks av) → is_ok (new_iterator data mn av mx) = true.
Proof.
  intros H1 H2 [[pre post] Hm]. unfold new_iterator, parse_ssize, ssize_ok.
  rewrite !(proj2 (Z.leb_le _ _)), !(proj2 (Z.ltb_lt _ _)) by lia. cbn [andb mbind res_bind]. rewrite Hm.
  by rewrite (proj2 (Z.leb_gt mn 0)), (proj2 (Z.ltb_ge av mn)), (proj2 (Z.ltb_ge mx av)) by lia.
Qed.

Lemma iter_boundaries_valid data mn av mx bs :
  (Z.of_nat (length data) + mx < 2 ^ 63)%Z →
  iter_boundaries data mn av mx = Ok bs → valid_cuts mn mx (Z.of_nat (length data)) 0 bs.
Proof.
  intros Hfits. unfold iter_boundaries. destruct (new_iterator data mn av mx) as [it|] eqn:E; [|done].
  apply new_iterator_ok in E as (? & ? & H1 & H2 & H3 & H4 & H5 & _). cbn. intros [= <-].
  assert (data_len it = Z.of_nat (length data)) as Hlen by (unfold data_len; by rewrite H5).
  rewrite <-H1, <-H3, <-Hlen, <-H4. apply drain_iterator_spec; rewrite ?H1, ?H2, ?H3, ?H4, ?Hlen; lia.
Qed.

(** ** Cuts depend on content only *)

Lemma roll_app pre suf fp c :
  (0 < c)%Z → roll (pre ++ suf) fp (Z.of_nat (length pre) + c) = roll suf fp c.
Proof.
  intros Hc. unfold roll. rewrite app_nth2 by lia.
  by replace (Z.to_nat (Z.of_nat (length pre) + c - 1) - length pre) with (Z.to_nat (c - 1)) by lia.
Qed.

Definition shift_result (k : Z) (r : Z + Z * Z) : Z + Z * Z :=
  match r with inl c => inl (k + c)%Z | inr (c, fp) => inr (k + c, fp)%Z end.

Lemma scan_app pre suf mask bound fuel c fp :
  (0 < c)%Z →
  scan (pre ++ suf) mask (Z.of_nat (length pre) + bound) fuel (Z.of_nat (length pre) + c) fp
  = shift_result (Z.of_nat (length pre)) (scan suf mask bound fuel c fp).
Proof.
  revert c fp. induction fuel as [|fuel IH]; intros c fp Hc; cbn [scan]; [done|].
  replace (Z.of_nat (length pre) + c <? Z.of_nat (length pre) + bound)%Z with (c <? bound)%Z
    by (destruct (Z.ltb_spec c bound), (Z.ltb_spec (Z.of_nat (length pre) + c) (Z.of_nat (length pre) + bound)); lia).
  destruct (c <? bound)%Z; [|done]. rewrite roll_app by done. destruct (_ =? 0)%Z; [done|].
  rewrite <-IH by lia. f_equal. lia.
Qed.

(** The same iterator on the data behind a prefix. *)
Definition behind (pre : bytes) (it : BoundaryIterator) : BoundaryIterator := {|
  bi_data := pre ++ bi_data it; pre_avg_mask := pre_avg_mask it; post_avg_mask := post_avg_mask it;
  min_size := min_size it; avg_size := avg_size it; max_size := max_size it;
  last_split := Z.of_nat (length pre) + last_split it |}.

Lemma behind_len pre it : data_len (behind pre it) = (Z.of_nat (length pre) + data_len it)%Z.
Proof. unfold data_len, behind. cbn. rewrite length_app. lia. Qed.

Lemma next_boundary_behind pre it :
  (0 < min_size it <= avg_size it)%Z → (avg_size it <= max_size it)%Z → (0 <= last_split it <= data_len it)%Z →
  (data_len (behind pre it) + max_size it < 2 ^ 63)%Z →
  next_boundary (behind pre it) = (Z.of_nat (length pre) + next_boundary it)%Z.
Proof.
  rewrite behind_len. intros Hmin Hmax Hl Hfits. unfold next_boundary. cbv zeta. rewrite behind_len. cbn [behind last_split max_size avg_size
    bi_data pre_avg_mask post_avg_mask min_size]. rewrite !ssize_id by lia. set (k := Z.of_nat (length pre)).
  replace (Z.min (k + last_split it + max_size it) (k + data_len it))
    with (k + Z.min (last_split it + max_size it) (data_len it))%Z by lia.
  set (m := Z.min (last_split it + max_size it) (data_len it)).
  replace (Z.min (k + last_split it + avg_size it) (k + m))
    with (k + Z.min (last_split it + avg_size it) m)%Z by lia.
  set (n := Z.min (last_split it + avg_size it) m). unfold scan_to.
  replace (k + last_split it + min_size it)%Z with (k + (last_split it + min_size it))%Z by lia.
  replace (k + n - (k + (last_split it + min_size it)))%Z with (n - (last_split it + min_size it))%Z by lia.
  unfold k at 1 2. rewrite scan_app by lia. fold k.
  pose proof (scan_spec (bi_data it) (pre_avg_mask it) n (Z.to_nat (n - (last_split it + min_size it)))
    (last_split it + min_size it) 0) as Hs.
  destruct (scan _ _ n _ _ _) as [c|[c fp]]; cbn [shift_result]; [done|].
  replace (k + m - (k + c))%Z with (m - c)%Z by lia. unfold k at 1 2. rewrite scan_app by lia. fold k.
  by destruct (scan _ _ m _ _ _) as [c'|[c' fp']].
Qed.

Lemma iternext_behind pre it :
  (0 < min_size it <= avg_size it)%Z → (avg_size it <= max_size it)%Z → (0 <= last_split it <= data_len it)%Z →
  (data_len (behind pre it) + max_size it < 2 ^ 63)%Z →
  iternext (behind pre it) = (λ bi, (Z.of_nat (length pre) + bi.1, behind pre bi.2)%Z) <$> iternext it.
Proof.
  intros Hmin Hmax Hl Hfits. unfold iternext. rewrite behind_len, next_boundary_behind by done.
  rewrite behind_len in Hfits. cbn [behind last_split min_size]. rewrite !ssize_id by lia. set (k := Z.of_nat (length pre)).
  replace (k + data_len it <=? k + last_split it)%Z with (data_len it <=? last_split it)%Z
    by (destruct (Z.leb_spec (data_len it) (last_split it)),
          (Z.leb_spec (k + data_len it) (k + last_split it)); lia).
  replace (k + data_len it - (k + last_split it))%Z with (data_len it - last_split it)%Z by lia.
  destruct (data_len it <=? last_split it)%Z; [done|]. cbn. by destruct (_ <=? min_size it)%Z.
Qed.

Lemma drain_behind pre it fuel :
  (0 < min_size it <= avg_size it)%Z → (avg_size it <= max_size it)%Z → (0 <= last_split it <= data_len it)%Z →
  (data_len (behind pre it) + max_size it < 2 ^ 63)%Z →
  drain_iterator fuel (behind pre it)
  = (Z.add (Z.of_nat (length pre)) <$> (drain_iterator fuel it).1, (drain_iterator fuel it).2).
Proof.
  revert it. induction fuel as [|fuel IH]; intros it Hmin Hmax Hl Hfits; cbn [drain_iterator];
    rewrite iternext_behind by done; destruct (iternext it) as [[b it']|] eqn:Ei; try done.
  cbn [fmap option_fmap option_map fst snd]. pose proof Hfits as Hfits'. rewrite behind_len in Hfits'.
  apply iternext_spec in Ei as (-> & H1 & _); [|lia..]. rewrite IH; [|done..|unfold data_len in *; cbn in *; lia|exact Hfits].
  by destruct (drain_iterator fuel (at_split it b)).
Qed.

(** Fuel beyond the end of the data changes nothing. *)
Lemma drain_fuel it n m :
  (drain_iterator n it).2 = true → drain_iterator (n + m) it = drain_iterator n it.
Proof.
  revert it. induction n as [|n IH]; intros it; cbn [drain_iterator Nat.add].
  - destruct (iternext it) as [[b it']|] eqn:E; [done|]. intros _. destruct m; cbn; by rewrite E.
  - destruct (iternext it) as [[b it']|]; [|done]. specialize (IH it').
    destruct (drain_iterator n it') as [bs stopped]. cbn in *. intros H. by rewrite IH.
Qed.

Lemma iter_boundaries_stops data mn av mx bs :
  (Z.of_nat (length data) + mx < 2 ^ 63)%Z → iter_boundaries data mn av mx = Ok bs →
  ∃ it, new_iterator data mn av mx = Ok it ∧ ∀ fuel, length data <= fuel → drain_iterator fuel it = (bs, true).
Proof.
  intros Hfits. unfold iter_boundaries. destruct (new_iterator data mn av mx) as [it|e] eqn:E; [|done].
  cbn. intros [= <-]. exists it. split; [done|].
  apply new_iterator_ok in E as (H1 & H2 & H3 & H4 & H5 & H6 & H7 & _).
  assert (data_len it = Z.of_nat (length data)) as Hlen by (unfold data_len; by rewrite H7).
  destruct (drain_iterator_spec it (length data)) as [Hs _]; [rewrite ?H3, ?H4, ?H5, ?H6, ?Hlen; lia..|].
  intros fuel Hf. replace fuel with (length data + (fuel - length data)) by lia.
  rewrite drain_fuel by done. rewrite <-Hs. by destruct (drain_iterator (length data) it).
Qed.

(** ** Properties *)

(** C21: the cut points partition the data: the parameters are accepted exactly when they
    are in the range of [Py_ssize_t], the sizes are ordered and the average is a power of two
    with masks, and are refused with OverflowError or ValueError otherwise; then, if the length
    of the data plus the maximal size is in that range too, the iterator stops by itself, its
    cut points strictly increase up to the length of the data, every chunk is at most the
    maximal size and all but the last at least the minimal one. (Without that last condition
    the sum of a position and the maximal size overflows, see [large_max_size_overflows].) *)
Theorem cuts_partition data mn av mx :
  (is_ok (iter_boundaries data mn av mx) = true ↔
     (0 < mn <= av)%Z ∧ (av <= mx < 2 ^ 63)%Z ∧ is_Some (build_masks av))
  ∧ (∀ e, iter_boundaries data mn av mx = Err e →
       e = if ssize_ok mn && ssize_ok av && ssize_ok mx then ValueError else OverflowError)
  ∧ ((Z.of_nat (length data) + mx < 2 ^ 63)%Z → ∀ bs, iter_boundaries data mn av mx = Ok bs →
      valid_cuts mn mx (Z.of_nat (length data)) 0 bs
      ∧ ∃ it, new_iterator data mn av mx = Ok it ∧ ∀ fuel, length data <= fuel → drain_iterator fuel it = (bs, true)).
Proof.
  split; [|split].
  - unfold iter_boundaries. destruct (new_iterator data mn av mx) as [it|e] eqn:E; cbn.
    + split; [|done]. intros _. apply new_iterator_ok in E as (? & ? & _ & _ & _ & _ & _ & Hm).
      split_and!; try lia. by eexists.
    + split; [done|]. intros (H1 & H2 & H3). pose proof (new_iterator_accepts data mn av mx H1 H2 H3) as H. by rewrite E in H.
  - intros e. unfold iter_boundaries, new_iterator, parse_ssize.
    destruct (ssize_ok mn), (ssize_ok av), (ssize_ok mx); cbn; try by intros [= <-].
    destruct (_ || _); [by intros [= <-]|]. destruct (build_masks av) as [[? ?]|]; [done|by intros [= <-]].
  - intros Hfits bs Hbs. split; [by eapply iter_boundaries_valid|by apply iter_boundaries_stops].
Qed.

Lemma cuts_partition_witness :
  valid_cuts 4 32 80 0 [8; 16; 24; 32; 40; 46; 52; 58; 64; 70; 76; 80]%Z.
Proof.
  destruct (cuts_partition (repeat x41 40 ++ repeat x42 40) 4 8 32) as (_ & _ & H).
  exact (proj1 (H eq_refl [8; 16; 24; 32; 40; 46; 52; 58; 64; 70; 76; 80]%Z ltac:(vm_compute; reflexivity))).
Defined.

(** A maximal size near the end of [Py_ssize_t] is accepted, and the second boundary is
    computed from an overflowing sum: with wrap-around it is negative. *)
Example large_max_size_overflows :
  iter_boundaries (repeat x41 40 ++ repeat x42 40) 4 8 (2 ^ 63 - 1) = Ok [8; - 2 ^ 63 + 7; 80]%Z.
Proof. vm_compute. reflexivity. Qed.

(** the cut points depend on the content only: after a cut, the rest of the data is cut
    as if it stood alone, whatever came before; so equal content behind cut points of two
    files gives equal chunks. *)
Theorem cuts_are_content_defined pre suf mn av mx bs :
  (Z.of_nat (length (pre ++ suf)) + mx < 2 ^ 63)%Z → iter_boundaries suf mn av mx = Ok bs →
  ∃ it, new_iterator (pre ++ suf) mn av mx = Ok it
    ∧ ∀ fuel, length suf <= fuel →
        drain_iterator fuel (at_split it (Z.of_nat (length pre)))
        = (Z.add (Z.of_nat (length pre)) <$> bs, true).
Proof.
  rewrite length_app. intros Hfits Hbs. destruct (iter_boundaries_stops suf mn av mx bs ltac:(lia) Hbs) as (it0 & E0 & Hd).
  pose proof (new_iterator_ok _ _ _ _ _ E0) as (H1 & H2 & H3 & H4 & H5 & H6 & H7 & Hm).
  destruct (new_iterator (pre ++ suf) mn av mx) as [it|e] eqn:E.
  2: { pose proof (new_iterator_accepts (pre ++ suf) mn av mx H1 H2 ltac:(by eexists)) as H. by rewrite E in H. }
  exists it. split; [done|]. intros fuel Hf. specialize (Hd fuel Hf).
  pose proof (new_iterator_ok _ _ _ _ _ E) as (_ & _ & K3 & K4 & K5 & K6 & K7 & Km).
  assert (at_split it (Z.of_nat (length pre)) = behind pre it0) as ->.
  { unfold at_split, behind. rewrite K3, K4, K5, K7, H3, H4, H5, H6, H7, Z.add_0_r.
    rewrite Hm in Km. by injection Km as -> ->. }
  assert (data_len it0 = Z.of_nat (length suf)) as Hl by (unfold data_len; by rewrite H7).
  rewrite drain_behind, Hd; rewrite ?behind_len, ?H3, ?H4, ?H5, ?H6, ?Hl; try lia; done.
Qed.

Definition example_data : bytes := repeat x41 40 ++ repeat x42 40.

Lemma example_boundaries :
  iter_boundaries example_data 4 8 32 = Ok [8; 16; 24; 32; 40; 46; 52; 58; 64; 70; 76; 80]%Z.
Proof. vm_compute. reflexivity. Qed.

Lemma cuts_are_content_defined_witness :
  ∃ it, new_iterator (repeat x43 100 ++ example_data) 4 8 32 = Ok it
    ∧ drain_iterator 80 (at_split it 100)
      = ([108; 116; 124; 132; 140; 146; 152; 158; 164; 170; 176; 180]%Z, true).
Proof.
  destruct (cuts_are_content_defined (repeat x43 100) example_data 4 8 32 _ ltac:(by vm_compute) example_boundaries)
    as (it & E & H).
  exists it. split; [exact E|]. apply (H 80). vm_compute. lia.
Defined.
