(* ===== verification/Chunker.v ===== *)
(** * Chunks of a file and the hash of a recipe

    [chunking/chunker.py] on top of the boundaries of [fastcdc.c], and
    [chunking/recipes.py]. BLAKE3 is a parameter; the file may change while it is read. *)

From S2P Require Import Prelude PyStr Common FastCdc.
From Stdlib Require Import Strings.Byte.

(** ** chunker.py *)

Record FileChunker := { avg_chunk_size : Z; min_chunk_size : Z; max_chunk_size : Z }.

(** [FileChunker.__init__] *)
Definition new_chunker (avg mn mx : Z) : res FileChunker :=
  _ ← raise_if (avg <=? 0)%Z StopanConfigValueError;
  _ ← raise_if (negb (Z.land avg (avg - 1) =? 0)%Z) StopanConfigValueError;
  _ ← raise_if (mn <=? 0)%Z StopanConfigValueError;
  _ ← raise_if (avg <? mn)%Z StopanConfigValueError;
  _ ← raise_if (mx <? avg)%Z StopanConfigValueError;
  Ok {| avg_chunk_size := avg; min_chunk_size := mn; max_chunk_size := mx |}.

Definition default_chunker : FileChunker :=
  {| avg_chunk_size := 65536; min_chunk_size := 16384; max_chunk_size := 262144 |}.

(** What the calls on an open file answer: [fstat] and [read], then [fstat] again and
    [mmap]. *)
Record FileView := { fv_size : Z; fv_read : nat → bytes; fv_size_again : Z; fv_mapped : bytes }.

(** A file nobody changes. *)
Definition stable_view (content : bytes) : FileView := {|
  fv_size := Z.of_nat (length content); fv_read := λ n, take n content;
  fv_size_again := Z.of_nat (length content); fv_mapped := content |}.

(** [mapped_file[start:end]] *)
Definition slice (data : bytes) (start stop : Z) : bytes :=
  take (Z.to_nat (stop - start)) (drop (Z.to_nat start) data).

Section chunker.
Context (blake3 : bytes → bytes).

Definition named (data : bytes) : pystr * bytes := (blake3_hex_digest blake3 data, data).

(** The loop over the boundaries: the pairs yielded and the exception that ends it. *)
Fixpoint cut_chunks (mapped : bytes) (file_size start : Z) (boundaries : list Z)
  : list (pystr * bytes) * option exn :=
  match boundaries with
  | [] => (if (start <? file_size)%Z then [named (slice mapped start file_size)] else [], None)
  | stop :: boundaries' =>
      if (stop <=? start)%Z then ([], Some RuntimeError)
      else if (file_size <? stop)%Z then ([], Some RuntimeError)
      else
        let '(cs, e) := cut_chunks mapped file_size stop boundaries' in
        (named (slice mapped start stop) :: cs, e)
  end.

(** [chunk_stream]; [read] takes a [Py_ssize_t]. *)
Definition chunk_stream (c : FileChunker) (file : FileView) : list (pystr * bytes) * option exn :=
  if (fv_size file =? 0)%Z then ([], None)
  else
    let small := (fv_size file <=? min_chunk_size c)%Z in
    let chunk_data := fv_read file (Z.to_nat (min_chunk_size c + 1)) in
    if small && negb (ssize_ok (min_chunk_size c + 1)) then ([], Some OverflowError)
    else if small && (Z.of_nat (length chunk_data) <=? min_chunk_size c)%Z
    then (match chunk_data with [] => [] | _ => [named chunk_data] end, None)
    else
      let file_size := if small then fv_size_again file else fv_size file in
      match fv_mapped file with
      | [] => ([], Some ValueError)
      | _ =>
          match iter_boundaries (fv_mapped file) (min_chunk_size c) (avg_chunk_size c) (max_chunk_size c) with
          | Err e => ([], Some e)
          | Ok boundaries => cut_chunks (fv_mapped file) file_size 0 boundaries
          end
      end.

(** ** recipes.py *)

(** [b"stopan.recipe.v1\x00"] *)
Definition RECIPE_HASH_DOMAIN : bytes := encode_utf8 (u "stopan.recipe.v1") ++ [x00].

(** The value of a hexadecimal digit of either case. *)
Definition hex_value (c : N) : option N :=
  if ((48 <=? c) && (c <=? 57))%N then Some (c - 48)%N
  else if ((97 <=? c) && (c <=? 102))%N then Some (c - 87)%N
  else if ((65 <=? c) && (c <=? 70))%N then Some (c - 55)%N
  else None.

Definition is_ascii_space (c : N) : bool := ((9 <=? c) && (c <=? 13) || (c =? 32))%N.

(** [bytes.fromhex]: white space is skipped between bytes. *)
Fixpoint fromhex (s : pystr) : res bytes :=
  match s with
  | [] => Ok []
  | c :: s1 =>
      if is_ascii_space c then fromhex s1
      else match s1 with
      | [] => Err ValueError
      | d :: s2 =>
          match hex_value c, hex_value d with
          | Some a, Some b =>
              bs ← fromhex s2;
              Ok (match Byte.of_N (a * 16 + b) with Some x => x | None => x00 end :: bs)
          | _, _ => Err ValueError
          end
      end
  end.

(** [int(v).to_bytes(n, "big", signed=False)] *)
Definition to_bytes_be (n : nat) (v : Z) : res bytes :=
  if (v <? 0)%Z || (256 ^ Z.of_nat n <=? v)%Z then Err OverflowError else Ok (be_split n (Z.to_N v)).

Definition encode_chunk (rc : Z * pystr * Z) : res bytes :=
  let '(order, chunk_hash, size) := rc in
  a ← to_bytes_be 4 order; b ← fromhex chunk_hash; d ← to_bytes_be 8 size;
  Ok (a ++ b ++ d).

Definition compute_recipe_hash (chunks : list (Z * pystr * Z)) : res pystr :=
  parts ← mapM_res encode_chunk chunks;
  Ok (blake3_hex_digest blake3 (RECIPE_HASH_DOMAIN ++ concat parts)).

(** ** Slices along the cut points *)

Lemma slice_app data a b c :
  (0 <= a <= b)%Z → (b <= c)%Z → slice data a b ++ slice data b c = slice data a c.
Proof.
  intros Hab Hbc. unfold slice.
  replace (Z.to_nat (c - a)) with (Z.to_nat (b - a) + Z.to_nat (c - b)) by lia.
  replace (Z.to_nat b) with (Z.to_nat a + Z.to_nat (b - a)) by lia.
  rewrite <-drop_drop. apply take_take_drop.
Qed.

Lemma length_slice data a b :
  (0 <= a <= b)%Z → (b <= Z.of_nat (length data))%Z → Z.of_nat (length (slice data a b)) = (b - a)%Z.
Proof. intros. unfold slice. rewrite length_take, length_drop. lia. Qed.

Lemma slice_all data : slice data 0 (Z.of_nat (length data)) = data.
Proof. unfold slice. rewrite drop_0. apply take_ge. lia. Qed.

Definition honest_chunk (c : pystr * bytes) : Prop := c.1 = blake3_hex_digest blake3 c.2 ∧ c.2 ≠ [].

(** The sizes of the chunks of a file: all within the bounds, the last one may be short. *)
Fixpoint sized (mn mx : Z) (cs : list (pystr * bytes)) : Prop :=
  match cs with
  | [] => True
  | c :: cs' => (Z.of_nat (length c.2) <= mx ∧ (cs' ≠ [] → mn <= Z.of_nat (length c.2)))%Z ∧ sized mn mx cs'
  end.

Lemma cut_chunks_valid mn mx data start bs :
  valid_cuts mn mx (Z.of_nat (length data)) start bs → (0 <= start)%Z →
  let '(cs, e) := cut_chunks data (Z.of_nat (length data)) start bs in
  e = None ∧ concat cs.*2 = slice data start (Z.of_nat (length data)) ∧ Forall honest_chunk cs
  ∧ sized mn mx cs ∧ (start < Z.of_nat (length data) → cs ≠ [])%Z.
Proof.
  set (len := Z.of_nat (length data)). revert start. induction bs as [|b bs IH]; intros start; cbn.
  - intros -> H. rewrite (proj2 (Z.ltb_ge _ _)) by lia. cbn. split_and!; auto; [|lia].
    unfold slice. by rewrite Z.sub_diag.
  - intros ((H1 & H2 & H3) & Hv) H0.
    rewrite (proj2 (Z.leb_gt _ _)), (proj2 (Z.ltb_ge _ _)) by lia. specialize (IH b Hv ltac:(lia)).
    destruct (cut_chunks data len b bs) as [cs e]. destruct IH as (-> & IH1 & IH2 & IH3 & IH4).
    pose proof (length_slice data start b ltac:(lia) ltac:(lia)) as Hlen.
    split_and!; [done| | | |done].
    + cbn. rewrite IH1. apply slice_app; lia.
    + constructor; [|done]. split; [done|]. cbn. intros E. rewrite E in Hlen. cbn in Hlen. lia.
    + cbn. split; [|done]. rewrite Hlen. split; [lia|]. intros Hne. apply H3.
      destruct (Z.lt_ge_cases b len) as [|Hge]; [done|]. exfalso. apply Hne. destruct bs as [|b' bs]; cbn in *.
      * cbn in IH1. destruct cs as [|c cs]; [done|]. apply Forall_cons in IH2 as [[_ Hc] _].
        exfalso. apply Hc. unfold slice in IH1.
        replace (Z.to_nat (len - b)) with 0 in IH1 by lia. cbn in IH1. by destruct c.2.
      * lia.
Qed.

Lemma stable_chunks c content :
  (0 < min_chunk_size c <= avg_chunk_size c)%Z → (avg_chunk_size c <= max_chunk_size c)%Z →
  (Z.of_nat (length content) + max_chunk_size c < 2 ^ 63)%Z → is_Some (build_masks (avg_chunk_size c)) →
  let '(cs, e) := chunk_stream c (stable_view content) in
  e = None ∧ concat cs.*2 = content ∧ Forall honest_chunk cs
  ∧ sized (min_chunk_size c) (max_chunk_size c) cs.
Proof.
  intros Hmin Hmax Hfits Hmask. unfold chunk_stream, stable_view. cbn [fv_size fv_read fv_size_again fv_mapped].
  destruct (Z.eqb_spec (Z.of_nat (length content)) 0) as [E|Hne].
  { destruct content; [cbn; by split_and!|done]. }
  assert (ssize_ok (min_chunk_size c + 1) || negb (Z.of_nat (length content) <=? min_chunk_size c)%Z = true) as Hread.
  { unfold ssize_ok. rewrite (proj2 (Z.leb_le _ _)) by lia. destruct (Z.leb_spec (Z.of_nat (length content)) (min_chunk_size c)); [|apply orb_true_r].
    rewrite (proj2 (Z.ltb_lt _ _)) by lia. done. }
  destruct (Z.leb_spec (Z.of_nat (length content)) (min_chunk_size c)) as [Hsmall|Hbig]; cbn [andb].
  all: cbn [negb orb] in Hread; rewrite ?orb_false_r in Hread; rewrite ?Hread; cbn [negb].
  - rewrite take_ge by lia. rewrite (proj2 (Z.leb_le _ _)) by done. destruct content as [|b content]; [done|].
    cbn [concat fmap list_fmap]. split_and!; [done|cbn; by rewrite app_nil_r|by repeat constructor|].
    cbn [sized snd named]. split; [|done]. split; [lia|done].
  - destruct content as [|b0 content0] eqn:Ec; [done|]. rewrite <-Ec in *. clear b0 content0 Ec.
    destruct (iter_boundaries _ _ _ _) as [bs|e] eqn:Eb.
    + apply iter_boundaries_valid in Eb; [|done]. pose proof (cut_chunks_valid _ _ _ _ _ Eb ltac:(lia)) as H.
      destruct (cut_chunks _ _ _ _) as [cs e]. destruct H as (-> & H1 & H2 & H3 & _).
      rewrite slice_all in H1. by destruct content.
    + exfalso. pose proof (new_iterator_accepts content _ _ _ Hmin ltac:(split; [exact Hmax|lia]) Hmask) as Hok.
      revert Eb Hok. unfold iter_boundaries. by destruct (new_iterator _ _ _ _).
Qed.

(** Every pair of the stream is a piece of data with its digest. *)
Lemma cut_chunks_named data size start bs : ∃ ds, (cut_chunks data size start bs).1 = named <$> ds.
Proof.
  revert start. induction bs as [|b bs IH]; intros start; cbn.
  - destruct (_ <? _)%Z; [by exists [slice data start size]|by exists []].
  - destruct (_ <=? _)%Z; [by exists []|]. destruct (_ <? _)%Z; [by exists []|].
    destruct (IH b) as [ds E]. destruct (cut_chunks _ _ _ _) as [cs e]. cbn in *. subst.
    by exists (slice data start b :: ds).
Qed.

Lemma chunk_stream_named c file : ∃ ds, (chunk_stream c file).1 = named <$> ds.
Proof.
  unfold chunk_stream. destruct (_ =? 0)%Z; [by exists []|]. destruct (_ && negb _); [by exists []|]. destruct (_ && _).
  - cbn. destruct (fv_read _ _) as [|b bs]; [by exists []|by exists [b :: bs]].
  - destruct (fv_mapped file); [by exists []|]. destruct (iter_boundaries _ _ _ _); [|by exists []].
    apply cut_chunks_named.
Qed.

(** C22: the chunks of a file are the file: with sizes the chunker accepts and masks exist
    for, and when the length of the file plus the maximal size fits [Py_ssize_t], the stream of a file nobody changes ends normally, the chunks put together are
    its content, each is non-empty and named by its own digest, none exceeds the maximal
    size and all but the last reach the minimal one; an empty file has no chunks. *)
Theorem chunks_are_the_file c content :
  (0 < min_chunk_size c <= avg_chunk_size c)%Z → (avg_chunk_size c <= max_chunk_size c)%Z →
  (Z.of_nat (length content) + max_chunk_size c < 2 ^ 63)%Z → is_Some (build_masks (avg_chunk_size c)) →
  let '(cs, e) := chunk_stream c (stable_view content) in
  e = None ∧ concat cs.*2 = content ∧ Forall honest_chunk cs
  ∧ sized (min_chunk_size c) (max_chunk_size c) cs.
Proof. apply stable_chunks. Qed.
End chunker.

(** ** Recipe hashes *)

Lemma hex_value_digit c : is_hex_lower c = true → ∃ a, hex_value c = Some a ∧ (a < 16)%N ∧ hex_digit a = c
  ∧ is_ascii_space c = false.
Proof.
  unfold is_hex_lower, hex_value, hex_digit, is_ascii_space. intros H.
  destruct ((48 <=? c) && (c <=? 57))%N eqn:E1.
  - apply andb_true_iff in E1 as [?%N.leb_le ?%N.leb_le]. exists (c - 48)%N.
    rewrite (proj2 (N.ltb_lt _ _)) by lia. split_and!; [done|lia|lia|].
    apply orb_false_iff; split; [apply andb_false_iff; right; apply N.leb_gt; lia|apply N.eqb_neq; lia].
  - destruct ((97 <=? c) && (c <=? 102))%N eqn:E2; [|done].
    apply andb_true_iff in E2 as [?%N.leb_le ?%N.leb_le]. exists (c - 87)%N.
    rewrite (proj2 (N.ltb_ge _ _)) by lia. split_and!; [done|lia|lia|].
    apply orb_false_iff; split; [apply andb_false_iff; right; apply N.leb_gt; lia|apply N.eqb_neq; lia].
Qed.

Lemma fromhex_hex n s :
  length s = 2 * n → forallb is_hex_lower s = true →
  ∃ bs, fromhex s = Ok bs ∧ hexdigest bs = s ∧ length bs = n.
Proof.
  revert s. induction n as [|n IH]; intros s Hl Hh.
  { destruct s; [|done]. by exists []. }
  destruct s as [|c [|d s]]; [done|cbn in Hl; lia|]. cbn in Hh. bool_hyps.
  destruct (IH s) as (bs & E & Ed & El); [cbn in Hl; lia|done|].
  destruct (hex_value_digit c) as (a & Ha & Ha16 & Hca & Hsp); [done|].
  destruct (hex_value_digit d) as (b & Hb & Hb16 & Hdb & _); [done|].
  destruct (Byte.of_N (a * 16 + b)) as [x|] eqn:Ex.
  2: { apply Byte.of_N_None_iff in Ex. lia. }
  exists (x :: bs). cbn. rewrite Hsp, Ha, Hb, E. cbn. rewrite Ex. split; [done|]. split; [|by cbn; rewrite El].
  unfold hexdigest in *. cbn. rewrite Ed. apply Byte.to_of_N in Ex. rewrite Ex.
  rewrite N.div_add_l, (N.div_small b 16), N.add_0_r by lia.
  rewrite (N.add_comm (a * 16)), N.Div0.mod_add, (N.mod_small b 16) by lia. by rewrite Hca, Hdb.
Qed.

Lemma to_bytes_be_ok n v : (0 <= v < 256 ^ Z.of_nat n)%Z → to_bytes_be n v = Ok (be_split n (Z.to_N v)).
Proof. intros H. unfold to_bytes_be. by rewrite (proj2 (Z.ltb_ge _ _)), (proj2 (Z.leb_gt _ _)) by lia. Qed.

(** What a backup writes in a recipe: 32-bit orders, digests, 64-bit sizes. *)
Definition encodable (rc : Z * pystr * Z) : Prop :=
  (0 <= rc.1.1 < 256 ^ 4)%Z ∧ is_valid_blake3_hex rc.1.2 = true ∧ (0 <= rc.2 < 256 ^ 8)%Z.

Lemma be_split_Z_inj n v w :
  (0 <= v < 256 ^ Z.of_nat n)%Z → (0 <= w < 256 ^ Z.of_nat n)%Z →
  be_split n (Z.to_N v) = be_split n (Z.to_N w) → v = w.
Proof.
  intros Hv Hw H. apply be_split_inj in H; [lia| |]; apply N2Z.inj_lt;
    rewrite N2Z.inj_pow, nat_N_Z, Z2N.id by lia; change (Z.of_N 256) with 256%Z; lia.
Qed.

Lemma encode_chunk_ok rc :
  encodable rc → ∃ bs, encode_chunk rc = Ok bs ∧ length bs = 44
    ∧ ∀ rc', encodable rc' → encode_chunk rc' = Ok bs → rc' = rc.
Proof.
  assert (∀ h, is_valid_blake3_hex h = true → ∃ bs, fromhex h = Ok bs ∧ hexdigest bs = h ∧ length bs = 32) as Hhex.
  { intros h H. unfold is_valid_blake3_hex in H. bool_hyps. by apply fromhex_hex. }
  destruct rc as [[o h] sz]. intros (Ho & Hh & Hs). cbn in *. destruct (Hhex h Hh) as (bs & E & Ed & El).
  exists (be_split 4 (Z.to_N o) ++ bs ++ be_split 8 (Z.to_N sz)). unfold encode_chunk.
  rewrite (to_bytes_be_ok 4 o Ho), E, (to_bytes_be_ok 8 sz Hs). cbn [mbind res_bind]. split; [done|]. split.
  { rewrite !length_app, !length_be_split, El. done. }
  intros [[o' h'] sz'] (Ho' & Hh' & Hs'). cbn in Ho', Hh', Hs'. destruct (Hhex h' Hh') as (bs' & E' & Ed' & El').
  unfold encode_chunk. rewrite (to_bytes_be_ok 4 o' Ho'), E', (to_bytes_be_ok 8 sz' Hs'). cbn [mbind res_bind].
  intros Hi. assert (be_split 4 (Z.to_N o') ++ bs' ++ be_split 8 (Z.to_N sz')
    = be_split 4 (Z.to_N o) ++ bs ++ be_split 8 (Z.to_N sz)) as H by (set (x := _ ++ _) in *; congruence).
  apply app_inj_1 in H as [H1 H]; [|by rewrite !length_be_split].
  apply app_inj_1 in H as [-> H2]; [|by rewrite El, El'].
  apply (be_split_Z_inj 4) in H1; [|done..]. apply (be_split_Z_inj 8) in H2; [|done..]. congruence.
Qed.

Lemma encode_chunks_inj cs cs' ps ps' :
  Forall encodable cs → Forall encodable cs' →
  mapM_res encode_chunk cs = Ok ps → mapM_res encode_chunk cs' = Ok ps' →
  concat ps = concat ps' → cs = cs'.
Proof.
  intros H. revert cs' ps ps'. induction H as [|rc cs Hrc H IH]; intros cs' ps ps' H' E E' Hc;
    destruct H' as [|rc' cs' Hrc' H'].
  - done.
  - cbn in E, E'. injection E as <-. destruct (encode_chunk_ok rc' Hrc') as (bs & Eb & Hl & _).
    rewrite Eb in E'. cbn in E'. destruct (mapM_res encode_chunk cs'); [|done]. injection E' as <-. by destruct bs.
  - cbn in E, E'. injection E' as <-. destruct (encode_chunk_ok rc Hrc) as (bs & Eb & Hl & _).
    rewrite Eb in E. cbn in E. destruct (mapM_res encode_chunk cs); [|done]. injection E as <-. by destruct bs.
  - cbn in E, E'. destruct (encode_chunk_ok rc Hrc) as (bs & Eb & Hl & Hinj).
    destruct (encode_chunk_ok rc' Hrc') as (bs' & Eb' & Hl' & _). rewrite Eb in E. rewrite Eb' in E'.
    cbn in E, E'. destruct (mapM_res encode_chunk cs) as [qs|] eqn:Eq; [|done].
    destruct (mapM_res encode_chunk cs') as [qs'|] eqn:Eq'; [|done]. injection E as <-. injection E' as <-.
    cbn in Hc. apply app_inj_1 in Hc as [-> Hc]; [|by rewrite Hl, Hl'].
    rewrite (Hinj rc' Hrc' Eb'). f_equal. by eapply IH.
Qed.

Lemma encode_chunks_ok cs : Forall encodable cs → ∃ ps, mapM_res encode_chunk cs = Ok ps.
Proof.
  induction 1 as [|rc cs Hrc _ [ps IH]]; [by exists []|]. destruct (encode_chunk_ok rc Hrc) as (bs & E & _).
  exists (bs :: ps). cbn. by rewrite E, IH.
Qed.

(** the hash of a recipe identifies it: for chunks with 32-bit orders, digests and
    64-bit sizes it is always computed, and two recipes with the same hash are the same
    sequence, or exhibit a collision of BLAKE3. *)
Theorem recipe_hash_identifies blake3 cs cs' :
  Forall encodable cs → Forall encodable cs' →
  ∃ h h', compute_recipe_hash blake3 cs = Ok h ∧ compute_recipe_hash blake3 cs' = Ok h'
    ∧ (h = h' → cs = cs' ∨ ∃ x y, x ≠ y ∧ blake3 x = blake3 y).
Proof.
  intros H H'. destruct (encode_chunks_ok cs H) as [ps E]. destruct (encode_chunks_ok cs' H') as [ps' E'].
  unfold compute_recipe_hash. rewrite E, E'. do 2 eexists. split; [reflexivity|]. split; [reflexivity|].
  unfold blake3_hex_digest. intros Hh%hexdigest_inj.
  destruct (decide (concat ps = concat ps')) as [Hc|Hc].
  - left. by eapply encode_chunks_inj.
  - right. exists (RECIPE_HASH_DOMAIN ++ concat ps), (RECIPE_HASH_DOMAIN ++ concat ps'). split; [|done].
    intros Heq. by apply app_inv_head in Heq.
Qed.

(** ** Witnesses *)

Definition small_chunker : FileChunker := {| avg_chunk_size := 8; min_chunk_size := 4; max_chunk_size := 32 |}.
Definition toy_blake3 (b : bytes) : bytes := repeat (hd x00 b) 32.

Lemma chunks_are_the_file_witness :
  concat (chunk_stream toy_blake3 small_chunker (stable_view example_data)).1.*2 = example_data.
Proof.
  pose proof (chunks_are_the_file toy_blake3 small_chunker example_data ltac:(cbn; lia) ltac:(cbn; lia) ltac:(by vm_compute)
    ltac:(cbn; eexists; reflexivity)) as H.
  destruct (chunk_stream _ _ _) as [cs e]. exact (proj1 (proj2 H)).
Defined.

Lemma recipe_hash_identifies_witness :
  ∃ h, compute_recipe_hash toy_blake3 [(0%Z, repeat 97%N 64, 10%Z)] = Ok h.
Proof.
  assert (Forall encodable [(0%Z, repeat 97%N 64, 10%Z)]) as He
    by (constructor; [split_and!; vm_compute; intuition congruence|constructor]).
  destruct (recipe_hash_identifies toy_blake3 _ _ He He) as (h & _ & E & _). exists h. exact E.
Defined.
