(* ===== verification/BackupWorker.v ===== *)
(** * What a backup does with one file

    [chunking/chunk_index.py], [chunking/planner.py] and [backup/worker.py]: the chunks of
    a file are put in the store, unless they are there already or the catalogue proves
    enough remote copies of them. Other workers, and whoever else uses the store and the
    shared index, act between any two chunks. *)

From S2P Require Import Prelude PyStr Common Protection Catalog ProtectionTable Cas FastCdc Chunker.

(** ** chunk_index.py *)

Record FastBoolCache := { fb_max_items : Z; fb_data : gmap pystr bool; fb_write_ops : Z }.

Definition new_cache (max_items : Z) : FastBoolCache :=
  {| fb_max_items := Z.max max_items 1; fb_data := ∅; fb_write_ops := 0 |}.

Definition cache_get (key : pystr) (c : FastBoolCache) : option bool := fb_data c !! key.

(** [FastBoolCache.set]: every 1024 writes an overfull cache is emptied. *)
Definition cache_set (key : pystr) (value : bool) (c : FastBoolCache) : FastBoolCache :=
  let data := <[key := value]> (fb_data c) in
  let write_ops := (fb_write_ops c + 1)%Z in
  if (Z.land write_ops 1023 =? 0)%Z && (fb_max_items c <? Z.of_nat (size data))%Z
  then {| fb_max_items := fb_max_items c; fb_data := ∅; fb_write_ops := 0 |}
  else {| fb_max_items := fb_max_items c; fb_data := data; fb_write_ops := write_ops |}.

Definition cache_clear (c : FastBoolCache) : FastBoolCache :=
  {| fb_max_items := fb_max_items c; fb_data := ∅; fb_write_ops := 0 |}.

Record ChunkIndex := { local_exists : FastBoolCache; remotely_protected : FastBoolCache }.

Definition new_index (max_items : Z) : ChunkIndex :=
  {| local_exists := new_cache max_items; remotely_protected := new_cache max_items |}.

(** ** planner.py *)

Inductive ChunkDecision := process | skip_local | skip_synced.

#[export] Instance ChunkDecision_eq_dec : EqDecision ChunkDecision.
Proof. solve_decision. Defined.

Record ChunkPlanner := {
  cp_fast_path_enabled : bool; cp_safe_mode : bool; cp_allow_remote_protected_skip : bool;
  cp_desired_rf : Z; cp_placement_epoch : option pystr }.

Definition new_planner (fast_path_enabled safe_mode allow_remote : bool) (desired_rf : Z)
    (placement_epoch : option pystr) : res ChunkPlanner :=
  if (desired_rf <? 0)%Z then Err StopanConfigValueError
  else Ok {| cp_fast_path_enabled := fast_path_enabled; cp_safe_mode := safe_mode;
             cp_allow_remote_protected_skip := allow_remote; cp_desired_rf := desired_rf;
             cp_placement_epoch := placement_epoch |}.

(** The store and the shared index. *)
Record WorkerState := { wk_cas : CasState; wk_index : ChunkIndex }.

Definition set_local (h : pystr) (b : bool) (s : WorkerState) : WorkerState := {|
  wk_cas := wk_cas s;
  wk_index := {| local_exists := cache_set h b (local_exists (wk_index s));
                 remotely_protected := remotely_protected (wk_index s) |} |}.
Definition set_remote (h : pystr) (b : bool) (s : WorkerState) : WorkerState := {|
  wk_cas := wk_cas s;
  wk_index := {| local_exists := local_exists (wk_index s);
                 remotely_protected := cache_set h b (remotely_protected (wk_index s)) |} |}.

(** An operation of the store. *)
Definition on_cas {A} (m : SM CasState A) : SM WorkerState A := λ s,
  let '(r, cas) := m (wk_cas s) in (r, {| wk_cas := cas; wk_index := wk_index s |}).

Section planner.
Context (data_folder : pystr) (pl : ChunkPlanner).

(** [_exists_local] *)
Definition planner_exists_local (h : pystr) : SM WorkerState bool :=
  s ← sget;
  match cache_get h (local_exists (wk_index s)) with
  | Some cached => mret cached
  | None =>
      let exists_ := exists_local data_folder (wk_cas s) h in
      smodify (set_local h exists_);; mret exists_
  end.

(** [_is_remotely_protected]; [c] is the catalogue read. *)
Definition planner_is_remotely_protected (c : Catalog) (h : pystr) : SM WorkerState bool :=
  s ← sget;
  match cache_get h (remotely_protected (wk_index s)) with
  | Some cached => mret cached
  | None =>
      protected ← slift (is_chunk_remotely_protected c h (cp_desired_rf pl) (cp_placement_epoch pl));
      smodify (set_remote h protected);; mret protected
  end.

Definition decide_chunk (c : Catalog) (h : pystr) : SM WorkerState ChunkDecision :=
  if cp_safe_mode pl || negb (cp_fast_path_enabled pl) then mret process
  else
    there ← planner_exists_local h;
    if there : bool then mret skip_local
    else
      remote ← (if cp_allow_remote_protected_skip pl then planner_is_remotely_protected c h
                else mret false);
      mret (if remote : bool then skip_synced else process).
End planner.

(** ** worker.py *)

Record WorkerStats := {
  ws_chunks_total : Z; ws_processed : Z; ws_skipped : Z; ws_skipped_local : Z;
  ws_skipped_remote : Z; ws_written : Z }.

(** The local variables of [process_file_worker]. *)
Record WorkerVars := { wv_chunks : list recipe_chunk; wv_file_size : Z; wv_stats : WorkerStats }.

Definition no_vars : WorkerVars := {|
  wv_chunks := []; wv_file_size := 0;
  wv_stats := {| ws_chunks_total := 0; ws_processed := 0; ws_skipped := 0; ws_skipped_local := 0;
                 ws_skipped_remote := 0; ws_written := 0 |} |}.

Inductive WorkerResult :=
  | WorkerOk (chunks : list recipe_chunk) (file_size : Z) (recipe_hash : pystr) (stats : WorkerStats)
  | WorkerFailed (message : pystr).

(** The surroundings: opening the file, and before each chunk the catalogue, what others
    do, and the surroundings of the write. *)
Record WorkerEnv := {
  we_open : res FileView;
  we_catalog : nat → Catalog;
  we_others : nat → WorkerState → WorkerState;
  we_cas : nat → CasEnv }.

Definition count_decision (d : ChunkDecision) (written : bool) (st : WorkerStats) : WorkerStats :=
  let b2z (b : bool) := if b then 1%Z else 0%Z in
  {| ws_chunks_total := ws_chunks_total st + 1;
     ws_processed := ws_processed st + b2z (bool_decide (d = process));
     ws_skipped := ws_skipped st + b2z (bool_decide (d ≠ process));
     ws_skipped_local := ws_skipped_local st + b2z (bool_decide (d = skip_local));
     ws_skipped_remote := ws_skipped_remote st + b2z (bool_decide (d = skip_synced));
     ws_written := ws_written st + b2z (bool_decide (d = process) && written) |}%Z.

Section worker.
Context (data_folder : pystr) (blake3 compress : bytes → bytes) (exc_text : exn → pystr).
Context (chunker : FileChunker).

(** The body of the loop for the chunk number [n]. *)
Definition process_chunk (env : WorkerEnv) (pl : ChunkPlanner) (n : nat) (chunk : pystr * bytes)
    (v : WorkerVars) : SM WorkerState WorkerVars :=
  let '(chunk_hash, chunk_data) := chunk in
  let chunk_size := Z.of_nat (length chunk_data) in
  smodify (we_others env n);;
  decision ← decide_chunk data_folder pl (we_catalog env n) chunk_hash;
  written ← match decision with
            | process =>
                written ← on_cas (put data_folder compress (we_cas env n) chunk_hash chunk_data);
                smodify (set_local chunk_hash true);; mret (written : bool)
            | _ => mret false
            end;
  mret {| wv_chunks := wv_chunks v ++ [(Z.of_nat n, chunk_hash, chunk_size)];
          wv_file_size := wv_file_size v + chunk_size;
          wv_stats := count_decision decision written (wv_stats v) |}.

Fixpoint process_chunks (env : WorkerEnv) (pl : ChunkPlanner) (n : nat) (cs : list (pystr * bytes))
    (v : WorkerVars) : SM WorkerState WorkerVars :=
  match cs with
  | [] => mret v
  | c :: cs' => v' ← process_chunk env pl n c v; process_chunks env pl (S n) cs' v'
  end.

(** The [try] block: the stream of chunks is consumed as it is produced, so an exception of
    the chunker comes after the chunks before it. *)
Definition worker_body (env : WorkerEnv) (pl : ChunkPlanner) : SM WorkerState WorkerResult :=
  file ← slift (we_open env);
  let '(cs, ended) := chunk_stream blake3 chunker file in
  v ← process_chunks env pl 0 cs no_vars;
  match ended with
  | Some e => sraise e
  | None =>
      recipe_hash ← slift (compute_recipe_hash blake3 (wv_chunks v));
      mret (WorkerOk (wv_chunks v) (wv_file_size v) recipe_hash (wv_stats v))
  end.

Definition process_file_worker (env : WorkerEnv) (fast_local_enabled fast_remote_enabled safe_mode : bool)
    (desired_rf : Z) (placement_epoch : option pystr) : SM WorkerState WorkerResult :=
  pl ← slift (new_planner fast_local_enabled safe_mode fast_remote_enabled desired_rf placement_epoch);
  scatch (worker_body env pl) (λ e, Some (mret (WorkerFailed (exc_text e)))).
End worker.

(** ** What a worker secures *)

Lemma cache_set_lookup h b c k v :
  cache_get k (cache_set h b c) = Some v → (k = h ∧ v = b) ∨ cache_get k c = Some v.
Proof.
  unfold cache_get, cache_set. destruct (_ && _); cbn; [by rewrite lookup_empty|].
  rewrite lookup_insert. case_decide; [intros [= <-]; left; by subst|by right].
Qed.

Section secures.
Context (data_folder : pystr) (blake3 compress : bytes → bytes) (decompress : bytes → res bytes).
Context (exc_text : exn → pystr) (chunker : FileChunker).
Context (Hzstd : ∀ x, decompress (compress x) = Ok x) (Hdigest : ∀ x, length (blake3 x) = 32).
(** [R h]: the catalogue proved enough remote copies of [h] during this backup. *)
Context (R : pystr → Prop).

Notation good := (content_ok blake3 decompress).
Notation step := (store_step data_folder good).
Notation stored s h := (is_Some (cas_files (wk_cas s) !! chunk_path data_folder h)).

(** The shared index never claims what is not so. *)
Definition index_sound (s : WorkerState) : Prop :=
  (∀ h, cache_get h (local_exists (wk_index s)) = Some true → stored s h)
  ∧ (∀ h, cache_get h (remotely_protected (wk_index s)) = Some true → R h).

Definition wstep (s s' : WorkerState) : Prop :=
  step (wk_cas s) (wk_cas s') ∧ (index_sound s → index_sound s').

#[export] Instance wstep_preorder : PreOrder wstep.
Proof.
  split; [by intros s; split|]. intros s1 s2 s3 [H1 H2] [H3 H4]. split; [by etransitivity|auto].
Qed.

(** Others respect the store and the index, and the catalogue proves what [R] says. *)
Record civil (pl : ChunkPlanner) (env : WorkerEnv) : Prop := {
  cv_others n s : wstep s (we_others env n s);
  cv_writers n : good_neighbours data_folder good (we_cas env n);
  cv_catalog n h : is_chunk_remotely_protected (we_catalog env n) h (cp_desired_rf pl)
                     (cp_placement_epoch pl) = Ok true → R h }.

(** A chunk that will not be missed. *)
Definition secured (pl : ChunkPlanner) (s : WorkerState) (h : pystr) : Prop :=
  stored s h
  ∨ (cp_safe_mode pl = false ∧ cp_fast_path_enabled pl = true ∧ cp_allow_remote_protected_skip pl = true ∧ R h).

Lemma secured_mono pl s s' h : wstep s s' → secured pl s h → secured pl s' h.
Proof. intros [[Hg _] _] [H|H]; [left; by apply Hg|by right]. Qed.

Lemma wstep_index f s :
  wk_cas (f s) = wk_cas s → (index_sound s → index_sound (f s)) → wstep s (f s).
Proof. intros E H. split; [|done]. rewrite E. reflexivity. Qed.

Lemma set_local_sound h b s :
  (b = true → stored s h) → index_sound s → index_sound (set_local h b s).
Proof.
  intros Hb [H1 H2]. split; cbn; [|done]. intros k Hk.
  apply cache_set_lookup in Hk as [[-> <-]|Hk]; auto.
Qed.

Lemma set_remote_sound h b s : (b = true → R h) → index_sound s → index_sound (set_remote h b s).
Proof.
  intros Hb [H1 H2]. split; cbn; [done|]. intros k Hk.
  apply cache_set_lookup in Hk as [[-> <-]|Hk]; auto.
Qed.

Lemma planner_exists_spec h s :
  index_sound s →
  ∃ there s1, planner_exists_local data_folder h s = (Ok there, s1) ∧ wstep s s1 ∧ (there = true → stored s1 h).
Proof.
  intros Hs. unfold planner_exists_local. rewrite sm_bind_spec. cbn [sget].
  destruct (cache_get h (local_exists (wk_index s))) as [b|] eqn:Eg.
  - exists b, s. split_and!; [done|reflexivity|]. intros ->. by apply Hs.
  - do 2 eexists. split; [reflexivity|]. split.
    + apply wstep_index; [done|]. apply set_local_sound. unfold exists_local. by intros ?%bool_decide_eq_true.
    + unfold exists_local. intros H%bool_decide_eq_true. exact H.
Qed.

Lemma decide_spec pl env n h s :
  civil pl env → index_sound s →
  let '(r, s') := decide_chunk data_folder pl (we_catalog env n) h s in
  wstep s s' ∧ (∀ d, r = Ok d → d ≠ process → secured pl s' h).
Proof.
  intros Hc Hs. unfold decide_chunk. destruct (_ || _) eqn:Eb; [by split; [reflexivity|intros d [= <-]]|].
  bool_hyps. rewrite sm_bind_spec. destruct (planner_exists_spec h s Hs) as (there & s1 & E & S1 & Ht).
  rewrite E. destruct there; [split; [done|intros d _ _; left; auto]|].
  rewrite sm_bind_spec. destruct (cp_allow_remote_protected_skip pl) eqn:Ea; [|split; [done|by intros d [= <-]]].
  unfold planner_is_remotely_protected. rewrite sm_bind_spec. cbn [sget].
  pose proof (proj2 S1 Hs) as Hs1.
  destruct (cache_get h (remotely_protected (wk_index s1))) as [b|] eqn:Eg.
  { split; [done|]. intros d [= <-]. destruct b; [|done]. intros _. right. split_and!; auto. by apply Hs1. }
  rewrite sm_bind_spec. cbn [slift]. destruct (is_chunk_remotely_protected _ _ _ _) as [b|e] eqn:Ep; [|by split].
  rewrite sm_bind_spec. cbn [smodify]. split.
  - etransitivity; [exact S1|]. apply wstep_index; [done|]. apply set_remote_sound. intros ->. by eapply cv_catalog.
  - intros d [= <-]. destruct b; [|done]. intros _. right. split_and!; auto. by eapply cv_catalog.
Qed.

Lemma process_chunk_spec pl env n data v s :
  civil pl env → index_sound s →
  let '(r, s') := process_chunk data_folder compress env pl n (named blake3 data) v s in
  wstep s s' ∧ ∀ v', r = Ok v' →
    secured pl s' (blake3_hex_digest blake3 data)
    ∧ ∃ d w, v' = {| wv_chunks := wv_chunks v ++ [(Z.of_nat n, blake3_hex_digest blake3 data, Z.of_nat (length data))];
                     wv_file_size := wv_file_size v + Z.of_nat (length data);
                     wv_stats := count_decision d w (wv_stats v) |}.
Proof.
  intros Hc Hs. set (h := blake3_hex_digest blake3 data).
  assert (is_valid_blake3_hex h = true) as Hv by (apply hexdigest_valid; apply Hdigest).
  unfold process_chunk, named. rewrite sm_bind_spec. cbn [smodify].
  pose proof (cv_others _ _ Hc n s) as S1. pose proof (proj2 S1 Hs) as Hs1.
  set (s1 := we_others env n s) in *. rewrite sm_bind_spec.
  pose proof (decide_spec pl env n h s1 Hc Hs1) as Hd. fold h.
  destruct (decide_chunk _ _ _ h s1) as [[d|e] s2]; destruct Hd as [S2 Hd]; [|split; [by etransitivity|done]].
  assert (wstep s s2) as S12 by (by etransitivity). pose proof (proj2 S12 Hs) as Hs2. rewrite sm_bind_spec.
  destruct d.
  2, 3: cbn; split; [done|]; intros v' [= <-]; split; [by eapply Hd|]; by do 2 eexists.
  rewrite sm_bind_spec. unfold on_cas, put.
  pose proof (write_once_spec data_folder good (we_cas env n) h (compress data)
    (cv_writers _ _ Hc n) Hv ltac:(by exists data) (wk_cas s2)) as Hw.
  destruct (write_once _ _ _ _ _) as [[w|e] cas]; destruct Hw as [Sw Hw].
  2: { split; [|done]. etransitivity; [exact S12|]. split; [done|]. intros [K1 K2]. split; [|done].
       intros k Hk. apply (proj1 Sw), K1, Hk. }
  destruct Hw as [Hw _]. rewrite sm_bind_spec. cbn [smodify].
  split.
  - etransitivity; [exact S12|]. split; [done|]. intros [K1 K2]. apply set_local_sound; [done|].
    split; [|done]. intros k Hk. apply (proj1 Sw), K1, Hk.
  - intros v' [= <-]. split; [by left|]. by exists process, w.
Qed.

(** The recipe of the chunks [datas], the first one being number [n]. *)
Fixpoint recipe_of (n : nat) (datas : list bytes) : list recipe_chunk :=
  match datas with
  | [] => []
  | d :: ds => (Z.of_nat n, blake3_hex_digest blake3 d, Z.of_nat (length d)) :: recipe_of (S n) ds
  end.

Definition stats_balanced (st : WorkerStats) : Prop :=
  (ws_chunks_total st = ws_processed st + ws_skipped st
   ∧ ws_skipped st = ws_skipped_local st + ws_skipped_remote st
   ∧ 0 <= ws_written st <= ws_processed st)%Z.

Lemma count_balanced d w st :
  stats_balanced st → stats_balanced (count_decision d w st).
Proof.
  unfold stats_balanced, count_decision. cbn.
  destruct d, w; repeat (case_bool_decide; try done); cbn; lia.
Qed.

Lemma process_chunks_spec pl env datas n v s :
  civil pl env → index_sound s →
  let '(r, s') := process_chunks data_folder compress env pl n (named blake3 <$> datas) v s in
  wstep s s' ∧ ∀ v', r = Ok v' →
    Forall (λ d, secured pl s' (blake3_hex_digest blake3 d)) datas
    ∧ wv_chunks v' = wv_chunks v ++ recipe_of n datas
    ∧ wv_file_size v' = (wv_file_size v + Z.of_nat (length (concat datas)))%Z
    ∧ (stats_balanced (wv_stats v) → stats_balanced (wv_stats v'))
    ∧ ws_chunks_total (wv_stats v') = (ws_chunks_total (wv_stats v) + Z.of_nat (length datas))%Z.
Proof.
  intros Hc. revert n v s. induction datas as [|d ds IH]; intros n v s Hs.
  { cbn. split; [reflexivity|]. intros v' [= <-]. split_and!; [constructor|by rewrite app_nil_r|lia|done|lia]. }
  cbn [fmap list_fmap process_chunks]. rewrite sm_bind_spec.
  pose proof (process_chunk_spec pl env n d v s Hc Hs) as H1.
  destruct (process_chunk _ _ _ _ _ _ _ s) as [[v1|e] s1]; destruct H1 as [S1 H1]; [|by split].
  specialize (IH (S n) v1 s1 (proj2 S1 Hs)).
  destruct (process_chunks _ _ _ _ _ _ v1 s1) as [r s2]. destruct IH as [S2 H2].
  split; [by etransitivity|]. intros v' Hr. destruct (H1 v1 eq_refl) as (Hsec & dd & w & ->).
  destruct (H2 v' Hr) as (Hall & E1 & E2 & E3 & E4). cbn in E1, E2, E3, E4. split_and!.
  - constructor; [by eapply secured_mono|done].
  - rewrite E1, <-app_assoc. done.
  - rewrite E2. cbn. rewrite length_app. lia.
  - intros Hb. apply E3. by apply count_balanced.
  - rewrite E4. cbn. lia.
Qed.

(** One worker, with everything that holds afterwards. *)
Lemma worker_spec fast_local fast_remote safe rf epoch pl env s :
  (0 <= rf)%Z → new_planner fast_local safe fast_remote rf epoch = Ok pl → civil pl env →
  index_sound s → store_ok data_folder good (wk_cas s) →
  let '(r, s') := process_file_worker data_folder blake3 compress exc_text chunker env
                    fast_local fast_remote safe rf epoch s in
  index_sound s' ∧ store_ok data_folder good (wk_cas s') ∧ grows (wk_cas s) (wk_cas s')
  ∧ (∃ out, r = Ok out)
  ∧ ∀ chunks size h stats, r = Ok (WorkerOk chunks size h stats) →
      ∃ file datas, we_open env = Ok file
        ∧ chunk_stream blake3 chunker file = (named blake3 <$> datas, None)
        ∧ chunks = recipe_of 0 datas ∧ size = Z.of_nat (length (concat datas))
        ∧ compute_recipe_hash blake3 chunks = Ok h
        ∧ stats_balanced stats ∧ ws_chunks_total stats = Z.of_nat (length chunks)
        ∧ ∀ d, d ∈ datas → let hd := blake3_hex_digest blake3 d in
            (∃ raw, get data_folder blake3 decompress (wk_cas s') false hd = Ok raw
                    ∧ blake3_hex_digest blake3 raw = hd)
            ∨ (safe = false ∧ fast_local = true ∧ fast_remote = true ∧ R hd).
Proof.
  intros Hrf Hpl Hc Hs Hok. unfold process_file_worker. rewrite sm_bind_spec. cbn [slift]. rewrite Hpl.
  assert (pl = {| cp_fast_path_enabled := fast_local; cp_safe_mode := safe;
    cp_allow_remote_protected_skip := fast_remote; cp_desired_rf := rf; cp_placement_epoch := epoch |}) as Epl.
  { unfold new_planner in Hpl. destruct (_ <? _)%Z; congruence. }
  clear Hpl. unfold scatch.
  assert (let '(r, s') := worker_body data_folder blake3 compress chunker env pl s in
    wstep s s' ∧ ∀ out, r = Ok out → ∃ chunks size h stats file datas,
      out = WorkerOk chunks size h stats ∧ we_open env = Ok file
      ∧ chunk_stream blake3 chunker file = (named blake3 <$> datas, None)
      ∧ chunks = recipe_of 0 datas ∧ size = Z.of_nat (length (concat datas))
      ∧ compute_recipe_hash blake3 chunks = Ok h
      ∧ stats_balanced stats ∧ ws_chunks_total stats = Z.of_nat (length datas)
      ∧ Forall (λ d, secured pl s' (blake3_hex_digest blake3 d)) datas) as Hbody.
  { unfold worker_body. rewrite sm_bind_spec. cbn [slift].
    destruct (we_open env) as [file|e] eqn:Ef; [|by split; [reflexivity|]].
    destruct (chunk_stream_named blake3 chunker file) as [datas Hd].
    destruct (chunk_stream blake3 chunker file) as [cs ended] eqn:Est. cbn in Hd. subst cs. rewrite sm_bind_spec.
    pose proof (process_chunks_spec pl env datas 0 no_vars s Hc Hs) as H.
    destruct (process_chunks _ _ _ _ _ _ _ s) as [[v|e] s1]; destruct H as [S1 H]; [|by split].
    destruct (H v eq_refl) as (H1 & H2 & H3 & H4 & H5). destruct ended as [e|]; [by split|].
    rewrite sm_bind_spec. cbn [slift]. destruct (compute_recipe_hash _ _) as [h|e] eqn:Eh; [|by split].
    split; [done|]. intros out [= <-]. exists (wv_chunks v), (wv_file_size v), h, (wv_stats v), file, datas.
    cbn in H2, H3, H5. split_and!; auto. apply H4. unfold stats_balanced. cbn. lia. }
  destruct (worker_body _ _ _ _ _ _ s) as [[out|e] s1]; destruct Hbody as [[[Hg Hk] Hi] Hbody]; cbn;
    (split_and!; [by apply Hi|by apply Hk|done|by eexists|]); [|done].
  intros chunks size h stats [= ->].
  destruct (Hbody _ eq_refl) as (? & ? & ? & ? & file & datas & [= <- <- <- <-] & H1 & H2 & H3 & H4 & H5 & H6 & H7 & H8).
  exists file, datas. split_and!; auto.
  - rewrite H7, H3. f_equal. clear. generalize 0. induction datas as [|d ds IH]; intros n; cbn; [done|]. by rewrite <-IH.
  - intros d Hd. cbn zeta. rewrite Forall_forall in H8. destruct (H8 d Hd) as [[x Hx]|H]; [left|right; by rewrite Epl in H].
    assert (good (blake3_hex_digest blake3 d) x) as Hgx.
    { apply (Hk Hok _ _ (hexdigest_valid _ (Hdigest d)) Hx). }
    destruct (get_content_ok blake3 decompress data_folder _ _ _ Hx Hgx) as (raw & E & _ & _ & E'). by exists raw.
Qed.
(** C5: a backup never loses a chunk of a file it accepts: when a worker succeeds, however
    other workers interleave and whatever fails, the recipe lists the chunks of the file in
    order with their digests and sizes, its hash and the counters fit, and every chunk is
    in the store with content of its digest or (on the remote fast path only) proved by
    the catalogue to have enough remote copies; the store and the shared index stay sound
    in every case, and only a negative factor raises. *)
Theorem worker_secures_chunks fast_local fast_remote safe rf epoch pl env s :
  (0 <= rf)%Z → new_planner fast_local safe fast_remote rf epoch = Ok pl → civil pl env →
  index_sound s → store_ok data_folder good (wk_cas s) →
  let '(r, s') := process_file_worker data_folder blake3 compress exc_text chunker env
                    fast_local fast_remote safe rf epoch s in
  index_sound s' ∧ store_ok data_folder good (wk_cas s') ∧ grows (wk_cas s) (wk_cas s')
  ∧ (∃ out, r = Ok out)
  ∧ ∀ chunks size h stats, r = Ok (WorkerOk chunks size h stats) →
      ∃ file datas, we_open env = Ok file
        ∧ chunk_stream blake3 chunker file = (named blake3 <$> datas, None)
        ∧ chunks = recipe_of 0 datas ∧ size = Z.of_nat (length (concat datas))
        ∧ compute_recipe_hash blake3 chunks = Ok h
        ∧ stats_balanced stats ∧ ws_chunks_total stats = Z.of_nat (length chunks)
        ∧ ∀ d, d ∈ datas → let hd := blake3_hex_digest blake3 d in
            (∃ raw, get data_folder blake3 decompress (wk_cas s') false hd = Ok raw
                    ∧ blake3_hex_digest blake3 raw = hd)
            ∨ (safe = false ∧ fast_local = true ∧ fast_remote = true ∧ R hd).
Proof. apply worker_spec. Qed.
End secures.

(** ** Witness *)

Definition quiet_worker (content : bytes) : WorkerEnv := {|
  we_open := Ok (stable_view content); we_catalog := λ _, empty_catalog; we_others := λ _ s, s;
  we_cas := λ _, quiet_env |}.

Definition fresh_worker_state : WorkerState := {| wk_cas := empty_store; wk_index := new_index 200000 |}.

Definition example_worker : SM WorkerState WorkerResult :=
  process_file_worker (u "/cas") toy_blake3 (λ b, b) (λ _, []) small_chunker (quiet_worker example_data)
    true false false 1 None.

Lemma fresh_index_sound : index_sound (u "/cas") (λ _, False) fresh_worker_state.
Proof. split; intros h; unfold cache_get; cbn; by rewrite lookup_empty. Qed.

Lemma quiet_worker_civil pl content :
  cp_desired_rf pl = 1%Z → cp_placement_epoch pl = None →
  civil (u "/cas") toy_blake3 Ok (λ _, False) pl (quiet_worker content).
Proof.
  intros E1 E2. split; cbn.
  - intros n s. reflexivity.
  - intros _ n s. reflexivity.
  - intros _ h. by rewrite E1, E2.
Qed.

Definition example_planner : ChunkPlanner := {|
  cp_fast_path_enabled := true; cp_safe_mode := false; cp_allow_remote_protected_skip := false;
  cp_desired_rf := 1; cp_placement_epoch := None |}.

Lemma worker_secures_chunks_witness :
  ∃ out s', example_worker fresh_worker_state = (Ok out, s')
    ∧ store_ok (u "/cas") (content_ok toy_blake3 Ok) (wk_cas s').
Proof.
  pose proof (worker_secures_chunks (u "/cas") toy_blake3 (λ b, b) Ok (λ _, []) small_chunker
    ltac:(done) (λ x, repeat_length _ 32) (λ _, False) true false false 1 None example_planner (quiet_worker example_data)
    fresh_worker_state ltac:(lia) eq_refl (quiet_worker_civil example_planner _ eq_refl eq_refl) fresh_index_sound
    (empty_store_ok _ _)) as H.
  fold example_worker in H. destruct (example_worker fresh_worker_state) as [r s'].
  destruct H as (_ & H2 & _ & (out & ->) & _). by exists out, s'.
Defined.

Example example_worker_ok :
  match (example_worker fresh_worker_state).1 with
  | Ok (WorkerOk chunks size _ stats) => length chunks = 12 ∧ size = 80%Z ∧ ws_written stats = 2%Z
  | _ => False
  end.
Proof. vm_compute. by split_and!. Qed.
