(* ===== verification/Backup.v ===== *)
(** * A backup

    [backup/policy.py], [backup/identity.py], [backup/models.py], [scanning/scanner.py] and
    [backup/service.py]: which fast paths are allowed, who the origin is, which entries a
    tree has, and the coordinator that records them, reuses recipes of unchanged files,
    hands the others to workers and finishes or fails the snapshot. The results of the
    workers and the order in which they complete are arguments. *)

From S2P Require Import Prelude PyStr Common Heapq Hrw Cluster Protection Catalog ProtectionTable.
From S2P Require Import Snapshots ReplicationPlan ReplicationPush MembershipModel Membership.
From S2P Require Import RemoteContext NodeIdentity FastCdc Chunker BackupWorker.

(** ** policy.py *)

Record BackupPolicy := {
  bp_desired_rf : Z; bp_fast_local_enabled : bool; bp_fast_remote_enabled : bool;
  bp_placement_epoch : option pystr }.

Section policy.
Context (blake3 : bytes → bytes) (get_members : pystr → rpc (list NodeInfo)).

Definition resolve_remote_placement_epoch (desired_rf : Z) (membership_seed : option pystr)
    (self_addr cluster_token origin_node_id : pystr) : res (option pystr) :=
  let origin_node_id := strip origin_node_id in
  if bool_decide (origin_node_id = []) then Err StopanConfigValueError
  else match try_cluster_view get_members membership_seed self_addr with
  | None => Ok None
  | Some (_, cluster) =>
      remote_required ← normalize_remote_rf desired_rf;
      if (remote_required <=? 0)%Z then Ok None
      else Ok (Some (placement_epoch_excluding blake3 cluster remote_required cluster_token [origin_node_id]))
  end.

Definition build_backup_fast_path_policy (desired_rf : Z) (membership_seed : option pystr)
    (self_addr cluster_token : pystr) (fast_local_enabled fast_remote_enabled safe_mode : bool)
    (origin_node_id : pystr) : res BackupPolicy :=
  desired_rf ← normalize_remote_rf desired_rf;
  let policy fast_local fast_remote epoch :=
    {| bp_desired_rf := desired_rf; bp_fast_local_enabled := fast_local;
       bp_fast_remote_enabled := fast_remote; bp_placement_epoch := epoch |} in
  let origin_node_id := strip origin_node_id in
  if bool_decide (origin_node_id = []) then Err StopanConfigValueError
  else if safe_mode then Ok (policy false false None)
  else if negb (fast_local_enabled || fast_remote_enabled) then Ok (policy false false None)
  else if negb fast_remote_enabled then Ok (policy true false None)
  else if (desired_rf <=? 0)%Z then Ok (policy true false None)
  else if bool_decide (or_empty membership_seed = []) then Ok (policy true false None)
  else match resolve_remote_placement_epoch desired_rf membership_seed self_addr cluster_token origin_node_id with
  | Err _ => Ok (policy true false None)
  | Ok None => Ok (policy true false None)
  | Ok (Some epoch) => Ok (policy true true (Some epoch))
  end.
End policy.

(** ** identity.py *)

(** [_canonical_node_id]: [uuid.UUID(hex=...)] whose [hex] is the text itself is 32
    lower-case hexadecimal digits. *)
Definition canonical_node_id (value : pystr) : res pystr :=
  let normalized := ascii_lower (strip value) in
  if bool_decide (normalized = []) then Err StopanConfigError
  else if (length normalized =? 32)%nat && forallb is_hex_lower normalized then Ok normalized
  else Err StopanConfigError.

(** [_read_persisted_node_id]; [read_fails]: the file cannot be read. *)
Definition read_persisted_node_id (read_fails : bool) (file : identity_file) : res (option pystr) :=
  match file with
  | None => Ok None
  | Some text =>
      if read_fails then Err StopanConfigError
      else match filter (λ l, l ≠ []) (strip <$> read_lines [] text) with
      | [] => Ok None
      | line :: _ => Some <$> canonical_node_id line
      end
  end.

Definition load_or_create_local_node_id (read_fails : bool) (fresh : pystr) (io : option exn)
  : SM identity_file pystr :=
  file ← sget;
  existing ← slift (read_persisted_node_id read_fails file);
  match existing with
  | Some ((_ :: _) as node_id) => mret node_id
  | _ =>
      match io with
      | Some e => sraise e
      | None => sput (Some (fresh ++ [10%N] ++ u "1" ++ [10%N]));; mret fresh
      end
  end.

Definition resolve_origin_node_id (lease : option (pystr * pystr)) (get_members : pystr → rpc (list NodeInfo))
    (membership_seed : option pystr) (self_addr : pystr) (read_fails : bool) (fresh : pystr)
    (io : option exn) : SM identity_file pystr :=
  let leased_node_id :=
    if lease_matches lease self_addr then strip (or_empty (fst <$> lease)) else [] in
  if bool_decide (leased_node_id ≠ []) then mret leased_node_id
  else
    let seen := if bool_decide (or_empty membership_seed = []) then None
                else try_cluster_view get_members membership_seed self_addr in
    match seen ≫= λ sc, self_node_id sc.2 with
    | Some ((_ :: _) as node_id) => mret node_id
    | _ => load_or_create_local_node_id read_fails fresh io
    end.

(** ** scanner.py *)

Definition walk_entry : Type := pystr * pystr * stat_info * item_kind.

(** What an entry of a directory is, as its mode says. *)
Inductive entry_kind := EntryFile | EntryDir | EntryOther.

Record DirEntry := { de_name : pystr; de_stat : res (stat_info * entry_kind) }.

Definition with_slash (a b : pystr) : pystr := a ++ [47%N] ++ b.

(** The loop over one directory: the items yielded, the directories found, and the
    exception that ends it. *)
Fixpoint scan_entries (current_path parent_rel : pystr) (entries : list DirEntry)
  : list walk_entry * list (pystr * pystr) * option exn :=
  match entries with
  | [] => ([], [], None)
  | entry :: entries' =>
      let rel_path := if bool_decide (parent_rel = u ".") then de_name entry
                      else with_slash parent_rel (de_name entry) in
      let full_path := with_slash current_path (de_name entry) in
      match de_stat entry with
      | Err _ => ([], [], Some StopanStorageOSError)
      | Ok (stat, kind) =>
          let '(items, dirs, e) := scan_entries current_path parent_rel entries' in
          match kind with
          | EntryFile => ((rel_path, full_path, stat, ItemFile) :: items, dirs, e)
          | EntryDir => ((rel_path, full_path, stat, ItemDir) :: items, (full_path, rel_path) :: dirs, e)
          | EntryOther => (items, dirs, e)
          end
      end
  end.

(** [scandir path]: the entries, or an error; [deterministic] sorts them by name. The
    fuel bounds the number of directories. *)
Fixpoint walk_loop (scandir : pystr → res (list DirEntry)) (deterministic : bool) (fuel : nat)
    (stack : list (pystr * pystr)) : list walk_entry * option exn :=
  match stack with
  | [] => ([], None)
  | (current_path, parent_rel) :: stack' =>
      match fuel with
      | O => ([], Some RuntimeError)
      | S fuel' =>
          match scandir current_path with
          | Err _ => ([], Some StopanStorageOSError)
          | Ok entries =>
              let entries := if deterministic
                             then py_sorted (λ a b, str_leb (de_name a) (de_name b)) entries else entries in
              let '(items, dirs, e) := scan_entries current_path parent_rel entries in
              match e with
              | Some e => (items, Some e)
              | None =>
                  (* the end of the Python list is the top of the stack *)
                  let '(rest, e') := walk_loop scandir deterministic fuel'
                    ((if deterministic then dirs else rev dirs) ++ stack') in
                  (items ++ rest, e')
              end
          end
      end
  end.

(** [TreeWalker.walk] *)
Definition walk (root_path : pystr) (root_stat : res stat_info) (scandir : pystr → res (list DirEntry))
    (deterministic : bool) (fuel : nat) : list walk_entry * option exn :=
  match root_stat with
  | Err _ => ([], Some StopanStorageOSError)
  | Ok st =>
      let '(items, e) := walk_loop scandir deterministic fuel [(root_path, u ".")] in
      ((u ".", root_path, st, ItemDir) :: items, e)
  end.

(** ** models.py *)

Record BackupRunStats := {
  br_files : Z; br_size : Z; br_chunks_total : Z; br_processed : Z; br_written : Z; br_skipped : Z;
  br_skipped_local : Z; br_skipped_remote : Z }.

Definition no_run_stats : BackupRunStats := {|
  br_files := 0; br_size := 0; br_chunks_total := 0; br_processed := 0; br_written := 0;
  br_skipped := 0; br_skipped_local := 0; br_skipped_remote := 0 |}.

Definition add_worker_file (file_size : Z) (w : WorkerStats) (t : BackupRunStats) : BackupRunStats := {|
  br_files := br_files t + 1; br_size := br_size t + file_size;
  br_chunks_total := br_chunks_total t + ws_chunks_total w;
  br_processed := br_processed t + ws_processed w; br_written := br_written t + ws_written w;
  br_skipped := br_skipped t + ws_skipped w; br_skipped_local := br_skipped_local t + ws_skipped_local w;
  br_skipped_remote := br_skipped_remote t + ws_skipped_remote w |}%Z.

Definition add_reused_file (file_size : Z) (t : BackupRunStats) : BackupRunStats := {|
  br_files := br_files t + 1; br_size := br_size t + file_size; br_chunks_total := br_chunks_total t;
  br_processed := br_processed t; br_written := br_written t; br_skipped := br_skipped t;
  br_skipped_local := br_skipped_local t; br_skipped_remote := br_skipped_remote t |}%Z.

(** ** Queries of the catalogue the coordinator makes *)

(** [get_prev_snapshot_id] *)
Definition get_prev_snapshot_id (c : Catalog) (root_path : pystr) (current : Z) : option Z :=
  fold_left (λ best kv,
      if bool_decide (sn_root_path kv.2 = root_path) && (kv.1 <? current)%Z
         && bool_decide (sn_status kv.2 = COMPLETE)
         && match best with Some b => (b <? kv.1)%Z | None => true end
      then Some kv.1 else best)
    (map_to_list (snapshots c)) None.

(** [get_file_items_by_paths]: the file items of a snapshot by path. *)
Definition get_file_items_by_paths (c : Catalog) (snapshot_id : Z) (rel_paths : list pystr)
  : gmap pystr item_row :=
  let rows batch := filter (λ it, it_snapshot_id it = snapshot_id ∧ it_type it = ItemFile
                                  ∧ it_path it ∈ batch) (map_to_list (snapshot_items c)).*2 in
  fold_left (λ result batch, list_to_map ((λ it, (it_path it, it)) <$> rows batch) ∪ result)
    (iter_batches (ordered_unique rel_paths) 500) ∅.

(** [_is_unchanged_file] *)
Definition is_unchanged_file (previous : item_row) (st : stat_info) : bool :=
  let p := it_stat previous in
  (st_size p =? st_size st)%Z && (st_mode p =? st_mode st)%Z
  && bool_decide (st_uid p = st_uid st) && bool_decide (st_gid p = st_gid st)
  && (st_mtime_ns p =? st_mtime_ns st)%Z && (st_ctime_ns p =? st_ctime_ns st)%Z
  && bool_decide (is_Some (it_recipe_id previous)).

(** ** service.py *)

(** A submitted call of [process_file_worker]. *)
Record Future := { fu_id : nat; fu_full_path : pystr }.

(** The variables of [backup_directory] the closures share, with the catalogue. *)
Record BackupState := {
  bk_db : Catalog; bk_totals : BackupRunStats; bk_future_map : list (Future * (Z * pystr));
  bk_failed_files : list (pystr * pystr); bk_submitted : nat; bk_waits : nat }.

Definition with_db (c : Catalog) (s : BackupState) : BackupState := {|
  bk_db := c; bk_totals := bk_totals s; bk_future_map := bk_future_map s;
  bk_failed_files := bk_failed_files s; bk_submitted := bk_submitted s; bk_waits := bk_waits s |}.
Definition with_totals (f : BackupRunStats → BackupRunStats) (s : BackupState) : BackupState := {|
  bk_db := bk_db s; bk_totals := f (bk_totals s); bk_future_map := bk_future_map s;
  bk_failed_files := bk_failed_files s; bk_submitted := bk_submitted s; bk_waits := bk_waits s |}.
Definition with_futures f (waits : nat) (s : BackupState) : BackupState := {|
  bk_db := bk_db s; bk_totals := bk_totals s; bk_future_map := f (bk_future_map s);
  bk_failed_files := bk_failed_files s; bk_submitted := bk_submitted s; bk_waits := waits |}.
Definition add_failed (rel_path error : pystr) (s : BackupState) : BackupState := {|
  bk_db := bk_db s; bk_totals := bk_totals s; bk_future_map := bk_future_map s;
  bk_failed_files := bk_failed_files s ++ [(rel_path, error)]; bk_submitted := bk_submitted s;
  bk_waits := bk_waits s |}.

(** The arguments of [backup_directory]. *)
Record BackupOptions := {
  bo_membership_seed : option pystr; bo_self_addr : pystr; bo_cluster_token : pystr; bo_desired_rf : Z;
  bo_fast_local : bool; bo_fast_remote : bool; bo_safe_mode : bool; bo_num_threads : Z }.

(** The surroundings of a run: the lease of the daemon, the answer of the seed, the
    identity file (can it be read, written; the identifier drawn for it), the entries of the tree, the result of each future (an
    exception or what the worker returned), which futures the [n]-th wait returns, and the
    identifier drawn for the snapshot. *)
Record BackupEnv := {
  be_root_path : pystr;
  be_is_dir : bool;
  be_lease : option (pystr * pystr);
  be_members : pystr → rpc (list NodeInfo);
  be_identity_unreadable : bool; be_fresh_id : pystr; be_identity_io : option exn;
  be_cpu_count : Z;
  be_walker : res unit;
  be_walk : list walk_entry * option exn;
  be_uuid : pystr;
  be_result : Future → res WorkerResult;
  be_done : nat → bool → list Future → list Future;
  be_exc_text : exn → pystr }.

#[export] Instance Future_eq_dec : EqDecision Future.
Proof. solve_decision. Defined.

Definition SNAPSHOT_ITEM_BATCH_SIZE : Z := 32.

Section service.
Context (env : BackupEnv) (policy : BackupPolicy) (safe_mode : bool) (workers : Z).

(** A call of the catalogue: a call that raises changes nothing. *)
Definition on_db {A} (op : Catalog → res (A * Catalog)) : SM BackupState A := λ s,
  match op (bk_db s) with
  | Ok (a, c) => (Ok a, with_db c s)
  | Err e => (Err e, s)
  end.

(** What happens to one completed future. *)
Definition collect_future (f : Future) : SM BackupState unit :=
  s ← sget;
  match List.find (λ kv, bool_decide (kv.1 = f)) (bk_future_map s) with
  | None => sraise KeyError
  | Some (_, (item_id, rel_path)) =>
      smodify (with_futures (filter (λ kv, kv.1 ≠ f)) (bk_waits s));;
      match be_result env f with
      | Err e => smodify (add_failed rel_path (u "worker fall" ++ o_acute ++ u ": " ++ be_exc_text env e))
      | Ok (WorkerFailed message) => smodify (add_failed rel_path message)
      | Ok (WorkerOk chunks file_size recipe_hash stats) =>
          _ ← on_db (λ c, consolidate_item_recipe c item_id recipe_hash chunks (bp_desired_rf policy));
          smodify (with_totals (add_worker_file file_size stats))
      end
  end.

Definition collect_completed (wait_for_all : bool) : SM BackupState unit :=
  s ← sget;
  match bk_future_map s with
  | [] => mret ()
  | _ =>
      let done_ := be_done env (bk_waits s) wait_for_all (bk_future_map s).*1 in
      smodify (with_futures (λ m, m) (S (bk_waits s)));;
      sfor collect_future done_
  end.

(** The loop over a batch: which files reuse a recipe, and which are to be processed. *)
Fixpoint classify (previous_items : gmap pystr item_row) (items : list (Z * walk_entry))
  : list (Z * Z * Z) * list (Z * pystr * pystr) :=
  match items with
  | [] => ([], [])
  | (item_id, (rel_path, full_path, st, kind)) :: items' =>
      let '(reused, pending) := classify previous_items items' in
      match kind with
      | ItemDir => (reused, pending)
      | ItemFile =>
          match previous_items !! rel_path with
          | Some previous =>
              match is_unchanged_file previous st, it_recipe_id previous with
              | true, Some rid => ((item_id, rid, st_size st) :: reused, pending)
              | _, _ => (reused, (item_id, rel_path, full_path) :: pending)
              end
          | None => (reused, (item_id, rel_path, full_path) :: pending)
          end
      end
  end.

(** [executor.submit], and a wait when too many futures are pending. *)
Definition submit_pending (p : Z * pystr * pystr) : SM BackupState unit :=
  let '(item_id, rel_path, full_path) := p in
  smodify (λ s, {|
    bk_db := bk_db s; bk_totals := bk_totals s;
    bk_future_map := bk_future_map s
      ++ [({| fu_id := bk_submitted s; fu_full_path := full_path |}, (item_id, rel_path))];
    bk_failed_files := bk_failed_files s; bk_submitted := S (bk_submitted s); bk_waits := bk_waits s |});;
  s ← sget;
  if (Z.max 1 (workers * 3) <=? Z.of_nat (length (bk_future_map s)))%Z
  then collect_completed false else mret ().

Definition process_batch (snapshot_id : Z) (previous_snapshot_id : option Z) (batch : list walk_entry)
  : SM BackupState unit :=
  item_ids ← on_db (λ c, add_items c snapshot_id
    ((λ e : walk_entry, let '(rel, _, st, kind) := e in (rel, st, kind)) <$> batch));
  s ← sget;
  let previous_items := match previous_snapshot_id with
    | Some prev => if safe_mode then ∅ else get_file_items_by_paths (bk_db s) prev
        ((λ e : walk_entry, e.1.1.1) <$> filter (λ e : walk_entry, e.2 = ItemFile) batch)
    | None => ∅
    end in
  let '(reused, pending) := classify previous_items (zip item_ids batch) in
  smodify (λ s, fold_left (λ s r, with_totals (add_reused_file r.2) s) reused s);;
  on_db (λ c, c' ← reuse_item_recipes c reused.*1 (bp_desired_rf policy); Ok ((), c'));;
  sfor submit_pending pending.

(** The body of the [try], up to [finish_snapshot]. *)
Definition run_snapshot (snapshot_id : Z) : SM BackupState unit :=
  s ← sget;
  let previous_snapshot_id := get_prev_snapshot_id (bk_db s) (be_root_path env) snapshot_id in
  sfor (process_batch snapshot_id previous_snapshot_id)
    (iter_batches (be_walk env).1 SNAPSHOT_ITEM_BATCH_SIZE);;
  match (be_walk env).2 with
  | Some e => sraise e
  | None =>
      collect_completed true;;
      s ← sget;
      match bk_failed_files s with
      | _ :: _ => sraise StopanStorageError
      | [] => on_db (λ c, c' ← finish_snapshot c snapshot_id (br_size (bk_totals s)) (br_files (bk_totals s));
                          Ok ((), c'))
      end
  end.

(** The handlers: the snapshot is marked as failed, an error while doing so is ignored. *)
Definition fail_quietly (snapshot_id : Z) (e : exn) : SM BackupState unit :=
  let message := match e with KeyboardInterrupt => u "backup interrumpido por el usuario"
                 | _ => be_exc_text env e end in
  smodify (λ s, match fail_snapshot (bk_db s) snapshot_id message with
                | Ok c => with_db c s
                | Err _ => s
                end);;
  sraise e.

Definition backup_snapshot (origin_node_id : pystr) : SM BackupState Z :=
  slift (be_walker env);;
  snapshot_id ← on_db (λ c, create_snapshot c (be_uuid env) (be_root_path env) origin_node_id);
  scatch (run_snapshot snapshot_id) (λ e, Some (fail_quietly snapshot_id e));;
  mret snapshot_id.
End service.

Definition initial_backup (c : Catalog) : BackupState := {|
  bk_db := c; bk_totals := no_run_stats; bk_future_map := []; bk_failed_files := [];
  bk_submitted := 0; bk_waits := 0 |}.

(** [_normalize_worker_count] *)
Definition normalize_worker_count (cpu_count workers : Z) : Z := Z.max 1 (Z.min workers cpu_count).

(** The whole call, on the identity file and the catalogue: the id of the snapshot. *)
Definition backup_directory (blake3 : bytes → bytes) (env : BackupEnv) (o : BackupOptions)
  : SM (identity_file * Catalog) Z := λ '(file, c),
  if negb (be_is_dir env) then (Err StopanUsageError, (file, c))
  else
    let '(origin, file) := resolve_origin_node_id (be_lease env) (be_members env) (bo_membership_seed o)
      (bo_self_addr o) (be_identity_unreadable env) (be_fresh_id env) (be_identity_io env) file in
    match
      origin_node_id ← origin;
      policy ← build_backup_fast_path_policy blake3 (be_members env) (bo_desired_rf o) (bo_membership_seed o)
        (bo_self_addr o) (bo_cluster_token o) (bo_fast_local o) (bo_fast_remote o) (bo_safe_mode o)
        origin_node_id;
      Ok (origin_node_id, policy)
    with
    | Err e => (Err e, (file, c))
    | Ok (origin_node_id, policy) =>
        let '(r, s) := backup_snapshot env policy (bo_safe_mode o)
          (normalize_worker_count (be_cpu_count env) (bo_num_threads o)) origin_node_id (initial_backup c) in
        (r, (file, bk_db s))
    end.
