(* ===== verification/BackupRun.v ===== *)
(** * What a run of a backup leaves behind

    The coordinator of [backup/service.py]: a run that ends well leaves a COMPLETE snapshot
    of exactly the tree, every other run leaves the snapshot FAILED. *)

From S2P Require Import Prelude PyStr Common Heapq Hrw Cluster Protection Catalog ProtectionTable.
From S2P Require Import Snapshots ReplicationPlan ReplicationPush MembershipModel Membership.
From S2P Require Import RemoteContext NodeIdentity FastCdc Chunker BackupWorker Backup.

(** ** How the operations change items *)

(** The items stay; [A i r]: the item [i] may have been given the recipe [r]. *)
Definition items_forward (A : Z → Z → Prop) (c c' : Catalog) : Prop :=
  ∀ id it, snapshot_items c !! id = Some it →
    ∃ it', snapshot_items c' !! id = Some it'
      ∧ it_snapshot_id it' = it_snapshot_id it ∧ it_path it' = it_path it ∧ it_type it' = it_type it
      ∧ it_stat it' = it_stat it
      ∧ (it_recipe_id it' = it_recipe_id it
         ∨ ∃ r, A id r ∧ it_recipe_id it' = Some r ∧ is_Some (recipes c' !! r)).

(** ... and none is added. *)
Definition items_advance (A : Z → Z → Prop) (c c' : Catalog) : Prop :=
  items_forward A c c' ∧ dom (snapshot_items c') = dom (snapshot_items c).

Lemma items_same A c c' : snapshot_items c' = snapshot_items c → items_advance A c c'.
Proof. intros E. split; [|by rewrite E]. intros id it H. exists it. rewrite E. split_and!; auto. Qed.

Lemma set_item_recipe_items c id r c' :
  set_item_recipe c id r = Ok c' →
  items_advance (λ i r', i = id ∧ r' = r) c c' ∧ snapshots c' = snapshots c ∧ recipes c' = recipes c
  ∧ recipe_chunks c' = recipe_chunks c.
Proof.
  unfold set_item_recipe. destruct (snapshot_items c !! id) as [it0|] eqn:E; [|done].
  destruct (recipes c !! r) as [rr|] eqn:Er; [|done]. intros [= <-]. split; [|done].
  split; [|cbn; rewrite dom_insert_L; apply elem_of_dom_2 in E; set_solver].
  intros i it Hi. cbn. rewrite lookup_insert. case_decide as Ei; [|exists it; split_and!; auto].
  subst i. assert (it = it0) as -> by congruence. eexists. split; [done|]. cbn.
  split_and!; auto. right. exists r. split_and!; auto.
Qed.

Lemma items_advance_trans A c1 c2 c3 :
  (∀ r, is_Some (recipes c2 !! r) → is_Some (recipes c3 !! r)) →
  items_advance A c1 c2 → items_advance A c2 c3 → items_advance A c1 c3.
Proof.
  intros Hr [H1 D1] [H2 D2]. split; [|congruence]. intros id it Hi. destruct (H1 id it Hi) as (it2 & Hi2 & E1 & E2 & E3 & E4 & E5).
  destruct (H2 id it2 Hi2) as (it3 & Hi3 & F1 & F2 & F3 & F4 & F5).
  exists it3. rewrite F1, F2, F3, F4. split_and!; auto.
  destruct F5 as [F5|(r & ? & ? & ?)]; [|right; by exists r]. rewrite F5.
  destruct E5 as [E5|(r & ? & ? & ?)]; [by left|right]. exists r. auto.
Qed.

Lemma items_advance_weaken (A B : Z → Z → Prop) c c' :
  (∀ i r, A i r → B i r) → items_advance A c c' → items_advance B c c'.
Proof.
  intros HAB [H D]. split; [|done]. intros id it Hi. destruct (H id it Hi) as (it' & ? & ? & ? & ? & ? & Hr).
  exists it'. split_and!; auto. destruct Hr as [?|(r & ? & ? & ?)]; [by left|right; exists r; auto].
Qed.

Lemma update_item_recipes_items c l n c' :
  update_item_recipes c l = Ok (n, c') →
  items_advance (λ i r, (i, r) ∈ l) c c' ∧ snapshots c' = snapshots c ∧ recipes c' = recipes c
  ∧ recipe_chunks c' = recipe_chunks c.
Proof.
  revert c n. induction l as [|[i r] l IH]; intros c n H; cbn in H.
  { injection H as <- <-. split; [by apply items_same|done]. }
  assert (∀ c1 n', update_item_recipes c1 l = Ok (n', c') → 
    items_advance (λ i0 r0, (i0, r0) ∈ (i, r) :: l) c1 c' ∧ snapshots c' = snapshots c1
    ∧ recipes c' = recipes c1 ∧ recipe_chunks c' = recipe_chunks c1) as Hrest.
  { intros c1 n' H1. destruct (IH _ _ H1) as (H2 & H3). split; [|done].
    eapply items_advance_weaken; [|exact H2]. intros; by right. }
  destruct (snapshot_items c !! i) as [it|]; [|by eapply Hrest].
  destruct (recipes c !! r) as [rr|]; [|done].
  apply bind_Ok in H as (c1 & H1 & H). apply bind_Ok in H as ([m c2] & H2 & H). injection H as <- <-.
  destruct (set_item_recipe_items _ _ _ _ H1) as (K1 & K2 & K3 & K4).
  destruct (Hrest _ _ H2) as (L1 & L2 & L3 & L4). split_and!; [|congruence..].
  eapply items_advance_trans; [|eapply items_advance_weaken; [|exact K1]|exact L1].
  - intros r'. by rewrite L3.
  - intros i' r' [-> ->]. left.
Qed.

Lemma ensure_all_same c rids rf :
  let c' := fold_left (λ c rid, ensure_recipe_protection c rid rf) rids c in
  snapshot_items c' = snapshot_items c ∧ snapshots c' = snapshots c ∧ recipes c' = recipes c
  ∧ recipe_chunks c' = recipe_chunks c.
Proof. revert c. induction rids as [|r rids IH]; intros c; cbn; [done|]. apply (IH (ensure_recipe_protection c r rf)). Qed.

Lemma reuse_items c l rf c' :
  reuse_item_recipes c l rf = Ok c' →
  items_advance (λ i r, (i, r) ∈ l) c c' ∧ snapshots c' = snapshots c ∧ recipes c' = recipes c
  ∧ recipe_chunks c' = recipe_chunks c.
Proof.
  unfold reuse_item_recipes. destruct l as [|p l].
  { intros [= <-]. split; [by apply items_same|done]. }
  intros H. apply bind_Ok in H as ([n c1] & H1 & H). destruct (_ =? _)%Z; [|done]. injection H as <-.
  destruct (update_item_recipes_items _ _ _ _ H1) as (K1 & K2 & K3 & K4).
  set (rids := ordered_unique (p.2 :: _)). set (c2 := fold_left _ rids c1).
  destruct (ensure_all_same c1 rids rf) as (E1 & E2 & E3 & E4). fold c2 in E1, E2, E3, E4.
  split_and!; [|congruence..]. eapply items_advance_trans; [|exact K1|by apply items_same].
  intros r. by rewrite E3.
Qed.

Lemma consolidate_items c item_id h cs rf rid c' :
  catalog_wf c → consolidate_item_recipe c item_id h cs rf = Ok (rid, c') →
  items_advance (λ i r, i = item_id ∧ r = rid) c c' ∧ snapshots c' = snapshots c
  ∧ default [] (recipe_chunks c' !! rid) = cs.
Proof.
  intros Hwf H. unfold consolidate_item_recipe in H.
  apply bind_Ok in H as ([r c1] & H1 & H). apply bind_Ok in H as (c2 & H2 & H). injection H as <- <-.
  destruct (get_or_create_ok _ _ _ _ _ _ Hwf H1) as (_ & _ & _ & E1 & E2).
  destruct (get_or_create_stored _ _ _ _ _ _ (cwf_recipes c Hwf) H1) as (c3 & -> & Hst).
  destruct (set_item_recipe_items _ _ _ _ H2) as (K1 & K2 & K3 & K4).
  split_and!; [|congruence|rewrite K4; apply (rs_rows _ _ _ _ _ Hst)].
  destruct K1 as [K1 D]. split; [|by rewrite D, E2].
  intros id it Hi. rewrite <-E2 in Hi. exact (K1 id it Hi).
Qed.

Lemma add_item_items c sid path st kind id c' :
  catalog_wf c → creating c sid → add_item c sid path st kind = Ok (id, c') →
  snapshot_items c !! id = None
  ∧ snapshot_items c' = <[id := {| it_snapshot_id := sid; it_path := path; it_type := kind;
                                   it_stat := st; it_recipe_id := None |}]> (snapshot_items c)
  ∧ snapshots c' = snapshots c ∧ recipes c' = recipes c ∧ recipe_chunks c' = recipe_chunks c.
Proof.
  intros Hwf _. unfold add_item. destruct (snapshots c !! sid); [|done]. destruct (existsb _ _); [done|].
  intros [= <- <-]. split_and!; try done. apply eq_None_not_Some. intros [it Hi].
  apply (swf_item_ids c (cwf_snapshots c Hwf)) in Hi. lia.
Qed.

(** The new rows of a batch, one per entry and in order, all with fresh ids. *)
Lemma add_items_items c sid batch ids c' :
  catalog_wf c → creating c sid → add_items c sid batch = Ok (ids, c') →
  Forall2 (λ id (e : pystr * stat_info * item_kind), snapshot_items c' !! id = Some
    {| it_snapshot_id := sid; it_path := e.1.1; it_type := e.2; it_stat := e.1.2; it_recipe_id := None |})
    ids batch
  ∧ NoDup ids ∧ Forall (λ id, snapshot_items c !! id = None) ids
  ∧ (∀ id it, snapshot_items c !! id = Some it → snapshot_items c' !! id = Some it)
  ∧ (∀ id, is_Some (snapshot_items c' !! id) → is_Some (snapshot_items c !! id) ∨ id ∈ ids)
  ∧ snapshots c' = snapshots c ∧ recipes c' = recipes c ∧ recipe_chunks c' = recipe_chunks c.
Proof.
  revert c ids. induction batch as [|[[path st] kind] batch IH]; intros c ids Hwf Hcr H; cbn in H.
  { injection H as <- <-. split_and!; try done; [constructor..|by left]. }
  apply bind_Ok in H as ([id c1] & H1 & H). apply bind_Ok in H as ([ids' c2] & H2 & H). injection H as <- <-.
  destruct (add_item_ok _ _ _ _ _ _ _ Hwf Hcr H1) as (Hwf1 & _ & Hs).
  destruct (add_item_items _ _ _ _ _ _ _ Hwf Hcr H1) as (K1 & K2 & K3 & K4 & K5).
  destruct (IH c1 ids' Hwf1 ltac:(unfold creating; by rewrite Hs) H2) as (L1 & L2 & L3 & L4 & L4' & L5 & L6 & L7).
  assert (∀ j it, snapshot_items c !! j = Some it → snapshot_items c1 !! j = Some it) as Hkeep.
  { intros j it Hj. rewrite K2, lookup_insert_ne; [done|]. intros ->. congruence. }
  split_and!; try congruence; eauto.
  - constructor; [|done]. apply L4. by rewrite K2, lookup_insert_eq.
  - constructor; [|done]. intros Hin. rewrite Forall_forall in L3. specialize (L3 _ Hin).
    by rewrite K2, lookup_insert_eq in L3.
  - constructor; [done|]. eapply Forall_impl; [exact L3|]. intros j Hj. cbn in Hj.
    destruct (snapshot_items c !! j) as [it|] eqn:E; [|done]. by rewrite (Hkeep _ _ E) in Hj.
  - intros j [Hj|Hj]%L4'; [|right; by right]. rewrite K2 in Hj.
    destruct (decide (j = id)) as [->|?]; [right; by left|]. rewrite lookup_insert_ne in Hj by done. by left.
Qed.

(** ** What the queries return *)

Lemma get_prev_snapshot_spec c root current p :
  get_prev_snapshot_id c root current = Some p →
  ∃ row, snapshots c !! p = Some row ∧ sn_status row = COMPLETE ∧ sn_root_path row = root ∧ (p < current)%Z.
Proof.
  unfold get_prev_snapshot_id. set (f := λ best kv, _).
  assert (∀ l best, fold_left f l best = Some p → best = Some p ∨ ∃ row, (p, row) ∈ l
    ∧ sn_status row = COMPLETE ∧ sn_root_path row = root ∧ (p < current)%Z) as H.
  { induction l as [|[k row] l IH]; intros best; cbn; [by left|].
    intros [H|(row' & Hin & H)]%IH; [|right; exists row'; split; [by right|done]].
    unfold f in H. destruct (_ && _) eqn:E; [|by left]. cbn in H. injection H as ->. cbn in E. bool_hyps.
    right. exists row. split; [by left|done]. }
  intros [E|(row & Hin & ?)]%H; [done|]. exists row. split; [|done]. by apply elem_of_map_to_list.
Qed.

Lemma get_file_items_spec c sid paths rel it :
  get_file_items_by_paths c sid paths !! rel = Some it →
  ∃ id, snapshot_items c !! id = Some it ∧ it_snapshot_id it = sid ∧ it_path it = rel ∧ it_type it = ItemFile.
Proof.
  unfold get_file_items_by_paths. generalize (iter_batches (ordered_unique paths) 500). intros bs.
  match goal with |- fold_left ?f bs ∅ !! _ = _ → _ => set (F := f) end.
  assert (∀ m, fold_left F bs m !! rel = Some it → m !! rel = Some it ∨
    ∃ id, snapshot_items c !! id = Some it ∧ it_snapshot_id it = sid ∧ it_path it = rel ∧ it_type it = ItemFile) as H.
  { induction bs as [|b bs IH]; intros m; cbn; [by left|]. intros [H|H]%IH; [|by right].
    unfold F in H. apply lookup_union_Some_raw in H as [H|[_ H]]; [|by left].
    apply elem_of_list_to_map_2, list_elem_of_fmap in H as (it' & [= -> ->] & [(H1 & H2 & _) H]%list_elem_of_filter).
    right. apply list_elem_of_fmap in H as ([id it''] & -> & Hin%elem_of_map_to_list). by exists id. }
  intros [E|?]%H; [by rewrite lookup_empty in E|done].
Qed.

Lemma classify_spec previous items :
  let '(reused, pending) := classify previous items in
  (∀ id rid sz, (id, rid, sz) ∈ reused → ∃ rel full st, (id, (rel, full, st, ItemFile)) ∈ items
     ∧ ∃ pit, previous !! rel = Some pit ∧ is_unchanged_file pit st = true ∧ it_recipe_id pit = Some rid)
  ∧ ∀ id rel full, (id, rel, full) ∈ pending → ∃ st, (id, (rel, full, st, ItemFile)) ∈ items.
Proof.
  induction items as [|[id0 [[[rel0 full0] st0] kind0]] items IH]; cbn; [split; intros * H; by inversion H|].
  destruct (classify previous items) as [reused pending]. destruct IH as [IH1 IH2].
  assert (∀ id rid sz, (id, rid, sz) ∈ reused → ∃ rel full st,
    (id, (rel, full, st, ItemFile)) ∈ (id0, (rel0, full0, st0, kind0)) :: items
    ∧ ∃ pit, previous !! rel = Some pit ∧ is_unchanged_file pit st = true ∧ it_recipe_id pit = Some rid) as H1.
  { intros id rid sz (rel & full & st & ? & ?)%IH1. exists rel, full, st. split; [by right|done]. }
  assert (∀ id rel full, (id, rel, full) ∈ pending → ∃ st,
    (id, (rel, full, st, ItemFile)) ∈ (id0, (rel0, full0, st0, kind0)) :: items) as H2.
  { intros id rel full (st & ?)%IH2. exists st. by right. }
  destruct kind0; [|done].
  assert (∀ id rel full, (id, rel, full) ∈ (id0, rel0, full0) :: pending → ∃ st,
    (id, (rel, full, st, ItemFile)) ∈ (id0, (rel0, full0, st0, ItemFile)) :: items) as H3.
  { intros id rel full [[= -> -> ->]|?]%elem_of_cons; [exists st0; by left|auto]. }
  destruct (previous !! rel0) as [pit|] eqn:Ep; [|done].
  destruct (is_unchanged_file pit st0) eqn:Eu; [|done]. destruct (it_recipe_id pit) as [rid0|] eqn:Er; [|done].
  split; [|done]. intros id rid sz [[= -> -> ->]|?]%elem_of_cons; [|eauto].
  exists rel0, full0, st0. split; [by left|]. by exists pit.
Qed.

(** ** The invariant of a run *)

Section run.
Context (env : BackupEnv) (policy : BackupPolicy) (safe_mode : bool) (workers : Z).
(** The catalogue after the snapshot [sid] was created. *)
Context (c1 : Catalog) (sid : Z).
Context (Hwf1 : catalog_wf c1) (Hcr1 : creating c1 sid).

(** Where the recipe [rid] of the entry may come from: a worker that read this very path,
    or the item of the same path in an earlier COMPLETE snapshot of the same root, when the
    attributes are unchanged. *)
Definition source (c : Catalog) (rid : Z) (e : walk_entry) : Prop :=
  let '(rel, full, st, _) := e in
  (∃ f chunks size h stats, fu_full_path f = full
     ∧ be_result env f = Ok (WorkerOk chunks size h stats)
     ∧ default [] (recipe_chunks c !! rid) = chunks)
  ∨ (∃ prev row pid pit, snapshots c !! prev = Some row ∧ sn_status row = COMPLETE
     ∧ sn_root_path row = be_root_path env ∧ (prev < sid)%Z
     ∧ snapshot_items c !! pid = Some pit ∧ it_snapshot_id pit = prev ∧ it_path pit = rel ∧ it_type pit = ItemFile
     ∧ is_unchanged_file pit st = true ∧ it_recipe_id pit = Some rid).

Definition item_ok (c : Catalog) (id : Z) (e : walk_entry) : Prop :=
  let '(rel, full, st, kind) := e in
  ∃ it, snapshot_items c !! id = Some it ∧ it_snapshot_id it = sid ∧ it_path it = rel
    ∧ it_type it = kind ∧ it_stat it = st
    ∧ ∀ rid, it_recipe_id it = Some rid → kind = ItemFile ∧ is_Some (recipes c !! rid) ∧ source c rid e.

(** [G]: the items of the snapshot with the entries they were made for. *)
Record run_inv (G : list (Z * walk_entry)) (s : BackupState) : Prop := {
  ri_reach : rtc cstep c1 (bk_db s);
  ri_snapshots : snapshots (bk_db s) = snapshots c1;
  ri_nodup : NoDup G.*1;
  ri_items id e : (id, e) ∈ G → item_ok (bk_db s) id e;
  ri_only id it : snapshot_items (bk_db s) !! id = Some it → it_snapshot_id it = sid → id ∈ G.*1;
  ri_futures f id rel : (f, (id, rel)) ∈ bk_future_map s →
    ∃ e : walk_entry, (id, e) ∈ G ∧ e.1.1.2 = fu_full_path f ∧ e.2 = ItemFile }.

Lemma ri_wf G s : run_inv G s → catalog_wf (bk_db s).
Proof. intros H. apply (csteps_ok c1 (bk_db s) Hwf1 (ri_reach _ _ H)). Qed.

Lemma ri_creating G s : run_inv G s → creating (bk_db s) sid.
Proof. intros H. unfold creating. by rewrite (ri_snapshots _ _ H). Qed.

Lemma ri_item_creating G s id e : run_inv G s → (id, e) ∈ G → item_creating (bk_db s) id.
Proof.
  intros Hinv Hin it Hi. destruct e as [[[r full] st] kind].
  destruct (ri_items _ _ Hinv _ _ Hin) as (it' & Hi' & E & _).
  assert (it' = it) as -> by congruence. rewrite E. by eapply ri_creating.
Qed.

Lemma ri_unique G s id e e' : run_inv G s → (id, e) ∈ G → (id, e') ∈ G → e = e'.
Proof.
  intros Hinv [i Hi]%list_elem_of_lookup [j Hj]%list_elem_of_lookup.
  assert (i = j) as ->; [|congruence].
  apply (NoDup_lookup _ i j id (ri_nodup _ _ Hinv)); rewrite list_lookup_fmap, ?Hi, ?Hj; done.
Qed.

(** A step that keeps the snapshots and gives recipes only to items they are right for. *)
Lemma item_ok_step A c c' id e :
  keeps c c' → snapshots c' = snapshots c → items_forward A c c' → creating c sid →
  (∀ r, A id r → e.2 = ItemFile ∧ source c' r e) →
  item_ok c id e → item_ok c' id e.
Proof.
  destruct e as [[[rel full] st] kind]. cbn. intros Hk Hs Hadv (crow & Hcrow & Hcst) HA (it & Hi & E1 & E2 & E3 & E4 & Hr).
  destruct (Hadv id it Hi) as (it' & Hi' & F1 & F2 & F3 & F4 & F5). exists it'.
  split_and!; try congruence. intros rid Hrid. destruct F5 as [F5|(r & HAr & F5 & Hsome)].
  - rewrite F5 in Hrid. destruct (Hr rid Hrid) as (Hkind & [rrow Hrrow] & Hsrc).
    destruct (keeps_recipes _ _ Hk _ _ Hrrow) as [K1 K2]. split_and!; [done|by eexists|].
    destruct Hsrc as [(f & chunks & size & h & stats & ? & ? & Hch)|(prev & row & pid & pit & H1 & H2 & H3 & H4 & H5 & H6 & H7)].
    + left. exists f, chunks, size, h, stats. by rewrite K2.
    + right. exists prev, row, pid, pit. rewrite Hs. split_and!; try done; try apply H7.
      apply (keeps_items _ _ Hk prev row pid pit); [done|by rewrite H2|done|done].
  - rewrite F5 in Hrid. injection Hrid as ->. destruct (HA rid HAr). by split_and!.
Qed.

Lemma run_inv_step A G s s' :
  run_inv G s → cstep (bk_db s) (bk_db s') → snapshots (bk_db s') = snapshots (bk_db s) →
  items_advance A (bk_db s) (bk_db s') →
  (∀ id e r, (id, e) ∈ G → A id r → e.2 = ItemFile ∧ source (bk_db s') r e) →
  bk_future_map s' ⊆ bk_future_map s → run_inv G s'.
Proof.
  intros Hinv Hstep Hs Hadv HA Hfut. pose proof (ri_creating _ _ Hinv) as Hcr.
  destruct (cstep_ok _ _ (ri_wf _ _ Hinv) Hstep) as [_ Hk]. destruct Hinv as [i1 i2 i3 i4 i6 i5].
  destruct Hadv as [Hadv Hdom]. split.
  - eapply rtc_r; [exact i1|exact Hstep].
  - congruence.
  - done.
  - intros id e Hin. eapply item_ok_step; [exact Hk|exact Hs|exact Hadv|done| |by apply i4].
    intros r Hr. by eapply HA.
  - intros id it' Hi' E. pose proof (elem_of_dom_2 _ _ _ Hi') as Hin. rewrite Hdom in Hin.
    apply elem_of_dom in Hin as [it Hi]. destruct (Hadv id it Hi) as (it2 & Hi2 & E2 & _).
    apply (i6 id it Hi). congruence.
  - intros fu id rel Hin. by apply i5 with rel, Hfut.
Qed.

(** Changing other variables keeps it, as long as no future is added. *)
Lemma run_inv_same G s s' :
  bk_db s' = bk_db s → bk_future_map s' ⊆ bk_future_map s → run_inv G s → run_inv G s'.
Proof.
  intros E Hf [i1 i2 i3 i4 i6 i5]. split; rewrite ?E; try done.
  intros fu id rel Hin. by apply i5 with rel, Hf.
Qed.

Definition keeps_run (s s' : BackupState) : Prop := ∀ G, run_inv G s → run_inv G s'.

#[export] Instance keeps_run_preorder : PreOrder keeps_run.
Proof. split; [by intros s es|]. intros s1 s2 s3 H1 H2 es H. by apply H2, H1. Qed.

Lemma collect_future_keeps f : sm_respects keeps_run (collect_future env policy f).
Proof.
  intros s G Hinv. unfold collect_future. rewrite sm_bind_spec. cbn [sget].
  destruct (List.find _ _) as [[f' [item_id rel]]|] eqn:Ef; [|done].
  apply List.find_some in Ef as [Hin Eb]. apply bool_decide_eq_true in Eb. cbn in Eb. subst f'.
  apply list_elem_of_In in Hin. rewrite sm_bind_spec. cbn [smodify].
  destruct (ri_futures _ _ Hinv _ _ _ Hin) as (e & He & Hfull & Hkind).
  set (s1 := with_futures _ _ s).
  assert (run_inv G s1) as Hinv1.
  { apply (run_inv_same G s); [done| |done]. cbn. intros x Hx. by apply list_elem_of_filter in Hx as [_ ?]. }
  destruct (be_result env f) as [[chunks size h stats|m]|e0] eqn:Er.
  2, 3: by apply (run_inv_same G s1).
  unfold on_db. rewrite sm_bind_spec. destruct (consolidate_item_recipe _ _ _ _ _) as [[rid c']|e0] eqn:Ec; [|done].
  cbn [smodify]. destruct (consolidate_items _ _ _ _ _ _ _ (ri_wf _ _ Hinv1) Ec) as (K1 & K2 & K3).
  apply (run_inv_step (λ i r, i = item_id ∧ r = rid) G s1); [done| |exact K2|exact K1| |done].
  - eapply cs_consolidate; [by eapply ri_item_creating|exact Ec].
  - intros id e' r Hin' [-> ->]. rewrite (ri_unique _ _ _ _ _ Hinv1 Hin' He). split; [done|].
    destruct e as [[[r0 full] st] kind]. left. cbn in Hfull. by exists f, chunks, size, h, stats.
Qed.

Lemma collect_completed_keeps all : sm_respects keeps_run (collect_completed env policy all).
Proof.
  apply respects_bind; [apply _|apply respects_gets, _|]. intros s.
  destruct (bk_future_map s); [apply respects_ret, _|].
  apply respects_bind; [apply _|apply respects_modify|].
  - intros s' G. by apply run_inv_same.
  - intros _. apply respects_for; [apply _|]. apply collect_future_keeps.
Qed.

(** Submitting the file of an item of the snapshot. *)
Lemma submit_keeps G s item_id rel full :
  (∃ e : walk_entry, (item_id, e) ∈ G ∧ e.1.1.2 = full ∧ e.2 = ItemFile) → run_inv G s →
  run_inv G (submit_pending env policy workers (item_id, rel, full) s).2.
Proof.
  intros He Hinv. unfold submit_pending. rewrite sm_bind_spec. cbn [smodify].
  match goal with |- context [(sget ≫= _) ?x] => set (s1 := x) end.
  assert (run_inv G s1) as Hinv1.
  { destruct Hinv as [i1 i2 i3 i4 i6 i5]. split; try done. cbn. intros f id r [Hin|Hin]%elem_of_app; [by eapply i5|].
    apply list_elem_of_singleton in Hin. injection Hin as -> -> ->. done. }
  rewrite sm_bind_spec. cbn [sget]. destruct (_ <=? _)%Z; [|done]. by apply collect_completed_keeps.
Qed.

Lemma add_batch G s batch ids c' :
  run_inv G s →
  add_items (bk_db s) sid ((λ e : walk_entry, let '(rel, _, st, kind) := e in (rel, st, kind)) <$> batch)
    = Ok (ids, c') →
  run_inv (G ++ zip ids batch) (with_db c' s) ∧ length ids = length batch.
Proof.
  intros Hinv Hadd. pose proof (ri_creating _ _ Hinv) as Hcr. pose proof (ri_wf _ _ Hinv) as Hwf.
  destruct (add_items_items _ _ _ _ _ Hwf Hcr Hadd) as (K1 & K2 & K3 & K4 & K4' & K5 & K6 & K7).
  destruct (add_items_ok _ _ _ _ _ Hwf Hcr Hadd) as [_ Hk].
  assert (length ids = length batch) as Hlen by (apply Forall2_length in K1; by rewrite length_fmap in K1).
  split; [|done]. destruct Hinv as [i1 i2 i3 i4 i6 i5]. split; cbn.
  - eapply rtc_r; [exact i1|]. by eapply cs_add_items.
  - congruence.
  - rewrite fmap_app, fst_zip by lia. apply NoDup_app. split_and!; [done| |done].
    intros id Hid Hin. apply list_elem_of_fmap in Hid as ([id' [[[r f] st] k]] & -> & Hin').
    destruct (i4 _ _ Hin') as (it & Hi & _). rewrite Forall_forall in K3. cbn in Hin. specialize (K3 _ Hin). congruence.
  - intros id e [Hin|Hin]%elem_of_app.
    + eapply (item_ok_step (λ _ _, False)); [exact Hk|exact K5| |exact Hcr|done|by apply i4].
      intros j it Hj. exists it. split_and!; auto.
    + apply list_elem_of_lookup in Hin as [i Hi]. apply lookup_zip_Some in Hi as [Hi1 Hi2].
      pose proof (Forall2_lookup_l _ _ _ _ _ K1 Hi1) as (e' & He' & Hrow).
      rewrite list_lookup_fmap, Hi2 in He'. injection He' as <-. destruct e as [[[rel full] st] kind].
      cbn in *. eexists. split; [exact Hrow|]. by split_and!.
  - intros id it Hi E. rewrite fmap_app, fst_zip, elem_of_app by lia.
    destruct (K4' id ltac:(by eexists)) as [[it0 Hi0]|Hin]; [left|by right].
    rewrite (K4 _ _ Hi0) in Hi. injection Hi as <-. by eapply i6.
  - intros f id rel Hin. destruct (i5 _ _ _ Hin) as (e & ? & ?). exists e. split; [|done].
    apply elem_of_app. by left.
Qed.

Lemma totals_fold (l : list (Z * Z * Z)) s :
  let s' := fold_left (λ s r, with_totals (add_reused_file r.2) s) l s in
  bk_db s' = bk_db s ∧ bk_future_map s' = bk_future_map s.
Proof. revert s. induction l as [|r l IH]; intros s; cbn; [done|]. apply (IH (with_totals _ s)). Qed.

Lemma submit_all G l s :
  (∀ id rel full, (id, rel, full) ∈ l → ∃ e : walk_entry, (id, e) ∈ G ∧ e.1.1.2 = full ∧ e.2 = ItemFile) →
  run_inv G s → run_inv G (sfor (submit_pending env policy workers) l s).2.
Proof.
  revert s. induction l as [|[[id rel] full] l IH]; intros s Hl Hinv; cbn [sfor]; [done|].
  rewrite sm_bind_spec. pose proof (submit_keeps G s id rel full (Hl _ _ _ ltac:(by left)) Hinv) as H.
  destruct (submit_pending _ _ _ _ s) as [[[]|e] s1]; [|done]. apply IH; [|done].
  intros; eapply Hl; by right.
Qed.

(** A batch is recorded, its unchanged files get the recipes they had, the others are
    submitted. *)
Lemma process_batch_spec prev G s batch :
  (∀ p, prev = Some p → ∃ row, snapshots c1 !! p = Some row ∧ sn_status row = COMPLETE
     ∧ sn_root_path row = be_root_path env ∧ (p < sid)%Z) →
  run_inv G s →
  let '(r, s') := process_batch env policy safe_mode workers sid prev batch s in
  ∃ G', run_inv G' s' ∧ (r = Ok () → G'.*2 = G.*2 ++ batch).
Proof.
  intros Hprev Hinv. unfold process_batch, on_db. rewrite sm_bind_spec.
  destruct (add_items _ _ _) as [[ids c']|e] eqn:Eadd; [|by exists G].
  destruct (add_batch _ _ _ _ _ Hinv Eadd) as [Hinv1 Hlen]. set (G' := G ++ zip ids batch) in *.
  set (s1 := with_db c' s) in *. rewrite sm_bind_spec. cbn [sget].
  match goal with |- context [classify ?p _] => set (previous := p) end.
  pose proof (classify_spec previous (zip ids batch)) as Hcl.
  destruct (classify previous (zip ids batch)) as [reused pending]. destruct Hcl as [Hreused Hpending].
  rewrite sm_bind_spec. cbn [smodify]. set (s2 := fold_left _ reused s1).
  destruct (totals_fold reused s1) as [Edb Efut]. fold s2 in Edb, Efut.
  assert (run_inv G' s2) as Hinv2 by (apply (run_inv_same G' s1); [done|by rewrite Efut|done]).
  assert (G'.*2 = G.*2 ++ batch) as HG by (unfold G'; rewrite fmap_app, snd_zip by lia; done).
  rewrite sm_bind_spec. destruct (reuse_item_recipes (bk_db s2) reused.*1 (bp_desired_rf policy)) as [c2|e] eqn:Er;
    cbn [mbind res_bind]; [|by exists G'].
  assert (Forall (λ p, item_creating (bk_db s2) p.1) reused.*1) as Hcreating.
  { apply Forall_forall. intros [i r] Hin.
    apply list_elem_of_fmap in Hin as ([[i' r'] sz] & [= -> ->] & Hin).
    destruct (Hreused _ _ _ Hin) as (rel & full & st & Hz & _).
    eapply ri_item_creating; [exact Hinv2|]. apply elem_of_app. by right. }
  destruct (reuse_ok _ _ _ _ (ri_wf _ _ Hinv2) Hcreating Er) as [_ Hk].
  assert (run_inv G' (with_db c2 s2)) as Hinv3.
  { destruct (reuse_items _ _ _ _ Er) as (K1 & K2 & K3 & K4).
    apply (run_inv_step (λ i r, (i, r) ∈ reused.*1) G' s2); [done| |exact K2|exact K1| |done].
    - by eapply cs_reuse.
    - intros id e r Hin Hr. apply list_elem_of_fmap in Hr as ([[i' r'] sz] & [= -> ->] & Hr).
      destruct (Hreused _ _ _ Hr) as (rel & full & st & Hz & pit & Hp & Hu & Hrid).
      rewrite (ri_unique _ _ _ _ _ Hinv2 Hin (proj2 (elem_of_app _ _ _) (or_intror Hz))). split; [done|].
      right. destruct prev as [p|]; [|by subst previous; rewrite lookup_empty in Hp].
      destruct (Hprev p eq_refl) as (row & Hrow & Hst & Hroot & Hlt).
      subst previous. destruct safe_mode; [by rewrite lookup_empty in Hp|].
      apply get_file_items_spec in Hp as (pid & Hpid & Hps & Hpp & Hpt).
      exists p, row, pid, pit. cbn [with_db bk_db]. rewrite K2. rewrite (ri_snapshots _ _ Hinv2).
      split_and!; try done.
      apply (keeps_items _ _ Hk p row pid pit); [by rewrite (ri_snapshots _ _ Hinv2)|by rewrite Hst|done|].
      rewrite Edb. exact Hpid. }
  pose proof (submit_all G' pending (with_db c2 s2)) as Hsub.
  destruct (sfor _ pending _) as [r s3]. exists G'. split; [|done]. apply Hsub; [|done].
  intros id rel full Hin. destruct (Hpending _ _ _ Hin) as (st & Hz).
  exists (rel, full, st, ItemFile). split; [|done]. apply elem_of_app. right. exact Hz.
Qed.

Lemma batches_spec prev batches G s :
  (∀ p, prev = Some p → ∃ row, snapshots c1 !! p = Some row ∧ sn_status row = COMPLETE
     ∧ sn_root_path row = be_root_path env ∧ (p < sid)%Z) →
  run_inv G s →
  let '(r, s') := sfor (process_batch env policy safe_mode workers sid prev) batches s in
  ∃ G', run_inv G' s' ∧ (r = Ok () → G'.*2 = G.*2 ++ concat batches).
Proof.
  intros Hprev. revert G s. induction batches as [|b bs IH]; intros G s Hinv; cbn [sfor].
  { exists G. split; [done|]. by rewrite app_nil_r. }
  rewrite sm_bind_spec. pose proof (process_batch_spec prev G s b Hprev Hinv) as H1.
  destruct (process_batch _ _ _ _ _ _ b s) as [[[]|e] s1]; destruct H1 as (G1 & Hinv1 & HG1); [|by exists G1].
  specialize (IH G1 s1 Hinv1). destruct (sfor _ bs s1) as [r s2]. destruct IH as (G2 & Hinv2 & HG2).
  exists G2. split; [done|]. intros Hr. rewrite (HG2 Hr), (HG1 eq_refl). cbn. by rewrite app_assoc.
Qed.

(** The body of the [try]: it ends with the snapshot finished and all entries recorded, or
    raises with the snapshot still in CREATING. *)
Lemma run_snapshot_spec s :
  run_inv [] s →
  let '(r, s') := run_snapshot env policy safe_mode workers sid s in
  match r with
  | Ok _ => (be_walk env).2 = None ∧ bk_failed_files s' = []
      ∧ ∃ G s1, run_inv G s1 ∧ G.*2 = (be_walk env).1
          ∧ finish_snapshot (bk_db s1) sid (br_size (bk_totals s')) (br_files (bk_totals s')) = Ok (bk_db s')
  | Err _ => ∃ G, run_inv G s'
  end.
Proof.
  intros Hinv. unfold run_snapshot. rewrite sm_bind_spec. cbn [sget]. rewrite sm_bind_spec.
  pose proof (batches_spec (get_prev_snapshot_id (bk_db s) (be_root_path env) sid)
    (iter_batches (be_walk env).1 SNAPSHOT_ITEM_BATCH_SIZE) [] s) as Hb.
  destruct (sfor _ _ s) as [[[]|e] s1].
  all: destruct Hb as (G & Hinv1 & HG); [|exact Hinv|].
  1, 3: intros p Hp; apply get_prev_snapshot_spec in Hp as (row & Hrow & ?); exists row;
    by rewrite <-(ri_snapshots _ _ Hinv).
  2: by exists G.
  specialize (HG eq_refl). rewrite concat_iter_batches in HG. cbn in HG.
  destruct (be_walk env).2 as [e|]; [by exists G|]. rewrite sm_bind_spec.
  pose proof (collect_completed_keeps true s1 G Hinv1) as Hinv2.
  destruct (collect_completed _ _ true s1) as [[[]|e] s2]; cbn [snd] in Hinv2; [|by exists G].
  rewrite sm_bind_spec. cbn [sget]. destruct (bk_failed_files s2) eqn:Ef; [|by exists G].
  unfold on_db. destruct (finish_snapshot _ _ _ _) as [c|e] eqn:Efin; cbn [mbind res_bind]; [|by exists G].
  split_and!; [done|done|]. by exists G, s2.
Qed.
(** What the item of an entry is in the catalogue of a finished run. *)
Definition recorded (c : Catalog) (id : Z) (e : walk_entry) : Prop :=
  let '(rel, full, st, kind) := e in
  ∃ it, snapshot_items c !! id = Some it ∧ it_snapshot_id it = sid
    ∧ it_path it = rel ∧ it_type it = kind ∧ it_stat it = st
    ∧ ∀ rid, it_recipe_id it = Some rid → kind = ItemFile ∧ source c rid e.

(** The items of the snapshot are the entries: one item each, in order, none else. *)
Definition records_tree (c : Catalog) (entries : list walk_entry) : Prop :=
  ∃ ids, Forall2 (recorded c) ids entries ∧ NoDup ids
    ∧ (∀ id it, snapshot_items c !! id = Some it → it_snapshot_id it = sid →
         id ∈ ids ∧ (it_type it = ItemFile → is_Some (it_recipe_id it))).

Lemma finish_records G s size files c' :
  run_inv G s → finish_snapshot (bk_db s) sid size files = Ok c' →
  (∃ row row', snapshots c1 !! sid = Some row ∧ snapshots c' = <[sid := row']> (snapshots c1)
     ∧ sn_status row' = COMPLETE ∧ sn_root_path row' = sn_root_path row
     ∧ sn_origin_node_id row' = sn_origin_node_id row)
  ∧ records_tree c' G.*2.
Proof.
  intros Hinv. unfold finish_snapshot. rewrite (ri_snapshots _ _ Hinv).
  destruct (snapshots c1 !! sid) as [row|] eqn:Erow; [|done]. case_bool_decide; [done|].
  destruct (incomplete_files (bk_db s) sid) eqn:Einc; [|done]. intros [= <-]. split.
  { exists row. eexists. split; [done|]. cbn. by rewrite (ri_snapshots _ _ Hinv). }
  exists G.*1. split_and!; [|apply (ri_nodup _ _ Hinv)|].
  - apply Forall2_fmap, Forall_Forall2_diag, Forall_forall. intros [id [[[rel full] st] kind]] Hin. cbn.
    destruct (ri_items _ _ Hinv _ _ Hin) as (it & Hi & E1 & E2 & E3 & E4 & Hr).
    exists it. cbn [with_snapshots snapshot_items]. split_and!; try done. intros rid Hrid.
    destruct (Hr rid Hrid) as (Hkind & _ & Hsrc). split; [done|].
    destruct Hsrc as [?|(prev & prow & pid & pit & H1 & H2 & H3 & H4 & H5)]; [by left|right].
    exists prev, prow, pid, pit. split_and!; try done; try apply H5. cbn.
    rewrite lookup_insert_ne; [done|]. intros ->. lia.
  - cbn [with_snapshots snapshot_items]. intros id it Hi E. split; [by eapply ri_only|]. intros Hk.
    destruct (it_recipe_id it) as [rid|] eqn:Erid; [by eexists|exfalso].
    assert ((id, it) ∈ incomplete_files (bk_db s) sid) as Hx; [|rewrite Einc in Hx; by inversion Hx].
    apply list_elem_of_filter. split; [by split_and!|]. by apply elem_of_map_to_list.
Qed.

Lemma fail_records G s e :
  run_inv G s →
  ∃ row row' s', fail_quietly env sid e s = (Err e, s') ∧ rtc cstep c1 (bk_db s')
    ∧ snapshots c1 !! sid = Some row ∧ snapshots (bk_db s') = <[sid := row']> (snapshots c1)
    ∧ sn_status row' = SNAP_FAILED.
Proof.
  intros Hinv. destruct Hcr1 as (row & Hrow & Hst).
  unfold fail_quietly. rewrite sm_bind_spec. cbn [smodify sraise].
  set (message := match e with KeyboardInterrupt => _ | _ => _ end).
  assert (∃ c', fail_snapshot (bk_db s) sid message = Ok c') as [c' Ec].
  { unfold fail_snapshot. rewrite (ri_snapshots _ _ Hinv), Hrow, Hst. by eexists. }
  rewrite Ec. exists row. revert Ec. unfold fail_snapshot at 1.
  rewrite (ri_snapshots _ _ Hinv), Hrow, Hst. intros [= <-].
  do 2 eexists. split; [reflexivity|]. cbn [with_db bk_db]. split_and!.
  - eapply rtc_r; [exact (ri_reach _ _ Hinv)|]. apply (cs_fail _ sid message).
    unfold fail_snapshot. by rewrite (ri_snapshots _ _ Hinv), Hrow, Hst.
  - done.
  - cbn. by rewrite (ri_snapshots _ _ Hinv).
  - done.
Qed.
End run.

(** ** A run from beginning to end *)

Lemma create_snapshot_spec c uuid root origin sid c1 :
  create_snapshot c uuid root origin = Ok (sid, c1) →
  strip origin ≠ [] ∧ sid = next_snapshot_id c ∧ snapshot_items c1 = snapshot_items c ∧ ∃ row,
    snapshots c1 = <[sid := row]> (snapshots c) ∧ sn_status row = CREATING ∧ sn_root_path row = root
    ∧ sn_origin_node_id row = strip origin.
Proof.
  unfold create_snapshot. case_bool_decide; [done|]. destruct (existsb _ _); [done|]. intros [= <- <-].
  split_and!; [done..|]. eexists. split; [done|]. by split_and!.
Qed.

(** A run of the coordinator from any consistent catalogue. *)
Lemma backup_snapshot_spec env policy safe_mode workers origin c :
  rtc cstep empty_catalog c →
  let '(r, s') := backup_snapshot env policy safe_mode workers origin (initial_backup c) in
  rtc cstep c (bk_db s')
  ∧ match r with
    | Ok sid =>
        (be_walk env).2 = None ∧ snapshots c !! sid = None
        ∧ (∃ row, snapshots (bk_db s') = <[sid := row]> (snapshots c) ∧ sn_status row = COMPLETE
             ∧ sn_root_path row = be_root_path env ∧ sn_origin_node_id row = strip origin)
        ∧ records_tree env sid (bk_db s') (be_walk env).1
    | Err _ =>
        snapshots (bk_db s') = snapshots c
        ∨ ∃ sid row, snapshots c !! sid = None ∧ snapshots (bk_db s') = <[sid := row]> (snapshots c)
            ∧ sn_status row = SNAP_FAILED
    end.
Proof.
  intros Hreach. destruct (csteps_ok _ _ empty_catalog_wf Hreach) as [Hwf _].
  unfold backup_snapshot. rewrite sm_bind_spec. cbn [slift].
  destruct (be_walker env) as [[]|e]; [|split; [done|by left]].
  rewrite sm_bind_spec. unfold on_db. cbn [initial_backup bk_db].
  destruct (create_snapshot _ _ _ _) as [[sid c1]|e] eqn:Ec; [|split; [done|by left]].
  destruct (create_snapshot_spec _ _ _ _ _ _ Ec) as (_ & Esid & Eits & row & Esn & Est & Eroot & Eor).
  destruct (create_snapshot_ok _ _ _ _ _ _ Hwf Ec) as [Hwf1 _].
  assert (snapshots c !! sid = None) as Hfresh.
  { apply eq_None_not_Some. intros [r Hr]. apply (swf_snapshot_ids c (cwf_snapshots c Hwf)) in Hr. lia. }
  assert (creating c1 sid) as Hcr1 by (exists row; by rewrite Esn, lookup_insert_eq).
  assert (rtc cstep c c1) as Hstep1 by (apply rtc_once; by eapply cs_create).
  set (s0 := with_db c1 (initial_backup c)).
  assert (run_inv env c1 sid [] s0) as Hinv0.
  { split; [done|done|constructor|intros * H; by inversion H| |intros * H; by inversion H].
    intros id it Hi E. cbn in Hi. rewrite Eits in Hi.
    destruct (swf_item_snapshot c (cwf_snapshots c Hwf) id it Hi) as [r Hr]. congruence. }
  rewrite sm_bind_spec. unfold scatch.
  pose proof (run_snapshot_spec env policy safe_mode workers c1 sid Hwf1 Hcr1 s0 Hinv0) as Hrun.
  destruct (run_snapshot _ _ _ _ _ s0) as [[[]|e] s'].
  - destruct Hrun as (Hwalk & _ & G & s1 & Hinv & HG & Hfin). cbn.
    edestruct finish_records as [(row0 & row' & Hrow0 & Hsn & Hst & Hro & Hor) Hrec]; [exact Hcr1|exact Hinv|exact Hfin|].
    rewrite Esn, lookup_insert_eq in Hrow0. injection Hrow0 as <-. split; [|split_and!; [done|done| |by rewrite <-HG]].
    + etransitivity; [exact Hstep1|]. eapply rtc_r; [apply (ri_reach _ _ _ _ _ Hinv)|]. by eapply cs_finish.
    + exists row'. rewrite Hsn, Esn, insert_insert_eq. split_and!; congruence.
  - destruct Hrun as [G Hinv].
    edestruct fail_records as (row0 & row' & s2 & -> & Hr & _ & Hsn & Hst); [exact Hcr1|exact Hinv|].
    split; [by etransitivity|]. right. exists sid, row'. rewrite Hsn, Esn, insert_insert_eq. by split_and!.
Qed.

(** ** Properties *)

(** C4: a backup is complete or marked as failed: from a consistent catalogue, whatever the
    workers return, in whatever order they complete and wherever the run raises (also when
    interrupted), only operations of the catalogue are applied. If the run succeeds, the
    walk of the tree ended without an error, the snapshot is new, COMPLETE and has the root
    asked for and the origin that was resolved, and its items are the entries of the walk,
    one each and no other, with their attributes; every file has a recipe: the chunks a
    worker found when it read this very path, or the recipe of the same path in an earlier
    COMPLETE snapshot of the same root, when its attributes are unchanged. If it raises, no
    other snapshot changed, and the one it created, if any, is FAILED. *)
Theorem backup_complete_or_failed blake3 env o file c :
  rtc cstep empty_catalog c →
  let '(r, (file', c')) := backup_directory blake3 env o (file, c) in
  rtc cstep c c'
  ∧ match r with
    | Ok sid =>
        (be_walk env).2 = None ∧ snapshots c !! sid = None
        ∧ (∃ row origin, snapshots c' = <[sid := row]> (snapshots c) ∧ sn_status row = COMPLETE
             ∧ sn_root_path row = be_root_path env ∧ sn_origin_node_id row = strip origin
             ∧ resolve_origin_node_id (be_lease env) (be_members env) (bo_membership_seed o) (bo_self_addr o)
                 (be_identity_unreadable env) (be_fresh_id env) (be_identity_io env) file = (Ok origin, file'))
        ∧ records_tree env sid c' (be_walk env).1
    | Err _ =>
        snapshots c' = snapshots c
        ∨ ∃ sid row, snapshots c !! sid = None ∧ snapshots c' = <[sid := row]> (snapshots c)
            ∧ sn_status row = SNAP_FAILED
    end.
Proof.
  intros Hreach. unfold backup_directory. destruct (negb _); [split; [done|by left]|].
  destruct (resolve_origin_node_id _ _ _ _ _ _ _ file) as [[origin|e] file']; cbn [mbind res_bind];
    [|split; [done|by left]].
  destruct (build_backup_fast_path_policy _ _ _ _ _ _ _ _ _ _) as [policy|e]; cbn [mbind res_bind];
    [|split; [done|by left]].
  pose proof (backup_snapshot_spec env policy (bo_safe_mode o)
    (normalize_worker_count (be_cpu_count env) (bo_num_threads o)) origin c Hreach) as H.
  destruct (backup_snapshot _ _ _ _ _ _) as [[sid|e] s']; [|done].
  destruct H as (H1 & H2 & H3 & (row & H4 & H5 & H6 & H7) & H8). split_and!; try done.
  by exists row, origin.
Qed.

(** ** Witness *)

Definition example_stat : stat_info := {|
  st_size := 80; st_mode := 33188; st_mtime := 0; st_uid := Some 0%Z; st_gid := Some 0%Z; st_mtime_ns := 1; st_ctime_ns := 1 |}.

Definition example_read : res WorkerResult :=
  Ok (WorkerOk example_recipe 25 (example_hash 99) (count_decision skip_local false (wv_stats no_vars))).

(** A tree with two files; the workers complete in reverse order. *)
Definition example_backup_env (first second : res WorkerResult) : BackupEnv := {|
  be_root_path := u "/t"; be_is_dir := true; be_lease := None; be_members := λ _, RpcFail [];
  be_identity_unreadable := false; be_fresh_id := example_id; be_identity_io := None; be_cpu_count := 4;
  be_walker := Ok ();
  be_walk := ([(u ".", u "/t", example_stat, ItemDir); (u "a", u "/t/a", example_stat, ItemFile);
               (u "b", u "/t/b", example_stat, ItemFile)], None);
  be_uuid := u "id";
  be_result := λ f, if bool_decide (fu_full_path f = u "/t/b") then second else first;
  be_done := λ _ _ fs, rev fs; be_exc_text := λ _, [] |}.

Definition example_options : BackupOptions := {|
  bo_membership_seed := None; bo_self_addr := u "a:1"; bo_cluster_token := []; bo_desired_rf := 1;
  bo_fast_local := true; bo_fast_remote := true; bo_safe_mode := false; bo_num_threads := 2 |}.

Definition example_run (second : res WorkerResult) : res Z * (identity_file * Catalog) :=
  backup_directory toy_blake3 (example_backup_env example_read second) example_options (None, empty_catalog).

Example example_run_complete :
  let '(r, (_, c)) := example_run example_read in
  ∃ sid row, r = Ok sid ∧ snapshots c !! sid = Some row ∧ sn_status row = COMPLETE
    ∧ sn_total_size row = 50%Z ∧ length (snapshot_chunk_hashes c sid) = 2.
Proof. vm_compute. do 2 eexists. by split_and!. Qed.

Example example_run_failed :
  (example_run (Ok (WorkerFailed (u "no")))).1 = Err StopanStorageError.
Proof. by vm_compute. Qed.

Lemma backup_complete_or_failed_witness :
  rtc cstep empty_catalog (example_run example_read).2.2.
Proof.
  pose proof (backup_complete_or_failed toy_blake3 (example_backup_env example_read example_read)
    example_options None empty_catalog (rtc_refl _ _)) as H.
  unfold example_run. destruct (backup_directory _ _ _ _) as [r [file' c']]. exact (proj1 H).
Defined.
