(* ===== verification/BackupSafe.v ===== *)
(** * Backups keep the data of every complete snapshot

    The composition of the coordinator ([BackupRun.v]), the workers ([BackupWorker.v]), the
    catalogue and the content-addressed store: what every COMPLETE snapshot refers to stays
    readable from the store, or was proved to have enough remote copies. *)

From S2P Require Import Prelude PyStr Common Heapq Hrw Cluster Protection Catalog ProtectionTable.
From S2P Require Import Snapshots ReplicationPlan ReplicationPush MembershipModel Membership Cas.
From S2P Require Import RemoteContext NodeIdentity FastCdc Chunker BackupWorker Backup BackupRun.

Section safe.
Context (data_folder : pystr) (blake3 compress : bytes → bytes) (decompress : bytes → res bytes).
Context (exc_text : exn → pystr) (chunker : FileChunker).
Context (Hzstd : ∀ x, decompress (compress x) = Ok x) (Hdigest : ∀ x, length (blake3 x) = 32).
(** [R h]: enough remote copies of [h] were proved. *)
Context (R : pystr → Prop).

Notation wstep := (wstep data_folder blake3 decompress R).
Notation good := (content_ok blake3 decompress).

(** The chunk can be read and has the content of its hash, or has enough remote copies. *)
Definition available (cas : CasState) (h : pystr) : Prop :=
  (∃ raw, get data_folder blake3 decompress cas false h = Ok raw ∧ blake3_hex_digest blake3 raw = h) ∨ R h.

(** Nothing a COMPLETE snapshot refers to is lost. *)
Definition durable (c : Catalog) (cas : CasState) : Prop :=
  ∀ h, h ∈ all_reachable_chunk_hashes c → available cas h.

Lemma available_grows cas cas' h :
  grows cas cas' → store_ok data_folder good cas' → is_valid_blake3_hex h = true →
  available cas h → available cas' h.
Proof.
  intros Hg Hok Hv [(raw & Hr & _)|HR]; [left|by right].
  assert (is_Some (cas_files cas !! chunk_path data_folder h)) as Hs.
  { unfold get, get_compressed in Hr. destruct (cas_files cas !! _); [by eexists|done]. }
  destruct (Hg _ Hs) as [d Hd].
  destruct (get_content_ok blake3 decompress data_folder _ _ _ Hd (Hok _ _ Hv Hd)) as (raw' & E & _ & _ & E').
  by exists raw'.
Qed.

(** The results of the workers are those of runs between [s0] and [s1], which share the
    store and the index with others that respect them. *)
Definition workers_ran (env : BackupEnv) (policy : BackupPolicy) (safe : bool) (s0 s1 : WorkerState) : Prop :=
  wstep s0 s1 ∧ ∀ f out, be_result env f = Ok out → ∃ pl wenv s s',
    new_planner (bp_fast_local_enabled policy) safe (bp_fast_remote_enabled policy) (bp_desired_rf policy)
      (bp_placement_epoch policy) = Ok pl
    ∧ civil data_folder blake3 decompress R pl wenv ∧ wstep s0 s ∧ wstep s' s1
    ∧ process_file_worker data_folder blake3 compress exc_text chunker wenv (bp_fast_local_enabled policy)
        (bp_fast_remote_enabled policy) safe (bp_desired_rf policy) (bp_placement_epoch policy) s = (Ok out, s').

Lemma elem_of_recipe_of n datas rc :
  rc ∈ recipe_of blake3 n datas → ∃ d, d ∈ datas ∧ rc.1.2 = blake3_hex_digest blake3 d.
Proof.
  revert n. induction datas as [|d ds IH]; intros n; cbn; [by intros H; inversion H|].
  intros [->|(d' & ? & ?)%IH]%elem_of_cons; [exists d|exists d']; split; by try constructor.
Qed.

(** What a worker reported is available when the run is over. *)
Lemma worker_available env policy safe s0 s1 f chunks size h stats rc :
  workers_ran env policy safe s0 s1 → (0 <= bp_desired_rf policy)%Z →
  index_sound data_folder R s0 → store_ok data_folder good (wk_cas s0) →
  be_result env f = Ok (WorkerOk chunks size h stats) → rc ∈ chunks → available (wk_cas s1) rc.1.2.
Proof.
  intros [_ Hran] Hrf Hidx Hok Hf Hrc. destruct (Hran f _ Hf) as (pl & wenv & s & s' & Hpl & Hc & H1 & H2 & Hrun).
  pose proof (worker_spec data_folder blake3 compress decompress exc_text chunker Hzstd Hdigest R
    _ _ safe (bp_desired_rf policy) (bp_placement_epoch policy) pl wenv s Hrf Hpl Hc) as Hw.
  rewrite Hrun in Hw. destruct H1 as [[_ Hk1] Hi1], H2 as [[Hg2 Hk2] _].
  destruct (Hw (Hi1 Hidx) (Hk1 Hok)) as (_ & Hok' & _ & _ & Hall).
  destruct (Hall _ _ _ _ eq_refl) as (file & datas & _ & _ & -> & _ & _ & _ & _ & Hd).
  apply elem_of_recipe_of in Hrc as (d & Hin & ->).
  apply (available_grows (wk_cas s')); [done|by apply Hk2|by apply hexdigest_valid|].
  destruct (Hd d Hin) as [?|(_ & _ & _ & ?)]; [by left|by right].
Qed.

(** An item of a snapshot that was COMPLETE before refers to what it referred to. *)
Lemma reachable_before c c' prev row id it rid (rc : recipe_chunk) :
  catalog_wf c → keeps c c' → snapshots c !! prev = Some row → sn_status row = COMPLETE →
  snapshot_items c' !! id = Some it → it_snapshot_id it = prev → it_type it = ItemFile →
  it_recipe_id it = Some rid → rc ∈ default [] (recipe_chunks c' !! rid) →
  rc.1.2 ∈ all_reachable_chunk_hashes c.
Proof.
  intros Hwf Hk Hrow Hst Hi Es Et Er Hrc. unfold all_reachable_chunk_hashes. rewrite elem_of_order_by_hash, elem_of_joined.
  apply (keeps_items c c' Hk prev row) in Hi; [|done|by rewrite Hst|done].
  destruct (swf_item_recipe c (cwf_snapshots c Hwf) _ _ _ Hi Er) as [rrow Hrrow].
  rewrite (proj2 (keeps_recipes c c' Hk _ _ Hrrow)) in Hrc.
  exists id, it, rid, rc. split_and!; try done. apply snapshot_in_true. exists row. rewrite Es. split; [done|]. rewrite Hst. set_solver.
Qed.

(** The references of the new snapshot. *)
Lemma recorded_available env policy safe s0 s1 c c' sid id e it rid rc :
  workers_ran env policy safe s0 s1 → (0 <= bp_desired_rf policy)%Z →
  index_sound data_folder R s0 → store_ok data_folder good (wk_cas s0) →
  catalog_wf c → keeps c c' → (∀ p, (p < sid)%Z → snapshots c' !! p = snapshots c !! p) →
  (∀ h, h ∈ all_reachable_chunk_hashes c → available (wk_cas s1) h) →
  recorded env sid c' id e → snapshot_items c' !! id = Some it → it_recipe_id it = Some rid →
  rc ∈ default [] (recipe_chunks c' !! rid) → available (wk_cas s1) rc.1.2.
Proof.
  intros Hran Hrf Hidx Hok Hwf Hk Hold Hd Hrec Hi Er Hrc. destruct e as [[[rel full] st] kind].
  destruct Hrec as (it' & Hi' & _ & _ & _ & _ & Hsrc). assert (it' = it) as -> by congruence.
  destruct (Hsrc rid Er) as [_ [(f & chunks & size & h & stats & _ & Hres & Hch)|(prev & row & pid & pit & H)]].
  - assert (rc ∈ chunks) as Hin by (rewrite <-Hch; exact Hrc). by eapply worker_available.
  - destruct H as (H1 & H2 & _ & H4 & H5 & H6 & _ & H8 & _ & H10). apply Hd. rewrite (Hold prev H4) in H1.
    by apply (reachable_before c c' prev row pid pit rid rc).
Qed.

Lemma built_policy blake3' get_members rf seed addr token fl fr safe origin policy :
  build_backup_fast_path_policy blake3' get_members rf seed addr token fl fr safe origin = Ok policy →
  (0 <= bp_desired_rf policy)%Z.
Proof.
  unfold build_backup_fast_path_policy, normalize_remote_rf. destruct (rf <? 0)%Z eqn:E; [done|].
  cbn [mbind res_bind]. intros H.
  repeat (match type of H with context [if ?b then _ else _] => destruct b; try done end);
    try (injection H as <-; cbn; lia).
  destruct (resolve_remote_placement_epoch _ _ _ _ _ _ _) as [[?|]|]; injection H as <-; cbn; lia.
Qed.

(** What the snapshots of a run that does not end well refer to was there before. *)
Lemma reachable_old c c' h :
  catalog_wf c → keeps c c' →
  (snapshots c' = snapshots c
   ∨ ∃ sid row, snapshots c' = <[sid := row]> (snapshots c) ∧ sn_status row ≠ COMPLETE) →
  h ∈ all_reachable_chunk_hashes c' → h ∈ all_reachable_chunk_hashes c.
Proof.
  intros Hwf Hk Hs Hh. unfold all_reachable_chunk_hashes in Hh. rewrite elem_of_order_by_hash, elem_of_joined in Hh.
  destruct Hh as (id & it & rid & rc & Hi & Hl & Ht & Hr & Hrc & ->).
  apply snapshot_in_true in Hl as (row' & Hrow' & Hst%list_elem_of_singleton).
  apply (reachable_before c c' (it_snapshot_id it) row' id it rid rc); try done.
  destruct Hs as [E|(sid & row & E & Hn)]; rewrite E in Hrow'; [done|].
  rewrite lookup_insert in Hrow'. case_decide; [congruence|done].
Qed.

Lemma reachable_valid c h : catalog_wf c → h ∈ all_reachable_chunk_hashes c → is_valid_blake3_hex h = true.
Proof.
  intros Hwf. unfold all_reachable_chunk_hashes. rewrite elem_of_order_by_hash, elem_of_joined.
  intros (id & it & rid & rc & _ & _ & _ & _ & Hrc & ->).
  destruct (recipe_chunks c !! rid) as [rows|] eqn:E; [|by inversion Hrc].
  destruct (pwf_recipes c (cwf_protection c Hwf) rid rows rc E Hrc) as [r Hr].
  by apply (pwf_valid c (cwf_protection c Hwf) _ _ Hr).
Qed.

(** C3: backups never lose data of a complete snapshot: if everything the COMPLETE
    snapshots refer to is available (readable from the store with the content of its hash,
    or proved to have enough remote copies), the index and the store are sound, and the
    store is only changed by writers that respect it, then after a backup, whatever the
    workers return, in whatever order they complete and wherever the run raises,
    everything that the COMPLETE snapshots refer to, the new one included, is available. *)
Theorem backup_keeps_durable env o file c s0 s1 :
  rtc cstep empty_catalog c → index_sound data_folder R s0 → store_ok data_folder good (wk_cas s0) →
  durable c (wk_cas s0) →
  (∀ origin policy,
     build_backup_fast_path_policy blake3 (be_members env) (bo_desired_rf o) (bo_membership_seed o)
       (bo_self_addr o) (bo_cluster_token o) (bo_fast_local o) (bo_fast_remote o) (bo_safe_mode o) origin
       = Ok policy → workers_ran env policy (bo_safe_mode o) s0 s1) →
  wstep s0 s1 →
  durable (backup_directory blake3 env o (file, c)).2.2 (wk_cas s1).
Proof.
  intros Hreach Hidx Hok Hd Hran [[Hg Hk] _]. destruct (csteps_ok _ _ empty_catalog_wf Hreach) as [Hwf _].
  assert (∀ h, h ∈ all_reachable_chunk_hashes c → available (wk_cas s1) h) as Hd1.
  { intros h Hh. apply (available_grows (wk_cas s0)); [done|by apply Hk|by eapply reachable_valid|by apply Hd]. }
  unfold backup_directory. destruct (negb _); [done|].
  destruct (resolve_origin_node_id _ _ _ _ _ _ _ file) as [[origin|e] file']; cbn [mbind res_bind]; [|done].
  destruct (build_backup_fast_path_policy _ _ _ _ _ _ _ _ _ _) as [policy|e] eqn:Ep; cbn [mbind res_bind]; [|done].
  specialize (Hran _ _ Ep). apply built_policy in Ep.
  pose proof (backup_snapshot_spec env policy (bo_safe_mode o)
    (normalize_worker_count (be_cpu_count env) (bo_num_threads o)) origin c Hreach) as H.
  destruct (backup_snapshot _ _ _ _ _ _) as [[sid|e] s']; destruct H as [Hsteps H]; cbn [snd];
    destruct (csteps_ok _ _ Hwf Hsteps) as [Hwf' Hkeep]; intros h Hh.
  - destruct H as (_ & Hfresh & (row & Hsn & Hst & _) & ids & Hrec & _ & Honly).
    pose proof Hh as Hh'. unfold all_reachable_chunk_hashes in Hh'. rewrite elem_of_order_by_hash, elem_of_joined in Hh'.
    destruct Hh' as (id & it & rid & rc & Hi & Hl & Ht & Hr & Hrc & ->).
    apply snapshot_in_true in Hl as (row' & Hrow' & Hst'%list_elem_of_singleton). rewrite Hsn in Hrow'.
    destruct (decide (it_snapshot_id it = sid)) as [E|E].
    + destruct (Honly id it Hi E) as [[i Hid]%list_elem_of_lookup _].
      destruct (Forall2_lookup_l _ _ _ _ _ Hrec Hid) as (e & _ & He).
      eapply (recorded_available env policy (bo_safe_mode o) s0 s1 c (bk_db s') sid); try done.
      intros p Hp. rewrite Hsn, lookup_insert_ne by lia. done.
    + rewrite lookup_insert_ne in Hrow' by done. apply Hd1.
      by apply (reachable_before c (bk_db s') (it_snapshot_id it) row' id it rid rc).
  - apply Hd1, (reachable_old c (bk_db s')); [done..| |done].
    destruct H as [E|(sid & row & _ & E & Hst)]; [by left|]. right. exists sid, row. split; [exact E|]. by rewrite Hst.
Qed.
End safe.

(** ** Witness *)

Definition small_file : bytes := [Byte.x41; Byte.x42].
Definition small_worker : res WorkerResult * WorkerState :=
  process_file_worker (u "/cas") toy_blake3 (λ b, b) (λ _, []) small_chunker (quiet_worker small_file)
    true false false 1 None fresh_worker_state.

Lemma small_worker_ran :
  workers_ran (u "/cas") toy_blake3 (λ b, b) Ok (λ _, []) small_chunker (λ _, False)
    (example_backup_env small_worker.1 small_worker.1)
    {| bp_desired_rf := 1; bp_fast_local_enabled := true; bp_fast_remote_enabled := false; bp_placement_epoch := None |}
    false fresh_worker_state small_worker.2.
Proof.
  assert (wstep (u "/cas") toy_blake3 Ok (λ _, False) fresh_worker_state small_worker.2) as Hstep.
  { pose proof (worker_spec (u "/cas") toy_blake3 (λ b, b) Ok (λ _, []) small_chunker
      ltac:(done) (λ x, repeat_length _ 32) (λ _, False) true false false 1 None example_planner (quiet_worker small_file)
      fresh_worker_state ltac:(lia) eq_refl (quiet_worker_civil example_planner _ eq_refl eq_refl) fresh_index_sound
      (empty_store_ok _ _)) as H.
    fold small_worker in H. destruct small_worker as [r s']. destruct H as (H1 & H2 & H3 & _).
    by split; [split|]. }
  split; [done|]. intros f out Hout. exists example_planner, (quiet_worker small_file), fresh_worker_state, small_worker.2.
  split; [done|]. split; [by apply quiet_worker_civil|]. split; [reflexivity|]. split; [reflexivity|].
  assert (small_worker.1 = Ok out) as <-; [|apply surjective_pairing].
  revert Hout. cbn. by case_bool_decide.
Qed.

Example small_run_complete :
  let c := (backup_directory toy_blake3 (example_backup_env small_worker.1 small_worker.1) example_options (None, empty_catalog)).2.2 in
  length (all_reachable_chunk_hashes c) = 1.
Proof. by vm_compute. Qed.

Lemma backup_keeps_durable_witness :
  let c := (backup_directory toy_blake3 (example_backup_env small_worker.1 small_worker.1) example_options (None, empty_catalog)).2.2 in
  durable (u "/cas") toy_blake3 Ok (λ _, False) c (wk_cas small_worker.2).
Proof.
  apply (backup_keeps_durable (u "/cas") toy_blake3 (λ b, b) Ok (λ _, []) small_chunker ltac:(done)
    (λ x, repeat_length _ 32) (λ _, False) (example_backup_env small_worker.1 small_worker.1) example_options None empty_catalog
    fresh_worker_state small_worker.2).
  - apply rtc_refl.
  - apply fresh_index_sound.
  - apply empty_store_ok.
  - intros h Hh. vm_compute in Hh. by inversion Hh.
  - intros origin policy Hp. destruct (strip origin) as [|x l] eqn:E.
    { revert Hp. unfold build_backup_fast_path_policy. cbn -[strip]. by rewrite E. }
    assert (policy = {| bp_desired_rf := 1; bp_fast_local_enabled := true; bp_fast_remote_enabled := false;
      bp_placement_epoch := None |}) as ->; [|exact small_worker_ran].
    revert Hp. unfold build_backup_fast_path_policy. cbn -[strip]. rewrite E. cbn. congruence.
  - exact (proj1 small_worker_ran).
Defined.
