(* ===== verification/RestoreFetch.v ===== *)
(** * Reading chunks for a restore

    [restore/fetch.py], [restore/remote_client.py] with the adaptive batches of
    [rpc/p2p_storage_client.py], and [restore/prefetcher.py]: every chunk of a recipe is read
    from the local store, the custody store of the node, the members that should hold a
    replica, or from erasure-coded packs, and checked before it is used. The texts of errors
    are not modelled. *)

From S2P Require Import Prelude PyStr Common Heapq Hrw Cluster Protection Catalog Cas StorageNode.

(** ** models.py *)

(** The counters of [RestoreRunStats]. *)
Inductive RestoreCounter :=
  | processed_items | successful_items | directories_created | files_restored | files_failed
  | chunks_requested | chunks_from_local_cas | chunks_from_local_p2p_cas
  | chunks_from_remote_replication | chunks_from_ec | chunks_failed | remote_chunks_corrupt
  | ec_recovery_failures | files_reused | files_resumed | chunks_reused | bytes_reused | bytes_written.

#[export] Instance RestoreCounter_eq_dec : EqDecision RestoreCounter.
Proof. solve_decision. Defined.

Notation RestoreRunStats := (RestoreCounter → Z).

Definition no_restore_stats : RestoreRunStats := λ _, 0%Z.
Definition add_stat (c : RestoreCounter) (n : Z) (st : RestoreRunStats) : RestoreRunStats := λ c',
  if bool_decide (c = c') then (st c' + n)%Z else st c'.

(** ** remote_client.py *)

(** The answer to one call. *)
Inductive call_outcome (A : Type) :=
  | Answered (a : A)
  | MessageTooLarge
  | CallFailed.
Arguments Answered {A} a.
Arguments MessageTooLarge {A}.
Arguments CallFailed {A}.

(** [run_adaptive_batch_call]: a batch whose answer is too large is split in two. A batch of
    [n] items is split less than [n] times in depth. *)
Fixpoint run_adaptive_batch_call {K V} `{Countable K} (call_once : list K → call_outcome (gmap K V)) (fuel : nat)
    (items : list K) : call_outcome (gmap K V) :=
  match call_once items with
  | Answered m => Answered m
  | CallFailed => CallFailed
  | MessageTooLarge =>
      if (1 <? length items)%nat then
        match fuel with
        | O => CallFailed
        | S fuel' =>
            let mid := Nat.max 1 (length items / 2) in
            match run_adaptive_batch_call call_once fuel' (take mid items) with
            | Answered left_ =>
                match run_adaptive_batch_call call_once fuel' (drop mid items) with
                | Answered right_ => Answered (right_ ∪ left_)
                | e => e
                end
            | e => e
            end
        end
      else MessageTooLarge
  end.

(** [_retrieve_chunk_batch_once]: the last result of a hash counts, a hash without result is
    an error. *)
Definition retrieve_chunk_batch_once (call : list pystr → call_outcome (list RetrievedChunk))
    (chunk_hashes : list pystr) : call_outcome (gmap pystr RetrievedChunk) :=
  match chunk_hashes with
  | [] => Answered ∅
  | _ =>
      match call chunk_hashes with
      | Answered results =>
          let found := fold_left (λ m item,
            if bool_decide (rt_chunk_hash item = []) then m else <[rt_chunk_hash item := item]> m) results ∅ in
          Answered (fold_left (λ m h,
            if bool_decide (is_Some (m !! h)) then m
            else <[h := {| rt_chunk_hash := h; rt_status := RETRIEVE_STATUS_ERROR; rt_chunk_data := [];
                           rt_detail := u "sin resultado en RetrieveChunkBatch" |}]> m) chunk_hashes found)
      | MessageTooLarge => MessageTooLarge
      | CallFailed => CallFailed
      end
  end.

Definition retrieve_chunk_batch (call : list pystr → call_outcome (list RetrievedChunk))
    (chunk_hashes : list pystr) : call_outcome (gmap pystr RetrievedChunk) :=
  let ordered_hashes := ordered_unique chunk_hashes in
  match ordered_hashes with
  | [] => Answered ∅
  | _ => run_adaptive_batch_call (retrieve_chunk_batch_once call) (length ordered_hashes) ordered_hashes
  end.

(** ** fetch.py *)

(** The local store, the counters, the view of the cluster once it is known, and the number
    of the next event, by which the surroundings are asked. *)
Record FetchState := {
  ft_repo : CasState; ft_stats : RestoreRunStats; ft_cluster : option ClusterView; ft_step : nat }.

(** What surrounds the run, at each event: which files cannot be read, what others do to the
    local store, the custody store if there is one, the surroundings of a write, the answer
    of the seed, the answers of the members, and in which order a round of calls completes. *)
Record FetchEnv := {
  fe_read_fails : nat → pystr → bool;
  fe_others : nat → CasState → CasState;
  fe_p2p : option (nat → CasState);
  fe_p2p_read_fails : nat → pystr → bool;
  fe_cas : nat → CasEnv;
  fe_resolve : nat → res ClusterView;
  fe_retrieve : nat → pystr → list pystr → call_outcome (list RetrievedChunk);
  fe_order : nat → list (pystr * list pystr) → list (pystr * list pystr) }.

Definition set_repo (r : CasState) (s : FetchState) : FetchState := {|
  ft_repo := r; ft_stats := ft_stats s; ft_cluster := ft_cluster s; ft_step := ft_step s |}.
Definition set_cluster (v : ClusterView) (s : FetchState) : FetchState := {|
  ft_repo := ft_repo s; ft_stats := ft_stats s; ft_cluster := Some v; ft_step := ft_step s |}.
Definition bump (c : RestoreCounter) (n : Z) : SM FetchState unit := smodify (λ s, {|
  ft_repo := ft_repo s; ft_stats := add_stat c n (ft_stats s); ft_cluster := ft_cluster s; ft_step := ft_step s |}).

(** The number of the event that happens now. *)
Definition tick : SM FetchState nat := λ s, (Ok (ft_step s), {|
  ft_repo := ft_repo s; ft_stats := ft_stats s; ft_cluster := ft_cluster s; ft_step := S (ft_step s) |}).

Definition on_repo {A} (m : SM CasState A) : SM FetchState A := λ s,
  let '(r, c) := m (ft_repo s) in (r, set_repo c s).

(** The configuration of the service: [rf], the origin, the token, the largest chunk,
    whether a resolver and a pool exist, and [remote_chunk_recovery]. *)
Record FetchConfig := {
  fc_rf : Z; fc_origin_node_id : pystr; fc_cluster_token : pystr; fc_max_chunk_size : Z;
  fc_remote_available : bool; fc_remote_chunk_recovery : bool }.

(** What is known about each requested hash: its data or the error. *)
Notation fetched := (gmap pystr (res bytes)).

(** [isinstance(results.get(h), Exception)] *)
Definition is_failed (results : fetched) (h : pystr) : bool :=
  match results !! h with Some (Err _) => true | _ => false end.

(** No source has these. *)
Definition unavailable (hs : list pystr) : fetched := list_to_map ((λ h, (h, Err ChunkUnavailableError)) <$> hs).

(** [requested_hashes.count(h)] *)
Definition multiplicity (requested : list pystr) (h : pystr) : Z :=
  Z.of_nat (length (filter (λ k, k = h) requested)).

Section fetch.
Context (data_folder p2p_folder : pystr) (blake3 : bytes → bytes).
Context (decompress : bytes → res bytes) (decompress_max : Z → bytes → res bytes).
Context (env : FetchEnv) (cfg : FetchConfig).
(** [ec_recovery_service.recover_many_raw_chunks], if there is a service. *)
Context (ec_recovery : option (list pystr → SM FetchState fetched)).

(** [_validate_compressed_chunk] *)
Definition validate_compressed_chunk (chunk_hash : pystr) (compressed_data : bytes) : res bytes :=
  match decompress_max (fc_max_chunk_size cfg) compressed_data with
  | Err _ => Err RestoreDataError
  | Ok raw_data =>
      if bool_decide (blake3_hex_digest blake3 raw_data ≠ chunk_hash) then Err RestoreDataError
      else Ok raw_data
  end.

(** [repo.put_compressed] whose failure is only noted. *)
Definition cache_chunk (chunk_hash : pystr) (compressed_data : bytes) : SM FetchState unit :=
  n ← tick;
  scatch (on_repo (put_compressed data_folder (fe_cas env n) chunk_hash compressed_data);; mret ())
    (λ _, Some (mret ())).

(** One turn of the loop over the local stores. *)
Definition fetch_local (requested : list pystr) (chunk_hash : pystr) : SM FetchState (option bytes) :=
  n ← tick;
  smodify (λ s, set_repo (fe_others env n (ft_repo s)) s);;
  s ← sget;
  match get data_folder blake3 decompress (ft_repo s) (fe_read_fails env n chunk_hash) chunk_hash with
  | Ok raw_data =>
      bump chunks_from_local_cas (multiplicity requested chunk_hash);; mret (Some raw_data)
  | Err _ =>
      match fe_p2p env with
      | None => mret None
      | Some p2p =>
          match
            compressed_data ← get_compressed p2p_folder (p2p n) (fe_p2p_read_fails env n chunk_hash) chunk_hash;
            raw_data ← validate_compressed_chunk chunk_hash compressed_data;
            Ok (compressed_data, raw_data)
          with
          | Err _ => mret None
          | Ok (compressed_data, raw_data) =>
              cache_chunk chunk_hash compressed_data;;
              bump chunks_from_local_p2p_cas (multiplicity requested chunk_hash);;
              mret (Some raw_data)
          end
      end
  end.

Definition fetch_all_local (requested hashes : list pystr) : SM FetchState (fetched * list pystr) :=
  sfold (λ '(results, missing) h,
      r ← fetch_local requested h;
      mret match r with
           | Some raw => (<[h := Ok raw]> results, missing)
           | None => (results, missing ++ [h])
           end)
    hashes (∅, []).

(** [LazyClusterResolver.get_cluster] *)
Definition get_cluster : SM FetchState ClusterView :=
  s ← sget;
  match ft_cluster s with
  | Some cluster => mret cluster
  | None =>
      n ← tick;
      cluster ← slift (fe_resolve env n);
      smodify (set_cluster cluster);;
      mret cluster
  end.

(** The variables of the rounds: what was recovered, and the hashes still to find. *)
Notation round_vars := (fetched * list pystr)%type.

(** What is done with the result of one hash. *)
Definition take_result (requested : list pystr) (batch_results : gmap pystr RetrievedChunk)
    (v : round_vars) (chunk_hash : pystr) : SM FetchState round_vars :=
  let '(result_map, unresolved) := v in
  if bool_decide (chunk_hash ∉ unresolved) then mret v
  else match batch_results !! chunk_hash with
  | None => mret v
  | Some item =>
      if negb (rt_status item =? RETRIEVE_STATUS_FOUND)%Z then mret v
      else match validate_compressed_chunk chunk_hash (rt_chunk_data item) with
      | Err _ => bump remote_chunks_corrupt 1;; mret v
      | Ok raw_data =>
          cache_chunk chunk_hash (rt_chunk_data item);;
          bump chunks_from_remote_replication (multiplicity requested chunk_hash);;
          mret (<[chunk_hash := Ok raw_data]> result_map, filter (λ h, h ≠ chunk_hash) unresolved)
      end
  end.

Definition take_group (requested : list pystr) (v : round_vars) (group : pystr * list pystr)
  : SM FetchState round_vars :=
  let '(address, group_hashes) := group in
  n ← tick;
  match retrieve_chunk_batch (fe_retrieve env n address) group_hashes with
  | Answered batch_results => sfold (take_result requested batch_results) group_hashes v
  | _ => mret v
  end.

(** The calls of a round: the members of rank [rank], by address. *)
Definition round_groups (targets : pystr → list ClusterMember) (rank : nat) (unresolved : list pystr)
  : list (pystr * list pystr) :=
  let address h := cm_address <$> targets h !! rank in
  (λ a, (a, filter (λ h, address h = Some a) unresolved)) <$> ordered_unique (omap address unresolved).

(** [for rank in range(max_depth)] *)
Fixpoint rounds (requested : list pystr) (targets : pystr → list ClusterMember) (ranks : list nat)
    (v : round_vars) : SM FetchState round_vars :=
  match ranks with
  | [] => mret v
  | rank :: ranks' =>
      match round_groups targets rank v.2 with
      | [] => mret v
      | groups =>
          n ← tick;
          v' ← sfold (take_group requested) (fe_order env n groups) v;
          rounds requested targets ranks' v'
      end
  end.

(** [_fetch_missing_many_from_remote] *)
Definition fetch_missing_many_from_remote (requested missing_hashes : list pystr) : SM FetchState fetched :=
  if (fc_rf cfg =? 0)%Z || negb (fc_remote_available cfg) then mret (unavailable missing_hashes)
  else
    cluster ← get_cluster;
    let targets h := hrw_targets_excluding blake3 cluster h (fc_rf cfg) (fc_cluster_token cfg)
                       [fc_origin_node_id cfg] in
    let without := filter (λ h, targets h = []) missing_hashes in
    let unresolved := filter (λ h, targets h ≠ []) missing_hashes in
    let max_depth := fold_right Nat.max 0 ((λ h, length (targets h)) <$> unresolved) in
    '(result_map, unresolved) ← rounds requested targets (seq 0 max_depth) (unavailable without, unresolved);
    mret (unavailable unresolved ∪ result_map).

(** What is done with the answer of the erasure service for one hash. *)
Definition take_ec (requested : list pystr) (ec_results remote_results : fetched) (h : pystr)
  : SM FetchState fetched :=
  match ec_results !! h with
  | None => mret remote_results
  | Some (Ok raw) => bump chunks_from_ec (multiplicity requested h);; mret (<[h := Ok raw]> remote_results)
  | Some (Err _) =>
      bump ec_recovery_failures (multiplicity requested h);;
      mret (<[h := Err ChunkUnavailableError]> remote_results)
  end.

(** [_recover_unresolved_with_ec] *)
Definition recover_unresolved_with_ec (recover : list pystr → SM FetchState fetched)
    (requested missing_hashes : list pystr) (remote_results : fetched) : SM FetchState fetched :=
  let unresolved := filter (λ h, is_failed remote_results h = true) missing_hashes in
  match unresolved with
  | [] => mret remote_results
  | _ =>
      ec_results ← recover unresolved;
      sfold (take_ec requested ec_results)
        unresolved remote_results
  end.

(** [fetch_many_raw_chunks] *)
Definition fetch_many_raw_chunks (requested : list pystr) : SM FetchState fetched :=
  bump chunks_requested (Z.of_nat (length requested));;
  '(results, missing_hashes) ← fetch_all_local requested (ordered_unique requested);
  match missing_hashes with
  | [] => mret results
  | _ =>
      remote_results ←
        (if fc_remote_chunk_recovery cfg then fetch_missing_many_from_remote requested missing_hashes
         else mret (unavailable missing_hashes));
      remote_results ←
        match ec_recovery with
        | Some recover => recover_unresolved_with_ec recover requested missing_hashes remote_results
        | None => mret remote_results
        end;
      bump chunks_failed (foldr (λ h n,
        if is_failed remote_results h then multiplicity requested h + n else n)%Z 0%Z missing_hashes);;
      mret (remote_results ∪ results)
  end.
End fetch.

(** ** What is known of the parts *)

Notation genuine blake3 m := (∀ h raw, m !! h = Some (Ok raw) → blake3_hex_digest blake3 raw = h).

Definition weight (requested hs : list pystr) : Z := foldr (λ h n, multiplicity requested h + n)%Z 0%Z hs.

Lemma weight_app requested hs ks : weight requested (hs ++ ks) = (weight requested hs + weight requested ks)%Z.
Proof. induction hs as [|h hs IH]; cbn; [done|]. fold (weight requested (hs ++ ks)) (weight requested hs). lia. Qed.

Lemma weight_perm requested hs ks : hs ≡ₚ ks → weight requested hs = weight requested ks.
Proof.
  induction 1 as [|h hs ks _ IH|h h' hs|hs ks ls _ IH1 _ IH2]; [done| | |congruence];
    cbn [weight foldr]; [fold (weight requested hs) (weight requested ks)|]; lia.
Qed.

(** The list without an element it has once. *)
Lemma filter_ne_perm (h : pystr) hs : NoDup hs → h ∈ hs → hs ≡ₚ h :: filter (λ k, k ≠ h) hs.
Proof.
  intros Hnd Hin. apply NoDup_Permutation; [done| |].
  - constructor; [|by apply NoDup_filter]. intros [H _]%list_elem_of_filter. done.
  - intros k. rewrite elem_of_cons, list_elem_of_filter. destruct (decide (k = h)) as [->|]; naive_solver.
Qed.

Lemma weight_remove requested h hs :
  NoDup hs → h ∈ hs →
  weight requested hs = (multiplicity requested h + weight requested (filter (λ k, k ≠ h) hs))%Z.
Proof. intros Hnd Hin. by rewrite (weight_perm _ _ _ (filter_ne_perm h hs Hnd Hin)). Qed.

Lemma multiplicity_cons h requested k :
  multiplicity (h :: requested) k = ((if decide (h = k) then 1 else 0) + multiplicity requested k)%Z.
Proof. unfold multiplicity. rewrite filter_cons. case_decide; cbn [length]; lia. Qed.

Lemma weight_cons h requested ks :
  NoDup ks → weight (h :: requested) ks = ((if decide (h ∈ ks) then 1 else 0) + weight requested ks)%Z.
Proof.
  induction 1 as [|k ks Hk _ IH]; [done|]. cbn [weight foldr]. fold (weight (h :: requested) ks) (weight requested ks).
  rewrite multiplicity_cons, IH. repeat case_decide; set_solver by lia.
Qed.

(** Each request is counted once. *)
Lemma weight_requested requested : weight requested (ordered_unique requested) = Z.of_nat (length requested).
Proof.
  assert (∀ ks, NoDup ks → (∀ h, h ∈ requested → h ∈ ks) → weight requested ks = Z.of_nat (length requested)) as H.
  { induction requested as [|h hs IH]; intros ks Hnd Hin.
    - clear. unfold weight. induction ks as [|k ks IH]; [done|]. cbn [foldr]. by rewrite IH.
    - rewrite weight_cons, decide_True by (done || (apply Hin; by left)).
      rewrite (IH ks Hnd); [cbn [length]; lia|]. intros k Hk. apply Hin. by right. }
  apply H; [apply NoDup_ordered_unique|]. intros h. by rewrite elem_of_ordered_unique.
Qed.

(** What is still to be accounted for. *)
Definition balance (st : RestoreRunStats) : Z :=
  (st chunks_requested - st chunks_from_local_cas - st chunks_from_local_p2p_cas
   - st chunks_from_remote_replication - st chunks_from_ec - st chunks_failed)%Z.

Section adaptive.
Context {K V} `{HK : Countable K} (h : K) (P : V → Prop) (D : K → Prop).

(** The answer to a batch: only for its hashes, and the one for [h] satisfies [P]. *)
Definition good_answer (batch : list K) (r : call_outcome (gmap K V)) : Prop :=
  match r with
  | Answered m => (∀ k, is_Some (m !! k) → k ∈ batch) ∧ (h ∈ batch → ∃ x, m !! h = Some x ∧ P x)
  | _ => False
  end.

(** A server that answers every batch that is not too large: splitting ends with an answer. *)
Lemma adaptive_answers call_once fuel items :
  (∀ batch, Forall D batch → good_answer batch (call_once batch) ∨ (call_once batch = MessageTooLarge ∧ 1 < length batch)) →
  length items ≤ fuel → NoDup items → Forall D items →
  good_answer items (run_adaptive_batch_call call_once fuel items).
Proof.
  intros Hcall. revert items. induction fuel as [|fuel IH]; intros items Hlen Hnd HD.
  - destruct items; [|cbn in Hlen; lia]. cbn. destruct (Hcall []) as [H|[_ H]]; [done| |cbn in H; lia].
    by destruct (call_once []).
  - cbn [run_adaptive_batch_call]. destruct (Hcall items HD) as [H|[-> H]]; [by destruct (call_once items)|].
    apply Nat.ltb_lt in H as Hb. rewrite Hb. set (mid := Nat.max 1 (length items / 2)).
    assert (mid < length items) as Hmid.
    { unfold mid. pose proof (Nat.div_lt (length items) 2). lia. }
    assert (1 ≤ mid) as Hmid1 by (unfold mid; lia).
    rewrite <-(take_drop mid items) in Hnd, HD. apply NoDup_app in Hnd as (N1 & Hdis & N2). apply Forall_app in HD as [D1 D2].
    pose proof (IH (take mid items) ltac:(rewrite length_take; lia) N1 D1) as Hl.
    pose proof (IH (drop mid items) ltac:(rewrite length_drop; lia) N2 D2) as Hr.
    destruct (run_adaptive_batch_call _ _ (take mid items)) as [l| |]; [|done..].
    destruct (run_adaptive_batch_call _ _ (drop mid items)) as [r| |]; [|done..].
    destruct Hl as [L1 L2], Hr as [R1 R2]. split.
    + intros k [x [Hk|[_ Hk]]%lookup_union_Some_raw]; rewrite <-(take_drop mid items); apply elem_of_app; eauto.
    + rewrite <-(take_drop mid items) at 1. intros [Hin|Hin]%elem_of_app.
      * destruct (L2 Hin) as (x & Hx & HP). exists x. split; [|done]. apply lookup_union_Some_raw. right.
        split; [|done]. apply eq_None_not_Some. intros Hk. by apply (Hdis h), R1.
      * destruct (R2 Hin) as (x & Hx & HP). exists x. split; [|done]. apply lookup_union_Some_raw. by left.
Qed.

End adaptive.

Section serving.
Context (h : pystr) (P : RetrievedChunk → Prop).
Notation good_answer := (good_answer h P).

(** What a server does that answers truthfully and has [h]. *)
Definition serves (call : list pystr → call_outcome (list RetrievedChunk)) : Prop :=
  ∀ batch, match call batch with
  | Answered results =>
      (∀ x, x ∈ results → rt_chunk_hash x ∈ batch) ∧ (h ∈ batch → ∃ x, x ∈ results ∧ rt_chunk_hash x = h)
      ∧ (∀ x, x ∈ results → rt_chunk_hash x = h → P x)
  | MessageTooLarge => 1 < length batch
  | CallFailed => False
  end.

Lemma found_results (results : list RetrievedChunk) (m0 : gmap pystr RetrievedChunk) :
  let m := fold_left (λ m item, if bool_decide (rt_chunk_hash item = []) then m
                                else <[rt_chunk_hash item := item]> m) results m0 in
  (∀ k x, m !! k = Some x → m0 !! k = Some x ∨ (x ∈ results ∧ rt_chunk_hash x = k))
  ∧ (∀ x, x ∈ results → rt_chunk_hash x ≠ [] → is_Some (m !! rt_chunk_hash x))
  ∧ (∀ k, is_Some (m0 !! k) → is_Some (m !! k)).
Proof.
  revert m0. induction results as [|x l IH]; intros m0; cbn; [by split_and!; [left|intros x Hx; inversion Hx|]|].
  destruct (IH (if bool_decide (rt_chunk_hash x = []) then m0 else <[rt_chunk_hash x := x]> m0)) as (H1 & H2 & H3).
  split_and!.
  - intros k y Hy. destruct (H1 k y Hy) as [H|[H ?]]; [|right; split; [by right|done]].
    case_bool_decide; [by left|]. rewrite lookup_insert in H. case_decide; [|by left].
    injection H as <-. right. split; [by left|done].
  - intros y [->|Hy]%elem_of_cons Hn; [|by apply H2]. apply H3. rewrite bool_decide_false by done.
    rewrite lookup_insert_eq. by eexists.
  - intros k Hk. apply H3. case_bool_decide; [done|]. rewrite lookup_insert. case_decide; [by eexists|done].
Qed.

Lemma filled_results {K V} `{HK : Countable K} (d : K → V) (hs : list K) (m0 : gmap K V) :
  let m := fold_left (λ m k, if bool_decide (is_Some (m !! k)) then m else <[k := d k]> m) hs m0 in
  (∀ k x, m0 !! k = Some x → m !! k = Some x) ∧ (∀ k, is_Some (m !! k) → is_Some (m0 !! k) ∨ k ∈ hs).
Proof.
  revert m0. induction hs as [|k0 hs IH]; intros m0; cbn; [by split; [|left]|].
  destruct (IH (if bool_decide (is_Some (m0 !! k0)) then m0 else <[k0 := d k0]> m0)) as (H1 & H2). split.
  - intros k x Hx. apply H1. case_bool_decide as Hs; [done|]. rewrite lookup_insert_ne; [done|].
    intros ->. apply Hs. by eexists.
  - intros k Hk. destruct (H2 k Hk) as [H|H]; [|right; by right]. case_bool_decide; [by left|].
    rewrite lookup_insert in H. case_decide; [subst; right; by left|by left].
Qed.

Lemma once_served call batch :
  h ≠ [] → serves call →
  good_answer batch (retrieve_chunk_batch_once call batch)
  ∨ (retrieve_chunk_batch_once call batch = MessageTooLarge ∧ 1 < length batch).
Proof.
  intros Hne Hs. unfold retrieve_chunk_batch_once. destruct batch as [|b bs].
  { left. split; [by intros k [? [=]]|by intros Hx; inversion Hx]. }
  specialize (Hs (b :: bs)). destruct (call (b :: bs)) as [results| |]; [left|by right|done].
  destruct Hs as (S1 & S2 & S3). destruct (found_results results ∅) as (F1 & F2 & _).
  set (found := fold_left _ results ∅) in *.
  destruct (filled_results (λ k, {| rt_chunk_hash := k; rt_status := RETRIEVE_STATUS_ERROR; rt_chunk_data := [];
    rt_detail := u "sin resultado en RetrieveChunkBatch" |}) (b :: bs) found) as [K1 K2]. split.
  - intros k Hk. destruct (K2 k Hk) as [[x Hx]|?]; [|done]. destruct (F1 k x Hx) as [Hy|[Hx' <-]]; [|by apply S1].
    by rewrite lookup_empty in Hy.
  - intros Hb. destruct (S2 Hb) as (x & Hx & Ex). destruct (F2 x Hx) as [y Hy]; [by rewrite Ex|]. rewrite Ex in Hy.
    exists y. split; [by apply K1|]. destruct (F1 h y Hy) as [Hz|[Hz Ez]]; [by rewrite lookup_empty in Hz|by apply S3].
Qed.

Lemma batch_served call hashes :
  h ≠ [] → serves call → h ∈ hashes →
  ∃ m x, retrieve_chunk_batch call hashes = Answered m ∧ m !! h = Some x ∧ P x.
Proof.
  intros Hne Hs Hin. unfold retrieve_chunk_batch.
  assert (h ∈ ordered_unique hashes) as Hin' by by apply elem_of_ordered_unique.
  destruct (ordered_unique hashes) as [|k0 ks] eqn:E; [by inversion Hin'|]. rewrite <-E in *.
  pose proof (adaptive_answers h P (λ _, True) (retrieve_chunk_batch_once call) (length (ordered_unique hashes))
    (ordered_unique hashes) (λ batch _, once_served call batch Hne Hs) (Nat.le_refl _) (NoDup_ordered_unique _) (Forall_true _ _ (λ _, I))) as H.
  destruct (run_adaptive_batch_call _ _ _) as [m| |]; [|done..].
  destruct H as [_ H]. destruct (H Hin') as (x & ? & ?). by exists m, x.
Qed.
End serving.

(** How a counter enters the balance. *)
Definition balance_sign (c : RestoreCounter) : Z :=
  match c with
  | chunks_requested => 1
  | chunks_from_local_cas | chunks_from_local_p2p_cas | chunks_from_remote_replication | chunks_from_ec
  | chunks_failed => -1
  | _ => 0
  end.

Lemma balance_add c n st : balance (add_stat c n st) = (balance st + balance_sign c * n)%Z.
Proof. unfold balance, add_stat. destruct c; repeat (case_bool_decide; try congruence); cbn [balance_sign]; lia. Qed.

Section specs.
Context (data_folder p2p_folder : pystr) (blake3 : bytes → bytes).
Context (decompress : bytes → res bytes) (decompress_max : Z → bytes → res bytes).
Context (env : FetchEnv) (cfg : FetchConfig).

Notation fetch_local := (fetch_local data_folder p2p_folder blake3 decompress decompress_max env cfg).
Notation fetch_all_local := (fetch_all_local data_folder p2p_folder blake3 decompress decompress_max env cfg).
Notation validate := (validate_compressed_chunk blake3 decompress_max cfg).
Notation cache_chunk := (cache_chunk data_folder env).
Notation take_result := (take_result data_folder blake3 decompress_max env cfg).
Notation take_group := (take_group data_folder blake3 decompress_max env cfg).
Notation rounds := (rounds data_folder blake3 decompress_max env cfg).

Lemma validate_genuine h d raw : validate h d = Ok raw → blake3_hex_digest blake3 raw = h.
Proof.
  unfold validate_compressed_chunk. destruct (decompress_max _ d); [|done].
  case_bool_decide as H; [done|]. by intros [= <-].
Qed.

(** A chunk is in the local store, readable, and nobody disturbs it. *)
Record held_locally (h : pystr) : Prop := {
  hl_reads n : fe_read_fails env n h = false;
  hl_others n s : store_step data_folder (λ k d, k = h → content_ok blake3 decompress k d) s (fe_others env n s);
  hl_writers n : good_neighbours data_folder (λ k d, k = h → content_ok blake3 decompress k d) (fe_cas env n) }.

(** The custody store of the node has the chunk, readable, whenever it is asked. *)
Definition held_in_custody (h : pystr) : Prop :=
  ∃ p2p, fe_p2p env = Some p2p ∧ ∀ n, ∃ c,
    get_compressed p2p_folder (p2p n) (fe_p2p_read_fails env n h) h = Ok c ∧ is_ok (validate h c) = true.

Definition on_disk (h : pystr) (r : CasState) : Prop :=
  is_Some (cas_files r !! chunk_path data_folder h)
  ∧ store_ok data_folder (λ k d, k = h → content_ok blake3 decompress k d) r.

Lemma on_disk_step h r r' :
  store_step data_folder (λ k d, k = h → content_ok blake3 decompress k d) r r' → on_disk h r → on_disk h r'.
Proof. intros [Hg Hk] [H1 H2]. split; [by apply Hg|by apply Hk]. Qed.

(** Caching never raises; it disturbs no other chunk. *)
Lemma cache_chunk_spec k d s :
  ∃ s', cache_chunk k d s = (Ok (), s') ∧ ft_stats s' = ft_stats s ∧ ft_cluster s' = ft_cluster s
    ∧ ∀ h, held_locally h → h ≠ k → is_valid_blake3_hex k = true → on_disk h (ft_repo s) → on_disk h (ft_repo s').
Proof.
  unfold cache_chunk, on_repo. rewrite sm_bind_spec. cbn [tick]. unfold scatch. rewrite sm_bind_spec.
  cbn [ft_repo]. unfold put_compressed.
  pose proof (λ h Hh (Hne : h ≠ k) Hv, write_once_spec data_folder (λ k d, k = h → content_ok blake3 decompress k d)
    (fe_cas env (ft_step s)) k d (hl_writers h Hh (ft_step s)) Hv
    (λ E : k = h, False_ind _ (Hne (eq_sym E))) (ft_repo s)) as Hw.
  destruct (write_once _ _ _ _ _) as [[b|e] r]; (eexists; split; [reflexivity|]); cbn;
    (split_and!; [done..|]); intros h Hh Hne Hv Hd; specialize (Hw h Hh Hne Hv) as [Hw _]; by eapply on_disk_step.
Qed.

Lemma fetch_local_spec requested h s :
  ∃ r s', fetch_local requested h s = (Ok r, s') ∧ ft_cluster s' = ft_cluster s
    ∧ (∀ raw, r = Some raw → blake3_hex_digest blake3 raw = h)
    ∧ balance (ft_stats s')
      = (balance (ft_stats s) - match r with Some _ => multiplicity requested h | None => 0 end)%Z
    ∧ ∀ k, held_locally k → on_disk k (ft_repo s) → is_valid_blake3_hex k = true → is_valid_blake3_hex h = true →
        (k = h → is_Some r) ∧ on_disk k (ft_repo s').
Proof.
  unfold fetch_local. rewrite sm_bind_spec. cbn [tick]. rewrite sm_bind_spec. cbn [smodify]. rewrite sm_bind_spec.
  cbn [sget]. set (s1 := set_repo _ _). assert (ft_stats s1 = ft_stats s) as Es1 by done.
  assert (∀ k, held_locally k → on_disk k (ft_repo s) → on_disk k (ft_repo s1)) as Hd1.
  { intros k Hk. apply on_disk_step, hl_others, Hk. }
  destruct (get _ _ _ _ _ h) as [raw|e] eqn:Eg.
  { rewrite sm_bind_spec. cbn [bump smodify]. do 2 eexists. split; [reflexivity|]. cbn [ft_cluster ft_stats].
    split_and!; [done| | |].
    - intros raw' [= <-]. unfold get, decompress_and_validate in Eg. apply bind_Ok in Eg as (c & _ & Eg).
      destruct (decompress c) as [x|[]]; try done. revert Eg. case_bool_decide as Hd; [done|]. by intros [= <-].
    - rewrite balance_add. rewrite Es1. cbn [balance_sign]. lia.
    - intros k Hk Hdk _ _. split; [by eexists|]. cbn. by apply Hd1. }
  assert (∀ k, held_locally k → on_disk k (ft_repo s) → is_valid_blake3_hex k = true → k ≠ h) as Hne.
  { intros k Hk Hdk Hv ->. destruct (Hd1 h Hk Hdk) as [[d Hd] Hok]. 
    destruct (get_content_ok blake3 decompress data_folder _ _ _ Hd (Hok _ _ Hv Hd eq_refl)) as (raw & E & _).
    rewrite (hl_reads h Hk) in Eg. congruence. }
  assert (∃ r s', (Ok None, s1) = (Ok r, s') ∧ ft_cluster s' = ft_cluster s
    ∧ (∀ raw, r = Some raw → blake3_hex_digest blake3 raw = h)
    ∧ balance (ft_stats s')
      = (balance (ft_stats s) - match r with Some _ => multiplicity requested h | None => 0 end)%Z
    ∧ ∀ k, held_locally k → on_disk k (ft_repo s) → is_valid_blake3_hex k = true → is_valid_blake3_hex h = true →
        (k = h → is_Some r) ∧ on_disk k (ft_repo s')) as Hnone.
  { do 2 eexists. split; [reflexivity|]. cbn. split_and!; [done|done|lia|].
    intros k Hk Hdk Hv _. split; [intros ->; by destruct (Hne h Hk Hdk Hv)|by apply Hd1]. }
  destruct (fe_p2p env) as [p2p|].
  2: exact Hnone.
  destruct (get_compressed _ _ _ h) as [c|]; cbn [mbind res_bind].
  2: exact Hnone.
  destruct (validate h c) as [raw|] eqn:Ev; cbn [mbind res_bind].
  2: exact Hnone.
  rewrite sm_bind_spec. destruct (cache_chunk_spec h c s1) as (s2 & -> & Est & Ecl & Hkeep).
  rewrite sm_bind_spec. cbn [bump smodify]. do 2 eexists. split; [reflexivity|]. cbn [ft_cluster ft_stats].
  split_and!; [by rewrite Ecl| | |].
  - intros raw' [= <-]. by eapply validate_genuine.
  - rewrite balance_add, Est, Es1. cbn [balance_sign]. lia.
  - intros k Hk Hdk Hv Hvh. split; [by eexists|]. cbn. by apply Hkeep; auto.
Qed.

(** The loop of [fetch_all_local], from any variables that do not have the hashes yet. *)
Notation local_step requested := (λ '((results, missing) : fetched * list pystr) h,
  r ← fetch_local requested h;
  mret match r with
       | Some raw => (<[h := Ok raw]> results, missing)
       | None => (results, missing ++ [h])
       end) (only parsing).

Lemma fetch_all_local_loop (requested hs : list pystr) (results0 : fetched) (missing0 : list pystr) s :
  NoDup hs → NoDup missing0 → (∀ k, k ∈ hs → k ∉ missing0 ∧ results0 !! k = None) →
  ∃ (results : fetched) missing s', sfold (local_step requested) hs (results0, missing0) s = (Ok (results, missing), s')
  ∧ ft_cluster s' = ft_cluster s ∧ NoDup missing
  ∧ (∀ k, k ∈ missing ↔ k ∈ missing0 ∨ (k ∈ hs ∧ results !! k = None))
  ∧ (∀ k v, results !! k = Some v → results0 !! k = Some v
       ∨ (k ∈ hs ∧ ∃ raw, v = Ok raw ∧ blake3_hex_digest blake3 raw = k))
  ∧ (∀ k, is_Some (results0 !! k) → is_Some (results !! k))
  ∧ (balance (ft_stats s') + weight requested hs + weight requested missing0
     = balance (ft_stats s) + weight requested missing)%Z
  ∧ ∀ k, k ∈ hs → held_locally k → on_disk k (ft_repo s) → Forall (λ h, is_valid_blake3_hex h = true) hs →
      is_Some (results !! k).
Proof.
  revert results0 missing0 s. induction hs as [|h hs IH]; intros results0 missing0 s Hnd Hnd0 Hfresh; cbn [sfold].
  { exists results0, missing0, s. split_and!; try done; [|by left|cbn; lia|intros k Hk; by inversion Hk].
    intros k. split; [by left|intros [?|[Hk _]]; [done|by inversion Hk]]. }
  apply NoDup_cons in Hnd as [Hh Hnd]. destruct (Hfresh h ltac:(by left)) as [Hm0 Hr0].
  destruct (fetch_local_spec requested h s) as (r & s1 & E & Hcl & Hg & Hb & Hl).
  rewrite sm_bind_spec, sm_bind_spec, E. cbn [mret sm_ret].
  assert (∀ k, k ∈ hs → k ≠ h) as Hne by (intros k Hk ->; done).
  destruct r as [raw|].
  - destruct (IH (<[h := Ok raw]> results0) missing0 s1 Hnd Hnd0) as (m & mis & s' & E' & H1 & H2 & H3 & H4 & H5 & H6 & H7).
    { intros k Hk. rewrite lookup_insert_ne by (intros <-; by destruct (Hne h Hk)). apply Hfresh. by right. }
    assert (is_Some (m !! h)) as Hmh by (apply H5; rewrite lookup_insert_eq; by eexists).
    exists m, mis, s'. split_and!; [done|congruence|done| | | | |].
    + intros k. rewrite H3, elem_of_cons. split; [naive_solver|].
      intros [?|[[->|?] Hn]]; [by left| |by right]. destruct Hmh as [? Hx]. congruence.
    + intros k v Hv. destruct (H4 k v Hv) as [Hx|[? ?]]; [|right; split; [by right|done]].
      rewrite lookup_insert in Hx. case_decide; [|by left]. subst k. injection Hx as <-.
      right. split; [by left|]. exists raw. auto.
    + intros k Hk. apply H5. rewrite lookup_insert. case_decide; [by eexists|done].
    + cbn [weight foldr]. fold (weight requested hs). lia.
    + intros k [->|Hk]%elem_of_cons Hkh Hd Hv; [done|]. apply Forall_cons in Hv as [Hv1 Hv2].
      apply H7; [done|done| |done]. rewrite Forall_forall in Hv2. by apply (Hl k Hkh Hd (Hv2 k Hk) Hv1).
  - destruct (IH results0 (missing0 ++ [h]) s1 Hnd) as (m & mis & s' & E' & H1 & H2 & H3 & H4 & H5 & H6 & H7).
    { apply NoDup_app. split_and!; [done| |apply NoDup_singleton]. intros k Hk ->%list_elem_of_singleton. done. }
    { intros k Hk. split; [|apply Hfresh; by right]. rewrite elem_of_app, list_elem_of_singleton.
      intros [Hx|Hx]; [by apply (Hfresh k ltac:(by right))|by apply (Hne k Hk)]. }
    assert (m !! h = None) as Hmh.
    { destruct (m !! h) as [v|] eqn:Em; [|done]. destruct (H4 h v Em) as [Hx|[Hx _]]; [congruence|done]. }
    exists m, mis, s'. split_and!; [done|congruence|done| | |done| |].
    + intros k. rewrite H3, elem_of_app, list_elem_of_singleton, elem_of_cons. naive_solver.
    + intros k v Hv. destruct (H4 k v Hv) as [Hx|[? ?]]; [by left|right; split; [by right|done]].
    + rewrite weight_app in H6. cbn [weight foldr] in H6 |- *. fold (weight requested hs). lia.
    + intros k [->|Hk]%elem_of_cons Hkh Hd Hv; apply Forall_cons in Hv as [Hv1 Hv2].
      * destruct (Hl h Hkh Hd Hv1 Hv1) as [Hx _]. by destruct (Hx eq_refl).
      * apply H7; [done|done| |done]. rewrite Forall_forall in Hv2. by apply (Hl k Hkh Hd (Hv2 k Hk) Hv1).
Qed.

(** The loop over the local stores: what was found is right, the rest is missing, and a
    chunk that is held locally is found. *)
Lemma fetch_all_local_spec requested hs s :
  NoDup hs →
  ∃ results missing s', fetch_all_local requested hs s = (Ok (results, missing), s')
    ∧ ft_cluster s' = ft_cluster s ∧ NoDup missing
    ∧ (∀ k, k ∈ missing → k ∈ hs) ∧ (∀ k, is_Some (results !! k) ↔ k ∈ hs ∧ k ∉ missing)
    ∧ (∀ k v, results !! k = Some v → ∃ raw, v = Ok raw ∧ blake3_hex_digest blake3 raw = k)
    ∧ (balance (ft_stats s') + weight requested hs = balance (ft_stats s) + weight requested missing)%Z
    ∧ ∀ k, k ∈ hs → held_locally k → on_disk k (ft_repo s) → Forall (λ h, is_valid_blake3_hex h = true) hs →
        k ∉ missing.
Proof.
  intros Hnd. unfold RestoreFetch.fetch_all_local.
  destruct (fetch_all_local_loop requested hs ∅ [] s Hnd ltac:(constructor)) as (m & mis & s' & E & H1 & H2 & H3 & H4 & H5 & H6 & H7).
  { intros k _. split; [intros Hk; by inversion Hk|apply lookup_empty]. }
  exists m, mis, s'. split_and!; try done.
  - intros k Hk. apply H3 in Hk as [Hk|[? _]]; [by inversion Hk|done].
  - intros k. rewrite H3. split.
    + intros [v Hv]. destruct (H4 k v Hv) as [Hx|[Hk _]]; [by rewrite lookup_empty in Hx|].
      split; [done|]. intros [Hx|[_ Hx]]; [by inversion Hx|congruence].
    + intros [Hk Hn]. destruct (m !! k) eqn:Em; [by eexists|]. destruct Hn. by right.
  - intros k v Hv. destruct (H4 k v Hv) as [Hx|[_ Hx]]; [by rewrite lookup_empty in Hx|done].
  - cbn [weight foldr] in H6. lia.
  - intros k Hk Hh Hd Hv. rewrite H3. intros [Hx|[_ Hx]]; [by inversion Hx|].
    destruct (H7 k Hk Hh Hd Hv) as [v Hv']. congruence.
Qed.

(** ** The rounds *)

(** What holds of the variables: [missing] is split into what has a result and what not. *)
Definition vars_ok (missing : list pystr) (v : fetched * list pystr) : Prop :=
  NoDup v.2 ∧ (∀ k, k ∈ v.2 → k ∈ missing) ∧ (∀ k, is_Some (v.1 !! k) ↔ k ∈ missing ∧ k ∉ v.2)
  ∧ genuine blake3 v.1.

(** Hashes only leave the unresolved ones, with their data, and are counted then. *)
Definition vars_step (requested missing : list pystr) (p q : (fetched * list pystr) * FetchState) : Prop :=
  vars_ok missing p.1 →
  vars_ok missing q.1 ∧ (∀ k, k ∈ q.1.2 → k ∈ p.1.2)
  ∧ (∀ k x, q.1.1 !! k = Some x → p.1.1 !! k = Some x ∨ (k ∈ p.1.2 ∧ is_ok x = true))
  ∧ (balance (ft_stats q.2) - weight requested q.1.2 = balance (ft_stats p.2) - weight requested p.1.2)%Z
  ∧ ft_cluster q.2 = ft_cluster p.2.

#[local] Instance vars_step_preorder requested missing : PreOrder (vars_step requested missing).
Proof.
  split; [by intros p Hp; split_and!; auto|]. intros p q r H1 H2 Hp.
  destruct (H1 Hp) as (A1 & A2 & A3 & A4 & A5). destruct (H2 A1) as (B1 & B2 & B3 & B4 & B5).
  split_and!; [done|auto| |lia|congruence].
  intros k x Hk. destruct (B3 k x Hk) as [Hk'|[Hk' Hx]]; [by apply A3|]. right. auto.
Qed.

(** The answer [x] settles [h]. *)
Definition settles (h : pystr) (x : RetrievedChunk) : Prop :=
  rt_status x = RETRIEVE_STATUS_FOUND ∧ is_ok (validate h (rt_chunk_data x)) = true.

Lemma take_result_spec requested missing batch v h s :
  ∃ v' s', take_result requested batch v h s = (Ok v', s') ∧ vars_step requested missing (v, s) (v', s')
    ∧ ((∃ x, batch !! h = Some x ∧ settles h x) → h ∉ v'.2).
Proof.
  destruct v as [m un]. unfold RestoreFetch.take_result. case_bool_decide as Hin.
  { exists (m, un), s. split_and!; [done|reflexivity|done]. }
  destruct (batch !! h) as [item|] eqn:Eb.
  2: { exists (m, un), s. split_and!; [done|reflexivity|]. by intros (x & [=] & _). }
  destruct (rt_status item =? RETRIEVE_STATUS_FOUND)%Z eqn:Est; cbn [negb].
  2: { exists (m, un), s. split_and!; [done|reflexivity|]. intros (x & [= <-] & Hx & _). lia. }
  destruct (validate h (rt_chunk_data item)) as [raw|e] eqn:Ev.
  - rewrite sm_bind_spec. destruct (cache_chunk_spec h (rt_chunk_data item) s) as (s1 & -> & Es & Ec & _).
    rewrite sm_bind_spec. cbn [bump smodify]. do 2 eexists. split; [reflexivity|]. cbn [fst snd ft_stats ft_cluster].
    split; [|intros _; cbn; rewrite list_elem_of_filter; naive_solver].
    intros (N & Hsub & Hdom & Hgen). cbn [fst snd] in *. split_and!; cbn [fst snd].
    + split_and!.
      * by apply NoDup_filter.
      * intros k [_ Hk]%list_elem_of_filter. auto.
      * intros k. cbn [fst snd]. rewrite list_elem_of_filter, lookup_insert. case_decide; [subst k|rewrite Hdom; naive_solver].
        split; [|by eexists]. intros _. split; [auto|naive_solver].
      * intros k raw'. cbn. rewrite lookup_insert. case_decide; [|apply Hgen]. intros [= <-]. subst k. by eapply validate_genuine.
    + intros k. rewrite list_elem_of_filter. naive_solver.
    + intros k x. rewrite lookup_insert. case_decide; [|by left]. intros [= <-]. subst k. right. by split.
    + cbn [ft_stats]. rewrite balance_add, Es, (weight_remove requested h un) by done. cbn [balance_sign]. lia.
    + cbn [ft_cluster]. exact Ec.
  - rewrite sm_bind_spec. cbn [bump smodify]. do 2 eexists. split; [reflexivity|]. split.
    + intros Hv. cbn [fst snd ft_stats ft_cluster]. split; [exact Hv|]. split; [done|]. split; [by left|].
      split; [|done]. rewrite balance_add. cbn [balance_sign]. lia.
    + intros (x & [= <-] & _ & Hx). by rewrite Ev in Hx.
Qed.

Lemma take_group_spec requested missing v address hashes s :
  ∃ v' s', take_group requested v (address, hashes) s = (Ok v', s') ∧ vars_step requested missing (v, s) (v', s')
    ∧ ∀ h, h ∈ hashes → h ≠ [] → (∀ n, serves h (settles h) (fe_retrieve env n address)) →
        vars_ok missing v → h ∉ v'.2.
Proof.
  unfold RestoreFetch.take_group. rewrite sm_bind_spec. cbn [tick].
  set (s1 := {| ft_repo := _; ft_stats := _; ft_cluster := _; ft_step := S _ |}).
  assert (vars_step requested missing (v, s) (v, s1)) as H01 by (intros Hv; split; [exact Hv|]; split_and!; auto).
  destruct (retrieve_chunk_batch _ _) as [m| |] eqn:Eb.
  - destruct (sfold_total (vars_step requested missing) (take_result requested m) hashes v s1) as (v' & s' & E & Hs).
    { intros x a t _. destruct (take_result_spec requested missing m a x t) as (a' & t' & ? & ? & _). by exists a', t'. }
    exists v', s'. split_and!; [done|by etransitivity|]. intros h Hh Hne Hserves Hv.
    destruct (batch_served h (settles h) _ hashes Hne (Hserves (ft_step s)) Hh) as (m' & x & Em & Hx & Hsettle).
    rewrite Eb in Em. injection Em as <-.
    destruct (sfold_reaches (vars_step requested missing) (vars_ok missing) (λ w, h ∉ w.2)
      (take_result requested m) hashes h v s1) as (v2 & s2 & E2 & _ & Hd); try done.
    + intros y a t _. destruct (take_result_spec requested missing m a y t) as (a' & t' & ? & ? & _). by exists a', t'.
    + intros p q Hpq Hp. by apply Hpq.
    + intros p q Hpq Hp Hn Hq. by apply Hn, (proj1 (proj2 (Hpq Hp))).
    + intros a t a' t' _ Et. destruct (take_result_spec requested missing m a h t) as (a2 & t2 & E2 & _ & Hd).
      rewrite Et in E2. injection E2 as <- <-. apply Hd. by exists x.
    + rewrite E in E2. by injection E2 as <- <-.
  - exists v, s1. split_and!; [done|done|]. intros h Hh Hne Hserves _.
    by destruct (batch_served h (settles h) _ hashes Hne (Hserves (ft_step s)) Hh) as (m' & x & Em & _); rewrite Eb in Em.
  - exists v, s1. split_and!; [done|done|]. intros h Hh Hne Hserves _.
    by destruct (batch_served h (settles h) _ hashes Hne (Hserves (ft_step s)) Hh) as (m' & x & Em & _); rewrite Eb in Em.
Qed.

(** The completion order of a round permutes its calls. *)
Definition fair_order : Prop := ∀ n gs, fe_order env n gs ≡ₚ gs.

Lemma elem_of_round_groups targets rank un h m :
  h ∈ un → targets h !! rank = Some m →
  ∃ hs, (cm_address m, hs) ∈ round_groups targets rank un ∧ h ∈ hs.
Proof.
  intros Hh Ht. unfold round_groups. set (address := λ h, cm_address <$> targets h !! rank).
  exists (filter (λ k, address k = Some (cm_address m)) un). split.
  - apply list_elem_of_fmap. exists (cm_address m). split; [done|]. apply elem_of_ordered_unique, list_elem_of_omap.
    exists h. split; [done|]. unfold address. by rewrite Ht.
  - apply list_elem_of_filter. split; [|done]. unfold address. by rewrite Ht.
Qed.

Lemma rounds_spec requested missing targets n r v s :
  ∃ v' s', rounds requested targets (seq r n) v s = (Ok v', s') ∧ vars_step requested missing (v, s) (v', s')
    ∧ (fair_order → vars_ok missing v → ∀ h i m, r ≤ i < r + n → targets h !! i = Some m → h ≠ [] →
       (∀ k, serves h (settles h) (fe_retrieve env k (cm_address m))) → h ∉ v'.2).
Proof.
  revert r v s. induction n as [|n IH]; intros r v s; cbn [RestoreFetch.rounds seq].
  { exists v, s. split_and!; [done|reflexivity|lia]. }
  assert (∀ h i m, r ≤ i → targets h !! i = Some m → h ∈ v.2 → round_groups targets r v.2 ≠ []) as Hbreak.
  { intros h i m Hi Ht Hh E. destruct (lookup_lt_is_Some_2 (targets h) r) as [m' Hm'].
    { apply lookup_lt_Some in Ht. lia. }
    destruct (elem_of_round_groups targets r v.2 h m' Hh Hm') as (hs & Hin & _). rewrite E in Hin. by inversion Hin. }
  destruct (round_groups targets r v.2) as [|g gs] eqn:Eg.
  { exists v, s. split_and!; [done|reflexivity|]. intros _ _ h i m Hi Ht _ _ Hh. by apply (Hbreak h i m); [lia|..]. }
  rewrite sm_bind_spec. cbn [tick]. set (s1 := {| ft_repo := _; ft_stats := _; ft_cluster := _; ft_step := S _ |}).
  assert (vars_step requested missing (v, s) (v, s1)) as H01 by (intros Hv; split; [exact Hv|]; split_and!; auto).
  set (order := fe_order env (ft_step s) (g :: gs)).
  assert (∀ x a t, x ∈ order → ∃ a' t', take_group requested a x t = (Ok a', t')
    ∧ vars_step requested missing (a, t) (a', t')) as Hstep.
  { intros [address hs] a t _. destruct (take_group_spec requested missing a address hs t) as (a' & t' & ? & ? & _).
    by exists a', t'. }
  destruct (sfold_total (vars_step requested missing) (take_group requested) order v s1 Hstep) as (v1 & s2 & E1 & R1).
  rewrite sm_bind_spec, E1. destruct (IH (S r) v1 s2) as (v2 & s3 & E2 & R2 & Hrest).
  exists v2, s3. split_and!; [done|by do 2 (etransitivity; [eassumption|])|].
  intros Hfair Hv h i m Hi Ht Hne Hserves. destruct (decide (i = r)) as [->|Hir].
  2: { apply (Hrest Hfair) with i m; [by apply R1, H01|lia|done..]. }
  assert (h ∉ v1.2) as Hn1.
  { destruct (decide (h ∈ v.2)) as [Hh|Hh]; [|intros Hx; by apply Hh, (proj1 (proj2 (R1 (proj1 (H01 Hv))))) ].
    destruct (elem_of_round_groups targets r v.2 h m Hh Ht) as (hs & Hin & Hhs). rewrite Eg in Hin.
    destruct (sfold_reaches (vars_step requested missing) (vars_ok missing) (λ w, h ∉ w.2)
      (take_group requested) order (cm_address m, hs) v s1 Hstep) as (v3 & s4 & E3 & _ & Hd); try done.
    - intros p q Hpq Hp. by apply Hpq.
    - intros p q Hpq Hp Hn Hq. by apply Hn, (proj1 (proj2 (Hpq Hp))).
    - intros a t a' t' Ha Et. destruct (take_group_spec requested missing a (cm_address m) hs t) as (a2 & t2 & E3 & _ & Hd).
      rewrite Et in E3. injection E3 as <- <-. by apply Hd.
    - unfold order. by rewrite (Hfair (ft_step s) (g :: gs)).
    - rewrite E1 in E3. by injection E3 as <- <-. }
  intros Hx. apply Hn1. by apply (proj1 (proj2 (R2 (proj1 (R1 (proj1 (H01 Hv))))))).
Qed.

(** ** The remote sources *)

Lemma lookup_unavailable hs k v : unavailable hs !! k = Some v ↔ k ∈ hs ∧ v = Err ChunkUnavailableError.
Proof.
  unfold unavailable. induction hs as [|h hs IH]; cbn.
  - rewrite lookup_empty. split; [done|]. intros [H _]. by inversion H.
  - rewrite lookup_insert, elem_of_cons. case_decide; [subst; naive_solver|]. rewrite IH. naive_solver.
Qed.

(** The results for [missing] after a source was asked, and their accounting. *)
Definition results_ok (requested missing : list pystr) (s : FetchState) (m : fetched) (s' : FetchState) : Prop :=
  (∀ k, is_Some (m !! k) ↔ k ∈ missing) ∧ genuine blake3 m
  ∧ (balance (ft_stats s') - weight requested (filter (λ k, is_failed m k = true) missing)
     = balance (ft_stats s) - weight requested missing)%Z.

Lemma unavailable_ok requested missing s s' :
  ft_stats s' = ft_stats s → results_ok requested missing s (unavailable missing) s'.
Proof.
  intros Es. split_and!.
  - intros k. split; [intros [v [? _]%lookup_unavailable]; done|]. intros Hk. exists (Err ChunkUnavailableError).
    by apply lookup_unavailable.
  - intros k raw [_ [=]]%lookup_unavailable.
  - rewrite Es, (filter_all _ missing); [done|]. apply Forall_forall. intros k Hk. unfold is_failed.
    by rewrite (proj2 (lookup_unavailable missing k _) (conj Hk eq_refl)).
Qed.

(** The cluster the resolver will return, if it does. *)
Definition resolves_to (cluster : ClusterView) (s : FetchState) : Prop :=
  ft_cluster s = Some cluster ∨ (ft_cluster s = None ∧ ∀ n, fe_resolve env n = Ok cluster).

Lemma get_cluster_spec s :
  let '(r, s') := get_cluster env s in
  ft_stats s' = ft_stats s
  ∧ ∀ cluster, resolves_to cluster s → r = Ok cluster ∧ ft_cluster s' = Some cluster.
Proof.
  unfold get_cluster. rewrite sm_bind_spec. cbn [sget]. unfold resolves_to. destruct (ft_cluster s) as [c|] eqn:Ec.
  { cbn. split; [done|]. intros cl [[= ->]|[[=] _]]. by rewrite Ec. }
  rewrite sm_bind_spec. cbn [tick]. rewrite sm_bind_spec. cbn [slift].
  destruct (fe_resolve env (ft_step s)) as [c|e] eqn:Er; cbn; (split; [done|]); intros cl [[=]|[_ H]]; rewrite H in Er.
  - by injection Er as <-.
  - done.
Qed.

Notation fetch_remote := (fetch_missing_many_from_remote data_folder blake3 decompress_max env cfg).
Notation targets cluster h :=
  (hrw_targets_excluding blake3 cluster h (fc_rf cfg) (fc_cluster_token cfg) [fc_origin_node_id cfg]).

(** A member from which [h] can be had. *)
Definition custodian (cluster : ClusterView) (h : pystr) (m : ClusterMember) : Prop :=
  m ∈ targets cluster h ∧ ∀ n, serves h (settles h) (fe_retrieve env n (cm_address m)).

Lemma max_depth_bound (f : pystr → nat) hs h : h ∈ hs → f h ≤ fold_right Nat.max 0 (f <$> hs).
Proof.
  induction hs as [|k hs IH]; intros Hh; [by inversion Hh|]. cbn. apply elem_of_cons in Hh as [->|Hh]; [lia|].
  specialize (IH Hh). lia.
Qed.

(** The rounds over all ranks, from their start to the results. *)
Lemma filter_split {A} (P : A → Prop) `{!∀ x, Decision (P x)} (l : list A) :
  l ≡ₚ filter P l ++ filter (λ x, ¬ P x) l.
Proof.
  induction l as [|x l IH]; [done|]. rewrite !filter_cons. destruct (decide (P x)) as [Hx|Hx].
  - rewrite decide_False by naive_solver. cbn. by constructor.
  - rewrite decide_True by done. rewrite <-Permutation_middle. by constructor.
Qed.

(** What has no data after the rounds: the hashes still to find and those without targets. *)
Lemma failed_after_rounds (missing un without : list pystr) (v : fetched * list pystr) :
  NoDup missing → missing ≡ₚ un ++ without →
  (∀ k, is_Some (v.1 !! k) ↔ k ∈ missing ∧ k ∉ v.2) → (∀ k, k ∈ v.2 → k ∈ un) → NoDup v.2 →
  (∀ k x, v.1 !! k = Some x → unavailable without !! k = Some x ∨ (k ∈ un ∧ is_ok x = true)) →
  filter (λ k, is_failed (unavailable v.2 ∪ v.1) k = true) missing ≡ₚ v.2 ++ without.
Proof.
  intros Hnd Hsplit Hdom Hun N Hnew. pose proof Hnd as Hnd'. rewrite Hsplit in Hnd'.
  apply NoDup_app in Hnd' as (_ & Hdisj & Hwnd).
  assert (∀ k, k ∈ missing ↔ k ∈ un ∨ k ∈ without) as Hin by (intros k; by rewrite Hsplit, elem_of_app).
  apply NoDup_Permutation; [by apply NoDup_filter|apply NoDup_app; split_and!; [done|intros k Hk; by apply Hdisj, Hun|done]|].
  intros k. rewrite list_elem_of_filter, elem_of_app. unfold is_failed. split.
  - intros [Hf Hk]. destruct ((unavailable v.2 ∪ v.1) !! k) as [[raw|e]|] eqn:Ek; [done| |done].
    apply lookup_union_Some_raw in Ek as [[? _]%lookup_unavailable|[_ Hx]]; [by left|].
    destruct (Hnew _ _ Hx) as [[? _]%lookup_unavailable|[_ Hy]]; [by right|done].
  - intros [Hk|Hk].
    + split; [|apply Hin; left; by apply Hun].
      by rewrite (lookup_union_Some_l _ _ _ _ (proj2 (lookup_unavailable v.2 k _) (conj Hk eq_refl))).
    + assert (k ∉ v.2) as Hkv by (intros Hx%Hun; by apply (Hdisj k)). split; [|apply Hin; by right].
      destruct (proj2 (Hdom k) (conj (proj2 (Hin k) (or_intror Hk)) Hkv)) as [x Hx].
      destruct (Hnew _ _ Hx) as [[_ ->]%lookup_unavailable|[Hy _]]; [|by destruct (Hdisj k Hy)].
      rewrite (lookup_union_r _ _ k), Hx; [done|]. apply eq_None_not_Some. intros [y [? _]%lookup_unavailable]. done.
Qed.

Lemma all_rounds_spec requested missing cluster s :
  NoDup missing →
  let without := filter (λ h, targets cluster h = []) missing in
  let un := filter (λ h, targets cluster h ≠ []) missing in
  let depth := fold_right Nat.max 0 ((λ h, length (targets cluster h)) <$> un) in
  ∃ v s', rounds requested (λ h, targets cluster h) (seq 0 depth) (unavailable without, un) s = (Ok v, s')
    ∧ results_ok requested missing s (unavailable v.2 ∪ v.1) s'
    ∧ ft_cluster s' = ft_cluster s
    ∧ (fair_order → ∀ h m, h ∈ missing → h ≠ [] → custodian cluster h m →
         ∃ raw, (unavailable v.2 ∪ v.1) !! h = Some (Ok raw)).
Proof.
  intros Hnd without un depth.
  destruct (rounds_spec requested missing (λ h, targets cluster h) depth 0 (unavailable without, un) s)
    as (v & s' & E & Hstep & Hget).
  assert (∀ k, is_Some (unavailable without !! k) ↔ k ∈ without) as Hdom0.
  { intros k. split; [intros [x [? _]%lookup_unavailable]; done|]. intros Hk. eexists. by apply lookup_unavailable. }
  assert (vars_ok missing (unavailable without, un)) as Hv0.
  { split_and!; cbn [fst snd].
    - by apply NoDup_filter.
    - intros k [_ ?]%list_elem_of_filter. done.
    - intros k. rewrite Hdom0. unfold without, un. rewrite !list_elem_of_filter.
      destruct (decide (targets cluster k = [])); naive_solver.
    - intros k raw [_ [=]]%lookup_unavailable. }
  destruct (Hstep Hv0) as ((N & Hsub & Hdom & Hgen) & Hun & Hnew & Hbal & Hcl). cbn [fst snd] in *.
  assert (missing ≡ₚ un ++ without) as Hsplit.
  { unfold un, without. rewrite Permutation_app_comm. apply (filter_split (λ h, targets cluster h = [])). }
  assert (∀ k x, (unavailable v.2 ∪ v.1) !! k = Some x → (k ∈ v.2 ∧ x = Err ChunkUnavailableError) ∨ v.1 !! k = Some x) as Hlook.
  { intros k x [Hx|[_ Hx]]%lookup_union_Some_raw; [left; by apply lookup_unavailable|by right]. }
  exists v, s'. split; [exact E|]. split; [|split; [exact Hcl|]].
  - split_and!.
    + intros k. split.
      * intros [x [[Hk _]|Hk]%Hlook]; [auto|]. by apply Hdom; eexists.
      * intros Hk. destruct (decide (k ∈ v.2)) as [Hin|Hin].
        { exists (Err ChunkUnavailableError). apply lookup_union_Some_raw. left. by apply lookup_unavailable. }
        destruct (proj2 (Hdom k) (conj Hk Hin)) as [x Hx]. exists x. apply lookup_union_Some_raw. right. split; [|done].
        apply eq_None_not_Some. intros [y [? _]%lookup_unavailable]. done.
    + intros k raw [[_ [=]]|Hk]%Hlook. by apply Hgen.
    + rewrite (weight_perm requested _ _ (failed_after_rounds missing un without v Hnd Hsplit Hdom Hun N Hnew)).
      rewrite (weight_perm requested _ _ Hsplit), !weight_app. lia.
  - intros Hfair h m Hh Hne [Hm Hserves]. apply list_elem_of_lookup in Hm as [i Hi].
    assert (h ∈ un) as Hu.
    { apply list_elem_of_filter. split; [|done]. intros Hx. by rewrite Hx in Hi. }
    assert (h ∉ v.2) as Hn.
    { apply (Hget Hfair Hv0 h i m); [|done..]. split; [lia|]. apply lookup_lt_Some in Hi.
      pose proof (max_depth_bound (λ h, length (targets cluster h)) un h Hu). cbn in *. fold depth in H. lia. }
    destruct (proj2 (Hdom h) (conj Hh Hn)) as [x Hx]. destruct (Hnew _ _ Hx) as [Hy|[_ Hy]].
    + apply lookup_unavailable in Hy as [Hy _]. unfold without, un in *. rewrite list_elem_of_filter in Hy, Hu. naive_solver.
    + destruct x as [raw|]; [|done]. exists raw. rewrite lookup_union_r; [done|].
      apply eq_None_not_Some. intros [y [? _]%lookup_unavailable]. done.
Qed.

Lemma fetch_remote_spec requested missing s :
  NoDup missing →
  let '(r, s') := fetch_remote requested missing s in
  (∀ m, r = Ok m → results_ok requested missing s m s')
  ∧ ∀ cluster, resolves_to cluster s → (∃ m, r = Ok m) ∧ resolves_to cluster s'
      ∧ (fc_rf cfg ≠ 0%Z → fc_remote_available cfg = true → fair_order → ∀ h m, h ∈ missing → h ≠ [] →
         custodian cluster h m → ∃ raw res, r = Ok res ∧ res !! h = Some (Ok raw)).
Proof.
  intros Hnd. unfold fetch_missing_many_from_remote.
  destruct (_ || _) eqn:Eoff.
  { cbn. split; [intros m [= <-]; by apply unavailable_ok|]. intros cluster Hc. split; [by eexists|]. split; [done|].
    intros H1 H2. exfalso. rewrite H2 in Eoff. apply Z.eqb_neq in H1. by rewrite H1 in Eoff. }
  rewrite sm_bind_spec. pose proof (get_cluster_spec s) as Hc. destruct (get_cluster env s) as [[cluster|e] s1];
    destruct Hc as [Es Hc].
  2: { split; [done|]. intros cluster Hr. by destruct (Hc cluster Hr) as [[=] _]. }
  rewrite sm_bind_spec. destruct (all_rounds_spec requested missing cluster s1 Hnd) as (v & s2 & E & Hres & Ecl & Hget).
  rewrite E. destruct v as [m un]. cbn [fst snd mret sm_ret] in *. split.
  - intros m' [= <-]. destruct Hres as (R1 & R2 & R3). split_and!; [done|done|]. by rewrite R3, Es.
  - intros cl Hr. destruct (Hc cl Hr) as [[= ->] Hcl]. split; [by eexists|]. split; [left; by rewrite Ecl|].
    intros _ _ Hfair h mm Hh Hne Hcust. destruct (Hget Hfair h mm Hh Hne Hcust) as [raw Hraw]. by exists raw, (unavailable un ∪ m).
Qed.

(** What the erasure service promises: data it returns is right, and it does not touch the
    counters. *)
Class EcRecovery (recover : list pystr → SM FetchState fetched) : Prop := {
  ec_genuine hs s m s' : recover hs s = (Ok m, s') → genuine blake3 m;
  ec_counters hs s : ft_stats (recover hs s).2 = ft_stats s }.

(** The loop over what the service recovered: what was there stays or is recovered. *)
Lemma ec_loop_spec (requested hs : list pystr) (ec_results remote : fetched) (s : FetchState) :
  NoDup hs → genuine blake3 ec_results → genuine blake3 remote → (∀ k, k ∈ hs → is_failed remote k = true) →
  ∃ m s', sfold (take_ec requested ec_results) hs remote s = (Ok m, s')
    ∧ (∀ k, k ∉ hs → m !! k = remote !! k) ∧ (∀ k, k ∈ hs → is_Some (m !! k)) ∧ genuine blake3 m
    ∧ (balance (ft_stats s') - weight requested (filter (λ k, is_failed m k = true) hs)
       = balance (ft_stats s) - weight requested hs)%Z.
Proof.
  intros Hnd Hec. revert remote s. induction hs as [|h hs IH]; intros remote s Hgen Hf; cbn [sfold].
  { exists remote, s. split_and!; try done. intros k Hk. by inversion Hk. }
  apply NoDup_cons in Hnd as [Hh Hnd]. rewrite sm_bind_spec.
  assert (∀ remote' s1 b, genuine blake3 remote' → is_Some (remote' !! h) → is_failed remote' h = b →
    (∀ k, k ≠ h → remote' !! k = remote !! k) →
    balance (ft_stats s1) = (balance (ft_stats s) - if b then 0 else multiplicity requested h)%Z →
    ∃ m s', sfold (take_ec requested ec_results) hs remote' s1 = (Ok m, s')
    ∧ (∀ k, k ∉ h :: hs → m !! k = remote !! k) ∧ (∀ k, k ∈ h :: hs → is_Some (m !! k)) ∧ genuine blake3 m
    ∧ (balance (ft_stats s') - weight requested (filter (λ k, is_failed m k = true) (h :: hs))
       = balance (ft_stats s) - weight requested (h :: hs))%Z) as Hgo.
  { intros remote' s1 b Hgen' Hsome Hb Hother Hbal.
    destruct (IH Hnd remote' s1 Hgen') as (m & s' & E & H1 & H2 & H3 & H4).
    { intros k Hk. unfold is_failed. rewrite Hother by (intros ->; done). apply Hf. by right. }
    exists m, s'. split_and!; [done| | |done|].
    - intros k [Hk1 Hk2]%not_elem_of_cons. by rewrite H1, Hother.
    - intros k [->|Hk]%elem_of_cons; [by rewrite (H1 h Hh)|auto].
    - assert (is_failed m h = b) as Hm by (unfold is_failed; rewrite (H1 h Hh); exact Hb).
      rewrite filter_cons. case_decide as Ed; rewrite Hm in Ed; destruct b; try done; cbn [weight foldr];
        fold (weight requested (filter (λ k, is_failed m k = true) hs)) (weight requested hs); lia. }
  assert (is_failed remote h = true) as Hfh by (apply Hf; by left).
  unfold take_ec at 1. destruct (ec_results !! h) as [[raw|e]|] eqn:Eec.
  - rewrite sm_bind_spec. cbn [bump smodify]. apply (Hgo _ _ false).
    + intros k raw'. rewrite lookup_insert. case_decide; [intros [= <-]; subst; by apply (Hec _ _ Eec)|apply Hgen].
    + rewrite lookup_insert_eq. by eexists.
    + unfold is_failed. by rewrite lookup_insert_eq.
    + intros k Hk. by rewrite lookup_insert_ne.
    + cbn [ft_stats]. rewrite balance_add. cbn [balance_sign]. lia.
  - rewrite sm_bind_spec. cbn [bump smodify]. apply (Hgo _ _ true).
    + intros k raw'. rewrite lookup_insert. case_decide; [done|apply Hgen].
    + rewrite lookup_insert_eq. by eexists.
    + unfold is_failed. by rewrite lookup_insert_eq.
    + intros k Hk. by rewrite lookup_insert_ne.
    + cbn [ft_stats]. rewrite balance_add. cbn [balance_sign]. lia.
  - apply (Hgo _ _ true); [done| |done|done|lia]. unfold is_failed in Hfh. destruct (remote !! h); [by eexists|done].
Qed.

Lemma recover_spec `{!EcRecovery recover} requested missing remote s0 s :
  NoDup missing → results_ok requested missing s0 remote s →
  let '(r, s') := recover_unresolved_with_ec recover requested missing remote s in
  ∀ m, r = Ok m → results_ok requested missing s0 m s'
    ∧ ∀ k raw, remote !! k = Some (Ok raw) → m !! k = Some (Ok raw).
Proof.
  intros Hnd Hr. unfold recover_unresolved_with_ec. set (un := filter _ missing).
  assert (∀ k, k ∈ un ↔ k ∈ missing ∧ is_failed remote k = true) as Hun.
  { intros k. unfold un. rewrite list_elem_of_filter. naive_solver. }
  destruct un as [|u0 us] eqn:Eu; [cbn; intros m [= <-]; by split|]. rewrite <-Eu in *. clear u0 us Eu.
  rewrite sm_bind_spec. pose proof (ec_counters un s) as Hc. pose proof (ec_genuine un s) as Hg.
  destruct (recover un s) as [[ec|e] s1]; [|done]. cbn [snd] in Hc. specialize (Hg ec s1 eq_refl).
  destruct Hr as (R1 & R2 & R3).
  destruct (ec_loop_spec requested un ec remote s1) as (m & s' & E & H1 & H2 & H3 & H4); [by apply NoDup_filter|done|done| |].
  { intros k Hk. by apply Hun. }
  rewrite E. intros m' [= <-].
  assert (∀ k raw, remote !! k = Some (Ok raw) → m !! k = Some (Ok raw)) as Hkeep.
  { intros k raw Hk. rewrite H1; [done|]. intros Hx. apply Hun in Hx as [_ Hx]. unfold is_failed in Hx. by rewrite Hk in Hx. }
  split; [|done]. split_and!.
  - intros k. destruct (decide (k ∈ un)) as [Hk|Hk]; [|by rewrite H1, R1]. split; [intros _; by apply Hun in Hk as [? _]|auto].
  - done.
  - assert (filter (λ k, is_failed m k = true) missing ≡ₚ filter (λ k, is_failed m k = true) un) as ->%(weight_perm requested).
    { apply NoDup_Permutation; [by apply NoDup_filter|by apply NoDup_filter, NoDup_filter|]. intros k.
      rewrite !list_elem_of_filter, Hun. split; [|naive_solver]. intros [Hf Hk]. split_and!; [done|done|].
      unfold is_failed in *. destruct (remote !! k) as [[raw|]|] eqn:Ek; [|done|].
      - by rewrite (Hkeep k raw Ek) in Hf.
      - destruct (proj2 (R1 k) Hk) as [x Hx]. congruence. }
    rewrite Hc in H4. fold un in R3. lia.
Qed.

(** ** All the sources together *)

Lemma custody_fetched requested h s :
  held_in_custody h → ∃ raw s', fetch_local requested h s = (Ok (Some raw), s').
Proof.
  intros (p2p & Ep & Hc). unfold RestoreFetch.fetch_local. rewrite sm_bind_spec. cbn [tick]. rewrite sm_bind_spec.
  cbn [smodify]. rewrite sm_bind_spec. cbn [sget]. destruct (get _ _ _ _ _ h) as [raw|e]; [by do 2 eexists|].
  rewrite Ep. destruct (Hc (ft_step s)) as (c & Ec & Ev). rewrite Ec. cbn [mbind res_bind].
  destruct (validate h c) as [raw|]; [|done]. cbn [mbind res_bind]. rewrite sm_bind_spec.
  match goal with |- context [cache_chunk h c ?t] => destruct (cache_chunk_spec h c t) as (s2 & -> & _) end.
  by do 2 eexists.
Qed.

Lemma fetch_all_custody requested hs s k :
  held_in_custody k → k ∈ hs →
  ∃ results missing s', fetch_all_local requested hs s = (Ok (results, missing), s') ∧ is_Some (results !! k).
Proof.
  intros Hc Hk. set (R := λ p q : (fetched * list pystr) * FetchState, is_Some (p.1.1 !! k) → is_Some (q.1.1 !! k)).
  assert (PreOrder R) by (split; [intros p Hp; exact Hp|intros p q r H1 H2 H; exact (H2 (H1 H))]).
  unfold RestoreFetch.fetch_all_local.
  match goal with |- context [sfold ?f _ _ _] => set (step := f) end.
  assert (∀ x a t, x ∈ hs → ∃ a' t', step a x t = (Ok a', t') ∧ R (a, t) (a', t')) as Hstep.
  { intros x [m mis] t _. destruct (fetch_local_spec requested x t) as (r & t' & E & _).
    unfold step. rewrite sm_bind_spec, E. destruct r as [raw|]; (do 2 eexists; split; [reflexivity|]);
      unfold R; cbn; [|done]. rewrite lookup_insert. case_decide; [by eexists|done]. }
  destruct (sfold_reaches R (λ _, True) (λ a, is_Some (a.1 !! k)) step hs k (∅, []) s Hstep)
    as ([results missing] & s' & E & _ & Hd); [done| | |done|done|].
  - intros p q Hr _. apply Hr.
  - intros [m mis] t a' t' _ E. unfold step in E. rewrite sm_bind_spec in E.
    destruct (custody_fetched requested k t Hc) as (raw & t2 & E2). rewrite E2 in E. injection E as <- <-.
    cbn. rewrite lookup_insert_eq. by eexists.
  - by exists results, missing, s'.
Qed.

Context (ec_recovery : option (list pystr → SM FetchState fetched)).
Notation fetch_many :=
  (fetch_many_raw_chunks data_folder p2p_folder blake3 decompress decompress_max env cfg ec_recovery).

Definition ec_promises : Prop :=
  match ec_recovery with Some recover => EcRecovery recover | None => True end.

(** Where a chunk can be had from. *)
Definition obtainable (requested : list pystr) (s : FetchState) (h : pystr) : Prop :=
  (held_locally h ∧ on_disk h (ft_repo s) ∧ Forall (λ h, is_valid_blake3_hex h = true) requested)
  ∨ held_in_custody h
  ∨ ∃ cluster m, resolves_to cluster s ∧ fc_rf cfg ≠ 0%Z ∧ fc_remote_available cfg = true
      ∧ fc_remote_chunk_recovery cfg = true ∧ fair_order ∧ custodian cluster h m.

Lemma finish_fetch requested missing s0 s results remote :
  NoDup missing → (∀ k, is_Some (results !! k) → k ∉ missing) → genuine blake3 results →
  (∀ k, k ∈ ordered_unique requested ↔ is_Some (results !! k) ∨ k ∈ missing) →
  results_ok requested missing s0 remote s →
  let '(r, s') := (bump chunks_failed (foldr (λ h n,
        if is_failed remote h then multiplicity requested h + n else n)%Z 0%Z missing);;
      mret (remote ∪ results)) s in
  ∃ m, r = Ok m ∧ (∀ k, is_Some (m !! k) ↔ k ∈ requested) ∧ genuine blake3 m
    ∧ balance (ft_stats s') = (balance (ft_stats s0) - weight requested missing)%Z
    ∧ (∀ k x, remote !! k = Some x → m !! k = Some x) ∧ (∀ k x, results !! k = Some x → m !! k = Some x).
Proof.
  intros Hnd Hdis Hgen Hdom (R1 & R2 & R3). rewrite sm_bind_spec. cbn [bump smodify mret sm_ret ft_stats].
  assert (∀ k x, results !! k = Some x → remote !! k = None) as Hno.
  { intros k x Hx. apply eq_None_not_Some. rewrite R1. apply Hdis. by eexists. }
  exists (remote ∪ results). split; [done|]. split_and!.
  - intros k. rewrite <-elem_of_ordered_unique, Hdom, <-R1. split.
    + intros [x [Hx|[_ Hx]]%lookup_union_Some_raw]; [right|left]; by eexists.
    + intros [[x Hx]|[x Hx]]; exists x; apply lookup_union_Some_raw; [right; split; [by eapply Hno|done]|by left].
  - intros k raw [Hx|[_ Hx]]%lookup_union_Some_raw; [by apply R2|by apply Hgen].
  - rewrite balance_add. cbn [balance_sign].
    assert (foldr (λ h n, if is_failed remote h then multiplicity requested h + n else n)%Z 0%Z missing
      = weight requested (filter (λ k, is_failed remote k = true) missing)) as ->; [|lia].
    clear. induction missing as [|k ks IH]; [done|]. rewrite filter_cons. cbn [foldr]. rewrite IH.
    destruct (is_failed remote k); case_decide; done.
  - intros k x Hx. apply lookup_union_Some_raw. by left.
  - intros k x Hx. apply lookup_union_Some_raw. right. split; [by eapply Hno|done].
Qed.

(** What the other nodes give for the missing chunks. *)
Lemma remote_part_spec requested missing s s1 :
  NoDup missing → (∀ cluster, resolves_to cluster s → resolves_to cluster s1) →
  let '(r, s2) := (if fc_remote_chunk_recovery cfg then fetch_remote requested missing else mret (unavailable missing)) s1 in
  ∀ m, r = Ok m → results_ok requested missing s1 m s2
    ∧ ∀ h cluster mm, h ∈ missing → h ≠ [] → resolves_to cluster s → fc_rf cfg ≠ 0%Z → fc_remote_available cfg = true →
        fc_remote_chunk_recovery cfg = true → fair_order → custodian cluster h mm → ∃ raw, m !! h = Some (Ok raw).
Proof.
  intros Hnd Hsame. destruct (fc_remote_chunk_recovery cfg).
  - pose proof (fetch_remote_spec requested missing s1 Hnd) as H. destruct (fetch_remote requested missing s1) as [r s2].
    destruct H as [H1 H2]. intros m ->. split; [by apply H1|]. intros h cluster mm Hh Hne Hc Hrf Ha _ Hf Hcu.
    destruct (H2 cluster (Hsame _ Hc)) as (_ & _ & H3).
    destruct (H3 Hrf Ha Hf h mm Hh Hne Hcu) as (raw & res & [= <-] & Hx). by exists raw.
  - cbn. intros m [= <-]. split; [by apply unavailable_ok|]. intros; done.
Qed.

(** The erasure-coded packs only add to it. *)
Lemma ec_part_spec requested missing s1 s2 remote :
  NoDup missing → ec_promises → results_ok requested missing s1 remote s2 →
  let '(r, s3) := match ec_recovery with
      | Some recover => recover_unresolved_with_ec recover requested missing remote
      | None => mret remote end s2 in
  ∀ m, r = Ok m → results_ok requested missing s1 m s3 ∧ ∀ k raw, remote !! k = Some (Ok raw) → m !! k = Some (Ok raw).
Proof.
  intros Hnd Hec Hr1. unfold ec_promises in Hec. destruct ec_recovery as [recover|]; [by apply recover_spec|].
  cbn. intros m [= <-]. by split.
Qed.

Lemma fetch_many_spec requested s :
  ec_promises →
  let '(r, s') := fetch_many requested s in
  ∀ m, r = Ok m →
    (∀ k, is_Some (m !! k) ↔ k ∈ requested) ∧ genuine blake3 m ∧ balance (ft_stats s') = balance (ft_stats s)
    ∧ ∀ h, h ∈ requested → h ≠ [] → obtainable requested s h → ∃ raw, m !! h = Some (Ok raw).
Proof.
  intros Hec. unfold fetch_many_raw_chunks. rewrite sm_bind_spec. cbn [bump smodify]. set (s0 := {| ft_repo := _ |}).
  assert (balance (ft_stats s0) = balance (ft_stats s) + weight requested (ordered_unique requested))%Z as Hb0.
  { unfold s0. cbn [ft_stats]. rewrite balance_add, weight_requested. cbn [balance_sign]. lia. }
  destruct (fetch_all_local_spec requested (ordered_unique requested) s0 (NoDup_ordered_unique _))
    as (results & missing & s1 & E & Hcl & Hnd & Hsub & Hdom & Hres & Hbal & Hloc).
  rewrite sm_bind_spec, E.
  assert (∀ h, h ∈ requested → held_locally h ∧ on_disk h (ft_repo s) ∧ Forall (λ h, is_valid_blake3_hex h = true) requested
    ∨ held_in_custody h → ∃ raw, results !! h = Some (Ok raw)) as Hhere.
  { intros h Hh Hsrc. apply elem_of_ordered_unique in Hh as Hh'.
    assert (is_Some (results !! h)) as [x Hx].
    { destruct Hsrc as [(H1 & H2 & H3)|Hc].
      - apply Hdom. split; [done|]. apply Hloc; [done|done|exact H2|]. rewrite Forall_forall in H3 |- *.
        intros k Hk. apply H3. by apply elem_of_ordered_unique.
      - destruct (fetch_all_custody requested (ordered_unique requested) s0 h Hc Hh') as (m2 & mis2 & s2 & E2 & Hm2).
        rewrite E in E2. by injection E2 as <- <- <-. }
    destruct (Hres h x Hx) as (raw & -> & _). by exists raw. }
  assert (genuine blake3 results) as Hgen.
  { intros k raw Hk. destruct (Hres k _ Hk) as (raw' & [= <-] & ?). done. }
  assert (∀ k, is_Some (results !! k) → k ∉ missing) as Hdis by (intros k Hk; by apply Hdom).
  assert (∀ k, k ∈ ordered_unique requested ↔ is_Some (results !! k) ∨ k ∈ missing) as Hall.
  { intros k. rewrite Hdom. destruct (decide (k ∈ missing)); naive_solver. }
  assert (resolves_to_same : ∀ cluster, resolves_to cluster s → resolves_to cluster s1).
  { intros cluster. unfold resolves_to. by rewrite Hcl. }
  destruct missing as [|h0 hs] eqn:Em.
  { cbn. intros m [= <-]. split_and!; [|done|cbn [weight foldr] in Hbal; lia|].
    - intros k. rewrite <-elem_of_ordered_unique, Hall. split; [by left|]. intros [?|Hx]; [done|by inversion Hx].
    - intros h Hh _ [Hs|[Hs|_]]; [by apply Hhere; auto..|]. destruct (proj1 (Hall h)) as [[x Hx]|Hx];
        [by apply elem_of_ordered_unique| |by inversion Hx]. destruct (Hres h x Hx) as (raw & -> & _). by exists raw. }
  rewrite <-Em in *. clear Em h0 hs. rewrite sm_bind_spec.
  pose proof (remote_part_spec requested missing s s1 Hnd resolves_to_same) as Hrem.
  match type of Hrem with context [?f s1] => destruct (f s1) as [[remote|e] s2]; [|done] end.
  destruct (Hrem remote eq_refl) as [Hr1 Hr2]. clear Hrem. rewrite sm_bind_spec.
  pose proof (ec_part_spec requested missing s1 s2 remote Hnd Hec Hr1) as H3.
  match type of H3 with context [?f s2] => destruct (f s2) as [[remote2|e] s3]; [|done] end.
  destruct (H3 remote2 eq_refl) as [Hr3 Hr4]. clear H3.
  pose proof (finish_fetch requested missing s1 s3 results remote2 Hnd Hdis Hgen Hall Hr3) as Hfin.
  match type of Hfin with context [?f s3] => destruct (f s3) as [r s4] end. destruct Hfin as (m & -> & F1 & F2 & F3 & F4 & F5). intros m' [= <-].
  split_and!; [done|done|lia|]. intros h Hh Hne [Hs|[Hs|(cluster & mm & Hs)]].
  - destruct (Hhere h Hh (or_introl Hs)) as [raw Hx]. exists raw. by apply F5.
  - destruct (Hhere h Hh (or_intror Hs)) as [raw Hx]. exists raw. by apply F5.
  - destruct Hs as (H1 & H2 & H3 & H4 & H5 & H6). apply elem_of_ordered_unique, Hall in Hh as [[x Hx]|Hh].
    + destruct (Hres h x Hx) as (raw & -> & _). exists raw. by apply F5.
    + destruct (Hr2 h cluster mm) as [raw Hx]; [done..|]. exists raw. by apply F4, Hr4.
Qed.

(** A run ends with results when the seed answers and the erasure service does not raise. *)
Lemma fetch_many_returns requested cluster s :
  resolves_to cluster s →
  (∀ recover hs t, ec_recovery = Some recover → ∃ m t', recover hs t = (Ok m, t')) →
  ∃ m s', fetch_many requested s = (Ok m, s').
Proof.
  intros Hc Hec. unfold fetch_many_raw_chunks. rewrite sm_bind_spec. cbn [bump smodify]. set (s0 := {| ft_repo := _ |}).
  destruct (fetch_all_local_spec requested (ordered_unique requested) s0 (NoDup_ordered_unique _))
    as (results & missing & s1 & E & Hcl & Hnd & _).
  rewrite sm_bind_spec, E. destruct missing as [|h0 hs] eqn:Em; [by do 2 eexists|]. rewrite <-Em in *. clear Em h0 hs.
  rewrite sm_bind_spec.
  assert (∃ remote s2, (if fc_remote_chunk_recovery cfg then fetch_remote requested missing
      else mret (unavailable missing)) s1 = (Ok remote, s2)) as (remote & s2 & ->).
  { destruct (fc_remote_chunk_recovery cfg); [|by do 2 eexists].
    pose proof (fetch_remote_spec requested missing s1 Hnd) as H. destruct (fetch_remote requested missing s1) as [r s2].
    destruct H as [_ H]. destruct (H cluster) as ([m ->] & _); [|by do 2 eexists]. unfold resolves_to. by rewrite Hcl. }
  rewrite sm_bind_spec.
  assert (∃ remote2 s3, match ec_recovery with
      | Some recover => recover_unresolved_with_ec recover requested missing remote
      | None => mret remote end s2 = (Ok remote2, s3)) as (remote2 & s3 & ->); [|by do 2 eexists].
  destruct ec_recovery as [recover|]; [|by do 2 eexists]. unfold recover_unresolved_with_ec.
  destruct (filter _ missing) as [|k ks] eqn:Ef; [by do 2 eexists|]. rewrite sm_bind_spec.
  destruct (Hec recover (k :: ks) s2 eq_refl) as (ec & s3 & ->).
  assert (PreOrder (λ _ _ : fetched * FetchState, True)) as HT by done.
  destruct (sfold_total (λ _ _, True) (take_ec requested ec) (k :: ks) remote s3) as (m & s4 & -> & _); [|by do 2 eexists].
  intros x a t _. unfold take_ec. destruct (ec !! x) as [[raw|e]|]; by do 2 eexists.
Qed.

(** ** prefetcher.py *)

(** [_flush_record_window], for the records of one window: what is yielded before the window
    is over or an exception ends it. *)
Fixpoint emit_records (results : fetched) (records : list recipe_chunk) : list (recipe_chunk * bytes) * option exn :=
  match records with
  | [] => ([], None)
  | record :: records' =>
      match results !! record.1.2 with
      | None => ([], Some ChunkUnavailableError)
      | Some (Err e) => ([], Some e)
      | Some (Ok raw) => let '(out, e) := emit_records results records' in ((record, raw) :: out, e)
      end
  end.

Definition flush_record_window (records : list recipe_chunk) : SM FetchState (list (recipe_chunk * bytes) * option exn) :=
  results ← fetch_many ((λ rc : recipe_chunk, rc.1.2) <$> records);
  mret (emit_records results records).
End specs.

(** ** Properties *)

Section properties.
Context (data_folder p2p_folder node_folder : pystr) (blake3 : bytes → bytes).
Context (decompress : bytes → res bytes) (decompress_max : Z → bytes → res bytes).
Context (exc_text : exn → pystr) (env : FetchEnv) (cfg : FetchConfig).
Context (ec_recovery : option (list pystr → SM FetchState fetched)).
(** The bounded decompression reads what the unbounded one reads, if it is not too long. *)
Context (Hbounded : ∀ d raw, decompress d = Ok raw → (Z.of_nat (length raw) <= fc_max_chunk_size cfg)%Z →
  decompress_max (fc_max_chunk_size cfg) d = Ok raw).

Notation fetch_many :=
  (fetch_many_raw_chunks data_folder p2p_folder blake3 decompress decompress_max env cfg ec_recovery).

(** C34: a restore only uses genuine data and counts it honestly: whatever the local files,
    the custody store, the members and their answers, the order in which calls complete and
    the others that use the store, a fetch that returns has one result for every requested
    hash and no other, every result with data has the content of its hash, and the requested
    chunks are exactly those counted as found in one of the sources or failed. *)
Theorem fetched_is_genuine requested s :
  ec_promises blake3 ec_recovery →
  let '(r, s') := fetch_many requested s in
  ∀ m, r = Ok m →
    (∀ k, is_Some (m !! k) ↔ k ∈ requested)
    ∧ (∀ h raw, m !! h = Some (Ok raw) → blake3_hex_digest blake3 raw = h)
    ∧ balance (ft_stats s') = balance (ft_stats s).
Proof.
  intros Hec. pose proof (fetch_many_spec data_folder p2p_folder blake3 decompress decompress_max env cfg
    ec_recovery requested s Hec) as H.
  destruct (fetch_many requested s) as [r s']. intros m Hm. destruct (H m Hm) as (H1 & H2 & H3 & _). by split_and!.
Qed.

(** The answers come from a node that runs the storage service, in whatever state its store
    is, as long as it holds the chunk. *)
Definition node_holds (h : pystr) (st : CasState) : Prop :=
  ∃ d raw, cas_files st !! chunk_path node_folder h = Some d ∧ decompress d = Ok raw
    ∧ blake3_hex_digest blake3 raw = h ∧ (Z.of_nat (length raw) <= fc_max_chunk_size cfg)%Z.

Definition answers_from_node (h : pystr) (call : list pystr → call_outcome (list RetrievedChunk)) : Prop :=
  ∀ batch, match call batch with
  | Answered results => ∃ token metadata st, node_holds h st
      ∧ RetrieveChunkBatch node_folder blake3 decompress exc_text token false metadata (λ _, false) batch st
        = (Ok results, st)
  | MessageTooLarge => 1 < length batch
  | CallFailed => False
  end.

Lemma node_serves h call :
  is_valid_blake3_hex h = true → answers_from_node h call →
  serves h (settles blake3 decompress_max cfg h) call.
Proof.
  intros Hv Hnode batch. specialize (Hnode batch). destruct (call batch) as [results| |]; [|done..].
  destruct Hnode as (token & md & st & (d & raw & Hd & Hdec & Hdig & Hlen) & E).
  unfold RetrieveChunkBatch in E. rewrite sm_bind_spec in E.
  pose proof (check_call_spec token false md st) as Hc. destruct (check_call _ _ _ st) as [[[]|e] s1]; [|done].
  destruct Hc as [-> _]. cbn in E. injection E as <-. split_and!.
  - intros x (k & -> & [_ Hk]%list_elem_of_filter)%list_elem_of_fmap. by rewrite retrieve_one_hash.
  - intros Hb. eexists. split; [apply list_elem_of_fmap; exists h; split; [done|]; apply list_elem_of_filter|apply retrieve_one_hash].
    split; [|done]. by intros ->.
  - intros x (k & -> & _)%list_elem_of_fmap. rewrite retrieve_one_hash. intros ->.
    destruct (get_content_ok blake3 decompress node_folder st h d Hd) as (raw' & _ & Eg & Edec & _); [by exists raw|].
    unfold retrieve_one. rewrite Hv, Eg. cbn [negb rt_status rt_chunk_data]. split; [done|].
    unfold validate_compressed_chunk. cbn [rt_chunk_data]. rewrite (Hbounded d raw Hdec Hlen), Hdig. by rewrite bool_decide_false by auto.
Qed.

(** C35: one reachable copy is enough: when the members are asked in the view the seed gives
    and one of the chunk's targets, at any rank, holds it and answers (splitting batches
    that are too large), the fetch returns its data, wherever else it is missing or corrupt
    and whatever the other members do; without erasure recovery it always returns. *)
Theorem one_reachable_copy_is_enough requested s cluster h m :
  ec_promises blake3 ec_recovery → fair_order env →
  resolves_to env cluster s → fc_rf cfg ≠ 0%Z → fc_remote_available cfg = true → fc_remote_chunk_recovery cfg = true →
  m ∈ hrw_targets_excluding blake3 cluster h (fc_rf cfg) (fc_cluster_token cfg) [fc_origin_node_id cfg] →
  (∀ n, answers_from_node h (fe_retrieve env n (cm_address m))) →
  h ∈ requested → is_valid_blake3_hex h = true →
  match (fetch_many requested s).1 with
  | Ok results => ∃ raw, results !! h = Some (Ok raw) ∧ blake3_hex_digest blake3 raw = h
  | Err _ => ec_recovery ≠ None
  end.
Proof.
  intros Hec Hfair Hc Hrf Hav Hrec Hm Hnode Hh Hv.
  pose proof (fetch_many_spec data_folder p2p_folder blake3 decompress decompress_max env cfg
    ec_recovery requested s Hec) as H.
  pose proof (fetch_many_returns data_folder p2p_folder blake3 decompress decompress_max env cfg
    ec_recovery requested cluster s Hc) as Hret.
  destruct (fetch_many requested s) as [[results|e] s']; cbn [fst].
  - destruct (H results eq_refl) as (_ & Hgen & _ & Hget). destruct (Hget h Hh) as [raw Hraw].
    + by intros ->.
    + right. right. exists cluster, m. split_and!; try done. split; [done|]. intros n. by apply node_serves.
    + exists raw. auto.
  - intros ->. destruct Hret as (m' & s2 & [=]). by intros.
Qed.
End properties.

(** ** Witnesses *)

(** A node that holds the chunk and answers one hash at a time. *)
Definition toy_node : CasState := with_files (<[chunk_path (u "/n") toy_hash := [Byte.x42]]>) empty_store.
Definition toy_answer (batch : list pystr) : call_outcome (list RetrievedChunk) :=
  if (1 <? length batch)%nat then MessageTooLarge
  else Answered (retrieve_one (u "/n") toy_digest Ok (λ _, []) (λ _, false) toy_node <$> filter (λ h, h ≠ []) batch).

Definition toy_view : ClusterView :=
  {| self_node_id := None; members := [{| cm_node_id := u "n"; cm_address := u "y:1" |}] |}.

Definition toy_fetch_env : FetchEnv := {|
  fe_read_fails := λ _ _, false; fe_others := λ _ c, c; fe_p2p := None; fe_p2p_read_fails := λ _ _, false;
  fe_cas := λ _, quiet_env; fe_resolve := λ _, Ok toy_view; fe_retrieve := λ _ _, toy_answer;
  fe_order := λ _ gs, rev gs |}.

Definition toy_fetch_config : FetchConfig := {|
  fc_rf := 2; fc_origin_node_id := u "origin"; fc_cluster_token := toy_token; fc_max_chunk_size := 1000;
  fc_remote_available := true; fc_remote_chunk_recovery := true |}.

Definition fresh_fetch : FetchState := {|
  ft_repo := empty_store; ft_stats := no_restore_stats; ft_cluster := None; ft_step := 0 |}.

Definition toy_fetch : res fetched * FetchState :=
  fetch_many_raw_chunks (u "/cas") (u "/p2p") toy_digest Ok (λ _ b, Ok b) toy_fetch_env toy_fetch_config None
    [toy_hash; repeat 97%N 64; toy_hash] fresh_fetch.

Example toy_fetch_counts :
  let st := ft_stats toy_fetch.2 in
  st chunks_from_remote_replication = 2%Z ∧ st chunks_failed = 1%Z ∧ st chunks_requested = 3%Z.
Proof. vm_compute. by split_and!. Qed.

Lemma fetched_is_genuine_witness : balance (ft_stats toy_fetch.2) = 0%Z.
Proof.
  pose proof (fetched_is_genuine (u "/cas") (u "/p2p") toy_digest Ok (λ _ b, Ok b) toy_fetch_env toy_fetch_config None
    [toy_hash; repeat 97%N 64; toy_hash] fresh_fetch I) as H.
  assert (is_ok toy_fetch.1 = true) as E by by vm_compute.
  fold toy_fetch in H. destruct toy_fetch as [[m|e] s']; [|done]. cbn [snd].
  destruct (H m eq_refl) as (_ & _ & ->). reflexivity.
Defined.

Lemma toy_answers h : h = toy_hash → answers_from_node (u "/n") toy_digest Ok (λ _, []) toy_fetch_config h toy_answer.
Proof.
  intros -> batch. unfold toy_answer. destruct (1 <? length batch)%nat eqn:El; [by apply Nat.ltb_lt|].
  exists toy_token, toy_metadata, toy_node. split; [|reflexivity].
  exists [Byte.x42], [Byte.x42]. split_and!; [apply lookup_insert_eq|done|done|done].
Qed.

Lemma one_reachable_copy_is_enough_witness :
  match toy_fetch.1 with
  | Ok results => ∃ raw, results !! toy_hash = Some (Ok raw) ∧ blake3_hex_digest toy_digest raw = toy_hash
  | Err _ => (None : option unit) ≠ None
  end.
Proof.
  pose proof (one_reachable_copy_is_enough (u "/cas") (u "/p2p") (u "/n") toy_digest Ok (λ _ b, Ok b) (λ _, [])
    toy_fetch_env toy_fetch_config None ltac:(done) [toy_hash; repeat 97%N 64; toy_hash] fresh_fetch toy_view
    toy_hash {| cm_node_id := u "n"; cm_address := u "y:1" |} I
    (λ n gs, symmetry (Permutation_rev gs)) (or_intror (conj eq_refl (λ n, eq_refl)))
    ltac:(done) eq_refl eq_refl ltac:(by left) (λ n, toy_answers _ eq_refl) ltac:(by left) ltac:(by vm_compute)) as H.
  fold toy_fetch in H. destruct toy_fetch as [[results|e] s']; cbn [fst] in *; [exact H|by destruct H].
Defined.
