(* ===== verification/RestoreFs.v ===== *)
(** * The file system of a restore

    The tree of files a restore works on, its system calls with their failures and with
    other processes that act between them, and [restore/paths.py]. Path resolution is that
    of [LocalGc]. *)

From S2P Require Import Prelude PyStr Common Heapq Hrw Cluster Protection Catalog Cas StorageNode.
From S2P Require Import RestoreFetch LocalGc.

(** ** The tree

    A regular file has its content, permission bits, time of modification and number of
    names; a time that was set by the run itself is [None]. *)
Inductive node :=
  | NDir (mode : Z) (mtime : option Q)
  | NFile (content : bytes) (mode : Z) (mtime : option Q) (nlink : Z)
  | NLink (target : bool * path)
  | NOther (mode : Z).

Notation tree := (gmap path node).

Definition node_is_dir (n : node) : bool := match n with NDir _ _ => true | _ => false end.
Definition node_is_link (n : node) : bool := match n with NLink _ => true | _ => false end.

(** What path resolution sees: the type bits of each entry and the targets of links. *)
Definition entry_of (n : node) : Entry :=
  let kind (mode : Z) := {| LocalGc.st_mode := mode; st_dev := 0; st_ino := 0; LocalGc.st_size := 0; LocalGc.st_mtime := 0;
                      LocalGc.st_mtime_ns := 0; LocalGc.st_ctime_ns := 0; st_reparse_tag := 0 |} in
  match n with
  | NDir _ _ => {| en_stat := kind 16384%Z; en_target := (false, []) |}
  | NFile _ _ _ _ => {| en_stat := kind 32768%Z; en_target := (false, []) |}
  | NLink t => {| en_stat := kind 40960%Z; en_target := t |}
  | NOther _ => {| en_stat := kind 4096%Z; en_target := (false, []) |}
  end.
Definition as_entries (fs : tree) : FS := entry_of <$> fs.

(** The root directory is always there. *)
Definition node_at (fs : tree) (p : path) : option node :=
  match p with [] => Some (NDir 493 None) | _ => fs !! p end.
Definition is_dir_at (fs : tree) (p : path) : bool :=
  match node_at fs p with Some n => node_is_dir n | None => false end.

(** The error for a path without entry: [ENOTDIR] below something that is not a directory. *)
Definition absent (fs : tree) (p : path) : exn :=
  if existsb (λ k, match node_at fs (take k p) with Some n => negb (node_is_dir n) | None => false end)
       (seq 0 (length p))
  then OSError else FileNotFoundError.

(** A change of its entries is seen in the time of a directory. *)
Definition touch (d : path) (fs : tree) : tree :=
  alter (λ n, match n with NDir mode _ => NDir mode None | _ => n end) d fs.
Definition put_entry (p : path) (n : node) (fs : tree) : tree := touch (removelast p) (<[p := n]> fs).
Definition remove_entry (p : path) (fs : tree) : tree := touch (removelast p) (delete p fs).

(** ** System calls on the tree *)

Definition resolve (fs : tree) (p : path) : path := realpath (as_entries fs) p.
Definition resolve_parent (fs : tree) (p : path) : path := locate (as_entries fs) p.

Definition fs_lstat (p : path) (fs : tree) : res node :=
  let q := resolve_parent fs p in
  match node_at fs q with Some n => Ok n | None => Err (absent fs q) end.

(** Follows links; a link that is left has no target or is part of a loop. *)
Definition fs_stat (p : path) (fs : tree) : res node :=
  let q := resolve fs p in
  match node_at fs q with
  | Some (NLink _) => Err OSError
  | Some n => Ok n
  | None => Err (absent fs q)
  end.

Definition fs_mkdir (umask : Z) (p : path) (mode : Z) (fs : tree) : res unit * tree :=
  let q := resolve_parent fs p in
  match node_at fs q with
  | Some _ => (Err FileExistsError, fs)
  | None =>
      if is_dir_at fs (removelast q) then (Ok (), put_entry q (NDir (Z.ldiff mode umask) None) fs)
      else (Err (absent fs q), fs)
  end.

Definition with_mode (mode : Z) (n : node) : node :=
  match n with
  | NDir _ t => NDir mode t
  | NFile c _ t l => NFile c mode t l
  | NOther _ => NOther mode
  | NLink t => NLink t
  end.
Definition with_mtime (mtime : Q) (n : node) : node :=
  match n with
  | NDir m _ => NDir m (Some mtime)
  | NFile c m _ l => NFile c m (Some mtime) l
  | _ => n
  end.

(** [os.chmod] and [os.utime] follow links; the attributes of the root are not kept. *)
Definition fs_set (f : node → node) (p : path) (fs : tree) : res unit * tree :=
  match fs_stat p fs with
  | Ok n => (Ok (), match resolve fs p with [] => fs | q => <[q := f n]> fs end)
  | Err e => (Err e, fs)
  end.
Definition fs_chmod (p : path) (mode : Z) : tree → res unit * tree := fs_set (with_mode (Z.land mode 4095)) p.
Definition fs_utime (p : path) (mtime : Q) : tree → res unit * tree := fs_set (with_mtime mtime) p.

(** [os.open] with [O_NOFOLLOW]: the entry that was opened. *)
Definition fs_open (p : path) (writable create : bool) (fs : tree) : res path * tree :=
  let q := resolve_parent fs p in
  match node_at fs q with
  | None =>
      if negb create then (Err (absent fs q), fs)
      else if is_dir_at fs (removelast q) then (Ok q, put_entry q (NFile [] 384 None 1) fs)
      else (Err (absent fs q), fs)
  | Some (NLink _) => (Err OSError, fs)
  | Some (NDir _ _) => (if writable then Err OSError else Ok q, fs)
  | Some _ => (Ok q, fs)
  end.

(** Through an open file. *)
Definition fs_fstat (h : path) (fs : tree) : res node :=
  match node_at fs h with Some n => Ok n | None => Err OSError end.
Definition file_content (n : node) : bytes := match n with NFile c _ _ _ => c | _ => [] end.
Definition fs_edit (h : path) (f : bytes → bytes) (fs : tree) : tree :=
  match fs !! h with
  | Some (NFile c mode _ nlink) => <[h := NFile (f c) mode None nlink]> fs
  | _ => fs
  end.

Definition fs_unlink (p : path) (fs : tree) : res unit * tree :=
  let q := resolve_parent fs p in
  match node_at fs q with
  | None => (Err (absent fs q), fs)
  | Some (NDir _ _) => (Err OSError, fs)
  | Some _ => (Ok (), remove_entry q fs)
  end.

(** [os.replace] of something that is not a directory. *)
Definition fs_replace (src dst : path) (fs : tree) : res unit * tree :=
  let p := resolve_parent fs src in
  let q := resolve_parent fs dst in
  match node_at fs p with
  | None => (Err (absent fs p), fs)
  | Some (NDir _ _) => (Err OSError, fs)
  | Some n =>
      if is_dir_at fs q then (Err OSError, fs)
      else if negb (is_dir_at fs (removelast q)) then (Err (absent fs q), fs)
      else if bool_decide (p = q) then (Ok (), fs)
      else (Ok (), put_entry q n (remove_entry p fs))
  end.

Definition has_entries (fs : tree) (d : path) : bool :=
  existsb (λ kv : path * node, bool_decide (d `prefix_of` kv.1) && negb (bool_decide (d = kv.1))) (map_to_list fs).

Definition fs_rmdir (p : path) (fs : tree) : res unit * tree :=
  let q := resolve_parent fs p in
  match node_at fs q with
  | None => (Err (absent fs q), fs)
  | Some n =>
      if node_is_dir n && negb (has_entries fs q) then (Ok (), remove_entry q fs) else (Err OSError, fs)
  end.

(** The subtree at [p] moves to [q], where there was nothing. *)
Definition move_tree (p q : path) (fs : tree) : tree :=
  let inside := map_to_list (filter (λ kv : path * node, p `prefix_of` kv.1) fs) in
  list_to_map ((λ kv : path * node, (q ++ drop (length p) kv.1, kv.2)) <$> inside)
  ∪ filter (λ kv : path * node, ¬ p `prefix_of` kv.1 ∧ ¬ q `prefix_of` kv.1) fs.

(** [renameat2] with [RENAME_NOREPLACE]. *)
Definition fs_rename_noreplace (src dst : path) (fs : tree) : res unit * tree :=
  let p := resolve_parent fs src in
  let q := resolve_parent fs dst in
  match node_at fs p with
  | None => (Err (absent fs p), fs)
  | Some _ =>
      if bool_decide (is_Some (node_at fs q)) then (Err FileExistsError, fs)
      else if negb (is_dir_at fs (removelast q)) then (Err (absent fs q), fs)
      else if bool_decide (p `prefix_of` q) then (Err OSError, fs)
      else (Ok (), touch (removelast p) (touch (removelast q) (move_tree p q fs)))
  end.

(** ** The state of a run and its surroundings *)

(** A system call may fail, or the user may interrupt the program there. *)
Inductive SysFault := Refused | Interrupted.
Definition fault_exn (f : SysFault) : exn :=
  match f with Refused => OSError | Interrupted => KeyboardInterrupt end.

(** Before the [n]-th system call others change the tree; the call may fail; a write that
    fails leaves the file with any content; another process may hold the lock. Nobody else
    changes the two trees of the run, nor the directories they are in. *)
Record RestoreEnv := {
  re_others : nat → tree → tree;
  re_fault : nat → option SysFault;
  re_torn : nat → bytes → bytes;
  re_locked : nat → bool;
  re_umask : Z }.

(** [RestorePaths]: the three directories. *)
Record RestorePaths := { final_dir : path; incomplete_dir : path; resume_dir : path }.

(** [RestorePaths.for_snapshot], for an absolute base directory. *)
Definition for_snapshot (base_output_dir : path) (snapshot_uuid : pystr) : RestorePaths :=
  let name := u "snapshot_" ++ snapshot_uuid in {|
  final_dir := base_output_dir ++ [name];
  incomplete_dir := base_output_dir ++ [name ++ u ".incomplete"];
  resume_dir := base_output_dir ++ [name ++ u ".incomplete" ++ u ".resume"] |}.

(** The tree (all but the chunk store, which the chunk service reads and writes and which
    is part of its state), the calls so far, the chunk service with its counters, and the
    local variables [prepared_dirs], [directories] and [resume_name_synced]. *)
Record RestoreState := {
  rs_fs : tree; rs_calls : nat; rs_fetch : FetchState;
  prepared_dirs : gset path; directories : list (path * item_row); resume_name_synced : bool }.

Definition set_tree (fs : tree) (calls : nat) (s : RestoreState) : RestoreState := {|
  rs_fs := fs; rs_calls := calls; rs_fetch := rs_fetch s; prepared_dirs := prepared_dirs s;
  directories := directories s; resume_name_synced := resume_name_synced s |}.
Definition add_prepared (p : path) (s : RestoreState) : RestoreState := {|
  rs_fs := rs_fs s; rs_calls := rs_calls s; rs_fetch := rs_fetch s; prepared_dirs := {[p]} ∪ prepared_dirs s;
  directories := directories s; resume_name_synced := resume_name_synced s |}.
Definition add_directory (p : path) (it : item_row) (s : RestoreState) : RestoreState := {|
  rs_fs := rs_fs s; rs_calls := rs_calls s; rs_fetch := rs_fetch s; prepared_dirs := prepared_dirs s;
  directories := directories s ++ [(p, it)]; resume_name_synced := resume_name_synced s |}.
Definition set_synced (b : bool) (s : RestoreState) : RestoreState := {|
  rs_fs := rs_fs s; rs_calls := rs_calls s; rs_fetch := rs_fetch s; prepared_dirs := prepared_dirs s;
  directories := directories s; resume_name_synced := b |}.

Definition is_oserror (e : exn) : bool :=
  match e with OSError | FileNotFoundError | FileExistsError | StopanStorageOSError => true | _ => false end.
(** [except Exception] *)
Definition is_exception (e : exn) : bool := match e with KeyboardInterrupt => false | _ => true end.
Definition catching {A} (p : exn → bool) (m handler : SM RestoreState A) : SM RestoreState A :=
  scatch m (λ e, if p e then Some handler else None).

Section restore_fs.
Context (env : RestoreEnv) (paths : RestorePaths).

(** What belongs to the run. *)
Definition owned (p : path) : Prop :=
  p `prefix_of` incomplete_dir paths ∨ incomplete_dir paths `prefix_of` p ∨ resume_dir paths `prefix_of` p.
#[export] Instance owned_dec p : Decision (owned p).
Proof. unfold owned. apply _. Defined.

Definition interfere (n : nat) (fs : tree) : tree :=
  filter (λ kv : path * node, owned kv.1) fs
  ∪ filter (λ kv : path * node, ¬ owned kv.1) (re_others env n fs).

Definition sys {A} (f : tree → res A * tree) : SM RestoreState A := λ s,
  let n := rs_calls s in
  let fs := interfere n (rs_fs s) in
  match re_fault env n with
  | Some fault => (Err (fault_exn fault), set_tree fs (S n) s)
  | None => let '(r, fs') := f fs in (r, set_tree fs' (S n) s)
  end.
Definition sys_read {A} (f : tree → res A) : SM RestoreState A := sys (λ fs, (f fs, fs)).

(** A write through an open file. *)
Definition sys_edit (h : path) (f : bytes → bytes) : SM RestoreState unit := λ s,
  let n := rs_calls s in
  let fs := interfere n (rs_fs s) in
  match re_fault env n with
  | Some fault => (Err (fault_exn fault), set_tree (fs_edit h (re_torn env n) fs) (S n) s)
  | None => (Ok (), set_tree (fs_edit h f fs) (S n) s)
  end.

(** [os.lstat], which refuses a null character. *)
Definition sys_lstat (p : path) : SM RestoreState node :=
  if bool_decide (0%N ∈ mjoin p) then sraise ValueError else sys_read (fs_lstat p).

(** [os.path.lexists] and [os.path.isdir] are false on errors. *)
Definition lexists (p : path) : SM RestoreState bool :=
  catching is_oserror (sys_lstat p;; mret true) (mret false).
Definition path_exists (p : path) : SM RestoreState bool :=
  catching is_oserror (sys_read (fs_stat p);; mret true) (mret false).
Definition isdir (p : path) : SM RestoreState bool :=
  catching is_oserror (n ← sys_read (fs_stat p); mret (node_is_dir n)) (mret false).

(** [os.makedirs] with [exist_ok]: the parents are made first. *)
Fixpoint makedirs_at (fuel : nat) (p : path) (mode : Z) : SM RestoreState unit :=
  match fuel with
  | O => sraise OSError
  | S fuel' =>
      let head := removelast p in
      (if bool_decide (head = []) then mret ()
       else
         found ← path_exists head;
         if found : bool then mret ()
         else scatch (makedirs_at fuel' head 511)
                (λ e, if bool_decide (e = FileExistsError) then Some (mret ()) else None));;
      scatch (sys (fs_mkdir (re_umask env) p mode)) (λ e,
        if is_oserror e then Some (d ← isdir p; if d : bool then mret () else sraise e) else None)
  end.
Definition makedirs (p : path) (mode : Z) : SM RestoreState unit := makedirs_at (S (length p)) p mode.

(** ** paths.py *)

(** [_lstat_existing] *)
Definition lstat_existing (p : path) : SM RestoreState (option node) :=
  scatch (n ← sys_lstat p; mret (Some n)) (λ e,
    if bool_decide (e = FileNotFoundError) then Some (mret None) else None).

Definition validate_restore_root (base_dir : path) : SM RestoreState unit :=
  r ← lstat_existing base_dir;
  match r with
  | None => sraise RestorePathError
  | Some n =>
      if node_is_link n then sraise RestorePathError
      else if negb (node_is_dir n) then sraise RestorePathError
      else mret ()
  end.

(** The loop of [_reject_existing_redirections]. *)
Fixpoint reject_existing_redirections (current components : path) : SM RestoreState unit :=
  match components with
  | [] => mret ()
  | component :: components' =>
      let current := current ++ [component] in
      r ← catching is_oserror (lstat_existing current) (sraise RestorePathError);
      match r with
      | None => mret ()
      | Some n =>
          if node_is_link n then sraise RestorePathError
          else reject_existing_redirections current components'
      end
  end.

(** [str.split] at the separator. *)
Fixpoint split_slash (s : pystr) : list pystr :=
  match s with
  | [] => [[]]
  | c :: s' =>
      if (c =? 47)%N then [] :: split_slash s'
      else match split_slash s' with
           | w :: ws => (c :: w) :: ws
           | [] => [[c]]
           end
  end.

(** [os.path.normpath]: the components kept, in reverse order. *)
Definition norm_step (absolute : bool) (acc : list pystr) (comp : pystr) : list pystr :=
  if bool_decide (comp = [] ∨ comp = u ".") then acc
  else if bool_decide (comp ≠ u "..") || (negb absolute && bool_decide (acc = []))
          || bool_decide (head acc = Some (u ".."))
  then comp :: acc
  else tail acc.
Definition norm_components (absolute : bool) (comps : list pystr) : path :=
  rev (fold_left (norm_step absolute) comps []).
Definition is_absolute (s : pystr) : bool := bool_decide (head s = Some 47%N).
Definition normpath (s : pystr) : bool * path :=
  (is_absolute s, norm_components (is_absolute s) (split_slash s)).

(** [os.path.abspath] of the normal path below the base; no components stand for [.] *)
Definition below (base_dir : path) (normalized_rel : path) : path :=
  match normalized_rel with
  | [] => base_dir
  | _ => norm_components true (base_dir ++ normalized_rel)
  end.

Definition safe_restore_path (base_dir : path) (rel_path : pystr) : SM RestoreState path :=
  validate_restore_root base_dir;;
  let '(absolute, normalized_rel) := normpath rel_path in
  if absolute : bool then sraise RestorePathError
  else
    let full_path := below base_dir normalized_rel in
    if negb (is_within base_dir full_path) then sraise RestorePathError
    else
      reject_existing_redirections base_dir (drop (length base_dir) full_path);;
      '(base_dir_real, full_path_real) ←
        catching is_oserror
          (b ← sys_read (λ fs, Ok (resolve fs base_dir));
           f ← sys_read (λ fs, Ok (resolve fs full_path));
           mret (b, f))
          (sraise RestorePathError);
      if negb (is_within base_dir_real full_path_real) then sraise RestorePathError
      else mret full_path.

(** [RestorePaths.resume_file] *)
Definition resume_file (blake3 : bytes → bytes) (rel_path : pystr) : path :=
  resume_dir paths ++ [blake3_hex_digest blake3 (encode_utf8 rel_path) ++ u ".part"].
End restore_fs.

(** ** Path resolution without links *)

Definition clean (p : path) : Prop := u ".." ∉ p.
Definition not_link (o : option node) : Prop := match o with Some (NLink _) => False | _ => True end.
(** No prefix of the path is a link. *)
Definition plain (fs : tree) (p : path) : Prop := ∀ q, q ≠ [] → q `prefix_of` p → not_link (fs !! q).

Lemma clean_app p q : clean (p ++ q) ↔ clean p ∧ clean q.
Proof. unfold clean. rewrite elem_of_app. tauto. Qed.

Lemma clean_prefix p q : p `prefix_of` q → clean q → clean p.
Proof. intros [k ->]. rewrite clean_app. tauto. Qed.

Lemma plain_prefix fs p q : p `prefix_of` q → plain fs q → plain fs p.
Proof. intros Hp Hq r Hr Hrp. apply Hq; [done|]. by etransitivity. Qed.

Lemma removelast_prefix {A} (p : list A) : removelast p `prefix_of` p.
Proof.
  destruct p as [|x p] using rev_ind; [done|]. rewrite removelast_snoc. by apply prefix_app_r.
Qed.

Lemma not_link_entry fs q :
  not_link (fs !! q) ↔ match as_entries fs !! q with Some e => S_ISLNK (LocalGc.st_mode (en_stat e)) = false | None => True end.
Proof. unfold as_entries. rewrite lookup_fmap. destruct (fs !! q) as [[]|]; cbn; split; try done. Qed.

Lemma resolve_plain fs p : clean p → plain fs p → resolve fs p = p.
Proof.
  unfold resolve, realpath. induction p as [|x p IH] using rev_ind; intros Hc Hp; [done|].
  apply clean_app in Hc as [Hc Hx].
  assert (realpath_at (as_entries fs) 40 [] p = p) as E by (apply IH; [done|eapply plain_prefix; [by apply prefix_app_r|done]]).
  rewrite realpath_snoc_here, E; [done| |].
  - rewrite E. apply not_link_entry, Hp; [|done]. by destruct p.
  - intros ->. apply Hx. by left.
Qed.

Lemma resolve_parent_plain fs p : clean p → plain fs (removelast p) → resolve_parent fs p = p.
Proof.
  intros Hc Hp. unfold resolve_parent, locate.
  change (realpath (as_entries fs) (removelast p)) with (resolve fs (removelast p)).
  rewrite resolve_plain; [|eapply clean_prefix; [apply removelast_prefix|done]|done].
  destruct p as [|x p _] using rev_ind; [done|]. by rewrite removelast_snoc, last_snoc.
Qed.

(** ** What a step of the run may do to the tree *)

(** A node without its permissions and times. *)
Definition shape (n : node) : node :=
  match n with
  | NDir _ _ => NDir 0 None
  | NFile c _ _ l => NFile c 0 None l
  | NLink t => NLink t
  | NOther _ => NOther 0
  end.
Definition same_shape (a b : option node) : Prop := shape <$> a = shape <$> b.

Lemma same_shape_link a b : same_shape a b → not_link a ↔ not_link b.
Proof. unfold same_shape. destruct a as [[]|], b as [[]|]; cbn; intros; simplify_eq; done. Qed.

Lemma same_shape_dir a b :
  same_shape a b → match a with Some n => node_is_dir n | None => false end
                   = match b with Some n => node_is_dir n | None => false end.
Proof. unfold same_shape. destruct a as [[]|], b as [[]|]; cbn; intros; simplify_eq; done. Qed.

(** The content of a regular file with one name. *)
Definition content_of (o : option node) : option bytes :=
  match o with Some (NFile c _ _ l) => if (l =? 1)%Z then Some c else None | _ => None end.

Lemma same_shape_content a b : same_shape a b → content_of a = content_of b.
Proof. unfold same_shape. destruct a as [[]|], b as [[]|]; cbn; intros; simplify_eq; done. Qed.

Section frames.
Context (env : RestoreEnv) (paths : RestorePaths).
Notation W := (incomplete_dir paths).
Notation R := (resume_dir paths).
Notation owned := (owned paths).

(** What lies in one of the two trees. *)
Definition region (p : path) : Prop := W `prefix_of` p ∨ R `prefix_of` p.

(** Everything of the run is in a directory. *)
Definition closed (fs : tree) : Prop :=
  ∀ q, owned q → q ≠ [] → is_Some (fs !! q) → is_dir_at fs (removelast q) = true.

(** Nothing else changed at [q] than attributes, or a directory was made there, unless the
    step is allowed to touch it; no link appears. *)
Definition evolves (T : path → Prop) (fs fs' : tree) : Prop := ∀ q, owned q →
  (not_link (fs !! q) → not_link (fs' !! q))
  ∧ (T q ∨ same_shape (fs !! q) (fs' !! q) ∨ (fs !! q = None ∧ is_dir_at fs' q = true)).

(** What nobody else changes and the run does not own stays as it is. *)
Definition confined (fs fs' : tree) : Prop :=
  ∀ q, ¬ owned q → (∀ n t, re_others env n t !! q = t !! q) → fs' !! q = fs !! q.

Record tree_step (T : path → Prop) (fs fs' : tree) : Prop := {
  ts_closed : closed fs → closed fs';
  ts_evolves : evolves T fs fs';
  ts_confined : confined fs fs' }.

#[export] Instance tree_step_preorder T : PreOrder (tree_step T).
Proof.
  split.
  - intros fs. split; [done| |by intros q]. intros q _. split; [done|]. right. by left.
  - intros f1 f2 f3 [H1 H2 H3] [K1 K2 K3]. split; [auto| |].
    + intros q Hq. destruct (H2 q Hq) as [L1 L2], (K2 q Hq) as [M1 M2]. split; [auto|].
      destruct L2 as [?|[L2|[L2 L3]]]; [by left| |]; (destruct M2 as [?|[M2|[M2 M3]]]; [by left| |]).
      * right. left. unfold same_shape in *. congruence.
      * right. right. split; [|done]. unfold same_shape in L2. rewrite M2 in L2. by destruct (f1 !! q).
      * right. right. split; [done|]. unfold is_dir_at, node_at in *.
        destruct q as [|x q]; [done|]. by rewrite <-(same_shape_dir _ _ M2).
      * right. right. split; [done|]. done.
    + intros q Hq Ho. rewrite K3, H3; done.
Qed.

Lemma tree_step_weaken (T T' : path → Prop) fs fs' :
  (∀ q, T q → T' q) → tree_step T fs fs' → tree_step T' fs fs'.
Proof.
  intros HT [H1 H2 H3]. split; [done| |done]. intros q Hq. destruct (H2 q Hq) as [? [?|?]]; split; auto.
Qed.

(** The three directories are siblings. *)
Record siblings : Prop := {
  sib_clean : clean W ∧ clean R;
  sib_parent : removelast R = removelast W;
  sib_nonempty : W ≠ [] ∧ R ≠ [];
  sib_apart : ¬ W `prefix_of` R ∧ ¬ R `prefix_of` W;
  sib_final : clean (final_dir paths) ∧ final_dir paths ≠ [] ∧ removelast (final_dir paths) = removelast W
    ∧ ¬ final_dir paths `prefix_of` W ∧ ¬ W `prefix_of` final_dir paths ∧ ¬ R `prefix_of` final_dir paths }.
Context (Hsib : siblings).

Lemma proper_prefix_removelast {A} (p q : list A) : p `prefix_of` q → p ≠ q → p `prefix_of` removelast q.
Proof.
  intros [k ->] Hne. destruct k as [|x k _] using rev_ind; [by rewrite app_nil_r in Hne|].
  rewrite app_assoc, removelast_snoc. by apply prefix_app_r.
Qed.

Lemma owned_nil : owned [].
Proof. left. by apply prefix_nil. Qed.

Lemma owned_prefix p q : owned p → q `prefix_of` p → owned q.
Proof.
  intros [H|[H|H]] Hq.
  - left. by etransitivity.
  - destruct (prefix_weak_total q W p) as [?|?]; [done|done|by left|right; by left].
  - destruct (prefix_weak_total q R p) as [Hr|?]; [done|done| |right; by right].
    destruct (decide (q = R)) as [->|Hne]; [right; by right|]. left.
    etransitivity; [by apply proper_prefix_removelast|]. rewrite (sib_parent Hsib). apply removelast_prefix.
Qed.

Lemma region_owned p : region p → owned p.
Proof. intros [?|?]; [right; by left|right; by right]. Qed.

(** ** Elementary changes *)

Lemma node_at_lookup fs q : q ≠ [] → node_at fs q = fs !! q.
Proof. by destruct q. Qed.

Lemma is_dir_at_same fs fs' q : same_shape (fs !! q) (fs' !! q) → is_dir_at fs' q = is_dir_at fs q.
Proof.
  intros H. unfold is_dir_at, node_at. destruct q as [|x q]; [done|]. symmetry. by apply same_shape_dir.
Qed.

Lemma same_shape_some a b : same_shape a b → is_Some b → is_Some a.
Proof. unfold same_shape. destruct a, b; cbn; intros H [? ?]; try done; by eexists. Qed.

Lemma step_same T fs fs' :
  (∀ q, same_shape (fs !! q) (fs' !! q)) → (∀ q, ¬ owned q → fs' !! q = fs !! q) → tree_step T fs fs'.
Proof.
  intros H1 H2. split; [| |by intros q Hq _; apply H2].
  - intros Hc q Hq Hne Hs. rewrite (is_dir_at_same fs); [|done]. apply Hc; [done..|]. exact (same_shape_some _ _ (H1 q) Hs).
  - intros q _. split; [by rewrite (same_shape_link _ _ (H1 q))|]. right. by left.
Qed.

Lemma lookup_touch d fs q :
  touch d fs !! q = if decide (q = d) then (λ n, match n with NDir m _ => NDir m None | _ => n end) <$> fs !! q else fs !! q.
Proof.
  unfold touch. destruct (decide (q = d)) as [->|Hne]; [by rewrite lookup_alter_eq|by rewrite lookup_alter_ne].
Qed.

Lemma touch_same d fs q : same_shape (fs !! q) (touch d fs !! q).
Proof. rewrite lookup_touch. unfold same_shape. case_decide; [|done]. by destruct (fs !! q) as [[]|]. Qed.

Lemma step_touch T d fs : owned d → tree_step T fs (touch d fs).
Proof.
  intros Hd. apply step_same; [apply touch_same|]. intros q Hq. rewrite lookup_touch. case_decide; [by subst|done].
Qed.

(** An entry with the kind the old one had. *)
Lemma step_set T p n m fs :
  owned p → fs !! p = Some n → shape n = shape m → tree_step T fs (<[p := m]> fs).
Proof.
  intros Hp Hn Hs. apply step_same; intros q.
  - unfold same_shape. destruct (decide (q = p)) as [->|?]; [rewrite Hn, lookup_insert_eq; cbn; congruence|by rewrite lookup_insert_ne].
  - intros Hq. rewrite lookup_insert_ne; [done|]. by intros ->.
Qed.

Lemma is_dir_insert fs p n q :
  is_dir_at fs q = true → (node_is_dir n = true ∨ is_dir_at fs p = false) → is_dir_at (<[p := n]> fs) q = true.
Proof.
  unfold is_dir_at. intros Hq Hn. destruct q as [|x q]; [done|]. cbn [node_at] in *.
  destruct (decide (p = x :: q)) as [->|?]; [rewrite lookup_insert_eq; destruct Hn as [?|Hn]; [done|]|by rewrite lookup_insert_ne].
  cbn [node_at] in Hn. by rewrite Hn in Hq.
Qed.

(** A new entry, not a link, in a directory; a directory is not replaced by something else. *)
Lemma step_insert (T : path → Prop) p n fs :
  owned p → p ≠ [] → is_dir_at fs (removelast p) = true → not_link (Some n) →
  (node_is_dir n = true ∨ is_dir_at fs p = false) →
  T p ∨ (fs !! p = None ∧ node_is_dir n = true) → tree_step T fs (<[p := n]> fs).
Proof.
  intros Hp Hne Hd Hl Hn HT. split.
  - intros Hc q Hq Hqne Hs. apply is_dir_insert; [|done].
    destruct (decide (q = p)) as [->|Hqp]; [done|]. apply Hc; [done..|]. by rewrite lookup_insert_ne in Hs.
  - intros q Hq. destruct (decide (q = p)) as [->|Hqp].
    + rewrite lookup_insert_eq. split; [done|]. destruct HT as [?|[? ?]]; [by left|right; right]. split; [done|].
      unfold is_dir_at. by rewrite node_at_lookup, lookup_insert_eq.
    + rewrite lookup_insert_ne by done. split; [done|]. right. by left.
  - intros q Hq _. rewrite lookup_insert_ne; [done|]. by intros ->.
Qed.

(** An entry without entries below goes. *)
Lemma step_delete (T : path → Prop) p fs :
  owned p → T p → (∀ q, owned q → q ≠ [] → is_Some (fs !! q) → removelast q ≠ p) → tree_step T fs (delete p fs).
Proof.
  intros Hp HT Hch. split.
  - intros Hc q Hq Hqne Hs. destruct (decide (q = p)) as [->|Hqp]; [by rewrite lookup_delete_eq in Hs; destruct Hs|].
    rewrite lookup_delete_ne in Hs by done. specialize (Hc q Hq Hqne Hs). specialize (Hch q Hq Hqne Hs).
    unfold is_dir_at in *. destruct (removelast q) as [|x r]; [done|]. cbn [node_at] in *. by rewrite lookup_delete_ne.
  - intros q Hq. destruct (decide (q = p)) as [->|Hqp]; [rewrite lookup_delete_eq; split; [done|by left]|].
    rewrite lookup_delete_ne by done. split; [done|]. right. by left.
  - intros q Hq _. rewrite lookup_delete_ne; [done|]. by intros ->.
Qed.

Lemma no_children fs p :
  closed fs → is_dir_at fs p = false → ∀ q, owned q → q ≠ [] → is_Some (fs !! q) → removelast q ≠ p.
Proof. intros Hc Hd q Hq Hne Hs E. specialize (Hc q Hq Hne Hs). congruence. Qed.

Lemma has_entries_false fs p :
  has_entries fs p = false → ∀ q, owned q → q ≠ [] → is_Some (fs !! q) → removelast q ≠ p.
Proof.
  intros H q _ Hne [n Hn] <-. apply not_true_iff_false in H. apply H. apply existsb_exists.
  exists (q, n). split; [by apply list_elem_of_In, elem_of_map_to_list|]. cbn. rewrite bool_decide_true by apply removelast_prefix.
  rewrite bool_decide_false; [done|]. intros E. apply (f_equal length) in E.
  destruct q as [|x q _] using rev_ind; [done|]. rewrite removelast_snoc, length_app in E. cbn in E. lia.
Qed.
(** ** The invariant of a run, and the system calls under it

    [G] are paths of the run that were found to cross no link. *)

Definition tracked (G : list path) : Prop := Forall (λ p, region p ∧ clean p) G.

Record inv (G : list path) (fs : tree) : Prop := {
  inv_closed : closed fs;
  inv_base : plain fs (removelast W);
  inv_tracked : Forall (plain fs) G }.

Lemma plain_step T fs fs' p :
  (∀ q, q `prefix_of` p → owned q) → tree_step T fs fs' → plain fs p → plain fs' p.
Proof. intros Hp [_ H _] Hpl q Hne Hq. apply (H q); [by apply Hp|]. by apply Hpl. Qed.

Lemma inv_step T G fs fs' : tracked G → inv G fs → tree_step T fs fs' → inv G fs'.
Proof.
  intros HG [H1 H2 H3] Hst. split; [by apply Hst| |].
  - eapply plain_step; [|done..]. intros q Hq. left. etransitivity; [done|apply removelast_prefix].
  - unfold tracked in HG. rewrite Forall_forall in *. intros p Hp. eapply plain_step; [|done|by apply H3].
    intros q Hq. destruct (HG p Hp) as [Hr _]. by eapply owned_prefix; [apply region_owned|].
Qed.

(** The directory of the path is known to cross no link. *)
Record reach (G : list path) (p : path) : Prop := {
  reach_nonempty : p ≠ [];
  reach_owned : owned p;
  reach_clean : clean p;
  reach_dir : removelast p `prefix_of` removelast W ∨ ∃ g, g ∈ G ∧ removelast p `prefix_of` g }.

(** The path itself is. *)
Definition crossed (G : list path) (p : path) : Prop := ∃ g, g ∈ G ∧ p `prefix_of` g.

Lemma inv_parent G fs p : inv G fs → reach G p → resolve_parent fs p = p.
Proof.
  intros [_ H2 H3] [_ _ Hc [Hp|(g & Hg & Hp)]]; (apply resolve_parent_plain; [done|]); eapply plain_prefix; [done|done|done|].
  rewrite Forall_forall in H3. by apply H3.
Qed.

Lemma inv_crossed G fs p : tracked G → inv G fs → crossed G p → resolve fs p = p ∧ owned p ∧ plain fs p.
Proof.
  intros HG [_ _ H3] (g & Hg & Hp). unfold tracked in HG. rewrite Forall_forall in HG, H3. destruct (HG g Hg) as [Hr Hc].
  assert (plain fs p) by (eapply plain_prefix; [done|by apply H3]). split_and!; [|by eapply owned_prefix; [apply region_owned|]|done].
  apply resolve_plain; [by eapply clean_prefix|done].
Qed.

Lemma step_put (T : path → Prop) p n fs :
  owned p → p ≠ [] → is_dir_at fs (removelast p) = true → not_link (Some n) →
  (node_is_dir n = true ∨ is_dir_at fs p = false) →
  T p ∨ (fs !! p = None ∧ node_is_dir n = true) → tree_step T fs (put_entry p n fs).
Proof.
  intros. etransitivity; [by apply step_insert|]. apply step_touch. eapply owned_prefix; [done|apply removelast_prefix].
Qed.

Lemma step_remove (T : path → Prop) p fs :
  owned p → T p → (∀ q, owned q → q ≠ [] → is_Some (fs !! q) → removelast q ≠ p) → tree_step T fs (remove_entry p fs).
Proof.
  intros. etransitivity; [by apply step_delete|]. apply step_touch. eapply owned_prefix; [done|apply removelast_prefix].
Qed.

Lemma step_mkdir T G umask p mode fs : inv G fs → p = [] ∨ reach G p → tree_step T fs (fs_mkdir umask p mode fs).2.
Proof.
  intros Hi [->|Hp]; [done|]. unfold fs_mkdir. rewrite (inv_parent G fs p Hi Hp). destruct Hp as [Hne Ho _ _].
  rewrite node_at_lookup by done. destruct (fs !! p) eqn:E; [done|]. destruct (is_dir_at fs (removelast p)) eqn:Ed; [|done].
  apply step_put; [done..|by left|by right].
Qed.

Lemma step_set_attr T G f p fs :
  tracked G → inv G fs → crossed G p → (∀ n, shape (f n) = shape n) → tree_step T fs (fs_set f p fs).2.
Proof.
  intros HG Hi Hp Hf. unfold fs_set, fs_stat. destruct (inv_crossed G fs p HG Hi Hp) as (-> & Ho & _).
  destruct p as [|x p]; [done|]. rewrite node_at_lookup by done. destruct (fs !! (x :: p)) as [n|] eqn:E; [|done].
  destruct n; cbn; try done; (eapply step_set; [done|exact E|by rewrite Hf]).
Qed.

Lemma step_open (T : path → Prop) G p writable create fs :
  inv G fs → reach G p → T p → tree_step T fs (fs_open p writable create fs).2.
Proof.
  intros Hi Hp HT. unfold fs_open. rewrite (inv_parent G fs p Hi Hp). destruct Hp as [Hne Ho _ _].
  rewrite node_at_lookup by done. destruct (fs !! p) as [n|] eqn:E; [by destruct n|].
  destruct (negb create); [done|]. destruct (is_dir_at fs (removelast p)) eqn:Ed; [|done].
  apply step_put; [done..| |by left]. right. unfold is_dir_at. by rewrite node_at_lookup, E.
Qed.

Lemma step_edit (T : path → Prop) G h f fs : inv G fs → owned h → h ≠ [] → T h → tree_step T fs (fs_edit h f fs).
Proof.
  intros [Hc _ _] Ho Hne HT. unfold fs_edit. destruct (fs !! h) as [[| | |]|] eqn:E; try done.
  apply step_insert; [done|done| |done| |by left]; [apply Hc; [done..|by rewrite E]|].
  right. unfold is_dir_at. by rewrite node_at_lookup, E.
Qed.

Lemma step_unlink (T : path → Prop) G p fs : inv G fs → reach G p → T p → tree_step T fs (fs_unlink p fs).2.
Proof.
  intros Hi Hp HT. unfold fs_unlink. rewrite (inv_parent G fs p Hi Hp). destruct Hp as [Hne Ho _ _].
  rewrite node_at_lookup by done. destruct (fs !! p) as [n|] eqn:E; [|done].
  assert (node_is_dir n = false → tree_step T fs (remove_entry p fs)) as H.
  { intros Hn. apply step_remove; [done..|]. apply no_children; [apply Hi|]. unfold is_dir_at. by rewrite node_at_lookup, E. }
  destruct n; cbn [snd]; first [by apply H|reflexivity].
Qed.

Lemma is_dir_remove fs p q : is_dir_at fs q = true → q ≠ p → is_dir_at (remove_entry p fs) q = true.
Proof.
  intros H Hne. unfold remove_entry. rewrite (is_dir_at_same (delete p fs)) by apply touch_same.
  unfold is_dir_at in *. destruct q as [|x q]; [done|]. cbn [node_at] in *. by rewrite lookup_delete_ne.
Qed.

Lemma step_replace (T : path → Prop) G src dst fs :
  tracked G → inv G fs → reach G src → crossed G src → reach G dst → T src → T dst →
  tree_step T fs (fs_replace src dst fs).2.
Proof.
  intros HG Hi Hs Hsp Hd HTs HTd. unfold fs_replace.
  rewrite (inv_parent G fs src Hi Hs), (inv_parent G fs dst Hi Hd).
  destruct (inv_crossed G fs src HG Hi Hsp) as (_ & _ & Hpl). destruct Hs as [Hne Ho _ _], Hd as [Hne' Ho' _ _].
  rewrite node_at_lookup by done. destruct (fs !! src) as [n|] eqn:E; [|done].
  assert (not_link (Some n)) as Hnl by (rewrite <-E; by apply Hpl).
  assert (is_dir_at fs src = false → is_dir_at fs (removelast dst) = true → is_dir_at fs dst = false →
    tree_step T fs (put_entry dst n (remove_entry src fs))) as H.
  { intros Hfs Hp Hfd. etransitivity; [apply (step_remove _ src); [done..|]; apply no_children; [apply Hi|done]|].
    apply step_put; [done|done| |done| |by left].
    - apply is_dir_remove; [done|]. intros Eq. congruence.
    - right. apply not_true_iff_false. intros Hb. apply not_true_iff_false in Hfd. apply Hfd.
      unfold remove_entry in Hb. rewrite (is_dir_at_same (delete src fs)) in Hb by apply touch_same.
      unfold is_dir_at in *. rewrite node_at_lookup in * by done. by destruct (decide (dst = src)) as [->|?];
        [rewrite lookup_delete_eq in Hb|rewrite lookup_delete_ne in Hb]. }
  assert (is_dir_at fs src = node_is_dir n) as Hsd by (unfold is_dir_at; by rewrite node_at_lookup, E).
  destruct (is_dir_at fs dst) eqn:E1; [by destruct n|]. destruct (is_dir_at fs (removelast dst)) eqn:E2; [|by destruct n].
  cbn [negb]. case_bool_decide; [by destruct n|]. destruct n; cbn [snd]; first [by apply H|reflexivity].
Qed.

Lemma step_rmdir (T : path → Prop) G p fs : inv G fs → reach G p → T p → tree_step T fs (fs_rmdir p fs).2.
Proof.
  intros Hi Hp HT. unfold fs_rmdir. rewrite (inv_parent G fs p Hi Hp). destruct Hp as [Hne Ho _ _].
  rewrite node_at_lookup by done. destruct (fs !! p) as [n|] eqn:E; [|done].
  destruct (node_is_dir n && negb (has_entries fs p)) eqn:Eb; [|done]. bool_hyps.
  apply step_remove; [done..|]. by apply has_entries_false.
Qed.

(** ** Other processes *)

Lemma lookup_interfere n fs q :
  interfere env paths n fs !! q = if decide (owned q) then fs !! q else re_others env n fs !! q.
Proof.
  unfold interfere. case_decide as Hq.
  - destruct (fs !! q) as [x|] eqn:E.
    + apply lookup_union_Some_l. by apply map_lookup_filter_Some.
    + rewrite lookup_union_r; [|by apply map_lookup_filter_None; left].
      apply map_lookup_filter_None. right. intros y _. cbn. tauto.
  - rewrite lookup_union_r; [|apply map_lookup_filter_None; by right].
    destruct (re_others env n fs !! q) as [x|] eqn:E; [by apply map_lookup_filter_Some|apply map_lookup_filter_None; by left].
Qed.

Lemma step_interfere T n fs : tree_step T fs (interfere env paths n fs).
Proof.
  split.
  - intros Hc q Hq Hne Hs. rewrite lookup_interfere, decide_True in Hs by done. specialize (Hc q Hq Hne Hs).
    unfold is_dir_at in *. destruct (removelast q) as [|x r] eqn:E; [done|]. cbn [node_at] in *.
    rewrite lookup_interfere, decide_True; [done|]. rewrite <-E. eapply owned_prefix; [exact Hq|apply removelast_prefix].
  - intros q Hq. rewrite lookup_interfere, decide_True by done. split; [done|]. right. by left.
  - intros q Hq Ho. rewrite lookup_interfere, decide_False by done. apply Ho.
Qed.
(** ** Runs under the invariant *)

(** What the parts of a run do to its state: the tree evolves, the counters of items and the
    directories to finish stay. *)
Record quiet (T : path → Prop) (s s' : RestoreState) : Prop := {
  qu_tree : tree_step T (rs_fs s) (rs_fs s');
  qu_counts k : k = processed_items ∨ k = successful_items → ft_stats (rs_fetch s') k = ft_stats (rs_fetch s) k;
  qu_dirs : directories s' = directories s }.

Definition calm (G : list path) (T : path → Prop) (s s' : RestoreState) : Prop :=
  inv G (rs_fs s) → quiet T s s'.

#[export] Instance quiet_preorder T : PreOrder (quiet T).
Proof.
  split; [by split|]. intros s1 s2 s3 [H1 H2 H3] [K1 K2 K3].
  split; [by etransitivity|intros; rewrite K2, H2; done|congruence].
Qed.

Section calm.
Context (G : list path) (T : path → Prop) (HG : tracked G).

Lemma calm_inv s s' : calm G T s s' → inv G (rs_fs s) → inv G (rs_fs s').
Proof. intros H Hi. eapply inv_step; [done|done|by apply H]. Qed.

#[export] Instance calm_preorder : PreOrder (calm G T).
Proof.
  split; [by intros s|]. intros s1 s2 s3 H K Hi. etransitivity; [by apply H|]. apply K. by eapply calm_inv.
Qed.

(** What the first part returned may be used for the rest. *)
Lemma calm_bind_post {A B} (m : SM RestoreState A) (k : A → SM RestoreState B) (P : A → Prop) :
  sm_respects (calm G T) m → (∀ s, inv G (rs_fs s) → sm_post m s (λ a _, P a)) →
  (∀ a, P a → sm_respects (calm G T) (k a)) → sm_respects (calm G T) (m ≫= k).
Proof.
  intros Hm Hp Hk s Hi. specialize (Hm s). specialize (Hp s Hi). rewrite sm_bind_spec. unfold sm_post in Hp.
  pose proof (calm_inv s (m s).2 Hm Hi) as Hi'. specialize (Hm Hi).
  destruct (m s) as [[a|e] s']; [|done]. cbn [snd] in *. etransitivity; [exact Hm|]. by apply Hk.
Qed.

Lemma calm_sys {A} (f : tree → res A * tree) :
  (∀ fs, inv G fs → tree_step T fs (f fs).2) → sm_respects (calm G T) (sys env paths f).
Proof.
  intros Hf s Hi. unfold sys.
  assert (∀ t, tree_step T (interfere env paths (rs_calls s) (rs_fs s)) t → tree_step T (rs_fs s) t) as H.
  { intros t Ht. etransitivity; [apply step_interfere|done]. }
  destruct (re_fault env (rs_calls s)); cbn; [split; [by apply H|done..]|].
  specialize (Hf (interfere env paths (rs_calls s) (rs_fs s))). destruct (f _) as [r fs'] eqn:E. cbn in *.
  split; [|done..]. cbn. apply H, Hf. by eapply inv_step, (step_interfere T).
Qed.

Lemma calm_read {A} (f : tree → res A) : sm_respects (calm G T) (sys_read env paths f).
Proof. by apply calm_sys. Qed.

Lemma calm_edit h f : owned h → h ≠ [] → T h → sm_respects (calm G T) (sys_edit env paths h f).
Proof.
  intros Ho Hne HT s Hi. unfold sys_edit.
  assert (∀ g, tree_step T (rs_fs s) (fs_edit h g (interfere env paths (rs_calls s) (rs_fs s)))) as H.
  { intros g. etransitivity; [apply step_interfere|]. eapply step_edit; [|done..]. by eapply inv_step, (step_interfere T). }
  destruct (re_fault env (rs_calls s)); (split; [apply H|done..]).
Qed.

Lemma calm_lstat p : sm_respects (calm G T) (sys_lstat env paths p).
Proof. unfold sys_lstat. case_bool_decide; [apply respects_raise; apply _|apply calm_read]. Qed.

Lemma calm_catching {A} p (m h : SM RestoreState A) :
  sm_respects (calm G T) m → sm_respects (calm G T) h → sm_respects (calm G T) (catching p m h).
Proof. intros Hm Hh. apply respects_catch; [apply _|done|]. intros e k. destruct (p e); [by intros [= <-]|done]. Qed.

Lemma calm_lexists p : sm_respects (calm G T) (lexists env paths p).
Proof.
  apply calm_catching; [|apply respects_ret; apply _]. apply respects_bind; [apply _|apply calm_lstat|].
  intros _. apply respects_ret. apply _.
Qed.

Lemma calm_path_exists p : sm_respects (calm G T) (path_exists env paths p).
Proof.
  apply calm_catching; [|apply respects_ret; apply _]. apply respects_bind; [apply _|apply calm_read|].
  intros _. apply respects_ret. apply _.
Qed.

Lemma calm_isdir p : sm_respects (calm G T) (isdir env paths p).
Proof.
  apply calm_catching; [|apply respects_ret; apply _]. apply respects_bind; [apply _|apply calm_read|].
  intros n. apply respects_ret. apply _.
Qed.

Lemma reach_head p : reach G p → removelast p ≠ [] → reach G (removelast p).
Proof.
  intros [H1 H2 H3 H4] Hne. split; [done|by eapply owned_prefix, removelast_prefix|by eapply clean_prefix; [apply removelast_prefix|]|].
  destruct H4 as [H4|(g & Hg & H4)]; [left|right; exists g; split; [done|]]; (etransitivity; [apply removelast_prefix|done]).
Qed.

Lemma calm_makedirs_at fuel p mode :
  p = [] ∨ reach G p → sm_respects (calm G T) (makedirs_at env paths fuel p mode).
Proof.
  revert p mode. induction fuel as [|fuel IH]; intros p mode Hp; cbn [makedirs_at]; [apply respects_raise; apply _|].
  apply respects_bind; [apply _| |].
  - case_bool_decide as Hne; [apply respects_ret; apply _|]. apply respects_bind; [apply _|apply calm_path_exists|].
    intros []; [apply respects_ret; apply _|].
    apply respects_catch; [apply _|apply IH; right; apply reach_head; [by destruct Hp as [->|?]|done]|]. intros e k. case_bool_decide; [|done].
    intros [= <-]. apply respects_ret. apply _.
  - intros _. apply respects_catch; [apply _|apply calm_sys; intros fs Hi; by eapply step_mkdir|].
    intros e k. destruct (is_oserror e); [|done]. intros [= <-]. apply respects_bind; [apply _|apply calm_isdir|].
    intros []; [apply respects_ret|apply respects_raise]; apply _.
Qed.

Lemma calm_lstat_existing p : sm_respects (calm G T) (lstat_existing env paths p).
Proof.
  apply respects_catch; [apply _| |].
  - apply respects_bind; [apply _|apply calm_lstat|]. intros n. apply respects_ret. apply _.
  - intros e k. case_bool_decide; [|done]. intros [= <-]. apply respects_ret. apply _.
Qed.

Lemma calm_validate p : sm_respects (calm G T) (validate_restore_root env paths p).
Proof.
  apply respects_bind; [apply _|apply calm_lstat_existing|]. intros [n|]; [|apply respects_raise; apply _].
  destruct (node_is_link n); [apply respects_raise; apply _|].
  destruct (negb _); [apply respects_raise|apply respects_ret]; apply _.
Qed.

Lemma calm_reject current comps : sm_respects (calm G T) (reject_existing_redirections env paths current comps).
Proof.
  revert current. induction comps as [|x comps IH]; intros current; [apply respects_ret; apply _|].
  cbn [reject_existing_redirections]. apply respects_bind; [apply _|apply calm_catching; [apply calm_lstat_existing|apply respects_raise; apply _]|].
  intros [n|]; [|apply respects_ret; apply _]. destruct (node_is_link n); [apply respects_raise; apply _|apply IH].
Qed.

Lemma calm_safe_path base rel : sm_respects (calm G T) (safe_restore_path env paths base rel).
Proof.
  apply respects_bind; [apply _|apply calm_validate|]. intros _. destruct (normpath rel) as [[] comps]; [apply respects_raise; apply _|].
  cbv zeta. destruct (negb _); [apply respects_raise; apply _|]. apply respects_bind; [apply _|apply calm_reject|]. intros _.
  apply respects_bind; [apply _| |].
  - apply calm_catching; [|apply respects_raise; apply _].
    repeat (apply respects_bind; [apply _|apply calm_read|intros ?]). apply respects_ret. apply _.
  - intros [b f]. destruct (negb _); [apply respects_raise|apply respects_ret]; apply _.
Qed.
End calm.

(** ** What the calls return *)

Lemma inv_cons G p fs : inv G fs → plain fs p → inv (p :: G) fs.
Proof. intros [H1 H2 H3] Hp. split; [done..|]. by constructor. Qed.

Lemma reach_cons G g p : reach G p → reach (g :: G) p.
Proof.
  intros [H1 H2 H3 [H4|(k & Hk & H4)]]; split; try done; [by left|]. right. exists k. split; [by right|done].
Qed.

Lemma reach_root G p : p = W ∨ p = R → reach G p.
Proof.
  destruct Hsib as [[? ?] ? [? ?] _ _]. intros [->| ->]; split; try done.
  - left. done.
  - by left.
  - right. by right.
  - left. by rewrite sib_parent0.
Qed.

Lemma reach_child G g x : g ∈ G → region g → clean (g ++ [x]) → reach G (g ++ [x]).
Proof.
  intros Hg Hr Hc. split; [by destruct g| |done|].
  - apply region_owned. destruct Hr as [?|?]; [left|right]; by apply prefix_app_r.
  - right. exists g. by rewrite removelast_snoc.
Qed.

Lemma reach_self G p : p ∈ G → tracked G → p ≠ [] → reach G p.
Proof.
  intros Hp HG Hne. unfold tracked in HG. rewrite Forall_forall in HG. destruct (HG p Hp) as [Hr Hc].
  split; [done|by apply region_owned|done|]. right. exists p. split; [done|apply removelast_prefix].
Qed.

(** A call that returned ran on the tree the others left. *)
Lemma sys_ok {A} (f : tree → res A * tree) s a s' :
  sys env paths f s = (Ok a, s') →
  f (interfere env paths (rs_calls s) (rs_fs s)) = (Ok a, rs_fs s') ∧ rs_fetch s' = rs_fetch s.
Proof.
  unfold sys. destruct (re_fault env (rs_calls s)); [done|]. destruct (f _) as [r fs'] eqn:E. by intros [= -> <-].
Qed.

Lemma interfere_owned n fs q : owned q → interfere env paths n fs !! q = fs !! q.
Proof. intros Hq. by rewrite lookup_interfere, decide_True. Qed.

Lemma inv_interfere G n fs : tracked G → inv G fs → inv G (interfere env paths n fs).
Proof. intros HG Hi. eapply inv_step; [done|done|apply (step_interfere (λ _, False))]. Qed.

Lemma node_at_interfere n fs q : owned q → node_at (interfere env paths n fs) q = node_at fs q.
Proof. destruct q; [done|]. apply interfere_owned. Qed.

Lemma is_dir_interfere n fs q : owned q → is_dir_at (interfere env paths n fs) q = is_dir_at fs q.
Proof. intros Hq. unfold is_dir_at. by rewrite node_at_interfere. Qed.

(** A reader returns what is there, and the entries of the run stay. *)
Lemma read_ok {A} (f : tree → res A) s a s' :
  sys_read env paths f s = (Ok a, s') →
  f (interfere env paths (rs_calls s) (rs_fs s)) = Ok a ∧ (∀ q, owned q → rs_fs s' !! q = rs_fs s !! q).
Proof.
  intros [[= E1 E2] _]%sys_ok. split; [done|]. intros q Hq. rewrite <-E2. by apply interfere_owned.
Qed.

Lemma lstat_result G p fs :
  tracked G → inv G fs → reach G p →
  ∀ n, fs_lstat p (interfere env paths n fs) = match node_at fs p with Some x => Ok x | None => Err (absent (interfere env paths n fs) p) end.
Proof.
  intros HG Hi Hp n. unfold fs_lstat. rewrite (inv_parent G); [|by apply inv_interfere|done].
  by rewrite node_at_interfere by apply Hp.
Qed.

Lemma stat_result G p fs :
  tracked G → inv G fs → crossed G p →
  ∀ n, fs_stat p (interfere env paths n fs)
       = match node_at fs p with
         | Some (NLink _) => Err OSError
         | Some x => Ok x
         | None => Err (absent (interfere env paths n fs) p) end.
Proof.
  intros HG Hi Hp n. destruct (inv_crossed G (interfere env paths n fs) p HG) as (E & Ho & _); [by apply inv_interfere|done|].
  unfold fs_stat. rewrite E, node_at_interfere by done. done.
Qed.

Lemma lstat_existing_post G p s :
  tracked G → inv G (rs_fs s) → reach G p →
  sm_post (lstat_existing env paths p) s (λ r s', r = rs_fs s !! p ∧ rs_fs s' !! p = rs_fs s !! p).
Proof.
  intros HG Hi Hp. assert (owned p) as Ho by apply Hp. unfold lstat_existing. apply post_catch.
  - apply post_bind. unfold sm_post, sys_lstat. case_bool_decide; [done|].
    destruct (sys_read env paths (fs_lstat p) s) as [[n|e] s'] eqn:E; [|done]. apply read_ok in E as [E1 E2].
    rewrite (lstat_result G p _ HG Hi Hp), node_at_lookup in E1 by apply Hp.
    cbn. rewrite E2 by done. destruct (rs_fs s !! p); [by injection E1 as ->|done].
  - intros e k s' E. case_bool_decide as Hfn; [|done]. intros [= <-]. subst e. cbn.
    rewrite sm_bind_spec in E. unfold sys_lstat, sys_read, sys in E. case_bool_decide; [done|].
    destruct (re_fault env (rs_calls s)) as [[]|]; [done..|]. rewrite (lstat_result G p _ HG Hi Hp) in E.
    rewrite node_at_lookup in E by apply Hp. destruct (rs_fs s !! p) eqn:El; [done|]. cbn in E. injection E as _ <-. cbn.
    by rewrite interfere_owned.
Qed.

Lemma validate_post G p s :
  tracked G → inv G (rs_fs s) → reach G p →
  sm_post (validate_restore_root env paths p) s (λ _ s', is_dir_at (rs_fs s') p = true ∧ not_link (rs_fs s' !! p)).
Proof.
  intros HG Hi Hp. unfold validate_restore_root. apply post_bind. eapply post_mono; [by eapply lstat_existing_post|].
  intros r s' _ [Hr Hs]. destruct r as [n|]; [|done]. destruct (node_is_link n) eqn:El; [done|].
  destruct (node_is_dir n) eqn:Ed; [|done]. cbn. unfold sm_post. cbn. unfold is_dir_at.
  rewrite node_at_lookup by apply Hp. rewrite Hs, <-Hr. split; [done|]. by destruct n.
Qed.

(** Below a missing entry there is nothing. *)
Lemma closed_missing fs p q : closed fs → owned (p ++ q) → p ≠ [] → fs !! p = None → fs !! (p ++ q) = None.
Proof.
  intros Hc Ho Hne Hp. induction q as [|x q IH] using rev_ind; [by rewrite app_nil_r|].
  apply eq_None_not_Some. intros Hs. rewrite app_assoc in *. apply Hc in Hs; [|done|by destruct (p ++ q)].
  rewrite removelast_snoc in Hs. unfold is_dir_at in Hs. rewrite node_at_lookup in Hs by (by destruct p).
  rewrite IH in Hs; [done|]. by eapply owned_prefix; [|apply prefix_app_r].
Qed.

Lemma reject_post G current comps s :
  tracked G → inv G (rs_fs s) → region current → clean (current ++ comps) → plain (rs_fs s) current →
  sm_post (reject_existing_redirections env paths current comps) s (λ _ s', plain (rs_fs s') (current ++ comps)).
Proof.
  revert current s. induction comps as [|x comps IH]; intros current s HG Hi Hr Hc Hpl.
  { cbn. unfold sm_post. cbn. by rewrite app_nil_r. }
  cbn [reject_existing_redirections]. apply post_bind.
  replace (current ++ x :: comps) with ((current ++ [x]) ++ comps) in * by by rewrite <-app_assoc.
  assert (clean (current ++ [x])) as Hcx by (by apply clean_app in Hc as [? _]).
  assert (clean current) as Hcc by (by apply clean_app in Hcx as [? _]).
  assert (tracked (current :: G)) as HG' by by constructor.
  assert (region (current ++ [x])) as Hrx by (destruct Hr as [?|?]; [left|right]; by apply prefix_app_r).
  assert (reach (current :: G) (current ++ [x])) as Hreach by (apply reach_child; [by left|done|done]).
  assert (inv (current :: G) (rs_fs s)) as Hi' by by apply inv_cons.
  eapply (post_respects (calm (current :: G) (λ _, False))); [apply calm_catching; [done|by apply calm_lstat_existing|apply respects_raise, calm_preorder; done]|].
  apply post_catch; [|intros e k s'; destruct (is_oserror e); [by intros _ [= <-]|done]].
  eapply post_mono; [by apply (lstat_existing_post (current :: G))|].
  intros r s' _ [Hr1 Hs1] Hcalm. pose proof (calm_inv _ _ HG' _ _ Hcalm Hi') as Hi1.
  assert (inv G (rs_fs s')) as Hi2 by (destruct Hi1 as [? ? Hf]; split; [done..|]; by inversion Hf).
  assert (plain (rs_fs s') current) as Hpl1 by (destruct Hi1 as [_ _ Hf]; by inversion Hf).
  assert (not_link (rs_fs s' !! (current ++ [x])) → plain (rs_fs s') (current ++ [x])) as Hstep.
  { intros Hn q Hq Hp. destruct (decide (q = current ++ [x])) as [->|Hne]; [done|].
    apply Hpl1; [done|]. rewrite <-(removelast_snoc current x). by apply proper_prefix_removelast. }
  rewrite <-Hs1 in Hr1. subst r. destruct (rs_fs s' !! (current ++ [x])) as [n|] eqn:E.
  - destruct (node_is_link n) eqn:El; [done|]. apply IH; try done. apply Hstep. by destruct n.
  - unfold sm_post. cbn. intros q Hq Hp. destruct (prefix_weak_total q (current ++ [x]) ((current ++ [x]) ++ comps)) as [H|[k ->]];
      [done|by apply prefix_app_r| |].
    + apply Hstep; done.
    + rewrite (closed_missing _ (current ++ [x]) k); [done|by apply Hi2| |by destruct current|done].
      apply region_owned. destruct Hrx as [?|?]; [left|right]; by apply prefix_app_r.
Qed.
(** *** The path of an item *)

Lemma elem_of_rev {A} (x : A) l : x ∈ rev l ↔ x ∈ l.
Proof. by rewrite !list_elem_of_In, <-in_rev. Qed.

Lemma norm_absolute_clean comps : clean (norm_components true comps).
Proof.
  unfold norm_components, clean. rewrite elem_of_rev.
  assert (∀ acc, u ".." ∉ acc → u ".." ∉ fold_left (norm_step true) comps acc) as H; [|apply H; by inversion 1].
  induction comps as [|x comps IH]; intros acc Hacc; [done|]. cbn [fold_left]. apply IH. unfold norm_step.
  case_bool_decide; [done|]. cbn [negb andb orb]. case_bool_decide as Hx; cbn [orb].
  - rewrite elem_of_cons. intros [E|?]; [by apply Hx|done].
  - rewrite bool_decide_false; [|destruct acc as [|y acc]; [done|]; intros [= ->]; apply Hacc; by left].
    destruct acc; [done|]. cbn. intros ?. apply Hacc. by right.
Qed.

(** Components that [normpath] keeps as they are. *)
Definition normal (p : path) : Prop := Forall (λ x, x ≠ [] ∧ x ≠ u "." ∧ x ≠ u "..") p.

Lemma norm_normal absolute p : normal p → norm_components absolute p = p.
Proof.
  intros Hp. unfold norm_components. assert (∀ acc, fold_left (norm_step absolute) p acc = rev p ++ acc) as ->.
  { induction Hp as [|x p (H1 & H2 & H3) _ IH]; intros acc; [done|]. cbn [fold_left rev]. rewrite IH. unfold norm_step.
    rewrite bool_decide_false by tauto. rewrite bool_decide_true by done. cbn [orb]. by rewrite <-app_assoc. }
  by rewrite app_nil_r, rev_involutive.
Qed.

(** Where an item of the snapshot is placed below a directory: nothing moves up when the
    stored path does not. *)
Definition destination (base_dir : path) (rel_path : pystr) : path :=
  drop (length base_dir) (below base_dir (normpath rel_path).2).

Lemma norm_nonempty absolute comps : Forall (λ x, x ≠ [] ∧ x ≠ u ".") (norm_components absolute comps).
Proof.
  unfold norm_components. rewrite Forall_forall. intros x. rewrite elem_of_rev. revert x. rewrite <-Forall_forall.
  assert (∀ acc, Forall (λ x, x ≠ [] ∧ x ≠ u ".") acc →
    Forall (λ x, x ≠ [] ∧ x ≠ u ".") (fold_left (norm_step absolute) comps acc)) as H; [|by apply H].
  induction comps as [|x comps IH]; intros acc Hacc; [done|]. cbn [fold_left]. apply IH. unfold norm_step.
  case_bool_decide; [done|]. destruct (_ || _); [constructor; [tauto|done]|]. destruct acc; [done|]. by inversion Hacc.
Qed.

Lemma destination_normal base_dir rel_path :
  normal base_dir → u ".." ∉ (normpath rel_path).2 → destination base_dir rel_path = (normpath rel_path).2.
Proof.
  intros Hb Hr. unfold destination, below. pose proof (norm_nonempty (is_absolute rel_path) (split_slash rel_path)) as Hn.
  fold (normpath rel_path).2 in Hn. cbn [normpath snd] in *.
  destruct (norm_components (is_absolute rel_path) (split_slash rel_path)) as [|x l] eqn:E; [apply drop_ge; done|].
  rewrite norm_normal; [by rewrite drop_app_length|]. apply Forall_app. split; [done|]. rewrite Forall_forall in *.
  intros y Hy. destruct (Hn y Hy). split_and!; [done..|]. by intros ->.
Qed.

Notation item_path rel := (below W (normpath rel).2).

Lemma safe_path_post G rel s :
  tracked G → inv G (rs_fs s) →
  sm_post (safe_restore_path env paths W rel) s (λ full s',
    full = item_path rel ∧ W `prefix_of` full ∧ clean full ∧ inv (full :: G) (rs_fs s')).
Proof.
  intros HG Hi. unfold safe_restore_path. apply post_bind.
  eapply (post_respects (calm G (λ _, False))); [by apply calm_validate|].
  eapply post_mono; [eapply (validate_post G W); [done..|by apply reach_root; left]|].
  intros _ s1 _ [Hd Hnl] Hc1. pose proof (calm_inv _ _ HG _ _ Hc1 Hi) as Hi1.
  destruct (normpath rel) as [[] comps] eqn:En; [done|]. cbn [snd]. cbv zeta.
  destruct (is_within W (below W comps)) eqn:Ew; [|done]. cbn [negb]. unfold is_within in Ew. bool_hyps. destruct Ew as [k Ek].
  assert (clean (below W comps)) as Hcl.
  { unfold below. destruct comps; [apply Hsib|apply norm_absolute_clean]. }
  apply post_bind. rewrite Ek, drop_app_length.
  eapply (post_respects (calm G (λ _, False))); [by apply calm_reject|].
  eapply post_mono; [apply (reject_post G); try done; [by left|by rewrite <-Ek|]|].
  { intros q Hne Hq. destruct (decide (q = W)) as [->|Hqw]; [done|]. apply (inv_base _ _ Hi1); [done|].
    by apply proper_prefix_removelast. }
  intros [] s2 _ Hpl Hc2. pose proof (calm_inv _ _ HG _ _ Hc2 Hi1) as Hi2. rewrite <-Ek in Hpl. try rewrite <-Ek.
  assert (tracked (below W comps :: G)) as HG' by (constructor; [|done]; split; [left; by exists k|done]).
  assert (inv (below W comps :: G) (rs_fs s2)) as Hi3 by by apply inv_cons.
  apply post_bind. set (m := catching _ _ _).
  eapply (post_respects (calm (below W comps :: G) (λ _, False))).
  { apply calm_catching; [done| |apply respects_raise, calm_preorder; done].
    pose proof (calm_preorder (below W comps :: G) (λ _, False) HG'). respects_walk ltac:(by apply calm_read). }
  eapply post_mono; [apply post_true|]. intros [b f] s3 _ _ Hc3. pose proof (calm_inv _ _ HG' _ _ Hc3 Hi3) as Hi4.
  destruct (negb (is_within b f)); [done|]. unfold sm_post. cbn. split_and!; [done|by exists k|done|done].
Qed.

(** *** Directories *)

Lemma isdir_post G p s :
  tracked G → inv G (rs_fs s) → crossed G p →
  sm_post (isdir env paths p) s (λ b s', b = true → is_dir_at (rs_fs s') p = true).
Proof.
  intros HG Hi Hp. destruct (inv_crossed G (rs_fs s) p HG Hi Hp) as (_ & Ho & _). unfold isdir.
  apply post_catch; [|intros e k s'; destruct (is_oserror e); [by intros _ [= <-]|done]].
  apply post_bind. unfold sm_post. destruct (sys_read env paths (fs_stat p) s) as [[n|e] s'] eqn:E; [|done].
  apply read_ok in E as [E1 E2]. rewrite (stat_result G p _ HG Hi Hp) in E1. cbn. intros Hn.
  unfold is_dir_at. assert (node_at (rs_fs s') p = node_at (rs_fs s) p) as ->.
  { destruct p; [done|]. by apply E2. }
  destruct (node_at (rs_fs s) p) as [[]|]; cbn in *; by simplify_eq.
Qed.

Lemma makedirs_post G p mode s :
  tracked G → inv G (rs_fs s) → p ∈ G → p ≠ [] →
  sm_post (makedirs env paths p mode) s (λ _ s', is_dir_at (rs_fs s') p = true).
Proof.
  intros HG Hi Hp Hne. assert (reach G p) as Hr by by apply reach_self.
  unfold makedirs. cbn [makedirs_at]. apply post_bind.
  eapply (post_respects (calm G (λ _, False))).
  { pose proof (calm_preorder G (λ _, False) HG). case_bool_decide; [apply respects_ret; apply _|].
    apply respects_bind; [apply _|by apply calm_path_exists|]. intros []; [apply respects_ret; apply _|].
    apply respects_catch; [apply _|apply calm_makedirs_at; [done..|]; right; by apply reach_head|]. intros e k. case_bool_decide; [|done].
    intros [= <-]. apply respects_ret. apply _. }
  eapply post_mono; [apply post_true|]. intros _ s1 _ _ Hc. pose proof (calm_inv _ _ HG _ _ Hc Hi) as Hi1.
  apply post_catch.
  - unfold sm_post. destruct (sys env paths (fs_mkdir _ p mode) s1) as [[[]|e] s2] eqn:E; [|done].
    apply sys_ok in E as [E _]. unfold fs_mkdir in E. rewrite (inv_parent G) in E; [|by apply inv_interfere|done].
    destruct (node_at _ p); [done|]. destruct (is_dir_at _ _); [|done]. injection E as <-.
    unfold put_entry. rewrite (is_dir_at_same (<[p:=NDir (Z.ldiff mode (re_umask env)) None]>
      (interfere env paths (rs_calls s1) (rs_fs s1)))) by apply touch_same.
    unfold is_dir_at. by rewrite node_at_lookup, lookup_insert_eq.
  - intros e k s2 E. destruct (is_oserror e); [|done]. intros [= <-]. apply post_bind.
    assert (inv G (rs_fs s2)) as Hi2.
    { pose proof (calm_sys G (λ _, False) HG (fs_mkdir (re_umask env) p mode)
        (λ fs Hi, step_mkdir _ G _ p mode fs Hi (or_intror Hr)) s1) as H. rewrite E in H. by eapply calm_inv. }
    eapply post_mono; [apply (isdir_post G); [done..|]; by exists p|].
    intros [] s3 _ H; [|done]. unfold sm_post. cbn. auto.
Qed.
End frames.

Lemma clean_snoc p x : clean p → x ≠ u ".." → clean (p ++ [x]).
Proof. intros Hp Hx. apply clean_app. split; [done|]. intros H%list_elem_of_singleton. by apply Hx. Qed.

Lemma siblings_for_snapshot base uuid : clean base → siblings (for_snapshot base uuid).
Proof.
  intros Hb. assert (∀ t : pystr, u "snapshot_" ++ t ≠ u "..") as Hne by done.
  assert (∀ a b : pystr, length a ≠ length b → ¬ (base ++ [a]) `prefix_of` (base ++ [b])) as Hap.
  { intros a b Hl [k E]. rewrite <-(app_assoc base) in E. apply app_inv_head in E. by injection E as -> _. }
  split; unfold for_snapshot; cbn [incomplete_dir resume_dir final_dir].
  - split; apply clean_snoc; try done; rewrite <-app_assoc; apply Hne.
  - by rewrite !removelast_snoc.
  - split; by destruct base.
  - split; apply Hap; rewrite !length_app; cbn; lia.
  - split_and!; [by apply clean_snoc|by destruct base|by rewrite !removelast_snoc|..]; apply Hap; rewrite !length_app; cbn; lia.
Qed.
