(* ===== verification/Restore.v ===== *)
(** * Restoring a snapshot

    [restore/restorer.py] and [restore/service.py]: the tree is built in a working directory,
    each file in a partial file that is checked against the recipe chunk by chunk when an
    earlier run left one, and published by one rename when every item succeeded. The run may
    be interrupted and any system call may fail. Texts, printing and progress are left out. *)

From S2P Require Import Prelude PyStr Common Files Heapq Hrw Cluster Protection Catalog Snapshots Cas StorageNode.
From S2P Require Import RestoreFetch LocalGc RestoreFs.

(** ** What the catalogue says *)

(** [get_snapshot_items]: in the order of paths. *)
Definition get_snapshot_items (c : Catalog) (snapshot_id : Z) : list item_row :=
  py_sorted (λ a b, str_leb (it_path a) (it_path b))
    (filter (λ it, it_snapshot_id it = snapshot_id) (map_to_list (snapshot_items c)).*2).
Definition get_snapshot_uuid (c : Catalog) (snapshot_id : Z) : option pystr :=
  sn_uuid <$> snapshots c !! snapshot_id.
Definition get_snapshot_origin_node_id (c : Catalog) (snapshot_id : Z) : option pystr :=
  sn_origin_node_id <$> snapshots c !! snapshot_id.

(** [RestoreResult], without texts. *)
Record RestoreResult := {
  rr_snapshot_id : Z; rr_completed : bool; rr_interrupted : bool; rr_processed_items : Z;
  rr_successful_items : Z; rr_final_dir : option path; rr_work_dir : option path; rr_error : bool;
  rr_stats : RestoreRunStats }.

(** [_VerifiedPrefix]: the number of chunks is also the next order. *)
Record VerifiedPrefix := { vp_chunks : Z; vp_bytes : Z }.

Definition RESTORE_RESUME_SYNC_BYTES : Z := 64 * 1024 * 1024.

(** The variables of the loop that writes a file. *)
Record WriteVars := { next_order : Z; position : Z; bytes_since_sync : Z }.

Inductive file_outcome := Reused | Written | Failed.

Section restorer.
Context (env : RestoreEnv) (paths : RestorePaths) (blake3 : bytes → bytes).
(** [OrderedBatchChunkPrefetcher._flush_record_window] and the size of its windows. *)
Context (flush : list recipe_chunk → SM FetchState (list (recipe_chunk * bytes) * option exn)).
Context (prefetch_window : Z).
Context (c : Catalog).

Notation sys := (sys env paths).
Notation sys_read := (sys_read env paths).
Notation sys_edit := (sys_edit env paths).
Notation sys_lstat := (sys_lstat env paths).
Notation lexists := (lexists env paths).
Notation isdir := (isdir env paths).
Notation makedirs := (makedirs env paths).
Notation safe_restore_path := (safe_restore_path env paths).

Definition on_fetch {A} (m : SM FetchState A) : SM RestoreState A := λ s,
  let '(r, f) := m (rs_fetch s) in
  (r, {| rs_fs := rs_fs s; rs_calls := rs_calls s; rs_fetch := f; prepared_dirs := prepared_dirs s;
         directories := directories s; resume_name_synced := resume_name_synced s |}).
Definition bump (k : RestoreCounter) (n : Z) : SM RestoreState unit := on_fetch (RestoreFetch.bump k n).

(** A place where only an interruption or a failure of the database can happen. *)
Definition pause : SM RestoreState unit := sys (λ fs, (Ok (), fs)).

(** ** Files *)

(** [_open_regular_file] *)
Definition open_regular_file (p : path) (writable create : bool) : SM RestoreState path :=
  h ← sys (fs_open p writable create);
  opened ← sys_read (fs_fstat h);
  match opened with
  | NFile _ _ _ nlink =>
      if negb (nlink =? 1)%Z then sraise RestorePathError
      else
        (if writable then sys (λ fs, (Ok (), alter (with_mode 384) h fs)) else mret ());;
        mret h
  | _ => sraise RestorePathError
  end.

(** [_open_resume_file]: with the lock. *)
Definition open_resume_file (p : path) : SM RestoreState path :=
  h ← open_regular_file p true true;
  n ← sgets rs_calls;
  sys (λ fs, (if re_locked env n then Err RestorePathError else Ok (), fs));;
  mret h.

(** [_read_exact] at a position: less than [size] bytes at the end of the file. *)
Definition read_exact (h : path) (pos size : Z) : SM RestoreState bytes :=
  n ← sys_read (fs_fstat h);
  mret (take (Z.to_nat size) (drop (Z.to_nat pos) (file_content n))).

(** [handle.write] at a position, and [handle.truncate]. *)
Definition write_at (pos : Z) (raw content : bytes) : bytes :=
  take (Z.to_nat pos) content ++ raw ++ drop (Z.to_nat pos + length raw) content.
Definition write_handle (h : path) (pos : Z) (raw : bytes) : SM RestoreState Z :=
  sys_edit h (write_at pos raw);; mret (Z.of_nat (length raw)).
Definition truncate_handle (h : path) (size : Z) : SM RestoreState unit := sys_edit h (take (Z.to_nat size)).
Definition flush_handle (h : path) : SM RestoreState unit := sys_edit h id.
Definition fstat_size (h : path) : SM RestoreState Z :=
  n ← sys_read (fs_fstat h); mret (Z.of_nat (length (file_content n))).

(** [_sync_resume_checkpoint]: [fsync] of the file and, the first time, of its directory. *)
Definition sync_resume_checkpoint (h : path) (sync_parent : bool) : SM RestoreState unit :=
  flush_handle h;; pause;; if sync_parent then pause;; pause else mret ().

(** [_discard_resume_file] *)
Definition discard_resume_file (p : path) : SM RestoreState unit :=
  scatch (sys (fs_unlink p)) (λ e, if bool_decide (e = FileNotFoundError) then Some (mret ()) else None).

(** [_ensure_work_directory_permissions] *)
Definition mode_of (n : node) : Z :=
  match n with NDir m _ => m | NFile _ m _ _ => m | NOther m => m | NLink _ => 511 end.
Definition ensure_work_directory_permissions (p : path) : SM RestoreState unit :=
  n ← sys_read (fs_lstat p);
  let work_mode := Z.lor (mode_of n) 448 in
  if bool_decide (work_mode ≠ mode_of n) then sys (fs_chmod p work_mode) else mret ().

(** [_restore_work_directory_permissions] *)
Definition path_length (p : path) : nat := length (mjoin p) + length p.
Definition restore_work_directory_permissions : SM RestoreState unit :=
  dirs ← sgets directories;
  sfor (λ p, catching is_oserror (ensure_work_directory_permissions p) (mret ()))
    (incomplete_dir paths
     :: filter (λ p, p ≠ incomplete_dir paths)
          (py_sorted (λ a b, (path_length a.1 <=? path_length b.1)%nat) dirs).*1).

(** [apply_item_metadata]: permissions and times, without insisting. *)
Definition apply_item_metadata (p : path) (it : item_row) : SM RestoreState unit :=
  catching is_oserror
    (sys (fs_chmod p (Catalog.st_mode (it_stat it)));; sys (fs_utime p (Catalog.st_mtime (it_stat it))))
    (mret ()).

(** ** Checking what is there *)

(** The loop of [_validate_completed_file]: [None] when a chunk differs. *)
Fixpoint validate_chunks (h : path) (entries : list recipe_chunk) (chunks bytes : Z)
  : SM RestoreState (option (Z * Z)) :=
  match entries with
  | [] => mret (Some (chunks, bytes))
  | (chunk_order, chunk_hash, chunk_size) :: entries' =>
      if negb (chunk_order =? chunks)%Z then sraise RestoreDataError
      else
        raw ← read_exact h bytes chunk_size;
        if negb (Z.of_nat (length raw) =? chunk_size)%Z then mret None
        else if bool_decide (blake3_hex_digest blake3 raw ≠ chunk_hash) then mret None
        else validate_chunks h entries' (chunks + 1)%Z (bytes + chunk_size)%Z
  end.

(** The content is read after the size, the kind and the mode were looked at. *)
Definition validate_content (p : path) (recipe_id expected_chunk_count expected_size : Z)
  : SM RestoreState bool :=
  h ← open_regular_file p false false;
  let '(entries, error) := iter_recipe_chunk_entries c recipe_id 0 in
  r ← validate_chunks h entries 0 0;
  match r with
  | None => mret false
  | Some (verified_chunks, verified_bytes) =>
      match error with
      | Some e => sraise e
      | None =>
          if negb (verified_chunks =? expected_chunk_count)%Z then sraise RestoreDataError
          else if negb (verified_bytes =? expected_size)%Z then sraise RestoreDataError
          else
            rest ← read_exact h verified_bytes 1;
            mret (bool_decide (rest = []))
      end
  end.

(** [_validate_completed_file] *)
Definition validate_completed_file (p : path) (recipe_id expected_chunk_count expected_size : Z)
  : SM RestoreState bool :=
  st ← catching is_oserror (n ← sys_lstat p; mret (Some n)) (mret None);
  match st with
  | Some (NFile content mode _ nlink) =>
      if negb (nlink =? 1)%Z then mret false
      else if negb (Z.of_nat (length content) =? expected_size)%Z then mret false
      else
        readable ← (if (Z.land mode 256 =? 0)%Z
                    then catching is_oserror (sys (fs_chmod p (Z.lor mode 256));; mret true) (mret false)
                    else mret true);
        if negb readable then mret false
        else catching (λ e, is_oserror e || bool_decide (e = RestorePathError))
               (validate_content p recipe_id expected_chunk_count expected_size) (mret false)
  | _ => mret false
  end.

(** The loop of [_verify_resume_prefix]: stops at the first chunk that is not there. *)
Fixpoint verify_chunks (h : path) (file_size expected_chunk_count : Z) (entries : list recipe_chunk)
    (error : option exn) (chunks bytes : Z) : SM RestoreState (Z * Z) :=
  match entries with
  | [] => match error with Some e => sraise e | None => mret (chunks, bytes) end
  | (chunk_order, chunk_hash, chunk_size) :: entries' =>
      if negb (chunk_order =? chunks)%Z then sraise RestoreDataError
      else if (file_size <? bytes + chunk_size)%Z then mret (chunks, bytes)
      else
        raw ← read_exact h bytes chunk_size;
        if negb (Z.of_nat (length raw) =? chunk_size)%Z then mret (chunks, bytes)
        else if bool_decide (blake3_hex_digest blake3 raw ≠ chunk_hash) then mret (chunks, bytes)
        else if (chunks + 1 =? expected_chunk_count)%Z then mret (chunks + 1, bytes + chunk_size)%Z
        else verify_chunks h file_size expected_chunk_count entries' error (chunks + 1)%Z (bytes + chunk_size)%Z
  end.

(** [_verify_resume_prefix] *)
Definition verify_resume_prefix (h : path) (recipe_id expected_chunk_count expected_size : Z)
  : SM RestoreState VerifiedPrefix :=
  file_size ← fstat_size h;
  let '(entries, error) := iter_recipe_chunk_entries c recipe_id 0 in
  '(chunks, bytes) ← verify_chunks h file_size expected_chunk_count entries error 0 0;
  if ((expected_chunk_count <? chunks) || (expected_size <? bytes))%Z then sraise RestoreDataError
  else
    truncate_handle h bytes;;
    mret {| vp_chunks := chunks; vp_bytes := bytes |}.

(** ** Writing a file *)

(** One chunk of a window. *)
Definition write_chunk (h : path) (durable_checkpoints : bool) (v : WriteVars) (x : recipe_chunk * bytes)
  : SM RestoreState WriteVars :=
  let '((chunk_order, _, chunk_size), raw_chunk) := x in
  if negb (chunk_order =? next_order v)%Z then sraise RestoreDataError
  else if negb (Z.of_nat (length raw_chunk) =? chunk_size)%Z then sraise RestoreDataError
  else
    written ← write_handle h (position v) raw_chunk;
    if negb (written =? Z.of_nat (length raw_chunk))%Z then sraise RestoreDataError
    else
      bump bytes_written written;;
      let since := (bytes_since_sync v + written)%Z in
      let v' := {| next_order := next_order v + 1; position := position v + written; bytes_since_sync := since |}%Z in
      if durable_checkpoints && (RESTORE_RESUME_SYNC_BYTES <=? since)%Z then
        synced ← sgets resume_name_synced;
        sync_resume_checkpoint h (negb synced);;
        smodify (set_synced true);;
        mret {| next_order := next_order v'; position := position v'; bytes_since_sync := 0 |}
      else mret v'.

(** The records of one window, in order, until one is missing. *)
Definition write_window (h : path) (durable_checkpoints : bool) (v : WriteVars) (records : list recipe_chunk)
  : SM RestoreState WriteVars :=
  pause;;
  '(out, error) ← on_fetch (flush records);
  v ← sfold (write_chunk h durable_checkpoints) out v;
  match error with Some e => sraise e | None => mret v end.

(** [iter_raw_chunk_records]: a window that is not full is not read when the records end with
    an error. *)
Definition full_windows (entries : list recipe_chunk) (error : option exn) : list (list recipe_chunk) :=
  let windows := iter_batches entries prefetch_window in
  match error with
  | None => windows
  | Some _ => filter (λ w, Z.of_nat (length w) = Z.max 1 prefetch_window) windows
  end.

(** The body of [with self._open_resume_file]. *)
Definition write_file (h : path) (recipe_id expected_chunk_count expected_size : Z) (resume_existed : bool)
  : SM RestoreState unit :=
  let durable_checkpoints := (RESTORE_RESUME_SYNC_BYTES <=? expected_size)%Z in
  prefix ← verify_resume_prefix h recipe_id expected_chunk_count expected_size;
  (if ((0 <? vp_chunks prefix) || (0 <? vp_bytes prefix))%Z
   then bump chunks_reused (vp_chunks prefix);; bump bytes_reused (vp_bytes prefix) else mret ());;
  (if resume_existed && ((0 <? vp_chunks prefix) || (expected_chunk_count =? 0))%Z
   then bump files_resumed 1 else mret ());;
  let '(entries, error) := iter_recipe_chunk_entries c recipe_id (vp_chunks prefix) in
  v ← sfold (write_window h durable_checkpoints) (full_windows entries error)
        {| next_order := vp_chunks prefix; position := vp_bytes prefix; bytes_since_sync := 0 |};
  match error with
  | Some e => sraise e
  | None =>
      flush_handle h;;
      final_size ← fstat_size h;
      if negb (next_order v =? expected_chunk_count)%Z then sraise RestoreDataError
      else if negb (final_size =? expected_size)%Z then sraise RestoreDataError
      else if durable_checkpoints then
        synced ← sgets resume_name_synced;
        sync_resume_checkpoint h (negb synced);;
        smodify (set_synced true)
      else mret ()
  end.

(** [except KeyboardInterrupt]: what was written is made durable. *)
Definition keep_progress (h : path) : SM RestoreState unit :=
  size ← fstat_size h;
  if (0 <? size)%Z then
    synced ← sgets resume_name_synced;
    catching is_oserror (sync_resume_checkpoint h (negb synced)) (mret ())
  else mret ().

(** The [try] of one file. *)
Definition restore_content (full_path resume_path : path) (it : item_row) : SM RestoreState file_outcome :=
  match it_recipe_id it with
  | None => sraise RestoreDataError
  | Some recipe_id =>
      '(expected_chunk_count, expected_size) ← slift (get_recipe_restore_summary c recipe_id);
      if negb (Catalog.st_size (it_stat it) =? expected_size)%Z then sraise RestoreDataError
      else
        valid ← validate_completed_file full_path recipe_id expected_chunk_count expected_size;
        if valid : bool then
          discard_resume_file resume_path;;
          apply_item_metadata full_path it;;
          bump files_reused 1;; bump files_restored 1;;
          bump chunks_reused expected_chunk_count;; bump bytes_reused expected_size;;
          bump successful_items 1;;
          mret Reused
        else
          resume_existed ← lexists resume_path;
          smodify (set_synced resume_existed);;
          h ← open_resume_file resume_path;
          scatch (write_file h recipe_id expected_chunk_count expected_size resume_existed)
            (λ e, if bool_decide (e = KeyboardInterrupt)
                  then Some (keep_progress h;; sraise KeyboardInterrupt) else None);;
          mret Written
  end.

(** The file is checked again and moved to its place. *)
Definition publish_file (resume_path : path) (it : item_row) : SM RestoreState unit :=
  full_path ← safe_restore_path (incomplete_dir paths) (it_path it);
  sys (fs_replace resume_path full_path);;
  apply_item_metadata full_path it;;
  bump files_restored 1;;
  bump successful_items 1.

Definition restore_file (full_path : path) (it : item_row) : SM RestoreState unit :=
  let parent_dir := removelast full_path in
  prepared ← sgets prepared_dirs;
  (if bool_decide (parent_dir ∈ prepared) then mret ()
   else
     makedirs parent_dir 511;;
     ensure_work_directory_permissions parent_dir;;
     smodify (add_prepared parent_dir));;
  d ← isdir full_path;
  if d : bool then bump files_failed 1
  else
    let resume_path := resume_file paths blake3 (it_path it) in
    outcome ← catching is_exception (restore_content full_path resume_path it) (mret Failed);
    match outcome with
    | Reused => mret ()
    | Written => catching is_exception (publish_file resume_path it) (bump files_failed 1)
    | Failed => bump files_failed 1
    end.

Definition restore_directory (full_path : path) (it : item_row) : SM RestoreState unit :=
  makedirs full_path 511;;
  ensure_work_directory_permissions full_path;;
  smodify (add_prepared full_path);;
  smodify (add_directory full_path it);;
  bump directories_created 1;;
  bump successful_items 1.

(** One turn of the loop over the items. *)
Definition process_item (it : item_row) : SM RestoreState unit :=
  bump processed_items 1;;
  r ← scatch (full_path ← safe_restore_path (incomplete_dir paths) (it_path it); mret (Some full_path))
        (λ e, if bool_decide (e = RestorePathError) then Some (mret None) else None);
  match r with
  | None => mret ()
  | Some full_path =>
      match it_type it with
      | ItemDir => restore_directory full_path it
      | ItemFile => restore_file full_path it
      end
  end.

(** ** The run *)

Definition prepare_directories : SM RestoreState unit :=
  catching (λ e, is_oserror e || bool_decide (e = RestorePathError))
    (makedirs (incomplete_dir paths) 511;;
     validate_restore_root env paths (incomplete_dir paths);;
     ensure_work_directory_permissions (incomplete_dir paths);;
     makedirs (resume_dir paths) 448;;
     validate_restore_root env paths (resume_dir paths);;
     sys (fs_chmod (resume_dir paths) 448))
    (sraise StopanStorageError).

Definition result (snapshot_id : Z) (completed interrupted : bool) (final work : option path) (error : bool)
  : SM RestoreState RestoreResult := λ s,
  let stats := ft_stats (rs_fetch s) in
  (Ok {| rr_snapshot_id := snapshot_id; rr_completed := completed; rr_interrupted := interrupted;
         rr_processed_items := stats processed_items; rr_successful_items := stats successful_items;
         rr_final_dir := final; rr_work_dir := work; rr_error := error; rr_stats := stats |}, s).

(** Before the loop the result has no counters. *)
Definition refused (snapshot_id : Z) (final work : option path) : SM RestoreState RestoreResult := λ s,
  (Ok {| rr_snapshot_id := snapshot_id; rr_completed := false; rr_interrupted := false;
         rr_processed_items := 0; rr_successful_items := 0; rr_final_dir := final; rr_work_dir := work;
         rr_error := true; rr_stats := ft_stats (rs_fetch s) |}, s).

(** What follows when every item succeeded. *)
Definition publish (snapshot_id : Z) : SM RestoreState RestoreResult :=
  let incomplete := incomplete_dir paths in
  let final := final_dir paths in
  closed ← scatch (sys (fs_rmdir (resume_dir paths));; mret true) (λ e,
    if bool_decide (e = FileNotFoundError) then Some (mret true)
    else if is_oserror e then Some (mret false) else None);
  if negb closed then result snapshot_id false false None (Some incomplete) true
  else
    appeared ← lexists final;
    if appeared : bool then result snapshot_id false false (Some final) (Some incomplete) true
    else
      dirs ← sgets directories;
      sfor (λ d, apply_item_metadata d.1 d.2)
        (py_sorted (λ a b, (path_length b.1 <=? path_length a.1)%nat) dirs);;
      scatch
        (sys (fs_rename_noreplace incomplete final);;
         result snapshot_id true false (Some final) None false)
        (λ e,
          if bool_decide (e = FileExistsError) then Some
            (restore_work_directory_permissions;;
             result snapshot_id false false (Some final) (Some incomplete) true)
          else if is_oserror e then Some
            (restore_work_directory_permissions;;
             result snapshot_id false false None (Some incomplete) true)
          else None).

Definition restore_items (snapshot_id : Z) (items : list item_row) : SM RestoreState RestoreResult :=
  prepare_directories;;
  smodify (add_prepared (incomplete_dir paths));;
  interrupted ← scatch (sfor process_item items;; mret false) (λ e,
    if bool_decide (e = KeyboardInterrupt) then Some (mret true) else None);
  if interrupted : bool then result snapshot_id false true None (Some (incomplete_dir paths)) true
  else
    stats ← sgets (λ s, ft_stats (rs_fetch s));
    if ((stats successful_items =? stats processed_items) && (0 <? stats processed_items))%Z
    then publish snapshot_id
    else result snapshot_id false false None (Some (incomplete_dir paths)) true.
End restorer.

(** [SnapshotRestorer.restore] *)
Definition restore (env : RestoreEnv) (blake3 : bytes → bytes)
    (flush : list recipe_chunk → SM FetchState (list (recipe_chunk * bytes) * option exn))
    (prefetch_window : Z) (c : Catalog) (base_output_dir : path) (snapshot_id : Z)
  : SM RestoreState RestoreResult :=
  match get_snapshot_status c snapshot_id with
  | (None, _) => refused snapshot_id None None
  | (Some status, _) =>
      if bool_decide (status ≠ COMPLETE) then refused snapshot_id None None
      else
        match get_snapshot_uuid c snapshot_id with
        | None | Some [] => sraise RestoreDataError
        | Some snapshot_uuid =>
            let paths := for_snapshot base_output_dir snapshot_uuid in
            existing ← lexists env paths (final_dir paths);
            if existing : bool then refused snapshot_id (Some (final_dir paths)) None
            else match get_snapshot_items c snapshot_id with
            | [] => refused snapshot_id None (Some (incomplete_dir paths))
            | items => restore_items env paths blake3 flush prefetch_window c snapshot_id items
            end
        end
  end.

(** ** What the restorer needs of the chunk service *)

(** The counters of items are left alone. *)
Definition same_counts (s s' : FetchState) : Prop :=
  ft_stats s' processed_items = ft_stats s processed_items ∧ ft_stats s' successful_items = ft_stats s successful_items.

#[export] Instance same_counts_preorder : PreOrder same_counts.
Proof. split; [by intros s|]. intros s1 s2 s3 [H1 H2] [K1 K2]. split; congruence. Qed.

(** A window gives the records in order, with data of their hash, until an error ends it. *)
Class ChunkSource (blake3 : bytes → bytes)
    (flush : list recipe_chunk → SM FetchState (list (recipe_chunk * bytes) * option exn)) : Prop := {
  source_genuine records s : sm_post (flush records) s (λ r _,
    r.1.*1 `prefix_of` records ∧ Forall (λ x, blake3_hex_digest blake3 x.2 = x.1.1.2) r.1
    ∧ (r.2 = None → r.1.*1 = records));
  source_counts records : sm_respects same_counts (flush records) }.

(** The content of a file is that of a recipe: chunks of the sizes and hashes of the rows,
    one after the other, and nothing else. *)
Fixpoint matches (blake3 : bytes → bytes) (rows : list recipe_chunk) (content : bytes) : Prop :=
  match rows with
  | [] => content = []
  | (_, chunk_hash, chunk_size) :: rows' =>
      ∃ raw rest, content = raw ++ rest ∧ Z.of_nat (length raw) = chunk_size
        ∧ blake3_hex_digest blake3 raw = chunk_hash ∧ matches blake3 rows' rest
  end.

Lemma matches_app blake3 r1 r2 c1 c2 :
  matches blake3 r1 c1 → matches blake3 r2 c2 → matches blake3 (r1 ++ r2) (c1 ++ c2).
Proof.
  revert c1. induction r1 as [|[[o h] sz] r1 IH]; intros c1 H1 H2; cbn in *; [by subst|].
  destruct H1 as (raw & rest & -> & ? & ? & H1). exists raw, (rest ++ c2). rewrite <-app_assoc. auto.
Qed.

Definition total_size (rows : list recipe_chunk) : Z := fold_right Z.add 0%Z ((λ rc : recipe_chunk, rc.2) <$> rows).

Lemma total_size_app r1 r2 : total_size (r1 ++ r2) = (total_size r1 + total_size r2)%Z.
Proof. unfold total_size. induction r1 as [|x r1 IH]; cbn in *; lia. Qed.

Lemma matches_length blake3 rows content : matches blake3 rows content → Z.of_nat (length content) = total_size rows.
Proof.
  revert content. induction rows as [|[[o h] sz] rows IH]; intros content H; cbn in *; [by subst|].
  destruct H as (raw & rest & -> & <- & _ & H). apply IH in H. rewrite length_app.
  unfold total_size in *. cbn. lia.
Qed.

Section specs.
Context (env : RestoreEnv) (paths : RestorePaths) (Hsib : siblings paths) (blake3 : bytes → bytes).
Context (flush : list recipe_chunk → SM FetchState (list (recipe_chunk * bytes) * option exn)).
Context `{!ChunkSource blake3 flush} (prefetch_window : Z) (c : Catalog) (Hwf : catalog_wf c).

Notation W := (incomplete_dir paths).
Notation R := (resume_dir paths).
Notation tracked := (tracked paths).
Notation inv := (inv paths).
Notation reach := (reach paths).
Notation owned := (owned paths).
Notation calm := (calm env paths).

(** ** Everything leaves the rest of the tree alone *)

Section quietly.
Context (G : list path) (T : path → Prop) (HG : tracked G).
#[local] Instance calm_pre : PreOrder (calm G T) := calm_preorder env paths Hsib G T HG.

Ltac calm_sys := apply (calm_sys env paths Hsib G T HG).

Lemma calm_read' {A} (f : tree → res A) : sm_respects (calm G T) (sys_read env paths f).
Proof. by apply calm_read. Qed.

Lemma calm_catch {A} p (m k : SM RestoreState A) :
  sm_respects (calm G T) m → sm_respects (calm G T) k → sm_respects (calm G T) (catching p m k).
Proof. by apply calm_catching. Qed.

Lemma calm_pause : sm_respects (calm G T) (pause env paths).
Proof. by calm_sys. Qed.

Lemma calm_fetch {A} (m : SM FetchState A) : sm_respects same_counts m → sm_respects (calm G T) (on_fetch m).
Proof.
  intros Hm s _. unfold on_fetch. specialize (Hm (rs_fetch s)). destruct (m (rs_fetch s)) as [r f]. cbn in *.
  destruct Hm as [H1 H2]. split; [done| |done]. by intros k [->| ->].
Qed.

Lemma calm_bump k n : k ≠ processed_items → k ≠ successful_items → sm_respects (calm G T) (bump k n).
Proof.
  intros H1 H2. apply calm_fetch. intros s. unfold RestoreFetch.bump, smodify, same_counts, add_stat. cbn.
  by rewrite !bool_decide_false.
Qed.

Lemma calm_modify (f : RestoreState → RestoreState) :
  (∀ s, rs_fs (f s) = rs_fs s ∧ rs_fetch (f s) = rs_fetch s ∧ directories (f s) = directories s) →
  sm_respects (calm G T) (smodify f).
Proof.
  intros Hf. apply respects_modify. intros s _. destruct (Hf s) as (H1 & H2 & H3).
  split; [by rewrite H1|by rewrite H2|done].
Qed.

Lemma calm_synced b : sm_respects (calm G T) (smodify (set_synced b)).
Proof. by apply calm_modify. Qed.

Lemma calm_attr f p :
  crossed G p → (∀ n, shape (f n) = shape n) → sm_respects (calm G T) (sys env paths (fs_set f p)).
Proof. intros Hp Hf. calm_sys. intros fs Hi. by eapply step_set_attr. Qed.

Lemma calm_chmod p mode : crossed G p → sm_respects (calm G T) (sys env paths (fs_chmod p mode)).
Proof. intros. apply calm_attr; [done..|]. by intros []. Qed.

Lemma calm_utime p t : crossed G p → sm_respects (calm G T) (sys env paths (fs_utime p t)).
Proof. intros. apply calm_attr; [done..|]. by intros []. Qed.

Lemma calm_metadata p it : crossed G p → sm_respects (calm G T) (apply_item_metadata env paths p it).
Proof.
  intros. apply calm_catch; [|apply respects_ret; apply _].
  apply respects_bind; [apply _|by apply calm_chmod|intros _; by apply calm_utime].
Qed.

Lemma calm_permissions p : crossed G p → sm_respects (calm G T) (ensure_work_directory_permissions env paths p).
Proof.
  intros. apply respects_bind; [apply _|apply calm_read'|]. intros n. cbv zeta.
  case_bool_decide; [by apply calm_chmod|apply respects_ret; apply _].
Qed.

(** Through the partial file of an item. *)
Context (h : path) (Hh : owned h) (Hne : h ≠ []) (HT : T h).

Lemma calm_edit' f : sm_respects (calm G T) (sys_edit env paths h f).
Proof. by apply calm_edit. Qed.

Lemma calm_read_exact pos size : sm_respects (calm G T) (read_exact env paths h pos size).
Proof. respects_walk ltac:(apply calm_read'). Qed.

Lemma calm_sync b : sm_respects (calm G T) (sync_resume_checkpoint env paths h b).
Proof. respects_walk ltac:(first [apply calm_edit'|apply calm_pause]). Qed.

Lemma calm_fstat_size : sm_respects (calm G T) (fstat_size env paths h).
Proof. respects_walk ltac:(apply calm_read'). Qed.

Lemma calm_verify_chunks size n entries error k b :
  sm_respects (calm G T) (verify_chunks env paths blake3 h size n entries error k b).
Proof.
  revert k b. induction entries as [|[[o hash] sz] entries IH]; intros k b; cbn [verify_chunks].
  - respects_walk idtac.
  - respects_walk ltac:(first [apply calm_read_exact|apply IH]).
Qed.

Lemma calm_verify_prefix rid n size : sm_respects (calm G T) (verify_resume_prefix env paths blake3 c h rid n size).
Proof.
  unfold verify_resume_prefix.
  respects_walk ltac:(first [apply calm_fstat_size|apply calm_verify_chunks|apply calm_edit']).
Qed.

Lemma calm_write_chunk durable v x : sm_respects (calm G T) (write_chunk env paths h durable v x).
Proof.
  unfold write_chunk, write_handle.
  respects_walk ltac:(first [apply calm_edit'|by apply calm_bump|apply calm_sync|apply calm_synced]).
Qed.

Lemma calm_write_window durable v records : sm_respects (calm G T) (write_window env paths flush h durable v records).
Proof.
  unfold write_window. respects_walk ltac:(first [apply calm_pause|apply calm_fetch, source_counts
    |apply respects_fold; [apply _|intros; apply calm_write_chunk]]).
Qed.

Lemma calm_write_file rid n size existed :
  sm_respects (calm G T) (write_file env paths blake3 flush prefetch_window c h rid n size existed).
Proof.
  unfold write_file. respects_walk ltac:(first [apply calm_verify_prefix|by apply calm_bump|apply calm_edit'
    |apply calm_fstat_size|apply calm_sync|apply calm_synced
    |apply respects_fold; [apply _|intros; apply calm_write_window]]).
Qed.

Lemma calm_keep_progress : sm_respects (calm G T) (keep_progress env paths h).
Proof.
  unfold keep_progress. respects_walk ltac:(first [apply calm_fstat_size
    |apply calm_catch; [apply calm_sync|apply respects_ret; apply _]]).
Qed.

(** Opening it gives the path itself. *)
Lemma open_path p writable create s :
  inv G (rs_fs s) → reach G p → sm_post (sys env paths (fs_open p writable create)) s (λ q _, q = p).
Proof.
  intros Hi Hp. unfold sm_post. destruct (sys env paths (fs_open p writable create) s) as [[q|e] s'] eqn:E; [|done].
  apply sys_ok in E as [E _]. unfold fs_open in E. rewrite (inv_parent paths G) in E; [|by apply inv_interfere|done].
  destruct (node_at _ p) as [[]|]; [by destruct writable; simplify_eq|by simplify_eq..|].
  destruct (negb create); [done|]. destruct (is_dir_at _ _); by simplify_eq.
Qed.

Lemma calm_fchmod p mode : owned p → sm_respects (calm G T) (sys env paths (λ fs, (Ok (), alter (with_mode mode) p fs))).
Proof.
  intros Hp. calm_sys. intros fs Hi. cbn. apply step_same; [|intros q Hq; rewrite lookup_alter_ne; [done|by intros ->]].
  intros q. destruct (decide (q = p)) as [->|?]; [rewrite lookup_alter_eq|by rewrite lookup_alter_ne].
  by destruct (fs !! p) as [[]|].
Qed.

Lemma calm_open_regular writable create : reach G h → sm_respects (calm G T) (open_regular_file env paths h writable create).
Proof.
  intros Hp. unfold open_regular_file.
  apply (calm_bind_post env paths Hsib G T HG _ _ (λ q, q = h)).
  - calm_sys. intros fs Hi. by eapply step_open.
  - intros s Hi. by apply open_path.
  - intros q ->. respects_walk ltac:(first [apply calm_read'|by apply calm_fchmod]).
Qed.

Lemma calm_open_resume : reach G h → sm_respects (calm G T) (open_resume_file env paths h).
Proof.
  intros Hp. unfold open_resume_file. apply respects_bind; [apply _|by apply calm_open_regular|]. intros q.
  respects_walk ltac:(by calm_sys).
Qed.

Lemma calm_discard : reach G h → sm_respects (calm G T) (discard_resume_file env paths h).
Proof.
  intros Hp. apply respects_catch; [apply _|calm_sys; intros fs Hi; by eapply step_unlink|].
  intros e k. case_bool_decide; [|done]. intros [= <-]. apply respects_ret. apply _.
Qed.

Lemma calm_validate_chunks entries k b : sm_respects (calm G T) (validate_chunks env paths blake3 h entries k b).
Proof.
  revert k b. induction entries as [|[[o hash] sz] entries IH]; intros k b; cbn [validate_chunks];
    respects_walk ltac:(first [apply calm_read_exact|apply IH]).
Qed.
Lemma calm_validate_content rid n size :
  reach G h → sm_respects (calm G T) (validate_content env paths blake3 c h rid n size).
Proof.
  intros Hp. unfold validate_content. apply (calm_bind_post env paths Hsib G T HG _ _ (λ q, q = h)).
  - by apply calm_open_regular.
  - intros s Hi. unfold open_regular_file. apply post_bind. eapply post_mono; [by apply open_path|].
    intros q s1 _ ->. apply post_bind. eapply post_mono; [apply post_true|]. intros [|content m t l| |] s2 _ _; try done.
    destruct (negb _); [done|]. apply post_bind. eapply post_mono; [apply post_true|]. done.
  - intros q ->. respects_walk ltac:(first [apply calm_validate_chunks|apply calm_read_exact]).
Qed.

Lemma calm_validate_completed rid n size :
  reach G h → crossed G h → sm_respects (calm G T) (validate_completed_file env paths blake3 c h rid n size).
Proof.
  intros Hp Hc. unfold validate_completed_file.
  respects_walk ltac:(first [apply calm_catch; [|apply respects_ret; apply _];
    first [by apply calm_validate_content
          |apply respects_bind; [apply _|first [by apply calm_lstat|by apply calm_chmod]|intros; apply respects_ret; apply _]]]).
Qed.
End quietly.

Lemma calm_weaken G (T T' : path → Prop) {A} (m : SM RestoreState A) :
  (∀ q, T q → T' q) → sm_respects (calm G T) m → sm_respects (calm G T') m.
Proof.
  intros HT Hm s Hi. destruct (Hm s Hi) as [H1 H2 H3]. split; [by eapply tree_step_weaken|done..].
Qed.

(** ** Files whose content is followed *)

Definition file_at (s : RestoreState) (p : path) : option bytes := content_of (rs_fs s !! p).

Lemma step_file (T : path → Prop) fs fs' p :
  tree_step env paths T fs fs' → owned p → ¬ T p → is_Some (content_of (fs !! p)) →
  content_of (fs' !! p) = content_of (fs !! p).
Proof.
  intros [_ H _] Ho HT [ct Hct]. destruct (H p Ho) as [_ [?|[Hs|[E _]]]]; [done| |by rewrite E in Hct].
  symmetry. by apply same_shape_content.
Qed.

Lemma step_dir (T : path → Prop) fs fs' p :
  tree_step env paths T fs fs' → owned p → ¬ T p → is_dir_at fs p = true → is_dir_at fs' p = true.
Proof.
  intros [_ H _] Ho HT Hd. destruct (H p Ho) as [_ [?|[Hs|[_ E]]]]; [done| |done]. by rewrite (is_dir_at_same fs).
Qed.

(** Reading changes no entry of the run. *)
Definition unchanged (s s' : RestoreState) : Prop := ∀ q, owned q → rs_fs s' !! q = rs_fs s !! q.

#[local] Instance unchanged_preorder : PreOrder unchanged.
Proof. split; [by intros s q|]. intros s1 s2 s3 H1 H2 q Hq. by rewrite H2, H1. Qed.

Lemma unchanged_read {A} (f : tree → res A) : sm_respects unchanged (sys_read env paths f).
Proof.
  intros s q Hq. unfold sys_read, sys. destruct (re_fault env (rs_calls s)); cbn; by apply interfere_owned.
Qed.

Lemma unchanged_read_exact h pos size : sm_respects unchanged (read_exact env paths h pos size).
Proof. respects_walk ltac:(apply unchanged_read). Qed.

Lemma unchanged_file s s' p : unchanged s s' → owned p → file_at s' p = file_at s p.
Proof. intros H Hp. unfold file_at. by rewrite H. Qed.

Lemma fstat_post h s ct :
  owned h → h ≠ [] → file_at s h = Some ct →
  sm_post (sys_read env paths (fs_fstat h)) s (λ n s', file_content n = ct ∧ unchanged s s').
Proof.
  intros Ho Hne Hct. eapply (post_respects unchanged); [apply unchanged_read|]. unfold sm_post.
  destruct (sys_read env paths (fs_fstat h) s) as [[n|e] s'] eqn:E; [|done]. apply read_ok in E as [E _]. intros Hun.
  split; [|done]. unfold fs_fstat in E. rewrite node_at_lookup, interfere_owned in E by done.
  unfold file_at, content_of in Hct. destruct (rs_fs s !! h) as [[]|]; try done. injection E as <-. cbn.
  destruct (_ =? _)%Z; by simplify_eq.
Qed.

Lemma read_exact_post h pos size s ct :
  owned h → h ≠ [] → file_at s h = Some ct →
  sm_post (read_exact env paths h pos size) s (λ raw s',
    raw = take (Z.to_nat size) (drop (Z.to_nat pos) ct) ∧ file_at s' h = Some ct ∧ unchanged s s').
Proof.
  intros Ho Hne Hct. apply post_bind. eapply post_mono; [by eapply fstat_post|]. intros n s' _ [<- Hun].
  unfold sm_post. cbn. split_and!; [done| |done]. by rewrite (unchanged_file s).
Qed.

Lemma take_drop_app {A} (pre suf : list A) b k :
  b = Z.of_nat (length pre) → take k (drop (Z.to_nat b) (pre ++ suf)) = take k suf.
Proof. intros ->. by rewrite Nat2Z.id, drop_app_length. Qed.

(** The chunk that comes next in a file. *)
Lemma next_chunk (pre suf raw : bytes) (b sz : Z) :
  b = Z.of_nat (length pre) → raw = take (Z.to_nat sz) (drop (Z.to_nat b) (pre ++ suf)) →
  Z.of_nat (length raw) = sz →
  ∃ suf', suf = raw ++ suf' ∧ pre ++ suf = (pre ++ raw) ++ suf' ∧ (b + sz = Z.of_nat (length (pre ++ raw)))%Z.
Proof.
  intros Hb -> Hl. rewrite take_drop_app in * by done. exists (drop (Z.to_nat sz) suf).
  split_and!; [by rewrite take_drop|by rewrite <-app_assoc, take_drop|]. rewrite length_app. lia.
Qed.

Lemma validate_chunks_post h entries k b pre suf s :
  owned h → h ≠ [] → file_at s h = Some (pre ++ suf) → b = Z.of_nat (length pre) →
  sm_post (validate_chunks env paths blake3 h entries k b) s (λ r s', unchanged s s' ∧ ∀ k' b', r = Some (k', b') →
    ∃ c1 c2, suf = c1 ++ c2 ∧ matches blake3 entries c1 ∧ b' = Z.of_nat (length (pre ++ c1))).
Proof.
  intros Ho Hne. revert k b pre suf s. induction entries as [|[[o hash] sz] entries IH]; intros k b pre suf s Hct Hb.
  { cbn. unfold sm_post. cbn. split; [done|]. intros k' b' [= <- <-]. exists [], suf. by rewrite app_nil_r. }
  cbn [validate_chunks]. destruct (negb _); [done|]. apply post_bind.
  eapply post_mono; [by eapply read_exact_post|]. intros raw s1 _ (Hraw & Hct1 & Hun1).
  destruct (negb (_ =? sz)%Z) eqn:El; [done|]. case_bool_decide as Hh; [done|]. bool_hyps.
  destruct (next_chunk pre suf raw b sz Hb Hraw El) as (suf' & -> & Ea & Eb).
  rewrite Ea in Hct1. eapply post_mono; [by eapply (IH (k + 1)%Z _ (pre ++ raw) suf')|].
  intros r s2 _ [Hun2 Hr]. split; [by etransitivity|]. intros k' b' ->. destruct (Hr k' b' eq_refl) as (c1 & c2 & -> & Hm & ->).
  exists (raw ++ c1), c2. split_and!; [by rewrite app_assoc| |by rewrite app_assoc]. by exists raw, c1.
Qed.

Lemma verify_chunks_post h size n entries error k b pre suf s :
  owned h → h ≠ [] → file_at s h = Some (pre ++ suf) → b = Z.of_nat (length pre) →
  sm_post (verify_chunks env paths blake3 h size n entries error k b) s (λ r s', unchanged s s' ∧
    ∃ j c1 c2, suf = c1 ++ c2 ∧ matches blake3 (take j entries) c1 ∧ j ≤ length entries
      ∧ r = (k + Z.of_nat j, Z.of_nat (length (pre ++ c1)))%Z).
Proof.
  intros Ho Hne. revert k b pre suf s. induction entries as [|[[o hash] sz] entries IH]; intros k b pre suf s Hct Hb.
  { cbn. destruct error; [done|]. unfold sm_post. cbn. split; [done|]. exists 0, [], suf.
    split_and!; [done..|]. rewrite app_nil_r, Z.add_0_r. by subst. }
  assert (∀ s', unchanged s s' → sm_post (mret (k, b)) s' (λ r s'', unchanged s s'' ∧
    ∃ j c1 c2, suf = c1 ++ c2 ∧ matches blake3 (take j ((o, hash, sz) :: entries)) c1 ∧ j ≤ length ((o, hash, sz) :: entries)
      ∧ r = (k + Z.of_nat j, Z.of_nat (length (pre ++ c1)))%Z)) as Hstop.
  { intros s' Hun. split; [done|]. exists 0, [], suf. split_and!; [done..|cbn; lia|]. rewrite app_nil_r, Z.add_0_r. by subst. }
  cbn [verify_chunks]. destruct (negb (o =? k)%Z); [done|]. destruct (size <? b + sz)%Z; [by apply Hstop|].
  apply post_bind. eapply post_mono; [by eapply read_exact_post|]. intros raw s1 _ (Hraw & Hct1 & Hun1).
  destruct (negb (_ =? sz)%Z) eqn:El; [by apply Hstop|]. case_bool_decide as Hh; [by apply Hstop|]. bool_hyps.
  destruct (next_chunk pre suf raw b sz Hb Hraw El) as (suf' & -> & Ea & Eb).
  destruct (k + 1 =? n)%Z eqn:En.
  - unfold sm_post. cbn. split; [done|]. exists 1, raw, suf'. split_and!; [done| |lia|].
    + cbn. exists raw, []. by rewrite app_nil_r.
    + f_equal. lia.
  - rewrite Ea in Hct1. eapply post_mono; [by eapply (IH (k + 1)%Z _ (pre ++ raw) suf')|].
    intros r s2 _ [Hun2 (j & c1 & c2 & -> & Hm & Hj & ->)]. split; [by etransitivity|].
    exists (S j), (raw ++ c1), c2. split_and!; [by rewrite app_assoc| |cbn; lia|rewrite app_assoc; f_equal; lia].
    cbn. by exists raw, c1.
Qed.
(** ** The recipe *)

Definition rows_of (rid : Z) : list recipe_chunk := default [] (recipe_chunks c !! rid).

Lemma recipe_entries rid n size k :
  get_recipe_restore_summary c rid = Ok (n, size) → k ≤ length (rows_of rid) →
  n = Z.of_nat (length (rows_of rid)) ∧ size = total_size (rows_of rid)
  ∧ iter_recipe_chunk_entries c rid (Z.of_nat k) = (drop k (rows_of rid), None).
Proof.
  intros Hs Hk. unfold get_recipe_restore_summary in Hs. destruct (recipes c !! rid) as [row|] eqn:Er; [|done].
  destruct (_ || _); [done|]. destruct (negb _); [done|]. injection Hs as <- <-. unfold rows_of in *.
  assert (check_recipe_chunks 0 (default [] (recipe_chunks c !! rid)) = Ok ()
    ∧ (rc_chunk_count row, rc_total_size row) = recipe_totals (default [] (recipe_chunks c !! rid))) as [Hck Ht].
  { pose proof (cwf_recipes c Hwf) as Hr. destruct (recipe_chunks c !! rid) as [rows|] eqn:E; cbn.
    - destruct (rwf_rows c Hr _ _ E) as (_ & Hck & _ & (row' & Hrow & Ht)). split; [done|]. congruence.
    - split; [done|]. by rewrite (rwf_empty c Hr _ _ Er E). }
  unfold recipe_totals in Ht. injection Ht as Hn Hsz. split_and!; [done|done|].
  destruct (check_drop 0 _ k Hck) as [H1 H2]. unfold iter_recipe_chunk_entries.
  rewrite (proj2 (Z.ltb_ge _ _)) by lia. rewrite Z.add_0_l in *. rewrite H2. by apply iter_entries_checked.
Qed.

(** ** Building a partial file *)

(** A write through an open file that returned. *)
Lemma edit_post G T h f s ct :
  tracked G → inv G (rs_fs s) → owned h → h ≠ [] → T h → file_at s h = Some ct →
  sm_post (sys_edit env paths h f) s (λ _ s', file_at s' h = Some (f ct) ∧ quiet env paths T s s').
Proof.
  intros HG Hi Ho Hne HT Hct. eapply (post_respects (calm G T)); [by apply calm_edit|].
  unfold sm_post, sys_edit. destruct (re_fault env (rs_calls s)); [done|]. intros Hq. split; [|by apply Hq].
  unfold file_at, fs_edit in *. cbn. rewrite interfere_owned by done.
  destruct (rs_fs s !! h) as [[|c0 m t l| |]|]; try done. cbn in *. rewrite lookup_insert_eq. cbn.
  destruct (_ =? _)%Z; by simplify_eq.
Qed.

Context (G : list path) (HG : tracked G) (h : path) (Hh : owned h) (Hne : h ≠ []).
Notation T := (λ q, q = h).
#[local] Instance calm_pre' : PreOrder (calm G T) := calm_preorder env paths Hsib G T HG.

(** Steps that do not write keep the content; [inv] is kept by all of them. *)
Record holding (ct : bytes) (s : RestoreState) : Prop := {
  hd_inv : inv G (rs_fs s);
  hd_file : file_at s h = Some ct }.

Lemma holding_calm ct s s' : calm G (λ _, False) s s' → holding ct s → holding ct s'.
Proof.
  intros Hc [Hi Hct]. split; [by eapply calm_inv|]. unfold file_at in *. rewrite <-Hct.
  apply (step_file (λ _, False)); [by apply (qu_tree _ _ _ _ _ (Hc Hi))|done|by intros []|by rewrite Hct].
Qed.

Lemma holding_post {A} (m : SM RestoreState A) ct s :
  sm_respects (calm G (λ _, False)) m → holding ct s → sm_post m s (λ _ s', holding ct s').
Proof.
  intros Hm Hs. eapply post_respects; [exact Hm|]. eapply post_mono; [apply post_true|].
  intros a s' _ _ Hc. by eapply holding_calm.
Qed.

Lemma holding_edit f ct s :
  holding ct s → sm_post (sys_edit env paths h f) s (λ _ s', holding (f ct) s').
Proof.
  intros [Hi Hct]. eapply post_mono; [by apply (edit_post G T)|]. intros [] s' _ [H1 H2]. split; [|done].
  eapply inv_step; [done|done|done|apply H2].
Qed.

Lemma holding_sync ct b s : holding ct s → sm_post (sync_resume_checkpoint env paths h b) s (λ _ s', holding ct s').
Proof.
  intros Hs. apply post_bind. eapply post_mono; [by apply (holding_edit id)|]. intros [] s1 _ H1.
  assert (PreOrder (calm G (λ _, False))) by by apply calm_preorder.
  apply holding_post; [|done]. respects_walk ltac:(by apply calm_pause).
Qed.

Lemma verify_prefix_post rid n size ct s :
  get_recipe_restore_summary c rid = Ok (n, size) → holding ct s →
  sm_post (verify_resume_prefix env paths blake3 c h rid n size) s (λ vp s', ∃ k pre,
    holding pre s' ∧ matches blake3 (take k (rows_of rid)) pre ∧ k ≤ length (rows_of rid)
    ∧ vp = {| vp_chunks := Z.of_nat k; vp_bytes := Z.of_nat (length pre) |}).
Proof.
  intros Hs Hct. destruct (recipe_entries rid n size 0 Hs ltac:(lia)) as (_ & _ & Ei).
  unfold verify_resume_prefix. apply post_bind. change (Z.of_nat 0) with 0%Z in Ei. rewrite drop_0 in Ei. rewrite Ei.
  assert (PreOrder (calm G (λ _, False))) by by apply calm_preorder.
  eapply post_mono; [apply (holding_post _ ct); [respects_walk ltac:(by apply calm_read')|done]|]. intros fsize s1 _ H1.
  apply post_bind. eapply post_respects; [by apply (calm_verify_chunks G (λ _, False))|].
  eapply post_mono; [apply (verify_chunks_post h _ _ _ _ _ _ [] ct); [done..|apply H1|done]|].
  intros r s2 _ [Hun (j & c1 & c2 & -> & Hm & Hj & ->)] Hc2. pose proof (holding_calm _ _ _ Hc2 H1) as H2.
  cbn [app] in *. destruct (_ || _); [done|]. apply post_bind.
  eapply post_mono; [by apply (holding_edit _ _ _ H2)|]. intros [] s3 _ H3. unfold sm_post. cbn.
  rewrite Nat2Z.id, take_app_length in H3. exists j, c1. by split_and!.
Qed.

(** The variables of the loop say where the file ends and which row is next. *)
Definition written_to (rid : Z) (k : nat) (v : WriteVars) (s : RestoreState) : Prop :=
  ∃ ct, holding ct s ∧ matches blake3 (take k (rows_of rid)) ct ∧ k ≤ length (rows_of rid)
    ∧ next_order v = Z.of_nat k ∧ position v = Z.of_nat (length ct).

Lemma write_chunk_post rid k durable v x s :
  written_to rid k v s → rows_of rid !! k = Some x.1 → blake3_hex_digest blake3 x.2 = x.1.1.2 →
  sm_post (write_chunk env paths h durable v x) s (λ v' s', written_to rid (S k) v' s').
Proof.
  intros (ct & Hct & Hm & Hk & Hn & Hp) Hx Hhash. destruct x as [[[o hash] sz] raw]. cbn in Hx, Hhash.
  unfold write_chunk. destruct (negb (o =? _)%Z); [done|]. destruct (negb (_ =? sz)%Z) eqn:El; [done|]. bool_hyps.
  unfold write_handle. apply post_bind, post_bind. eapply post_mono; [by apply (holding_edit _ _ _ Hct)|].
  intros [] s1 _ H1. assert (write_at (position v) raw ct = ct ++ raw) as Ew.
  { unfold write_at. rewrite Hp, Nat2Z.id, firstn_all, drop_ge by lia. by rewrite app_nil_r. }
  rewrite Ew in H1. unfold sm_post at 1. cbn [mret sm_ret]. rewrite Z.eqb_refl. cbn [negb].
  assert (PreOrder (calm G (λ _, False))) by by apply calm_preorder.
  assert (∀ s2 since, holding (ct ++ raw) s2 → written_to rid (S k)
    {| next_order := next_order v + 1; position := position v + Z.of_nat (length raw); bytes_since_sync := since |}%Z s2) as Hdone.
  { intros s2 since H2. exists (ct ++ raw). split_and!; [done| |by apply lookup_lt_Some in Hx|cbn; lia|cbn; rewrite length_app; lia].
    assert (take (S k) (rows_of rid) = take k (rows_of rid) ++ [(o, hash, sz)]) as -> by by apply take_S_r.
    apply matches_app; [done|]. cbn. exists raw, []. by rewrite app_nil_r. }
  apply post_bind. eapply post_mono; [apply (holding_post _ (ct ++ raw)); [by apply calm_bump|done]|]. intros [] s2 _ H2.
  cbv zeta. destruct (_ && _); [|by apply Hdone]. apply post_bind. unfold sm_post at 1. cbn [sgets].
  apply post_bind. eapply post_mono; [by apply holding_sync|]. intros [] s3 _ H3.
  apply post_bind. unfold sm_post. cbn. apply Hdone. destruct H3 as [? ?]. by split.
Qed.

Lemma write_chunks_post rid out k durable v s :
  out.*1 `prefix_of` drop k (rows_of rid) → Forall (λ x, blake3_hex_digest blake3 x.2 = x.1.1.2) out →
  written_to rid k v s →
  sm_post (sfold (write_chunk env paths h durable) out v) s (λ v' s', written_to rid (k + length out) v' s').
Proof.
  revert k v s. induction out as [|x out IH]; intros k v s Hpre Hgen Hs; cbn [sfold].
  - unfold sm_post. cbn. by rewrite Nat.add_0_r.
  - inversion Hgen as [|? ? Hx Hgen']; subst. destruct Hpre as [r Hr]. cbn in Hr.
    apply post_bind. eapply post_mono; [eapply write_chunk_post; [done| |done]|].
    { pose proof (f_equal (λ l : list recipe_chunk, l !! 0) Hr) as E. rewrite lookup_drop, Nat.add_0_r in E. exact E. }
    intros v' s' _ H. eapply post_mono; [apply (IH (S k)); [|done|done]|].
    + exists r. pose proof (f_equal (drop 1) Hr) as E. rewrite drop_drop, Nat.add_1_r in E. exact E.
    + intros v'' s'' _. cbn. by rewrite Nat.add_succ_r.
Qed.

Lemma write_window_post rid k durable records v s :
  written_to rid k v s → records `prefix_of` drop k (rows_of rid) →
  sm_post (write_window env paths flush h durable v records) s (λ v' s', written_to rid (k + length records) v' s').
Proof.
  intros Hv Hrec. unfold write_window. apply post_bind.
  assert (PreOrder (calm G (λ _, False))) by by apply calm_preorder.
  assert (∀ s', calm G (λ _, False) s s' → written_to rid k v s') as Hv'.
  { intros s' Hc. destruct Hv as (ct & Hct & Hv). exists ct. split; [by eapply holding_calm|done]. }
  eapply post_respects; [by apply (calm_pause G (λ _, False))|]. eapply post_mono; [apply post_true|].
  intros [] s1 _ _ Hc1. apply Hv' in Hc1. clear Hv Hv' s. apply post_bind.
  unfold sm_post at 1. pose proof (source_genuine (flush := flush) records (rs_fetch s1)) as Hsrc.
  unfold sm_post in Hsrc. unfold on_fetch. destruct (flush records (rs_fetch s1)) as [[[out e]|e] f]; [|done].
  destruct Hsrc as (Hpre & Hgen & Hall). cbn [fst snd] in *. set (s2 := {| rs_fs := _ |}).
  assert (written_to rid k v s2) as Hs2.
  { destruct Hc1 as (ct & [Hi Hct] & Hv). by exists ct. }
  clearbody s2. apply post_bind.
  eapply post_mono; [apply (write_chunks_post rid out k); [by etransitivity|done|done]|].
  intros v' s' _ Hw. destruct e as [e|]; [done|]. unfold sm_post. cbn.
  rewrite <-(Hall eq_refl), length_fmap. done.
Qed.
Lemma write_windows_post rid ws k durable v s :
  concat ws `prefix_of` drop k (rows_of rid) → written_to rid k v s →
  sm_post (sfold (write_window env paths flush h durable) ws v) s (λ v' s', written_to rid (k + length (concat ws)) v' s').
Proof.
  revert k v s. induction ws as [|w ws IH]; intros k v s Hpre Hs; cbn [sfold].
  - unfold sm_post. cbn. by rewrite Nat.add_0_r.
  - cbn [concat] in *. apply post_bind. eapply post_mono; [apply (write_window_post rid k); [done|]|].
    { etransitivity; [|exact Hpre]. by apply prefix_app_r. }
    intros v' s' _ H. eapply post_mono; [apply (IH (k + length w)); [|done]|].
    + destruct Hpre as [r Hr]. exists r. pose proof (f_equal (drop (length w)) Hr) as E.
      rewrite drop_drop, <-app_assoc, drop_app_length in E. exact E.
    + intros v'' s'' _. rewrite length_app. by rewrite Nat.add_assoc.
Qed.

Lemma write_file_post rid n size existed ct s :
  get_recipe_restore_summary c rid = Ok (n, size) → holding ct s →
  sm_post (write_file env paths blake3 flush prefetch_window c h rid n size existed) s (λ _ s',
    ∃ ct', holding ct' s' ∧ matches blake3 (rows_of rid) ct').
Proof.
  intros Hs Hct. unfold write_file. apply post_bind. eapply post_mono; [by eapply verify_prefix_post|].
  intros vp s1 _ (k & pre & H1 & Hm & Hk & ->). cbn [vp_chunks vp_bytes].
  assert (PreOrder (calm G (λ _, False))) as Hpre by by apply calm_preorder.
  apply post_bind. eapply post_mono; [apply (holding_post _ pre); [respects_walk ltac:(by apply calm_bump)|done]|].
  intros [] s2 _ H2. apply post_bind.
  eapply post_mono; [apply (holding_post _ pre); [respects_walk ltac:(by apply calm_bump)|done]|]. intros [] s3 _ H3.
  destruct (recipe_entries rid n size k Hs Hk) as (_ & _ & ->). apply post_bind.
  eapply post_mono; [apply (write_windows_post rid _ k)|].
  - unfold full_windows. by rewrite concat_iter_batches.
  - by exists pre.
  - intros v s4 _ Hv. unfold full_windows in Hv. rewrite concat_iter_batches, length_drop in Hv.
    replace (k + _) with (length (rows_of rid)) in Hv by lia. destruct Hv as (ct' & H4 & Hm' & _). rewrite firstn_all in Hm'.
    apply post_bind. eapply post_mono; [by apply (holding_edit id)|]. intros [] s5 _ H5.
    apply post_bind. eapply post_mono; [apply (holding_post _ ct'); [unfold fstat_size; respects_walk ltac:(by apply calm_read')|done]|].
    intros fsize s6 _ H6. destruct (negb _); [done|]. destruct (negb _); [done|]. case_match; [|by exists ct'].
    apply post_bind. unfold sm_post at 1. cbn [sgets]. apply post_bind.
    eapply post_mono; [by apply (holding_sync ct')|]. intros [] s7 _ [? ?]. unfold sm_post. cbn. by exists ct'.
Qed.

Lemma open_regular_post writable create s :
  inv G (rs_fs s) → reach G h →
  sm_post (open_regular_file env paths h writable create) s (λ q s', q = h ∧ ∃ ct, holding ct s').
Proof.
  intros Hi Hp. unfold open_regular_file. apply post_bind.
  eapply (post_respects (calm G T)); [apply calm_sys; [done..|]; intros fs Hfs; by eapply step_open|].
  eapply post_mono; [by apply (open_path G HG h)|]. intros q s1 _ -> Hc1. assert (inv G (rs_fs s1)) as Hi1 by by eapply calm_inv.
  apply post_bind. unfold sm_post at 1. destruct (sys_read env paths (fs_fstat h) s1) as [[n|e] s2] eqn:E; [|done].
  assert (inv G (rs_fs s2)) as Hi2.
  { pose proof (calm_read' G (λ _, False) HG (fs_fstat h) s1) as H. rewrite E in H. by eapply calm_inv. }
  apply read_ok in E as [E Hun]. unfold fs_fstat in E. rewrite node_at_lookup, interfere_owned in E by done.
  destruct n as [|ct m t l| |]; try done. destruct (negb (l =? 1)%Z) eqn:El; [done|]. bool_hyps.
  assert (holding ct s2) as H2.
  { split; [done|]. unfold file_at. rewrite Hun by done. destruct (rs_fs s1 !! h); [|done]. injection E as ->. cbn.
    rewrite (proj2 (Z.eqb_eq _ _)) by done. done. }
  assert (PreOrder (calm G (λ _, False))) as Hpre by by apply calm_preorder.
  apply post_bind. eapply post_mono; [apply (holding_post _ ct); [respects_walk ltac:(by apply calm_fchmod)|done]|].
  intros [] s3 _ H3. unfold sm_post. cbn. split; [done|]. by exists ct.
Qed.

Lemma open_resume_post s :
  inv G (rs_fs s) → reach G h →
  sm_post (open_resume_file env paths h) s (λ q s', q = h ∧ ∃ ct, holding ct s').
Proof.
  intros Hi Hp. unfold open_resume_file. apply post_bind. eapply post_mono; [by apply open_regular_post|].
  intros q s1 _ (-> & ct & H1). apply post_bind. unfold sm_post at 1. cbn [sgets]. apply post_bind.
  eapply post_mono; [apply (holding_post _ ct); [by apply calm_sys|done]|].
  intros [] s2 _ H2. unfold sm_post. cbn. split; [done|]. by exists ct.
Qed.

Lemma validate_content_post rid n size s :
  get_recipe_restore_summary c rid = Ok (n, size) → inv G (rs_fs s) → reach G h →
  sm_post (validate_content env paths blake3 c h rid n size) s (λ b s', b = true →
    ∃ ct, file_at s' h = Some ct ∧ matches blake3 (rows_of rid) ct).
Proof.
  intros Hs Hi Hp. unfold validate_content. apply post_bind. eapply post_mono; [by apply open_regular_post|].
  intros q s1 _ (-> & ct & H1). destruct (recipe_entries rid n size 0 Hs ltac:(lia)) as (_ & _ & Ei).
  change (Z.of_nat 0) with 0%Z in Ei. rewrite drop_0 in Ei. rewrite Ei. apply post_bind.
  eapply post_mono; [apply (validate_chunks_post h _ _ _ [] ct); [done..|apply H1|done]|].
  intros [[k b]|] s2 _ [Hun Hr]; [|done]. destruct (Hr k b eq_refl) as (c1 & c2 & -> & Hm & ->). cbn [app] in *.
  destruct (negb _); [done|]. destruct (negb _); [done|]. apply post_bind.
  eapply post_mono; [eapply (read_exact_post h _ _ _ (c1 ++ c2)); [done..|]; by rewrite (unchanged_file s1), (hd_file _ _ H1)|].
  intros raw s3 _ (-> & H3 & _). rewrite Nat2Z.id, drop_app_length. unfold sm_post. cbn. intros Hb. bool_hyps.
  destruct c2; [|done]. rewrite app_nil_r in H3. by exists c1.
Qed.

Lemma validate_completed_post rid n size s :
  get_recipe_restore_summary c rid = Ok (n, size) → inv G (rs_fs s) → reach G h → crossed G h →
  sm_post (validate_completed_file env paths blake3 c h rid n size) s (λ b s', b = true →
    ∃ ct, file_at s' h = Some ct ∧ matches blake3 (rows_of rid) ct).
Proof.
  intros Hs Hi Hp Hcr. unfold validate_completed_file. apply post_bind.
  assert (PreOrder (calm G T)) as Hpre by by apply calm_preorder.
  eapply (post_respects (calm G T)).
  { apply calm_catch; [done| |apply respects_ret; apply _].
    apply respects_bind; [apply _|by apply calm_lstat|intros; apply respects_ret; apply _]. }
  eapply post_mono; [apply post_true|]. intros st s1 _ _ Hc1. assert (inv G (rs_fs s1)) as Hi1 by by eapply calm_inv.
  destruct st as [[|content mode t l| |]|]; try done. destruct (negb _); [done|]. destruct (negb _); [done|]. apply post_bind.
  eapply (post_respects (calm G T)).
  { case_match; [|apply respects_ret; apply _]. apply calm_catch; [done| |apply respects_ret; apply _].
    apply respects_bind; [apply _|by apply calm_chmod|intros; apply respects_ret; apply _]. }
  eapply post_mono; [apply post_true|]. intros readable s2 _ _ Hc2. assert (inv G (rs_fs s2)) as Hi2 by by eapply calm_inv.
  destruct readable; [|done]. cbn [negb]. apply post_catch; [by eapply validate_content_post|].
  intros e k s3 _. case_match; [|done]. intros [= <-]. done.
Qed.
End specs.

(** ** One item *)

Section items.
Context (env : RestoreEnv) (paths : RestorePaths) (Hsib : siblings paths) (blake3 : bytes → bytes).
Context (flush : list recipe_chunk → SM FetchState (list (recipe_chunk * bytes) * option exn)).
Context `{!ChunkSource blake3 flush} (prefetch_window : Z) (c : Catalog) (Hwf : catalog_wf c).

Notation W := (incomplete_dir paths).
Notation R := (resume_dir paths).
Notation tracked := (tracked paths).
Notation inv := (inv paths).
Notation reach := (reach paths).
Notation owned := (owned paths).
Notation calm := (calm env paths).
Notation quiet := (quiet env paths).
Notation rows_of := (rows_of c).
Notation item_path it := (below W (normpath (it_path it)).2).
Notation resume_of it := (resume_file paths blake3 (it_path it)).

(** The tree evolves; counters and the list of directories may change. *)
Definition tame (G : list path) (T : path → Prop) (s s' : RestoreState) : Prop :=
  inv G (rs_fs s) → tree_step env paths T (rs_fs s) (rs_fs s').

Lemma tame_preorder G T : tracked G → PreOrder (tame G T).
Proof.
  intros HG. split; [intros s _; reflexivity|]. intros s1 s2 s3 H K Hi. etransitivity; [by apply H|]. apply K.
  exact (inv_step env paths Hsib T G _ _ HG Hi (H Hi)).
Qed.

Lemma calm_tame G T {A} (m : SM RestoreState A) : sm_respects (calm G T) m → sm_respects (tame G T) m.
Proof. intros Hm s Hi. by apply Hm. Qed.

Lemma tame_bump G T k n : tracked G → sm_respects (tame G T) (bump k n).
Proof. intros HG s _. unfold bump, on_fetch. by destruct (RestoreFetch.bump k n (rs_fetch s)). Qed.

(** More may be known of the tree after the first part. *)
Lemma tame_grow G (T : path → Prop) {A B} (m : SM RestoreState A) (k : A → SM RestoreState B) (G' : A → list path)
    (P : A → Prop) :
  sm_respects (tame G T) m →
  (∀ s, inv G (rs_fs s) → sm_post m s (λ a s', P a ∧ inv (G' a) (rs_fs s'))) →
  (∀ a, P a → sm_respects (tame (G' a) T) (k a)) → sm_respects (tame G T) (m ≫= k).
Proof.
  intros Hm Hp Hk s Hi. specialize (Hm s Hi). specialize (Hp s Hi). unfold sm_post in Hp. rewrite sm_bind_spec.
  destruct (m s) as [[a|e] s']; [|done]. destruct Hp as [Ha Hi']. etransitivity; [exact Hm|]. by apply Hk.
Qed.

Lemma tame_bind_post G (T : path → Prop) {A B} (m : SM RestoreState A) (k : A → SM RestoreState B) (P : A → Prop) :
  tracked G → sm_respects (tame G T) m → (∀ s, inv G (rs_fs s) → sm_post m s (λ a _, P a)) →
  (∀ a, P a → sm_respects (tame G T) (k a)) → sm_respects (tame G T) (m ≫= k).
Proof.
  intros HG Hm Hp Hk s Hi. specialize (Hm s Hi). specialize (Hp s Hi). unfold sm_post in Hp. rewrite sm_bind_spec.
  destruct (m s) as [[a|e] s']; [|done]. etransitivity; [exact Hm|]. apply Hk; [done|].
  exact (inv_step env paths Hsib T G _ _ HG Hi Hm).
Qed.

(** When it raises, the counters of items are as before. *)
Definition calm_err (G : list path) (T : path → Prop) {A} (m : SM RestoreState A) : Prop :=
  ∀ s e s', inv G (rs_fs s) → m s = (Err e, s') → quiet T s s'.

Lemma calm_err_of G T {A} (m : SM RestoreState A) : sm_respects (calm G T) m → calm_err G T m.
Proof. intros Hm s e s' Hi E. specialize (Hm s Hi). by rewrite E in Hm. Qed.

Lemma calm_err_bind G T {A B} (m : SM RestoreState A) (k : A → SM RestoreState B) (P : A → Prop) :
  tracked G → sm_respects (calm G T) m → (∀ s, inv G (rs_fs s) → sm_post m s (λ a _, P a)) →
  (∀ a, P a → calm_err G T (k a)) → calm_err G T (m ≫= k).
Proof.
  intros HG Hm Hp Hk s e s' Hi E. specialize (Hm s). specialize (Hp s Hi). rewrite sm_bind_spec in E. unfold sm_post in Hp.
  pose proof (calm_inv env paths Hsib G T HG s (m s).2 Hm Hi) as Hi'. specialize (Hm Hi).
  destruct (m s) as [[a|e1] s1]; [|by simplify_eq]. cbn [snd] in *. etransitivity; [exact Hm|]. by eapply Hk.
Qed.

Lemma calm_err_step G T {A B} (m : SM RestoreState A) (k : A → SM RestoreState B) :
  tracked G → sm_respects (calm G T) m → (∀ a, calm_err G T (k a)) → calm_err G T (m ≫= k).
Proof. intros HG Hm Hk. apply (calm_err_bind G T m k (λ _, True)); try done. intros s _. apply post_true. Qed.

Lemma calm_err_never G T {A} (m : SM RestoreState A) : (∀ s, is_ok (m s).1 = true) → calm_err G T m.
Proof. intros H s e s' _ E. specialize (H s). by rewrite E in H. Qed.

(** The two paths of a file. *)
Section file.
Context (G : list path) (HG : tracked G) (it : item_row).
Notation full := (item_path it).
Notation resume := (resume_of it).
Context (Hfull : full ∈ G) (HR : R ∈ G) (HW : W `prefix_of` full).
Notation T := (λ q, q = full ∨ q = resume).
#[local] Instance calm_pre_f : PreOrder (calm G T) := calm_preorder env paths Hsib G T HG.
#[local] Instance tame_pre_f : PreOrder (tame G T) := tame_preorder G T HG.

Lemma resume_facts : region paths resume ∧ clean resume ∧ resume ≠ [] ∧ R ≠ [].
Proof.
  destruct (sib_nonempty _ Hsib) as [_ HRne]. split_and!; [right; by apply prefix_app_r| |by intros [_ [=]]%app_eq_nil|done].
  apply clean_snoc; [apply Hsib|]. intros E. apply (f_equal length) in E. rewrite length_app in E. cbn in E. lia.
Qed.

Lemma resume_reach : reach G resume.
Proof. apply reach_child; [done|right; done|apply resume_facts]. Qed.

Lemma full_reach : reach G full.
Proof. apply reach_self; [done..|]. destruct (sib_nonempty _ Hsib) as [Hne _]. intros E. rewrite E in HW. by apply prefix_nil_inv in HW. Qed.

Lemma full_crossed : crossed G full.
Proof. by exists full. Qed.

Lemma paths_apart : full ≠ resume.
Proof.
  intros E. destruct (sib_apart _ Hsib) as [H1 H2]. rewrite E in HW.
  destruct (prefix_weak_total W R resume) as [?|?]; [done|by apply prefix_app_r|done|done].
Qed.

Let Hres := resume_facts.
Let Hro : owned resume := region_owned paths resume (proj1 Hres).
Let Hfo : owned full := reach_owned paths G full full_reach.

Lemma calm_file_metadata : sm_respects (calm G T) (apply_item_metadata env paths full it).
Proof. apply calm_metadata; [done..|apply full_crossed]. Qed.

Lemma calm_write rid n size existed :
  sm_respects (calm G T) (h ← open_resume_file env paths resume;
    scatch (write_file env paths blake3 flush prefetch_window c h rid n size existed)
      (λ e, if bool_decide (e = KeyboardInterrupt) then Some (keep_progress env paths h;; sraise KeyboardInterrupt) else None);;
    mret Written).
Proof.
  apply (calm_bind_post env paths Hsib G T HG _ _ (λ q, q = resume)).
  - apply calm_open_resume; [done..|apply Hres|by right|apply resume_reach].
  - intros s Hi. eapply post_mono; [apply (open_resume_post env paths Hsib G HG resume Hro); [apply Hres|done|apply resume_reach]|].
    by intros q s' _ [-> _].
  - intros h ->. apply respects_bind; [apply _| |intros; apply respects_ret; apply _].
    apply respects_catch; [apply _|apply calm_write_file; [done..|apply Hres|by right]|].
    intros e k. case_bool_decide; [|done]. intros [= <-]. apply respects_bind; [apply _| |intros; apply respects_raise; apply _].
    apply calm_keep_progress; [done..|apply Hres|by right].
Qed.

Lemma calm_validate_full rid n size : sm_respects (calm G T) (validate_completed_file env paths blake3 c full rid n size).
Proof. apply calm_validate_completed; [done..|apply full_reach|by left|apply full_reach|apply full_crossed]. Qed.

Lemma calm_discard_resume : sm_respects (calm G T) (discard_resume_file env paths resume).
Proof. apply calm_discard; [done..|by right|apply resume_reach]. Qed.

(** Its parts, for what they all respect. *)
Ltac file_step := first
  [ apply calm_validate_full | apply calm_discard_resume | apply calm_file_metadata | by apply calm_bump
  | by apply calm_lexists | by apply calm_synced | apply calm_write ].

Lemma restore_content_tame :
  sm_respects (tame G T) (restore_content env paths blake3 flush prefetch_window c full resume it).
Proof.
  unfold restore_content. respects_walk ltac:(first [apply calm_tame; file_step|by apply tame_bump]).
Qed.

Lemma restore_content_err :
  calm_err G T (restore_content env paths blake3 flush prefetch_window c full resume it).
Proof.
  unfold restore_content. destruct (it_recipe_id it) as [rid|]; [|apply calm_err_of, respects_raise; apply _].
  apply calm_err_step; [done|apply respects_lift; apply _|]. intros [n size].
  destruct (negb _); [apply calm_err_of, respects_raise; apply _|].
  apply calm_err_step; [done|apply calm_validate_full|]. intros [|].
  - do 6 (apply calm_err_step; [done|file_step|intros _]). by apply calm_err_never.
  - do 2 (apply calm_err_step; [done|file_step|intros ?]). apply calm_err_of, calm_write.
Qed.
(** What the counters of items say after a step. *)
Definition counted (dp ds : Z) (s s' : RestoreState) : Prop :=
  ft_stats (rs_fetch s') processed_items = (ft_stats (rs_fetch s) processed_items + dp)%Z
  ∧ ft_stats (rs_fetch s') successful_items = (ft_stats (rs_fetch s) successful_items + ds)%Z
  ∧ directories s' = directories s.

Lemma counted_trans a b a' b' s1 s2 s3 :
  counted a b s1 s2 → counted a' b' s2 s3 → counted (a + a') (b + b') s1 s3.
Proof. intros (H1 & H2 & H3) (K1 & K2 & K3). split_and!; [lia|lia|congruence]. Qed.

Lemma counted_quiet T' s s' : quiet T' s s' → counted 0 0 s s'.
Proof. intros [_ H1 H2]. split_and!; [rewrite H1 by tauto; lia|rewrite H1 by tauto; lia|done]. Qed.

Lemma counted_bump k n s :
  sm_post (bump k n) s (λ _ s', counted (if decide (k = processed_items) then n else 0)
    (if decide (k = successful_items) then n else 0) s s' ∧ rs_fs s' = rs_fs s).
Proof.
  unfold sm_post, bump, on_fetch, RestoreFetch.bump, smodify, counted, add_stat. cbn.
  repeat case_decide; repeat case_bool_decide; split_and!; try congruence; lia.
Qed.

(** The content of the file is found complete, or built. *)
Definition content_placed (o : file_outcome) (s s' : RestoreState) : Prop :=
  inv G (rs_fs s') ∧ ∃ rid ct, it_recipe_id it = Some rid ∧ matches blake3 (rows_of rid) ct
  ∧ match o with
    | Reused => file_at s' full = Some ct ∧ counted 0 1 s s'
    | Written => file_at s' resume = Some ct ∧ counted 0 0 s s'
    | Failed => False
    end.

Lemma post_calm {A} (m : SM RestoreState A) s (Q : A → RestoreState → Prop) :
  inv G (rs_fs s) → sm_respects (calm G T) m →
  (∀ a s', inv G (rs_fs s') → quiet T s s' → Q a s') → sm_post m s Q.
Proof.
  intros Hi Hm HQ. eapply post_respects; [exact Hm|]. eapply post_mono; [apply post_true|]. intros a s' _ _ Hc.
  apply HQ; [by eapply calm_inv|by apply Hc].
Qed.

Lemma file_metadata_keeps p ct s :
  owned p → inv G (rs_fs s) → file_at s p = Some ct →
  sm_post (apply_item_metadata env paths full it) s (λ _ s', inv G (rs_fs s') ∧ counted 0 0 s s' ∧ file_at s' p = Some ct).
Proof.
  intros Hp Hi Hct. eapply (post_respects (calm G (λ _, False))); [apply calm_metadata; [done..|apply full_crossed]|].
  eapply post_mono; [apply post_true|]. intros [] s' _ _ Hc. split_and!; [by eapply calm_inv|by eapply counted_quiet, Hc|].
  unfold file_at in *. rewrite <-Hct. apply (step_file env paths (λ _, False)); [by apply Hc|done|by intros []|by rewrite Hct].
Qed.

Lemma restore_content_post s :
  inv G (rs_fs s) →
  sm_post (restore_content env paths blake3 flush prefetch_window c full resume it) s (λ o s', content_placed o s s').
Proof.
  intros Hi. unfold restore_content. destruct (it_recipe_id it) as [rid|] eqn:Er; [|done].
  destruct (get_recipe_restore_summary c rid) as [[n size]|] eqn:Es; [|done]. apply post_bind. unfold sm_post at 1. cbn [slift].
  destruct (negb _); [done|]. apply post_bind. eapply (post_respects (calm G T)); [apply calm_validate_full|].
  eapply post_mono; [apply (validate_completed_post env paths Hsib blake3 c Hwf G HG full Hfo);
    [apply (reach_nonempty _ _ _ full_reach)|done|done|apply full_reach|apply full_crossed]|].
  intros [|] s1 _ Hv Hc1; (assert (inv G (rs_fs s1)) as Hi1 by by eapply calm_inv);
    assert (counted 0 0 s s1) as Hn1 by by eapply counted_quiet, Hc1.
  - destruct (Hv eq_refl) as (ct & Hct & Hm). apply post_bind.
    eapply (post_respects (calm G (λ q, q = resume))); [apply calm_discard; [done..|apply resume_reach]|].
    eapply post_mono; [apply post_true|]. intros [] s2 _ _ Hc2.
    assert (file_at s2 full = Some ct) as Hct2.
    { unfold file_at in *. rewrite <-Hct. apply (step_file env paths (λ q, q = resume)); [by apply Hc2|done|apply paths_apart|by rewrite Hct]. }
    assert (inv G (rs_fs s2)) as Hi2 by by eapply calm_inv.
    assert (counted 0 0 s s2) as Hn2 by (eapply (counted_trans 0 0 0 0); [done|by eapply counted_quiet, Hc2]).
    apply post_bind. eapply post_mono; [by apply (file_metadata_keeps full ct)|]. intros [] s3 _ (Hi3 & Hn3 & Hct3).
    assert (counted 0 0 s s3) as Hn by (eapply (counted_trans 0 0 0 0); eassumption).
    clear Hn1 Hn2 Hn3. do 4 (apply post_bind; eapply post_mono; [apply counted_bump|]; intros [] ?s _ [?Hk ?Hf]).
    apply post_bind. eapply post_mono; [apply counted_bump|]. intros [] s8 _ [Hk4 Hf4]. unfold sm_post. cbn.
    assert (rs_fs s8 = rs_fs s3) as E by congruence. split; [by rewrite E|]. exists rid, ct. split_and!; try done.
    + unfold file_at. by rewrite E.
    + destruct Hn as (? & ? & ?), Hk as (? & ? & ?), Hk0 as (? & ? & ?), Hk1 as (? & ? & ?), Hk2 as (? & ? & ?), Hk4 as (? & ? & ?).
      repeat case_decide; try done. split_and!; [lia|lia|congruence].
  - apply post_bind. apply post_calm; [done|by apply calm_lexists|]. intros existed s2 Hi2 Hq2.
    apply post_bind. apply post_calm; [done|by apply calm_synced|]. intros [] s3 Hi3 Hq3.
    assert (counted 0 0 s s3) as Hn3.
    { eapply (counted_trans 0 0 0 0); [done|]. eapply (counted_trans 0 0 0 0); by eapply counted_quiet. }
    eapply (post_respects (calm G T)); [apply calm_write|]. apply post_bind.
    eapply post_mono; [apply (open_resume_post env paths Hsib G HG resume Hro); [apply Hres|done|apply resume_reach]|].
    intros h s4 _ (-> & ct0 & H4). apply post_bind. apply post_catch.
    + eapply post_mono; [by eapply (write_file_post env paths Hsib blake3 flush prefetch_window c Hwf G HG resume Hro (proj1 (proj2 (proj2 Hres))))|].
      intros [] s5 _ (ct & H5 & Hm). unfold sm_post. cbn. intros Hc. split; [apply H5|]. exists rid, ct.
      split_and!; [done..|apply H5|]. eapply (counted_trans 0 0 0 0); [done|]. by eapply counted_quiet, Hc.
    + intros e k s5 _. case_bool_decide; [|done]. intros [= <-]. apply post_bind.
      eapply post_mono; [apply post_true|]. by intros.
Qed.
(** ** Moving it to its place *)

Notation Gr := (resume :: G).

Lemma tracked_resume : tracked Gr.
Proof. constructor; [|done]. split; apply Hres. Qed.

#[local] Instance calm_pre_r : PreOrder (calm Gr T) := calm_preorder env paths Hsib Gr T tracked_resume.
#[local] Instance tame_pre_r : PreOrder (tame Gr T) := tame_preorder Gr T tracked_resume.

Lemma inv_drop p fs : inv (p :: G) fs → inv G fs.
Proof. intros [H1 H2 H3]. split; [done..|]. by inversion H3. Qed.

Lemma file_inv ct s : inv G (rs_fs s) → file_at s resume = Some ct → inv Gr (rs_fs s).
Proof.
  intros Hi Hct. apply inv_cons; [done|]. intros q Hq Hp. destruct (decide (q = resume)) as [->|Hne].
  - unfold file_at in Hct. by destruct (rs_fs s !! _) as [[]|].
  - apply proper_prefix_removelast in Hp; [|done]. unfold resume_file in Hp. rewrite removelast_snoc in Hp.
    destruct Hi as [_ _ H3]. rewrite Forall_forall in H3. by apply (H3 _ HR).
Qed.

Lemma calm_move : sm_respects (calm Gr T) (sys env paths (fs_replace resume full)).
Proof.
  apply calm_sys; [done|apply tracked_resume|]. intros fs Hi.
  apply (step_replace env paths Hsib _ Gr); [apply tracked_resume|done| | | |by right|by left].
  - apply reach_cons, resume_reach.
  - exists resume. split; [by left|done].
  - apply reach_cons, full_reach.
Qed.

Lemma safe_path_full s :
  inv Gr (rs_fs s) → sm_post (safe_restore_path env paths W (it_path it)) s (λ p _, p = full).
Proof. intros Hi. eapply post_mono; [apply (safe_path_post env paths Hsib Gr); [apply tracked_resume|done]|]. by intros p s' _ (-> & _). Qed.

Lemma calm_safe' : sm_respects (calm Gr T) (safe_restore_path env paths W (it_path it)).
Proof. apply calm_safe_path; [done|apply tracked_resume]. Qed.

Lemma calm_metadata' : sm_respects (calm Gr T) (apply_item_metadata env paths full it).
Proof. apply calm_metadata; [done|apply tracked_resume|]. exists full. split; [by right|done]. Qed.

Lemma publish_file_tame : sm_respects (tame Gr T) (publish_file env paths resume it).
Proof.
  apply (tame_bind_post Gr T _ _ (λ p, p = full)); [apply tracked_resume|apply calm_tame, calm_safe'|apply safe_path_full|].
  intros p ->. pose proof tame_pre_r. respects_walk ltac:(first [apply calm_tame, calm_move|apply calm_tame, calm_metadata'|apply tame_bump, tracked_resume]).
Qed.

Lemma publish_file_err : calm_err Gr T (publish_file env paths resume it).
Proof.
  apply (calm_err_bind Gr T _ _ (λ p, p = full)); [apply tracked_resume|apply calm_safe'|apply safe_path_full|].
  intros p ->. do 2 (apply calm_err_step; [apply tracked_resume|first [apply calm_move|apply calm_metadata']|intros _]).
  apply calm_err_step; [apply tracked_resume|by apply calm_bump|]. intros _. by apply calm_err_never.
Qed.

Lemma move_post ct s :
  inv Gr (rs_fs s) → file_at s resume = Some ct →
  sm_post (sys env paths (fs_replace resume full)) s (λ _ s', file_at s' full = Some ct).
Proof.
  intros Hi Hct. unfold sm_post. destruct (sys env paths (fs_replace resume full) s) as [[[]|e] s'] eqn:E; [|done].
  apply sys_ok in E as [E _]. assert (inv Gr (interfere env paths (rs_calls s) (rs_fs s))) as Hi' by (by apply inv_interfere; [..|apply tracked_resume|]).
  unfold fs_replace in E. rewrite !(inv_parent paths Gr) in E by first [done|apply reach_cons, resume_reach|apply reach_cons, full_reach].
  rewrite node_at_lookup, interfere_owned in E by first [done|apply Hres].
  unfold file_at in *. destruct (rs_fs s !! resume) as [n|] eqn:En; [|done].
  destruct n as [|ct0 m t l| |]; try done. destruct (is_dir_at _ full); [done|]. destruct (negb _); [done|].
  rewrite bool_decide_false in E by (intros Eq; symmetry in Eq; by apply paths_apart in Eq). injection E as <-.
  rewrite <-Hct. symmetry. unfold put_entry. etransitivity; [|apply same_shape_content, touch_same]. by rewrite lookup_insert_eq.
Qed.

Lemma publish_file_post ct s :
  inv G (rs_fs s) → file_at s resume = Some ct →
  sm_post (publish_file env paths resume it) s (λ _ s', counted 0 1 s s' ∧ file_at s' full = Some ct).
Proof.
  intros Hi Hct. pose proof (file_inv ct s Hi Hct) as Hir. unfold publish_file. apply post_bind.
  eapply (post_respects (calm Gr (λ _, False))); [apply calm_safe_path; [done|apply tracked_resume]|].
  eapply post_mono; [by apply safe_path_full|]. intros p s1 _ -> Hc1.
  assert (inv Gr (rs_fs s1)) as Hi1 by (eapply calm_inv; [done|apply tracked_resume|done..]).
  assert (file_at s1 resume = Some ct) as Hct1.
  { unfold file_at in *. rewrite <-Hct. apply (step_file env paths (λ _, False)); [by apply Hc1|done|by intros []|by rewrite Hct]. }
  apply post_bind. eapply (post_respects (calm Gr T)); [apply calm_move|].
  eapply post_mono; [by apply (move_post ct)|]. intros [] s2 _ Hct2 Hc2.
  assert (inv Gr (rs_fs s2)) as Hi2 by (eapply calm_inv; [done|apply tracked_resume|done..]).
  apply post_bind. eapply post_mono; [apply (file_metadata_keeps full ct); [done|by eapply inv_drop|done]|].
  intros [] s3 _ (_ & Hn3 & Hct3). apply post_bind. eapply post_mono; [apply counted_bump|]. intros [] s4 _ [Hn4 E4].
  eapply post_mono; [apply counted_bump|]. intros [] s5 _ [Hn5 E5]. split.
  - assert (counted 0 0 s s1) as (? & ? & ?) by (eapply counted_quiet; by apply Hc1).
    assert (counted 0 0 s1 s2) as (? & ? & ?) by (eapply counted_quiet; by apply Hc2).
    destruct Hn3 as (? & ? & ?), Hn4 as (? & ? & ?), Hn5 as (? & ? & ?).
    repeat case_decide; try done. split_and!; [lia|lia|congruence].
  - unfold file_at in *. by rewrite E5, E4.
Qed.
(** ** The whole item *)

Lemma parent_reach : removelast full = [] ∨ reach G (removelast full).
Proof.
  destruct (decide (removelast full = [])); [by left|]. right. apply reach_head; [done|apply full_reach|done].
Qed.

Lemma parent_crossed : crossed G (removelast full).
Proof. exists full. split; [done|apply removelast_prefix]. Qed.

Definition prepare_parent : SM RestoreState unit :=
  prepared ← sgets prepared_dirs;
  if bool_decide (removelast full ∈ prepared) then mret ()
  else
    makedirs env paths (removelast full) 511;;
    ensure_work_directory_permissions env paths (removelast full);;
    smodify (add_prepared (removelast full)).

Lemma calm_prepare_parent : sm_respects (calm G T) prepare_parent.
Proof.
  unfold prepare_parent. respects_walk ltac:(first [apply calm_makedirs_at; [done..|apply parent_reach]
    |apply calm_permissions; [done..|apply parent_crossed]|by apply calm_modify]).
Qed.

Lemma calm_is_dir p : sm_respects (calm G T) (isdir env paths p).
Proof. by apply calm_isdir. Qed.

(** The rest of [restore_file]. *)
Definition place_file : SM RestoreState unit :=
  outcome ← catching is_exception (restore_content env paths blake3 flush prefetch_window c full resume it) (mret Failed);
  match outcome with
  | Reused => mret ()
  | Written => catching is_exception (publish_file env paths resume it) (bump files_failed 1)
  | Failed => bump files_failed 1
  end.

Lemma restore_file_parts s :
  restore_file env paths blake3 flush prefetch_window c full it s
  = (prepare_parent;; d ← isdir env paths full; if d : bool then bump files_failed 1 else place_file) s.
Proof.
  unfold restore_file, prepare_parent. rewrite !sm_bind_spec. cbn [sgets]. case_bool_decide; [done|].
  rewrite !sm_bind_spec. destruct (makedirs _ _ _ _ _) as [[[]|e] s1]; [|done]. rewrite !sm_bind_spec.
  by destruct (ensure_work_directory_permissions _ _ _ _) as [[[]|e] s2].
Qed.

Lemma catching_spec {A} p (m k : SM RestoreState A) s :
  catching p m k s = match m s with (Err e, s') => if p e then k s' else (Err e, s') | r => r end.
Proof. unfold catching, scatch. destruct (m s) as [[a|e] s']; [done|]. by destruct (p e). Qed.

Lemma place_file_tame : sm_respects (tame G T) place_file.
Proof.
  intros s Hi. unfold place_file. rewrite sm_bind_spec, catching_spec.
  pose proof (restore_content_tame s Hi) as Ht. pose proof (restore_content_post s Hi) as Hp. unfold sm_post in Hp.
  assert (∀ s1, tree_step env paths T (rs_fs s) (rs_fs s1) →
    tree_step env paths T (rs_fs s) (rs_fs (bump files_failed 1 s1).2)) as Hfail.
  { intros s1 H1. etransitivity; [exact H1|]. apply (tame_bump G T files_failed 1 HG s1).
    exact (inv_step env paths Hsib T G _ _ HG Hi H1). }
  destruct (restore_content _ _ _ _ _ _ _ _ _ s) as [[o|e] s1]; cbn [snd] in Ht.
  - destruct Hp as [Hi1 (rid & ct & _ & _ & Hp)]. destruct o; [done| |done]. destruct Hp as [Hct _].
    rewrite catching_spec. pose proof (publish_file_tame s1 (file_inv ct s1 Hi1 Hct)) as Ht2.
    destruct (publish_file _ _ _ _ s1) as [[[]|e] s2]; cbn [snd] in *; [by etransitivity|].
    destruct (is_exception e); [|by etransitivity]. apply Hfail. by etransitivity.
  - destruct (is_exception e); [by apply Hfail|done].
Qed.

Lemma restore_file_tame : sm_respects (tame G T) (restore_file env paths blake3 flush prefetch_window c full it).
Proof.
  intros s. rewrite restore_file_parts. revert s. change (sm_respects (tame G T)
    (prepare_parent;; d ← isdir env paths full; if d : bool then bump files_failed 1 else place_file)).
  respects_walk ltac:(first [apply calm_tame, calm_prepare_parent|apply calm_tame, calm_is_dir|by apply tame_bump|apply place_file_tame]).
Qed.

(** The file is there, with the content of its recipe. *)
Definition file_placed (s : RestoreState) : Prop :=
  ∃ rid ct, it_recipe_id it = Some rid ∧ matches blake3 (rows_of rid) ct ∧ file_at s full = Some ct.

Lemma counted_failed s : (bump files_failed 1 s).1 = Ok () ∧ counted 0 0 s (bump files_failed 1 s).2.
Proof. pose proof (counted_bump files_failed 1 s) as H. unfold sm_post in H. split; [done|]. apply H. Qed.

Lemma place_file_post s :
  inv G (rs_fs s) → sm_post place_file s (λ _ s', counted 0 0 s s' ∨ counted 0 1 s s' ∧ file_placed s').
Proof.
  intros Hi. unfold place_file, sm_post. rewrite sm_bind_spec, catching_spec.
  pose proof (restore_content_post s Hi) as Hp. pose proof (restore_content_err s) as He. unfold sm_post in Hp.
  destruct (restore_content _ _ _ _ _ _ _ _ _ s) as [[o|e] s1].
  - destruct Hp as [Hi1 (rid & ct & Hr & Hm & Hp)]. destruct o; [| |done].
    { destruct Hp as [Hct Hn]. cbn. right. split; [done|]. by exists rid, ct. }
    destruct Hp as [Hct Hn]. rewrite catching_spec. pose proof (publish_file_post ct s1 Hi1 Hct) as Hq.
    pose proof (publish_file_err s1) as Hqe. unfold sm_post in Hq.
    destruct (publish_file _ _ _ _ s1) as [[[]|e] s2].
    + destruct Hq as [Hn2 Hct2]. right. split; [eapply (counted_trans 0 0 0 1); eassumption|]. by exists rid, ct.
    + specialize (Hqe e s2 (file_inv ct s1 Hi1 Hct) eq_refl). destruct (is_exception e); [|done].
      destruct (counted_failed s2) as [E1 E2]. destruct (bump files_failed 1 s2) as [[[]|] s3]; [|done].
      left. eapply (counted_trans 0 0 0 0); [done|]. eapply (counted_trans 0 0 0 0); [by eapply counted_quiet|done].
  - specialize (He e s1 Hi eq_refl). destruct (is_exception e); [|done]. cbn [mret sm_ret].
    destruct (counted_failed s1) as [E1 E2]. destruct (bump files_failed 1 s1) as [[[]|] s3]; [|done].
    left. eapply (counted_trans 0 0 0 0); [by eapply counted_quiet|done].
Qed.

Lemma restore_file_post s :
  inv G (rs_fs s) →
  sm_post (restore_file env paths blake3 flush prefetch_window c full it) s
    (λ _ s', counted 0 0 s s' ∨ counted 0 1 s s' ∧ file_placed s').
Proof.
  intros Hi. unfold sm_post. rewrite restore_file_parts. apply post_bind. apply post_calm; [done|apply calm_prepare_parent|].
  intros [] s1 Hi1 Hq1. apply post_bind. apply post_calm; [done|apply calm_is_dir|]. intros d s2 Hi2 Hq2.
  assert (counted 0 0 s s2) as Hn by (eapply (counted_trans 0 0 0 0); by eapply counted_quiet).
  destruct d.
  - unfold sm_post. destruct (counted_failed s2) as [E1 E2]. destruct (bump files_failed 1 s2) as [[[]|] s3]; [|done].
    left. eapply (counted_trans 0 0 0 0); eassumption.
  - eapply post_mono; [by apply place_file_post|]. intros [] s3 _ [H|[H ?]]; [left|right; split; [|done]];
      [eapply (counted_trans 0 0 0 0)|eapply (counted_trans 0 0 0 1)]; eassumption.
Qed.

Lemma restore_directory_tame : sm_respects (tame G T) (restore_directory env paths full it).
Proof.
  unfold restore_directory. respects_walk ltac:(first [apply calm_tame, calm_makedirs_at; [done..|right; apply full_reach]
    |apply calm_tame, calm_permissions; [done..|apply full_crossed]|by apply calm_tame, calm_modify|by apply tame_bump
    |apply respects_modify; by intros ??]).
Qed.

Lemma restore_directory_post s :
  inv G (rs_fs s) →
  sm_post (restore_directory env paths full it) s (λ _ s',
    is_dir_at (rs_fs s') full = true
    ∧ ft_stats (rs_fetch s') processed_items = ft_stats (rs_fetch s) processed_items
    ∧ ft_stats (rs_fetch s') successful_items = (ft_stats (rs_fetch s) successful_items + 1)%Z
    ∧ directories s' = directories s ++ [(full, it)]).
Proof.
  intros Hi. unfold restore_directory. apply post_bind.
  eapply (post_respects (calm G T)); [apply calm_makedirs_at; [done..|right; apply full_reach]|].
  eapply post_mono; [apply (makedirs_post env paths Hsib G); [done..|apply (reach_nonempty _ _ _ full_reach)]|].
  intros [] s1 _ Hd Hc1. assert (inv G (rs_fs s1)) as Hi1 by by eapply calm_inv. apply post_bind.
  eapply (post_respects (calm G (λ _, False))); [apply calm_permissions; [done..|apply full_crossed]|].
  eapply post_mono; [apply post_true|]. intros [] s2 _ _ Hc2.
  assert (is_dir_at (rs_fs s2) full = true) as Hd2 by (eapply (step_dir env paths (λ _, False)); [by apply Hc2|done|by intros []|done]).
  do 2 (apply post_bind; unfold sm_post at 1; cbn [smodify]). apply post_bind.
  eapply post_mono; [apply counted_bump|]. intros [] s3 _ [Hn3 E3].
  eapply post_mono; [apply counted_bump|]. intros [] s4 _ [Hn4 E4].
  assert (counted 0 0 s s2) as (? & ? & ?) by (eapply (counted_trans 0 0 0 0); eapply counted_quiet; [by apply Hc1|by apply Hc2]).
  destruct Hn3 as (? & ? & ?), Hn4 as (? & ? & ?). cbn in *. repeat case_decide; try done.
  split_and!; [by rewrite E4, E3|lia|lia|congruence].
Qed.
End file.

(** ** The loop *)

Section loop.
Notation G0 := [W; R].
Notation touched it := (λ q, q = item_path it ∨ q = resume_of it).

Lemma tracked_roots : tracked G0.
Proof.
  destruct Hsib as [[H1 H2] _ _ _ _]. apply Forall_cons; split; [split; [by left|done]|].
  apply Forall_singleton. split; [by right|done].
Qed.

Definition item_target (it : item_row) : SM RestoreState (option path) :=
  scatch (full_path ← safe_restore_path env paths W (it_path it); mret (Some full_path))
    (λ e, if bool_decide (e = RestorePathError) then Some (mret None) else None).

Lemma calm_target T it : sm_respects (calm G0 T) (item_target it).
Proof.
  pose proof (calm_preorder env paths Hsib G0 T tracked_roots). apply respects_catch; [apply _| |].
  - respects_walk ltac:(by apply calm_safe_path; [|apply tracked_roots]).
  - intros e k. case_bool_decide; [|done]. intros [= <-]. apply respects_ret. apply _.
Qed.

Definition good_target (it : item_row) (r : option path) : Prop :=
  ∀ p, r = Some p → p = item_path it ∧ W `prefix_of` p ∧ clean p.

Lemma target_post it s :
  inv G0 (rs_fs s) →
  sm_post (item_target it) s (λ r s', good_target it r
    ∧ inv (match r with Some p => p :: G0 | None => G0 end) (rs_fs s')).
Proof.
  intros Hi. eapply (post_respects (calm G0 (λ _, False))); [apply calm_target|]. unfold item_target. apply post_catch.
  - apply post_bind. eapply post_mono; [by apply (safe_path_post env paths Hsib G0); [apply tracked_roots|]|].
    intros p s' _ (-> & Hp & Hc & Hi'). unfold sm_post. cbn. intros _. split; [|done]. by intros p [= <-].
  - intros e k s' _. case_bool_decide; [|done]. intros [= <-]. unfold sm_post. cbn. intros Hc. split; [done|].
    eapply calm_inv; [done|apply tracked_roots|done..].
Qed.

Lemma tracked_item it p : good_target it (Some p) → p = item_path it ∧ W `prefix_of` item_path it ∧ tracked (p :: G0).
Proof.
  intros H. destruct (H p eq_refl) as (-> & Hp & Hc). split_and!; [done..|]. constructor; [|apply tracked_roots]. split; [by left|done].
Qed.

Lemma process_item_tame it :
  sm_respects (tame G0 (touched it)) (process_item env paths blake3 flush prefetch_window c it).
Proof.
  pose proof (tame_preorder G0 (touched it) tracked_roots). unfold process_item. fold (item_target it).
  apply respects_bind; [apply _|apply tame_bump, tracked_roots|]. intros _.
  apply (tame_grow G0 _ _ _ (λ r, match r with Some p => p :: G0 | None => G0 end) (good_target it)).
  - apply calm_tame, calm_target.
  - intros s. apply target_post.
  - intros [p|] Hp; [|by apply respects_ret]. apply tracked_item in Hp as (-> & HW & Hg).
    destruct (it_type it); [apply restore_file_tame|apply restore_directory_tame]; try done; [by left|by right; right; left|by left].
Qed.

(** The item is in the tree. *)
Definition placed (it : item_row) (s : RestoreState) : Prop :=
  W `prefix_of` item_path it ∧
  match it_type it with
  | ItemDir => is_dir_at (rs_fs s) (item_path it) = true
  | ItemFile => file_placed it s
  end.

(** The directories to finish can be reached. *)
Definition dirs_ok (s : RestoreState) : Prop :=
  Forall (λ d : path * item_row, region paths d.1 ∧ clean d.1 ∧ plain (rs_fs s) d.1) (directories s).

Lemma dirs_step T s s' : directories s' = directories s → tree_step env paths T (rs_fs s) (rs_fs s') → dirs_ok s → dirs_ok s'.
Proof.
  unfold dirs_ok. intros -> Hs Hd. eapply Forall_impl; [exact Hd|]. intros [p it] (H1 & H2 & H3). split_and!; [done..|].
  eapply plain_step; [|exact Hs|done]. intros q Hq. eapply owned_prefix; [done|by apply region_owned|done].
Qed.

Lemma process_item_post it s :
  inv G0 (rs_fs s) → dirs_ok s →
  sm_post (process_item env paths blake3 flush prefetch_window c it) s (λ _ s',
    dirs_ok s'
    ∧ ft_stats (rs_fetch s') processed_items = (ft_stats (rs_fetch s) processed_items + 1)%Z
    ∧ (ft_stats (rs_fetch s') successful_items = ft_stats (rs_fetch s) successful_items
       ∨ ft_stats (rs_fetch s') successful_items = (ft_stats (rs_fetch s) successful_items + 1)%Z ∧ placed it s')).
Proof.
  intros Hi Hd. eapply post_respects; [apply (process_item_tame it)|]. unfold process_item. fold (item_target it).
  apply post_bind. eapply post_mono; [apply counted_bump|]. intros [] s1 _ [(N1 & N2 & N3) E1].
  repeat case_decide; try done. pose proof Hi as Hi0. rewrite <-E1 in Hi. apply post_bind.
  eapply (post_respects (calm G0 (λ _, False))); [apply calm_target|]. eapply post_mono; [by apply target_post|].
  intros r s2 _ [Hr Hi2] Hc2. specialize (Hc2 Hi). assert (counted 0 0 s1 s2) as (M1 & M2 & M3) by by eapply counted_quiet.
  destruct r as [p|].
  2: { unfold sm_post. cbn. intros _. split_and!; [|lia|left; lia]. eapply (dirs_step (λ _, False) s); [congruence| |done].
       rewrite <-E1. apply Hc2. }
  apply tracked_item in Hr as (-> & HW & Hg). destruct (it_type it) eqn:Et.
  - eapply post_mono; [apply (restore_file_post (item_path it :: G0)); try done; [by left|by right; right; left]|].
    intros [] s3 _ [(K1 & K2 & K3)|[(K1 & K2 & K3) Hp]] Ht; specialize (Ht Hi0).
    + split_and!; [|lia|left; lia]. eapply (dirs_step (touched it) s); [congruence|done|done].
    + split_and!; [|lia|right; split; [lia|split; [done|by rewrite Et]]].
      eapply (dirs_step (touched it) s); [congruence|done|done].
  - eapply (post_respects (tame (item_path it :: G0) (touched it))); [apply restore_directory_tame; try done; by left|].
    eapply post_mono; [apply (restore_directory_post (item_path it :: G0)); try done; by left|].
    intros [] s3 _ (Hdir & K1 & K2 & K3) Ht3 Ht. specialize (Ht Hi0). specialize (Ht3 Hi2).
    split_and!; [|lia|right; split; [lia|split; [done|by rewrite Et]]].
    pose proof (inv_step env paths Hsib _ _ _ _ Hg Hi2 Ht3) as [_ _ Hf]. unfold dirs_ok in *. rewrite K3, M3, N3.
    apply Forall_app. split.
    + eapply Forall_impl; [exact Hd|]. intros [q it'] (H1 & H2 & H3). split_and!; [done..|].
      eapply plain_step; [|exact Ht|done]. intros k Hk. eapply owned_prefix; [done|by apply region_owned|done].
    + apply Forall_singleton. cbn. split_and!; [by left|inversion Hg as [|? ? [_ ?] _]; done|by inversion Hf].
Qed.
End loop.
End items.
