(* ===== verification/RestoreRun.v ===== *)
(** * What a restore achieves

    The loop over the items, the publication of the tree and the two theorems of
    [restore/restorer.py]: a completed restore is faithful to the snapshot, and no restore
    touches anything else. *)

From S2P Require Import Prelude PyStr Common Heapq Hrw Cluster Protection Catalog Snapshots Cas StorageNode.
From S2P Require Import FastCdc Chunker BackupWorker RestoreFetch LocalGc RestoreFs Restore.

(** ** Moving a tree *)

Lemma lookup_move_tree p q fs k :
  move_tree p q fs !! k =
    if decide (q `prefix_of` k) then fs !! (p ++ drop (length q) k)
    else if decide (p `prefix_of` k) then None else fs !! k.
Proof.
  unfold move_tree. set (f := λ kv : path * node, (q ++ drop (length p) kv.1, kv.2)).
  set (l := map_to_list _). set (rest := filter _ fs).
  assert (∀ d n, (p ++ d, n) ∈ l ↔ fs !! (p ++ d) = Some n) as Hl.
  { intros d n. unfold l. rewrite elem_of_map_to_list, map_lookup_filter_Some. cbn.
    split; [by intros [? _]|]. intros. split; [done|]. by apply prefix_app_r. }
  assert (∀ kv, kv ∈ l → ∃ d, kv.1 = p ++ d) as Hp.
  { intros [k' n] Hin. unfold l in Hin. apply elem_of_map_to_list, map_lookup_filter_Some in Hin as [_ [d ->]]. by exists d. }
  assert (NoDup (f <$> l).*1) as Hnd.
  { rewrite <-list_fmap_compose. apply NoDup_fmap_2_strong.
    - intros a b Ha Hb E. destruct (Hp a Ha) as [da Ea], (Hp b Hb) as [db Eb]. cbn in E. apply app_inv_head in E.
      rewrite Ea, Eb, !drop_app_length in E. subst db.
      destruct a as [ka na], b as [kb nb]. cbn in *. subst. apply Hl in Ha, Hb. congruence.
    - apply (NoDup_fmap_1 fst). unfold l. apply NoDup_fst_map_to_list. }
  assert (∀ d, (list_to_map (f <$> l) : tree) !! (q ++ d) = fs !! (p ++ d)) as Hin.
  { intros d. apply option_eq. intros n. rewrite <-elem_of_list_to_map by done. rewrite <-Hl. split.
    - intros ([k' n'] & E & Hk)%list_elem_of_fmap. destruct (Hp _ Hk) as [d' Ed]. cbn in Ed. subst k'.
      unfold f in E. cbn [fst snd] in E. rewrite drop_app_length in E. injection E as E ->. by apply app_inv_head in E as ->.
    - intros Hk. apply list_elem_of_fmap. exists (p ++ d, n). split; [|done]. unfold f. cbn [fst snd]. by rewrite drop_app_length. }
  assert (∀ k', ¬ q `prefix_of` k' → (list_to_map (f <$> l) : tree) !! k' = None) as Hout.
  { intros k' Hk. apply not_elem_of_list_to_map. intros (kv & E & (kv' & -> & _)%list_elem_of_fmap)%list_elem_of_fmap.
    apply Hk. rewrite E. cbn. by apply prefix_app_r. }
  case_decide as Hq.
  - destruct Hq as [d ->]. rewrite drop_app_length, <-Hin.
    destruct (list_to_map (f <$> l) !! (q ++ d)) as [n|] eqn:E; [by apply lookup_union_Some_l|].
    rewrite lookup_union_r by done. apply map_lookup_filter_None. right. intros x _ [_ H]. apply H. by apply prefix_app_r.
  - rewrite lookup_union_r by by apply Hout. case_decide as Hpk.
    + apply map_lookup_filter_None. right. by intros x _ [H _].
    + destruct (fs !! k) as [n|] eqn:E; [by apply map_lookup_filter_Some|apply map_lookup_filter_None; by left].
Qed.

(** ** The loop *)

Section run.
Context (env : RestoreEnv) (paths : RestorePaths) (Hsib : siblings paths) (blake3 : bytes → bytes).
Context (flush : list recipe_chunk → SM FetchState (list (recipe_chunk * bytes) * option exn)).
Context `{!ChunkSource blake3 flush} (prefetch_window : Z) (c : Catalog) (Hwf : catalog_wf c).

Notation W := (incomplete_dir paths).
Notation R := (resume_dir paths).
Notation F := (final_dir paths).
Notation G0 := [W; R].
Notation tracked := (tracked paths).
Notation inv := (inv paths).
Notation owned := (owned paths).
Notation calm := (calm env paths).
Notation tame := (tame env paths).
Notation item_path it := (below W (normpath (it_path it)).2).
Notation resume_of it := (resume_file paths blake3 (it_path it)).
Notation touched it := (λ q, q = item_path it ∨ q = resume_of it).
Notation process_item := (process_item env paths blake3 flush prefetch_window c).
Notation placed := (placed paths blake3 c).
Notation dirs_ok := (dirs_ok paths).
Notation processed s := (ft_stats (rs_fetch s) processed_items).
Notation successful s := (ft_stats (rs_fetch s) successful_items).

Let Htr : tracked G0 := tracked_roots paths Hsib.

(** What the items may change. *)
Definition changed (items : list item_row) (q : path) : Prop := ∃ it, it ∈ items ∧ (q = item_path it ∨ q = resume_of it).

Lemma owned_item it : W `prefix_of` item_path it → owned (item_path it).
Proof. intros H. right. by left. Qed.

Lemma resume_apart it it' : W `prefix_of` item_path it → item_path it ≠ resume_of it'.
Proof.
  intros H E. rewrite E in H. destruct (sib_apart _ Hsib) as [H1 H2].
  destruct (prefix_weak_total W R (resume_of it')) as [?|?]; [done|by apply prefix_app_r|done|done].
Qed.

(** Later steps leave an item that is in place alone. *)
Lemma placed_step (T : path → Prop) it s s' :
  tree_step env paths T (rs_fs s) (rs_fs s') → ¬ T (item_path it) → placed it s → placed it s'.
Proof.
  intros Hst HT [HW Hp]. split; [done|]. pose proof (owned_item it HW) as Ho. destruct (it_type it).
  - destruct Hp as (rid & ct & Hr & Hm & Hf). exists rid, ct. split_and!; [done..|]. unfold file_at in *. rewrite <-Hf.
    apply (step_file env paths T); [done..|by rewrite Hf].
  - by eapply (step_dir env paths T).
Qed.

Lemma items_tame items : sm_respects (tame G0 (changed items)) (sfor process_item items).
Proof.
  pose proof (tame_preorder env paths Hsib G0 (changed items) Htr). apply respects_for'; [apply _|].
  intros it Hin s Hi. eapply tree_step_weaken; [|apply (process_item_tame env paths Hsib blake3 flush prefetch_window c Hwf it s Hi)].
  intros q Hq. by exists it.
Qed.

Lemma items_post items s :
  NoDup ((λ it, item_path it) <$> items) → inv G0 (rs_fs s) → dirs_ok s →
  sm_post (sfor process_item items) s (λ _ s',
    inv G0 (rs_fs s') ∧ dirs_ok s' ∧ tree_step env paths (changed items) (rs_fs s) (rs_fs s')
    ∧ processed s' = (processed s + Z.of_nat (length items))%Z
    ∧ (successful s' <= successful s + Z.of_nat (length items))%Z
    ∧ (successful s' = successful s + Z.of_nat (length items)%Z → ∀ it, it ∈ items → placed it s')%Z).
Proof.
  revert s. induction items as [|it items IH]; intros s Hnd Hi Hd; cbn [sfor].
  { unfold sm_post. cbn. split_and!; [apply Hi..|done|done|lia|lia|]. intros _ it Hit. by inversion Hit. }
  apply NoDup_cons in Hnd as [Hnot Hnd]. apply post_bind.
  eapply (post_respects (tame G0 (touched it))); [by apply process_item_tame|].
  eapply post_mono; [by apply process_item_post|]. intros [] s1 _ (Hd1 & N1 & N2) Ht1. specialize (Ht1 Hi).
  assert (inv G0 (rs_fs s1)) as Hi1 by by eapply inv_step.
  eapply post_mono; [by apply IH|]. intros [] s2 _ (Hi2 & Hd2 & Ht2 & M1 & M2 & M3).
  assert (tree_step env paths (changed (it :: items)) (rs_fs s) (rs_fs s2)) as Ht.
  { etransitivity; eapply tree_step_weaken; [|exact Ht1| |exact Ht2].
    - intros q Hq. exists it. split; [by left|done].
    - intros q (it' & Hin & Hq). exists it'. split; [by right|done]. }
  split; [done|]. split; [done|]. split; [done|]. split; [cbn; lia|]. split; [destruct N2 as [?|[? _]]; cbn; lia|].
  intros Hall it' [->|Hin]%elem_of_cons.
  - destruct N2 as [?|[N2 Hp]]; [cbn in *; lia|]. eapply placed_step; [exact Ht2| |done].
    intros (it' & Hin & [E|E]); [|by eapply resume_apart, E; apply Hp]. apply Hnot. rewrite E.
    apply list_elem_of_fmap. by exists it'.
  - apply M3; [|done]. destruct N2 as [?|[? _]]; cbn in *; lia.
Qed.
(** ** Publication *)

(** Nothing changes but the two working directories, and the final one if the run succeeds. *)
Definition away (success : Prop) (s s' : RestoreState) : Prop :=
  ∀ q, ¬ owned q → ¬ (success ∧ F `prefix_of` q) → (∀ n t, re_others env n t !! q = t !! q) →
  rs_fs s' !! q = rs_fs s !! q.
Definition succeeds (r : res RestoreResult) : Prop := ∃ res, r = Ok res ∧ rr_completed res = true.

#[export] Instance away_preorder P : PreOrder (away P).
Proof. split; [by intros s q|]. intros s1 s2 s3 H K q H1 H2 H3. by rewrite K, H. Qed.

Lemma step_away T P s s' : tree_step env paths T (rs_fs s) (rs_fs s') → away P s s'.
Proof. intros Hs q Hq _ Ho. by apply (ts_confined _ _ _ _ _ Hs). Qed.

Lemma quiet_away T P s s' : quiet env paths T s s' → away P s s'.
Proof. intros Hq. by eapply step_away, Hq. Qed.

(** All the directories made so far can be reached. *)
Definition known (dirs : list (path * item_row)) : list path := dirs.*1 ++ G0.

Lemma known_inv s : inv G0 (rs_fs s) → dirs_ok s → tracked (known (directories s)) ∧ inv (known (directories s)) (rs_fs s).
Proof.
  intros [H1 H2 H3] Hd. unfold Restore.dirs_ok in Hd. split.
  - apply Forall_app. split; [|apply Htr]. apply Forall_fmap. eapply Forall_impl; [exact Hd|]. intros [p it] (? & ? & ?). done.
  - split; [done..|]. apply Forall_app. split; [|done]. apply Forall_fmap. eapply Forall_impl; [exact Hd|].
    intros [p it] (? & ? & ?). done.
Qed.

Lemma final_apart : ¬ owned F.
Proof.
  destruct (sib_final _ Hsib) as (_ & _ & _ & H1 & H2 & H3). intros [?|[?|?]]; auto.
Qed.

Lemma rename_result G s :
  tracked G → inv G (rs_fs s) →
  let '(r, s') := sys env paths (fs_rename_noreplace W F) s in
  rs_fetch s' = rs_fetch s ∧ directories s' = directories s
  ∧ match r with
    | Ok _ => away True s s' ∧ ∀ d, same_shape (rs_fs s !! (W ++ d)) (rs_fs s' !! (F ++ d))
    | Err _ => tree_step env paths (λ _, False) (rs_fs s) (rs_fs s')
    end.
Proof.
  intros HG Hi. unfold sys. pose proof (step_interfere env paths Hsib (λ _, False) (rs_calls s) (rs_fs s)) as Hst.
  destruct (re_fault env (rs_calls s)); [split_and!; done|].
  pose proof (inv_interfere env paths Hsib G (rs_calls s) (rs_fs s) HG Hi) as Hi'. set (fs := interfere _ _ _ _) in *.
  unfold fs_rename_noreplace. destruct (sib_final _ Hsib) as (Fc & Fne & Fp & F1 & F2 & F3).
  rewrite (inv_parent paths G fs W Hi') by (apply (reach_root paths Hsib); by left).
  assert (resolve_parent fs F = F) as -> by (apply resolve_parent_plain; [done|rewrite Fp; apply Hi']).
  destruct (node_at fs W) as [n|]; [|by split_and!]. case_bool_decide; [by split_and!|].
  destruct (negb _); [by split_and!|]. case_bool_decide; [by split_and!|]. split_and!; [done..| |].
  - assert (∀ q t, ¬ owned q → touch (removelast W) t !! q = t !! q) as Ht.
    { intros q t Hq. rewrite lookup_touch, decide_False; [done|]. intros ->. apply Hq. left. apply removelast_prefix. }
    intros q Hq HF Ho. cbn. rewrite Fp, !Ht, lookup_move_tree, decide_False by tauto. rewrite decide_False; [by apply Hst|].
    intros Hp. apply Hq. right. by left.
  - intros d. cbn. rewrite Fp. etransitivity; [|apply touch_same]. etransitivity; [|apply touch_same].
    rewrite lookup_move_tree, decide_True by by apply prefix_app_r. rewrite drop_app_length. unfold fs.
    by rewrite interfere_owned by (right; left; by apply prefix_app_r).
Qed.

#[local] Instance calm_pre_k G T `{HG : tracked G} : PreOrder (calm G T) := calm_preorder env paths Hsib G T HG.

Lemma calm_finish dirs : Forall (λ d : path * item_row, region paths d.1 ∧ clean d.1) dirs →
  ∀ T l, (∀ d, d ∈ l → d ∈ dirs) → sm_respects (calm (known dirs) T) (sfor (λ d, apply_item_metadata env paths d.1 d.2) l).
Proof.
  intros Hd T l Hl. assert (tracked (known dirs)) as Hk by (apply Forall_app; split; [by apply Forall_fmap|apply Htr]).
  pose proof (calm_preorder env paths Hsib _ T Hk). apply respects_for'; [apply _|]. intros d Hin.
  apply calm_metadata; [done..|]. exists d.1. split; [|done]. apply elem_of_app. left. apply list_elem_of_fmap. by exists d; auto.
Qed.

Lemma calm_reopen dirs T s :
  directories s = dirs → tracked (known dirs) → inv (known dirs) (rs_fs s) →
  quiet env paths T s (restore_work_directory_permissions env paths s).2.
Proof.
  intros Hs Hk Hi. unfold restore_work_directory_permissions. rewrite sm_bind_spec. cbn [sgets]. rewrite Hs.
  pose proof (calm_preorder env paths Hsib _ T Hk).
  assert (sm_respects (calm (known dirs) T) (sfor (λ p, catching is_oserror (ensure_work_directory_permissions env paths p) (mret ()))
    (W :: filter (λ p, p ≠ W) (py_sorted (λ a b : path * item_row, (path_length a.1 <=? path_length b.1)%nat) dirs).*1))) as H0; [|by apply H0].
  apply respects_for'; [apply _|]. intros p Hp. apply (calm_catch env paths Hsib _ T Hk); [|by apply respects_ret].
  apply calm_permissions; [done..|]. exists p. split; [|done]. apply elem_of_app.
  apply elem_of_cons in Hp as [->|[_ Hp]%list_elem_of_filter]; [right; by left|left].
  apply list_elem_of_fmap in Hp as (d & -> & Hd). apply elem_of_py_sorted in Hd. apply list_elem_of_fmap. by exists d.
Qed.

(** What [publish] does, whatever happens. *)
Lemma publish_result sid s :
  inv G0 (rs_fs s) → dirs_ok s →
  let '(r, s') := publish env paths sid s in
  away (succeeds r) s s' ∧ ∀ res, r = Ok res → rr_completed res = true →
    rr_final_dir res = Some F ∧ rr_processed_items res = processed s ∧ rr_successful_items res = successful s
    ∧ ∃ s1, tree_step env paths (λ q, q = R) (rs_fs s) (rs_fs s1)
        ∧ ∀ d, same_shape (rs_fs s1 !! (W ++ d)) (rs_fs s' !! (F ++ d)).
Proof.
  intros Hi Hd. destruct (known_inv s Hi Hd) as [Hk Hik]. set (G := known (directories s)) in *.
  set (T := λ q, q = R). pose proof (calm_preorder env paths Hsib G T Hk) as Hpre.
  unfold publish. rewrite sm_bind_spec. set (m := scatch _ _).
  assert (sm_respects (calm G T) m) as Hm.
  { apply respects_catch; [apply _| |].
    - apply respects_bind; [apply _| |intros; by apply respects_ret]. apply calm_sys; [done..|]. intros fs Hfs.
      eapply step_rmdir; [done|done|apply (reach_root paths Hsib); by right|done].
    - intros e k. case_bool_decide; [by intros [= <-]; apply respects_ret|].
      destruct (is_oserror e); [|done]. intros [= <-]. by apply respects_ret. }
  specialize (Hm s Hik). destruct (m s) as [[closed|e] s1]; cbn [snd] in Hm; [|split; [by eapply quiet_away, Hm|done]].
  assert (inv G (rs_fs s1)) as Hi1 by exact (inv_step env paths Hsib _ _ _ _ Hk Hik (qu_tree _ _ _ _ _ Hm)).
  destruct closed; [|split; [by eapply quiet_away, Hm|by intros res [= <-]]]. cbn [negb]. rewrite sm_bind_spec.
  pose proof (calm_lexists env paths Hsib G T Hk F s1 Hi1) as Hl.
  destruct (lexists env paths F s1) as [[appeared|e] s2]; cbn [snd] in Hl; assert (quiet env paths T s s2) as H2 by by etransitivity.
  2: { split; [by eapply quiet_away, H2|done]. }
  destruct appeared; [split; [by eapply quiet_away, H2|by intros res [= <-]]|]. rewrite sm_bind_spec. cbn [sgets].
  assert (inv G (rs_fs s2)) as Hi2 by exact (inv_step env paths Hsib _ _ _ _ Hk Hik (qu_tree _ _ _ _ _ H2)). rewrite (qu_dirs _ _ _ _ _ H2). rewrite sm_bind_spec.
  assert (Forall (λ d : path * item_row, region paths d.1 ∧ clean d.1) (directories s)) as Hds.
  { eapply Forall_impl; [exact Hd|]. by intros d (? & ? & _). }
  pose proof (calm_finish (directories s) Hds T (py_sorted (λ a b : path * item_row, (path_length b.1 <=? path_length a.1)%nat) (directories s))) as Hf.
  specialize (Hf ltac:(intros d; by rewrite elem_of_py_sorted) s2 Hi2).
  destruct (sfor _ _ s2) as [[[]|e] s3]; cbn [snd] in Hf; assert (quiet env paths T s s3) as H3 by by etransitivity.
  2: { split; [by eapply quiet_away, H3|done]. }
  assert (inv G (rs_fs s3)) as Hi3 by exact (inv_step env paths Hsib _ _ _ _ Hk Hik (qu_tree _ _ _ _ _ H3)).
  unfold scatch. rewrite sm_bind_spec. pose proof (rename_result G s3 Hk Hi3) as Hr.
  destruct (sys env paths (fs_rename_noreplace W F) s3) as [[[]|e] s4]; destruct Hr as (E1 & E2 & Hr).
  - destruct Hr as [Hr1 Hr2]. split; [etransitivity; [by eapply quiet_away, H3|]|].
    { intros q Hq Hn. apply Hr1; [done|]. intros [_ ?]. apply Hn. split; [by eexists|done]. }
    intros res [= <-] _. cbn.
    rewrite E1, !(qu_counts _ _ _ _ _ H3) by tauto. split_and!; [done..|]. exists s3. split; [apply H3|done].
  - assert (tree_step env paths T (rs_fs s) (rs_fs s4)) as H4.
    { etransitivity; [apply H3|]. eapply tree_step_weaken; [|exact Hr]. by intros. }
    assert (∀ final, let '(r, s') := (restore_work_directory_permissions env paths;; result sid false false final (Some W) true) s4 in
      away (succeeds r) s s' ∧ ∀ res, r = Ok res → rr_completed res = true → rr_final_dir res = Some F ∧ rr_processed_items res = processed s
        ∧ rr_successful_items res = successful s ∧ ∃ s1, tree_step env paths T (rs_fs s) (rs_fs s1)
        ∧ ∀ d, same_shape (rs_fs s1 !! (W ++ d)) (rs_fs s' !! (F ++ d))) as Hfail.
    { intros final. rewrite sm_bind_spec. pose proof (calm_reopen (directories s) T s4) as Hq.
      rewrite E2, (qu_dirs _ _ _ _ _ H3) in Hq. specialize (Hq eq_refl Hk (inv_step env paths Hsib _ _ _ _ Hk Hik H4)).
      destruct (restore_work_directory_permissions env paths s4) as [[[]|e'] s5]; cbn [snd] in Hq;
        (split; [etransitivity; [by eapply step_away, H4|by eapply quiet_away, Hq]|by intros res [= <-]]). }
    case_bool_decide; [apply Hfail|]. destruct (is_oserror e); [apply Hfail|]. split; [by eapply step_away, H4|done].
Qed.
(** ** The whole run *)

(** More may be known of the tree after the first part. *)
Lemma calm_grow G G' T {A B} (m : SM RestoreState A) (k : A → SM RestoreState B) :
  sm_respects (calm G T) m → (∀ s, inv G (rs_fs s) → sm_post m s (λ _ s', inv G' (rs_fs s'))) →
  (∀ a, sm_respects (calm G' T) (k a)) → sm_respects (calm G T) (m ≫= k).
Proof.
  intros Hm Hp Hk s Hi. specialize (Hm s Hi). specialize (Hp s Hi). unfold sm_post in Hp. rewrite sm_bind_spec.
  destruct (m s) as [[a|e] s']; [|done]. etransitivity; [exact Hm|]. by apply Hk.
Qed.

Lemma validated G p s :
  tracked G → inv G (rs_fs s) → p = W ∨ p = R →
  sm_post (validate_restore_root env paths p) s (λ _ s', inv (p :: G) (rs_fs s')).
Proof.
  intros HG Hi Hp. eapply (post_respects (calm G (λ _, False))); [by apply calm_validate|].
  eapply post_mono; [by apply (validate_post env paths Hsib G); [..|apply reach_root]|].
  intros [] s' _ [_ Hnl] Hc. assert (inv G (rs_fs s')) as Hi' by by eapply calm_inv.
  apply inv_cons; [done|]. intros q Hq Hpre. destruct (decide (q = p)) as [->|Hne]; [done|].
  apply (inv_base _ _ _ Hi'); [done|]. apply proper_prefix_removelast in Hpre; [|done].
  destruct Hp as [->| ->]; [done|]. by rewrite <-(sib_parent _ Hsib).
Qed.

Lemma tracked_known p : p = W ∨ p = R → tracked [p].
Proof. intros [->| ->]; apply Forall_singleton; (split; [first [by left|by right]|apply Hsib]). Qed.

Lemma tracked_swap : tracked [R; W].
Proof. apply Forall_cons. split; [|apply tracked_known; by left]. split; [by right|apply Hsib]. Qed.

Lemma prepare_calm : sm_respects (calm [] (λ _, False)) (prepare_directories env paths).
Proof.
  assert (tracked []) as H0 by by constructor. pose proof (calm_preorder env paths Hsib [] (λ _, False) H0).
  assert (tracked [W]) as H1 by (apply tracked_known; by left). pose proof tracked_swap as H2.
  pose proof (calm_preorder env paths Hsib [W] (λ _, False) H1). pose proof (calm_preorder env paths Hsib [R; W] (λ _, False) H2).
  apply calm_catching; [done..| |by apply respects_raise].
  apply respects_bind; [apply _|apply calm_makedirs_at; [done..|right; apply reach_root; [done|by left]]|intros _].
  apply (calm_grow [] [W]); [by apply calm_validate|intros s Hi; apply validated; [done..|by left]|intros _].
  apply respects_bind; [apply _|apply calm_permissions; [done..|]; exists W; split; [by left|done]|intros _].
  apply respects_bind; [apply _|apply calm_makedirs_at; [done..|right; apply reach_root; [done|by right]]|intros _].
  apply (calm_grow [W] [R; W]); [by apply calm_validate|intros s Hi; apply validated; [done..|by right]|intros _].
  apply calm_chmod; [done..|]. exists R. split; [by left|done].
Qed.

Lemma prepare_post s : inv [] (rs_fs s) → sm_post (prepare_directories env paths) s (λ _ s', inv G0 (rs_fs s')).
Proof.
  intros Hi. assert (tracked []) as H0 by by constructor. assert (tracked [W]) as H1 by (apply tracked_known; by left).
  pose proof tracked_swap as H2. unfold prepare_directories.
  apply post_catch; [|intros e k s' _; destruct (_ || _); [by intros [= <-]|done]]. apply post_bind.
  eapply (post_respects (calm [] (λ _, False))); [apply calm_makedirs_at; [done..|right; apply reach_root; [done|by left]]|].
  eapply post_mono; [apply post_true|]. intros [] s1 _ _ Hc1. assert (inv [] (rs_fs s1)) as Hi1 by by eapply calm_inv.
  apply post_bind. eapply post_mono; [by apply (validated []); [..|left]|]. intros [] s2 _ Hi2. apply post_bind.
  eapply (post_respects (calm [W] (λ _, False))); [apply calm_permissions; [done..|]; exists W; split; [by left|done]|].
  eapply post_mono; [apply post_true|]. intros [] s3 _ _ Hc3. assert (inv [W] (rs_fs s3)) as Hi3 by by eapply calm_inv.
  apply post_bind.
  eapply (post_respects (calm [W] (λ _, False))); [apply calm_makedirs_at; [done..|right; apply reach_root; [done|by right]]|].
  eapply post_mono; [apply post_true|]. intros [] s4 _ _ Hc4. assert (inv [W] (rs_fs s4)) as Hi4 by by eapply calm_inv.
  apply post_bind. eapply post_mono; [by apply (validated [W]); [..|right]|]. intros [] s5 _ Hi5.
  eapply (post_respects (calm [R; W] (λ _, False))); [apply calm_chmod; [done..|]; exists R; split; [by left|done]|].
  eapply post_mono; [apply post_true|]. intros [] s6 _ _ Hc6. assert (inv [R; W] (rs_fs s6)) as [K1 K2 K3] by by eapply calm_inv.
  split; [done..|]. inversion K3 as [|? ? Ka Kb]; subst. inversion Kb; subst. by repeat constructor.
Qed.

(** An item is where it belongs in the published tree. *)
Definition published (it : item_row) (s : RestoreState) : Prop :=
  let p := F ++ destination W (it_path it) in
  match it_type it with
  | ItemDir => is_dir_at (rs_fs s) p = true
  | ItemFile => ∃ rid ct, it_recipe_id it = Some rid ∧ matches blake3 (rows_of c rid) ct ∧ file_at s p = Some ct
  end.

Lemma placed_published it s1 s' :
  (∀ d, same_shape (rs_fs s1 !! (W ++ d)) (rs_fs s' !! (F ++ d))) → placed it s1 → published it s'.
Proof.
  intros Hs [[d Hd] Hp]. unfold published, destination. rewrite Hd, drop_app_length in *. specialize (Hs d).
  destruct (it_type it).
  - destruct Hp as (rid & ct & Hr & Hm & Hf). exists rid, ct. split_and!; [done..|]. unfold file_at in *. rewrite Hd in Hf.
    rewrite <-Hf. symmetry. by apply same_shape_content.
  - unfold is_dir_at in *. destruct (sib_final _ Hsib) as (_ & Hne & _), (sib_nonempty _ Hsib) as [HWne _].
    rewrite node_at_lookup in Hp |- * by (by intros [? _]%app_eq_nil). by rewrite <-(same_shape_dir _ _ Hs).
Qed.

(** What was published is an item, a directory, or was already in the working tree. *)
Definition nothing_else (items : list item_row) (s s' : RestoreState) : Prop :=
  ∀ d n, rs_fs s' !! (F ++ d) = Some n →
    (∃ it, it ∈ items ∧ d = destination W (it_path it)) ∨ node_is_dir n = true ∨ same_shape (rs_fs s !! (W ++ d)) (Some n).

Lemma nothing_else_step items s s1 s' :
  tree_step env paths (λ q, changed items q ∨ q = R) (rs_fs s) (rs_fs s1) →
  (∀ d, same_shape (rs_fs s1 !! (W ++ d)) (rs_fs s' !! (F ++ d))) → nothing_else items s s'.
Proof.
  intros Hst Hs d n Hn. specialize (Hs d). rewrite Hn in Hs. assert (W `prefix_of` W ++ d) as HW by by apply prefix_app_r.
  destruct (sib_apart _ Hsib) as [Ha1 Ha2].
  assert (∀ q, R `prefix_of` q → q ≠ W ++ d) as Hapart.
  { intros q Hq ->. destruct (prefix_weak_total W R (W ++ d)); done. }
  destruct (ts_evolves _ _ _ _ _ Hst (W ++ d)) as [_ [[(it & Hin & [E|E])|E]|[E|[_ E]]]]; [right; by left|..].
  - left. exists it. split; [done|]. unfold destination. by rewrite <-E, drop_app_length.
  - exfalso. eapply Hapart; [|by symmetry]. by apply prefix_app_r.
  - exfalso. by eapply Hapart.
  - right; right. unfold same_shape in *. congruence.
  - right; left. unfold is_dir_at in E. rewrite node_at_lookup in E by (destruct (sib_nonempty _ Hsib); by intros [? _]%app_eq_nil).
    by rewrite (same_shape_dir _ _ Hs) in E.
Qed.

(** The invariant is kept whatever the paths of the items are. *)
Lemma items_keep items s :
  inv G0 (rs_fs s) → dirs_ok s → sm_post (sfor process_item items) s (λ _ s', inv G0 (rs_fs s') ∧ dirs_ok s').
Proof.
  revert s. induction items as [|it items IH]; intros s Hi Hd; cbn [sfor]; [done|]. apply post_bind.
  eapply (post_respects (tame G0 (touched it))); [by apply process_item_tame|].
  eapply post_mono; [by apply process_item_post|]. intros [] s1 _ [Hd1 _] Ht1. apply IH; [|done].
  eapply inv_step; [done..|by apply Ht1].
Qed.

(** The items are processed and the tree published. *)
Record restored (items : list item_row) (s : RestoreState) (res : RestoreResult) (s' : RestoreState) : Prop := {
  rd_final : rr_final_dir res = Some F;
  rd_processed : rr_processed_items res = (processed s + Z.of_nat (length items))%Z;
  rd_published : Forall (λ it, published it s') items;
  rd_nothing_else : nothing_else items s s' }.

Lemma publish_restored sid items s s2 s3 :
  quiet env paths (λ _, False) s s2 → inv G0 (rs_fs s2) → dirs_ok s2 →
  NoDup ((λ it, item_path it) <$> items) → (successful s <= processed s)%Z →
  sfor process_item items s2 = (Ok (), s3) → successful s3 = processed s3 →
  let '(r, s') := publish env paths sid s3 in
  ∀ res, r = Ok res → rr_completed res = true → restored items s res s'.
Proof.
  intros Hq Hi Hd Hnd Hle E Heq. pose proof (items_post items s2 Hnd Hi Hd) as Hit. unfold sm_post in Hit. rewrite E in Hit.
  destruct Hit as (Hi3 & Hd3 & Ht & N1 & N2 & Hall). pose proof (publish_result sid s3 Hi3 Hd3) as Hp.
  destruct (publish env paths sid s3) as [r s']. destruct Hp as [_ Hp]. intros res Hr Hc.
  destruct (Hp res Hr Hc) as (F1 & F2 & _ & s4 & Ht4 & Hsh).
  assert (processed s2 = processed s ∧ successful s2 = successful s) as [M1 M2] by (by rewrite !(qu_counts _ _ _ _ _ Hq) by tauto).
  split; [done|lia| |].
  - apply Forall_forall. intros it Hin. eapply placed_published; [exact Hsh|].
    assert (placed it s3) as Hpl by (apply Hall; [lia|done]).
    eapply placed_step; [exact Ht4| |done]. intros HR. destruct Hpl as [HW _]. rewrite HR in HW. by destruct (sib_apart _ Hsib).
  - apply (nothing_else_step items s s4); [|done]. transitivity (rs_fs s2); [|transitivity (rs_fs s3)].
    + eapply tree_step_weaken; [|apply Hq]. by intros.
    + eapply tree_step_weaken; [|exact Ht]. by left.
    + eapply tree_step_weaken; [|exact Ht4]. by right.
Qed.

Lemma restore_items_result sid items s :
  inv [] (rs_fs s) → directories s = [] →
  let '(r, s') := restore_items env paths blake3 flush prefetch_window c sid items s in
  away (succeeds r) s s' ∧ (NoDup ((λ it, item_path it) <$> items) → (successful s <= processed s)%Z →
    ∀ res, r = Ok res → rr_completed res = true → restored items s res s').
Proof.
  intros Hi Hdir. unfold restore_items. rewrite sm_bind_spec.
  pose proof (prepare_calm s Hi) as Hq. pose proof (prepare_post s Hi) as Hp. unfold sm_post in Hp.
  destruct (prepare_directories env paths s) as [[[]|e] s1]; cbn [snd] in Hq; [|split; [by eapply quiet_away, Hq|done]].
  rewrite sm_bind_spec. cbn [smodify]. set (s2 := add_prepared W s1).
  assert (quiet env paths (λ _, False) s s2) as Hq2 by (destruct Hq; by split).
  assert (dirs_ok s2) as Hd by (unfold Restore.dirs_ok; by rewrite (qu_dirs _ _ _ _ _ Hq2), Hdir).
  rewrite sm_bind_spec. unfold scatch. rewrite sm_bind_spec.
  pose proof (items_tame items s2 Hp) as Ht. pose proof (items_keep items s2 Hp Hd) as Hk. unfold sm_post in Hk.
  pose proof (publish_restored sid items s s2) as Hpub. destruct (sfor process_item items s2) as [[[]|e] s3]; cbn [snd] in Ht;
    (assert (∀ P, away P s s3) as Ha3 by (intros P; etransitivity; [by eapply quiet_away, Hq2|by eapply step_away])).
  2: { case_bool_decide; (split; [done|]); [by intros _ _ res [= <-]|done]. }
  cbn [mret sm_ret]. rewrite sm_bind_spec. cbn [sgets]. destruct Hk as [Hi3 Hd3].
  destruct (_ && _) eqn:Eb; [|split; [done|by intros _ _ res [= <-]]]. apply andb_prop in Eb as [Eb _]. apply Z.eqb_eq in Eb.
  pose proof (publish_result sid s3 Hi3 Hd3) as Ha. specialize (Hpub s3 Hq2 Hp Hd).
  destruct (publish env paths sid s3) as [r s']. split; [etransitivity; [apply Ha3|apply Ha]|].
  intros Hnd Hle res Hr Hc. by apply Hpub.
Qed.
End run.

(** ** Stored paths *)

(** A path as a scan stores it: [.] for the root, else components joined by separators. *)
Definition scanned (p : pystr) : Prop := p = u "." ∨ normal (split_slash p).
Definition components (p : pystr) : path := if decide (p = u ".") then [] else split_slash p.

Fixpoint join_slash (ws : path) : pystr :=
  match ws with [] => [] | [w] => w | w :: ws' => w ++ 47%N :: join_slash ws' end.

Lemma join_split s : join_slash (split_slash s) = s.
Proof.
  induction s as [|a s IH]; [done|]. cbn [split_slash]. destruct (split_slash s) as [|w ws] eqn:E; [by destruct s as [|b s]; cbn in E; repeat case_match|].
  destruct (a =? 47)%N eqn:Ea.
  - apply N.eqb_eq in Ea as ->. change (47%N :: join_slash (w :: ws) = 47%N :: s). by rewrite IH.
  - rewrite <-IH. by destruct ws.
Qed.

Lemma split_nonempty s : split_slash s ≠ [].
Proof. destruct s; cbn; [done|]. by repeat case_match. Qed.

Lemma scanned_normpath p : scanned p → (normpath p).2 = components p.
Proof.
  intros [->|Hn]; [done|]. unfold normpath, components. cbn [snd]. case_decide as Hd; [by rewrite Hd|]. by rewrite norm_normal.
Qed.

Lemma components_normal p : scanned p → normal (components p).
Proof. unfold components. intros [->|Hn]; [constructor|]. case_decide; [constructor|done]. Qed.

Lemma components_inj p q : components p = components q → p = q.
Proof.
  unfold components. pose proof (split_nonempty p). pose proof (split_nonempty q).
  repeat case_decide; subst; try done; [congruence..|]. intros E. by rewrite <-(join_split p), E, join_split.
Qed.

Lemma normal_clean p : normal p → clean p.
Proof. intros Hn Hin. unfold normal in Hn. rewrite Forall_forall in Hn. by destruct (Hn _ Hin) as (_ & _ & ?). Qed.

Lemma below_scanned base_dir p : normal base_dir → scanned p → below base_dir (normpath p).2 = base_dir ++ components p.
Proof.
  intros Hb Hp. rewrite scanned_normpath by done. unfold below. pose proof (components_normal p Hp) as Hc.
  destruct (components p) as [|x l]; [by rewrite app_nil_r|]. apply norm_normal. by apply Forall_app.
Qed.

Lemma destination_scanned base_dir p : normal base_dir → scanned p → destination base_dir p = components p.
Proof. intros Hb Hp. unfold destination. rewrite below_scanned by done. by rewrite drop_app_length. Qed.

Lemma work_normal base uuid : normal base → normal (incomplete_dir (for_snapshot base uuid)).
Proof. intros Hb. apply Forall_app. split; [done|]. by apply Forall_singleton. Qed.

(** The items of a snapshot have different paths. *)
Lemma snapshot_items_distinct c sid : catalog_wf c → NoDup (it_path <$> get_snapshot_items c sid).
Proof.
  intros Hwf. unfold get_snapshot_items. rewrite py_sorted_perm.
  assert (∀ l : list (Z * item_row), NoDup l.*1 → (∀ x, x ∈ l → snapshot_items c !! x.1 = Some x.2) →
    NoDup (it_path <$> filter (λ it, it_snapshot_id it = sid) l.*2)) as H.
  { induction l as [|[i it] l IH]; intros Hnd Hl; [constructor|]. apply NoDup_cons in Hnd as [Hni Hnd]. cbn [fmap list_fmap snd fst] in *.
    rewrite filter_cons. assert (NoDup (it_path <$> filter (λ it, it_snapshot_id it = sid) l.*2)) as Hr.
    { apply IH; [done|]. intros x Hx. apply Hl. by right. }
    case_decide as Hs; [|done]. cbn. constructor; [|done]. intros (it' & E & [Hs' (x & -> & Hx)%list_elem_of_fmap]%list_elem_of_filter)%list_elem_of_fmap.
    apply Hni. apply list_elem_of_fmap. exists x. split; [|done]. symmetry.
    eapply (swf_item_unique c (cwf_snapshots c Hwf) x.1 i x.2 it); [apply Hl; by right|apply (Hl (i, it)); by left|congruence|done]. }
  apply H; [apply NoDup_fst_map_to_list|]. intros [i it] Hin. by apply elem_of_map_to_list in Hin.
Qed.

Lemma destinations_distinct base_dir c sid :
  catalog_wf c → normal base_dir → (∀ it, it ∈ get_snapshot_items c sid → scanned (it_path it)) →
  NoDup ((λ it, below base_dir (normpath (it_path it)).2) <$> get_snapshot_items c sid).
Proof.
  intros Hwf Hb Hs. pose proof (snapshot_items_distinct c sid Hwf) as Hnd. set (l := get_snapshot_items c sid) in *. clearbody l.
  induction l as [|it l IH]; [constructor|]. cbn [fmap list_fmap] in Hnd |- *. apply NoDup_cons in Hnd as [Hni Hnd]. constructor.
  - intros (it' & E & Hin)%list_elem_of_fmap. rewrite !below_scanned in E by (done || apply Hs; first [by left|by right]).
    apply app_inv_head, components_inj in E. apply Hni. rewrite E. apply list_elem_of_fmap. by exists it'.
  - apply IH; [|done]. intros x Hx. apply Hs. by right.
Qed.

(** ** The theorems *)

(** Everything in the tree is in a directory. *)
Definition rooted (fs : tree) : Prop := ∀ q, q ≠ [] → is_Some (fs !! q) → is_dir_at fs (removelast q) = true.

(** A file with the content of a recipe is the concatenation of its chunks, unless two
    different chunks of one size have the same digest. *)
Lemma matches_recipe blake3 n datas content :
  matches blake3 (recipe_of blake3 n datas) content →
  content = concat datas
  ∨ ∃ d raw, d ∈ datas ∧ raw ≠ d ∧ length raw = length d ∧ blake3_hex_digest blake3 raw = blake3_hex_digest blake3 d.
Proof.
  revert n content. induction datas as [|d datas IH]; intros n content; cbn; [by left|].
  intros (raw & rest & -> & Hsz & Hd & Hm). destruct (decide (raw = d)) as [->|Hne].
  - destruct (IH _ _ Hm) as [->|(d' & raw & Hin & ?)]; [by left|right]. exists d', raw. split; [by right|done].
  - right. exists d, raw. split_and!; [by left|done|lia|done].
Qed.

Section restore_run.
Context (env : RestoreEnv) (blake3 : bytes → bytes).
Context (flush : list recipe_chunk → SM FetchState (list (recipe_chunk * bytes) * option exn)).
Context `{!ChunkSource blake3 flush} (prefetch_window : Z) (c : Catalog) (base : path) (sid : Z).

Lemma restore_result uuid s :
  catalog_wf c → get_snapshot_uuid c sid = Some uuid → normal base →
  rooted (rs_fs s) → plain (rs_fs s) base → directories s = [] →
  let paths := for_snapshot base uuid in
  let items := get_snapshot_items c sid in
  let '(r, s') := restore env blake3 flush prefetch_window c base sid s in
  away env paths (succeeds r) s s'
  ∧ (NoDup ((λ it, below (incomplete_dir paths) (normpath (it_path it)).2) <$> items) →
     (ft_stats (rs_fetch s) successful_items <= ft_stats (rs_fetch s) processed_items)%Z →
     ∀ res, r = Ok res → rr_completed res = true →
     (get_snapshot_status c sid).1 = Some COMPLETE
     ∧ ∃ s1, quiet env paths (λ _, False) s s1 ∧ restored paths blake3 c items s1 res s').
Proof.
  intros Hwf Hu Hb Hroot Hplain Hd paths items. assert (siblings paths) as Hsib by by apply siblings_for_snapshot, normal_clean.
  unfold restore. destruct (get_snapshot_status c sid) as [[status|] x]; [|by split; [|intros _ _ res [= <-]]].
  case_bool_decide as Hst; [by split; [|intros _ _ res [= <-]]|]. rewrite Hu. destruct uuid as [|a uuid]; [by split|].
  fold paths. rewrite sm_bind_spec. assert (inv paths [] (rs_fs s)) as Hi.
  { split; [intros q _ Hne; by apply Hroot| |constructor]. unfold paths, for_snapshot. cbn [incomplete_dir]. by rewrite removelast_snoc. }
  pose proof (calm_lexists env paths Hsib [] (λ _, False) ltac:(constructor) (final_dir paths) s Hi) as Hq.
  destruct (lexists env paths (final_dir paths) s) as [[existing|e] s1]; cbn [snd] in Hq; [|split; [by eapply quiet_away|done]].
  destruct existing; [split; [by eapply quiet_away|by intros _ _ res [= <-]]|].
  fold items. assert (inv paths [] (rs_fs s1)) as Hi1 by (eapply (inv_step env paths Hsib); [constructor|exact Hi|apply Hq]).
  pose proof (restore_items_result env paths Hsib blake3 flush prefetch_window c Hwf sid items s1 Hi1) as Hr.
  rewrite (qu_dirs _ _ _ _ _ Hq) in Hr. specialize (Hr Hd).
  destruct items as [|it l] eqn:Ei; [split; [by eapply quiet_away|by intros _ _ res [= <-]]|].
  destruct (restore_items _ _ _ _ _ _ _ _ s1) as [r s']. destruct Hr as [Ha Hr].
  split; [etransitivity; [by eapply quiet_away|exact Ha]|]. intros Hnd Hle res Hres Hc.
  split; [by rewrite Hst|]. exists s1. split; [done|]. apply Hr; [done| |done..].
  rewrite !(qu_counts _ _ _ _ _ Hq) by tauto. done.
Qed.
End restore_run.

(** ** The chunk service *)

(** The fetch service is a source of chunks. *)
Section source.
Context (data_folder p2p_folder : pystr) (blake3 : bytes → bytes).
Context (decompress : bytes → res bytes) (decompress_max : Z → bytes → res bytes) (env : FetchEnv) (cfg : FetchConfig).
Context (ec_recovery : option (list pystr → SM FetchState fetched)).

Lemma counts_bump k n : k ≠ processed_items → k ≠ successful_items → sm_respects same_counts (RestoreFetch.bump k n).
Proof. intros H1 H2 s. unfold same_counts. cbn. unfold add_stat. by rewrite !bool_decide_false by auto. Qed.

Lemma counts_tick : sm_respects same_counts tick.
Proof. by intros s. Qed.

Lemma counts_cache h d : sm_respects same_counts (cache_chunk data_folder env h d).
Proof.
  unfold cache_chunk. apply respects_bind; [apply _|apply counts_tick|intros n].
  apply respects_catch; [apply _| |intros e k [= <-]; apply respects_ret; apply _].
  apply respects_bind; [apply _| |intros b; apply respects_ret; apply _].
  intros s. unfold on_repo. by destruct (put_compressed data_folder (fe_cas env n) h d (ft_repo s)).
Qed.

Ltac counts :=
  respects_walk ltac:(first [apply counts_tick | by apply counts_bump | apply counts_cache | by intros ?
    | by apply respects_modify; intros ?]).

Lemma counts_local requested h :
  sm_respects same_counts (fetch_local data_folder p2p_folder blake3 decompress decompress_max env cfg requested h).
Proof. unfold fetch_local. counts. Qed.

Lemma counts_cluster : sm_respects same_counts (get_cluster env).
Proof. unfold get_cluster. counts. Qed.

Lemma counts_result requested results v h :
  sm_respects same_counts (take_result data_folder blake3 decompress_max env cfg requested results v h).
Proof. unfold take_result. counts. Qed.

Lemma counts_rounds requested targets ranks v :
  sm_respects same_counts (rounds data_folder blake3 decompress_max env cfg requested targets ranks v).
Proof.
  revert v. induction ranks as [|rank ranks IH]; intros v; cbn [rounds]; [apply respects_ret; apply _|]. case_match; [counts|].
  apply respects_bind; [apply _|apply counts_tick|]. intros n. apply respects_bind; [apply _| |intros; apply IH].
  apply respects_fold; [apply _|]. intros w [a hs]. unfold take_group. apply respects_bind; [apply _|apply counts_tick|]. intros k.
  case_match; [|counts..]. apply respects_fold; [apply _|]. intros. apply counts_result.
Qed.

Lemma counts_remote requested missing :
  sm_respects same_counts (fetch_missing_many_from_remote data_folder blake3 decompress_max env cfg requested missing).
Proof.
  unfold fetch_missing_many_from_remote. case_match; [counts|]. apply respects_bind; [apply _|apply counts_cluster|].
  intros cluster. cbn zeta. apply respects_bind; [apply _|apply counts_rounds|]. intros []. counts.
Qed.

Lemma counts_recover recover requested missing remote :
  EcRecovery blake3 recover → sm_respects same_counts (recover_unresolved_with_ec recover requested missing remote).
Proof.
  intros Hec. unfold recover_unresolved_with_ec. case_match; [counts|]. apply respects_bind; [apply _| |].
  - intros s. unfold same_counts. by rewrite (ec_counters blake3).
  - intros ec. apply respects_fold; [apply _|]. intros. unfold take_ec. counts.
Qed.

Lemma counts_fetch requested :
  ec_promises blake3 ec_recovery →
  sm_respects same_counts
    (fetch_many_raw_chunks data_folder p2p_folder blake3 decompress decompress_max env cfg ec_recovery requested).
Proof.
  intros Hec. unfold fetch_many_raw_chunks. apply respects_bind; [apply _|by apply counts_bump|intros _].
  apply respects_bind; [apply _| |intros [results missing]].
  - unfold fetch_all_local. apply respects_fold; [apply _|]. intros [] h. apply respects_bind; [apply _|apply counts_local|]. intros. counts.
  - destruct missing; [counts|]. apply respects_bind; [apply _|case_match; [apply counts_remote|counts]|intros remote].
    apply respects_bind; [apply _|destruct ec_recovery; [by apply counts_recover|counts]|intros]. counts.
Qed.

(** What is emitted for the records of a window. *)
Lemma emit_records_spec (results : fetched) records :
  (∀ h raw, results !! h = Some (Ok raw) → blake3_hex_digest blake3 raw = h) →
  let '(out, e) := emit_records results records in
  out.*1 `prefix_of` records ∧ Forall (λ x, blake3_hex_digest blake3 x.2 = x.1.1.2) out ∧ (e = None → out.*1 = records).
Proof.
  intros Hg. induction records as [|rc records IH]; cbn; [done|].
  destruct (results !! rc.1.2) as [[raw|e]|] eqn:E; cbn; [|by split_and!; [apply prefix_nil| |]..].
  destruct (emit_records results records) as [out e]. destruct IH as (H1 & H2 & H3). cbn. split_and!.
  - by apply prefix_cons.
  - constructor; [by apply Hg|done].
  - intros He. by rewrite H3.
Qed.

#[export] Instance fetch_source :
  ec_promises blake3 ec_recovery →
  ChunkSource blake3 (flush_record_window data_folder p2p_folder blake3 decompress decompress_max env cfg ec_recovery).
Proof.
  intros Hec. split.
  - intros records s. unfold flush_record_window. apply post_bind. unfold sm_post at 1.
    pose proof (fetch_many_spec data_folder p2p_folder blake3 decompress decompress_max env cfg ec_recovery
      ((λ rc : recipe_chunk, rc.1.2) <$> records) s Hec) as H.
    destruct (fetch_many_raw_chunks _ _ _ _ _ _ _ _ _ s) as [[m|e] s']; [|done].
    destruct (H m eq_refl) as (_ & Hg & _). unfold sm_post. cbn. pose proof (emit_records_spec m records Hg) as He.
    by destruct (emit_records m records).
  - intros records. unfold flush_record_window. apply respects_bind; [apply _|by apply counts_fetch|]. intros. counts.
Qed.
End source.

(** ** service.py *)

Definition _REMOTE_RECOVERY_MODES : list pystr := [u "none"; u "replication"; u "ec"; u "auto"].

(** Only ASCII letters have one of these in lower case. *)
Definition _normalize_remote_recovery (value : pystr) : res pystr :=
  let mode := ascii_lower (strip value) in
  if bool_decide (mode ∉ _REMOTE_RECOVERY_MODES) then Err RestoreDataError else Ok mode.

Record RestoreOptions := {
  so_rf : Z; so_prefetch_window : Z; so_cluster_token : pystr; so_max_chunk_size : Z; so_remote_recovery : pystr }.

(** The configuration of [ChunkFetchService]: with chunks from replicas, a resolver and a
    pool exist. *)
Definition fetch_config (o : RestoreOptions) (mode origin_node_id : pystr) (cluster_rf : Z) : FetchConfig :=
  let use_remote_chunks := bool_decide (mode = u "replication") || bool_decide (mode = u "auto") in {|
  fc_rf := cluster_rf; fc_origin_node_id := origin_node_id; fc_cluster_token := so_cluster_token o;
  fc_max_chunk_size := so_max_chunk_size o; fc_remote_available := use_remote_chunks;
  fc_remote_chunk_recovery := use_remote_chunks |}.

Definition restore_snapshot (data_folder p2p_folder : pystr) (blake3 : bytes → bytes)
    (decompress : bytes → res bytes) (decompress_max : Z → bytes → res bytes)
    (recover : list pystr → SM FetchState fetched) (env : RestoreEnv) (fetch_env : FetchEnv)
    (o : RestoreOptions) (c : Catalog) (base_output_dir : path) (snapshot_id : Z)
  : SM RestoreState RestoreResult :=
  mode ← slift (_normalize_remote_recovery (so_remote_recovery o));
  match get_snapshot_origin_node_id c snapshot_id with
  | None | Some [] => sraise RestoreDataError
  | Some origin_node_id =>
      cluster_rf ← slift (normalize_remote_rf (so_rf o));
      let use_ec_recovery := bool_decide (mode = u "ec") || bool_decide (mode = u "auto") in
      restore env blake3
        (flush_record_window data_folder p2p_folder blake3 decompress decompress_max fetch_env
           (fetch_config o mode origin_node_id cluster_rf) (if use_ec_recovery then Some recover else None))
        (Z.max (so_prefetch_window o) 1) c base_output_dir snapshot_id
  end.

(** Where the chunk store lies: its folder is an absolute path. *)
Definition store_path (data_folder : pystr) : path := filter (λ w, w ≠ []) (split_slash data_folder).

(** What a run starts from. [fs] is the tree without the chunk store, which is [repo]. *)
Definition initial_restore (fs : tree) (repo : CasState) : RestoreState := {|
  rs_fs := fs; rs_calls := 0;
  rs_fetch := {| ft_repo := repo; ft_stats := no_restore_stats; ft_cluster := None; ft_step := 0 |};
  prepared_dirs := ∅; directories := []; resume_name_synced := false |}.

(** An item is in the tree, a file with the content its recipe describes: what was cut into
    the chunks of the recipe, unless two different chunks of one size collide. *)
Definition item_restored (blake3 : bytes → bytes) (c : Catalog) (fs : tree) (it : item_row) (p : path) : Prop :=
  match it_type it with
  | ItemDir => is_dir_at fs p = true
  | ItemFile => ∃ rid content, it_recipe_id it = Some rid ∧ content_of (fs !! p) = Some content
      ∧ matches blake3 (rows_of c rid) content
      ∧ ∀ datas, rows_of c rid = recipe_of blake3 0 datas → content = concat datas
          ∨ ∃ d raw, d ∈ datas ∧ raw ≠ d ∧ length raw = length d ∧ blake3_hex_digest blake3 raw = blake3_hex_digest blake3 d
  end.

Section service.
Context (data_folder p2p_folder : pystr) (blake3 : bytes → bytes).
Context (decompress : bytes → res bytes) (decompress_max : Z → bytes → res bytes).
Context (recover : list pystr → SM FetchState fetched) `{!EcRecovery blake3 recover}.
Context (env : RestoreEnv) (fetch_env : FetchEnv) (o : RestoreOptions) (c : Catalog) (Hreach : rtc cstep empty_catalog c).
Context (base : path) (Hbase : normal base) (fs : tree) (Hroot : rooted fs) (Hplain : plain fs base) (repo : CasState).

Notation restore_snapshot := (restore_snapshot data_folder p2p_folder blake3 decompress decompress_max recover env fetch_env o c base).
Notation F uuid := (final_dir (for_snapshot base uuid)).
Notation W uuid := (incomplete_dir (for_snapshot base uuid)).
Notation R uuid := (resume_dir (for_snapshot base uuid)).

(** Once the options are accepted the run is [restore] with the fetch service. *)
Lemma restore_snapshot_runs sid s :
  (∃ e, restore_snapshot sid s = (Err e, s))
  ∨ ∃ flush pw, ChunkSource blake3 flush ∧ restore_snapshot sid s = restore env blake3 flush pw c base sid s.
Proof.
  unfold RestoreRun.restore_snapshot. rewrite sm_bind_spec. unfold slift.
  destruct (_normalize_remote_recovery _) as [mode|e]; [|left; by eexists].
  destruct (get_snapshot_origin_node_id c sid) as [[|a origin]|]; [left; by eexists| |left; by eexists].
  rewrite sm_bind_spec. destruct (normalize_remote_rf _) as [rf|e]; [|left; by eexists]. right. do 2 eexists.
  split; [|reflexivity]. apply fetch_source. by case_match.
Qed.

(** C6: a completed restore is faithful: in whatever state an earlier run left the working
    directories, whatever the fetch service does, wherever others interfere and whichever
    calls fail on the way, if the result says completed then the snapshot is COMPLETE, every
    item is at its place below the final directory (a directory, or a file that is exactly
    the chunks of its recipe, so what was backed up unless BLAKE3 collides) and every item was
    counted. What else lies below the final directory is a directory or has the shape and
    content of what lay at that place of the working tree before the run: what somebody put
    there is published with the rest. *)
Theorem completed_restore_is_faithful sid uuid res s' :
  get_snapshot_uuid c sid = Some uuid → (∀ it, it ∈ get_snapshot_items c sid → scanned (it_path it)) →
  restore_snapshot sid (initial_restore fs repo) = (Ok res, s') → rr_completed res = true →
  (get_snapshot_status c sid).1 = Some COMPLETE
  ∧ rr_final_dir res = Some (F uuid)
  ∧ rr_processed_items res = Z.of_nat (length (get_snapshot_items c sid))
  ∧ (∀ it, it ∈ get_snapshot_items c sid → item_restored blake3 c (rs_fs s') it (F uuid ++ components (it_path it)))
  ∧ ∀ d n, rs_fs s' !! (F uuid ++ d) = Some n →
      (∃ it, it ∈ get_snapshot_items c sid ∧ d = components (it_path it))
      ∨ node_is_dir n = true ∨ same_shape (fs !! (W uuid ++ d)) (Some n).
Proof.
  intros Hu Hsc Hrun Hc. destruct (csteps_ok _ _ empty_catalog_wf Hreach) as [Hwf _]. set (s := initial_restore fs repo) in *.
  destruct (restore_snapshot_runs sid s) as [[e E]|(flush & pw & Hsrc & E)]; rewrite E in Hrun; [done|].
  pose proof (restore_result env blake3 flush pw c base sid uuid s Hwf Hu Hbase Hroot Hplain eq_refl) as H.
  cbn zeta in H. rewrite Hrun in H. destruct H as [_ H]. pose proof (work_normal base uuid Hbase) as HW.
  destruct (H ltac:(by apply destinations_distinct) ltac:(done) res eq_refl Hc) as (Hst & s1 & Hq & [H1 H2 H3 H4]).
  assert (∀ it, it ∈ get_snapshot_items c sid →
    destination (incomplete_dir (for_snapshot base uuid)) (it_path it) = components (it_path it)) as Hdest.
  { intros it Hin. by apply destination_scanned; [|apply Hsc]. }
  split; [done|]. split; [done|]. split; [by rewrite H2, !(qu_counts _ _ _ _ _ Hq) by tauto|]. split.
  - intros it Hin. rewrite Forall_forall in H3. specialize (H3 it Hin). unfold published in H3. rewrite Hdest in H3 by done.
    unfold item_restored. destruct (it_type it); [|done]. destruct H3 as (rid & ct & Hr & Hm & Hf). exists rid, ct. split_and!; [done..|].
    intros datas Hd. rewrite Hd in Hm. by eapply matches_recipe.
  - intros d n Hn. destruct (H4 d n Hn) as [(it & Hin & ->)|[Hdir|Hsh]]; [left; exists it; by rewrite Hdest|by right; left|right].
    assert (owned (for_snapshot base uuid) (W uuid ++ d)) as Ho by (right; left; by apply prefix_app_r).
    destruct (ts_evolves _ _ _ _ _ (qu_tree _ _ _ _ _ Hq) _ Ho) as [_ [[]|[Hev|[_ Hdir]]]]; [right|left].
    + change (rs_fs s) with fs in Hev. unfold same_shape in *. congruence.
    + unfold is_dir_at in Hdir. rewrite node_at_lookup in Hdir by by destruct base. by rewrite (same_shape_dir _ _ Hsh) in Hdir.
Qed.

End service.

(** ** Witnesses *)

Definition toy_blake3 (b : bytes) : bytes := match b with x :: _ => replicate 32 x | [] => replicate 32 Byte.x00 end.
Definition toy_hash_of (x : Byte.byte) : pystr := blake3_hex_digest toy_blake3 [x].
Definition toy_stat (size : Z) : stat_info := {|
  Catalog.st_size := size; Catalog.st_mode := 33188; Catalog.st_mtime := 7; Catalog.st_mtime_ns := 0;
  Catalog.st_ctime_ns := 0; st_uid := None; st_gid := None |}.

(** A snapshot of a root, a directory [d] and the files [d/f] and [e]. *)
Definition ok_or {A} (d : A) (r : res A) : A := match r with Ok a => a | Err _ => d end.
Definition toy_cat1 : Catalog := (ok_or (0%Z, empty_catalog) (create_snapshot empty_catalog (u "uuid") (u "/data") (u "node-1"))).2.
Definition toy_items : list (pystr * stat_info * item_kind) :=
  [(u ".", toy_stat 0, ItemDir); (u "d", toy_stat 0, ItemDir); (u "d/f", toy_stat 3, ItemFile); (u "e", toy_stat 0, ItemFile)].
Definition toy_cat2 : Catalog := (ok_or ([], empty_catalog) (add_items toy_cat1 1 toy_items)).2.
Definition toy_recipe : list recipe_chunk := recipe_of toy_blake3 0 [[Byte.x41]; [Byte.x42]; [Byte.x41]].
Definition toy_cat3 : Catalog :=
  (ok_or (0%Z, empty_catalog) (consolidate_item_recipe toy_cat2 3 (repeat 97%N 64) toy_recipe 3)).2.
Definition toy_cat4 : Catalog :=
  (ok_or (0%Z, empty_catalog) (consolidate_item_recipe toy_cat3 4 (repeat 98%N 64) [] 3)).2.
Definition toy_restore_catalog : Catalog := ok_or empty_catalog (finish_snapshot toy_cat4 1 3 2).

Definition creating_item_in (c : Catalog) (i : Z) : bool :=
  match snapshot_items c !! i with Some it => bool_decide (creating c (it_snapshot_id it)) | None => true end.

Lemma toy_catalog_reachable : rtc cstep empty_catalog toy_restore_catalog.
Proof.
  assert (∀ c i, creating_item_in c i = true → item_creating c i) as Hc.
  { intros c i H it Hi. unfold creating_item_in in H. rewrite Hi in H. by apply bool_decide_eq_true in H. }
  assert (create_snapshot empty_catalog (u "uuid") (u "/data") (u "node-1") = Ok (1%Z, toy_cat1)) as H1 by (vm_compute; reflexivity).
  assert (add_items toy_cat1 1 toy_items = Ok ([1; 2; 3; 4]%Z, toy_cat2)) as H2 by (vm_compute; reflexivity).
  assert (creating toy_cat1 1) as H1' by by_compute.
  assert (consolidate_item_recipe toy_cat2 3 (repeat 97%N 64) toy_recipe 3 = Ok (1%Z, toy_cat3)) as H3 by (vm_compute; reflexivity).
  assert (creating_item_in toy_cat2 3 = true) as H2' by (vm_compute; reflexivity).
  assert (consolidate_item_recipe toy_cat3 4 (repeat 98%N 64) [] 3 = Ok (2%Z, toy_cat4)) as H4 by (vm_compute; reflexivity).
  assert (creating_item_in toy_cat3 4 = true) as H3' by (vm_compute; reflexivity).
  assert (finish_snapshot toy_cat4 1 3 2 = Ok toy_restore_catalog) as H5 by (vm_compute; reflexivity).
  revert H1 H2 H1' H3 H2' H4 H3' H5. generalize toy_cat1, toy_cat2, toy_cat3, toy_cat4, toy_restore_catalog.
  intros c1 c2 c3 c4 c5 H1 H2 H1' H3 H2' H4 H3' H5. apply Hc in H2', H3'.
  eapply rtc_l; [by eapply cs_create|]. eapply rtc_l; [by eapply cs_add_items|].
  eapply rtc_l; [by eapply cs_consolidate|]. eapply rtc_l; [by eapply cs_consolidate|]. by eapply rtc_once, cs_finish.
Qed.

(** The chunks are in the local store; another process fills the parent directory. *)
Definition toy_store : CasState := with_files
  (λ _, <[chunk_path (u "/cas") (toy_hash_of Byte.x41) := [Byte.x41]]>
   (<[chunk_path (u "/cas") (toy_hash_of Byte.x42) := [Byte.x42]]> ∅)) empty_store.
Definition toy_restore_env (fault : nat → option SysFault) : RestoreEnv := {|
  re_others := λ n t, <[[u "out"; u "other"] := NFile [Byte.x58] 33188 None 1]> t; re_fault := fault;
  re_torn := λ _ _, [Byte.x41; Byte.x5a]; re_locked := λ _, false; re_umask := 18 |}.
Definition toy_options : RestoreOptions := {|
  so_rf := 2; so_prefetch_window := 2; so_cluster_token := toy_token; so_max_chunk_size := 1000;
  so_remote_recovery := u " None" |}.

Notation toy_restore fault fs := (restore_snapshot (u "/cas") (u "/p2p") toy_blake3 Ok (λ _ b, Ok b) (λ _, mret ∅)
  (toy_restore_env fault) toy_fetch_env toy_options toy_restore_catalog [u "out"] 1 (initial_restore fs toy_store)).

(** A first run is interrupted in the middle of a write; a second one starts from what is left. *)
Definition toy_leftover : tree := rs_fs (toy_restore (λ n, if decide (n = 48) then Some Interrupted else None) ∅).2.

Lemma rooted_check fs :
  forallb (λ kv : path * node, bool_decide (kv.1 = []) || is_dir_at fs (removelast kv.1)) (map_to_list fs) = true → rooted fs.
Proof.
  intros H q Hq [n Hn]. rewrite forallb_forall in H. specialize (H (q, n)). rewrite <-list_elem_of_In, elem_of_map_to_list in H.
  specialize (H Hn). cbn in H. by rewrite bool_decide_false in H.
Qed.

Lemma plain_single fs x : (match fs !! [x] with Some (NLink _) => false | _ => true end) = true → plain fs [x].
Proof.
  intros H q Hq Hp. destruct q as [|y q]; [done|].
  pose proof (prefix_cons_inv_1 _ _ _ _ Hp) as ->. destruct q; [|by apply prefix_cons_inv_2, prefix_nil_inv in Hp].
  destruct (fs !! _) as [[]|]; done.
Qed.

Lemma toy_items_scanned it : it ∈ get_snapshot_items toy_restore_catalog 1 → scanned (it_path it).
Proof.
  intros Hin. assert (it_path it ∈ [u "."; u "d"; u "d/f"; u "e"]) as Hp.
  { assert (it_path <$> get_snapshot_items toy_restore_catalog 1 = [u "."; u "d"; u "d/f"; u "e"]) as <- by (vm_compute; reflexivity).
    apply list_elem_of_fmap. by exists it. }
  unfold scanned, normal. set_unfold in Hp. destruct Hp as [->|[->|[->|[->|[]]]]]; [by left|right; by_compute..].
Qed.

Definition completes (x : res RestoreResult * RestoreState) : bool :=
  match x.1 with Ok res => rr_completed res | Err _ => false end.

Lemma toy_leftover_ok : rooted toy_leftover ∧ plain toy_leftover [u "out"] ∧ normal [u "out"]
  ∧ completes (toy_restore (λ _, None) toy_leftover) = true
  ∧ get_snapshot_uuid toy_restore_catalog 1 = Some (u "uuid").
Proof.
  split; [apply rooted_check; (vm_compute; reflexivity)|]. split; [apply plain_single; (vm_compute; reflexivity)|]. split; [by_compute|].
  split; (vm_compute; reflexivity).
Qed.

#[local] Instance toy_recovery : EcRecovery toy_blake3 (λ _, mret ∅).
Proof. by split; [intros ???? [= <- <-]|]. Qed.

Lemma completed_restore_is_faithful_witness :
  ∃ res s', toy_restore (λ _, None) toy_leftover = (Ok res, s') ∧ rr_final_dir res = Some [u "out"; u "snapshot_uuid"]
    ∧ ∀ it, it ∈ get_snapshot_items toy_restore_catalog 1 →
        item_restored toy_blake3 toy_restore_catalog (rs_fs s') it ([u "out"; u "snapshot_uuid"] ++ components (it_path it)).
Proof.
  destruct toy_leftover_ok as (H1 & H2 & H3 & H4 & H5).
  pose proof (λ res s', completed_restore_is_faithful (u "/cas") (u "/p2p") toy_blake3 Ok (λ _ b, Ok b) (λ _, mret ∅)
    (toy_restore_env (λ _, None)) toy_fetch_env toy_options toy_restore_catalog toy_catalog_reachable [u "out"] H3
    toy_leftover H1 H2 toy_store 1 (u "uuid") res s' H5 toy_items_scanned) as H.
  revert H4 H. generalize (toy_restore (λ _, None) toy_leftover). intros [[res|e] s'] H4 H; [|done].
  destruct (H res s' eq_refl H4) as (_ & Hf & _ & Hall & _). exists res, s'.
  split; [reflexivity|]. split; [exact Hf|exact Hall].
Defined.

