(* ===== verification/ErasureTables.v ===== *)
(** * The erasure-coding tables of the catalogue

    The tables of [metadata/database.py] for data packs: which chunk is where in which pack
    and which node has which shard. Their operations run in a transaction; the table of
    chunks, which others write, is an argument for the foreign key and the outer joins.
    Integers are within the 64 bits of SQLite. *)

From S2P Require Import Prelude PyStr Common Protection Catalog ProtectionTable.

(** ** Rows *)

Record ErasureDataPackRecord := {
  dp_pack_hash : pystr; dp_codec : pystr; dp_data_shards : Z; dp_parity_shards : Z;
  dp_payload_size : Z; dp_padded_size : Z; dp_shard_size : Z;
  dp_protection_state : ProtectionState; dp_placement_epoch : option pystr;
  dp_created_at : Q; dp_last_push_at : option Q; dp_last_verify_at : option Q;
  dp_last_error : option pystr }.

Record ErasureDataPackChunkRecord := {
  pc_chunk_hash : pystr; pc_pack_hash : pystr; pc_offset : Z; pc_length : Z; pc_ordinal : Z }.

Record ErasureDataPackShardRecord := {
  ps_pack_hash : pystr; ps_shard_index : Z; ps_shard_hash : pystr; ps_node_id : pystr; ps_size : Z;
  ps_protection_state : ProtectionState; ps_last_push_at : option Q; ps_last_verify_at : option Q;
  ps_last_error : option pystr }.

#[export] Instance ErasureDataPackChunkRecord_eq_dec : EqDecision ErasureDataPackChunkRecord.
Proof. solve_decision. Defined.

Record ErasureTables := {
  data_packs : gmap pystr ErasureDataPackRecord;
  data_pack_chunks : gmap pystr ErasureDataPackChunkRecord;
  data_pack_shards : gmap (pystr * Z) ErasureDataPackShardRecord }.

Definition empty_tables : ErasureTables := {| data_packs := ∅; data_pack_chunks := ∅; data_pack_shards := ∅ |}.

Definition with_packs f (t : ErasureTables) : ErasureTables := {|
  data_packs := f (data_packs t); data_pack_chunks := data_pack_chunks t; data_pack_shards := data_pack_shards t |}.
Definition with_pack_chunks f (t : ErasureTables) : ErasureTables := {|
  data_packs := data_packs t; data_pack_chunks := f (data_pack_chunks t); data_pack_shards := data_pack_shards t |}.
Definition with_shards f (t : ErasureTables) : ErasureTables := {|
  data_packs := data_packs t; data_pack_chunks := data_pack_chunks t; data_pack_shards := f (data_pack_shards t) |}.

(** What a push stores about a pack: [(chunk_hash, offset, length, ordinal)] and
    [(shard_index, shard_hash, node_id, size)]. The arguments of
    [register_erasure_data_pack] are the same, with the time of the call. *)
Definition chunk_tuple : Type := pystr * Z * Z * Z.
Definition shard_tuple : Type := Z * pystr * pystr * Z.
Record ErasureDataPackPushUpdate := {
  eu_pack_hash : pystr; eu_codec : pystr; eu_data_shards : Z; eu_parity_shards : Z;
  eu_payload_size : Z; eu_padded_size : Z; eu_shard_size : Z;
  eu_chunks : list chunk_tuple; eu_shards : list shard_tuple;
  eu_protection_state : ProtectionState; eu_placement_epoch : option pystr; eu_pushed_at : Q }.

Record ErasureDataPackPushErrorUpdate := { ee_pack_hash : pystr; ee_error : pystr }.

Record ErasureDataPackVerificationUpdate := {
  ev_pack_hash : pystr; ev_protection_state : ProtectionState; ev_verified_shard_indexes : list Z;
  ev_error : option pystr }.

(** ** Validation *)

Definition require_non_empty_text (value : pystr) : res pystr :=
  let text := strip value in if bool_decide (text = []) then Err MetadataDatabaseError else Ok text.
Definition require_positive_int (value : Z) : res Z :=
  number ← require_non_negative_int value;
  if (number <=? 0)%Z then Err MetadataDatabaseError else Ok number.

(** The loop over the sorted rows: the end of the last chunk, or an error. *)
Fixpoint check_chunk_rows (expected_ordinal previous_end : Z) (rows : list chunk_tuple) : res Z :=
  match rows with
  | [] => Ok previous_end
  | (_, offset, len, ordinal) :: rows' =>
      if negb (ordinal =? expected_ordinal)%Z then Err MetadataDatabaseError
      else if negb (offset =? previous_end)%Z then Err MetadataDatabaseError
      else check_chunk_rows (expected_ordinal + 1) (offset + len) rows'
  end.

Definition normalize_chunk_row (row : chunk_tuple) : res chunk_tuple :=
  let '(chunk_hash, offset, len, ordinal) := row in
  h ← require_hash64 chunk_hash;
  o ← require_non_negative_int offset;
  l ← require_positive_int len;
  n ← require_non_negative_int ordinal;
  Ok (h, o, l, n).

Definition _normalize_erasure_chunk_rows (chunks : list chunk_tuple) (payload_size : Z) : res (list chunk_tuple) :=
  rows ← mapM_res normalize_chunk_row chunks;
  match rows with
  | [] => Err MetadataDatabaseError
  | _ =>
      let rows := py_sorted (λ a b : chunk_tuple, (a.2 <=? b.2)%Z) rows in
      previous_end ← check_chunk_rows 0 0 rows;
      if negb (previous_end =? payload_size)%Z then Err MetadataDatabaseError else Ok rows
  end.

Definition normalize_shard_row (row : shard_tuple) : res shard_tuple :=
  let '(shard_index, shard_hash, node_id, size) := row in
  i ← require_non_negative_int shard_index;
  h ← require_hash64 shard_hash;
  n ← require_non_empty_text node_id;
  s ← require_positive_int size;
  Ok (i, h, n, s).

Definition shard_tuple_index (row : shard_tuple) : Z := row.1.1.1.
Definition shard_tuple_node (row : shard_tuple) : pystr := row.1.2.

(** [list(range(total))] *)
Definition py_range (total : Z) : list Z := Z.of_nat <$> seq 0 (Z.to_nat total).

Definition _normalize_erasure_shard_rows (shards : list shard_tuple) (total_shards : Z) : res (list shard_tuple) :=
  rows ← mapM_res normalize_shard_row shards;
  let rows := py_sorted (λ a b, (shard_tuple_index a <=? shard_tuple_index b)%Z) rows in
  if bool_decide (shard_tuple_index <$> rows ≠ py_range total_shards) then Err MetadataDatabaseError
  else
    let nodes := shard_tuple_node <$> rows in
    if negb (length nodes =? length (ordered_unique nodes))%nat then Err MetadataDatabaseError else Ok rows.

(** The checks that registration and a push update share; an update also has to carry one
    of the states of a push. *)
Definition normalize_pack (allowed : option (list ProtectionState)) (d : ErasureDataPackPushUpdate)
  : res ErasureDataPackPushUpdate :=
  pack_hash ← require_hash64 (eu_pack_hash d);
  codec ← require_non_empty_text (eu_codec d);
  data_shards ← require_positive_int (eu_data_shards d);
  parity_shards ← require_non_negative_int (eu_parity_shards d);
  payload_size ← require_non_negative_int (eu_payload_size d);
  padded_size ← require_non_negative_int (eu_padded_size d);
  shard_size ← require_positive_int (eu_shard_size d);
  if match allowed with Some l => bool_decide (eu_protection_state d ∉ l) | None => false end
  then Err MetadataDatabaseValueError
  else if negb (padded_size =? shard_size * data_shards)%Z then Err MetadataDatabaseError
  else if (padded_size <? payload_size)%Z then Err MetadataDatabaseError
  else
    chunk_rows ← _normalize_erasure_chunk_rows (eu_chunks d) payload_size;
    shard_rows ← _normalize_erasure_shard_rows (eu_shards d) (data_shards + parity_shards);
    Ok {| eu_pack_hash := pack_hash; eu_codec := codec; eu_data_shards := data_shards;
          eu_parity_shards := parity_shards; eu_payload_size := payload_size; eu_padded_size := padded_size;
          eu_shard_size := shard_size; eu_chunks := chunk_rows; eu_shards := shard_rows;
          eu_protection_state := eu_protection_state d; eu_placement_epoch := eu_placement_epoch d;
          eu_pushed_at := eu_pushed_at d |}.

(** ** Reading *)

(** [WHERE pack_hash = ? ORDER BY chunk_ordinal ASC] and [ORDER BY shard_index ASC]. *)
Definition chunks_of (t : ErasureTables) (pack_hash : pystr) : list ErasureDataPackChunkRecord :=
  py_sorted (λ a b, (pc_ordinal a <=? pc_ordinal b)%Z)
    (filter (λ r, pc_pack_hash r = pack_hash) (map_to_list (data_pack_chunks t)).*2).
Definition shards_of (t : ErasureTables) (pack_hash : pystr) : list ErasureDataPackShardRecord :=
  py_sorted (λ a b, (ps_shard_index a <=? ps_shard_index b)%Z)
    (filter (λ r, ps_pack_hash r = pack_hash) (map_to_list (data_pack_shards t)).*2).

Definition get_erasure_data_pack (t : ErasureTables) (pack_hash : pystr) : res (option ErasureDataPackRecord) :=
  h ← require_hash64 pack_hash; Ok (data_packs t !! h).
Definition get_erasure_pack_chunks (t : ErasureTables) (pack_hash : pystr) : res (list ErasureDataPackChunkRecord) :=
  h ← require_hash64 pack_hash; Ok (chunks_of t h).
Definition get_erasure_pack_shards (t : ErasureTables) (pack_hash : pystr) : res (list ErasureDataPackShardRecord) :=
  h ← require_hash64 pack_hash; Ok (shards_of t h).
Definition get_erasure_chunk_location (t : ErasureTables) (chunk_hash : pystr) : res (option ErasureDataPackChunkRecord) :=
  h ← require_hash64 chunk_hash; Ok (data_pack_chunks t !! h).

(** As a dictionary. *)
Definition get_erasure_chunk_locations (t : ErasureTables) (chunk_hashes : list pystr)
  : res (gmap pystr ErasureDataPackChunkRecord) :=
  hashes ← unique_hashes chunk_hashes;
  Ok (filter (λ kv : pystr * ErasureDataPackChunkRecord, kv.1 ∈ hashes) (data_pack_chunks t)).

(** The bounded queries together give the rows of every pack. *)
Definition get_erasure_pack_shards_many (t : ErasureTables) (pack_hashes : list pystr)
  : res (gmap pystr (list ErasureDataPackShardRecord)) :=
  hashes ← unique_hashes pack_hashes;
  Ok (list_to_map ((λ h, (h, shards_of t h)) <$> hashes)).

(** The packs in the order of their hash that satisfy a condition. *)
Definition select_packs (t : ErasureTables) (where_ : ErasureDataPackRecord → bool) (limit : option Z)
  : list ErasureDataPackRecord :=
  sql_limit limit (filter (λ r, where_ r = true)
    (py_sorted (λ a b, str_leb (dp_pack_hash a) (dp_pack_hash b)) (map_to_list (data_packs t)).*2)).

(** The chunks without a pack, in order. *)
Definition unpacked_chunks (known : gmap pystr Z) (t : ErasureTables) (where_ : pystr → bool) (limit : option Z)
  : list pystr :=
  sql_limit limit (py_sorted str_leb
    (filter (λ h, where_ h = true ∧ data_pack_chunks t !! h = None) (map_to_list known).*1)).

Definition get_erasure_unprotected_chunks (known : gmap pystr Z) (t : ErasureTables) (limit : option Z) : list pystr :=
  unpacked_chunks known t (λ _, true) limit.
Definition erasure_unprotected_chunks_for_hashes (known : gmap pystr Z) (t : ErasureTables) (chunk_hashes : list pystr)
    (limit : option Z) : res (list pystr) :=
  hashes ← unique_hashes chunk_hashes;
  match hashes with
  | [] => Ok []
  | _ => Ok (unpacked_chunks known t (λ h, bool_decide (h ∈ hashes)) limit)
  end.

Definition remote_targets_of (r : ErasureDataPackRecord) : Z := (dp_data_shards r + dp_parity_shards r)%Z.
Definition erasure_data_pack_remote_targets (t : ErasureTables) : list Z :=
  py_sorted Z.leb (ordered_unique (remote_targets_of <$> (map_to_list (data_packs t)).*2)).

(** The condition shared by the two pending queries. *)
Definition pending_pack (current_epoch : option pystr) (remote_targets : option Z) (r : ErasureDataPackRecord) : bool :=
  (bool_decide (dp_protection_state r ∈ [PENDING; DEGRADED; FAILED])
   || match current_epoch with
      | None => false
      | Some e => bool_decide (dp_protection_state r ∈ [PLACED; VERIFIED])
                  && bool_decide (dp_placement_epoch r ≠ Some e)
      end)
  && match remote_targets with None => true | Some n => (remote_targets_of r =? n)%Z end.

Definition get_pending_erasure_data_packs (t : ErasureTables) (current_epoch : option pystr)
    (remote_targets limit : option Z) : list ErasureDataPackRecord :=
  select_packs t (pending_pack current_epoch remote_targets) limit.
Definition pending_erasure_data_packs_by_hashes (t : ErasureTables) (pack_hashes : list pystr)
    (current_epoch : option pystr) (remote_targets limit : option Z) : res (list ErasureDataPackRecord) :=
  hashes ← unique_hashes pack_hashes;
  match hashes with
  | [] => Ok []
  | _ => Ok (select_packs t (λ r, bool_decide (dp_pack_hash r ∈ hashes) && pending_pack current_epoch remote_targets r) limit)
  end.

Definition get_erasure_verification_candidates (t : ErasureTables) (include_verified : bool) (limit : option Z)
  : list ErasureDataPackRecord :=
  let states := [PLACED; DEGRADED; FAILED] ++ (if include_verified then [VERIFIED] else []) in
  select_packs t (λ r, bool_decide (dp_protection_state r ∈ states)) limit.
Definition erasure_data_packs_by_hashes (t : ErasureTables) (pack_hashes : list pystr) (include_verified : bool)
    (limit : option Z) : res (list ErasureDataPackRecord) :=
  hashes ← unique_hashes pack_hashes;
  match hashes with
  | [] => Ok []
  | _ =>
      let states := [PENDING; PLACED; DEGRADED; FAILED] ++ (if include_verified then [VERIFIED] else []) in
      Ok (select_packs t (λ r, bool_decide (dp_pack_hash r ∈ hashes) && bool_decide (dp_protection_state r ∈ states)) limit)
  end.

Definition erasure_pack_hashes_for_chunks (t : ErasureTables) (chunk_hashes : list pystr) : res (list pystr) :=
  hashes ← unique_hashes chunk_hashes;
  Ok (py_sorted str_leb (ordered_unique (pc_pack_hash <$> omap (λ h, data_pack_chunks t !! h) hashes))).
Definition all_erasure_pack_hashes (t : ErasureTables) : list pystr := py_sorted str_leb (map_to_list (data_packs t)).*1.

(** ** Writing *)

Definition same_definition (r : ErasureDataPackRecord) (d : ErasureDataPackPushUpdate) : bool :=
  bool_decide (dp_codec r = eu_codec d) && (dp_data_shards r =? eu_data_shards d)%Z
  && (dp_parity_shards r =? eu_parity_shards d)%Z && (dp_payload_size r =? eu_payload_size d)%Z
  && (dp_padded_size r =? eu_padded_size d)%Z && (dp_shard_size r =? eu_shard_size d)%Z.

Definition _insert_erasure_data_pack_once (d : ErasureDataPackPushUpdate) (last_push_at : option Q) (t : ErasureTables)
  : res ErasureTables :=
  match data_packs t !! eu_pack_hash d with
  | Some existing => if same_definition existing d then Ok t else Err MetadataDatabaseError
  | None => Ok (with_packs (<[eu_pack_hash d := {|
      dp_pack_hash := eu_pack_hash d; dp_codec := eu_codec d; dp_data_shards := eu_data_shards d;
      dp_parity_shards := eu_parity_shards d; dp_payload_size := eu_payload_size d;
      dp_padded_size := eu_padded_size d; dp_shard_size := eu_shard_size d;
      dp_protection_state := eu_protection_state d; dp_placement_epoch := eu_placement_epoch d;
      dp_created_at := eu_pushed_at d; dp_last_push_at := last_push_at; dp_last_verify_at := None;
      dp_last_error := None |}]>) t)
  end.

Definition chunk_record (pack_hash : pystr) (row : chunk_tuple) : ErasureDataPackChunkRecord :=
  let '(chunk_hash, offset, len, ordinal) := row in {|
  pc_chunk_hash := chunk_hash; pc_pack_hash := pack_hash; pc_offset := offset; pc_length := len; pc_ordinal := ordinal |}.

(** [UNIQUE(pack_hash, chunk_ordinal)] is broken by the row. *)
Definition ordinal_taken (t : ErasureTables) (r : ErasureDataPackChunkRecord) : bool :=
  existsb (λ kv : pystr * ErasureDataPackChunkRecord,
    bool_decide (pc_pack_hash kv.2 = pc_pack_hash r) && (pc_ordinal kv.2 =? pc_ordinal r)%Z)
    (map_to_list (data_pack_chunks t)).

Fixpoint _insert_erasure_pack_chunks_once (known : gmap pystr Z) (pack_hash : pystr) (rows : list chunk_tuple)
    (t : ErasureTables) : res ErasureTables :=
  match rows with
  | [] => Ok t
  | row :: rows' =>
      let r := chunk_record pack_hash row in
      match data_pack_chunks t !! pc_chunk_hash r with
      | Some existing =>
          if bool_decide (existing = r) then _insert_erasure_pack_chunks_once known pack_hash rows' t
          else Err MetadataDatabaseError
      | None =>
          if bool_decide (known !! pc_chunk_hash r = None) || ordinal_taken t r then Err IntegrityError
          else _insert_erasure_pack_chunks_once known pack_hash rows' (with_pack_chunks (<[pc_chunk_hash r := r]>) t)
      end
  end.

Definition shard_record (pack_hash : pystr) (state : ProtectionState) (last_push_at : option Q) (row : shard_tuple)
  : ErasureDataPackShardRecord :=
  let '(shard_index, shard_hash, node_id, size) := row in {|
  ps_pack_hash := pack_hash; ps_shard_index := shard_index; ps_shard_hash := shard_hash; ps_node_id := node_id;
  ps_size := size; ps_protection_state := state; ps_last_push_at := last_push_at; ps_last_verify_at := None;
  ps_last_error := None |}.

Fixpoint _insert_erasure_pack_shards_once (pack_hash : pystr) (state : ProtectionState) (last_push_at : option Q)
    (rows : list shard_tuple) (t : ErasureTables) : res ErasureTables :=
  match rows with
  | [] => Ok t
  | row :: rows' =>
      let r := shard_record pack_hash state last_push_at row in
      match data_pack_shards t !! (pack_hash, ps_shard_index r) with
      | Some existing =>
          if bool_decide (ps_shard_hash existing = ps_shard_hash r) && bool_decide (ps_node_id existing = ps_node_id r)
             && (ps_size existing =? ps_size r)%Z
          then _insert_erasure_pack_shards_once pack_hash state last_push_at rows' t
          else Err MetadataDatabaseError
      | None =>
          _insert_erasure_pack_shards_once pack_hash state last_push_at rows'
            (with_shards (<[(pack_hash, ps_shard_index r) := r]>) t)
      end
  end.

Definition register_erasure_data_pack (known : gmap pystr Z) (d : ErasureDataPackPushUpdate) (t : ErasureTables)
  : res ErasureTables :=
  d ← normalize_pack None d;
  let last_push_at := if bool_decide (eu_protection_state d = PENDING) then None else Some (eu_pushed_at d) in
  t1 ← _insert_erasure_data_pack_once d last_push_at t;
  t2 ← _insert_erasure_pack_chunks_once known (eu_pack_hash d) (eu_chunks d) t1;
  _insert_erasure_pack_shards_once (eu_pack_hash d) (eu_protection_state d) last_push_at (eu_shards d) t2.

Definition chunk_tuple_of (r : ErasureDataPackChunkRecord) : chunk_tuple :=
  (pc_chunk_hash r, pc_offset r, pc_length r, pc_ordinal r).
Definition _assert_erasure_pack_chunks_match (t : ErasureTables) (pack_hash : pystr) (rows : list chunk_tuple) : res unit :=
  raise_if (negb (bool_decide (chunk_tuple_of <$> chunks_of t pack_hash = rows))) MetadataDatabaseError.

(** A row is inserted or replaced; the rows of other indexes are deleted. *)
Definition _upsert_erasure_pack_shards_for_push (pack_hash : pystr) (rows : list shard_tuple) (state : ProtectionState)
    (last_push_at : Q) (t : ErasureTables) : ErasureTables :=
  let seen_indexes := shard_tuple_index <$> rows in
  let upserted := fold_left (λ m row,
    let r := shard_record pack_hash state (Some last_push_at) row in <[(pack_hash, ps_shard_index r) := r]> m)
    rows (data_pack_shards t) in
  let kept := match seen_indexes with
              | [] => upserted
              | _ => filter (λ kv : pystr * Z * ErasureDataPackShardRecord,
                       ¬ (kv.1.1 = pack_hash ∧ kv.1.2 ∉ seen_indexes)) upserted
              end in
  with_shards (λ _, kept) t.

Definition with_state (r : ErasureDataPackRecord) (state : ProtectionState) (epoch : option pystr)
    (last_push_at last_verify_at : option Q) (last_error : option pystr) : ErasureDataPackRecord := {|
  dp_pack_hash := dp_pack_hash r; dp_codec := dp_codec r; dp_data_shards := dp_data_shards r;
  dp_parity_shards := dp_parity_shards r; dp_payload_size := dp_payload_size r; dp_padded_size := dp_padded_size r;
  dp_shard_size := dp_shard_size r; dp_protection_state := state; dp_placement_epoch := epoch;
  dp_created_at := dp_created_at r; dp_last_push_at := last_push_at; dp_last_verify_at := last_verify_at;
  dp_last_error := last_error |}.

Definition _apply_erasure_data_pack_push_update (up : ErasureDataPackPushUpdate) (t : ErasureTables) : res ErasureTables :=
  d ← normalize_pack (Some [PLACED; DEGRADED; FAILED]) up;
  match data_packs t !! eu_pack_hash d with
  | None => Err MetadataDatabaseError
  | Some existing =>
      if negb (same_definition existing d) then Err MetadataDatabaseError
      else
        _ ← _assert_erasure_pack_chunks_match t (eu_pack_hash d) (eu_chunks d);
        let row := with_state existing (eu_protection_state d) (eu_placement_epoch d) (Some (eu_pushed_at d)) None None in
        Ok (_upsert_erasure_pack_shards_for_push (eu_pack_hash d) (eu_shards d) (eu_protection_state d) (eu_pushed_at d)
              (with_packs (<[eu_pack_hash d := row]>) t))
  end.

(** [error[:1800]] *)
Definition _apply_erasure_data_pack_push_error (up : ErasureDataPackPushErrorUpdate) (t : ErasureTables) : res ErasureTables :=
  pack_hash ← require_hash64 (ee_pack_hash up);
  error ← require_non_empty_text (ee_error up);
  match data_packs t !! pack_hash with
  | None => Err MetadataDatabaseError
  | Some r =>
      Ok (with_packs (<[pack_hash := with_state r (dp_protection_state r) (dp_placement_epoch r) (dp_last_push_at r)
                          (dp_last_verify_at r) (Some (take 1800 error))]>) t)
  end.

(** A transaction over several rows. *)
Fixpoint apply_all {A} (f : A → ErasureTables → res ErasureTables) (l : list A) (t : ErasureTables) : res ErasureTables :=
  match l with [] => Ok t | x :: l' => t' ← f x t; apply_all f l' t' end.

Definition apply_erasure_data_pack_push_updates (updates : list ErasureDataPackPushUpdate) (t : ErasureTables)
  : res (Z * ErasureTables) :=
  t' ← apply_all _apply_erasure_data_pack_push_update updates t; Ok (Z.of_nat (length updates), t').
Definition refresh_erasure_data_pack_push (up : ErasureDataPackPushUpdate) (t : ErasureTables) : res ErasureTables :=
  snd <$> apply_erasure_data_pack_push_updates [up] t.
Definition apply_erasure_data_pack_push_errors (updates : list ErasureDataPackPushErrorUpdate) (t : ErasureTables)
  : res (Z * ErasureTables) :=
  t' ← apply_all _apply_erasure_data_pack_push_error updates t; Ok (Z.of_nat (length updates), t').
Definition apply_erasure_data_pack_push_result_batch (push_updates : list ErasureDataPackPushUpdate)
    (error_updates : list ErasureDataPackPushErrorUpdate) (t : ErasureTables) : res (Z * ErasureTables) :=
  t1 ← apply_all _apply_erasure_data_pack_push_update push_updates t;
  t2 ← apply_all _apply_erasure_data_pack_push_error error_updates t1;
  Ok (Z.of_nat (length push_updates + length error_updates), t2).

Definition shard_with_state (r : ErasureDataPackShardRecord) (state : ProtectionState)
    (last_push_at last_verify_at : option Q) (last_error : option pystr) : ErasureDataPackShardRecord := {|
  ps_pack_hash := ps_pack_hash r; ps_shard_index := ps_shard_index r; ps_shard_hash := ps_shard_hash r;
  ps_node_id := ps_node_id r; ps_size := ps_size r; ps_protection_state := state; ps_last_push_at := last_push_at;
  ps_last_verify_at := last_verify_at; ps_last_error := last_error |}.

(** [UPDATE erasure_data_pack_shards ... WHERE pack_hash = ?] *)
Definition update_shards (pack_hash : pystr) (f : ErasureDataPackShardRecord → ErasureDataPackShardRecord)
    (t : ErasureTables) : ErasureTables :=
  with_shards (fmap (λ r, if bool_decide (ps_pack_hash r = pack_hash) then f r else r)) t.

Definition _apply_erasure_data_pack_verification_update (verified_at : Q) (up : ErasureDataPackVerificationUpdate)
    (t : ErasureTables) : res ErasureTables :=
  pack_hash ← require_hash64 (ev_pack_hash up);
  if bool_decide (ev_protection_state up ∉ [VERIFIED; DEGRADED; FAILED]) then Err MetadataDatabaseValueError
  else
    verified_indexes ← mapM_res require_non_negative_int (ev_verified_shard_indexes up);
    match data_packs t !! pack_hash with
    | None => Err MetadataDatabaseError
    | Some r =>
        let row := with_state r (ev_protection_state up) (dp_placement_epoch r) (dp_last_push_at r) (Some verified_at) (ev_error up) in
        let missing_state := if bool_decide (ev_protection_state up = FAILED) then FAILED else DEGRADED in
        Ok (update_shards pack_hash (λ s,
              if bool_decide (ps_shard_index s ∈ verified_indexes)
              then shard_with_state s VERIFIED (ps_last_push_at s) (Some verified_at) None
              else shard_with_state s missing_state (ps_last_push_at s) (Some verified_at) (ev_error up))
              (with_packs (<[pack_hash := row]>) t))
    end.

Definition apply_erasure_data_pack_verifications (now : Q) (updates : list ErasureDataPackVerificationUpdate)
    (t : ErasureTables) : res (Z * ErasureTables) :=
  t' ← apply_all (_apply_erasure_data_pack_verification_update now) updates t; Ok (Z.of_nat (length updates), t').
Definition mark_erasure_data_pack_verification (now : Q) (up : ErasureDataPackVerificationUpdate) (t : ErasureTables)
  : res ErasureTables := snd <$> apply_erasure_data_pack_verifications now [up] t.

(** [COALESCE(new, old)] *)
Definition coalesce {A} (new old : option A) : option A := match new with Some _ => new | None => old end.

Definition mark_erasure_data_pack_state (now : Q) (pack_hash : pystr) (state : ProtectionState)
    (placement_epoch error : option pystr) (t : ErasureTables) : res ErasureTables :=
  h ← require_hash64 pack_hash;
  let last_push_at := if bool_decide (state ∈ [PLACED; DEGRADED; FAILED]) then Some now else None in
  let last_verify_at := if bool_decide (state = VERIFIED) then Some now else None in
  Ok (update_shards h (λ s, shard_with_state s state (coalesce last_push_at (ps_last_push_at s))
                              (coalesce last_verify_at (ps_last_verify_at s)) error)
        (with_packs (alter (λ r, with_state r state (coalesce placement_epoch (dp_placement_epoch r))
                              (coalesce last_push_at (dp_last_push_at r)) (coalesce last_verify_at (dp_last_verify_at r)) error) h) t)).

(** ** The rows of a pack *)

(** Lists sorted by a key, one of them strictly. *)
Lemma sorted_by_key {A} (key : A → Z) (l k : list A) :
  StronglySorted (λ a b, (key a <=? key b)%Z = true) l → StronglySorted (λ a b, (key a < key b)%Z) k → l ≡ₚ k → l = k.
Proof.
  intros Hl. revert k. induction Hl as [|x l Hl IH Hx]; intros k Hk HP; [by apply Permutation_nil_l in HP|].
  destruct Hk as [|y k Hk Hy]; [by apply Permutation_nil_r in HP|]. rewrite Forall_forall in Hx, Hy.
  assert (x = y) as ->.
  { assert (x ∈ y :: k) as Hin by (rewrite <-HP; left). assert (y ∈ x :: l) as Hin' by (rewrite HP; left).
    apply elem_of_cons in Hin as [|Hin]; [done|]. apply elem_of_cons in Hin' as [|Hin']; [done|].
    pose proof (Hx _ Hin') as H1. pose proof (Hy _ Hin) as H2. bool_hyps. lia. }
  f_equal. apply IH; [done|]. by apply (inj (cons y)).
Qed.

(** Elements with one key, in a list with distinct keys. *)
Lemma NoDup_fmap_eq {A B} (f : A → B) (l : list A) x y : NoDup (f <$> l) → x ∈ l → y ∈ l → f x = f y → x = y.
Proof.
  intros Hnd [i Hi]%list_elem_of_lookup [j Hj]%list_elem_of_lookup E.
  assert (i = j) as ->; [|congruence]. eapply (NoDup_lookup (f <$> l)); [done| |].
  - by rewrite list_lookup_fmap, Hi.
  - rewrite list_lookup_fmap, Hj. cbn. by rewrite E.
Qed.

Section selected.
Context {K R} `{Countable K} (m : gmap K R) (P : R → Prop) `{!∀ r, Decision (P r)} (key : R → Z).
Let selected : list R := py_sorted (λ a b, (key a <=? key b)%Z) (filter P (map_to_list m).*2).

Lemma elem_of_selected r : r ∈ selected ↔ P r ∧ ∃ k, m !! k = Some r.
Proof.
  unfold selected. rewrite elem_of_py_sorted, list_elem_of_filter, list_elem_of_fmap. split; intros [HP Hr]; (split; [done|]).
  - destruct Hr as ([k r'] & -> & Hin). exists k. by apply elem_of_map_to_list.
  - destruct Hr as [k Hk]. exists (k, r). by rewrite elem_of_map_to_list.
Qed.

Lemma selected_eq rows :
  (∀ k k' r, m !! k = Some r → m !! k' = Some r → k = k') →
  (∀ r, (P r ∧ ∃ k, m !! k = Some r) ↔ r ∈ rows) → StronglySorted (λ a b, (key a < key b)%Z) rows → selected = rows.
Proof.
  intros Hinj Hel Hs. apply (sorted_by_key key); [|done|].
  - apply py_sorted_sorted; [intros x y|intros x y z]; rewrite ?Z.leb_le; lia.
  - unfold selected. rewrite py_sorted_perm. apply NoDup_Permutation.
    + apply NoDup_filter, NoDup_fmap_2_strong; [|apply NoDup_map_to_list]. intros [k r] [k' r'] Hk Hk' E. cbn in E. subst.
      apply elem_of_map_to_list in Hk, Hk'. by rewrite (Hinj _ _ _ Hk Hk').
    + clear Hel. induction Hs as [|r rows _ IH Hr]; [constructor|]. constructor; [|done]. intros Hin.
      rewrite Forall_forall in Hr. specialize (Hr _ Hin). lia.
    + intros r. rewrite <-Hel, <-elem_of_selected. unfold selected. by rewrite elem_of_py_sorted.
Qed.
End selected.

Lemma check_rows_sorted n e rows p :
  check_chunk_rows n e rows = Ok p → StronglySorted (λ a b : chunk_tuple, (a.2 < b.2)%Z) rows ∧ Forall (λ r, (n <= r.2)%Z) rows.
Proof.
  revert n e. induction rows as [|[[[h o] l] k] rows IH]; intros n e H; [split; constructor|]. cbn in H.
  destruct (k =? n)%Z eqn:E; [|done]. destruct (o =? e)%Z; [|done]. bool_hyps. subst. cbn in H.
  destruct (IH _ _ H) as [H1 H2]. split; constructor; cbn; [done| |lia|]; (eapply Forall_impl; [exact H2|]; cbn; lia).
Qed.

Lemma check_rows_end n e rows p :
  check_chunk_rows n e rows = Ok p → Forall (λ r : chunk_tuple, (0 < r.1.2)%Z) rows → (e <= p)%Z ∧ (rows ≠ [] → (e < p)%Z).
Proof.
  revert n e. induction rows as [|[[[h o] l] k] rows IH]; intros n e H Hl; cbn in H; [simplify_eq; split; [lia|done]|].
  destruct (k =? n)%Z; [|done]. destruct (o =? e)%Z eqn:E; [|done]. bool_hyps. subst. cbn in H.
  inversion Hl as [|? ? Hpos Hl']; subst. cbn in Hpos. destruct (IH _ _ H Hl') as [H1 _]. lia.
Qed.

(** ** The invariant *)

Record pack_ok (r : ErasureDataPackRecord) : Prop := {
  po_hash : is_valid_blake3_hex (dp_pack_hash r) = true;
  po_data : (0 < dp_data_shards r)%Z;
  po_parity : (0 <= dp_parity_shards r)%Z;
  po_shard : (0 < dp_shard_size r)%Z;
  po_padded : dp_padded_size r = (dp_shard_size r * dp_data_shards r)%Z;
  po_payload : (0 <= dp_payload_size r <= dp_padded_size r)%Z }.

(** The chunks of a pack cover its payload, in order and without gaps. *)
Record layout (t : ErasureTables) (h : pystr) (payload_size : Z) (rows : list chunk_tuple) : Prop := {
  ly_rows : rows ≠ [] ∧ Forall (λ r : chunk_tuple, (0 < r.1.2)%Z) rows;
  ly_check : check_chunk_rows 0 0 rows = Ok payload_size;
  ly_table c : c ∈ (chunk_record h <$> rows) ↔ data_pack_chunks t !! pc_chunk_hash c = Some c ∧ pc_pack_hash c = h }.

Record tables_wf (known : gmap pystr Z) (t : ErasureTables) : Prop := {
  tw_packs h r : data_packs t !! h = Some r → dp_pack_hash r = h ∧ pack_ok r;
  tw_chunks h c : data_pack_chunks t !! h = Some c →
    pc_chunk_hash c = h ∧ is_valid_blake3_hex h = true ∧ is_Some (known !! h) ∧ is_Some (data_packs t !! pc_pack_hash c);
  tw_shards h i s : data_pack_shards t !! (h, i) = Some s →
    ps_pack_hash s = h ∧ ps_shard_index s = i ∧ is_valid_blake3_hex (ps_shard_hash s) = true ∧ ps_node_id s ≠ []
    ∧ is_Some (data_packs t !! h);
  tw_layout h r : data_packs t !! h = Some r → ∃ rows, layout t h (dp_payload_size r) rows;
  tw_indexes h r i : data_packs t !! h = Some r → is_Some (data_pack_shards t !! (h, i)) ↔ (0 <= i < remote_targets_of r)%Z;
  tw_nodes h i j s s' : data_pack_shards t !! (h, i) = Some s → data_pack_shards t !! (h, j) = Some s' →
    ps_node_id s = ps_node_id s' → i = j }.

Lemma empty_tables_wf known : tables_wf known empty_tables.
Proof. split; intros *; cbn; rewrite lookup_empty; try done. Qed.

Lemma rows_strict h rows p :
  check_chunk_rows 0 0 rows = Ok p → StronglySorted (λ a b, (pc_ordinal a < pc_ordinal b)%Z) (chunk_record h <$> rows).
Proof.
  intros Hc. destruct (check_rows_sorted _ _ _ _ Hc) as [Hs _]. clear -Hs.
  induction Hs as [|[[[a o] l] n] rows _ IH Hr]; [constructor|]. cbn [fmap list_fmap]. constructor; [done|].
  rewrite Forall_fmap. eapply Forall_impl; [exact Hr|]. by intros [[[? ?] ?] ?].
Qed.

(** A chunk is in one place. *)
Lemma layout_chunks_of known t h p rows : tables_wf known t → layout t h p rows → chunks_of t h = chunk_record h <$> rows.
Proof.
  intros Hwf Hl. apply selected_eq.
  - intros k k' c Hk Hk'. destruct (tw_chunks _ _ Hwf _ _ Hk) as [<- _]. by destruct (tw_chunks _ _ Hwf _ _ Hk') as [<- _].
  - intros c. rewrite (ly_table _ _ _ _ Hl). split; [|naive_solver].
    intros [? [k Hk]]. destruct (tw_chunks _ _ Hwf _ _ Hk) as [<- _]. done.
  - by eapply rows_strict, Hl.
Qed.

Lemma chunk_tuple_record h row : chunk_tuple_of (chunk_record h row) = row.
Proof. by destruct row as [[[? ?] ?] ?]. Qed.

Lemma py_range_sorted n : StronglySorted Z.lt (py_range n).
Proof.
  unfold py_range. generalize 0. induction (Z.to_nat n) as [|m IH]; intros k; cbn; constructor; [apply IH|].
  rewrite Forall_fmap, Forall_forall. intros x Hx. apply elem_of_seq in Hx. cbn. lia.
Qed.

(** The shards of a pack are its indexes in order. *)
Lemma shards_of_indexes known t h r :
  tables_wf known t → data_packs t !! h = Some r →
  ps_shard_index <$> shards_of t h = py_range (remote_targets_of r) ∧ NoDup (ps_node_id <$> shards_of t h)
  ∧ ∀ s, s ∈ shards_of t h ↔ data_pack_shards t !! (h, ps_shard_index s) = Some s.
Proof.
  intros Hwf Hr. assert (∃ rows, (∀ s, data_pack_shards t !! (h, ps_shard_index s) = Some s ↔ s ∈ rows)
    ∧ ps_shard_index <$> rows = py_range (remote_targets_of r)) as (rows & Hrows & Hidx).
  { assert (∀ idx, (∀ i, i ∈ idx → (0 <= i < remote_targets_of r)%Z) → ∃ rows,
      ps_shard_index <$> rows = idx ∧ Forall (λ s, data_pack_shards t !! (h, ps_shard_index s) = Some s) rows) as Hex.
    { induction idx as [|i idx IH]; intros His; [by exists []|]. destruct IH as (rows & E & Hf); [intros; apply His; by right|].
      destruct (proj2 (tw_indexes _ _ Hwf _ _ i Hr)) as [s Hs]; [apply His; by left|]. destruct (tw_shards _ _ Hwf _ _ _ Hs) as (_ & Ei & _).
      exists (s :: rows). cbn. rewrite E, Ei. split; [done|]. constructor; [by rewrite Ei|done]. }
    destruct (Hex (py_range (remote_targets_of r))) as (rows & E & Hf).
    { intros i (n & -> & Hn)%list_elem_of_fmap. apply elem_of_seq in Hn. lia. }
    exists rows. split; [|done]. intros s. split; [|by intros Hin; rewrite Forall_forall in Hf; apply Hf].
    intros Hs. assert (ps_shard_index s ∈ py_range (remote_targets_of r)) as Hin.
    { pose proof (proj1 (tw_indexes _ _ Hwf _ _ _ Hr) (mk_is_Some _ _ Hs)). apply list_elem_of_fmap.
      exists (Z.to_nat (ps_shard_index s)). split; [lia|]. apply elem_of_seq. lia. }
    rewrite <-E in Hin. apply list_elem_of_fmap in Hin as (s' & Es & Hin). rewrite Forall_forall in Hf.
    pose proof (Hf _ Hin) as Hs'. rewrite <-Es in Hs'. congruence. }
  assert (shards_of t h = rows) as ->.
  { apply selected_eq.
    - intros [k i] [k' i'] s Hk Hk'. destruct (tw_shards _ _ Hwf _ _ _ Hk) as (<- & <- & _).
      by destruct (tw_shards _ _ Hwf _ _ _ Hk') as (<- & <- & _).
    - intros s. rewrite <-Hrows. split; [|intros Hs; split; [by apply (tw_shards _ _ Hwf _ _ _ Hs)|by eexists]].
      intros [<- [[k i] Hk]]. by destruct (tw_shards _ _ Hwf _ _ _ Hk) as (<- & <- & _).
    - apply (StronglySorted_fmap_inv Z.lt ps_shard_index). rewrite Hidx. apply py_range_sorted. }
  split; [done|]. split; [|done].
  apply NoDup_fmap_2_strong.
  - intros a b Ha Hb E. apply Hrows in Ha, Hb. pose proof (tw_nodes _ _ Hwf _ _ _ _ _ Ha Hb E) as Ei. rewrite Ei in Ha. congruence.
  - apply (NoDup_fmap_1 ps_shard_index). rewrite Hidx. apply NoDup_fmap_2; [intros ? ?; lia|apply NoDup_seq].
Qed.

(** ** Normalised rows *)

Record normalized (d : ErasureDataPackPushUpdate) : Prop := {
  nz_hash : is_valid_blake3_hex (eu_pack_hash d) = true;
  nz_sizes : (0 < eu_data_shards d)%Z ∧ (0 <= eu_parity_shards d)%Z ∧ (0 < eu_shard_size d)%Z
    ∧ eu_padded_size d = (eu_shard_size d * eu_data_shards d)%Z ∧ (0 <= eu_payload_size d <= eu_padded_size d)%Z;
  nz_rows : eu_chunks d ≠ [] ∧ Forall (λ r : chunk_tuple, (0 < r.1.2)%Z ∧ is_valid_blake3_hex r.1.1.1 = true) (eu_chunks d);
  nz_check : check_chunk_rows 0 0 (eu_chunks d) = Ok (eu_payload_size d);
  nz_indexes : shard_tuple_index <$> eu_shards d = py_range (eu_data_shards d + eu_parity_shards d);
  nz_nodes : NoDup (shard_tuple_node <$> eu_shards d);
  nz_shards : Forall (λ r : shard_tuple, is_valid_blake3_hex r.1.1.2 = true ∧ shard_tuple_node r ≠ []) (eu_shards d) }.

Lemma require_hash64_Ok h h' : require_hash64 h = Ok h' → h' = strip h ∧ is_valid_blake3_hex h' = true.
Proof. unfold require_hash64, valid_recipe_hash. destruct (is_valid_blake3_hex (strip h)) eqn:E; [|done]. by intros [= <-]. Qed.

Lemma require_hash64_valid h : is_valid_blake3_hex h = true → strip h = h → require_hash64 h = Ok h.
Proof. intros Hv Hs. unfold require_hash64, valid_recipe_hash. by rewrite Hs, Hv. Qed.

Lemma require_non_negative_int_Ok z z' : require_non_negative_int z = Ok z' → z' = z ∧ (0 <= z)%Z.
Proof. unfold require_non_negative_int. destruct (z <? 0)%Z eqn:E; [done|]. bool_hyps. by intros [= <-]. Qed.

Lemma require_positive_int_Ok z z' : require_positive_int z = Ok z' → z' = z ∧ (0 < z)%Z.
Proof.
  unfold require_positive_int. intros (n & Hn & H)%bind_Ok. apply require_non_negative_int_Ok in Hn as [-> Hz].
  destruct (z <=? 0)%Z eqn:E; [done|]. bool_hyps. by injection H as <-.
Qed.

Lemma distinct_length (l : list pystr) : (length l =? length (ordered_unique l))%nat = true → NoDup l.
Proof.
  intros H%Nat.eqb_eq. assert (ordered_unique l ⊆+ l) as Hs.
  { apply NoDup_submseteq; [apply NoDup_ordered_unique|]. intros x. by rewrite elem_of_ordered_unique. }
  apply submseteq_length_Permutation in Hs; [|lia]. rewrite <-Hs. apply NoDup_ordered_unique.
Qed.

Lemma normalize_chunks_Ok rows payload rows' :
  _normalize_erasure_chunk_rows rows payload = Ok rows' →
  rows' ≠ [] ∧ Forall (λ r : chunk_tuple, (0 < r.1.2)%Z ∧ is_valid_blake3_hex r.1.1.1 = true) rows'
  ∧ check_chunk_rows 0 0 rows' = Ok payload.
Proof.
  unfold _normalize_erasure_chunk_rows. intros (k & Hk & H)%bind_Ok. apply mapM_res_Ok in Hk.
  assert (Forall (λ r : chunk_tuple, (0 < r.1.2)%Z ∧ is_valid_blake3_hex r.1.1.1 = true) k) as Hf.
  { apply Forall_forall. intros r [i Hi]%list_elem_of_lookup. destruct (Forall2_lookup_r _ _ _ _ _ Hk Hi) as ([[[h o] l] n] & _ & Hr).
    cbn in Hr. apply bind_Ok in Hr as (h' & Hh & Hr). apply bind_Ok in Hr as (o' & Ho & Hr). apply bind_Ok in Hr as (l' & Hl & Hr).
    apply bind_Ok in Hr as (n' & Hn & Hr). injection Hr as <-. cbn. apply require_hash64_Ok in Hh as [_ ?].
    apply require_positive_int_Ok in Hl as [-> ?]. done. }
  destruct k as [|r0 k0]; [done|]. remember (py_sorted _ _) as sorted eqn:Es.
  apply bind_Ok in H as (p & Hp & H). destruct (negb _) eqn:E; [done|]. bool_hyps. injection H as <-. subst p.
  split; [|split; [|done]].
  - intros E. apply (f_equal length) in E. rewrite Es, length_py_sorted in E. done.
  - rewrite Es, py_sorted_perm. done.
Qed.

Lemma normalize_shards_Ok rows total rows' :
  _normalize_erasure_shard_rows rows total = Ok rows' →
  shard_tuple_index <$> rows' = py_range total ∧ NoDup (shard_tuple_node <$> rows')
  ∧ Forall (λ r : shard_tuple, is_valid_blake3_hex r.1.1.2 = true ∧ shard_tuple_node r ≠ []) rows'.
Proof.
  unfold _normalize_erasure_shard_rows. intros (k & Hk & H)%bind_Ok. apply mapM_res_Ok in Hk.
  assert (Forall (λ r : shard_tuple, is_valid_blake3_hex r.1.1.2 = true ∧ shard_tuple_node r ≠ []) k) as Hf.
  { apply Forall_forall. intros r [i Hi]%list_elem_of_lookup. destruct (Forall2_lookup_r _ _ _ _ _ Hk Hi) as ([[[x h] n] z] & _ & Hr).
    cbn in Hr. apply bind_Ok in Hr as (x' & Hx & Hr). apply bind_Ok in Hr as (h' & Hh & Hr). apply bind_Ok in Hr as (n' & Hn & Hr).
    apply bind_Ok in Hr as (z' & Hz & Hr). injection Hr as <-. cbn. apply require_hash64_Ok in Hh as [_ ?]. split; [done|].
    unfold require_non_empty_text in Hn. case_bool_decide as Hne; [done|]. by injection Hn as <-. }
  case_bool_decide as Hd; [done|]. destruct (negb _) eqn:E; [done|]. injection H as <-.
  apply negb_false_iff in E. split; [done|]. split; [by apply distinct_length|]. by rewrite py_sorted_perm.
Qed.

Lemma normalize_pack_Ok allowed d d' :
  normalize_pack allowed d = Ok d' → normalized d' ∧ eu_pack_hash d' = strip (eu_pack_hash d)
    ∧ eu_protection_state d' = eu_protection_state d ∧ match allowed with Some l => eu_protection_state d' ∈ l | None => True end.
Proof.
  unfold normalize_pack. intros H. repeat (apply bind_Ok in H as (? & ? & H)).
  destruct (match allowed with Some _ => _ | None => _ end) eqn:Ea; [done|]. destruct (negb _) eqn:E1; [done|].
  destruct (_ <? _)%Z eqn:E2; [done|]. repeat (apply bind_Ok in H as (? & ? & H)). injection H as <-. bool_hyps.
  repeat match goal with
  | H : require_hash64 _ = Ok _ |- _ => apply require_hash64_Ok in H as [-> ?]
  | H : require_positive_int _ = Ok _ |- _ => apply require_positive_int_Ok in H as [-> ?]
  | H : require_non_negative_int _ = Ok _ |- _ => apply require_non_negative_int_Ok in H as [-> ?]
  | H : _normalize_erasure_chunk_rows _ _ = Ok _ |- _ => apply normalize_chunks_Ok in H as (? & ? & ?)
  | H : _normalize_erasure_shard_rows _ _ = Ok _ |- _ => apply normalize_shards_Ok in H as (? & ? & ?)
  end.
  split; [|split; [done|split; [done|]]].
  - split; cbn; try done; split_and!; try done; lia.
  - destruct allowed; [|done]. cbn. by apply bool_decide_eq_false in Ea as ?%dec_stable.
Qed.

(** The rows of the result are the rows given, normalised. *)
Lemma normalize_shards_from rows total rows' row' :
  _normalize_erasure_shard_rows rows total = Ok rows' → row' ∈ rows' → ∃ row, row ∈ rows ∧ normalize_shard_row row = Ok row'.
Proof.
  unfold _normalize_erasure_shard_rows. intros (k & Hk & H)%bind_Ok Hin. apply mapM_res_Ok in Hk.
  case_bool_decide; [done|]. destruct (negb _); [done|]. injection H as <-. rewrite elem_of_py_sorted in Hin.
  apply list_elem_of_lookup in Hin as [i Hi]. destruct (Forall2_lookup_r _ _ _ _ _ Hk Hi) as (row & Hrow & ?).
  exists row. split; [by eapply list_elem_of_lookup_2|done].
Qed.

Lemma normalize_pack_shards allowed d d' row' :
  normalize_pack allowed d = Ok d' → row' ∈ eu_shards d' → ∃ row, row ∈ eu_shards d ∧ normalize_shard_row row = Ok row'.
Proof.
  unfold normalize_pack. intros H. repeat (apply bind_Ok in H as (? & _ & H)).
  destruct (match allowed with Some _ => _ | None => _ end); [done|]. destruct (negb _); [done|].
  destruct (_ <? _)%Z; [done|]. apply bind_Ok in H as (? & _ & H). apply bind_Ok in H as (rows & Hr & H). injection H as <-. cbn.
  by eapply normalize_shards_from.
Qed.

Lemma normalize_epoch allowed d d' : normalize_pack allowed d = Ok d' →
  eu_placement_epoch d' = eu_placement_epoch d ∧ eu_data_shards d' = eu_data_shards d ∧ eu_parity_shards d' = eu_parity_shards d.
Proof.
  unfold normalize_pack. intros H. do 2 apply bind_Ok in H as (? & _ & H).
  apply bind_Ok in H as (k & [-> _]%require_positive_int_Ok & H). apply bind_Ok in H as (m & [-> _]%require_non_negative_int_Ok & H).
  repeat (apply bind_Ok in H as (? & _ & H)).
  destruct (match allowed with Some _ => _ | None => _ end); [done|]. destruct (negb _); [done|].
  destruct (_ <? _)%Z; [done|]. repeat (apply bind_Ok in H as (? & _ & H)). by injection H as <-.
Qed.

(** ** Every operation keeps the invariant *)

Definition pack_def (r : ErasureDataPackRecord) :=
  (dp_pack_hash r, dp_codec r, dp_data_shards r, dp_parity_shards r, dp_payload_size r, dp_padded_size r, dp_shard_size r).
Definition shard_id (s : ErasureDataPackShardRecord) := (ps_pack_hash s, ps_shard_index s, ps_shard_hash s, ps_node_id s).

(** What is never changed: the definition of a pack and its chunks. *)
Record frozen (t t' : ErasureTables) : Prop := {
  fz_packs h r : data_packs t !! h = Some r → pack_def <$> data_packs t' !! h = Some (pack_def r);
  fz_chunks k c : data_pack_chunks t !! k = Some c → data_pack_chunks t' !! k = Some c;
  fz_closed k c : data_pack_chunks t' !! k = Some c → is_Some (data_packs t !! pc_pack_hash c) → data_pack_chunks t !! k = Some c }.

#[export] Instance frozen_preorder : PreOrder frozen.
Proof.
  split; [split; eauto|].
  - intros h r ->. done.
  - intros t1 t2 t3 H K. split.
    + intros h r Hr. pose proof (fz_packs _ _ H _ _ Hr) as H1. destruct (data_packs t2 !! h) as [r2|] eqn:E2; [|done].
      cbn in H1. apply (inj Some) in H1. rewrite (fz_packs _ _ K _ _ E2). by rewrite H1.
    + intros k c Hc. by apply (fz_chunks _ _ K), (fz_chunks _ _ H).
    + intros k c Hc [r Hr]. apply (fz_closed _ _ H); [|by eexists]. apply (fz_closed _ _ K); [done|].
      pose proof (fz_packs _ _ H _ _ Hr) as H1. destruct (data_packs t2 !! pc_pack_hash c); [by eexists|done].
Qed.

Lemma same_def_lookup (f f' : gmap pystr ErasureDataPackRecord) h r :
  (∀ h, pack_def <$> f' !! h = pack_def <$> f !! h) → f' !! h = Some r → ∃ r0, f !! h = Some r0 ∧ pack_def r = pack_def r0.
Proof. intros H Hr. specialize (H h). rewrite Hr in H. destruct (f !! h) as [r0|]; [|done]. exists r0. split; [done|]. by apply (inj Some) in H. Qed.

Lemma pack_ok_def r r' : pack_def r = pack_def r' → pack_ok r → pack_ok r'.
Proof. unfold pack_def. intros [= E1 E2 E3 E4 E5 E6 E7] [P1 P2 P3 P4 P5 P6]. split; congruence || lia. Qed.

(** Only states, times and errors change. *)
Lemma wf_states known t t' :
  tables_wf known t → (∀ h, pack_def <$> data_packs t' !! h = pack_def <$> data_packs t !! h) →
  data_pack_chunks t' = data_pack_chunks t →
  (∀ k, shard_id <$> data_pack_shards t' !! k = shard_id <$> data_pack_shards t !! k) →
  tables_wf known t' ∧ frozen t t'.
Proof.
  intros Hwf Hp Hc Hs.
  assert (∀ h r, data_packs t' !! h = Some r → ∃ r0, data_packs t !! h = Some r0 ∧ pack_def r0 = pack_def r) as Hp1.
  { intros h r Hr. destruct (same_def_lookup _ _ _ _ Hp Hr) as (r0 & ? & ?). by exists r0. }
  assert (∀ h, is_Some (data_packs t !! h) → is_Some (data_packs t' !! h)) as Hp2.
  { intros h [r Hr]. specialize (Hp h). rewrite Hr in Hp. destruct (data_packs t' !! h); [by eexists|done]. }
  assert (∀ k s, data_pack_shards t' !! k = Some s → ∃ s0, data_pack_shards t !! k = Some s0 ∧ shard_id s = shard_id s0) as Hs1.
  { intros k s Hk. specialize (Hs k). rewrite Hk in Hs. destruct (data_pack_shards t !! k) as [s0|]; [|done]. exists s0. split; [done|]. by apply (inj Some) in Hs. }
  split; [split|].
  - intros h r Hr. destruct (Hp1 _ _ Hr) as (r0 & Hr0 & E). destruct (tw_packs _ _ Hwf _ _ Hr0) as [<- Hok].
    split; [by injection E|by eapply pack_ok_def].
  - intros h c. rewrite Hc. intros H. destruct (tw_chunks _ _ Hwf _ _ H) as (? & ? & ? & ?). split_and!; auto.
  - intros h i s H. destruct (Hs1 _ _ H) as (s0 & H0 & E). destruct (tw_shards _ _ Hwf _ _ _ H0) as (? & ? & ? & ? & ?).
    unfold shard_id in E. injection E as -> -> -> ->. split_and!; auto.
  - intros h r Hr. destruct (Hp1 _ _ Hr) as (r0 & Hr0 & E). destruct (tw_layout _ _ Hwf _ _ Hr0) as (rows & [Hl1 Hl2 Hl3]).
    exists rows. unfold pack_def in E. injection E as _ _ _ _ E _ _. split; [done|by rewrite <-E|]. intros c. by rewrite Hc.
  - intros h r i Hr. destruct (Hp1 _ _ Hr) as (r0 & Hr0 & E). rewrite <-(fmap_is_Some shard_id), Hs, fmap_is_Some, (tw_indexes _ _ Hwf _ _ _ Hr0).
    unfold remote_targets_of, pack_def in *. injection E as _ _ E3 E4 _ _ _. by rewrite E3, E4.
  - intros h i j s s' Hi Hj E. destruct (Hs1 _ _ Hi) as (s0 & Hi0 & E0), (Hs1 _ _ Hj) as (s1 & Hj0 & E1).
    eapply (tw_nodes _ _ Hwf); [done..|]. unfold shard_id in *. congruence.
  - split.
    + intros h r Hr. by rewrite Hp, Hr.
    + intros k c. by rewrite Hc.
    + intros k c. by rewrite Hc.
Qed.

(** The table with the shards of one pack written anew. *)
Definition shards_written (h : pystr) (state : ProtectionState) (at_ : option Q) (rows : list shard_tuple)
    (m m' : gmap (pystr * Z) ErasureDataPackShardRecord) : Prop :=
  (∀ k i, k ≠ h → m' !! (k, i) = m !! (k, i))
  ∧ ∀ i s, m' !! (h, i) = Some s ↔ ∃ row, row ∈ rows ∧ s = shard_record h state at_ row ∧ i = shard_tuple_index row.

Lemma elem_of_py_range n i : i ∈ py_range n ↔ (0 <= i < n)%Z.
Proof.
  unfold py_range. rewrite list_elem_of_fmap. split.
  - intros (k & -> & Hk%elem_of_seq). lia.
  - intros Hi. exists (Z.to_nat i). split; [lia|]. apply elem_of_seq. lia.
Qed.

Lemma shard_record_fields h st lp row :
  let s := shard_record h st lp row in
  ps_pack_hash s = h ∧ ps_shard_index s = shard_tuple_index row ∧ ps_shard_hash s = row.1.1.2 ∧ ps_node_id s = shard_tuple_node row.
Proof. by destruct row as [[[? ?] ?] ?]. Qed.

(** Rows with distinct nodes that name the same node are one row. *)
Lemma distinct_rows h st lp rows i j s s' :
  NoDup (shard_tuple_node <$> rows) →
  (∃ row, row ∈ rows ∧ s = shard_record h st lp row ∧ i = shard_tuple_index row) →
  (∃ row, row ∈ rows ∧ s' = shard_record h st lp row ∧ j = shard_tuple_index row) → ps_node_id s = ps_node_id s' → i = j.
Proof.
  intros Hnd (row & Hin & -> & ->) (row' & Hin' & -> & ->).
  destruct (shard_record_fields h st lp row) as (_ & _ & _ & ->), (shard_record_fields h st lp row') as (_ & _ & _ & ->).
  intros E. f_equal. by apply (NoDup_fmap_eq shard_tuple_node rows).
Qed.

Lemma wf_shards known t m' h r st lp rows :
  tables_wf known t → data_packs t !! h = Some r →
  shard_tuple_index <$> rows = py_range (remote_targets_of r) → NoDup (shard_tuple_node <$> rows) →
  Forall (λ r : shard_tuple, is_valid_blake3_hex r.1.1.2 = true ∧ shard_tuple_node r ≠ []) rows →
  shards_written h st lp rows (data_pack_shards t) m' →
  tables_wf known (with_shards (λ _, m') t) ∧ frozen t (with_shards (λ _, m') t).
Proof.
  intros Hwf Hr Hidx Hnd Hval [Hother Hthis]. rewrite Forall_forall in Hval.
  split; [split|split]; cbn [with_shards data_packs data_pack_chunks data_pack_shards]; try apply Hwf; try done.
  - intros k i s. destruct (decide (k = h)) as [->|Hne]; [|rewrite Hother by done; apply Hwf].
    intros (row & Hin & -> & ->)%Hthis. destruct (shard_record_fields h st lp row) as (E1 & E2 & E3 & E4). cbn zeta in *.
    rewrite E1, E2, E3, E4. destruct (Hval _ Hin). by split_and!.
  - intros k r' Hr'. destruct (tw_layout _ _ Hwf _ _ Hr') as (rows' & [? ? ?]). by exists rows'.
  - intros k r' i Hr'. destruct (decide (k = h)) as [->|Hne]; [|rewrite Hother by done; by apply Hwf].
    assert (r' = r) as -> by congruence. rewrite <-elem_of_py_range, <-Hidx, list_elem_of_fmap. split.
    + intros [s (row & Hin & _ & ->)%Hthis]. by exists row.
    + intros (row & -> & Hin). exists (shard_record h st lp row). apply Hthis. by exists row.
  - intros k i j s s'. destruct (decide (k = h)) as [->|Hne]; [|rewrite !Hother by done; apply Hwf].
    intros H1 H2. apply Hthis in H1, H2. by eapply (distinct_rows h st lp rows).
  - intros h' r' Hr'. by rewrite Hr'.
Qed.

(** Writing the rows one by one, for distinct indexes. *)
Lemma fold_shards_written (h : pystr) (st : ProtectionState) (lp : Q) (rows : list shard_tuple) (m : gmap (pystr * Z) ErasureDataPackShardRecord) :
  NoDup (shard_tuple_index <$> rows) →
  let m' := fold_left (λ (m : gmap (pystr * Z) ErasureDataPackShardRecord) (row : shard_tuple),
    let r := shard_record h st (Some lp) row in <[(h, ps_shard_index r) := r]> m) rows m in
  ∀ k i, m' !! (k, i) = if decide (k = h) then
      match list_find (λ row, shard_tuple_index row = i) rows with
      | Some (_, row) => Some (shard_record h st (Some lp) row) | None => m !! (k, i) end
    else m !! (k, i).
Proof.
  cbn zeta. revert m. induction rows as [|row rows IH]; intros m Hnd k i; cbn [fold_left fmap list_fmap list_find] in *; [by case_decide|].
  apply NoDup_cons in Hnd as [Hni Hnd]. rewrite IH by done. destruct (shard_record_fields h st (Some lp) row) as (_ & E & _).
  rewrite E. case_decide as Hk; [subst k|by rewrite lookup_insert_ne by congruence].
  destruct (list_find (λ row0, shard_tuple_index row0 = i) rows) as [[n row']|] eqn:El; cbn.
  - rewrite decide_False; [done|]. intros <-. apply Hni. apply list_find_Some in El as (Hl & <- & _).
    apply list_elem_of_fmap. exists row'. split; [done|]. by eapply list_elem_of_lookup_2.
  - case_decide as Hi; [subst i; by rewrite lookup_insert_eq|rewrite lookup_insert_ne; [done|congruence]].
Qed.

Lemma find_row rows i :
  NoDup (shard_tuple_index <$> rows) → ∀ row, row ∈ rows → shard_tuple_index row = i →
  ∃ n, list_find (λ row, shard_tuple_index row = i) rows = Some (n, row).
Proof.
  intros Hnd row Hin Hi. destruct (list_find (λ row, shard_tuple_index row = i) rows) as [[n row']|] eqn:E.
  - apply list_find_Some in E as (Hl%list_elem_of_lookup_2 & Hi' & _). exists n. do 2 f_equal.
    by apply (NoDup_fmap_eq shard_tuple_index rows); [..|congruence].
  - apply list_find_None in E. rewrite Forall_forall in E. by destruct (E _ Hin).
Qed.

Lemma upsert_written h rows st lp t :
  rows ≠ [] → NoDup (shard_tuple_index <$> rows) →
  shards_written h st (Some lp) rows (data_pack_shards t)
    (data_pack_shards (_upsert_erasure_pack_shards_for_push h rows st lp t)).
Proof.
  intros Hne Hnd. unfold _upsert_erasure_pack_shards_for_push. cbn [with_shards data_pack_shards].
  pose proof (fold_shards_written h st lp rows (data_pack_shards t) Hnd) as Hf. cbn zeta in Hf.
  set (m' := fold_left _ _ _) in *. destruct (shard_tuple_index <$> rows) as [|i0 l0] eqn:E; [by destruct rows|]. rewrite <-E in *. clear E.
  split.
  - intros k i Hk. apply option_eq. intros s. rewrite map_lookup_filter_Some, Hf, decide_False by done. naive_solver.
  - intros i s. rewrite map_lookup_filter_Some, Hf, decide_True by done. cbn [fst snd]. split.
    + intros [Hs Hn]. assert (i ∈ shard_tuple_index <$> rows) as Hin by (apply dec_stable; tauto).
      apply list_elem_of_fmap in Hin as (row & -> & Hin). destruct (find_row rows _ Hnd row Hin eq_refl) as [n En].
      rewrite En in Hs. exists row. split_and!; [done|congruence|done].
    + intros (row & Hin & -> & ->). destruct (find_row rows _ Hnd row Hin eq_refl) as [n ->]. split; [done|].
      intros [_ H]. apply H. apply list_elem_of_fmap. by exists row.
Qed.

Lemma insert_shards_spec h st lp rows t t' :
  _insert_erasure_pack_shards_once h st lp rows t = Ok t' → NoDup (shard_tuple_index <$> rows) →
  data_packs t' = data_packs t ∧ data_pack_chunks t' = data_pack_chunks t
  ∧ ((∀ row, row ∈ rows → is_Some (data_pack_shards t !! (h, shard_tuple_index row))) → t' = t)
  ∧ ((∀ i, data_pack_shards t !! (h, i) = None) → shards_written h st lp rows (data_pack_shards t) (data_pack_shards t')).
Proof.
  intros H Hnd. assert (data_packs t' = data_packs t ∧ data_pack_chunks t' = data_pack_chunks t
    ∧ ((∀ row, row ∈ rows → is_Some (data_pack_shards t !! (h, shard_tuple_index row))) → t' = t)
    ∧ ((∀ row, row ∈ rows → data_pack_shards t !! (h, shard_tuple_index row) = None) → ∀ k i s,
         data_pack_shards t' !! (k, i) = Some s ↔ data_pack_shards t !! (k, i) = Some s
           ∨ k = h ∧ ∃ row, row ∈ rows ∧ s = shard_record h st lp row ∧ i = shard_tuple_index row)) as (H1 & H2 & H3 & H4).
  2: { split_and!; [done..|]. intros Hnone. specialize (H4 ltac:(auto)). split.
    - intros k i Hk. apply option_eq. intros s. rewrite H4. naive_solver.
    - intros i s. rewrite H4, Hnone. naive_solver. }
  revert t H. induction rows as [|row rows IH]; intros t H; cbn [_insert_erasure_pack_shards_once] in H.
  { injection H as <-. split_and!; [done..|]. intros _ k i s. split; [by left|]. intros [?|(_ & row & Hin & _)]; [done|]. by inversion Hin. }
  destruct (shard_record_fields h st lp row) as (_ & E & _). rewrite E in H.
  cbn [fmap list_fmap] in Hnd. apply NoDup_cons in Hnd as [Hni Hnd].
  destruct (data_pack_shards t !! (h, shard_tuple_index row)) as [s0|] eqn:Es.
  - destruct (_ && _); [|done]. destruct (IH Hnd _ H) as (H1 & H2 & H3 & H4). split_and!; [done..| |].
    + intros Hall. apply H3. intros row' Hin. apply Hall. by right.
    + intros Hnone. rewrite (Hnone row) in Es; [done|by left].
  - destruct (IH Hnd _ H) as (H1 & H2 & H3 & H4). split_and!; [done..| |].
    + intros Hall. destruct (Hall row) as [s Hs]; [by left|congruence].
    + intros Hnone k i s. rewrite H4.
      * cbn [with_shards data_pack_shards]. rewrite lookup_insert_Some. split.
        -- intros [[[[= <- <-] <-]|[Hne Hs]]|(-> & row' & Hin & -> & ->)]; [right|by left|right; split; [done|]].
           ++ split; [done|]. exists row. split_and!; [by left|done..].
           ++ exists row'. split_and!; [by right|done..].
        -- intros [Hs|(-> & row' & [->|Hin]%elem_of_cons & -> & ->)].
           ++ left. right. split; [|done]. intros [= <- <-]. congruence.
           ++ left. by left.
           ++ right. split; [done|]. by exists row'.
      * intros row' Hin. cbn [with_shards data_pack_shards]. rewrite lookup_insert_ne; [apply Hnone; by right|].
        intros [= Ei]. apply Hni. rewrite Ei. apply list_elem_of_fmap. by exists row'.
Qed.

Lemma insert_shards_packs h st lp rows t t' : _insert_erasure_pack_shards_once h st lp rows t = Ok t' → data_packs t' = data_packs t.
Proof.
  revert t. induction rows as [|row rows IH]; intros t H; cbn in H; [by injection H as <-|].
  destruct (data_pack_shards t !! _); [destruct (_ && _); [by apply IH|done]|by apply IH in H].
Qed.

Lemma chunk_record_inj h a b : chunk_record h a = chunk_record h b → a = b.
Proof. intros E. by rewrite <-(chunk_tuple_record h a), E, chunk_tuple_record. Qed.

(** The chunk table after the rows were inserted or found. *)
Lemma insert_chunks_spec known h rows t t' :
  _insert_erasure_pack_chunks_once known h rows t = Ok t' →
  data_packs t' = data_packs t ∧ data_pack_shards t' = data_pack_shards t
  ∧ (∀ k c, data_pack_chunks t !! k = Some c → data_pack_chunks t' !! k = Some c)
  ∧ (∀ k c, data_pack_chunks t' !! k = Some c → data_pack_chunks t !! k = Some c
       ∨ data_pack_chunks t !! k = None ∧ c ∈ (chunk_record h <$> rows) ∧ pc_chunk_hash c = k ∧ is_Some (known !! k))
  ∧ ∀ c, c ∈ (chunk_record h <$> rows) → data_pack_chunks t' !! pc_chunk_hash c = Some c.
Proof.
  revert t. induction rows as [|row rows IH]; intros t H; cbn [_insert_erasure_pack_chunks_once] in H.
  { injection H as <-. split_and!; [done..|by left|]. intros c Hc. by inversion Hc. }
  set (r := chunk_record h row) in *. destruct (data_pack_chunks t !! pc_chunk_hash r) as [existing|] eqn:E.
  - case_bool_decide as He; [subst existing|done]. destruct (IH _ H) as (H1 & H2 & H3 & H4 & H5). split_and!; [done..| |].
    + intros k c Hk. destruct (H4 k c Hk) as [?|(? & ? & ? & ?)]; [by left|right]. split_and!; [done|by right|done..].
    + intros c [->|Hc]%elem_of_cons; [by apply H3|by apply H5].
  - destruct (_ || _) eqn:Ef; [done|]. apply orb_false_iff in Ef as [Ekn _].
    destruct (IH _ H) as (H1 & H2 & H3 & H4 & H5). cbn [with_pack_chunks data_packs data_pack_chunks data_pack_shards] in *.
    split_and!; [done..| | |].
    + intros k c Hk. apply H3. rewrite lookup_insert_ne; [done|congruence].
    + intros k c Hk. destruct (H4 k c Hk) as [Hs|(Hs & ? & ? & ?)].
      * apply lookup_insert_Some in Hs as [[<- <-]|[_ ?]]; [right|by left]. split_and!; [done|by left|done|].
        apply bool_decide_eq_false in Ekn. destruct (known !! pc_chunk_hash r); [by eexists|done].
      * apply lookup_insert_None in Hs as [? _]. right. split_and!; [done|by right|done..].
    + intros c [->|Hc]%elem_of_cons; [|by apply H5]. apply H3. by rewrite lookup_insert_eq.
Qed.

(** The same pack again: its rows are there already. *)
Lemma insert_chunks_again known t h p rows rows' t' :
  tables_wf known t → layout t h p rows → check_chunk_rows 0 0 rows' = Ok p →
  Forall (λ r : chunk_tuple, (0 < r.1.2)%Z ∧ is_valid_blake3_hex r.1.1.1 = true) rows' →
  _insert_erasure_pack_chunks_once known h rows' t = Ok t' → t' = t.
Proof.
  intros Hwf [[_ Hpos] Hcheck Htable] Hcheck' Hpos'.
  assert (∀ n e rest, (∀ c, c ∈ (chunk_record h <$> rest) → c ∈ (chunk_record h <$> rows)) →
    (∀ c, c ∈ (chunk_record h <$> rows) → pc_ordinal c < n ∨ c ∈ (chunk_record h <$> rest))%Z →
    check_chunk_rows n e rest = Ok p → Forall (λ r : chunk_tuple, (0 < r.1.2)%Z) rest → check_chunk_rows n e rows' = Ok p →
    _insert_erasure_pack_chunks_once known h rows' t = Ok t' → t' = t) as Hgen.
  2: { intros H. by apply (Hgen 0%Z 0%Z rows); auto. }
  clear Hcheck Hcheck' Hpos. induction rows' as [|row rows' IH]; intros n e rest Hsub Hcov Hrest Hp Hch Hins;
    [by injection Hins|]. inversion Hpos' as [|? ? [Hl _] Hpos'']; subst.
  cbn [_insert_erasure_pack_chunks_once] in Hins. destruct row as [[[hash o] l] k]. cbn in Hl, Hch.
  destruct (k =? n)%Z eqn:Ek; [|done]. destruct (o =? e)%Z eqn:Eo; [|done]. bool_hyps. subst k o. cbn in Hch.
  assert (Forall (λ r : chunk_tuple, (0 < r.1.2)%Z) rows') as Hp' by (eapply Forall_impl; [exact Hpos''|]; by intros ? []).
  pose proof (check_rows_end _ _ _ _ Hch Hp') as [He _].
  destruct rest as [|[[[hash0 o0] l0] k0] rest]; [cbn in Hrest; simplify_eq; lia|]. cbn in Hrest.
  destruct (k0 =? n)%Z eqn:Ek0; [|done]. destruct (o0 =? e)%Z eqn:Eo0; [|done]. bool_hyps. subst k0 o0. cbn in Hrest.
  inversion Hp as [|? ? Hl0 Hp0]; subst. destruct (check_rows_sorted _ _ _ _ Hrest) as [_ Hge].
  assert (chunk_record h (hash0, e, l0, n) ∈ (chunk_record h <$> rows)) as Hin0 by (apply Hsub; by left).
  pose proof (proj1 (Htable _) Hin0) as [Ht0 _]. cbn [pc_chunk_hash chunk_record] in *.
  destruct (data_pack_chunks t !! hash) as [existing|] eqn:E.
  - case_bool_decide as Hex; [subst existing|done].
    assert (chunk_record h (hash, e, l, n) ∈ (chunk_record h <$> rows)) as Hin by by apply Htable.
    destruct (Hcov _ Hin) as [Hlt|Hin']; [cbn in Hlt; lia|]. cbn [fmap list_fmap] in Hin'. apply elem_of_cons in Hin' as [Heq|Hin'].
    + cbn in Heq. injection Heq as -> ->. eapply (IH Hpos'' (n + 1)%Z (e + l0)%Z rest); [| |done..].
      * intros c Hc. apply Hsub. by right.
      * intros c Hc. destruct (Hcov c Hc) as [?|[->|?]%elem_of_cons]; [left; lia|left; cbn; lia|by right].
    + exfalso. apply list_elem_of_fmap in Hin' as ([[[? ?] ?] k] & Heq & Hin'). injection Heq as _ _ _ <-.
      rewrite Forall_forall in Hge. specialize (Hge _ Hin'). cbn in Hge. lia.
  - destruct (_ || _) eqn:Ef; [done|]. apply orb_false_iff in Ef as [_ Ef]. exfalso. unfold ordinal_taken in Ef.
    assert (∀ b, b = false → b = true → False) as Hb by congruence. apply (Hb _ Ef). apply existsb_exists.
    exists (hash0, chunk_record h (hash0, e, l0, n)). split; [by apply list_elem_of_In, elem_of_map_to_list|].
    cbn. rewrite bool_decide_true by done. by rewrite Z.eqb_refl.
Qed.

Lemma normalized_indexes d : normalized d → NoDup (shard_tuple_index <$> eu_shards d) ∧ eu_shards d ≠ [].
Proof.
  intros Hn. split.
  - rewrite (nz_indexes _ Hn). apply NoDup_fmap_2; [intros ? ?; lia|apply NoDup_seq].
  - intros E. pose proof (nz_indexes _ Hn) as Hi. rewrite E in Hi. destruct (nz_sizes _ Hn) as (? & ? & _).
    apply (f_equal length) in Hi. unfold py_range in Hi. rewrite !length_fmap, length_seq in Hi. cbn in Hi. lia.
Qed.

Lemma same_definition_true r d :
  same_definition r d = true → dp_codec r = eu_codec d ∧ dp_data_shards r = eu_data_shards d
    ∧ dp_parity_shards r = eu_parity_shards d ∧ dp_payload_size r = eu_payload_size d.
Proof. unfold same_definition. intros H. bool_hyps. by split_and!. Qed.

(** A new pack, with its chunks and its shards. *)
Lemma wf_added known t t' d row st lp :
  tables_wf known t → normalized d → data_packs t !! eu_pack_hash d = None →
  data_packs t' = <[eu_pack_hash d := row]> (data_packs t) →
  pack_def row = (eu_pack_hash d, eu_codec d, eu_data_shards d, eu_parity_shards d, eu_payload_size d, eu_padded_size d, eu_shard_size d) →
  (∀ k c, data_pack_chunks t !! k = Some c → data_pack_chunks t' !! k = Some c) →
  (∀ k c, data_pack_chunks t' !! k = Some c → data_pack_chunks t !! k = Some c
     ∨ data_pack_chunks t !! k = None ∧ c ∈ (chunk_record (eu_pack_hash d) <$> eu_chunks d) ∧ pc_chunk_hash c = k ∧ is_Some (known !! k)) →
  (∀ c, c ∈ (chunk_record (eu_pack_hash d) <$> eu_chunks d) → data_pack_chunks t' !! pc_chunk_hash c = Some c) →
  shards_written (eu_pack_hash d) st lp (eu_shards d) (data_pack_shards t) (data_pack_shards t') →
  tables_wf known t' ∧ frozen t t'.
Proof.
  set (h := eu_pack_hash d). intros Hwf Hn Hnone Hp Hdef Hc1 Hc2 Hc3 Hs. unfold pack_def in Hdef. injection Hdef as D1 D2 D3 D4 D5 D6 D7.
  destruct (nz_sizes _ Hn) as (Z1 & Z2 & Z3 & Z4 & Z5).
  assert (∀ k r, data_packs t' !! k = Some r → k = h ∧ r = row ∨ k ≠ h ∧ data_packs t !! k = Some r) as Hp'.
  { intros k r. rewrite Hp, lookup_insert_Some. naive_solver. }
  assert (∀ k, is_Some (data_packs t !! k) → is_Some (data_packs t' !! k)) as Hgrow.
  { intros k Hk. rewrite Hp. apply lookup_insert_is_Some. destruct (decide (h = k)); [by left|by right]. }
  assert (data_packs t' !! h = Some row) as Hh by (by rewrite Hp, lookup_insert_eq).
  assert (∀ c, c ∈ (chunk_record h <$> eu_chunks d) → pc_pack_hash c = h ∧ is_valid_blake3_hex (pc_chunk_hash c) = true) as Hrow.
  { intros c ([[[a o] l] n] & -> & Hin)%list_elem_of_fmap. split; [done|]. destruct (nz_rows _ Hn) as [_ Hf]. rewrite Forall_forall in Hf. by destruct (Hf _ Hin). }
  assert (∀ k c, data_pack_chunks t !! k = Some c → pc_pack_hash c ≠ h) as Hold.
  { intros k c Hk E. destruct (tw_chunks _ _ Hwf _ _ Hk) as (_ & _ & _ & [r Hr]). rewrite E in Hr. congruence. }
  destruct Hs as [Hother Hthis]. pose proof (nz_shards _ Hn) as Hval. rewrite Forall_forall in Hval.
  assert (∀ k c, data_pack_chunks t' !! k = Some c → pc_pack_hash c ≠ h → data_pack_chunks t !! k = Some c) as Hback.
  { intros k c Hk Hne. destruct (Hc2 _ _ Hk) as [?|(_ & Hin & _)]; [done|]. destruct Hne. by apply Hrow. }
  split; [split|split].
  - intros k r Hk. destruct (Hp' _ _ Hk) as [[-> ->]|[_ Hr]]; [|by apply Hwf]. split; [done|]. split; try lia.
    rewrite D1. apply Hn.
  - intros k c Hk. destruct (Hc2 _ _ Hk) as [Hk'|(_ & Hin & <- & Hkn)].
    + destruct (tw_chunks _ _ Hwf _ _ Hk') as (? & ? & ? & ?). split_and!; auto.
    + destruct (Hrow _ Hin) as [-> ?]. split_and!; [done..|by eexists].
  - intros k i s. destruct (decide (k = h)) as [->|Hne].
    + intros (r & Hin & -> & ->)%Hthis. destruct (shard_record_fields h st lp r) as (E1 & E2 & E3 & E4). cbn zeta in *.
      rewrite E1, E2, E3, E4. destruct (Hval _ Hin). split_and!; [done..|by eexists].
    + rewrite Hother by done. intros Hk. destruct (tw_shards _ _ Hwf _ _ _ Hk) as (? & ? & ? & ? & ?). split_and!; auto.
  - intros k r Hk. destruct (Hp' _ _ Hk) as [[-> ->]|[Hne Hr]].
    + exists (eu_chunks d). destruct (nz_rows _ Hn) as [Hne Hf]. split.
      * split; [done|]. eapply Forall_impl; [exact Hf|]. by intros ? [].
      * rewrite D5. apply Hn.
      * intros c. split; [intros Hin; split; [by apply Hc3|by apply Hrow]|]. intros [Hk' Hpack].
        destruct (Hc2 _ _ Hk') as [H0|(_ & Hin & _)]; [|done]. by destruct (Hold _ _ H0).
    + destruct (tw_layout _ _ Hwf _ _ Hr) as (rows & [Hl1 Hl2 Hl3]). exists rows. split; [done..|]. intros c. rewrite Hl3.
      split; intros [H1 H2]; (split; [|done]); [by apply Hc1|]. apply Hback; [done|congruence].
  - intros k r i Hk. destruct (Hp' _ _ Hk) as [[-> ->]|[Hne Hr]].
    + unfold remote_targets_of. rewrite D3, D4, <-elem_of_py_range, <-(nz_indexes _ Hn), list_elem_of_fmap. split.
      * intros [s (r & Hin & _ & ->)%Hthis]. by exists r.
      * intros (r & -> & Hin). exists (shard_record h st lp r). apply Hthis. by exists r.
    + rewrite Hother by done. by apply Hwf.
  - intros k i j s s'. destruct (decide (k = h)) as [->|Hne]; [|rewrite !Hother by done; apply Hwf].
    intros Hi Hj. apply Hthis in Hi, Hj. eapply (distinct_rows _ st lp (eu_shards d)); [apply Hn|done..].
  - intros k r Hk. rewrite Hp, lookup_insert_ne; [by rewrite Hk|]. intros <-. congruence.
  - done.
  - intros k c Hk [r Hr]. apply Hback; [done|]. intros E. rewrite E in Hr. congruence.
Qed.

Lemma wf_register known d t t' :
  tables_wf known t → register_erasure_data_pack known d t = Ok t' →
  tables_wf known t' ∧ frozen t t' ∧ (is_Some (data_packs t !! strip (eu_pack_hash d)) → t' = t).
Proof.
  intros Hwf H. unfold register_erasure_data_pack in H. apply bind_Ok in H as (d' & Hd & H).
  destruct (normalize_pack_Ok _ _ _ Hd) as (Hn & Eh & _). rewrite <-Eh. clear Hd Eh d. rename d' into d.
  destruct (normalized_indexes _ Hn) as [Hnd _]. apply bind_Ok in H as (t1 & H1 & H). apply bind_Ok in H as (t2 & H2 & H).
  unfold _insert_erasure_data_pack_once in H1. destruct (data_packs t !! eu_pack_hash d) as [r|] eqn:Er.
  - destruct (same_definition r d) eqn:Es; [|done]. injection H1 as <-. apply same_definition_true in Es as (_ & S1 & S2 & S3).
    destruct (tw_layout _ _ Hwf _ _ Er) as [rows Hl].
    apply (insert_chunks_again _ _ _ _ _ _ _ Hwf Hl) in H2 as ->; [|rewrite S3; apply Hn|apply Hn].
    apply insert_shards_spec in H as (_ & _ & H & _); [|done]. rewrite H; [done|].
    intros row Hin. apply (tw_indexes _ _ Hwf _ _ _ Er). unfold remote_targets_of. rewrite S1, S2, <-elem_of_py_range, <-(nz_indexes _ Hn).
    apply list_elem_of_fmap. by exists row.
  - injection H1 as <-. apply insert_chunks_spec in H2 as (P1 & P2 & P3 & P4 & P5).
    apply insert_shards_spec in H as (Q1 & Q2 & _ & Q4); [|done].
    cbn [with_packs data_packs data_pack_chunks data_pack_shards] in *. rewrite P1 in Q1. rewrite P2 in Q4. rewrite <-Q2 in P3, P4, P5.
    match type of Q1 with _ = <[_ := ?row]> _ =>
      destruct (wf_added known t t' d row _ _ Hwf Hn Er Q1 eq_refl P3 P4 P5 (Q4 ltac:(
        intros i; destruct (data_pack_shards t !! (_, i)) as [s|] eqn:E; [|done];
        destruct (tw_shards _ _ Hwf _ _ _ E) as (_ & _ & _ & _ & [r Hr]); congruence))) as [? ?] end.
    split_and!; [done..|]. by intros [? ?].
Qed.

Lemma wf_push known up t t' :
  tables_wf known t → _apply_erasure_data_pack_push_update up t = Ok t' → tables_wf known t' ∧ frozen t t'.
Proof.
  intros Hwf H. unfold _apply_erasure_data_pack_push_update in H. apply bind_Ok in H as (d & Hd & H).
  destruct (normalize_pack_Ok _ _ _ Hd) as (Hn & _). destruct (data_packs t !! eu_pack_hash d) as [r|] eqn:Er; [|done].
  destruct (same_definition r d) eqn:Es; [|done]. cbn [negb] in H. apply bind_Ok in H as (? & _ & H). cbn zeta in H. injection H as <-.
  apply same_definition_true in Es as (_ & S1 & S2 & S3). destruct (normalized_indexes _ Hn) as [Hnd Hne].
  set (row := with_state r _ _ _ _ _) in *. set (t1 := with_packs _ t).
  destruct (wf_states known t t1) as [Hwf1 Hfr1]; [done| |done..|].
  { intros k. cbn. destruct (decide (eu_pack_hash d = k)) as [<-|Hk]; [by rewrite lookup_insert_eq, Er|by rewrite lookup_insert_ne]. }
  destruct (wf_shards known t1 (data_pack_shards (_upsert_erasure_pack_shards_for_push (eu_pack_hash d) (eu_shards d)
    (eu_protection_state d) (eu_pushed_at d) t1)) (eu_pack_hash d) row (eu_protection_state d) (Some (eu_pushed_at d)) (eu_shards d)) as [? ?];
    [done|by cbn; rewrite lookup_insert_eq| |apply Hn|apply Hn|by apply upsert_written|].
  { unfold remote_targets_of, row. cbn. rewrite S1, S2. apply Hn. }
  split; [done|]. by transitivity t1.
Qed.

Lemma update_shards_ids h f t k :
  (∀ s, shard_id (f s) = shard_id s) → shard_id <$> data_pack_shards (update_shards h f t) !! k = shard_id <$> data_pack_shards t !! k.
Proof.
  intros Hf. cbn. rewrite lookup_fmap. destruct (data_pack_shards t !! k) as [s|]; [|done]. cbn. case_bool_decide; [by rewrite Hf|done].
Qed.

Lemma replaced_def (m : gmap pystr ErasureDataPackRecord) h r r' k :
  m !! h = Some r → pack_def r' = pack_def r → pack_def <$> <[h := r']> m !! k = pack_def <$> m !! k.
Proof. intros Hr E. destruct (decide (h = k)) as [<-|Hk]; [by rewrite lookup_insert_eq, Hr; cbn; rewrite E|by rewrite lookup_insert_ne]. Qed.

Lemma wf_push_error known up t t' :
  tables_wf known t → _apply_erasure_data_pack_push_error up t = Ok t' → tables_wf known t' ∧ frozen t t'.
Proof.
  intros Hwf H. unfold _apply_erasure_data_pack_push_error in H. repeat (apply bind_Ok in H as (? & _ & H)).
  destruct (data_packs t !! _) as [r|] eqn:Er; [|done]. injection H as <-.
  apply wf_states; [done| |done..]. intros k. by eapply replaced_def.
Qed.

Lemma wf_verification known now up t t' :
  tables_wf known t → _apply_erasure_data_pack_verification_update now up t = Ok t' → tables_wf known t' ∧ frozen t t'.
Proof.
  intros Hwf H. unfold _apply_erasure_data_pack_verification_update in H. apply bind_Ok in H as (h & _ & H). case_bool_decide; [done|].
  apply bind_Ok in H as (? & _ & H). destruct (data_packs t !! h) as [r|] eqn:Er; [|done]. cbn zeta in H. injection H as <-.
  apply wf_states; [done| |done|].
  - intros k. by eapply replaced_def.
  - intros k. rewrite update_shards_ids; [done|]. intros s. by case_bool_decide.
Qed.

Lemma wf_mark known now h st ep err t t' :
  tables_wf known t → mark_erasure_data_pack_state now h st ep err t = Ok t' → tables_wf known t' ∧ frozen t t'.
Proof.
  intros Hwf H. unfold mark_erasure_data_pack_state in H. apply bind_Ok in H as (h' & _ & H). cbn zeta in H. injection H as <-.
  apply wf_states; [done| |done|].
  - intros k. cbn. destruct (decide (h' = k)) as [<-|Hk]; [rewrite lookup_alter_eq|by rewrite lookup_alter_ne].
    by destruct (data_packs t !! h').
  - intros k. by rewrite update_shards_ids.
Qed.

Lemma wf_apply_all {A} known (f : A → ErasureTables → res ErasureTables) l t t' :
  (∀ x t t', tables_wf known t → f x t = Ok t' → tables_wf known t' ∧ frozen t t') →
  tables_wf known t → apply_all f l t = Ok t' → tables_wf known t' ∧ frozen t t'.
Proof.
  intros Hf. revert t. induction l as [|x l IH]; intros t Hwf H; cbn in H; [by injection H as <-|].
  apply bind_Ok in H as (t1 & H1 & H). destruct (Hf _ _ _ Hwf H1) as [Hwf1 Hfr]. destruct (IH _ Hwf1 H). split; [done|]. by transitivity t1.
Qed.

(** ** The life of the tables *)

(** Every call of the catalogue that writes these tables, and the backups that add chunks. *)
Inductive erasure_step : gmap pystr Z * ErasureTables → gmap pystr Z * ErasureTables → Prop :=
  | es_backup known known' t : known ⊆ known' → erasure_step (known, t) (known', t)
  | es_register known d t t' : register_erasure_data_pack known d t = Ok t' → erasure_step (known, t) (known, t')
  | es_push known ups errs n t t' :
      apply_erasure_data_pack_push_result_batch ups errs t = Ok (n, t') → erasure_step (known, t) (known, t')
  | es_verify known now ups n t t' : apply_erasure_data_pack_verifications now ups t = Ok (n, t') → erasure_step (known, t) (known, t')
  | es_mark known now h st ep err t t' : mark_erasure_data_pack_state now h st ep err t = Ok t' → erasure_step (known, t) (known, t').

Lemma tables_wf_grow known known' t : known ⊆ known' → tables_wf known t → tables_wf known' t.
Proof.
  intros Hsub []. split; try done. intros h c Hc. destruct (tw_chunks0 _ _ Hc) as (? & ? & [z Hz] & ?). split_and!; [done..| |done].
  exists z. by eapply lookup_weaken.
Qed.

Lemma erasure_step_wf a b : erasure_step a b → tables_wf a.1 a.2 → tables_wf b.1 b.2 ∧ frozen a.2 b.2.
Proof.
  intros H Hwf. destruct H as [known known' t Hsub|known d t t' H|known ups errs n t t' H|known now ups n t t' H|known now h st ep err t t' H];
    cbn [fst snd] in *.
  - split; [by eapply tables_wf_grow|done].
  - by destruct (wf_register _ _ _ _ Hwf H) as (? & ? & _).
  - apply bind_Ok in H as (t1 & H1 & H). apply bind_Ok in H as (t2 & H2 & H). injection H as _ <-.
    destruct (wf_apply_all known _ _ _ _ (wf_push known) Hwf H1) as [Hwf1 ?].
    destruct (wf_apply_all known _ _ _ _ (wf_push_error known) Hwf1 H2). split; [done|]. by transitivity t1.
  - apply bind_Ok in H as (t1 & H1 & H). injection H as _ <-. by eapply (wf_apply_all known), H1; [intros ? ? ?; apply wf_verification|].
  - by eapply wf_mark.
Qed.

Lemma erasure_steps_wf a b : rtc erasure_step a b → tables_wf a.1 a.2 → tables_wf b.1 b.2 ∧ frozen a.2 b.2.
Proof.
  induction 1 as [a|a b c Hab _ IH]; intros Hwf; [done|]. destruct (erasure_step_wf _ _ Hab Hwf) as [Hb Hf].
  destruct (IH Hb). split; [done|]. by transitivity b.2.
Qed.

(** What the readers give for a pack of a well-formed catalogue. *)
Lemma pack_as_read known t h r :
  tables_wf known t → data_packs t !! h = Some r →
  get_erasure_data_pack t h = Ok (Some r) →
  get_erasure_pack_chunks t h = Ok (chunks_of t h) ∧ get_erasure_pack_shards t h = Ok (shards_of t h).
Proof.
  intros Hwf Hr. destruct (tw_packs _ _ Hwf _ _ Hr) as [Eh Hok]. pose proof (po_hash _ Hok) as Hv. rewrite Eh in Hv.
  unfold get_erasure_data_pack, get_erasure_pack_chunks, get_erasure_pack_shards. destruct (require_hash64 h) as [h'|] eqn:E; [|done].
  apply require_hash64_Ok in E as [-> _]. cbn. intros E. injection E as E. destruct (tw_packs _ _ Hwf _ _ E) as [E' _].
  rewrite Eh in E'. by rewrite <-E'.
Qed.

(** C13: Whatever registrations, pushes, push errors, verifications, marks and backups happened
    to the erasure-coding tables, every pack in them is complete: its chunks are in order of
    their ordinal, without a gap, from offset 0 to exactly the payload size; its shards are the
    indexes 0 .. k+m-1, each on a node of its own; and later calls never change the
    definition of a pack, nor move a chunk to another place. *)
Theorem erasure_tables_are_well_formed known known' t t' h r :
  rtc erasure_step (∅, empty_tables) (known, t) → rtc erasure_step (known, t) (known', t') → data_packs t !! h = Some r →
  ∃ r' rows,
    data_packs t' !! h = Some r' ∧ pack_def r' = pack_def r ∧ (dp_payload_size r <= dp_data_shards r * dp_shard_size r)%Z
    ∧ chunks_of t' h = chunk_record h <$> rows ∧ chunks_of t h = chunk_record h <$> rows
    ∧ check_chunk_rows 0 0 rows = Ok (dp_payload_size r) ∧ Forall (λ c : chunk_tuple, (0 < c.1.2)%Z) rows
    ∧ ps_shard_index <$> shards_of t' h = py_range (dp_data_shards r + dp_parity_shards r)
    ∧ NoDup (ps_node_id <$> shards_of t' h).
Proof.
  intros H1 H2 Hr. destruct (erasure_steps_wf _ _ H1 (empty_tables_wf _)) as [Hwf _]. cbn [fst snd] in Hwf.
  destruct (erasure_steps_wf _ _ H2 Hwf) as [Hwf' Hf]. cbn [fst snd] in Hwf', Hf.
  pose proof (fz_packs _ _ Hf _ _ Hr) as Hr'. destruct (data_packs t' !! h) as [r'|] eqn:E; [|done]. cbn in Hr'. apply (inj Some) in Hr'.
  destruct (tw_layout _ _ Hwf _ _ Hr) as [rows Hl]. destruct (tw_layout _ _ Hwf' _ _ E) as [rows' Hl'].
  destruct (shards_of_indexes _ _ _ _ Hwf' E) as (S1 & S2 & _). destruct (tw_packs _ _ Hwf _ _ Hr) as [Eh Hok].
  unfold pack_def in Hr'. pose proof Hr' as Hd. injection Hd as _ _ D3 D4 D5 _ _.
  assert (chunks_of t' h = chunk_record h <$> rows) as Hc.
  { rewrite <-(layout_chunks_of _ _ _ _ _ Hwf Hl). apply selected_eq.
    - intros k k' c Hk Hk'. destruct (tw_chunks _ _ Hwf' _ _ Hk) as [<- _]. by destruct (tw_chunks _ _ Hwf' _ _ Hk') as [<- _].
    - intros c. unfold chunks_of. rewrite elem_of_selected. split; intros [<- [k Hk]]; (split; [done|]); exists k.
      + apply (fz_closed _ _ Hf); [done|by eexists].
      + by apply Hf.
    - rewrite (layout_chunks_of _ _ _ _ _ Hwf Hl). by apply rows_strict with (p := dp_payload_size r), Hl. }
  exists r', rows. destruct Hl as [[? ?] ? ?]. split_and!; try done.
  - pose proof (po_padded _ Hok). pose proof (po_payload _ Hok). lia.
  - by rewrite (layout_chunks_of _ _ _ _ _ Hwf ltac:(split; done)).
  - rewrite S1. unfold remote_targets_of. by rewrite D3, D4.
Qed.

Lemma shards_strict known t h : tables_wf known t → StronglySorted (λ a b, (ps_shard_index a < ps_shard_index b)%Z) (shards_of t h).
Proof.
  intros Hwf. destruct (data_packs t !! h) as [r|] eqn:Er.
  - destruct (shards_of_indexes _ _ _ _ Hwf Er) as (E & _). apply (StronglySorted_fmap_inv Z.lt ps_shard_index). rewrite E. apply py_range_sorted.
  - destruct (shards_of t h) as [|s l] eqn:E; [constructor|]. exfalso.
    assert (s ∈ shards_of t h) as Hin by (rewrite E; left). apply elem_of_selected in Hin as [<- [[k i] Hk]].
    destruct (tw_shards _ _ Hwf _ _ _ Hk) as (<- & _ & _ & _ & [r Hr]). congruence.
Qed.

Lemma shards_key_inj known t k k' s :
  tables_wf known t → data_pack_shards t !! k = Some s → data_pack_shards t !! k' = Some s → k = k'.
Proof.
  destruct k as [h i], k' as [h' i']. intros Hwf Hk Hk'. destruct (tw_shards _ _ Hwf _ _ _ Hk) as (<- & <- & _).
  by destruct (tw_shards _ _ Hwf _ _ _ Hk') as (<- & <- & _).
Qed.

Lemma shards_of_eq known t t' h :
  tables_wf known t → tables_wf known t' → (∀ i, data_pack_shards t' !! (h, i) = data_pack_shards t !! (h, i)) → shards_of t' h = shards_of t h.
Proof.
  intros Hwf Hwf' E. apply selected_eq; [|intros s|by eapply shards_strict].
  - intros k k' s. by apply (shards_key_inj known).
  - unfold shards_of. rewrite elem_of_selected. split; intros [<- [[k i] Hk]]; (split; [done|]).
    + destruct (tw_shards _ _ Hwf' _ _ _ Hk) as (<- & _). exists (ps_pack_hash s, i). by rewrite <-E.
    + destruct (tw_shards _ _ Hwf _ _ _ Hk) as (<- & _). exists (ps_pack_hash s, i). by rewrite E.
Qed.

(** C14: A push result that the catalogue accepts is what it answers afterwards: the state and
    the placement epoch of the pack, its chunks as the push listed them, and the shards of the
    push and no others, in the order of their index; nothing of another pack changes. The pack
    is then due again exactly when the push was not complete or the epoch is another one. *)
Theorem push_result_is_read_back known up t t' :
  tables_wf known t → _apply_erasure_data_pack_push_update up t = Ok t' →
  ∃ d r, normalize_pack (Some [PLACED; DEGRADED; FAILED]) up = Ok d
    ∧ get_erasure_data_pack t' (eu_pack_hash up) = Ok (Some r)
    ∧ dp_protection_state r = eu_protection_state up ∧ dp_placement_epoch r = eu_placement_epoch d
    ∧ shards_of t' (eu_pack_hash d) = shard_record (eu_pack_hash d) (eu_protection_state d) (Some (eu_pushed_at d)) <$> eu_shards d
    ∧ chunk_tuple_of <$> chunks_of t' (eu_pack_hash d) = eu_chunks d
    ∧ (∀ k, k ≠ eu_pack_hash d → data_packs t' !! k = data_packs t !! k ∧ shards_of t' k = shards_of t k ∧ chunks_of t' k = chunks_of t k)
    ∧ ∀ e, pending_pack (Some e) None r = true ↔ eu_protection_state up ≠ PLACED ∨ eu_placement_epoch d ≠ Some e.
Proof.
  intros Hwf H. destruct (wf_push _ _ _ _ Hwf H) as [Hwf' _]. unfold _apply_erasure_data_pack_push_update in H. apply bind_Ok in H as (d & Hd & H).
  destruct (normalize_pack_Ok _ _ _ Hd) as (Hn & Eh & Est & Hst). destruct (data_packs t !! eu_pack_hash d) as [r|] eqn:Er; [|done].
  destruct (same_definition r d) eqn:Es; [|done]. cbn [negb] in H. apply bind_Ok in H as (? & Hm & H). cbn zeta in H. injection H as Ht.
  destruct (normalized_indexes _ Hn) as [Hnd Hne]. set (row := with_state r _ _ _ _ _) in *.
  assert (data_packs t' = <[eu_pack_hash d := row]> (data_packs t)) as Hp by by rewrite <-Ht.
  assert (shards_written (eu_pack_hash d) (eu_protection_state d) (Some (eu_pushed_at d)) (eu_shards d) (data_pack_shards t) (data_pack_shards t')) as Hw.
  { rewrite <-Ht. apply (upsert_written _ _ _ _ (with_packs _ t)); done. }
  exists d, row. split_and!.
  - done.
  - unfold get_erasure_data_pack, require_hash64, valid_recipe_hash. rewrite <-Eh, (nz_hash _ Hn). cbn. by rewrite Hp, lookup_insert_eq.
  - done.
  - done.
  - apply selected_eq.
    + intros k k' s. by apply (shards_key_inj known).
    + intros s. rewrite list_elem_of_fmap. split.
      * intros [Eh0 [[k i] Hk]]. destruct (tw_shards _ _ Hwf' _ _ _ Hk) as (Ek & _).
        assert (k = eu_pack_hash d) as -> by congruence.
        apply Hw in Hk as (srow & ? & ? & _). by exists srow.
      * intros (srow & -> & Hin). destruct (shard_record_fields (eu_pack_hash d) (eu_protection_state d) (Some (eu_pushed_at d)) srow) as (E1 & _).
        split; [done|]. exists (eu_pack_hash d, shard_tuple_index srow). apply Hw. by exists srow.
    + apply (StronglySorted_fmap_inv Z.lt ps_shard_index). rewrite <-list_fmap_compose.
      rewrite (list_fmap_ext _ shard_tuple_index) by (by intros ? [[[? ?] ?] ?] ?). rewrite (nz_indexes _ Hn). apply py_range_sorted.
  - unfold _assert_erasure_pack_chunks_match, raise_if in Hm. destruct (negb _) eqn:E in Hm; [done|].
    apply negb_false_iff, bool_decide_eq_true in E. rewrite <-E, <-Ht. done.
  - intros k Hk. split_and!; [by rewrite Hp, lookup_insert_ne| |by rewrite <-Ht].
    apply (shards_of_eq known); [done..|]. intros i. by apply Hw.
  - intros e. unfold pending_pack. rewrite andb_true_r, orb_true_iff, andb_true_iff, !bool_decide_eq_true. unfold row. cbn.
    rewrite <-Est. clear -Hst. set_unfold. destruct (eu_protection_state d); naive_solver.
Qed.

Module ErasureTablesWitness.
Definition hex (c : N) : pystr := repeat c 64.
Definition chunks : list chunk_tuple := [(hex 97, 0%Z, 6%Z, 0%Z); (hex 98, 6%Z, 3%Z, 1%Z)].
Definition known : gmap pystr Z := list_to_map [(hex 97, 6%Z); (hex 98, 3%Z)].
(** A pack of nine bytes in two shards and one of parity. *)
Definition pack (state : ProtectionState) (nodes : list pystr) : ErasureDataPackPushUpdate := {|
  eu_pack_hash := hex 99; eu_codec := u "zfec-rs-v1"; eu_data_shards := 2; eu_parity_shards := 1;
  eu_payload_size := 9; eu_padded_size := 10; eu_shard_size := 5; eu_chunks := rev chunks;
  eu_shards := zip (zip (zip [0; 1; 2]%Z (replicate 3 (hex 100))) nodes) (replicate 3 5%Z);
  eu_protection_state := state; eu_placement_epoch := Some (hex 101); eu_pushed_at := 7 |}.
Definition names := [u "n1"; u "n2"; u "n3"].
Definition run (r : res ErasureTables) : ErasureTables := match r with Ok t => t | Err _ => empty_tables end.
Definition registered : ErasureTables := run (register_erasure_data_pack known (pack PENDING names) empty_tables).
Definition pushed : ErasureTables := run (_apply_erasure_data_pack_push_update (pack PLACED [u "n4"; u "n2"; u "n1"]) registered).
End ErasureTablesWitness.
Import ErasureTablesWitness.

Lemma run_ok (r : res ErasureTables) : is_ok r = true → r = Ok (run r).
Proof. by destruct r. Qed.

Lemma registered_step : erasure_step (known, empty_tables) (known, registered).
Proof. apply es_register with (d := pack PENDING names), run_ok. vm_compute. reflexivity. Qed.

Lemma registered_wf : tables_wf known registered.
Proof. destruct (erasure_step_wf _ _ registered_step (empty_tables_wf _)). done. Qed.

Lemma pushed_ok : _apply_erasure_data_pack_push_update (pack PLACED [u "n4"; u "n2"; u "n1"]) registered = Ok pushed.
Proof. apply run_ok. vm_compute. reflexivity. Qed.

Lemma pack_there : match data_packs registered !! hex 99 with Some _ => true | None => false end = true.
Proof. vm_compute. reflexivity. Qed.

Lemma erasure_tables_are_well_formed_witness : NoDup (ps_node_id <$> shards_of pushed (hex 99)).
Proof.
  pose proof pack_there as Hthere. destruct (data_packs registered !! hex 99) as [r|] eqn:Er; [|discriminate].
  destruct (erasure_tables_are_well_formed known known registered pushed (hex 99) r) as (r' & rows & H).
  - eapply rtc_l; [apply es_backup with (known' := known); apply map_empty_subseteq|apply rtc_once, registered_step].
  - apply rtc_once. apply es_push with (ups := [pack PLACED [u "n4"; u "n2"; u "n1"]]) (errs := []) (n := 1%Z).
    unfold apply_erasure_data_pack_push_result_batch. cbn [apply_all]. rewrite pushed_ok. reflexivity.
  - exact Er.
  - apply H.
Defined.

Lemma push_result_is_read_back_witness :
  ∃ r, get_erasure_data_pack pushed (hex 99) = Ok (Some r) ∧ dp_protection_state r = PLACED.
Proof.
  destruct (push_result_is_read_back known (pack PLACED [u "n4"; u "n2"; u "n1"]) registered pushed registered_wf pushed_ok)
    as (d & r & _ & H & H' & _).
  exists r. split; [exact H|exact H'].
Defined.
