(* ===== verification/ErasureScope.v ===== *)
(** * What an erasure-coding push or verification works on

    The erasure side of [protection/scope.py]: the packs to push again, the chunks to put in
    new packs and the packs to verify, for the scope argument of the commands. *)

From S2P Require Import Prelude PyStr Common Protection Catalog ProtectionTable Snapshots.
From S2P Require Import Scope ErasureTables.

(** [pack_hashes] of a scope that is not the default one. *)
Definition pack_hashes_for_scope (c : Catalog) (t : ErasureTables) (scope : pystr) (snapshot_id : option Z)
  : res (list pystr) :=
  if bool_decide (scope = u "all-known-chunks") then Ok (all_erasure_pack_hashes t)
  else chunk_hashes ← chunk_hashes_for_scope c scope snapshot_id; erasure_pack_hashes_for_chunks t chunk_hashes.

Definition erasure_verification_candidates_for_scope (c : Catalog) (t : ErasureTables) (scope : pystr)
    (snapshot_id : option Z) (include_verified : bool) (limit : option Z) : res (list ErasureDataPackRecord) :=
  pack_hashes ← pack_hashes_for_scope c t scope snapshot_id;
  erasure_data_packs_by_hashes t pack_hashes include_verified limit.

Definition erasure_pack_by_hash (t : ErasureTables) (pack_hash : pystr) : res (option ErasureDataPackRecord) :=
  records ← erasure_data_packs_by_hashes t [pack_hash] true None; Ok (head records).

Definition scoped_erasure_verification_candidates (c : Catalog) (t : ErasureTables) (scope : option pystr)
    (snapshot_id : option Z) (pack_hash : option pystr) (include_verified : bool) (limit : option Z)
  : res (list ErasureDataPackRecord) :=
  match pack_hash with
  | Some h =>
      if bool_decide (scope ∉ [None; Some DEFAULT_PROTECTION_SCOPE]) then Err MetadataDatabaseValueError
      else if bool_decide (snapshot_id ≠ None) then Err MetadataDatabaseValueError
      else record ← erasure_pack_by_hash t (ascii_lower (strip h)); Ok (option_list record)
  | None =>
      scope_value ← normalize_protection_scope scope snapshot_id;
      if bool_decide (scope_value = DEFAULT_PROTECTION_SCOPE)
      then Ok (get_erasure_verification_candidates t include_verified limit)
      else erasure_verification_candidates_for_scope c t scope_value snapshot_id include_verified limit
  end.

(** [records[: max(int(limit), 0)]] *)
Definition slice_limit {A} (limit : option Z) (l : list A) : list A :=
  match limit with None => l | Some n => take (Z.to_nat (Z.max n 0)) l end.

Definition _pending_erasure_packs_by_remote_targets (t : ErasureTables) (pack_hashes : option (list pystr))
    (current_epochs : gmap Z pystr) (limit : option Z) : res (list ErasureDataPackRecord) :=
  selected ← mapM_res (λ kv : Z * pystr,
    match pack_hashes with
    | None => Ok (get_pending_erasure_data_packs t (Some kv.2) (Some kv.1) None)
    | Some hs => pending_erasure_data_packs_by_hashes t hs (Some kv.2) (Some kv.1) None
    end) (py_sorted (λ a b : Z * pystr, (a.1 <=? b.1)%Z) (map_to_list current_epochs));
  Ok (slice_limit limit (py_sorted (λ a b, str_leb (dp_pack_hash a) (dp_pack_hash b)) (concat selected))).

Definition erasure_push_retry_packs_for_scope (c : Catalog) (t : ErasureTables) (scope : pystr)
    (snapshot_id : option Z) (current_epochs : gmap Z pystr) (limit : option Z) : res (list ErasureDataPackRecord) :=
  pack_hashes ← pack_hashes_for_scope c t scope snapshot_id;
  _pending_erasure_packs_by_remote_targets t (Some pack_hashes) current_epochs limit.

Definition scoped_erasure_push_retry_packs (c : Catalog) (t : ErasureTables) (scope : option pystr)
    (snapshot_id : option Z) (current_epochs : gmap Z pystr) (limit : option Z) : res (list ErasureDataPackRecord) :=
  scope_value ← normalize_protection_scope scope snapshot_id;
  if bool_decide (scope_value = DEFAULT_PROTECTION_SCOPE)
  then _pending_erasure_packs_by_remote_targets t None current_epochs limit
  else erasure_push_retry_packs_for_scope c t scope_value snapshot_id current_epochs limit.

Definition erasure_push_new_chunks_for_scope (c : Catalog) (t : ErasureTables) (scope : pystr)
    (snapshot_id : option Z) (limit : option Z) : res (list pystr) :=
  chunk_hashes ← chunk_hashes_for_scope c scope snapshot_id;
  erasure_unprotected_chunks_for_hashes (chunks c) t chunk_hashes limit.

Definition scoped_erasure_push_new_chunks (c : Catalog) (t : ErasureTables) (scope : option pystr)
    (snapshot_id : option Z) (limit : option Z) : res (list pystr) :=
  scope_value ← normalize_protection_scope scope snapshot_id;
  if bool_decide (scope_value = DEFAULT_PROTECTION_SCOPE)
  then Ok (get_erasure_unprotected_chunks (chunks c) t limit)
  else erasure_push_new_chunks_for_scope c t scope_value snapshot_id limit.

(** [existing_epochs] of [push_erasure_data_packs_to_network]. *)
Definition existing_epochs (epoch_of : Z → pystr) (t : ErasureTables) : gmap Z pystr :=
  list_to_map ((λ n, (n, epoch_of n)) <$> erasure_data_pack_remote_targets t).

(** ** What the queries select *)

Lemma elem_of_select_packs t P r :
  r ∈ select_packs t P None ↔ P r = true ∧ ∃ h, data_packs t !! h = Some r.
Proof.
  unfold select_packs. cbn. rewrite list_elem_of_filter, elem_of_py_sorted, list_elem_of_fmap. split; intros [? H]; (split; [done|]).
  - destruct H as ([h r'] & -> & Hin). exists h. by apply elem_of_map_to_list.
  - destruct H as [h Hh]. exists (h, r). by rewrite elem_of_map_to_list.
Qed.

Lemma elem_of_unpacked known t P h :
  h ∈ unpacked_chunks known t P None ↔ P h = true ∧ data_pack_chunks t !! h = None ∧ is_Some (known !! h).
Proof.
  unfold unpacked_chunks. cbn. rewrite elem_of_py_sorted, list_elem_of_filter, list_elem_of_fmap. split.
  - intros [[? ?] ([h' z] & -> & Hin%elem_of_map_to_list)]. split_and!; [done..|by eexists].
  - intros (? & ? & [z Hz]). split; [done|]. exists (h, z). by rewrite elem_of_map_to_list.
Qed.

Lemma existing_epochs_lookup epoch_of t h r :
  data_packs t !! h = Some r → existing_epochs epoch_of t !! remote_targets_of r = Some (epoch_of (remote_targets_of r)).
Proof.
  intros Hr. unfold existing_epochs. apply elem_of_list_to_map.
  - rewrite <-list_fmap_compose, (list_fmap_ext _ id), list_fmap_id by done. unfold erasure_data_pack_remote_targets.
    rewrite py_sorted_perm. apply NoDup_ordered_unique.
  - apply list_elem_of_fmap. exists (remote_targets_of r). split; [done|]. unfold erasure_data_pack_remote_targets.
    rewrite elem_of_py_sorted, elem_of_ordered_unique. apply list_elem_of_fmap. exists r. split; [done|].
    apply list_elem_of_fmap. exists (h, r). by rewrite elem_of_map_to_list.
Qed.

Lemma existing_epochs_inv epoch_of t n e : existing_epochs epoch_of t !! n = Some e → e = epoch_of n.
Proof. intros H%elem_of_list_to_map_2. by apply list_elem_of_fmap in H as (m & [= -> ->] & _). Qed.

(** The loop over the epochs selects the pending packs, each under its own epoch. *)
Lemma elem_of_pending t hs epoch_of :
  match hs with Some l => Forall (λ h, is_valid_blake3_hex h = true) l | None => True end →
  ∃ l, _pending_erasure_packs_by_remote_targets t hs (existing_epochs epoch_of t) None = Ok l
    ∧ ∀ r, r ∈ l ↔ (∃ h, data_packs t !! h = Some r) ∧ pending_pack (Some (epoch_of (remote_targets_of r))) None r = true
               ∧ match hs with Some l => dp_pack_hash r ∈ l | None => True end.
Proof.
  intros Hhs. unfold _pending_erasure_packs_by_remote_targets.
  set (sorted := py_sorted _ _).
  set (in_scope := λ r, match hs with Some l => bool_decide (dp_pack_hash r ∈ l) | None => true end).
  set (sel := λ kv : Z * pystr, select_packs t (λ r, in_scope r && pending_pack (Some kv.2) (Some kv.1) r) None).
  match goal with |- context [mapM_res ?f sorted] => assert (∃ l, mapM_res f sorted = Ok l ∧ ∀ r, r ∈ concat l ↔ ∃ kv, kv ∈ sorted ∧ r ∈ sel kv) as (l & -> & Hl) end.
  { assert (∀ kv, ∃ l, (match hs with None => Ok (get_pending_erasure_data_packs t (Some kv.2) (Some kv.1) None)
      | Some hs => pending_erasure_data_packs_by_hashes t hs (Some kv.2) (Some kv.1) None end) = Ok l ∧ ∀ r, r ∈ l ↔ r ∈ sel kv) as Hone.
    { intros [n e]. unfold sel, in_scope. destruct hs as [l|]; [|by eexists].
      unfold pending_erasure_data_packs_by_hashes. rewrite unique_hashes_valid by done. cbn [mbind res_bind].
      pose proof (elem_of_ordered_unique l) as Hou. destruct (ordered_unique l) as [|h0 hs0] eqn:E.
      - exists []. split; [done|]. intros r'. rewrite elem_of_select_packs. split; [by inversion 1|]. intros [H _].
        apply andb_true_iff in H as [H _]. apply bool_decide_eq_true in H. apply Hou in H. by inversion H.
      - eexists. split; [done|]. intros r'. rewrite !elem_of_select_packs, !andb_true_iff, !bool_decide_eq_true. by rewrite <-Hou. }
    clear -Hone. induction sorted as [|kv rest (l & E & Hl)]; [by exists []; split; [|set_solver]|].
    destruct (Hone kv) as (l1 & E1 & Hl1). exists (l1 :: l). cbn [mapM_res]. rewrite E1. cbn [mbind res_bind]. rewrite E. split; [done|].
    intros r. cbn. rewrite elem_of_app, Hl1, Hl. split.
    - intros [?|(kv' & ? & ?)]; [exists kv; split; [by left|done]|exists kv'; split; [by right|done]].
    - intros (kv' & [->|?]%elem_of_cons & ?); [by left|right; by exists kv']. }
  cbn [mbind res_bind slice_limit]. eexists. split; [done|]. intros r. rewrite elem_of_py_sorted, Hl. unfold sel, in_scope, pending_pack. split.
  - intros ([n e] & Hin & Hr). apply elem_of_select_packs in Hr as [Hr Hlook]. apply elem_of_py_sorted, elem_of_map_to_list, existing_epochs_inv in Hin.
    cbn [fst snd] in *. rewrite !andb_true_iff in Hr. destruct Hr as (Hs & Hp & Hn). apply Z.eqb_eq in Hn. subst n e.
    split_and!; [done|by rewrite andb_true_r|]. destruct hs; [by apply bool_decide_eq_true in Hs|done].
  - intros ([h Hh] & Hp & Hs). exists (remote_targets_of r, epoch_of (remote_targets_of r)). split.
    + apply elem_of_py_sorted, elem_of_map_to_list. by eapply existing_epochs_lookup.
    + apply elem_of_select_packs. cbn [fst snd]. rewrite !andb_true_iff, Z.eqb_eq. split; [|by exists h]. rewrite andb_true_r in Hp.
      split_and!; [|done|done]. destruct hs; [by apply bool_decide_eq_true|done].
Qed.

(** ** Properties *)

(** The chunk is in a pack that is in place in the epoch of its width. *)
Definition erasure_placed (t : ErasureTables) (epoch_of : Z → pystr) (h : pystr) : bool :=
  match data_pack_chunks t !! h with
  | None => false
  | Some location =>
      match data_packs t !! pc_pack_hash location with
      | None => false
      | Some r => counts_as_protected (dp_protection_state r)
                  && bool_decide (dp_placement_epoch r = Some (epoch_of (remote_targets_of r)))
      end
  end.

Lemma pending_pack_placed e r :
  pending_pack (Some e) None r = negb (counts_as_protected (dp_protection_state r) && bool_decide (dp_placement_epoch r = Some e)).
Proof.
  unfold pending_pack. rewrite andb_true_r. destruct (dp_protection_state r);
  repeat match goal with |- context [bool_decide (?x ∈ ?l)] => let b := eval vm_compute in (bool_decide (x ∈ l)) in change (bool_decide (x ∈ l)) with b end;
  cbn; try done; rewrite bool_decide_not; by case_bool_decide.
Qed.

(** The two queries, for a set of chunks or for all of them. *)
Lemma selected_unplaced known t epoch_of (new : list pystr) (retry : list ErasureDataPackRecord) h (P : pystr → Prop) (Q : ErasureDataPackRecord → Prop) :
  tables_wf known t → is_Some (known !! h) → P h →
  (∀ k, k ∈ new ↔ P k ∧ data_pack_chunks t !! k = None ∧ is_Some (known !! k)) →
  (∀ r, r ∈ retry ↔ (∃ h, data_packs t !! h = Some r) ∧ pending_pack (Some (epoch_of (remote_targets_of r))) None r = true ∧ Q r) →
  (∀ location r, data_pack_chunks t !! h = Some location → data_packs t !! pc_pack_hash location = Some r → Q r) →
  erasure_placed t epoch_of h = false ↔
  h ∈ new ∨ ∃ location r, data_pack_chunks t !! h = Some location ∧ r ∈ retry ∧ dp_pack_hash r = pc_pack_hash location.
Proof.
  intros Hwf Hk HP Hnew Hretry HQ. unfold erasure_placed. destruct (data_pack_chunks t !! h) as [location|] eqn:E.
  - destruct (tw_chunks _ _ Hwf _ _ E) as (_ & _ & _ & [r Hr]). rewrite Hr. split.
    + intros Hf. right. exists location, r. split_and!; [done| |by apply Hwf]. apply Hretry. split_and!; [by eexists| |by eapply HQ].
      by rewrite pending_pack_placed, Hf.
    + intros [Hn|(l & r' & [= <-] & Hin & Eh)]; [apply Hnew in Hn; naive_solver|].
      apply Hretry in Hin as ([h' Hr'] & Hp & _). destruct (tw_packs _ _ Hwf _ _ Hr') as [Eh' _].
      assert (r' = r) as -> by congruence. rewrite pending_pack_placed in Hp. by apply negb_true_iff in Hp.
  - split; [intros _; left; by apply Hnew|done].
Qed.

Lemma snapshot_chunk_stored c sid h :
  catalog_wf c → h ∈ snapshot_chunk_hashes c sid → is_valid_blake3_hex h = true ∧ is_Some (chunks c !! h).
Proof.
  intros Hwf Hin. unfold snapshot_chunk_hashes in Hin. rewrite elem_of_order_by_hash in Hin. split; [by eapply joined_has_row|].
  apply elem_of_joined in Hin as (id & it & rid & rc & _ & _ & _ & _ & Hrc & ->).
  destruct (recipe_chunks c !! rid) as [rows|] eqn:E; [|by inversion Hrc]. cbn in Hrc.
  destruct (rwf_rows c (cwf_recipes c Hwf) _ _ E) as (_ & _ & Hsz & _). exists rc.2. by apply Hsz.
Qed.

Lemma packs_for_chunks known t hs :
  tables_wf known t → Forall (λ h, is_valid_blake3_hex h = true) hs →
  ∃ ps, erasure_pack_hashes_for_chunks t hs = Ok ps ∧ Forall (λ h, is_valid_blake3_hex h = true) ps
    ∧ ∀ h location, h ∈ hs → data_pack_chunks t !! h = Some location → pc_pack_hash location ∈ ps.
Proof.
  intros Hwf Hhs. unfold erasure_pack_hashes_for_chunks. rewrite unique_hashes_valid by done. cbn [mbind res_bind].
  eexists. split; [done|]. split.
  - apply Forall_forall. intros p. rewrite elem_of_py_sorted, elem_of_ordered_unique, list_elem_of_fmap.
    intros (l & -> & (h & _ & Hl)%list_elem_of_omap). destruct (tw_chunks _ _ Hwf _ _ Hl) as (_ & _ & _ & [r Hr]).
    destruct (tw_packs _ _ Hwf _ _ Hr) as [<- Hok]. apply Hok.
  - intros h l Hin Hl. rewrite elem_of_py_sorted, elem_of_ordered_unique, list_elem_of_fmap. exists l. split; [done|].
    apply list_elem_of_omap. exists h. by rewrite elem_of_ordered_unique.
Qed.

(** C12: No chunk of a snapshot is forgotten by erasure coding. Whatever happened to the
    catalogue, a push with the default scope, or with the scope of that (COMPLETE) snapshot,
    works on each of its chunks that is not in a pack in place in the placement epoch of its
    width: the chunk is put in a new pack or its pack is pushed again. And it works on no
    chunk that is in place. *)
Theorem no_erasure_chunk_forgotten c t sid snapshot_id epoch_of h :
  rtc cstep empty_catalog c → rtc erasure_step (∅, empty_tables) (chunks c, t) → h ∈ snapshot_chunk_hashes c sid →
  snapshot_id = None ∨ snapshot_id = Some sid ∧ (get_snapshot_status c sid).1 = Some COMPLETE →
  ∃ retry new,
    scoped_erasure_push_retry_packs c t None snapshot_id (existing_epochs epoch_of t) None = Ok retry
    ∧ scoped_erasure_push_new_chunks c t None snapshot_id None = Ok new
    ∧ (erasure_placed t epoch_of h = false ↔
       h ∈ new ∨ ∃ location r, data_pack_chunks t !! h = Some location ∧ r ∈ retry ∧ dp_pack_hash r = pc_pack_hash location).
Proof.
  intros Hc Ht Hin Hscope. destruct (csteps_ok _ _ empty_catalog_wf Hc) as [Hcwf _].
  destruct (erasure_steps_wf _ _ Ht (empty_tables_wf _)) as [Hwf _]. cbn [fst snd] in Hwf.
  pose proof (λ k, snapshot_chunk_stored c sid k Hcwf) as Hsnap. destruct (Hsnap h Hin) as [Hv Hk].
  unfold scoped_erasure_push_retry_packs, scoped_erasure_push_new_chunks, normalize_protection_scope.
  destruct Hscope as [->|[-> Hst]].
  - change (check_scope (scope_text None) None) with (Ok DEFAULT_PROTECTION_SCOPE). cbn [mbind res_bind].
    rewrite bool_decide_true by done. destruct (elem_of_pending t None epoch_of I) as (retry & -> & Hretry).
    exists retry. eexists. split; [done|]. split; [done|].
    apply (selected_unplaced (chunks c) t epoch_of _ _ h (λ _, True) (λ _, True)); try done.
    intros k. unfold get_erasure_unprotected_chunks. rewrite elem_of_unpacked. naive_solver.
  - change (bool_decide (scope_text None ∉ [DEFAULT_PROTECTION_SCOPE; u "snapshot"])) with false.
    change (check_scope (u "snapshot") (Some sid)) with (Ok (u "snapshot")). cbn [mbind res_bind].
    rewrite bool_decide_false by done. unfold erasure_push_retry_packs_for_scope, erasure_push_new_chunks_for_scope, pack_hashes_for_scope.
    rewrite bool_decide_false by done.
    assert (chunk_hashes_for_scope c (u "snapshot") (Some sid) = Ok (snapshot_chunk_hashes c sid)) as ->.
    { unfold chunk_hashes_for_scope. rewrite bool_decide_true by done. by rewrite Hst. }
    cbn [mbind res_bind]. assert (Forall (λ h, is_valid_blake3_hex h = true) (snapshot_chunk_hashes c sid)) as Hall.
    { apply Forall_forall. intros k Hin'. by apply Hsnap. }
    destruct (packs_for_chunks _ _ _ Hwf Hall) as (ps & -> & Hps & Hcover). cbn [mbind res_bind].
    destruct (elem_of_pending t (Some ps) epoch_of Hps) as (retry & -> & Hretry).
    exists retry. unfold erasure_unprotected_chunks_for_hashes. rewrite unique_hashes_valid by done. cbn [mbind res_bind].
    pose proof (elem_of_ordered_unique (snapshot_chunk_hashes c sid)) as Hou.
    destruct (ordered_unique (snapshot_chunk_hashes c sid)) as [|h0 hs] eqn:Eh; [apply Hou in Hin; by inversion Hin|].
    eexists. split; [done|]. split; [done|].
    apply (selected_unplaced (chunks c) t epoch_of _ _ h (λ k, k ∈ h0 :: hs) (λ r, dp_pack_hash r ∈ ps)); try done.
    + by apply Hou.
    + intros k. by rewrite elem_of_unpacked, bool_decide_eq_true.
    + intros l r Hl Hr. destruct (tw_packs _ _ Hwf _ _ Hr) as [-> _]. by eapply Hcover.
Qed.

Lemma no_erasure_chunk_forgotten_witness :
  ∃ c new, scoped_erasure_push_new_chunks c empty_tables None (Some 1%Z) None = Ok new ∧ example_hash 97 ∈ new.
Proof.
  destruct example_backup_reachable as (c & row & Hr & Hrow & Hst & _ & Hin).
  destruct (no_erasure_chunk_forgotten c empty_tables 1 (Some 1%Z) (λ _, u "epoch") (example_hash 97) Hr) as (retry & new & _ & E & H).
  - apply rtc_once, es_backup, map_empty_subseteq.
  - exact Hin.
  - right. split; [reflexivity|]. unfold get_snapshot_status. rewrite Hrow. cbn. by rewrite Hst.
  - exists c, new. split; [exact E|]. destruct (proj1 H eq_refl) as [Hn|(l & r & Hl & _)]; [exact Hn|discriminate].
Defined.
