(* ===== verification/ShardStore.v ===== *)
(** * The shard store of a node

    [node/storage/ec_shard_store.py] and the handlers of [node/services/ec_storage_rpc.py],
    called by [node/services/storage_rpc.py]: the shards other nodes send to a node, ask it
    about and read back. A shard is named by its pack, its index and the BLAKE3 digest of its
    data. What the operating system answers and what other threads do meanwhile is an
    argument of each operation. *)

From S2P Require Import Prelude PyStr Common Files Cas StorageNode LocalGc.

(** ** Messages *)

Definition SHARD_STORED : Z := 1.
Definition SHARD_ALREADY_PRESENT : Z := 2.
Definition SHARD_REJECTED_HASH_MISMATCH : Z := 3.
Definition SHARD_REJECTED_INVALID_ARGUMENT : Z := 4.
Definition SHARD_REJECTED_TOO_LARGE : Z := 5.
Definition SHARD_STORE_ERROR : Z := 6.
Definition SHARD_FOUND : Z := 1.
Definition SHARD_NOT_FOUND : Z := 2.
Definition SHARD_HASH_MISMATCH : Z := 3.
Definition SHARD_RETRIEVE_ERROR : Z := 4.

Record DataPackShardRef := { rf_pack_hash : pystr; rf_shard_index : Z; rf_shard_hash : pystr }.

#[export] Instance DataPackShardRef_eq_dec : EqDecision DataPackShardRef.
Proof. solve_decision. Defined.

Record ReplicateDataPackShardRequest := { rq_ref : DataPackShardRef; rq_shard_data : bytes }.
Record ReplicateDataPackShardResult := { rr_ref : DataPackShardRef; rr_status : Z; rr_detail : pystr }.
Record RetrievedDataPackShard := {
  rd_ref : DataPackShardRef; rd_status : Z; rd_shard_data : bytes; rd_detail : pystr }.

(** ** The store *)

(** The shard files by path. *)
Definition ShardFiles : Type := gmap pystr bytes.

(** The surroundings of one [put]: whether looking at the path fails, what others do before
    the file takes its name, and how the write ends. *)
Record ShardEnv := {
  se_stat_fails : bool;
  se_others : ShardFiles → ShardFiles;
  se_write : WriteOutcome }.

Definition shard_suffix : pystr := u ".stec".

Section store.
Context (root : pystr) (max_shard_size : Z) (blake3 : bytes → bytes).

(** [_path] *)
Definition shard_path (ref : DataPackShardRef) : pystr :=
  path_join (path_join (path_join root (take 2 (rf_pack_hash ref))) (rf_pack_hash ref))
    (pad3 (rf_shard_index ref) ++ u "-" ++ rf_shard_hash ref ++ shard_suffix).

(** The checks every operation starts with. *)
Definition require_hash64 (value : pystr) : res pystr :=
  if is_valid_blake3_hex value then Ok value else Err DataPackShardStoreError.
Definition require_ref (ref : DataPackShardRef) : res DataPackShardRef :=
  pack_hash ← require_hash64 (rf_pack_hash ref);
  shard_hash ← require_hash64 (rf_shard_hash ref);
  shard_index ← require_strict_non_negative_int (VInt (rf_shard_index ref)) DataPackShardStoreError;
  Ok {| rf_pack_hash := pack_hash; rf_shard_index := shard_index; rf_shard_hash := shard_hash |}.

(** [is_file] or [exists] of a path, which can raise. *)
Definition path_there (stat_fails : bool) (ref : DataPackShardRef) (s : ShardFiles) : res bool :=
  if stat_fails then Err OSError else Ok (bool_decide (is_Some (s !! shard_path ref))).

Definition shard_exists (stat_fails : bool) (ref : DataPackShardRef) (s : ShardFiles) : res bool :=
  ref ← require_ref ref; path_there stat_fails ref s.

(** [put]: true when this call wrote the file. *)
Definition shard_put (env : ShardEnv) (ref : DataPackShardRef) (data : bytes) : SM ShardFiles bool :=
  ref ← slift (require_ref ref);
  if (max_shard_size <? Z.of_nat (length data))%Z then sraise DataPackShardTooLargeError
  else if bool_decide (blake3_hex_digest blake3 data ≠ rf_shard_hash ref) then sraise DataPackShardHashMismatchError
  else
    s ← sget;
    there ← slift (path_there (se_stat_fails env) ref s);
    if there : bool then mret false
    else scatch (atomic_write_bytes (se_others env) (se_write env) (shard_path ref) data;; mret true)
           (λ e, if bool_decide (e = StopanStorageOSError) then Some (sraise DataPackShardStoreError) else None).

(** [read_error]: what reading a file that is there raises, if anything. *)
Definition shard_get (read_error : option exn) (ref : DataPackShardRef) (s : ShardFiles) : res (DataPackShardRef * bytes) :=
  ref ← require_ref ref;
  match s !! shard_path ref with
  | None => Err FileNotFoundError
  | Some data =>
      match read_error with
      | Some e => Err (if bool_decide (e = OSError) then DataPackShardStoreError else e)
      | None =>
          if bool_decide (blake3_hex_digest blake3 data ≠ rf_shard_hash ref) then Err DataPackShardHashMismatchError
          else Ok (ref, data)
      end
  end.

(** ** The handlers *)

(** [str] of an exception and [repr] of a string. *)
Context (exc_text : exn → pystr) (py_repr : pystr → pystr).

Definition invalid_pack_hash_detail (name value : pystr) : pystr :=
  name ++ u " inv" ++ a_acute ++ u "lido: " ++ py_repr (take 32 value)
  ++ u "; se esperaba BLAKE3 hex lowercase de 64 caracteres".

Definition invalid_shard_ref_detail (ref : DataPackShardRef) : option pystr :=
  if negb (is_valid_blake3_hex (rf_pack_hash ref)) then Some (invalid_pack_hash_detail (u "pack_hash") (rf_pack_hash ref))
  else if negb (is_valid_blake3_hex (rf_shard_hash ref)) then Some (invalid_pack_hash_detail (u "shard_hash") (rf_shard_hash ref))
  else if (rf_shard_index ref <? 0)%Z then Some (u "shard_index debe ser >= 0")
  else None.

Fixpoint first_invalid_shard_ref_detail (refs : list DataPackShardRef) : option pystr :=
  match refs with
  | [] => None
  | ref :: refs' =>
      match invalid_shard_ref_detail ref with Some d => Some d | None => first_invalid_shard_ref_detail refs' end
  end.

Definition invalid_shard_request_detail (item : ReplicateDataPackShardRequest) : option pystr :=
  match invalid_shard_ref_detail (rq_ref item) with
  | Some d => Some d
  | None => if bool_decide (rq_shard_data item = []) then Some (u "shard_data no puede estar vac" ++ i_acute ++ u "o") else None
  end.

(** [probe_missing]: the references without a file; an error code reaches the caller as that
    error. [stat_fails] is by reference. *)
Fixpoint missing_refs (stat_fails : DataPackShardRef → bool) (refs : list DataPackShardRef) (s : ShardFiles)
  : res (list DataPackShardRef) :=
  match refs with
  | [] => Ok []
  | ref :: refs' =>
      there ← shard_exists (stat_fails ref) ref s;
      missing ← missing_refs stat_fails refs' s;
      Ok (if there : bool then missing else ref :: missing)
  end.

Definition probe_missing (stat_fails : DataPackShardRef → bool) (refs : list DataPackShardRef) : SM ShardFiles (list DataPackShardRef) :=
  match first_invalid_shard_ref_detail refs with
  | Some _ => sraise (RpcAbort INVALID_ARGUMENT)
  | None => s ← sget; scatch (slift (missing_refs stat_fails refs s)) (λ _, Some (sraise (RpcAbort INTERNAL)))
  end.

(** The status and the detail of an exception of [put]. *)
Definition put_failure (e : exn) : Z :=
  match e with
  | DataPackShardHashMismatchError => SHARD_REJECTED_HASH_MISMATCH
  | DataPackShardTooLargeError => SHARD_REJECTED_TOO_LARGE
  | DataPackShardStoreError => SHARD_REJECTED_INVALID_ARGUMENT
  | _ => SHARD_STORE_ERROR
  end.

Definition store_data_pack_shard (env : ShardEnv) (item : ReplicateDataPackShardRequest) : SM ShardFiles ReplicateDataPackShardResult :=
  let result status detail := {| rr_ref := rq_ref item; rr_status := status; rr_detail := detail |} in
  match invalid_shard_request_detail item with
  | Some detail => mret (result SHARD_REJECTED_INVALID_ARGUMENT detail)
  | None => scatch
      (stored ← shard_put env (rq_ref item) (rq_shard_data item);
       mret (if stored : bool then result SHARD_STORED (u "almacenado") else result SHARD_ALREADY_PRESENT (u "ya presente")))
      (λ e, Some (mret (result (put_failure e) (exc_text e))))
  end.

(** [replicate]: one result per item of the stream that arrives; [broken] when reading the
    stream raises after them. *)
Fixpoint replicate (items : list (ShardEnv * ReplicateDataPackShardRequest)) (broken : bool)
  : SM ShardFiles (list ReplicateDataPackShardResult * bool) :=
  match items with
  | [] => mret ([], broken)
  | (env, item) :: items' =>
      result ← store_data_pack_shard env item;
      '(results, b) ← replicate items' broken;
      mret (result :: results, b)
  end.

Definition retrieve_one (read_error : DataPackShardRef → option exn) (s : ShardFiles) (ref : DataPackShardRef) : RetrievedDataPackShard :=
  let from_ref status detail := {| rd_ref := ref; rd_status := status; rd_shard_data := []; rd_detail := detail |} in
  match invalid_shard_ref_detail ref with
  | Some detail => from_ref SHARD_RETRIEVE_ERROR detail
  | None =>
      match shard_get (read_error ref) ref s with
      | Ok (stored, data) => {| rd_ref := stored; rd_status := SHARD_FOUND; rd_shard_data := data; rd_detail := u "ok" |}
      | Err FileNotFoundError => from_ref SHARD_NOT_FOUND (u "shard EC no encontrado")
      | Err DataPackShardHashMismatchError => from_ref SHARD_HASH_MISMATCH (exc_text DataPackShardHashMismatchError)
      | Err e => from_ref SHARD_RETRIEVE_ERROR (exc_text e)
      end
  end.

Definition retrieve_batch (read_error : DataPackShardRef → option exn) (refs : list DataPackShardRef)
  : SM ShardFiles (list RetrievedDataPackShard) := sgets (λ s, retrieve_one read_error s <$> refs).

(** ** The service: the token and the drain state come first *)

Context (cluster_token : pystr).
Notation check := (check_call cluster_token).

Definition ProbeMissingDataPackShards (draining : bool) (metadata : list (pystr * bytes))
    (stat_fails : DataPackShardRef → bool) (refs : list DataPackShardRef) : SM ShardFiles (list DataPackShardRef) :=
  check draining metadata;; probe_missing stat_fails refs.
Definition ReplicateDataPackShards (draining : bool) (metadata : list (pystr * bytes))
    (items : list (ShardEnv * ReplicateDataPackShardRequest)) (broken : bool)
  : SM ShardFiles (list ReplicateDataPackShardResult * bool) :=
  check draining metadata;; replicate items broken.
Definition RetrieveDataPackShardBatch (draining : bool) (metadata : list (pystr * bytes))
    (read_error : DataPackShardRef → option exn) (refs : list DataPackShardRef) : SM ShardFiles (list RetrievedDataPackShard) :=
  check draining metadata;; retrieve_batch read_error refs.

End store.

(** ** Paths identify shards *)

Definition valid_ref (ref : DataPackShardRef) : Prop :=
  is_valid_blake3_hex (rf_pack_hash ref) = true ∧ is_valid_blake3_hex (rf_shard_hash ref) = true ∧ (0 <= rf_shard_index ref)%Z.

Lemma pad3_digits n : (0 <= n)%Z → Forall (λ c, (48 <= c <= 57)%N) (pad3 n) ∧ int_of_decimal (pad3 n) = n.
Proof.
  intros Hn. unfold pad3. assert (str_of_Z n = str_of_N (Z.to_N n)) as -> by (destruct n; [done|done|lia]).
  destruct (str_of_N_spec (Z.to_N n)) as (Hv & _ & Hd). split.
  - apply Forall_app. split; [|done]. apply Forall_replicate. lia.
  - transitivity (int_of_decimal (str_of_N (Z.to_N n))); [|rewrite Hv; lia].
    induction (3 - length (str_of_N (Z.to_N n))) as [|k IH]; [done|]. exact IH.
Qed.

Lemma pad3_inj n m : (0 <= n)%Z → (0 <= m)%Z → pad3 n = pad3 m → n = m.
Proof. intros Hn Hm E. destruct (pad3_digits n Hn) as [_ <-], (pad3_digits m Hm) as [_ <-]. by rewrite E. Qed.

Lemma shard_path_inj root ref ref' :
  valid_ref ref → valid_ref ref' → shard_path root ref = shard_path root ref' → ref = ref'.
Proof.
  intros (Hp & Hs & Hi) (Hp' & Hs' & Hi'). unfold shard_path.
  destruct (path_join_suffix (path_join root (take 2 (rf_pack_hash ref))) (rf_pack_hash ref)) as [a ->].
  destruct (path_join_suffix (path_join root (take 2 (rf_pack_hash ref'))) (rf_pack_hash ref')) as [b ->].
  rewrite !path_join_valid by done.
  assert (∀ r, valid_ref r → 47%N ∉ (pad3 (rf_shard_index r) ++ u "-" ++ rf_shard_hash r ++ shard_suffix)) as Hno.
  { intros r (_ & Hh & Hn). destruct (pad3_digits _ Hn) as [Hd _]. rewrite !elem_of_app. intros [H|[H|[H|H]]].
    - rewrite Forall_forall in Hd. specialize (Hd _ H). lia.
    - vm_compute in H. set_solver.
    - unfold is_valid_blake3_hex in Hh. bool_hyps. match goal with H : forallb _ _ = true |- _ => rewrite forallb_forall in H;
        specialize (H 47%N) end. apply list_elem_of_In in H. naive_solver.
    - vm_compute in H. set_solver. }
  intros E. apply last_component_inj in E as [E1 E2]; [|by apply Hno..].
  apply app_inj_2 in E1 as [_ E1]; [|by rewrite !valid_hash_length].
  rewrite (app_assoc (pad3 _)), (app_assoc (pad3 (rf_shard_index ref'))) in E2.
  apply app_inj_2 in E2 as [E2 E3]; [|rewrite !length_app, (valid_hash_length _ Hs), (valid_hash_length _ Hs'); reflexivity].
  apply app_inj_1 in E3 as [E3 _]; [|by rewrite !valid_hash_length].
  apply app_inj_2 in E2 as [E2 _]; [|done]. apply pad3_inj in E2; [|done..]. destruct ref, ref'; cbn in *; congruence.
Qed.

(** ** What the store promises *)

Section promises.
Context (root : pystr) (max_shard_size : Z) (blake3 : bytes → bytes) (exc_text : exn → pystr) (py_repr : pystr → pystr).
Notation path := (shard_path root).
Notation put := (shard_put root max_shard_size blake3).
Notation get := (shard_get root blake3).
Notation store_item := (store_data_pack_shard root max_shard_size blake3 exc_text py_repr).
Notation serve := (replicate root max_shard_size blake3 exc_text py_repr).

(** The data a shard of that name may have. *)
Definition shard_data_ok (ref : DataPackShardRef) (data : bytes) : Prop :=
  blake3_hex_digest blake3 data = rf_shard_hash ref ∧ (Z.of_nat (length data) <= max_shard_size)%Z.

Definition shards_sound (s : ShardFiles) : Prop :=
  ∀ ref data, valid_ref ref → s !! path ref = Some data → shard_data_ok ref data.

(** No shard file disappears, and good content stays good. *)
Definition shard_step (s s' : ShardFiles) : Prop :=
  (∀ p, is_Some (s !! p) → is_Some (s' !! p)) ∧ (shards_sound s → shards_sound s').

#[export] Instance shard_step_preorder : PreOrder shard_step.
Proof. split; [by split|]. intros s1 s2 s3 [G1 K1] [G2 K2]. split; auto. Qed.

Definition good_shard_env (env : ShardEnv) : Prop := ∀ s, shard_step s (se_others env s).

(** The shard is there with its data. *)
Definition holds_shard (ref : DataPackShardRef) (s : ShardFiles) : Prop := is_Some (s !! path ref).

Lemma shard_publish s ref data : valid_ref ref → shard_data_ok ref data → shard_step s (<[path ref := data]> s).
Proof.
  intros Hv Hok. split.
  - intros p Hp. apply lookup_insert_is_Some. destruct (decide (path ref = p)); auto.
  - intros Hs ref' d Hv' [[E <-]|[_ Hd]]%lookup_insert_Some; [|by apply Hs].
    apply shard_path_inj in E as <-; done.
Qed.

Lemma require_ref_Ok ref ref' : require_ref ref = Ok ref' → ref' = ref ∧ valid_ref ref.
Proof.
  unfold require_ref, require_hash64. destruct ref as [p i h]. cbn.
  destruct (is_valid_blake3_hex p) eqn:E1; [|done]. destruct (is_valid_blake3_hex h) eqn:E2; [|done]. cbn.
  destruct (i <? 0)%Z eqn:E3; [done|]. cbn. intros [= <-]. apply Z.ltb_ge in E3. by split.
Qed.

Lemma require_ref_valid ref : valid_ref ref → require_ref ref = Ok ref.
Proof.
  intros (Hp & Hh & Hi). unfold require_ref, require_hash64. rewrite Hp, Hh. cbn.
  destruct (rf_shard_index ref <? 0)%Z eqn:E; [apply Z.ltb_lt in E; lia|]. by destruct ref.
Qed.

(** A write that returns has stored the shard; one that raises has stored nothing, or
    everything. *)
Lemma shard_put_spec env ref data s :
  good_shard_env env →
  let '(r, s') := put env ref data s in
  shard_step s s' ∧ match r with
    | Ok b => valid_ref ref ∧ shard_data_ok ref data ∧ holds_shard ref s' ∧ (b = true → s' !! path ref = Some data)
    | Err e => True
    end.
Proof.
  intros Henv. unfold shard_put. rewrite sm_bind_spec. cbn [slift]. destruct (require_ref ref) as [ref'|e] eqn:Er; [|by split].
  apply require_ref_Ok in Er as [-> Hv]. cbn. destruct (_ <? _)%Z eqn:El; [by split|]. apply Z.ltb_ge in El. case_bool_decide as Hh; [by split|].
  assert (shard_data_ok ref data) as Hok by done.
  rewrite sm_bind_spec. cbn [sget]. rewrite sm_bind_spec. cbn [slift]. unfold path_there. destruct (se_stat_fails env); [by split|].
  case_bool_decide as Ht; [by split_and!|].
  unfold scatch. rewrite sm_bind_spec. unfold atomic_write_bytes. rewrite sm_bind_spec. cbn [smodify].
  set (s1 := se_others env s). assert (shard_step s s1) as H1 by apply Henv.
  pose proof (shard_publish s1 ref data Hv Hok) as H2. assert (shard_step s (<[path ref := data]> s1)) as H3 by by etransitivity.
  destruct (se_write env) as [|published e].
  - cbn. split; [exact H3|]. split; [done|]. split; [done|]. split; [apply lookup_insert_is_Some; by left|intros _; apply lookup_insert_eq].
  - rewrite sm_bind_spec. destruct published; cbn; case_bool_decide; cbn; done.
Qed.

Lemma invalid_detail_None ref : invalid_shard_ref_detail py_repr ref = None ↔ valid_ref ref.
Proof.
  unfold invalid_shard_ref_detail, valid_ref. destruct (is_valid_blake3_hex (rf_pack_hash ref)); cbn; [|naive_solver].
  destruct (is_valid_blake3_hex (rf_shard_hash ref)); cbn; [|naive_solver].
  destruct (rf_shard_index ref <? 0)%Z eqn:E; bool_hyps; split; try done; intros (_ & _ & ?); lia.
Qed.

Definition store_success (status : Z) : bool := ((status =? SHARD_STORED) || (status =? SHARD_ALREADY_PRESENT))%Z.

(** One item: exactly one result, for its shard. *)
Lemma store_item_spec env item s :
  good_shard_env env →
  ∃ r s', store_item env item s = (Ok r, s') ∧ rr_ref r = rq_ref item ∧ shard_step s s'
    ∧ (store_success (rr_status r) = true → valid_ref (rq_ref item) ∧ shard_data_ok (rq_ref item) (rq_shard_data item) ∧ holds_shard (rq_ref item) s').
Proof.
  intros Henv. unfold store_data_pack_shard, invalid_shard_request_detail.
  destruct (invalid_shard_ref_detail py_repr (rq_ref item)); [by eexists _, s|]. case_bool_decide; [by eexists _, s|].
  unfold scatch. rewrite sm_bind_spec. pose proof (shard_put_spec env (rq_ref item) (rq_shard_data item) s Henv) as Hp.
  destruct (put env _ _ s) as [[b|e] s1]; destruct Hp as [Hstep Hp].
  - eexists _, s1. split; [done|]. destruct b; cbn; (split_and!; [done..|]); intros _; by destruct Hp as (? & ? & ? & _).
  - eexists _, s1. split; [done|]. cbn. split_and!; [done..|]. by destruct e.
Qed.

Lemma replicate_spec items broken s :
  Forall (λ i, good_shard_env i.1) items →
  ∃ rs s', serve items broken s = (Ok (rs, broken), s') ∧ rr_ref <$> rs = rq_ref ∘ snd <$> items ∧ shard_step s s'
    ∧ ∀ r, r ∈ rs → store_success (rr_status r) = true →
        ∃ item, item ∈ items ∧ rr_ref r = rq_ref item.2 ∧ valid_ref (rr_ref r) ∧ shard_data_ok (rr_ref r) (rq_shard_data item.2)
                ∧ holds_shard (rr_ref r) s'.
Proof.
  revert s. induction items as [|[env item] items IH]; intros s Henv; cbn [replicate].
  { exists [], s. split_and!; try done. intros r Hr. by inversion Hr. }
  inversion Henv as [|? ? He Henv']; subst. rewrite sm_bind_spec.
  destruct (store_item_spec env item s He) as (r & s1 & -> & Er & Hs1 & Hok). rewrite sm_bind_spec.
  destruct (IH s1 Henv') as (rs & s2 & -> & Ers & Hs2 & Hall). cbn. exists (r :: rs), s2. split_and!; [done|by cbn; rewrite Er, Ers|by etransitivity|].
  intros r' [->|Hin]%elem_of_cons Hsucc.
  - destruct (Hok Hsucc) as (? & ? & Hh). exists (env, item). rewrite Er. split_and!; try done; [by left|by apply Hs2].
  - destruct (Hall _ Hin Hsucc) as (i & ? & ?). exists i. split; [by right|done].
Qed.

(** What is read back is the data of that name; NOT_FOUND is said only of what is not there. *)
Lemma retrieve_one_spec read_error s ref :
  (∀ ref, read_error ref ≠ Some FileNotFoundError) →
  let r := retrieve_one root blake3 exc_text py_repr read_error s ref in
  rd_ref r = ref
  ∧ (rd_status r = SHARD_FOUND → valid_ref ref ∧ s !! path ref = Some (rd_shard_data r) ∧ blake3_hex_digest blake3 (rd_shard_data r) = rf_shard_hash ref)
  ∧ (rd_status r = SHARD_NOT_FOUND → valid_ref ref ∧ s !! path ref = None)
  ∧ (valid_ref ref → read_error ref = None → shards_sound s → holds_shard ref s → rd_status r = SHARD_FOUND).
Proof.
  intros Hre. cbn zeta. unfold retrieve_one. destruct (invalid_shard_ref_detail py_repr ref) as [d|] eqn:Ei.
  { cbn. split_and!; try done. intros Hv%invalid_detail_None. congruence. }
  apply invalid_detail_None in Ei. unfold shard_get. rewrite require_ref_valid by done. cbn [mbind res_bind].
  destruct (s !! path ref) as [data|] eqn:El; cbn [is_Some].
  2: { cbn. split_and!; try done. intros _ _ _ Hh. unfold holds_shard in Hh. rewrite El in Hh. by destruct Hh. }
  specialize (Hre ref). destruct (read_error ref) as [e|].
  - case_bool_decide; [cbn; by split_and!|]. destruct e; cbn; try done; by split_and!.
  - case_bool_decide as Hh; cbn; split_and!; try done. intros _ _ Hs _. by destruct Hh, (Hs ref data Ei El).
Qed.

Lemma missing_refs_Ok stat_fails refs s l :
  missing_refs root stat_fails refs s = Ok l → ∀ ref, ref ∈ l ↔ ref ∈ refs ∧ valid_ref ref ∧ ¬ holds_shard ref s.
Proof.
  revert l. induction refs as [|r refs IH]; intros l H; cbn in H; [simplify_eq; set_solver|].
  apply bind_Ok in H as (there & Ht & H). apply bind_Ok in H as (m & Hm & H). injection H as <-. intros ref.
  unfold shard_exists in Ht. apply bind_Ok in Ht as (r' & Hr & Ht). apply require_ref_Ok in Hr as [-> Hv].
  unfold path_there in Ht. destruct (stat_fails r); [done|]. injection Ht as <-. case_bool_decide as Hh; [|rewrite elem_of_cons]; rewrite (IH _ Hm), elem_of_cons.
  - split; [naive_solver|]. intros ([->|?] & ? & Hn); [by destruct Hn|done].
  - split; [|naive_solver]. intros [->|?]; [|naive_solver]. split_and!; [by left|done|done].
Qed.
End promises.

(** ** Properties *)

Section properties.
Context (root : pystr) (max_shard_size : Z) (blake3 : bytes → bytes) (exc_text : exn → pystr) (py_repr : pystr → pystr).
Context (cluster_token : pystr).
Notation replicate_call := (ReplicateDataPackShards root max_shard_size blake3 exc_text py_repr cluster_token).
Notation probe_call := (ProbeMissingDataPackShards root py_repr cluster_token).
Notation retrieve_call := (RetrieveDataPackShardBatch root blake3 exc_text py_repr cluster_token).
Notation step := (shard_step root max_shard_size blake3).

Lemma probe_call_spec draining md stat_fails refs s l s' :
  probe_call draining md stat_fails refs s = (Ok l, s') → s' = s ∧ ∀ ref, ref ∈ l ↔ ref ∈ refs ∧ valid_ref ref ∧ ¬ holds_shard root ref s.
Proof.
  unfold ProbeMissingDataPackShards. rewrite sm_bind_spec. pose proof (check_call_spec cluster_token draining md s) as Hc.
  destruct (check_call _ _ _ s) as [[[]|e] s1]; destruct Hc as [-> _]; [|done]. unfold probe_missing.
  destruct (first_invalid_shard_ref_detail _ _); [done|]. rewrite sm_bind_spec. cbn [sget]. unfold scatch, slift.
  destruct (missing_refs _ _ _ _) as [m|] eqn:Em; [|done]. intros [= <- <-]. split; [done|]. by eapply missing_refs_Ok.
Qed.

(** A probe of valid references is answered when its caller is let in and the files can be
    looked at. *)
Lemma probe_call_answers draining md stat_fails refs s :
  check_call cluster_token draining md s = (Ok (), s) → (∀ ref, stat_fails ref = false) → Forall valid_ref refs →
  ∃ l, probe_call draining md stat_fails refs s = (Ok l, s).
Proof.
  intros Hcheck Hstat Hv. unfold ProbeMissingDataPackShards. rewrite sm_bind_spec, Hcheck. unfold probe_missing.
  assert (first_invalid_shard_ref_detail py_repr refs = None) as ->.
  { induction Hv as [|ref refs Hr _ IH]; [done|]. cbn. by rewrite (proj2 (invalid_detail_None py_repr ref) Hr). }
  rewrite sm_bind_spec. cbn [sget]. unfold scatch, slift. assert (∃ l, missing_refs root stat_fails refs s = Ok l) as [l ->]; [|by exists l].
  induction Hv as [|ref refs Hr _ [l IH]]; [by exists []|]. cbn [missing_refs]. unfold shard_exists. rewrite require_ref_valid by done.
  cbn [mbind res_bind]. unfold path_there. rewrite Hstat. cbn [mbind res_bind]. rewrite IH. cbn [mbind res_bind]. by eexists.
Qed.

Lemma replicate_call_spec draining md items broken s rs b s' :
  Forall (λ i, good_shard_env root max_shard_size blake3 i.1) items → replicate_call draining md items broken s = (Ok (rs, b), s') →
  b = broken ∧ rr_ref <$> rs = rq_ref ∘ snd <$> items ∧ step s s'
    ∧ ∀ r, r ∈ rs → store_success (rr_status r) = true →
        ∃ item, item ∈ items ∧ rr_ref r = rq_ref item.2 ∧ valid_ref (rr_ref r)
          ∧ shard_data_ok max_shard_size blake3 (rr_ref r) (rq_shard_data item.2) ∧ holds_shard root (rr_ref r) s'.
Proof.
  intros Henv. unfold ReplicateDataPackShards. rewrite sm_bind_spec. pose proof (check_call_spec cluster_token draining md s) as Hc.
  destruct (check_call _ _ _ s) as [[[]|e] s1]; destruct Hc as [-> _]; [|done].
  destruct (replicate_spec root max_shard_size blake3 exc_text py_repr items broken s Henv) as (rs' & s2 & -> & H). intros [= <- <- <-]. done.
Qed.

(** C15: A shard that a node acknowledges is a shard it can give back. The stream gets one
    result per item, for the shard of the item, in order. When the result is STORED or
    ALREADY_PRESENT, then at any later time no probe reports the shard as missing, and reading
    it back (when its file can be read) gives data with the hash the shard is named by, within
    the size limit. A wrong token or a draining node changes nothing. *)
Theorem acknowledged_shard_is_served draining md items broken s :
  shards_sound root max_shard_size blake3 s → Forall (λ i, good_shard_env root max_shard_size blake3 i.1) items →
  match replicate_call draining md items broken s with
  | (Err e, s') => s' = s
  | (Ok (rs, b), s') =>
      b = broken ∧ rr_ref <$> rs = rq_ref ∘ snd <$> items ∧ step s s'
      ∧ ∀ r later, r ∈ rs → store_success (rr_status r) = true → step s' later →
          (∀ draining md stat_fails refs l s3, probe_call draining md stat_fails refs later = (Ok l, s3) → rr_ref r ∉ l)
          ∧ (∀ draining md read_error refs results s3,
               retrieve_call draining md read_error refs later = (Ok results, s3) → rr_ref r ∈ refs → read_error (rr_ref r) = None →
               (∀ ref, read_error ref ≠ Some FileNotFoundError) →
               ∃ d, {| rd_ref := rr_ref r; rd_status := SHARD_FOUND; rd_shard_data := d; rd_detail := u "ok" |} ∈ results
                    ∧ blake3_hex_digest blake3 d = rf_shard_hash (rr_ref r) ∧ (Z.of_nat (length d) <= max_shard_size)%Z)
  end.
Proof.
  intros Hs Henv. destruct (replicate_call draining md items broken s) as [[[rs b]|e] s'] eqn:E.
  2: { revert E. unfold ReplicateDataPackShards. rewrite sm_bind_spec. pose proof (check_call_spec cluster_token draining md s) as Hc.
       destruct (check_call _ _ _ s) as [[[]|e'] s1]; destruct Hc as [-> _]; [|by intros [= <- <-]].
       destruct (replicate_spec root max_shard_size blake3 exc_text py_repr items broken s Henv) as (rs' & s2 & -> & _). done. }
  destruct (replicate_call_spec _ _ _ _ _ _ _ _ Henv E) as (-> & Hrefs & Hstep & Hack). split_and!; try done.
  intros r later Hin Hsucc Hlater. destruct (Hack r Hin Hsucc) as (item & _ & _ & Hv & _ & Hholds).
  assert (holds_shard root (rr_ref r) later) as Hh by by apply Hlater.
  assert (shards_sound root max_shard_size blake3 later) as Hsound by by apply Hlater, Hstep.
  split.
  - intros draining' md' stat_fails refs l s3 Hp Hl. apply probe_call_spec in Hp as [_ Hp]. by apply Hp in Hl as (_ & _ & ?).
  - intros draining' md' read_error refs results s3 Hr Href Hread Hre. revert Hr. unfold RetrieveDataPackShardBatch. rewrite sm_bind_spec.
    pose proof (check_call_spec cluster_token draining' md' later) as Hc.
    destruct (check_call _ _ _ later) as [[[]|e'] s1]; destruct Hc as [-> _]; [|done]. cbn. intros [= <- _].
    destruct (retrieve_one_spec root max_shard_size blake3 exc_text py_repr read_error later (rr_ref r) Hre) as (R1 & R2 & _ & R4).
    specialize (R4 Hv Hread Hsound Hh). destruct (R2 R4) as (_ & Hd & Hhash).
    exists (rd_shard_data (retrieve_one root blake3 exc_text py_repr read_error later (rr_ref r))). split_and!; [|done|by eapply Hsound].
    apply list_elem_of_fmap. exists (rr_ref r). split; [|done].
    unfold retrieve_one in *. destruct (invalid_shard_ref_detail _ _); [done|]. unfold shard_get in *. rewrite require_ref_valid in * by done.
    cbn [mbind res_bind] in *. rewrite Hd in *. rewrite Hread in *. by case_bool_decide.
Qed.
End properties.

(** ** Witness *)

Definition toy_shard : DataPackShardRef := {| rf_pack_hash := repeat 97%N 64; rf_shard_index := 1; rf_shard_hash := toy_hash |}.
Definition quiet_shard_env : ShardEnv := {| se_stat_fails := false; se_others := id; se_write := Written |}.

Lemma quiet_shard_env_good root n blake3 : good_shard_env root n blake3 quiet_shard_env.
Proof. intros s. reflexivity. Qed.

Definition toy_shard_items : list (ShardEnv * ReplicateDataPackShardRequest) :=
  [(quiet_shard_env, {| rq_ref := toy_shard; rq_shard_data := [Byte.x42] |})].

Definition toy_shard_result : ReplicateDataPackShardResult :=
  {| rr_ref := toy_shard; rr_status := SHARD_STORED; rr_detail := u "almacenado" |}.

Lemma acknowledged_shard_is_served_witness :
  ∃ rs later, Forall (λ r, store_success (rr_status r) = true) rs ∧ rs ≠ []
    ∧ ∀ stat_fails l s3, ProbeMissingDataPackShards (u "/ec") id toy_token false toy_metadata stat_fails [toy_shard] later = (Ok l, s3) →
        toy_shard ∉ l.
Proof.
  pose proof (acknowledged_shard_is_served (u "/ec") 1000 toy_digest (λ _, []) id toy_token false toy_metadata toy_shard_items false ∅) as H.
  assert ((ReplicateDataPackShards (u "/ec") 1000 toy_digest (λ _, []) id toy_token false toy_metadata toy_shard_items false ∅).1
    = Ok ([toy_shard_result], false)) as E by (vm_compute; reflexivity).
  destruct (ReplicateDataPackShards _ _ _ _ _ _ _ _ _ _ _) as [r later]. cbn in E. subst r.
  exists [toy_shard_result], later. split; [apply Forall_singleton; reflexivity|]. split; [discriminate|].
  destruct H as (_ & _ & _ & H);
    [intros ref data _ Hl; exact (False_ind _ (lookup_empty_Some _ _ Hl))|apply Forall_singleton, quiet_shard_env_good|].
  intros stat_fails l s3 Hp. destruct (H toy_shard_result later) as [H' _]; [by left|reflexivity|reflexivity|]. exact (H' _ _ _ _ _ _ Hp).
Defined.
