(* ===== verification/EcRemote.v ===== *)
(** * The client for remote shards

    [protection/ec/remote_client.py] and [shard_targets.py]: what a node asks the shard
    stores of the others, what it makes of their answers, and the size of the messages that
    carry a shard. The answers are arguments; the texts of errors, which nothing reads, are
    left out. *)

From S2P Require Import Prelude PyStr Common Files Cas StorageNode LocalGc ShardStore.
From S2P Require Import Json Erasure Catalog ProtectionTable ErasureTables.
From S2P Require Import Heapq Hrw Cluster Protection ReplicationPlan ReplicationPush RestoreFetch.

#[export] Instance DataPackShardRef_countable : Countable DataPackShardRef.
Proof.
  apply (inj_countable' (λ r, (rf_pack_hash r, rf_shard_index r, rf_shard_hash r))
    (λ k, {| rf_pack_hash := k.1.1; rf_shard_index := k.1.2; rf_shard_hash := k.2 |})). by intros [].
Defined.

(** ** References and payloads *)

(** [RemoteDataPackShardRef(...)]; its [identity_key] is the reference itself. *)
Definition make_ref (pack_hash : pystr) (shard_index : Z) (shard_hash : pystr) : res DataPackShardRef :=
  p ← ec_require_hash64 pack_hash;
  h ← ec_require_hash64 shard_hash;
  i ← ec_non_negative shard_index;
  Ok {| rf_pack_hash := p; rf_shard_index := i; rf_shard_hash := h |}.

(** A reference made from a message. *)
Definition received_ref (ref : DataPackShardRef) : res DataPackShardRef :=
  make_ref (rf_pack_hash ref) (rf_shard_index ref) (rf_shard_hash ref).

Record RemoteDataPackShardPayload := { py_ref : DataPackShardRef; py_data : bytes }.

Definition make_payload (ref : DataPackShardRef) (data : bytes) : res RemoteDataPackShardPayload :=
  if bool_decide (data = []) then Err coding_error else Ok {| py_ref := ref; py_data := data |}.

Record RemoteDataPackShardStoreResult := { st_ref : DataPackShardRef; st_status : Z }.

Definition _dedupe_refs (refs : list DataPackShardRef) : list DataPackShardRef := ordered_unique_by id refs.

Fixpoint dedupe_loop (ordered shards : list RemoteDataPackShardPayload) : res (list RemoteDataPackShardPayload) :=
  match shards with
  | [] => Ok ordered
  | shard :: shards' =>
      match list_find (λ p, py_ref p = py_ref shard) ordered with
      | Some (_, existing) =>
          if bool_decide (py_data existing ≠ py_data shard) then Err coding_error else dedupe_loop ordered shards'
      | None => dedupe_loop (ordered ++ [shard]) shards'
      end
  end.
Definition _dedupe_payloads (shards : list RemoteDataPackShardPayload) : res (list RemoteDataPackShardPayload) :=
  dedupe_loop [] shards.

(** ** Sizes *)

(** The [while] loop; a value has fewer groups of seven bits than bits. *)
Fixpoint varint_loop (fuel : nat) (value size : Z) : Z :=
  if (value <? 128)%Z then size
  else match fuel with O => size | S fuel' => varint_loop fuel' (Z.shiftr value 7) (size + 1) end.

Definition _protobuf_varint_size (value : Z) : res Z :=
  if (value <? 0)%Z then Err coding_error
  else Ok (varint_loop (S (Z.to_nat (Z.log2 value))) value 1).

Definition replicate_data_pack_shard_request_size_bytes (item : RemoteDataPackShardPayload) : res Z :=
  let size := ((1 + 1 + 64) + (1 + 1 + 64))%Z in
  size ← (if (rf_shard_index (py_ref item) =? 0)%Z then Ok size
          else v ← _protobuf_varint_size (rf_shard_index (py_ref item)); Ok (size + (1 + v))%Z);
  let data_size := Z.of_nat (length (py_data item)) in
  v ← _protobuf_varint_size data_size;
  Ok (size + (1 + v + data_size))%Z.

Definition ensure_replicate_data_pack_shard_fits_message (item : RemoteDataPackShardPayload) (max_message_bytes : Z) : res unit :=
  if (max_message_bytes <=? 0)%Z then Err ErasureCodingConfigError
  else
    request_size ← replicate_data_pack_shard_request_size_bytes item;
    raise_if (max_message_bytes <? request_size)%Z ErasureCodingConfigError.

Definition retrieve_data_pack_shard_response_size_bytes (item : RemoteDataPackShardPayload) : res Z :=
  let inner_size := ((1 + 1 + 64) + (1 + 1 + 64))%Z in
  inner_size ← (if (rf_shard_index (py_ref item) =? 0)%Z then Ok inner_size
                else v ← _protobuf_varint_size (rf_shard_index (py_ref item)); Ok (inner_size + (1 + v))%Z);
  let inner_size := (inner_size + (1 + 1))%Z in
  v ← _protobuf_varint_size (Z.of_nat (length (py_data item)));
  let inner_size := (inner_size + (1 + v + Z.of_nat (length (py_data item))))%Z in
  let inner_size := (inner_size + (1 + 1 + 2))%Z in
  v ← _protobuf_varint_size inner_size;
  Ok (1 + v + inner_size)%Z.

Definition ensure_data_pack_shard_fits_transport (item : RemoteDataPackShardPayload) (max_message_bytes : Z) : res unit :=
  _ ← ensure_replicate_data_pack_shard_fits_message item max_message_bytes;
  response_size ← retrieve_data_pack_shard_response_size_bytes item;
  raise_if (max_message_bytes <? response_size)%Z ErasureCodingConfigError.

(** ** Calls *)

Definition probe_missing_shards (call : list DataPackShardRef → res (list DataPackShardRef)) (refs : list DataPackShardRef)
  : res (list DataPackShardRef) :=
  match _dedupe_refs refs with
  | [] => Ok []
  | ordered_refs => missing_shards ← call ordered_refs; mapM_res received_ref missing_shards
  end.

(** What a stream of results brings: the results, and the exception it ends with, if any. *)
Record StoreStream := { ss_results : list ReplicateDataPackShardResult; ss_error : option exn }.

(** How [replicate_shards] ends; [StreamBroken] is RemoteDataPackShardReplicationError. *)
Inductive StoreOutcome :=
  | StoreAnswered (results : list RemoteDataPackShardStoreResult)
  | StreamBroken (results : list RemoteDataPackShardStoreResult)
  | StoreFailed (e : exn).

Fixpoint read_results (items : list ReplicateDataPackShardResult) (error : option exn) (results : list RemoteDataPackShardStoreResult)
  : StoreOutcome :=
  match items with
  | [] => match error with None => StoreAnswered results | Some _ => StreamBroken results end
  | item :: items' =>
      match received_ref (rr_ref item) with
      | Err _ => StreamBroken results
      | Ok ref => read_results items' error (results ++ [{| st_ref := ref; st_status := rr_status item |}])
      end
  end.

Definition replicate_shards (max_message_bytes : Z) (call : list RemoteDataPackShardPayload → res StoreStream)
    (shards : list RemoteDataPackShardPayload) : StoreOutcome :=
  match _dedupe_payloads shards with
  | Err e => StoreFailed e
  | Ok [] => StoreAnswered []
  | Ok ordered =>
      match mapM_res (λ item, ensure_data_pack_shard_fits_transport item max_message_bytes) ordered with
      | Err e => StoreFailed e
      | Ok _ =>
          match call ordered with
          | Err e => StoreFailed e
          | Ok stream => read_results (ss_results stream) (ss_error stream) []
          end
      end
  end.

Fixpoint collect_retrieved (items : list RetrievedDataPackShard) (results : gmap DataPackShardRef RetrievedDataPackShard)
  : res (gmap DataPackShardRef RetrievedDataPackShard) :=
  match items with
  | [] => Ok results
  | item :: items' =>
      if bool_decide (rf_pack_hash (rd_ref item) = []) || bool_decide (rf_shard_hash (rd_ref item) = [])
      then collect_retrieved items' results
      else
        ref ← received_ref (rd_ref item);
        collect_retrieved items' (<[ref := {| rd_ref := ref; rd_status := rd_status item;
                                              rd_shard_data := rd_shard_data item; rd_detail := rd_detail item |}]> results)
  end.

Definition no_result (ref : DataPackShardRef) : RetrievedDataPackShard := {|
  rd_ref := ref; rd_status := SHARD_RETRIEVE_ERROR; rd_shard_data := [];
  rd_detail := u "Sin resultado en RetrieveDataPackShardBatch" |}.

(** A dictionary; an exception that is not about the size of the message ends the call. *)
Definition _retrieve_shard_batch_once (call : list DataPackShardRef → call_outcome (list RetrievedDataPackShard))
    (refs : list DataPackShardRef) : call_outcome (gmap DataPackShardRef RetrievedDataPackShard) :=
  match call refs with
  | Answered items =>
      match collect_retrieved items ∅ with
      | Ok results =>
          Answered (fold_left (λ m ref, if bool_decide (is_Some (m !! ref)) then m else <[ref := no_result ref]> m) refs results)
      | Err _ => CallFailed
      end
  | MessageTooLarge => MessageTooLarge
  | CallFailed => CallFailed
  end.

Definition retrieve_shard_batch (call : list DataPackShardRef → call_outcome (list RetrievedDataPackShard))
    (refs : list DataPackShardRef) : call_outcome (gmap DataPackShardRef RetrievedDataPackShard) :=
  match _dedupe_refs refs with
  | [] => Answered ∅
  | ordered_refs => run_adaptive_batch_call (_retrieve_shard_batch_once call) (length ordered_refs) ordered_refs
  end.

(** ** shard_targets.py *)

(** [sep.join(texts)] *)
Definition join_with (sep : pystr) (texts : list pystr) : pystr :=
  match texts with [] => [] | t :: ts => fold_left (λ s x, s ++ sep ++ x) ts t end.

(** [groups.setdefault(key, []).extend(items)]; the dictionary is in the order of first use. *)
Definition extend_group {A} (groups : list (pystr * list A)) (address : pystr) (refs : list A) : list (pystr * list A) :=
  match list_find (λ g : pystr * list A, g.1 = address) groups with
  | Some (n, (_, refs0)) => <[n := (address, refs0 ++ refs)]> groups
  | None => groups ++ [(address, refs)]
  end.

(** [RemoteShardTargetGroups]: the dictionary and the errors of shards whose node has no
    address. *)
Definition group_step (node_addresses : gmap pystr pystr) (short_node_ids_in_errors : bool)
    (groups : list (pystr * list DataPackShardRef) * list pystr) (row : ErasureDataPackShardRecord)
  : res (list (pystr * list DataPackShardRef) * list pystr) :=
  match node_addresses !! ps_node_id row with
  | None =>
      let node_label := if short_node_ids_in_errors then take 8 (ps_node_id row) else ps_node_id row in
      Ok (groups.1, groups.2 ++ [u "shard=" ++ str_of_Z (ps_shard_index row) ++ u ": nodo " ++ node_label ++ u " offline/ilocalizable"])
  | Some address =>
      ref ← make_ref (ps_pack_hash row) (ps_shard_index row) (ps_shard_hash row);
      Ok (extend_group groups.1 address [ref], groups.2)
  end.

Definition group_erasure_shard_refs_by_address (shard_rows : list ErasureDataPackShardRecord) (node_addresses : gmap pystr pystr)
    (short_node_ids_in_errors : bool) : res (list (pystr * list DataPackShardRef) * list pystr) :=
  fold_left (λ acc row, acc ≫= λ g, group_step node_addresses short_node_ids_in_errors g row) shard_rows (Ok ([], [])).

(** ** The wire format

    The messages of [protos/p2p_storage.proto] as the protobuf encoding lays them out: the
    reference the sizes above are compared with. A field is a key byte and a varint, or a key
    byte, a length and that many bytes; a field with the default value is left out. *)

Definition byte_of_Z (z : Z) : Byte.byte := default Byte.x00 (Byte.of_N (Z.to_N (z mod 256))).

Fixpoint varint_go (fuel : nat) (n : Z) : bytes :=
  if (n <? 128)%Z then [byte_of_Z n]
  else match fuel with O => [byte_of_Z n] | S fuel' => byte_of_Z (128 + n mod 128) :: varint_go fuel' (n / 128) end.
Definition varint (n : Z) : bytes := varint_go (S (Z.to_nat (Z.log2 n))) n.

Fixpoint read_varint (b : bytes) : option (Z * bytes) :=
  match b with
  | [] => None
  | c :: b' =>
      let v := Z.of_N (Byte.to_N c) in
      if (v <? 128)%Z then Some (v, b')
      else '(m, rest) ← read_varint b'; Some ((v - 128 + 128 * m)%Z, rest)
  end.

Definition varint_field (number value : Z) : bytes :=
  if (value =? 0)%Z then [] else byte_of_Z (number * 8) :: varint value.
Definition message_field (number : Z) (data : bytes) : bytes :=
  byte_of_Z (number * 8 + 2) :: varint (Z.of_nat (length data)) ++ data.
Definition bytes_field (number : Z) (data : bytes) : bytes :=
  if bool_decide (data = []) then [] else message_field number data.

(** The index is a [uint32] of the protocol file: the shards of a pack have indexes below 256
    ([total_shards] of its specification), and for an index of 2^32 or more, which no pack has,
    the library refuses to build the message. *)
Definition encode_request (item : RemoteDataPackShardPayload) : bytes :=
  bytes_field 1 (encode_utf8 (rf_pack_hash (py_ref item))) ++ varint_field 2 (rf_shard_index (py_ref item))
  ++ bytes_field 3 (encode_utf8 (rf_shard_hash (py_ref item))) ++ bytes_field 4 (py_data item).

Definition encode_retrieved (r : RetrievedDataPackShard) : bytes :=
  bytes_field 1 (encode_utf8 (rf_pack_hash (rd_ref r))) ++ varint_field 2 (rf_shard_index (rd_ref r))
  ++ bytes_field 3 (encode_utf8 (rf_shard_hash (rd_ref r))) ++ varint_field 4 (rd_status r)
  ++ bytes_field 5 (rd_shard_data r) ++ bytes_field 6 (encode_utf8 (rd_detail r)).

Definition encode_batch (results : list RetrievedDataPackShard) : bytes :=
  concat (message_field 1 ∘ encode_retrieved <$> results).

(** What a node answers for a shard it has. *)
Definition found_result (item : RemoteDataPackShardPayload) : RetrievedDataPackShard := {|
  rd_ref := py_ref item; rd_status := SHARD_FOUND; rd_shard_data := py_data item; rd_detail := u "ok" |}.

(** The varint is the number it stands for, and tells where it ends. *)
Lemma byte_of_Z_to_N z : (0 <= z < 256)%Z → Z.of_N (Byte.to_N (byte_of_Z z)) = z.
Proof.
  intros H. unfold byte_of_Z. rewrite Z.mod_small by done. destruct (Byte.of_N (Z.to_N z)) as [b|] eqn:E.
  - cbn. apply Byte.to_of_N in E. rewrite E. lia.
  - apply Byte.of_N_None_iff in E. lia.
Qed.

Lemma varint_go_roundtrip fuel n rest :
  (0 <= n < 128 * 128 ^ Z.of_nat fuel)%Z → read_varint (varint_go fuel n ++ rest) = Some (n, rest).
Proof.
  revert n. induction fuel as [|fuel IH]; intros n Hn; cbn [varint_go].
  - destruct (n <? 128)%Z eqn:E; bool_hyps; [|cbn in Hn; lia]. cbn. rewrite byte_of_Z_to_N by lia. by rewrite (proj2 (Z.ltb_lt n 128)).
  - destruct (n <? 128)%Z eqn:E; bool_hyps.
    + cbn. rewrite byte_of_Z_to_N by lia. by rewrite (proj2 (Z.ltb_lt n 128)).
    + pose proof (Z.mod_pos_bound n 128 ltac:(lia)) as Hm. cbn [app read_varint]. rewrite byte_of_Z_to_N by lia.
      rewrite (proj2 (Z.ltb_ge (128 + n mod 128) 128)) by lia. rewrite IH.
      * cbn. pose proof (Z.div_mod n 128 ltac:(lia)). do 2 f_equal. lia.
      * rewrite Nat2Z.inj_succ, Z.pow_succ_r in Hn by lia. split; [apply Z.div_pos; lia|].
        apply Z.div_lt_upper_bound; lia.
Qed.

Lemma varint_roundtrip n rest : (0 <= n)%Z → read_varint (varint n ++ rest) = Some (n, rest).
Proof.
  intros Hn. apply varint_go_roundtrip. split; [done|]. destruct (decide (n = 0)%Z) as [->|Hz]; [by vm_compute|].
  assert (n < 2 ^ Z.succ (Z.log2 n))%Z as Hlt by (apply Z.log2_spec; lia).
  assert (2 ^ Z.succ (Z.log2 n) <= 128 ^ Z.of_nat (S (Z.to_nat (Z.log2 n))))%Z as Hle; [|lia].
  pose proof (Z.log2_nonneg n). replace (Z.of_nat (S (Z.to_nat (Z.log2 n)))) with (Z.succ (Z.log2 n)) by lia.
  apply Z.pow_le_mono_l. lia.
Qed.

Lemma varint_loop_length fuel n size : varint_loop fuel n size = (size - 1 + Z.of_nat (length (varint_go fuel n)))%Z.
Proof.
  revert n size. induction fuel as [|fuel IH]; intros n size; cbn [varint_loop varint_go]; destruct (n <? 128)%Z; cbn; try lia.
  rewrite IH, Z.shiftr_div_pow2 by lia. change (2 ^ 7)%Z with 128%Z. lia.
Qed.

Lemma varint_size n : (0 <= n)%Z → _protobuf_varint_size n = Ok (Z.of_nat (length (varint n))).
Proof.
  intros Hn. unfold _protobuf_varint_size. rewrite (proj2 (Z.ltb_ge n 0)) by done. rewrite varint_loop_length. unfold varint. f_equal.
Qed.

Lemma length_varint_field number value : (0 <= value)%Z →
  Z.of_nat (length (varint_field number value)) = if (value =? 0)%Z then 0%Z else (1 + Z.of_nat (length (varint value)))%Z.
Proof. intros Hv. unfold varint_field. destruct (value =? 0)%Z; [done|]. cbn [length]. lia. Qed.

Lemma length_bytes_field number data : data ≠ [] →
  Z.of_nat (length (bytes_field number data)) = (1 + Z.of_nat (length (varint (Z.of_nat (length data)))) + Z.of_nat (length data))%Z.
Proof. intros Hd. unfold bytes_field, message_field. rewrite bool_decide_false by done. cbn [length]. rewrite length_app. lia. Qed.

Lemma length_encode_hex s : forallb is_hex_lower s = true → length (encode_utf8 s) = length s.
Proof.
  unfold encode_utf8. induction s as [|c s IH]; [done|]. cbn [forallb]. intros H. bool_hyps. cbn. rewrite length_app, IH by done.
  match goal with H : is_hex_lower c = true |- _ => unfold is_hex_lower in H; rewrite orb_true_iff, !andb_true_iff, !N.leb_le in H; rename H into Hc end.
  unfold utf8_char. rewrite (proj2 (N.ltb_lt c 128)) by lia. done.
Qed.

Lemma length_hash_field number h : is_valid_blake3_hex h = true → Z.of_nat (length (bytes_field number (encode_utf8 h))) = 66%Z.
Proof.
  intros Hv. pose proof (valid_hash_length _ Hv) as Hl. assert (length (encode_utf8 h) = 64) as E.
  { rewrite length_encode_hex; [done|]. unfold is_valid_blake3_hex in Hv. by bool_hyps. }
  rewrite length_bytes_field by (intros E'; by rewrite E' in E). rewrite E. reflexivity.
Qed.

Lemma request_size item : valid_ref (py_ref item) → py_data item ≠ [] →
  replicate_data_pack_shard_request_size_bytes item = Ok (Z.of_nat (length (encode_request item))).
Proof.
  intros (Hp & Hh & Hi) Hd. unfold replicate_data_pack_shard_request_size_bytes, encode_request.
  rewrite !length_app, !Nat2Z.inj_add, !length_hash_field, length_varint_field, length_bytes_field, !varint_size by (done || lia).
  destruct (rf_shard_index (py_ref item) =? 0)%Z; cbn [mbind res_bind]; f_equal; lia.
Qed.

Lemma response_size item : valid_ref (py_ref item) → py_data item ≠ [] →
  retrieve_data_pack_shard_response_size_bytes item = Ok (Z.of_nat (length (encode_batch [found_result item]))).
Proof.
  intros (Hp & Hh & Hi) Hd. unfold retrieve_data_pack_shard_response_size_bytes, encode_batch. cbn [fmap list_fmap concat compose].
  rewrite app_nil_r. unfold message_field. cbn [length]. rewrite length_app.
  assert (Z.of_nat (length (encode_retrieved (found_result item)))
    = 138 + (if (rf_shard_index (py_ref item) =? 0)%Z then 0 else 1 + Z.of_nat (length (varint (rf_shard_index (py_ref item)))))
      + (1 + Z.of_nat (length (varint (Z.of_nat (length (py_data item))))) + Z.of_nat (length (py_data item))))%Z as E.
  { unfold encode_retrieved, found_result. cbn [rd_ref rd_status rd_shard_data rd_detail].
    rewrite !length_app, !Nat2Z.inj_add, !length_hash_field, !length_varint_field, (length_bytes_field 5) by (done || lia).
    change (Z.of_nat (length (bytes_field 6 (encode_utf8 (u "ok"))))) with 4%Z.
    change (if (SHARD_FOUND =? 0)%Z then 0%Z else (1 + Z.of_nat (length (varint SHARD_FOUND)))%Z) with 2%Z. lia. }
  set (n := Z.of_nat (length (encode_retrieved (found_result item)))) in *.
  destruct (rf_shard_index (py_ref item) =? 0)%Z; cbn [mbind res_bind]; rewrite !varint_size by lia; cbn [mbind res_bind];
    match goal with |- context [_protobuf_varint_size ?x] => replace x with n by lia end;
    rewrite varint_size by lia; cbn [mbind res_bind]; f_equal; lia.
Qed.

(** C16: The size check of a shard is exact: it succeeds precisely when the request that
    delivers the shard and the response that would give it back alone, encoded as protobuf
    encodes them, both fit in a message. So what a push sends can be asked for again. *)
Theorem transport_check_is_exact item max_message_bytes :
  valid_ref (py_ref item) → py_data item ≠ [] →
  ensure_data_pack_shard_fits_transport item max_message_bytes
  = if bool_decide ((0 < max_message_bytes)%Z
        ∧ (Z.of_nat (length (encode_request item)) <= max_message_bytes)%Z
        ∧ (Z.of_nat (length (encode_batch [found_result item])) <= max_message_bytes)%Z)
    then Ok () else Err ErasureCodingConfigError.
Proof.
  intros Hv Hd. unfold ensure_data_pack_shard_fits_transport, ensure_replicate_data_pack_shard_fits_message.
  destruct (max_message_bytes <=? 0)%Z eqn:E0; bool_hyps; [rewrite bool_decide_false by lia; done|].
  rewrite request_size by done. cbn [mbind res_bind]. unfold raise_if.
  destruct (max_message_bytes <? _)%Z eqn:E1; bool_hyps; cbn [mbind res_bind]; [rewrite bool_decide_false by lia; done|].
  rewrite response_size by done. cbn [mbind res_bind].
  destruct (max_message_bytes <? _)%Z eqn:E2; bool_hyps; [rewrite bool_decide_false by lia|rewrite bool_decide_true by lia]; done.
Qed.

Lemma transport_check_is_exact_witness :
  let item := {| py_ref := {| rf_pack_hash := repeat 97%N 64; rf_shard_index := 200; rf_shard_hash := repeat 98%N 64 |};
                 py_data := repeat Byte.x42 300 |} in
  ensure_data_pack_shard_fits_transport item 447 = Ok () ∧ ensure_data_pack_shard_fits_transport item 446 = Err ErasureCodingConfigError.
Proof.
  cbn zeta. split.
  - rewrite transport_check_is_exact; [vm_compute; reflexivity|split_and!; [reflexivity..|discriminate]|discriminate].
  - rewrite transport_check_is_exact; [vm_compute; reflexivity|split_and!; [reflexivity..|discriminate]|discriminate].
Defined.

Lemma received_ref_valid ref ref' : received_ref ref = Ok ref' → valid_ref ref'.
Proof.
  unfold received_ref, make_ref, ec_require_hash64. destruct (is_valid_blake3_hex (strip (rf_pack_hash ref))) eqn:E1; [|done].
  cbn. destruct (is_valid_blake3_hex (strip (rf_shard_hash ref))) eqn:E2; [|done]. cbn.
  destruct (rf_shard_index ref <? 0)%Z eqn:E3; [done|]. cbn. intros [= <-]. bool_hyps. by split.
Qed.

Lemma received_ref_id ref : valid_ref ref → received_ref ref = Ok ref.
Proof.
  intros (Hp & Hh & Hi). unfold received_ref, make_ref, ec_require_hash64.
  rewrite !strip_hex by (unfold is_valid_blake3_hex in *; by bool_hyps). rewrite Hp, Hh. cbn.
  rewrite (proj2 (Z.ltb_ge _ _)) by done. by destruct ref.
Qed.

(** ** Groups of references *)

Definition grouped {A} (groups : list (pystr * list A)) (a : pystr) (ref : A) : Prop :=
  ∃ refs, (a, refs) ∈ groups ∧ ref ∈ refs.

Definition row_ref (s : ErasureDataPackShardRecord) : DataPackShardRef :=
  {| rf_pack_hash := ps_pack_hash s; rf_shard_index := ps_shard_index s; rf_shard_hash := ps_shard_hash s |}.

Lemma extend_group_spec {A} (groups : list (pystr * list A)) address refs :
  NoDup groups.*1 → NoDup (extend_group groups address refs).*1
  ∧ ∀ a ref, grouped (extend_group groups address refs) a ref ↔ grouped groups a ref ∨ (a = address ∧ ref ∈ refs).
Proof.
  intros Hnd. unfold extend_group. destruct (list_find _ groups) as [[n [a0 refs0]]|] eqn:E.
  - apply list_find_Some in E as (Hn & E & _). cbn in E. subst a0. split.
    + rewrite list_fmap_insert. cbn. rewrite list_insert_id; [done|]. by rewrite list_lookup_fmap, Hn.
    + intros a ref. assert (n < length groups)%nat as Hlt by by eapply lookup_lt_Some. split.
      * intros (l & [i Hi]%list_elem_of_lookup & Hr). destruct (decide (i = n)) as [->|Hin].
        -- rewrite list_lookup_insert_eq in Hi by done. injection Hi as <- <-. apply elem_of_app in Hr as [|]; [|by right].
           left. exists refs0. split; [by eapply list_elem_of_lookup_2|done].
        -- rewrite list_lookup_insert_ne in Hi by done. left. exists l. split; [by eapply list_elem_of_lookup_2|done].
      * assert ((address, refs0 ++ refs) ∈ <[n:=(address, refs0 ++ refs)]> groups) as Hnew
          by (eapply list_elem_of_lookup_2, list_lookup_insert_eq; done).
        intros [(l & [i Hi]%list_elem_of_lookup & Hr)|[-> Hr]]; [|exists (refs0 ++ refs); split; [done|apply elem_of_app; by right]].
        destruct (decide (i = n)) as [->|Hin].
        -- rewrite Hn in Hi. injection Hi as <- <-. exists (refs0 ++ refs). split; [done|]. apply elem_of_app. by left.
        -- exists l. split; [|done]. apply (list_elem_of_lookup_2 _ i). by rewrite list_lookup_insert_ne.
  - apply list_find_None in E. rewrite Forall_forall in E. split.
    + rewrite fmap_app. apply NoDup_app. split_and!; [done| |apply NoDup_singleton].
      intros a (g & -> & Hg)%list_elem_of_fmap Ha%list_elem_of_singleton. by apply (E g).
    + intros a ref. unfold grouped. setoid_rewrite elem_of_app. setoid_rewrite list_elem_of_singleton. naive_solver.
Qed.

Lemma extend_group_keys {A} (groups : list (pystr * list A)) h l g : g ∈ extend_group groups h l → g.1 = h ∨ ∃ g', g' ∈ groups ∧ g'.1 = g.1.
Proof.
  unfold extend_group. destruct (list_find _ groups) as [[n [h0 l0]]|] eqn:E.
  - intros [j Hj]%list_elem_of_lookup. destruct (decide (j = n)) as [->|Hne].
    + apply list_find_Some in E as (Hn & _). rewrite list_lookup_insert_eq in Hj by (by eapply lookup_lt_Some). injection Hj as <-. by left.
    + rewrite list_lookup_insert_ne in Hj by done. right. exists g. split; [by eapply list_elem_of_lookup_2|done].
  - intros [| ->%list_elem_of_singleton]%elem_of_app; [right; by exists g|by left].
Qed.

(** Grouping rows of valid references always succeeds, and groups what has an address. *)
Lemma group_rows_spec rows addresses short :
  Forall (λ s, valid_ref (row_ref s)) rows →
  ∃ groups errors, group_erasure_shard_refs_by_address rows addresses short = Ok (groups, errors)
    ∧ NoDup groups.*1
    ∧ ∀ a ref, grouped groups a ref ↔ ∃ s, s ∈ rows ∧ addresses !! ps_node_id s = Some a ∧ ref = row_ref s.
Proof.
  intros Hv. unfold group_erasure_shard_refs_by_address. set (step := λ acc row, _).
  assert (∀ g0 e0, NoDup g0.*1 → ∃ groups errors,
    fold_left step rows (Ok (g0, e0)) = Ok (groups, errors) ∧ NoDup groups.*1
    ∧ ∀ a ref, grouped groups a ref ↔ grouped g0 a ref ∨ ∃ s, s ∈ rows ∧ addresses !! ps_node_id s = Some a ∧ ref = row_ref s) as H.
  { induction Hv as [|s rows Hs _ IH]; intros g0 e0 Hnd; cbn [fold_left].
    - exists g0, e0. split_and!; [done|done|]. intros a ref. split; [by left|]. intros [|(s & Hs & _)]; [done|by inversion Hs].
    - change (step (Ok (g0, e0)) s) with (group_step addresses short (g0, e0) s). unfold group_step. destruct (addresses !! ps_node_id s) as [address|] eqn:Ea.
      + change (make_ref (ps_pack_hash s) (ps_shard_index s) (ps_shard_hash s)) with (received_ref (row_ref s)).
        rewrite received_ref_id by done. cbn [mbind res_bind fst snd].
        destruct (extend_group_spec g0 address [row_ref s] Hnd) as [Hnd' Hg].
        destruct (IH _ e0 Hnd') as (groups & errors & -> & ? & Hgr). exists groups, errors. split_and!; [done|done|].
        intros a ref. rewrite Hgr, Hg, list_elem_of_singleton. setoid_rewrite elem_of_cons. split; [naive_solver|].
        intros [|(s' & [->|] & Ha & ->)]; [by left; left| |by right; exists s']. left. right. split; [congruence|done].
      + cbn [fst snd]. match goal with |- context [Ok (_, ?e)] => destruct (IH g0 e Hnd) as (groups & errors & -> & ? & Hgr) end.
        exists groups, errors. split_and!; [done|done|].
        intros a ref. rewrite Hgr. setoid_rewrite elem_of_cons. split; [naive_solver|].
        intros [|(s' & [->|] & Ha & ->)]; [by left| |by right; exists s']. congruence. }
  destruct (H [] [] (NoDup_nil_2)) as (groups & errors & E & Hnd & Hg). exists groups, errors. split_and!; [done|done|].
  intros a ref. rewrite Hg. split; [|by right]. intros [(refs & Hr & _)|]; [by inversion Hr|done].
Qed.

(** A reference is in one group, once. *)
Lemma extend_group_perm {A} (groups : list (pystr * list A)) address refs : concat (extend_group groups address refs).*2 ≡ₚ concat groups.*2 ++ refs.
Proof.
  unfold extend_group. destruct (list_find _ groups) as [[n [a0 refs0]]|] eqn:E.
  - apply list_find_Some in E as (Hn & _). rewrite <-(take_drop_middle groups n (a0, refs0)) at 2 by done.
    rewrite insert_take_drop by (by eapply lookup_lt_Some). rewrite !fmap_app, !concat_app. cbn. rewrite <-!app_assoc.
    apply Permutation_app_head. apply Permutation_app_head, Permutation_app_comm.
  - rewrite fmap_app, concat_app. cbn. by rewrite app_nil_r.
Qed.

Lemma group_rows_perm rows addresses short groups errors :
  Forall (λ s, valid_ref (row_ref s)) rows → group_erasure_shard_refs_by_address rows addresses short = Ok (groups, errors) →
  concat groups.*2 ≡ₚ row_ref <$> filter (λ s, is_Some (addresses !! ps_node_id s)) rows.
Proof.
  intros Hv. unfold group_erasure_shard_refs_by_address. set (step := λ acc row, _).
  assert (∀ g0 e0, fold_left step rows (Ok (g0, e0)) = Ok (groups, errors) →
    concat groups.*2 ≡ₚ concat g0.*2 ++ (row_ref <$> filter (λ s, is_Some (addresses !! ps_node_id s)) rows)) as H.
  { induction Hv as [|s rows Hs _ IH]; intros g0 e0; cbn [fold_left]; [intros [= -> _]; by rewrite app_nil_r|].
    change (step (Ok (g0, e0)) s) with (group_step addresses short (g0, e0) s). unfold group_step. rewrite filter_cons.
    destruct (addresses !! ps_node_id s) as [address|] eqn:Ea.
    - change (make_ref (ps_pack_hash s) (ps_shard_index s) (ps_shard_hash s)) with (received_ref (row_ref s)).
      rewrite received_ref_id by done. cbn [mbind res_bind fst snd]. intros H%IH. rewrite H, extend_group_perm.
      rewrite decide_True by (by eexists). cbn. by rewrite <-app_assoc.
    - intros H%IH. rewrite H. rewrite decide_False by (intros [? ?]; done). done. }
  intros E%H. done.
Qed.
