(* ===== verification/EcPush.v ===== *)
(** * Sending the shards of a pack

    [protection/ec/push_execution.py]: the shards of a pack go in one batch per address; a
    batch probes its target, sends what is missing and counts acknowledgements. The answers
    of the targets and the order in which the batches complete are arguments. *)

From S2P Require Import Prelude PyStr Common Json Heapq Hrw Cluster Protection Catalog.
From S2P Require Import ProtectionTable Cas StorageNode ShardStore Erasure ErasurePlacement.
From S2P Require Import ErasureTables EcRemote.

(** ** The shards of one target *)

Record DataPackShardPushResult := {
  pr_successful : gset Z; pr_stored : Z; pr_already_present : Z;
  pr_failed : list (pystr * RemoteDataPackShardStoreResult) }.

Definition failed_shards (r : DataPackShardPushResult) : Z := Z.of_nat (length (pr_failed r)).

(** What a target does when its batch runs: the answer to the probe, to the stream, and
    whether running the task itself fails. *)
Record ShardTargetEnv := {
  se_task_fails : bool;
  se_probe : list DataPackShardRef → res (list DataPackShardRef);
  se_store : list RemoteDataPackShardPayload → res StoreStream }.

Definition _failed_results_for_refs (address : pystr) (refs : list DataPackShardRef) (status : Z)
  : list (pystr * RemoteDataPackShardStoreResult) := (λ ref, (address, {| st_ref := ref; st_status := status |})) <$> refs.

Definition _missing_ack_results (address : pystr) (payloads : list RemoteDataPackShardPayload)
    (acknowledged_keys : gset DataPackShardRef) (status : Z) : list (pystr * RemoteDataPackShardStoreResult) :=
  _failed_results_for_refs address (py_ref <$> filter (λ p, py_ref p ∉ acknowledged_keys) payloads) status.

(** One result of the stream. *)
Definition take_store_result (address : pystr) (expected : gset DataPackShardRef)
    (st : gset DataPackShardRef * DataPackShardPushResult) (result : RemoteDataPackShardStoreResult)
  : gset DataPackShardRef * DataPackShardPushResult :=
  let key := st_ref result in
  if bool_decide (key ∉ expected) || bool_decide (key ∈ st.1) then st
  else
    let r := st.2 in
    ({[key]} ∪ st.1,
     if store_success (st_status result)
     then {| pr_successful := {[rf_shard_index key]} ∪ pr_successful r;
             pr_stored := if (st_status result =? SHARD_STORED)%Z then pr_stored r + 1 else pr_stored r;
             pr_already_present := if (st_status result =? SHARD_STORED)%Z then pr_already_present r else pr_already_present r + 1;
             pr_failed := pr_failed r |}
     else {| pr_successful := pr_successful r; pr_stored := pr_stored r; pr_already_present := pr_already_present r;
             pr_failed := pr_failed r ++ [(address, result)] |}).

Definition stream_results (o : StoreOutcome) : list RemoteDataPackShardStoreResult :=
  match o with StoreAnswered results => results | StreamBroken results => results | StoreFailed _ => [] end.

Definition _push_target_batch (max_message_bytes : Z) (env : ShardTargetEnv) (address : pystr)
    (payloads : list RemoteDataPackShardPayload) : DataPackShardPushResult :=
  let refs := py_ref <$> payloads in
  match probe_missing_shards (se_probe env) refs with
  | Err _ => {| pr_successful := ∅; pr_stored := 0; pr_already_present := 0;
                pr_failed := _failed_results_for_refs address refs SHARD_STORE_ERROR |}
  | Ok missing_refs =>
      let requested_keys : gset DataPackShardRef := list_to_set refs in
      let missing_keys : gset DataPackShardRef := list_to_set (filter (λ ref, ref ∈ requested_keys) missing_refs) in
      let present := {|
        pr_successful := list_to_set (rf_shard_index <$> filter (λ ref, ref ∉ missing_keys) refs);
        pr_stored := 0; pr_already_present := Z.of_nat (length refs) - Z.of_nat (size missing_keys); pr_failed := [] |} in
      if bool_decide (missing_keys = ∅) then present
      else
        let payloads_to_send := filter (λ p, py_ref p ∈ missing_keys) payloads in
        let expected_ack_keys : gset DataPackShardRef := list_to_set (py_ref <$> payloads_to_send) in
        let store_results := stream_results (replicate_shards max_message_bytes (se_store env) payloads_to_send) in
        let '(acknowledged_keys, r) := fold_left (take_store_result address expected_ack_keys) store_results (∅, present) in
        {| pr_successful := pr_successful r; pr_stored := pr_stored r; pr_already_present := pr_already_present r;
           pr_failed := pr_failed r ++ _missing_ack_results address payloads_to_send acknowledged_keys SHARD_STORE_ERROR |}
  end.

(** ** The shards of a pack *)

Definition shard_payload (pack : EncodedDataPack) (shard : DataPackShard) : res RemoteDataPackShardPayload :=
  ref ← make_ref (ep_pack_hash pack) (sh_index shard) (sh_hash shard); make_payload ref (sh_data shard).

(** [{item.shard_index: item for item in placements}] *)
Definition placement_by_index (placements : list DataPackShardPlacement) : gmap Z DataPackShardPlacement :=
  fold_left (λ m p, <[pl_shard_index p := p]> m) placements ∅.

(** The payloads of the shards, each with the address of its placement. *)
Definition addressed_payloads (pack : EncodedDataPack) (placements : list DataPackShardPlacement)
  : res (list (pystr * RemoteDataPackShardPayload)) :=
  mapM_res (λ shard,
    match placement_by_index placements !! sh_index shard with
    | None => Err KeyError
    | Some placement => payload ← shard_payload pack shard; Ok (pl_address placement, payload)
    end) (ep_shards pack).

(** One batch per address, in the order of the addresses. *)
Definition _target_batches (pack : EncodedDataPack) (placements : list DataPackShardPlacement)
  : res (list (pystr * list RemoteDataPackShardPayload)) :=
  pairs ← addressed_payloads pack placements;
  Ok ((λ address, (address, (filter (λ kv : pystr * RemoteDataPackShardPayload, kv.1 = address) pairs).*2))
      <$> py_sorted str_leb (ordered_unique pairs.*1)).

Definition empty_push_result : DataPackShardPushResult :=
  {| pr_successful := ∅; pr_stored := 0; pr_already_present := 0; pr_failed := [] |}.

(** The loop over the completed batches. *)
Definition merge_push_result (r result : DataPackShardPushResult) : DataPackShardPushResult := {|
  pr_successful := pr_successful r ∪ pr_successful result; pr_stored := pr_stored r + pr_stored result;
  pr_already_present := pr_already_present r + pr_already_present result; pr_failed := pr_failed r ++ pr_failed result |}.

Definition batch_result (max_message_bytes : Z) (run : pystr → ShardTargetEnv) (batch : pystr * list RemoteDataPackShardPayload)
  : DataPackShardPushResult :=
  if se_task_fails (run batch.1)
  then {| pr_successful := ∅; pr_stored := 0; pr_already_present := 0;
          pr_failed := _failed_results_for_refs batch.1 (py_ref <$> batch.2) SHARD_STORE_ERROR |}
  else _push_target_batch max_message_bytes (run batch.1) batch.1 batch.2.

Definition failed_leb (a b : pystr * RemoteDataPackShardStoreResult) : bool :=
  if bool_decide (a.1 = b.1) then
    if (rf_shard_index (st_ref a.2) =? rf_shard_index (st_ref b.2))%Z
    then str_leb (rf_shard_hash (st_ref a.2)) (rf_shard_hash (st_ref b.2))
    else (rf_shard_index (st_ref a.2) <=? rf_shard_index (st_ref b.2))%Z
  else str_leb a.1 b.1.

(** [complete] puts the batches in the order in which they complete. *)
Definition push_data_pack_shards (max_message_bytes : Z) (pack : EncodedDataPack) (placements : list DataPackShardPlacement)
    (run : pystr → ShardTargetEnv)
    (complete : list (pystr * list RemoteDataPackShardPayload) → list (pystr * list RemoteDataPackShardPayload))
  : res DataPackShardPushResult :=
  batches ← _target_batches pack placements;
  let r := fold_left (λ r batch, merge_push_result r (batch_result max_message_bytes run batch)) (complete batches) empty_push_result in
  Ok {| pr_successful := pr_successful r; pr_stored := pr_stored r; pr_already_present := pr_already_present r;
        pr_failed := py_sorted failed_leb (pr_failed r) |}.

(** ** Limits and rows *)

Definition validate_data_pack_delivery_limits (pack : EncodedDataPack) (max_shard_size max_message_bytes : Z) : res unit :=
  if (max_shard_size <=? 0)%Z then Err ErasureCodingConfigError
  else
    _ ← mapM_res (λ shard,
      if (max_shard_size <? Z.of_nat (length (sh_data shard)))%Z then Err ErasureCodingConfigError
      else payload ← shard_payload pack shard; ensure_data_pack_shard_fits_transport payload max_message_bytes) (ep_shards pack);
    Ok ().

Definition entry_row (e : DataPackEntry) : chunk_tuple := (en_chunk_hash e, en_offset e, en_length e, en_ordinal e).

Definition _data_pack_metadata_rows (pack : EncodedDataPack) (placements : list DataPackShardPlacement)
  : res (list chunk_tuple * list shard_tuple) :=
  shards ← mapM_res (λ shard,
    match placement_by_index placements !! sh_index shard with
    | None => Err KeyError
    | Some placement => Ok (sh_index shard, sh_hash shard, pl_node_id placement, Z.of_nat (length (sh_data shard)))
    end) (ep_shards pack);
  Ok (entry_row <$> ep_entries pack, shards).

Definition build_data_pack_push_update (now : Q) (pack : EncodedDataPack) (placements : list DataPackShardPlacement)
    (protection_state : ProtectionState) (placement_epoch : pystr) : res ErasureDataPackPushUpdate :=
  '(chunks, shards) ← _data_pack_metadata_rows pack placements;
  Ok {| eu_pack_hash := ep_pack_hash pack; eu_codec := es_codec (ep_spec pack); eu_data_shards := data_shards (ep_spec pack);
        eu_parity_shards := parity_shards (ep_spec pack); eu_payload_size := ep_payload_size pack;
        eu_padded_size := ep_padded_size pack; eu_shard_size := ep_shard_size pack; eu_chunks := chunks; eu_shards := shards;
        eu_protection_state := protection_state; eu_placement_epoch := Some placement_epoch; eu_pushed_at := now |}.

(** [_write_data_pack_push_metadata]: the writer takes the rows and reads the clock. *)
Definition _write_data_pack_push_metadata (known : gmap pystr Z) (now : Q) (pack : EncodedDataPack)
    (placements : list DataPackShardPlacement) (protection_state : ProtectionState) (placement_epoch : pystr)
    (refresh_existing : bool) (t : ErasureTables) : res ErasureTables :=
  up ← build_data_pack_push_update now pack placements protection_state placement_epoch;
  if refresh_existing then refresh_erasure_data_pack_push up t else register_erasure_data_pack known up t.
Definition register_data_pack_metadata known now pack placements protection_state placement_epoch :=
  _write_data_pack_push_metadata known now pack placements protection_state placement_epoch false.
Definition refresh_data_pack_push_metadata known now pack placements protection_state placement_epoch :=
  _write_data_pack_push_metadata known now pack placements protection_state placement_epoch true.

(** ** One batch *)

Section batch.
Context (max_message_bytes : Z) (env : ShardTargetEnv) (address : pystr) (payloads : list RemoteDataPackShardPayload).
Let refs : list DataPackShardRef := py_ref <$> payloads.

(** The target vouches for the shard: it did not report it as missing, or acknowledged it. *)
Definition vouched (ref : DataPackShardRef) : Prop :=
  (∃ missing, probe_missing_shards (se_probe env) refs = Ok missing ∧ ref ∉ missing)
  ∨ ∃ sent result, sent ⊆+ payloads ∧ result ∈ stream_results (replicate_shards max_message_bytes (se_store env) sent)
      ∧ st_ref result = ref ∧ store_success (st_status result) = true.

(** Every shard counts once, as good or as failed. *)
Record counted (r : DataPackShardPushResult) (good bad : list DataPackShardRef) : Prop := {
  ct_good : pr_successful r = list_to_set (rf_shard_index <$> good);
  ct_counts : (pr_stored r + pr_already_present r = Z.of_nat (length good))%Z ∧ (0 <= pr_stored r)%Z ∧ (0 <= pr_already_present r)%Z;
  ct_bad : length (pr_failed r) = length bad;
  ct_vouched : Forall vouched good }.

Lemma take_results_counted expected results acked r good bad :
  (∀ result, result ∈ results → st_ref result ∈ expected → store_success (st_status result) = true → vouched (st_ref result)) →
  counted r good bad → NoDup (good ++ bad) → (∀ ref, ref ∈ expected → ref ∉ acked → ref ∉ good ++ bad) →
  let '(acked', r') := fold_left (take_store_result address expected) results (acked, r) in
  ∃ good' bad', counted r' good' bad' ∧ NoDup (good' ++ bad')
    ∧ acked ⊆ acked' ∧ ∀ ref, ref ∈ good' ++ bad' ↔ ref ∈ good ++ bad ∨ (ref ∈ expected ∧ ref ∈ acked' ∧ ref ∉ acked).
Proof.
  revert acked r good bad. induction results as [|x results IH]; intros acked r good bad Hv Hc Hnd Hfresh; cbn [fold_left].
  { exists good, bad. split_and!; try done. naive_solver. }
  assert (∀ result, result ∈ results → st_ref result ∈ expected → store_success (st_status result) = true → vouched (st_ref result)) as Hv'
    by (intros; apply Hv; [by right|done..]).
  unfold take_store_result at 2. cbn [fst snd]. destruct (_ || _) eqn:E; [by apply IH|].
  apply orb_false_iff in E as [E1 E2]. apply bool_decide_eq_false in E1. apply dec_stable in E1 as E1'. apply bool_decide_eq_false in E2.
  set (key := st_ref x) in *. pose proof (Hfresh _ E1' E2) as Hkey. apply not_elem_of_app in Hkey as Hkey'. destruct Hkey' as [Hkg Hkb].
  destruct Hc as [C1 (C2 & C3 & C4) C5 C6].
  assert (∀ r1 good1 bad1, counted r1 good1 bad1 → good1 ++ bad1 ≡ₚ key :: good ++ bad →
    let '(acked', r') := fold_left (take_store_result address expected) results ({[key]} ∪ acked, r1) in
    ∃ good' bad', counted r' good' bad' ∧ NoDup (good' ++ bad')
    ∧ acked ⊆ acked' ∧ ∀ ref, ref ∈ good' ++ bad' ↔ ref ∈ good ++ bad ∨ (ref ∈ expected ∧ ref ∈ acked' ∧ ref ∉ acked)) as Hgo.
  { intros r1 good1 bad1 Hc1 HP. specialize (IH ({[key]} ∪ acked) r1 good1 bad1 Hv' Hc1). destruct (fold_left _ _ _) as [acked' r'].
    destruct IH as (good' & bad' & G1 & G2 & G3 & G4).
    - rewrite HP. by constructor.
    - intros ref Hr Hn. rewrite HP, elem_of_cons. intros [->|Hin]; [set_solver|]. apply (Hfresh ref); set_solver.
    - exists good', bad'. split_and!; [done|done|set_solver|]. intros ref. rewrite G4, HP, elem_of_cons.
      assert (key ∈ acked') as Hka by (apply G3; set_solver). clear -E1' E2 Hka.
      rewrite elem_of_union, elem_of_singleton. destruct (decide (ref = key)) as [->|]; tauto. }
  destruct (store_success (st_status x)) eqn:Es.
  - apply (Hgo _ (key :: good) bad); [|done]. split; cbn [pr_successful pr_stored pr_already_present pr_failed].
    + rewrite C1. done.
    + cbn [length]. destruct (_ =? _)%Z; lia.
    + done.
    + constructor; [|done]. apply Hv; [by left|done..].
  - apply (Hgo _ good (key :: bad)); [|by rewrite Permutation_middle]. split; cbn [pr_successful pr_stored pr_already_present pr_failed]; try done.
    rewrite length_app. cbn. lia.
Qed.

Lemma probe_answers missing : probe_missing_shards (se_probe env) refs = Ok missing → Forall valid_ref missing.
Proof.
  unfold probe_missing_shards. destruct (_dedupe_refs refs); [intros [= <-]; constructor|].
  intros (m & _ & Hm%mapM_res_Ok)%bind_Ok. apply Forall_forall. intros ref [i Hi]%list_elem_of_lookup.
  destruct (Forall2_lookup_r _ _ _ _ _ Hm Hi) as (ref0 & _ & Hr). by eapply received_ref_valid.
Qed.

(** A batch counts each of its shards once; a successful index is one the target vouches for. *)
Lemma target_batch_counted :
  NoDup refs →
  let r := _push_target_batch max_message_bytes env address payloads in
  ∃ good bad, counted r good bad ∧ good ++ bad ≡ₚ refs.
Proof.
  intros Hnd. cbn zeta. unfold _push_target_batch. fold refs. destruct (probe_missing_shards _ refs) as [missing|e] eqn:Ep.
  2: { exists [], refs. split; [|done]. split; try done. cbn. unfold _failed_results_for_refs. by rewrite length_fmap. }
  set (keys := list_to_set (filter _ missing) : gset DataPackShardRef).
  set (present := filter (λ ref, ref ∉ keys) refs). set (absent := filter (λ ref, ref ∈ keys) refs).
  assert (∀ ref, ref ∈ keys ↔ ref ∈ missing ∧ ref ∈ refs) as Hkeys.
  { intros ref. unfold keys. rewrite elem_of_list_to_set, list_elem_of_filter, elem_of_list_to_set. tauto. }
  assert (present ++ absent ≡ₚ refs) as Hsplit.
  { unfold present, absent. rewrite Permutation_app_comm. apply filter_app_complement. }
  assert (NoDup absent) as Hna by by apply NoDup_filter.
  assert (size keys = length absent) as Hsize.
  { rewrite <-(size_list_to_set (C := gset DataPackShardRef) absent) by done. f_equal. apply set_eq. intros ref.
    unfold absent. rewrite elem_of_list_to_set, list_elem_of_filter, Hkeys. tauto. }
  match goal with |- context [bool_decide (keys = ∅)] => idtac end.
  set (r0 := {| pr_successful := _; pr_stored := 0; pr_already_present := _; pr_failed := [] |}).
  assert (counted r0 present []) as Hc0.
  { split; cbn; try done.
    - rewrite Hsize, <-Hsplit, length_app. lia.
    - apply Forall_forall. intros ref [Hn Hin]%list_elem_of_filter. left. exists missing. split; [done|]. rewrite Hkeys in Hn. tauto. }
  case_bool_decide as Hempty.
  { exists present, []. split; [done|]. rewrite app_nil_r, <-Hsplit. assert (absent = []) as ->; [|by rewrite app_nil_r].
    apply nil_length_inv. rewrite <-Hsize, Hempty. apply size_empty. }
  set (sent := filter (λ p, py_ref p ∈ keys) payloads).
  assert (py_ref <$> sent = absent) as Hsent by by (unfold sent, absent, refs; rewrite filter_map).
  rewrite Hsent. set (expected := list_to_set absent : gset DataPackShardRef).
  pose proof (take_results_counted expected (stream_results (replicate_shards max_message_bytes (se_store env) sent)) ∅ r0 present []) as Hfold.
  destruct (fold_left _ _ _) as [acked r]. destruct Hfold as (good & bad & Hc & Hgb & _ & Hin).
  - intros result Hr _ Hs. right. exists sent, result. split_and!; [apply sublist_submseteq, sublist_filter|done..].
  - done.
  - rewrite app_nil_r. by apply NoDup_filter.
  - intros ref Hr _. rewrite app_nil_r. unfold expected in Hr. apply elem_of_list_to_set, list_elem_of_filter in Hr as [Hr _].
    unfold present. rewrite list_elem_of_filter. tauto.
  - exists good, (bad ++ filter (λ ref, ref ∉ acked) absent). destruct Hc as [C1 C2 C3 C4]. split.
    + split; try done. cbn. unfold _missing_ack_results, _failed_results_for_refs. rewrite !length_app, length_fmap, C3.
      do 2 f_equal. by rewrite <-Hsent, filter_map.
    + apply NoDup_Permutation; [|done|].
      * rewrite app_assoc. apply NoDup_app. split_and!; [done| |by apply NoDup_filter].
        intros ref Hr [Hn Ha]%list_elem_of_filter. apply Hin in Hr as [Hr|(_ & Hr & _)]; [|done]. rewrite app_nil_r in Hr.
        apply list_elem_of_filter in Hr as [Hr _]. apply list_elem_of_filter in Ha as [Ha _]. done.
      * intros ref. rewrite app_assoc, elem_of_app, Hin, app_nil_r, <-Hsplit, elem_of_app, list_elem_of_filter.
        unfold expected. rewrite elem_of_list_to_set. split; [naive_solver|].
        destruct (decide (ref ∈ acked)); [|naive_solver]. intros [?|?]; [naive_solver|]. left. right. split_and!; [done..|set_solver].
Qed.
End batch.

(** ** What a built pack is *)

Record built (blake3 : bytes → bytes) (pack : EncodedDataPack) : Prop := {
  bp_hash : is_valid_blake3_hex (ep_pack_hash pack) = true;
  bp_spec : (0 < data_shards (ep_spec pack))%Z ∧ (0 <= parity_shards (ep_spec pack))%Z;
  bp_sizes : (0 < ep_shard_size pack)%Z ∧ ep_padded_size pack = (ep_shard_size pack * data_shards (ep_spec pack))%Z
    ∧ (0 <= ep_payload_size pack <= ep_padded_size pack)%Z;
  bp_entries : ep_entries pack ≠ []
    ∧ Forall (λ e, is_valid_blake3_hex (en_chunk_hash e) = true ∧ (0 <= en_offset e)%Z ∧ (0 < en_length e)%Z ∧ (0 <= en_ordinal e)%Z) (ep_entries pack)
    ∧ check_entries 0 0 (ep_entries pack) = Ok (ep_payload_size pack);
  bp_indexes : sh_index <$> ep_shards pack = py_range (total_shards (ep_spec pack));
  bp_shards : Forall (λ s, sh_pack_hash s = ep_pack_hash pack ∧ sh_hash s = hash_bytes blake3 (sh_data s)
    ∧ is_valid_blake3_hex (sh_hash s) = true ∧ Z.of_nat (length (sh_data s)) = ep_shard_size pack) (ep_shards pack) }.

Lemma ec_hash64_inv h h' : ec_require_hash64 h = Ok h' → h' = strip h ∧ is_valid_blake3_hex h' = true.
Proof. unfold ec_require_hash64. destruct (is_valid_blake3_hex (strip h)) eqn:E; [|done]. by intros [= <-]. Qed.

Lemma ec_non_negative_inv z z' : ec_non_negative z = Ok z' → z' = z ∧ (0 <= z)%Z.
Proof. intros H. apply (require_non_negative_Ok (VInt z)) in H as [[= ->] ?]. done. Qed.

Lemma ec_positive_inv z z' : ec_positive z = Ok z' → z' = z ∧ (0 < z)%Z.
Proof. intros H. apply (require_positive_Ok (VInt z)) in H as [[= ->] ?]. done. Qed.

Lemma encode_shards_inv blake3 h size indexes raw shards :
  encode_shards blake3 h size indexes raw = Ok shards →
  sh_index <$> shards = Z.of_nat <$> indexes
  ∧ Forall (λ s, sh_pack_hash s = strip h ∧ sh_hash s = hash_bytes blake3 (sh_data s) ∧ is_valid_blake3_hex (sh_hash s) = true
                 ∧ Z.of_nat (length (sh_data s)) = size) shards.
Proof.
  revert raw shards. induction indexes as [|i indexes IH]; intros [|d raw] shards H; try done; cbn in H; [by injection H as <-|].
  destruct (negb _) eqn:E; [done|]. bool_hyps. apply bind_Ok in H as (s & Hs & H). apply bind_Ok in H as (rest & Hr & H). injection H as <-.
  destruct (IH _ _ Hr) as [Hidx Hf]. unfold shard_from_prehashed in Hs. apply bind_Ok in Hs as (h' & Hh & Hs).
  apply bind_Ok in Hs as (i' & Hi & Hs). apply bind_Ok in Hs as (sh & Hsh & Hs). injection Hs as <-.
  apply ec_hash64_inv in Hh as [-> _], Hsh as [-> Hv]. apply ec_non_negative_inv in Hi as [-> _]. split; [cbn; by f_equal|]. constructor; [|done].
  cbn. assert (strip (hash_bytes blake3 d) = hash_bytes blake3 d) as Es by by apply strip_hex, hexdigest_hex.
  rewrite Es in Hv |- *. by split_and!.
Qed.

Lemma pack_entries_inv off ord chunks entries :
  pack_entries off ord chunks = Ok entries →
  Forall (λ e, is_valid_blake3_hex (en_chunk_hash e) = true ∧ (0 <= en_offset e)%Z ∧ (0 < en_length e)%Z ∧ (0 <= en_ordinal e)%Z) entries
  ∧ en_chunk_hash <$> entries = strip <$> chunks.*1.
Proof.
  revert off ord entries. induction chunks as [|[h d] chunks IH]; intros off ord entries H; cbn in H; [injection H as <-; by split|].
  apply bind_Ok in H as (e & He & H). apply bind_Ok in H as (rest & Hr & H). injection H as <-. destruct (IH _ _ _ Hr) as [Hf Hl].
  unfold make_entry in He. repeat (apply bind_Ok in He as (? & ? & He)). injection He as <-.
  repeat match goal with
  | H : ec_require_hash64 _ = Ok _ |- _ => apply ec_hash64_inv in H as [-> ?]
  | H : ec_non_negative _ = Ok _ |- _ => apply ec_non_negative_inv in H as [-> ?]
  | H : ec_positive _ = Ok _ |- _ => apply ec_positive_inv in H as [-> ?]
  end. split; [by constructor|]. cbn. by rewrite Hl.
Qed.

Lemma check_shards_sizes h total size seen shards :
  check_shards h total size seen shards = Ok () → ∀ s, s ∈ shards → Z.of_nat (length (sh_data s)) = size.
Proof.
  revert seen. induction shards as [|x l IH]; intros seen H s Hin; [by inversion Hin|]. cbn in H.
  case_bool_decide; [done|]. destruct (_ <=? _)%Z; [done|]. case_bool_decide; [done|]. destruct (negb _) eqn:E; [done|]. bool_hyps.
  apply elem_of_cons in Hin as [->|Hin]; [done|]. by eapply IH.
Qed.

Lemma build_built blake3 zencode chunks spec pack :
  (0 < data_shards spec)%Z → (0 <= parity_shards spec)%Z →
  build_from_validated blake3 zencode chunks spec = Ok pack →
  built blake3 pack ∧ ep_spec pack = spec ∧ en_chunk_hash <$> ep_entries pack = strip <$> chunks.*1.
Proof.
  intros Hk Hm. unfold build_from_validated. destruct chunks as [|c0 cs]; [done|]. set (chunks := c0 :: cs). intros H.
  apply bind_Ok in H as (entries & He & H). apply bind_Ok in H as (shards & Hs & H).
  destruct (pack_entries_inv _ _ _ _ He) as [Hef Hel].
  unfold encode in Hs. apply bind_Ok in Hs as ([blocks size] & _ & Hs). cbn in Hs. apply encode_shards_inv in Hs as [Hidx Hsf].
  unfold make_pack in H. apply bind_Ok in H as (h & Hh & H). apply bind_Ok in H as (ps & Hps & H).
  apply bind_Ok in H as (pd & Hpd & H). apply bind_Ok in H as (ss & Hss & H).
  apply ec_hash64_inv in Hh as [-> Hv]. apply ec_non_negative_inv in Hps as [-> ?], Hpd as [-> ?], Hss as [-> ?].
  destruct (negb (_ =? _ * _)%Z) eqn:E1; [done|]. destruct (_ <? _)%Z eqn:E2; [done|]. destruct (negb (_ =? total_shards _)%Z) eqn:E3; [done|].
  apply bind_Ok in H as (pe & Hpe & H). destruct (negb (pe =? _)%Z) eqn:E4; [done|]. apply bind_Ok in H as ([] & Hck & H). injection H as <-. bool_hyps.
  subst pe. split; [|split; [done|]].
  - split; cbn; try done.
    + split_and!; [lia|done|done|done].
    + split_and!; [|done|done]. by destruct entries.
    + assert (sort_shards shards = shards) as ->; [|].
      { apply (sorted_by_key sh_index).
        - apply py_sorted_sorted; [intros x y|intros x y z]; rewrite ?Z.leb_le; lia.
        - apply (StronglySorted_fmap_inv Z.lt sh_index). rewrite Hidx. apply py_range_sorted.
        - apply sort_shards_perm. }
      done.
    + rewrite sort_shards_perm. rewrite Forall_forall in Hsf |- *. intros s Hin. destruct (Hsf s Hin) as (S1 & S2 & S3 & S4). split_and!; try done.
      by apply (check_shards_sizes _ _ _ _ _ Hck).
  - done.
Qed.

(** ** The placements of a pack *)

Lemma placement_lookup ps p :
  NoDup (pl_shard_index <$> ps) → p ∈ ps → placement_by_index ps !! pl_shard_index p = Some p.
Proof.
  unfold placement_by_index. generalize (∅ : gmap Z DataPackShardPlacement). induction ps as [|q ps IH]; intros m Hnd Hin; [by inversion Hin|].
  cbn [fmap list_fmap] in Hnd. apply NoDup_cons in Hnd as [Hq Hnd]. cbn. apply elem_of_cons in Hin as [->|Hin]; [|by apply IH].
  clear IH. assert (∀ m : gmap Z DataPackShardPlacement, m !! pl_shard_index q = Some q →
    fold_left (λ (m : gmap Z DataPackShardPlacement) p, <[pl_shard_index p := p]> m) ps m !! pl_shard_index q = Some q) as H; [|apply H, lookup_insert_eq].
  clear m Hnd. induction ps as [|x ps IH]; intros m Hm; [done|]. cbn in *. apply IH; [set_solver|].
  rewrite lookup_insert_ne; [done|]. intros E. apply Hq. rewrite <-E. by left.
Qed.

Lemma over_placements {B} (f : DataPackShard → DataPackShardPlacement → res B) (g : DataPackShard → DataPackShardPlacement → B) shards ps (m : gmap Z DataPackShardPlacement) :
  sh_index <$> shards = pl_shard_index <$> ps → (∀ p, p ∈ ps → m !! pl_shard_index p = Some p) →
  (∀ s p, s ∈ shards → f s p = Ok (g s p)) →
  mapM_res (λ s, match m !! sh_index s with None => Err KeyError | Some p => f s p end) shards = Ok (zip_with g shards ps).
Proof.
  revert ps. induction shards as [|s shards IH]; intros [|p ps] Hidx Hm Hf; try done. cbn [fmap list_fmap] in Hidx. injection Hidx as Hi Hidx.
  cbn [mapM_res]. rewrite Hi, (Hm p) by (by left). rewrite Hf by (by left). cbn [mbind res_bind].
  rewrite (IH ps); [done|done|intros; apply Hm; by right|intros; apply Hf; by right].
Qed.

Definition payload_of (s : DataPackShard) : RemoteDataPackShardPayload := {|
  py_ref := {| rf_pack_hash := sh_pack_hash s; rf_shard_index := sh_index s; rf_shard_hash := sh_hash s |}; py_data := sh_data s |}.

(** The placements of the pack: one per shard, in order. *)
Definition placed_for (pack : EncodedDataPack) (ps : list DataPackShardPlacement) : Prop :=
  pl_shard_index <$> ps = py_range (total_shards (ep_spec pack)).

Section placed.
Context (blake3 : bytes → bytes) (pack : EncodedDataPack) (ps : list DataPackShardPlacement).
Context (Hb : built blake3 pack) (Hps : placed_for pack ps).

Lemma placed_indexes : sh_index <$> ep_shards pack = pl_shard_index <$> ps.
Proof. rewrite Hps. apply Hb. Qed.

Lemma NoDup_py_range n : NoDup (py_range n).
Proof. apply NoDup_fmap_2; [intros ? ?; lia|apply NoDup_seq]. Qed.

Lemma placed_lookup p : p ∈ ps → placement_by_index ps !! pl_shard_index p = Some p.
Proof. apply placement_lookup. rewrite Hps. apply NoDup_py_range. Qed.

Lemma shard_in_range s : s ∈ ep_shards pack → (0 <= sh_index s < total_shards (ep_spec pack))%Z.
Proof. intros Hin. apply elem_of_py_range. rewrite <-(bp_indexes _ _ Hb). apply list_elem_of_fmap. by exists s. Qed.

Lemma payload_ref_valid s : s ∈ ep_shards pack → valid_ref (py_ref (payload_of s)) ∧ sh_data s ≠ [].
Proof.
  intros Hin. pose proof (bp_shards _ _ Hb) as Hs. rewrite Forall_forall in Hs. destruct (Hs s Hin) as (E1 & E2 & E3 & E4).
  destruct (bp_sizes _ _ Hb) as (Hpos & _). pose proof (shard_in_range s Hin). split; [|intros E; rewrite E in E4; cbn in E4; lia].
  split_and!; cbn; [rewrite E1; apply Hb|done|lia].
Qed.

Lemma shard_payload_Ok s : s ∈ ep_shards pack → shard_payload pack s = Ok (payload_of s).
Proof.
  intros Hin. destruct (payload_ref_valid s Hin) as [Hv Hd]. unfold shard_payload.
  pose proof (bp_shards _ _ Hb) as Hs. rewrite Forall_forall in Hs. destruct (Hs s Hin) as (E1 & _). rewrite <-E1.
  pose proof (received_ref_id _ Hv) as E. unfold received_ref in E. cbn in E. rewrite E. cbn [mbind res_bind]. unfold make_payload. by rewrite bool_decide_false.
Qed.

Lemma addressed_Ok : addressed_payloads pack ps = Ok (zip_with (λ s p, (pl_address p, payload_of s)) (ep_shards pack) ps).
Proof.
  apply (over_placements (λ s p, payload ← shard_payload pack s; Ok (pl_address p, payload))); [apply placed_indexes|apply placed_lookup|].
  intros s p Hin. by rewrite shard_payload_Ok.
Qed.

Lemma metadata_rows_Ok : _data_pack_metadata_rows pack ps
  = Ok (entry_row <$> ep_entries pack, zip_with (λ s p, (sh_index s, sh_hash s, pl_node_id p, Z.of_nat (length (sh_data s)))) (ep_shards pack) ps).
Proof.
  unfold _data_pack_metadata_rows.
  rewrite (over_placements (λ s p, Ok _) (λ s p, (sh_index s, sh_hash s, pl_node_id p, Z.of_nat (length (sh_data s)))) (ep_shards pack) ps);
    [done|apply placed_indexes|apply placed_lookup|done].
Qed.
End placed.

(** ** All batches *)

(** Grouping by key loses nothing. *)
Lemma grouped_perm {V} (pairs : list (pystr * V)) keys :
  NoDup keys → (∀ kv, kv ∈ pairs → kv.1 ∈ keys) →
  concat ((λ a, filter (λ kv : pystr * V, kv.1 = a) pairs) <$> keys) ≡ₚ pairs.
Proof.
  intros Hnd. revert pairs. induction Hnd as [|a keys Ha Hnd IH]; intros pairs Hin; cbn [fmap list_fmap concat].
  - destruct pairs as [|kv pairs]; [done|]. specialize (Hin kv (list_elem_of_here _ _)). by inversion Hin.
  - etrans; [|apply (filter_app_complement (λ kv, kv.1 = a) pairs)]. apply Permutation_app_head.
    rewrite <-(IH (filter (λ kv, kv.1 ≠ a) pairs)).
    + apply reflexive_eq. f_equal. apply list_fmap_ext. intros i b Hb%list_elem_of_lookup_2. rewrite list_filter_filter.
      apply list_filter_iff. intros kv. split; [intros <-; split; [done|]|tauto]. intros E. by rewrite E in Hb.
    + intros kv [Hn Hkv]%list_elem_of_filter. apply Hin in Hkv as [?|?]%elem_of_cons; done.
Qed.

Lemma merged_counts (P : DataPackShardRef → Prop) max run batches r0 good0 bad0 :
  (∀ batch, batch ∈ batches → ∃ good bad, counted max (run batch.1) batch.2 (batch_result max run batch) good bad
     ∧ good ++ bad ≡ₚ py_ref <$> batch.2 ∧ Forall P good) →
  pr_successful r0 = list_to_set (rf_shard_index <$> good0) →
  (pr_stored r0 + pr_already_present r0 = Z.of_nat (length good0))%Z → length (pr_failed r0) = length bad0 → Forall P good0 →
  let r := fold_left (λ r batch, merge_push_result r (batch_result max run batch)) batches r0 in
  ∃ good bad, pr_successful r = list_to_set (rf_shard_index <$> good)
    ∧ (pr_stored r + pr_already_present r = Z.of_nat (length good))%Z ∧ length (pr_failed r) = length bad ∧ Forall P good
    ∧ good ++ bad ≡ₚ (good0 ++ bad0) ++ (py_ref <$> concat batches.*2).
Proof.
  cbn zeta. revert r0 good0 bad0. induction batches as [|batch batches IH]; intros r0 good0 bad0 Hb H1 H2 H3 H4.
  { exists good0, bad0. split_and!; try done. cbn. by rewrite app_nil_r. }
  destruct (Hb batch (list_elem_of_here _ _)) as (g & b & [C1 (C2 & _ & _) C3 _] & HP & Hg). cbn [fold_left].
  destruct (IH (merge_push_result r0 (batch_result max run batch)) (good0 ++ g) (bad0 ++ b)) as (good & bad & R1 & R2 & R3 & R4 & R5).
  - intros x Hx. apply Hb. by right.
  - cbn. rewrite H1, C1, fmap_app, list_to_set_app_L. done.
  - cbn. rewrite length_app. lia.
  - cbn. rewrite !length_app. lia.
  - by apply Forall_app.
  - exists good, bad. split_and!; try done. rewrite R5. cbn [fmap list_fmap concat]. rewrite fmap_app, <-HP.
    rewrite <-!app_assoc. apply Permutation_app_head. rewrite !app_assoc. apply Permutation_app_tail. solve_Permutation.
Qed.

(** ** What a push result says *)

Section pushed.
Context (blake3 : bytes → bytes) (max_message_bytes : Z) (pack : EncodedDataPack) (ps : list DataPackShardPlacement).
Context (run : pystr → ShardTargetEnv).
Context (complete : list (pystr * list RemoteDataPackShardPayload) → list (pystr * list RemoteDataPackShardPayload)).
Context (Hb : built blake3 pack) (Hps : placed_for pack ps) (Hcomplete : ∀ l, complete l ≡ₚ l).

Notation ref_of s := (py_ref (payload_of s)).
Notation total := (total_shards (ep_spec pack)).

(** The target of the placement vouches for the shard. *)
Definition delivered (s : DataPackShard) (p : DataPackShardPlacement) : Prop :=
  ∃ payloads, ref_of s ∈ py_ref <$> payloads ∧ Forall valid_ref (py_ref <$> payloads)
    ∧ vouched max_message_bytes (run (pl_address p)) payloads (ref_of s).

Notation pairs := (zip_with (λ s p, (pl_address p, payload_of s)) (ep_shards pack) ps).

Lemma length_placed : length (ep_shards pack) = length ps.
Proof. by rewrite <-(length_fmap sh_index), (placed_indexes blake3 pack ps Hb Hps), length_fmap. Qed.

Lemma pairs_refs : py_ref <$> pairs.*2 = (λ s, ref_of s) <$> ep_shards pack.
Proof.
  pose proof length_placed as Hl. revert Hl. generalize (ep_shards pack) as shards. clear. intros shards. revert ps.
  induction shards as [|s shards IH]; intros [|p ps'] Hl; try done. cbn. f_equal. apply IH. by injection Hl.
Qed.

Lemma elem_of_pairs a x : (a, x) ∈ pairs → ∃ s p, s ∈ ep_shards pack ∧ p ∈ ps ∧ sh_index s = pl_shard_index p ∧ a = pl_address p ∧ x = payload_of s.
Proof.
  intros [i Hi]%list_elem_of_lookup. apply lookup_zip_with_Some in Hi as (s & p & [= -> ->] & Hs & Hp). exists s, p.
  split_and!; [by eapply list_elem_of_lookup_2|by eapply list_elem_of_lookup_2| |done|done].
  pose proof (placed_indexes blake3 pack ps Hb Hps) as E. apply (f_equal (lookup i)) in E. rewrite !list_lookup_fmap, Hs, Hp in E. by injection E.
Qed.

Lemma refs_distinct : NoDup ((λ s, ref_of s) <$> ep_shards pack).
Proof.
  apply (NoDup_fmap_1 rf_shard_index). rewrite <-list_fmap_compose.
  rewrite (list_fmap_ext _ sh_index) by done. rewrite (bp_indexes _ _ Hb). apply NoDup_py_range.
Qed.

(** A push of a pack always returns, whatever the targets answer and in whatever order
    they finish. It counts each shard of the pack exactly once, as stored, already present or
    failed; there is one successful index for each shard that did not fail; and a successful
    index is the index of a shard for which the node of its own placement vouched: it did not
    report the shard as missing, or acknowledged it. *)
Theorem push_counts_every_shard :
  ∃ r, push_data_pack_shards max_message_bytes pack ps run complete = Ok r
    ∧ (pr_stored r + pr_already_present r + failed_shards r = total)%Z
    ∧ (Z.of_nat (size (pr_successful r)) + failed_shards r = total)%Z
    ∧ ∀ i, i ∈ pr_successful r → ∃ s p, s ∈ ep_shards pack ∧ p ∈ ps ∧ sh_index s = i ∧ pl_shard_index p = i ∧ delivered s p.
Proof.
  unfold push_data_pack_shards, _target_batches. rewrite (addressed_Ok blake3 pack ps Hb Hps). cbn [mbind res_bind].
  set (keys := py_sorted str_leb (ordered_unique pairs.*1)).
  set (batches := (λ a, (a, (filter (λ kv : pystr * RemoteDataPackShardPayload, kv.1 = a) pairs).*2)) <$> keys).
  assert (∀ a l, (a, l) ∈ batches → l = (filter (λ kv : pystr * RemoteDataPackShardPayload, kv.1 = a) pairs).*2) as Hbatch.
  { intros a l (b & [= -> ->] & _)%list_elem_of_fmap. done. }
  assert (concat batches.*2 ≡ₚ pairs.*2) as Hall.
  { unfold batches. rewrite <-list_fmap_compose.
    etrans; [|apply (fmap_Permutation snd), (grouped_perm pairs keys)].
    - apply reflexive_eq. clear. induction keys as [|a keys IH]; [done|]. cbn [fmap list_fmap concat]. by rewrite fmap_app, IH.
    - unfold keys. rewrite py_sorted_perm. apply NoDup_ordered_unique.
    - intros kv Hkv. unfold keys. rewrite elem_of_py_sorted, elem_of_ordered_unique. apply list_elem_of_fmap. by exists kv. }
  set (P := λ ref, ∃ s p, s ∈ ep_shards pack ∧ p ∈ ps ∧ sh_index s = pl_shard_index p ∧ ref = ref_of s ∧ delivered s p).
  destruct (merged_counts P max_message_bytes run (complete batches) empty_push_result [] []) as (good & bad & R1 & R2 & R3 & R4 & R5); try done.
  { intros [a l] Hin. rewrite Hcomplete in Hin. apply Hbatch in Hin as El. cbn [fst snd].
    assert (∀ x, x ∈ l → ∃ s p, s ∈ ep_shards pack ∧ p ∈ ps ∧ sh_index s = pl_shard_index p ∧ a = pl_address p ∧ x = payload_of s) as Hl.
    { intros x Hx. rewrite El in Hx. apply list_elem_of_fmap in Hx as ([a' x'] & -> & [Ea Hx]%list_elem_of_filter). cbn in Ea. subst a'.
      by apply elem_of_pairs. }
    assert (Forall valid_ref (py_ref <$> l)) as Hv.
    { apply Forall_fmap, Forall_forall. intros x Hx. destruct (Hl x Hx) as (s & p & Hs & _ & _ & _ & ->).
      by apply (payload_ref_valid blake3 pack Hb). }
    assert (NoDup (py_ref <$> l)) as Hnd.
    { rewrite El. eapply sublist_NoDup; [|do 2 apply sublist_fmap; apply sublist_filter]. rewrite pairs_refs. apply refs_distinct. }
    unfold batch_result. cbn [fst snd]. destruct (se_task_fails (run a)).
    - exists [], (py_ref <$> l). split_and!; [|done|constructor]. split; try done. cbn. unfold _failed_results_for_refs. by rewrite length_fmap.
    - destruct (target_batch_counted max_message_bytes (run a) a l Hnd) as (g & b & Hc & Hgb). exists g, b. split_and!; [done|done|].
      pose proof (ct_vouched _ _ _ _ _ _ Hc) as Hvou. rewrite Forall_forall in Hvou |- *. intros ref Hr.
      assert (ref ∈ py_ref <$> l) as Hrl by (rewrite <-Hgb; apply elem_of_app; by left).
      apply list_elem_of_fmap in Hrl as (x & -> & Hx). destruct (Hl x Hx) as (s & p & ? & ? & ? & -> & ->).
      exists s, p. split_and!; try done. exists l. split_and!; [|done|by apply Hvou]. apply list_elem_of_fmap. by exists (payload_of s). }
  cbn [app] in R5. rewrite Hcomplete, Hall, pairs_refs in R5.
  assert (NoDup good) as Hng.
  { eapply sublist_NoDup; [|apply (sublist_inserts_r bad); reflexivity]. rewrite R5. apply refs_distinct. }
  assert (length good + length bad = Z.to_nat total) as Hlen.
  { rewrite <-length_app, R5, length_fmap, <-(length_fmap sh_index), (bp_indexes _ _ Hb). unfold py_range. by rewrite length_fmap, length_seq. }
  assert (0 <= total)%Z as Ht by (destruct (bp_spec _ _ Hb); unfold total_shards; lia).
  eexists. split; [done|]. unfold failed_shards. cbn [pr_stored pr_already_present pr_failed pr_successful]. rewrite length_py_sorted, R3. split_and!.
  - lia.
  - rewrite R1, size_list_to_set, length_fmap; [lia|].
    eapply (sublist_NoDup _ (rf_shard_index <$> (good ++ bad))); [|apply sublist_fmap, sublist_inserts_r; reflexivity].
    rewrite R5, <-list_fmap_compose, (list_fmap_ext _ sh_index) by done. rewrite (bp_indexes _ _ Hb). apply NoDup_py_range.
  - intros i Hi. rewrite R1 in Hi. apply elem_of_list_to_set, list_elem_of_fmap in Hi as (ref & -> & Hr).
    rewrite Forall_forall in R4. destruct (R4 _ Hr) as (s & p & ? & ? & E & -> & ?). exists s, p. by split_and!.
Qed.
End pushed.

(** ** Shards in custody

    The targets are nodes of the program: what a target answers comes from its storage
    service, while its store went from one state to a later one. Calls may fail and results
    may be lost. *)

Section custody.
Context (root : pystr) (max_shard_size : Z) (blake3 : bytes → bytes) (exc_text : exn → pystr) (py_repr : pystr → pystr).
Context (cluster_token : pystr).
Notation step := (shard_step root max_shard_size blake3).
Notation sound := (shards_sound root max_shard_size blake3).
Notation ref_of s := (py_ref (payload_of s)).

Definition honest_probe (s0 s1 : ShardFiles) (probe : list DataPackShardRef → res (list DataPackShardRef)) : Prop :=
  ∀ refs l, probe refs = Ok l → ∃ draining md stat_fails s,
     step s0 s ∧ ProbeMissingDataPackShards root py_repr cluster_token draining md stat_fails refs s = (Ok l, s) ∧ step s s1.

Definition shard_answers (s0 s1 : ShardFiles) (env : ShardTargetEnv) : Prop :=
  honest_probe s0 s1 (se_probe env)
  ∧ ∀ sent stream r, se_store env sent = Ok stream → r ∈ ss_results stream → ∃ draining md items broken s rs b s',
     step s0 s ∧ step s' s1 ∧ Forall (λ i, good_shard_env root max_shard_size blake3 i.1) items
     ∧ ReplicateDataPackShards root max_shard_size blake3 exc_text py_repr cluster_token draining md items broken s = (Ok (rs, b), s')
     ∧ r ∈ rs.

Lemma elem_of_dedupe_refs refs ref : ref ∈ _dedupe_refs refs ↔ ref ∈ refs.
Proof.
  unfold _dedupe_refs, ordered_unique_by.
  assert (∀ seen : list (DataPackShardRef * DataPackShardRef), seen.*1 = seen.*2 →
    let l := fold_left (λ seen item, if bool_decide (id item ∈ seen.*1) then seen else seen ++ [(id item, item)]) refs seen in
    ∀ x, x ∈ l.*2 ↔ x ∈ seen.*2 ∨ x ∈ refs) as H.
  { induction refs as [|r refs IH]; intros seen Heq; cbn; [intros x; rewrite elem_of_nil; tauto|].
    intros x. case_bool_decide as Hr.
    - rewrite (IH seen Heq). rewrite elem_of_cons. rewrite Heq in Hr. naive_solver.
    - rewrite IH by (by rewrite !fmap_app, Heq). rewrite fmap_app, elem_of_app, elem_of_cons. cbn. rewrite list_elem_of_singleton. tauto. }
  rewrite (H [] eq_refl). cbn. rewrite elem_of_nil. tauto.
Qed.

Lemma read_results_inv items error results0 result :
  result ∈ stream_results (read_results items error results0) →
  result ∈ results0 ∨ ∃ r, r ∈ items ∧ received_ref (rr_ref r) = Ok (st_ref result) ∧ st_status result = rr_status r.
Proof.
  revert results0. induction items as [|r items IH]; intros results0 Hin; cbn in Hin; [destruct error; by left|].
  destruct (received_ref (rr_ref r)) as [ref|] eqn:Er; [|by left]. destruct (IH _ Hin) as [Hr|(r' & ? & ? & ?)].
  - apply elem_of_app in Hr as [?|Hr]; [by left|]. apply list_elem_of_singleton in Hr as ->. right. exists r. split_and!; [by left|done..].
  - right. exists r'. split_and!; [by right|done..].
Qed.

Lemma shard_stream_success max call sent result :
  result ∈ stream_results (replicate_shards max call sent) → ∃ sent' stream r, call sent' = Ok stream ∧ r ∈ ss_results stream
    ∧ received_ref (rr_ref r) = Ok (st_ref result) ∧ st_status result = rr_status r.
Proof.
  unfold replicate_shards. destruct (_dedupe_payloads sent) as [[|p ordered]|]; [intros H; by inversion H| |intros H; by inversion H].
  destruct (mapM_res _ _); [|intros H; by inversion H]. destruct (call (p :: ordered)) as [stream|] eqn:E; [|intros H; by inversion H].
  intros [H|(r & ? & ? & ?)]%read_results_inv; [by inversion H|]. by exists (p :: ordered), stream, r.
Qed.

(** What the answer to a probe leaves out, the target has; what it lists, the target did not
    have when the probe began. *)
Lemma probed_held s0 s1 probe refs missing :
  honest_probe s0 s1 probe → probe_missing_shards probe refs = Ok missing →
  (∀ ref, ref ∈ refs → valid_ref ref → ref ∉ missing → holds_shard root ref s1)
  ∧ ∀ ref, ref ∈ missing → ¬ holds_shard root ref s0.
Proof.
  intros Hprobe Hm. unfold probe_missing_shards in Hm. pose proof (elem_of_dedupe_refs refs) as Hd.
  destruct (_dedupe_refs _) as [|r0 rs] eqn:E.
  { injection Hm as <-. split; [|intros ref Hr; by inversion Hr]. intros ref Hr. apply Hd in Hr. by inversion Hr. }
  apply bind_Ok in Hm as (l & Hl & Hm). destruct (Hprobe _ _ Hl) as (draining & md & stat_fails & s & Hs0 & Hp & Hs).
  apply probe_call_spec in Hp as [_ Hp].
  assert (missing = l) as ->.
  { apply mapM_res_Ok in Hm. assert (∀ x, x ∈ l → valid_ref x) as Hvl by (intros x Hx; by apply Hp in Hx as (_ & ? & _)).
    clear -Hm Hvl. induction Hm as [|x y l k Hx _ IH]; [done|]. rewrite received_ref_id in Hx by (apply Hvl; by left).
    injection Hx as ->. f_equal. apply IH. intros z Hz. apply Hvl. by right. }
  split.
  - intros ref Hr Hv Hn. apply Hs. unfold holds_shard. apply dec_stable. intros Hno. apply Hn, Hp. by split_and!; [apply Hd| |].
  - intros ref Hr Hh. apply Hp in Hr as (_ & _ & Hn). apply Hn, Hs0, Hh.
Qed.

(** What a target vouches for, it has. *)
Lemma vouched_held max s0 s1 env payloads ref :
  shard_answers s0 s1 env → Forall valid_ref (py_ref <$> payloads) → ref ∈ py_ref <$> payloads →
  vouched max env payloads ref → holds_shard root ref s1.
Proof.
  intros [Hprobe Hstore] Hv Hin. rewrite Forall_forall in Hv. intros [(missing & Hm & Hn)|(sent & result & _ & Hr & <- & Hs)].
  - destruct (probed_held _ _ _ _ _ Hprobe Hm) as [Hh _]. apply Hh; auto.
  - apply shard_stream_success in Hr as (sent' & stream & r & Hc & Hr & Eref & Est). rewrite Est in Hs.
    destruct (Hstore _ _ _ Hc Hr) as (draining & md & items & broken & s & rs & b & s' & _ & Hs1 & Henv & E & Hrs).
    destruct (replicate_call_spec _ _ _ _ _ _ _ _ _ _ _ _ _ _ Henv E) as (_ & _ & _ & Hok).
    destruct (Hok r Hrs Hs) as (item & _ & _ & Hvr & _ & Hh). rewrite received_ref_id in Eref by done. injection Eref as <-. by apply Hs1.
Qed.

(** A pack that a push stores as PLACED is in custody: when what the targets answer comes
    from the storage services of the nodes at their addresses, each shard of the pack is in
    the store of the node it was planned for, those nodes are distinct members other than the
    origin, and the data they hold has the hash of the shard. A pack stored as DEGRADED has
    enough such shards to be rebuilt. *)
Theorem placed_pack_is_held max pack spec cluster origin token ps run complete before after r :
  built blake3 pack → ep_spec pack = spec →
  Forall (λ m, strip (cm_node_id m) = cm_node_id m) (members cluster) →
  plan_data_pack_shard_placement blake3 (ep_pack_hash pack) spec cluster origin token = Ok ps →
  (∀ l, complete l ≡ₚ l) → (∀ a, sound (before a) ∧ step (before a) (after a)) →
  (∀ a, shard_answers (before a) (after a) (run a)) →
  push_data_pack_shards max pack ps run complete = Ok r →
  let state := data_pack_state (Z.of_nat (size (pr_successful r))) (data_shards spec) (total_shards spec) in
  NoDup (pl_node_id <$> ps)
  ∧ (state ≠ FAILED → ∃ held, NoDup (sh_index <$> held) ∧ (data_shards spec <= Z.of_nat (length held))%Z
       ∧ (state = PLACED → Z.of_nat (length held) = total_shards spec)
       ∧ ∀ s, s ∈ held → s ∈ ep_shards pack ∧ ∃ p m data, p ∈ ps ∧ pl_shard_index p = sh_index s
           ∧ m ∈ members cluster ∧ cm_node_id m = pl_node_id p ∧ strip (cm_address m) = pl_address p ∧ pl_node_id p ≠ strip origin
           ∧ after (pl_address p) !! shard_path root (ref_of s) = Some data ∧ blake3_hex_digest blake3 data = sh_hash s).
Proof.
  intros Hb <- Hids Hplan Hc Hstores Hans Hpush state. destruct (bp_spec _ _ Hb) as [Hk Hm].
  assert (0 <= total_shards (ep_spec pack))%Z as Ht by (unfold total_shards; lia).
  destruct (plan_distinct _ _ _ _ _ _ _ Hplan Hids Ht) as (Hidx & Hnd & Hmem).
  assert (placed_for pack ps) as Hps by done.
  destruct (push_counts_every_shard blake3 max pack ps run complete Hb Hps Hc) as (r' & E & _ & _ & Hdel).
  assert (r' = r) as -> by congruence. split; [done|]. intros Hst.
  exists (filter (λ s, sh_index s ∈ pr_successful r) (ep_shards pack)).
  pose proof (bp_indexes _ _ Hb) as Hix.
  assert (NoDup (sh_index <$> filter (λ s, sh_index s ∈ pr_successful r) (ep_shards pack))) as Hndh.
  { eapply sublist_NoDup; [|apply sublist_fmap, sublist_filter]. rewrite Hix. apply NoDup_py_range. }
  assert (length (filter (λ s, sh_index s ∈ pr_successful r) (ep_shards pack)) = size (pr_successful r)) as Hlen.
  { rewrite <-(length_fmap sh_index), <-(size_list_to_set (C := gset Z)) by done. f_equal. apply set_eq. intros i.
    rewrite elem_of_list_to_set, list_elem_of_fmap. split.
    - intros (s & -> & [? _]%list_elem_of_filter). done.
    - intros Hi. destruct (Hdel i Hi) as (s & p & Hs & _ & <- & _). exists s. by rewrite list_elem_of_filter. }
  destruct (data_pack_state_meaning (Z.of_nat (size (pr_successful r))) (data_shards (ep_spec pack)) (total_shards (ep_spec pack))) as (M1 & _ & M3);
    [unfold total_shards; lia|]. fold state in M1, M3.
  split_and!; [done| | |].
  - rewrite Hlen. destruct (decide (Z.of_nat (size (pr_successful r)) < data_shards (ep_spec pack))%Z); [by destruct Hst; apply M1|lia].
  - intros HP%M3. assert (length (filter (λ s, sh_index s ∈ pr_successful r) (ep_shards pack)) ≤ length (ep_shards pack)) by apply length_filter.
    assert (length (ep_shards pack) = Z.to_nat (total_shards (ep_spec pack))) as El.
    { rewrite <-(length_fmap sh_index), Hix. unfold py_range. by rewrite length_fmap, length_seq. }
    lia.
  - intros s [Hi Hs]%list_elem_of_filter. split; [done|]. destruct (Hdel _ Hi) as (s' & p & Hs' & Hp & Ei & Ep & payloads & Hin & Hv & Hvou).
    assert (s' = s) as -> by (apply (NoDup_fmap_eq sh_index (ep_shards pack)); [rewrite Hix; apply NoDup_py_range|done..]).
    destruct (Hmem p Hp) as (Hor & _ & m & Hmm & E1 & E2).
    pose proof (vouched_held _ _ _ _ _ _ (Hans (pl_address p)) Hv Hin Hvou) as [data Hd].
    exists p, m, data. split_and!; try done. destruct (Hstores (pl_address p)) as [Hsound [_ Hkeep]].
    destruct (payload_ref_valid blake3 pack Hb s Hs) as [Hvr _]. by destruct (Hkeep Hsound _ _ Hvr Hd).
Qed.
End custody.
