(* ===== verification/EcPusher.v ===== *)
(** * The erasure-coding push

    [protection/ec/pusher.py] with [metadata_adapter.py]: packs that are due are rebuilt from
    the local store and sent again, and chunks without a pack are put in new ones. Local
    reads, the targets, the order of completion and the clock are arguments; progress,
    printing and the export of metadata after the push are left out. *)

From S2P Require Import Prelude PyStr Common Json Heapq Hrw Cluster Protection Catalog.
From S2P Require Import ProtectionTable Snapshots Scope ErasureTables ErasureScope.
From S2P Require Import Cas StorageNode ShardStore Erasure ErasurePlacement EcRemote EcPush.
From S2P Require Import MembershipModel Membership RemoteContext.

(** ** metadata_adapter.py *)

Definition spec_from_erasure_metadata (pack : ErasureDataPackRecord) : res ErasureSpec :=
  make_spec (VInt (dp_data_shards pack)) (VInt (dp_parity_shards pack)) (dp_codec pack).

Definition manifest_entries_from_erasure_metadata (chunks : list ErasureDataPackChunkRecord) : res (list DataPackEntry) :=
  mapM_res (λ c, make_entry (pc_chunk_hash c) (pc_offset c) (pc_length c) (pc_ordinal c)) chunks.

Definition manifest_from_erasure_metadata (pack : ErasureDataPackRecord) (chunks : list ErasureDataPackChunkRecord)
  : res DataPackManifest :=
  spec ← spec_from_erasure_metadata pack;
  entries ← manifest_entries_from_erasure_metadata chunks;
  make_manifest (dp_pack_hash pack) (dp_payload_size pack) (dp_padded_size pack) (dp_shard_size pack) spec entries.

(** ** pusher.py *)

(** [_MutableErasurePushStats] and, frozen, [ErasurePushStats]. *)
Record ErasurePushStats := {
  attempted_chunks : Z; packed_chunks : Z; placed_chunks : Z; degraded_chunks : Z; failed_chunks : Z;
  missing_local_chunks : Z; attempted_packs : Z; placed_packs : Z; degraded_packs : Z; failed_packs : Z;
  stored_shards : Z; already_present_shards : Z; failed_shards_ : Z; processed_bytes : Z;
  insufficient_remote_targets : bool; remote_candidates : Z; required_remote_targets : Z; interrupted : bool }.

Definition start_stats (attempted candidates required : Z) (insufficient interrupted : bool) : ErasurePushStats := {|
  attempted_chunks := attempted; packed_chunks := 0; placed_chunks := 0; degraded_chunks := 0; failed_chunks := 0;
  missing_local_chunks := 0; attempted_packs := 0; placed_packs := 0; degraded_packs := 0; failed_packs := 0;
  stored_shards := 0; already_present_shards := 0; failed_shards_ := 0; processed_bytes := 0;
  insufficient_remote_targets := insufficient; remote_candidates := candidates; required_remote_targets := required;
  interrupted := interrupted |}.

(** [freeze] *)
Definition freeze (st : ErasurePushStats) (interrupted_ : bool) : ErasurePushStats := {|
  attempted_chunks := attempted_chunks st; packed_chunks := packed_chunks st; placed_chunks := placed_chunks st;
  degraded_chunks := degraded_chunks st; failed_chunks := failed_chunks st; missing_local_chunks := missing_local_chunks st;
  attempted_packs := attempted_packs st; placed_packs := placed_packs st; degraded_packs := degraded_packs st;
  failed_packs := failed_packs st; stored_shards := stored_shards st; already_present_shards := already_present_shards st;
  failed_shards_ := failed_shards_ st; processed_bytes := processed_bytes st;
  insufficient_remote_targets := insufficient_remote_targets st; remote_candidates := remote_candidates st;
  required_remote_targets := required_remote_targets st; interrupted := interrupted_ |}.

(** Additions to the counters of chunks. *)
Definition add_chunks (attempted packed placed degraded failed missing bytes : Z) (st : ErasurePushStats) : ErasurePushStats := {|
  attempted_chunks := attempted_chunks st + attempted; packed_chunks := packed_chunks st + packed;
  placed_chunks := placed_chunks st + placed; degraded_chunks := degraded_chunks st + degraded;
  failed_chunks := failed_chunks st + failed; missing_local_chunks := missing_local_chunks st + missing;
  attempted_packs := attempted_packs st; placed_packs := placed_packs st; degraded_packs := degraded_packs st;
  failed_packs := failed_packs st; stored_shards := stored_shards st; already_present_shards := already_present_shards st;
  failed_shards_ := failed_shards_ st; processed_bytes := processed_bytes st + bytes;
  insufficient_remote_targets := insufficient_remote_targets st; remote_candidates := remote_candidates st;
  required_remote_targets := required_remote_targets st; interrupted := interrupted st |}.
(** Additions to the counters of packs and shards. *)
Definition add_packs (attempted placed degraded failed stored already failed_shards : Z) (st : ErasurePushStats) : ErasurePushStats := {|
  attempted_chunks := attempted_chunks st; packed_chunks := packed_chunks st; placed_chunks := placed_chunks st;
  degraded_chunks := degraded_chunks st; failed_chunks := failed_chunks st; missing_local_chunks := missing_local_chunks st;
  attempted_packs := attempted_packs st + attempted; placed_packs := placed_packs st + placed;
  degraded_packs := degraded_packs st + degraded; failed_packs := failed_packs st + failed;
  stored_shards := stored_shards st + stored; already_present_shards := already_present_shards st + already;
  failed_shards_ := failed_shards_ st + failed_shards; processed_bytes := processed_bytes st;
  insufficient_remote_targets := insufficient_remote_targets st; remote_candidates := remote_candidates st;
  required_remote_targets := required_remote_targets st; interrupted := interrupted st |}.

(** The tables, the counters, the open builder and the updates not yet written. *)
Record PushState := {
  ps_tables : ErasureTables; ps_stats : ErasurePushStats; ps_builder : option DataPackBuilder;
  ps_updates : list ErasureDataPackPushUpdate; ps_errors : list ErasureDataPackPushErrorUpdate }.

Definition with_tables (t : ErasureTables) (s : PushState) : PushState := {|
  ps_tables := t; ps_stats := ps_stats s; ps_builder := ps_builder s; ps_updates := ps_updates s; ps_errors := ps_errors s |}.
Definition with_stats (f : ErasurePushStats → ErasurePushStats) (s : PushState) : PushState := {|
  ps_tables := ps_tables s; ps_stats := f (ps_stats s); ps_builder := ps_builder s; ps_updates := ps_updates s; ps_errors := ps_errors s |}.
Definition with_builder (b : option DataPackBuilder) (s : PushState) : PushState := {|
  ps_tables := ps_tables s; ps_stats := ps_stats s; ps_builder := b; ps_updates := ps_updates s; ps_errors := ps_errors s |}.
Definition with_pending (ups : list ErasureDataPackPushUpdate) (errs : list ErasureDataPackPushErrorUpdate) (s : PushState) : PushState := {|
  ps_tables := ps_tables s; ps_stats := ps_stats s; ps_builder := ps_builder s; ps_updates := ups; ps_errors := errs |}.

(** The surroundings of a push: reading a chunk of the local store; and by the hash of the
    pack that is sent, the targets, the order of completion and the clock. *)
Record ErasurePushEnv := {
  pe_read : pystr → res bytes;
  pe_run : pystr → pystr → ShardTargetEnv;
  pe_complete : pystr → list (pystr * list RemoteDataPackShardPayload) → list (pystr * list RemoteDataPackShardPayload);
  pe_clock : pystr → Q }.

Section push.
Context (blake3 : bytes → bytes) (zencode : Z → Z → list bytes → list nat → list bytes) (exc_text : exn → pystr).
Context (env : ErasurePushEnv) (known : gmap pystr Z).
Context (cluster : ClusterView) (origin_node_id cluster_token : pystr) (max_shard_size max_message_bytes commit_every : Z).

Definition flush_push_updates : SM PushState unit :=
  s ← sget;
  match ps_updates s, ps_errors s with
  | [], [] => mret ()
  | ups, errs =>
      '(_, t) ← slift (apply_erasure_data_pack_push_result_batch ups errs (ps_tables s));
      smodify (with_tables t);;
      smodify (with_pending [] [])
  end.

(** Whether the batch of pending updates is full, and then writes it. *)
Definition flush_when (full : PushState → bool) : SM PushState unit :=
  s ← sget; if full s then flush_push_updates else mret ().

Definition apply_pack_state_to_stats (chunk_count : Z) (protection_state : ProtectionState) : SM PushState unit :=
  match protection_state with
  | PLACED => smodify (with_stats (add_chunks 0 0 chunk_count 0 0 0 0 ∘ add_packs 0 1 0 0 0 0 0))
  | DEGRADED => smodify (with_stats (add_chunks 0 0 0 chunk_count 0 0 0 ∘ add_packs 0 0 1 0 0 0 0))
  | _ => smodify (with_stats (add_chunks 0 0 0 0 chunk_count 0 0 ∘ add_packs 0 0 0 1 0 0 0))
  end.

Definition _push_pack (pack : EncodedDataPack) (placement_epoch : pystr) (refresh_existing : bool)
  : SM PushState ErasureDataPackPushUpdate :=
  slift (validate_data_pack_delivery_limits pack max_shard_size max_message_bytes);;
  smodify (with_stats (add_packs 1 0 0 0 0 0 0));;
  placements ← slift (plan_data_pack_shard_placement blake3 (ep_pack_hash pack) (ep_spec pack) cluster origin_node_id cluster_token);
  (if refresh_existing then mret ()
   else
     s ← sget;
     t ← slift (register_data_pack_metadata known (pe_clock env (ep_pack_hash pack)) pack placements PENDING placement_epoch (ps_tables s));
     smodify (with_tables t));;
  push_result ← slift (push_data_pack_shards max_message_bytes pack placements (pe_run env (ep_pack_hash pack)) (pe_complete env (ep_pack_hash pack)));
  smodify (with_stats (add_packs 0 0 0 0 (pr_stored push_result) (pr_already_present push_result) (failed_shards push_result)));;
  let protection_state := data_pack_state (Z.of_nat (size (pr_successful push_result))) (data_shards (ep_spec pack)) (total_shards (ep_spec pack)) in
  push_update ← slift (build_data_pack_push_update (pe_clock env (ep_pack_hash pack)) pack placements protection_state placement_epoch);
  apply_pack_state_to_stats (Z.of_nat (length (ep_entries pack))) protection_state;;
  mret push_update.

(** The builder as the [DataPackBuilder] of the state. *)
Definition on_builder {A} (m : SM DataPackBuilder A) : SM PushState A := λ s,
  match ps_builder s with
  | None => (Err TypeError, s)
  | Some b => let '(r, b') := m b in (r, with_builder (Some b') s)
  end.

Definition _flush_and_push_pack (placement_epoch : pystr) : SM PushState (option ErasureDataPackPushUpdate) :=
  pack ← on_builder (flush blake3 zencode);
  match pack with
  | None => mret None
  | Some pack => up ← _push_pack pack placement_epoch false; mret (Some up)
  end.

(** What follows it in the loop: the update is pending, and written when the batch is full. *)
Definition keep_update (push_update : option ErasureDataPackPushUpdate) : SM PushState unit :=
  match push_update with
  | None => mret ()
  | Some up =>
      smodify (λ s, with_pending (ps_updates s ++ [up]) (ps_errors s) s);;
      flush_when (λ s, (commit_every <=? Z.of_nat (length (ps_updates s)))%Z)
  end.

Definition _pack_push_error (pack_hash error : pystr) : ErasureDataPackPushErrorUpdate :=
  {| ee_pack_hash := pack_hash; ee_error := take 1800 error |}.

(** The result of reading a chunk: [inl] when its absence or its corruption is tolerated. *)
Definition local_chunk (chunk_hash : pystr) : res ((bool * pystr) + bytes) :=
  match pe_read env chunk_hash with
  | Ok data => Ok (inr data)
  | Err FileNotFoundError => Ok (inl (true, exc_text FileNotFoundError))
  | Err CASMissingChunkError => Ok (inl (true, exc_text CASMissingChunkError))
  | Err CASRepositoryError => Ok (inl (false, exc_text CASRepositoryError))
  | Err CASCorruptionError => Ok (inl (false, exc_text CASCorruptionError))
  | Err e => Err e
  end.

(** The loop over the chunks of a pack: what was read, and the errors. *)
Definition read_pack_chunk (acc : list (pystr * bytes) * list pystr) (chunk : ErasureDataPackChunkRecord)
  : SM PushState (list (pystr * bytes) * list pystr) :=
  data ← slift (local_chunk (pc_chunk_hash chunk));
  match data with
  | inl (true, _) =>
      smodify (with_stats (add_chunks 0 0 0 0 1 1 0));;
      mret (acc.1, acc.2 ++ [u "chunk local ausente: " ++ pc_chunk_hash chunk])
  | inl (false, text) =>
      smodify (with_stats (add_chunks 0 0 0 0 1 0 0));;
      mret (acc.1, acc.2 ++ [u "chunk local ilegible " ++ pc_chunk_hash chunk ++ u ": " ++ text])
  | inr data => mret (acc.1 ++ [(pc_chunk_hash chunk, data)], acc.2)
  end.

Definition is_coding_error (e : exn) : bool :=
  match e with ErasureCodingError | ErasureCodingConfigError | ErasureCodingNetworkError => true | _ => false end.

(** [inl] is an error update, [inr] a push update. *)
Definition _retry_existing_pack (record : ErasureDataPackRecord)
  : SM PushState (Z * (ErasureDataPackPushErrorUpdate + ErasureDataPackPushUpdate)) :=
  s ← sget;
  chunks ← slift (get_erasure_pack_chunks (ps_tables s) (dp_pack_hash record));
  let chunk_count := Z.of_nat (length chunks) in
  let fail_with failed error :=
    smodify (with_stats (add_chunks 0 0 0 0 failed 0 0 ∘ add_packs 0 0 0 1 0 0 0));;
    mret (chunk_count, inl (_pack_push_error (dp_pack_hash record) error)) in
  match chunks with
  | [] => fail_with 0%Z (u "reintento EC imposible: el paquete no tiene chunks registrados")
  | _ =>
      record_spec ← slift (spec_from_erasure_metadata record);
      let record_placement_epoch := placement_epoch_excluding blake3 cluster (total_shards record_spec) cluster_token [origin_node_id] in
      '(materialized_chunks, local_errors) ← sfold read_pack_chunk chunks ([], []);
      match local_errors with
      | _ :: _ => fail_with 0%Z (join_with (u "; ") local_errors)
      | [] =>
          match build_from_validated blake3 zencode materialized_chunks record_spec with
          | Err e =>
              if is_coding_error e
              then fail_with chunk_count (u "reintento EC: no se pudo reconstruir el paquete: " ++ exc_text e)
              else sraise e
          | Ok pack =>
              if bool_decide (ep_pack_hash pack ≠ dp_pack_hash record)
              then fail_with chunk_count (u "reintento EC: la reconstrucci" ++ o_acute ++ u "n no coincide con el pack_hash registrado")
              else
                smodify (with_stats (add_chunks 0 (Z.of_nat (length (ep_entries pack))) 0 0 0 0
                  (Z.of_nat (length (concat materialized_chunks.*2)))));;
                push_update ← _push_pack pack record_placement_epoch true;
                mret (chunk_count, inr push_update)
          end
      end
  end.

(** One turn of the loop over the packs that are due. *)
Definition retry_pack (record : ErasureDataPackRecord) : SM PushState unit :=
  '(pack_chunk_count, retry_update) ← _retry_existing_pack record;
  smodify (with_stats (add_chunks pack_chunk_count 0 0 0 0 0 0));;
  smodify (λ s, match retry_update with
    | inl e => with_pending (ps_updates s) (ps_errors s ++ [e]) s
    | inr up => with_pending (ps_updates s ++ [up]) (ps_errors s) s
    end);;
  flush_when (λ s, (commit_every <=? Z.of_nat (length (ps_updates s) + length (ps_errors s)))%Z).

(** One turn of the loop over the new chunks. *)
Definition push_new_chunk (placement_epoch : pystr) (chunk_hash : pystr) : SM PushState unit :=
  data ← slift (local_chunk chunk_hash);
  match data with
  | inl (true, _) => smodify (with_stats (add_chunks 0 0 0 0 1 1 0))
  | inl (false, _) => smodify (with_stats (add_chunks 0 0 0 0 1 0 0))
  | inr data =>
      exceeds ← on_builder (b ← sget; slift (would_exceed_target (Z.of_nat (length data)) b));
      (if exceeds : bool then push_update ← _flush_and_push_pack placement_epoch; keep_update push_update else mret ());;
      added ← scatch (must_flush ← on_builder (append_validated_chunk (chunk_hash, data)); mret (Some (must_flush : bool)))
                (λ e, if is_coding_error e then Some (mret None) else None);
      match added with
      | None => smodify (with_stats (add_chunks 0 0 0 0 1 0 0))
      | Some must_flush =>
          smodify (with_stats (add_chunks 0 1 0 0 0 0 (Z.of_nat (length data))));;
          if (must_flush : bool) then push_update ← _flush_and_push_pack placement_epoch; keep_update push_update else mret ()
      end
  end.

(** The work of the push once it has its list of packs and chunks. *)
Definition push_work (placement_epoch : pystr) (retry_packs : list ErasureDataPackRecord) (pending_chunks : list pystr)
  : SM PushState unit :=
  sfor retry_pack retry_packs;;
  (match pending_chunks with
   | [] => mret ()
   | _ =>
       sfor (push_new_chunk placement_epoch) pending_chunks;;
       push_update ← _flush_and_push_pack placement_epoch;
       match push_update with
       | None => mret ()
       | Some up => smodify (λ s, with_pending (ps_updates s ++ [up]) (ps_errors s) s)
       end
   end);;
  flush_push_updates.

(** The [except] clauses around the work: what is pending is written before the push ends. *)
Definition guarded_work (work : SM PushState unit) : SM PushState ErasurePushStats :=
  scatch (work;; s ← sget; mret (freeze (ps_stats s) false))
    (λ e, Some (if bool_decide (e = KeyboardInterrupt)
                then flush_push_updates;; s ← sget; mret (freeze (ps_stats s) true)
                else scatch flush_push_updates (λ e', if bool_decide (e' = KeyboardInterrupt) then None else Some (mret ()));; sraise e)).
End push.

(** [push_erasure_data_packs_to_network]; [c] is the rest of the catalogue, which the push does
    not change. An interrupt while the work is being prepared ends it with empty counters. *)
Definition push_erasure_data_packs_to_network (blake3 : bytes → bytes) (zencode : Z → Z → list bytes → list nat → list bytes)
    (exc_text : exn → pystr) (env : ErasurePushEnv) (c : Catalog) (context : res RemoteProtectionContext) (limit : option Z)
    (ec_k ec_m ec_pack_size_bytes target_parallelism max_message_bytes max_shard_size commit_every : Z)
    (scope : option pystr) (snapshot_id : option Z) : SM ErasureTables ErasurePushStats := λ t,
  let prepared : res (ErasureSpec * Z) :=
    spec ← make_spec (VInt ec_k) (VInt ec_m) (u "zfec");
    if (target_parallelism <? 1)%Z then Err ErasureCodingConfigError
    else if (max_shard_size <? 1)%Z then Err ErasureCodingConfigError
    else Ok (spec, Z.max ec_pack_size_bytes 1) in
  match prepared with
  | Err e => (Err e, t)
  | Ok (spec, pack_size) =>
      let selected : res (RemoteProtectionContext * list ErasureDataPackRecord * list pystr) :=
        x ← context;
        let epochs := existing_epochs (context_placement_epoch blake3 x) t in
        retry_packs ← scoped_erasure_push_retry_packs c t scope snapshot_id epochs limit;
        pending_chunks ← scoped_erasure_push_new_chunks c t scope snapshot_id limit;
        Ok (x, retry_packs, pending_chunks) in
      match selected with
      | Err KeyboardInterrupt => (Ok (start_stats 0 0 0 false true), t)
      | Err e => (Err e, t)
      | Ok (x, retry_packs, pending_chunks) =>
          if match retry_packs, pending_chunks with [], [] => true | _, _ => false end
          then (Ok (start_stats 0 (remote_candidate_count x) (total_shards spec) false false), t)
          else
          let required := fold_right Z.max 0%Z
            ((remote_targets_of <$> retry_packs) ++ match pending_chunks with [] => [] | _ => [total_shards spec] end) in
          if (remote_candidate_count x <? required)%Z
          then (Ok (start_stats 0 (remote_candidate_count x) required true false), t)
          else
            let builder := match pending_chunks with
              | [] => None
              | _ => Some {| pb_spec := spec; pb_target_size_bytes := pack_size; pb_chunks := []; pb_current_size := 0 |} end in
            let s0 := {| ps_tables := t;
                         ps_stats := start_stats (Z.of_nat (length pending_chunks)) (remote_candidate_count x) required false false;
                         ps_builder := builder; ps_updates := []; ps_errors := [] |} in
            let commit_every := Z.max commit_every 1 in
            let '(r, s) := guarded_work (push_work blake3 zencode exc_text env (chunks c) (rp_cluster x) (rp_origin_node_id x)
              (rp_cluster_token x) max_shard_size (Z.max max_message_bytes 1) commit_every
              (context_placement_epoch blake3 x (total_shards spec)) retry_packs pending_chunks) s0 in
            (r, ps_tables s)
      end
  end.

(** ** What the push leaves in the catalogue *)

Section outcome.
Context (blake3 : bytes → bytes) (zencode : Z → Z → list bytes → list nat → list bytes) (exc_text : exn → pystr).
Context (env : ErasurePushEnv) (known : gmap pystr Z).
Context (cluster : ClusterView) (origin token : pystr) (max_shard_size max_message_bytes commit_every : Z).
Context (new_spec : ErasureSpec) (Hspec : (0 < data_shards new_spec)%Z ∧ (0 <= parity_shards new_spec)%Z).
Context (t0 : ErasureTables).

Definition epoch_for (spec : ErasureSpec) : pystr := placement_epoch_excluding blake3 cluster (total_shards spec) token [origin].

(** The push sent a pack of that hash in that epoch, each of its shards was delivered, and
    these are its rows. *)
Definition delivered_rows (h epoch : pystr) (total : Z) (rows : list shard_tuple) : Prop :=
  ∃ pack ps r chunks, built blake3 pack ∧ ep_pack_hash pack = h
    ∧ plan_data_pack_shard_placement blake3 h (ep_spec pack) cluster origin token = Ok ps
    ∧ push_data_pack_shards max_message_bytes pack ps (pe_run env h) (pe_complete env h) = Ok r
    ∧ data_pack_state (Z.of_nat (size (pr_successful r))) (data_shards (ep_spec pack)) (total_shards (ep_spec pack)) = PLACED
    ∧ epoch = epoch_for (ep_spec pack) ∧ total = total_shards (ep_spec pack)
    ∧ _data_pack_metadata_rows pack ps = Ok (chunks, rows).

(** A pack that is PLACED was so before, in the same epoch and with its shards where they
    were; or it was delivered to where its shards are now. *)
Definition placed_before (t : ErasureTables) (h : pystr) (r : ErasureDataPackRecord) : Prop :=
  ∃ r0, data_packs t0 !! h = Some r0 ∧ dp_protection_state r0 = PLACED ∧ dp_placement_epoch r0 = dp_placement_epoch r
    ∧ ∀ i, shard_id <$> data_pack_shards t !! (h, i) = shard_id <$> data_pack_shards t0 !! (h, i).
Definition placed_now (t : ErasureTables) (h : pystr) (r : ErasureDataPackRecord) : Prop :=
  ∃ e rows, dp_placement_epoch r = Some e ∧ delivered_rows h e (remote_targets_of r) rows
    ∧ ∀ i s, data_pack_shards t !! (h, i) = Some s → ∃ row row', row ∈ rows ∧ normalize_shard_row row = Ok row'
        ∧ shard_id s = (h, shard_tuple_index row', row'.1.1.2, shard_tuple_node row').
Definition evidence (t : ErasureTables) : Prop :=
  ∀ h r, data_packs t !! h = Some r → dp_protection_state r = PLACED → placed_before t h r ∨ placed_now t h r.
Definition update_evidence (up : ErasureDataPackPushUpdate) : Prop :=
  eu_protection_state up = PLACED →
  ∃ e, eu_placement_epoch up = Some e ∧ delivered_rows (strip (eu_pack_hash up)) e (eu_data_shards up + eu_parity_shards up) (eu_shards up).

(** Nothing about the pack and its shards changed but states, times and errors. *)
Lemma evidence_same t t' h r r' :
  evidence t → data_packs t !! h = Some r → dp_protection_state r' = dp_protection_state r → dp_placement_epoch r' = dp_placement_epoch r →
  remote_targets_of r' = remote_targets_of r → (∀ i, data_pack_shards t' !! (h, i) = data_pack_shards t !! (h, i)) →
  dp_protection_state r' = PLACED → placed_before t' h r' ∨ placed_now t' h r'.
Proof.
  intros Hev Hr Est Eep Ert Hsh Hp. rewrite Est in Hp. destruct (Hev _ _ Hr Hp) as [(r0 & ? & ? & E & Hid)|(e & rows & E & ? & Hrows)].
  - left. exists r0. split_and!; [done|done|by rewrite Eep|]. intros i. by rewrite Hsh.
  - right. exists e, rows. rewrite Eep, Ert. split_and!; [done|done|]. intros i s. rewrite Hsh. apply Hrows.
Qed.

Lemma evidence_register d t t' :
  tables_wf known t → eu_protection_state d = PENDING → register_erasure_data_pack known d t = Ok t' → evidence t → evidence t'.
Proof.
  intros Hwf Hst H Hev. destruct (wf_register _ _ _ _ Hwf H) as (_ & _ & Hsame).
  unfold register_erasure_data_pack in H. apply bind_Ok in H as (d' & Hd & H).
  destruct (normalize_pack_Ok _ _ _ Hd) as (Hn & Eh & Est & _). rewrite Hst in Est. rewrite <-Eh in Hsame.
  destruct (normalized_indexes _ Hn) as [Hnd _]. apply bind_Ok in H as (t1 & H1 & H). apply bind_Ok in H as (t2 & H2 & H).
  apply insert_chunks_spec in H2 as (P1 & P2 & _). apply insert_shards_spec in H as (Q1 & _ & _ & Q4); [|done].
  unfold _insert_erasure_data_pack_once in H1. destruct (data_packs t !! eu_pack_hash d') eqn:E; [by rewrite Hsame|].
  injection H1 as <-. cbn [with_packs data_packs data_pack_shards] in *. rewrite P2 in Q4. destruct Q4 as [Hother _].
  { intros i. destruct (data_pack_shards t !! (_, i)) as [s|] eqn:Es; [|done]. destruct (tw_shards _ _ Hwf _ _ _ Es) as (_ & _ & _ & _ & [? ?]). congruence. }
  intros h r. rewrite Q1, P1. intros [[<- <-]|[Hne Hr]]%lookup_insert_Some; [cbn; by rewrite Est|].
  eapply (evidence_same t); [done|exact Hr|done|done|done|]. intros i. by apply Hother.
Qed.

Lemma evidence_push up t t' :
  update_evidence up → _apply_erasure_data_pack_push_update up t = Ok t' → evidence t → evidence t'.
Proof.
  intros Hup H Hev. unfold _apply_erasure_data_pack_push_update in H. apply bind_Ok in H as (d & Hd & H).
  destruct (normalize_pack_Ok _ _ _ Hd) as (Hn & Eh & Est & _). destruct (data_packs t !! eu_pack_hash d) as [r0|] eqn:Er; [|done].
  destruct (normalized_indexes _ Hn) as [Hnd Hne].
  destruct (normalize_epoch _ _ _ Hd) as (Eep & Ek & Em). destruct (same_definition r0 d) eqn:Esame; [|done]. cbn [negb] in H. apply bind_Ok in H as (? & _ & H). cbn zeta in H. injection H as <-.
  match goal with |- evidence (_upsert_erasure_pack_shards_for_push _ _ _ _ ?t1) =>
    destruct (upsert_written (eu_pack_hash d) (eu_shards d) (eu_protection_state d) (eu_pushed_at d) t1 Hne Hnd) as [Hother Hthis] end.
  intros h r. cbn [_upsert_erasure_pack_shards_for_push with_shards with_packs data_packs].
  intros [[<- <-]|[Hneq Hr]]%lookup_insert_Some; [|by eapply (evidence_same t); [..|intros i; apply Hother]].
  cbn [with_state dp_protection_state dp_placement_epoch]. intros Hp. rewrite Est in Hp. right. destruct (Hup Hp) as (e & Ee & Hdel).
  exists e, (eu_shards up). rewrite Eh. split_and!; [by rewrite Eep| |].
  { unfold remote_targets_of. cbn [with_state dp_data_shards dp_parity_shards]. unfold same_definition in Esame. bool_hyps. congruence. }
  rewrite <-Eh.
  intros i s (row' & Hin & -> & ->)%Hthis. destruct (normalize_pack_shards _ _ _ _ Hd Hin) as (row & Hrow & Enorm). exists row, row'.
  split_and!; [done|done|]. destruct (shard_record_fields (eu_pack_hash d) (eu_protection_state d) (Some (eu_pushed_at d)) row') as (E1 & E2 & E3 & E4).
  unfold shard_id. by rewrite E1, E2, E3, E4.
Qed.

Lemma evidence_error up t t' : _apply_erasure_data_pack_push_error up t = Ok t' → evidence t → evidence t'.
Proof.
  intros H Hev. unfold _apply_erasure_data_pack_push_error in H. repeat (apply bind_Ok in H as (? & _ & H)).
  destruct (data_packs t !! _) as [r0|] eqn:Er; [|done]. injection H as <-.
  intros h r. cbn [with_packs data_packs]. intros [[<- <-]|[_ Hr]]%lookup_insert_Some; by eapply (evidence_same t).
Qed.

Lemma evidence_all {A} (P : A → Prop) (f : A → ErasureTables → res ErasureTables) l t t' :
  (∀ x t t', P x → f x t = Ok t' → evidence t → evidence t') → Forall P l → apply_all f l t = Ok t' → evidence t → evidence t'.
Proof.
  intros Hf Hl. revert t. induction Hl as [|x l Hx _ IH]; intros t H; cbn in H; [by injection H as <-|].
  apply bind_Ok in H as (t1 & H1 & H). intros Hev. by eapply IH, Hf.
Qed.

(** ** The state of the push *)

Definition push_inv (s : PushState) : Prop :=
  evidence (ps_tables s) ∧ Forall update_evidence (ps_updates s) ∧ tables_wf known (ps_tables s) ∧ ∀ b, ps_builder s = Some b → pb_spec b = new_spec.

(** Run in a state with the invariant, [m] reaches another, by calls of the catalogue only,
    whether it raises or not; a value it returns satisfies [P]. *)
Definition push_ok {A} (P : A → Prop) (m : SM PushState A) : Prop := ∀ s, push_inv s →
  let '(r, s') := m s in
  rtc erasure_step (known, ps_tables s) (known, ps_tables s') ∧ push_inv s' ∧ ∀ a, r = Ok a → P a.

Lemma ok_lift {A} (P : A → Prop) (r : res A) : (∀ a, r = Ok a → P a) → push_ok P (slift r).
Proof. by intros H s Hs. Qed.
Lemma ok_ret {A} (P : A → Prop) (a : A) : P a → push_ok P (mret a).
Proof. intros H s Hs. split_and!; [done|done..|]. by intros b [= <-]. Qed.
Lemma ok_raise {A} (P : A → Prop) e : push_ok P (sraise e).
Proof. by intros s Hs. Qed.
Lemma ok_bind {A B} (P : A → Prop) (Q : B → Prop) (m : SM PushState A) (f : A → SM PushState B) :
  push_ok P m → (∀ a, P a → push_ok Q (f a)) → push_ok Q (m ≫= f).
Proof.
  intros Hm Hf s Hs. rewrite sm_bind_spec. specialize (Hm s Hs). destruct (m s) as [[a|e] s1]; destruct Hm as (R1 & I1 & Pa).
  - specialize (Hf a (Pa a eq_refl) s1 I1). destruct (f a s1) as [r s2]. destruct Hf as (R2 & I2 & HQ). split_and!; [by etransitivity|done|done].
  - by split_and!.
Qed.
Lemma ok_weaken {A} (P Q : A → Prop) (m : SM PushState A) : (∀ a, P a → Q a) → push_ok P m → push_ok Q m.
Proof. intros H Hm s Hs. specialize (Hm s Hs). destruct (m s). naive_solver. Qed.
(** Counters and error updates are free. *)
Lemma ok_stats f : push_ok (λ _, True) (smodify (with_stats f)).
Proof. by intros s Hs. Qed.
Lemma ok_pending (f : PushState → list ErasureDataPackPushUpdate) (g : PushState → list ErasureDataPackPushErrorUpdate) :
  (∀ s, push_inv s → Forall update_evidence (f s)) → push_ok (λ _, True) (smodify (λ s, with_pending (f s) (g s) s)).
Proof. intros H s Hs. cbn. split; [done|]. split; [|done]. split; [apply Hs|]. split; [by apply H|apply Hs]. Qed.
Lemma ok_catch {A} (P : A → Prop) (m : SM PushState A) h :
  push_ok P m → (∀ e k, h e = Some k → push_ok P k) → push_ok P (scatch m h).
Proof.
  intros Hm Hh s Hs. unfold scatch. specialize (Hm s Hs). destruct (m s) as [[a|e] s1]; [done|]. destruct Hm as (R1 & I1 & _).
  destruct (h e) as [k|] eqn:E; [|by split_and!]. specialize (Hh e k E s1 I1). destruct (k s1) as [r s2]. destruct Hh as (R2 & ? & ?).
  split_and!; [by etransitivity|done|done].
Qed.
Lemma ok_for {A} (f : A → SM PushState unit) l : (∀ x, push_ok (λ _, True) (f x)) → push_ok (λ _, True) (sfor f l).
Proof. intros H. induction l as [|x l IH]; [by apply ok_ret|]. eapply ok_bind; [apply H|]. by intros _ _. Qed.
Lemma ok_fold {A B} (P : A → Prop) (f : A → B → SM PushState A) l a : (∀ a x, P a → push_ok P (f a x)) → P a → push_ok P (sfold f l a).
Proof. intros H. revert a. induction l as [|x l IH]; intros a Ha; [by apply ok_ret|]. eapply ok_bind; [by apply H|auto]. Qed.
Lemma ok_get {A} (P : A → Prop) (f : PushState → SM PushState A) : (∀ s0, push_ok P (f s0)) → push_ok P (s ← sget; f s).
Proof. intros H s Hs. rewrite sm_bind_spec. cbn [sget]. by apply H. Qed.

(** Writing the pending updates. *)
Lemma ok_flush : push_ok (λ _, True) flush_push_updates.
Proof.
  intros s Hs. unfold flush_push_updates. rewrite sm_bind_spec. cbn [sget].
  assert (let '(r, s') := ('(_, t) ← slift (apply_erasure_data_pack_push_result_batch (ps_updates s) (ps_errors s) (ps_tables s));
      smodify (with_tables t);; smodify (with_pending [] [])) s in
    rtc erasure_step (known, ps_tables s) (known, ps_tables s') ∧ push_inv s' ∧ ∀ a : unit, r = Ok a → True) as H.
  { rewrite sm_bind_spec. cbn [slift]. destruct (apply_erasure_data_pack_push_result_batch _ _ _) as [[n t]|e] eqn:E; [|done].
    assert (erasure_step (known, ps_tables s) (known, t)) as Hstep by by eapply es_push.
    cbn. split; [by apply rtc_once|]. split; [|done]. destruct Hs as (H1 & H2 & H3 & H4).
    split; [|split; [constructor|split; [by apply (erasure_step_wf _ _ Hstep)|done]]]. cbn.
    unfold apply_erasure_data_pack_push_result_batch in E. apply bind_Ok in E as (t1 & E1 & E). apply bind_Ok in E as (t2 & E2 & E).
    injection E as _ <-. eapply (evidence_all (λ _, True)); [intros ? ? ? _; apply evidence_error|by apply Forall_true|done|].
    by eapply (evidence_all update_evidence); [apply evidence_push|..]. }
  destruct (ps_updates s) as [|u us] eqn:E1; [destruct (ps_errors s) as [|e es] eqn:E2; [done|]|]; rewrite <-E1 in *; try rewrite <-E2 in *; exact H.
Qed.

Lemma ok_flush_when full : push_ok (λ _, True) (flush_when full).
Proof. apply ok_get. intros s. destruct (full s); [apply ok_flush|by apply ok_ret]. Qed.

Lemma ok_keep up : (∀ u, up = Some u → update_evidence u) → push_ok (λ _, True) (keep_update commit_every up).
Proof.
  intros H. destruct up as [u|]; [|by apply ok_ret]. eapply ok_bind; [apply ok_pending|intros; apply ok_flush_when].
  intros s (_ & Hu & _). apply Forall_app. split; [done|]. apply Forall_singleton. by apply H.
Qed.

(** Sending a pack. *)
Lemma ok_push_pack pack refresh :
  built blake3 pack → push_ok update_evidence
    (_push_pack blake3 env known cluster origin token max_shard_size max_message_bytes pack (epoch_for (ep_spec pack)) refresh).
Proof.
  intros Hb. unfold _push_pack. eapply (ok_bind (λ _, True)); [by apply ok_lift|intros _ _]. eapply ok_bind; [apply ok_stats|intros _ _].
  eapply (ok_bind (λ ps, plan_data_pack_shard_placement blake3 (ep_pack_hash pack) (ep_spec pack) cluster origin token = Ok ps)); [by apply ok_lift|].
  intros ps Hplan. eapply (ok_bind (λ _, True)).
  { destruct refresh; [by apply ok_ret|]. intros s Hs. rewrite sm_bind_spec. cbn [sget]. rewrite sm_bind_spec. cbn [slift].
    destruct (register_data_pack_metadata _ _ _ _ _ _ _) as [t|e] eqn:E; [|done]. cbn.
    unfold register_data_pack_metadata, _write_data_pack_push_metadata in E. apply bind_Ok in E as (up & Hup & E).
    assert (eu_protection_state up = PENDING) as Hst.
    { unfold build_data_pack_push_update in Hup. apply bind_Ok in Hup as ([? ?] & _ & Hup). by injection Hup as <-. }
    assert (erasure_step (known, ps_tables s) (known, t)) as Hstep by by eapply es_register.
    destruct Hs as (H1 & H2 & H3 & H4). split; [by apply rtc_once|]. split; [|done].
    split; [by eapply evidence_register|split; [done|split; [by apply (erasure_step_wf _ _ Hstep)|done]]]. }
  intros _ _. eapply (ok_bind (λ r, push_data_pack_shards max_message_bytes pack ps (pe_run env (ep_pack_hash pack)) (pe_complete env (ep_pack_hash pack)) = Ok r));
    [by apply ok_lift|intros r Hr]. eapply ok_bind; [apply ok_stats|intros _ _].
  eapply (ok_bind update_evidence); [apply ok_lift|].
  - intros up Hup. unfold build_data_pack_push_update in Hup. apply bind_Ok in Hup as ([chunks shards] & Hrows & Hup). injection Hup as <-.
    intros Hpl. cbn [eu_protection_state eu_placement_epoch eu_pack_hash eu_shards] in *. exists (epoch_for (ep_spec pack)). split; [done|].
    rewrite strip_hex by (pose proof (bp_hash _ _ Hb) as Hv; unfold is_valid_blake3_hex in Hv; by bool_hyps).
    exists pack, ps, r, chunks. by split_and!.
  - intros up Hup. eapply (ok_bind (λ _, True)); [|intros _ _; by apply ok_ret].
    unfold apply_pack_state_to_stats. destruct (data_pack_state _ _ _); apply ok_stats.
Qed.

(** The builder keeps its specification. *)
Lemma ok_builder {A} (P : A → Prop) (m : SM DataPackBuilder A) :
  (∀ b, pb_spec b = new_spec → let '(r, b') := m b in pb_spec b' = new_spec ∧ ∀ a, r = Ok a → P a) → push_ok P (on_builder m).
Proof.
  intros H s Hs. unfold on_builder. destruct (ps_builder s) as [b|] eqn:E; [|done]. destruct Hs as (H1 & H2 & H3 & H4).
  specialize (H b (H4 b E)). destruct (m b) as [r b']. destruct H as [Hb HP]. split; [done|]. split; [|done].
  split; [done|split; [done|split; [done|]]]. by intros b1 [= <-].
Qed.

Lemma make_spec_inv d p c spec : make_spec d p c = Ok spec → (0 < data_shards spec)%Z ∧ (0 <= parity_shards spec)%Z.
Proof.
  unfold make_spec. intros (d' & Hd & H)%bind_Ok. apply bind_Ok in H as (p' & Hp & H). destruct (_ <? _)%Z; [done|]. case_bool_decide; [done|].
  injection H as <-. apply require_positive_Ok in Hd as [_ ?]. by apply require_non_negative_Ok in Hp as [_ ?].
Qed.

Lemma ok_flush_and_push :
  push_ok (λ up, ∀ u, up = Some u → update_evidence u)
    (_flush_and_push_pack blake3 zencode env known cluster origin token max_shard_size max_message_bytes (epoch_for new_spec)).
Proof.
  unfold _flush_and_push_pack. eapply (ok_bind (λ pack, ∀ p, pack = Some p → built blake3 p ∧ ep_spec p = new_spec)).
  - apply ok_builder. intros b Eb. unfold flush. rewrite sm_bind_spec. cbn [sget]. destruct (is_empty b); [split; [done|]; intros a [= <-] p [=]|].
    rewrite sm_bind_spec. cbn [slift]. destruct (build_from_validated _ _ _ _) as [pack|e] eqn:E; cbn; [|done].
    split; [done|]. intros a [= <-] p [= <-]. rewrite Eb in E. by destruct (build_built _ _ _ _ _ (proj1 Hspec) (proj2 Hspec) E) as (? & ? & _).
  - intros [pack|] Hp; [|by apply ok_ret]. destruct (Hp pack eq_refl) as [Hb <-].
    eapply ok_bind; [by apply ok_push_pack|]. intros up Hup. apply ok_ret. by intros u [= <-].
Qed.

Lemma ok_retry record : push_ok (λ _, True)
  (retry_pack blake3 zencode exc_text env known cluster origin token max_shard_size max_message_bytes commit_every record).
Proof.
  unfold retry_pack. eapply (ok_bind (λ x, ∀ u, x.2 = inr u → update_evidence u)).
  - unfold _retry_existing_pack. apply ok_get. intros s0. eapply (ok_bind (λ _, True)); [by apply ok_lift|intros chunks _].
    assert (∀ n failed error, push_ok (λ x : Z * (ErasureDataPackPushErrorUpdate + ErasureDataPackPushUpdate), ∀ u, x.2 = inr u → update_evidence u)
      (smodify (with_stats (add_chunks 0 0 0 0 failed 0 0 ∘ add_packs 0 0 0 1 0 0 0));; mret (n, inl (_pack_push_error (dp_pack_hash record) error)))) as Hfail.
    { intros n failed error. eapply ok_bind; [apply ok_stats|intros _ _]. by apply ok_ret. }
    destruct chunks as [|c0 cs]; [apply Hfail|]. set (chunks := c0 :: cs).
    eapply (ok_bind (λ spec, (0 < data_shards spec)%Z ∧ (0 <= parity_shards spec)%Z)); [apply ok_lift; intros spec; apply make_spec_inv|].
    intros spec [Hk Hm]. eapply (ok_bind (λ _, True)).
    { apply ok_fold; [|done]. intros acc c _. unfold read_pack_chunk. eapply (ok_bind (λ _, True)); [by apply ok_lift|].
      intros [[[] text]|data] _; [eapply ok_bind; [apply ok_stats|intros; by apply ok_ret]..|by apply ok_ret]. }
    intros [materialized errors] _. destruct errors; [|apply Hfail].
    destruct (build_from_validated _ _ _ _) as [pack|e] eqn:E; [|destruct (is_coding_error e); [apply Hfail|apply ok_raise]].
    case_bool_decide; [apply Hfail|]. destruct (build_built _ _ _ _ _ Hk Hm E) as (Hb & Es & _).
    eapply ok_bind; [apply ok_stats|intros _ _]. eapply (ok_bind update_evidence); [rewrite <-Es; by apply ok_push_pack|].
    intros up Hup. apply ok_ret. by intros u [= <-].
  - intros [n up] Hup. eapply ok_bind; [apply ok_stats|intros _ _]. eapply (ok_bind (λ _, True)); [|intros; apply ok_flush_when].
    destruct up as [e|up]; apply ok_pending; intros s (_ & Hu & _); [done|]. apply Forall_app. split; [done|]. apply Forall_singleton. by apply Hup.
Qed.

Lemma ok_new_chunk h : push_ok (λ _, True)
  (push_new_chunk blake3 zencode exc_text env known cluster origin token max_shard_size max_message_bytes commit_every (epoch_for new_spec) h).
Proof.
  assert (push_ok (λ _, True) (push_update ← _flush_and_push_pack blake3 zencode env known cluster origin token max_shard_size max_message_bytes (epoch_for new_spec);
    keep_update commit_every push_update)) as Hflush by (eapply ok_bind; [apply ok_flush_and_push|intros up Hup; by apply ok_keep]).
  unfold push_new_chunk. eapply (ok_bind (λ _, True)); [by apply ok_lift|]. intros [[[] text]|data] _; [apply ok_stats..|].
  eapply (ok_bind (λ _, True)).
  { apply ok_builder. intros b Eb. rewrite sm_bind_spec. by cbn. }
  intros exceeds _. eapply (ok_bind (λ _, True)); [destruct exceeds; [apply Hflush|by apply ok_ret]|intros _ _].
  eapply (ok_bind (λ _, True)).
  { apply ok_catch.
    - eapply (ok_bind (λ _, True)); [|intros; by apply ok_ret]. apply ok_builder. intros b Eb. unfold append_validated_chunk. rewrite sm_bind_spec. cbn [sget].
      rewrite sm_bind_spec. cbn [slift]. destruct (would_exceed_target _ _) as [[]|]; by cbn.
    - intros e k Hk. destruct (is_coding_error e); [|done]. injection Hk as <-. by apply ok_ret. }
  intros [must_flush|] _; [|apply ok_stats]. eapply ok_bind; [apply ok_stats|intros _ _]. destruct must_flush; [apply Hflush|by apply ok_ret].
Qed.

Lemma ok_work retry_packs pending_chunks : push_ok (λ _, True)
  (push_work blake3 zencode exc_text env known cluster origin token max_shard_size max_message_bytes commit_every (epoch_for new_spec) retry_packs pending_chunks).
Proof.
  unfold push_work. eapply ok_bind; [apply ok_for; intros; apply ok_retry|intros _ _]. eapply (ok_bind (λ _, True)); [|intros; apply ok_flush].
  destruct pending_chunks; [by apply ok_ret|]. eapply ok_bind; [apply ok_for; intros; apply ok_new_chunk|intros _ _].
  eapply ok_bind; [apply ok_flush_and_push|]. intros [up|] Hup; [|by apply ok_ret]. apply ok_pending. intros s (_ & Hu & _).
  apply Forall_app. split; [done|]. apply Forall_singleton. by apply Hup.
Qed.

Lemma ok_guarded work : push_ok (λ _, True) work → push_ok (λ _, True) (guarded_work work).
Proof.
  intros Hw. unfold guarded_work. apply ok_catch.
  - eapply ok_bind; [exact Hw|intros _ _]. apply ok_get. intros s. by apply ok_ret.
  - intros e k [= <-]. case_bool_decide.
    + eapply ok_bind; [apply ok_flush|intros _ _]. apply ok_get. intros s. by apply ok_ret.
    + eapply (ok_bind (λ _, True)); [|intros; apply ok_raise]. apply ok_catch; [apply ok_flush|]. intros e' k Hk.
      case_bool_decide; [done|]. injection Hk as <-. by apply ok_ret.
Qed.
End outcome.

(** ** From rows to shards in custody *)

(** The node of a row is a member of the view, other than the origin, and the store at its
    address holds data with the hash of the row. *)
Definition shard_in_custody (blake3 : bytes → bytes) (root : pystr) (cluster : ClusterView) (origin : pystr) (stores : pystr → ShardFiles)
    (h : pystr) (i : Z) (shard_hash node_id : pystr) : Prop :=
  ∃ m data, m ∈ members cluster ∧ cm_node_id m = node_id ∧ node_id ≠ strip origin
    ∧ stores (strip (cm_address m)) !! shard_path root {| rf_pack_hash := h; rf_shard_index := i; rf_shard_hash := shard_hash |} = Some data
    ∧ blake3_hex_digest blake3 data = shard_hash.

Section custody.
Context (blake3 : bytes → bytes) (env : ErasurePushEnv) (cluster : ClusterView) (origin token : pystr) (max_message_bytes : Z).
Context (root : pystr) (max_shard_size : Z) (exc_text : exn → pystr) (py_repr : pystr → pystr).
Context (before after : pystr → pystr → ShardFiles) (final : pystr → ShardFiles).
Notation step := (shard_step root max_shard_size blake3).
Notation sound := (shards_sound root max_shard_size blake3).

(** The targets are nodes: while the pack [h] was sent, the store at an address went from
    [before h] to [after h]. *)
Record honest_targets : Prop := {
  ht_ids : Forall (λ m, strip (cm_node_id m) = cm_node_id m) (members cluster);
  ht_complete h l : pe_complete env h l ≡ₚ l;
  ht_stores h a : sound (before h a) ∧ step (before h a) (after h a) ∧ step (after h a) (final a);
  ht_answers h a : shard_answers root max_shard_size blake3 exc_text py_repr token (before h a) (after h a) (pe_run env h a) }.

Lemma delivered_in_custody h epoch total rows row row' :
  honest_targets → delivered_rows blake3 env cluster origin token max_message_bytes h epoch total rows →
  row ∈ rows → normalize_shard_row row = Ok row' →
  shard_in_custody blake3 root cluster origin final h (shard_tuple_index row') row'.1.1.2 (shard_tuple_node row').
Proof.
  intros [Hids Hc Hst Hans] (pack & ps & r & chunks & Hb & <- & Hplan & Hpush & HP & _ & _ & Hrows) Hrow Hnorm.
  destruct (bp_spec _ _ Hb) as [Hk Hm]. assert (0 <= total_shards (ep_spec pack))%Z as Ht by (unfold total_shards; lia).
  destruct (plan_distinct _ _ _ _ _ _ _ Hplan Hids Ht) as (Hidx & _ & Hmem). assert (placed_for pack ps) as Hps by done.
  rewrite (metadata_rows_Ok blake3 pack ps Hb Hps) in Hrows. injection Hrows as _ <-.
  apply list_elem_of_lookup in Hrow as [j Hj]. apply lookup_zip_with_Some in Hj as (s & p & -> & Hs & Hp).
  pose proof (placed_indexes blake3 pack ps Hb Hps) as E. assert (sh_index s = pl_shard_index p) as Esp.
  { apply (f_equal (lookup j)) in E. rewrite !list_lookup_fmap, Hs, Hp in E. by injection E. }
  apply list_elem_of_lookup_2 in Hs, Hp. destruct (payload_ref_valid blake3 pack Hb s Hs) as [Hv _].
  destruct (placed_pack_is_held root max_shard_size blake3 exc_text py_repr token max_message_bytes pack (ep_spec pack) cluster origin token ps
    (pe_run env (ep_pack_hash pack)) (pe_complete env (ep_pack_hash pack)) (before (ep_pack_hash pack)) (after (ep_pack_hash pack)) r) as [_ Hheld];
    [done|done|done|done|by intros l; apply Hc|intros a; destruct (Hst (ep_pack_hash pack) a) as (? & ? & _); by split|apply Hans|done|].
  destruct Hheld as (held & Hnd & _ & Hlen & Hh); [by rewrite HP|]. specialize (Hlen HP).
  assert (s ∈ held) as Hin.
  { rewrite (submseteq_length_Permutation held (ep_shards pack)); [done| |].
    - apply NoDup_submseteq; [by eapply NoDup_fmap_1|]. intros x Hx. by apply Hh.
    - rewrite <-(length_fmap sh_index (ep_shards pack)), (bp_indexes _ _ Hb). unfold py_range. rewrite length_fmap, length_seq. lia. }
  destruct (Hh s Hin) as (_ & p' & m & data & Hp' & Ep' & Hmm & En & Ea & Hor & Hd & Ehash).
  assert (p' = p) as ->.
  { apply (NoDup_fmap_eq pl_shard_index ps); [rewrite Hps; apply NoDup_py_range|done|done|congruence]. }
  cbn in Hnorm. apply bind_Ok in Hnorm as (i & [-> _]%require_non_negative_int_Ok & Hnorm).
  apply bind_Ok in Hnorm as (hs & [-> Hvs]%require_hash64_Ok & Hnorm). apply bind_Ok in Hnorm as (n & Hn & Hnorm).
  apply bind_Ok in Hnorm as (? & _ & [= <-]). unfold require_non_empty_text in Hn. case_bool_decide; [done|]. injection Hn as <-.
  unfold shard_tuple_index, shard_tuple_node. cbn [fst snd].
  rewrite Forall_forall in Hids. rewrite <-En, (Hids m Hmm), En.
  pose proof (bp_shards _ _ Hb) as Hsh. rewrite Forall_forall in Hsh. destruct (Hsh s Hs) as (Epack & _ & Hvh & _).
  assert (strip (sh_hash s) = sh_hash s) as -> by (apply strip_hex; unfold is_valid_blake3_hex in Hvh; by bool_hyps).
  destruct (Hst (ep_pack_hash pack) (pl_address p)) as (Hs0 & Hstep1 & [Hkeep Hsound]).
  assert (py_ref (payload_of s) = {| rf_pack_hash := ep_pack_hash pack; rf_shard_index := sh_index s; rf_shard_hash := sh_hash s |}) as Eref
    by (unfold payload_of; cbn; by rewrite Epack). rewrite Eref in Hd, Hv.
  destruct (Hkeep _ (mk_is_Some _ _ Hd)) as [data' Hd'].
  exists m, data'. rewrite En, Ea. split_and!; try done.
  apply (Hsound (proj2 Hstep1 Hs0) _ _ Hv Hd').
Qed.
End custody.

(** ** Properties *)

(** Whatever ends a push, its calls of the catalogue are those of [erasure_step], and a pack
    that is PLACED was so before or was delivered. *)
Lemma push_evidence blake3 zencode exc_text env c context limit k m size par maxmsg maxshard commit scope snap t r t' :
  tables_wf (chunks c) t →
  push_erasure_data_packs_to_network blake3 zencode exc_text env c context limit k m size par maxmsg maxshard commit scope snap t = (r, t') →
  rtc erasure_step (chunks c, t) (chunks c, t')
  ∧ ∀ h p, data_packs t' !! h = Some p → dp_protection_state p = PLACED →
      placed_before t t' h p
      ∨ ∃ x, context = Ok x ∧ placed_now blake3 env (rp_cluster x) (rp_origin_node_id x) (rp_cluster_token x) (Z.max maxmsg 1) t' h p.
Proof.
  intros Hwf H. assert (∀ h p, data_packs t !! h = Some p → dp_protection_state p = PLACED → placed_before t t h p) as Hsame.
  { intros h p Hp HP. by exists p. }
  assert (t' = t → rtc erasure_step (chunks c, t) (chunks c, t')
    ∧ ∀ h p, data_packs t' !! h = Some p → dp_protection_state p = PLACED → placed_before t t' h p
      ∨ ∃ x, context = Ok x ∧ placed_now blake3 env (rp_cluster x) (rp_origin_node_id x) (rp_cluster_token x) (Z.max maxmsg 1) t' h p) as Hstay.
  { intros ->. split; [done|]. intros h p Hp HP. left. by apply Hsame. }
  unfold push_erasure_data_packs_to_network in H. cbn zeta in H. revert H.
  destruct (make_spec (VInt k) (VInt m) (u "zfec")) as [spec|e] eqn:Espec; cbn [mbind res_bind]; [|intros [= _ <-]; by apply Hstay].
  destruct (par <? 1)%Z; [intros [= _ <-]; by apply Hstay|]. destruct (maxshard <? 1)%Z; [intros [= _ <-]; by apply Hstay|].
  match goal with |- context [match ?sel with Ok _ => _ | Err _ => _ end] => destruct sel as [[[x packs] new]|e] eqn:Esel end;
    [|destruct e; intros [= _ <-]; by apply Hstay].
  apply bind_Ok in Esel as (x' & Hx & Esel). apply bind_Ok in Esel as (packs' & _ & Esel). apply bind_Ok in Esel as (new' & _ & [= -> -> ->]).
  destruct (match packs with [] => _ | _ => _ end); [intros [= _ <-]; by apply Hstay|].
  destruct (_ <? _)%Z; [intros [= _ <-]; by apply Hstay|].
  match goal with |- context [guarded_work ?w ?s0] => pose proof (ok_guarded blake3 env (chunks c) (rp_cluster x) (rp_origin_node_id x)
    (rp_cluster_token x) (Z.max maxmsg 1) spec t w) as Hok; specialize (Hok); set (start := s0) end.
  destruct (guarded_work _ _) as [r1 s1] eqn:Eg. intros [= -> <-].
  specialize (Hok (ok_work blake3 zencode exc_text env (chunks c) (rp_cluster x) (rp_origin_node_id x) (rp_cluster_token x) maxshard (Z.max maxmsg 1)
    (Z.max commit 1) spec (make_spec_inv _ _ _ _ Espec) t packs new) start).
  rewrite Eg in Hok. destruct Hok as (Hsteps & (Hev & _) & _).
  { split; [|split; [constructor|split; [done|]]].
    - intros h p Hp HP. left. by apply Hsame.
    - intros b. unfold start. cbn. destruct new; [done|]. by intros [= <-]. }
  split; [done|]. intros h p Hp HP. destruct (Hev h p Hp HP) as [|]; [by left|]. right. by exists x.
Qed.

(** C9: What the catalogue calls PLACED is in custody. Whatever ends an erasure-coding push -
    it returns, is interrupted or raises, anywhere - the tables have moved by calls of the
    catalogue only, and every pack that is PLACED in them either was PLACED before the push, in
    the same epoch and with its shards where they were; or was sent by this push, in the
    placement epoch of its width: then it has one row per shard index, in order, each for a
    node of its own, and, when the answers of the targets come from the storage services of
    the nodes, the node of each row is a member of the view other than the origin that holds
    data with the hash of that row. *)
Theorem placed_packs_are_in_custody blake3 zencode exc_text env c context limit k m size par maxmsg maxshard commit scope snap t r t'
    root maxsize exc_text' py_repr before after final :
  rtc erasure_step (∅, empty_tables) (chunks c, t) →
  (∀ x, context = Ok x → honest_targets blake3 env (rp_cluster x) (rp_cluster_token x) root maxsize exc_text' py_repr before after final) →
  push_erasure_data_packs_to_network blake3 zencode exc_text env c context limit k m size par maxmsg maxshard commit scope snap t = (r, t') →
  rtc erasure_step (chunks c, t) (chunks c, t')
  ∧ ∀ h p, data_packs t' !! h = Some p → dp_protection_state p = PLACED →
      placed_before t t' h p
      ∨ ∃ x, context = Ok x ∧ dp_placement_epoch p = Some (context_placement_epoch blake3 x (remote_targets_of p))
          ∧ ps_shard_index <$> shards_of t' h = py_range (remote_targets_of p) ∧ NoDup (ps_node_id <$> shards_of t' h)
          ∧ ∀ s, s ∈ shards_of t' h →
              shard_in_custody blake3 root (rp_cluster x) (rp_origin_node_id x) final h (ps_shard_index s) (ps_shard_hash s) (ps_node_id s).
Proof.
  intros Hreach Hhonest H. destruct (erasure_steps_wf _ _ Hreach (empty_tables_wf _)) as [Hwf _]. cbn [fst snd] in Hwf.
  destruct (push_evidence _ _ _ _ _ _ _ _ _ _ _ _ _ _ _ _ _ _ _ Hwf H) as [Hsteps Hev]. split; [done|]. intros h p Hp HP.
  destruct (erasure_steps_wf _ _ Hsteps Hwf) as [Hwf' _]. cbn [fst snd] in Hwf'.
  destruct (shards_of_indexes _ _ _ _ Hwf' Hp) as (Hidx & Hnd & Hrows).
  destruct (Hev h p Hp HP) as [|(x & Hx & e & rows & Ee & Hdel & Hshards)]; [by left|]. right. exists x. split_and!; try done.
  - rewrite Ee. destruct Hdel as (pack & ps & r0 & cs & _ & _ & _ & _ & _ & -> & -> & _). done.
  - intros s Hs%Hrows. destruct (Hshards _ _ Hs) as (row & row' & Hrow & Hnorm & Eid). unfold shard_id in Eid. injection Eid as E1 E2 E3 E4.
    rewrite E2, E3, E4. eapply delivered_in_custody; [by apply Hhonest|done..].
Qed.

(** ** Witness: one chunk, mirrored on two nodes that already hold it *)

Module EcPusherWitness.
Definition spec : ErasureSpec := {| data_shards := 1; parity_shards := 1; es_codec := u "zfec" |}.
Definition mirror (k n : Z) (blocks : list bytes) (indexes : list nat) : list bytes := (λ _, default [] (head blocks)) <$> indexes.
Definition content : bytes := [Byte.x42].
Definition catalog : Catalog := {|
  snapshots := ∅; snapshot_items := ∅; recipes := ∅; chunks := {[toy_hash := 1%Z]};
  recipe_chunks := ∅; chunk_protection := ∅;
  next_snapshot_id := 1; next_item_id := 1; next_recipe_id := 1 |}.
Definition view : ClusterView :=
  {| self_node_id := Some [97%N];
     members := (λ n, {| cm_node_id := [n]; cm_address := [n; 58%N; 49%N] |}) <$> [97; 98; 99]%N |}.
Definition context : RemoteProtectionContext := {|
  rp_seed := u "seed"; rp_cluster := view; rp_origin_node_id := [97%N]; rp_self_addr := [97%N; 58%N; 49%N];
  rp_cluster_token := toy_token; rp_remote_candidate_node_ids := [[98%N]; [99%N]] |}.
Definition pack_hash : pystr := toy_hash.
Definition shard (i : Z) : DataPackShardRef := {| rf_pack_hash := pack_hash; rf_shard_index := i; rf_shard_hash := toy_hash |}.
Definition held : ShardFiles := <[shard_path (u "/ec") (shard 0) := content]> (<[shard_path (u "/ec") (shard 1) := content]> ∅).
(** The nodes answer probes from their store, and refuse to store. *)
Definition target : ShardTargetEnv := {|
  se_task_fails := false;
  se_probe := λ refs, (ProbeMissingDataPackShards (u "/ec") id toy_token false toy_metadata (λ _, false) refs held).1;
  se_store := λ _, Err OSError |}.
Definition env : ErasurePushEnv := {|
  pe_read := λ _, Ok content; pe_run := λ _ _, target; pe_complete := λ _ l, l; pe_clock := λ _, 7%Q |}.
Definition outcome : res ErasurePushStats * ErasureTables :=
  push_erasure_data_packs_to_network toy_digest mirror (λ _, []) env catalog (Ok context) None 1 1 1000 1 4096 1000 10 None None empty_tables.
End EcPusherWitness.
Import EcPusherWitness.

Lemma mirror_held_sound : shards_sound (u "/ec") 1000 toy_digest held.
Proof.
  intros ref data Hv Hl. unfold held in Hl. assert (valid_ref (shard 0) ∧ valid_ref (shard 1)) as [V0 V1] by by_compute.
  apply lookup_insert_Some in Hl as [[E <-]|[_ Hl]]; [|apply lookup_insert_Some in Hl as [[E <-]|[_ Hl]]; [|done]].
  - apply shard_path_inj in E as <-; [by_compute|done..].
  - apply shard_path_inj in E as <-; [by_compute|done..].
Qed.

Lemma mirror_honest :
  honest_targets toy_digest env view toy_token (u "/ec") 1000 (λ _, []) id (λ _ _, held) (λ _ _, held) (λ _, held).
Proof.
  split.
  - by_compute.
  - done.
  - intros _ _. split; [apply mirror_held_sound|done].
  - intros h a. split; [|done]. intros refs l Hl. exists false, toy_metadata, (λ _, false), held. cbn [se_probe target env pe_run] in Hl.
    destruct (ProbeMissingDataPackShards _ _ _ _ _ _ refs held) as [r s] eqn:E. cbn in Hl. subst r.
    apply probe_call_spec in E as E'. destruct E' as [-> _]. done.
Qed.

Lemma mirror_placed :
  match data_packs outcome.2 !! pack_hash with Some p => bool_decide (dp_protection_state p = PLACED) | None => false end = true.
Proof. vm_compute. reflexivity. Qed.

Lemma placed_packs_are_in_custody_witness : Forall (λ s,
  shard_in_custody toy_digest (u "/ec") view [97%N] (λ _, held) pack_hash (ps_shard_index s) (ps_shard_hash s) (ps_node_id s))
  (shards_of outcome.2 pack_hash).
Proof.
  apply Forall_forall.
  pose proof mirror_placed as Hp. destruct (data_packs outcome.2 !! pack_hash) as [p|] eqn:E; [|discriminate]. apply bool_decide_eq_true in Hp.
  destruct (placed_packs_are_in_custody toy_digest mirror (λ _, []) env catalog (Ok context) None 1 1 1000 1 4096 1000 10 None None empty_tables
    outcome.1 outcome.2 (u "/ec") 1000 (λ _, []) id (λ _ _, held) (λ _ _, held) (λ _, held)) as [_ H].
  - apply rtc_once, es_backup, map_empty_subseteq.
  - intros x Hx. injection Hx as <-. exact mirror_honest.
  - exact (surjective_pairing outcome).
  - destruct (H _ _ E Hp) as [(r0 & Hr0 & _)|(x & Hx & _ & _ & _ & Hs)]; [|injection Hx as <-; exact Hs].
    exfalso. cbn in Hr0. rewrite lookup_empty in Hr0. discriminate.
Defined.
