(* ===== verification/EcVerify.v ===== *)
(** * The verification of erasure-coding packs

    [protection/ec/verifier.py]: the shards of the candidate packs are probed at the addresses
    of their nodes, in batches, and each pack is marked by how many of its shards were found.
    The answers, the order of completion and the clock are arguments; progress, printing and
    the export of metadata are left out. *)

From S2P Require Import Prelude PyStr Common Json Heapq Hrw Cluster Protection Catalog.
From S2P Require Import ProtectionTable Snapshots Scope ErasureTables ErasureScope.
From S2P Require Import Cas StorageNode ShardStore Erasure ErasurePlacement EcRemote EcPush.
From S2P Require Import MembershipModel Membership RemoteContext EcPusher.

Record ErasureVerificationStats := {
  es_candidates : Z; es_verified : Z; es_degraded : Z; es_failed : Z;
  es_rpc_failed_calls : Z; es_rpc_failed_targets : Z; es_rpc_unverified_assignments : Z }.

Definition no_verification : ErasureVerificationStats := {|
  es_candidates := 0; es_verified := 0; es_degraded := 0; es_failed := 0;
  es_rpc_failed_calls := 0; es_rpc_failed_targets := 0; es_rpc_unverified_assignments := 0 |}.

(** Keys are references. *)
Record AddressProbeOutcome := {
  ao_completed_keys : gset DataPackShardRef; ao_missing_keys : gset DataPackShardRef;
  ao_error : option pystr; ao_rpc_failed_calls : Z }.

Record PackVerificationAccumulator := {
  pv_total_shards : Z; pv_verified_shard_indexes : gset Z; pv_errors : list pystr; pv_metadata_complete : bool }.

Definition pv_error_summary (a : PackVerificationAccumulator) : option pystr :=
  match pv_errors a with [] => None | errors => Some (take 1800 (join_with (u "; ") errors)) end.

Definition pv_add_errors (errors : list pystr) (a : PackVerificationAccumulator) : PackVerificationAccumulator := {|
  pv_total_shards := pv_total_shards a; pv_verified_shard_indexes := pv_verified_shard_indexes a;
  pv_errors := pv_errors a ++ errors; pv_metadata_complete := pv_metadata_complete a |}.
Definition pv_add_index (i : Z) (a : PackVerificationAccumulator) : PackVerificationAccumulator := {|
  pv_total_shards := pv_total_shards a; pv_verified_shard_indexes := {[i]} ∪ pv_verified_shard_indexes a;
  pv_errors := pv_errors a; pv_metadata_complete := pv_metadata_complete a |}.

Notation pack_accumulators := (gmap pystr PackVerificationAccumulator).

(** [accumulators[pack_hash]], changed. *)
Definition on_accumulator (h : pystr) (f : PackVerificationAccumulator → PackVerificationAccumulator) (accs : pack_accumulators)
  : res pack_accumulators :=
  match accs !! h with None => Err KeyError | Some a => Ok (<[h := f a]> accs) end.

(** A list of integers as Python prints it. *)
Definition str_of_Zs (l : list Z) : pystr := u "[" ++ join_with (u ", ") (str_of_Z <$> l) ++ u "]".

Definition _erasure_shard_metadata_error (shard_rows : list ErasureDataPackShardRecord) (total_shards : Z) : option pystr :=
  let indexes := py_sorted Z.leb (ps_shard_index <$> shard_rows) in
  if bool_decide (indexes ≠ py_range total_shards)
  then Some (u "metadata EC incoherente: shard_indexes=" ++ str_of_Zs indexes ++ u " expected=" ++ str_of_Zs (py_range total_shards))
  else if negb (length shard_rows =? length (ordered_unique (ps_node_id <$> shard_rows)))%nat
  then Some (u "metadata EC incoherente: los shards deben estar asignados a nodos distintos")
  else None.

Section verifier.
Context (exc_text : exn → pystr) (probe_batch_hashes : Z).

(** What one address answers: to its n-th batch, and whether running its task fails. *)
Record ProbeTargetEnv := {
  te_task_error : option exn;
  te_probe : nat → list DataPackShardRef → res (list DataPackShardRef) }.

(** The loop over the batches. *)
Fixpoint probe_batches (env : ProbeTargetEnv) (n : nat) (batches : list (list DataPackShardRef))
    (completed_keys missing_keys : gset DataPackShardRef) : AddressProbeOutcome :=
  match batches with
  | [] => {| ao_completed_keys := completed_keys; ao_missing_keys := missing_keys; ao_error := None; ao_rpc_failed_calls := 0 |}
  | batch :: batches' =>
      match probe_missing_shards (te_probe env n) batch with
      | Err e => {| ao_completed_keys := completed_keys; ao_missing_keys := missing_keys;
                    ao_error := Some (exc_text e); ao_rpc_failed_calls := 1 |}
      | Ok missing => probe_batches env (S n) batches' (completed_keys ∪ list_to_set batch) (missing_keys ∪ list_to_set missing)
      end
  end.

Definition _probe_address (env : ProbeTargetEnv) (refs : list DataPackShardRef) : AddressProbeOutcome :=
  probe_batches env 0 (iter_batches refs probe_batch_hashes) ∅ ∅.

Definition address_outcome (env : ProbeTargetEnv) (refs : list DataPackShardRef) : AddressProbeOutcome :=
  match te_task_error env with
  | Some e => {| ao_completed_keys := ∅; ao_missing_keys := ∅; ao_error := Some (exc_text e); ao_rpc_failed_calls := 1 |}
  | None => _probe_address env refs
  end.

(** One planned reference: missing, unprobed, or found. *)
Definition take_ref (outcome : AddressProbeOutcome)
    (st : pack_accumulators * list (pystr * list Z) * list DataPackShardRef) (ref : DataPackShardRef)
  : res (pack_accumulators * list (pystr * list Z) * list DataPackShardRef) :=
  let '(accs, missing_by_pack, unprobed_refs) := st in
  if bool_decide (ref ∉ ao_completed_keys outcome) then Ok (accs, missing_by_pack, unprobed_refs ++ [ref])
  else if bool_decide (ref ∈ ao_missing_keys outcome)
  then Ok (accs, extend_group missing_by_pack (rf_pack_hash ref) [rf_shard_index ref], unprobed_refs)
  else
    accs' ← on_accumulator (rf_pack_hash ref) (pv_add_index (rf_shard_index ref)) accs;
    Ok (accs', missing_by_pack, unprobed_refs).

(** The calls that failed, the targets that failed, and the assignments they left unverified. *)
Definition rpc_counts : Type := Z * Z * Z.

(** One completed target. *)
Definition apply_outcome (address : pystr) (planned_refs : list DataPackShardRef) (outcome : AddressProbeOutcome)
    (st : pack_accumulators * rpc_counts) : res (pack_accumulators * rpc_counts) :=
  '(accs, missing_by_pack, unprobed_refs) ←
    fold_left (λ acc ref, acc ≫= λ st, take_ref outcome st ref) planned_refs (Ok (st.1, [], []));
  accs ← fold_left (λ acc g, acc ≫= on_accumulator g.1 (pv_add_errors
           [address ++ u ": missing_shards=" ++ str_of_Zs (py_sorted Z.leb g.2)])) missing_by_pack (Ok accs);
  match ao_error outcome with
  | None => Ok (accs, st.2)
  | Some error =>
      let '(calls, targets, unverified) := st.2 in
      accs ← fold_left (λ acc h, acc ≫= on_accumulator h (pv_add_errors [u "RPC " ++ address ++ u ": " ++ error]))
               (ordered_unique (rf_pack_hash <$> unprobed_refs)) (Ok accs);
      Ok (accs, ((calls + Z.max 1 (ao_rpc_failed_calls outcome))%Z, (targets + 1)%Z,
                 (unverified + Z.of_nat (length unprobed_refs))%Z))
  end.

(** [completed] is the dictionary in the order in which the targets complete. *)
Definition _probe_global_targets (run : pystr → ProbeTargetEnv) (completed : list (pystr * list DataPackShardRef))
    (accs : pack_accumulators) : res (pack_accumulators * rpc_counts) :=
  fold_left (λ acc target, acc ≫= apply_outcome target.1 target.2 (address_outcome (run target.1) target.2))
    completed (Ok (accs, (0, 0, 0)%Z)).

(** One turn of the loop over the candidates. *)
Definition plan_pack (cluster : ClusterView) (shard_rows_by_pack : gmap pystr (list ErasureDataPackShardRecord))
    (st : pack_accumulators * list (pystr * list DataPackShardRef)) (pack : ErasureDataPackRecord)
  : res (pack_accumulators * list (pystr * list DataPackShardRef)) :=
  let shard_rows := default [] (shard_rows_by_pack !! dp_pack_hash pack) in
  let total_shards := remote_targets_of pack in
  let accumulator errors complete := {|
    pv_total_shards := total_shards; pv_verified_shard_indexes := ∅; pv_errors := errors; pv_metadata_complete := complete |} in
  match _erasure_shard_metadata_error shard_rows total_shards with
  | Some error => Ok (<[dp_pack_hash pack := accumulator [error] false]> st.1, st.2)
  | None =>
      '(groups, offline_errors) ← group_erasure_shard_refs_by_address shard_rows (node_addresses cluster) true;
      Ok (<[dp_pack_hash pack := accumulator offline_errors true]> st.1,
          fold_left (λ g target, extend_group g target.1 target.2) groups st.2)
  end.

Record PackVerificationOutcome := {
  po_protection_state : ProtectionState; po_verified_shard_indexes : gset Z; po_error : option pystr }.

Definition pack_outcome (accs : pack_accumulators) (pack : ErasureDataPackRecord) : res PackVerificationOutcome :=
  match accs !! dp_pack_hash pack with
  | None => Err KeyError
  | Some a =>
      let n := Z.of_nat (size (pv_verified_shard_indexes a)) in
      Ok (if negb (pv_metadata_complete a)
          then {| po_protection_state := FAILED; po_verified_shard_indexes := pv_verified_shard_indexes a; po_error := pv_error_summary a |}
          else if (pv_total_shards a <=? n)%Z
          then {| po_protection_state := VERIFIED; po_verified_shard_indexes := pv_verified_shard_indexes a; po_error := None |}
          else {| po_protection_state := data_pack_state n (dp_data_shards pack) (pv_total_shards a);
                  po_verified_shard_indexes := pv_verified_shard_indexes a;
                  po_error := match pv_error_summary a with
                              | Some ((_ :: _) as e) => Some e
                              | _ => Some (u "verified_shards=" ++ str_of_Z n ++ u "/" ++ str_of_Z (pv_total_shards a))
                              end |})
  end.

Definition _verify_candidates (cluster : ClusterView) (run : pystr → ProbeTargetEnv)
    (complete : list (pystr * list DataPackShardRef) → list (pystr * list DataPackShardRef))
    (t : ErasureTables) (candidates : list ErasureDataPackRecord) : res (list PackVerificationOutcome * rpc_counts) :=
  shard_rows_by_pack ← get_erasure_pack_shards_many t (dp_pack_hash <$> candidates);
  '(accs, refs_by_address) ← fold_left (λ acc pack, acc ≫= λ st, plan_pack cluster shard_rows_by_pack st pack) candidates (Ok (∅, []));
  '(accs, counts) ← _probe_global_targets run (complete refs_by_address) accs;
  outcomes ← mapM_res (pack_outcome accs) candidates;
  Ok (outcomes, counts).

Definition pack_update (pack : ErasureDataPackRecord) (outcome : PackVerificationOutcome) : ErasureDataPackVerificationUpdate := {|
  ev_pack_hash := dp_pack_hash pack; ev_protection_state := po_protection_state outcome;
  ev_verified_shard_indexes := py_sorted Z.leb (elements (po_verified_shard_indexes outcome)); ev_error := po_error outcome |}.

(** [ErasureDataPackVerifier.verify] *)
Definition verify (cluster : ClusterView) (run : pystr → ProbeTargetEnv)
    (complete : list (pystr * list DataPackShardRef) → list (pystr * list DataPackShardRef)) (now : Q)
    (candidates : list ErasureDataPackRecord) : SM ErasureTables ErasureVerificationStats := λ t,
  match candidates with
  | [] => (Ok no_verification, t)
  | _ =>
      match _verify_candidates cluster run complete t candidates with
      | Err e => (Err e, t)
      | Ok (outcomes, (calls, targets, unverified)) =>
          let count P := Z.of_nat (length (filter (λ o, P (po_protection_state o) = true) outcomes)) in
          match apply_erasure_data_pack_verifications now (zip_with pack_update candidates outcomes) t with
          | Err e => (Err e, t)
          | Ok (_, t') =>
              (Ok {| es_candidates := Z.of_nat (length candidates);
                     es_verified := count (λ s, bool_decide (s = VERIFIED)); es_degraded := count (λ s, bool_decide (s = DEGRADED));
                     es_failed := count (λ s, negb (bool_decide (s = VERIFIED)) && negb (bool_decide (s = DEGRADED)));
                     es_rpc_failed_calls := calls; es_rpc_failed_targets := targets; es_rpc_unverified_assignments := unverified |}, t')
          end
      end
  end.
End verifier.

Definition verify_erasure_data_packs (exc_text : exn → pystr) (c : Catalog) (context : res RemoteProtectionContext)
    (run : pystr → ProbeTargetEnv) (complete : list (pystr * list DataPackShardRef) → list (pystr * list DataPackShardRef)) (now : Q)
    (include_verified : bool) (limit : option Z) (scope : option pystr) (snapshot_id : option Z) (pack_hash : option pystr)
    (probe_batch_hashes : Z) : SM ErasureTables ErasureVerificationStats :=
  x ← slift context;
  t ← sget;
  candidates ← slift (scoped_erasure_verification_candidates c t scope snapshot_id pack_hash include_verified limit);
  verify exc_text (Z.max 1 probe_batch_hashes) (rp_cluster x) run complete now candidates.

(** ** What one address vouches for *)

(** A loop over a list in the result monad. *)
Lemma fold_res_inv {A B} (f : A → B → res A) (I : list B → A → Prop) l a :
  I [] a → (∀ before x a, x ∈ l → I before a → ∃ a', f a x = Ok a' ∧ I (before ++ [x]) a') →
  ∃ a', fold_left (λ acc x, acc ≫= λ s, f s x) l (Ok a) = Ok a' ∧ I l a'.
Proof.
  intros H0 Hf. assert (∀ before l' a, l = before ++ l' → I before a →
    ∃ a', fold_left (λ acc x, acc ≫= λ s, f s x) l' (Ok a) = Ok a' ∧ I l a') as H; [|by apply (H [])].
  clear H0 a. intros before l'. revert before. induction l' as [|x l' IH]; intros before a E Ha; cbn [fold_left].
  - exists a. split; [done|]. by rewrite E, app_nil_r.
  - destruct (Hf before x a) as (a' & E' & Ha'); [rewrite E; apply elem_of_app; right; by left|done|].
    destruct (IH (before ++ [x]) a') as (a2 & ? & ?); [by rewrite <-app_assoc|done|]. exists a2. split; [|done].
    change (Ok a ≫= λ s, f s x) with (f a x). by rewrite E'.
Qed.

Definition found (outcome : AddressProbeOutcome) (ref : DataPackShardRef) : Prop :=
  ref ∈ ao_completed_keys outcome ∧ ref ∉ ao_missing_keys outcome.

(** The address answers every probe of valid references, and its task runs. *)
Definition answers_all (env : ProbeTargetEnv) : Prop :=
  te_task_error env = None ∧ ∀ n batch, Forall valid_ref batch → is_Some (match te_probe env n batch with Ok l => Some l | Err _ => None end).

Section addresses.
Context (exc_text : exn → pystr) (probe_batch_hashes : Z).

(** What was asked in an answered batch is completed; a missing key was in some answer. *)
Lemma probe_batches_spec env n batches c0 m0 :
  let o := probe_batches exc_text env n batches c0 m0 in
  (∀ ref, ref ∈ ao_completed_keys o → ref ∈ c0 ∨ ∃ n batch missing, ref ∈ batch
     ∧ probe_missing_shards (te_probe env n) batch = Ok missing ∧ ∀ r, r ∈ missing → r ∈ ao_missing_keys o)
  ∧ (∀ ref, ref ∈ ao_missing_keys o → ref ∈ m0 ∨ ∃ n batch missing, probe_missing_shards (te_probe env n) batch = Ok missing ∧ ref ∈ missing)
  ∧ (∀ ref, ref ∈ m0 → ref ∈ ao_missing_keys o)
  ∧ ((∀ n batch, batch ∈ batches → is_Some (match probe_missing_shards (te_probe env n) batch with Ok l => Some l | Err _ => None end)) →
     ∀ ref, ref ∈ c0 ∨ ref ∈ concat batches → ref ∈ ao_completed_keys o).
Proof.
  cbn zeta. revert n c0 m0. induction batches as [|b batches IH]; intros n c0 m0; cbn [probe_batches concat].
  { cbn. split_and!; try tauto. intros _ ref [|H]; [done|by inversion H]. }
  destruct (probe_missing_shards (te_probe env n) b) as [missing|e] eqn:E.
  - destruct (IH (S n) (c0 ∪ list_to_set b) (m0 ∪ list_to_set missing)) as (H1 & H2 & H3 & H4). split_and!.
    + intros ref [[|Hr%elem_of_list_to_set]%elem_of_union|]%H1; [by left| |by right]. right. exists n, b, missing. split_and!; [done|done|].
      intros r Hm. apply H3, elem_of_union. right. by apply elem_of_list_to_set.
    + intros ref [[|Hr%elem_of_list_to_set]%elem_of_union|]%H2; [by left| |by right]. right. by exists n, b, missing.
    + intros ref Hr. apply H3, elem_of_union. by left.
    + intros Hall ref Hr. apply H4; [intros n' b' Hb'; apply Hall; by right|]. rewrite elem_of_union, elem_of_list_to_set. rewrite elem_of_app in Hr. tauto.
  - cbn. split_and!; try tauto. intros Hall. specialize (Hall n b (list_elem_of_here _ _)). rewrite E in Hall. by destruct Hall.
Qed.

(** What an address that answers from its store is found to have, it has; and it is found to
    have what it has, when none of its answers is lost. *)
Lemma address_outcome_held root maxsize blake3 py_repr token s0 s1 env refs ref :
  (∀ n, honest_probe root maxsize blake3 py_repr token s0 s1 (te_probe env n)) → Forall valid_ref refs → ref ∈ refs →
  (found (address_outcome exc_text probe_batch_hashes env refs) ref → holds_shard root ref s1)
  ∧ (answers_all env →
     holds_shard root ref s0 → found (address_outcome exc_text probe_batch_hashes env refs) ref).
Proof.
  intros Hans Hvs Hin. assert (valid_ref ref) as Hv by (rewrite Forall_forall in Hvs; by apply Hvs). unfold address_outcome, _probe_address.
  pose proof (probe_batches_spec env 0 (iter_batches refs probe_batch_hashes) ∅ ∅) as H. cbn zeta in H.
  destruct H as (H1 & H2 & _ & H4). rewrite concat_iter_batches in H4. split.
  - destruct (te_task_error env); [by intros [Hc _]; apply elem_of_empty in Hc|]. intros [Hc Hm].
    apply H1 in Hc as [Hc|(n & batch & missing & Hb & E & Hsub)]; [by apply elem_of_empty in Hc|].
    destruct (probed_held _ _ _ _ _ _ _ _ _ _ (Hans n) E) as [Hh _]. apply (Hh ref); [done|done|]. intros Hr. by apply Hm, Hsub.
  - intros [-> Hall] Hh. split.
    + apply H4; [|by right]. intros n batch Hb. unfold probe_missing_shards. destruct (_dedupe_refs batch) as [|r0 rs] eqn:Ed; [by eexists|].
      destruct (Hall n (r0 :: rs)) as [l Hl].
      { apply Forall_forall. intros r. rewrite <-Ed, (elem_of_dedupe_refs root py_repr token). intros Hr. rewrite Forall_forall in Hvs. apply Hvs.
        rewrite <-(concat_iter_batches refs probe_batch_hashes). apply list_elem_of_In, in_concat. exists batch.
        by rewrite <-!list_elem_of_In. }
      destruct (te_probe env n (r0 :: rs)) as [l'|] eqn:E; [|done]. cbn [mbind res_bind].
      destruct (Hans n _ _ E) as (draining & md & sf & s & _ & Hp & _). apply probe_call_spec in Hp as [_ Hp].
      assert (∀ x, x ∈ l' → valid_ref x) as Hvl by (intros x Hx; by apply Hp in Hx as (_ & ? & _)).
      assert (mapM_res received_ref l' = Ok l') as ->; [|by eexists]. clear -Hvl. induction l' as [|x l' IH]; [done|]. cbn [mapM_res].
      rewrite received_ref_id by (apply Hvl; by left). cbn [mbind res_bind]. rewrite IH; [done|]. intros y Hy. apply Hvl. by right.
    + intros [Hm|(n & batch & missing & E & Hm)]%H2; [by apply elem_of_empty in Hm|].
      destruct (probed_held _ _ _ _ _ _ _ _ _ _ (Hans n) E) as [_ Hn]. by apply (Hn ref).
Qed.
End addresses.

(** ** Accumulators *)

(** The accumulators of the same packs; the indexes added are those of the references in [F]. *)
Definition accs_step (F : DataPackShardRef → Prop) (accs accs' : pack_accumulators) : Prop :=
  ∀ h, match accs !! h, accs' !! h with
       | None, None => True
       | Some a, Some a' => pv_total_shards a' = pv_total_shards a ∧ pv_metadata_complete a' = pv_metadata_complete a
           ∧ ∀ i, i ∈ pv_verified_shard_indexes a' ↔
               i ∈ pv_verified_shard_indexes a ∨ ∃ ref, F ref ∧ rf_pack_hash ref = h ∧ rf_shard_index ref = i
       | _, _ => False
       end.

Lemma accs_step_dom F accs accs' h : accs_step F accs accs' → is_Some (accs' !! h) ↔ is_Some (accs !! h).
Proof. intros H. specialize (H h). destruct (accs !! h), (accs' !! h); try done; split; intros [? ?]; done. Qed.

Lemma accs_step_refl accs : accs_step (λ _, False) accs accs.
Proof. intros h. destruct (accs !! h); [|done]. split_and!; [done|done|]. naive_solver. Qed.

Lemma accs_step_trans F G accs1 accs2 accs3 :
  accs_step F accs1 accs2 → accs_step G accs2 accs3 → accs_step (λ ref, F ref ∨ G ref) accs1 accs3.
Proof.
  intros H1 H2 h. specialize (H1 h). specialize (H2 h). destruct (accs1 !! h), (accs2 !! h), (accs3 !! h); try done.
  destruct H1 as (E1 & E2 & E3), H2 as (E4 & E5 & E6). split_and!; [congruence|congruence|]. intros i. rewrite E6, E3. naive_solver.
Qed.

Lemma accs_step_ext F G accs accs' : (∀ ref, F ref ↔ G ref) → accs_step F accs accs' → accs_step G accs accs'.
Proof.
  intros HFG H h. specialize (H h). destruct (accs !! h), (accs' !! h); try done. destruct H as (? & ? & Hi).
  split_and!; [done|done|]. intros i. rewrite Hi. by setoid_rewrite HFG.
Qed.

Lemma on_accumulator_step h f accs F :
  is_Some (accs !! h) →
  (∀ a, pv_total_shards (f a) = pv_total_shards a ∧ pv_metadata_complete (f a) = pv_metadata_complete a
     ∧ ∀ i, i ∈ pv_verified_shard_indexes (f a) ↔ i ∈ pv_verified_shard_indexes a ∨ ∃ ref, F ref ∧ rf_pack_hash ref = h ∧ rf_shard_index ref = i) →
  (∀ ref, F ref → rf_pack_hash ref = h) →
  ∃ accs', on_accumulator h f accs = Ok accs' ∧ accs_step F accs accs'.
Proof.
  intros [a Ha] Hf HF. unfold on_accumulator. rewrite Ha. eexists. split; [done|]. intros k. destruct (decide (k = h)) as [->|Hk].
  - rewrite Ha, lookup_insert_eq. apply Hf.
  - rewrite lookup_insert_ne by done. destruct (accs !! k); [|done]. split_and!; [done|done|]. intros i. split; [by left|].
    intros [|(ref & Hr & <- & _)]; [done|]. by destruct Hk, (HF _ Hr).
Qed.

Lemma add_errors_step h errors accs :
  is_Some (accs !! h) → ∃ accs', on_accumulator h (pv_add_errors errors) accs = Ok accs' ∧ accs_step (λ _, False) accs accs'.
Proof. intros Hh. apply on_accumulator_step; [done| |done]. intros a. split_and!; [done|done|]. cbn. naive_solver. Qed.

(** Adding errors to some packs. *)
Lemma add_errors_fold {A} (key : A → pystr) (err : A → list pystr) l accs :
  (∀ x, x ∈ l → is_Some (accs !! key x)) →
  ∃ accs', fold_left (λ acc x, acc ≫= on_accumulator (key x) (pv_add_errors (err x))) l (Ok accs) = Ok accs' ∧ accs_step (λ _, False) accs accs'.
Proof.
  intros Hl. apply (fold_res_inv (λ accs x, on_accumulator (key x) (pv_add_errors (err x)) accs) (λ _, accs_step (λ _, False) accs) l accs).
  - apply accs_step_refl.
  - intros _ x accs1 Hx H1. destruct (add_errors_step (key x) (err x) accs1) as (accs2 & -> & H2).
    + by apply (accs_step_dom _ _ _ _ H1), Hl.
    + exists accs2. split; [done|]. eapply accs_step_ext; [|by eapply accs_step_trans]. naive_solver.
Qed.

(** A completed target: the references found are confirmed, and nothing raises. *)
Lemma apply_outcome_spec address refs outcome accs counts :
  (∀ ref, ref ∈ refs → is_Some (accs !! rf_pack_hash ref)) →
  ∃ accs' counts', apply_outcome address refs outcome (accs, counts) = Ok (accs', counts')
    ∧ accs_step (λ ref, ref ∈ refs ∧ found outcome ref) accs accs'.
Proof.
  intros Hrefs. unfold apply_outcome. cbn [fst snd].
  destruct (fold_res_inv (λ st ref, take_ref outcome st ref)
    (λ before st, accs_step (λ ref, ref ∈ before ∧ found outcome ref) accs st.1.1
       ∧ (∀ g, g ∈ st.1.2 → is_Some (accs !! g.1)) ∧ ∀ ref, ref ∈ st.2 → is_Some (accs !! rf_pack_hash ref))
    refs (accs, [], [])) as ([[accs1 missing] unprobed] & -> & (H1 & H2 & H3)).
  { cbn. split; [|split; [intros g Hg; by inversion Hg|intros ref Hr; by inversion Hr]]. eapply accs_step_ext; [|apply accs_step_refl].
    intros ref. split; [done|]. intros [Hr _]. by inversion Hr. }
  { intros before ref [[a m] un] Hin (I1 & I2 & I3). cbn [fst snd] in *. unfold take_ref. case_bool_decide as Hc.
    - eexists. split; [done|]. cbn. split_and!; [|done|].
      + eapply accs_step_ext; [|exact I1]. intros r. rewrite elem_of_app, list_elem_of_singleton. unfold found. naive_solver.
      + intros r [| ->%list_elem_of_singleton]%elem_of_app; auto.
    - case_bool_decide as Hm.
      + eexists. split; [done|]. cbn. split_and!; [| |done].
        * eapply accs_step_ext; [|exact I1]. intros r. rewrite elem_of_app, list_elem_of_singleton. unfold found. naive_solver.
        * intros g [->|(g' & ? & <-)]%extend_group_keys; auto.
      + destruct (on_accumulator_step (rf_pack_hash ref) (pv_add_index (rf_shard_index ref)) a (λ r, r = ref)) as (a' & -> & Ha').
        * by apply (accs_step_dom _ _ _ _ I1), Hrefs.
        * intros a0. split_and!; [done|done|]. intros i. cbn. rewrite elem_of_union, elem_of_singleton. naive_solver.
        * by intros ? ->.
        * eexists. split; [done|]. cbn. split_and!; [|done|done]. eapply accs_step_ext; [|by eapply accs_step_trans].
          intros r. cbn. rewrite elem_of_app, list_elem_of_singleton. unfold found. naive_solver. }
  cbn [mbind res_bind fst snd].
  destruct (add_errors_fold (λ g : pystr * list Z, g.1) (λ g, [address ++ u ": missing_shards=" ++ str_of_Zs (py_sorted Z.leb g.2)]) missing accs1)
    as (accs2 & E2 & Hs2). { intros g Hg. by apply (accs_step_dom _ _ _ _ H1), H2. }
  assert (accs_step (λ ref, ref ∈ refs ∧ found outcome ref) accs accs2) as Hs by (eapply accs_step_ext; [|by eapply accs_step_trans]; naive_solver).
  rewrite E2. destruct (ao_error outcome) as [error|]; [|by exists accs2, counts]. destruct counts as [[calls targets] unverified].
  destruct (add_errors_fold (λ h : pystr, h) (λ h, [u "RPC " ++ address ++ u ": " ++ error]) (ordered_unique (rf_pack_hash <$> unprobed)) accs2)
    as (accs3 & E3 & Hs3).
  { intros h. rewrite elem_of_ordered_unique, list_elem_of_fmap. intros (ref & -> & Hr). by apply (accs_step_dom _ _ _ _ Hs), H3. }
  match goal with |- context [Ok accs2 ≫= ?f] => change (Ok accs2 ≫= f) with (f accs2); cbv beta end.
  rewrite E3. eexists accs3, _. split; [done|]. eapply accs_step_ext; [|by eapply accs_step_trans]. naive_solver.
Qed.

(** ** The loops *)

Section loops.
Context (exc_text : exn → pystr) (probe_batch_hashes : Z) (cluster : ClusterView) (run : pystr → ProbeTargetEnv).
Context (known : gmap pystr Z) (t : ErasureTables) (Hwf : tables_wf known t).
Context (candidates : list ErasureDataPackRecord).
Context (Hcand : ∀ r, r ∈ candidates → data_packs t !! dp_pack_hash r = Some r).
Notation outcome_of := (λ target : pystr * list DataPackShardRef, address_outcome exc_text probe_batch_hashes (run target.1) target.2).

Lemma probe_global_spec completed accs :
  (∀ a ref, grouped completed a ref → is_Some (accs !! rf_pack_hash ref)) →
  ∃ accs' counts, _probe_global_targets exc_text probe_batch_hashes run completed accs = Ok (accs', counts)
    ∧ accs_step (λ ref, ∃ target, target ∈ completed ∧ ref ∈ target.2 ∧ found (outcome_of target) ref) accs accs'.
Proof.
  intros Hg. unfold _probe_global_targets.
  destruct (fold_res_inv (λ st target, apply_outcome target.1 target.2 (outcome_of target) st)
    (λ before st, accs_step (λ ref, ∃ target, target ∈ before ∧ ref ∈ target.2 ∧ found (outcome_of target) ref) accs st.1)
    completed (accs, (0, 0, 0)%Z)) as ([accs' counts] & E & H).
  - eapply accs_step_ext; [|apply accs_step_refl]. intros ref. split; [done|]. intros (target & Ht & _). by inversion Ht.
  - intros before [a refs] [accs1 counts1] Hin I. cbn [fst snd] in *.
    destruct (apply_outcome_spec a refs (outcome_of (a, refs)) accs1 counts1) as (accs2 & counts2 & E & Hs).
    + intros ref Hr. apply (accs_step_dom _ _ _ _ I), (Hg a). by exists refs.
    + exists (accs2, counts2). cbn in E. split; [done|]. eapply accs_step_ext; [|by eapply accs_step_trans]. cbn [fst].
      intros ref. setoid_rewrite elem_of_app. setoid_rewrite list_elem_of_singleton. naive_solver.
  - exists accs', counts. split; [exact E|exact H].
Qed.

Lemma pack_rows_complete r : r ∈ candidates →
  _erasure_shard_metadata_error (shards_of t (dp_pack_hash r)) (remote_targets_of r) = None
  ∧ Forall (λ s, valid_ref (row_ref s)) (shards_of t (dp_pack_hash r)).
Proof.
  intros Hr%Hcand. destruct (shards_of_indexes _ _ _ _ Hwf Hr) as (Hidx & Hnd & Hrows). split.
  - unfold _erasure_shard_metadata_error. rewrite Hidx.
    assert (py_sorted Z.leb (py_range (remote_targets_of r)) = py_range (remote_targets_of r)) as ->.
    { apply (sorted_by_key id).
      - apply py_sorted_sorted; [intros x y|intros x y z]; rewrite ?Z.leb_le; lia.
      - apply py_range_sorted.
      - apply py_sorted_perm. }
    rewrite bool_decide_false by tauto. rewrite ordered_unique_nodup by done. by rewrite length_fmap, Nat.eqb_refl.
  - apply Forall_forall. intros s Hs. destruct (Hrows s) as [Hs' _]. specialize (Hs' Hs).
    destruct (tw_shards _ _ Hwf _ _ _ Hs') as (E & _ & Hv & _). unfold row_ref, valid_ref. cbn. rewrite E.
    destruct (tw_packs _ _ Hwf _ _ Hr) as [Eh Hok]. split_and!; [by apply Hok|done|].
    pose proof (proj1 (tw_indexes _ _ Hwf _ _ _ Hr) (mk_is_Some _ _ Hs')). lia.
Qed.

Lemma extend_groups_spec (groups g0 : list (pystr * list DataPackShardRef)) :
  NoDup g0.*1 → let g := fold_left (λ g target, extend_group g target.1 target.2) groups g0 in
  NoDup g.*1 ∧ ∀ a ref, grouped g a ref ↔ grouped g0 a ref ∨ grouped groups a ref.
Proof.
  cbn zeta. revert g0. induction groups as [|[a0 refs0] groups IH]; intros g0 Hnd; cbn [fold_left].
  - split; [done|]. intros a ref. split; [by left|]. intros [|(l & Hl & _)]; [done|by inversion Hl].
  - destruct (extend_group_spec g0 a0 refs0 Hnd) as [Hnd1 Hg1]. destruct (IH _ Hnd1) as [Hnd2 Hg2]. split; [done|].
    intros a ref. rewrite Hg2. cbn [fst snd]. rewrite Hg1. unfold grouped. setoid_rewrite elem_of_cons. naive_solver.
Qed.

(** The plan of the candidates: an empty accumulator each, and the references of their rows by
    address. *)
Record planned (before : list ErasureDataPackRecord) (st : pack_accumulators * list (pystr * list DataPackShardRef)) : Prop := {
  pd_accs h : match st.1 !! h with
              | None => h ∉ dp_pack_hash <$> before
              | Some a => ∃ r, r ∈ before ∧ dp_pack_hash r = h ∧ pv_total_shards a = remote_targets_of r
                            ∧ pv_verified_shard_indexes a = ∅ ∧ pv_metadata_complete a = true
              end;
  pd_keys : NoDup st.2.*1;
  pd_refs a ref : grouped st.2 a ref ↔ ∃ r s, r ∈ before ∧ s ∈ shards_of t (dp_pack_hash r)
                    ∧ node_addresses cluster !! ps_node_id s = Some a ∧ ref = row_ref s }.

Lemma plan_candidates :
  ∃ rows st, get_erasure_pack_shards_many t (dp_pack_hash <$> candidates) = Ok rows
    ∧ fold_left (λ acc pack, acc ≫= λ st, plan_pack cluster rows st pack) candidates (Ok (∅, [])) = Ok st ∧ planned candidates st.
Proof.
  unfold get_erasure_pack_shards_many. rewrite unique_hashes_valid.
  2: { apply Forall_fmap, Forall_forall. intros r Hr%Hcand. by apply (tw_packs _ _ Hwf _ _ Hr). }
  cbn [mbind res_bind]. set (rows := list_to_map _ : gmap pystr (list ErasureDataPackShardRecord)). exists rows.
  assert (∀ r, r ∈ candidates → rows !! dp_pack_hash r = Some (shards_of t (dp_pack_hash r))) as Hrows.
  { intros r Hr. apply elem_of_list_to_map.
    - rewrite <-list_fmap_compose, (list_fmap_ext _ id), list_fmap_id by done. apply NoDup_ordered_unique.
    - apply list_elem_of_fmap. exists (dp_pack_hash r). split; [done|]. apply elem_of_ordered_unique, list_elem_of_fmap. by exists r. }
  destruct (fold_res_inv (λ st pack, plan_pack cluster rows st pack) planned candidates (∅, [])) as (st & E & Hst); [| |by exists st].
  - split; cbn.
    + intros h. rewrite lookup_empty. by inversion 1.
    + constructor.
    + intros a ref. split; [intros (l & Hl & _); by inversion Hl|intros (r & s & Hr & _); by inversion Hr].
  - intros before r [accs groups0] Hr [I1 I2 I3]. cbn [fst snd] in *. unfold plan_pack. rewrite (Hrows r Hr). cbn [default from_option id].
    destruct (pack_rows_complete r Hr) as [-> Hv].
    destruct (group_rows_spec (shards_of t (dp_pack_hash r)) (node_addresses cluster) true Hv) as (groups & errors & -> & _ & Hg).
    eexists. split; [done|]. destruct (extend_groups_spec groups groups0 I2) as [Hnd Hgr]. split; cbn [fst snd].
    + intros h. destruct (decide (h = dp_pack_hash r)) as [->|Hne].
      * rewrite lookup_insert_eq. exists r. split_and!; [apply elem_of_app; right; by left|done..].
      * rewrite lookup_insert_ne by done. specialize (I1 h). destruct (accs !! h).
        -- destruct I1 as (r0 & ? & ?). exists r0. split; [apply elem_of_app; by left|done].
        -- rewrite fmap_app, elem_of_app. cbn. rewrite list_elem_of_singleton. by intros [|].
    + done.
    + intros a ref. rewrite Hgr, I3, Hg. setoid_rewrite elem_of_app. setoid_rewrite list_elem_of_singleton. split.
      * intros [(r0 & s & ? & ?)|(s & ? & ?)]; [exists r0, s; split; [by left|done]|exists r, s; split; [by right|done]].
      * intros (r0 & s & [| ->] & Hx); [left; by exists r0, s|right; by exists s].
Qed.

(** What the outcome of a candidate says of its indexes. *)
Definition found_index (groups : list (pystr * list DataPackShardRef)) (r : ErasureDataPackRecord) (i : Z) : Prop :=
  ∃ s target, s ∈ shards_of t (dp_pack_hash r) ∧ ps_shard_index s = i ∧ node_addresses cluster !! ps_node_id s = Some target.1
    ∧ target ∈ groups ∧ row_ref s ∈ target.2 ∧ found (outcome_of target) (row_ref s).

Definition verify_state (n k total : Z) : ProtectionState := if (total <=? n)%Z then VERIFIED else if (k <=? n)%Z then DEGRADED else FAILED.

Lemma pack_candidates_spec complete :
  (∀ l, complete l ≡ₚ l) → NoDup (dp_pack_hash <$> candidates) →
  ∃ groups outcomes counts, _verify_candidates exc_text probe_batch_hashes cluster run complete t candidates = Ok (outcomes, counts)
    ∧ (∀ a ref, grouped groups a ref ↔ ∃ r s, r ∈ candidates ∧ s ∈ shards_of t (dp_pack_hash r)
         ∧ node_addresses cluster !! ps_node_id s = Some a ∧ ref = row_ref s)
    ∧ Forall2 (λ r o, (∀ i, i ∈ po_verified_shard_indexes o ↔ found_index groups r i)
         ∧ po_protection_state o = verify_state (Z.of_nat (size (po_verified_shard_indexes o))) (dp_data_shards r) (remote_targets_of r))
        candidates outcomes.
Proof.
  intros Hc Hnd. unfold _verify_candidates. destruct plan_candidates as (rows & [accs groups] & -> & E & [P1 P2 P3]). cbn [fst snd] in *.
  cbn [mbind res_bind] in E |- *. rewrite E. cbn [mbind res_bind].
  assert (∀ r, r ∈ candidates → ∀ s, s ∈ shards_of t (dp_pack_hash r) → ps_pack_hash s = dp_pack_hash r) as Hph.
  { intros r Hr s Hs. destruct (shards_of_indexes _ _ _ _ Hwf (Hcand r Hr)) as (_ & _ & Hrows). apply Hrows in Hs.
    by apply (tw_shards _ _ Hwf _ _ _ Hs). }
  destruct (probe_global_spec (complete groups) accs) as (accs' & counts & -> & Hstep).
  { intros a ref (l & Hl & Hr). rewrite Hc in Hl. destruct (proj1 (P3 a ref)) as (r & s & Hr0 & Hs & _ & ->); [by exists l|].
    cbn. rewrite (Hph r Hr0 s Hs). specialize (P1 (dp_pack_hash r)). destruct (accs !! dp_pack_hash r); [done|].
    exfalso. apply P1, list_elem_of_fmap. by exists r. }
  exists groups. set (P := λ r o, _ ∧ _).
  assert (∀ r, r ∈ candidates → ∃ o, pack_outcome accs' r = Ok o ∧ P r o) as Hone.
  { intros r Hr. unfold pack_outcome. specialize (P1 (dp_pack_hash r)). specialize (Hstep (dp_pack_hash r)).
    destruct (accs !! dp_pack_hash r) as [a|] eqn:Ea; [|exfalso; apply P1, list_elem_of_fmap; by exists r].
    destruct P1 as (r0 & Hr0 & Eh & Et & Ev & Ecm). assert (r0 = r) as ->.
    { apply Hcand in Hr, Hr0. rewrite Eh in Hr0. congruence. }
    destruct (accs' !! dp_pack_hash r) as [a'|]; [|done]. destruct Hstep as (S1 & S2 & S3). rewrite S2, Ecm. cbn [negb].
    eexists. split; [done|].
    assert (∀ i, i ∈ pv_verified_shard_indexes a' ↔ found_index groups r i) as Hidx.
    { intros i. rewrite S3, Ev. split.
      - intros [Hi|(ref & ([ta refs] & Ht & Hin & Hf) & Eh' & <-)]; [by apply elem_of_empty in Hi|]. rewrite Hc in Ht. cbn [fst snd] in *.
        destruct (proj1 (P3 ta ref)) as (r1 & s & Hr1 & Hs & Ha & ->); [by exists refs|]. cbn in Eh'. rewrite (Hph r1 Hr1 s Hs) in Eh'.
        rewrite Eh' in Hs. by exists s, (ta, refs).
      - intros (s & target & Hs & <- & Ha & Ht & Hin & Hf). right. exists (row_ref s). split; [exists target; by rewrite Hc|].
        split; [|done]. cbn. by apply Hph. }
    unfold P. rewrite S1, Et. unfold verify_state. destruct (Z.leb_spec (remote_targets_of r) (Z.of_nat (size (pv_verified_shard_indexes a')))) as [Hle|Hlt];
      cbn; (split; [done|]).
    - by rewrite (proj2 (Z.leb_le _ _)).
    - rewrite (proj2 (Z.leb_gt _ _)) by done. unfold data_pack_state, protection_state_from_thresholds. by rewrite (proj2 (Z.leb_gt _ _)). }
  assert (∃ outcomes, mapM_res (pack_outcome accs') candidates = Ok outcomes ∧ Forall2 P candidates outcomes) as (outcomes & Eo & Ho).
  { clear -Hone. revert Hone. generalize candidates as l. induction l as [|r l IH]; intros Hone; [by exists []; split; [|constructor]|].
    destruct (Hone r) as (o & E & Ho); [by left|]. destruct IH as (os & Es & Hos); [intros; apply Hone; by right|].
    exists (o :: os). cbn [mapM_res]. rewrite E. cbn [mbind res_bind]. rewrite Es. split; [done|by constructor]. }
  exists outcomes, counts. cbn [mbind res_bind]. rewrite Eo. by split_and!.
Qed.
End loops.

(** ** The marks *)

(** The pack [h] is in [state], with the indexes of [found] verified; nothing else changed but
    times and errors. *)
Record marked (h : pystr) (state : ProtectionState) (found : gset Z) (t t' : ErasureTables) : Prop := {
  mk_pack : ∃ r r', data_packs t !! h = Some r ∧ data_packs t' !! h = Some r' ∧ dp_protection_state r' = state
              ∧ pack_def r' = pack_def r ∧ dp_placement_epoch r' = dp_placement_epoch r;
  mk_shards i s' : data_pack_shards t' !! (h, i) = Some s' → ∃ s, data_pack_shards t !! (h, i) = Some s
              ∧ shard_id s' = shard_id s ∧ (ps_protection_state s' = VERIFIED ↔ ps_shard_index s ∈ found);
  mk_others k : k ≠ h → data_packs t' !! k = data_packs t !! k ∧ ∀ i, data_pack_shards t' !! (k, i) = data_pack_shards t !! (k, i) }.

Lemma verification_marks known now up t (found : gset Z) :
  tables_wf known t → is_Some (data_packs t !! ev_pack_hash up) → ev_protection_state up ∈ [VERIFIED; DEGRADED; FAILED] →
  Forall (λ i, 0 <= i)%Z (ev_verified_shard_indexes up) → (∀ i, i ∈ ev_verified_shard_indexes up ↔ i ∈ found) →
  ∃ t', _apply_erasure_data_pack_verification_update now up t = Ok t' ∧ marked (ev_pack_hash up) (ev_protection_state up) found t t'.
Proof.
  intros Hwf [r Hr] Hst Hidx Hfound. destruct (tw_packs _ _ Hwf _ _ Hr) as [Eh Hok].
  pose proof (po_hash _ Hok) as Hv. rewrite Eh in Hv.
  unfold _apply_erasure_data_pack_verification_update. rewrite require_hash64_valid; [|done|apply strip_hex; unfold is_valid_blake3_hex in Hv; by bool_hyps].
  cbn [mbind res_bind]. rewrite bool_decide_false by tauto.
  assert (mapM_res require_non_negative_int (ev_verified_shard_indexes up) = Ok (ev_verified_shard_indexes up)) as ->.
  { clear -Hidx. induction Hidx as [|i l Hi _ IH]; [done|]. cbn [mapM_res].
    assert (require_non_negative_int i = Ok i) as -> by (unfold require_non_negative_int; by rewrite (proj2 (Z.ltb_ge _ _))).
    cbn [mbind res_bind]. by rewrite IH. }
  cbn [mbind res_bind]. rewrite Hr. eexists. split; [done|]. split.
  - exists r. cbn. rewrite lookup_insert_eq. eexists. by split_and!.
  - intros i s'. cbn. rewrite lookup_fmap. destruct (data_pack_shards t !! _) as [s|] eqn:Es; [|done]. cbn. intros [= <-].
    destruct (tw_shards _ _ Hwf _ _ _ Es) as (E1 & _). exists s. split; [done|]. rewrite bool_decide_true by done. rewrite <-Hfound.
    case_bool_decide; (split; [done|]); cbn; [by split|]. split; [|done]. by case_bool_decide.
  - intros k Hk. cbn. rewrite lookup_insert_ne by done. split; [done|]. intros i. rewrite lookup_fmap.
    destruct (data_pack_shards t !! (k, i)) as [s|] eqn:Es; [|done]. destruct (tw_shards _ _ Hwf _ _ _ Es) as (E1 & _). cbn.
    by rewrite bool_decide_false by congruence.
Qed.

(** All the marks, of distinct packs. *)
Lemma verifications_mark known now (ups : list (ErasureDataPackVerificationUpdate * gset Z)) t :
  tables_wf known t → NoDup (ev_pack_hash ∘ fst <$> ups) →
  Forall (λ u, is_Some (data_packs t !! ev_pack_hash u.1) ∧ ev_protection_state u.1 ∈ [VERIFIED; DEGRADED; FAILED]
    ∧ Forall (λ i, 0 <= i)%Z (ev_verified_shard_indexes u.1) ∧ ∀ i, i ∈ ev_verified_shard_indexes u.1 ↔ i ∈ u.2) ups →
  ∃ t', apply_all (_apply_erasure_data_pack_verification_update now) ups.*1 t = Ok t'
    ∧ (∀ u, u ∈ ups → ∃ t0 t1, marked (ev_pack_hash u.1) (ev_protection_state u.1) u.2 t0 t1
         ∧ data_packs t0 !! ev_pack_hash u.1 = data_packs t !! ev_pack_hash u.1
         ∧ (∀ i, data_pack_shards t0 !! (ev_pack_hash u.1, i) = data_pack_shards t !! (ev_pack_hash u.1, i))
         ∧ data_packs t' !! ev_pack_hash u.1 = data_packs t1 !! ev_pack_hash u.1
         ∧ ∀ i, data_pack_shards t' !! (ev_pack_hash u.1, i) = data_pack_shards t1 !! (ev_pack_hash u.1, i))
    ∧ ∀ k, k ∉ (ev_pack_hash ∘ fst <$> ups) → data_packs t' !! k = data_packs t !! k ∧ ∀ i, data_pack_shards t' !! (k, i) = data_pack_shards t !! (k, i).
Proof.
  revert t. induction ups as [|u0 ups IH]; intros t Hwf Hnd Hups.
  { exists t. split; [done|]. split; [|done]. intros u0 Hu0. by inversion Hu0. }
  rewrite fmap_cons in Hnd. apply NoDup_cons in Hnd as [Hnin Hnd]. apply Forall_cons in Hups as [(Hp & Hst & Hi & Hf) Hups].
  destruct (verification_marks known now u0.1 t u0.2) as (t1 & E & Hm); [done..|].
  destruct (wf_verification _ _ _ _ _ Hwf E) as [Hwf1 _].
  assert (∀ u1, u1 ∈ ups → ev_pack_hash u1.1 ≠ ev_pack_hash u0.1) as Hne.
  { intros u1 Hu1 Eh. apply Hnin, list_elem_of_fmap. by exists u1. }
  destruct (IH t1) as (t' & E' & Hmarks & Hothers); [done|done| |].
  { rewrite Forall_forall in Hups |- *. intros u1 Hu1. destruct (mk_others _ _ _ _ _ Hm (ev_pack_hash u1.1)) as [-> _]; [by apply Hne|]. by apply Hups. }
  exists t'. cbn [fmap list_fmap apply_all]. rewrite E. cbn [mbind res_bind]. split; [done|]. split.
  - intros u1 [->|Hu1]%elem_of_cons.
    + exists t, t1. split; [done|]. split; [done|]. split; [done|]. by apply Hothers.
    + destruct (Hmarks u1 Hu1) as (t2 & t3 & H1 & H2 & H3 & H4 & H5). exists t2, t3. split; [done|].
      destruct (mk_others _ _ _ _ _ Hm (ev_pack_hash u1.1)) as [E1 E2]; [by apply Hne|]. rewrite H2, E1. split; [done|]. split; [|done].
      intros i. by rewrite H3, E2.
  - intros k [Hk1 Hk2]%not_elem_of_cons. destruct (Hothers k Hk2) as [E1 E2]. destruct (mk_others _ _ _ _ _ Hm k Hk1) as [E3 E4].
    rewrite E1, E3. split; [done|]. intros i. by rewrite E2, E4.
Qed.

(** ** The candidates *)

Lemma select_packs_rows known t P limit :
  tables_wf known t → NoDup (dp_pack_hash <$> select_packs t P limit) ∧ ∀ r, r ∈ select_packs t P limit → data_packs t !! dp_pack_hash r = Some r.
Proof.
  intros Hwf. assert (∀ (l : list ErasureDataPackRecord), sublist (sql_limit limit l) l) as Hlim.
  { intros l. destruct limit as [n|]; [|done]. cbn. destruct (n <? 0)%Z; [done|]. apply sublist_take. }
  assert (∀ r, r ∈ (map_to_list (data_packs t)).*2 → data_packs t !! dp_pack_hash r = Some r) as Hrows.
  { intros r ([h r'] & -> & Hin%elem_of_map_to_list)%list_elem_of_fmap. cbn. by destruct (tw_packs _ _ Hwf _ _ Hin) as [-> _]. }
  unfold select_packs. set (sorted := py_sorted _ _).
  assert (NoDup (dp_pack_hash <$> sorted)) as Hnd.
  { unfold sorted. rewrite py_sorted_perm, <-list_fmap_compose.
    rewrite (list_fmap_ext _ fst); [apply NoDup_fst_map_to_list|].
    intros i [h r] Hi%list_elem_of_lookup_2%elem_of_map_to_list. cbn. by destruct (tw_packs _ _ Hwf _ _ Hi). }
  split.
  - eapply sublist_NoDup; [exact Hnd|]. apply sublist_fmap. etrans; [apply Hlim|]. apply sublist_filter.
  - intros r Hr. apply Hrows. assert (r ∈ sorted) as Hs; [|unfold sorted in Hs; by rewrite elem_of_py_sorted in Hs].
    eapply elem_of_sublist; [exact Hr|]. etrans; [apply Hlim|apply sublist_filter].
Qed.

Lemma verification_candidates_rows known c t scope snap pack incl limit candidates :
  tables_wf known t → scoped_erasure_verification_candidates c t scope snap pack incl limit = Ok candidates →
  NoDup (dp_pack_hash <$> candidates) ∧ ∀ r, r ∈ candidates → data_packs t !! dp_pack_hash r = Some r.
Proof.
  intros Hwf. assert (∀ hs inc lim l, erasure_data_packs_by_hashes t hs inc lim = Ok l →
    NoDup (dp_pack_hash <$> l) ∧ ∀ r, r ∈ l → data_packs t !! dp_pack_hash r = Some r) as Hby.
  { intros hs inc lim l. unfold erasure_data_packs_by_hashes. intros (hashes & _ & H)%bind_Ok.
    destruct hashes; injection H as <-; [split; [constructor|intros r Hr; by inversion Hr]|]. by eapply select_packs_rows. }
  unfold scoped_erasure_verification_candidates. destruct pack as [h|].
  - case_bool_decide; [done|]. case_bool_decide; [done|]. unfold erasure_pack_by_hash. intros (record & Hrec & [= <-])%bind_Ok.
    apply bind_Ok in Hrec as (l & Hl & [= <-]). destruct (Hby _ _ _ _ Hl) as [Hnd Hr]. destruct l as [|r l]; cbn.
    + split; [constructor|intros r Hin; by inversion Hin].
    + split; [apply NoDup_singleton|]. intros r' ->%list_elem_of_singleton. apply Hr. by left.
  - intros (sv & _ & H)%bind_Ok. destruct (bool_decide _); [injection H as <-; by eapply select_packs_rows|].
    apply bind_Ok in H as (hs & _ & H). by eapply Hby.
Qed.

(** ** Properties *)

(** The rows of a pack whose indexes are all found. *)
Lemma all_found (found : gset Z) n i :
  (∀ j, j ∈ found → (0 <= j < n)%Z) → (n <= Z.of_nat (size found))%Z → (0 <= i < n)%Z → i ∈ found.
Proof.
  intros Hsub Hn Hi. apply dec_stable. intros Hni.
  assert (size found ≤ size (list_to_set (py_range n) ∖ {[i]} : gset Z)) as Hle.
  { apply subseteq_size. intros j Hj. rewrite elem_of_difference, elem_of_list_to_set, elem_of_py_range, elem_of_singleton. split; [by apply Hsub|]. by intros ->. }
  rewrite size_difference in Hle.
  2: { intros j ->%elem_of_singleton. by rewrite elem_of_list_to_set, elem_of_py_range. }
  rewrite size_list_to_set, size_singleton in Hle by (apply NoDup_fmap_2; [intros ? ?; lia|apply NoDup_seq]).
  unfold py_range in Hle. rewrite length_fmap, length_seq in Hle. lia.
Qed.

Lemma shards_of_row known t h s : tables_wf known t → s ∈ shards_of t h → data_pack_shards t !! (h, ps_shard_index s) = Some s.
Proof.
  intros Hwf [<- [[k i] Hk]]%elem_of_selected. by destruct (tw_shards _ _ Hwf _ _ _ Hk) as (<- & <- & _).
Qed.

Lemma found_in_range exc_text batch cluster run known t (candidates : list ErasureDataPackRecord) groups r i :
  tables_wf known t → (∀ r, r ∈ candidates → data_packs t !! dp_pack_hash r = Some r) → r ∈ candidates →
  found_index exc_text batch cluster run t groups r i → (0 <= i < remote_targets_of r)%Z.
Proof.
  intros Hwf Hrows Hr (s & target & Hs & <- & _). apply (shards_of_row _ _ _ _ Hwf) in Hs.
  apply (tw_indexes _ _ Hwf _ _ _ (Hrows r Hr)). by eexists.
Qed.

(** Each update has the outcome of its pack. *)
Lemma verify_spec exc_text batch cluster run complete now known t (candidates : list ErasureDataPackRecord) :
  tables_wf known t → NoDup (dp_pack_hash <$> candidates) → (∀ r, r ∈ candidates → data_packs t !! dp_pack_hash r = Some r) →
  (∀ l, complete l ≡ₚ l) →
  ∃ stats t' groups, verify exc_text batch cluster run complete now candidates t = (Ok stats, t')
    ∧ rtc erasure_step (known, t) (known, t')
    ∧ (∀ a ref, grouped groups a ref ↔ ∃ r s, r ∈ candidates ∧ s ∈ shards_of t (dp_pack_hash r)
         ∧ node_addresses cluster !! ps_node_id s = Some a ∧ ref = row_ref s)
    ∧ (∀ h, h ∉ dp_pack_hash <$> candidates → data_packs t' !! h = data_packs t !! h ∧ ∀ i, data_pack_shards t' !! (h, i) = data_pack_shards t !! (h, i))
    ∧ ∀ r, r ∈ candidates → ∃ found t0 t1, (∀ i, i ∈ found ↔ found_index exc_text batch cluster run t groups r i)
        ∧ marked (dp_pack_hash r) (verify_state (Z.of_nat (size found)) (dp_data_shards r) (remote_targets_of r)) found t0 t1
        ∧ data_packs t0 !! dp_pack_hash r = Some r ∧ (∀ i, data_pack_shards t0 !! (dp_pack_hash r, i) = data_pack_shards t !! (dp_pack_hash r, i))
        ∧ data_packs t' !! dp_pack_hash r = data_packs t1 !! dp_pack_hash r
        ∧ ∀ i, data_pack_shards t' !! (dp_pack_hash r, i) = data_pack_shards t1 !! (dp_pack_hash r, i).
Proof.
  intros Hwf Hnd Hrows Hc. unfold verify. destruct candidates as [|r0 rest]; [|set (candidates := r0 :: rest) in *].
  { exists no_verification, t, []. split_and!; [done|done| |done|intros r Hr; by inversion Hr].
    intros a ref. split; [intros (l & Hl & _); by inversion Hl|intros (r & s & Hr & _); by inversion Hr]. }
  destruct (pack_candidates_spec exc_text batch cluster run known t Hwf candidates Hrows complete Hc Hnd)
    as (groups & outcomes & [[calls targets] unverified] & -> & Hg & Ho).
  set (ups := zip_with (λ r o, (pack_update r o, po_verified_shard_indexes o)) candidates outcomes).
  assert (zip_with pack_update candidates outcomes = ups.*1) as ->.
  { unfold ups. clear. generalize candidates as l. induction outcomes as [|o os IH]; intros [|r l]; try done. cbn. f_equal. apply IH. }
  assert (ev_pack_hash ∘ fst <$> ups = dp_pack_hash <$> candidates) as Hkeys.
  { unfold ups. apply Forall2_length in Ho. clear -Ho. revert Ho. generalize candidates as l. induction outcomes as [|o os IH]; intros [|r l] Hl; try done.
    cbn. f_equal. apply IH. by injection Hl. }
  assert (∀ u0, u0 ∈ ups → ∃ r o, r ∈ candidates ∧ u0 = (pack_update r o, po_verified_shard_indexes o)
    ∧ (∀ i, i ∈ po_verified_shard_indexes o ↔ found_index exc_text batch cluster run t groups r i)
    ∧ po_protection_state o = verify_state (Z.of_nat (size (po_verified_shard_indexes o))) (dp_data_shards r) (remote_targets_of r)) as Hups.
  { intros u0 [j Hj]%list_elem_of_lookup. apply lookup_zip_with_Some in Hj as (r & o & -> & Hr & Ho'). exists r, o.
    split; [by eapply list_elem_of_lookup_2|]. split; [done|]. by destruct (Forall2_lookup_lr _ _ _ _ _ _ Ho Hr Ho'). }
  destruct (verifications_mark known now ups t Hwf) as (t' & E & Hmarks & Hothers).
  { by rewrite Hkeys. }
  { apply Forall_forall. intros u0 (r & o & Hr & -> & Hf & Hst)%Hups. cbn. rewrite (Hrows r Hr). split_and!; [by eexists| | |].
    - rewrite Hst. unfold verify_state. destruct (_ <=? _)%Z; [left|]. destruct (_ <=? _)%Z; set_solver.
    - apply Forall_forall. intros i. rewrite elem_of_py_sorted, elem_of_elements. intros Hi%Hf. by eapply (found_in_range _ _ _ _ known t candidates groups r i).
    - intros i. by rewrite elem_of_py_sorted, elem_of_elements. }
  unfold apply_erasure_data_pack_verifications. rewrite E. cbn [mbind res_bind].
  eexists _, t', groups. split; [done|]. split_and!; [|done|by rewrite <-Hkeys|].
  { apply rtc_once, es_verify with (now := now) (ups := ups.*1) (n := Z.of_nat (length ups.*1)).
    unfold apply_erasure_data_pack_verifications. by rewrite E. }
  intros r Hr. assert (dp_pack_hash r ∈ ev_pack_hash ∘ fst <$> ups) as (u0 & E0 & Hu0)%list_elem_of_fmap.
  { rewrite Hkeys. apply list_elem_of_fmap. by exists r. }
  destruct (Hmarks u0 Hu0) as (t0 & t1 & Hm & E1 & E2 & E3 & E4). destruct (Hups u0 Hu0) as (r' & o & Hr' & -> & Hf & Hst).
  cbn [fst snd compose pack_update ev_pack_hash ev_protection_state] in *. assert (r' = r) as ->.
  { pose proof (Hrows _ Hr'). pose proof (Hrows _ Hr). congruence. }
  exists (po_verified_shard_indexes o), t0, t1. rewrite <-Hst, E1, (Hrows r Hr). by split_and!.
Qed.

(** The node of an address answers its probes from its own shard store, whose files were
    written by the code of the store, also by other processes meanwhile. The answer to a probe
    only says which files exist: that their content has the right hash is the soundness of
    the store. *)
Definition honest_node (root : pystr) (maxsize : Z) (blake3 : bytes → bytes) (py_repr : pystr → pystr) (token : pystr)
    (before after : gmap pystr bytes) (env : ProbeTargetEnv) : Prop :=
  shards_sound root maxsize blake3 before ∧ shard_step root maxsize blake3 before after
  ∧ ∀ n, honest_probe root maxsize blake3 py_repr token before after (te_probe env n).

(** C11: A verification always ends, and says what the nodes answered. When the candidates are
    selected, whatever the nodes answer or fail to answer and in whatever order, the
    verification returns; it changes no pack that is not a candidate, and puts each candidate
    in VERIFIED, DEGRADED or FAILED by the number of its shards that were found, which are the
    ones marked VERIFIED; a VERIFIED pack has all its shards found, and each was found at the
    address of the node of its row. If the node of that address answers its probes from its own
    sound shard store, then it holds the shard with data of the hash of the row; and no shard is
    missed: one that such a node holds is found when all its probes are answered. (A probe only
    asks whether a shard is present: a node that lies, or whose files were damaged, makes the
    code mark a shard VERIFIED that is not held.) *)
Theorem verified_packs_are_held exc_text blake3 root maxsize py_repr c x run complete now incl limit scope snap pack batch t before after candidates :
  rtc erasure_step (∅, empty_tables) (chunks c, t) →
  scoped_erasure_verification_candidates c t scope snap pack incl limit = Ok candidates →
  (∀ l, complete l ≡ₚ l) →
  let honest a := honest_node root maxsize blake3 py_repr (rp_cluster_token x) (before a) (after a) (run a) in
  ∃ stats t', verify_erasure_data_packs exc_text c (Ok x) run complete now incl limit scope snap pack batch t = (Ok stats, t')
    ∧ rtc erasure_step (chunks c, t) (chunks c, t')
    ∧ (∀ h, (∀ r, r ∈ candidates → dp_pack_hash r ≠ h) → data_packs t' !! h = data_packs t !! h ∧ shards_of t' h = shards_of t h)
    ∧ ∀ r, r ∈ candidates → ∃ p (found : gset Z),
        data_packs t' !! dp_pack_hash r = Some p ∧ pack_def p = pack_def r ∧ (∀ i, i ∈ found → (0 <= i < remote_targets_of r)%Z)
        ∧ dp_protection_state p = verify_state (Z.of_nat (size found)) (dp_data_shards r) (remote_targets_of r)
        ∧ (dp_protection_state p = VERIFIED → ∀ s, s ∈ shards_of t' (dp_pack_hash r) → ps_shard_index s ∈ found)
        ∧ ∀ s, s ∈ shards_of t' (dp_pack_hash r) → (ps_protection_state s = VERIFIED ↔ ps_shard_index s ∈ found)
            ∧ (ps_shard_index s ∈ found → ∃ a, node_addresses (rp_cluster x) !! ps_node_id s = Some a
                 ∧ (honest a → ∃ data, after a !! shard_path root (row_ref s) = Some data
                      ∧ blake3_hex_digest blake3 data = ps_shard_hash s))
            ∧ ∀ a, node_addresses (rp_cluster x) !! ps_node_id s = Some a → honest a → answers_all (run a) →
                holds_shard root (row_ref s) (before a) → ps_shard_index s ∈ found.
Proof.
  intros Hreach Hsel Hc honest. destruct (erasure_steps_wf _ _ Hreach (empty_tables_wf _)) as [Hwf _]. cbn [fst snd] in Hwf.
  destruct (verification_candidates_rows _ _ _ _ _ _ _ _ _ Hwf Hsel) as [Hnd Hrows].
  unfold verify_erasure_data_packs. rewrite sm_bind_spec. cbn [slift]. rewrite sm_bind_spec. cbn [sget]. rewrite sm_bind_spec, Hsel. cbn [slift].
  destruct (verify_spec exc_text (Z.max 1 batch) (rp_cluster x) run complete now (chunks c) t candidates Hwf Hnd Hrows Hc)
    as (stats & t' & groups & E & Hsteps & Hg & Hothers & Hmarks).
  destruct (erasure_steps_wf _ _ Hsteps Hwf) as [Hwf' _]. cbn [fst snd] in Hwf'. exists stats, t'. split; [done|]. split; [done|]. split.
  - intros h Hh. destruct (Hothers h) as [Ep Es]; [intros (r & -> & Hr)%list_elem_of_fmap; by apply (Hh r)|].
    split; [done|]. by eapply shards_of_eq.
  - intros r Hr. destruct (Hmarks r Hr) as (found & t0 & t1 & Hf & [(p0 & p & Hp0 & Hp & Est & Edef & _) Hsh _] & E1 & E2 & E3 & E4).
    assert (p0 = r) as -> by congruence. exists p, found. rewrite E3.
    assert (∀ i, i ∈ found → (0 <= i < remote_targets_of r)%Z) as Hrange by (intros i Hi%Hf; by apply (found_in_range exc_text (Z.max 1 batch) (rp_cluster x) run (chunks c) t candidates groups)).
    assert (∀ s', s' ∈ shards_of t' (dp_pack_hash r) → ∃ s, s ∈ shards_of t (dp_pack_hash r) ∧ shard_id s' = shard_id s
      ∧ (ps_protection_state s' = VERIFIED ↔ ps_shard_index s ∈ found) ∧ (0 <= ps_shard_index s < remote_targets_of r)%Z) as Hs'.
    { intros s' Hs'. pose proof (shards_of_row _ _ _ _ Hwf' Hs') as Hrow. rewrite E4 in Hrow. apply Hsh in Hrow as (s & Hs & Eid & Hiff).
      rewrite E2 in Hs. destruct (tw_shards _ _ Hwf _ _ _ Hs) as (Eh & Ei & _). exists s. split_and!; try done.
      - apply elem_of_selected. split; [done|by eexists].
      - rewrite Ei. by apply (tw_indexes _ _ Hwf _ _ _ (Hrows r Hr)).
      - rewrite Ei. by apply (tw_indexes _ _ Hwf _ _ _ (Hrows r Hr)). }
    split_and!; [done|done|done|done| |].
    + rewrite Est. unfold verify_state. destruct (Z.leb_spec (remote_targets_of r) (Z.of_nat (size found))) as [Hle|]; [|by destruct (_ <=? _)%Z].
      intros _ s' (s & _ & Eid & _ & Hi)%Hs'. assert (ps_shard_index s' = ps_shard_index s) as -> by (unfold shard_id in Eid; by injection Eid).
      by eapply all_found.
    + intros s' (s & Hs & Eid & Hiff & _)%Hs'. assert (row_ref s' = row_ref s ∧ ps_node_id s' = ps_node_id s
        ∧ ps_shard_index s' = ps_shard_index s ∧ ps_shard_hash s' = ps_shard_hash s) as (Eref & En & Ei & Esh).
      { unfold shard_id in Eid. injection Eid as I1 I2 I3 I4. unfold row_ref. by rewrite I1, I2, I3. }
      rewrite Ei, En, Eref, Esh. split; [done|].
      assert (∀ r s, r ∈ candidates → s ∈ shards_of t (dp_pack_hash r) → valid_ref (row_ref s)) as Hv.
      { intros r1 s1 Hr1 Hs1. destruct (pack_rows_complete _ _ Hwf candidates Hrows r1 Hr1) as [_ Hv]. rewrite Forall_forall in Hv. by apply Hv. }
      assert (∀ a refs, (a, refs) ∈ groups → Forall valid_ref refs) as Hvs.
      { intros a refs Ht. apply Forall_forall. intros ref Hin. destruct (proj1 (Hg a ref)) as (r1 & s1 & ? & ? & _ & ->); [by exists refs|]. by apply (Hv r1). }
      split.
      * intros (s1 & [a refs] & Hs1 & Ei1 & Ha & Ht & Hinr & Hfound)%Hf. cbn [fst snd] in *.
        assert (s1 = s) as ->. { apply (shards_of_row _ _ _ _ Hwf) in Hs1, Hs. rewrite Ei1 in Hs1. congruence. }
        exists a. split; [done|]. intros (Hs0' & Hstep & Hans).
        destruct (address_outcome_held exc_text (Z.max 1 batch) root maxsize blake3 py_repr (rp_cluster_token x) (before a) (after a) (run a) refs (row_ref s))
          as [Hh _]; [done|by eapply Hvs|done|]. destruct (Hh Hfound) as [data Hd]. destruct Hstep as [_ Hkeep]. exists data.
        split; [done|]. by destruct (Hkeep Hs0' _ _ (Hv _ _ Hr Hs) Hd).
      * intros a Ha (_ & _ & Hans) Hall Hh. apply Hf. destruct (proj2 (Hg a (row_ref s))) as (refs & Ht & Hinr); [by exists r, s|].
        exists s, (a, refs). split_and!; try done.
        by apply (address_outcome_held exc_text (Z.max 1 batch) root maxsize blake3 py_repr (rp_cluster_token x) (before a) (after a) (run a) refs (row_ref s)); [|by eapply Hvs|..].
Qed.

(** ** Witness: the pack of the push, verified *)

Module EcVerifyWitness.
(** The nodes answer probes from the same store. *)
Definition target : ProbeTargetEnv := {|
  te_task_error := None;
  te_probe := λ _ refs, (ProbeMissingDataPackShards (u "/ec") id toy_token false toy_metadata (λ _, false) refs EcPusherWitness.held).1 |}.
Definition pushed : ErasureTables := EcPusherWitness.outcome.2.
Definition candidates : list ErasureDataPackRecord := get_erasure_verification_candidates pushed false None.
End EcVerifyWitness.

Lemma pushed_reachable : rtc erasure_step (∅, empty_tables) (chunks EcPusherWitness.catalog, EcVerifyWitness.pushed).
Proof.
  eapply rtc_l; [apply es_backup, map_empty_subseteq|].
  eapply (push_evidence toy_digest EcPusherWitness.mirror (λ _, []) EcPusherWitness.env EcPusherWitness.catalog (Ok EcPusherWitness.context)
    None 1 1 1000 1 4096 1000 10 None None empty_tables EcPusherWitness.outcome.1).
  - apply empty_tables_wf.
  - exact (surjective_pairing EcPusherWitness.outcome).
Qed.

Lemma mirror_answers n : honest_probe (u "/ec") 1000 toy_digest id toy_token EcPusherWitness.held EcPusherWitness.held (te_probe EcVerifyWitness.target n).
Proof.
  intros refs l Hl. exists false, toy_metadata, (λ _, false), EcPusherWitness.held. cbn [te_probe EcVerifyWitness.target] in Hl.
  destruct (ProbeMissingDataPackShards _ _ _ _ _ _ refs EcPusherWitness.held) as [r s] eqn:E. cbn in Hl. subst r.
  apply probe_call_spec in E as E'. destruct E' as [-> _]. done.
Qed.

Lemma one_candidate :
  match EcVerifyWitness.candidates with [r] => bool_decide (dp_pack_hash r = EcPusherWitness.pack_hash) | _ => false end = true.
Proof. vm_compute. reflexivity. Qed.

Lemma mirror_answers_all : answers_all EcVerifyWitness.target.
Proof.
  split; [done|]. intros n batch Hv. cbn [te_probe EcVerifyWitness.target].
  destruct (probe_call_answers (u "/ec") id toy_token false toy_metadata (λ _, false) batch EcPusherWitness.held) as [l ->]; [|done..|by eexists].
  by generalize EcPusherWitness.held.
Qed.

Lemma verified_packs_are_held_witness :
  ∃ t' p, data_packs t' !! EcPusherWitness.pack_hash = Some p ∧ dp_protection_state p ∈ [VERIFIED; DEGRADED; FAILED]
    ∧ ∀ s a, s ∈ shards_of t' EcPusherWitness.pack_hash → node_addresses EcPusherWitness.view !! ps_node_id s = Some a →
        holds_shard (u "/ec") (row_ref s) EcPusherWitness.held → ps_protection_state s = VERIFIED.
Proof.
  destruct (verified_packs_are_held (λ _, []) toy_digest (u "/ec") 1000 id EcPusherWitness.catalog EcPusherWitness.context
    (λ _, EcVerifyWitness.target) (λ l, l) 9%Q false None None None None 100 EcVerifyWitness.pushed (λ _, EcPusherWitness.held)
    (λ _, EcPusherWitness.held) EcVerifyWitness.candidates pushed_reachable) as (stats & t' & _ & _ & _ & H).
  - reflexivity.
  - reflexivity.
  - pose proof one_candidate as H1. destruct EcVerifyWitness.candidates as [|r [|? ?]]; try discriminate H1. apply bool_decide_eq_true in H1.
    destruct (H r) as (p & found & Hp & _ & _ & Hst & _ & Hs); [left|]. rewrite H1 in Hp, Hs. exists t', p. split; [exact Hp|]. split.
    + rewrite Hst. unfold verify_state. destruct (_ <=? _)%Z; [left|]. destruct (_ <=? _)%Z; [right; left|right; right; left].
    + intros s a Hin Ha Hh. destruct (Hs s Hin) as (Hiff & _ & Hall). apply Hiff, (Hall a Ha).
      * split; [apply mirror_held_sound|]. split; [reflexivity|]. intros n. apply mirror_answers.
      * exact mirror_answers_all.
      * exact Hh.
Defined.
