(* ===== verification/EcRestore.v ===== *)
(** * Recovering chunks from erasure-coded packs

    [restore/ec_fetch.py]: the packs of the missing chunks are rebuilt from the shards that
    the nodes of their rows give back, and all their chunks are put in the local store. The
    answers of the nodes and the orders in which calls and packs complete are arguments; a
    restore reads the tables of one moment. Announcements and the texts of errors are left
    out. *)

From S2P Require Import Prelude PyStr Common Json Heapq Hrw Cluster Protection Catalog.
From S2P Require Import ProtectionTable Cas StorageNode ShardStore Erasure ErasureTables.
From S2P Require Import Scope.
From S2P Require Import RestoreFetch EcRemote EcPush EcPusher.

(** What a recovery meets: the answer of an address, the order in which the calls for a pack
    complete, the order of the results of one answer, and the order in which packs complete. *)
Record ErasureFetchEnv := {
  ef_retrieve : nat → pystr → list DataPackShardRef → call_outcome (list RetrievedDataPackShard);
  ef_complete : nat → list (pystr * list DataPackShardRef) → list (pystr * list DataPackShardRef);
  ef_values : nat → list RetrievedDataPackShard → list RetrievedDataPackShard }.

Record ErasurePackRecoveryJob := {
  jb_pack_hash : pystr; jb_manifest : DataPackManifest; jb_shard_rows : list ErasureDataPackShardRecord;
  jb_wanted_hashes : list pystr }.

Section recovery.
Context (data_folder : pystr) (blake3 : bytes → bytes) (compress : bytes → bytes).
Context (zdecode : Z → Z → list bytes → list Z → res (list bytes)).
Context (fenv : FetchEnv) (eenv : ErasureFetchEnv) (t : ErasureTables).
(** The order in which the packs complete. *)
Context (complete_jobs : nat → list ErasurePackRecoveryJob → list ErasurePackRecoveryJob).

Definition _group_missing_chunks_by_pack (ordered_hashes : list pystr) : res (fetched * list (pystr * list pystr)) :=
  locations ← get_erasure_chunk_locations t ordered_hashes;
  Ok (fold_left (λ st chunk_hash,
        match locations !! chunk_hash with
        | None => (<[chunk_hash := Err ChunkUnavailableError]> st.1, st.2)
        | Some location => (st.1, extend_group st.2 (pc_pack_hash location) [chunk_hash])
        end) ordered_hashes (∅, [])).

Definition _build_recovery_job (pack_hash : pystr) (wanted_hashes : list pystr) : res ErasurePackRecoveryJob :=
  pack ← get_erasure_data_pack t pack_hash;
  match pack with
  | None => Err RestoreDataError
  | Some pack =>
      pack_chunks ← get_erasure_pack_chunks t pack_hash;
      pack_shards ← get_erasure_pack_shards t pack_hash;
      match pack_chunks with
      | [] => Err RestoreDataError
      | _ =>
          if (Z.of_nat (length pack_shards) <? dp_data_shards pack)%Z then Err RestoreDataError
          else
            manifest ← manifest_from_erasure_metadata pack pack_chunks;
            Ok {| jb_pack_hash := pack_hash; jb_manifest := manifest; jb_shard_rows := pack_shards;
                  jb_wanted_hashes := wanted_hashes |}
      end
  end.

(** [result_map[h] = ChunkUnavailableError(...)] for each of them. *)
Definition fail_all (hs : list pystr) (result_map : fetched) : fetched :=
  fold_left (λ m h, <[h := Err ChunkUnavailableError]> m) hs result_map.

Definition _build_recovery_jobs (chunks_by_pack : list (pystr * list pystr)) (result_map : fetched)
  : fetched * list ErasurePackRecoveryJob :=
  fold_left (λ st g,
    match _build_recovery_job g.1 g.2 with
    | Ok job => (st.1, st.2 ++ [job])
    | Err _ => (fail_all g.2 st.1, st.2)
    end) chunks_by_pack (result_map, []).

(** The shards of one answer that are found and whole. *)
Definition take_answer (n : nat) (found : list DataPackShard) (target : pystr * list DataPackShardRef) : list DataPackShard :=
  match retrieve_shard_batch (ef_retrieve eenv n target.1) target.2 with
  | Answered results =>
      fold_left (λ found item,
        if negb (rd_status item =? SHARD_FOUND)%Z then found
        else
          match make_shard blake3 (rf_pack_hash (rd_ref item)) (rf_shard_index (rd_ref item)) (rd_shard_data item)
                  (rf_shard_hash (rd_ref item)) with
          | Ok shard => found ++ [shard]
          | Err _ => found
          end) (ef_values eenv n (map_to_list results).*2) found
  | _ => found
  end.

Definition _retrieve_pack_shards (shard_rows : list ErasureDataPackShardRecord) (required : Z) : SM FetchState (list DataPackShard) :=
  cluster ← get_cluster fenv;
  '(refs_by_addr, _) ← slift (group_erasure_shard_refs_by_address shard_rows (node_addresses cluster) false);
  if (Z.of_nat (length refs_by_addr) <? required)%Z then sraise ChunkUnavailableError
  else
    n ← tick;
    let found := py_sorted (λ a b, (sh_index a <=? sh_index b)%Z) (fold_left (take_answer n) (ef_complete eenv n refs_by_addr) []) in
    if (Z.of_nat (length found) <? required)%Z then sraise ChunkUnavailableError
    else mret (take (Z.to_nat required) found).

Definition _recover_pack_chunks (job : ErasurePackRecoveryJob) : SM FetchState (gmap pystr bytes) :=
  shards ← _retrieve_pack_shards (jb_shard_rows job) (data_shards (mf_spec (jb_manifest job)));
  payload ← slift (reconstruct_payload blake3 zdecode (jb_manifest job) shards);
  slift (extract_pack_chunks blake3 payload (jb_manifest job) []).

(** [repo.put] whose failure is only counted. *)
Definition cache_raw (chunk_hash : pystr) (data : bytes) : SM FetchState unit :=
  n ← tick;
  scatch (on_repo (put data_folder compress (fe_cas fenv n) chunk_hash data);; mret ())
    (λ _, Some (mret ())).

(** The dictionary of the chunks is in the order of the entries. *)
Definition _cache_reconstructed_pack_chunks (job : ErasurePackRecoveryJob) (recovered_chunks : gmap pystr bytes) : SM FetchState unit :=
  sfor (λ h, match recovered_chunks !! h with Some data => cache_raw h data | None => mret () end)
    (ordered_unique (en_chunk_hash <$> mf_entries (jb_manifest job))).

(** What is done with a pack that completes. *)
Definition finish_job (result_map : fetched) (job : ErasurePackRecoveryJob) : SM FetchState fetched :=
  recovered ← scatch (r ← _recover_pack_chunks job; mret (Some r)) (λ _, Some (mret None));
  match recovered with
  | None => mret (fail_all (jb_wanted_hashes job) result_map)
  | Some recovered =>
      _cache_reconstructed_pack_chunks job recovered;;
      mret (fold_left (λ m h,
        <[h := match recovered !! h with None => Err ChunkUnavailableError | Some value => Ok value end]> m)
        (jb_wanted_hashes job) result_map)
  end.

Definition recover_many_raw_chunks (chunk_hashes : list pystr) : SM FetchState fetched :=
  match ordered_unique chunk_hashes with
  | [] => mret ∅
  | ordered_hashes =>
      '(result_map, chunks_by_pack) ← slift (_group_missing_chunks_by_pack ordered_hashes);
      match chunks_by_pack with
      | [] => mret result_map
      | _ =>
          let '(result_map, jobs) := _build_recovery_jobs chunks_by_pack result_map in
          match jobs with
          | [] => mret result_map
          | _ =>
              n ← tick;
              sfold finish_job (complete_jobs n jobs) result_map
          end
      end
  end.
End recovery.

(** ** The answers of one address *)

(** A server that is asked for some shards only sends those. *)
Definition sends_what_is_asked (call : list DataPackShardRef → call_outcome (list RetrievedDataPackShard)) : Prop :=
  ∀ batch items, call batch = Answered items → ∀ x, x ∈ items → rd_ref x ∈ batch.

(** A server that answers every batch that is not too large, and has the shard. *)
Definition serves_shard (blake3 : bytes → bytes) (ref : DataPackShardRef) (call : list DataPackShardRef → call_outcome (list RetrievedDataPackShard)) : Prop :=
  ∀ batch, match call batch with
  | Answered items => (ref ∈ batch → ∃ x, x ∈ items ∧ rd_ref x = ref)
      ∧ ∀ x, x ∈ items → rd_ref x = ref → rd_status x = SHARD_FOUND ∧ hash_bytes blake3 (rd_shard_data x) = rf_shard_hash ref
  | MessageTooLarge => 1 < length batch
  | CallFailed => False
  end.

Definition shard_ref (s : DataPackShard) : DataPackShardRef :=
  {| rf_pack_hash := sh_pack_hash s; rf_shard_index := sh_index s; rf_shard_hash := sh_hash s |}.

Section answers.
Context (call : list DataPackShardRef → call_outcome (list RetrievedDataPackShard)).

Lemma collect_spec items m0 m batch :
  Forall valid_ref batch → (∀ x, x ∈ items → rd_ref x ∈ batch) → (∀ k x, m0 !! k = Some x → k ∈ batch ∧ rd_ref x = k) →
  collect_retrieved items m0 = Ok m →
  (∀ k x, m !! k = Some x → k ∈ batch ∧ rd_ref x = k)
  ∧ (∀ k x, m !! k = Some x → m0 !! k = Some x ∨ ∃ y, y ∈ items ∧ rd_ref y = k ∧ rd_status x = rd_status y ∧ rd_shard_data x = rd_shard_data y)
  ∧ (∀ k, is_Some (m0 !! k) → is_Some (m !! k)) ∧ ∀ y, y ∈ items → is_Some (m !! rd_ref y).
Proof.
  intros Hv. revert m0. induction items as [|y items IH]; intros m0 Hin Hm0 H; cbn in H.
  { injection H as <-. split_and!; [done|by left|done|]. intros y Hy. by inversion Hy. }
  assert (rd_ref y ∈ batch) as Hy by (apply Hin; by left). rewrite Forall_forall in Hv. pose proof (Hv _ Hy) as Hvy.
  assert (rf_pack_hash (rd_ref y) ≠ [] ∧ rf_shard_hash (rd_ref y) ≠ []) as [Hn1 Hn2].
  { destruct Hvy as (H1 & H2 & _). split; intros E; [rewrite E in H1|rewrite E in H2]; by vm_compute in H1, H2. }
  rewrite !bool_decide_false in H by done. cbn [orb] in H. rewrite received_ref_id in H by done. cbn [mbind res_bind] in H.
  set (x0 := {| rd_ref := rd_ref y; rd_status := _; rd_shard_data := _; rd_detail := _ |}) in H.
  destruct (IH (<[rd_ref y := x0]> m0)) as (I1 & I2 & I3 & I4); [intros; apply Hin; by right| |done|].
  { intros k x. rewrite lookup_insert_Some. intros [[<- <-]|[_ Hk]]; [by split|by apply Hm0]. }
  split_and!; [done| | |].
  - intros k x Hk. destruct (I2 k x Hk) as [Hk0|(z & Hz & ? & ? & ?)]; [|right; exists z; split_and!; [by right|done..]].
    apply lookup_insert_Some in Hk0 as [[<- <-]|[_ Hk0]]; [|by left]. right. exists y. split_and!; [by left|done..].
  - intros k Hk. apply I3, lookup_insert_is_Some. destruct (decide (rd_ref y = k)); auto.
  - intros z [->|Hz]%elem_of_cons; [|by apply I4]. apply I3. rewrite lookup_insert_eq. by eexists.
Qed.

Lemma collect_total items m0 batch :
  Forall valid_ref batch → (∀ x, x ∈ items → rd_ref x ∈ batch) → ∃ m, collect_retrieved items m0 = Ok m.
Proof.
  intros Hv. revert m0. induction items as [|y items IH]; intros m0 Hin; [by eexists|]. cbn [collect_retrieved].
  destruct (_ || _); [apply IH; intros; apply Hin; by right|]. rewrite Forall_forall in Hv.
  rewrite received_ref_id by (apply Hv, Hin; by left). cbn [mbind res_bind]. apply IH. intros; apply Hin; by right.
Qed.

Context (Hasked : sends_what_is_asked call).

Lemma once_own batch m :
  Forall valid_ref batch → _retrieve_shard_batch_once call batch = Answered m → ∀ k x, m !! k = Some x → k ∈ batch ∧ rd_ref x = k.
Proof.
  intros Hv. unfold _retrieve_shard_batch_once. destruct (call batch) as [items| |] eqn:E; [|done..].
  destruct (collect_retrieved items ∅) as [results|] eqn:Ec; [|done]. intros [= <-].
  destruct (collect_spec items ∅ results batch Hv (Hasked _ _ E) ltac:(intros k x; by rewrite lookup_empty) Ec) as (C1 & _).
  clear Ec E. assert (∀ hs (m0 : gmap DataPackShardRef RetrievedDataPackShard), (∀ k, k ∈ hs → k ∈ batch) → (∀ k x, m0 !! k = Some x → k ∈ batch ∧ rd_ref x = k) → ∀ k x,
    fold_left (λ m ref, if bool_decide (is_Some (m !! ref)) then m else <[ref := no_result ref]> m) hs m0 !! k = Some x → k ∈ batch ∧ rd_ref x = k) as H.
  { induction hs as [|h hs IH]; intros m0 Hhs Hm0; [done|]. cbn. apply IH; [intros; apply Hhs; by right|]. case_bool_decide; [done|].
    intros k x. rewrite lookup_insert_Some. intros [[<- <-]|[_ Hk]]; [|by apply Hm0]. split; [apply Hhs; by left|done]. }
  by apply H.
Qed.

Lemma adaptive_own fuel batch m :
  Forall valid_ref batch → run_adaptive_batch_call (_retrieve_shard_batch_once call) fuel batch = Answered m →
  ∀ k x, m !! k = Some x → k ∈ batch ∧ rd_ref x = k.
Proof.
  revert batch m. induction fuel as [|fuel IH]; intros batch m Hv; cbn [run_adaptive_batch_call];
    destruct (_retrieve_shard_batch_once call batch) as [m1| |] eqn:E; try done.
  1, 3: intros [= <-]; by apply (once_own batch).
  1, 2: destruct (1 <? length batch); [|done]; try done.
  set (mid := Nat.max 1 (length batch / 2)). rewrite <-(take_drop mid batch) in Hv. apply Forall_app in Hv as [V1 V2].
  destruct (run_adaptive_batch_call _ fuel (take mid batch)) as [l| |] eqn:El; [|done..].
  destruct (run_adaptive_batch_call _ fuel (drop mid batch)) as [r| |] eqn:Er; [|done..].
  intros [= <-] k x [Hk|[_ Hk]]%lookup_union_Some_raw; [apply (IH _ _ V2 Er) in Hk as [Hk ?]|apply (IH _ _ V1 El) in Hk as [Hk ?]];
    (split; [|done]); rewrite <-(take_drop mid batch); apply elem_of_app; auto.
Qed.

Lemma dedupe_nodup (refs : list DataPackShardRef) : NoDup refs → _dedupe_refs refs = refs.
Proof.
  intros Hnd. unfold _dedupe_refs, ordered_unique_by.
  assert (∀ seen : list (DataPackShardRef * DataPackShardRef), NoDup (seen.*1 ++ refs) →
    (fold_left (λ seen item, if bool_decide (id item ∈ seen.*1) then seen else seen ++ [(id item, item)]) refs seen).*2 = seen.*2 ++ refs) as H.
  { clear Hnd. induction refs as [|r refs IH]; intros seen Hnd; cbn; [by rewrite app_nil_r|].
    rewrite bool_decide_false.
    - rewrite IH; [rewrite fmap_app; cbn; by rewrite <-app_assoc|]. rewrite fmap_app. cbn. by rewrite <-app_assoc.
    - apply NoDup_app in Hnd as (_ & Hd & _). intros Hin. apply (Hd _ Hin). by left. }
  by rewrite (H []).
Qed.

Lemma retrieve_own refs m :
  Forall valid_ref refs → NoDup refs → retrieve_shard_batch call refs = Answered m → ∀ k x, m !! k = Some x → k ∈ refs ∧ rd_ref x = k.
Proof.
  intros Hv Hnd. unfold retrieve_shard_batch. rewrite dedupe_nodup by done. destruct refs as [|r refs].
  - intros [= <-] k x. by rewrite lookup_empty.
  - by apply adaptive_own.
Qed.

Lemma shard_once_served blake3 ref batch :
  serves_shard blake3 ref call → Forall valid_ref batch →
  good_answer ref (λ x, rd_status x = SHARD_FOUND ∧ hash_bytes blake3 (rd_shard_data x) = rf_shard_hash ref) batch (_retrieve_shard_batch_once call batch)
  ∨ (_retrieve_shard_batch_once call batch = MessageTooLarge ∧ 1 < length batch).
Proof.
  intros Hs Hv. pose proof (once_own batch) as Hown. unfold _retrieve_shard_batch_once in *. specialize (Hs batch).
  destruct (call batch) as [items| |] eqn:E; [left|by right|done]. destruct Hs as [S1 S2].
  destruct (collect_total items ∅ batch Hv (Hasked _ _ E)) as [results Ec]. rewrite Ec in *.
  destruct (collect_spec items ∅ results batch Hv (Hasked _ _ E) ltac:(intros k x; by rewrite lookup_empty) Ec) as (_ & C2 & _ & C4).
  destruct (filled_results no_result batch results) as [F1 F2]. split.
  - intros k [x Hx]. by apply (Hown _ Hv eq_refl k x).
  - intros Hb. destruct (S1 Hb) as (y & Hy & Ey). destruct (C4 y Hy) as [x Hx]. rewrite Ey in Hx. exists x. split; [by apply F1|].
    destruct (C2 _ _ Hx) as [H|(z & Hz & Ez & Est & Edata)]; [by rewrite lookup_empty in H|]. destruct (S2 z Hz Ez) as [? ?]. by rewrite Est, Edata.
Qed.

Lemma retrieve_served blake3 ref refs :
  Forall valid_ref refs → NoDup refs → ref ∈ refs → serves_shard blake3 ref call →
  ∃ m x, retrieve_shard_batch call refs = Answered m ∧ m !! ref = Some x ∧ rd_status x = SHARD_FOUND
    ∧ hash_bytes blake3 (rd_shard_data x) = rf_shard_hash ref.
Proof.
  intros Hv Hnd Hin Hs. unfold retrieve_shard_batch. rewrite dedupe_nodup by done. destruct refs as [|r0 refs0]; [by inversion Hin|].
  set (refs := r0 :: refs0) in *.
  pose proof (adaptive_answers ref (λ x, rd_status x = SHARD_FOUND ∧ hash_bytes blake3 (rd_shard_data x) = rf_shard_hash ref) valid_ref
    (_retrieve_shard_batch_once call) (length refs) refs (λ batch, shard_once_served blake3 ref batch Hs) (Nat.le_refl _) Hnd Hv) as H.
  destruct (run_adaptive_batch_call _ _ _) as [m| |]; [|done..]. destruct H as [_ H]. destruct (H Hin) as (x & ? & ? & ?). by exists m, x.
Qed.
End answers.

(** ** The shards found *)

Section found.
Context (blake3 : bytes → bytes) (eenv : ErasureFetchEnv) (Hvalues : ∀ n l, ef_values eenv n l ≡ₚ l).

Definition answer_shards (n : nat) (target : pystr * list DataPackShardRef) : list DataPackShard := take_answer blake3 eenv n [] target.

Lemma make_shard_Ok ref data : valid_ref ref → hash_bytes blake3 data = rf_shard_hash ref →
  make_shard blake3 (rf_pack_hash ref) (rf_shard_index ref) data (rf_shard_hash ref)
  = Ok {| sh_pack_hash := rf_pack_hash ref; sh_index := rf_shard_index ref; sh_data := data; sh_hash := rf_shard_hash ref |}.
Proof.
  intros (Hp & Hs & Hi) Hd. unfold make_shard. rewrite !ec_hash64_Ok, ec_non_negative_Ok by done. cbn [mbind res_bind].
  by rewrite bool_decide_false by (rewrite Hd; tauto).
Qed.

Lemma make_shard_inv ref data s : valid_ref ref →
  make_shard blake3 (rf_pack_hash ref) (rf_shard_index ref) data (rf_shard_hash ref) = Ok s →
  shard_ref s = ref ∧ hash_bytes blake3 (sh_data s) = sh_hash s.
Proof.
  intros (Hp & Hs & Hi). unfold make_shard. rewrite !ec_hash64_Ok, ec_non_negative_Ok by done. cbn [mbind res_bind].
  case_bool_decide as E; [done|]. intros [= <-]. split; [by destruct ref|done].
Qed.

(** The shard of a result, if there is one. *)
Definition item_shard (x : RetrievedDataPackShard) : option DataPackShard :=
  if negb (rd_status x =? SHARD_FOUND)%Z then None
  else match make_shard blake3 (rf_pack_hash (rd_ref x)) (rf_shard_index (rd_ref x)) (rd_shard_data x) (rf_shard_hash (rd_ref x)) with
       | Ok shard => Some shard | Err _ => None end.

Lemma take_answer_omap n found target :
  take_answer blake3 eenv n found target = found ++ match retrieve_shard_batch (ef_retrieve eenv n target.1) target.2 with
    | Answered results => omap item_shard (ef_values eenv n (map_to_list results).*2) | _ => [] end.
Proof.
  unfold take_answer. destruct (retrieve_shard_batch _ _) as [results| |]; [|by rewrite app_nil_r..].
  generalize (ef_values eenv n (map_to_list results).*2). intros l. revert found.
  induction l as [|x l IH]; intros found; cbn; [by rewrite app_nil_r|]. rewrite IH. unfold item_shard at 2.
  destruct (negb _); [done|]. destruct (make_shard _ _ _ _ _); [|done]. by rewrite <-app_assoc.
Qed.

Lemma take_answers n found targets : fold_left (take_answer blake3 eenv n) targets found = found ++ concat (answer_shards n <$> targets).
Proof.
  revert found. induction targets as [|target targets IH]; intros found; cbn [fold_left fmap list_fmap concat]; [by rewrite app_nil_r|].
  rewrite IH, take_answer_omap. unfold answer_shards at 2. rewrite take_answer_omap. by rewrite <-app_assoc.
Qed.

(** An address gives whole shards among those asked, each once. *)
Lemma answer_shards_spec n target :
  sends_what_is_asked (ef_retrieve eenv n target.1) → Forall valid_ref target.2 → NoDup target.2 →
  NoDup (shard_ref <$> answer_shards n target)
  ∧ (∀ s, s ∈ answer_shards n target → shard_ref s ∈ target.2 ∧ hash_bytes blake3 (sh_data s) = sh_hash s)
  ∧ ∀ ref, ref ∈ target.2 → serves_shard blake3 ref (ef_retrieve eenv n target.1) → ref ∈ shard_ref <$> answer_shards n target.
Proof.
  intros Hasked Hv Hnd. unfold answer_shards. rewrite take_answer_omap. cbn [app].
  pose proof (retrieve_served (ef_retrieve eenv n target.1) Hasked blake3) as Hserved.
  pose proof (retrieve_own (ef_retrieve eenv n target.1) Hasked target.2) as Hown.
  destruct (retrieve_shard_batch _ target.2) as [results| |] eqn:Er.
  2, 3: split_and!; [constructor|intros s Hs; by inversion Hs|]; intros ref Hin Hs; destruct (Hserved ref _ Hv Hnd Hin Hs) as (m & x & E & _); congruence.
  specialize (Hown results Hv Hnd eq_refl). set (values := ef_values eenv n (map_to_list results).*2).
  assert (∀ x, x ∈ values ↔ results !! rd_ref x = Some x) as Hval.
  { intros x. unfold values. rewrite Hvalues, list_elem_of_fmap. split.
    - intros ([k x'] & -> & Hin%elem_of_map_to_list). cbn. by destruct (Hown _ _ Hin) as [_ ->].
    - intros Hx. exists (rd_ref x, x). by rewrite elem_of_map_to_list. }
  assert (NoDup (rd_ref <$> values)) as Hndv.
  { unfold values. rewrite Hvalues, <-list_fmap_compose. rewrite (list_fmap_ext _ fst); [apply NoDup_fst_map_to_list|].
    intros i [k x] Hi%list_elem_of_lookup_2%elem_of_map_to_list. cbn. by destruct (Hown _ _ Hi). }
  assert (∀ x s, x ∈ values → item_shard x = Some s → shard_ref s = rd_ref x ∧ rd_ref x ∈ target.2 ∧ hash_bytes blake3 (sh_data s) = sh_hash s) as Hitem.
  { intros x s Hx%Hval. destruct (Hown _ _ Hx) as [Hin _]. unfold item_shard. destruct (negb _); [done|].
    destruct (make_shard _ _ _ _ _) as [s'|] eqn:Es; [|done]. intros [= ->]. rewrite Forall_forall in Hv.
    apply make_shard_inv in Es as [? ?]; [by split_and!|by apply Hv]. }
  split_and!.
  - clear -Hndv Hitem. induction values as [|x l IH]; [constructor|]. cbn [fmap list_fmap] in Hndv. apply NoDup_cons in Hndv as [Hx Hnd].
    assert (∀ s, s ∈ omap item_shard l → shard_ref s ∈ rd_ref <$> l) as Hsub.
    { intros s (y & Hy & Es)%list_elem_of_omap. destruct (Hitem y s) as [-> _]; [by right|done|]. apply list_elem_of_fmap. by exists y. }
    cbn. destruct (item_shard x) as [s|] eqn:Es; [|apply IH; [done|intros; apply Hitem; [by right|done]]].
    cbn. apply NoDup_cons. split; [|apply IH; [done|intros; apply Hitem; [by right|done]]].
    destruct (Hitem x s) as [-> _]; [by left|done|]. intros (s' & E & Hs')%list_elem_of_fmap. apply Hx. rewrite E. by apply Hsub.
  - intros s (x & Hx & Es)%list_elem_of_omap. by destruct (Hitem x s Hx Es) as (-> & ? & ?).
  - intros ref Hin Hs. destruct (Hserved ref target.2 Hv Hnd Hin Hs) as (m & x & E & Hx & Hst & Hd).
    rewrite Er in E. injection E as <-.
    destruct (Hown _ _ Hx) as [_ Eref]. subst ref. rewrite Forall_forall in Hv. pose proof (Hv _ Hin) as Hvr.
    apply list_elem_of_fmap. eexists. split; [|apply list_elem_of_omap; exists x; split; [by apply Hval|]].
    2: { unfold item_shard. rewrite Hst, Z.eqb_refl. cbn [negb]. by rewrite make_shard_Ok. }
    by destruct (rd_ref x).
Qed.

(** All the answers together. *)
Lemma all_answers_spec n targets :
  (∀ a, sends_what_is_asked (ef_retrieve eenv n a)) → Forall valid_ref (concat targets.*2) → NoDup (concat targets.*2) →
  let found := concat (answer_shards n <$> targets) in
  NoDup (shard_ref <$> found)
  ∧ (∀ s, s ∈ found → shard_ref s ∈ concat targets.*2 ∧ hash_bytes blake3 (sh_data s) = sh_hash s)
  ∧ ∀ target ref, target ∈ targets → ref ∈ target.2 → serves_shard blake3 ref (ef_retrieve eenv n target.1) → ref ∈ shard_ref <$> found.
Proof.
  intros Hasked. cbn zeta. induction targets as [|target targets IH]; cbn [fmap list_fmap concat]; intros Hv Hnd.
  { split_and!; [constructor|intros s Hs; by inversion Hs|intros ? ? Ht; by inversion Ht]. }
  apply Forall_app in Hv as [V1 V2]. apply NoDup_app in Hnd as (N1 & Hdis & N2). destruct (IH V2 N2) as (I1 & I2 & I3).
  destruct (answer_shards_spec n target (Hasked _) V1 N1) as (A1 & A2 & A3). rewrite fmap_app. split_and!.
  - apply NoDup_app. split_and!; [done| |done]. intros ref (s & -> & Hs)%list_elem_of_fmap (s' & E & Hs')%list_elem_of_fmap.
    apply (Hdis (shard_ref s)); [by apply A2|]. rewrite E. by apply I2.
  - intros s [Hs|Hs]%elem_of_app; [destruct (A2 s Hs) as [? ?]|destruct (I2 s Hs) as [? ?]]; (split; [|done]); apply elem_of_app; auto.
  - intros tg ref [->|Ht]%elem_of_cons Hin Hs; apply elem_of_app; [left; by apply A3|right; by eapply I3].
Qed.
End found.

(** ** A pack from its custodians *)

(** The tables have the rows of the pack. *)
Record catalogued (t : ErasureTables) (pack : EncodedDataPack) : Prop := {
  ct_pack : ∃ r, data_packs t !! ep_pack_hash pack = Some r ∧ dp_pack_hash r = ep_pack_hash pack
    ∧ spec_from_erasure_metadata r = Ok (ep_spec pack) ∧ dp_data_shards r = data_shards (ep_spec pack)
    ∧ dp_payload_size r = ep_payload_size pack ∧ dp_padded_size r = ep_padded_size pack ∧ dp_shard_size r = ep_shard_size pack;
  ct_chunks : chunk_tuple_of <$> chunks_of t (ep_pack_hash pack) = entry_row <$> ep_entries pack;
  ct_shards : (λ s, (ps_pack_hash s, ps_shard_index s, ps_shard_hash s)) <$> shards_of t (ep_pack_hash pack)
    = (λ s, (sh_pack_hash s, sh_index s, sh_hash s)) <$> ep_shards pack }.

(** Enough nodes of the view, at addresses of their own, serve a shard of the pack. *)
Definition enough_custodians (blake3 : bytes → bytes) (eenv : ErasureFetchEnv) (t : ErasureTables) (cluster : ClusterView) (h : pystr) (k : Z) : Prop :=
  ∃ custodians : list (pystr * ErasureDataPackShardRecord),
    NoDup custodians.*1 ∧ (k <= Z.of_nat (length custodians))%Z
    ∧ ∀ c, c ∈ custodians → c.2 ∈ shards_of t h ∧ node_addresses cluster !! ps_node_id c.2 = Some c.1
        ∧ ∀ n, serves_shard blake3 (row_ref c.2) (ef_retrieve eenv n c.1).

Lemma manifest_rows t pack blake3 r :
  built blake3 pack → catalogued t pack → data_packs t !! ep_pack_hash pack = Some r →
  ∃ manifest, manifest_from_erasure_metadata r (chunks_of t (ep_pack_hash pack)) = Ok manifest ∧ pack_manifest pack = Ok manifest.
Proof.
  intros Hb [(r' & Hr' & Eh & Espec & _ & E1 & E2 & E3) Hchunks _] Hr. assert (r' = r) as -> by congruence.
  unfold manifest_from_erasure_metadata. rewrite Espec. cbn [mbind res_bind].
  assert (manifest_entries_from_erasure_metadata (chunks_of t (ep_pack_hash pack)) = Ok (ep_entries pack)) as ->.
  { unfold manifest_entries_from_erasure_metadata. destruct (bp_entries _ _ Hb) as (_ & Hv & _). revert Hchunks Hv.
    generalize (chunks_of t (ep_pack_hash pack)) as cs. generalize (ep_entries pack) as es.
    induction es as [|e es IH]; intros [|c cs] Hcs Hv; try done. destruct c as [ch ph off len ord], e as [eh eo el en].
    cbn [fmap list_fmap] in Hcs. injection Hcs as -> -> -> -> Hcs. apply Forall_cons in Hv as [(V1 & V2 & V3 & V4) Hv]. cbn [mapM_res en_chunk_hash en_offset en_length en_ordinal] in *.
    assert (make_entry eh eo el en = Ok {| en_chunk_hash := eh; en_offset := eo; en_length := el; en_ordinal := en |}) as E.
    { unfold make_entry. by rewrite ec_hash64_Ok, !ec_non_negative_Ok, ec_positive_Ok. }
    cbn [pc_chunk_hash pc_offset pc_length pc_ordinal]. rewrite E. cbn [mbind res_bind]. by rewrite (IH cs Hcs Hv). }
  cbn [mbind res_bind]. rewrite Eh, E1, E2, E3. unfold pack_manifest, make_manifest.
  rewrite ec_hash64_Ok by apply Hb. cbn [mbind res_bind]. destruct (bp_sizes _ _ Hb) as (S1 & S2 & S3).
  rewrite !(proj2 (Z.ltb_ge _ _)) by lia. cbn [orb]. rewrite S2, Z.eqb_refl. cbn [negb]. by eexists.
Qed.

Section rebuilt.
Context (data_folder : pystr) (blake3 : bytes → bytes) (compress : bytes → bytes).
Context (zencode : Z → Z → list bytes → list nat → list bytes) (zdecode : Z → Z → list bytes → list Z → res (list bytes)).
Context (fenv : FetchEnv) (eenv : ErasureFetchEnv) (known : gmap pystr Z) (t : ErasureTables) (Hwf : tables_wf known t).
Context (Hvalues : ∀ n l, ef_values eenv n l ≡ₚ l) (Hcomplete : ∀ n l, ef_complete eenv n l ≡ₚ l).
Context (Hasked : ∀ n a, sends_what_is_asked (ef_retrieve eenv n a)).
Context (pack : EncodedDataPack) (Hb : built blake3 pack) (Hcat : catalogued t pack).
Notation h := (ep_pack_hash pack).
Notation rows := (shards_of t (ep_pack_hash pack)).
Notation k := (data_shards (ep_spec pack)).

Lemma pack_row_shard row : row ∈ rows → ∃ s, s ∈ ep_shards pack ∧ shard_ref s = row_ref row.
Proof.
  intros Hrow. assert ((ps_pack_hash row, ps_shard_index row, ps_shard_hash row) ∈ (λ s, (sh_pack_hash s, sh_index s, sh_hash s)) <$> ep_shards pack)
    as (s & E & Hs)%list_elem_of_fmap.
  { rewrite <-(ct_shards _ _ Hcat). apply list_elem_of_fmap. by exists row. }
  exists s. split; [done|]. injection E as E1 E2 E3. unfold shard_ref, row_ref. by rewrite E1, E2, E3.
Qed.

Lemma pack_rows_refs : Forall (λ s, valid_ref (row_ref s)) rows ∧ NoDup (row_ref <$> rows) ∧ NoDup (rf_shard_index ∘ row_ref <$> rows).
Proof.
  destruct (ct_pack _ _ Hcat) as (r & Hr & _). destruct (shards_of_indexes _ _ _ _ Hwf Hr) as (Hidx & _ & _).
  assert (NoDup (rf_shard_index ∘ row_ref <$> rows)) as Hnd.
  { rewrite (list_fmap_ext _ ps_shard_index) by done. rewrite Hidx. apply NoDup_py_range. }
  split_and!; [|eapply (NoDup_fmap_1 rf_shard_index); by rewrite <-list_fmap_compose|done].
  apply Forall_forall. intros row (s & Hs & <-)%pack_row_shard. by destruct (payload_ref_valid blake3 pack Hb s Hs).
Qed.

Lemma retrieve_enough cluster s :
  resolves_to fenv cluster s → enough_custodians blake3 eenv t cluster h k →
  ∃ shards s', _retrieve_pack_shards blake3 fenv eenv rows k s = (Ok shards, s')
    ∧ NoDup (sh_index <$> shards) ∧ (k <= Z.of_nat (length shards))%Z
    ∧ ∀ x, x ∈ shards → hash_bytes blake3 (sh_data x) = sh_hash x ∧ ∃ x0, x0 ∈ ep_shards pack ∧ shard_ref x0 = shard_ref x.
Proof.
  intros Hres (custodians & Hndc & Hlen & Hcust). destruct pack_rows_refs as (Hv & Hndr & Hndi).
  unfold _retrieve_pack_shards. rewrite sm_bind_spec. pose proof (get_cluster_spec fenv s) as Hg.
  destruct (get_cluster fenv s) as [r s1]. destruct Hg as [_ Hg]. destruct (Hg cluster Hres) as [-> _]. rewrite sm_bind_spec.
  destruct (group_rows_spec rows (node_addresses cluster) false Hv) as (groups & errors & Eg & Hkeys & Hgr). rewrite Eg. cbn [slift].
  pose proof (group_rows_perm _ _ _ _ _ Hv Eg) as Hperm.
  assert (∀ c, c ∈ custodians → grouped groups c.1 (row_ref c.2)) as Hin.
  { intros c Hc. destruct (Hcust c Hc) as (H1 & H2 & _). apply Hgr. by exists c.2. }
  assert (length custodians ≤ length groups) as Hle.
  { rewrite <-(length_fmap fst custodians), <-(length_fmap fst groups). apply submseteq_length, NoDup_submseteq; [done|].
    intros a (c & -> & Hc)%list_elem_of_fmap. destruct (Hin c Hc) as (refs & Hr & _). apply list_elem_of_fmap. by exists (c.1, refs). }
  rewrite (proj2 (Z.ltb_ge _ _)) by lia. rewrite sm_bind_spec. cbn [tick]. set (n := ft_step s1). rewrite take_answers. cbn [app].
  set (targets := ef_complete eenv n groups).
  assert (concat targets.*2 ≡ₚ concat groups.*2) as Hpt.
  { unfold targets. rewrite (Hcomplete n groups). done. }
  assert (Forall valid_ref (concat targets.*2) ∧ NoDup (concat targets.*2)) as [Vt Nt].
  { rewrite Hpt, Hperm. split.
    - apply Forall_fmap. apply Forall_forall. intros row [_ Hrow]%list_elem_of_filter. rewrite Forall_forall in Hv. by apply Hv.
    - eapply sublist_NoDup; [exact Hndr|]. apply sublist_fmap, sublist_filter. }
  destruct (all_answers_spec blake3 eenv Hvalues n targets (Hasked n) Vt Nt) as (A1 & A2 & A3).
  set (found := concat (answer_shards blake3 eenv n <$> targets)) in *.
  assert (NoDup (sh_index <$> found)) as Hndf.
  { assert (sh_index <$> found = rf_shard_index <$> (shard_ref <$> found)) as -> by by rewrite <-list_fmap_compose.
    apply NoDup_fmap_2_strong; [|done]. intros x y (x' & -> & Hx)%list_elem_of_fmap (y' & -> & Hy)%list_elem_of_fmap E.
    destruct (A2 _ Hx) as [Hx' _], (A2 _ Hy) as [Hy' _]. rewrite Hpt, Hperm in Hx', Hy'.
    apply list_elem_of_fmap in Hx' as (rx & Ex & [_ Hrx]%list_elem_of_filter), Hy' as (ry & Ey & [_ Hry]%list_elem_of_filter).
    rewrite Ex, Ey in *. f_equal. by apply (NoDup_fmap_eq (rf_shard_index ∘ row_ref) rows). }
  assert (length custodians ≤ length found) as Hlf.
  { rewrite <-(length_fmap (row_ref ∘ snd) custodians), <-(length_fmap shard_ref found). apply submseteq_length, NoDup_submseteq.
    - apply NoDup_fmap_2_strong; [|by eapply NoDup_fmap_1]. intros c c' Hc Hc' E. destruct (Hcust c Hc) as (R1 & R2 & _), (Hcust c' Hc') as (R3 & R4 & _).
      assert (c.2 = c'.2) as E2 by (by apply (NoDup_fmap_eq row_ref rows)). rewrite E2, R4 in R2. injection R2 as E1. destruct c, c'; cbn in *; congruence.
    - intros ref (c & -> & Hc)%list_elem_of_fmap. destruct (Hin c Hc) as (refs & Hr & Hrr). destruct (Hcust c Hc) as (_ & _ & Hserve).
      apply (A3 (c.1, refs)); [by unfold targets; rewrite Hcomplete|done|apply Hserve]. }
  rewrite length_py_sorted. rewrite (proj2 (Z.ltb_ge _ _)) by lia. eexists _, _. split; [done|]. split_and!.
  - eapply sublist_NoDup; [|apply sublist_fmap, sublist_take]. by rewrite py_sorted_perm.
  - rewrite length_take, length_py_sorted. destruct (bp_spec _ _ Hb). lia.
  - intros x Hx. assert (x ∈ found) as Hxf.
    { apply elem_of_take in Hx as (j & Hj%list_elem_of_lookup_2 & _). by rewrite elem_of_py_sorted in Hj. }
    destruct (A2 x Hxf) as [Href Hhash]. split; [done|]. rewrite Hpt, Hperm in Href.
    apply list_elem_of_fmap in Href as (row & -> & [_ Hrow]%list_elem_of_filter). by apply pack_row_shard.
Qed.

Lemma list_or {A} (P : A → Prop) (C : Prop) (l : list A) : (∀ x, x ∈ l → P x ∨ C) → (∀ x, x ∈ l → P x) ∨ C.
Proof.
  induction l as [|x l IH]; intros H; [left; intros x Hx; by inversion Hx|].
  destruct (H x) as [Hx|]; [by left| |by right]. destruct IH as [Hl|]; [intros; apply H; by right| |by right].
  left. intros y [->|]%elem_of_cons; auto.
Qed.

Context (chunks : list (pystr * bytes)) (Hbuild : build_data_pack blake3 zencode chunks (ep_spec pack) = Ok pack).
Context (Hblake3 : ∀ data, length (blake3 data) = 32).
Context (Hmds : zfec_mds zencode zdecode (data_shards (ep_spec pack)) (total_shards (ep_spec pack))).
Context (Hne : chunks ≠ []) (Hchunks : Forall (chunk_ok blake3) chunks) (Hndc : NoDup chunks.*1).

(** Whatever the other nodes do, the pack is rebuilt from the custodians that serve it. *)
Lemma recover_enough cluster manifest wanted s :
  resolves_to fenv cluster s → enough_custodians blake3 eenv t cluster h k → pack_manifest pack = Ok manifest →
  collision blake3 ∨ ∃ m s', _recover_pack_chunks blake3 zdecode fenv eenv
      {| jb_pack_hash := h; jb_manifest := manifest; jb_shard_rows := rows; jb_wanted_hashes := wanted |} s = (Ok m, s')
    ∧ ∀ c d, (c, d) ∈ chunks → m !! c = Some d.
Proof.
  intros Hres Henough Hman. destruct (retrieve_enough cluster s Hres Henough) as (shards & s1 & E & Hnd & Hlen & Hsh).
  destruct (bp_spec _ _ Hb) as [Hk Hm].
  destruct (any_k_recover blake3 zencode zdecode (ep_spec pack) chunks Hblake3 Hk Hm Hmds Hne Hchunks Hndc)
    as (pack' & manifest' & Ebuild & Eman & _ & _ & Hany).
  assert (pack' = pack) as -> by congruence. assert (manifest' = manifest) as -> by congruence.
  assert (mf_spec manifest = ep_spec pack) as Espec.
  { unfold pack_manifest, make_manifest in Hman. apply bind_Ok in Hman as (? & _ & Hman). destruct (_ || _); [done|].
    destruct (negb _); [done|]. by injection Hman as <-. }
  assert ((∀ x, x ∈ shards → x ∈ ep_shards pack) ∨ collision blake3) as [Hin|]; [|right|by left].
  { apply list_or. intros x Hx. destruct (Hsh x Hx) as (Hhash & x0 & Hx0 & Eref). pose proof (bp_shards _ _ Hb) as Hbs.
    rewrite Forall_forall in Hbs. destruct (Hbs x0 Hx0) as (_ & Eh0 & _). unfold shard_ref in Eref. injection Eref as E1 E2 E3.
    destruct (same_hash blake3 (sh_data x) (sh_data x0)) as [Ed|]; [congruence| |by right]. left.
    assert (x = x0) as -> by (destruct x, x0; cbn in *; congruence). done. }
  destruct (Hany shards Hin Hnd Hlen) as (payload & m & Epay & Ex & Hget).
  exists m. unfold _recover_pack_chunks. rewrite sm_bind_spec. cbn [jb_shard_rows jb_manifest]. rewrite Espec, E.
  rewrite sm_bind_spec. cbn [slift]. rewrite Epay. cbn [slift]. rewrite Ex. by eexists.
Qed.
End rebuilt.

(** ** All the packs *)

(** The job of a pack could not be built. *)
Definition unprepared (job : res ErasurePackRecoveryJob) : bool := match job with Ok _ => false | Err _ => true end.

Section service.
Context (data_folder : pystr) (blake3 : bytes → bytes) (compress : bytes → bytes).
Context (zdecode : Z → Z → list bytes → list Z → res (list bytes)).
Context (fenv : FetchEnv) (eenv : ErasureFetchEnv) (t : ErasureTables).
Context (complete_jobs : nat → list ErasurePackRecoveryJob → list ErasurePackRecoveryJob).
Notation recover := (recover_many_raw_chunks data_folder blake3 compress zdecode fenv eenv t complete_jobs).
Notation recover_pack := (_recover_pack_chunks blake3 zdecode fenv eenv).
Notation finish := (finish_job data_folder blake3 compress zdecode fenv eenv).

(** The counters stay, and the view stays once it is known. *)
Definition quiet (s s' : FetchState) : Prop :=
  ft_stats s' = ft_stats s ∧ ∀ cluster, resolves_to fenv cluster s → resolves_to fenv cluster s'.

#[local] Instance quiet_preorder : PreOrder quiet.
Proof. split; [by split|]. intros s1 s2 s3 [E1 R1] [E2 R2]. split; [congruence|auto]. Qed.

Definition steady {A} (P : A → Prop) (m : SM FetchState A) : Prop := ∀ s, quiet s (m s).2 ∧ ∀ a, (m s).1 = Ok a → P a.

Lemma steady_ret {A} (P : A → Prop) a : P a → steady P (mret a).
Proof. intros H s. split; [done|]. by intros ? [= <-]. Qed.
Lemma steady_lift {A} (P : A → Prop) (r : res A) : (∀ a, r = Ok a → P a) → steady P (slift r).
Proof. intros H s. by split. Qed.
Lemma steady_raise {A} (P : A → Prop) e : steady P (sraise (A := A) e).
Proof. intros s. by split. Qed.
Lemma steady_bind {A B} (P : A → Prop) (Q : B → Prop) (m : SM FetchState A) (f : A → SM FetchState B) :
  steady P m → (∀ a, P a → steady Q (f a)) → steady Q (m ≫= f).
Proof.
  intros Hm Hf s. rewrite sm_bind_spec. specialize (Hm s). destruct (m s) as [[a|e] s1]; destruct Hm as [H1 HP]; [|by split].
  destruct (Hf a (HP a eq_refl) s1) as [H2 HQ]. split; [by etransitivity|done].
Qed.
Lemma steady_tick : steady (λ _, True) tick.
Proof. intros s. by split. Qed.
Lemma steady_cluster : steady (λ _, True) (get_cluster fenv).
Proof.
  intros s. split; [|done]. pose proof (get_cluster_spec fenv s) as H. destruct (get_cluster fenv s) as [r s']. destruct H as [H1 H2].
  split; [done|]. intros cluster Hc. left. by apply H2.
Qed.
(** What may fail without harm. *)
Lemma steady_try {A B} (m : SM FetchState A) (f : A → B) (b : B) :
  steady (λ _, True) m → steady (λ _, True) (scatch (r ← m; mret (f r)) (λ _, Some (mret b)))
  ∧ ∀ s, ∃ x, (scatch (r ← m; mret (f r)) (λ _, Some (mret b)) s) = (Ok x, (m s).2) ∧ x = match (m s).1 with Ok a => f a | Err _ => b end.
Proof.
  intros Hm. assert (∀ s, ∃ x, (scatch (r ← m; mret (f r)) (λ _, Some (mret b)) s) = (Ok x, (m s).2) ∧ x = match (m s).1 with Ok a => f a | Err _ => b end) as H.
  { intros s. unfold scatch. rewrite sm_bind_spec. destruct (m s) as [[a|e] s']; by eexists. }
  split; [|done]. intros s. destruct (H s) as (x & -> & _). split; [by apply Hm|done].
Qed.

Lemma steady_repo {A} (m : SM CasState A) : steady (λ _, True) (on_repo m).
Proof. intros s. unfold on_repo. destruct (m (ft_repo s)) as [r c]. by split. Qed.

Lemma steady_for {A} (f : A → SM FetchState unit) l : (∀ x, steady (λ _, True) (f x)) → steady (λ _, True) (sfor f l).
Proof. intros H. induction l as [|x l IH]; [by apply steady_ret|]. eapply steady_bind; [apply H|]. by intros _ _. Qed.

Lemma steady_cache job recovered : steady (λ _, True) (_cache_reconstructed_pack_chunks data_folder compress fenv job recovered).
Proof.
  apply steady_for. intros k. destruct (recovered !! k); [|by apply steady_ret]. unfold cache_raw.
  eapply steady_bind; [apply steady_tick|intros n _]. apply (steady_try _ (λ _, ()) ()), steady_repo.
Qed.

Lemma cache_returns job recovered s : ∃ s', _cache_reconstructed_pack_chunks data_folder compress fenv job recovered s = (Ok (), s').
Proof.
  unfold _cache_reconstructed_pack_chunks. revert s. induction (ordered_unique _) as [|k l IH]; intros s; [by eexists|]. cbn [sfor]. rewrite sm_bind_spec.
  destruct (recovered !! k); [|apply IH]. unfold cache_raw. rewrite sm_bind_spec. cbn [tick].
  unfold scatch. rewrite sm_bind_spec. destruct (on_repo _ _) as [[[]|e] s2]; apply IH.
Qed.

(** Chunks come out of a pack with the content of their hash. *)
Lemma steady_recover job : steady (λ m, ∀ k raw, m !! k = Some raw → blake3_hex_digest blake3 raw = k) (recover_pack job).
Proof.
  unfold _recover_pack_chunks. eapply (steady_bind (λ _, True)).
  - unfold _retrieve_pack_shards. eapply steady_bind; [apply steady_cluster|intros cluster _]. eapply (steady_bind (λ _, True)); [by apply steady_lift|].
    intros [groups errors] _. destruct (_ <? _)%Z; [apply steady_raise|]. eapply steady_bind; [apply steady_tick|intros n _].
    destruct (_ <? _)%Z; [apply steady_raise|by apply steady_ret].
  - intros shards _. eapply (steady_bind (λ _, True)); [by apply steady_lift|intros payload _]. apply steady_lift. intros m Hm.
    unfold extract_pack_chunks in Hm. cbn [mbind res_bind] in Hm. apply (extract_sound _ _ _ _ _ _ Hm). intros h d. by rewrite lookup_empty.
Qed.

(** The values of some keys, set. *)
Lemma set_all (f : pystr → res bytes) (hs : list pystr) (m : fetched) (k : pystr) :
  fold_left (λ m h, <[h := f h]> m) hs m !! k = if bool_decide (k ∈ hs) then Some (f k) else m !! k.
Proof.
  revert m. induction hs as [|h hs IH]; intros m; cbn [fold_left]; [done|]. rewrite IH. destruct (decide (k ∈ hs)) as [Hk|Hk].
  - rewrite !bool_decide_true; [done|by right|done].
  - rewrite (bool_decide_false _ Hk). destruct (decide (k = h)) as [->|Hne].
    + rewrite bool_decide_true by (by left). by rewrite lookup_insert_eq.
    + rewrite bool_decide_false by (intros [|]%elem_of_cons; done). by rewrite lookup_insert_ne.
Qed.

(** A job ends, sets the results of its chunks and no other. *)
Lemma finish_spec result_map job s :
  let value k := match (recover_pack job s).1 with
    | Err _ => Err ChunkUnavailableError
    | Ok m => match m !! k with None => Err ChunkUnavailableError | Some raw => Ok raw end end in
  ∃ m s', finish result_map job s = (Ok m, s') ∧ quiet s s'
    ∧ (∀ k, m !! k = if bool_decide (k ∈ jb_wanted_hashes job) then Some (value k) else result_map !! k)
    ∧ (genuine blake3 result_map → genuine blake3 m).
Proof.
  cbn zeta. unfold finish_job. rewrite sm_bind_spec.
  destruct (steady_try (recover_pack job) Some None) as [_ Htry]; [intros x; split; [apply steady_recover|done]|].
  destruct (Htry s) as (x & -> & ->). destruct (steady_recover job s) as [Hq Hgen]. destruct (recover_pack job s) as [[m|e] s1]; cbn [fst snd] in *.
  - rewrite sm_bind_spec. destruct (cache_returns job m s1) as [s2 E]. rewrite E. do 2 eexists. split; [done|]. split_and!.
    + etransitivity; [exact Hq|]. destruct (steady_cache job m s1) as [Hq2 _]. by rewrite E in Hq2.
    + intros k. apply (set_all (λ h, match m !! h with None => Err ChunkUnavailableError | Some value => Ok value end)).
    + intros Hg k raw. rewrite (set_all (λ h, match m !! h with None => Err ChunkUnavailableError | Some value => Ok value end)).
      case_bool_decide; [|apply Hg]. destruct (m !! k) eqn:Ek; [|done]. intros [= <-]. by apply (Hgen m).
  - do 2 eexists. split; [done|]. split_and!; [done| |].
    + intros k. apply (set_all (λ _, Err ChunkUnavailableError)).
    + intros Hg k raw. unfold fail_all. rewrite (set_all (λ _, Err ChunkUnavailableError)). case_bool_decide; [done|apply Hg].
Qed.

(** All the jobs; [J] is one of them, and the only one that wants [k]. *)
Lemma finish_all (C : Prop) jobs result_map s :
  ∃ m s', sfold finish jobs result_map s = (Ok m, s') ∧ quiet s s' ∧ (genuine blake3 result_map → genuine blake3 m)
    ∧ (∀ k, is_Some (m !! k) ↔ is_Some (result_map !! k) ∨ ∃ job, job ∈ jobs ∧ k ∈ jb_wanted_hashes job)
    ∧ (∀ k, (∀ job, job ∈ jobs → k ∉ jb_wanted_hashes job) → m !! k = result_map !! k)
    ∧ ∀ k raw J, J ∈ jobs → k ∈ jb_wanted_hashes J → (∀ job, job ∈ jobs → k ∈ jb_wanted_hashes job → job = J) →
        (∀ s0, quiet s s0 → C ∨ ∃ rec, (recover_pack J s0).1 = Ok rec ∧ rec !! k = Some raw) → C ∨ m !! k = Some (Ok raw).
Proof.
  revert result_map s. induction jobs as [|job jobs IH]; intros result_map s; cbn [sfold].
  { exists result_map, s. split_and!; [done|done|done| |done|intros k raw J HJ; by inversion HJ]. intros k. split; [by left|].
    intros [|(job & Hj & _)]; [done|by inversion Hj]. }
  rewrite sm_bind_spec. destruct (finish_spec result_map job s) as (m1 & s1 & -> & Hq1 & Hval & Hg1).
  destruct (IH m1 s1) as (m & s2 & -> & Hq2 & Hg2 & Hdom & Hsame & Hget). exists m, s2. split_and!; [done|by etransitivity|auto| | |].
  - intros k. rewrite Hdom, Hval. setoid_rewrite elem_of_cons. case_bool_decide as Hk.
    + split; [|intros _; left; by eexists]. intros _. right. exists job. split; [by left|done].
    + split; [intros [|(j & ? & ?)]; [by left|right; exists j; split; [by right|done]]|].
      intros [|(j & [->|] & ?)]; [by left|done|right; by exists j].
  - intros k Hno. rewrite Hsame, Hval; [|intros j Hj; apply Hno; by right]. rewrite bool_decide_false; [done|]. apply Hno. by left.
  - intros k raw J HJ Hk Honly Hrec. destruct (decide (Exists (λ j, k ∈ jb_wanted_hashes j) jobs)) as [Hex|Hno].
    + apply Exists_exists in Hex as (j & Hj & Hkj). assert (j = J) as -> by (apply Honly; [by right|done]).
      apply (Hget k raw J); [done|done| |].
      * intros j' Hj'. apply Honly. by right.
      * intros s0 Hq. apply Hrec. by transitivity s1.
    + rewrite <-Forall_Exists_neg, Forall_forall in Hno. rewrite Hsame, Hval by done.
      apply elem_of_cons in HJ as [->|HJ]; [|by destruct (Hno J HJ)].
      rewrite bool_decide_true by done. destruct (Hrec s) as [|(rec & -> & ->)]; [done|by left|by right].
Qed.

(** Two tests of equivalent conditions. *)
Ltac same_test := match goal with
  |- (if bool_decide ?P then _ else _) = (if bool_decide ?Q then _ else _) => rewrite (bool_decide_ext P Q); [reflexivity|] end.

(** Every chunk that a pack holds goes to the group of its pack, the others have failed. *)
Lemma group_missing (locations : gmap pystr ErasureDataPackChunkRecord) (hs : list pystr) (st : fetched * list (pystr * list pystr)) :
  let st' := fold_left (λ st chunk_hash,
        match locations !! chunk_hash with
        | None => (<[chunk_hash := Err ChunkUnavailableError]> st.1, st.2)
        | Some location => (st.1, extend_group st.2 (pc_pack_hash location) [chunk_hash])
        end) hs st in
  NoDup st.2.*1 →
  NoDup st'.2.*1
  ∧ (∀ p k, grouped st'.2 p k ↔ grouped st.2 p k ∨ (k ∈ hs ∧ pc_pack_hash <$> locations !! k = Some p))
  ∧ ∀ k, (st'.1 : fetched) !! k = if bool_decide (k ∈ hs ∧ locations !! k = None) then Some (Err ChunkUnavailableError) else st.1 !! k.
Proof.
  cbn zeta. revert st. induction hs as [|h hs IH]; intros st Hnd; cbn [fold_left].
  { split_and!; [done| |].
    - intros p k. split; [by left|]. intros [|[Hk _]]; [done|by inversion Hk].
    - intros k. rewrite bool_decide_false; [done|]. intros [Hk _]. by inversion Hk. }
  destruct (locations !! h) as [location|] eqn:El.
  - destruct (extend_group_spec st.2 (pc_pack_hash location) [h] Hnd) as [Hnd1 Hg].
    destruct (IH (st.1, extend_group st.2 (pc_pack_hash location) [h]) Hnd1) as (I1 & I2 & I3). cbn [fst snd] in *. split_and!; [done| |].
    + intros p k. rewrite I2, Hg, list_elem_of_singleton, elem_of_cons. split.
      * intros [[|[-> ->]]|[]]; [by left|right; rewrite El; split; [by left|done]|right; split; [by right|done]].
      * intros [|[[->|] Ep]]; [by left; left| |by right]. left. right. rewrite El in Ep. cbn in Ep. injection Ep as <-. done.
    + intros k. rewrite I3. same_test. rewrite elem_of_cons. split; [intros []; auto|]. intros [[->|] En]; [congruence|done].
  - destruct (IH (<[h := Err ChunkUnavailableError]> st.1, st.2) Hnd) as (I1 & I2 & I3). cbn [fst snd] in *. split_and!; [done| |].
    + intros p k. rewrite I2, elem_of_cons. split; [intros [|[]]; auto|]. intros [|[[->|] Ep]]; [by left| |by right]. by rewrite El in Ep.
    + intros k. rewrite I3. destruct (decide (k = h)) as [->|Hne].
      * rewrite lookup_insert_eq, (bool_decide_true (h ∈ h :: hs ∧ _)) by (split; [left|done]). by case_bool_decide.
      * rewrite lookup_insert_ne by done. same_test. rewrite elem_of_cons. naive_solver.
Qed.

(** The packs whose rows can be read become jobs, the chunks of the others have failed. *)
Lemma build_jobs groups result_map :
  let '(m, jobs) := _build_recovery_jobs t groups result_map in
  (∀ J, J ∈ jobs ↔ ∃ g, g ∈ groups ∧ _build_recovery_job t g.1 g.2 = Ok J)
  ∧ ∀ k, m !! k = if bool_decide (Exists (λ g, k ∈ g.2 ∧ unprepared (_build_recovery_job t g.1 g.2) = true) groups)
                  then Some (Err ChunkUnavailableError) else result_map !! k.
Proof.
  unfold _build_recovery_jobs.
  match goal with |- context [fold_left ?f _ _] => set (step := f) end.
  assert (∀ st, (∀ J, J ∈ (fold_left step groups st).2 ↔ J ∈ st.2 ∨ ∃ g, g ∈ groups ∧ _build_recovery_job t g.1 g.2 = Ok J)
    ∧ ∀ k, (fold_left step groups st).1 !! k = if bool_decide (Exists (λ g, k ∈ g.2 ∧ unprepared (_build_recovery_job t g.1 g.2) = true) groups)
                  then Some (Err ChunkUnavailableError) else st.1 !! k) as H.
  2: { destruct (H (result_map, [])) as [H1 H2]. destruct (fold_left _ _ _) as [m jobs]. split; [|exact H2].
       intros J. rewrite (H1 J). cbn. split; [|by right]. intros [HJ|]; [by inversion HJ|done]. }
  induction groups as [|g groups IH]; intros st; cbn [fold_left].
  { split; [intros J; split; [by left|]; intros [|(g & Hg & _)]; [done|by inversion Hg]|]. intros k. by rewrite bool_decide_false by (by intros ?%Exists_nil). }
  destruct (IH (step st g)) as [I1 I2]. split.
  - intros J. rewrite I1. unfold step. setoid_rewrite elem_of_cons. destruct (_build_recovery_job t g.1 g.2) as [J0|] eqn:E; cbn [snd].
    + rewrite elem_of_app, list_elem_of_singleton. split.
      * intros [[| ->]|(g' & ? & ?)]; [by left|right; exists g; split; [by left|done]|right; exists g'; split; [by right|done]].
      * intros [|(g' & [->|] & E')]; [by left; left|left; right; congruence|right; by exists g'].
    + split; [intros [|(g' & ? & ?)]; [by left|right; exists g'; split; [by right|done]]|].
      intros [|(g' & [->|] & E')]; [by left|congruence|right; by exists g'].
  - intros k. rewrite I2. unfold step. destruct (_build_recovery_job t g.1 g.2) as [J0|] eqn:E; cbn [fst].
    + same_test. rewrite Exists_cons, E. cbn. naive_solver.
    + unfold fail_all. rewrite (set_all (λ _, Err ChunkUnavailableError)). destruct (decide (k ∈ g.2)) as [Hk|Hk].
      * rewrite (bool_decide_true (k ∈ g.2)) by done. rewrite (bool_decide_true (Exists _ (g :: groups))) by (left; by rewrite E). by case_bool_decide.
      * rewrite (bool_decide_false (k ∈ g.2)) by done. same_test. rewrite Exists_cons. naive_solver.
Qed.

Lemma group_missing_Ok hs r :
  _group_missing_chunks_by_pack t hs = Ok r →
  ∃ locations : gmap pystr ErasureDataPackChunkRecord,
    (Forall (λ h, is_valid_blake3_hex h = true) hs → ∀ k, k ∈ hs → locations !! k = data_pack_chunks t !! k)
    ∧ NoDup r.2.*1
    ∧ (∀ p k, grouped r.2 p k ↔ k ∈ hs ∧ pc_pack_hash <$> locations !! k = Some p)
    ∧ ∀ k, r.1 !! k = if bool_decide (k ∈ hs ∧ locations !! k = None) then Some (Err ChunkUnavailableError) else None.
Proof.
  unfold _group_missing_chunks_by_pack, get_erasure_chunk_locations. intros H. apply bind_Ok in H as (locations & Hl & [= <-]).
  exists locations. destruct (group_missing locations hs (∅, [])) as (H1 & H2 & H3); [constructor|]. split_and!; [|done| |].
  - intros Hv k Hk. rewrite unique_hashes_valid in Hl by done. injection Hl as <-. destruct (data_pack_chunks t !! k) as [c|] eqn:E.
    + apply map_lookup_filter_Some. split; [done|by apply elem_of_ordered_unique].
    + apply map_lookup_filter_None. by left.
  - intros p k. rewrite H2. split; [|by right]. intros [(l & Hl' & _)|]; [by inversion Hl'|done].
  - intros k. rewrite H3. cbn [fst]. by rewrite lookup_empty.
Qed.

Context (Hcomplete_jobs : ∀ n l, complete_jobs n l ≡ₚ l).

Lemma job_wanted J p l : _build_recovery_job t p l = Ok J → jb_wanted_hashes J = l.
Proof.
  unfold _build_recovery_job. intros H. apply bind_Ok in H as ([pk|] & _ & H); [|done].
  apply bind_Ok in H as ([|c cs] & _ & H); apply bind_Ok in H as (shards & _ & H); [done|]. destruct (_ <? _)%Z; [done|].
  by apply bind_Ok in H as (manifest & _ & [= <-]).
Qed.

(** A recovery that gets its locations gives a result for each chunk, and what it gives is
    right; and the packs have one job each. *)
Lemma ec_recover_spec C hs s :
  let '(r, s') := recover hs s in
  quiet s s'
  ∧ (Forall (λ h, is_valid_blake3_hex h = true) hs → ∃ m, r = Ok m)
  ∧ ∀ m, r = Ok m → genuine blake3 m ∧ (∀ k, is_Some (m !! k) ↔ k ∈ hs)
      ∧ ∀ k c raw, Forall (λ h, is_valid_blake3_hex h = true) hs → k ∈ hs → data_pack_chunks t !! k = Some c →
          (∀ wanted, ∃ J, _build_recovery_job t (pc_pack_hash c) wanted = Ok J
             ∧ ∀ s0, quiet s s0 → C ∨ ∃ rec, (recover_pack J s0).1 = Ok rec ∧ rec !! k = Some raw) →
          C ∨ m !! k = Some (Ok raw).
Proof.
  unfold recover_many_raw_chunks. destruct (ordered_unique hs) as [|h0 us] eqn:Eu.
  { assert (hs = []) as -> by (destruct hs as [|h hs]; [done|]; exfalso; eapply not_elem_of_nil; rewrite <-Eu; apply elem_of_ordered_unique; left).
    cbn. split_and!; [done|by eexists|]. intros m [= <-]. split_and!; [intros h raw; by rewrite lookup_empty| |intros k c raw _ Hk; by inversion Hk].
    intros k. rewrite lookup_empty. split; [by intros []|by intros ?%not_elem_of_nil]. }
  rewrite <-Eu. assert (∀ k, k ∈ ordered_unique hs ↔ k ∈ hs) as Hin by (intros k; apply elem_of_ordered_unique).
  clear Eu. generalize dependent (ordered_unique hs). clear us h0. intros us Hin. rewrite sm_bind_spec. cbn [slift].
  destruct (_group_missing_chunks_by_pack t us) as [[m1 groups]|e] eqn:Eg.
  2: { split_and!; [done| |done]. intros Hv. exfalso. unfold _group_missing_chunks_by_pack, get_erasure_chunk_locations in Eg.
       rewrite unique_hashes_valid in Eg; [done|]. apply Forall_forall. intros k Hk%Hin. rewrite Forall_forall in Hv. by apply Hv. }
  destruct (group_missing_Ok _ _ Eg) as (locations & Hloc & Hnd & Hgr & Hm1). cbn [fst snd] in *.
  pose proof (build_jobs groups m1) as Hb. pose proof (eq_refl : _build_recovery_jobs t groups m1 = _build_recovery_jobs t groups m1) as Ej.
  revert Ej Hb. destruct (_build_recovery_jobs t groups m1) as [m2 jobs] at 2 3. intros Ej [Hjobs Hm2].
  match goal with |- let '(_, _) := ?m s in _ => assert (∃ jobs' s1, jobs' ≡ₚ jobs ∧ quiet s s1 ∧ m s = sfold finish jobs' m2 s1) as (jobs' & s1 & Hp & Hq & ->) end.
  { destruct groups as [|g groups]; [injection Ej as <- <-; by exists [], s|]. rewrite Ej. destruct jobs as [|J jobs]; [by exists [], s|].
    rewrite sm_bind_spec. cbn [tick]. eexists _, _. split; [apply Hcomplete_jobs|]. split; [|reflexivity]. by split. }
  destruct (finish_all C jobs' m2 s1) as (m & s2 & -> & Hq2 & Hgen & Hdom & _ & Hget).
  assert (∀ k e, m2 !! k = Some e → ∃ e', e = Err e') as Herr.
  { intros k e. rewrite Hm2, Hm1. repeat case_bool_decide; intros [= <-]; by eexists. }
  assert (∀ k, is_Some (m2 !! k) ∨ (∃ job, job ∈ jobs' ∧ k ∈ jb_wanted_hashes job) ↔ k ∈ us) as Hall.
  { intros k. rewrite Hm2, Hm1. split.
    - intros [Hk|(J & HJ & Hk)].
      + case_bool_decide as Hx; [|case_bool_decide as Hy; [by destruct Hy|by destruct Hk]].
        apply Exists_exists in Hx as ([p l] & Hg & Hk' & _). by apply (Hgr p k); exists l.
      + rewrite Hp in HJ. apply Hjobs in HJ as ([p l] & Hg & HJ). rewrite (job_wanted _ _ _ HJ) in Hk. by apply (Hgr p k); exists l.
    - intros Hk. destruct (locations !! k) as [c|] eqn:El; [|left; rewrite (bool_decide_true (k ∈ us ∧ _)) by done; case_bool_decide; by eexists].
      destruct (proj2 (Hgr (pc_pack_hash c) k)) as (l & Hg & Hkl); [by rewrite El|]. destruct (_build_recovery_job t (pc_pack_hash c) l) as [J|e] eqn:EJ.
      + right. exists J. rewrite Hp, (job_wanted _ _ _ EJ). split; [|done]. apply Hjobs. by exists (pc_pack_hash c, l).
      + left. rewrite bool_decide_true; [by eexists|]. apply Exists_exists. exists (pc_pack_hash c, l). cbn. by rewrite EJ. }
  split_and!; [by transitivity s1|by eexists|]. intros m' [= <-]. split_and!.
  - apply Hgen. intros k raw Hk. by destruct (Herr _ _ Hk).
  - intros k. by rewrite Hdom, Hall, Hin.
  - intros k c raw Hv Hk Hc Hjob. assert (locations !! k = Some c) as El.
    { rewrite Hloc; [done| |by apply Hin]. apply Forall_forall. intros x Hx%Hin. rewrite Forall_forall in Hv. by apply Hv. }
    destruct (proj2 (Hgr (pc_pack_hash c) k)) as (l & Hg & Hkl); [rewrite El; split; [by apply Hin|done]|].
    destruct (Hjob l) as (J & EJ & HJ). apply (Hget k raw J).
    + rewrite Hp. apply Hjobs. by exists (pc_pack_hash c, l).
    + by rewrite (job_wanted _ _ _ EJ).
    + intros J' HJ' Hk'. rewrite Hp in HJ'. apply Hjobs in HJ' as ([p' l'] & Hg' & EJ'). rewrite (job_wanted _ _ _ EJ') in Hk'.
      assert (p' = pc_pack_hash c) as ->.
      { destruct (proj1 (Hgr p' k)) as [_ E]; [by exists l'|]. rewrite El in E. by injection E. }
      assert ((pc_pack_hash c, l') = (pc_pack_hash c, l)) as [= ->] by (by apply (NoDup_fmap_eq fst groups)). cbn in EJ'. congruence.
    + intros s0 Hq0. apply HJ. by transitivity s1.
Qed.

#[export] Instance erasure_recovery : EcRecovery blake3 recover.
Proof.
  split.
  - intros hs s m s' E. pose proof (ec_recover_spec False hs s) as H. rewrite E in H. destruct H as (_ & _ & H). by apply H.
  - intros hs s. pose proof (ec_recover_spec False hs s) as H. destruct (recover hs s). apply H.
Qed.
End service.

(** ** Any k custodians are enough *)

Section enough.
Context (data_folder : pystr) (blake3 : bytes → bytes) (compress : bytes → bytes).
Context (zencode : Z → Z → list bytes → list nat → list bytes) (zdecode : Z → Z → list bytes → list Z → res (list bytes)).
Context (fenv : FetchEnv) (eenv : ErasureFetchEnv) (known : gmap pystr Z) (t : ErasureTables) (Hwf : tables_wf known t).
Context (pack : EncodedDataPack) (chunks : list (pystr * bytes)).
Context (Hbuild : build_data_pack blake3 zencode chunks (ep_spec pack) = Ok pack) (Hcat : catalogued t pack).
Context (Hb : built blake3 pack) (Hentries : en_chunk_hash <$> ep_entries pack = strip <$> chunks.*1).
Notation h := (ep_pack_hash pack).

(** The job of the pack can be built from the tables. *)
Lemma pack_job wanted :
  ∃ manifest, pack_manifest pack = Ok manifest
    ∧ _build_recovery_job t h wanted
      = Ok {| jb_pack_hash := h; jb_manifest := manifest; jb_shard_rows := shards_of t h; jb_wanted_hashes := wanted |}.
Proof.
  clear Hbuild Hentries chunks.
  destruct (ct_pack _ _ Hcat) as (r & Hr & Eh & _ & Ek & _). destruct (manifest_rows t pack blake3 r Hb Hcat Hr) as (manifest & Em & Ep).
  exists manifest. split; [done|]. unfold _build_recovery_job.
  assert (get_erasure_data_pack t h = Ok (Some r)) as Eg by (unfold get_erasure_data_pack; unfold require_hash64; rewrite valid_hash_stripped by apply Hb; cbn; by rewrite Hr).
  destruct (pack_as_read _ _ _ _ Hwf Hr Eg) as [Ec Es]. rewrite Eg, Ec, Es. cbn [mbind res_bind].
  destruct (shards_of_indexes _ _ _ _ Hwf Hr) as (Hidx & _). apply (f_equal length) in Hidx. unfold py_range in Hidx. rewrite !length_fmap, length_seq in Hidx.
  destruct (tw_packs _ _ Hwf _ _ Hr) as [_ Hok]. destruct (chunks_of t h) as [|c cs] eqn:Ecs.
  { pose proof (ct_chunks _ _ Hcat) as E. rewrite Ecs in E. destruct (ep_entries pack) eqn:Ee; [|done]. by destruct (bp_entries _ _ Hb) as [? _]. }
  rewrite (proj2 (Z.ltb_ge _ _)); [by rewrite Em|]. destruct (bp_spec _ _ Hb). unfold remote_targets_of in Hidx. pose proof (po_parity _ Hok). lia.
Qed.

Lemma pack_chunk_row c d : (c, d) ∈ chunks → is_valid_blake3_hex c = true → ∃ row, data_pack_chunks t !! c = Some row ∧ pc_pack_hash row = h.
Proof.
  intros Hin Hv. assert (c ∈ en_chunk_hash <$> ep_entries pack) as (e & -> & He)%list_elem_of_fmap.
  { rewrite Hentries. apply list_elem_of_fmap. exists c. split; [symmetry; apply strip_hex; unfold is_valid_blake3_hex in Hv; by bool_hyps|]. apply list_elem_of_fmap. by exists (c, d). }
  assert (entry_row e ∈ chunk_tuple_of <$> chunks_of t h) as (row & E & Hrow)%list_elem_of_fmap.
  { rewrite (ct_chunks _ _ Hcat). apply list_elem_of_fmap. by exists e. }
  apply elem_of_selected in Hrow as [Eh [k Hk]]. exists row. split; [|done]. destruct (tw_chunks _ _ Hwf _ _ Hk) as (Ek & _).
  unfold entry_row, chunk_tuple_of in E. injection E as -> _ _ _. by rewrite Ek.
Qed.
End enough.

(** C10: Any k custodians are enough. Let a pack that the code built from some chunks be in the
    tables, and let the view of the cluster have k nodes, at addresses of their own, each of
    which serves the shard that the tables place on it. Let every answer, of these nodes and of
    the others, only hold shards that were asked for (an answer for another shard makes the
    recovery of the pack fail). Then a recovery of any list of hashes returns - whatever else
    the other nodes answer about the shards they were asked for, wrong data and refusals
    included, or fail to answer, in whatever order the answers come and the packs complete, and
    whether or not the local store takes the chunks - and gives the content of every chunk of
    that pack that is in the list; or BLAKE3 has a collision. *)
Theorem any_k_custodians_restore data_folder blake3 compress zencode zdecode fenv eenv known t complete_jobs pack chunks cluster hs s :
  tables_wf known t → catalogued t pack →
  (0 < data_shards (ep_spec pack))%Z → (0 <= parity_shards (ep_spec pack))%Z →
  build_data_pack blake3 zencode chunks (ep_spec pack) = Ok pack → chunks ≠ [] → Forall (chunk_ok blake3) chunks → NoDup chunks.*1 →
  (∀ data, length (blake3 data) = 32) →
  zfec_mds zencode zdecode (data_shards (ep_spec pack)) (total_shards (ep_spec pack)) →
  (∀ n l, ef_values eenv n l ≡ₚ l) → (∀ n l, ef_complete eenv n l ≡ₚ l) → (∀ n l, complete_jobs n l ≡ₚ l) →
  (∀ n a, sends_what_is_asked (ef_retrieve eenv n a)) →
  resolves_to fenv cluster s →
  enough_custodians blake3 eenv t cluster (ep_pack_hash pack) (data_shards (ep_spec pack)) →
  Forall (λ h, is_valid_blake3_hex h = true) hs →
  collision blake3
  ∨ ∃ m s', recover_many_raw_chunks data_folder blake3 compress zdecode fenv eenv t complete_jobs hs s = (Ok m, s')
      ∧ (∀ h, is_Some (m !! h) ↔ h ∈ hs) ∧ ∀ h d, (h, d) ∈ chunks → h ∈ hs → m !! h = Some (Ok d).
Proof.
  intros Hwf Hcat Hk Hm Hbuild Hne Hchunks Hnd Hlen Hmds Hvalues Hcomplete Hjobs Hasked Hres Henough Hv.
  assert (Forall (λ c : pystr * bytes, is_valid_blake3_hex c.1 = true) chunks) as Hvc.
  { eapply Forall_impl; [exact Hchunks|]. intros c [-> _]. by apply hash_bytes_valid. }
  assert (built blake3 pack ∧ ep_spec pack = ep_spec pack ∧ en_chunk_hash <$> ep_entries pack = strip <$> chunks.*1) as (Hb & _ & Hent).
  { apply (build_built blake3 zencode); [done..|]. unfold build_data_pack in Hbuild. by rewrite validated_Ok in Hbuild. }
  pose proof (ec_recover_spec data_folder blake3 compress zdecode fenv eenv t complete_jobs Hjobs (collision blake3) hs s) as H.
  destruct (recover_many_raw_chunks _ _ _ _ _ _ _ _ hs s) as [r s']. destruct H as (_ & Hret & Hget). destruct (Hret Hv) as [m ->].
  destruct (Hget m eq_refl) as (_ & Hdom & Hrec).
  destruct (list_or (λ c : pystr * bytes, c.1 ∈ hs → m !! c.1 = Some (Ok c.2)) (collision blake3) chunks) as [Hall|]; [| |by left].
  - intros [h d] Hin. cbn [fst snd]. destruct (decide (h ∈ hs)) as [Hh|]; [|by left]. rewrite Forall_forall in Hvc.
    destruct (pack_chunk_row known t Hwf pack chunks Hcat Hent h d Hin (Hvc _ Hin)) as (row & Hrow & Ep).
    enough (collision blake3 ∨ m !! h = Some (Ok d)) by tauto. apply (Hrec h row d Hv Hh Hrow). intros wanted. rewrite Ep.
    destruct (pack_job blake3 known t Hwf pack Hcat Hb wanted) as (manifest & Eman & Ejob). eexists. split; [exact Ejob|].
    intros s0 [_ Hq]. destruct (recover_enough blake3 zencode zdecode fenv eenv known t Hwf Hvalues Hcomplete Hasked pack Hb Hcat chunks
      Hbuild Hlen Hmds Hne Hchunks Hnd cluster manifest wanted s0 (Hq _ Hres) Henough Eman) as [|(rec & s1 & E & Hr)]; [by left|].
    right. exists rec. rewrite E. split; [done|by apply Hr].
  - right. exists m, s'. split; [done|]. split; [done|]. intros h d Hin Hh. by apply (Hall (h, d)).
Qed.

(** ** The storage service of a node is such a server *)

Section service_answers.
Context (root : pystr) (max_shard_size : Z) (blake3 : bytes → bytes) (exc_text : exn → pystr) (py_repr : pystr → pystr).
Context (token : pystr) (metadata : list (pystr * bytes)) (read_error : DataPackShardRef → option exn) (files : ShardFiles).

(** The answer of the handler of [RetrieveDataPackShardBatch] on these files. *)
Definition node_answer (refs : list DataPackShardRef) : call_outcome (list RetrievedDataPackShard) :=
  match (RetrieveDataPackShardBatch root blake3 exc_text py_repr token false metadata read_error refs files).1 with
  | Ok results => Answered results
  | Err _ => CallFailed
  end.

Lemma node_answer_own : (∀ ref, read_error ref ≠ Some FileNotFoundError) → sends_what_is_asked node_answer.
Proof.
  intros Hre batch items. unfold node_answer, RetrieveDataPackShardBatch. rewrite sm_bind_spec.
  pose proof (check_call_spec token false metadata files) as Hc. destruct (check_call _ _ _ files) as [[[]|e] s1]; [|done].
  cbn. intros [= <-] x (ref & -> & Hin)%list_elem_of_fmap.
  by destruct (retrieve_one_spec root max_shard_size blake3 exc_text py_repr read_error s1 ref Hre) as (-> & _).
Qed.

Lemma node_answer_serves ref :
  check_call token false metadata files = (Ok (), files) → (∀ ref, read_error ref ≠ Some FileNotFoundError) → read_error ref = None →
  shards_sound root max_shard_size blake3 files → valid_ref ref → holds_shard root ref files → serves_shard blake3 ref node_answer.
Proof.
  intros Hc Hre Hno Hsound Hv Hh batch. unfold node_answer, RetrieveDataPackShardBatch. rewrite sm_bind_spec, Hc. cbn.
  pose proof (λ ref, retrieve_one_spec root max_shard_size blake3 exc_text py_repr read_error files ref Hre) as Hone. split.
  - intros Hin. destruct (Hone ref) as (E & _). eexists. split; [|exact E]. apply list_elem_of_fmap. by exists ref.
  - intros x (r & -> & Hin)%list_elem_of_fmap. destruct (Hone r) as (-> & H1 & _ & H2). intros ->.
    specialize (H2 Hv Hno Hsound Hh). destruct (H1 H2) as (_ & _ & Hd). split; [done|exact Hd].
Qed.
End service_answers.

(** ** Witness: the mirrored pack, from one of its two nodes *)

Module EcRestoreWitness.
Import EcPusherWitness.
Definition pack : EncodedDataPack :=
  match build_data_pack toy_digest mirror [(toy_hash, content)] spec with
  | Ok pack => pack
  | Err _ => {| ep_pack_hash := []; ep_payload_size := 0; ep_padded_size := 0; ep_shard_size := 0; ep_spec := spec; ep_entries := []; ep_shards := [] |}
  end.
Definition tables : ErasureTables := outcome.2.
Definition copied (k n : Z) (blocks : list bytes) (indexes : list Z) : res (list bytes) := Ok blocks.
Definition answer : list DataPackShardRef → call_outcome (list RetrievedDataPackShard) :=
  node_answer (u "/ec") toy_digest (λ _, []) id toy_token toy_metadata (λ _, None) held.
(** Only one node is up. *)
Definition row : option ErasureDataPackShardRecord := head (shards_of tables pack_hash).
Definition up (address : pystr) : bool :=
  match row with Some r => bool_decide (node_addresses view !! ps_node_id r = Some address) | None => false end.
Definition eenv : ErasureFetchEnv := {|
  ef_retrieve := λ _ address refs, if up address then answer refs else CallFailed;
  ef_complete := λ _ l, rev l; ef_values := λ _ l, l |}.
Definition fenv : FetchEnv := {|
  fe_read_fails := λ _ _, false; fe_others := λ _ c, c; fe_p2p := None; fe_p2p_read_fails := λ _ _, false;
  fe_cas := λ _, quiet_env; fe_resolve := λ _, Ok view; fe_retrieve := λ _ _ _, CallFailed; fe_order := λ _ gs, gs |}.
End EcRestoreWitness.
Import EcRestoreWitness.

Lemma mirror_pack :
  build_data_pack toy_digest EcPusherWitness.mirror [(toy_hash, EcPusherWitness.content)] EcPusherWitness.spec = Ok pack
  ∧ ep_spec pack = EcPusherWitness.spec ∧ ep_pack_hash pack = EcPusherWitness.pack_hash.
Proof. vm_compute. by split_and!. Qed.

Lemma mirror_mds : zfec_mds EcPusherWitness.mirror copied 1 2.
Proof.
  intros blocks size Hlen Hsize raw. destruct blocks as [|b [|? ?]]; try done. split; [done|]. split.
  - apply Forall_cons in Hsize as [? _]. by repeat constructor.
  - intros [|i [|? ?]] _ Hl Hr; try done. apply Forall_cons in Hr as [Hr _]. unfold copied, raw. cbn.
    assert (i = 0 ∨ i = 1)%Z as [->| ->] by lia; reflexivity.
Qed.

Lemma mirror_rows :
  match data_packs tables !! EcPusherWitness.pack_hash with
  | Some r => bool_decide (dp_pack_hash r = EcPusherWitness.pack_hash)
      && match spec_from_erasure_metadata r with
         | Ok s => bool_decide ((data_shards s, parity_shards s, es_codec s) = (1%Z, 1%Z, u "zfec"))
         | Err _ => false end
      && (bool_decide (dp_data_shards r = 1%Z) && (bool_decide (dp_payload_size r = ep_payload_size pack)
          && (bool_decide (dp_padded_size r = ep_padded_size pack) && bool_decide (dp_shard_size r = ep_shard_size pack))))
  | None => false
  end
  && bool_decide (chunk_tuple_of <$> chunks_of tables EcPusherWitness.pack_hash = entry_row <$> ep_entries pack)
  && bool_decide ((λ s, (ps_pack_hash s, ps_shard_index s, ps_shard_hash s)) <$> shards_of tables EcPusherWitness.pack_hash
                  = (λ s, (sh_pack_hash s, sh_index s, sh_hash s)) <$> ep_shards pack)
  && match row with
     | Some r => bool_decide (row_ref r = EcPusherWitness.shard 0) && match node_addresses EcPusherWitness.view !! ps_node_id r with Some _ => true | None => false end
     | None => false
     end = true.
Proof. vm_compute. reflexivity. Qed.

Lemma mirror_catalogued : catalogued tables pack.
Proof.
  destruct mirror_pack as (_ & Es & Eh). pose proof mirror_rows as H. apply andb_prop in H as [H _]. apply andb_prop in H as [H H3].
  apply andb_prop in H as [H1 H2]. apply bool_decide_eq_true in H2, H3. split; rewrite Eh; [|exact H2|exact H3].
  destruct (data_packs tables !! EcPusherWitness.pack_hash) as [r|]; [|discriminate H1]. exists r. apply andb_prop in H1 as [H1 Hd]. apply andb_prop in H1 as [H0 H1].
  apply andb_prop in Hd as [D1 Hd]. apply andb_prop in Hd as [D2 Hd]. apply andb_prop in Hd as [D3 D4].
  apply bool_decide_eq_true in H0, D1, D2, D3, D4. destruct (spec_from_erasure_metadata r) as [s|]; [|discriminate H1]. apply bool_decide_eq_true in H1.
  injection H1 as E1 E2 E3. rewrite Es. split; [reflexivity|]. split; [exact H0|].
  split; [|split; [exact D1|split; [exact D2|split; [exact D3|exact D4]]]]. destruct s. cbn in E1, E2, E3. by subst.
Qed.

Lemma mirror_tables_wf : tables_wf (chunks EcPusherWitness.catalog) tables.
Proof.
  assert (rtc erasure_step (chunks EcPusherWitness.catalog, empty_tables) (chunks EcPusherWitness.catalog, EcPusherWitness.outcome.2)) as H.
  { eapply (push_evidence toy_digest EcPusherWitness.mirror (λ _, []) EcPusherWitness.env EcPusherWitness.catalog (Ok EcPusherWitness.context)
      None 1 1 1000 1 4096 1000 10 None None empty_tables EcPusherWitness.outcome.1); [apply empty_tables_wf|].
    exact (surjective_pairing EcPusherWitness.outcome). }
  destruct (erasure_steps_wf _ _ H (empty_tables_wf _)) as [Hwf _]. cbn [fst snd] in Hwf. unfold tables. exact Hwf.
Qed.

Lemma mirror_custodian : enough_custodians toy_digest eenv tables EcPusherWitness.view (ep_pack_hash pack) (data_shards (ep_spec pack)).
Proof.
  destruct mirror_pack as (_ & -> & ->). pose proof mirror_rows as H. apply andb_prop in H as [_ H].
  destruct row as [r|] eqn:Er; [|discriminate H]. apply andb_prop in H as [H1 H2]. apply bool_decide_eq_true in H1.
  destruct (node_addresses EcPusherWitness.view !! ps_node_id r) as [a|] eqn:Ea; [|discriminate H2]. exists [(a, r)]. split_and!; [repeat constructor; by intros ?%not_elem_of_nil|done|].
  intros c ->%list_elem_of_singleton. cbn [fst snd]. split_and!; [|done|].
  - unfold row in Er. destruct (shards_of tables EcPusherWitness.pack_hash); [discriminate Er|]. injection Er as ->. left.
  - intros n. cbn [ef_retrieve eenv]. unfold up. rewrite Er, bool_decide_true by done. rewrite H1. unfold answer.
    apply (node_answer_serves (u "/ec") 1000).
    + by generalize EcPusherWitness.held.
    + intros ref. discriminate.
    + reflexivity.
    + apply mirror_held_sound.
    + by_compute.
    + exists EcPusherWitness.content. unfold EcPusherWitness.held. apply lookup_insert_eq.
Qed.

Lemma any_k_custodians_restore_witness :
  collision toy_digest
  ∨ ∃ m s', recover_many_raw_chunks (u "/cas") toy_digest id copied fenv eenv tables (λ _ l, l) [toy_hash] fresh_fetch = (Ok m, s')
      ∧ m !! toy_hash = Some (Ok EcPusherWitness.content).
Proof.
  destruct mirror_pack as (Hbuild & Es & Eh).
  destruct (any_k_custodians_restore (u "/cas") toy_digest id EcPusherWitness.mirror copied fenv eenv (chunks EcPusherWitness.catalog) tables
    (λ _ l, l) pack [(toy_hash, EcPusherWitness.content)] EcPusherWitness.view [toy_hash] fresh_fetch) as [|(m & s' & E & _ & H)].
  - exact mirror_tables_wf.
  - exact mirror_catalogued.
  - rewrite Es. reflexivity.
  - rewrite Es. discriminate.
  - rewrite Es. exact Hbuild.
  - discriminate.
  - constructor; [split; [reflexivity|discriminate]|constructor].
  - apply NoDup_singleton.
  - intros data. reflexivity.
  - rewrite Es. exact mirror_mds.
  - intros n l. reflexivity.
  - intros n l. symmetry. apply Permutation_rev.
  - intros n l. reflexivity.
  - intros n a. cbn [ef_retrieve eenv]. destruct (up a); [apply (node_answer_own (u "/ec") 1000); discriminate|discriminate].
  - right. split; [reflexivity|intros n; reflexivity].
  - exact mirror_custodian.
  - constructor; [by_compute|constructor].
  - by left.
  - right. exists m, s'. split; [exact E|]. apply (H toy_hash); left.
Defined.
