(* ===== verification/MetaModels.v ===== *)
(** * The objects of the metadata graph

    [metadata/objects/models.py]: the catalogue is exported as a graph of immutable objects
    that refer to each other by the hash of their canonical JSON. Each dataclass is a record;
    its [__post_init__] is a check on it, in which the isinstance tests are the types of the
    fields. The texts of the errors are left out. *)

From S2P Require Import Prelude PyStr Common PyFloat Json Protection Catalog.

(** ** Checks shared by the classes *)

Definition refuse_if (c : bool) : res unit := raise_if c MetadataObjectError.

(** [_require_str] of a field that is a string. *)
Definition _require_str (s : pystr) : res unit := refuse_if (bool_decide (s = [])).
Definition _require_int (value min_value : Z) : res unit := refuse_if (value <? min_value)%Z.
Definition _require_hash64 (s : pystr) : res unit := refuse_if (negb (is_valid_blake3_hex s)).

Definition hex_of_length (n : nat) (s : pystr) : bool := (length s =? n) && forallb is_hex_lower s.
(** [_require_node_id] and [_require_vault_id] *)
Definition _require_node_id (s : pystr) : res unit := refuse_if (negb (hex_of_length 32 s)).

(** [[0-9a-f]{8}-[0-9a-f]{4}-[0-9a-f]{4}-[0-9a-f]{4}-[0-9a-f]{12}] *)
Definition is_uuid (s : pystr) : bool :=
  hex_of_length 8 (take 8 s) && bool_decide (take 1 (drop 8 s) = u "-")
  && hex_of_length 4 (take 4 (drop 9 s)) && bool_decide (take 1 (drop 13 s) = u "-")
  && hex_of_length 4 (take 4 (drop 14 s)) && bool_decide (take 1 (drop 18 s) = u "-")
  && hex_of_length 4 (take 4 (drop 19 s)) && bool_decide (take 1 (drop 23 s) = u "-")
  && hex_of_length 12 (drop 24 s).
Definition _require_uuid (s : pystr) : res unit := refuse_if (negb (is_uuid s)).

(** A JSON number: int or float. *)
Inductive number := NInt (z : Z) | NFloat (f : pyfloat).
#[export] Instance number_eq_dec : EqDecision number.
Proof. solve_decision. Defined.

(** The integers [float] refuses with OverflowError: those that round beyond the largest double. *)
Definition float_overflows (z : Z) : bool := (2 ^ 1024 - 2 ^ 970 <=? Z.abs z)%Z.

(** [_require_number], with [min_value=0.0] when [non_negative]. *)
Definition _require_number (non_negative : bool) (n : number) : res unit :=
  match n with
  | NInt z => _ ← raise_if (float_overflows z) OverflowError; refuse_if (non_negative && (z <? 0)%Z)
  | NFloat f => _ ← refuse_if (negb (isfinite f)); refuse_if (non_negative && float_negative f)
  end.

(** [if value is not None: check(value)] *)
Definition if_present {A} (check : A → res unit) (x : option A) : res unit :=
  match x with Some a => check a | None => Ok () end.

Fixpoint for_all {A} (check : A → res unit) (l : list A) : res unit :=
  match l with [] => Ok () | x :: l => _ ← check x; for_all check l end.

(** [re.fullmatch(r"[0-9a-f]{2}", prefix)] *)
Definition is_prefix2 (s : pystr) : bool := hex_of_length 2 s.

Fixpoint starts_with (p s : pystr) : bool :=
  match p, s with
  | [], _ => true
  | c :: p', d :: s' => (c =? d)%N && starts_with p' s'
  | _ :: _, [] => false
  end.

(** The loop of the classes that hold ordered entries: each entry is accepted, its key is
    new, and it is not before the previous one. *)
Section entries.
Context {A : Type} (accept : A → res unit) (key : A → pystr) (before : A → A → bool).

Fixpoint check_entries (seen : list pystr) (previous : option A) (l : list A) : res unit :=
  match l with
  | [] => Ok ()
  | x :: l' =>
      _ ← accept x;
      _ ← refuse_if (bool_decide (key x ∈ seen));
      _ ← refuse_if (match previous with Some p => before x p | None => false end);
      check_entries (key x :: seen) (Some x) l'
  end.
End entries.

(** ** References *)

Inductive MetadataObjectType :=
  | CATALOG | SNAPSHOT_INDEX | SNAPSHOT_ROOT | TREE | FILE | RECIPE | CHUNK_LIST
  | KNOWN_CHUNK_INDEX | KNOWN_CHUNK_SHARD | PROTECTION_INDEX | PROTECTION_SHARD
  | ERASURE_DATA_PACK_INDEX | ERASURE_DATA_PACK_SHARD.
#[export] Instance object_type_eq_dec : EqDecision MetadataObjectType.
Proof. solve_decision. Defined.

Definition type_value (t : MetadataObjectType) : pystr :=
  match t with
  | CATALOG => u "catalog" | SNAPSHOT_INDEX => u "snapshot_index"
  | SNAPSHOT_ROOT => u "snapshot_root" | TREE => u "tree" | FILE => u "file"
  | RECIPE => u "recipe" | CHUNK_LIST => u "chunk_list"
  | KNOWN_CHUNK_INDEX => u "known_chunk_index" | KNOWN_CHUNK_SHARD => u "known_chunk_shard"
  | PROTECTION_INDEX => u "protection_index" | PROTECTION_SHARD => u "protection_shard"
  | ERASURE_DATA_PACK_INDEX => u "erasure_data_pack_index"
  | ERASURE_DATA_PACK_SHARD => u "erasure_data_pack_shard"
  end.

Definition object_types : list MetadataObjectType :=
  [CATALOG; SNAPSHOT_INDEX; SNAPSHOT_ROOT; TREE; FILE; RECIPE; CHUNK_LIST; KNOWN_CHUNK_INDEX;
   KNOWN_CHUNK_SHARD; PROTECTION_INDEX; PROTECTION_SHARD; ERASURE_DATA_PACK_INDEX; ERASURE_DATA_PACK_SHARD].

(** [MetadataObjectType(text)]; [None] stands for ValueError. *)
Definition type_of_value (s : pystr) : option MetadataObjectType :=
  List.find (λ t, bool_decide (type_value t = s)) object_types.

Record ObjectRef := { ref_type : MetadataObjectType; ref_hash : pystr }.
#[export] Instance object_ref_eq_dec : EqDecision ObjectRef.
Proof. solve_decision. Defined.
Definition check_ref (r : ObjectRef) : res unit := _require_hash64 (ref_hash r).
(** [ref.object_type != expected: raise] *)
Definition refers_to (t : MetadataObjectType) (r : ObjectRef) : res unit := refuse_if (bool_decide (ref_type r ≠ t)).

(** ** Files and trees *)

Record ChunkRef := { cref_order : Z; cref_chunk_hash : pystr; cref_size : Z }.
Definition check_chunk_ref (c : ChunkRef) : res unit :=
  _ ← _require_int (cref_order c) 0; _ ← _require_hash64 (cref_chunk_hash c); _require_int (cref_size c) 1.

Record ChunkListObject := { clist_chunks : list ChunkRef }.
Fixpoint check_orders (expected_order : Z) (l : list ChunkRef) : res unit :=
  match l with
  | [] => Ok ()
  | c :: l' => _ ← refuse_if (bool_decide (cref_order c ≠ expected_order)); check_orders (expected_order + 1) l'
  end.
Definition check_chunk_list (o : ChunkListObject) : res unit := check_orders 0 (clist_chunks o).

Record RecipeObject := {
  recipe_recipe_hash : pystr; recipe_chunk_count : Z; recipe_total_size : Z; recipe_chunk_list : ObjectRef }.
Definition check_recipe (o : RecipeObject) : res unit :=
  _ ← _require_hash64 (recipe_recipe_hash o); _ ← _require_int (recipe_chunk_count o) 0;
  _ ← _require_int (recipe_total_size o) 0; refers_to CHUNK_LIST (recipe_chunk_list o).

Record FileObject := { file_size : Z; file_recipe_hash : pystr; file_recipe : ObjectRef }.
Definition check_file (o : FileObject) : res unit :=
  _ ← _require_int (file_size o) 0; _ ← _require_hash64 (file_recipe_hash o); refers_to RECIPE (file_recipe o).

Record TreeEntry := {
  tent_name : pystr; tent_item_type : item_kind; tent_size : Z; tent_mode : Z; tent_mtime : number;
  tent_mtime_ns : Z; tent_uid : Z; tent_gid : Z; tent_ref : ObjectRef }.
Definition bad_name (name : pystr) : bool :=
  existsb (λ c, (c =? 47)%N) name || bool_decide (name = u ".") || bool_decide (name = u "..").
Definition check_tree_entry (e : TreeEntry) : res unit :=
  _ ← _require_str (tent_name e);
  _ ← refuse_if (bad_name (tent_name e));
  _ ← _require_int (tent_size e) 0;
  _ ← _require_int (tent_mode e) 0;
  _ ← _require_number false (tent_mtime e);
  _ ← _require_int (tent_mtime_ns e) 0;
  _ ← _require_int (tent_uid e) 0;
  _ ← _require_int (tent_gid e) 0;
  refers_to (match tent_item_type e with ItemFile => FILE | ItemDir => TREE end) (tent_ref e).

Record TreeObject := { tree_entries : list TreeEntry }.
Definition check_tree (o : TreeObject) : res unit :=
  check_entries (λ _, Ok ()) tent_name (λ e p, str_ltb (tent_name e) (tent_name p)) [] None (tree_entries o).

(** ** Snapshots *)

Record SnapshotRootObject := {
  sroot_snapshot_uuid : pystr; sroot_root_path : pystr; sroot_origin_node_id : pystr;
  sroot_created_at : pystr; sroot_total_size : Z; sroot_total_files : Z; sroot_root_tree : ObjectRef }.
Definition check_snapshot_root (o : SnapshotRootObject) : res unit :=
  _ ← _require_uuid (sroot_snapshot_uuid o); _ ← _require_node_id (sroot_origin_node_id o);
  _ ← _require_str (sroot_created_at o); _ ← _require_int (sroot_total_size o) 0;
  _ ← _require_int (sroot_total_files o) 0; refers_to TREE (sroot_root_tree o).

Record SnapshotIndexEntry := {
  sent_snapshot_uuid : pystr; sent_status : snapshot_status; sent_root_path : pystr;
  sent_origin_node_id : pystr; sent_created_at : pystr; sent_total_size : Z; sent_total_files : Z;
  sent_snapshot_root : option ObjectRef; sent_error : option pystr }.
Definition check_snapshot_entry (e : SnapshotIndexEntry) : res unit :=
  _ ← _require_uuid (sent_snapshot_uuid e); _ ← _require_node_id (sent_origin_node_id e);
  _ ← _require_str (sent_created_at e); _ ← _require_int (sent_total_size e) 0;
  _ ← _require_int (sent_total_files e) 0; _ ← if_present (refers_to SNAPSHOT_ROOT) (sent_snapshot_root e);
  refuse_if (bool_decide (sent_status e = COMPLETE) && bool_decide (sent_snapshot_root e = None)).

Record SnapshotIndexObject := { sidx_snapshots : list SnapshotIndexEntry }.
(** Tuples of strings compare their first difference. *)
Definition entry_before (e p : SnapshotIndexEntry) : bool :=
  str_ltb (sent_created_at e) (sent_created_at p)
  || (bool_decide (sent_created_at e = sent_created_at p)
      && str_ltb (sent_snapshot_uuid e) (sent_snapshot_uuid p)).
Definition check_snapshot_index (o : SnapshotIndexObject) : res unit :=
  check_entries (λ _, Ok ()) sent_snapshot_uuid entry_before [] None (sidx_snapshots o).

(** ** Indexes and shards *)

Record KnownChunkRecord := { kch_chunk_hash : pystr; kch_size : Z }.
Definition check_known_chunk (r : KnownChunkRecord) : res unit :=
  _ ← _require_hash64 (kch_chunk_hash r); _require_int (kch_size r) 1.

(** The loop of a shard: its records have its prefix, once each, in order. *)
Definition check_shard {A} (hash : A → pystr) (prefix : pystr) (records : list A) : res unit :=
  _ ← _require_str prefix; _ ← refuse_if (negb (is_prefix2 prefix));
  check_entries (λ r, refuse_if (negb (starts_with prefix (hash r)))) hash
    (λ r p, str_ltb (hash r) (hash p)) [] None records.

Record KnownChunkShardObject := { kshard_prefix : pystr; kshard_chunks : list KnownChunkRecord }.
Definition check_known_chunk_shard (o : KnownChunkShardObject) : res unit :=
  check_shard kch_chunk_hash (kshard_prefix o) (kshard_chunks o).

Record IndexShardRef := { ish_prefix : pystr; ish_count : Z; ish_ref : ObjectRef }.
Definition check_index_shard_ref (s : IndexShardRef) : res unit :=
  _ ← _require_str (ish_prefix s); _ ← refuse_if (negb (is_prefix2 (ish_prefix s))); _require_int (ish_count s) 0.

(** The loop of an index: its shards have the expected type, one prefix each, in order, and
    their counts add up. *)
Definition total_count (shards : list IndexShardRef) : Z := fold_left (λ acc s, acc + ish_count s)%Z shards 0%Z.
Definition check_index (t : MetadataObjectType) (shards : list IndexShardRef) (total : Z) : res unit :=
  _ ← check_entries (λ s, refers_to t (ish_ref s)) ish_prefix
        (λ s p, str_ltb (ish_prefix s) (ish_prefix p)) [] None shards;
  refuse_if (bool_decide (total_count shards ≠ total)).

Record KnownChunkIndexObject := { kidx_shards : list IndexShardRef; kidx_total_chunks : Z }.
Definition check_known_chunk_index (o : KnownChunkIndexObject) : res unit :=
  _ ← _require_int (kidx_total_chunks o) 0; check_index KNOWN_CHUNK_SHARD (kidx_shards o) (kidx_total_chunks o).

Record ProtectionRecordObject := {
  prot_chunk_hash : pystr; prot_desired_rf : Z; prot_protection_state : ProtectionState;
  prot_protected_remote_copies : Z; prot_placement_epoch : option pystr; prot_last_push_at : option number;
  prot_last_verify_at : option number; prot_last_error : option pystr }.
Definition check_protection_record (r : ProtectionRecordObject) : res unit :=
  _ ← _require_hash64 (prot_chunk_hash r); _ ← _require_int (prot_desired_rf r) 0;
  _ ← _require_int (prot_protected_remote_copies r) 0;
  _ ← if_present (_require_number true) (prot_last_push_at r);
  if_present (_require_number true) (prot_last_verify_at r).

Record ProtectionShardObject := { pshard_prefix : pystr; pshard_records : list ProtectionRecordObject }.
Definition check_protection_shard (o : ProtectionShardObject) : res unit :=
  check_shard prot_chunk_hash (pshard_prefix o) (pshard_records o).

Record ProtectionIndexObject := { pidx_shards : list IndexShardRef; pidx_total_records : Z }.
Definition check_protection_index (o : ProtectionIndexObject) : res unit :=
  _ ← _require_int (pidx_total_records o) 0; check_index PROTECTION_SHARD (pidx_shards o) (pidx_total_records o).

(** ** Erasure-coded packs *)

Record ErasureDataPackChunkObject := { ech_chunk_hash : pystr; ech_offset : Z; ech_length : Z; ech_ordinal : Z }.
Definition check_pack_chunk (c : ErasureDataPackChunkObject) : res unit :=
  _ ← _require_hash64 (ech_chunk_hash c); _ ← _require_int (ech_offset c) 0;
  _ ← _require_int (ech_length c) 1; _require_int (ech_ordinal c) 0.

Record ErasureDataPackShardPlacementObject := {
  esh_shard_index : Z; esh_shard_hash : pystr; esh_node_id : pystr; esh_size : Z;
  esh_protection_state : ProtectionState; esh_last_push_at : option number;
  esh_last_verify_at : option number; esh_last_error : option pystr }.
Definition check_pack_shard (s : ErasureDataPackShardPlacementObject) : res unit :=
  _ ← _require_int (esh_shard_index s) 0; _ ← _require_hash64 (esh_shard_hash s);
  _ ← _require_node_id (esh_node_id s); _ ← _require_int (esh_size s) 1;
  _ ← if_present (_require_number true) (esh_last_push_at s);
  if_present (_require_number true) (esh_last_verify_at s).

Record ErasureDataPackRecordObject := {
  erec_pack_hash : pystr; erec_codec : pystr; erec_data_shards : Z; erec_parity_shards : Z;
  erec_payload_size : Z; erec_padded_size : Z; erec_shard_size : Z; erec_protection_state : ProtectionState;
  erec_placement_epoch : option pystr; erec_created_at : number; erec_last_push_at : option number;
  erec_last_verify_at : option number; erec_last_error : option pystr;
  erec_chunks : list ErasureDataPackChunkObject; erec_shards : list ErasureDataPackShardPlacementObject }.

(** The chunks cover the payload, in order and without gaps; the result is where they end. *)
Fixpoint check_pack_chunks (expected_ordinal previous_end : Z) (seen : list pystr)
    (l : list ErasureDataPackChunkObject) : res Z :=
  match l with
  | [] => Ok previous_end
  | c :: l' =>
      _ ← refuse_if (bool_decide (ech_chunk_hash c ∈ seen));
      _ ← refuse_if (bool_decide (ech_ordinal c ≠ expected_ordinal));
      _ ← refuse_if (bool_decide (ech_offset c ≠ previous_end));
      check_pack_chunks (expected_ordinal + 1) (ech_offset c + ech_length c) (ech_chunk_hash c :: seen) l'
  end.

(** [list(range(n))] *)
Definition zrange (n : Z) : list Z := Z.of_nat <$> seq 0 (Z.to_nat n).

Definition check_pack_record (r : ErasureDataPackRecordObject) : res unit :=
  _ ← _require_hash64 (erec_pack_hash r); _ ← _require_str (erec_codec r);
  _ ← _require_int (erec_data_shards r) 1; _ ← _require_int (erec_parity_shards r) 0;
  _ ← _require_int (erec_payload_size r) 0; _ ← _require_int (erec_padded_size r) 0;
  _ ← _require_int (erec_shard_size r) 1;
  _ ← refuse_if (bool_decide (erec_padded_size r ≠ erec_shard_size r * erec_data_shards r)%Z);
  _ ← refuse_if (erec_padded_size r <? erec_payload_size r)%Z;
  _ ← _require_number true (erec_created_at r);
  _ ← if_present (_require_number true) (erec_last_push_at r);
  _ ← if_present (_require_number true) (erec_last_verify_at r);
  _ ← refuse_if (bool_decide (length (erec_chunks r) = 0));
  previous_end ← check_pack_chunks 0 0 [] (erec_chunks r);
  _ ← refuse_if (bool_decide (previous_end ≠ erec_payload_size r));
  _ ← check_entries (λ _, Ok ()) esh_node_id (λ _ _, false) [] None (erec_shards r);
  refuse_if (bool_decide (esh_shard_index <$> erec_shards r ≠ zrange (erec_data_shards r + erec_parity_shards r))).

Record ErasureDataPackShardObject := { eshard_prefix : pystr; eshard_records : list ErasureDataPackRecordObject }.
Definition check_erasure_shard (o : ErasureDataPackShardObject) : res unit :=
  check_shard erec_pack_hash (eshard_prefix o) (eshard_records o).

Record ErasureDataPackIndexObject := {
  eidx_shards : list IndexShardRef; eidx_total_packs : Z; eidx_total_chunks : Z; eidx_total_shards : Z }.
Definition check_erasure_index (o : ErasureDataPackIndexObject) : res unit :=
  _ ← _require_int (eidx_total_packs o) 0; _ ← _require_int (eidx_total_chunks o) 0;
  _ ← _require_int (eidx_total_shards o) 0;
  check_index ERASURE_DATA_PACK_SHARD (eidx_shards o) (eidx_total_packs o).

(** ** The catalogue *)

Record CatalogObject := {
  cat_vault_id : pystr; cat_snapshot_index : ObjectRef; cat_known_chunk_index : ObjectRef;
  cat_protection_index : option ObjectRef; cat_snapshot_count : Z; cat_known_chunk_count : Z;
  cat_protection_record_count : Z; cat_erasure_data_pack_index : option ObjectRef;
  cat_erasure_data_pack_count : Z; cat_erasure_data_pack_chunk_count : Z;
  cat_erasure_data_pack_shard_count : Z }.
Definition check_catalog (o : CatalogObject) : res unit :=
  _ ← _require_node_id (cat_vault_id o);
  _ ← refers_to SNAPSHOT_INDEX (cat_snapshot_index o);
  _ ← refers_to KNOWN_CHUNK_INDEX (cat_known_chunk_index o);
  _ ← if_present (refers_to PROTECTION_INDEX) (cat_protection_index o);
  _ ← _require_int (cat_snapshot_count o) 0; _ ← _require_int (cat_known_chunk_count o) 0;
  _ ← _require_int (cat_protection_record_count o) 0;
  _ ← if_present (refers_to ERASURE_DATA_PACK_INDEX) (cat_erasure_data_pack_index o);
  _ ← _require_int (cat_erasure_data_pack_count o) 0;
  _ ← _require_int (cat_erasure_data_pack_chunk_count o) 0;
  _require_int (cat_erasure_data_pack_shard_count o) 0.

Inductive MetadataPlainObject :=
  | OCatalog (o : CatalogObject) | OSnapshotIndex (o : SnapshotIndexObject)
  | OSnapshotRoot (o : SnapshotRootObject) | OTree (o : TreeObject) | OFile (o : FileObject)
  | ORecipe (o : RecipeObject) | OChunkList (o : ChunkListObject)
  | OKnownChunkIndex (o : KnownChunkIndexObject) | OKnownChunkShard (o : KnownChunkShardObject)
  | OProtectionIndex (o : ProtectionIndexObject) | OProtectionShard (o : ProtectionShardObject)
  | OErasureDataPackIndex (o : ErasureDataPackIndexObject)
  | OErasureDataPackShard (o : ErasureDataPackShardObject).

(** [obj.object_type] *)
Definition object_type (o : MetadataPlainObject) : MetadataObjectType :=
  match o with
  | OCatalog _ => CATALOG | OSnapshotIndex _ => SNAPSHOT_INDEX | OSnapshotRoot _ => SNAPSHOT_ROOT
  | OTree _ => TREE | OFile _ => FILE | ORecipe _ => RECIPE | OChunkList _ => CHUNK_LIST
  | OKnownChunkIndex _ => KNOWN_CHUNK_INDEX | OKnownChunkShard _ => KNOWN_CHUNK_SHARD
  | OProtectionIndex _ => PROTECTION_INDEX | OProtectionShard _ => PROTECTION_SHARD
  | OErasureDataPackIndex _ => ERASURE_DATA_PACK_INDEX
  | OErasureDataPackShard _ => ERASURE_DATA_PACK_SHARD
  end.
