(* ===== verification/MetaCodec.v ===== *)
(** * Canonical form of the metadata objects

    [metadata/objects/codec.py]: an object is written as canonical JSON in an envelope with
    its format, version and type, and is named by the BLAKE3 digest of those bytes. Decoding
    builds the object again and demands that it has exactly the payload that was read. Which
    of several errors of a payload is raised first is left out. *)

From S2P Require Import Prelude PyStr Common PyFloat Json Protection Catalog MetaModels.

(** ** Normalised payloads ([_normalize_value] of [asdict]) *)

Definition opt_json {A} (f : A → json) (x : option A) : json := match x with Some a => f a | None => JNull end.
Definition tuple_json {A} (f : A → json) (l : list A) : json := JArr (map f l).

Definition number_json (n : number) : json := match n with NInt z => JInt z | NFloat f => JFloat f end.

Definition state_value (s : ProtectionState) : pystr :=
  match s with
  | PENDING => u "PENDING" | PLACED => u "PLACED" | DEGRADED => u "DEGRADED"
  | VERIFIED => u "VERIFIED" | FAILED => u "FAILED"
  end.
Definition status_value (s : snapshot_status) : pystr :=
  match s with CREATING => u "CREATING" | COMPLETE => u "COMPLETE" | SNAP_FAILED => u "FAILED" end.
Definition item_type_value (k : item_kind) : pystr := match k with ItemFile => u "file" | ItemDir => u "dir" end.

Definition ref_json (r : ObjectRef) : json :=
  JObj [(u "object_type", JStr (type_value (ref_type r))); (u "object_hash", JStr (ref_hash r))].

Definition chunk_ref_json (c : ChunkRef) : json :=
  JObj [(u "order", JInt (cref_order c)); (u "chunk_hash", JStr (cref_chunk_hash c)); (u "size", JInt (cref_size c))].

Definition tree_entry_json (e : TreeEntry) : json :=
  JObj [(u "name", JStr (tent_name e)); (u "item_type", JStr (item_type_value (tent_item_type e)));
        (u "size", JInt (tent_size e)); (u "mode", JInt (tent_mode e)); (u "mtime", number_json (tent_mtime e));
        (u "mtime_ns", JInt (tent_mtime_ns e)); (u "uid", JInt (tent_uid e)); (u "gid", JInt (tent_gid e));
        (u "ref", ref_json (tent_ref e))].

Definition snapshot_entry_json (e : SnapshotIndexEntry) : json :=
  JObj [(u "snapshot_uuid", JStr (sent_snapshot_uuid e)); (u "status", JStr (status_value (sent_status e)));
        (u "root_path", JStr (sent_root_path e)); (u "origin_node_id", JStr (sent_origin_node_id e));
        (u "created_at", JStr (sent_created_at e)); (u "total_size", JInt (sent_total_size e));
        (u "total_files", JInt (sent_total_files e)); (u "snapshot_root", opt_json ref_json (sent_snapshot_root e));
        (u "error", opt_json JStr (sent_error e))].

Definition known_chunk_json (r : KnownChunkRecord) : json :=
  JObj [(u "chunk_hash", JStr (kch_chunk_hash r)); (u "size", JInt (kch_size r))].

Definition index_shard_json (s : IndexShardRef) : json :=
  JObj [(u "prefix", JStr (ish_prefix s)); (u "count", JInt (ish_count s)); (u "ref", ref_json (ish_ref s))].

Definition protection_record_json (r : ProtectionRecordObject) : json :=
  JObj [(u "chunk_hash", JStr (prot_chunk_hash r)); (u "desired_rf", JInt (prot_desired_rf r));
        (u "protection_state", JStr (state_value (prot_protection_state r)));
        (u "protected_remote_copies", JInt (prot_protected_remote_copies r));
        (u "placement_epoch", opt_json JStr (prot_placement_epoch r));
        (u "last_push_at", opt_json number_json (prot_last_push_at r));
        (u "last_verify_at", opt_json number_json (prot_last_verify_at r));
        (u "last_error", opt_json JStr (prot_last_error r))].

Definition pack_chunk_json (c : ErasureDataPackChunkObject) : json :=
  JObj [(u "chunk_hash", JStr (ech_chunk_hash c)); (u "offset", JInt (ech_offset c));
        (u "length", JInt (ech_length c)); (u "ordinal", JInt (ech_ordinal c))].

Definition pack_shard_json (s : ErasureDataPackShardPlacementObject) : json :=
  JObj [(u "shard_index", JInt (esh_shard_index s)); (u "shard_hash", JStr (esh_shard_hash s));
        (u "node_id", JStr (esh_node_id s)); (u "size", JInt (esh_size s));
        (u "protection_state", JStr (state_value (esh_protection_state s)));
        (u "last_push_at", opt_json number_json (esh_last_push_at s));
        (u "last_verify_at", opt_json number_json (esh_last_verify_at s));
        (u "last_error", opt_json JStr (esh_last_error s))].

Definition pack_record_json (r : ErasureDataPackRecordObject) : json :=
  JObj [(u "pack_hash", JStr (erec_pack_hash r)); (u "codec", JStr (erec_codec r));
        (u "data_shards", JInt (erec_data_shards r)); (u "parity_shards", JInt (erec_parity_shards r));
        (u "payload_size", JInt (erec_payload_size r)); (u "padded_size", JInt (erec_padded_size r));
        (u "shard_size", JInt (erec_shard_size r));
        (u "protection_state", JStr (state_value (erec_protection_state r)));
        (u "placement_epoch", opt_json JStr (erec_placement_epoch r));
        (u "created_at", number_json (erec_created_at r));
        (u "last_push_at", opt_json number_json (erec_last_push_at r));
        (u "last_verify_at", opt_json number_json (erec_last_verify_at r));
        (u "last_error", opt_json JStr (erec_last_error r));
        (u "chunks", tuple_json pack_chunk_json (erec_chunks r));
        (u "shards", tuple_json pack_shard_json (erec_shards r))].

(** [object_payload]: the object as a dict, without the [object_type] of the root. *)
Definition object_payload (o : MetadataPlainObject) : list (pystr * json) :=
  match o with
  | OCatalog o =>
      [(u "vault_id", JStr (cat_vault_id o)); (u "snapshot_index", ref_json (cat_snapshot_index o));
       (u "known_chunk_index", ref_json (cat_known_chunk_index o));
       (u "protection_index", opt_json ref_json (cat_protection_index o));
       (u "snapshot_count", JInt (cat_snapshot_count o)); (u "known_chunk_count", JInt (cat_known_chunk_count o));
       (u "protection_record_count", JInt (cat_protection_record_count o));
       (u "erasure_data_pack_index", opt_json ref_json (cat_erasure_data_pack_index o));
       (u "erasure_data_pack_count", JInt (cat_erasure_data_pack_count o));
       (u "erasure_data_pack_chunk_count", JInt (cat_erasure_data_pack_chunk_count o));
       (u "erasure_data_pack_shard_count", JInt (cat_erasure_data_pack_shard_count o))]
  | OSnapshotIndex o => [(u "snapshots", tuple_json snapshot_entry_json (sidx_snapshots o))]
  | OSnapshotRoot o =>
      [(u "snapshot_uuid", JStr (sroot_snapshot_uuid o)); (u "root_path", JStr (sroot_root_path o));
       (u "origin_node_id", JStr (sroot_origin_node_id o)); (u "created_at", JStr (sroot_created_at o));
       (u "total_size", JInt (sroot_total_size o)); (u "total_files", JInt (sroot_total_files o));
       (u "root_tree", ref_json (sroot_root_tree o))]
  | OTree o => [(u "entries", tuple_json tree_entry_json (tree_entries o))]
  | OFile o =>
      [(u "size", JInt (file_size o)); (u "recipe_hash", JStr (file_recipe_hash o)); (u "recipe", ref_json (file_recipe o))]
  | ORecipe o =>
      [(u "recipe_hash", JStr (recipe_recipe_hash o)); (u "chunk_count", JInt (recipe_chunk_count o));
       (u "total_size", JInt (recipe_total_size o)); (u "chunk_list", ref_json (recipe_chunk_list o))]
  | OChunkList o => [(u "chunks", tuple_json chunk_ref_json (clist_chunks o))]
  | OKnownChunkIndex o =>
      [(u "shards", tuple_json index_shard_json (kidx_shards o)); (u "total_chunks", JInt (kidx_total_chunks o))]
  | OKnownChunkShard o =>
      [(u "prefix", JStr (kshard_prefix o)); (u "chunks", tuple_json known_chunk_json (kshard_chunks o))]
  | OProtectionIndex o =>
      [(u "shards", tuple_json index_shard_json (pidx_shards o)); (u "total_records", JInt (pidx_total_records o))]
  | OProtectionShard o =>
      [(u "prefix", JStr (pshard_prefix o)); (u "records", tuple_json protection_record_json (pshard_records o))]
  | OErasureDataPackIndex o =>
      [(u "shards", tuple_json index_shard_json (eidx_shards o)); (u "total_packs", JInt (eidx_total_packs o));
       (u "total_chunks", JInt (eidx_total_chunks o)); (u "total_shards", JInt (eidx_total_shards o))]
  | OErasureDataPackShard o =>
      [(u "prefix", JStr (eshard_prefix o)); (u "records", tuple_json pack_record_json (eshard_records o))]
  end.

Definition METADATA_OBJECT_FORMAT : pystr := u "stopan.metadata_object".
Definition METADATA_OBJECT_VERSION : Z := 1.

Definition object_envelope (o : MetadataPlainObject) : json :=
  JObj [(u "format", JStr METADATA_OBJECT_FORMAT); (u "version", JInt METADATA_OBJECT_VERSION);
        (u "object_type", JStr (type_value (object_type o))); (u "payload", JObj (object_payload o))].

(** [canonical_json_bytes] of values that come from outside: surrogates are not encoded. *)
Definition canonical_json (v : json) : res bytes :=
  if existsb surrogate (dumps v) then Err UnicodeEncodeError else Ok (canonical_json_bytes v).

Definition canonical_object_bytes (o : MetadataPlainObject) : res bytes := canonical_json (object_envelope o).

Record EncodedMetadataObject := { eo_type : MetadataObjectType; eo_hash : pystr; eo_bytes : bytes }.

Section hashing.
Context (blake3 : bytes → bytes).

Definition encode_metadata_object (o : MetadataPlainObject) : res EncodedMetadataObject :=
  canonical ← canonical_object_bytes o;
  Ok {| eo_type := object_type o; eo_hash := hexdigest (blake3 canonical); eo_bytes := canonical |}.

Definition canonical_state_digest (catalog_hash : pystr) (object_hashes : list pystr) : pystr :=
  hexdigest (blake3 (canonical_json_bytes
    (JObj [(u "catalog_hash", JStr catalog_hash);
           (u "object_hashes", JArr (JStr <$> py_sorted str_leb object_hashes))]))).
End hashing.

(** ** Decoding ([_decode_model_value], [_decode_model_dataclass]) *)

(** The isinstance tests of [_require_int], [_require_str] and [_require_number]. *)
Definition as_int (v : json) : res Z := match v with JInt z => Ok z | _ => Err MetadataObjectError end.
Definition as_str (v : json) : res pystr := match v with JStr s => Ok s | _ => Err MetadataObjectError end.
Definition as_number (v : json) : res number :=
  match v with JInt z => Ok (NInt z) | JFloat f => Ok (NFloat f) | _ => Err MetadataObjectError end.

(** [X | None] *)
Definition as_opt {A} (decode : json → res A) (v : json) : res (option A) :=
  match v with JNull => Ok None | _ => a ← decode v; Ok (Some a) end.

(** [tuple[X, ...]] *)
Definition as_tuple {A} (decode : json → res A) (v : json) : res (list A) :=
  match v with JArr l => mapM_res decode l | _ => Err MetadataObjectError end.

(** A value of a fixed set of strings. *)
Definition as_member {A} (value : A → pystr) (members : list A) (v : json) : res A :=
  match v with
  | JStr s => match List.find (λ a, bool_decide (value a = s)) members with Some a => Ok a | None => Err MetadataObjectError end
  | _ => Err MetadataObjectError
  end.
Definition as_type : json → res MetadataObjectType := as_member type_value object_types.
Definition as_state : json → res ProtectionState := as_member state_value [PENDING; PLACED; DEGRADED; VERIFIED; FAILED].
Definition as_status : json → res snapshot_status := as_member status_value [CREATING; COMPLETE; SNAP_FAILED].
Definition as_item_type : json → res item_kind := as_member item_type_value [ItemFile; ItemDir].

(** A dict with no other fields than the allowed ones. *)
Definition fields_of (allowed : list pystr) (v : json) : res (list (pystr * json)) :=
  match v with
  | JObj kvs => _ ← refuse_if (existsb (λ kv, negb (bool_decide (kv.1 ∈ allowed))) kvs); Ok kvs
  | _ => Err MetadataObjectError
  end.
Definition field {A} (kvs : list (pystr * json)) (name : pystr) (decode : json → res A) : res A :=
  match jget name kvs with Some v => decode v | None => Err MetadataObjectError end.
(** A field that may be left out. *)
Definition field_or {A} (kvs : list (pystr * json)) (name : pystr) (dflt : A) (decode : json → res A) : res A :=
  match jget name kvs with Some v => decode v | None => Ok dflt end.

(** [cls( **kwargs)] *)
Definition construct {A} (check : A → res unit) (a : A) : res A := _ ← check a; Ok a.

Definition decode_ref (v : json) : res ObjectRef :=
  kvs ← fields_of [u "object_type"; u "object_hash"] v;
  t ← field kvs (u "object_type") as_type; h ← field kvs (u "object_hash") as_str;
  construct check_ref {| ref_type := t; ref_hash := h |}.

Definition decode_chunk_ref (v : json) : res ChunkRef :=
  kvs ← fields_of [u "order"; u "chunk_hash"; u "size"] v;
  o ← field kvs (u "order") as_int; h ← field kvs (u "chunk_hash") as_str; n ← field kvs (u "size") as_int;
  construct check_chunk_ref {| cref_order := o; cref_chunk_hash := h; cref_size := n |}.

Definition decode_tree_entry (v : json) : res TreeEntry :=
  kvs ← fields_of [u "name"; u "item_type"; u "size"; u "mode"; u "mtime"; u "mtime_ns"; u "uid"; u "gid"; u "ref"] v;
  name ← field kvs (u "name") as_str; k ← field kvs (u "item_type") as_item_type;
  size ← field kvs (u "size") as_int; mode ← field kvs (u "mode") as_int;
  mtime ← field kvs (u "mtime") as_number; mtime_ns ← field kvs (u "mtime_ns") as_int;
  uid ← field kvs (u "uid") as_int; gid ← field kvs (u "gid") as_int; r ← field kvs (u "ref") decode_ref;
  construct check_tree_entry {| tent_name := name; tent_item_type := k; tent_size := size; tent_mode := mode;
    tent_mtime := mtime; tent_mtime_ns := mtime_ns; tent_uid := uid; tent_gid := gid; tent_ref := r |}.

Definition decode_snapshot_entry (v : json) : res SnapshotIndexEntry :=
  kvs ← fields_of [u "snapshot_uuid"; u "status"; u "root_path"; u "origin_node_id"; u "created_at"; u "total_size";
                   u "total_files"; u "snapshot_root"; u "error"] v;
  uuid ← field kvs (u "snapshot_uuid") as_str; status ← field kvs (u "status") as_status;
  root ← field kvs (u "root_path") as_str; origin ← field kvs (u "origin_node_id") as_str;
  created ← field kvs (u "created_at") as_str; size ← field kvs (u "total_size") as_int;
  files ← field kvs (u "total_files") as_int;
  r ← field_or kvs (u "snapshot_root") None (as_opt decode_ref);
  error ← field_or kvs (u "error") None (as_opt as_str);
  construct check_snapshot_entry {| sent_snapshot_uuid := uuid; sent_status := status; sent_root_path := root;
    sent_origin_node_id := origin; sent_created_at := created; sent_total_size := size; sent_total_files := files;
    sent_snapshot_root := r; sent_error := error |}.

Definition decode_known_chunk (v : json) : res KnownChunkRecord :=
  kvs ← fields_of [u "chunk_hash"; u "size"] v;
  h ← field kvs (u "chunk_hash") as_str; n ← field kvs (u "size") as_int;
  construct check_known_chunk {| kch_chunk_hash := h; kch_size := n |}.

Definition decode_index_shard (v : json) : res IndexShardRef :=
  kvs ← fields_of [u "prefix"; u "count"; u "ref"] v;
  p ← field kvs (u "prefix") as_str; n ← field kvs (u "count") as_int; r ← field kvs (u "ref") decode_ref;
  construct check_index_shard_ref {| ish_prefix := p; ish_count := n; ish_ref := r |}.

Definition decode_protection_record (v : json) : res ProtectionRecordObject :=
  kvs ← fields_of [u "chunk_hash"; u "desired_rf"; u "protection_state"; u "protected_remote_copies"; u "placement_epoch";
                   u "last_push_at"; u "last_verify_at"; u "last_error"] v;
  h ← field kvs (u "chunk_hash") as_str; rf ← field kvs (u "desired_rf") as_int;
  s ← field kvs (u "protection_state") as_state; n ← field kvs (u "protected_remote_copies") as_int;
  epoch ← field kvs (u "placement_epoch") (as_opt as_str);
  pushed ← field kvs (u "last_push_at") (as_opt as_number);
  verified ← field kvs (u "last_verify_at") (as_opt as_number); error ← field kvs (u "last_error") (as_opt as_str);
  construct check_protection_record {| prot_chunk_hash := h; prot_desired_rf := rf; prot_protection_state := s;
    prot_protected_remote_copies := n; prot_placement_epoch := epoch; prot_last_push_at := pushed;
    prot_last_verify_at := verified; prot_last_error := error |}.

Definition decode_pack_chunk (v : json) : res ErasureDataPackChunkObject :=
  kvs ← fields_of [u "chunk_hash"; u "offset"; u "length"; u "ordinal"] v;
  h ← field kvs (u "chunk_hash") as_str; offset ← field kvs (u "offset") as_int;
  len ← field kvs (u "length") as_int; ordinal ← field kvs (u "ordinal") as_int;
  construct check_pack_chunk {| ech_chunk_hash := h; ech_offset := offset; ech_length := len; ech_ordinal := ordinal |}.

Definition decode_pack_shard (v : json) : res ErasureDataPackShardPlacementObject :=
  kvs ← fields_of [u "shard_index"; u "shard_hash"; u "node_id"; u "size"; u "protection_state"; u "last_push_at";
                   u "last_verify_at"; u "last_error"] v;
  i ← field kvs (u "shard_index") as_int; h ← field kvs (u "shard_hash") as_str; node ← field kvs (u "node_id") as_str;
  n ← field kvs (u "size") as_int; s ← field kvs (u "protection_state") as_state;
  pushed ← field kvs (u "last_push_at") (as_opt as_number);
  verified ← field kvs (u "last_verify_at") (as_opt as_number); error ← field kvs (u "last_error") (as_opt as_str);
  construct check_pack_shard {| esh_shard_index := i; esh_shard_hash := h; esh_node_id := node; esh_size := n;
    esh_protection_state := s; esh_last_push_at := pushed; esh_last_verify_at := verified; esh_last_error := error |}.

Definition decode_pack_record (v : json) : res ErasureDataPackRecordObject :=
  kvs ← fields_of [u "pack_hash"; u "codec"; u "data_shards"; u "parity_shards"; u "payload_size"; u "padded_size";
                   u "shard_size"; u "protection_state"; u "placement_epoch"; u "created_at"; u "last_push_at";
                   u "last_verify_at"; u "last_error"; u "chunks"; u "shards"] v;
  h ← field kvs (u "pack_hash") as_str; codec ← field kvs (u "codec") as_str;
  k ← field kvs (u "data_shards") as_int; m ← field kvs (u "parity_shards") as_int;
  payload ← field kvs (u "payload_size") as_int; padded ← field kvs (u "padded_size") as_int;
  size ← field kvs (u "shard_size") as_int; s ← field kvs (u "protection_state") as_state;
  epoch ← field kvs (u "placement_epoch") (as_opt as_str); created ← field kvs (u "created_at") as_number;
  pushed ← field kvs (u "last_push_at") (as_opt as_number);
  verified ← field kvs (u "last_verify_at") (as_opt as_number); error ← field kvs (u "last_error") (as_opt as_str);
  cs ← field kvs (u "chunks") (as_tuple decode_pack_chunk); ss ← field kvs (u "shards") (as_tuple decode_pack_shard);
  construct check_pack_record {| erec_pack_hash := h; erec_codec := codec; erec_data_shards := k;
    erec_parity_shards := m; erec_payload_size := payload; erec_padded_size := padded; erec_shard_size := size;
    erec_protection_state := s; erec_placement_epoch := epoch; erec_created_at := created;
    erec_last_push_at := pushed; erec_last_verify_at := verified; erec_last_error := error;
    erec_chunks := cs; erec_shards := ss |}.

(** [decode_metadata_object_payload] before the comparison with the payload. *)
Definition decode_object (t : MetadataObjectType) (v : json) : res MetadataPlainObject :=
  match t with
  | CATALOG =>
      kvs ← fields_of [u "vault_id"; u "snapshot_index"; u "known_chunk_index"; u "protection_index"; u "snapshot_count";
                       u "known_chunk_count"; u "protection_record_count"; u "erasure_data_pack_index";
                       u "erasure_data_pack_count"; u "erasure_data_pack_chunk_count"; u "erasure_data_pack_shard_count"] v;
      vault ← field kvs (u "vault_id") as_str; si ← field kvs (u "snapshot_index") decode_ref;
      ki ← field kvs (u "known_chunk_index") decode_ref; pi ← field kvs (u "protection_index") (as_opt decode_ref);
      sc ← field kvs (u "snapshot_count") as_int; kc ← field kvs (u "known_chunk_count") as_int;
      pc ← field kvs (u "protection_record_count") as_int;
      ei ← field_or kvs (u "erasure_data_pack_index") None (as_opt decode_ref);
      ec ← field_or kvs (u "erasure_data_pack_count") 0%Z as_int;
      ecc ← field_or kvs (u "erasure_data_pack_chunk_count") 0%Z as_int;
      esc ← field_or kvs (u "erasure_data_pack_shard_count") 0%Z as_int;
      OCatalog <$> construct check_catalog {| cat_vault_id := vault; cat_snapshot_index := si; cat_known_chunk_index := ki;
        cat_protection_index := pi; cat_snapshot_count := sc; cat_known_chunk_count := kc;
        cat_protection_record_count := pc; cat_erasure_data_pack_index := ei; cat_erasure_data_pack_count := ec;
        cat_erasure_data_pack_chunk_count := ecc; cat_erasure_data_pack_shard_count := esc |}
  | SNAPSHOT_INDEX =>
      kvs ← fields_of [u "snapshots"] v; l ← field kvs (u "snapshots") (as_tuple decode_snapshot_entry);
      OSnapshotIndex <$> construct check_snapshot_index {| sidx_snapshots := l |}
  | SNAPSHOT_ROOT =>
      kvs ← fields_of [u "snapshot_uuid"; u "root_path"; u "origin_node_id"; u "created_at"; u "total_size"; u "total_files";
                       u "root_tree"] v;
      uuid ← field kvs (u "snapshot_uuid") as_str; root ← field kvs (u "root_path") as_str;
      origin ← field kvs (u "origin_node_id") as_str; created ← field kvs (u "created_at") as_str;
      size ← field kvs (u "total_size") as_int; files ← field kvs (u "total_files") as_int;
      r ← field kvs (u "root_tree") decode_ref;
      OSnapshotRoot <$> construct check_snapshot_root {| sroot_snapshot_uuid := uuid; sroot_root_path := root;
        sroot_origin_node_id := origin; sroot_created_at := created; sroot_total_size := size;
        sroot_total_files := files; sroot_root_tree := r |}
  | TREE =>
      kvs ← fields_of [u "entries"] v; l ← field kvs (u "entries") (as_tuple decode_tree_entry);
      OTree <$> construct check_tree {| tree_entries := l |}
  | FILE =>
      kvs ← fields_of [u "size"; u "recipe_hash"; u "recipe"] v;
      n ← field kvs (u "size") as_int; h ← field kvs (u "recipe_hash") as_str; r ← field kvs (u "recipe") decode_ref;
      OFile <$> construct check_file {| file_size := n; file_recipe_hash := h; file_recipe := r |}
  | RECIPE =>
      kvs ← fields_of [u "recipe_hash"; u "chunk_count"; u "total_size"; u "chunk_list"] v;
      h ← field kvs (u "recipe_hash") as_str; n ← field kvs (u "chunk_count") as_int;
      size ← field kvs (u "total_size") as_int; r ← field kvs (u "chunk_list") decode_ref;
      ORecipe <$> construct check_recipe {| recipe_recipe_hash := h; recipe_chunk_count := n;
        recipe_total_size := size; recipe_chunk_list := r |}
  | CHUNK_LIST =>
      kvs ← fields_of [u "chunks"] v; l ← field kvs (u "chunks") (as_tuple decode_chunk_ref);
      OChunkList <$> construct check_chunk_list {| clist_chunks := l |}
  | KNOWN_CHUNK_INDEX =>
      kvs ← fields_of [u "shards"; u "total_chunks"] v;
      l ← field kvs (u "shards") (as_tuple decode_index_shard); n ← field kvs (u "total_chunks") as_int;
      OKnownChunkIndex <$> construct check_known_chunk_index {| kidx_shards := l; kidx_total_chunks := n |}
  | KNOWN_CHUNK_SHARD =>
      kvs ← fields_of [u "prefix"; u "chunks"] v;
      p ← field kvs (u "prefix") as_str; l ← field kvs (u "chunks") (as_tuple decode_known_chunk);
      OKnownChunkShard <$> construct check_known_chunk_shard {| kshard_prefix := p; kshard_chunks := l |}
  | PROTECTION_INDEX =>
      kvs ← fields_of [u "shards"; u "total_records"] v;
      l ← field kvs (u "shards") (as_tuple decode_index_shard); n ← field kvs (u "total_records") as_int;
      OProtectionIndex <$> construct check_protection_index {| pidx_shards := l; pidx_total_records := n |}
  | PROTECTION_SHARD =>
      kvs ← fields_of [u "prefix"; u "records"] v;
      p ← field kvs (u "prefix") as_str; l ← field kvs (u "records") (as_tuple decode_protection_record);
      OProtectionShard <$> construct check_protection_shard {| pshard_prefix := p; pshard_records := l |}
  | ERASURE_DATA_PACK_INDEX =>
      kvs ← fields_of [u "shards"; u "total_packs"; u "total_chunks"; u "total_shards"] v;
      l ← field kvs (u "shards") (as_tuple decode_index_shard); a ← field kvs (u "total_packs") as_int;
      b ← field kvs (u "total_chunks") as_int; c ← field kvs (u "total_shards") as_int;
      OErasureDataPackIndex <$> construct check_erasure_index {| eidx_shards := l; eidx_total_packs := a;
        eidx_total_chunks := b; eidx_total_shards := c |}
  | ERASURE_DATA_PACK_SHARD =>
      kvs ← fields_of [u "prefix"; u "records"] v;
      p ← field kvs (u "prefix") as_str; l ← field kvs (u "records") (as_tuple decode_pack_record);
      OErasureDataPackShard <$> construct check_erasure_shard {| eshard_prefix := p; eshard_records := l |}
  end.

(** [normalized != payload] compares dicts whatever the order of their keys. *)
Definition decode_metadata_object_payload (t : MetadataObjectType) (payload : list (pystr * json)) : res MetadataPlainObject :=
  o ← decode_object t (JObj payload);
  _ ← refuse_if (bool_decide (sort_keys (JObj (object_payload o)) ≠ sort_keys (JObj payload)));
  Ok o.

(** ** What the constructors guarantee *)

Notation passes check x := (check x = Ok ()).

Definition valid_ref (r : ObjectRef) : Prop := passes check_ref r.
Definition valid_opt_ref (r : option ObjectRef) : Prop := match r with Some r => valid_ref r | None => True end.
Definition valid_tree_entry (e : TreeEntry) : Prop := passes check_tree_entry e ∧ valid_ref (tent_ref e).
Definition valid_snapshot_entry (e : SnapshotIndexEntry) : Prop :=
  passes check_snapshot_entry e ∧ valid_opt_ref (sent_snapshot_root e).
Definition valid_index_shard (s : IndexShardRef) : Prop := passes check_index_shard_ref s ∧ valid_ref (ish_ref s).
Definition valid_pack_record (r : ErasureDataPackRecordObject) : Prop :=
  passes check_pack_record r ∧ Forall (λ c, passes check_pack_chunk c) (erec_chunks r)
  ∧ Forall (λ s, passes check_pack_shard s) (erec_shards r).

(** An object whose constructors, and those of its parts, did not raise. *)
Definition valid_object (o : MetadataPlainObject) : Prop :=
  match o with
  | OCatalog o =>
      passes check_catalog o ∧ valid_ref (cat_snapshot_index o) ∧ valid_ref (cat_known_chunk_index o)
      ∧ valid_opt_ref (cat_protection_index o) ∧ valid_opt_ref (cat_erasure_data_pack_index o)
  | OSnapshotIndex o => passes check_snapshot_index o ∧ Forall valid_snapshot_entry (sidx_snapshots o)
  | OSnapshotRoot o => passes check_snapshot_root o ∧ valid_ref (sroot_root_tree o)
  | OTree o => passes check_tree o ∧ Forall valid_tree_entry (tree_entries o)
  | OFile o => passes check_file o ∧ valid_ref (file_recipe o)
  | ORecipe o => passes check_recipe o ∧ valid_ref (recipe_chunk_list o)
  | OChunkList o => passes check_chunk_list o ∧ Forall (λ c, passes check_chunk_ref c) (clist_chunks o)
  | OKnownChunkIndex o => passes check_known_chunk_index o ∧ Forall valid_index_shard (kidx_shards o)
  | OKnownChunkShard o => passes check_known_chunk_shard o ∧ Forall (λ c, passes check_known_chunk c) (kshard_chunks o)
  | OProtectionIndex o => passes check_protection_index o ∧ Forall valid_index_shard (pidx_shards o)
  | OProtectionShard o =>
      passes check_protection_shard o ∧ Forall (λ r, passes check_protection_record r) (pshard_records o)
  | OErasureDataPackIndex o => passes check_erasure_index o ∧ Forall valid_index_shard (eidx_shards o)
  | OErasureDataPackShard o => passes check_erasure_shard o ∧ Forall valid_pack_record (eshard_records o)
  end.

(** ** Decoding a normalised payload *)

(** [decode] reads back what [to_json] wrote, whatever the order of the keys. *)
Notation reads_back to_json decode x := (decode (sort_keys (to_json x)) = Ok x).

Lemma fields_of_sorted allowed kvs :
  forallb (λ k, bool_decide (k ∈ allowed)) kvs.*1 = true →
  fields_of allowed (sort_keys (JObj kvs)) = Ok (sorted_keys kvs).
Proof.
  intros H. rewrite sort_keys_obj. unfold fields_of, refuse_if.
  assert (existsb (λ kv, negb (bool_decide (kv.1 ∈ allowed))) (sorted_keys kvs) = false) as ->; [|done].
  apply not_true_iff_false. rewrite existsb_exists. intros ([k v] & Hin & Hk).
  rewrite forallb_forall in H. apply negb_true_iff in Hk. cbn [fst] in Hk.
  rewrite H in Hk; [done|]. apply list_elem_of_In. rewrite <-sorted_keys_keys. apply list_elem_of_fmap.
  exists (k, v). split; [done|]. by apply list_elem_of_In.
Qed.

Lemma field_sorted {A} kvs name v (decode : json → res A) :
  NoDup kvs.*1 → jget name kvs = Some v → field (sorted_keys kvs) name decode = decode (sort_keys v).
Proof. intros Hnd E. unfold field. by rewrite jget_sorted, E. Qed.

Lemma field_or_sorted {A} kvs name v d (decode : json → res A) :
  NoDup kvs.*1 → jget name kvs = Some v → field_or (sorted_keys kvs) name d decode = decode (sort_keys v).
Proof. intros Hnd E. unfold field_or. by rewrite jget_sorted, E. Qed.

Lemma as_opt_sorted {A} (to_json : A → json) decode (x : option A) :
  (∀ a, x = Some a → reads_back to_json decode a) → (∀ a, to_json a ≠ JNull) →
  as_opt decode (sort_keys (opt_json to_json x)) = Ok x.
Proof.
  intros H Hne. destruct x as [a|]; [|done]. cbn [opt_json]. specialize (H a eq_refl).
  unfold as_opt. rewrite H. specialize (Hne a). by destruct (to_json a).
Qed.

Lemma as_tuple_sorted {A} (to_json : A → json) decode (l : list A) :
  Forall (λ x, reads_back to_json decode x) l → as_tuple decode (sort_keys (tuple_json to_json l)) = Ok l.
Proof.
  intros H. cbn. apply mapM_res_Ok. induction H as [|x l Hx Hl IH]; cbn; constructor; [exact Hx|exact IH].
Qed.

Lemma number_reads_back n : reads_back number_json as_number n.
Proof. by destruct n. Qed.
Lemma str_reads_back s : reads_back JStr as_str s.
Proof. done. Qed.
Lemma type_reads_back t : as_type (JStr (type_value t)) = Ok t.
Proof. by destruct t. Qed.
Lemma state_reads_back s : as_state (JStr (state_value s)) = Ok s.
Proof. by destruct s. Qed.
Lemma status_reads_back s : as_status (JStr (status_value s)) = Ok s.
Proof. by destruct s. Qed.
Lemma item_type_reads_back k : as_item_type (JStr (item_type_value k)) = Ok k.
Proof. by destruct k. Qed.

Lemma opt_str_reads_back x : as_opt as_str (sort_keys (opt_json JStr x)) = Ok x.
Proof. by destruct x. Qed.
Lemma opt_number_reads_back x : as_opt as_number (sort_keys (opt_json number_json x)) = Ok x.
Proof. by destruct x as [[]|]. Qed.
Lemma construct_ok {A} (check : A → res unit) a : passes check a → construct check a = Ok a.
Proof. unfold construct. by intros ->. Qed.

(** Decodes a normalised dict field by field; [tac] reads the fields that are objects. *)
Ltac read_field tac :=
  lazymatch goal with
  | |- @mbind _ _ _ _ _ (as_int _) = _ => idtac
  | |- @mbind _ _ _ _ _ (as_str _) = _ => idtac
  | |- @mbind _ _ _ _ _ (as_type _) = _ => rewrite type_reads_back
  | |- @mbind _ _ _ _ _ (as_state _) = _ => rewrite state_reads_back
  | |- @mbind _ _ _ _ _ (as_status _) = _ => rewrite status_reads_back
  | |- @mbind _ _ _ _ _ (as_item_type _) = _ => rewrite item_type_reads_back
  | |- @mbind _ _ _ _ _ (as_number _) = _ => rewrite number_reads_back
  | |- @mbind _ _ _ _ _ (as_opt as_str _) = _ => rewrite opt_str_reads_back
  | |- @mbind _ _ _ _ _ (as_opt as_number _) = _ => rewrite opt_number_reads_back
  | |- _ => tac
  end; cbn [mbind res_bind as_int as_str].

Ltac decode_fields tac :=
  match goal with |- context [fields_of ?al (sort_keys (JObj ?kvs))] =>
    rewrite (fields_of_sorted al kvs) by reflexivity; cbn [mbind res_bind];
    let Hnd := fresh "Hnd" in
    assert (NoDup kvs.*1) as Hnd by (cbn [fmap list_fmap fst]; by_compute);
    repeat (lazymatch goal with
            | |- @mbind _ _ _ _ _ (field _ ?n ?d) = _ => rewrite (field_sorted kvs n _ d Hnd) by reflexivity
            | |- @mbind _ _ _ _ _ (field_or _ ?n ?v ?d) = _ => rewrite (field_or_sorted kvs n _ v d Hnd) by reflexivity
            end; cbn [snd sort_keys]; read_field tac); clear Hnd
  end.

Lemma ref_reads_back r : valid_ref r → reads_back ref_json decode_ref r.
Proof. intros Hr. unfold ref_json, decode_ref. decode_fields fail. destruct r. by apply construct_ok. Qed.

Lemma opt_ref_reads_back r : valid_opt_ref r → as_opt decode_ref (sort_keys (opt_json ref_json r)) = Ok r.
Proof. intros Hr. apply as_opt_sorted; [|done]. intros a ->. by apply ref_reads_back. Qed.

Lemma chunk_ref_reads_back c : passes check_chunk_ref c → reads_back chunk_ref_json decode_chunk_ref c.
Proof. intros H. unfold chunk_ref_json, decode_chunk_ref. decode_fields fail. destruct c. by apply construct_ok. Qed.

Lemma tree_entry_reads_back e : valid_tree_entry e → reads_back tree_entry_json decode_tree_entry e.
Proof.
  intros [H Hr]. unfold tree_entry_json, decode_tree_entry. decode_fields ltac:(rewrite (ref_reads_back _ Hr)).
  destruct e. by apply construct_ok.
Qed.

Lemma snapshot_entry_reads_back e : valid_snapshot_entry e → reads_back snapshot_entry_json decode_snapshot_entry e.
Proof.
  intros [H Hr]. unfold snapshot_entry_json, decode_snapshot_entry. decode_fields ltac:(rewrite (opt_ref_reads_back _ Hr)).
  destruct e. by apply construct_ok.
Qed.

Lemma known_chunk_reads_back r : passes check_known_chunk r → reads_back known_chunk_json decode_known_chunk r.
Proof. intros H. unfold known_chunk_json, decode_known_chunk. decode_fields fail. destruct r. by apply construct_ok. Qed.

Lemma index_shard_reads_back s : valid_index_shard s → reads_back index_shard_json decode_index_shard s.
Proof.
  intros [H Hr]. unfold index_shard_json, decode_index_shard. decode_fields ltac:(rewrite (ref_reads_back _ Hr)).
  destruct s. by apply construct_ok.
Qed.

Lemma protection_record_reads_back r :
  passes check_protection_record r → reads_back protection_record_json decode_protection_record r.
Proof.
  intros H. unfold protection_record_json, decode_protection_record. decode_fields fail. destruct r. by apply construct_ok.
Qed.

Lemma pack_chunk_reads_back c : passes check_pack_chunk c → reads_back pack_chunk_json decode_pack_chunk c.
Proof. intros H. unfold pack_chunk_json, decode_pack_chunk. decode_fields fail. destruct c. by apply construct_ok. Qed.

Lemma pack_shard_reads_back s : passes check_pack_shard s → reads_back pack_shard_json decode_pack_shard s.
Proof. intros H. unfold pack_shard_json, decode_pack_shard. decode_fields fail. destruct s. by apply construct_ok. Qed.

Lemma all_read_back {A} (P : A → Prop) (to_json : A → json) decode l :
  (∀ x, P x → reads_back to_json decode x) → Forall P l → as_tuple decode (sort_keys (tuple_json to_json l)) = Ok l.
Proof. intros H Hl. apply as_tuple_sorted. eapply Forall_impl; [exact Hl|exact H]. Qed.

Lemma pack_record_reads_back r : valid_pack_record r → reads_back pack_record_json decode_pack_record r.
Proof.
  intros (H & Hc & Hs). unfold pack_record_json, decode_pack_record.
  decode_fields ltac:(first [rewrite (all_read_back _ _ _ _ pack_chunk_reads_back Hc)
                            |rewrite (all_read_back _ _ _ _ pack_shard_reads_back Hs)]).
  destruct r. by apply construct_ok.
Qed.

Ltac read_parts := first
  [ rewrite ref_reads_back by assumption | rewrite opt_ref_reads_back by assumption
  | rewrite (all_read_back _ _ _ _ chunk_ref_reads_back) by assumption
  | rewrite (all_read_back _ _ _ _ tree_entry_reads_back) by assumption
  | rewrite (all_read_back _ _ _ _ snapshot_entry_reads_back) by assumption
  | rewrite (all_read_back _ _ _ _ known_chunk_reads_back) by assumption
  | rewrite (all_read_back _ _ _ _ index_shard_reads_back) by assumption
  | rewrite (all_read_back _ _ _ _ protection_record_reads_back) by assumption
  | rewrite (all_read_back _ _ _ _ pack_record_reads_back) by assumption ].

(** An object is built again from its normalised payload. *)
Lemma object_reads_back o : valid_object o → decode_object (object_type o) (sort_keys (JObj (object_payload o))) = Ok o.
Proof.
  intros Hv. destruct o as [o|o|o|o|o|o|o|o|o|o|o|o|o]; cbn [valid_object] in Hv; destruct_and!;
    cbn [object_type object_payload decode_object]; decode_fields read_parts; destruct o;
    (erewrite construct_ok; [reflexivity|assumption]).
Qed.

Lemma payload_roundtrip o :
  valid_object o → decode_metadata_object_payload (object_type o) (sorted_keys (object_payload o)) = Ok o.
Proof.
  intros Hv. unfold decode_metadata_object_payload. rewrite <-sort_keys_obj, object_reads_back by done.
  cbn [mbind res_bind]. by rewrite sort_keys_idem, bool_decide_eq_false_2 by auto.
Qed.

(** ** What decoding guarantees *)

Lemma construct_inv {A} (check : A → res unit) a b : construct check a = Ok b → a = b ∧ passes check b.
Proof. unfold construct. intros H. apply bind_Ok in H as ([] & Hc & [= <-]). done. Qed.

Lemma as_opt_inv {A} (P : A → Prop) (decode : json → res A) v x :
  (∀ v a, decode v = Ok a → P a) → as_opt decode v = Ok x → match x with Some a => P a | None => True end.
Proof.
  intros H. destruct x as [a|]; [|done]. intros Hx. apply (H v).
  destruct v; cbn [as_opt] in Hx; try done; apply bind_Ok in Hx as (c & Hc & [= ->]); exact Hc.
Qed.

Lemma as_tuple_inv {A} (P : A → Prop) (decode : json → res A) v l :
  (∀ v a, decode v = Ok a → P a) → as_tuple decode v = Ok l → Forall P l.
Proof.
  intros H. destruct v as [| | | | |k|]; try done. cbn [as_tuple]. intros Hl%mapM_res_Ok.
  induction Hl; constructor; eauto.
Qed.

Lemma field_inv {A} (P : A → Prop) kvs name (decode : json → res A) a :
  (∀ v a, decode v = Ok a → P a) → field kvs name decode = Ok a → P a.
Proof. unfold field. destruct (jget name kvs); [eauto|done]. Qed.

Lemma field_or_inv {A} (P : A → Prop) kvs name d (decode : json → res A) a :
  (∀ v a, decode v = Ok a → P a) → P d → field_or kvs name d decode = Ok a → P a.
Proof. unfold field_or. destruct (jget name kvs); [eauto|]. by intros ? ? [= <-]. Qed.

Ltac invert_fields :=
  repeat match goal with
  | H : @mbind _ _ _ _ _ _ = Ok _ |- _ => apply bind_Ok in H; destruct H as (? & ? & H)
  | H : construct _ _ = Ok _ |- _ => apply construct_inv in H; destruct H as [<- H]
  end.

Lemma decode_ref_valid v r : decode_ref v = Ok r → valid_ref r.
Proof. unfold decode_ref. intros H. by invert_fields. Qed.

Lemma decode_opt_ref_valid v r : as_opt decode_ref v = Ok r → valid_opt_ref r.
Proof. intros H. by apply (as_opt_inv valid_ref) in H; [|apply decode_ref_valid]. Qed.

Lemma decode_chunk_ref_valid v c : decode_chunk_ref v = Ok c → passes check_chunk_ref c.
Proof. unfold decode_chunk_ref. intros H. by invert_fields. Qed.

Lemma decode_tree_entry_valid v e : decode_tree_entry v = Ok e → valid_tree_entry e.
Proof. unfold decode_tree_entry. intros H. invert_fields. split; [done|]. by eapply field_inv; [apply decode_ref_valid|]. Qed.

Lemma decode_snapshot_entry_valid v e : decode_snapshot_entry v = Ok e → valid_snapshot_entry e.
Proof.
  unfold decode_snapshot_entry. intros H. invert_fields. split; [done|].
  cbn. eapply (field_or_inv valid_opt_ref _ _ None); [exact decode_opt_ref_valid|exact I|eassumption].
Qed.

Lemma decode_known_chunk_valid v r : decode_known_chunk v = Ok r → passes check_known_chunk r.
Proof. unfold decode_known_chunk. intros H. by invert_fields. Qed.

Lemma decode_index_shard_valid v s : decode_index_shard v = Ok s → valid_index_shard s.
Proof. unfold decode_index_shard. intros H. invert_fields. split; [done|]. by eapply field_inv; [apply decode_ref_valid|]. Qed.

Lemma decode_protection_record_valid v r : decode_protection_record v = Ok r → passes check_protection_record r.
Proof. unfold decode_protection_record. intros H. by invert_fields. Qed.

Lemma decode_pack_chunk_valid v c : decode_pack_chunk v = Ok c → passes check_pack_chunk c.
Proof. unfold decode_pack_chunk. intros H. by invert_fields. Qed.

Lemma decode_pack_shard_valid v s : decode_pack_shard v = Ok s → passes check_pack_shard s.
Proof. unfold decode_pack_shard. intros H. by invert_fields. Qed.

Lemma tuple_field_valid {A} (P : A → Prop) kvs name (decode : json → res A) l :
  (∀ v a, decode v = Ok a → P a) → field kvs name (as_tuple decode) = Ok l → Forall P l.
Proof. intros H. apply (field_inv (Forall P)). intros v k. by apply as_tuple_inv. Qed.

Lemma decode_pack_record_valid v r : decode_pack_record v = Ok r → valid_pack_record r.
Proof.
  unfold decode_pack_record. intros H. invert_fields. split_and!; [done|..].
  - by eapply tuple_field_valid; [apply decode_pack_chunk_valid|].
  - by eapply tuple_field_valid; [apply decode_pack_shard_valid|].
Qed.

Lemma fmap_Ok {A B} (f : A → B) (m : res A) b : f <$> m = Ok b ↔ ∃ a, m = Ok a ∧ f a = b.
Proof. destruct m; cbn; split; [intros [= <-]; eauto|intros (? & [= <-] & <-); done|done|by intros (? & ? & _)]. Qed.

Lemma decode_object_valid t v o : decode_object t v = Ok o → valid_object o ∧ object_type o = t.
Proof.
  intros H. destruct t; cbn [decode_object] in H; invert_fields; apply fmap_Ok in H as (? & H & <-);
    apply construct_inv in H as [<- H]; (split; [|done]); cbn [valid_object]; split_and?; try exact H; cbn;
    first [ eapply field_inv; [|eassumption]; first [exact decode_ref_valid|exact decode_opt_ref_valid]
          | eapply (field_or_inv valid_opt_ref _ _ None); [exact decode_opt_ref_valid|exact I|eassumption]
          | eapply tuple_field_valid; [|eassumption];
            first [ exact decode_chunk_ref_valid | exact decode_tree_entry_valid | exact decode_snapshot_entry_valid
                  | exact decode_known_chunk_valid | exact decode_index_shard_valid
                  | exact decode_protection_record_valid | exact decode_pack_record_valid ] ].
Qed.

Lemma decode_payload_valid t kvs o : decode_metadata_object_payload t kvs = Ok o →
  valid_object o ∧ object_type o = t ∧ sort_keys (JObj (object_payload o)) = sort_keys (JObj kvs).
Proof.
  unfold decode_metadata_object_payload. intros H. apply bind_Ok in H as (o' & Ho & H). apply bind_Ok in H as ([] & Hn & [= <-]).
  apply decode_object_valid in Ho as [? ?]. split_and!; [done..|]. apply raise_if_Ok in Hn.
  by apply bool_decide_eq_false, dec_stable in Hn.
Qed.
