(* ===== verification/MetaWalk.v ===== *)
(** * Walking the metadata graph

    [metadata/objects/graph/walk.py]: the envelope of an object is checked against its hash,
    its canonical form and its type, and the objects that can be reached from a catalogue are
    collected by following the references inside the payloads. *)

From S2P Require Import Prelude PyStr Common PyFloat Json Protection Catalog MetaModels MetaCodec.

Definition walk_error_if (c : bool) : res unit := raise_if c MetadataObjectGraphWalkError.

(** [_require_hash64]: the text without surrounding white space. *)
Definition require_hash64 (value : pystr) : res pystr :=
  let text := strip value in
  if is_valid_blake3_hex text then Ok text else Err MetadataObjectGraphWalkError.

(** [except Exception as exc: raise MetadataObjectGraphWalkError(...) from exc] *)
Definition as_walk_error {A} (r : res A) : res A :=
  match r with Ok a => Ok a | Err _ => Err MetadataObjectGraphWalkError end.

(** An [ObjectRef] as it appears in a payload. *)
Definition own_ref (kvs : list (pystr * json)) : res (list (MetadataObjectType * pystr)) :=
  match jget (u "object_type") kvs, jget (u "object_hash") kvs with
  | None, None => Ok []
  | Some (JStr t), Some (JStr h) =>
      match type_of_value t with
      | Some t => h ← require_hash64 h; Ok [(t, h)]
      | None => Err MetadataObjectGraphWalkError
      end
  | _, _ => Err MetadataObjectGraphWalkError
  end.

(** [iter_object_refs]: every reference nested in a value, in the order of the text. *)
Fixpoint iter_object_refs (v : json) : res (list (MetadataObjectType * pystr)) :=
  match v with
  | JObj kvs =>
      own ← own_ref kvs;
      rest ← (fix go (l : list (pystr * json)) := match l with
                | [] => Ok []
                | kv :: l' => a ← iter_object_refs kv.2; b ← go l'; Ok (a ++ b)
                end) kvs;
      Ok (own ++ rest)
  | JArr l =>
      (fix go (l : list json) := match l with
         | [] => Ok []
         | x :: l' => a ← iter_object_refs x; b ← go l'; Ok (a ++ b)
         end) l
  | _ => Ok []
  end.

Section walk.
Context (blake3 : bytes → bytes).

Definition decode_object_envelope (canonical_bytes : bytes) (expected_hash : option pystr)
    : res (MetadataObjectType * list (pystr * json)) :=
  expected ← (match expected_hash with None => Ok None | Some h => t ← require_hash64 h; Ok (Some t) end);
  let calculated := hexdigest (blake3 canonical_bytes) in
  _ ← walk_error_if (match expected with Some h => bool_decide (calculated ≠ h) | None => false end);
  envelope ← (match loads_bytes canonical_bytes with Some v => Ok v | None => Err MetadataObjectGraphWalkError end);
  kvs ← (match envelope with JObj kvs => Ok kvs | _ => Err MetadataObjectGraphWalkError end);
  canonical ← canonical_json envelope;
  _ ← walk_error_if (bool_decide (canonical ≠ canonical_bytes));
  _ ← walk_error_if (bool_decide (jget (u "format") kvs ≠ Some (JStr METADATA_OBJECT_FORMAT)));
  _ ← walk_error_if (bool_decide (jget (u "version") kvs ≠ Some (JInt METADATA_OBJECT_VERSION)));
  object_type ← (match jget (u "object_type") kvs with
    | Some (JStr s) => match type_of_value s with Some t => Ok t | None => Err MetadataObjectGraphWalkError end
    | _ => Err MetadataObjectGraphWalkError
    end);
  payload ← (match jget (u "payload") kvs with Some (JObj p) => Ok p | _ => Err MetadataObjectGraphWalkError end);
  _ ← as_walk_error (decode_metadata_object_payload object_type payload);
  Ok (object_type, payload).

(** ** The collection *)

Context (read_object_bytes : pystr → res bytes).

(** The body of [for ref_type, ref_hash in iter_object_refs(payload)]; [pending] is a stack,
    its top first. *)
Fixpoint enqueue (seen : list pystr) (refs : list (MetadataObjectType * pystr))
    (pending : list (pystr * MetadataObjectType)) (expected_types : gmap pystr MetadataObjectType)
    : res (list (pystr * MetadataObjectType) * gmap pystr MetadataObjectType) :=
  match refs with
  | [] => Ok (pending, expected_types)
  | (t, h) :: refs' =>
      _ ← walk_error_if (match expected_types !! h with Some t' => bool_decide (t' ≠ t) | None => false end);
      enqueue seen refs' (if bool_decide (h ∈ seen) then pending else (h, t) :: pending)
        (match expected_types !! h with Some _ => expected_types | None => <[h := t]> expected_types end)
  end.

(** An object and the references in it. *)
Definition visit (object_hash : pystr) (expected_type : MetadataObjectType)
    : res (bytes * list (MetadataObjectType * pystr)) :=
  canonical_bytes ← read_object_bytes object_hash;
  '(actual_type, payload) ← decode_object_envelope canonical_bytes (Some object_hash);
  _ ← walk_error_if (bool_decide (actual_type ≠ expected_type));
  refs ← iter_object_refs (JObj payload);
  Ok (canonical_bytes, refs).

(** The loop of [_collect_reachable_objects]; [None] means that the fuel ran out. The keys of
    [objects] are the set [seen]. *)
Fixpoint walk (fuel : nat) (pending : list (pystr * MetadataObjectType))
    (expected_types : gmap pystr MetadataObjectType) (objects : list (pystr * bytes))
    : option (res (list (pystr * bytes))) :=
  match pending with
  | [] => Some (Ok objects)
  | (h, t) :: pending' =>
      match fuel with
      | O => None
      | S f =>
          if bool_decide (h ∈ objects.*1) then walk f pending' expected_types objects
          else
            match ('(b, refs) ← visit h t;
                   '(p, e) ← enqueue (h :: objects.*1) refs pending' expected_types;
                   Ok (b, p, e)) with
            | Err e => Some (Err e)
            | Ok (b, p, e) => walk f p e (objects ++ [(h, b)])
            end
      end
  end.

(** How many references the object of a hash has, when it can be read. *)
Definition ref_count (h : pystr) : nat :=
  match (b ← read_object_bytes h; '(_, payload) ← decode_object_envelope b (Some h); iter_object_refs (JObj payload)) with
  | Ok refs => length refs
  | Err _ => 0
  end.

(** [names] are the hashes under which something can be read: each visit consumes one of
    them and pushes at most its references. *)
Definition walk_fuel (names : list pystr) : nat := S (sum_list_with ref_count names).

(** [_collect_reachable_objects] *)
Definition collect_reachable_object_bytes (names : list pystr) (catalog_hash : pystr)
    : option (res (list (pystr * bytes))) :=
  match require_hash64 catalog_hash with
  | Err e => Some (Err e)
  | Ok root => walk (walk_fuel names) [(root, CATALOG)] {[root := CATALOG]} []
  end.
Definition collect_reachable_object_hashes (names : list pystr) (catalog_hash : pystr)
    : option (res (list pystr)) :=
  match collect_reachable_object_bytes names catalog_hash with
  | Some (Ok objects) => Some (Ok objects.*1)
  | Some (Err e) => Some (Err e)
  | None => None
  end.

(** ** What it should collect *)

(** The objects a catalogue needs, with the types they are referred to by. *)
Inductive reach (root : pystr) : pystr → MetadataObjectType → Prop :=
  | reach_root : reach root root CATALOG
  | reach_ref h t b refs t' h' :
      reach root h t → visit h t = Ok (b, refs) → (t', h') ∈ refs → reach root h' t'.

(** Every object that is needed is there, is what its hash says, and has one type. *)
Definition intact (root : pystr) : Prop :=
  (∀ h t, reach root h t → ∃ b refs, visit h t = Ok (b, refs))
  ∧ (∀ h t t', reach root h t → reach root h t' → t = t').

Record walk_inv (root : pystr) (pending : list (pystr * MetadataObjectType))
    (expected : gmap pystr MetadataObjectType) (objects : list (pystr * bytes)) : Prop := {
  wi_root : expected !! root = Some CATALOG;
  wi_expected h t : expected !! h = Some t → reach root h t ∧ (h ∈ objects.*1 ∨ h ∈ pending.*1);
  wi_pending h t : (h, t) ∈ pending → expected !! h = Some t;
  wi_objects h b : (h, b) ∈ objects → ∃ t refs, expected !! h = Some t ∧ visit h t = Ok (b, refs)
    ∧ ∀ t' h', (t', h') ∈ refs → expected !! h' = Some t';
  wi_nodup : NoDup objects.*1 }.

Lemma enqueue_spec seen refs pending expected p e : enqueue seen refs pending expected = Ok (p, e) →
  expected ⊆ e
  ∧ (∀ t h, (t, h) ∈ refs → e !! h = Some t)
  ∧ (∀ h t, e !! h = Some t → expected !! h = Some t ∨ (t, h) ∈ refs)
  ∧ (∀ h t, (h, t) ∈ p ↔ (h, t) ∈ pending ∨ ((t, h) ∈ refs ∧ h ∉ seen))
  ∧ length p <= length pending + length refs.
Proof.
  revert pending expected. induction refs as [|[t h] refs IH]; intros pending expected H; cbn [enqueue] in H.
  - injection H as <- <-. split_and!; [done|by intros ? ? ?%elem_of_nil|by left|intros; rewrite elem_of_nil; tauto|lia].
  - apply bind_Ok in H as ([] & Hc & H). apply raise_if_Ok in Hc. apply IH in H as (H1 & H2 & H3 & H4 & H5).
    assert (e !! h = Some t) as Ht.
    { eapply lookup_weaken; [|exact H1]. destruct (expected !! h) as [t'|] eqn:E; [|by rewrite lookup_insert_eq].
      by apply bool_decide_eq_false, dec_stable in Hc as ->. }
    split_and!.
    + etransitivity; [|exact H1]. destruct (expected !! h) eqn:E; [done|]. by apply insert_subseteq.
    + intros t' h' [[= -> ->]|Hin]%elem_of_cons; [done|auto].
    + intros h' t' E. rewrite elem_of_cons. destruct (H3 _ _ E) as [E'|Hin]; [|auto].
      destruct (expected !! h) eqn:Eh; [auto|]. destruct (decide (h' = h)) as [->|N].
      * rewrite lookup_insert_eq in E'. injection E' as ->. auto.
      * rewrite lookup_insert_ne in E' by done. auto.
    + intros h' t'. rewrite H4, elem_of_cons. case_bool_decide as Hs; [naive_solver|]. rewrite elem_of_cons. naive_solver.
    + case_bool_decide; cbn [length] in *; lia.
Qed.

Lemma visit_inv_step root h t pending expected objects b refs p e :
  walk_inv root ((h, t) :: pending) expected objects → h ∉ objects.*1 → visit h t = Ok (b, refs) →
  enqueue (h :: objects.*1) refs pending expected = Ok (p, e) → walk_inv root p e (objects ++ [(h, b)]).
Proof.
  intros [I1 I2 I3 I4 I5] Hh Hv He. apply enqueue_spec in He as (E1 & E2 & E3 & E4 & _).
  assert (expected !! h = Some t) as Ht by (apply I3; left).
  assert (reach root h t) as Hr by (by apply I2).
  assert (∀ x, x ∈ (objects ++ [(h, b)]).*1 ↔ x = h ∨ x ∈ objects.*1) as Hk.
  { intros x. rewrite fmap_app, elem_of_app. cbn. rewrite list_elem_of_singleton. tauto. }
  split.
  - by eapply lookup_weaken.
  - intros x tx Ex. rewrite Hk. assert (x ∈ p.*1 ↔ ∃ t, (x, t) ∈ p) as ->.
    { rewrite list_elem_of_fmap. split; [intros ([? ?] & -> & ?); eauto|intros (t' & ?); by exists (x, t')]. }
    apply E3 in Ex as [Ex|Hin].
    + apply I2 in Ex as [Hrx [Ho|Hp]]; split; auto.
      cbn in Hp. apply elem_of_cons in Hp as [->|Hp]; [auto|].
      apply list_elem_of_fmap in Hp as ([? t'] & -> & Hp). right. exists t'. apply E4. auto.
    + split; [by eapply reach_ref|]. destruct (decide (x ∈ h :: objects.*1)) as [Hs|Hs].
      * apply elem_of_cons in Hs. auto.
      * right. exists tx. apply E4. auto.
  - intros x tx Hin. apply E4 in Hin as [Hin|[Hin _]]; [|auto]. eapply lookup_weaken; [apply I3; by right|done].
  - intros x bx Hin. apply elem_of_app in Hin as [Hin|Hin%list_elem_of_singleton].
    + destruct (I4 _ _ Hin) as (tx & rx & ? & ? & Hx). exists tx, rx. split_and!; [by eapply lookup_weaken|done|].
      intros t' h' ?. eapply lookup_weaken; [by apply Hx|done].
    + injection Hin as -> ->. exists t, refs. split_and!; [by eapply lookup_weaken|done|auto].
  - rewrite fmap_app. apply NoDup_app. split_and!; [done| |apply NoDup_singleton].
    intros x Hx. cbn. rewrite list_elem_of_singleton. congruence.
Qed.

(** When the stack is empty, what was collected is closed under references. *)
Lemma walk_done root expected objects : walk_inv root [] expected objects →
  ∀ h t, reach root h t ↔ expected !! h = Some t ∧ h ∈ objects.*1.
Proof.
  intros [I1 I2 I3 I4 I5].
  assert (∀ h t, expected !! h = Some t → h ∈ objects.*1) as Hin.
  { intros h t E. destruct (I2 _ _ E) as [_ [H|H]]; [done|by apply elem_of_nil in H]. }
  intros h t. split; [|intros [E _]; by apply I2].
  assert (reach root h t → expected !! h = Some t) as H; [|intros Hr; split; [auto|by eapply Hin, H]].
  induction 1 as [|h t b refs t' h' Hr IH Hv Hin']; [done|].
  pose proof (Hin _ _ IH) as Ho. apply list_elem_of_fmap in Ho as ([x b'] & -> & Ho). cbn in *.
  destruct (I4 _ _ Ho) as (t2 & refs2 & E2 & Hv2 & Hx). assert (t2 = t) as -> by congruence.
  rewrite Hv in Hv2. injection Hv2 as -> ->. by apply Hx.
Qed.

(** ** The loop ends *)

Lemma visit_count h t b refs : visit h t = Ok (b, refs) → (∃ b, read_object_bytes h = Ok b) ∧ ref_count h = length refs.
Proof.
  unfold visit, ref_count. destruct (read_object_bytes h) as [b'|]; [|done]. cbn [mbind res_bind].
  destruct (decode_object_envelope b' (Some h)) as [[t' payload]|]; [|done]. cbn [mbind res_bind].
  destruct (walk_error_if _); [|done]. cbn [mbind res_bind]. destruct (iter_object_refs _); [|done].
  intros [= -> ->]. eauto.
Qed.

Lemma enqueue_error seen refs pending expected e : enqueue seen refs pending expected = Err e →
  ∃ h t t', t ≠ t' ∧ (t, h) ∈ refs ∧ (expected !! h = Some t' ∨ (t', h) ∈ refs).
Proof.
  revert pending expected. induction refs as [|[t h] refs IH]; intros pending expected H; cbn [enqueue] in H; [done|].
  destruct (expected !! h) as [t'|] eqn:Eh.
  - destruct (decide (t' = t)) as [->|N].
    + assert (bool_decide (t ≠ t) = false) as Et by (apply bool_decide_eq_false_2; intros N; by apply N).
      rewrite Et in H. cbn in H. destruct (IH _ _ H) as (h' & t1 & t2 & ? & ? & Hor).
      exists h', t1, t2. rewrite !elem_of_cons. split_and!; [done|auto|]. destruct Hor; auto.
    + exists h, t, t'. split_and!; [done|left|by left].
  - cbn in H. destruct (IH _ _ H) as (h' & t1 & t2 & ? & ? & Hor). exists h', t1, t2. rewrite !elem_of_cons.
    split_and!; [done|auto|]. destruct Hor as [E|]; [|auto]. destruct (decide (h' = h)) as [->|N].
    + rewrite lookup_insert_eq in E. injection E as ->. auto.
    + rewrite lookup_insert_ne in E by done. auto.
Qed.

(** The references of the names that were not visited. *)
Definition remaining (names : list pystr) (objects : list (pystr * bytes)) : nat :=
  sum_list_with ref_count (filter (λ h, h ∉ objects.*1) names).

Lemma remaining_visit names objects h b : h ∈ names → h ∉ objects.*1 →
  remaining names (objects ++ [(h, b)]) + ref_count h <= remaining names objects.
Proof.
  unfold remaining. intros Hin Hh.
  assert (∀ x, x ∉ (objects ++ [(h, b)]).*1 ↔ x ∉ objects.*1 ∧ x ≠ h) as Hk.
  { intros x. rewrite fmap_app, not_elem_of_app. cbn. by rewrite list_elem_of_singleton. }
  assert (∀ l, sum_list_with ref_count (filter (λ x, x ∉ (objects ++ [(h, b)]).*1) l)
               <= sum_list_with ref_count (filter (λ x, x ∉ objects.*1) l)) as Hle.
  { induction l as [|x l IH]; [done|]. rewrite !filter_cons. repeat case_decide; cbn [sum_list_with]; try lia.
    rewrite Hk in *. tauto. }
  induction names as [|x l IH]; [by apply elem_of_nil in Hin|]. rewrite !filter_cons.
  destruct (decide (x = h)) as [->|N].
  - rewrite decide_False by (rewrite Hk; tauto). rewrite decide_True by done. cbn [sum_list_with].
    pose proof (Hle l). lia.
  - apply elem_of_cons in Hin as [?|Hin]; [done|]. specialize (IH Hin).
    assert ((x ∉ (objects ++ [(h, b)]).*1) ↔ x ∉ objects.*1) as Hx by (rewrite Hk; tauto).
    destruct (decide (x ∉ objects.*1)) as [Hd|Hd].
    + rewrite decide_True by (by apply Hx). cbn [sum_list_with]. lia.
    + rewrite decide_False by (by rewrite Hx). lia.
Qed.

Lemma walk_inv_skip root h t pending expected objects :
  walk_inv root ((h, t) :: pending) expected objects → h ∈ objects.*1 → walk_inv root pending expected objects.
Proof.
  intros [I1 I2 I3 I4 I5] Hh. split; [done| | |done|done].
  - intros x tx E. destruct (I2 _ _ E) as [? [?|Hp]]; [auto|]. cbn in Hp. apply elem_of_cons in Hp as [->|]; auto.
  - intros x tx Hin. apply I3. by right.
Qed.

Lemma walk_ends names root (Hnames : ∀ h b, read_object_bytes h = Ok b → h ∈ names) fuel pending expected objects :
  walk_inv root pending expected objects → length pending + remaining names objects <= fuel →
  ∃ r, walk fuel pending expected objects = Some r
    ∧ match r with Ok objs => ∃ e, walk_inv root [] e objs | Err _ => ¬ intact root end.
Proof.
  revert pending expected objects. induction fuel as [|f IH]; intros [|[h t] pending] expected objects HI Hf; cbn [walk];
    try (eexists; split; [reflexivity|]; by exists expected); [cbn [length] in Hf; lia|].
  assert (reach root h t) as Hr by (apply HI, HI; left). cbn [length] in Hf.
  case_bool_decide as Hh; [by apply IH; [eapply walk_inv_skip|lia]|].
  destruct (visit h t) as [[b refs]|e] eqn:Hv; cbn [mbind res_bind].
  - destruct (enqueue (h :: objects.*1) refs pending expected) as [[p e]|e] eqn:He; cbn [mbind res_bind].
    + apply IH; [by eapply visit_inv_step|]. destruct (visit_count _ _ _ _ Hv) as [(b' & Hb) Hc].
      pose proof (remaining_visit names objects h b (Hnames _ _ Hb) Hh).
      apply enqueue_spec in He as (_ & _ & _ & _ & Hlen). lia.
    + eexists. split; [reflexivity|]. intros [_ Huniq]. destruct (enqueue_error _ _ _ _ _ He) as (h' & t1 & t2 & N & Hin & Hor).
      assert (reach root h' t1) as R1 by (by eapply reach_ref).
      assert (reach root h' t2) as R2 by (destruct Hor as [E|Hin2]; [exact (proj1 (wi_expected _ _ _ _ HI _ _ E))|exact (reach_ref _ _ _ _ _ _ _ Hr Hv Hin2)]).
      apply N. by eapply Huniq.
  - eexists. split; [reflexivity|]. intros [Hall _]. destruct (Hall _ _ Hr) as (b & refs & E). congruence.
Qed.

Lemma walk_inv_start root : walk_inv root [(root, CATALOG)] {[root := CATALOG]} [].
Proof.
  split; [by rewrite lookup_singleton_eq| | | |by apply NoDup_nil_2].
  - intros h t [<- <-]%lookup_singleton_Some. split; [apply reach_root|right; left].
  - intros h t [= -> ->]%list_elem_of_singleton. by rewrite lookup_singleton_eq.
  - intros h b []%elem_of_nil.
Qed.

(** What is collected from an intact graph, and only from one. *)
Lemma walk_collects names catalog_hash root (Hnames : ∀ h b, read_object_bytes h = Ok b → h ∈ names) :
  require_hash64 catalog_hash = Ok root →
  (intact root ∧ ∃ objects, collect_reachable_object_bytes names catalog_hash = Some (Ok objects)
     ∧ NoDup objects.*1 ∧ (∀ h, h ∈ objects.*1 ↔ ∃ t, reach root h t)
     ∧ (∀ h b, (h, b) ∈ objects → ∃ t refs, reach root h t ∧ visit h t = Ok (b, refs)))
  ∨ (¬ intact root ∧ ∃ e, collect_reachable_object_bytes names catalog_hash = Some (Err e)).
Proof.
  intros Hroot. unfold collect_reachable_object_bytes. rewrite Hroot.
  destruct (walk_ends names root Hnames (walk_fuel names) _ _ _ (walk_inv_start root)) as (r & E & Hr).
  - unfold walk_fuel, remaining. cbn [length fmap list_fmap].
    assert (filter (λ h : pystr, h ∉ []) names = names) as ->; [|lia].
    clear. induction names as [|h l IH]; [done|].
    rewrite filter_cons_True by apply not_elem_of_nil. by rewrite IH.
  - rewrite E. destruct r as [objs|e]; [|right; eauto]. left. destruct Hr as (ex & HI).
    pose proof (walk_done _ _ _ HI) as Hd. split; [|exists objs; split_and!; [done|apply HI| |]].
    + split; [|intros h t t' [E1 _]%Hd [E2 _]%Hd; congruence].
      intros h t [Et Hin]%Hd. apply list_elem_of_fmap in Hin as ([x b] & -> & Hin).
      destruct (wi_objects _ _ _ _ HI _ _ Hin) as (t' & refs & Et' & Hv & _). cbn in *.
      assert (t' = t) as -> by congruence. eauto.
    + intros h. split; [|intros (t & Hr); by apply Hd in Hr as [_ ?]].
      intros Hin. assert (∃ b, (h, b) ∈ objs) as (b & Hb) by (apply list_elem_of_fmap in Hin as ([x b] & -> & ?); eauto).
      destruct (wi_objects _ _ _ _ HI _ _ Hb) as (t & refs & Et & _). exists t. by apply HI.
    + intros h b Hb. destruct (wi_objects _ _ _ _ HI _ _ Hb) as (t & refs & Et & Hv & _).
      exists t, refs. split; [by apply HI|done].
Qed.
End walk.

(** ** Encoded objects are accepted *)

Lemma dumps_encodable v : json_ok v → Forall encodable (dumps v).
Proof. intros Hv. by apply print_encodable, sort_keys_ok. Qed.

Lemma canonical_json_ok v : json_ok v → canonical_json v = Ok (canonical_json_bytes v).
Proof.
  intros Hv%dumps_encodable. unfold canonical_json. assert (existsb surrogate (dumps v) = false) as ->; [|done].
  apply not_true_iff_false. rewrite existsb_exists. intros (c & Hc%list_elem_of_In & Hs).
  rewrite Forall_forall in Hv. destruct (Hv c Hc) as [_ Hf]. congruence.
Qed.

Lemma canonical_json_sorted v : canonical_json (sort_keys v) = canonical_json v.
Proof. unfold canonical_json, canonical_json_bytes, dumps. by rewrite sort_keys_idem. Qed.

Lemma envelope_ok o : json_ok (JObj (object_payload o)) → json_ok (object_envelope o).
Proof.
  intros Hp. apply json_ok_obj. split; [cbn [fmap list_fmap fst]; by_compute|].
  assert (∀ s, forallb (λ c, (c <? 55296)%N) s = true → json_ok (JStr s)) as Hs by (intros s; apply Forall_ascii).
  repeat (apply Forall_cons; split; [split; cbn [fst snd]; [apply Forall_ascii; reflexivity|]|]); [..|apply Forall_nil_2].
  - apply Hs. reflexivity.
  - exact I.
  - apply Hs. by destruct (object_type o).
  - exact Hp.
Qed.

Lemma encode_ok blake3 o : json_ok (JObj (object_payload o)) →
  encode_metadata_object blake3 o = Ok {| eo_type := object_type o;
    eo_hash := hexdigest (blake3 (canonical_json_bytes (object_envelope o)));
    eo_bytes := canonical_json_bytes (object_envelope o) |}.
Proof.
  intros Hp%envelope_ok. unfold encode_metadata_object, canonical_object_bytes. by rewrite canonical_json_ok.
Qed.

Lemma require_valid h : is_valid_blake3_hex h = true → require_hash64 h = Ok h.
Proof. intros H. unfold require_hash64. by rewrite valid_hex_strip, H. Qed.

Lemma type_of_type_value t : type_of_value (type_value t) = Some t.
Proof. by destruct t. Qed.

Lemma envelope_decodes blake3 o (Hdigest : ∀ x, length (blake3 x) = 32) :
  valid_object o → json_ok (JObj (object_payload o)) →
  let b := canonical_json_bytes (object_envelope o) in
  decode_object_envelope blake3 b (Some (hexdigest (blake3 b))) = Ok (object_type o, sorted_keys (object_payload o)).
Proof.
  intros Hv Hp b. unfold decode_object_envelope. rewrite require_valid by (by apply hexdigest_valid).
  cbn [mbind res_bind]. rewrite bool_decide_eq_false_2 by naive_solver. cbn [walk_error_if raise_if mbind res_bind].
  assert (loads_bytes b = Some (sort_keys (object_envelope o))) as -> by (apply loads_canonical, envelope_ok, Hp).
  cbn [mbind res_bind]. assert (canonical_json (sort_keys (object_envelope o)) = Ok b) as Hb
    by (rewrite canonical_json_sorted; apply canonical_json_ok, envelope_ok, Hp).
  revert Hb. unfold object_envelope. rewrite sort_keys_obj. intros Hb. cbn [mbind res_bind]. rewrite Hb. clear Hb. cbn [mbind res_bind].
  rewrite bool_decide_eq_false_2 by naive_solver. cbn [walk_error_if raise_if mbind res_bind].
  match goal with |- context [sorted_keys ?k] => assert (NoDup k.*1) as Hnd by (cbn [fmap list_fmap fst]; by_compute) end.
  rewrite !(jget_sorted _ _ Hnd).
  change (jget (u "format") _) with (Some (JStr METADATA_OBJECT_FORMAT)).
  change (jget (u "version") _) with (Some (JInt METADATA_OBJECT_VERSION)).
  change (jget (u "object_type") _) with (Some (JStr (type_value (object_type o)))).
  change (jget (u "payload") _) with (Some (JObj (object_payload o))).
  cbn [fmap option_fmap option_map]. cbn [sort_keys]. fold (sorted_keys (object_payload o)).
  rewrite !bool_decide_eq_false_2 by naive_solver. cbn [walk_error_if raise_if mbind res_bind].
  rewrite type_of_type_value. cbn [mbind res_bind]. by rewrite payload_roundtrip.
Qed.

(** ** Accepted bytes are objects *)

Lemma as_walk_error_Ok {A} (r : res A) a : as_walk_error r = Ok a → r = Ok a.
Proof. by destruct r. Qed.

Lemma decode_envelope_inv blake3 b h t payload : decode_object_envelope blake3 b h = Ok (t, payload) →
  (∀ h', h = Some h' → strip h' = hexdigest (blake3 b))
  ∧ ∃ o kvs, decode_metadata_object_payload t payload = Ok o ∧ valid_object o ∧ object_type o = t
    ∧ loads_bytes b = Some (JObj kvs) ∧ canonical_json (JObj kvs) = Ok b
    ∧ jget (u "format") kvs = Some (JStr METADATA_OBJECT_FORMAT)
    ∧ jget (u "version") kvs = Some (JInt METADATA_OBJECT_VERSION)
    ∧ jget (u "object_type") kvs = Some (JStr (type_value t)) ∧ jget (u "payload") kvs = Some (JObj payload).
Proof.
  unfold decode_object_envelope. intros H.
  apply bind_Ok in H as (expected & Hexp & H). apply bind_Ok in H as ([] & Hh & H). apply raise_if_Ok in Hh.
  apply bind_Ok in H as (envelope & Hl & H). apply bind_Ok in H as (kvs & Hk & H). apply bind_Ok in H as (canonical & Hc & H).
  apply bind_Ok in H as ([] & Hb & H). apply bind_Ok in H as ([] & Hf & H). apply bind_Ok in H as ([] & Hv & H).
  apply raise_if_Ok in Hb, Hf, Hv. apply bool_decide_eq_false, dec_stable in Hb, Hf, Hv. subst canonical.
  apply bind_Ok in H as (t' & Ht & H). apply bind_Ok in H as (p & Hp & H). apply bind_Ok in H as (o & Ho & [= -> ->]).
  apply as_walk_error_Ok in Ho. destruct (decode_payload_valid _ _ _ Ho) as (Hvo & Hto & _). split.
  - intros h' ->. apply bind_Ok in Hexp as (t' & Ht' & [= <-]). unfold require_hash64 in Ht'.
    destruct (is_valid_blake3_hex (strip h')); [|done]. injection Ht' as <-.
    symmetry. by apply bool_decide_eq_false, dec_stable in Hh.
  - destruct (loads_bytes b) as [v|]; [|done]. injection Hl as ->. destruct envelope as [| | | | | |kvs']; try done. injection Hk as ->.
    exists o, kvs. split_and!; try done.
    + destruct (jget (u "object_type") kvs) as [[| | | |s| |]|]; try done. destruct (type_of_value s) as [t'|] eqn:Es; [|done].
      injection Ht as ->. unfold type_of_value in Es. apply find_some in Es as [_ Es]. apply bool_decide_eq_true in Es. by subst s.
    + destruct (jget (u "payload") kvs) as [[| | | | | |p]|]; try done. by injection Hp as ->.
Qed.

(** ** The references of an object *)

Definition object_refs (o : MetadataPlainObject) : list ObjectRef :=
  match o with
  | OCatalog o =>
      cat_snapshot_index o :: cat_known_chunk_index o :: option_list (cat_protection_index o)
      ++ option_list (cat_erasure_data_pack_index o)
  | OSnapshotIndex o => sidx_snapshots o ≫= λ e, option_list (sent_snapshot_root e)
  | OSnapshotRoot o => [sroot_root_tree o]
  | OTree o => tent_ref <$> tree_entries o
  | OFile o => [file_recipe o]
  | ORecipe o => [recipe_chunk_list o]
  | OKnownChunkIndex o => ish_ref <$> kidx_shards o
  | OProtectionIndex o => ish_ref <$> pidx_shards o
  | OErasureDataPackIndex o => ish_ref <$> eidx_shards o
  | OChunkList _ | OKnownChunkShard _ | OProtectionShard _ | OErasureDataPackShard _ => []
  end.
Definition ref_pair (r : ObjectRef) : MetadataObjectType * pystr := (ref_type r, ref_hash r).

Fixpoint iter_all (l : list json) : res (list (MetadataObjectType * pystr)) :=
  match l with [] => Ok [] | x :: l' => a ← iter_object_refs x; b ← iter_all l'; Ok (a ++ b) end.

Lemma iter_arr l : iter_object_refs (JArr l) = iter_all l.
Proof. induction l as [|x l IH]; [done|]. cbn [iter_all]. by rewrite <-IH. Qed.

Lemma iter_obj kvs : iter_object_refs (JObj kvs) = own ← own_ref kvs; rest ← iter_all kvs.*2; Ok (own ++ rest).
Proof.
  cbn [iter_object_refs]. destruct (own_ref kvs); [|done]. cbn [mbind res_bind].
  match goal with |- context [mbind _ (?f kvs)] => assert (f kvs = iter_all kvs.*2) as -> end; [|done].
  induction kvs as [|kv l IH]; [done|]. cbn [fmap list_fmap iter_all]. by rewrite <-IH.
Qed.

Lemma iter_all_perm l k : l ≡ₚ k → ∀ r, iter_all l = Ok r → ∃ r', iter_all k = Ok r' ∧ r' ≡ₚ r.
Proof.
  induction 1 as [|x l k HP IH|x y l|l k m H1 IH1 H2 IH2]; intros r H; cbn [iter_all] in *.
  - eauto.
  - apply bind_Ok in H as (a & -> & H). apply bind_Ok in H as (b & Hb & [= <-]).
    destruct (IH _ Hb) as (r' & -> & HP'). exists (a ++ r'). split; [done|by rewrite HP'].
  - apply bind_Ok in H as (a & -> & H). apply bind_Ok in H as (b & Hb & [= <-]).
    apply bind_Ok in Hb as (a' & -> & Hb). apply bind_Ok in Hb as (b' & -> & [= <-]).
    exists (a' ++ a ++ b'). split; [done|]. rewrite !app_assoc. by rewrite (Permutation_app_comm a a').
  - destruct (IH1 _ H) as (r1 & E1 & P1). destruct (IH2 _ E1) as (r2 & E2 & P2). exists r2. split; [done|by rewrite P2].
Qed.

Lemma own_ref_sorted kvs : NoDup kvs.*1 → own_ref (sorted_keys kvs) = own_ref kvs.
Proof.
  intros Hnd. unfold own_ref. rewrite !jget_sorted by done.
  destruct (jget _ kvs) as [[]|]; destruct (jget _ kvs) as [[]|]; done.
Qed.

Lemma iter_sorted v : json_ok v → ∀ r, iter_object_refs v = Ok r → ∃ r', iter_object_refs (sort_keys v) = Ok r' ∧ r' ≡ₚ r.
Proof.
  assert (∀ l, Forall (λ v, ∀ r, iter_object_refs v = Ok r → ∃ r', iter_object_refs (sort_keys v) = Ok r' ∧ r' ≡ₚ r) l →
    ∀ r, iter_all l = Ok r → ∃ r', iter_all (sort_keys <$> l) = Ok r' ∧ r' ≡ₚ r) as Hall.
  { induction 1 as [|x l Hx Hl IH]; intros r H; cbn [iter_all fmap list_fmap] in *; [eauto|].
    apply bind_Ok in H as (a & Ha & H). apply bind_Ok in H as (b & Hb & [= <-]).
    destruct (Hx _ Ha) as (a' & -> & Pa), (IH _ Hb) as (b' & -> & Pb). exists (a' ++ b'). split; [done|by rewrite Pa, Pb]. }
  induction v as [|b|z|fl|s|l IH|kvs IH] using json_nested_ind; intros Hok r H; try (by exists r).
  - apply json_ok_arr in Hok. cbn [sort_keys]. rewrite iter_arr in *. apply Hall; [|done].
    rewrite Forall_forall in *. intros x Hx. by apply IH, Hok.
  - apply json_ok_obj in Hok as [Hnd Hok]. rewrite sort_keys_obj. rewrite iter_obj in *.
    rewrite own_ref_sorted by done. apply bind_Ok in H as (own & -> & H). apply bind_Ok in H as (rest & Hr & [= <-]).
    destruct (Hall kvs.*2) with (r := rest) as (r1 & E1 & P1); [|done|].
    { apply Forall_fmap. rewrite Forall_forall in *. intros x Hx. exact (IH x Hx (proj2 (Hok x Hx))). }
    assert ((sorted_keys kvs).*2 ≡ₚ sort_keys <$> kvs.*2) as HP.
    { unfold sorted_keys. rewrite py_sorted_perm. clear. induction kvs as [|kv l IH]; [done|]. cbn. by rewrite IH. }
    symmetry in HP. destruct (iter_all_perm _ _ HP _ E1) as (r2 & E2 & P2). exists (own ++ r2).
    cbn [mbind res_bind]. rewrite E2. split; [done|by rewrite P2, P1].
Qed.

Lemma iter_number n : iter_object_refs (number_json n) = Ok [].
Proof. by destruct n. Qed.
Lemma iter_opt_number n : iter_object_refs (opt_json number_json n) = Ok [].
Proof. by destruct n as [[]|]. Qed.
Lemma iter_opt_str s : iter_object_refs (opt_json JStr s) = Ok [].
Proof. by destruct s. Qed.

Lemma iter_ref r : valid_ref r → iter_object_refs (ref_json r) = Ok [ref_pair r].
Proof.
  intros Hr. unfold valid_ref, check_ref, _require_hash64, refuse_if in Hr. apply raise_if_Ok, negb_false_iff in Hr.
  unfold ref_json. rewrite iter_obj. unfold own_ref. change (jget (u "object_type") _) with (Some (JStr (type_value (ref_type r)))).
  change (jget (u "object_hash") _) with (Some (JStr (ref_hash r))). cbv iota beta. rewrite type_of_type_value. by rewrite require_valid.
Qed.

Lemma iter_opt_ref r : valid_opt_ref r → iter_object_refs (opt_json ref_json r) = Ok (ref_pair <$> option_list r).
Proof. destruct r as [r|]; [apply iter_ref|done]. Qed.

Lemma iter_tuple {A} (f : A → json) (g : A → list ObjectRef) l :
  Forall (λ x, iter_object_refs (f x) = Ok (ref_pair <$> g x)) l → iter_object_refs (tuple_json f l) = Ok (ref_pair <$> (l ≫= g)).
Proof.
  intros H. unfold tuple_json. rewrite iter_arr. induction H as [|x l Hx Hl IH]; [done|].
  cbn [map iter_all]. rewrite Hx. cbn [mbind res_bind]. rewrite IH. cbn [mbind res_bind list_bind]. by rewrite fmap_app.
Qed.

(** A dict without a reference of its own. *)
Lemma iter_dict kvs : jget (u "object_type") kvs = None → jget (u "object_hash") kvs = None →
  iter_object_refs (JObj kvs) = iter_all kvs.*2.
Proof. intros H1 H2. rewrite iter_obj. unfold own_ref. rewrite H1, H2. cbn. by destruct (iter_all kvs.*2). Qed.

Lemma iter_int z : iter_object_refs (JInt z) = Ok [].
Proof. done. Qed.
Lemma iter_str s : iter_object_refs (JStr s) = Ok [].
Proof. done. Qed.

Ltac iter_fields :=
  rewrite iter_dict by reflexivity; cbn [fmap list_fmap snd iter_all];
  repeat (first [ rewrite iter_int | rewrite iter_str | rewrite iter_number | rewrite iter_opt_number | rewrite iter_opt_str | rewrite iter_ref by assumption
                | rewrite iter_opt_ref by assumption ]; cbn [mbind res_bind]).

Lemma bind_single {A B} (f : A → B) l : (l ≫= λ x, [f x]) = f <$> l.
Proof. induction l as [|x l IH]; cbn; [done|]. by f_equal. Qed.
Lemma bind_nil {A B} (l : list A) : (l ≫= λ _, []) = @nil B.
Proof. by induction l. Qed.

Lemma iter_tree_entry e : valid_tree_entry e → iter_object_refs (tree_entry_json e) = Ok (ref_pair <$> [tent_ref e]).
Proof. intros [_ Hr]. unfold tree_entry_json. iter_fields. done. Qed.
Lemma iter_snapshot_entry e : valid_snapshot_entry e →
  iter_object_refs (snapshot_entry_json e) = Ok (ref_pair <$> option_list (sent_snapshot_root e)).
Proof. intros [_ Hr]. unfold snapshot_entry_json. iter_fields. by rewrite app_nil_r. Qed.
Lemma iter_index_shard s : valid_index_shard s → iter_object_refs (index_shard_json s) = Ok (ref_pair <$> [ish_ref s]).
Proof. intros [_ Hr]. unfold index_shard_json. iter_fields. done. Qed.

Lemma iter_plain {A} (f : A → json) l : (∀ x, iter_object_refs (f x) = Ok []) → iter_object_refs (tuple_json f l) = Ok [].
Proof. intros H. rewrite (iter_tuple f (λ _, [])) by (apply Forall_true; intros; apply H). by rewrite bind_nil. Qed.

Lemma iter_chunk_ref c : iter_object_refs (chunk_ref_json c) = Ok [].
Proof. done. Qed.
Lemma iter_known_chunk r : iter_object_refs (known_chunk_json r) = Ok [].
Proof. done. Qed.
Lemma iter_protection_record r : iter_object_refs (protection_record_json r) = Ok [].
Proof. unfold protection_record_json. iter_fields. done. Qed.
Lemma iter_pack_record r : iter_object_refs (pack_record_json r) = Ok [].
Proof.
  unfold pack_record_json. iter_fields. rewrite (iter_plain pack_chunk_json) by done. cbn [mbind res_bind].
  rewrite (iter_plain pack_shard_json); [done|]. intros s. unfold pack_shard_json. by iter_fields.
Qed.

(** The walk finds exactly the references of an object. *)
Lemma iter_object o : valid_object o → iter_object_refs (JObj (object_payload o)) = Ok (ref_pair <$> object_refs o).
Proof.
  intros Hv. destruct o as [o|o|o|o|o|o|o|o|o|o|o|o|o]; cbn [valid_object] in Hv; destruct_and!;
    cbn [object_payload object_refs]; iter_fields; cbn [fmap list_fmap];
    try rewrite !app_nil_r; try done;
    first [ rewrite (iter_tuple _ _ _ (Forall_impl _ _ _ ltac:(eassumption) iter_tree_entry)), bind_single
          | rewrite (iter_tuple _ _ _ (Forall_impl _ _ _ ltac:(eassumption) iter_snapshot_entry))
          | rewrite (iter_tuple _ _ _ (Forall_impl _ _ _ ltac:(eassumption) iter_index_shard)), bind_single
          | rewrite (iter_plain chunk_ref_json _ iter_chunk_ref) | rewrite (iter_plain known_chunk_json _ iter_known_chunk)
          | rewrite (iter_plain protection_record_json _ iter_protection_record)
          | rewrite (iter_plain pack_record_json _ iter_pack_record) | idtac ];
    cbn [mbind res_bind app]; rewrite ?iter_int; cbn [mbind res_bind app];
    rewrite ?app_nil_r, ?fmap_app; done.
Qed.

(** ** The properties *)

(** Two objects with the same envelope are equal. *)
Lemma envelope_inj o o' : valid_object o → valid_object o' → json_ok (JObj (object_payload o)) →
  json_ok (JObj (object_payload o')) →
  canonical_json_bytes (object_envelope o) = canonical_json_bytes (object_envelope o') → o = o'.
Proof.
  intros Hv Hv' Hp Hp' E.
  assert (∀ x : bytes, length ((λ _ : bytes, replicate 32 Byte.x00) x) = 32) as Hd by done.
  pose proof (envelope_decodes _ o Hd Hv Hp) as H. cbv zeta in H.
  rewrite E, (envelope_decodes _ o' Hd Hv' Hp') in H. injection H as Ht Hs.
  pose proof (payload_roundtrip o Hv) as Ho. rewrite <-Ht, <-Hs, (payload_roundtrip o' Hv') in Ho. congruence.
Qed.

(** C40: Encoding a metadata object gives bytes that the walk accepts under the hash they are
    stored by, with the type of the object; its payload decodes to the same object and the
    references found in it are exactly those of the object. Two objects with the same hash
    are equal, unless two different texts have the same digest. *)
Theorem objects_round_trip blake3 (Hdigest : ∀ x, length (blake3 x) = 32) o :
  valid_object o → json_ok (JObj (object_payload o)) →
  ∃ e payload refs, encode_metadata_object blake3 o = Ok e
    ∧ is_valid_blake3_hex (eo_hash e) = true
    ∧ decode_object_envelope blake3 (eo_bytes e) (Some (eo_hash e)) = Ok (object_type o, payload)
    ∧ decode_metadata_object_payload (object_type o) payload = Ok o
    ∧ iter_object_refs (JObj payload) = Ok refs ∧ refs ≡ₚ ref_pair <$> object_refs o
    ∧ ∀ o' e', valid_object o' → json_ok (JObj (object_payload o')) →
        encode_metadata_object blake3 o' = Ok e' → eo_hash e' = eo_hash e →
        o' = o ∨ (eo_bytes e' ≠ eo_bytes e ∧ blake3 (eo_bytes e') = blake3 (eo_bytes e)).
Proof.
  intros Hv Hp. destruct (iter_sorted (JObj (object_payload o)) Hp _ (iter_object o Hv)) as (refs & Hr & HP).
  rewrite sort_keys_obj in Hr. eexists _, (sorted_keys (object_payload o)), refs.
  split; [by apply encode_ok|]. cbn [eo_hash eo_bytes]. split_and!; try done.
  - by apply hexdigest_valid.
  - by apply envelope_decodes.
  - by apply payload_roundtrip.
  - intros o' e' Hv' Hp'. rewrite (encode_ok _ _ Hp'). intros [= <-] Heq%hexdigest_inj. cbn [eo_bytes].
    destruct (decide (canonical_json_bytes (object_envelope o') = canonical_json_bytes (object_envelope o))) as [E|N];
      [left; by apply envelope_inj|by right].
Qed.

(** C39: The loop always ends. When every object that the catalogue needs is there, is what its
    hash says and is referred to with its own type, exactly the needed objects are
    collected, once each, with the bytes they were read as; in every other case the walk
    raises. *)
Theorem walk_collects_reachable blake3 read_object_bytes names catalog_hash :
  (∀ h b, read_object_bytes h = Ok b → h ∈ names) → is_valid_blake3_hex catalog_hash = true →
  (intact blake3 read_object_bytes catalog_hash ∧ ∃ objects,
     collect_reachable_object_bytes blake3 read_object_bytes names catalog_hash = Some (Ok objects)
     ∧ collect_reachable_object_hashes blake3 read_object_bytes names catalog_hash = Some (Ok objects.*1)
     ∧ NoDup objects.*1
     ∧ (∀ h, h ∈ objects.*1 ↔ ∃ t, reach blake3 read_object_bytes catalog_hash h t)
     ∧ ∀ h b, (h, b) ∈ objects → read_object_bytes h = Ok b
         ∧ ∃ t payload, reach blake3 read_object_bytes catalog_hash h t
             ∧ decode_object_envelope blake3 b (Some h) = Ok (t, payload))
  ∨ (¬ intact blake3 read_object_bytes catalog_hash ∧ ∃ e,
     collect_reachable_object_bytes blake3 read_object_bytes names catalog_hash = Some (Err e)).
Proof.
  intros Hnames Hroot. destruct (walk_collects blake3 read_object_bytes names catalog_hash catalog_hash Hnames)
    as [(Hi & objects & E & Hnd & Hr & Ho)|?]; [by apply require_valid| |by right].
  left. split; [done|]. exists objects. unfold collect_reachable_object_hashes. rewrite E. split_and!; try done.
  intros h b Hin. destruct (Ho _ _ Hin) as (t & refs & Hre & Hv). unfold visit in Hv.
  apply bind_Ok in Hv as (b' & Hb & Hv). apply bind_Ok in Hv as ([t' payload] & Hd & Hv).
  apply bind_Ok in Hv as ([] & Ht & Hv). apply bind_Ok in Hv as (refs' & _ & [= -> ->]).
  apply raise_if_Ok, bool_decide_eq_false, dec_stable in Ht as ->. eauto.
Qed.

(** ** A small graph *)

(** A digest of 32 bytes that tells the texts below apart: they have different lengths. *)
Definition weak_digest (b : bytes) : bytes := be_split 32 (N.of_nat (length b)).
Definition weak_hash (o : MetadataPlainObject) : pystr := hexdigest (weak_digest (canonical_json_bytes (object_envelope o))).
Definition weak_ref (o : MetadataPlainObject) : ObjectRef := {| ref_type := object_type o; ref_hash := weak_hash o |}.

Definition no_snapshots : MetadataPlainObject := OSnapshotIndex {| sidx_snapshots := [] |}.
Definition no_chunks : MetadataPlainObject := OKnownChunkIndex {| kidx_shards := []; kidx_total_chunks := 0 |}.
Definition empty_vault : MetadataPlainObject := OCatalog {|
  cat_vault_id := replicate 32 97%N; cat_snapshot_index := weak_ref no_snapshots; cat_known_chunk_index := weak_ref no_chunks;
  cat_protection_index := None; cat_snapshot_count := 0; cat_known_chunk_count := 0; cat_protection_record_count := 0;
  cat_erasure_data_pack_index := None; cat_erasure_data_pack_count := 0; cat_erasure_data_pack_chunk_count := 0;
  cat_erasure_data_pack_shard_count := 0 |}.
Definition vault_objects : list (pystr * bytes) :=
  (λ o, (weak_hash o, canonical_json_bytes (object_envelope o))) <$> [no_snapshots; no_chunks; empty_vault].
Definition read_vault (h : pystr) : res bytes :=
  match List.find (λ kv, bool_decide (kv.1 = h)) vault_objects with Some (_, b) => Ok b | None => Err MetadataObjectStoreError end.

Lemma weak_digest_length x : length (weak_digest x) = 32.
Proof. apply length_be_split. Qed.
Lemma empty_vault_ok : valid_object empty_vault ∧ json_ok (JObj (object_payload empty_vault)).
Proof.
  split; [repeat split; vm_compute; reflexivity|]. apply json_ok_obj. split; [by_compute|].
  repeat (apply Forall_cons; split; [split; cbn [fst snd]; [apply Forall_ascii; reflexivity|]|]); [..|apply Forall_nil_2];
    try exact I; try (apply Forall_ascii; vm_compute; reflexivity);
    (apply json_ok_obj; split; [by_compute|];
     repeat (apply Forall_cons; split; [split; apply Forall_ascii; vm_compute; reflexivity|]); apply Forall_nil_2).
Qed.

Lemma objects_round_trip_witness : ∃ e payload refs, encode_metadata_object weak_digest empty_vault = Ok e
  ∧ decode_object_envelope weak_digest (eo_bytes e) (Some (eo_hash e)) = Ok (CATALOG, payload)
  ∧ iter_object_refs (JObj payload) = Ok refs
  ∧ refs ≡ₚ [(SNAPSHOT_INDEX, weak_hash no_snapshots); (KNOWN_CHUNK_INDEX, weak_hash no_chunks)].
Proof.
  destruct empty_vault_ok as [Hv Hp].
  destruct (objects_round_trip weak_digest weak_digest_length empty_vault Hv Hp)
    as (e & payload & refs & He & _ & Hd & _ & Hr & HP & _).
  exists e, payload, refs. split; [exact He|]. split; [exact Hd|]. split; [exact Hr|exact HP].
Defined.

Lemma walk_collects_reachable_witness :
  (intact weak_digest read_vault (weak_hash empty_vault) ∧ ∃ objects,
    collect_reachable_object_bytes weak_digest read_vault vault_objects.*1 (weak_hash empty_vault) = Some (Ok objects)
    ∧ objects ≡ₚ vault_objects)
  ∧ ∃ e, collect_reachable_object_bytes weak_digest read_vault vault_objects.*1 (weak_hash no_chunks) = Some (Err e).
Proof.
  assert (∀ h b, read_vault h = Ok b → h ∈ vault_objects.*1) as Hn.
  { intros h b. unfold read_vault. destruct (List.find _ _) as [[h' b']|] eqn:E; [|done]. intros _.
    apply find_some in E as [E Hh]. apply bool_decide_eq_true in Hh as <-. apply list_elem_of_fmap.
    exists (h', b'). split; [done|]. by apply list_elem_of_In. }
  split.
  - assert (collect_reachable_object_bytes weak_digest read_vault vault_objects.*1 (weak_hash empty_vault)
      = Some (Ok (map (λ i, default (u "", []) (vault_objects !! i)) [2; 0; 1]))) as E by (vm_compute; reflexivity).
    destruct (walk_collects_reachable weak_digest read_vault vault_objects.*1 (weak_hash empty_vault) Hn)
      as [[Hi _]|[_ [e He]]]; [vm_compute; reflexivity| |congruence].
    split; [exact Hi|]. eexists. split; [exact E|].
    unfold vault_objects. cbn [map fmap list_fmap]. by rewrite Permutation_cons_append, <-!app_comm_cons.
  - destruct (walk_collects_reachable weak_digest read_vault vault_objects.*1 (weak_hash no_chunks) Hn)
      as [[_ (objects & He & _)]|[_ He]]; [vm_compute; reflexivity| |exact He].
    assert (collect_reachable_object_bytes weak_digest read_vault vault_objects.*1 (weak_hash no_chunks)
      = Some (Err MetadataObjectGraphWalkError)) as E by (vm_compute; reflexivity). congruence.
Defined.
