(* ===== verification/MetaStore.v ===== *)
(** * The encrypted object store

    [metadata/objects/store]: every object of the graph is a file of its own, encrypted, whose
    name is a keyed digest of the object's hash; [store.json] holds the parameters of the key
    derivation and [latest.json] the encrypted pointer to the newest catalogue. scrypt, HKDF,
    the cipher and BLAKE3 are parameters. *)

From S2P Require Import Prelude PyStr Common Files PyFloat Json Base64 Protection Catalog.
From S2P Require Import MetaModels MetaCodec MetaWalk.

Definition store_error_if (c : bool) : res unit := raise_if c MetadataObjectStoreError.

(** ** Values of a JSON file *)

(** [value == n] for a small int [n]: bools and floats are numbers too. *)
Definition equals_int (v : option json) (n : Z) : bool :=
  match v with
  | Some (JInt z) => (z =? n)%Z
  | Some (JBool b) => (Z.b2z b =? n)%Z
  | Some (JFloat f) => isfinite f && Qeq_bool (float_to_Q f) (inject_Z n)
  | _ => false
  end.
Definition equals_str (v : option json) (s : pystr) : bool := bool_decide (v = Some (JStr s)).

(** [int(value)]; a float is truncated. *)
Definition json_int (v : option json) : res Z :=
  match v with
  | Some (JInt z) => Ok z
  | Some (JBool b) => Ok (Z.b2z b)
  | Some (JFloat f) =>
      match f with
      | FNan => Err ValueError
      | FInf _ => Err OverflowError
      | FZero _ => Ok 0%Z
      | FDec neg q d e =>
          let '(num, den) := fraction10 (mantissa q d) e in
          match nearest_double num den with
          | None => Err OverflowError
          | Some (m, k) =>
              let a := Z.of_N (if (0 <=? k)%Z then m * 2 ^ Z.to_N k else m / 2 ^ Z.to_N (- k))%N in
              Ok (if neg then - a else a)%Z
          end
      end
  | Some (JStr s) => match py_int s with Some z => Ok z | None => Err ValueError end
  | _ => Err TypeError
  end.

(** [str(value)] where a hash is expected: of the other values it is never one, and left out. *)
Definition json_text (v : json) : pystr := match v with JStr s => s | JInt z => str_of_Z z | _ => [] end.

(** [raw[key]] *)
Definition member {A} (key : pystr) (raw : list (pystr * json)) (f : json → res A) : res A :=
  match jget key raw with Some v => f v | None => Err KeyError end.

(** [raw.get(key)] that must be a dict. *)
Definition dict_member (key : pystr) (raw : list (pystr * json)) : res (list (pystr * json)) :=
  match jget key raw with Some (JObj kvs) => Ok kvs | _ => Err MetadataObjectStoreError end.

(** ** format.py *)

Definition OBJECT_STORE_FORMAT : pystr := u "stopan.metadata_object_store".
Definition OBJECT_STORE_VERSION : Z := 1.
Definition ENCRYPTED_OBJECT_FORMAT : pystr := u "stopan.encrypted_metadata_object".
Definition ENCRYPTED_OBJECT_VERSION : Z := 1.
Definition LATEST_POINTER_FORMAT : pystr := u "stopan.metadata_latest_pointer".
Definition LATEST_POINTER_VERSION : Z := 1.
Definition KDF_SCRYPT : pystr := u "scrypt".
Definition AEAD_CHACHA20_POLY1305 : pystr := u "chacha20poly1305".
Definition OBJECT_ID_DERIVATION : pystr := u "hkdf-sha256+scrypt-passphrase+blake3-keyed".
Definition encrypted_pointer_format : pystr := LATEST_POINTER_FORMAT ++ u ".encrypted".

Record ScryptCost := { sc_n : Z; sc_r : Z; sc_p : Z; sc_key_length : Z }.
(** [ScryptCost.__post_init__] *)
Definition check_scrypt_cost (c : ScryptCost) : res unit :=
  let bad b := raise_if b MetadataPassphraseError in
  _ ← bad (sc_n c <? 2)%Z; _ ← bad (negb (Z.land (sc_n c) (sc_n c - 1) =? 0)%Z);
  _ ← bad (sc_r c <? 1)%Z; _ ← bad (sc_p c <? 1)%Z; bad (sc_key_length c <? 32)%Z.

Definition header_payload (salt : bytes) (c : ScryptCost) : json :=
  JObj [(u "format", JStr OBJECT_STORE_FORMAT); (u "version", JInt OBJECT_STORE_VERSION);
        (u "kdf", JObj [(u "name", JStr KDF_SCRYPT); (u "salt", JStr (b64encode salt)); (u "n", JInt (sc_n c));
                        (u "r", JInt (sc_r c)); (u "p", JInt (sc_p c)); (u "key_length", JInt (sc_key_length c))]);
        (u "object_encryption", JObj [(u "aead", JStr AEAD_CHACHA20_POLY1305); (u "object_id", JStr OBJECT_ID_DERIVATION)])].

Definition parse_header (raw : list (pystr * json)) : res (bytes * ScryptCost) :=
  _ ← store_error_if (negb (equals_str (jget (u "format") raw) OBJECT_STORE_FORMAT));
  _ ← store_error_if (negb (equals_int (jget (u "version") raw) OBJECT_STORE_VERSION));
  kdf ← dict_member (u "kdf") raw;
  _ ← store_error_if (negb (equals_str (jget (u "name") kdf) KDF_SCRYPT));
  oe ← dict_member (u "object_encryption") raw;
  _ ← store_error_if (negb (equals_str (jget (u "aead") oe) AEAD_CHACHA20_POLY1305));
  _ ← store_error_if (negb (equals_str (jget (u "object_id") oe) OBJECT_ID_DERIVATION));
  salt ← b64decode (jget (u "salt") kdf);
  n ← json_int (jget (u "n") kdf); r ← json_int (jget (u "r") kdf);
  p ← json_int (jget (u "p") kdf); l ← json_int (jget (u "key_length") kdf);
  let cost := {| sc_n := n; sc_r := r; sc_p := p; sc_key_length := l |} in
  _ ← check_scrypt_cost cost;
  Ok (salt, cost).

(** [load_json_file] of content that could be read. *)
Definition load_json (content : bytes) : res (list (pystr * json)) :=
  match loads_bytes content with Some (JObj kvs) => Ok kvs | _ => Err JsonFileError end.

(** ** graph/runtime.py *)

Record MetadataObjectGraph := {
  g_vault_id : pystr; g_catalog_hash : pystr; g_catalog_ref : ObjectRef; g_state_digest : pystr;
  g_objects : gmap pystr EncodedMetadataObject; g_snapshot_count : Z; g_known_chunk_count : Z;
  g_protection_record_count : Z }.

Definition graph_hash64 (value : pystr) : res pystr :=
  let text := strip value in _ ← refuse_if (negb (is_valid_blake3_hex text)); Ok text.
Definition graph_vault_id (value : pystr) : res pystr :=
  let text := strip value in _ ← refuse_if (negb (hex_of_length 32 text)); Ok text.

Fixpoint normalize_objects (items : list (pystr * EncodedMetadataObject)) (normalized : gmap pystr EncodedMetadataObject)
    : res (gmap pystr EncodedMetadataObject) :=
  match items with
  | [] => Ok normalized
  | (key, encoded) :: items' =>
      object_hash ← graph_hash64 key;
      _ ← refuse_if (bool_decide (eo_hash encoded ≠ object_hash));
      normalize_objects items' (<[object_hash := encoded]> normalized)
  end.

(** [MetadataObjectGraph( **kwargs)] *)
Definition make_graph (vault_id catalog_hash : pystr) (catalog_ref : ObjectRef) (state_digest : pystr)
    (objects : list (pystr * EncodedMetadataObject)) (snapshots chunks records : Z) : res MetadataObjectGraph :=
  vault_id ← graph_vault_id vault_id;
  catalog_hash ← graph_hash64 catalog_hash;
  state_digest ← graph_hash64 state_digest;
  _ ← refuse_if (bool_decide (ref_type catalog_ref ≠ CATALOG));
  _ ← refuse_if (bool_decide (ref_hash catalog_ref ≠ catalog_hash));
  normalized ← normalize_objects objects ∅;
  _ ← refuse_if (bool_decide (normalized !! catalog_hash = None));
  _ ← refuse_if (snapshots <? 0)%Z; _ ← refuse_if (chunks <? 0)%Z; _ ← refuse_if (records <? 0)%Z;
  Ok {| g_vault_id := vault_id; g_catalog_hash := catalog_hash; g_catalog_ref := catalog_ref; g_state_digest := state_digest;
        g_objects := normalized; g_snapshot_count := snapshots; g_known_chunk_count := chunks;
        g_protection_record_count := records |}.

Definition graph_values (g : MetadataObjectGraph) : list EncodedMetadataObject := (map_to_list (g_objects g)).*2.
Definition object_count (g : MetadataObjectGraph) : Z := Z.of_nat (size (g_objects g)).
Definition total_canonical_bytes (g : MetadataObjectGraph) : Z :=
  Z.of_nat (sum_list_with (λ e, length (eo_bytes e)) (graph_values g)).

(** ** store.py *)

Record LatestMetadataPointer := {
  lp_vault_id : pystr; lp_catalog_hash : pystr; lp_state_digest : pystr; lp_object_count : Z;
  lp_total_canonical_bytes : Z; lp_snapshot_count : Z; lp_known_chunk_count : Z; lp_protection_record_count : Z }.

Definition _require_hash64 (value : pystr) : res unit := store_error_if (negb (is_valid_blake3_hex value)).
Definition _require_vault_id (value : pystr) : res pystr :=
  let text := strip value in _ ← store_error_if (negb (hex_of_length 32 text)); Ok text.
Definition _require_int (value : Z) : res unit := store_error_if (value <? 0)%Z.

(** [LatestMetadataPointer.__post_init__] *)
Definition check_pointer (p : LatestMetadataPointer) : res unit :=
  _ ← _require_vault_id (lp_vault_id p); _ ← _require_hash64 (lp_catalog_hash p); _ ← _require_hash64 (lp_state_digest p);
  _ ← _require_int (lp_object_count p); _ ← _require_int (lp_total_canonical_bytes p); _ ← _require_int (lp_snapshot_count p);
  _ ← _require_int (lp_known_chunk_count p); _require_int (lp_protection_record_count p).

Definition pointer_payload (p : LatestMetadataPointer) : json :=
  JObj [(u "format", JStr LATEST_POINTER_FORMAT); (u "version", JInt LATEST_POINTER_VERSION);
        (u "vault_id", JStr (lp_vault_id p)); (u "catalog_hash", JStr (lp_catalog_hash p));
        (u "state_digest", JStr (lp_state_digest p)); (u "object_count", JInt (lp_object_count p));
        (u "total_canonical_bytes", JInt (lp_total_canonical_bytes p)); (u "snapshot_count", JInt (lp_snapshot_count p));
        (u "known_chunk_count", JInt (lp_known_chunk_count p));
        (u "protection_record_count", JInt (lp_protection_record_count p))].

(** The text of the pointer, read back. *)
Definition decode_pointer (plaintext : bytes) : res LatestMetadataPointer :=
  s ← (match decode_utf8 plaintext with Some s => Ok s | None => Err UnicodeDecodeError end);
  v ← (match loads s with Some v => Ok v | None => Err JSONDecodeError end);
  raw ← (match v with JObj kvs => Ok kvs | _ => Err MetadataObjectStoreError end);
  _ ← store_error_if (negb (equals_str (jget (u "format") raw) LATEST_POINTER_FORMAT));
  _ ← store_error_if (negb (equals_int (jget (u "version") raw) LATEST_POINTER_VERSION));
  vault ← (match jget (u "vault_id") raw with Some (JStr s) => _require_vault_id s | _ => Err MetadataObjectStoreError end);
  catalog ← member (u "catalog_hash") raw (λ v, Ok (json_text v));
  digest ← member (u "state_digest") raw (λ v, Ok (json_text v));
  let count key := member key raw (λ v, json_int (Some v)) in
  objects ← count (u "object_count"); total ← count (u "total_canonical_bytes"); snaps ← count (u "snapshot_count");
  chunks ← count (u "known_chunk_count"); records ← count (u "protection_record_count");
  construct check_pointer {| lp_vault_id := vault; lp_catalog_hash := catalog; lp_state_digest := digest; lp_object_count := objects;
    lp_total_canonical_bytes := total; lp_snapshot_count := snaps; lp_known_chunk_count := chunks;
    lp_protection_record_count := records |}.

Definition _object_associated_data (storage_id : pystr) : bytes :=
  canonical_json_bytes (JObj [(u "format", JStr ENCRYPTED_OBJECT_FORMAT); (u "version", JInt ENCRYPTED_OBJECT_VERSION);
                              (u "storage_id", JStr storage_id)]).
Definition _latest_associated_data : bytes :=
  canonical_json_bytes (JObj [(u "format", JStr encrypted_pointer_format); (u "version", JInt LATEST_POINTER_VERSION)]).

(** What is written for a ciphertext. *)
Definition aead_payload (nonce : bytes) : json :=
  JObj [(u "name", JStr AEAD_CHACHA20_POLY1305); (u "nonce", JStr (b64encode nonce))].
Definition object_file (storage_id : pystr) (nonce ciphertext : bytes) : json :=
  JObj [(u "format", JStr ENCRYPTED_OBJECT_FORMAT); (u "version", JInt ENCRYPTED_OBJECT_VERSION);
        (u "storage_id", JStr storage_id); (u "aead", aead_payload nonce); (u "ciphertext", JStr (b64encode ciphertext))].
Definition pointer_file (nonce ciphertext : bytes) : json :=
  JObj [(u "format", JStr encrypted_pointer_format); (u "version", JInt LATEST_POINTER_VERSION);
        (u "aead", aead_payload nonce); (u "ciphertext", JStr (b64encode ciphertext))].

(** The nonce and the ciphertext of a file. *)
Definition sealed_parts (raw : list (pystr * json)) : res (bytes * bytes) :=
  aead ← dict_member (u "aead") raw;
  _ ← store_error_if (negb (equals_str (jget (u "name") aead) AEAD_CHACHA20_POLY1305));
  nonce ← b64decode (jget (u "nonce") aead);
  ciphertext ← b64decode (jget (u "ciphertext") raw);
  Ok (nonce, ciphertext).

(** The keys that [__init__] derives from the master key. *)
Record MetadataObjectStore := { mos_salt : bytes; mos_cost : ScryptCost; mos_aead_key : bytes; mos_id_key : bytes }.

(** What happens around one write: whether looking at a path fails, what making the directory
    raises, the bytes of [os.urandom], what other processes do before the file takes its
    name, how the write ends, and what settling the directory raises. *)
Record WriteEnv := {
  we_stat_fails : bool; we_mkdir : option exn; we_random : bytes; we_others : gmap pystr bytes → gmap pystr bytes;
  we_write : WriteOutcome; we_fsync : option exn }.

Definition raising (e : option exn) : res unit := match e with Some e => Err e | None => Ok () end.

Section store.
Context (root : pystr).
Context (blake3 : bytes → bytes) (blake3_keyed : bytes → bytes → bytes).
Context (scrypt : bytes → bytes → ScryptCost → res bytes) (hkdf_sha256 : bytes → bytes → bytes).
Context (aead_encrypt : bytes → bytes → bytes → bytes → bytes) (aead_decrypt : bytes → bytes → bytes → bytes → res bytes).
Notation SF := (SM (gmap pystr bytes)).

Definition derive_master_key (passphrase salt : bytes) (cost : ScryptCost) : res bytes :=
  _ ← raise_if (bool_decide (passphrase = [])) StopanConfigValueError; scrypt passphrase salt cost.

(** [__init__] *)
Definition make_store (salt : bytes) (cost : ScryptCost) (master_key : bytes) : MetadataObjectStore := {|
  mos_salt := salt; mos_cost := cost;
  mos_aead_key := hkdf_sha256 master_key (encode_utf8 (u "stopan.metadata.object_store.aead.v1"));
  mos_id_key := hkdf_sha256 master_key (encode_utf8 (u "stopan.metadata.object_store.object_id.v1")) |}.

Definition header_path : pystr := path_join root (u "store.json").
Definition latest_path : pystr := path_join root (u "latest.json").

(** [path.exists()] *)
Definition exists_at (stat_fails : bool) (path : pystr) : SF bool :=
  s ← sget; if stat_fails then sraise OSError else mret (bool_decide (is_Some ((s : gmap pystr bytes) !! path))).

(** [load_json_file]: [read_fails] when the file cannot be read. *)
Definition load_json_file (read_fails : bool) (path : pystr) : SF (list (pystr * json)) :=
  s ← sget;
  match (s : gmap pystr bytes) !! path with
  | Some content => if read_fails then sraise JsonFileError else slift (load_json content)
  | None => sraise JsonFileError
  end.

Definition open_existing (stat_fails read_fails : bool) (passphrase : bytes) : SF MetadataObjectStore :=
  there ← exists_at stat_fails header_path;
  if negb there then sraise MetadataObjectStoreMissingError
  else
    raw ← load_json_file read_fails header_path;
    '(salt, cost) ← slift (parse_header raw);
    master_key ← slift (derive_master_key passphrase salt cost);
    mret (make_store salt cost master_key).

(** [ensure_private_dir] twice, and the header when there is none. *)
Definition open_or_create (env : WriteEnv) (read_fails : bool) (passphrase : bytes) (scrypt_cost : ScryptCost) : SF MetadataObjectStore :=
  slift (raising (we_mkdir env));;
  there ← exists_at (we_stat_fails env) header_path;
  '(salt, cost) ← (
    if there : bool then raw ← load_json_file read_fails header_path; slift (parse_header raw)
    else
      let salt := we_random env in
      atomic_write_bytes (we_others env) (we_write env) header_path (canonical_json_bytes (header_payload salt scrypt_cost));;
      slift (raising (we_fsync env));;
      mret (salt, scrypt_cost));
  master_key ← slift (derive_master_key passphrase salt cost);
  mret (make_store salt cost master_key).

Section opened.
Context (store : MetadataObjectStore).

(** [storage_id] of crypto.py *)
Definition object_storage_id (object_hash : pystr) : res pystr :=
  _ ← store_error_if (negb (is_valid_blake3_hex object_hash));
  _ ← store_error_if (negb (length (mos_id_key store) =? 32)%nat);
  Ok (hexdigest (blake3_keyed (mos_id_key store) (encode_utf8 object_hash))).

Definition storage_path (storage_id : pystr) : pystr :=
  path_join (path_join (path_join root (u "objects")) (take 2 storage_id)) (storage_id ++ u ".stobj").
Definition object_path_for_hash (object_hash : pystr) : res pystr :=
  sid ← object_storage_id object_hash; Ok (storage_path sid).

Definition has_object (stat_fails : bool) (object_hash : pystr) : SF bool :=
  path ← slift (object_path_for_hash object_hash); exists_at stat_fails path.

Definition _validate_encoded_object (encoded : EncodedMetadataObject) : res unit :=
  store_error_if (bool_decide (hexdigest (blake3 (eo_bytes encoded)) ≠ eo_hash encoded)).

(** The content of an object's file. *)
Definition sealed_object (storage_id : pystr) (nonce canonical : bytes) : bytes :=
  canonical_json_bytes (object_file storage_id nonce
    (aead_encrypt (mos_aead_key store) nonce canonical (_object_associated_data storage_id))).

(** The result also names the directory of the file. *)
Definition _put_object_no_parent_fsync (env : WriteEnv) (encoded : EncodedMetadataObject) : SF (bool * pystr) :=
  slift (_validate_encoded_object encoded);;
  sid ← slift (object_storage_id (eo_hash encoded));
  there ← exists_at (we_stat_fails env) (storage_path sid);
  if there : bool then mret (false, take 2 sid)
  else
    slift (raising (we_mkdir env));;
    atomic_write_bytes (we_others env) (we_write env) (storage_path sid) (sealed_object sid (we_random env) (eo_bytes encoded));;
    mret (true, take 2 sid).

Definition put_object (env : WriteEnv) (encoded : EncodedMetadataObject) : SF bool :=
  '(written, _) ← _put_object_no_parent_fsync env encoded;
  (if written : bool then slift (raising (we_fsync env)) else mret ());;
  mret written.

(** The loop of [put_objects_batch], the objects being sorted: [envs] surrounds the [n]-th. *)
Fixpoint put_all (envs : nat → WriteEnv) (n : nat) (l : list EncodedMetadataObject) (written reused : Z) (touched : list pystr)
    : SF (Z * Z * list pystr) :=
  match l with
  | [] => mret (written, reused, touched)
  | encoded :: l' =>
      '(did_write, parent) ← _put_object_no_parent_fsync (envs n) encoded;
      if did_write : bool then put_all envs (S n) l' (written + 1) reused (if bool_decide (parent ∈ touched) then touched else touched ++ [parent])
      else put_all envs (S n) l' written (reused + 1) touched
  end.

Definition hash_leb (a b : EncodedMetadataObject) : bool := str_leb (eo_hash a) (eo_hash b).

(** [fsync]: what settling a directory raises. *)
Definition put_objects_batch (envs : nat → WriteEnv) (fsync : pystr → option exn) (objects : list EncodedMetadataObject) : SF (Z * Z) :=
  '(written, reused, touched) ← put_all envs 0 (py_sorted hash_leb objects) 0 0 [];
  sfor (λ d, slift (raising (fsync d))) (py_sorted str_leb touched);;
  mret (written, reused).

(** [get_object_bytes] *)
Definition check_envelope_type (expected_type : MetadataObjectType) (plaintext : bytes) : res unit :=
  s ← (match decode_utf8 plaintext with Some s => Ok s | None => Err UnicodeDecodeError end);
  v ← (match loads s with Some v => Ok v | None => Err JSONDecodeError end);
  raw ← (match v with JObj kvs => Ok kvs | _ => Err MetadataObjectStoreError end);
  _ ← store_error_if (negb (equals_str (jget (u "format") raw) METADATA_OBJECT_FORMAT)
                      || negb (equals_int (jget (u "version") raw) METADATA_OBJECT_VERSION));
  store_error_if (negb (equals_str (jget (u "object_type") raw) (type_value expected_type))).

(** What decrypting raises: a wrong tag is reported as such. *)
Definition decrypt (nonce ciphertext ad : bytes) : res bytes :=
  match aead_decrypt (mos_aead_key store) nonce ciphertext ad with
  | Err InvalidTag => Err MetadataObjectStoreAuthenticationError
  | r => r
  end.

Definition unseal (storage_id object_hash : pystr) (expected_type : option MetadataObjectType) (raw : list (pystr * json)) : res bytes :=
  _ ← store_error_if (negb (equals_str (jget (u "format") raw) ENCRYPTED_OBJECT_FORMAT));
  _ ← store_error_if (negb (equals_int (jget (u "version") raw) ENCRYPTED_OBJECT_VERSION));
  _ ← store_error_if (negb (equals_str (jget (u "storage_id") raw) storage_id));
  '(nonce, ciphertext) ← sealed_parts raw;
  plaintext ← decrypt nonce ciphertext (_object_associated_data storage_id);
  _ ← raise_if (bool_decide (hexdigest (blake3 plaintext) ≠ object_hash)) MetadataObjectStoreAuthenticationError;
  _ ← (match expected_type with Some t => check_envelope_type t plaintext | None => Ok () end);
  Ok plaintext.

Definition get_object_bytes (stat_fails read_fails : bool) (object_hash : pystr) (expected_type : option MetadataObjectType) : SF bytes :=
  sid ← slift (object_storage_id object_hash);
  there ← exists_at stat_fails (storage_path sid);
  if negb there then sraise MetadataObjectStoreMissingError
  else raw ← load_json_file read_fails (storage_path sid); slift (unseal sid object_hash expected_type raw).

Definition sealed_pointer (nonce : bytes) (latest : LatestMetadataPointer) : bytes :=
  canonical_json_bytes (pointer_file nonce
    (aead_encrypt (mos_aead_key store) nonce (canonical_json_bytes (pointer_payload latest)) _latest_associated_data)).

Definition write_latest_pointer (env : WriteEnv) (latest : LatestMetadataPointer) : SF unit :=
  atomic_write_bytes (we_others env) (we_write env) latest_path (sealed_pointer (we_random env) latest).

Definition read_latest_pointer (stat_fails read_fails : bool) : SF LatestMetadataPointer :=
  there ← exists_at stat_fails latest_path;
  if negb there then sraise MetadataObjectStoreMissingError
  else
    raw ← load_json_file read_fails latest_path;
    slift (
      _ ← store_error_if (negb (equals_str (jget (u "format") raw) encrypted_pointer_format));
      _ ← store_error_if (negb (equals_int (jget (u "version") raw) LATEST_POINTER_VERSION));
      '(nonce, ciphertext) ← sealed_parts raw;
      plaintext ← decrypt nonce ciphertext _latest_associated_data;
      decode_pointer plaintext).

Record MetadataObjectStoreWriteResult := { wr_objects_written : Z; wr_objects_reused : Z }.

(** The pointer to a graph. *)
Definition graph_pointer (g : MetadataObjectGraph) : LatestMetadataPointer := {|
  lp_vault_id := g_vault_id g; lp_catalog_hash := g_catalog_hash g; lp_state_digest := g_state_digest g;
  lp_object_count := object_count g; lp_total_canonical_bytes := total_canonical_bytes g;
  lp_snapshot_count := g_snapshot_count g; lp_known_chunk_count := g_known_chunk_count g;
  lp_protection_record_count := g_protection_record_count g |}.

(** [put_graph]; the other fields of its result are those of the graph. *)
Definition put_graph (envs : nat → WriteEnv) (fsync : pystr → option exn) (env : WriteEnv) (g : MetadataObjectGraph)
    : SF MetadataObjectStoreWriteResult :=
  '(written, reused) ← put_objects_batch envs fsync (graph_values g);
  latest ← slift (construct check_pointer (graph_pointer g));
  write_latest_pointer env latest;;
  mret {| wr_objects_written := written; wr_objects_reused := reused |}.

(** The hashes of the objects that the files hold. *)
Definition stored_name (content : bytes) : option pystr :=
  match (raw ← load_json content;
         sid ← member (u "storage_id") raw (λ v, match v with JStr s => Ok s | _ => Err MetadataObjectStoreError end);
         '(nonce, ciphertext) ← sealed_parts raw;
         decrypt nonce ciphertext (_object_associated_data sid)) with
  | Ok plaintext => Some (hexdigest (blake3 plaintext))
  | Err _ => None
  end.
Definition stored_names (s : gmap pystr bytes) : list pystr := omap stored_name (map_to_list s).*2.

(** What the walk reads through the store. *)
Definition read_from (s : gmap pystr bytes) (object_hash : pystr) : res bytes := (get_object_bytes false false object_hash None s).1.

End opened.

End store.

(** ** Reading back what was sealed *)

Lemma hex_ascii d : forallb (λ c, (c <? 55296)%N) (hexdigest d) = true.
Proof.
  pose proof (hexdigest_hex d) as H. rewrite forallb_forall in *. intros c Hc. specialize (H c Hc).
  unfold is_hex_lower in H. apply N.ltb_lt. apply orb_true_iff in H as [H|H]; apply andb_true_iff in H as [_ H];
    apply N.leb_le in H; lia.
Qed.

Lemma b64_ok data : json_ok (JStr (b64encode data)).
Proof.
  apply Forall_ascii. pose proof (b64encode_ascii data) as H. rewrite forallb_forall in *. intros c Hc.
  specialize (H c Hc). apply N.ltb_lt in H. apply N.ltb_lt. lia.
Qed.

Ltac dict_ok := apply json_ok_obj; split; [cbn [fmap list_fmap fst]; by_compute|];
  repeat (apply Forall_cons; split; [split; cbn [fst snd]; [apply Forall_ascii; reflexivity|]|]); [..|apply Forall_nil_2];
  try exact I; try apply b64_ok; try (apply Forall_ascii; reflexivity).

Lemma aead_payload_ok nonce : json_ok (aead_payload nonce).
Proof. dict_ok. Qed.
Lemma object_file_ok d nonce ciphertext : json_ok (object_file (hexdigest d) nonce ciphertext).
Proof. dict_ok; [apply Forall_ascii, hex_ascii|apply aead_payload_ok]. Qed.
Lemma pointer_file_ok nonce ciphertext : json_ok (pointer_file nonce ciphertext).
Proof. dict_ok. apply aead_payload_ok. Qed.

Lemma load_canonical kvs : json_ok (JObj kvs) → load_json (canonical_json_bytes (JObj kvs)) = Ok (sorted_keys kvs).
Proof. intros H. unfold load_json. by rewrite loads_canonical, sort_keys_obj. Qed.

Lemma member_sorted kvs k v : NoDup kvs.*1 → jget k kvs = Some v → jget k (sorted_keys kvs) = Some (sort_keys v).
Proof. intros Hnd E. by rewrite jget_sorted, E. Qed.

(** Looks a member of a normalised dict up. *)
Ltac sorted_member k :=
  match goal with |- context [jget k (sorted_keys ?kvs)] =>
    rewrite (member_sorted kvs k _ ltac:(cbn [fmap list_fmap fst]; by_compute) eq_refl); cbn [snd sort_keys]
  end.

Lemma sealed_parts_sorted (kvs : list (pystr * json)) nonce ciphertext : NoDup kvs.*1 →
  jget (u "aead") kvs = Some (aead_payload nonce) → jget (u "ciphertext") kvs = Some (JStr (b64encode ciphertext)) →
  sealed_parts (sorted_keys kvs) = Ok (nonce, ciphertext).
Proof.
  intros Hnd Ha Hc. unfold sealed_parts, dict_member. rewrite !jget_sorted, Ha, Hc by done. cbn [fmap option_fmap option_map].
  unfold aead_payload. rewrite sort_keys_obj. cbn [mbind res_bind]. sorted_member (u "name"). sorted_member (u "nonce"). unfold equals_str.
  rewrite bool_decide_eq_true_2 by done.
  cbn [negb store_error_if raise_if mbind res_bind]. rewrite !b64_roundtrip. done.
Qed.

#[local] Arguments canonical_json_bytes : simpl never.
#[local] Arguments sealed_object : simpl never.
#[local] Arguments storage_path : simpl never.

Lemma exists_at_spec path s : exists_at false path s = (Ok (bool_decide (is_Some (s !! path))), s).
Proof. done. Qed.
Lemma load_json_file_spec path content s : s !! path = Some content → load_json_file false path s = (load_json content, s).
Proof. intros H. unfold load_json_file. rewrite sm_bind_spec. cbn [sget]. by rewrite H. Qed.

Section facts.
Context (root : pystr) (blake3 : bytes → bytes) (blake3_keyed : bytes → bytes → bytes).
Context (aead_encrypt : bytes → bytes → bytes → bytes → bytes) (aead_decrypt : bytes → bytes → bytes → bytes → res bytes).
Context (store : MetadataObjectStore).
(** The documented behaviour of the libraries: digests of 32 bytes, and a cipher that decrypts
    what it encrypted. *)
Context (Hblake3 : ∀ x, length (blake3 x) = 32) (Hkeyed : ∀ k x, length (blake3_keyed k x) = 32).
Context (Haead : ∀ k n p ad, aead_decrypt k n (aead_encrypt k n p ad) ad = Ok p).
Context (Hkey : length (mos_id_key store) = 32).

(** The texts that are ever sealed, among which there is no collision. *)
Context (texts : bytes → Prop).
Definition text_hash (x : bytes) : pystr := hexdigest (blake3 x).
Definition text_id (x : bytes) : pystr := hexdigest (blake3_keyed (mos_id_key store) (encode_utf8 (text_hash x))).
Context (Hcollide : ∀ x y, texts x → texts y → text_id x = text_id y → x = y).

#[local] Arguments text_id : simpl never.
#[local] Arguments text_hash : simpl never.

Notation sealed := (sealed_object aead_encrypt store).
Notation get := (get_object_bytes root blake3 blake3_keyed aead_decrypt store).
Notation put := (_put_object_no_parent_fsync root blake3 blake3_keyed aead_encrypt store).
Notation path x := (storage_path root (text_id x)).

Lemma storage_id_ok x : object_storage_id blake3_keyed store (text_hash x) = Ok (text_id x).
Proof. unfold object_storage_id. assert (is_valid_blake3_hex (text_hash x) = true) as -> by (by apply hexdigest_valid). by rewrite Hkey. Qed.

Lemma storage_path_inj x y : path x = path y → text_id x = text_id y.
Proof.
  unfold storage_path.
  destruct (path_join_suffix (path_join (path_join root (u "objects")) (take 2 (text_id x))) (text_id x ++ u ".stobj")) as [a ->].
  destruct (path_join_suffix (path_join (path_join root (u "objects")) (take 2 (text_id y))) (text_id y ++ u ".stobj")) as [b ->].
  intros E. rewrite !app_assoc in E. apply app_inj_2 in E as [E _]; [|done]. apply app_inj_2 in E as [_ ?]; [done|].
  unfold text_id. by rewrite !length_hexdigest, !Hkeyed.
Qed.

Lemma unseal_sealed x nonce t : unseal blake3 aead_decrypt store (text_id x) (text_hash x) t
    (sorted_keys (match object_file (text_id x) nonce (aead_encrypt (mos_aead_key store) nonce x (_object_associated_data (text_id x)))
                  with JObj kvs => kvs | _ => [] end))
  = _ ← (match t with Some t => check_envelope_type t x | None => Ok () end); Ok x.
Proof.
  unfold object_file, unseal. erewrite sealed_parts_sorted; [|cbn [fmap list_fmap fst]; by_compute|reflexivity|reflexivity].
  sorted_member (u "format"). sorted_member (u "version"). sorted_member (u "storage_id"). unfold equals_str, equals_int. rewrite !bool_decide_eq_true_2 by done.
  cbn [negb store_error_if raise_if mbind res_bind Z.eqb Pos.eqb ENCRYPTED_OBJECT_VERSION]. unfold decrypt. rewrite Haead.
  cbn [mbind res_bind]. by rewrite bool_decide_eq_false_2 by (intros N; by apply N).
Qed.

(** ** What the store promises *)

Definition holds_text (s : gmap pystr bytes) (x : bytes) : Prop := is_Some (s !! path x).

(** The file of a text is that text, sealed. *)
Definition store_sound (s : gmap pystr bytes) : Prop :=
  ∀ x data, texts x → s !! path x = Some data → ∃ nonce, data = sealed (text_id x) nonce x.

(** No object disappears, and a sound store stays sound. *)
Definition store_step (s s' : gmap pystr bytes) : Prop :=
  (∀ x, texts x → holds_text s x → holds_text s' x) ∧ (store_sound s → store_sound s').

#[export] Instance store_step_preorder : PreOrder store_step.
Proof. split; [by split|]. intros s1 s2 s3 [G1 K1] [G2 K2]. split; auto. Qed.

Definition good_write (env : WriteEnv) : Prop := ∀ s, store_step s (we_others env s).

Lemma publish_object s x nonce : texts x → store_step s (<[path x := sealed (text_id x) nonce x]> s).
Proof.
  intros Hx. split.
  - intros y _ Hy. apply lookup_insert_is_Some. destruct (decide (path x = path y)); auto.
  - intros Hs y data Hy [[E <-]|[_ Hd]]%lookup_insert_Some; [|by apply Hs].
    apply storage_path_inj, Hcollide in E as <-; [by exists nonce|done..].
Qed.

Lemma publish_elsewhere s p data : (∀ x, path x ≠ p) → store_step s (<[p := data]> s).
Proof.
  intros Hp. split.
  - intros y _ Hy. apply lookup_insert_is_Some. right. split; [by apply not_eq_sym, Hp|done].
  - intros Hs y d Hy Hd. rewrite lookup_insert_ne in Hd by (by apply not_eq_sym, Hp). by apply Hs.
Qed.

(** An atomic write of content that is acceptable before and after what others do. *)
Lemma write_step others outcome p data s :
  (∀ s, store_step s (others s)) → (∀ s, store_step s (<[p := data]> s)) →
  store_step s (atomic_write_bytes others outcome p data s).2
  ∧ ((atomic_write_bytes others outcome p data s).1 = Ok () → (atomic_write_bytes others outcome p data s).2 !! p = Some data).
Proof.
  intros Ho Hp. unfold atomic_write_bytes. rewrite sm_bind_spec. cbn [smodify]. destruct outcome as [|published e].
  - cbn. split; [by etransitivity; [apply Ho|apply Hp]|]. intros _. apply lookup_insert_eq.
  - rewrite sm_bind_spec. destruct published; cbn; (split; [|done]); [by etransitivity; [apply Ho|apply Hp]|apply Ho].
Qed.

Lemma validate_encoded_spec encoded : _validate_encoded_object blake3 encoded = Ok () → eo_hash encoded = text_hash (eo_bytes encoded).
Proof. unfold _validate_encoded_object. intros H%raise_if_Ok%bool_decide_eq_false. symmetry. by apply dec_stable. Qed.

Lemma put_spec env encoded s : texts (eo_bytes encoded) → good_write env →
  let '(r, s') := put env encoded s in
  store_step s s' ∧ ∀ a, r = Ok a → eo_hash encoded = text_hash (eo_bytes encoded) ∧ holds_text s' (eo_bytes encoded).
Proof.
  intros Hx Henv. unfold _put_object_no_parent_fsync. rewrite sm_bind_spec. cbn [slift].
  destruct (_validate_encoded_object _ _) as [[]|] eqn:Ev; [|done]. apply validate_encoded_spec in Ev. rewrite Ev.
  rewrite sm_bind_spec. cbn [slift]. rewrite storage_id_ok. unfold exists_at. rewrite sm_bind_spec, sm_bind_spec. cbn [sget].
  destruct (we_stat_fails env); [done|]. cbn. case_bool_decide as Hthere; cbn; [done|].
  rewrite sm_bind_spec. cbn [slift]. destruct (raising (we_mkdir env)) as [[]|]; [|done].
  cbn [slift]. destruct (write_step (we_others env) (we_write env) (path (eo_bytes encoded))
    (sealed (text_id (eo_bytes encoded)) (we_random env) (eo_bytes encoded)) s Henv) as [H1 H2].
  { intros s'. by apply publish_object. }
  rewrite sm_bind_spec.
  destruct (atomic_write_bytes _ _ _ _ s) as [[[]|e] s'] eqn:Ew; cbn in *; (split; [exact H1|]); [|done].
  intros _ _. split; [done|]. exists (sealed (text_id (eo_bytes encoded)) (we_random env) (eo_bytes encoded)). by apply H2.
Qed.

(** Reading gives the text that was sealed. *)
Lemma get_spec t x s : texts x → store_sound s → holds_text s x →
  get false false (text_hash x) t s = (_ ← (match t with Some t => check_envelope_type t x | None => Ok () end); Ok x, s).
Proof.
  intros Hx Hs [data Hd]. destruct (Hs _ _ Hx Hd) as [nonce ->].
  unfold get_object_bytes. rewrite sm_bind_spec. cbn [slift]. rewrite storage_id_ok. cbn [slift].
  rewrite sm_bind_spec, exists_at_spec, Hd. rewrite bool_decide_eq_true_2 by eauto. cbn [negb].
  rewrite sm_bind_spec, (load_json_file_spec _ _ _ Hd). unfold sealed_object, object_file.
  rewrite load_canonical by apply object_file_ok. unfold slift. f_equal. apply (unseal_sealed x nonce t).
Qed.

(** Whatever the files are, what is read has the hash that was asked for. *)
Lemma get_truth sf rf h t s b s' : get sf rf h t s = (Ok b, s') → s' = s ∧ text_hash b = h.
Proof.
  unfold get_object_bytes. rewrite sm_bind_spec. cbn [slift]. destruct (object_storage_id _ _ _) as [sid|]; [|done].
  unfold exists_at. rewrite sm_bind_spec, sm_bind_spec. cbn [sget]. destruct sf; [done|]. cbn. case_bool_decide; cbn; [|done].
  unfold load_json_file. rewrite !sm_bind_spec. cbn [sget]. destruct (s !! _) as [content|]; [|done]. destruct rf; [done|].
  cbn [slift]. destruct (load_json content) as [raw|]; [|done]. cbn [slift]. intros [= Hu <-]. split; [done|].
  unfold unseal in Hu. apply bind_Ok in Hu as (_ & _ & Hu). apply bind_Ok in Hu as (_ & _ & Hu). apply bind_Ok in Hu as (_ & _ & Hu).
  apply bind_Ok in Hu as ([n c] & _ & Hu). apply bind_Ok in Hu as (p & _ & Hu). apply bind_Ok in Hu as ([] & Hh & Hu).
  apply bind_Ok in Hu as (_ & _ & [= ->]). by apply raise_if_Ok, bool_decide_eq_false, dec_stable in Hh.
Qed.

Notation put_all := (put_all root blake3 blake3_keyed aead_encrypt store).
Notation put_batch := (put_objects_batch root blake3 blake3_keyed aead_encrypt store).

Lemma put_all_spec envs n l w r touched s : Forall (λ e, texts (eo_bytes e)) l → (∀ n, good_write (envs n)) →
  let '(res, s') := put_all envs n l w r touched s in
  store_step s s' ∧ ∀ w' r' t', res = Ok (w', r', t') →
    Forall (λ e, eo_hash e = text_hash (eo_bytes e) ∧ holds_text s' (eo_bytes e)) l
    ∧ (w' + r' = w + r + Z.of_nat (length l))%Z.
Proof.
  intros Hl Henv. revert n w r touched s. induction Hl as [|e l He Hl IH]; intros n w r touched s; cbn [MetaStore.put_all].
  { cbn. split; [done|]. intros ? ? ? [= <- <- <-]. split; [done|]. lia. }
  rewrite sm_bind_spec. pose proof (put_spec (envs n) e s He (Henv n)) as H.
  destruct (put (envs n) e s) as [[[did parent]|e'] s1]; [|by split; [apply H|]].
  destruct H as [Hstep Hok]. destruct (Hok _ eq_refl) as [Hh Hholds].
  assert (∀ w1 r1 t1, (w1 + r1 = w + r + 1)%Z →
    let '(res, s') := put_all envs (S n) l w1 r1 t1 s1 in
    store_step s s' ∧ ∀ w' r' t', res = Ok (w', r', t') →
      Forall (λ e, eo_hash e = text_hash (eo_bytes e) ∧ holds_text s' (eo_bytes e)) (e :: l)
      ∧ (w' + r' = w + r + Z.of_nat (length (e :: l)))%Z) as Hrest.
  { intros w1 r1 t1 Hsum. specialize (IH (S n) w1 r1 t1 s1). destruct (put_all envs (S n) l w1 r1 t1 s1) as [res s'].
    destruct IH as [H1 H2]. split; [by etransitivity|]. intros w' r' t' Er. destruct (H2 _ _ _ Er) as [Ha Hb]. split.
    - constructor; [|done]. split; [done|]. by apply H1.
    - cbn [length]. lia. }
  destruct did; apply Hrest; lia.
Qed.

Lemma put_batch_spec envs fsync l s : Forall (λ e, texts (eo_bytes e)) l → (∀ n, good_write (envs n)) →
  let '(res, s') := put_batch envs fsync l s in
  store_step s s' ∧ ∀ w r, res = Ok (w, r) →
    Forall (λ e, eo_hash e = text_hash (eo_bytes e) ∧ holds_text s' (eo_bytes e)) l ∧ (w + r = Z.of_nat (length l))%Z.
Proof.
  intros Hl Henv. unfold put_objects_batch. rewrite sm_bind_spec.
  assert (py_sorted hash_leb l ≡ₚ l) as HP by apply py_sorted_perm.
  assert (Forall (λ e, texts (eo_bytes e)) (py_sorted hash_leb l)) as Hl' by (by rewrite HP).
  pose proof (put_all_spec envs 0 (py_sorted hash_leb l) 0 0 [] s Hl' Henv) as H.
  destruct (put_all envs 0 (py_sorted hash_leb l) 0 0 [] s) as [[[[w r] t]|e] s1]; [|by split; [apply H|]].
  destruct H as [H1 H2]. destruct (H2 _ _ _ eq_refl) as [Ha Hb]. rewrite sm_bind_spec.
  assert (∀ ds, (sfor (λ d, slift (raising (fsync d))) ds s1).2 = s1) as Hsame.
  { induction ds as [|d ds IH]; [done|]. cbn [sfor]. rewrite sm_bind_spec. cbn [slift]. by destruct (raising (fsync d)) as [[]|]. }
  specialize (Hsame (py_sorted str_leb t)). destruct (sfor _ _ s1) as [[[]|e] s2]; cbn in Hsame; subst s2; [|done].
  split; [done|]. intros w' r' [= <- <-]. rewrite HP in Ha. split; [done|]. rewrite HP in Hb. lia.
Qed.

(** ** The pointer *)

Lemma valid_hex_ascii h : forallb is_hex_lower h = true → json_ok (JStr h).
Proof.
  intros H. apply Forall_ascii. rewrite forallb_forall in *. intros c Hc. specialize (H c Hc).
  unfold is_hex_lower in H. apply N.ltb_lt. apply orb_true_iff in H as [H|H]; apply andb_true_iff in H as [_ H];
    apply N.leb_le in H; lia.
Qed.

Lemma hex_strip n s : hex_of_length n s = true → strip s = s.
Proof. unfold hex_of_length. intros H. bool_hyps. by apply strip_hex. Qed.

Lemma pointer_roundtrip p : check_pointer p = Ok () → hex_of_length 32 (lp_vault_id p) = true →
  decode_pointer (canonical_json_bytes (pointer_payload p)) = Ok p.
Proof.
  intros Hp Hv. assert (json_ok (pointer_payload p)) as Hok.
  { unfold check_pointer, _require_hash64 in Hp. apply bind_Ok in Hp as (_ & _ & Hp). apply bind_Ok in Hp as ([] & Hc & Hp).
    apply bind_Ok in Hp as ([] & Hs & _). apply raise_if_Ok, negb_false_iff in Hc, Hs. unfold is_valid_blake3_hex, hex_of_length in *.
    bool_hyps. dict_ok; by apply valid_hex_ascii. }
  unfold decode_pointer. pose proof (loads_canonical _ Hok) as Hl. unfold loads_bytes in Hl.
  destruct (decode_utf8 _) as [t|]; [|done]. cbn [mbind option_bind] in Hl. cbn [mbind res_bind]. rewrite Hl. cbn [mbind res_bind].
  unfold pointer_payload. rewrite sort_keys_obj. cbn [mbind res_bind]. unfold member.
  sorted_member (u "format"). sorted_member (u "version"). sorted_member (u "vault_id"). sorted_member (u "catalog_hash").
  sorted_member (u "state_digest"). sorted_member (u "object_count"). sorted_member (u "total_canonical_bytes").
  sorted_member (u "snapshot_count"). sorted_member (u "known_chunk_count"). sorted_member (u "protection_record_count").
  unfold equals_str, equals_int. rewrite !bool_decide_eq_true_2 by done.
  cbn [negb store_error_if raise_if mbind res_bind Z.eqb Pos.eqb LATEST_POINTER_VERSION json_text json_int].
  unfold _require_vault_id. rewrite (hex_strip _ _ Hv), Hv. cbn [negb store_error_if raise_if mbind res_bind].
  destruct p. by apply construct_ok.
Qed.

Notation sealed_ptr := (sealed_pointer aead_encrypt store).
#[local] Arguments sealed_pointer : simpl never.
Notation read_pointer := (read_latest_pointer root aead_decrypt store).

Lemma read_pointer_spec s nonce p : check_pointer p = Ok () → hex_of_length 32 (lp_vault_id p) = true →
  s !! latest_path root = Some (sealed_ptr nonce p) → read_pointer false false s = (Ok p, s).
Proof.
  intros Hp Hv Hs. unfold read_latest_pointer. rewrite sm_bind_spec, exists_at_spec, Hs. rewrite bool_decide_eq_true_2 by eauto.
  cbn [negb]. rewrite sm_bind_spec, (load_json_file_spec _ _ _ Hs).
  unfold sealed_pointer, pointer_file. rewrite load_canonical by apply pointer_file_ok. cbn [slift]. unfold slift. f_equal.
  erewrite sealed_parts_sorted; [|cbn [fmap list_fmap fst]; by_compute|reflexivity|reflexivity].
  sorted_member (u "format"). sorted_member (u "version").
  unfold equals_str, equals_int. rewrite bool_decide_eq_true_2 by done.
  cbn [negb store_error_if raise_if mbind res_bind Z.eqb Pos.eqb LATEST_POINTER_VERSION]. unfold decrypt. rewrite Haead.
  cbn [mbind res_bind]. by apply pointer_roundtrip.
Qed.

Lemma path_not_latest x : path x ≠ latest_path root.
Proof.
  unfold storage_path, latest_path. destruct (path_join_suffix root (u "latest.json")) as [b ->].
  destruct (path_join_suffix (path_join (path_join root (u "objects")) (take 2 (text_id x))) (text_id x ++ u ".stobj")) as [a ->].
  intros E%(f_equal last). change (u "latest.json") with (u "latest.jso" ++ [110%N]) in E.
  change (u ".stobj") with (u ".stob" ++ [106%N]) in E. rewrite !app_assoc, !last_snoc in E. done.
Qed.

(** ** What the walk can read *)

Notation read := (read_from root blake3 blake3_keyed aead_decrypt store).
Notation names := (stored_names blake3 aead_decrypt store).

Lemma read_names s h b : read s h = Ok b → h ∈ names s.
Proof.
  unfold read_from, get_object_bytes. rewrite sm_bind_spec. cbn [slift]. destruct (object_storage_id _ _ _) as [sid|]; [|done].
  cbn [slift]. rewrite sm_bind_spec, exists_at_spec. case_bool_decide as Hs; cbn [negb]; [|done]. destruct Hs as [content Hs].
  rewrite sm_bind_spec, (load_json_file_spec _ _ _ Hs). destruct (load_json content) as [raw|] eqn:El; [|done].
  unfold slift, unseal. cbn [fst]. intros Hu.
  apply bind_Ok in Hu as (_ & _ & Hu). apply bind_Ok in Hu as (_ & _ & Hu). apply bind_Ok in Hu as ([] & Hid & Hu).
  apply bind_Ok in Hu as ([n c] & Hp & Hu). apply bind_Ok in Hu as (p & Hdec & Hu). apply bind_Ok in Hu as ([] & Hh & _).
  apply raise_if_Ok, bool_decide_eq_false, dec_stable in Hh. apply raise_if_Ok, negb_false_iff, bool_decide_eq_true in Hid.
  unfold stored_names. apply list_elem_of_omap. exists content. split.
  - apply list_elem_of_fmap. exists (storage_path root sid, content). split; [done|]. by apply elem_of_map_to_list.
  - unfold stored_name. rewrite El. cbn [mbind res_bind]. unfold member. rewrite Hid. cbn [mbind res_bind]. rewrite Hp. cbn [mbind res_bind].
    rewrite Hdec. by rewrite Hh.
Qed.

Lemma read_text s x : texts x → store_sound s → holds_text s x → read s (text_hash x) = Ok x.
Proof. intros Hx Hs Hh. unfold read_from. by rewrite (get_spec None x s). Qed.

(** ** A graph *)

Notation put_graph := (put_graph root blake3 blake3_keyed aead_encrypt store).

Lemma put_graph_spec envs fsync env g s :
  Forall (λ e, texts (eo_bytes e)) (graph_values g) → (∀ n, good_write (envs n)) → good_write env →
  let '(res, s') := put_graph envs fsync env g s in
  store_step s s' ∧ ∀ w, res = Ok w →
    Forall (λ e, eo_hash e = text_hash (eo_bytes e) ∧ holds_text s' (eo_bytes e)) (graph_values g)
    ∧ check_pointer (graph_pointer g) = Ok ()
    ∧ (wr_objects_written w + wr_objects_reused w = object_count g)%Z
    ∧ s' !! latest_path root = Some (sealed_ptr (we_random env) (graph_pointer g)).
Proof.
  intros Hl Henvs Henv. unfold MetaStore.put_graph. rewrite sm_bind_spec.
  pose proof (put_batch_spec envs fsync (graph_values g) s Hl Henvs) as H.
  destruct (put_batch envs fsync (graph_values g) s) as [[[w r]|e] s1]; [|by split; [apply H|]].
  destruct H as [H1 H2]. destruct (H2 _ _ eq_refl) as [Ha Hb]. rewrite sm_bind_spec. unfold slift, construct.
  destruct (check_pointer (graph_pointer g)) as [[]|] eqn:Ec; [|done]. cbn [mbind res_bind].
  rewrite sm_bind_spec. unfold write_latest_pointer.
  destruct (write_step (we_others env) (we_write env) (latest_path root) (sealed_ptr (we_random env) (graph_pointer g)) s1 Henv) as [H3 H4].
  { intros s'. apply publish_elsewhere, path_not_latest. }
  destruct (atomic_write_bytes _ _ _ _ s1) as [[[]|e] s2]; cbn [fst snd] in *; (split; [by etransitivity|]); [|done].
  intros w' [= <-]. cbn [wr_objects_written wr_objects_reused]. split_and!; [|done| |by apply H4].
  - rewrite Forall_forall in *. intros e He. destruct (Ha e He) as [Hh Hold]. split; [done|]. by apply H3; [apply Hl|].
  - unfold object_count, graph_values in *. rewrite length_fmap, length_map_to_list in Hb. lia.
Qed.
End facts.

Section graphs.
Context (blake3 : bytes → bytes) (Hblake3 : ∀ x, length (blake3 x) = 32).

(** [e] is what encoding the valid object [o] gives. *)
Definition encodes (o : MetadataPlainObject) (e : EncodedMetadataObject) : Prop :=
  valid_object o ∧ json_ok (JObj (object_payload o)) ∧ encode_metadata_object blake3 o = Ok e.

(** Its objects are encoded, refer to each other with their types, and one is its catalogue. *)
Definition graph_complete (g : MetadataObjectGraph) : Prop :=
  (∀ h e, g_objects g !! h = Some e → ∃ o, encodes o e ∧
     Forall (λ r, ∃ e', g_objects g !! ref_hash r = Some e' ∧ eo_type e' = ref_type r) (object_refs o))
  ∧ ∃ e, g_objects g !! g_catalog_hash g = Some e ∧ eo_type e = CATALOG.

(** The objects that the catalogue of a graph needs. *)
Inductive needed (g : MetadataObjectGraph) : pystr → Prop :=
  | needed_root : needed g (g_catalog_hash g)
  | needed_ref h e o r : needed g h → g_objects g !! h = Some e → encodes o e → r ∈ object_refs o → needed g (ref_hash r).

Lemma normalize_keys items acc g : normalize_objects items acc = Ok g →
  (∀ h e, acc !! h = Some e → eo_hash e = h) → ∀ h e, g !! h = Some e → eo_hash e = h.
Proof.
  revert acc. induction items as [|[k e0] items IH]; intros acc H Hacc; cbn [normalize_objects] in H; [by injection H as <-|].
  apply bind_Ok in H as (h0 & _ & H). apply bind_Ok in H as ([] & He & H). apply raise_if_Ok, bool_decide_eq_false, dec_stable in He.
  apply (IH _ H). by intros h e [[<- <-]|[_ ?]]%lookup_insert_Some; [|apply Hacc].
Qed.

Lemma normalize_items items acc g : normalize_objects items acc = Ok g →
  ∀ h e, g !! h = Some e → acc !! h = Some e ∨ e ∈ items.*2.
Proof.
  revert acc. induction items as [|[k e0] items IH]; intros acc H h e He; cbn [normalize_objects] in H; [injection H as <-; by left|].
  apply bind_Ok in H as (h0 & _ & H). apply bind_Ok in H as ([] & _ & H). cbn [fmap list_fmap snd]. rewrite elem_of_cons.
  destruct (IH _ H _ _ He) as [[[_ <-]|[_ ?]]%lookup_insert_Some|]; auto.
Qed.

Lemma make_graph_spec vault catalog cref digest objects a b c g :
  make_graph vault catalog cref digest objects a b c = Ok g →
  hex_of_length 32 (g_vault_id g) = true ∧ is_valid_blake3_hex (g_catalog_hash g) = true
  ∧ (∀ h e, g_objects g !! h = Some e → eo_hash e = h) ∧ (∀ h e, g_objects g !! h = Some e → e ∈ objects.*2).
Proof.
  unfold make_graph, graph_vault_id, graph_hash64. intros H.
  apply bind_Ok in H as (v & Hv & H). apply bind_Ok in H as (h & Hh & H). apply bind_Ok in H as (d & _ & H).
  apply bind_Ok in H as ([] & _ & H). apply bind_Ok in H as ([] & _ & H). apply bind_Ok in H as (m & Hm & H).
  apply bind_Ok in H as ([] & _ & H). apply bind_Ok in H as ([] & _ & H). apply bind_Ok in H as ([] & _ & H).
  apply bind_Ok in H as ([] & _ & [= <-]). cbn.
  apply bind_Ok in Hv as ([] & Hv & [= <-]). apply bind_Ok in Hh as ([] & Hh & [= <-]).
  apply raise_if_Ok, negb_false_iff in Hv, Hh. split_and!; [done..| |]; [by apply (normalize_keys _ _ _ Hm)|].
  intros h' e He. by destruct (normalize_items _ _ _ Hm _ _ He).
Qed.

(** A visit of an object that is there. *)
Lemma visit_encoded read o e : encodes o e → read (eo_hash e) = Ok (eo_bytes e) →
  eo_type e = object_type o ∧
  ∃ refs, visit blake3 read (eo_hash e) (eo_type e) = Ok (eo_bytes e, refs) ∧ refs ≡ₚ ref_pair <$> object_refs o.
Proof.
  intros (Hv & Hp & He) Hr. rewrite (encode_ok _ _ Hp) in He. injection He as <-. cbn [eo_hash eo_type eo_bytes] in *. split; [done|].
  destruct (iter_sorted (JObj (object_payload o)) Hp _ (iter_object o Hv)) as (refs & Hi & HP). rewrite sort_keys_obj in Hi.
  exists refs. split; [|done]. unfold visit. rewrite Hr. cbn [mbind res_bind].
  rewrite (envelope_decodes blake3 o Hblake3 Hv Hp). cbn [mbind res_bind]. rewrite bool_decide_eq_false_2 by (intros N; by apply N).
  cbn [walk_error_if raise_if mbind res_bind]. rewrite Hi. done.
Qed.

Section readable.
Context (g : MetadataObjectGraph) (read : pystr → res bytes).
Context (Hkeys : ∀ h e, g_objects g !! h = Some e → eo_hash e = h) (Hg : graph_complete g).
Context (Hread : ∀ h e, g_objects g !! h = Some e → read h = Ok (eo_bytes e)).

Lemma visit_graph h e : g_objects g !! h = Some e → ∃ o refs, encodes o e ∧ visit blake3 read h (eo_type e) = Ok (eo_bytes e, refs)
  ∧ refs ≡ₚ ref_pair <$> object_refs o
  ∧ Forall (λ r, ∃ e', g_objects g !! ref_hash r = Some e' ∧ eo_type e' = ref_type r) (object_refs o).
Proof.
  intros He. destruct Hg as [Hall _]. destruct (Hall _ _ He) as (o & Ho & Hrefs). pose proof (Hkeys _ _ He) as <-.
  destruct (visit_encoded read o e Ho (Hread _ _ He)) as (Ht & refs & Hv & HP). eauto 6.
Qed.

Lemma reach_graph h t : reach blake3 read (g_catalog_hash g) h t → needed g h ∧ ∃ e, g_objects g !! h = Some e ∧ eo_type e = t.
Proof.
  induction 1 as [|h t b refs t' h' Hr [Hn (e & He & <-)] Hv Hin]; [split; [constructor|apply Hg]|].
  destruct (visit_graph h e He) as (o & refs' & Ho & Hv' & HP & Hrefs). rewrite Hv in Hv'. injection Hv' as -> ->.
  rewrite HP in Hin. apply list_elem_of_fmap in Hin as (r & [= -> ->] & Hr'). split; [by eapply needed_ref|].
  rewrite Forall_forall in Hrefs. by apply Hrefs.
Qed.

Lemma needed_reach h : needed g h → ∃ t, reach blake3 read (g_catalog_hash g) h t.
Proof.
  induction 1 as [|h e o r Hn [t Ht] He Ho Hr]; [eexists; constructor|].
  destruct (reach_graph _ _ Ht) as [_ (e' & He' & <-)]. assert (e' = e) as -> by congruence.
  destruct (visit_graph h e He) as (o' & refs & Ho' & Hv & HP & _). assert (o' = o) as ->.
  { destruct Ho as (V1 & P1 & E1), Ho' as (V2 & P2 & E2). apply envelope_inj; [done..|].
    rewrite encode_ok in E1, E2 by done. congruence. }
  exists (ref_type r). eapply reach_ref; [exact Ht|exact Hv|]. rewrite HP. apply list_elem_of_fmap. by exists r.
Qed.

Lemma graph_intact : intact blake3 read (g_catalog_hash g).
Proof.
  split.
  - intros h t Hr. destruct (reach_graph _ _ Hr) as [_ (e & He & <-)]. destruct (visit_graph h e He) as (o & refs & _ & Hv & _). eauto.
  - intros h t t' H1 H2. destruct (reach_graph _ _ H1) as [_ (e & He & <-)], (reach_graph _ _ H2) as [_ (e' & He' & <-)]. congruence.
Qed.
End readable.
End graphs.

(** ** The properties *)

Section theorems.
Context (root : pystr) (blake3 : bytes → bytes) (blake3_keyed : bytes → bytes → bytes).
Context (aead_encrypt : bytes → bytes → bytes → bytes → bytes) (aead_decrypt : bytes → bytes → bytes → bytes → res bytes).
Context (store : MetadataObjectStore) (texts : bytes → Prop).

(** The documented behaviour of the libraries, and no collision of the names of the texts
    that are ever stored. *)
Record good_crypto : Prop := {
  gc_blake3 x : length (blake3 x) = 32;
  gc_keyed k x : length (blake3_keyed k x) = 32;
  gc_aead k n p ad : aead_decrypt k n (aead_encrypt k n p ad) ad = Ok p;
  gc_key : length (mos_id_key store) = 32;
  gc_collide x y : texts x → texts y → text_id blake3 blake3_keyed store x = text_id blake3 blake3_keyed store y → x = y }.
Context (Hcrypto : good_crypto).

Notation sound := (store_sound root blake3 blake3_keyed aead_encrypt store texts).
Notation step := (store_step root blake3 blake3_keyed aead_encrypt store texts).
Notation good := (good_write root blake3 blake3_keyed aead_encrypt store texts).
Notation get := (get_object_bytes root blake3 blake3_keyed aead_decrypt store).

(** Storing an object: whatever other processes store meanwhile and however the write
    ends, no object disappears and the files stay sound; once the call returns, the object is
    read back exactly, in that state and in every later one; and whatever the files contain,
    a reader gets data with the hash it asked for or an error. *)
Theorem stored_objects_are_read_back env encoded s : texts (eo_bytes encoded) → good env → sound s →
  let '(r, s') := put_object root blake3 blake3_keyed aead_encrypt store env encoded s in
  step s s' ∧ sound s'
  ∧ (∀ written s'', r = Ok written → step s' s'' →
       get false false (eo_hash encoded) None s'' = (Ok (eo_bytes encoded), s''))
  ∧ ∀ sf rf h t s2 b s2', get sf rf h t s2 = (Ok b, s2') → s2' = s2 ∧ hexdigest (blake3 b) = h.
Proof.
  destruct Hcrypto as [Hb Hk Ha Hlen Hc]. intros Hx Henv Hs. unfold put_object. rewrite sm_bind_spec.
  pose proof (put_spec root blake3 blake3_keyed aead_encrypt store Hb Hk Hlen texts Hc env encoded s Hx Henv) as H.
  pose proof (get_truth root blake3 blake3_keyed aead_decrypt store) as Hget.
  destruct (_put_object_no_parent_fsync _ _ _ _ _ env encoded s) as [[[written parent]|e] s1];
    [|destruct H as [H _]; split_and!; [done|by apply H|done|exact Hget]].
  destruct H as [Hst H]. destruct (H _ eq_refl) as [Hh Hholds]. rewrite sm_bind_spec.
  assert ((if written : bool then slift (raising (we_fsync env)) else mret ()) s1
    = ((if written then raising (we_fsync env) else Ok ()), s1)) as -> by (by destruct written).
  destruct (if written then _ else _); split_and!; try done; try (by apply Hst). 
  intros written' s'' _ [G K]. rewrite Hh.
  apply (get_spec root blake3 blake3_keyed aead_encrypt aead_decrypt store Hb Ha Hlen texts None); [done|by apply K, Hst|by apply G].
Qed.

(** C36: Exporting a graph and recovering it: when [put_graph] returns, and in every later
    state in which the pointer was not replaced, [latest.json] is read back as the pointer to
    this graph, and walking from its catalogue through the store collects exactly the objects
    that the catalogue needs, each with the bytes it was encoded to. *)
Theorem exported_graph_is_recovered vault catalog cref digest objects a b c g envs fsync env s w s' s'' :
  make_graph vault catalog cref digest objects a b c = Ok g → graph_complete blake3 g →
  Forall (λ e, texts (eo_bytes e)) (graph_values g) → (∀ n, good (envs n)) → good env → sound s →
  put_graph root blake3 blake3_keyed aead_encrypt store envs fsync env g s = (Ok w, s') →
  step s' s'' → s'' !! latest_path root = s' !! latest_path root →
  (wr_objects_written w + wr_objects_reused w = object_count g)%Z
  ∧ read_latest_pointer root aead_decrypt store false false s'' = (Ok (graph_pointer g), s'')
  ∧ ∃ found, collect_reachable_object_bytes blake3 (read_from root blake3 blake3_keyed aead_decrypt store s'')
        (stored_names blake3 aead_decrypt store s'') (lp_catalog_hash (graph_pointer g)) = Some (Ok found)
      ∧ NoDup found.*1 ∧ (∀ h, h ∈ found.*1 ↔ needed blake3 g h)
      ∧ ∀ h x, (h, x) ∈ found → ∃ e, g_objects g !! h = Some e ∧ x = eo_bytes e.
Proof.
  destruct Hcrypto as [Hb Hk Ha Hlen Hc]. intros Hmake Hcomplete Htexts Henvs Henv Hs Hput [G K] Hlatest.
  destruct (make_graph_spec _ _ _ _ _ _ _ _ _ Hmake) as (Hvault & Hcat & Hkeys & _).
  pose proof (put_graph_spec root blake3 blake3_keyed aead_encrypt store Hb Hk Hlen texts Hc envs fsync env g s Htexts Henvs Henv) as H.
  rewrite Hput in H. destruct H as [Hst H]. destruct (H _ eq_refl) as (Hall & Hp & Hcount & Hptr). split; [done|]. split.
  { eapply read_pointer_spec; [done..|]. by rewrite Hlatest. }
  set (read := read_from root blake3 blake3_keyed aead_decrypt store s'').
  assert (∀ h e, g_objects g !! h = Some e → read h = Ok (eo_bytes e)) as Hread.
  { intros h e He. assert (e ∈ graph_values g) as Hin.
    { unfold graph_values. apply list_elem_of_fmap. exists (h, e). split; [done|]. by apply elem_of_map_to_list. }
    rewrite Forall_forall in Hall, Htexts. destruct (Hall _ Hin) as [Hh Hholds]. rewrite <-(Hkeys _ _ He), Hh.
    eapply read_text; [done..|by apply Htexts|by apply K, Hst|by apply G; [apply Htexts|]]. }
  destruct (walk_collects blake3 read (stored_names blake3 aead_decrypt store s'') (g_catalog_hash g) (g_catalog_hash g))
    as [(Hi & found & E & Hnd & Hr & Ho)|[Hi _]].
  - intros h x Hx. by eapply read_names.
  - by apply require_valid.
  - exists found. split_and!; [done..| |].
    + intros h. rewrite Hr. split; [intros [t Ht]; by apply (reach_graph blake3 Hb g read Hkeys Hcomplete Hread) in Ht as [? _]|].
      by apply needed_reach.
    + intros h x Hin. destruct (Ho _ _ Hin) as (t & refs & Ht & Hv).
      destruct (reach_graph blake3 Hb g read Hkeys Hcomplete Hread _ _ Ht) as [_ (e & He & <-)]. exists e. split; [done|].
      destruct (visit_graph blake3 Hb g read Hkeys Hcomplete Hread h e He) as (o & refs' & _ & Hv' & _). congruence.
  - exfalso. apply Hi. by apply graph_intact.
Qed.
End theorems.

(** ** A small store *)

Definition toy_store : MetadataObjectStore := {|
  mos_salt := []; mos_cost := {| sc_n := 2; sc_r := 1; sc_p := 1; sc_key_length := 32 |};
  mos_aead_key := []; mos_id_key := replicate 32 Byte.x00 |}.
(** The last bytes of the text of a weak hash. *)
Definition toy_keyed (key data : bytes) : bytes := take 32 (drop 32 data ++ replicate 32 Byte.x00).
Definition toy_encrypt (key nonce data ad : bytes) : bytes := data.
Definition toy_decrypt (key nonce data ad : bytes) : res bytes := Ok data.
Definition toy_texts (x : bytes) : Prop := x ∈ vault_objects.*2.
Definition quiet_write : WriteEnv := {|
  we_stat_fails := false; we_mkdir := None; we_random := [Byte.x07]; we_others := id; we_write := Written; we_fsync := None |}.

Lemma NoDup_fmap_elem {A B} (f : A → B) (l : list A) x y : NoDup (f <$> l) → x ∈ l → y ∈ l → f x = f y → x = y.
Proof.
  intros Hnd [i Hi]%list_elem_of_lookup [j Hj]%list_elem_of_lookup E.
  assert (i = j) as -> by (eapply NoDup_lookup; [exact Hnd|by rewrite list_lookup_fmap, Hi|by rewrite list_lookup_fmap, Hj; cbn; rewrite E]).
  congruence.
Qed.

Lemma toy_keyed_length key data : length (toy_keyed key data) = 32.
Proof. unfold toy_keyed. rewrite length_take, length_app, length_replicate. lia. Qed.

Lemma toy_crypto : good_crypto weak_digest toy_keyed toy_encrypt toy_decrypt toy_store toy_texts.
Proof.
  split; [apply weak_digest_length|intros; apply toy_keyed_length|done|done|].
  intros x y Hx Hy. apply (NoDup_fmap_elem (text_id weak_digest toy_keyed toy_store) vault_objects.*2); [by_compute|done|done].
Qed.

Lemma quiet_write_good : good_write (u "/m") weak_digest toy_keyed toy_encrypt toy_store toy_texts quiet_write.
Proof. intros s. done. Qed.
Lemma nothing_stored_sound : store_sound (u "/m") weak_digest toy_keyed toy_encrypt toy_store toy_texts ∅.
Proof. intros x data _ H. by rewrite lookup_empty in H. Qed.

Definition vault_encoded : list (pystr * EncodedMetadataObject) :=
  (λ o, (weak_hash o, {| eo_type := object_type o; eo_hash := weak_hash o; eo_bytes := canonical_json_bytes (object_envelope o) |}))
  <$> [no_snapshots; no_chunks; empty_vault].
Notation vault_made :=
  (make_graph (replicate 32 97%N) (weak_hash empty_vault) (weak_ref empty_vault) (weak_hash empty_vault) vault_encoded 0 0 0).
Definition is_ok {A} (r : res A) : bool := match r with Ok _ => true | Err _ => false end.
Definition graph_of (r : res MetadataObjectGraph) : MetadataObjectGraph :=
  match r with
  | Ok g => g
  | Err _ => {| g_vault_id := []; g_catalog_hash := []; g_catalog_ref := weak_ref empty_vault; g_state_digest := [];
                g_objects := ∅; g_snapshot_count := 0; g_known_chunk_count := 0; g_protection_record_count := 0 |}
  end.
Definition vault_graph : MetadataObjectGraph := graph_of vault_made.
Lemma graph_of_ok r : is_ok r = true → r = Ok (graph_of r).
Proof. by destruct r. Qed.
Lemma vault_is_made : vault_made = Ok vault_graph.
Proof.
  apply graph_of_ok. vm_compute. reflexivity.
Qed.

Definition vault_export := put_graph (u "/m") weak_digest toy_keyed toy_encrypt toy_store (λ _, quiet_write) (λ _, None) quiet_write
  vault_graph ∅.

Lemma pair_with_fst {A B} (p : A * B) a : p.1 = a → p = (a, p.2).
Proof. by destruct p as [? ?]; intros <-. Qed.

Lemma vault_exported : ∃ w, vault_export = (Ok w, vault_export.2).
Proof.
  exists {| wr_objects_written := 3; wr_objects_reused := 0 |}. apply pair_with_fst. vm_compute. reflexivity.
Qed.

Lemma vault_encodes o : o ∈ [no_snapshots; no_chunks; empty_vault] →
  encodes weak_digest o {| eo_type := object_type o; eo_hash := weak_hash o; eo_bytes := canonical_json_bytes (object_envelope o) |}.
Proof.
  intros Ho. assert (valid_object o ∧ json_ok (JObj (object_payload o))) as [Hv Hp]; [|split_and!; [done..|by apply encode_ok]].
  repeat (apply elem_of_cons in Ho as [->|Ho]); [..|by apply elem_of_nil in Ho].
  - split; [repeat split; vm_compute; try reflexivity; apply Forall_nil_2|]. dict_ok.
  - split; [repeat split; vm_compute; try reflexivity; apply Forall_nil_2|]. dict_ok.
  - apply empty_vault_ok.
Qed.

Lemma vault_lookup h e : g_objects vault_graph !! h = Some e →
  ∃ o, o ∈ [no_snapshots; no_chunks; empty_vault] ∧ encodes weak_digest o e ∧ eo_bytes e ∈ vault_objects.*2.
Proof.
  intros He. destruct (make_graph_spec _ _ _ _ _ _ _ _ _ vault_is_made) as (_ & _ & _ & Hitems).
  pose proof (Hitems _ _ He) as Hin.
  unfold vault_encoded in Hin. rewrite <-list_fmap_compose in Hin. apply list_elem_of_fmap in Hin as (o & -> & Ho).
  exists o. split_and!; [done|by apply vault_encodes|]. unfold vault_objects. rewrite <-list_fmap_compose.
  apply list_elem_of_fmap. exists o. split; [reflexivity|exact Ho].
Qed.

Lemma vault_refs o r : o ∈ [no_snapshots; no_chunks; empty_vault] → r ∈ object_refs o →
  r = weak_ref no_snapshots ∨ r = weak_ref no_chunks.
Proof.
  intros Ho. assert (object_refs o = [] ∨ object_refs o = [weak_ref no_snapshots; weak_ref no_chunks]) as [->| ->].
  - apply elem_of_cons in Ho as [->|Ho]; [left; reflexivity|]. apply elem_of_cons in Ho as [->|Ho]; [left; reflexivity|].
    apply list_elem_of_singleton in Ho as ->. right. reflexivity.
  - by intros ?%elem_of_nil.
  - intros [->|H]%elem_of_cons; [left; reflexivity|]. apply list_elem_of_singleton in H as ->. right. reflexivity.
Qed.

Lemma vault_complete : graph_complete weak_digest vault_graph.
Proof.
  assert (eo_type <$> g_objects vault_graph !! weak_hash no_snapshots = Some SNAPSHOT_INDEX) as E1 by (vm_compute; reflexivity).
  assert (eo_type <$> g_objects vault_graph !! weak_hash no_chunks = Some KNOWN_CHUNK_INDEX) as E2 by (vm_compute; reflexivity).
  assert (eo_type <$> g_objects vault_graph !! g_catalog_hash vault_graph = Some CATALOG) as E3 by (vm_compute; reflexivity).
  apply fmap_Some in E1 as (e1 & H1 & T1), E2 as (e2 & H2 & T2), E3 as (e3 & H3 & T3).
  split; [|exists e3; exact (conj H3 (eq_sym T3))].
  intros h e (o & Ho & Henc & _)%vault_lookup. exists o. split; [exact Henc|]. apply Forall_forall.
  intros r [->| ->]%(vault_refs o r Ho); [exists e1; exact (conj H1 (eq_sym T1))|exists e2; exact (conj H2 (eq_sym T2))].
Qed.

Lemma stored_objects_are_read_back_witness : ∃ e, eo_hash e = weak_hash empty_vault ∧
  let '(r, s') := put_object (u "/m") weak_digest toy_keyed toy_encrypt toy_store quiet_write e ∅ in
  r = Ok true ∧ get_object_bytes (u "/m") weak_digest toy_keyed toy_decrypt toy_store false false (weak_hash empty_vault) None s'
    = (Ok (canonical_json_bytes (object_envelope empty_vault)), s').
Proof.
  set (e := {| eo_type := CATALOG; eo_hash := weak_hash empty_vault; eo_bytes := canonical_json_bytes (object_envelope empty_vault) |}).
  exists e. split; [reflexivity|].
  assert (toy_texts (eo_bytes e)) as Hx by (apply list_elem_of_fmap; exists (weak_hash empty_vault, eo_bytes e); split; [done|right; right; left]).
  pose proof (stored_objects_are_read_back (u "/m") weak_digest toy_keyed toy_encrypt toy_decrypt toy_store toy_texts toy_crypto
    quiet_write e ∅ Hx quiet_write_good nothing_stored_sound) as H.
  assert ((put_object (u "/m") weak_digest toy_keyed toy_encrypt toy_store quiet_write e ∅).1 = Ok true) as E by (vm_compute; reflexivity).
  destruct (put_object (u "/m") weak_digest toy_keyed toy_encrypt toy_store quiet_write e ∅) as [r s']. cbn [fst] in E. subst r.
  destruct H as (_ & _ & H & _). split; [reflexivity|]. exact (H true s' eq_refl (reflexivity s')).
Defined.

Lemma exported_graph_is_recovered_witness :
  read_latest_pointer (u "/m") toy_decrypt toy_store false false vault_export.2 = (Ok (graph_pointer vault_graph), vault_export.2)
  ∧ ∃ found, collect_reachable_object_bytes weak_digest (read_from (u "/m") weak_digest toy_keyed toy_decrypt toy_store vault_export.2)
      (stored_names weak_digest toy_decrypt toy_store vault_export.2) (lp_catalog_hash (graph_pointer vault_graph)) = Some (Ok found)
    ∧ ∀ h, h ∈ found.*1 ↔ needed weak_digest vault_graph h.
Proof.
  destruct vault_exported as [w Hw].
  assert (Forall (λ e, toy_texts (eo_bytes e)) (graph_values vault_graph)) as Ht.
  { apply Forall_forall. intros e He. apply list_elem_of_fmap in He as ([h e'] & -> & Hin). apply elem_of_map_to_list in Hin.
    by destruct (vault_lookup _ _ Hin) as (o & _ & _ & ?). }
  destruct (exported_graph_is_recovered (u "/m") weak_digest toy_keyed toy_encrypt toy_decrypt toy_store toy_texts toy_crypto
    _ _ _ _ _ _ _ _ vault_graph (λ _, quiet_write) (λ _, None) quiet_write ∅ w vault_export.2 vault_export.2 vault_is_made vault_complete Ht
    (λ _, quiet_write_good) quiet_write_good nothing_stored_sound Hw (reflexivity _) eq_refl)
    as (_ & Hp & found & E & _ & Hn & _).
  split; [exact Hp|]. exists found. split; [exact E|exact Hn].
Defined.
