(* ===== verification/MetaValidate.v ===== *)
(** * Validation of a graph of metadata objects

    [metadata/objects/graph/validation.py]: the relations that cross the objects of a graph
    whose payloads were read, checked before it is taken for recoverable. The code walks the
    indexes, shards, snapshots and trees with counters and sets; the second half of the file
    says what it is that the walk establishes, and that it accepts exactly that. *)

From S2P Require Import Prelude PyStr Common Json Catalog Chunker MetaModels MetaCodec.

Record GraphObjectPayload := { gop_object_type : MetadataObjectType; gop_payload : list (pystr * json) }.

(** A loop that may raise: [b] is what its body changes. *)
Fixpoint fold_res {A B} (f : B → A → res B) (b : B) (l : list A) : res B :=
  match l with [] => Ok b | x :: l' => b' ← f b x; fold_res f b' l' end.

(** Every exception of the decoder becomes MetadataObjectError. *)
Definition typed_item (kv : pystr * GraphObjectPayload) : res (pystr * MetadataPlainObject) :=
  match decode_metadata_object_payload (gop_object_type kv.2) (gop_payload kv.2) with
  | Ok o => Ok (kv.1, o)
  | Err _ => Err MetadataObjectError
  end.

Definition _typed_objects (objects_by_hash : gmap pystr GraphObjectPayload) : res (gmap pystr MetadataPlainObject) :=
  out ← mapM_res typed_item (map_to_list objects_by_hash);
  Ok (list_to_map out).

(** The class of an object: its [object_type], and [isinstance]. *)
Class ObjectClass (A : Type) := {
  class_type : MetadataObjectType;
  is_instance : MetadataPlainObject → option A;
  as_object : A → MetadataPlainObject;
  is_instance_spec o a : is_instance o = Some a ↔ o = as_object a;
  class_type_spec a : object_type (as_object a) = class_type }.

Ltac solve_class := first [intros [] ?; split; congruence | reflexivity].
#[export, refine] Instance catalog_class : ObjectClass CatalogObject := {|
  class_type := CATALOG; is_instance o := match o with OCatalog a => Some a | _ => None end; as_object := OCatalog;
  is_instance_spec := _; class_type_spec := _ |}.
Proof. all: solve_class. Defined.
#[export, refine] Instance snapshot_index_class : ObjectClass SnapshotIndexObject := {|
  class_type := SNAPSHOT_INDEX; is_instance o := match o with OSnapshotIndex a => Some a | _ => None end;
  as_object := OSnapshotIndex;
  is_instance_spec := _; class_type_spec := _ |}.
Proof. all: solve_class. Defined.
#[export, refine] Instance snapshot_root_class : ObjectClass SnapshotRootObject := {|
  class_type := SNAPSHOT_ROOT; is_instance o := match o with OSnapshotRoot a => Some a | _ => None end;
  as_object := OSnapshotRoot;
  is_instance_spec := _; class_type_spec := _ |}.
Proof. all: solve_class. Defined.
#[export, refine] Instance tree_class : ObjectClass TreeObject := {|
  class_type := TREE; is_instance o := match o with OTree a => Some a | _ => None end; as_object := OTree;
  is_instance_spec := _; class_type_spec := _ |}.
Proof. all: solve_class. Defined.
#[export, refine] Instance file_class : ObjectClass FileObject := {|
  class_type := FILE; is_instance o := match o with OFile a => Some a | _ => None end; as_object := OFile;
  is_instance_spec := _; class_type_spec := _ |}.
Proof. all: solve_class. Defined.
#[export, refine] Instance recipe_class : ObjectClass RecipeObject := {|
  class_type := RECIPE; is_instance o := match o with ORecipe a => Some a | _ => None end; as_object := ORecipe;
  is_instance_spec := _; class_type_spec := _ |}.
Proof. all: solve_class. Defined.
#[export, refine] Instance chunk_list_class : ObjectClass ChunkListObject := {|
  class_type := CHUNK_LIST; is_instance o := match o with OChunkList a => Some a | _ => None end; as_object := OChunkList;
  is_instance_spec := _; class_type_spec := _ |}.
Proof. all: solve_class. Defined.
#[export, refine] Instance known_chunk_index_class : ObjectClass KnownChunkIndexObject := {|
  class_type := KNOWN_CHUNK_INDEX; is_instance o := match o with OKnownChunkIndex a => Some a | _ => None end;
  as_object := OKnownChunkIndex;
  is_instance_spec := _; class_type_spec := _ |}.
Proof. all: solve_class. Defined.
#[export, refine] Instance known_chunk_shard_class : ObjectClass KnownChunkShardObject := {|
  class_type := KNOWN_CHUNK_SHARD; is_instance o := match o with OKnownChunkShard a => Some a | _ => None end;
  as_object := OKnownChunkShard;
  is_instance_spec := _; class_type_spec := _ |}.
Proof. all: solve_class. Defined.
#[export, refine] Instance protection_index_class : ObjectClass ProtectionIndexObject := {|
  class_type := PROTECTION_INDEX; is_instance o := match o with OProtectionIndex a => Some a | _ => None end;
  as_object := OProtectionIndex;
  is_instance_spec := _; class_type_spec := _ |}.
Proof. all: solve_class. Defined.
#[export, refine] Instance protection_shard_class : ObjectClass ProtectionShardObject := {|
  class_type := PROTECTION_SHARD; is_instance o := match o with OProtectionShard a => Some a | _ => None end;
  as_object := OProtectionShard;
  is_instance_spec := _; class_type_spec := _ |}.
Proof. all: solve_class. Defined.
#[export, refine] Instance erasure_index_class : ObjectClass ErasureDataPackIndexObject := {|
  class_type := ERASURE_DATA_PACK_INDEX; is_instance o := match o with OErasureDataPackIndex a => Some a | _ => None end;
  as_object := OErasureDataPackIndex;
  is_instance_spec := _; class_type_spec := _ |}.
Proof. all: solve_class. Defined.
#[export, refine] Instance erasure_shard_class : ObjectClass ErasureDataPackShardObject := {|
  class_type := ERASURE_DATA_PACK_SHARD; is_instance o := match o with OErasureDataPackShard a => Some a | _ => None end;
  as_object := OErasureDataPackShard;
  is_instance_spec := _; class_type_spec := _ |}.
Proof. all: solve_class. Defined.

Section validation.
Context (blake3 : bytes → bytes) (typed : gmap pystr MetadataPlainObject).

Definition _expect (object_hash : pystr) (expected_type : MetadataObjectType) : res MetadataPlainObject :=
  match typed !! object_hash with
  | None => Err MetadataObjectError
  | Some obj => if bool_decide (object_type obj = expected_type) then Ok obj else Err MetadataObjectError
  end.

(** [_expect] and the isinstance test that follows each use of it. *)
Definition expect_object {A} `{ObjectClass A} (object_hash : pystr) : res A :=
  obj ← _expect object_hash class_type;
  match is_instance obj with Some a => Ok a | None => Err MetadataObjectError end.

(** ** Indexes and their shards *)

(** The checks of a shard against the entry of its index. *)
Definition open_shard {S A} `{ObjectClass S} (prefix : S → pystr) (records : S → list A) (shard_ref : IndexShardRef)
    : res (list A) :=
  shard_obj ← expect_object (ref_hash (ish_ref shard_ref));
  _ ← refuse_if (bool_decide (prefix shard_obj ≠ ish_prefix shard_ref));
  _ ← refuse_if (bool_decide (Z.of_nat (length (records shard_obj)) ≠ ish_count shard_ref));
  Ok (records shard_obj).

(** [for shard_ref in index.shards: ... for record in shard.records: step] *)
Definition for_records {S A B} `{ObjectClass S} (prefix : S → pystr) (records : S → list A)
    (step : B → A → res B) (b : B) (shards : list IndexShardRef) : res B :=
  fold_res (λ b shard_ref, l ← open_shard prefix records shard_ref; fold_res step b l) b shards.

Definition add_known_chunk (known_chunks : gmap pystr Z) (record : KnownChunkRecord) : res (gmap pystr Z) :=
  _ ← refuse_if (match known_chunks !! kch_chunk_hash record with
                 | Some previous => bool_decide (previous ≠ kch_size record) | None => false end);
  Ok (<[kch_chunk_hash record := kch_size record]> known_chunks).

Definition read_known_chunks (known_index : KnownChunkIndexObject) : res (gmap pystr Z) :=
  known_chunks ← for_records kshard_prefix kshard_chunks add_known_chunk ∅ (kidx_shards known_index);
  _ ← refuse_if (bool_decide (Z.of_nat (size known_chunks) ≠ kidx_total_chunks known_index));
  Ok known_chunks.

Definition see_protection (known_chunks : gmap pystr Z) (seen_protection : gset pystr) (record : ProtectionRecordObject)
    : res (gset pystr) :=
  _ ← refuse_if (bool_decide (prot_chunk_hash record ∈ seen_protection));
  _ ← refuse_if (bool_decide (known_chunks !! prot_chunk_hash record = None));
  Ok ({[prot_chunk_hash record]} ∪ seen_protection).

(** The number of protection records. *)
Definition read_protection (catalog : CatalogObject) (known_chunks : gmap pystr Z) : res Z :=
  match cat_protection_index catalog with
  | None => _ ← refuse_if (bool_decide (cat_protection_record_count catalog ≠ 0%Z)); Ok 0%Z
  | Some ref =>
      protection_index ← expect_object (ref_hash ref);
      _ ← refuse_if (bool_decide (cat_protection_record_count catalog ≠ pidx_total_records protection_index));
      seen_protection ← for_records pshard_prefix pshard_records (see_protection known_chunks) ∅
                          (pidx_shards protection_index);
      let protection_records := Z.of_nat (size seen_protection) in
      _ ← refuse_if (bool_decide (protection_records ≠ pidx_total_records protection_index));
      Ok protection_records
  end.

(** ** _validate_erasure_data_packs *)

(** [seen_packs], [seen_chunks], [chunk_count] and [shard_count] *)
Record PacksSeen := { seen_packs : gset pystr; seen_chunks : gset pystr; chunk_count : Z; shard_count : Z }.

Definition see_pack_chunk (known_chunks : gmap pystr Z) (seen : gset pystr) (chunk : ErasureDataPackChunkObject)
    : res (gset pystr) :=
  match known_chunks !! ech_chunk_hash chunk with
  | None => Err MetadataObjectError
  | Some known_size =>
      _ ← refuse_if (bool_decide (ech_length chunk ≠ known_size));
      _ ← refuse_if (bool_decide (ech_chunk_hash chunk ∈ seen));
      Ok ({[ech_chunk_hash chunk]} ∪ seen)
  end.

Definition see_pack (known_chunks : gmap pystr Z) (s : PacksSeen) (record : ErasureDataPackRecordObject) : res PacksSeen :=
  _ ← refuse_if (bool_decide (erec_pack_hash record ∈ seen_packs s));
  seen ← fold_res (see_pack_chunk known_chunks) (seen_chunks s) (erec_chunks record);
  Ok {| seen_packs := {[erec_pack_hash record]} ∪ seen_packs s; seen_chunks := seen;
        chunk_count := chunk_count s + Z.of_nat (length (erec_chunks record));
        shard_count := shard_count s + Z.of_nat (length (erec_shards record)) |}.

Definition _validate_erasure_data_packs (catalog : CatalogObject) (known_chunks : gmap pystr Z) : res unit :=
  match cat_erasure_data_pack_index catalog with
  | None =>
      refuse_if (bool_decide (cat_erasure_data_pack_count catalog ≠ 0%Z)
                 || bool_decide (cat_erasure_data_pack_chunk_count catalog ≠ 0%Z)
                 || bool_decide (cat_erasure_data_pack_shard_count catalog ≠ 0%Z))
  | Some ref =>
      index_obj ← expect_object (ref_hash ref);
      _ ← refuse_if (bool_decide (cat_erasure_data_pack_count catalog ≠ eidx_total_packs index_obj)
                     || bool_decide (cat_erasure_data_pack_chunk_count catalog ≠ eidx_total_chunks index_obj)
                     || bool_decide (cat_erasure_data_pack_shard_count catalog ≠ eidx_total_shards index_obj));
      s ← for_records eshard_prefix eshard_records (see_pack known_chunks)
            {| seen_packs := ∅; seen_chunks := ∅; chunk_count := 0; shard_count := 0 |} (eidx_shards index_obj);
      _ ← refuse_if (bool_decide (Z.of_nat (size (seen_packs s)) ≠ eidx_total_packs index_obj));
      _ ← refuse_if (bool_decide (chunk_count s ≠ eidx_total_chunks index_obj));
      refuse_if (bool_decide (shard_count s ≠ eidx_total_shards index_obj))
  end.

(** ** _validate_snapshots and _validate_tree *)

Notation chunk := (Z * pystr * Z)%type.
Notation recipe_table := (gmap pystr (list chunk)).

Definition chunk_tuples (o : ChunkListObject) : list chunk :=
  (λ c, (cref_order c, cref_chunk_hash c, cref_size c)) <$> clist_chunks o.
Definition sum_sizes (chunks : list chunk) : Z := foldr Z.add 0%Z chunks.*2.

Definition check_chunk_known (known_chunks : gmap pystr Z) (c : chunk) : res unit :=
  match known_chunks !! c.1.2 with
  | None => Err MetadataObjectError
  | Some known_size => refuse_if (bool_decide (known_size ≠ c.2))
  end.

(** A file of a tree; the result is [recipe_chunks_by_hash] with its recipe. *)
Definition validate_file (known_chunks : gmap pystr Z) (recipe_chunks_by_hash : recipe_table) (entry : TreeEntry)
    : res recipe_table :=
  file_obj ← expect_object (ref_hash (tent_ref entry));
  _ ← refuse_if (bool_decide (file_size file_obj ≠ tent_size entry));
  recipe_obj ← expect_object (ref_hash (file_recipe file_obj));
  _ ← refuse_if (bool_decide (file_recipe_hash file_obj ≠ recipe_recipe_hash recipe_obj));
  chunk_list_obj ← expect_object (ref_hash (recipe_chunk_list recipe_obj));
  let chunks := chunk_tuples chunk_list_obj in
  _ ← refuse_if (bool_decide (Z.of_nat (length chunks) ≠ recipe_chunk_count recipe_obj));
  _ ← refuse_if (bool_decide (sum_sizes chunks ≠ recipe_total_size recipe_obj));
  calculated ← compute_recipe_hash blake3 chunks;
  _ ← refuse_if (bool_decide (calculated ≠ recipe_recipe_hash recipe_obj));
  _ ← refuse_if (match recipe_chunks_by_hash !! recipe_recipe_hash recipe_obj with
                 | Some previous => bool_decide (previous ≠ chunks) | None => false end);
  _ ← for_all (check_chunk_known known_chunks) chunks;
  Ok (match recipe_chunks_by_hash !! recipe_recipe_hash recipe_obj with
      | Some _ => recipe_chunks_by_hash
      | None => <[recipe_recipe_hash recipe_obj := chunks]> recipe_chunks_by_hash end).

(** [stack] is how many more nested calls the interpreter allows. *)
Fixpoint _validate_tree (known_chunks : gmap pystr Z) (stack : nat) (active_trees : gset pystr) (tree_hash : pystr)
    (recipe_chunks_by_hash : recipe_table) : res recipe_table :=
  match stack with
  | O => Err RecursionError
  | S stack' =>
      _ ← refuse_if (bool_decide (tree_hash ∈ active_trees));
      tree_obj ← expect_object tree_hash;
      fold_res (λ recipe_chunks_by_hash entry,
        match tent_item_type entry with
        | ItemDir =>
            _validate_tree known_chunks stack' ({[tree_hash]} ∪ active_trees) (ref_hash (tent_ref entry))
              recipe_chunks_by_hash
        | ItemFile => validate_file known_chunks recipe_chunks_by_hash entry
        end) recipe_chunks_by_hash (tree_entries tree_obj)
  end.

(** The fields compared between a root and its entry in the index. *)
Definition same_snapshot (r : SnapshotRootObject) (e : SnapshotIndexEntry) : Prop :=
  sroot_snapshot_uuid r = sent_snapshot_uuid e ∧ sroot_root_path r = sent_root_path e
  ∧ sroot_origin_node_id r = sent_origin_node_id e ∧ sroot_created_at r = sent_created_at e
  ∧ sroot_total_size r = sent_total_size e ∧ sroot_total_files r = sent_total_files e.
#[export] Instance same_snapshot_dec r e : Decision (same_snapshot r e).
Proof. unfold same_snapshot. apply _. Defined.

Definition validate_snapshot (known_chunks : gmap pystr Z) (stack : nat) (recipe_chunks_by_hash : recipe_table)
    (entry : SnapshotIndexEntry) : res recipe_table :=
  _ ← refuse_if (bool_decide (sent_status entry ≠ COMPLETE) && bool_decide (sent_snapshot_root entry ≠ None));
  match sent_snapshot_root entry with
  | None => Ok recipe_chunks_by_hash
  | Some ref =>
      root_obj ← expect_object (ref_hash ref);
      _ ← refuse_if (bool_decide (¬ same_snapshot root_obj entry));
      _validate_tree known_chunks stack ∅ (ref_hash (sroot_root_tree root_obj)) recipe_chunks_by_hash
  end.

Definition _validate_snapshots (known_chunks : gmap pystr Z) (stack : nat) (snapshot_index : SnapshotIndexObject) : res unit :=
  _ ← fold_res (validate_snapshot known_chunks stack) ∅ (sidx_snapshots snapshot_index);
  Ok ().

(** ** The whole graph *)

(** [expected is not None and int(expected) != n] *)
Definition unexpected (expected : option Z) (n : Z) : bool :=
  match expected with Some e => bool_decide (e ≠ n) | None => false end.

Definition validate_typed (stack : nat) (catalog_hash : pystr)
    (expected_snapshot_count expected_known_chunk_count expected_protection_record_count : option Z) : res unit :=
  catalog ← expect_object catalog_hash;
  snapshot_index ← expect_object (ref_hash (cat_snapshot_index catalog));
  known_index ← expect_object (ref_hash (cat_known_chunk_index catalog));
  _ ← refuse_if (bool_decide (cat_snapshot_count catalog ≠ Z.of_nat (length (sidx_snapshots snapshot_index))));
  _ ← refuse_if (bool_decide (cat_known_chunk_count catalog ≠ kidx_total_chunks known_index));
  _ ← refuse_if (unexpected expected_snapshot_count (cat_snapshot_count catalog));
  _ ← refuse_if (unexpected expected_known_chunk_count (cat_known_chunk_count catalog));
  known_chunks ← read_known_chunks known_index;
  protection_records ← read_protection catalog known_chunks;
  _ ← refuse_if (unexpected expected_protection_record_count protection_records);
  _ ← _validate_erasure_data_packs catalog known_chunks;
  _validate_snapshots known_chunks stack snapshot_index.
End validation.

Definition validate_metadata_object_graph_semantics (blake3 : bytes → bytes) (stack : nat) (catalog_hash : pystr)
    (objects_by_hash : gmap pystr GraphObjectPayload)
    (expected_snapshot_count expected_known_chunk_count expected_protection_record_count : option Z) : res unit :=
  typed ← _typed_objects objects_by_hash;
  validate_typed blake3 typed stack catalog_hash expected_snapshot_count expected_known_chunk_count
    expected_protection_record_count.

(** ** What is accepted *)

Lemma fold_res_app {A B} (f : B → A → res B) l k b : fold_res f b (l ++ k) = b' ← fold_res f b l; fold_res f b' k.
Proof. revert b. induction l as [|x l IH]; intros b; cbn; [done|]. destruct (f b x); cbn; [apply IH|done]. Qed.

(** The decoded objects of a mapping: all of them. *)
Definition decoded (objects : gmap pystr GraphObjectPayload) (typed : gmap pystr MetadataPlainObject) : Prop :=
  ∀ h, match objects !! h with
       | Some item => ∃ o, typed !! h = Some o ∧ decode_metadata_object_payload (gop_object_type item) (gop_payload item) = Ok o
       | None => typed !! h = None
       end.

Section coherence.
Context (blake3 : bytes → bytes) (typed : gmap pystr MetadataPlainObject).

(** The object under a hash, of the class that the context wants. *)
Definition resolves {A} `{ObjectClass A} (h : pystr) (a : A) : Prop := typed !! h = Some (as_object a).

(** The shards of an index are there, with the announced prefixes and counts, and [l] are
    all their records. *)
Definition index_records {S A} `{ObjectClass S} (prefix : S → pystr) (records : S → list A)
    (shards : list IndexShardRef) (l : list A) : Prop :=
  ∃ ss, Forall2 (λ r s, resolves (ref_hash (ish_ref r)) s ∧ prefix s = ish_prefix r
                        ∧ Z.of_nat (length (records s)) = ish_count r) shards ss
        ∧ l = ss ≫= records.

(** No chunk is listed twice, and [known] is the table of them. *)
Definition known_coherent (idx : KnownChunkIndexObject) (known : gmap pystr Z) : Prop :=
  ∃ l, index_records kshard_prefix kshard_chunks (kidx_shards idx) l
    ∧ NoDup (kch_chunk_hash <$> l) ∧ Z.of_nat (length l) = kidx_total_chunks idx
    ∧ known = list_to_map ((λ r, (kch_chunk_hash r, kch_size r)) <$> l).

(** [n] protection records, of different known chunks. *)
Definition protection_coherent (catalog : CatalogObject) (known : gmap pystr Z) (n : Z) : Prop :=
  cat_protection_record_count catalog = n
  ∧ match cat_protection_index catalog with
    | None => n = 0%Z
    | Some ref => ∃ (idx : ProtectionIndexObject) l, resolves (ref_hash ref) idx
        ∧ index_records pshard_prefix pshard_records (pidx_shards idx) l
        ∧ NoDup (prot_chunk_hash <$> l) ∧ Forall (λ r, is_Some (known !! prot_chunk_hash r)) l
        ∧ Z.of_nat (length l) = n ∧ pidx_total_records idx = n
    end.

(** Different packs, of different known chunks at their known lengths. *)
Definition erasure_coherent (catalog : CatalogObject) (known : gmap pystr Z) : Prop :=
  match cat_erasure_data_pack_index catalog with
  | None => cat_erasure_data_pack_count catalog = 0%Z ∧ cat_erasure_data_pack_chunk_count catalog = 0%Z
      ∧ cat_erasure_data_pack_shard_count catalog = 0%Z
  | Some ref => ∃ (idx : ErasureDataPackIndexObject) l, resolves (ref_hash ref) idx
      ∧ index_records eshard_prefix eshard_records (eidx_shards idx) l
      ∧ NoDup (erec_pack_hash <$> l) ∧ NoDup (ech_chunk_hash <$> (l ≫= erec_chunks))
      ∧ Forall (λ c, known !! ech_chunk_hash c = Some (ech_length c)) (l ≫= erec_chunks)
      ∧ (cat_erasure_data_pack_count catalog = eidx_total_packs idx ∧ eidx_total_packs idx = Z.of_nat (length l))
      ∧ (cat_erasure_data_pack_chunk_count catalog = eidx_total_chunks idx
         ∧ eidx_total_chunks idx = Z.of_nat (length (l ≫= erec_chunks)))
      ∧ (cat_erasure_data_pack_shard_count catalog = eidx_total_shards idx
         ∧ eidx_total_shards idx = Z.of_nat (length (l ≫= erec_shards)))
  end.

(** The chunks of a file are known, at their sizes, and are those that [recipes] gives for
    the hash of its recipe, which is the hash of them. *)
Definition coherent_file (known : gmap pystr Z) (recipes : gmap pystr (list (Z * pystr * Z))) (e : TreeEntry) : Prop :=
  ∃ (f : FileObject) (r : RecipeObject) (c : ChunkListObject),
    resolves (ref_hash (tent_ref e)) f ∧ file_size f = tent_size e
    ∧ resolves (ref_hash (file_recipe f)) r ∧ file_recipe_hash f = recipe_recipe_hash r
    ∧ resolves (ref_hash (recipe_chunk_list r)) c
    ∧ Z.of_nat (length (chunk_tuples c)) = recipe_chunk_count r ∧ sum_sizes (chunk_tuples c) = recipe_total_size r
    ∧ compute_recipe_hash blake3 (chunk_tuples c) = Ok (recipe_recipe_hash r)
    ∧ recipes !! recipe_recipe_hash r = Some (chunk_tuples c)
    ∧ Forall (λ x, known !! x.1.2 = Some x.2) (chunk_tuples c).

(** A finite tree, so without cycles, of coherent files. *)
Inductive coherent_tree (known : gmap pystr Z) (recipes : gmap pystr (list (Z * pystr * Z))) (h : pystr) : Prop :=
  | CoherentTree (o : TreeObject) : resolves h o →
      (∀ e, e ∈ tree_entries o → tent_item_type e = ItemFile → coherent_file known recipes e) →
      (∀ e, e ∈ tree_entries o → tent_item_type e = ItemDir → coherent_tree known recipes (ref_hash (tent_ref e))) →
      coherent_tree known recipes h.

Definition coherent_snapshot (known : gmap pystr Z) (recipes : gmap pystr (list (Z * pystr * Z)))
    (e : SnapshotIndexEntry) : Prop :=
  match sent_snapshot_root e with
  | None => sent_status e ≠ COMPLETE
  | Some ref => sent_status e = COMPLETE ∧ ∃ r : SnapshotRootObject, resolves (ref_hash ref) r ∧ same_snapshot r e
      ∧ coherent_tree known recipes (ref_hash (sroot_root_tree r))
  end.

Definition coherent_graph (catalog_hash : pystr) (expected_snapshots expected_chunks expected_records : option Z) : Prop :=
  ∃ (catalog : CatalogObject) (sidx : SnapshotIndexObject) (kidx : KnownChunkIndexObject) known recipes n,
    resolves catalog_hash catalog
    ∧ resolves (ref_hash (cat_snapshot_index catalog)) sidx ∧ resolves (ref_hash (cat_known_chunk_index catalog)) kidx
    ∧ cat_snapshot_count catalog = Z.of_nat (length (sidx_snapshots sidx))
    ∧ cat_known_chunk_count catalog = kidx_total_chunks kidx
    ∧ unexpected expected_snapshots (cat_snapshot_count catalog) = false
    ∧ unexpected expected_chunks (cat_known_chunk_count catalog) = false
    ∧ unexpected expected_records n = false
    ∧ known_coherent kidx known ∧ protection_coherent catalog known n ∧ erasure_coherent catalog known
    ∧ Forall (coherent_snapshot known recipes) (sidx_snapshots sidx).

(** *** One loop at a time *)

Lemma expect_object_spec {A} `{ObjectClass A} h (a : A) : expect_object typed h = Ok a ↔ resolves h a.
Proof.
  unfold expect_object, _expect, resolves. destruct (typed !! h) as [o|]; [|done].
  case_bool_decide as E; cbn [mbind res_bind].
  - pose proof (is_instance_spec o a) as Hi. destruct (is_instance o) as [a'|]; naive_solver.
  - split; [done|]. intros [= ->]. by destruct E; apply class_type_spec.
Qed.

Lemma refuse_if_Ok c u : refuse_if c = Ok u ↔ c = false.
Proof. apply raise_if_Ok. Qed.

Lemma refuse_neq_Ok {A} `{EqDecision A} (x y : A) u : refuse_if (bool_decide (x ≠ y)) = Ok u ↔ x = y.
Proof. rewrite refuse_if_Ok, bool_decide_eq_false. split; [apply dec_stable|naive_solver]. Qed.

Lemma fold_res_cons {A B} (f : B → A → res B) b x l c : fold_res f b (x :: l) = Ok c ↔ ∃ b', f b x = Ok b' ∧ fold_res f b' l = Ok c.
Proof. apply bind_Ok. Qed.

Lemma open_shard_spec {S A} `{ObjectClass S} (prefix : S → pystr) (records : S → list A) r l :
  open_shard typed prefix records r = Ok l ↔
  ∃ s, (resolves (ref_hash (ish_ref r)) s ∧ prefix s = ish_prefix r ∧ Z.of_nat (length (records s)) = ish_count r)
       ∧ l = records s.
Proof.
  unfold open_shard. rewrite bind_Ok. setoid_rewrite expect_object_spec. setoid_rewrite bind_Ok.
  setoid_rewrite refuse_neq_Ok. setoid_rewrite bind_Ok. setoid_rewrite refuse_neq_Ok. naive_solver.
Qed.

(** The loop over the shards is the loop over all their records. *)
Lemma for_records_spec {S A B} `{ObjectClass S} (prefix : S → pystr) (records : S → list A) (step : B → A → res B) shards b b' :
  for_records typed prefix records step b shards = Ok b' ↔
  ∃ l, index_records prefix records shards l ∧ fold_res step b l = Ok b'.
Proof.
  unfold for_records, index_records. revert b. induction shards as [|r shards IH]; intros b.
  - split; [intros [= <-]; exists []; split; [by exists []|done]|].
    intros (l & (ss & Hs & ->) & Hf). apply Forall2_nil_inv_l in Hs as ->. exact Hf.
  - rewrite fold_res_cons. setoid_rewrite bind_Ok. setoid_rewrite open_shard_spec. setoid_rewrite IH. split.
    + intros (b1 & (l & (s & Hs & ->) & Hl) & k & (ss & Hss & ->) & Hk). exists ((s :: ss) ≫= records).
      split; [exists (s :: ss); split; [by constructor|done]|]. cbn. rewrite fold_res_app. cbn. by rewrite Hl.
    + intros (l & (ss & Hss & ->) & Hf). apply Forall2_cons_inv_l in Hss as (s & ss' & Hs & Hss & ->).
      cbn in Hf. rewrite fold_res_app, bind_Ok in Hf. destruct Hf as (b1 & H1 & H2).
      exists b1. split; [exists (records s); split; [by exists s|done]|]. exists (ss' ≫= records). split; [by exists ss'|done].
Qed.

Lemma index_records_count {S A} `{ObjectClass S} (prefix : S → pystr) (records : S → list A) shards l :
  index_records prefix records shards l → Z.of_nat (length l) = total_count shards.
Proof.
  intros (ss & Hs & ->). unfold total_count. cut (∀ acc, fold_left (λ acc s, acc + ish_count s)%Z shards acc
    = (acc + Z.of_nat (length (ss ≫= records)))%Z); [intros ->; lia|].
  induction Hs as [|r s shards ss (_ & _ & Hc) _ IH]; intros acc; cbn; [lia|].
  rewrite IH, length_app, Nat2Z.inj_add. lia.
Qed.

Notation known_table l := (list_to_map (M:=gmap pystr Z) ((λ r, (kch_chunk_hash r, kch_size r)) <$> l)).

Lemma add_known_chunk_new known r : known !! kch_chunk_hash r = None →
  add_known_chunk known r = Ok (<[kch_chunk_hash r := kch_size r]> known).
Proof. intros E. unfold add_known_chunk. by rewrite E. Qed.

Lemma fold_known_ok l known : NoDup (kch_chunk_hash <$> l) → Forall (λ r, known !! kch_chunk_hash r = None) l →
  fold_res add_known_chunk known l = Ok (known_table l ∪ known).
Proof.
  revert known. induction l as [|r l IH]; intros known Hnd Hl; cbn.
  - by rewrite (left_id_L ∅ (∪)).
  - apply NoDup_cons in Hnd as [Hr Hnd]. apply Forall_cons in Hl as [Hk Hl]. rewrite add_known_chunk_new by done. cbn.
    rewrite IH; [|done|].
    + f_equal. rewrite <-insert_union_l, insert_union_r; [done|]. apply not_elem_of_list_to_map_1.
      by rewrite <-list_fmap_compose.
    + rewrite Forall_forall in Hl |- *. intros r' Hr'. rewrite lookup_insert_ne; [by apply Hl|].
      intros E. apply Hr. rewrite E. by apply list_elem_of_fmap_2.
Qed.

(** The table is as large as the list only if the list repeats nothing. *)
Lemma fold_known_size l known known' : fold_res add_known_chunk known l = Ok known' →
  size known' ≤ size known + length l
  ∧ (size known' = size known + length l → NoDup (kch_chunk_hash <$> l) ∧ Forall (λ r, known !! kch_chunk_hash r = None) l).
Proof.
  revert known. induction l as [|r l IH]; intros known; cbn.
  - intros [= <-]. split; [lia|]. intros _. split; constructor.
  - intros H. apply bind_Ok in H as (k1 & Hk1 & H). unfold add_known_chunk in Hk1.
    apply bind_Ok in Hk1 as (u & _ & [= <-]). apply IH in H as [Hle Heq].
    destruct (known !! kch_chunk_hash r) as [z|] eqn:E.
    + rewrite map_size_insert_Some in Hle by eauto. split; [lia|]. rewrite map_size_insert_Some in Heq by eauto. lia.
    + rewrite map_size_insert_None in Hle, Heq by done. split; [lia|]. intros Hs.
      destruct Heq as [Hnd Hl]; [lia|]. rewrite Forall_forall in Hl. split; constructor; try done.
      * intros (r' & Er & Hr')%list_elem_of_fmap. specialize (Hl r' Hr'). by rewrite Er, lookup_insert_eq in Hl.
      * apply Forall_forall. intros r' Hr'. specialize (Hl r' Hr'). by apply lookup_insert_None in Hl as [? _].
Qed.

Lemma read_known_spec idx known : total_count (kidx_shards idx) = kidx_total_chunks idx →
  read_known_chunks typed idx = Ok known ↔ known_coherent idx known.
Proof.
  intros Htotal. unfold read_known_chunks, known_coherent. rewrite bind_Ok. setoid_rewrite for_records_spec. split.
  - intros (k & (l & Hl & Hf) & H). apply bind_Ok in H as (u & Hs & [= <-]). apply refuse_neq_Ok in Hs.
    pose proof (index_records_count _ _ _ _ Hl) as Hc. destruct (fold_known_size _ _ _ Hf) as [_ Hnd].
    rewrite map_size_empty in Hnd. destruct Hnd as [Hnd Hn]; [lia|]. exists l. split_and!; [done|done|lia|].
    rewrite (fold_known_ok l ∅ Hnd Hn), (right_id_L ∅ (∪)) in Hf. by injection Hf.
  - intros (l & Hl & Hnd & Hc & ->). exists (known_table l).
    assert (Forall (λ r, (∅ : gmap pystr Z) !! kch_chunk_hash r = None) l) as Hn
      by (apply Forall_true; intros; apply lookup_empty).
    pose proof (fold_known_ok l ∅ Hnd Hn) as Hf. rewrite (right_id_L ∅ (∪)) in Hf. split; [eauto|].
    rewrite bind_Ok. setoid_rewrite refuse_neq_Ok. exists (). split; [|done].
    rewrite <-Hc. f_equal. rewrite map_size_list_to_map; [by rewrite length_fmap|]. by rewrite <-list_fmap_compose.
Qed.

(** A loop that puts the keys of records in a set and refuses those that are there. *)
Definition sees {A} (step : gset pystr → A → res (gset pystr)) (key : A → pystr) (P : A → Prop) : Prop :=
  ∀ seen r seen', step seen r = Ok seen' ↔ key r ∉ seen ∧ P r ∧ seen' = {[key r]} ∪ seen.

Lemma fold_sees {A} step (key : A → pystr) P (Hstep : sees step key P) l seen seen' :
  fold_res step seen l = Ok seen' ↔
  NoDup (key <$> l) ∧ Forall (λ r, key r ∉ seen) l ∧ Forall P l ∧ seen' = list_to_set (key <$> l) ∪ seen.
Proof.
  revert seen. induction l as [|r l IH]; intros seen.
  - cbn. rewrite (left_id_L ∅ (∪)). split; [intros [= <-]; split_and!; [constructor..|done]|]. by intros (_ & _ & _ & ->).
  - rewrite fold_res_cons. setoid_rewrite (Hstep seen r). setoid_rewrite IH. cbn [fmap list_fmap list_to_set].
    rewrite NoDup_cons, !Forall_cons, list_elem_of_fmap. split.
    + intros (s & (Hr & HP & ->) & Hnd & Hl & HPl & ->). rewrite Forall_forall in Hl. split_and!; try done.
      * intros (r' & E & Hr'). apply (Hl r' Hr'). rewrite <-E. set_solver.
      * apply Forall_forall. intros r' Hr' Hin. apply (Hl r' Hr'). set_solver.
      * set_solver.
    + intros ((Hk & Hnd) & (Hr & Hl) & (HP & HPl) & ->). exists ({[key r]} ∪ seen). rewrite Forall_forall in Hl.
      split_and!; try done; [|set_solver]. apply Forall_forall. intros r' Hr' Hin. apply elem_of_union in Hin as [Hin|Hin].
      * apply elem_of_singleton in Hin. naive_solver.
      * by apply (Hl r').
Qed.

Lemma size_seen {A} (key : A → pystr) l : NoDup (key <$> l) → size (list_to_set (C:=gset pystr) (key <$> l) ∪ ∅) = length l.
Proof. intros H. rewrite (right_id_L ∅ (∪)), size_list_to_set by done. apply length_fmap. Qed.

Lemma see_protection_sees known : sees (see_protection known) prot_chunk_hash (λ r, is_Some (known !! prot_chunk_hash r)).
Proof.
  intros seen r seen'. unfold see_protection, refuse_if, raise_if. rewrite <-not_eq_None_Some.
  repeat case_bool_decide; cbn; naive_solver.
Qed.

Lemma see_pack_chunk_sees known : sees (see_pack_chunk known) ech_chunk_hash (λ c, known !! ech_chunk_hash c = Some (ech_length c)).
Proof.
  intros seen c seen'. unfold see_pack_chunk, refuse_if, raise_if. destruct (known !! ech_chunk_hash c) as [z|]; [|naive_solver].
  repeat case_bool_decide; cbn; naive_solver.
Qed.

Lemma read_protection_spec catalog known n : read_protection typed catalog known = Ok n ↔ protection_coherent catalog known n.
Proof.
  unfold read_protection, protection_coherent. destruct (cat_protection_index catalog) as [ref|].
  - rewrite bind_Ok. setoid_rewrite expect_object_spec. split.
    + intros (idx & Hidx & H). apply bind_Ok in H as (u & Hc%refuse_neq_Ok & H).
      apply bind_Ok in H as (seen & Hs & H). apply bind_Ok in H as (u' & Ht%refuse_neq_Ok & [= <-]).
      apply for_records_spec in Hs as (l & Hl & Hf). apply (fold_sees _ _ _ (see_protection_sees known)) in Hf as (Hnd & _ & HP & ->).
      rewrite size_seen in Ht |- * by done. split; [lia|]. exists idx, l. by split_and!.
    + intros (Hc & idx & l & Hidx & Hl & Hnd & HP & Hn & Ht). exists idx. split; [done|].
      rewrite bind_Ok. exists (). split; [apply refuse_neq_Ok; lia|]. rewrite bind_Ok.
      exists (list_to_set (prot_chunk_hash <$> l) ∪ ∅). split.
      * apply for_records_spec. exists l. split; [done|]. apply (fold_sees _ _ _ (see_protection_sees known)).
        split_and!; try done. apply Forall_true. intros. apply not_elem_of_empty.
      * cbn zeta. rewrite size_seen by done. rewrite bind_Ok. exists (). split; [apply refuse_neq_Ok; lia|congruence].
  - rewrite bind_Ok. setoid_rewrite refuse_neq_Ok. split; [intros (_ & -> & [= <-]); done|intros [-> ->]; by exists ()].
Qed.

Lemma see_pack_spec known s r s' : see_pack known s r = Ok s' ↔
  erec_pack_hash r ∉ seen_packs s
  ∧ NoDup (ech_chunk_hash <$> erec_chunks r) ∧ Forall (λ c, ech_chunk_hash c ∉ seen_chunks s) (erec_chunks r)
  ∧ Forall (λ c, known !! ech_chunk_hash c = Some (ech_length c)) (erec_chunks r)
  ∧ s' = {| seen_packs := {[erec_pack_hash r]} ∪ seen_packs s;
            seen_chunks := list_to_set (ech_chunk_hash <$> erec_chunks r) ∪ seen_chunks s;
            chunk_count := chunk_count s + Z.of_nat (length (erec_chunks r));
            shard_count := shard_count s + Z.of_nat (length (erec_shards r)) |}.
Proof.
  unfold see_pack. rewrite bind_Ok. setoid_rewrite refuse_if_Ok. setoid_rewrite bool_decide_eq_false.
  setoid_rewrite bind_Ok. setoid_rewrite (fold_sees _ _ _ (see_pack_chunk_sees known)). split.
  - intros (_ & Hp & seen & (Hnd & Hn & Hk & ->) & [= <-]). done.
  - intros (Hp & Hnd & Hn & Hk & ->). exists (). split; [done|]. eexists. by split_and!.
Qed.

Lemma not_seen_after {A} (key : A → pystr) (l k : list A) (seen : gset pystr) :
  Forall (λ c, key c ∉ list_to_set (C:=gset pystr) (key <$> l) ∪ seen) k ↔
  (∀ x, x ∈ key <$> l → x ∉ key <$> k) ∧ Forall (λ c, key c ∉ seen) k.
Proof.
  rewrite !Forall_forall. setoid_rewrite not_elem_of_union. setoid_rewrite elem_of_list_to_set. split.
  - intros H. split; [|by intros c Hc; apply H]. intros x Hx (c & -> & Hc)%list_elem_of_fmap. destruct (H c Hc) as [Hn _]. apply Hn. done.
  - intros [Hd Hs] c Hc. split; [|by apply Hs]. intros Hx. apply (Hd _ Hx). by apply list_elem_of_fmap_2.
Qed.

Lemma fold_packs known l s s' : fold_res (see_pack known) s l = Ok s' ↔
  (NoDup (erec_pack_hash <$> l) ∧ Forall (λ r, erec_pack_hash r ∉ seen_packs s) l)
  ∧ (NoDup (ech_chunk_hash <$> (l ≫= erec_chunks)) ∧ Forall (λ c, ech_chunk_hash c ∉ seen_chunks s) (l ≫= erec_chunks))
  ∧ Forall (λ c, known !! ech_chunk_hash c = Some (ech_length c)) (l ≫= erec_chunks)
  ∧ s' = {| seen_packs := list_to_set (erec_pack_hash <$> l) ∪ seen_packs s;
            seen_chunks := list_to_set (ech_chunk_hash <$> (l ≫= erec_chunks)) ∪ seen_chunks s;
            chunk_count := chunk_count s + Z.of_nat (length (l ≫= erec_chunks));
            shard_count := shard_count s + Z.of_nat (length (l ≫= erec_shards)) |}.
Proof.
  revert s. induction l as [|r l IH]; intros s.
  - cbn. rewrite !(left_id_L ∅ (∪)), !Z.add_0_r. destruct s. split; [intros [= <-]; repeat constructor|naive_solver].
  - rewrite fold_res_cons. setoid_rewrite see_pack_spec. setoid_rewrite IH. cbn [mbind list_bind].
    rewrite !fmap_app, !NoDup_app, !Forall_app. cbn [fmap list_fmap list_to_set].
    rewrite NoDup_cons, Forall_cons, !length_app, !Nat2Z.inj_add, list_to_set_app_L. split.
    + intros (s1 & (Hp & Hnd & Hn & Hk & ->) & (Hnd2 & Hn2) & (Hnd3 & Hn3) & Hk3 & ->). cbn in *.
      apply not_seen_after in Hn3 as [Hd Hn3]. change {[erec_pack_hash r]} with ({[erec_pack_hash r]} : gset pystr) in Hn2.
      rewrite Forall_forall in Hn2. setoid_rewrite not_elem_of_union in Hn2. setoid_rewrite not_elem_of_singleton in Hn2.
      split_and!; try done; [|apply Forall_forall; naive_solver|].
      * rewrite list_elem_of_fmap. naive_solver.
      * f_equal; [set_solver|set_solver|lia|lia].
    + intros (([Hp2 Hnd2] & Hp & Hn2) & ((Hnd & Hd & Hnd3) & Hn & Hn3) & (Hk & Hk3) & ->).
      eexists. split; [by split_and!|]. cbn. rewrite not_seen_after.
      split_and!; try done.
      * rewrite list_elem_of_fmap in Hp2. apply Forall_forall. intros r' Hr'. rewrite Forall_forall in Hn2.
        apply not_elem_of_union. split; [|by apply Hn2]. apply not_elem_of_singleton. naive_solver.
      * f_equal; [set_solver|set_solver|lia|lia].
Qed.

Lemma erasure_spec catalog known : _validate_erasure_data_packs typed catalog known = Ok () ↔ erasure_coherent catalog known.
Proof.
  unfold _validate_erasure_data_packs, erasure_coherent. destruct (cat_erasure_data_pack_index catalog) as [ref|].
  2:{ rewrite refuse_if_Ok, !orb_false_iff, !bool_decide_eq_false. split.
      - intros [[H1 H2] H3]. split_and!; by apply dec_stable.
      - naive_solver. }
  rewrite bind_Ok. setoid_rewrite expect_object_spec. split.
  - intros (idx & Hidx & H). apply bind_Ok in H as (u & Hc & H). rewrite refuse_if_Ok, !orb_false_iff, !bool_decide_eq_false in Hc.
    apply bind_Ok in H as (s & Hs & H). apply bind_Ok in H as (u1 & H1%refuse_neq_Ok & H).
    apply bind_Ok in H as (u2 & H2%refuse_neq_Ok & H3%refuse_neq_Ok). destruct Hc as [[Hc1%dec_stable Hc2%dec_stable] Hc3%dec_stable].
    apply for_records_spec in Hs as (l & Hl & Hf). apply fold_packs in Hf as ((Hnd & _) & (Hnd' & _) & Hk & ->).
    cbn in H1, H2, H3. rewrite size_seen in H1 by done. exists idx, l. by split_and!.
  - intros (idx & l & Hidx & Hl & Hnd & Hnd' & Hk & [Hc1 H1] & [Hc2 H2] & [Hc3 H3]). exists idx. split; [done|].
    rewrite bind_Ok. exists (). split; [rewrite refuse_if_Ok, !orb_false_iff, !bool_decide_eq_false; naive_solver|].
    rewrite bind_Ok. eexists. split.
    + apply for_records_spec. exists l. split; [done|]. apply fold_packs. split_and!; try reflexivity; try done.
      all: apply Forall_true; intros; apply not_elem_of_empty.
    + cbn. rewrite size_seen by done. rewrite bind_Ok. exists (). rewrite refuse_neq_Ok. split; [done|].
      rewrite bind_Ok. exists (). by rewrite !refuse_neq_Ok.
Qed.

(** *** Trees and snapshots *)

Notation recipe_table := (gmap pystr (list (Z * pystr * Z))).
Implicit Types (recipes : recipe_table) (known : gmap pystr Z).

(** A loop that fills in the table of recipes: [P] is what a table makes of an item. *)
Section grows.
Context {A : Type} (step : recipe_table → A → res recipe_table) (P : recipe_table → A → Prop) (l : list A).

Lemma fold_grows recipes recipes' :
  (∀ r r' x, r ⊆ r' → P r x → P r' x) →
  (∀ r x r', x ∈ l → step r x = Ok r' → r ⊆ r' ∧ P r' x) →
  fold_res step recipes l = Ok recipes' → recipes ⊆ recipes' ∧ ∀ x, x ∈ l → P recipes' x.
Proof.
  intros Hmono. revert recipes. induction l as [|x k IH]; intros recipes Hstep.
  - intros [= <-]. split; [done|]. by intros x Hx%elem_of_nil.
  - intros (r1 & H1 & H)%fold_res_cons. apply Hstep in H1 as [Hsub Hx]; [|by left].
    apply IH in H as [Hsub' Hall]; [|by intros r y r' Hy; apply Hstep; right]. split; [by etransitivity|].
    intros y [->|Hy]%elem_of_cons; [by eapply Hmono|by apply Hall].
Qed.

Lemma fold_fills table recipes :
  (∀ r x, x ∈ l → P table x → r ⊆ table → ∃ r', step r x = Ok r' ∧ r' ⊆ table) →
  (∀ x, x ∈ l → P table x) → recipes ⊆ table → ∃ recipes', fold_res step recipes l = Ok recipes' ∧ recipes' ⊆ table.
Proof.
  revert recipes. induction l as [|x k IH]; intros recipes Hstep Hall Hsub.
  - by exists recipes.
  - setoid_rewrite fold_res_cons. destruct (Hstep recipes x) as (r1 & H1 & Hsub1); [by left|apply Hall; by left|done|].
    destruct (IH r1) as (r2 & H2 & Hsub2); [by intros r y Hy; apply Hstep; right|by intros y Hy; apply Hall; right|done|].
    exists r2. split; [by exists r1|done].
Qed.
End grows.

Lemma for_all_Ok {A} (check : A → res unit) l u : for_all check l = Ok u ↔ Forall (λ x, check x = Ok ()) l.
Proof.
  destruct u. induction l as [|x l IH]; cbn; [split; [constructor|done]|]. rewrite bind_Ok, Forall_cons, <-IH. split.
  - intros ([] & ? & ?). done.
  - intros [? ?]. by exists ().
Qed.

Lemma check_chunk_known_Ok known c : check_chunk_known known c = Ok () ↔ known !! c.1.2 = Some c.2.
Proof.
  unfold check_chunk_known. destruct (known !! c.1.2) as [z|]; [|done]. rewrite refuse_neq_Ok. split; [by intros ->|by intros [= ->]].
Qed.

Lemma file_grows known recipes e recipes' :
  validate_file blake3 typed known recipes e = Ok recipes' → recipes ⊆ recipes' ∧ coherent_file known recipes' e.
Proof.
  unfold validate_file. intros H. apply bind_Ok in H as (f & Hf%expect_object_spec & H).
  apply bind_Ok in H as (u1 & H1%refuse_neq_Ok & H). apply bind_Ok in H as (r & Hr%expect_object_spec & H).
  apply bind_Ok in H as (u2 & H2%refuse_neq_Ok & H). apply bind_Ok in H as (c & Hc%expect_object_spec & H).
  cbn zeta in H. apply bind_Ok in H as (u3 & H3%refuse_neq_Ok & H). apply bind_Ok in H as (u4 & H4%refuse_neq_Ok & H).
  apply bind_Ok in H as (h & Hh & H). apply bind_Ok in H as (u5 & ->%refuse_neq_Ok & H).
  apply bind_Ok in H as (u6 & H6%refuse_if_Ok & H). apply bind_Ok in H as (u7 & H7%for_all_Ok & [= <-]).
  setoid_rewrite check_chunk_known_Ok in H7. split.
  - destruct (recipes !! _) eqn:E; [done|]. by apply insert_subseteq.
  - exists f, r, c. split_and!; try done. destruct (recipes !! _) as [p|] eqn:E; [|apply lookup_insert_eq].
    apply bool_decide_eq_false, dec_stable in H6. by subst.
Qed.

Lemma file_fills known table recipes e : coherent_file known table e → recipes ⊆ table →
  ∃ recipes', validate_file blake3 typed known recipes e = Ok recipes' ∧ recipes' ⊆ table.
Proof.
  intros (f & r & c & Hf & H1 & Hr & H2 & Hc & H3 & H4 & Hh & Ht & Hk) Hsub. unfold validate_file.
  apply expect_object_spec in Hf, Hr, Hc. rewrite Hf. cbn. rewrite (proj2 (refuse_neq_Ok _ _ ()) H1). cbn. rewrite Hr. cbn.
  rewrite (proj2 (refuse_neq_Ok _ _ ()) H2). cbn. rewrite Hc. cbn. rewrite (proj2 (refuse_neq_Ok _ _ ()) H3). cbn.
  rewrite (proj2 (refuse_neq_Ok _ _ ()) H4). cbn. rewrite Hh. cbn. rewrite (proj2 (refuse_neq_Ok _ _ ()) eq_refl). cbn.
  setoid_rewrite <-check_chunk_known_Ok in Hk. apply (for_all_Ok _ _ ()) in Hk.
  destruct (recipes !! recipe_recipe_hash r) as [p|] eqn:E.
  - assert (p = chunk_tuples c) as -> by (eapply lookup_weaken in E; [|done]; congruence).
    rewrite (proj2 (refuse_neq_Ok _ _ ()) eq_refl). cbn. rewrite Hk. by exists recipes.
  - cbn. rewrite Hk. cbn. eexists. split; [done|]. by apply insert_subseteq_l.
Qed.

Lemma coherent_file_mono known r r' e : r ⊆ r' → coherent_file known r e → coherent_file known r' e.
Proof.
  intros Hsub (f & o & c & ? & ? & ? & ? & ? & ? & ? & ? & Ht & ?). exists f, o, c. split_and!; try done.
  by eapply lookup_weaken.
Qed.

Lemma coherent_tree_mono known r r' h : r ⊆ r' → coherent_tree known r h → coherent_tree known r' h.
Proof.
  intros Hsub. induction 1 as [h o Ho Hf _ IH]. apply (CoherentTree _ _ _ o); [done| |done].
  intros e He Ht. by eapply coherent_file_mono, Hf.
Qed.

Definition coherent_entry known recipes (e : TreeEntry) : Prop :=
  match tent_item_type e with
  | ItemFile => coherent_file known recipes e
  | ItemDir => coherent_tree known recipes (ref_hash (tent_ref e))
  end.

Lemma coherent_entry_mono known r r' e : r ⊆ r' → coherent_entry known r e → coherent_entry known r' e.
Proof. unfold coherent_entry. destruct (tent_item_type e); [apply coherent_file_mono|apply coherent_tree_mono]. Qed.

Lemma coherent_tree_entries known recipes h :
  coherent_tree known recipes h ↔ ∃ o : TreeObject, resolves h o ∧ ∀ e, e ∈ tree_entries o → coherent_entry known recipes e.
Proof.
  split.
  - intros [o Ho Hf Hd]. exists o. split; [done|]. intros e He. unfold coherent_entry.
    destruct (tent_item_type e) eqn:E; [by apply Hf|by apply Hd].
  - intros (o & Ho & H). apply (CoherentTree _ _ _ o); [done|..]; intros e He Ht; specialize (H e He);
      unfold coherent_entry in H; by rewrite Ht in H.
Qed.

Notation validate_tree := (_validate_tree blake3 typed).

Lemma tree_grows known stack active h recipes recipes' :
  validate_tree known stack active h recipes = Ok recipes' → recipes ⊆ recipes' ∧ coherent_tree known recipes' h.
Proof.
  revert active h recipes recipes'. induction stack as [|stack IH]; intros active h recipes recipes'; cbn [_validate_tree]; [done|].
  intros H. apply bind_Ok in H as (u & _ & H). apply bind_Ok in H as (o & Ho%expect_object_spec & H).
  apply (fold_grows _ (coherent_entry known)) in H as [Hsub H]; [| |].
  - split; [done|]. apply coherent_tree_entries. by exists o.
  - intros r r' e. apply coherent_entry_mono.
  - intros r e r' _. unfold coherent_entry. destruct (tent_item_type e); [apply file_grows|apply IH].
Qed.

(** [h] is the hash of a directory that the tree [h'] lists. *)
Definition subtree (h h' : pystr) : Prop :=
  ∃ (o : TreeObject) e, resolves h' o ∧ e ∈ tree_entries o ∧ tent_item_type e = ItemDir ∧ h = ref_hash (tent_ref e).

Lemma coherent_tree_acyclic known recipes h : coherent_tree known recipes h → ¬ tc subtree h h.
Proof.
  induction 1 as [h o Ho _ _ IH]. intros Hc. cut (∀ h', tc subtree h' h → ∃ h1, subtree h1 h ∧ rtc subtree h' h1).
  - intros Hcut. destruct (Hcut h Hc) as (h1 & Hs & Hr). pose proof Hs as (o' & e & Ho' & He & Ht & ->).
    unfold resolves in Ho, Ho'. rewrite Ho in Ho'. injection Ho' as <-. apply (IH e He Ht). eapply tc_rtc_r; [apply tc_once; exact Hs|exact Hr].
  - intros h' Ht. induction Ht as [x y Hxy|x y z Hxy Hyz IHt]; [exists x; split; [done|apply rtc_refl]|].
    destruct IHt as (h1 & Hh1 & Hr); [done..|]. exists h1. split; [done|]. by eapply rtc_l.
Qed.

(** A stack deeper than the number of objects is enough. *)
Definition enough_stack (stack : nat) (active : gset pystr) : Prop := active ⊆ dom typed ∧ size typed < stack + size active.

Lemma enough_stack_pos active : ¬ enough_stack 0 active.
Proof. intros [Hsub Hlt]. apply subseteq_size in Hsub. rewrite size_dom in Hsub. lia. Qed.

Lemma enough_stack_down stack active h : enough_stack (S stack) active → h ∉ active → is_Some (typed !! h) →
  enough_stack stack ({[h]} ∪ active).
Proof.
  intros [Hsub Hlt] Hh Hin. split; [apply elem_of_dom in Hin; set_solver|].
  rewrite size_union by set_solver. rewrite size_singleton. lia.
Qed.

Lemma tree_fills known table stack active h recipes :
  coherent_tree known table h → (∀ a, a ∈ active → tc subtree h a) → enough_stack stack active → recipes ⊆ table →
  ∃ recipes', validate_tree known stack active h recipes = Ok recipes' ∧ recipes' ⊆ table.
Proof.
  revert active h recipes. induction stack as [|stack IH]; intros active h recipes Ht Hact Hst Hsub.
  { by apply enough_stack_pos in Hst. }
  assert (h ∉ active) as Hh by (intros Hh; by apply (coherent_tree_acyclic _ _ _ Ht), Hact).
  pose proof Ht as (o & Ho & He)%coherent_tree_entries. cbn [_validate_tree]. rewrite bool_decide_false by done. cbn.
  rewrite (proj2 (expect_object_spec h o) Ho). cbn. apply (fold_fills _ (coherent_entry known)); [|done|done].
  intros r e Hin. unfold coherent_entry. destruct (tent_item_type e) eqn:Ek; [apply file_fills|].
  intros Hc. apply IH; [done| |eapply enough_stack_down; [done..|by rewrite Ho]].
  assert (subtree (ref_hash (tent_ref e)) h) as Hs by (exists o, e; done).
  intros a [->%elem_of_singleton|Ha]%elem_of_union; [by apply tc_once|]. eapply tc_l; [done|by apply Hact].
Qed.

Definition rooted (e : SnapshotIndexEntry) : Prop := sent_snapshot_root e = None → sent_status e ≠ COMPLETE.

Lemma snapshot_grows known stack recipes e recipes' : rooted e →
  validate_snapshot blake3 typed known stack recipes e = Ok recipes' → recipes ⊆ recipes' ∧ coherent_snapshot known recipes' e.
Proof.
  unfold validate_snapshot, coherent_snapshot, rooted. intros Hroot H. apply bind_Ok in H as (u & Hu%refuse_if_Ok & H).
  destruct (sent_snapshot_root e) as [ref|]; [|injection H as <-; by split; [|apply Hroot]].
  rewrite andb_false_iff, !bool_decide_eq_false in Hu.
  apply bind_Ok in H as (r & Hr%expect_object_spec & H). apply bind_Ok in H as (u' & Hs%refuse_if_Ok & H).
  apply bool_decide_eq_false, dec_stable in Hs. apply tree_grows in H as [Hsub Ht]. split; [done|].
  split; [destruct Hu as [Hu|Hu]; [by apply dec_stable|by destruct Hu]|]. by exists r.
Qed.

Lemma snapshot_fills known table stack recipes e : coherent_snapshot known table e → enough_stack stack ∅ → recipes ⊆ table →
  ∃ recipes', validate_snapshot blake3 typed known stack recipes e = Ok recipes' ∧ recipes' ⊆ table.
Proof.
  unfold validate_snapshot, coherent_snapshot. intros H Hst Hsub. destruct (sent_snapshot_root e) as [ref|].
  2:{ rewrite (bool_decide_false (None ≠ None)) by naive_solver. rewrite andb_false_r. by exists recipes. }
  destruct H as (-> & r & Hr & Hs & Ht). rewrite (bool_decide_false (COMPLETE ≠ COMPLETE)) by naive_solver. cbn.
  rewrite (proj2 (expect_object_spec _ r) Hr). cbn. rewrite bool_decide_false by naive_solver. cbn.
  by apply tree_fills.
Qed.

Lemma coherent_snapshot_mono known r r' e : r ⊆ r' → coherent_snapshot known r e → coherent_snapshot known r' e.
Proof.
  intros Hsub. unfold coherent_snapshot. destruct (sent_snapshot_root e) as [ref|]; [|done]. intros (? & o & ? & ? & ?).
  split; [done|]. exists o. split_and!; try done. by eapply coherent_tree_mono.
Qed.

Lemma snapshots_spec known stack idx : enough_stack stack ∅ → Forall rooted (sidx_snapshots idx) →
  _validate_snapshots blake3 typed known stack idx = Ok () ↔ ∃ recipes, Forall (coherent_snapshot known recipes) (sidx_snapshots idx).
Proof.
  intros Hst Hroot. rewrite Forall_forall in Hroot. unfold _validate_snapshots. rewrite bind_Ok. setoid_rewrite Forall_forall. split.
  - intros (recipes & H & _). exists recipes. apply (fold_grows _ (coherent_snapshot known)) in H as [_ H]; [done| |].
    + intros r r' e. apply coherent_snapshot_mono.
    + intros r e r' He. by apply snapshot_grows, Hroot.
  - intros (table & H). destruct (fold_fills (validate_snapshot blake3 typed known stack) (coherent_snapshot known)
      (sidx_snapshots idx) table ∅) as (r & Hr & _); [| |apply map_empty_subseteq|by exists r].
    + intros r e _ He Hsub. by apply snapshot_fills.
    + done.
Qed.

(** *** The checks in sequence *)

Lemma unexpected_Ok expected n u : refuse_if (unexpected expected n) = Ok u ↔ unexpected expected n = false.
Proof. apply refuse_if_Ok. Qed.

Lemma typed_spec stack catalog_hash e1 e2 e3 : enough_stack stack ∅ → (∀ h o, typed !! h = Some o → valid_object o) →
  validate_typed blake3 typed stack catalog_hash e1 e2 e3 = Ok () ↔ coherent_graph catalog_hash e1 e2 e3.
Proof.
  intros Hst Hvalid. unfold validate_typed, coherent_graph. rewrite bind_Ok. setoid_rewrite expect_object_spec.
  assert (∀ h (idx : KnownChunkIndexObject), resolves h idx → total_count (kidx_shards idx) = kidx_total_chunks idx) as Hk.
  { intros h idx Hidx. apply Hvalid in Hidx as [Hc _]. unfold check_known_chunk_index, check_index in Hc.
    apply bind_Ok in Hc as (u1 & _ & Hc). apply bind_Ok in Hc as (u2 & _ & Hc). by apply refuse_neq_Ok in Hc. }
  assert (∀ h (idx : SnapshotIndexObject), resolves h idx → Forall rooted (sidx_snapshots idx)) as Hr.
  { intros h idx Hidx. apply Hvalid in Hidx as [_ Hc]. eapply Forall_impl; [exact Hc|]. intros e [He _] Hnone Hs.
    unfold check_snapshot_entry in He. repeat (apply bind_Ok in He as (? & _ & He)). apply refuse_if_Ok in He.
    by rewrite Hnone, Hs in He. }
  split.
  - intros (c & Hc & H). apply bind_Ok in H as (s & Hs%expect_object_spec & H). apply bind_Ok in H as (k & Hki%expect_object_spec & H).
    apply bind_Ok in H as (u1 & H1%refuse_neq_Ok & H). apply bind_Ok in H as (u2 & H2%refuse_neq_Ok & H).
    apply bind_Ok in H as (u3 & H3%unexpected_Ok & H). apply bind_Ok in H as (u4 & H4%unexpected_Ok & H).
    apply bind_Ok in H as (known & Hkn & H). apply bind_Ok in H as (n & Hn%read_protection_spec & H).
    apply bind_Ok in H as (u5 & H5%unexpected_Ok & H). apply bind_Ok in H as ([] & He%erasure_spec & H).
    apply read_known_spec in Hkn; [|by eapply Hk]. apply snapshots_spec in H as [recipes H]; [|done|by eapply Hr].
    exists c, s, k, known, recipes, n. by split_and!.
  - intros (c & s & k & known & recipes & n & Hc & Hs & Hki & H1 & H2 & H3 & H4 & H5 & Hkn & Hn & He & Hsn).
    exists c. split; [done|]. apply (read_known_spec _ _ (Hk _ _ Hki)) in Hkn. apply read_protection_spec in Hn.
    apply erasure_spec in He. apply expect_object_spec in Hs, Hki. rewrite Hs. cbn. rewrite Hki. cbn.
    rewrite (proj2 (refuse_neq_Ok _ _ ()) H1). cbn. rewrite (proj2 (refuse_neq_Ok _ _ ()) H2). cbn.
    rewrite H3, H4. cbn. rewrite Hkn. cbn. rewrite Hn. cbn. rewrite H5. cbn. rewrite He. cbn.
    apply snapshots_spec; [done| |by exists recipes]. apply expect_object_spec in Hs. by eapply Hr.
Qed.

(** *** Which errors there are *)

(** The recursion limit is not reached. *)
Definition shallow {A} (m : res A) : Prop := m ≠ Err RecursionError.

Lemma shallow_bind {A B} (m : res A) (f : A → res B) : shallow m → (∀ a, m = Ok a → shallow (f a)) → shallow (m ≫= f).
Proof. unfold shallow. destruct m as [a|e]; cbn; [auto|congruence]. Qed.

Lemma shallow_fold {A B} (f : B → A → res B) l b : (∀ b x, x ∈ l → shallow (f b x)) → shallow (fold_res f b l).
Proof.
  revert b. induction l as [|x l IH]; intros b Hf; cbn; [done|].
  apply shallow_bind; [apply Hf; by left|]. intros b' _. apply IH. intros b'' y Hy. apply Hf. by right.
Qed.

Lemma shallow_mapM {A B} (f : A → res B) l : (∀ x, shallow (f x)) → shallow (mapM_res f l).
Proof.
  intros Hf. induction l as [|x l IH]; cbn; [done|]. apply shallow_bind; [apply Hf|]. intros y _. by apply shallow_bind.
Qed.

Lemma shallow_for_all {A} (f : A → res unit) l : (∀ x, shallow (f x)) → shallow (for_all f l).
Proof. intros Hf. induction l as [|x l IH]; cbn; [done|]. by apply shallow_bind. Qed.

Lemma shallow_refuse c : shallow (refuse_if c).
Proof. by destruct c. Qed.

Lemma shallow_expect {A} `{ObjectClass A} h : shallow (expect_object (A:=A) typed h).
Proof.
  unfold expect_object, _expect. apply shallow_bind; [|intros o _; by destruct (is_instance o)].
  destruct (typed !! h); [|done]. by case_bool_decide.
Qed.

Lemma shallow_fromhex s : shallow (fromhex s).
Proof.
  cut (∀ n s, length s ≤ n → shallow (fromhex s)); [intros H; by eapply H|]. clear s.
  induction n as [|n IH]; intros [|c s] Hs; cbn in Hs |- *; try done; [lia|].
  destruct (is_ascii_space c); [apply IH; lia|]. destruct s as [|d s]; [done|].
  destruct (hex_value c), (hex_value d); try done. apply shallow_bind; [|done]. apply IH. cbn in Hs. lia.
Qed.

Lemma shallow_recipe_hash chunks : shallow (compute_recipe_hash blake3 chunks).
Proof.
  apply shallow_bind; [|done]. apply shallow_mapM. intros [[order h] size].
  apply shallow_bind; [unfold to_bytes_be; by destruct (_ || _)|]. intros a _.
  apply shallow_bind; [apply shallow_fromhex|]. intros b _.
  apply shallow_bind; [unfold to_bytes_be; by destruct (_ || _)|done].
Qed.

Ltac shallow :=
  repeat first
    [ apply shallow_refuse | apply shallow_expect | apply shallow_recipe_hash | apply shallow_bind
    | apply shallow_fold | apply shallow_for_all | progress intros | progress cbn zeta
    | match goal with |- shallow (match ?x with _ => _ end) => destruct x end
    | done ].

Lemma shallow_file known recipes e : shallow (validate_file blake3 typed known recipes e).
Proof.
  unfold validate_file, check_chunk_known. shallow.
Qed.

Lemma shallow_tree known stack active h recipes : enough_stack stack active →
  shallow (validate_tree known stack active h recipes).
Proof.
  revert active h recipes. induction stack as [|stack IH]; intros active h recipes Hst; [by apply enough_stack_pos in Hst|].
  cbn [_validate_tree]. apply shallow_bind; [apply shallow_refuse|]. intros u Hh%refuse_if_Ok%bool_decide_eq_false.
  apply shallow_bind; [apply shallow_expect|]. intros o Ho%expect_object_spec. apply shallow_fold. intros r e He.
  destruct (tent_item_type e); [apply shallow_file|]. apply IH, enough_stack_down; [done..|by rewrite Ho].
Qed.

Lemma shallow_typed stack catalog_hash e1 e2 e3 : enough_stack stack ∅ →
  shallow (validate_typed blake3 typed stack catalog_hash e1 e2 e3).
Proof.
  intros Hst. unfold validate_typed, read_known_chunks, for_records, open_shard, add_known_chunk, read_protection,
    see_protection, _validate_erasure_data_packs, see_pack, see_pack_chunk, _validate_snapshots, validate_snapshot.
  shallow; by apply shallow_tree.
Qed.
End coherence.

(** ** The objects of a mapping *)

Lemma typed_item_Ok kv p : typed_item kv = Ok p ↔
  p.1 = kv.1 ∧ decode_metadata_object_payload (gop_object_type kv.2) (gop_payload kv.2) = Ok p.2.
Proof.
  unfold typed_item. destruct p as [h o], (decode_metadata_object_payload _ _) as [o'|e]; cbn; split; try done.
  - by intros [= <- <-].
  - by intros [-> [= ->]].
  - by intros [_ ?].
Qed.

Lemma decoded_unique objects t t' : decoded objects t → decoded objects t' → t = t'.
Proof.
  intros H H'. apply map_eq. intros h. specialize (H h). specialize (H' h). destruct (objects !! h) as [item|]; [|congruence].
  destruct H as (o & -> & Ho). destruct H' as (o' & -> & Ho'). congruence.
Qed.

Lemma items_decoded objects out : Forall2 (λ kv p, typed_item kv = Ok p) (map_to_list objects) out →
  decoded objects (list_to_map out).
Proof.
  intros Hout. assert (out.*1 = (map_to_list objects).*1) as Hk.
  { induction Hout as [|kv p l k Hp _ IH]; [done|]. apply typed_item_Ok in Hp as [Hp _]. cbn. by rewrite Hp, IH. }
  assert (NoDup out.*1) as Hnd by (rewrite Hk; apply NoDup_fst_map_to_list).
  intros h. destruct (objects !! h) as [item|] eqn:E.
  - apply elem_of_map_to_list in E. apply list_elem_of_lookup in E as [i E].
    destruct (Forall2_lookup_l _ _ _ _ _ Hout E) as ([h' o] & Hin & Hp). apply list_elem_of_lookup_2 in Hin.
    apply typed_item_Ok in Hp as [Hh Ho]. cbn in Hh, Ho. subst h'. exists o. split; [|done].
    by apply elem_of_list_to_map_1.
  - apply not_elem_of_list_to_map_1. rewrite Hk. intros ([h' item] & -> & Hin)%list_elem_of_fmap.
    apply elem_of_map_to_list in Hin. cbn in E. congruence.
Qed.

Lemma typed_objects_spec objects t : _typed_objects objects = Ok t ↔ decoded objects t.
Proof.
  unfold _typed_objects. rewrite bind_Ok. setoid_rewrite mapM_res_Ok. split.
  - intros (out & Hout & [= <-]). by apply items_decoded.
  - intros Hd. assert (∃ out, Forall2 (λ kv p, typed_item kv = Ok p) (map_to_list objects) out) as [out Hout].
    { assert (∀ kv, kv ∈ map_to_list objects → ∃ p, typed_item kv = Ok p) as Hall.
      { intros [h item] Hin%elem_of_map_to_list. specialize (Hd h). rewrite Hin in Hd. destruct Hd as (o & _ & Ho).
        exists (h, o). by apply typed_item_Ok. }
      induction (map_to_list objects) as [|kv l IH]; [by exists []|].
      destruct (Hall kv) as [p Hp]; [by left|]. destruct IH as [out Hout]; [intros kv' Hin; apply Hall; by right|].
      exists (p :: out). by constructor. }
    exists out. split; [done|]. f_equal. eapply decoded_unique; [by apply items_decoded|done].
Qed.

Lemma decoded_size objects t : decoded objects t → size t = size objects.
Proof.
  intros Hd. rewrite <-!size_dom. f_equal. apply set_eq. intros h. rewrite !elem_of_dom. specialize (Hd h).
  destruct (objects !! h); [destruct Hd as (o & -> & _); split; eauto|rewrite Hd; by split; intros [? ?]].
Qed.

Lemma decoded_valid objects t h o : decoded objects t → t !! h = Some o → valid_object o.
Proof.
  intros Hd Ho. specialize (Hd h). destruct (objects !! h) as [item|]; [|congruence].
  destruct Hd as (o' & Ho' & Hp). apply decode_payload_valid in Hp as [Hv _]. congruence.
Qed.

(** ** Properties *)

(** C37: validation accepts exactly the coherent graphs: given a stack deeper than the
    number of objects, the check returns if and only if all payloads decode to valid objects,
    the counts agree, no chunk, protection record or pack is listed twice, protection and
    packs refer to known chunks (the packs with their lengths), and every COMPLETE snapshot,
    no other, has a root that repeats its entry and a finite tree, without cycles, of files
    whose recipe is the hash of known chunks of the announced sizes, one and the same list of
    chunks wherever a recipe occurs; and the recursion over the trees never exhausts that
    stack. *)
Theorem validation_accepts_coherent_graphs blake3 stack catalog_hash objects snapshots chunks records :
  size objects < stack →
  (validate_metadata_object_graph_semantics blake3 stack catalog_hash objects snapshots chunks records = Ok ()
   ↔ ∃ typed, decoded objects typed ∧ coherent_graph blake3 typed catalog_hash snapshots chunks records)
  ∧ validate_metadata_object_graph_semantics blake3 stack catalog_hash objects snapshots chunks records ≠ Err RecursionError.
Proof.
  intros Hst. unfold validate_metadata_object_graph_semantics.
  assert (∀ t, decoded objects t → enough_stack t stack ∅) as Henough.
  { intros t Ht%decoded_size. split; [apply empty_subseteq|]. rewrite size_empty. lia. }
  split.
  - rewrite bind_Ok. setoid_rewrite typed_objects_spec.
    split; intros (t & Ht & H); exists t; (split; [exact Ht|]); revert H; apply typed_spec;
      first [by apply Henough|intros h o; by eapply decoded_valid].
  - apply shallow_bind.
    + unfold _typed_objects. apply shallow_bind; [|done]. apply shallow_mapM. intros kv. unfold typed_item.
      by destruct (decode_metadata_object_payload _ _).
    + intros t Ht%typed_objects_spec. by apply shallow_typed, Henough.
Qed.

(** ** A small graph *)

Definition key (c : N) : pystr := replicate 64 c.
Definition ref_to (t : MetadataObjectType) (c : N) : ObjectRef := {| ref_type := t; ref_hash := key c |}.
Definition plain (o : MetadataPlainObject) : GraphObjectPayload := {| gop_object_type := object_type o; gop_payload := object_payload o |}.

Definition small_chunks : list ChunkRef := [{| cref_order := 0; cref_chunk_hash := key 97; cref_size := 5 |}].
Definition small_recipe_hash : pystr :=
  match compute_recipe_hash toy_blake3 (chunk_tuples {| clist_chunks := small_chunks |}) with Ok h => h | Err _ => [] end.

Definition small_entry (name : pystr) (kind : item_kind) (sz : Z) (r : ObjectRef) : TreeEntry := {|
  tent_name := name; tent_item_type := kind; tent_size := sz; tent_mode := 420; tent_mtime := NInt 0; tent_mtime_ns := 0;
  tent_uid := 0; tent_gid := 0; tent_ref := r |}.

Definition small_uuid : pystr := u "00000000-0000-0000-0000-000000000000".

(** A snapshot of a directory with a file of one chunk, whose known size is [sz]; its
    directory lists the tree [below]. *)
Definition small_graph (sz : Z) (below : N) : gmap pystr GraphObjectPayload := list_to_map [
  (key 48, plain (OCatalog {|
     cat_vault_id := replicate 32 97%N; cat_snapshot_index := ref_to SNAPSHOT_INDEX 49;
     cat_known_chunk_index := ref_to KNOWN_CHUNK_INDEX 50; cat_protection_index := None; cat_snapshot_count := 1;
     cat_known_chunk_count := 1; cat_protection_record_count := 0; cat_erasure_data_pack_index := None;
     cat_erasure_data_pack_count := 0; cat_erasure_data_pack_chunk_count := 0; cat_erasure_data_pack_shard_count := 0 |}));
  (key 49, plain (OSnapshotIndex {| sidx_snapshots := [{|
     sent_snapshot_uuid := small_uuid; sent_status := COMPLETE; sent_root_path := u "/d";
     sent_origin_node_id := replicate 32 97%N; sent_created_at := u "now"; sent_total_size := 5; sent_total_files := 1;
     sent_snapshot_root := Some (ref_to SNAPSHOT_ROOT 52); sent_error := None |}] |}));
  (key 50, plain (OKnownChunkIndex {|
     kidx_shards := [{| ish_prefix := u "aa"; ish_count := 1; ish_ref := ref_to KNOWN_CHUNK_SHARD 51 |}];
     kidx_total_chunks := 1 |}));
  (key 51, plain (OKnownChunkShard {| kshard_prefix := u "aa"; kshard_chunks := [{| kch_chunk_hash := key 97; kch_size := sz |}] |}));
  (key 52, plain (OSnapshotRoot {|
     sroot_snapshot_uuid := small_uuid; sroot_root_path := u "/d"; sroot_origin_node_id := replicate 32 97%N;
     sroot_created_at := u "now"; sroot_total_size := 5; sroot_total_files := 1; sroot_root_tree := ref_to TREE 53 |}));
  (key 53, plain (OTree {| tree_entries := [small_entry (u "a") ItemDir 0 (ref_to TREE below);
                                            small_entry (u "f") ItemFile 5 (ref_to FILE 55)] |}));
  (key 54, plain (OTree {| tree_entries := [] |}));
  (key 55, plain (OFile {| file_size := 5; file_recipe_hash := small_recipe_hash; file_recipe := ref_to RECIPE 56 |}));
  (key 56, plain (ORecipe {| recipe_recipe_hash := small_recipe_hash; recipe_chunk_count := 1; recipe_total_size := 5;
                             recipe_chunk_list := ref_to CHUNK_LIST 57 |}));
  (key 57, plain (OChunkList {| clist_chunks := small_chunks |}))].

Lemma small_graph_size sz below : size (small_graph sz below) = 10.
Proof. unfold small_graph. rewrite map_size_list_to_map; [reflexivity|]. cbn [fst fmap list_fmap]. by_compute. Qed.

Notation validate_small g := (validate_metadata_object_graph_semantics toy_blake3 11 (key 48) g (Some 1%Z) (Some 1%Z) (Some 0%Z)).
Notation coherent_small g := (∃ typed, decoded g typed ∧ coherent_graph toy_blake3 typed (key 48) (Some 1%Z) (Some 1%Z) (Some 0%Z)).

(** The graph is coherent; with another size for its chunk, or a directory inside itself, it
    is not. *)
Lemma validation_accepts_coherent_graphs_witness :
  coherent_small (small_graph 5 54) ∧ ¬ coherent_small (small_graph 6 54) ∧ ¬ coherent_small (small_graph 5 53).
Proof.
  assert (∀ sz below, size (small_graph sz below) < 11) as Hs by (intros; rewrite small_graph_size; lia).
  pose proof (λ sz below, proj1 (validation_accepts_coherent_graphs toy_blake3 11 (key 48) (small_graph sz below)
    (Some 1%Z) (Some 1%Z) (Some 0%Z) (Hs sz below))) as H.
  assert (validate_small (small_graph 5 54) = Ok ()) as H1 by (vm_compute; reflexivity).
  assert (validate_small (small_graph 6 54) = Err MetadataObjectError) as H2 by (vm_compute; reflexivity).
  assert (validate_small (small_graph 5 53) = Err MetadataObjectError) as H3 by (vm_compute; reflexivity).
  split; [exact (proj1 (H _ _) H1)|]. split; intros Hc.
  - apply (proj2 (H _ _)) in Hc. rewrite H2 in Hc. discriminate Hc.
  - apply (proj2 (H _ _)) in Hc. rewrite H3 in Hc. discriminate Hc.
Defined.
