(* ===== verification/MetaGc.v ===== *)
(** * Garbage collection of the metadata objects

    [metadata/objects/gc.py] without the packs: what the newest catalogue reaches is read
    through the store of MetaStore; the files of the other objects are swept from the tree of
    LocalGc when they are older than the grace period. *)

From S2P Require Import Prelude PyStr Common LocalGc Json MetaModels MetaCodec MetaWalk MetaStore.

(** [os.fspath] of an absolute path. *)
Definition path_text (p : list pystr) : pystr := p ≫= λ c, 47%N :: c.

Definition stobj : pystr := u ".stobj".
(** [path.stem] of a name that ends in [.stobj]. *)
Definition object_stem (name : pystr) : pystr := take (length name - length stobj) name.
Definition ends_with_stobj (name : pystr) : bool :=
  (length stobj <=? length name) && bool_decide (drop (length name - length stobj) name = stobj).
(** [_STORAGE_FILE_RE.fullmatch] *)
Definition is_storage_file (name : pystr) : bool := hex_of_length 64 (take 64 name) && bool_decide (drop 64 name = stobj).

(** ** _sweep_objects

    The counters are those of LocalGc, [files_retained_by_policy] for [files_live]; the
    number of malformed files is the result. *)
Section sweep.
Context (env : GcEnv) (tags : list Z).

(** [_iter_object_files] *)
Definition _iter_object_files (objects_dir : list pystr) : generator := λ A f a,
  names ← sys_iterdir env objects_dir;
  sfold (λ a prefix, enter_dir env tags (objects_dir ++ [prefix]) (length prefix =? 2)%nat (
    names ← sys_iterdir env (objects_dir ++ [prefix]);
    sfold (λ a name,
      if ends_with_stobj name then f a (objects_dir ++ [prefix; name]) else mret a) names a) a) names a.

Definition sweep_one (root : list pystr) (live_storage_ids : list pystr) (cutoff : Q) (dry_run : bool)
    (malformed : Z) (p : list pystr) : SM GcState Z :=
  smodify (count 1 0 0 0 0 0 0);;
  let storage_id := object_stem (path_name p) in
  if negb (is_storage_file (path_name p)) || bool_decide (path_name (removelast p) ≠ take 2 storage_id)
  then mret (malformed + 1)%Z
  else if bool_decide (storage_id ∈ live_storage_ids) then smodify (count 0 0 0 1 0 0 0);; mret malformed
  else
    seen ← attempt (validate_gc_regular_file env tags root p);
    match seen with
    | Err _ => smodify (log [CandidateRejected p] ∅ []);; mret malformed
    | Ok stat_result =>
        if negb (Qle_bool (st_mtime stat_result) cutoff) then smodify (count 0 0 0 0 1 0 0);; mret malformed
        else
          smodify (count 0 1 0 0 0 (st_size stat_result) 0);;
          smodify (log [] ∅ [p]);;
          if dry_run then mret malformed
          else delete_if_same env tags root p stat_result;; mret malformed
    end.

Definition _sweep_objects (root : list pystr) (live_storage_ids : list pystr) (cutoff : Q) (dry_run enabled : bool)
    : SM GcState Z :=
  let objects_dir := root ++ [u "objects"] in
  there ← if enabled : bool then sys_exists env objects_dir else mret false;
  if negb there then mret 0%Z
  else
    st ← sys_lstat env objects_dir;
    match st with
    | Err _ => smodify (log [InspectionFailed objects_dir] ∅ []);; mret 0%Z
    | Ok objects_stat =>
        if is_filesystem_redirection tags objects_stat || negb (S_ISDIR (st_mode objects_stat))
        then smodify (log [RootNotDirectory] ∅ []);; mret 0%Z
        else
          malformed ← _iter_object_files objects_dir Z (sweep_one root live_storage_ids cutoff dry_run) 0%Z;
          fsync_touched_dirs env;;
          mret malformed
    end.
End sweep.

(** ** MetadataObjectGarbageCollector.collect *)

(** Which of the looks at the files of the store fail: the header, the pointer and the
    objects; at each, looking at the path and reading it. *)
Record MarkFaults := {
  mf_header : bool * bool; mf_pointer : bool * bool; mf_object : pystr → bool * bool }.

Section collect.
Context (blake3 : bytes → bytes) (blake3_keyed : bytes → bytes → bytes).
Context (scrypt : bytes → bytes → ScryptCost → res bytes) (hkdf_sha256 : bytes → bytes → bytes).
Context (aead_decrypt : bytes → bytes → bytes → bytes → res bytes).
Context (faults : MarkFaults) (passphrase : bytes).
(** The bytes behind the paths of the store in a given tree, which the model of the tree leaves
    out. *)
Context (contents : FS → gmap pystr bytes).

Section marking.
Context (files : gmap pystr bytes).

(** [store.get_object_bytes(object_hash=...)] *)
Definition mark_read (root : pystr) (store : MetadataObjectStore) (object_hash : pystr) : res bytes :=
  (get_object_bytes root blake3 blake3_keyed aead_decrypt store (mf_object faults object_hash).1 (mf_object faults object_hash).2
     object_hash None files).1.

Definition opened_store (root : pystr) : res MetadataObjectStore :=
  (open_existing root scrypt hkdf_sha256 (mf_header faults).1 (mf_header faults).2 passphrase files).1.
Definition latest_pointer (root : pystr) (store : MetadataObjectStore) : res LatestMetadataPointer :=
  (read_latest_pointer root aead_decrypt store (mf_pointer faults).1 (mf_pointer faults).2 files).1.

(** The live hashes and their storage ids; the walk always ends. *)
Definition mark (root : pystr) : res (list pystr * list pystr) :=
  store ← opened_store root;
  latest ← latest_pointer root store;
  live_hashes ← default (Err MetadataObjectGraphWalkError)
    (collect_reachable_object_hashes blake3 (mark_read root store) (stored_names blake3 aead_decrypt store files)
       (lp_catalog_hash latest));
  live_storage_ids ← mapM_res (object_storage_id blake3_keyed store) live_hashes;
  Ok (live_hashes, live_storage_ids).

End marking.

(** The tree in which the marking reads: the lock of the store keeps the other users of its
    files out from here on. *)
Definition locked_tree (env : GcEnv) : SM GcState FS := _ ← others env; sgets gs_fs.

(** With [include_packs] off. The results are the numbers of live objects and of malformed
    files. *)
Definition collect (env : GcEnv) (tags : list Z) (now : Q) (object_store_dir : list pystr)
    (object_grace_seconds pack_grace_seconds : Z) (dry_run include_objects : bool) : SM GcState (Z * Z) :=
  root ← sys_realpath env object_store_dir;
  slift (raise_if (object_grace_seconds <? 0)%Z MetadataObjectGarbageCollectionError);;
  slift (raise_if (pack_grace_seconds <? 0)%Z MetadataObjectGarbageCollectionError);;
  tree ← locked_tree env;
  '(live_hashes, live_storage_ids) ← slift (mark (contents tree) (path_text root));
  malformed ← _sweep_objects env tags root live_storage_ids (now - inject_Z object_grace_seconds)%Q dry_run include_objects;
  mret (Z.of_nat (length live_hashes), malformed).
End collect.

(** ** What a sweep takes *)

Lemma storage_file_name name : is_storage_file name = true →
  hex_of_length 64 (object_stem name) = true ∧ name = object_stem name ++ stobj.
Proof.
  unfold is_storage_file, object_stem. intros [Hh Ht%bool_decide_eq_true]%andb_true_iff.
  assert (length (take 64 name) = 64) as Hl.
  { unfold hex_of_length in Hh. apply andb_true_iff in Hh as [Hh _]. by apply Nat.eqb_eq in Hh. }
  assert (name = take 64 name ++ stobj) as E by (by rewrite <-Ht, take_drop).
  replace (length name - length stobj) with 64; [split; [exact Hh|exact E]|]. rewrite E, length_app, Hl. lia.
Qed.

(** The names a sweep may delete. *)
Definition sweepable (live : list pystr) (p : list pystr) : Prop :=
  ∃ p' sid, p = p' ++ [sid ++ stobj] ∧ hex_of_length 64 sid = true ∧ sid ∉ live.

Lemma sweepable_name p live : is_storage_file (path_name p) = true → object_stem (path_name p) ∉ live → sweepable live p.
Proof.
  intros [Hh Hn]%storage_file_name Hl. destruct (last p) as [name|] eqn:E; [|unfold path_name in Hh; by rewrite E in Hh].
  unfold path_name in Hn, Hh, Hl. rewrite E in Hn, Hh, Hl. apply last_Some in E as [p' ->].
  exists p', (object_stem name). split; [exact (f_equal (λ n, p' ++ [n]) Hn)|done].
Qed.

(** What nobody touches at [q]. *)
Definition same_at (q : list pystr) (s s' : GcState) : Prop := gs_fs s' !! q = gs_fs s !! q.
#[export] Instance same_at_preorder q : PreOrder (same_at q).
Proof. split; unfold same_at; [by intros s|]. intros s1 s2 s3 H K. congruence. Qed.

Section sweeping.
Context (env : GcEnv) (tags : list Z) (fs0 : FS) (q : list pystr) (Hq : ∀ n fs, ge_others env n fs !! q = fs !! q).
Context (root live : list pystr) (cutoff : Q) (dry_run : bool).

Notation taken := (deletable env tags fs0 root (Some cutoff) dry_run None (sweepable live) q).
Notation R := (fate env fs0 q taken).

Lemma objects_yield objects_dir : yields R (_iter_object_files env tags objects_dir) (λ _, True).
Proof.
  intros A f a Hf. apply respects_bind; [apply _|apply (walk_iterdir env R); by apply fate_others|]. intros names.
  apply walk_sfold; [apply _|]. intros a1 prefix. apply (walk_enter_dir env tags R); [by apply fate_others|].
  apply respects_bind; [apply _|apply (walk_iterdir env R); by apply fate_others|]. intros names'.
  apply walk_sfold; [apply _|]. intros a2 name. destruct (ends_with_stobj name); [by apply Hf|apply respects_ret, _].
Qed.

Lemma fate_then {A} f (a : A) : (∀ s, gs_fs (f s) = gs_fs s) → sm_respects R (smodify f;; mret a).
Proof. intros Hf. apply respects_bind; [apply _|by apply fate_same_fs|]. intros _. apply respects_ret, _. Qed.

Lemma fate_sweep_one malformed p : sm_respects R (sweep_one env tags root live cutoff dry_run malformed p).
Proof.
  apply respects_bind; [apply _|by apply fate_same_fs|]. intros _. cbn zeta.
  destruct (negb (is_storage_file (path_name p)) || _) eqn:Ename; [apply respects_ret, _|].
  destruct (bool_decide (object_stem (path_name p) ∈ live)) eqn:Hlive; [by apply fate_then|].
  apply bool_decide_eq_false in Hlive. apply orb_false_iff in Ename as [Hname%negb_false_iff _].
  apply respects_bind; [apply _|apply respects_attempt, (walk_validate env tags R); by apply fate_others|]. intros [st|]; [|by apply fate_then].
  destruct (Qle_bool _ _) eqn:Eage; cbn [negb]; [|by apply fate_then].
  apply respects_bind; [apply _|by apply fate_same_fs|]. intros _.
  apply respects_bind; [apply _|by apply fate_same_fs|]. intros _.
  destruct dry_run eqn:Edry; [apply respects_ret, _|]. apply respects_bind; [apply _| |intros _; apply respects_ret, _].
  rewrite <-Edry at 1. apply (fate_delete env tags fs0 q Hq _ root (Some cutoff) dry_run None (sweepable live) (λ e H, H) p st cutoff);
    [by apply sweepable_name|done|done|by apply Qle_bool_iff|done].
Qed.

Lemma fate_sweep enabled : sm_respects R (_sweep_objects env tags root live cutoff dry_run enabled).
Proof.
  apply respects_bind; [apply _| |].
  { destruct enabled; [apply (walk_exists env R); by apply fate_others|apply respects_ret, _]. }
  intros there. destruct (negb there); [apply respects_ret, _|].
  apply respects_bind; [apply _|apply (walk_lstat env R); by apply fate_others|]. intros [st|]; [|by apply fate_then].
  destruct (_ || _); [by apply fate_then|].
  apply respects_bind; [apply _| |intros malformed; by apply fate_then].
  apply objects_yield. intros a p _. apply fate_sweep_one.
Qed.
End sweeping.

(** *** What was marked *)

Section marking.
Context (blake3 : bytes → bytes) (blake3_keyed : bytes → bytes → bytes).
Context (scrypt : bytes → bytes → ScryptCost → res bytes) (hkdf_sha256 : bytes → bytes → bytes).
Context (aead_decrypt : bytes → bytes → bytes → bytes → res bytes).
Context (faults : MarkFaults) (files : gmap pystr bytes) (passphrase : bytes) (root : pystr).

Notation read := (mark_read blake3 blake3_keyed aead_decrypt faults files root).

Lemma mark_read_faultless store h b : read store h = Ok b →
  read_from root blake3 blake3_keyed aead_decrypt store files h = Ok b.
Proof.
  unfold mark_read, read_from, get_object_bytes. destruct (mf_object faults h) as [sf rf]. cbn [fst snd]. rewrite !sm_bind_spec. cbn [slift].
  destruct (object_storage_id _ _ _) as [sid|]; [|done]. cbn [slift]. unfold exists_at. rewrite !sm_bind_spec. cbn [sget].
  destruct sf; [done|]. cbn [mret sm_ret]. destruct (negb _); [done|]. rewrite !sm_bind_spec. unfold load_json_file.
  rewrite !sm_bind_spec. cbn [sget]. destruct (files !! _) as [content|]; [|done]. by destruct rf.
Qed.

(** The pointer names a hash. *)
Lemma pointer_catalog_hash store latest : latest_pointer aead_decrypt faults files root store = Ok latest →
  is_valid_blake3_hex (lp_catalog_hash latest) = true.
Proof.
  unfold latest_pointer, read_latest_pointer, exists_at, load_json_file. rewrite !sm_bind_spec. cbn [sget].
  destruct (mf_pointer faults).1; [done|]. cbn [mret sm_ret]. destruct (negb _); [done|]. rewrite !sm_bind_spec. cbn [sget].
  destruct (files !! _) as [content|]; [|done]. destruct (mf_pointer faults).2; [done|]. cbn [slift].
  destruct (load_json content) as [raw|]; [|done]. cbn [slift fst]. intros H.
  apply bind_Ok in H as (u1 & _ & H). apply bind_Ok in H as (u2 & _ & H). apply bind_Ok in H as ([n c] & _ & H).
  apply bind_Ok in H as (plaintext & _ & H). unfold decode_pointer in H. do 13 apply bind_Ok in H as (? & _ & H).
  apply construct_inv in H as [<- H]. unfold check_pointer in H. apply bind_Ok in H as (u3 & _ & H).
  apply bind_Ok in H as (u4 & Hh & _). by apply raise_if_Ok, negb_false_iff in Hh.
Qed.

(** A mark that returns has the ids of exactly the objects that an intact graph needs. *)
Lemma mark_spec live_hashes live_storage_ids :
  mark blake3 blake3_keyed scrypt hkdf_sha256 aead_decrypt faults passphrase files root = Ok (live_hashes, live_storage_ids) →
  ∃ store latest, opened_store scrypt hkdf_sha256 faults passphrase files root = Ok store
    ∧ latest_pointer aead_decrypt faults files root store = Ok latest
    ∧ intact blake3 (read store) (lp_catalog_hash latest)
    ∧ ∀ h t sid, reach blake3 (read store) (lp_catalog_hash latest) h t →
        object_storage_id blake3_keyed store h = Ok sid → sid ∈ live_storage_ids.
Proof.
  unfold mark. intros H. apply bind_Ok in H as (store & Hs & H). apply bind_Ok in H as (latest & Hl & H).
  exists store, latest. split; [done|]. split; [done|]. pose proof (pointer_catalog_hash _ _ Hl) as Hroot.
  assert (∀ h b, read store h = Ok b → h ∈ stored_names blake3 aead_decrypt store files) as Hnames
    by (intros h b Hb%mark_read_faultless; by eapply read_names).
  apply bind_Ok in H as (hashes & Hw & H). apply bind_Ok in H as (ids & Hids & [= <- <-]).
  destruct (walk_collects blake3 (read store) _ (lp_catalog_hash latest) (lp_catalog_hash latest) Hnames) as
    [(Hi & objects & E & _ & Hr & _)|(_ & e & E)]; [by apply require_valid| |];
    unfold collect_reachable_object_hashes in Hw; rewrite E in Hw; cbn in Hw; [|done].
  injection Hw as <-. split; [done|]. intros h t sid Hre Hsid.
  assert (h ∈ objects.*1) as Hin by (apply Hr; by exists t). apply mapM_res_Ok in Hids.
  apply list_elem_of_lookup in Hin as [i Hin]. destruct (Forall2_lookup_l _ _ _ _ _ Hids Hin) as (sid' & Hi' & Hs').
  assert (sid' = sid) as -> by congruence. by eapply list_elem_of_lookup_2.
Qed.
End marking.

(** ** Properties *)

(** What a collection knew about the entry at [q] when it deleted it: which catalogue it had
    read, that all the objects that catalogue needs could be read, and that the entry was
    named by an id that is none of theirs. *)
Definition unreferenced_object (blake3 : bytes → bytes) (blake3_keyed : bytes → bytes → bytes)
    (aead_decrypt : bytes → bytes → bytes → bytes → res bytes) (faults : MarkFaults) (files : gmap pystr bytes)
    (root : pystr) (store : MetadataObjectStore) (q : list pystr) : Prop :=
  ∃ latest sid, latest_pointer aead_decrypt faults files root store = Ok latest
    ∧ intact blake3 (mark_read blake3 blake3_keyed aead_decrypt faults files root store) (lp_catalog_hash latest)
    ∧ last q = Some (sid ++ stobj) ∧ hex_of_length 64 sid = true
    ∧ (∀ h t, reach blake3 (mark_read blake3 blake3_keyed aead_decrypt faults files root store) (lp_catalog_hash latest) h t →
         object_storage_id blake3_keyed store h ≠ Ok sid).


(** ** A small store with an object that nothing refers to *)

Definition toy_scrypt (passphrase salt : bytes) (cost : ScryptCost) : res bytes := Ok salt.
Definition toy_hkdf (key info : bytes) : bytes := replicate 32 Byte.x00.
Definition no_mark_faults : MarkFaults := {|
  mf_header := (false, false); mf_pointer := (false, false); mf_object := λ _, (false, false) |}.
Definition vault_files : gmap pystr bytes :=
  <[header_path (u "/m") := canonical_json_bytes (header_payload (replicate 16 Byte.x00) (mos_cost toy_store))]> vault_export.2.

Definition object_entry (sid : pystr) : list pystr := [u "m"; u "objects"; take 2 sid; sid ++ stobj].
Definition garbage_id : pystr := replicate 64 97%N.
Definition live_id : pystr := hexdigest (toy_keyed [] (encode_utf8 (weak_hash empty_vault))).
Definition vault_fs : FS := list_to_map [
  ([u "m"], gc_entry 16877 1); ([u "m"; u "objects"], gc_entry 16877 2);
  ([u "m"; u "objects"; take 2 garbage_id], gc_entry 16877 3); (object_entry garbage_id, gc_entry 33188 4);
  ([u "m"; u "objects"; take 2 live_id], gc_entry 16877 5); (object_entry live_id, gc_entry 33188 6)].

Definition vault_gc (include_objects : bool) : SM GcState (Z * Z) :=
  collect weak_digest toy_keyed toy_scrypt toy_hkdf toy_decrypt no_mark_faults [Byte.x01] (λ _, vault_files) quiet_gc [] 1000 [u "m"]
    10 0 false include_objects.

Definition vault_gc_result : res (Z * Z) * GcState := vault_gc true (initial_state vault_fs).

Lemma vault_gc_effect :
  (λ r : res (Z * Z) * GcState, (r.1, gs_fs r.2 !! object_entry garbage_id, gs_fs r.2 !! object_entry live_id)) vault_gc_result
  = (Ok (3%Z, 0%Z), None, Some (gc_entry 33188 6)).
Proof. vm_compute. reflexivity. Qed.
Lemma garbage_there : vault_fs !! object_entry garbage_id = Some (gc_entry 33188 4).
Proof. vm_compute. reflexivity. Qed.

